(* ===== verification/_CoqProject ===== *)
-Q . S2P
Prelude.v
Core.v
Effect.v
SqlTx.v
SqlValues.v
Iter.v
Registry.v
Samples.v
ProjStore.v
Context.v
Log.v
Backoff.v
MemStore.v
SqlEvents.v
SqliteStore.v
PgStore.v
KurrentClient.v
Kurrent.v
CommandHandler.v
MemWorld.v
CommandBus.v
EventHandlers.v
MemProjStore.v
SqlProjection.v
SqliteProjStore.v
ProjSim.v
ProjAgree.v
PgProjStore.v
PgUnits.v
Runner.v
Membership.v
ProjStatus.v
Segment.v
SegmentLoop.v
RunnerRun.v
Delivery.v
SegmentProof.v
TxWorld.v
AutoTypes.v
AutoStore.v
SqlAutomation.v
SqliteAutoStore.v
AutoSim.v
AutoAgree.v
PgAutoStore.v
PgAutoAgree.v
PgLeases.v
ClaimScheduler.v
AutoWorld.v
BatchRun.v
AutoRunner.v
QueryBus.v
Telemetry.v
TelemetryHandlers.v
TelemetryEvents.v
TelemetryProj.v
TelemetryAuto.v
Logging.v
TelemetryExamples.v
DashEvents.v
DashView.v
DashAuto.v
DashHub.v
Dashboard.v
DashWorld.v
CommandExamples.v
ProjectionExamples.v
AutomationExamples.v
SqlExamples.v
KurrentExamples.v
SqlProjExamples.v
SqlAutoExamples.v
DashExamples.v
SuiteTest.v
StoreSuite.v
ReaderSuite.v
ProjectionSuite.v
TodoList.v
AutomationSuite.v
SuiteRuns.v
