(* ===== verification/Prelude.v ===== *)
(** * Verification of the eventsourcing library (Go)

    A library for event-sourced programs.  Commands are decided on the state
    folded from a stream of events, and the decision is appended to the
    stream; projections follow the global log of events and keep read models;
    queries read those; automations work through todo lists that projections
    keep.  This library models the in-process parts of it and proves what
    makes each correct.  Paths are relative to [src/].

    ** The parts and how they interact

    Command side.  [CommandBus.Dispatch] routes a command to the worker of its
    aggregate's shard, which runs a handler made by [NewCommandHandler]; the
    handler loads the stream from an [EventStore], folds it, decides, and
    saves, and retries when another writer was faster.  The in-memory store is
    one [EventStore]; it encodes events through the event registry and hands
    them out through pull iterators and pages of a [GlobalReader].  The stores
    over SQLite and PostgreSQL keep the same rows in a table and answer by
    statements; a SQLite database has one writer, while transactions of
    PostgreSQL run side by side under locks of the stream and of the log.

    Projection side.  A [projection.Runner] has one loop per segment.  The
    loop claims its segment in a [Store], reads pages of the log, applies the
    events and commits the checkpoint with the writes of the handler; it
    dead-letters events, replays parked streams and rebuilds.  Heartbeats
    spread the segments over the instances.  Statuses and probes report how
    far a projection is.

    Automation side.  An [automation.Runner] waits for its projections, asks
    its scheduler for batches, and runs each batch in a goroutine of its own.
    The default scheduler leases segments in an automation [Store] and claims
    items of a todo list.

    Dashboard.  A hub reads the statuses that the projections and automations
    keep in their stores, for every open page at once; handlers page through
    the log backwards and record requests to rebuild and to pause.

    Telemetry and logging wrap handlers, stores and work: a wrapper reports
    through OpenTelemetry, or to a logger, and calls what it wraps.

    Query side.  A [QueryGateway] finds the handler a [QueryBus] has for its
    query and result types.

    ** The files

    - [Prelude]: machine integers, Go slices, sums over lists, outcomes that
      return or panic, and the lemmas and tactics the other files share.
    - [Core]: commands, events, envelopes, stream states and the tree of
      errors with [errors.Is] and [errors.As] ([command.go], [event.go],
      [envelope.go], [revision.go], [errors.go], [eventstore.go]).
    - [Iter]: iterators ([iter.go]).  [Registry]: names, factories, encoding
      ([event_registry.go], [event_encoding.go]).  [Context]: what a context
      carries ([context.go], [projection/context.go]).
    - [Log]: the abstract log an event store implements.  [MemStore]: the
      in-memory event store ([memory/eventstore.go]), which refines it.
    - [SqlEvents]: the table [events] and the statements both SQL stores send
      it.  [SqliteStore]: [sqlite/eventstore.go], [sqlite/import.go].
      [PgStore]: [postgres/eventstore.go], whose transactions are the steps of
      a transition system.
    - [KurrentClient]: what the store over KurrentDB uses of its client, as a
      class with laws.  [Kurrent]: [kurrentdb/eventstore.go],
      [kurrentdb/errors.go].  [Backoff]: the retry loop of cenkalti/backoff.
    - [CommandHandler]: [NewCommandHandler] and its options
      ([command_handler.go]) against the class [EventStoreLaws], and [MemWorld]:
      the in-memory store as an instance, with other writers in between.
    - [CommandBus]: Dispatch, workers and Stop as a transition system
      ([command_bus.go]).  [EventHandlers]: typed handlers and groups
      ([event_handler.go]).  [QueryBus]: queries ([query_bus.go],
      [query_gateway.go], [middleware.go]).
    - [ProjStore], [MemProjStore]: what a projection keeps and the in-memory
      store of it ([projection/store.go], [memory/projection_store.go]).
    - [SqlTx]: statements that may fail and transactions that roll back.
      [SqlValues]: durations and instants in columns.
      [SqlProjection]: the tables of a projection and the statements on them
      ([sqlite/schema.sql]).  [SqliteProjStore]: [sqlite/projection_store.go].
      [ProjSim], [ProjAgree]: the relation between its rows and the in-memory
      store, and that every call keeps it and gets the same answer.
      [PgProjStore]: [postgres/projection_store.go], call by call; [PgUnits]:
      its calls about segments as concurrent transactions with row locks.
    - [Runner]: the definition and the memory of a projection runner
      ([projection/projection.go], [projection/runner.go]).  [Membership]:
      quotas, reservations, shedding ([projection/instances.go]).
      [ProjStatus]: statuses and probes ([projection/status.go],
      [projection/probe.go]).
    - [Effect]: the monad of a runner's methods and its Hoare logic.
      [Segment], [SegmentLoop]: the methods of a segment's goroutine
      ([projection/segment.go], [projection/replay.go],
      [projection/runner.go]).  [Delivery]: the invariant they keep, against
      the class [StoreLaws]; [SegmentProof]: that they keep it; [TxWorld]: a
      store that satisfies the laws.  [RunnerRun]: [start], [Run], [Rebuild]
      and [ReplayStream].
    - [AutoTypes], [AutoStore]: the values of the automations and the
      in-memory store ([automation/store.go], [memory/automation_store.go]).
      [ClaimScheduler]: the default scheduler ([automation/claim_scheduler.go])
      against the interface of its store, and [AutoWorld]: the in-memory store
      behind it.  [SqlAutomation]: the tables of an automation and the
      statements on them; [SqliteAutoStore]: [sqlite/automation_store.go];
      [AutoSim], [AutoAgree]: its relation to the in-memory store, fair order
      included.  [PgAutoStore]: [postgres/automation_store.go];
      [PgAutoAgree]: its relation to the SQLite store; [PgLeases]: the order
      in which its transactions lock rows.  [BatchRun]: [runBatch]; [AutoRunner]: [NewRunner], [Run],
      [RunOnce] and [work] ([automation/automation.go]).
    - [DashEvents], [DashView], [DashAuto]: what the dashboard shows of the log,
      of a projection and of an automation ([dashboard/events.go],
      [dashboard/view.go], [dashboard/automations.go]).  [DashHub]: the hub
      that serves every open page as a transition system ([dashboard/hub.go]).
      [Dashboard]: options, snapshots and handlers ([dashboard/dashboard.go]).
      [DashWorld]: the dashboard over the in-memory stores.
    - [Telemetry]: signals, instruments and options of [telemetry], the order
      spans must keep, and what the program behind a wrapper sees.
      [TelemetryHandlers], [TelemetryEvents], [TelemetryProj], [TelemetryAuto]:
      the wrappers of handlers, event stores, projections and automations
      ([telemetry/command_handler.go], [query_handler.go], [event_handler.go],
      [event_store.go], [projection_store.go], [projection.go],
      [automation.go], [automation_store.go]).  [Logging]: [logging].
    - [Samples], [CommandExamples], [ProjectionExamples],
      [AutomationExamples], [SqlExamples], [KurrentExamples],
      [SqlProjExamples], [SqlAutoExamples], [DashExamples], [TelemetryExamples]:
      concrete instances of the parameters, and a concrete run of the theorems
      that have hypotheses.

    - [SuiteTest]: tests as programs.  [StoreSuite], [ReaderSuite]: the suites
      of [eventsourcingtest], over any event store.  [ProjectionSuite]: for
      projection stores ([projection/projectiontest]).  [AutomationSuite]: for
      automation stores and todo lists ([automation/automationtest]).
      [SuiteRuns]: the stores modelled here pass them.  [TodoList]: the todo list of the examples
      ([examples/todolist/slices/taskstoarchive]).

    ** What the theorems show

    - The event store refines the log: what Save answers, what loads, pages
      and correlations return, and what JSON makes of it ([Save_refines_log],
      [load_returns_what_was_saved], [paging_reads_the_whole_log]).
    - The store over SQLite refines the same log, faults of the database
      included, and answers as the in-memory store does but for revisions past
      the end and positions above MaxInt64; an import copies a
      log whole ([sqlite_Save_refines_log], [sqlite_and_memory_agree],
      [Import_copies_the_log]); its prefix filter counts characters where the
      code counts bytes ([sqlite_prefix_filter_counts_characters]).
    - Concurrent saves over PostgreSQL are equivalent to the saves in the order
      of their commits, positions become visible in ascending order, and no two
      saves wait for each other ([concurrent_saves_are_serial],
      [positions_appear_in_order], [saves_never_deadlock]).
    - The store over KurrentDB keeps the contract through retries and other
      writers: a successful Save is one block where its expectation held, what
      loads is the stream, and pages read while others append miss nothing
      ([kurrent_Save_keeps_the_contract], [kurrent_load_reads_the_stream],
      [kurrent_page_is_complete], [kurrent_pages_read_everything],
      [kurrent_Head_is_the_newest_event]).
    - Command handlers lose no update under interference, save a decision as
      one append and one correlation chain, and save nothing when a command is
      rejected ([no_lost_update], [events_join_one_chain],
      [rejected_command_saves_nothing]); a pinned revision is checked only
      when saving, so it can decide on an older history
      ([pinned_revision_decides_on_stale_state]).
    - In every interleaving the command bus runs the commands of an aggregate
      in order, forgets none, and Stop returns after every dispatch has
      ([shard_is_a_serial_queue], [accepted_command_is_served],
      [Stop_waits_for_every_dispatch], [Stop_returns]).
    - A projection store fences lost claims and moves checkpoints only for
      owners, all or nothing; a segment delivers each of its events exactly
      once and in order, as applied or as a dead letter
      ([lost_lease_is_fenced_forever], [Commit_is_all_or_nothing],
      [work_delivers_exactly_once]); quotas cover the segments
      ([quotas_cover_the_segments]); starting gives up in time
      ([start_returns]).
    - The projection store over SQLite answers every history of calls as the
      in-memory one does, but for the age of a segment that was never claimed,
      and its Commit writes everything or nothing whatever
      statement fails ([sqlite_projection_store_refines_memory],
      [sqlite_Commit_is_all_or_nothing]).
    - Units of work over PostgreSQL, however they interleave and fail, are
      serial, keep the claims they run under, and can all finish
      ([pg_units_are_serial], [running_unit_keeps_its_claim],
      [pg_units_can_finish]); its Declare is not one transaction, and two of
      them can disagree ([concurrent_declares_disagree]).
    - Automation leases are exclusive, fenced and granted in a fair order; a
      running segment gets no second batch; items of one ordering key never
      overtake each other; [runBatch], [Run] and [RunOnce] account for every
      batch and return ([segment_lease_is_exclusive_and_fenced], [runBatch_returns],
      [Acquire_grants_in_fair_order], [running_segment_gets_no_second_batch],
      [ordering_key_is_never_overtaken], [batches_are_given_back_before_Close]);
      a release that fails strands the segments claimed in the same round
      ([failed_release_strands_the_claimed_segments]).
    - The automation store over SQLite answers every history of calls as the
      in-memory one does, and takes only free segments whatever fails
      ([sqlite_automation_store_refines_memory],
      [sqlite_Acquire_grants_free_segments_or_nothing]).
    - The one over PostgreSQL answers as they do at whole milliseconds; its
      Acquires never deadlock among themselves, but a Renew and an Acquire can
      ([pg_automation_store_refines_memory], [ordered_locks_never_deadlock],
      [renew_and_acquire_can_deadlock]).
    - Queries reach the first handler of their types, and what the middlewares
      answer comes back as their result type
      ([query_gateway_calls_its_handler], [query_results_are_typed]).

    - Evaluated on the runs of the repository's own suites, every store passes
      them; and a claimed task is not claimed again while it is leased
      ([event_stores_pass_their_contract],
      [projection_stores_pass_their_contract],
      [automations_pass_their_contract], [claimed_task_is_not_claimed_again]).
    - The dashboard's pages of events list the log, every open page has the
      latest snapshot, publishing never blocks, reads are spaced, only
      requests from its own page change a store, and what they change shows
      ([event_pages_list_the_log], [event_list_answers],
      [every_page_shows_the_latest_snapshot], [publishing_never_blocks],
      [reads_are_spaced], [only_the_page_changes_the_stores],
      [requested_rebuild_is_shown], [paused_automation_is_shown],
      [page_says_live_when_every_segment_is]).

    - Telemetry and logging change nothing for the program; a span is started
      once, used while it is open and ended once, also when a handler panics,
      and in-flight counters go back to where they were; the span of a handler
      links to the append of its event; a traced load reports what was read;
      a failure is logged once ([handlers_do_not_see_telemetry],
      [projection_store_does_not_see_telemetry],
      [automation_does_not_see_telemetry], [handler_spans_end_once],
      [handler_span_links_to_the_append], [load_span_covers_the_load],
      [handlers_do_not_see_logging], [failures_are_logged_once]); but a traced
      Save panics on revisions the stores answer
      ([traced_save_panics_on_large_revisions]).

    ** Conventions

    - A [uint64] is a [Z] in [0, 2^64) and every operation that can leave the
      range is followed by [u64].  Theorems about versions, positions, epochs
      and counters assume histories of fewer than [2^64] calls or events, the
      only way to overflow.  An [int64] and a duration saturate as Go's [time] does where
      the code relies on it.
    - A method under one lock is one function.  Where the lock is released, or
      goroutines run, the code is a transition system whose steps are the
      critical sections and the answers from outside, and theorems quantify
      over all sequences of steps.  [Commit] and [Reset] of a store run an
      arbitrary function between their looks at the claim.
    - The world of a component is everything outside its memory: clock, store,
      log, other processes.  Interfaces are records of operations with classes
      of laws ([EventStoreLaws], [StoreLaws], [KurrentLaws], the laws of
      [ClaimScheduler]),
      each with an instance in which the theorems' hypotheses hold.
    - A panic is [Panics]; a Go error is a value that keeps the chain of
      wrapped errors, and loses only formatted text.
    - A [float64] is a binary64 number of [SpecFloat].
    - Fuel.  [readBackwards] takes fuel for one page's reads (more than the log
      has events) and [back_turns] = 10 windows, since 4^9 windows of one
      position exceed [maxEventScan].  [All], [ReadAll]'s clients and [ReadAll] over KurrentDB take fuel; the theorems say how much
      is enough (one more than the items, or the pages, left) and that with it
      the result is complete.  [work] and [runSegment] loop until their context
      ends, so their fuel is a number of turns and every theorem about them
      holds for each number.  Loops over finite lists are structural.
    - A statement of SQL is a function on the rows its transaction sees, with
      the conditions, order and limit of its text.  The database may refuse any
      statement or commit: the refusals are an argument of the operation.  The
      clock a statement reads is the database's, in the ticks of its columns;
      ids, epochs and counters of INTEGER columns are taken to stay below
      [2^63], where SQLite stops; a larger number is refused by PostgreSQL's
      driver, which is one of the refusals.
    - JSON does not give everything back.  [json_event] and [json_value] are
      what decoding makes of an encoded event and metadata value: strings stay,
      integers become float64, other types one of the kinds JSON has
      ([JSONLaws]).  Strings are taken to be UTF-8, numbers to fit a float64,
      event types to decode what they encode under the same [EventType], and
      factories to return new zero values.
    - Parameters: encoding/json with these laws, google/uuid, the attempts
      of cenkalti/backoff, what JSON makes of a string, SHA-256 for fingerprints, the order of Go's map
      iteration, PostgreSQL's [hashtext], its collation, its columns of times
      and uuids and what a float of seconds keeps of an age, the propagator of
      OpenTelemetry, with laws that headers name their span.  FNV-1a, the retries' conditions and all arithmetic are
      definitions.

    ** Not modelled

    - The goroutines [projection.Runner.Run] starts are modelled one by one
      and not side by side, and the nudges [queueReplays] sends are left out;
      the mutex that keeps Reset apart from other units in the in-memory store.
    - What KurrentDB does with truncated or deleted streams; concurrent calls
      of the automation store over PostgreSQL beyond their locks.
    - The OpenTelemetry SDK behind the API and slog behind its logger: what is
      reported is the sequence of calls.  HTTP beyond the dashboard's routes
      (the redirects of ServeMux to cleaned paths, read timeouts), error texts,
      command line tools, unit tests, benchmarks and the other example
      programs; of the contract suites the one test of two calls that overlap. *)
From stdpp Require Export base numbers strings list gmap fin_maps sets relations sorting.
From Stdlib Require Export ZArith Lia.

#[export] Set Default Goal Selector "!".
#[global] Open Scope Z_scope.

(** ** Machine integers

    A Go [uint64] is a [Z] in [0, 2^64); every operation that can leave that
    range is followed by [u64].  An [int64] (and a [time.Duration]) is a [Z]
    between [min_int64] and [max_int64]. *)
Definition two64 : Z := 18446744073709551616.
Definition two32 : Z := 4294967296.
Definition max_int64 : Z := 9223372036854775807.
Definition min_int64 : Z := -9223372036854775808.
Definition u64 (z : Z) : Z := z `mod` two64.
Definition u32 (z : Z) : Z := z `mod` two32.
Definition is_u64 (z : Z) : Prop := 0 ≤ z < two64.

Lemma u64_small z : is_u64 z → u64 z = z.
Proof. intros H. apply Z.mod_small, H. Qed.

Lemma u64_bound z : is_u64 (u64 z).
Proof. apply Z.mod_pos_bound. done. Qed.

(** The conversion of an integer to [int64]. *)
Definition int64 (z : Z) : Z := (z + 9223372036854775808) `mod` two64 - 9223372036854775808.

Lemma int64_small z : min_int64 ≤ z ≤ max_int64 → int64 z = z.
Proof. unfold int64, min_int64, max_int64, two64. intros H. rewrite Z.mod_small; lia. Qed.

Lemma u64_idemp_add a b : u64 (u64 a + b) = u64 (a + b).
Proof. unfold u64. apply Zplus_mod_idemp_l. Qed.

Lemma u64_int64 z : u64 (int64 z) = u64 z.
Proof.
  unfold u64, int64. rewrite Zminus_mod_idemp_l. f_equal. lia.
Qed.

(** [len(s)] of a Go slice, which the runtime keeps below [2^63]. *)
Definition zlen {A} (l : list A) : Z := Z.of_nat (length l).
#[global] Arguments zlen {A} l : simpl never.
#[global] Arguments u64 z : simpl never.

Lemma zlen_nonneg {A} (l : list A) : 0 ≤ zlen l.
Proof. unfold zlen. lia. Qed.

Lemma zlen_app {A} (l k : list A) : zlen (l ++ k) = zlen l + zlen k.
Proof. unfold zlen. rewrite length_app. lia. Qed.

Lemma zlen_nil {A} : zlen (@nil A) = 0.
Proof. reflexivity. Qed.

Lemma zlen_cons {A} (x : A) l : zlen (x :: l) = 1 + zlen l.
Proof. unfold zlen. simpl. lia. Qed.

Lemma zlen_snoc {A} (l : list A) x : zlen (l ++ [x]) = zlen l + 1.
Proof. unfold zlen. rewrite length_app. simpl. lia. Qed.

Lemma zlen_zero {A} (l : list A) : zlen l = 0 ↔ l = [].
Proof. unfold zlen. destruct l; simpl; split; intros; (done || lia). Qed.

(** ** Outcomes of Go code

    [result E A] is the Go pair [(A, error)] of functions that return a zero
    [A] with a non-nil error; [outcome A] is code that may panic. *)
Inductive result (E A : Type) : Type :=
| Ok (a : A)
| Fail (e : E).
Arguments Ok {E A} a.
Arguments Fail {E A} e.

#[export] Instance result_ret E : MRet (result E) := λ A a, Ok a.
#[export] Instance result_bind E : MBind (result E) := λ A B f m,
  match m with Ok a => f a | Fail e => Fail e end.

Inductive outcome (A : Type) : Type :=
| Returns (a : A)
| Panics (msg : string).
Arguments Returns {A} a.
Arguments Panics {A} msg.

#[export] Instance outcome_ret : MRet outcome := λ A a, Returns a.
#[export] Instance outcome_bind : MBind outcome := λ A B f m,
  match m with Returns a => f a | Panics p => Panics p end.

Definition returns {A} (o : outcome A) : bool :=
  match o with Returns _ => true | Panics _ => false end.

(** ** Invariants of transition systems *)
Lemma rtc_invariant {A} (R : relation A) (I : A → Prop) x y :
  (∀ a b, I a → R a b → I b) → rtc R x y → I x → I y.
Proof. intros Hstep. induction 1; eauto. Qed.

(** ** Generic list lemmas shared by the components *)
Section lists.
Context {A : Type}.
Implicit Types (l k : list A) (P Q : A → bool).

(** Boolean filter in Go's loop style, [for _, x := range l { if p(x) ... }]. *)
Fixpoint bfilter (p : A → bool) (l : list A) : list A :=
  match l with
  | [] => []
  | x :: l => if p x then x :: bfilter p l else bfilter p l
  end.

Lemma bfilter_app p l k : bfilter p (l ++ k) = bfilter p l ++ bfilter p k.
Proof. induction l as [|x l IH]; simpl; [done|]. destruct (p x); simpl; by rewrite IH. Qed.

Lemma elem_of_bfilter p l x : x ∈ bfilter p l ↔ p x = true ∧ x ∈ l.
Proof.
  induction l as [|y l IH]; simpl.
  - split; [intros H; inversion H | intros [_ H]; inversion H].
  - destruct (p y) eqn:Hy; rewrite ?elem_of_cons, ?IH; intuition congruence.
Qed.

Lemma bfilter_length p l : (length (bfilter p l) ≤ length l)%nat.
Proof. induction l as [|x l IH]; simpl; [lia|]. destruct (p x); simpl; lia. Qed.

Lemma bfilter_all p l : Forall (λ x, p x = true) l → bfilter p l = l.
Proof. induction 1 as [|x l Hx Hl IH]; simpl; [done|]. by rewrite Hx, IH. Qed.

Lemma bfilter_none p l : Forall (λ x, p x = false) l → bfilter p l = [].
Proof. induction 1 as [|x l Hx Hl IH]; simpl; [done|]. by rewrite Hx. Qed.

Lemma bfilter_ext p q l : (∀ x, x ∈ l → p x = q x) → bfilter p l = bfilter q l.
Proof.
  induction l as [|x l IH]; simpl; intros H; [done|].
  rewrite (H x) by constructor. rewrite IH; [done|].
  intros y Hy. apply H. by constructor.
Qed.

Lemma bfilter_NoDup p l : NoDup l → NoDup (bfilter p l).
Proof.
  induction 1 as [|x l Hx Hl IH]; simpl; [constructor|].
  destruct (p x); [|done]. constructor; [|done]. rewrite elem_of_bfilter. tauto.
Qed.

Lemma existsb_elem p l : existsb p l = true ↔ ∃ x, x ∈ l ∧ p x = true.
Proof.
  rewrite existsb_exists. split; intros (x & Hx & Hp); exists x;
    rewrite list_elem_of_In in *; tauto.
Qed.

Lemma forallb_elem p l : forallb p l = true ↔ ∀ x, x ∈ l → p x = true.
Proof. rewrite forallb_forall. setoid_rewrite list_elem_of_In. done. Qed.

Lemma bfilter_nil_iff p l : bfilter p l = [] ↔ ∀ x, x ∈ l → p x = false.
Proof.
  split.
  - intros H x Hx. destruct (p x) eqn:Hp; [|done].
    assert (x ∈ bfilter p l) as Hin by (apply elem_of_bfilter; done).
    rewrite H in Hin. inversion Hin.
  - intros H. apply bfilter_none. by apply Forall_forall.
Qed.

Lemma bfilter_bfilter p q l : bfilter p (bfilter q l) = bfilter (λ x, q x && p x) l.
Proof.
  induction l as [|x l IH]; simpl; [done|]. destruct (q x); simpl; [|done]. destruct (p x); by rewrite IH.
Qed.
End lists.

#[export] Instance bfilter_Permutation {A} (p : A → bool) : Proper ((≡ₚ) ==> (≡ₚ)) (bfilter p).
Proof. induction 1; cbn; repeat (destruct (p _)); (done || (try solve_proper) || eauto using Permutation). Qed.

Lemma elem_of_take_sub {A} (x : A) n l : x ∈ take n l → x ∈ l.
Proof. intros [i Hi]%list_elem_of_lookup. apply lookup_take_Some in Hi as [Hi _]. by eapply list_elem_of_lookup_2. Qed.

Lemma elem_of_concat {A} (ls : list (list A)) x : x ∈ concat ls ↔ ∃ l, x ∈ l ∧ l ∈ ls.
Proof.
  rewrite list_elem_of_In, in_concat. setoid_rewrite list_elem_of_In. firstorder.
Qed.

Lemma bfilter_fmap {A B} (f : A → B) (p : B → bool) l : bfilter p (f <$> l) = f <$> bfilter (λ x, p (f x)) l.
Proof. induction l as [|x l IH]; [done|]. cbn. fold (fmap f l). rewrite IH. by destruct (p (f x)). Qed.

Lemma Forall2_bfilter {A B} (R : A → B → Prop) (p : A → bool) (q : B → bool) l k :
  (∀ x y, R x y → p x = q y) → Forall2 R l k → Forall2 R (bfilter p l) (bfilter q k).
Proof.
  intros Hpq. induction 1 as [|x y l k Hxy Hl IH]; simpl; [constructor|].
  rewrite (Hpq x y Hxy). destruct (q y); [by constructor|done].
Qed.

Lemma Forall2_zlen {A B} (R : A → B → Prop) l k : Forall2 R l k → zlen l = zlen k.
Proof. intros H. unfold zlen. by rewrite (Forall2_length _ _ _ H). Qed.

(** ** Stable sorting

    [slices.SortFunc], [sort.SliceStable] and [slices.Sorted] as stable
    insertion sort over a boolean [less]. *)
Section sorting.
Context {A : Type} (less : A → A → bool).

Fixpoint sort_insert (x : A) (l : list A) : list A :=
  match l with
  | [] => [x]
  | y :: l => if less y x then y :: sort_insert x l else x :: y :: l
  end.

Definition sort_slice (l : list A) : list A := foldr sort_insert [] l.

Lemma sort_insert_perm x l : sort_insert x l ≡ₚ x :: l.
Proof.
  induction l as [|y l IH]; simpl; [done|].
  destruct (less y x); [|done]. rewrite IH. constructor.
Qed.

Lemma sort_slice_perm l : sort_slice l ≡ₚ l.
Proof. induction l as [|x l IH]; simpl; [done|]. by rewrite sort_insert_perm, IH. Qed.

Lemma elem_of_sort_slice l x : x ∈ sort_slice l ↔ x ∈ l.
Proof. by rewrite sort_slice_perm. Qed.

(** [a] may come before [b]: not [b < a]. *)
Definition not_after (a b : A) : Prop := less b a = false.

Context (Htrans : ∀ a b c, not_after a b → not_after b c → not_after a c).
Context (Htotal : ∀ a b, less a b = true → not_after a b).

Lemma sort_insert_sorted x l :
  StronglySorted not_after l → StronglySorted not_after (sort_insert x l).
Proof.
  induction 1 as [|y l Hl IH Hy]; simpl; [repeat constructor|].
  destruct (less y x) eqn:Hyx.
  - constructor; [done|]. apply Forall_forall. intros z.
    rewrite sort_insert_perm, elem_of_cons. rewrite Forall_forall in Hy.
    intros [->|Hz]; auto.
  - constructor; [by constructor|].
    constructor; [done|]. eapply Forall_impl; [exact Hy|]. eauto.
Qed.

Lemma sort_slice_sorted l : StronglySorted not_after (sort_slice l).
Proof. induction l; simpl; [constructor | by apply sort_insert_sorted]. Qed.
End sorting.

Arguments not_after {A} less a b /.

(** A [less] function that [sort.Slice] accepts: irreflexive and transitive,
    with transitive ties. *)
Record weak_order {A} (less : A → A → bool) : Prop := {
  weak_trans a b c : not_after less a b → not_after less b c → not_after less a c;
  weak_total a b : less a b = true → not_after less a b;
}.

Lemma sort_slice_weak {A} (less : A → A → bool) l :
  weak_order less → StronglySorted (not_after less) (sort_slice less l).
Proof. intros [Ht Htot]. by apply sort_slice_sorted. Qed.

(** *** Sorted lists *)
Lemma sort_slice_id {A} (less : A → A → bool) l :
  StronglySorted (λ a b, less b a = false) l → sort_slice less l = l.
Proof.
  induction 1 as [|x l Hl IH Hx]; [done|]. cbn. change (foldr (sort_insert less) [] l) with (sort_slice less l).
  rewrite IH. destruct l as [|y l]; [done|]. cbn. inversion_clear Hx as [|? ? H]. by rewrite H.
Qed.

Lemma StronglySorted_impl {A} (R R' : relation A) l : (∀ x y, R x y → R' x y) → StronglySorted R l → StronglySorted R' l.
Proof. intros HR Hs. rewrite <- (list_fmap_id l). by apply (StronglySorted_fmap id R). Qed.

Lemma StronglySorted_bfilter {A} (R : relation A) p l : StronglySorted R l → StronglySorted R (bfilter p l).
Proof.
  induction 1 as [|x l Hl IH Hx]; [constructor|]. cbn. destruct (p x); [|done]. constructor; [done|].
  apply Forall_forall. intros y [_ Hy]%elem_of_bfilter. by eapply (proj1 (Forall_forall _ _)) in Hx.
Qed.

(** The sort of distinct elements that [less] tells apart *)
Lemma sort_slice_strict {A} (less : A → A → bool) l : weak_order less → NoDup l →
  (∀ a b, a ∈ l → b ∈ l → less a b = false → less b a = false → a = b) →
  StronglySorted (λ a b, less a b = true) (sort_slice less l).
Proof.
  intros Hw Hnd Hd. pose proof (sort_slice_weak less l Hw) as Hs.
  rewrite <- (sort_slice_perm less l) in Hnd. setoid_rewrite <- (elem_of_sort_slice less) in Hd.
  induction Hs as [|x k Hs IH Hx]; [constructor|]. apply NoDup_cons in Hnd as [Hnx Hnd]. constructor.
  - apply IH; [done|]. intros a b Ha Hb. apply Hd; by constructor.
  - rewrite Forall_forall in *. intros y Hy. specialize (Hx y Hy). cbn in Hx.
    destruct (less x y) eqn:Hxy; [done|]. exfalso. apply Hnx.
    rewrite (Hd x y); [done|by constructor|by constructor|done|done].
Qed.

Lemma strictly_sorted_NoDup {A} (R : relation A) l : (∀ x, ¬ R x x) → StronglySorted R l → NoDup l.
Proof.
  intros HR. induction 1 as [|x l Hl IH Hx]; constructor; [|done]. intros Hin. rewrite Forall_forall in Hx. by apply (HR x), Hx.
Qed.

(** Strictly sorted lists of the same elements are equal. *)
Lemma strictly_sorted_ext {A} (R : relation A) l k : (∀ x y, R x y → R y x → False) →
  StronglySorted R l → StronglySorted R k → (∀ x, x ∈ l ↔ x ∈ k) → l = k.
Proof.
  intros HR Hl Hk He. assert (∀ x, ¬ R x x) as Hirr by (intros x Hx; eauto).
  apply (StronglySorted_unique_strong R); [|done..|].
  - intros x y _ _ Hxy Hyx. destruct (HR _ _ Hxy Hyx).
  - apply NoDup_Permutation; [by eapply strictly_sorted_NoDup..|done].
Qed.

(** Sorting forgets the order it was given. *)
Lemma sort_slice_ext {A} (less : A → A → bool) l k : weak_order less → NoDup l → NoDup k →
  (∀ a b, a ∈ l → b ∈ l → less a b = false → less b a = false → a = b) → (∀ x, x ∈ l ↔ x ∈ k) →
  sort_slice less l = sort_slice less k.
Proof.
  intros Hw Hl Hk Hd He. pose proof (weak_total _ Hw) as Ht. apply (strictly_sorted_ext (λ a b, less a b = true)).
  - intros x y Hxy Hyx. specialize (Ht x y Hxy). cbn in Ht. congruence.
  - by apply sort_slice_strict.
  - apply sort_slice_strict; [done..|]. intros a b Ha Hb. apply Hd; by apply He.
  - intros x. by rewrite !elem_of_sort_slice.
Qed.

Lemma sort_slice_fmap {A B} (f : A → B) (lessA : A → A → bool) (lessB : B → B → bool) l :
  (∀ a b, lessB (f a) (f b) = lessA a b) → f <$> sort_slice lessA l = sort_slice lessB (f <$> l).
Proof.
  intros Hf. induction l as [|x l IH]; [done|]. cbn. fold (fmap f l). change (foldr (sort_insert ?les) [] ?x) with (sort_slice les x).
  rewrite <- IH. generalize (sort_slice lessA l). intros k. induction k as [|y k IHk]; [done|]. cbn. rewrite Hf.
  destruct (lessA y x); [|done]. cbn. by rewrite IHk.
Qed.

Lemma NoDup_omap_inj {A B} (f : A → option B) l : (∀ x y z, x ∈ l → y ∈ l → f x = Some z → f y = Some z → x = y) →
  NoDup l → NoDup (omap f l).
Proof.
  intros Hf. induction 1 as [|x l Hx Hl IH]; [constructor|]. cbn.
  assert (NoDup (omap f l)) as Hnd by (apply IH; intros; eapply Hf; [by constructor|by constructor|done|done]).
  destruct (f x) as [z|] eqn:Hz; [|done]. constructor; [|done]. rewrite list_elem_of_omap.
  intros (y & Hy & Hyz). apply Hx. rewrite (Hf x y z); [done|constructor|by constructor|done|done].
Qed.

(** A measure summed over a list, where one element is replaced *)
Lemma sum_list_insert_lt {A} (f : A → nat) i x y l : l !! i = Some x → (f y < f x)%nat →
  (sum_list (f <$> <[i := y]> l) < sum_list (f <$> l))%nat.
Proof.
  revert i. induction l as [|z l IH]; intros [|i] Hi Hlt; try done; cbn in *.
  - injection Hi as ->. lia.
  - apply (proj1 (Nat.add_lt_mono_l _ _ _)). by apply IH.
Qed.

(** Two views of a list, ordered alike *)
Lemma sort_slice_views {X A B} (f : X → A) (h : X → B) (lessA : A → A → bool) (lessB : B → B → bool) l :
  (∀ x y, x ∈ l → y ∈ l → lessA (f x) (f y) = lessB (h x) (h y)) →
  sort_slice lessA (f <$> l) = f <$> sort_slice (λ x y, lessB (h x) (h y)) l.
Proof.
  intros H. rewrite <- (sort_slice_fmap f (λ x y, lessA (f x) (f y))) by done. f_equal. revert H. clear.
  induction l as [|x l IH]; intros H; [done|]. cbn. change (foldr (sort_insert ?les) [] l) with (sort_slice les l).
  rewrite IH by (intros; apply H; by constructor). clear IH.
  assert (∀ y, y ∈ sort_slice (λ x y, lessB (h x) (h y)) l → lessA (f y) (f x) = lessB (h y) (h x)) as Hx.
  { intros y Hy%elem_of_sort_slice. apply H; [by constructor|constructor]. }
  revert Hx. generalize (sort_slice (λ x y, lessB (h x) (h y)) l). intros k. induction k as [|y k IH]; intros Hx; [done|].
  cbn. rewrite Hx by constructor. destruct (lessB (h y) (h x)); [|done]. f_equal. apply IH. intros. apply Hx. by constructor.
Qed.

Lemma weak_Z_key {A} (f : A → Z) : weak_order (λ a b, f a <? f b).
Proof. split; cbn; intros; rewrite ?Z.ltb_ge, ?Z.ltb_lt in *; lia. Qed.

Lemma NoDup_key {A K} (key : A → K) l x y : NoDup (key <$> l) → x ∈ l → y ∈ l → key x = key y → x = y.
Proof.
  induction l as [|z l IH]; [by intros _ ?%not_elem_of_nil|]. cbn. rewrite NoDup_cons, list_elem_of_fmap, !elem_of_cons.
  intros [Hz Hl] [->|Hx] [->|Hy] He; [done| | |by apply IH]; destruct Hz; eauto.
Qed.

Lemma StronglySorted_fmap_in {A B} (f : A → B) (R : relation A) (R' : relation B) l :
  (∀ x y, x ∈ l → y ∈ l → R x y → R' (f x) (f y)) → StronglySorted R l → StronglySorted R' (f <$> l).
Proof.
  intros Hf. induction 1 as [|x l Hl IH Hx]; [constructor|]. cbn. constructor.
  - apply IH. intros. apply Hf; [by constructor|by constructor|done].
  - apply Forall_forall. intros y (z & -> & Hz)%list_elem_of_fmap. apply Hf; [constructor|by constructor|].
    by apply (proj1 (Forall_forall _ _) Hx).
Qed.

Lemma bfilter_NoDup_fmap {A K} (key : A → K) p l : NoDup (key <$> l) → NoDup (key <$> bfilter p l).
Proof.
  induction l as [|x l IH]; cbn; [done|]. rewrite NoDup_cons. intros [Hx Hl]. destruct (p x); [|by apply IH].
  cbn. constructor; [|by apply IH]. intros (y & Hy & [_ Hyl]%elem_of_bfilter)%list_elem_of_fmap.
  apply Hx, list_elem_of_fmap. eauto.
Qed.

Lemma seqZ_sorted n i : StronglySorted (λ a b, a < b) (seqZ i (Z.of_nat n)).
Proof.
  revert i. induction n as [|n IH]; intros i; [constructor|].
  rewrite seqZ_cons by lia. replace (Z.pred (Z.of_nat (S n))) with (Z.of_nat n) by lia.
  constructor; [done|]. apply Forall_forall. intros j Hj%elem_of_seqZ. lia.
Qed.

Lemma option_Forall2_mono {A B} (R R' : A → B → Prop) x y : option_Forall2 R x y → (∀ a b, R a b → R' a b) → option_Forall2 R' x y.
Proof. destruct 1; constructor; auto. Qed.

Lemma concat_fmap {A B} (f : A → list B) l : concat (f <$> l) = l ≫= f.
Proof. induction l as [|x l IH]; [done|]. cbn. fold (fmap f l). by rewrite IH. Qed.

(** A prefix of an ascending list ends where its last key does. *)
Lemma take_ascending {A} (key : A → Z) n l x : StronglySorted (λ a b, key a < key b) l → last (take n l) = Some x →
  take n l = bfilter (λ a, key a <=? key x) l.
Proof.
  intros Hs Hx. rewrite <- (take_drop n l) in Hs at 1. apply StronglySorted_app in Hs as (Hab & Hs1 & _).
  assert (x ∈ take n l) as Hin by (by apply last_Some_elem_of).
  rewrite <- (take_drop n l) at 2. rewrite bfilter_app, bfilter_all, bfilter_none, app_nil_r; [done|..].
  - apply Forall_forall. intros b Hb. apply Z.leb_gt. by apply Hab.
  - apply Forall_forall. intros a Ha. apply Z.leb_le. apply last_Some in Hx as [l' Hl']. rewrite Hl' in *.
    apply elem_of_app in Ha as [Ha|Ha%list_elem_of_singleton]; [|by subst].
    apply StronglySorted_app in Hs1 as (H & _). specialize (H a x Ha ltac:(set_solver)). lia.
Qed.

Lemma ascending_unique {A} (key : A → Z) l x y :
  StronglySorted (λ a b, key a < key b) l → x ∈ l → y ∈ l → key x = key y → x = y.
Proof.
  induction 1 as [|z l Hl IH Hz]; [by intros ?%not_elem_of_nil|]. rewrite !elem_of_cons, Forall_forall in *.
  intros [->|Hx] [->|Hy] Heq; [done|..]; [specialize (Hz y Hy); lia|specialize (Hz x Hx); lia|auto].
Qed.

Lemma split_ascending {A} (key : A → Z) (m : A → bool) l a b : StronglySorted (λ x y, key x < key y) l → a ≤ b →
  bfilter (λ x, (a <? key x) && (key x <=? b) && m x) l ++ bfilter (λ x, (b <? key x) && m x) l
  = bfilter (λ x, (a <? key x) && m x) l.
Proof.
  intros Hs Hab. induction Hs as [|x l Hl IH Hx]; [done|]. cbn [bfilter].
  destruct (Z.ltb_spec a (key x)), (Z.leb_spec (key x) b), (Z.ltb_spec b (key x)); try lia; cbn [andb]; [|..|done].
  - destruct (m x); [|done]. cbn. by rewrite IH.
  - rewrite <- IH. rewrite (bfilter_none (λ y, (a <? key y) && (key y <=? b) && m y) l); [by destruct (m x)|].
    eapply Forall_impl; [exact Hx|]. intros y Hy. cbn in *. destruct (Z.leb_spec (key y) b); [lia|]. by rewrite andb_false_r.
Qed.

Lemma bfilter_length_lt {A} (p q : A → bool) l x : (∀ y, y ∈ l → p y = true → q y = true) →
  x ∈ l → q x = true → p x = false → (length (bfilter p l) < length (bfilter q l))%nat.
Proof.
  intros Hpq Hx Hq Hp.
  assert (∀ k, (∀ y, y ∈ k → p y = true → q y = true) → (length (bfilter p k) ≤ length (bfilter q k))%nat) as Hle.
  { intros k. induction k as [|y k IH]; intros Hk; [done|]. cbn. specialize (IH ltac:(intros; apply Hk; [by constructor|done])).
    specialize (Hk y ltac:(constructor)). destruct (p y); [rewrite Hk by done; cbn; lia|destruct (q y); cbn; lia]. }
  apply list_elem_of_split in Hx as (l1 & l2 & ->). rewrite !bfilter_app, !length_app. cbn. rewrite Hq, Hp. cbn.
  pose proof (Hle l1 ltac:(set_solver)). pose proof (Hle l2 ltac:(set_solver)). lia.
Qed.

(** [a < b] on strings, bytewise. *)
Definition string_less (a b : string) : bool := bool_decide (String.compare a b = Lt).

Lemma string_less_le a b : string_less b a = false ↔ String.le a b.
Proof.
  unfold string_less, String.le, String.leb, Is_true. rewrite bool_decide_eq_false.
  rewrite (String.compare_antisym b a). by destruct (String.compare a b).
Qed.

Lemma weak_string {A} (f : A → string) : weak_order (λ a b, string_less (f a) (f b)).
Proof.
  split; cbn.
  - intros a b c. rewrite !string_less_le. apply (transitivity (R := String.le)).
  - intros a b Hlt. apply string_less_le. destruct (String.le_total (f a) (f b)) as [|H]; [done|].
    apply string_less_le in H. congruence.
Qed.

(** Compare by a key first. *)
Lemma weak_lex_Z {A} (f : A → Z) (less : A → A → bool) :
  weak_order less → weak_order (λ a b, if negb (f a =? f b) then f a <? f b else less a b).
Proof.
  intros [Ht Htot]. split; cbn.
  - intros a b c. destruct (Z.eqb_spec (f b) (f a)), (Z.eqb_spec (f c) (f b)), (Z.eqb_spec (f c) (f a)); cbn;
      rewrite ?Z.ltb_ge; try lia. apply Ht.
  - intros a b. destruct (Z.eqb_spec (f a) (f b)), (Z.eqb_spec (f b) (f a)); cbn; try lia; rewrite ?Z.ltb_lt, ?Z.ltb_ge; try lia.
    apply Htot.
Qed.

Lemma weak_lex_string {A} (f : A → string) (less : A → A → bool) :
  weak_order less → weak_order (λ a b, if negb (bool_decide (f a = f b)) then string_less (f a) (f b) else less a b).
Proof.
  intros [Ht Htot].
  assert (∀ a b, (if negb (bool_decide (f b = f a)) then string_less (f b) (f a) else less b a) = false ↔
    String.le (f a) (f b) ∧ (f a = f b → less b a = false)) as Hiff.
  { intros a b. case_bool_decide as Heq; cbn; [|rewrite string_less_le; naive_solver].
    rewrite Heq. naive_solver. }
  split; cbn.
  - intros a b c. rewrite !Hiff. intros [H1 H2] [H3 H4]. split; [by etrans|]. intros Heq.
    assert (f a = f b) as Hab by (apply (anti_symm String.le); congruence). apply (Ht a b c); [by apply H2|].
    apply H4. congruence.
  - intros a b. rewrite Hiff. case_bool_decide as Heq; cbn.
    + intros Hl%Htot. rewrite Heq. naive_solver.
    + intros Hl%(weak_total _ (weak_string id)). apply string_less_le in Hl. naive_solver.
Qed.

(** ** Sums over the values of a map

    What a [sync.WaitGroup] counts, and the measure of a termination
    argument. *)
Section msum.
Context `{Countable K} {A : Type} (f : A → Z).
Implicit Types m : gmap K A.

Definition msum m : Z := map_fold (λ _ v n, f v + n) 0 m.

Lemma msum_empty : msum ∅ = 0.
Proof. apply map_fold_empty. Qed.

Lemma msum_insert m k v : m !! k = None → msum (<[k := v]> m) = f v + msum m.
Proof. intros Hk. unfold msum. rewrite map_fold_insert_L; [done| |done]. intros. lia. Qed.

Lemma msum_update m k v v' : m !! k = Some v → msum (<[k := v']> m) = msum m - f v + f v'.
Proof.
  intros Hk. rewrite <- insert_delete_eq, msum_insert by apply lookup_delete_eq.
  rewrite <- (insert_id m k v Hk) at 2. rewrite <- insert_delete_eq, msum_insert by apply lookup_delete_eq. lia.
Qed.

Lemma msum_nonneg m : (∀ v, 0 ≤ f v) → 0 ≤ msum m.
Proof.
  intros Hf. induction m as [|k v m Hk IH] using map_ind; [by rewrite msum_empty|].
  rewrite msum_insert by done. specialize (Hf v). lia.
Qed.

(** A positive sum has a positive term. *)
Lemma msum_zero m k v : (∀ v, 0 ≤ f v) → msum m = 0 → m !! k = Some v → f v = 0.
Proof.
  intros Hf Hz Hk. rewrite <- (insert_id m k v Hk) in Hz. rewrite <- insert_delete_eq in Hz.
  rewrite msum_insert in Hz by apply lookup_delete_eq.
  pose proof (msum_nonneg (delete k m) Hf). specialize (Hf v). lia.
Qed.

Lemma msum_witness m : msum m ≠ 0 → ∃ k v, m !! k = Some v ∧ f v ≠ 0.
Proof.
  induction m as [|k v m Hk IH] using map_ind; [by rewrite msum_empty|].
  rewrite msum_insert by done. intros Hne. destruct (Z.eq_dec (f v) 0) as [Hv|Hv].
  - destruct IH as (k' & v' & Hk' & Hv'); [lia|]. exists k', v'. split; [|done].
    rewrite lookup_insert_ne; [done|]. congruence.
  - exists k, v. by rewrite lookup_insert_eq.
Qed.
End msum.

(** The same over a list. *)
Section lsum.
Context {A : Type} (f : A → Z).

Definition lsum (l : list A) : Z := foldr (λ x n, f x + n) 0 l.

Lemma lsum_app l k : lsum (l ++ k) = lsum l + lsum k.
Proof. induction l as [|x l IH]; simpl; lia. Qed.

Lemma lsum_insert l i x y : l !! i = Some x → lsum (<[i := y]> l) = lsum l - f x + f y.
Proof.
  revert i. induction l as [|z l IH]; intros [|i] H; simplify_eq/=; [lia|]. rewrite IH by done. lia.
Qed.

Lemma lsum_nonneg l : (∀ x, x ∈ l → 0 ≤ f x) → 0 ≤ lsum l.
Proof.
  induction l as [|x l IH]; intros Hf; simpl; [lia|].
  assert (0 ≤ f x) by (apply Hf; constructor). assert (0 ≤ lsum l) by (apply IH; intros; apply Hf; by constructor). lia.
Qed.

Lemma lsum_perm l k : l ≡ₚ k → lsum l = lsum k.
Proof. induction 1; simpl in *; lia. Qed.
End lsum.
#[global] Arguments lsum {A} f l : simpl never.
#[global] Arguments msum {K _ _ A} f m : simpl never.

(** ** Hint databases

    [go]: facts about lengths and integers the proofs discharge with [auto]. *)
Create HintDb go.
#[export] Hint Resolve u64_bound zlen_nonneg : go.
Create Rewrite HintDb go.
#[export] Hint Rewrite @zlen_app @zlen_nil @zlen_cons : go.

(** ** Tactics *)

(** Split on every match and decision in the goal, closing the impossible
    cases. *)
Ltac split_matches :=
  repeat (case_match || case_decide); simplify_eq/=; try done.

(** Normalise boolean hypotheses and goals to propositions, then [lia]. *)
Ltac bool_lia :=
  repeat match goal with
  | H : _ && _ = true |- _ => apply andb_true_iff in H; destruct H
  | H : _ || _ = false |- _ => apply orb_false_iff in H; destruct H
  | H : negb _ = true |- _ => apply negb_true_iff in H
  | H : negb _ = false |- _ => apply negb_false_iff in H
  end; try lia.
