(* ===== verification/Core.v ===== *)
(** * Core data: commands, events, envelopes, stream states and errors

    [command.go], [event.go], [eventstore.go], [global_reader.go],
    [revision.go] and [errors.go], with the sentinels of the [projection]
    package ([projection/store.go], [projection/runner.go]).  An error value
    keeps its place in the [Unwrap] chain exactly, since [errors.Is] and
    [errors.As] decide control flow; the formatted text of a wrapper is
    reduced to its fixed part. *)
From S2P Require Import Prelude.

(** ** Values of the standard library and of google/uuid *)

(** [time.Time] as nanoseconds since the zero time, [time.Duration] in
    nanoseconds. *)
Definition time := Z.
Definition duration := Z.
Definition time_zero : time := 0.
Definition time_IsZero (t : time) : bool := t =? 0.
Definition time_Add (t : time) (d : duration) : time := t + d.
Definition time_After (t u : time) : bool := u <? t.
Definition time_Before (t u : time) : bool := t <? u.

(** [t.Sub(u)] saturates at the bounds of a Duration. *)
Definition time_Sub (t u : time) : duration := Z.max min_int64 (Z.min max_int64 (t - u)).

Definition second : duration := 1000000000.
Definition millisecond : duration := 1000000.
(** [time.Unix(0, 0)] *)
Definition unix_epoch : time := 62135596800 * second.

(** [uuid.UUID] is an array of 16 bytes, here its 128-bit number. *)
Definition uuid := Z.
Definition uuid_Nil : uuid := 0.

(** A value of dynamic type: a string, or any other type, by its name, with
    its printed form. *)
Inductive any : Type :=
| AnyString (s : string)
| AnyOther (GoType repr : string).

#[export] Instance any_eq_dec : EqDecision any.
Proof. solve_decision. Defined.

(** A Go map that may be nil. *)
Notation metadata := (option (gmap string any)).

(** ** Commands and events *)

(** A value implementing [Command]: its dynamic type, what its two methods
    return, and its fields. *)
Record Command : Type := mkCommand {
  cmd_GoType : string;
  cmd_AggregateID : string;
  cmd_CommandType : string;
  cmd_data : string;
}.

(** A non-nil value implementing [Event]: its concrete type with pointer
    indirection stripped, whether it is a pointer, what its methods return,
    and its fields.  A nil [Event] is [None]. *)
Record Event : Type := mkEvent {
  ev_GoType : string;
  ev_Pointer : bool;
  ev_AggregateID : string;
  ev_EventType : string;
  ev_data : string;
}.

#[export] Instance Event_eq_dec : EqDecision Event.
Proof. solve_decision. Defined.

Record Envelope : Type := mkEnvelope {
  EventID : uuid;
  StreamID : string;
  Metadata : metadata;
  CorrelationID : string;
  CausationID : string;
  env_Event : option Event;
  Version : Z;
  GlobalPosition : Z;
  OccurredAt : time;
}.

#[export] Instance Envelope_eq_dec : EqDecision Envelope.
Proof. solve_decision. Defined.

(** ** Stream states *)

(** [StreamState] with the implementations the package recognises; any other
    one is [OtherState] with its raw value. *)
Inductive StreamState : Type :=
| Any
| NoStream
| StreamExists
| Revision (r : Z)
| OtherState (raw : Z).

#[export] Instance StreamState_eq_dec : EqDecision StreamState.
Proof. solve_decision. Defined.

Definition Revision_ToRawInt64 (r : Z) : outcome Z :=
  if max_int64 <? r then Panics "eventsourcing: Revision overflows int64"
  else Returns r.

Definition ToRawInt64 (s : StreamState) : outcome Z :=
  match s with
  | Any => Returns (-1)
  | NoStream => Returns 0
  | StreamExists => Returns (-2)
  | Revision r => Revision_ToRawInt64 r
  | OtherState raw => Returns raw
  end.

(** The states this package's stores recognise. *)
Definition recognized (s : StreamState) : Prop :=
  match s with
  | Revision r => is_u64 r
  | OtherState _ => False
  | _ => True
  end.

Record AppendResult : Type := mkAppendResult {
  Successful : bool;
  res_StreamID : string;
  NextExpectedVersion : Z;
  res_GlobalPosition : Z;
}.

(** [AppendResult{StreamID: id}]. *)
Definition failed_append (id : string) : AppendResult :=
  mkAppendResult false id 0 0.

Record ReadOptions : Type := mkReadOptions {
  Limit : Z;
  EventTypes : list string;
  StreamPrefixes : list string;
}.

Record ReadResult : Type := mkReadResult {
  rr_Events : list Envelope;
  rr_Next : Z;
  rr_AtEnd : bool;
}.

(** ** Errors *)
Inductive sentinel : Type :=
| ErrStreamNotFound | ErrStreamExists | ErrInvalidEventBatch
| ErrHandlerNotFound | ErrInvalidRevision | ErrHandlerNotRegistered
| ErrDuplicateHandler | ErrHandlerPanicked | ErrCommandBusClosed
| ErrEventNotRegistered | ErrEmptyCorrelationID
| ErrClaimLost | ErrSegmentsChanged | ErrUnknownProjection | ErrNoReset
| ErrEventTypesChanged | ErrStreamParked | ErrNoDeadLetterStore | errShed
| io_EOF | context_Canceled | context_DeadlineExceeded.

#[export] Instance sentinel_eq_dec : EqDecision sentinel.
Proof. solve_decision. Defined.

(** A non-nil [error]: a sentinel, [errors.New], [fmt.Errorf] with one or two
    [%w] verbs, [errors.Join], the library's typed errors, and the marker of
    [backoff.Permanent]. *)
Inductive error : Type :=
| Sentinel (s : sentinel)
| New (text : string)
| Errorf (text : string) (e : error)
| Errorf2 (text : string) (e1 e2 : error)
| Join (es : list error)
| StreamRevisionConflictError (stream : string) (expected actual : option StreamState)
| SkippedEventError (event : option Event) (expected : string) (env : option Envelope)
| BusinessRuleViolationError (cause : error)
| handlerError (env : Envelope) (e : error)
| DeferredError (until : time)
| Permanent (e : error).

(** The errors [Unwrap] returns. *)
Definition Unwrap (e : error) : list error :=
  match e with
  | Errorf _ e | BusinessRuleViolationError e | handlerError _ e | Permanent e => [e]
  | Errorf2 _ e1 e2 => [e1; e2]
  | Join es => es
  | _ => []
  end.

(** [errors.Is(e, s)] for a sentinel [s]. *)
Fixpoint errors_Is (e : error) (s : sentinel) : bool :=
  match e with
  | Sentinel s' => bool_decide (s' = s)
  | Errorf _ e | BusinessRuleViolationError e | handlerError _ e | Permanent e => errors_Is e s
  | Errorf2 _ e1 e2 => errors_Is e1 s || errors_Is e2 s
  | Join es => existsb (λ e, errors_Is e s) es
  | _ => false
  end.

(** [errors.As]: the first error of the tree, depth first, that [sel]
    accepts. *)
Fixpoint errors_As {A} (sel : error → option A) (e : error) : option A :=
  match sel e with
  | Some a => Some a
  | None =>
    match e with
    | Errorf _ e | BusinessRuleViolationError e | handlerError _ e | Permanent e => errors_As sel e
    | Errorf2 _ e1 e2 =>
      match errors_As sel e1 with Some a => Some a | None => errors_As sel e2 end
    | Join es =>
      foldr (λ e r, match errors_As sel e with Some a => Some a | None => r end) None es
    | _ => None
    end
  end.

Definition is_Conflict (e : error) : option (string * option StreamState * option StreamState) :=
  match e with StreamRevisionConflictError s x a => Some (s, x, a) | _ => None end.
Definition is_Skipped (e : error) : option unit :=
  match e with SkippedEventError _ _ _ => Some () | _ => None end.
Definition is_handlerError (e : error) : option (Envelope * error) :=
  match e with handlerError env e => Some (env, e) | _ => None end.
Definition is_Permanent (e : error) : option error :=
  match e with Permanent e => Some e | _ => None end.
Definition is_BusinessRule (e : error) : option error :=
  match e with BusinessRuleViolationError e => Some e | _ => None end.
Definition is_Deferred (e : error) : option time :=
  match e with DeferredError u => Some u | _ => None end.

(** [errors.Join] drops nil errors and is nil when none is left. *)
Definition errors_Join (es : list (option error)) : option error :=
  match omap id es with [] => None | es => Some (Join es) end.

Definition NewBusinessRuleViolation (e : option error) : option error :=
  match e with None => None | Some e => Some (BusinessRuleViolationError e) end.

(** ** Facts *)

Lemma errors_Is_Unwrap e s : (∀ s', e ≠ Sentinel s') → errors_Is e s = existsb (λ e, errors_Is e s) (Unwrap e).
Proof. destruct e; simpl; rewrite ?orb_false_r; naive_solver. Qed.

Lemma errors_Join_Is es s e :
  errors_Join es = Some e → errors_Is e s = existsb (λ o, match o with Some e => errors_Is e s | None => false end) es.
Proof.
  unfold errors_Join. intros H.
  transitivity (existsb (λ e, errors_Is e s) (omap id es)).
  { destruct (omap id es); simplify_eq/=; done. }
  clear H. induction es as [|[e1|] es IH]; [done | | done].
  simpl. by rewrite <- IH.
Qed.

Lemma errors_Join_nil es : errors_Join es = None ↔ ∀ o, o ∈ es → o = None.
Proof.
  unfold errors_Join. induction es as [|[e|] es IH]; simpl.
  - split; [intros _ o Ho; inversion Ho | done].
  - split; [done|]. intros H. by specialize (H (Some e) ltac:(constructor)).
  - rewrite IH. setoid_rewrite elem_of_cons. naive_solver.
Qed.

(** The panic of [ToRawInt64] keeps every returned raw value unambiguous: the
    two negative markers are produced by their own states only. *)
Lemma ToRawInt64_injective s s' z :
  recognized s → recognized s' → ToRawInt64 s = Returns z → ToRawInt64 s' = Returns z →
  s = s' ∨ (z = 0 ∧ s ∈ [NoStream; Revision 0] ∧ s' ∈ [NoStream; Revision 0]).
Proof.
  unfold ToRawInt64, Revision_ToRawInt64, recognized, is_u64.
  intros Hs Hs' H H'. destruct s, s'; repeat case_match; simplify_eq; try (left; done);
    try lia; right; split; (done || set_solver).
Qed.
