(* ===== verification/Effect.v ===== *)
(** * Effects

    The monad of the methods that keep state in memory, call what is outside
    it and may fail: a computation over the memory [St] and the world [W]
    that returns or fails with an error, and a Hoare logic for it. *)
From S2P Require Import Prelude Core.

(** ** The monad *)
Definition SE (St W A : Type) : Type := St * W → result error A * (St * W).

#[export] Instance SE_ret St W : MRet (SE St W) := λ A a s, (Ok a, s).
#[export] Instance SE_bind St W : MBind (SE St W) := λ A B f m s,
  match m s with
  | (Ok a, s) => f a s
  | (Fail e, s) => (Fail e, s)
  end.

Definition fail {St W A} (e : error) : SE St W A := λ s, (Fail e, s).
Definition asks {St W A} (f : St → A) : SE St W A := λ s, (Ok (f s.1), s).
Definition modify {St W} (f : St → St) : SE St W () := λ s, (Ok (), (f s.1, s.2)).
Definition world {St W A} (f : W → A) : SE St W A := λ s, (Ok (f s.2), s).
Definition change_world {St W} (f : W → W) : SE St W () := λ s, (Ok (), (s.1, f s.2)).
Definition lift {St W A} (f : W → result error A * W) : SE St W A := λ s,
  let '(res, w) := f s.2 in (res, (s.1, w)).
Definition lift_total {St W A} (f : W → A * W) : SE St W A := λ s,
  let '(a, w) := f s.2 in (Ok a, (s.1, w)).
Definition lift_err {St W} (f : W → option error * W) : SE St W () := λ s,
  let '(e, w) := f s.2 in (match e with None => Ok () | Some e => Fail e end, (s.1, w)).
(** The error as a value. *)
Definition try {St W A} (m : SE St W A) : SE St W (result error A) := λ s, let '(res, s) := m s in (Ok res, s).
(** A deferred function. *)
Definition finally {St W A} (m : SE St W A) (f : St → St) : SE St W A := λ s,
  let '(res, s) := m s in (res, (f s.1, s.2)).
Definition wrap {St W A} (text : string) (m : SE St W A) : SE St W A := λ s,
  match m s with
  | (Ok a, s) => (Ok a, s)
  | (Fail e, s) => (Fail (Errorf text e), s)
  end.

(** ** Rules for the monad *)
Section rules.
Context {St W : Type}.
Notation state := (St * W)%type.

(** From [Pre], [m] returns [a] in a state of [Q a], or fails in one of [F]. *)
Definition triple {A} (Pre : state → Prop) (m : SE St W A) (Q : A → state → Prop) (F : state → Prop) : Prop :=
  ∀ s, Pre s → match m s with (Ok a, s') => Q a s' | (Fail _, s') => F s' end.

Lemma triple_conseq {A} (Pre Pre' : state → Prop) (m : SE St W A) Q Q' (F F' : state → Prop) :
  triple Pre m Q F → (∀ s, Pre' s → Pre s) → (∀ a s, Q a s → Q' a s) → (∀ s, F s → F' s) → triple Pre' m Q' F'.
Proof. intros Hm Hp Hq Hf s Hs. specialize (Hm s (Hp s Hs)). destruct (m s) as [[?|?] ?]; auto. Qed.

Lemma triple_pre {A} (Pre Pre' : state → Prop) (m : SE St W A) Q F :
  triple Pre m Q F → (∀ s, Pre' s → Pre s) → triple Pre' m Q F.
Proof. intros Hm Hp. eapply triple_conseq; eauto. Qed.

Lemma triple_bind {A B} (Pre : state → Prop) (m : SE St W A) (f : A → SE St W B) Mid Q F :
  triple Pre m Mid F → (∀ a, triple (Mid a) (f a) Q F) → triple Pre (m ≫= f) Q F.
Proof.
  intros Hm Hf s Hs. specialize (Hm s Hs). unfold mbind, SE_bind. destruct (m s) as [[a|e] s']; [|done]. by apply Hf.
Qed.

Lemma triple_ret {A} (a : A) (Pre : state → Prop) Q F : (∀ s, Pre s → Q a s) → triple Pre (mret a) Q F.
Proof. intros H s Hs. by apply H. Qed.

Lemma triple_fail {A} e (Pre : state → Prop) (Q : A → state → Prop) (F : state → Prop) :
  (∀ s, Pre s → F s) → triple Pre (fail e) Q F.
Proof. intros H s Hs. by apply H. Qed.

Lemma triple_asks {A B} (f : St → A) (g : A → SE St W B) (φ : A → Prop) (Pre : state → Prop) Q F :
  (∀ s, Pre s → φ (f s.1)) → (∀ a, φ a → triple Pre (g a) Q F) → triple Pre (asks f ≫= g) Q F.
Proof. intros Hf Hg s Hs. exact (Hg _ (Hf _ Hs) s Hs). Qed.

(** Asking for the memory itself. *)
Lemma triple_memory {B} (g : St → SE St W B) (Pre : state → Prop) Q F :
  (∀ r, triple (λ s, Pre s ∧ s.1 = r) (g r) Q F) → triple Pre (asks id ≫= g) Q F.
Proof. intros Hg s Hs. exact (Hg s.1 s (conj Hs eq_refl)). Qed.

Lemma triple_remember {A B} (f : St → A) (g : A → SE St W B) (Pre : state → Prop) Q F :
  (∀ r, triple (λ s, Pre s ∧ s.1 = r) (g (f r)) Q F) → triple Pre (asks f ≫= g) Q F.
Proof. intros Hg s Hs. exact (Hg s.1 s (conj Hs eq_refl)). Qed.

Lemma triple_world {A} (f : W → A) (Pre F : state → Prop) : triple Pre (world f) (λ _, Pre) F.
Proof. by intros s Hs. Qed.

Lemma triple_modify (f : St → St) (Pre : state → Prop) Q F :
  (∀ r w, Pre (r, w) → Q () (f r, w)) → triple Pre (modify f) Q F.
Proof. intros H [r w] Hs. by apply H. Qed.

Lemma triple_pure {A} (φ : Prop) (Pre : state → Prop) (m : SE St W A) Q F :
  (φ → triple Pre m Q F) → triple (λ s, φ ∧ Pre s) m Q F.
Proof. intros H s [Hφ Hs]. by apply H. Qed.

Lemma triple_try {A} (Pre : state → Prop) (m : SE St W A) Q F F' :
  triple Pre m Q F → triple Pre (try m) (λ res s, match res with Ok a => Q a s | Fail _ => F s end) F'.
Proof. intros Hm s Hs. specialize (Hm s Hs). unfold try. by destruct (m s) as [[?|?] ?]. Qed.

Lemma triple_wrap {A} (Pre : state → Prop) text (m : SE St W A) Q F :
  triple Pre m Q F → triple Pre (wrap text m) Q F.
Proof. intros Hm s Hs. specialize (Hm s Hs). unfold wrap. by destruct (m s) as [[?|?] ?]. Qed.

Lemma triple_finally {A} (Pre : state → Prop) (m : SE St W A) f Q F :
  triple Pre m Q F → (∀ a r w, Q a (r, w) → Q a (f r, w)) → (∀ r w, F (r, w) → F (f r, w)) →
  triple Pre (finally m f) Q F.
Proof.
  intros Hm HQ HF s Hs. specialize (Hm s Hs). unfold finally. destruct (m s) as [[?|?] [r w]]; cbn; auto.
Qed.

Lemma triple_lift {A} (f : W → result error A * W) (Pre : state → Prop) Q F :
  (∀ r w res w', Pre (r, w) → f w = (res, w') → match res with Ok a => Q a (r, w') | Fail _ => F (r, w') end) →
  triple Pre (lift f) Q F.
Proof. intros H [r w] Hs. unfold lift; cbn. destruct (f w) as [res w'] eqn:Hf. specialize (H _ _ _ _ Hs Hf). by destruct res. Qed.

Lemma triple_lift_err (f : W → option error * W) (Pre : state → Prop) (Q : () → state → Prop) F :
  (∀ r w err w', Pre (r, w) → f w = (err, w') → match err with None => Q () (r, w') | Some _ => F (r, w') end) →
  triple Pre (lift_err f) Q F.
Proof.
  intros H [r w] Hs. unfold lift_err; cbn. destruct (f w) as [err w'] eqn:Hf. specialize (H _ _ _ _ Hs Hf). by destruct err.
Qed.

Lemma triple_lift_total {A} (f : W → A * W) (Pre : state → Prop) Q F :
  (∀ r w a w', Pre (r, w) → f w = (a, w') → Q a (r, w')) → triple Pre (lift_total f) Q F.
Proof. intros H [r w] Hs. unfold lift_total; cbn. destruct (f w) as [a w'] eqn:Hf. by apply (H _ _ _ _ Hs Hf). Qed.
End rules.

