(* ===== verification/SqlTx.v ===== *)
(** * Transactions of a database handle

    What the SQL stores do with [database/sql] and pgx: statements that may
    fail, and [runTx], which commits what a function did or nothing of it.
    The database is any [D]; a statement reads the clock of the server when
    it runs.  Statements are numbered as they are sent. *)
From S2P Require Import Prelude Core Effect.

(** Which calls of the database fail, and what its clock says at each. *)
Record db_env : Type := mkDbEnv {
  db_fault : nat → option error;
  db_clock : nat → Z;
}.

(** A database that fails nothing while its clock stands at [now]. *)
Definition instant (now : Z) : db_env := mkDbEnv (λ _, None) (λ _, now).

Section tx.
Context {D : Type}.

(** The memory is the number of calls sent so far. *)
Definition Tx (A : Type) : Type := SE nat D A.

(** One statement: it fails and changes nothing, or runs whole. *)
Definition statement {A} (env : db_env) (text : string) (f : Z → D → result error (A * D)) : Tx A := λ s,
  match db_fault env s.1 with
  | Some e => (Fail (Errorf text e), (S s.1, s.2))
  | None =>
    match f (db_clock env s.1) s.2 with
    | Fail e => (Fail (Errorf text e), (S s.1, s.2))
    | Ok (a, d) => (Ok a, (S s.1, d))
    end
  end.

(** A statement that cannot break a constraint, and one that only reads. *)
Definition update {A} (env : db_env) (text : string) (f : Z → D → A * D) : Tx A :=
  statement env text (λ now d, Ok (f now d)).
Definition select {A} (env : db_env) (text : string) (f : Z → D → A) : Tx A :=
  statement env text (λ now d, Ok (f now d, d)).

(** [runTx]: begin, [fn], commit; the deferred Rollback undoes everything
    unless Commit succeeded. *)
Definition runTx {A} (env : db_env) (begin_text commit_text : string) (fn : Tx A) (d : D) : result error A * D :=
  match db_fault env 0 with
  | Some e => (Fail (Errorf begin_text e), d)
  | None =>
    match fn (1%nat, d) with
    | (Fail e, _) => (Fail e, d)
    | (Ok a, (n, d')) =>
      match db_fault env n with
      | Some e => (Fail (Errorf commit_text e), d)
      | None => (Ok a, d')
      end
    end
  end.

(** A statement outside a transaction is one of its own. *)
Definition autocommit {A} (m : Tx A) (d : D) : result error A * D := let '(res, s) := m (0%nat, d) in (res, s.2).

(** ** Rules *)

(** A transaction that fails leaves the database as it was. *)
Lemma runTx_rolls_back {A} env b c (fn : Tx A) d e d' : runTx env b c fn d = (Fail e, d') → d' = d.
Proof.
  unfold runTx. destruct (db_fault env 0); [congruence|]. destruct (fn (1%nat, d)) as [[a|e0] [n d1]]; [|congruence].
  destruct (db_fault env n); congruence.
Qed.

Lemma runTx_Ok {A} env b c (fn : Tx A) d a d' : runTx env b c fn d = (Ok a, d') → ∃ n, fn (1%nat, d) = (Ok a, (n, d')).
Proof.
  unfold runTx. destruct (db_fault env 0); [congruence|]. destruct (fn (1%nat, d)) as [[a0|e0] [n d1]]; [|congruence].
  destruct (db_fault env n); [congruence|]. intros [= -> ->]. by exists n.
Qed.

Lemma statement_Ok {A} env text (f : Z → D → result error (A * D)) s a s' :
  statement env text f s = (Ok a, s') → f (db_clock env s.1) s.2 = Ok (a, s'.2).
Proof.
  unfold statement. destruct (db_fault env s.1); [congruence|].
  destruct (f (db_clock env s.1) s.2) as [[a0 d]|]; [|congruence]. by intros [= -> <-].
Qed.

Lemma statement_Fail {A} env text (f : Z → D → result error (A * D)) s e s' :
  statement env text f s = (Fail e, s') → s'.2 = s.2 ∧ ∃ e0, e = Errorf text e0.
Proof.
  unfold statement. destruct (db_fault env s.1); [intros [= <- <-]; eauto|].
  destruct (f (db_clock env s.1) s.2) as [[a0 d]|]; [congruence|]. intros [= <- <-]; eauto.
Qed.

(** On a database that answers. *)
Lemma runTx_instant {A} now b c (fn : Tx A) d :
  runTx (instant now) b c fn d =
  match fn (1%nat, d) with (Ok a, (_, d')) => (Ok a, d') | (Fail e, _) => (Fail e, d) end.
Proof. unfold runTx. cbn. by destruct (fn (1%nat, d)) as [[a|e] [n d1]]. Qed.

Lemma update_instant {A} now text (f : Z → D → A * D) n d :
  update (instant now) text f (n, d) = (Ok (f now d).1, (S n, (f now d).2)).
Proof. unfold update, statement. cbn. by destruct (f now d). Qed.

Lemma select_instant {A} now text (f : Z → D → A) n d : select (instant now) text f (n, d) = (Ok (f now d), (S n, d)).
Proof. done. Qed.

Lemma bind_Ok {A B} (m : Tx A) (f : A → Tx B) s b s' :
  (m ≫= f) s = (Ok b, s') → ∃ a s1, m s = (Ok a, s1) ∧ f a s1 = (Ok b, s').
Proof. unfold mbind, SE_bind. destruct (m s) as [[a|e] s1]; [|congruence]. eauto. Qed.

Lemma bind_run {A B} (m : Tx A) (f : A → Tx B) s a s1 : m s = (Ok a, s1) → (m ≫= f) s = f a s1.
Proof. unfold mbind, SE_bind. by intros ->. Qed.

Lemma bind_fails {A B} (m : Tx A) (f : A → Tx B) s e s1 : m s = (Fail e, s1) → (m ≫= f) s = (Fail e, s1).
Proof. unfold mbind, SE_bind. by intros ->. Qed.
End tx.
Arguments Tx D A : clear implicits.
