(* ===== verification/SqlValues.v ===== *)
(** * Values in the columns of the SQL stores

    Durations as milliseconds and the instants at readings of a database's
    clock, with the lemmas the simulations of both stores share. *)
From S2P Require Import Prelude Core.

(** [d.Milliseconds()], and a number of milliseconds as a Duration *)
Definition Milliseconds (d : duration) : Z := Z.quot d millisecond.
Definition of_ms (n : Z) : duration := n * millisecond.

(** A number a column of 64 bits keeps: below [2^63]. *)
Definition small (z : Z) : Prop := 0 ≤ z ≤ max_int64.

(** The instant at a reading of the clock of the database. *)
Definition ms_time (n : Z) : time := unix_epoch + of_ms n.

Lemma small_int64 z : small z → int64 z = z.
Proof. unfold small. intros H. apply int64_small. unfold min_int64. lia. Qed.

Lemma small_u64 z : small z → u64 z = z.
Proof. unfold small, max_int64. intros H. apply u64_small. unfold is_u64, two64. lia. Qed.

Lemma int64_eq_small z n : is_u64 z → small n → int64 z = n ↔ z = n.
Proof.
  intros Hz Hn. split.
  - intros H. rewrite <- (u64_small z Hz), <- (u64_int64 z), H. by apply small_u64.
  - intros ->. by apply small_int64.
Qed.

Lemma Milliseconds_of_ms n : Milliseconds (of_ms n) = n.
Proof. unfold Milliseconds, of_ms, millisecond. by rewrite Z.quot_mul. Qed.

(** Readings of the clock lie between [base] and [base + span]: differences
    of two of them are Durations. *)
Class Clock : Type := { base : Z; base_nonneg : 0 ≤ base }.
Definition span : Z := 9000000000000.

Lemma ms_Sub `{C : Clock} a b : base ≤ b ≤ a → a ≤ base + span → time_Sub (ms_time a) (ms_time b) = of_ms (a - b).
Proof. unfold time_Sub, ms_time, of_ms, span, millisecond, min_int64, max_int64. lia. Qed.

Lemma ms_time_nonzero n : 0 ≤ n → time_IsZero (ms_time n) = false.
Proof. unfold time_IsZero, ms_time, of_ms, unix_epoch, second, millisecond. intros. apply Z.eqb_neq. lia. Qed.

Lemma ms_time_lt a b : ms_time a < ms_time b ↔ a < b.
Proof. unfold ms_time, of_ms, millisecond. lia. Qed.

Lemma ms_time_le a b : ms_time a ≤ ms_time b ↔ a ≤ b.
Proof. unfold ms_time, of_ms, millisecond. lia. Qed.

Lemma ms_time_Add a b : time_Add (ms_time a) (of_ms b) = ms_time (a + b).
Proof. unfold time_Add, ms_time, of_ms. lia. Qed.

(** The answers of a store to calls at readings of the clock *)
Fixpoint answers {Call Answer S : Type} (call : Z → Call → S → Answer * S) (cs : list (Z * Call)) (s : S) : list Answer :=
  match cs with
  | [] => []
  | (now, c) :: cs => let '(a, s) := call now c s in a :: answers call cs s
  end.
