(* ===== verification/Iter.v ===== *)
(** * The pull iterator ([iter.go])

    An [Iterator] carries the closures it was built with and the state they
    capture.  Contexts are threaded explicitly, since a context can end
    between any two looks at it.  [Wrap] builds an iterator whose captured
    state is another iterator. *)
From S2P Require Import Prelude Core.

(** A [context.Context] as the iterator observes it: never done, or done
    with [cause] after a number of further calls of [Err]. *)
Definition context : Type := option (nat * error).

(** [ctx.Err()]. *)
Definition ctx_Err (c : context) : option error * context :=
  match c with
  | None => (None, None)
  | Some (O, cause) => (Some cause, c)
  | Some (S k, cause) => (None, Some (k, cause))
  end.

Section iterator.
Context {St T : Type}.

Definition IterFunc : Type := context → St → result error T * context * St.

Record Iterator : Type := mkIterator {
  it_next : IterFunc;
  it_close : option (St → option error * St);
  it_state : St;
  it_current : option T;
  it_err : option error;
  it_closeErr : option error;
  it_done : bool;
}.

Definition NewIteratorFunc (next : IterFunc) (close : option (St → option error * St))
    (st : St) : Iterator :=
  mkIterator next close st None None None false.

Definition Close (it : Iterator) : option error * Iterator :=
  if it_done it then (it_closeErr it, it)
  else
    let '(cerr, st) := match it_close it with
                       | Some close => close (it_state it)
                       | None => (it_closeErr it, it_state it)
                       end in
    (cerr, mkIterator (it_next it) (it_close it) st None (it_err it) cerr true).

Definition set_err (e : option error) (it : Iterator) : Iterator :=
  mkIterator (it_next it) (it_close it) (it_state it) (it_current it) e (it_closeErr it) (it_done it).

Definition set_state (st : St) (it : Iterator) : Iterator :=
  mkIterator (it_next it) (it_close it) st (it_current it) (it_err it) (it_closeErr it) (it_done it).

Definition set_current (v : T) (it : Iterator) : Iterator :=
  mkIterator (it_next it) (it_close it) (it_state it) (Some v) (it_err it) (it_closeErr it) (it_done it).

Definition finish (e : option error) (it : Iterator) : Iterator := (Close (set_err e it)).2.

Definition Next (c : context) (it : Iterator) : bool * context * Iterator :=
  if it_done it then (false, c, it)
  else
    match ctx_Err c with
    | (Some e, c) => (false, c, finish (Some e) it)
    | (None, c) =>
      match it_next it c (it_state it) with
      | (Fail e, c, st) =>
        (false, c, finish (if errors_Is e io_EOF then None else Some e) (set_state st it))
      | (Ok v, c, st) => (true, c, set_current v (set_state st it))
      end
    end.

Definition Value (it : Iterator) : option T := it_current it.

Definition Err (it : Iterator) : option error :=
  match it_closeErr it, it_err it with
  | None, _ => it_err it
  | _, None => it_closeErr it
  | _, _ => errors_Join [it_err it; it_closeErr it]
  end.

(** The loop of [Values] with a [yield] that always continues, as
    [slices.Collect] runs it; [None] when [fuel] runs out. *)
Fixpoint collect (fuel : nat) (c : context) (it : Iterator) : option (list T * context * Iterator) :=
  match fuel with
  | O => None
  | S fuel =>
    match Next c it with
    | (true, c, it) =>
      match Value it, collect fuel c it with
      | Some v, Some (vs, c, it) => Some (v :: vs, c, it)
      | _, _ => None
      end
    | (false, c, it) => Some ([], c, (Close it).2)
    end
  end.

Definition All (fuel : nat) (c : context) (it : Iterator) : option (list T * option error * Iterator) :=
  match collect fuel c it with
  | Some (vs, _, it) => Some (vs, Err it, it)
  | None => None
  end.
End iterator.

Arguments IterFunc : clear implicits.
Arguments Iterator : clear implicits.

(** The captured state of a slice iterator is the index [i]. *)
Definition slice_next {T} (s : list T) : IterFunc nat T := λ c i,
  match s !! i with
  | None => (Fail (Sentinel io_EOF), c, i)
  | Some v => (Ok v, c, S i)
  end.

Definition NewSliceIterator {T} (s : list T) : Iterator nat T :=
  NewIteratorFunc (slice_next s) None 0%nat.

(** [Wrap]: the captured state is the source and the world of [done]. *)
Section wrap.
Context {St T U D : Type}.

Definition wrap_close (done : option (option error → D → D)) :
    Iterator St T * D → option error * (Iterator St T * D) := λ '(src, d),
  let src := (Close src).2 in
  let err := Err src in
  (err, (src, match done with Some done => done err d | None => d end)).

Definition wrap_next (next : context → Iterator St T → result error U * context * Iterator St T) :
    IterFunc (Iterator St T * D) U := λ c '(src, d),
  let '(r, c, src) := next c src in (r, c, (src, d)).

Definition Wrap (src : Iterator St T)
    (next : context → Iterator St T → result error U * context * Iterator St T)
    (done : option (option error → D → D)) (d : D) : Iterator (Iterator St T * D) U :=
  NewIteratorFunc (wrap_next next) (Some (wrap_close done)) (src, d).
End wrap.

(** ** Once closed, always closed *)
Section facts.
Context {St T : Type}.
Implicit Types it : Iterator St T.

Lemma Close_done it : it_done (Close it).2 = true.
Proof. unfold Close. destruct (it_done it) eqn:Hd; [done|]. by repeat case_match. Qed.

Lemma Close_idem it : Close (Close it).2 = ((Close it).1, (Close it).2).
Proof.
  unfold Close at 1. rewrite Close_done. unfold Close.
  destruct (it_done it) eqn:Hd; [done|]. by repeat case_match.
Qed.

Lemma Next_false_done c it c' it' : Next c it = (false, c', it') → it_done it' = true.
Proof.
  unfold Next, finish. intros H. destruct (it_done it) eqn:Hd; [naive_solver|].
  destruct (ctx_Err c) as [[e|] c1]; simplify_eq; [apply Close_done|].
  destruct (it_next it c1 (it_state it)) as [[[v|e] c2] st]; simplify_eq. apply Close_done.
Qed.

Lemma Next_true_open c it c' it' : Next c it = (true, c', it') → it_done it = false ∧ it_done it' = false.
Proof.
  unfold Next. intros H. destruct (it_done it) eqn:Hd; [done|].
  destruct (ctx_Err c) as [[e|] c1]; simplify_eq.
  destruct (it_next it c1 (it_state it)) as [[[v|e] c2] st]; simplify_eq. done.
Qed.

Lemma Next_closed c it : it_done it = true → Next c it = (false, c, it).
Proof. unfold Next. by intros ->. Qed.

Lemma collect_done fuel c it vs c' it' : collect fuel c it = Some (vs, c', it') → it_done it' = true.
Proof.
  revert c it vs. induction fuel as [|fuel IH]; intros c it vs; [done|]. cbn [collect].
  destruct (Next c it) as [[[] c1] it1]; [|intros ?; simplify_eq; apply Close_done].
  destruct (Value it1); [|done]. destruct (collect fuel c1 it1) as [[[vs1 c2] it2]|] eqn:Hc; [|done].
  intros ?; simplify_eq. by eapply IH.
Qed.

Lemma collect_mono fuel fuel' c it r :
  collect fuel c it = Some r → (fuel ≤ fuel')%nat → collect fuel' c it = Some r.
Proof.
  revert fuel' c it r. induction fuel as [|fuel IH]; intros [|fuel'] c it r H Hle; try done; [lia|].
  simpl in *. destruct (Next c it) as [[[] c1] it1]; [|done].
  destruct (Value it1); [|done].
  destruct (collect fuel c1 it1) as [[[vs c2] it2]|] eqn:Hc; [|done].
  by rewrite (IH fuel' c1 it1 _ Hc) by lia.
Qed.
End facts.

(** ** The close function runs exactly once

    [counted] instruments an iterator's closures with the number of times the
    close function ran. *)
Section counted.
Context {St T : Type}.
Context (next : IterFunc St T) (close : St → option error * St).

Definition counted_next : IterFunc (St * nat) T := λ c '(st, n),
  let '(r, c, st) := next c st in (r, c, (st, n)).
Definition counted_close : St * nat → option error * (St * nat) := λ '(st, n),
  let '(e, st) := close st in (e, (st, S n)).
Definition counted (st : St) : Iterator (St * nat) T :=
  NewIteratorFunc counted_next (Some counted_close) (st, 0%nat).

Inductive call : Type := CallNext | CallClose | CallAll (fuel : nat).

Definition run_call (k : call) (s : context * Iterator (St * nat) T) :
    option (context * Iterator (St * nat) T) :=
  let '(c, it) := s in
  match k with
  | CallNext => let '(_, c, it) := Next c it in Some (c, it)
  | CallClose => Some (c, (Close it).2)
  | CallAll fuel => match collect fuel c it with Some (_, c, it) => Some (c, it) | None => None end
  end.

Fixpoint run_calls (ks : list call) (s : context * Iterator (St * nat) T) :
    option (context * Iterator (St * nat) T) :=
  match ks with
  | [] => Some s
  | k :: ks => match run_call k s with Some s => run_calls ks s | None => None end
  end.

Definition counted_inv (it : Iterator (St * nat) T) : Prop :=
  it_next it = counted_next ∧ it_close it = Some counted_close ∧
  (it_state it).2 = if it_done it then 1%nat else 0%nat.

Lemma Close_counted it : counted_inv it → counted_inv (Close it).2.
Proof.
  intros (Hn & Hc & Hs). unfold Close. destruct (it_done it) eqn:Hd.
  { split_and!; simpl; [done..|]. by rewrite Hs, Hd. }
  rewrite Hc. destruct (it_state it) as [st n]; simpl in *. subst n.
  destruct (close st). by repeat split.
Qed.

Lemma Next_counted c it b c' it' : counted_inv it → Next c it = (b, c', it') → counted_inv it'.
Proof.
  intros Hinv. unfold Next, finish. destruct (it_done it) eqn:Hd; [naive_solver|].
  destruct (ctx_Err c) as [[e|] c1].
  { intros ?; simplify_eq. apply Close_counted. destruct Hinv as (?&?&Hs). by repeat split. }
  destruct Hinv as (Hn & Hc & Hs). rewrite Hd in Hs. rewrite Hn.
  destruct (it_state it) as [st n] eqn:Hst; simpl in *.
  destruct (next c1 st) as [[[v|e] c2] st']; intros ?; simplify_eq.
  - repeat split; simpl; [done..|by rewrite Hd].
  - apply Close_counted. repeat split; simpl; [done..|by rewrite Hd].
Qed.

Lemma collect_counted fuel c it vs c' it' :
  counted_inv it → collect fuel c it = Some (vs, c', it') → counted_inv it' ∧ it_done it' = true.
Proof.
  revert c it vs. induction fuel as [|fuel IH]; intros c it vs Hinv; [done|]. simpl.
  destruct (Next c it) as [[b c1] it1] eqn:HN.
  pose proof (Next_counted _ _ _ _ _ Hinv HN) as Hinv1. destruct b.
  - destruct (Value it1); [|done].
    destruct (collect fuel c1 it1) as [[[vs1 c2] it2]|] eqn:Hc; [|done].
    intros ?; simplify_eq. by eapply IH.
  - intros ?; simplify_eq. split; [by apply Close_counted | apply Close_done].
Qed.

Lemma run_call_counted k c it s' :
  counted_inv it → run_call k (c, it) = Some s' →
  counted_inv s'.2 ∧ (it_done it = true → it_done s'.2 = true) ∧ (k ≠ CallNext → it_done s'.2 = true).
Proof.
  intros Hinv. destruct k as [| |fuel]; simpl.
  - destruct (Next c it) as [[b c1] it1] eqn:HN. intros ?; simplify_eq/=.
    split; [by eapply Next_counted|]. split; [|done].
    intros Hd. rewrite (Next_closed c it Hd) in HN. by simplify_eq.
  - intros ?; simplify_eq/=. auto using Close_counted, Close_done.
  - destruct (collect fuel c it) as [[[vs c2] it2]|] eqn:Hc; [|done].
    intros ?; simplify_eq/=. destruct (collect_counted _ _ _ _ _ _ Hinv Hc). auto.
Qed.

Lemma run_calls_counted ks c it s' :
  counted_inv it → run_calls ks (c, it) = Some s' →
  counted_inv s'.2 ∧ (it_done it = true ∨ (∃ k, k ∈ ks ∧ k ≠ CallNext) → it_done s'.2 = true).
Proof.
  revert c it. induction ks as [|k ks IH]; intros c it Hinv; cbn [run_calls].
  { intros ?; simplify_eq/=. split; [done|]. simpl. intros [Hd|(k & Hk & _)]; [exact Hd|inversion Hk]. }
  destruct (run_call k (c, it)) as [[c1 it1]|] eqn:Hk; [|done]. intros Hks.
  destruct (run_call_counted _ _ _ _ Hinv Hk) as (Hinv1 & Hd1 & Hn1). simpl in *.
  destruct (IH _ _ Hinv1 Hks) as [? Hd2]. split; [done|].
  intros Hend. apply Hd2. destruct Hend as [Hd|(k' & Hin & Hne)]; [by auto|].
  apply elem_of_cons in Hin as [->|Hin]; [by auto|]. right. by exists k'.
Qed.
End counted.

(** The close function runs exactly once: once the iterator has been closed or
    read to its end, and not before.  [CallNext] alone may leave the iterator
    open; every other call ends it. *)
Lemma counted_initial {St T} next close st :
  counted_inv next close (counted (T:=T) (St:=St) next close st).
Proof. by repeat split. Qed.

(** However a caller mixes Next, Close and All, an iterator runs its close
    function at most once, exactly once when it ended, and every call of Close
    or All leaves it ended. *)
Theorem close_runs_exactly_once {St T} (next : IterFunc St T) close st ks c c' it :
  run_calls ks (c, counted next close st) = Some (c', it) →
  (it_state it).2 = (if it_done it then 1%nat else 0%nat) ∧
  ((∃ k, k ∈ ks ∧ k ≠ CallNext) → (it_state it).2 = 1%nat).
Proof.
  intros H. destruct (run_calls_counted _ _ _ _ _ _ (counted_initial next close st) H)
    as [(_ & _ & Hn) Hd].
  simpl in *. split; [done|]. intros Hk. rewrite Hn, Hd by auto. done.
Qed.

(** ** What reading to the end returns

    [Yields next c st xs e c' st']: drawing from [next] gives the items [xs]
    and then the error [e] ([None] for a clean end). *)
Section yields.
Context {St T : Type} (next : IterFunc St T) (close : option (St → option error * St)).

Inductive Yields : context → St → list T → option error → context → St → Prop :=
| Yields_ctx c st e c1 :
    ctx_Err c = (Some e, c1) → Yields c st [] (Some e) c1 st
| Yields_end c st c1 e c2 st' :
    ctx_Err c = (None, c1) → next c1 st = (Fail e, c2, st') →
    Yields c st [] (if errors_Is e io_EOF then None else Some e) c2 st'
| Yields_item c st c1 v c2 st1 xs e c3 st' :
    ctx_Err c = (None, c1) → next c1 st = (Ok v, c2, st1) →
    Yields c2 st1 xs e c3 st' →
    Yields c st (v :: xs) e c3 st'.

(** The iterator between two items. *)
Definition reading (st : St) (cur : option T) : Iterator St T :=
  mkIterator next close st cur None None false.

Definition final_close (st : St) : option error * St :=
  match close with Some close => close st | None => (None, st) end.

Definition final_error (e : option error) (ce : option error) : option error :=
  match ce, e with
  | None, _ => e
  | _, None => ce
  | _, _ => errors_Join [e; ce]
  end.

Lemma finish_reading st cur e :
  finish e (reading st cur)
  = mkIterator next close (final_close st).2 None e (final_close st).1 true.
Proof. unfold finish, Close, final_close; simpl. destruct close as [cl|]; [by destruct (cl st)|done]. Qed.

Lemma collect_yields c st xs e c' st' cur fuel :
  Yields c st xs e c' st' → (length xs < fuel)%nat →
  collect fuel c (reading st cur)
  = Some (xs, c', mkIterator next close (final_close st').2 None e (final_close st').1 true).
Proof.
  intros HY. revert cur fuel.
  induction HY as [c st e c1 Hc|c st c1 e c2 st' Hc Hn|c st c1 v c2 st1 xs e c3 st' Hc Hn HY IH];
    intros cur [|fuel] Hfuel; try lia; simpl in *; unfold Next; simpl; rewrite Hc, ?Hn.
  - by rewrite finish_reading.
  - change (set_state st' (reading st cur)) with (reading st' cur). by rewrite finish_reading.
  - change (set_current v (set_state st1 (reading st cur))) with (reading st1 (Some v)).
    simpl. by rewrite IH by lia.
Qed.

Lemma All_yields c st xs e c' st' fuel :
  Yields c st xs e c' st' → (length xs < fuel)%nat →
  All fuel c (NewIteratorFunc next close st)
  = Some (xs, final_error e (final_close st').1,
          mkIterator next close (final_close st').2 None e (final_close st').1 true).
Proof.
  intros HY Hfuel. unfold All.
  change (NewIteratorFunc next close st) with (reading st None).
  by rewrite (collect_yields _ _ _ _ _ _ _ _ HY Hfuel).
Qed.
End yields.

(** ** Slice iterators *)
Lemma slice_yields {T} (s : list T) i :
  Yields (slice_next s) None i (drop i s) None None (length s `max` i)%nat.
Proof.
  remember (length s - i)%nat as n eqn:Hn. revert i Hn.
  induction n as [|n IH]; intros i Hn.
  - rewrite drop_ge by lia. replace (length s `max` i)%nat with i by lia.
    eapply (Yields_end _ _ _ None (Sentinel io_EOF)); [done|].
    unfold slice_next. by rewrite lookup_ge_None_2 by lia.
  - destruct (lookup_lt_is_Some_2 s i) as [v Hv]; [lia|].
    rewrite (drop_S _ _ _ Hv). eapply Yields_item; [done| |].
    + unfold slice_next. by rewrite Hv.
    + replace (length s `max` i)%nat with (length s `max` S i)%nat by lia. apply IH. lia.
Qed.

(** A slice iterator whose context is never done returns the whole slice. *)
Lemma slice_All {T} (s : list T) fuel :
  (length s < fuel)%nat →
  All fuel None (NewSliceIterator s)
  = Some (s, None, mkIterator (slice_next s) None (length s) None None None true).
Proof.
  intros Hf. pose proof (slice_yields s 0) as HY. rewrite drop_0, Nat.max_0_r in HY.
  unfold NewSliceIterator. by rewrite (All_yields _ None _ _ _ _ _ _ _ HY Hf).
Qed.

(** A context that ends after [k] looks cuts the slice short: the items read
    before come back with the context's error. *)
Lemma slice_yields_cancelled {T} (s : list T) k cause i :
  (i + k ≤ length s)%nat →
  Yields (slice_next s) (Some (k, cause)) i (take k (drop i s)) (Some cause) (Some (0%nat, cause)) (i + k)%nat.
Proof.
  revert i. induction k as [|k IH]; intros i Hk.
  - rewrite take_0, Nat.add_0_r. by eapply Yields_ctx.
  - destruct (lookup_lt_is_Some_2 s i) as [v Hv]; [lia|].
    rewrite (drop_S _ _ _ Hv). simpl. eapply Yields_item; [done| |].
    + unfold slice_next. by rewrite Hv.
    + replace (i + S k)%nat with (S i + k)%nat by lia. apply IH. lia.
Qed.

(** A context that ends after [k] items ends [All] with those items and its cause. *)
Theorem slice_All_cancelled {T} (s : list T) k cause :
  (k ≤ length s)%nat →
  ∃ it, All (S (length s)) (Some (k, cause)) (NewSliceIterator s) = Some (take k s, Some cause, it)
        ∧ it_done it = true ∧ Close it = (None, it).
Proof.
  intros Hk. pose proof (slice_yields_cancelled s k cause 0 Hk) as HY. rewrite drop_0 in HY.
  eexists. split; [|split].
  - unfold NewSliceIterator. apply (All_yields _ None _ _ _ _ _ _ _ HY).
    rewrite length_take. lia.
  - done.
  - done.
Qed.

(** ** Wrapping

    [wrap_map f] is the shape every [next] of the repository has: it advances
    the source, ends with [io.EOF] when the source ends, and otherwise turns
    the item into another one. *)
Definition wrap_map {St T U} (f : T → U) : context → Iterator St T → result error U * context * Iterator St T :=
  λ c src,
    match Next c src with
    | (true, c, src) => match Value src with
                        | Some v => (Ok (f v), c, src)
                        | None => (Fail (Sentinel io_EOF), c, src)
                        end
    | (false, c, src) => (Fail (Sentinel io_EOF), c, src)
    end.

Lemma Next_true_value {St T} c (it : Iterator St T) c' it' :
  Next c it = (true, c', it') → is_Some (Value it').
Proof.
  unfold Next. intros H. destruct (it_done it); [done|].
  destruct (ctx_Err c) as [[e|] c1]; simplify_eq.
  destruct (it_next it c1 (it_state it)) as [[[v|e] c2] st]; simplify_eq. by eexists.
Qed.

Lemma Next_None_ctx {St T} (it : Iterator St T) b c' it' :
  (∀ st, (it_next it None st).1.2 = None) → Next None it = (b, c', it') → c' = None ∧ it_next it' = it_next it.
Proof.
  intros Hctx. unfold Next, finish, Close. intros H. specialize (Hctx (it_state it)).
  destruct (it_done it) eqn:Hd; [naive_solver|]. simpl in H.
  destruct (it_next it None (it_state it)) as [[[v|e] c2] st]; simplify_eq/=; [done|].
  rewrite Hd. by repeat case_match.
Qed.

Section wrap_facts.
Context {St T U D : Type} (f : T → U) (done : option (option error → D → D)).

Definition wrapped (src : Iterator St T) (d : D) (cur : option U) : Iterator (Iterator St T * D) U :=
  mkIterator (wrap_next (wrap_map f)) (Some (wrap_close done)) (src, d) cur None None false.

Definition notify (e : option error) (d : D) : D :=
  match done with Some done => done e d | None => d end.

Lemma wrapped_collect fuel (src src' : Iterator St T) d cur vs c :
  (∀ st, (it_next src None st).1.2 = None) →
  collect fuel None src = Some (vs, c, src') →
  collect fuel None (wrapped src d cur)
  = Some (map f vs, None,
          mkIterator (wrap_next (wrap_map f)) (Some (wrap_close done))
            (src', notify (Err src') d) None None (Err src') true).
Proof.
  revert src d cur vs. induction fuel as [|fuel IH]; intros src d cur vs Hctx; [done|].
  cbn [collect]. destruct (Next None src) as [[b c1] src1] eqn:HN.
  destruct (Next_None_ctx _ _ _ _ Hctx HN) as [-> Hnext].
  assert (wrap_map f None src = match b, Value src1 with
          | true, Some v => (Ok (f v), None, src1) | _, _ => (Fail (Sentinel io_EOF), None, src1) end) as Hw.
  { unfold wrap_map. rewrite HN. destruct b; [by destruct (Value src1)|done]. }
  unfold Next at 1; cbn [wrapped it_done ctx_Err it_next it_state wrap_next]. rewrite Hw.
  destruct b.
  - destruct (Next_true_value _ _ _ _ HN) as [v Hv]. rewrite Hv.
    destruct (collect fuel None src1) as [[[vs1 c2] it2]|] eqn:Hc; [|done].
    intros ?; simplify_eq/=.
    change (set_current (f v) (set_state (src1, d) (wrapped src d cur))) with (wrapped src1 d (Some (f v))).
    rewrite (IH src1 d (Some (f v)) vs1); [done| |done]. by rewrite Hnext.
  - intros ?; simplify_eq/=. by destruct src1.
Qed.
End wrap_facts.

(** An iterator wrapped around a source yields the mapped items of the source,
    ends with the source's error, reports that error to [done] exactly once,
    and leaves the source closed. *)
Theorem Wrap_All {St T U D} (f : T → U) (done : option (option error → D → D)) (src : Iterator St T) d
    fuel vs e src' :
  (∀ st, (it_next src None st).1.2 = None) →
  All fuel None src = Some (vs, e, src') →
  ∃ it, All fuel None (Wrap src (wrap_map f) done d) = Some (map f vs, e, it)
        ∧ it_state it = (src', match done with Some done => done e d | None => d end)
        ∧ it_done src' = true ∧ it_done it = true.
Proof.
  unfold All. intros Hctx H. destruct (collect fuel None src) as [[[vs1 c] src1]|] eqn:Hc; [|by simplify_eq].
  simplify_eq. change (Wrap src (wrap_map f) done d) with (wrapped f done src d None).
  rewrite (wrapped_collect f done fuel src src' d None vs c Hctx Hc).
  set (final := mkIterator _ _ _ _ _ _ _). exists final.
  assert (Err final = Err src') as -> by (unfold Err at 1; simpl; by destruct (Err src')).
  split_and!; [done|done| |done]. by eapply collect_done.
Qed.
