(* ===== verification/Registry.v ===== *)
(** * Event registry and encoding ([event_registry.go], [event_encoding.go])

    The global registry is explicit state.  A factory is a pure function, here
    the value it returns; a nil factory is [None].  [encoding/json] is a
    parameter: [json_event] and [json_value] are what an event and a metadata
    value are after a round trip, which is not always what they were. *)
From S2P Require Import Prelude Core.

(** ** encoding/json *)
Class JSON : Type := {
  json_Marshal_Event : Event → result error string;
  json_Unmarshal_Event : string → Event → result error Event;
  json_Marshal_map : gmap string any → result error string;
  (** decoding into a nil map: [null] leaves it nil *)
  json_Unmarshal_map : string → result error metadata;
  (** a new value of the event's type, filled from the event's JSON *)
  json_event : Event → Event;
  (** what the JSON of a value decodes to, into a variable of type [any] *)
  json_value : any → any;
}.

(** The pointer form of an event. *)
Definition pointer_form (ev : Event) : Event :=
  mkEvent (ev_GoType ev) true (ev_AggregateID ev) (ev_EventType ev) (ev_data ev).

(** The dynamic types [encoding/json] decodes into a variable of type
    [any]; a nil value prints its type as [<nil>]. *)
Definition json_types : list string := ["float64"; "bool"; "<nil>"; "map[string]interface {}"; "[]interface {}"].

Definition json_kind (a : any) : Prop :=
  match a with AnyString _ => True | AnyOther T _ => T ∈ json_types end.

Definition go_integers : list string :=
  ["int"; "int8"; "int16"; "int32"; "int64"; "uint"; "uint8"; "uint16"; "uint32"; "uint64"].

(** [encoding/json], for strings that are UTF-8, numbers that a [float64]
    holds, event types that decode what they encode and keep their
    [EventType], and factories that return a new zero value. *)
Class JSONLaws (J : JSON) : Prop := {
  json_event_roundtrip ev data target :
    json_Marshal_Event ev = Ok data → ev_GoType target = ev_GoType ev → ev_Pointer target = true →
    json_Unmarshal_Event data target = Ok (json_event ev);
  json_event_GoType ev : ev_GoType (json_event ev) = ev_GoType ev;
  json_event_Pointer ev : ev_Pointer (json_event ev) = true;
  json_event_EventType ev : ev_EventType (json_event ev) = ev_EventType ev;
  json_map_roundtrip m data :
    json_Marshal_map m = Ok data → data ≠ "" ∧ json_Unmarshal_map data = Ok (Some (json_value <$> m));
  json_value_string s : json_value (AnyString s) = AnyString s;
  json_value_kind a : json_kind (json_value a);
  json_value_integer T repr : T ∈ go_integers → ∃ repr', json_value (AnyOther T repr) = AnyOther "float64" repr';
  json_value_again a : json_value (json_value a) = json_value a;
}.

(** ** State *)
Record Registry : Type := mkRegistry {
  registry : gmap string (option Event);
  typeToNames : gmap string (list string);
}.

Definition emptyRegistry : Registry := mkRegistry ∅ ∅.

Definition factory : Type := option (option Event).

Definition eventTypeKey (event : option Event) : string :=
  match event with None => "<nil>" | Some ev => ev_GoType ev end.

Definition eventNamesForKey (key : string) (r : Registry) : list string :=
  default [] (typeToNames r !! key).

Definition EventNamesFor (event : option Event) (r : Registry) : list string :=
  eventNamesForKey (eventTypeKey event) r.

Definition registerEventName (name : string) (fn : factory) (r : Registry) : outcome Registry :=
  match fn with
  | None => Panics "cannot register nil factory"
  | Some product =>
    if bool_decide (name = "") then Panics "cannot register factory for empty name"
    else match registry r !! name with
    | Some _ => Panics "event already registered"
    | None =>
      match product with
      | None => Panics "factory returned nil for event"
      | Some ev =>
        if negb (ev_Pointer ev) then Panics "factory does not return a pointer"
        else
          let key := eventTypeKey (Some ev) in
          Returns (mkRegistry (<[name := Some ev]> (registry r))
                     (<[key := eventNamesForKey key r ++ [name]]> (typeToNames r)))
      end
    end
  end.

Definition RegisterEventByType (fn : factory) (r : Registry) : outcome Registry :=
  match fn with
  | None => Panics "cannot register nil factory"
  | Some None => Panics "factory returned nil"
  | Some (Some ev) => registerEventName (ev_EventType ev) fn r
  end.

Definition RegisterEventByName (name : string) (fn : factory) (r : Registry) : outcome Registry :=
  registerEventName name fn r.

(** [RegisterEvent[T]]: [zero] is [*new(T)], and the factory returns its
    pointer form. *)
Definition RegisterEvent (zero : Event) (r : Registry) : outcome Registry :=
  RegisterEventByType (Some (Some (pointer_form zero))) r.

Definition NewEventByName (name : string) (r : Registry) : result error Event :=
  match registry r !! name with
  | None => Fail (Errorf name (Sentinel ErrEventNotRegistered))
  | Some None => Fail (New "factory returned nil for event")
  | Some (Some ev) => Ok ev
  end.

(** ** Encoding *)
Section encoding.
Context `{J : JSON}.

Definition EncodeEvent (event : option Event) (r : Registry) : result error string :=
  match event with
  | None => Fail (New "encode event: nil event")
  | Some ev =>
    let name := ev_EventType ev in
    if negb (bool_decide (name ∈ EventNamesFor event r))
    then Fail (Errorf "encode event" (Sentinel ErrEventNotRegistered))
    else match json_Marshal_Event ev with
         | Fail e => Fail (Errorf "encode event" e)
         | Ok data => Ok data
         end
  end.

Definition DecodeEvent (name data : string) (r : Registry) : result error Event :=
  match NewEventByName name r with
  | Fail e => Fail (Errorf "decode event" e)
  | Ok ev => match json_Unmarshal_Event data ev with
             | Fail e => Fail (Errorf "decode event" e)
             | Ok ev => Ok ev
             end
  end.

Definition EncodeMetadata (md : metadata) : result error string :=
  match json_Marshal_map (default ∅ md) with
  | Fail e => Fail (Errorf "encode metadata" e)
  | Ok data => Ok data
  end.

Definition DecodeMetadata (data : string) : result error (gmap string any) :=
  if bool_decide (data = "") then Ok ∅
  else match json_Unmarshal_map data with
       | Fail e => Fail (Errorf "decode metadata" e)
       | Ok md => Ok (default ∅ md)
       end.
End encoding.

(** ** The registry invariant *)

(** [registry] and [typeToNames] describe the same registrations. *)
Record registry_wf (r : Registry) : Prop := {
  wf_registered name p : registry r !! name = Some p →
    ∃ ev, p = Some ev ∧ ev_Pointer ev = true ∧ name ≠ "" ∧ name ∈ EventNamesFor (Some ev) r;
  wf_named key name : name ∈ eventNamesForKey key r →
    ∃ ev, registry r !! name = Some (Some ev) ∧ eventTypeKey (Some ev) = key;
  wf_nodup key : NoDup (eventNamesForKey key r);
}.

Lemma eventNamesForKey_insert key key' ns (reg : gmap string (option Event)) tn :
  eventNamesForKey key (mkRegistry reg (<[key' := ns]> tn))
  = if decide (key = key') then ns else default [] (tn !! key).
Proof. unfold eventNamesForKey; simpl. case_decide; simplify_map_eq; done. Qed.

Lemma registerEventName_inv name fn r r' :
  registerEventName name fn r = Returns r' →
  ∃ ev, fn = Some (Some ev) ∧ name ≠ "" ∧ registry r !! name = None ∧ ev_Pointer ev = true ∧
    r' = mkRegistry (<[name := Some ev]> (registry r))
           (<[ev_GoType ev := eventNamesForKey (ev_GoType ev) r ++ [name]]> (typeToNames r)).
Proof.
  unfold registerEventName. intros H. destruct fn as [[ev|]|]; [| |done].
  - case_bool_decide; [done|]. destruct (registry r !! name) eqn:Hr; [done|].
    destruct (ev_Pointer ev) eqn:Hp; simplify_eq/=. by exists ev.
  - case_bool_decide; [done|]. by destruct (registry r !! name).
Qed.

Lemma emptyRegistry_wf : registry_wf emptyRegistry.
Proof.
  split; unfold EventNamesFor, eventNamesForKey; simpl.
  - intros name p H. by rewrite lookup_empty in H.
  - intros key name H. rewrite lookup_empty in H. inversion H.
  - intros key. rewrite lookup_empty. constructor.
Qed.

Lemma registerEventName_wf name fn r r' :
  registry_wf r → registerEventName name fn r = Returns r' → registry_wf r'.
Proof.
  intros [Hreg Hnamed Hnd] (ev & -> & Hne & Hnone & Hptr & ->)%registerEventName_inv. split; simpl.
  - intros name' p. destruct (decide (name' = name)) as [->|Hneq].
    + rewrite lookup_insert_eq. intros [= <-]. exists ev. split_and!; [done..|].
      unfold EventNamesFor. rewrite eventNamesForKey_insert. simpl. rewrite decide_True by done. set_solver.
    + rewrite lookup_insert_ne by done. intros (ev' & -> & Hp & Hn & Hin)%Hreg.
      exists ev'. split_and!; [done..|]. unfold EventNamesFor in *. rewrite eventNamesForKey_insert.
      case_decide as Hk; [|done]. rewrite <- Hk. set_solver.
  - intros key name'. rewrite eventNamesForKey_insert. case_decide as Hk.
    + rewrite elem_of_app, list_elem_of_singleton. intros [Hin| ->].
      * destruct (Hnamed _ _ Hin) as (ev' & Hl & He). exists ev'. split; [|simpl in *; congruence].
        rewrite lookup_insert_ne; [done|]. congruence.
      * exists ev. rewrite lookup_insert_eq. by subst.
    + intros Hin. destruct (Hnamed _ _ Hin) as (ev' & Hl & He). exists ev'. split; [|done].
      rewrite lookup_insert_ne; [done|]. congruence.
  - intros key. rewrite eventNamesForKey_insert. case_decide as Hk; [|apply Hnd].
    apply NoDup_app. split_and!; [apply Hnd| |apply NoDup_singleton].
    intros x Hx. rewrite list_elem_of_singleton. intros ->.
    destruct (Hnamed _ _ Hx) as (ev' & Hl & _). congruence.
Qed.

Lemma registerEventName_mono name fn r r' name' ev :
  registerEventName name fn r = Returns r' →
  NewEventByName name' r = Ok ev → NewEventByName name' r' = Ok ev.
Proof.
  intros (ev0 & -> & Hne & Hnone & Hptr & ->)%registerEventName_inv.
  unfold NewEventByName; simpl. destruct (decide (name' = name)) as [->|Hneq].
  - by rewrite Hnone.
  - by rewrite lookup_insert_ne.
Qed.

(** ** Runs of registrations *)
Inductive registration : Type :=
| ByType (fn : factory)
| ByName (name : string) (fn : factory)
| ByZero (zero : Event).

Definition register (g : registration) (r : Registry) : outcome Registry :=
  match g with
  | ByType fn => RegisterEventByType fn r
  | ByName name fn => RegisterEventByName name fn r
  | ByZero zero => RegisterEvent zero r
  end.

Fixpoint register_all (gs : list registration) (r : Registry) : outcome Registry :=
  match gs with
  | [] => Returns r
  | g :: gs => r ← register g r; register_all gs r
  end.

(** Every registration goes through [registerEventName]. *)
Lemma register_inv g r r' :
  register g r = Returns r' → ∃ name fn, registerEventName name fn r = Returns r'.
Proof.
  destruct g as [[[ev|]|]|name fn|zero];
    cbn [register RegisterEventByType RegisterEventByName]; unfold RegisterEvent; cbn [RegisterEventByType];
    intros H; try done; eexists _, _; exact H.
Qed.

Lemma register_all_inv gs r r' :
  registry_wf r → register_all gs r = Returns r' →
  registry_wf r' ∧ ∀ name ev, NewEventByName name r = Ok ev → NewEventByName name r' = Ok ev.
Proof.
  revert r. induction gs as [|g gs IH]; intros r Hwf H; simpl in H; [naive_solver|].
  destruct (register g r) as [r1|] eqn:Hg; [|done]. simpl in H.
  destruct (register_inv _ _ _ Hg) as (name & fn & Hn).
  destruct (IH r1) as [Hwf' Hmono]; [by eapply registerEventName_wf|done|].
  split; [done|]. intros. apply Hmono. by eapply registerEventName_mono.
Qed.

(** [EncodeEvent] accepts only what [DecodeEvent] can build. *)
Lemma encode_accepts `{J : JSON} ev r data :
  registry_wf r → EncodeEvent (Some ev) r = Ok data →
  json_Marshal_Event ev = Ok data ∧
  ∃ target, NewEventByName (ev_EventType ev) r = Ok target ∧
            ev_GoType target = ev_GoType ev ∧ ev_Pointer target = true.
Proof.
  intros Hwf. unfold EncodeEvent. case_bool_decide as Hin; simpl; [|done].
  destruct (json_Marshal_Event ev) as [d|] eqn:Hd; [|done]. intros ?; simplify_eq. split; [done|].
  destruct (wf_named _ Hwf _ _ Hin) as (target & Hl & Hk).
  destruct (wf_registered _ Hwf _ _ Hl) as (ev' & [= <-] & Hp & _).
  exists target. unfold NewEventByName. by rewrite Hl.
Qed.

Lemma decode_encode `{J : JSON, !JSONLaws J} ev r r' data :
  registry_wf r → (∀ name e, NewEventByName name r = Ok e → NewEventByName name r' = Ok e) →
  EncodeEvent (Some ev) r = Ok data →
  DecodeEvent (ev_EventType ev) data r' = Ok (json_event ev).
Proof.
  intros Hwf Hmono Henc. destruct (encode_accepts _ _ _ Hwf Henc) as (Hd & target & Hn & HT & HP).
  unfold DecodeEvent. rewrite (Hmono _ _ Hn).
  by rewrite (json_event_roundtrip ev data target Hd HT HP).
Qed.

Lemma metadata_roundtrip `{J : JSON, !JSONLaws J} md data :
  EncodeMetadata md = Ok data → DecodeMetadata data = Ok (json_value <$> default ∅ md).
Proof.
  unfold EncodeMetadata, DecodeMetadata.
  destruct (json_Marshal_map (default ∅ md)) as [d|] eqn:Hd; [|done]. intros ?; simplify_eq.
  destruct (json_map_roundtrip _ _ Hd) as [Hne Hu].
  by rewrite bool_decide_false, Hu by done.
Qed.

(** An event that a registry encoded decodes, under its name, to what its JSON
    makes of a new value of its type, in that registry and in every registry
    that extends it by more registrations. *)
Theorem saved_event_decodes `{J : JSON, !JSONLaws J} gs later r r' ev data :
  register_all gs emptyRegistry = Returns r → register_all later r = Returns r' →
  EncodeEvent (Some ev) r = Ok data →
  DecodeEvent (ev_EventType ev) data r' = Ok (json_event ev).
Proof.
  intros Hgs Hlater Henc.
  destruct (register_all_inv _ _ _ emptyRegistry_wf Hgs) as [Hwf _].
  destruct (register_all_inv _ _ _ Hwf Hlater) as [_ Hmono].
  by eapply decode_encode.
Qed.

(** A name keeps the factory it was first registered with: a second registration
    panics. *)
Theorem first_registration_wins gs r name ev fn :
  register_all gs emptyRegistry = Returns r → NewEventByName name r = Ok ev →
  returns (registerEventName name fn r) = false ∧
  (∀ later r', register_all later r = Returns r' → NewEventByName name r' = Ok ev).
Proof.
  intros Hgs Hev. destruct (register_all_inv _ _ _ emptyRegistry_wf Hgs) as [Hwf _]. split.
  - unfold NewEventByName in Hev. unfold registerEventName.
    destruct (registry r !! name) eqn:Hl; [|done].
    destruct fn as [[e|]|]; [| |done]; by case_bool_decide.
  - intros later r' Hlater. destruct (register_all_inv _ _ _ Hwf Hlater) as [_ Hmono]. auto.
Qed.
