(* ===== verification/Samples.v ===== *)
(** * Concrete instances of the parameters

    A JSON codec and a UUID printer that satisfy the laws the development
    assumes of [encoding/json] and google/uuid, and sample values.  They show
    that the hypotheses of the theorems can hold; no theorem depends on
    them otherwise. *)
From S2P Require Import Prelude Core Registry.
From Stdlib Require Import Strings.Ascii.

(** ** A self-delimiting encoding of lists of strings *)
Fixpoint put (s : string) (rest : string) : string :=
  match s with
  | EmptyString => String "0" rest
  | String c s => String "1" (String c (put s rest))
  end.

Fixpoint get (s : string) : option (string * string) :=
  match s with
  | String "0" rest => Some (EmptyString, rest)
  | String "1" (String c s) =>
    match get s with Some (t, rest) => Some (String c t, rest) | None => None end
  | _ => None
  end.

Lemma get_put s rest : get (put s rest) = Some (s, rest).
Proof. induction s as [|c s IH]; simpl; [done|]. by rewrite IH. Qed.

Definition put_all (ss : list string) : string := foldr put "" ss.

Fixpoint get_all (fuel : nat) (s : string) : list string :=
  match fuel, get s with
  | S fuel, Some (t, rest) => t :: get_all fuel rest
  | _, _ => []
  end.

Lemma get_all_put_all ss : get_all (length ss) (put_all ss) = ss.
Proof. induction ss as [|s ss IH]; simpl; [done|]. by rewrite get_put, IH. Qed.

Lemma put_length s rest : String.length (put s rest) = (2 * String.length s + 1 + String.length rest)%nat.
Proof. induction s as [|c s IH]; simpl; [lia|]. rewrite IH. lia. Qed.

Lemma put_all_length ss : (length ss ≤ String.length (put_all ss))%nat.
Proof. induction ss as [|s ss IH]; simpl; [lia|]. rewrite put_length. lia. Qed.

Lemma get_all_fuel ss fuel : (length ss ≤ fuel)%nat → get_all fuel (put_all ss) = ss.
Proof.
  revert fuel. induction ss as [|s ss IH]; intros [|fuel] H; simpl in *; try lia; [done|done|].
  by rewrite get_put, IH by lia.
Qed.

(** ** A JSON codec *)

(** Integers decode to [float64], a value of any other type to an object. *)
Definition sample_value (a : any) : any :=
  match a with
  | AnyString s => AnyString s
  | AnyOther T r =>
    AnyOther (if decide (T ∈ json_types) then T
              else if decide (T ∈ go_integers) then "float64" else "map[string]interface {}") r
  end.

Definition any_strings (a : any) : list string :=
  match sample_value a with AnyString s => ["s"; s] | AnyOther T r => [T; r] end.

Fixpoint strings_map (ss : list string) : list (string * any) :=
  match ss with
  | k :: t :: v :: ss =>
    (k, if bool_decide (t = "s") then AnyString v else AnyOther t v) :: strings_map ss
  | _ => []
  end.

Definition map_strings (m : gmap string any) : list string :=
  "map" :: concat ((λ '(k, a), k :: any_strings a) <$> map_to_list m).

Definition sample_Unmarshal_map (data : string) : result error metadata :=
  match get_all (String.length data) data with
  | "map" :: ss => Ok (Some (list_to_map (strings_map ss)))
  | _ => Fail (New "bad metadata")
  end.

#[export] Instance sampleJSON : JSON := {
  json_Marshal_Event ev := Ok (put_all [ev_AggregateID ev; ev_EventType ev; ev_data ev]);
  json_Unmarshal_Event data target :=
    match get_all 3 data with
    | [a; t; d] => Ok (mkEvent (ev_GoType target) (ev_Pointer target) a t d)
    | _ => Fail (New "bad event")
    end;
  json_Marshal_map m := Ok (put_all (map_strings m));
  json_Unmarshal_map := sample_Unmarshal_map;
  json_event := pointer_form;
  json_value := sample_value;
}.

Lemma sample_value_kind a : json_kind (sample_value a).
Proof.
  destruct a as [s|T r]; [done|]. cbn. case_decide; [done|]. case_decide; by apply (bool_decide_unpack _).
Qed.

Lemma sample_value_again a : sample_value (sample_value a) = sample_value a.
Proof.
  pose proof (sample_value_kind a) as Hk. destruct (sample_value a) as [s|T r]; [done|].
  cbn in *. by rewrite decide_True.
Qed.

Lemma strings_map_correct l :
  strings_map (concat ((λ '(k, a), k :: any_strings a) <$> l)) = prod_map id sample_value <$> l.
Proof.
  induction l as [|[k a] l IH]; [done|]. pose proof (sample_value_kind a) as Hk.
  cbn [fmap list_fmap concat]. unfold any_strings at 1. unfold prod_map at 1. cbn [id fst snd].
  destruct (sample_value a) as [s|T r]; cbn [app strings_map]; f_equal; try exact IH.
  rewrite bool_decide_false; [done|]. intros ->. by apply (bool_decide_pack _) in Hk.
Qed.

#[export] Instance sampleJSONLaws : JSONLaws sampleJSON.
Proof.
  split; try done.
  - intros ev data target Hd HT HP.
    assert (data = put_all [ev_AggregateID ev; ev_EventType ev; ev_data ev]) as -> by (cbn [json_Marshal_Event json_Marshal_map sampleJSON] in Hd; congruence).
    pose proof (get_all_put_all [ev_AggregateID ev; ev_EventType ev; ev_data ev]) as Hg.
    cbn [length] in Hg. cbn [json_Unmarshal_Event sampleJSON]. rewrite Hg.
    cbn [json_event sampleJSON]. unfold pointer_form. by rewrite HT, HP.
  - intros m data Hd. assert (data = put_all (map_strings m)) as -> by (cbn [json_Marshal_Event json_Marshal_map sampleJSON] in Hd; congruence). split.
    + intros H. apply (f_equal String.length) in H. unfold map_strings in H.
      simpl in H. discriminate H.
    + cbn [json_Unmarshal_map sampleJSON]. unfold sample_Unmarshal_map. rewrite get_all_fuel by apply put_all_length.
      unfold map_strings. by rewrite strings_map_correct, list_to_map_fmap, list_to_map_to_list.
  - apply sample_value_kind.
  - intros T r HT. exists r. cbn [json_value sampleJSON sample_value].
    rewrite decide_False by (intros H; revert H HT; unfold json_types, go_integers; set_solver).
    by rewrite decide_True.
  - apply sample_value_again.
Qed.

(** ** Sample events *)
Definition order_placed (id data : string) : Event := mkEvent "orders.Placed" true id "OrderPlaced" data.
Definition order_shipped (id data : string) : Event := mkEvent "orders.Shipped" true id "OrderShipped" data.

Definition sample_registry : Registry :=
  match RegisterEvent (order_placed "" "") emptyRegistry with
  | Returns r => match RegisterEvent (order_shipped "" "") r with Returns r => r | Panics _ => r end
  | Panics _ => emptyRegistry
  end.

Definition sample_envelope (id : uuid) (stream : string) (ev : Event) : Envelope :=
  mkEnvelope id stream None "" "" (Some ev) 0 0 1.
