(* ===== verification/ProjStore.v ===== *)
(** * What a projection persists ([projection/store.go])

    The data a projection [Store] keeps, and the fencing contract a lease
    stands for. *)
From S2P Require Import Prelude Core.

Record Checkpoint : Type := mkCheckpoint {
  Position : Z;
  cp_Version : Z;
  ReplayUntil : Z;
  Fingerprint : string;
}.

Inductive Phase : Type := Starting | Standby | CatchingUp | Live | Stalled | OtherPhase (n : Z).

#[export] Instance Phase_eq_dec : EqDecision Phase.
Proof. solve_decision. Defined.

Definition Phase_String (p : Phase) : string :=
  match p with
  | Starting => "starting"
  | Standby => "standby"
  | CatchingUp => "catching_up"
  | Live => "live"
  | Stalled => "stalled"
  | OtherPhase _ => "unknown"
  end.

Record Status : Type := mkStatus {
  st_Phase : Phase;
  st_Position : Z;
  st_Head : Z;
  st_Version : Z;
  st_LastError : string;
  st_Owner : string;
  st_Segment : Z;
  st_Age : duration;
  st_ReplayUntil : Z;
  st_ClaimTTL : duration;
  st_RebuildRequested : bool;
}.

Record Lease : Type := mkLease {
  l_Name : string;
  l_Segment : Z;
  l_Owner : string;
  l_Epoch : Z;
}.

Record Instance_ : Type := mkInstance {
  in_Owner : string;
  in_Version : Z;
  in_Segments : Z;
  in_Age : duration;
}.

Record DeadLetter : Type := mkDeadLetter {
  dl_Position : Z;
  dl_StreamID : string;
  dl_EventType : string;
  dl_Error : string;
}.

Record Replay : Type := mkReplay {
  rp_Number : Z;
  rp_StreamID : string;
  rp_Segment : Z;
}.

#[export] Instance Lease_eq_dec : EqDecision Lease.
Proof. solve_decision. Defined.

(** ** Dead letters are kept in the order of their positions *)

(** [slices.BinarySearchFunc] on a sorted list, then [slices.Insert]. *)
Fixpoint insert_dead_letter (d : DeadLetter) (ds : list DeadLetter) : list DeadLetter :=
  match ds with
  | [] => [d]
  | e :: ds => if dl_Position e <? dl_Position d then e :: insert_dead_letter d ds else d :: e :: ds
  end.

Definition by_position (a b : DeadLetter) : Prop := dl_Position a ≤ dl_Position b.

Lemma insert_dead_letter_perm d ds : insert_dead_letter d ds ≡ₚ d :: ds.
Proof.
  induction ds as [|e ds IH]; simpl; [done|]. destruct (_ <? _); [|done]. rewrite IH. constructor.
Qed.

Lemma insert_dead_letter_sorted d ds :
  StronglySorted by_position ds → StronglySorted by_position (insert_dead_letter d ds).
Proof.
  induction 1 as [|e ds Hs IH Hf]; simpl; [repeat constructor|].
  destruct (Z.ltb_spec (dl_Position e) (dl_Position d)).
  - constructor; [done|]. rewrite Forall_forall in *. intros x. rewrite insert_dead_letter_perm, elem_of_cons.
    unfold by_position in *. intros [->|Hx]; [lia|auto].
  - constructor; [by constructor|]. rewrite Forall_forall in *. intros x. unfold by_position in *.
    rewrite elem_of_cons. intros [->|Hx]; [lia|]. specialize (Hf x Hx). lia.
Qed.

Lemma insert_dead_letter_last d ds :
  Forall (λ e, dl_Position e < dl_Position d) ds → insert_dead_letter d ds = ds ++ [d].
Proof.
  induction 1 as [|e ds He Hds IH]; simpl; [done|].
  destruct (Z.ltb_spec (dl_Position e) (dl_Position d)); [by rewrite IH|lia].
Qed.
