(* ===== verification/Context.v ===== *)
(** * Context values ([context.go], [projection/context.go])

    The values a context carries, keyed by the package's private [ctxKey]
    type: a context is here the map of those keys, each holding a value of
    its dynamic type.  Keys of other packages are of another Go type and
    cannot collide with these. *)
From S2P Require Import Prelude Core ProjStore.

(** [uuid.UUID.String], of google/uuid. *)
Class UUIDString : Type := uuid_String : uuid → string.

Class UUIDLaws (U : UUIDString) : Prop := {
  uuid_String_nonempty u : uuid_String u ≠ "";
  uuid_String_inj u v : uuid_String u = uuid_String v → u = v;
}.

(** A value stored in a context, with its dynamic type. *)
Inductive ctxval : Type :=
| VString (s : string)
| VUUID (u : uuid)
| VUint64 (n : Z)
| VTime (t : time)
| VMap (m : metadata)
| VEnvelope (env : Envelope)
| VReplayUntil (n : Z)
| VSpan (id : Z)
| VLease (l : Lease).

Notation values := (gmap string ctxval).

Definition streamIDKey := "streamID".
Definition aggregateIDKey := "aggregateID".
Definition eventIDKey := "eventID".
Definition versionKey := "version".
Definition globalPositionKey := "global_position".
Definition occurredAtKey := "occurredAt".
Definition metadataKey := "metadata".
Definition correlationIDKey := "correlationID".
Definition causationIDKey := "causationID".
Definition envelopeKey := "envelope".
(** The key of [projection/context.go] is a type of its own. *)
Definition replayUntilKey := "projection.replayUntilKey".
(** So are the keys of the tracer and of [telemetry/projection_store.go]. *)
Definition spanKey := "trace.currentSpanKey".
Definition leaseKey := "telemetry.leaseKey".

Definition WithValue (ctx : values) (key : string) (v : ctxval) : values := <[key := v]> ctx.

Definition WithCorrelationID (ctx : values) (correlationID : string) : values :=
  WithValue ctx correlationIDKey (VString correlationID).

Definition WithCausationID (ctx : values) (causationID : string) : values :=
  WithValue ctx causationIDKey (VString causationID).

Definition WithEnvelope `{UUIDString} (ctx : values) (env : Envelope) : values :=
  let aggregateID := match env_Event env with Some ev => ev_AggregateID ev | None => "" end in
  let ctx := WithValue ctx streamIDKey (VString (StreamID env)) in
  let ctx := WithValue ctx aggregateIDKey (VString aggregateID) in
  let ctx := WithValue ctx eventIDKey (VUUID (EventID env)) in
  let ctx := WithValue ctx versionKey (VUint64 (Version env)) in
  let ctx := WithValue ctx globalPositionKey (VUint64 (GlobalPosition env)) in
  let ctx := WithValue ctx occurredAtKey (VTime (OccurredAt env)) in
  let ctx := WithValue ctx metadataKey (VMap (Metadata env)) in
  let ctx := WithValue ctx envelopeKey (VEnvelope env) in
  let eventID := if bool_decide (EventID env ≠ uuid_Nil) then uuid_String (EventID env) else "" in
  let correlationID := CorrelationID env in
  let correlationID := if bool_decide (correlationID = "") then eventID else correlationID in
  let ctx := WithCorrelationID ctx correlationID in
  WithCausationID ctx eventID.

Definition string_value (v : option ctxval) : string :=
  match v with Some (VString s) => s | _ => "" end.
Definition uint64_value (v : option ctxval) : Z :=
  match v with Some (VUint64 n) => n | _ => 0 end.

Definition envelopeFromContext (ctx : values) : option Envelope :=
  match ctx !! envelopeKey with Some (VEnvelope env) => Some env | _ => None end.
Definition AggregateIDFromContext (ctx : values) : string := string_value (ctx !! aggregateIDKey).
Definition StreamIDFromContext (ctx : values) : string := string_value (ctx !! streamIDKey).
Definition EventIDFromContext (ctx : values) : uuid :=
  match ctx !! eventIDKey with Some (VUUID u) => u | _ => uuid_Nil end.
Definition VersionFromContext (ctx : values) : Z := uint64_value (ctx !! versionKey).
Definition GlobalPositionFromContext (ctx : values) : Z := uint64_value (ctx !! globalPositionKey).
Definition OccurredAtFromContext (ctx : values) : time :=
  match ctx !! occurredAtKey with Some (VTime t) => t | _ => time_zero end.
Definition MetadataFromContext (ctx : values) : metadata :=
  match ctx !! metadataKey with Some (VMap m) => m | _ => None end.
Definition CorrelationIDFromContext (ctx : values) : string := string_value (ctx !! correlationIDKey).
Definition CausationIDFromContext (ctx : values) : string := string_value (ctx !! causationIDKey).

(** ** [projection/context.go] *)
Definition withEnvelope `{UUIDString} (ctx : values) (env : Envelope) (replayUntil : Z) : values :=
  let ctx := WithValue ctx replayUntilKey (VReplayUntil replayUntil) in
  WithEnvelope ctx env.

Definition IsReplaying (ctx : values) : bool :=
  match ctx !! replayUntilKey with
  | Some (VReplayUntil ru) => GlobalPositionFromContext ctx <=? ru
  | _ => false
  end.

(** ** What a handler reads back *)
Ltac ctx_simpl :=
  unfold IsReplaying, withEnvelope, WithEnvelope, WithCorrelationID, WithCausationID, WithValue,
    StreamIDFromContext, AggregateIDFromContext, EventIDFromContext, VersionFromContext,
    GlobalPositionFromContext, OccurredAtFromContext, MetadataFromContext, envelopeFromContext,
    CorrelationIDFromContext, CausationIDFromContext in *;
  repeat first [rewrite lookup_insert_eq | rewrite lookup_insert_ne by discriminate]; simpl.

(** The chain an event belongs to, as [WithEnvelope] passes it on. *)
Definition chain_of `{UUIDString} (env : Envelope) : string :=
  if bool_decide (CorrelationID env ≠ "") then CorrelationID env
  else if bool_decide (EventID env ≠ uuid_Nil) then uuid_String (EventID env) else "".

(** What a handler reads from the context [withEnvelope] built is what the
    envelope carries. *)
Theorem handler_context `{UUIDString} ctx env replayUntil :
  let c := withEnvelope ctx env replayUntil in
  StreamIDFromContext c = StreamID env ∧
  EventIDFromContext c = EventID env ∧
  VersionFromContext c = Version env ∧
  GlobalPositionFromContext c = GlobalPosition env ∧
  OccurredAtFromContext c = OccurredAt env ∧
  MetadataFromContext c = Metadata env ∧
  envelopeFromContext c = Some env ∧
  CausationIDFromContext c = (if bool_decide (EventID env = uuid_Nil) then "" else uuid_String (EventID env)) ∧
  CorrelationIDFromContext c = chain_of env ∧
  IsReplaying c = (GlobalPosition env <=? replayUntil).
Proof.
  intros c. subst c. unfold chain_of.
  split_and!; ctx_simpl; repeat case_bool_decide; done.
Qed.
