(* ===== verification/Log.v ===== *)
(** * The abstract event log

    What an event store promises, independent of how it keeps its events: one
    log of envelopes, numbered from 1 globally and per stream, to which a
    checked append adds a stamped batch ([eventstore.go]), and which a
    [GlobalReader] pages through ([global_reader.go]). *)
From S2P Require Import Prelude Core Registry.

Notation log := (list Envelope).

Definition in_stream (id : string) (env : Envelope) : bool := bool_decide (StreamID env = id).
Definition stream_of (id : string) (l : log) : log := bfilter (in_stream id) l.

(** Position [i] of the log, and of each stream, carries the number [i + 1]. *)
Record numbered (l : log) : Prop := {
  numbered_global i env : l !! i = Some env → GlobalPosition env = Z.of_nat (S i);
  numbered_stream id i env : stream_of id l !! i = Some env → Version env = Z.of_nat (S i);
}.

(** ** Appending *)

(** The expectation a [StreamState] states about a stream of [n] events. *)
Definition expectation_holds (st : StreamState) (n : Z) : bool :=
  match st with
  | Any => true
  | NoStream => n =? 0
  | StreamExists => negb (n =? 0)
  | Revision r => n =? r
  | OtherState _ => false
  end.

(** The error the [EventStore] interface documents for a violated
    expectation. *)
Definition expectation_error (st : StreamState) (n : Z) (e : error) : Prop :=
  match st with
  | Any => False
  | NoStream => errors_Is e ErrStreamExists = true
  | StreamExists => errors_Is e ErrStreamNotFound = true
  | Revision r => ∃ id, errors_As is_Conflict e = Some (id, Some (Revision r), Some (Revision n))
  | OtherState _ => errors_Is e ErrInvalidRevision = true
  end.

(** The envelope a load returns for a saved one: the event as its JSON decodes
    into a new value, the metadata as JSON decodes it and never nil, its
    numbers, and [now] for a missing time. *)
Section stored.
Context `{J : JSON}.

Definition stored (now : time) (version position : Z) (env : Envelope) : Envelope :=
  mkEnvelope (EventID env) (StreamID env) (Some (json_value <$> default ∅ (Metadata env)))
    (CorrelationID env) (CausationID env) (json_event <$> env_Event env) version position
    (if time_IsZero (OccurredAt env) then now else OccurredAt env).

Fixpoint stamp (now : time) (version position : Z) (evs : list Envelope) : log :=
  match evs with
  | [] => []
  | env :: evs => stored now (version + 1) (position + 1) env :: stamp now (version + 1) (position + 1) evs
  end.
End stored.

(** A batch [Save] accepts. *)
Definition valid_batch (id : string) (evs : list Envelope) : bool :=
  forallb (λ env, bool_decide (StreamID env = id) && negb (bool_decide (EventID env = uuid_Nil))) evs.

(** ** Loads *)

(** Where a load of [version] starts in a stream of [n] events. *)
Definition load_offset (version : StreamState) : Z :=
  match version with Revision v => v | _ => 0 end.

Definition load_error (version : StreamState) (n : Z) : option sentinel :=
  match version with
  | NoStream => if n =? 0 then None else Some ErrStreamExists
  | StreamExists => if n =? 0 then Some ErrStreamNotFound else None
  | Revision v => if n <? v then Some ErrInvalidRevision else None
  | _ => None
  end.

(** ** Global reads *)
Definition env_type (env : Envelope) : string :=
  match env_Event env with Some ev => ev_EventType ev | None => "" end.

Definition env_matches (opts : ReadOptions) (env : Envelope) : bool :=
  (bool_decide (EventTypes opts = []) || bool_decide (env_type env ∈ EventTypes opts)) &&
  (bool_decide (StreamPrefixes opts = []) ||
   existsb (λ p, String.prefix p (StreamID env)) (StreamPrefixes opts)).

(** The part of the log a read from [after] to [next] scanned. *)
Definition scanned (l : log) (after next : Z) : log :=
  take (Z.to_nat (next - after)) (drop (Z.to_nat after) l).

(** The [GlobalReader] contract for one page: no matching event is left out
    of what was scanned, the read makes progress unless it is at the end, and
    [AtEnd] means there is nothing after [Next]. *)
Record page_ok (l : log) (after : Z) (opts : ReadOptions) (res : ReadResult) : Prop := {
  page_events : rr_Events res = bfilter (env_matches opts) (scanned l after (rr_Next res));
  page_next : after ≤ rr_Next res ≤ Z.max after (zlen l);
  page_progress : rr_AtEnd res = false → after < rr_Next res;
  page_at_end : rr_AtEnd res = true ↔ zlen l ≤ rr_Next res;
  page_limit_ok : 0 < Limit opts → zlen (rr_Events res) ≤ Limit opts;
}.

(** A reader of the global log, as the projections use it. *)
Class GlobalReader (R : Type) : Type := {
  reader_ReadAll : R → Z → ReadOptions → result error ReadResult;
  reader_Head : R → result error Z;
}.

(** Paging through the log as a projection does, until a page is at the end;
    [None] when [fuel] runs out. *)
Section paging.
Context `{GR : GlobalReader R}.

Fixpoint read_pages (fuel : nat) (r : R) (after : Z) (opts : ReadOptions) : option (result error log) :=
  match fuel with
  | O => None
  | S fuel =>
    match reader_ReadAll r after opts with
    | Fail e => Some (Fail e)
    | Ok res =>
      if rr_AtEnd res then Some (Ok (rr_Events res))
      else match read_pages fuel r (rr_Next res) opts with
           | Some (Ok evs) => Some (Ok (rr_Events res ++ evs))
           | other => other
           end
    end
  end.
End paging.

(** ** Facts *)
Lemma zlen_stream_of id l : 0 ≤ zlen (stream_of id l) ≤ zlen l.
Proof.
  unfold zlen, stream_of. pose proof (bfilter_length (in_stream id) l). lia.
Qed.

Lemma stream_of_app id l k : stream_of id (l ++ k) = stream_of id l ++ stream_of id k.
Proof. apply bfilter_app. Qed.

Lemma scanned_split l a b c :
  0 ≤ a ≤ b → b ≤ c → scanned l a c = scanned l a b ++ scanned l b c.
Proof.
  intros Hab Hbc. unfold scanned.
  replace (Z.to_nat (c - a)) with (Z.to_nat (b - a) + Z.to_nat (c - b))%nat by lia.
  replace (Z.to_nat b) with (Z.to_nat a + Z.to_nat (b - a))%nat by lia.
  by rewrite <- (drop_drop l (Z.to_nat (b - a)) (Z.to_nat a)), <- take_take_drop.
Qed.

Lemma scanned_all l a n : 0 ≤ a → zlen l ≤ n → scanned l a n = drop (Z.to_nat a) l.
Proof.
  intros Ha Hn. unfold scanned, zlen in *. apply take_ge. rewrite length_drop. lia.
Qed.

Lemma elem_of_scanned l a b env : numbered l → 0 ≤ a →
  env ∈ scanned l a b ↔ env ∈ l ∧ a < GlobalPosition env ≤ b.
Proof.
  intros [Hg _] Ha. rewrite !list_elem_of_lookup. unfold scanned. split.
  - intros (i & Hi). pose proof (lookup_lt_Some _ _ _ Hi) as Hlt. rewrite length_take in Hlt.
    rewrite lookup_take_lt in Hi by lia. rewrite lookup_drop in Hi.
    split; [by eexists|]. rewrite (Hg _ _ Hi). lia.
  - intros ((i & Hi) & Hpos). pose proof (Hg _ _ Hi) as Hp.
    exists (i - Z.to_nat a)%nat. rewrite lookup_take_lt by lia. rewrite lookup_drop.
    by replace (Z.to_nat a + (i - Z.to_nat a))%nat with i by lia.
Qed.

Lemma stamp_length `{J : JSON} now v g evs : length (stamp now v g evs) = length evs.
Proof. revert v g. induction evs as [|env evs IH]; intros v g; simpl; [done|]. by rewrite IH. Qed.

Lemma stamp_lookup `{J : JSON} now v g evs i env : stamp now v g evs !! i = Some env →
  GlobalPosition env = g + Z.of_nat (S i) ∧ Version env = v + Z.of_nat (S i).
Proof.
  revert v g i. induction evs as [|e evs IH]; intros v g [|i] H; simplify_eq/=; [lia|].
  apply IH in H. lia.
Qed.

Lemma stamp_stream `{J : JSON} now v g evs id :
  (∀ env, env ∈ evs → StreamID env = id) → stream_of id (stamp now v g evs) = stamp now v g evs.
Proof.
  revert v g. induction evs as [|e evs IH]; intros v g H; simpl; [done|].
  unfold stream_of, in_stream in *; simpl. rewrite bool_decide_true by (apply H; constructor).
  f_equal. apply IH. intros env He. apply H. by constructor.
Qed.

Lemma stamp_other_stream `{J : JSON} now v g evs id id' :
  (∀ env, env ∈ evs → StreamID env = id) → id' ≠ id → stream_of id' (stamp now v g evs) = [].
Proof.
  revert v g. induction evs as [|e evs IH]; intros v g H Hne; simpl; [done|].
  unfold stream_of, in_stream in *; simpl. rewrite bool_decide_false.
  - apply IH; [|done]. intros env He. apply H. by constructor.
  - rewrite (H e) by constructor. done.
Qed.

(** A checked append keeps the log numbered. *)
Lemma numbered_stamp `{J : JSON} now l id evs :
  numbered l → (∀ env, env ∈ evs → StreamID env = id) →
  numbered (l ++ stamp now (zlen (stream_of id l)) (zlen l) evs).
Proof.
  intros [Hg Hs] Hid. split.
  - intros i env. rewrite lookup_app_Some. intros [Hi|[Hle Hi]]; [by apply Hg|].
    apply stamp_lookup in Hi as [-> _]. unfold zlen. lia.
  - intros id' i env. rewrite stream_of_app. destruct (decide (id' = id)) as [->|Hne].
    + rewrite (stamp_stream _ _ _ _ _ Hid), lookup_app_Some. intros [Hi|[Hle Hi]]; [by eapply Hs|].
      apply stamp_lookup in Hi as [_ ->]. unfold zlen. lia.
    + rewrite (stamp_other_stream _ _ _ _ _ _ Hid Hne), app_nil_r. by apply Hs.
Qed.

(** Paging returns exactly the matching events after the start, in order. *)
Lemma read_pages_ok `{GR : GlobalReader R} (r : R) l opts :
  (∀ after, 0 ≤ after → ∃ res, reader_ReadAll r after opts = Ok res ∧ page_ok l after opts res) →
  ∀ fuel after, 0 ≤ after → (Z.to_nat (zlen l - after) < fuel)%nat →
  read_pages fuel r after opts = Some (Ok (bfilter (env_matches opts) (drop (Z.to_nat after) l))).
Proof.
  intros Hr fuel. induction fuel as [|fuel IH]; intros after Ha Hfuel; [lia|].
  simpl. destruct (Hr after Ha) as (res & -> & [Hev Hnext Hprog Hend _]).
  destruct (rr_AtEnd res) eqn:HE.
  - rewrite Hev, scanned_all; [done..|]. by apply Hend.
  - assert (rr_Next res < zlen l) by (destruct (Z.le_gt_cases (zlen l) (rr_Next res)); [by apply Hend in H|lia]).
    specialize (Hprog eq_refl). rewrite IH by lia. do 2 f_equal.
    rewrite Hev, <- bfilter_app. f_equal.
    rewrite <- (scanned_all l (rr_Next res) (zlen l)), <- (scanned_all l after (zlen l)) by lia.
    symmetry. apply scanned_split; lia.
Qed.

(** *** Logs only grow *)
Lemma stream_of_prefix id l l' : l `prefix_of` l' → stream_of id l `prefix_of` stream_of id l'.
Proof. intros [k ->]. exists (stream_of id k). apply stream_of_app. Qed.

Lemma numbered_prefix l l' : l `prefix_of` l' → numbered l' → numbered l.
Proof.
  intros Hp [Hg Hs]. split.
  - intros i env Hi. by eapply Hg, prefix_lookup_Some.
  - intros id i env Hi. by eapply Hs, prefix_lookup_Some, stream_of_prefix.
Qed.

Lemma prefix_zlen {A} (l k : list A) : l `prefix_of` k → zlen l ≤ zlen k.
Proof. intros Hp%prefix_length. unfold zlen. lia. Qed.

(** The last event of a numbered stream carries the number of its events. *)
Lemma numbered_last l id env : numbered l → last (stream_of id l) = Some env → Version env = zlen (stream_of id l).
Proof.
  intros [_ Hs]. rewrite last_lookup. intros H. rewrite (Hs _ _ _ H).
  pose proof (lookup_lt_Some _ _ _ H). unfold zlen. lia.
Qed.
