(* ===== verification/Backoff.v ===== *)
(** * Retrying (cenkalti/backoff)

    The retry loop of [command_handler.go] and [kurrentdb/eventstore.go]
    belongs to cenkalti/backoff: it is a parameter, whose documented behaviour
    is the relation [Retries]. *)
From S2P Require Import Prelude Core Context.

(** Its [BackOff] values and its loop, which hands the operation the state
    the attempts share. *)
Class BackoffOps : Type := {
  BackOff : Type;
  StopBackOff : BackOff;
  WithContext : BackOff → values → BackOff;
  RetryWithData {R A : Type} : (A → R * option error * A) → BackOff → A → R * option error * A;
}.

(** What the loop gives up with: the last error, or the cause of the context
    that is done. *)
Definition gives_up_with (e cause : error) : Prop :=
  cause = e ∨ cause = Sentinel context_Canceled ∨ cause = Sentinel context_DeadlineExceeded.

(** Return on success, return what [Permanent] wraps, otherwise run again or
    give up. *)
Inductive Retries {R A : Type} (op : A → R * option error * A) : A → R → option error → A → Prop :=
| retry_success a res a' : op a = (res, None, a') → Retries op a res None a'
| retry_permanent a res e p a' :
    op a = (res, Some e, a') → errors_As is_Permanent e = Some p → Retries op a res (Some p) a'
| retry_give_up a res e cause a' :
    op a = (res, Some e, a') → errors_As is_Permanent e = None → gives_up_with e cause →
    Retries op a res (Some cause) a'
| retry_again a res e a' res' err a'' :
    op a = (res, Some e, a') → errors_As is_Permanent e = None →
    Retries op a' res' err a'' → Retries op a res' err a''.

Class BackoffLaws (B : BackoffOps) : Prop := {
  retry_law {R A} (op : A → R * option error * A) b a res err a' :
    RetryWithData op b a = (res, err, a') → Retries op a res err a';
}.

(** A loop keeps what every attempt keeps: [Inv] between attempts, and of the
    last one [Good] when it succeeded and [Bad] of its error. *)
Lemma Retries_ind_inv {R A} (op : A → R * option error * A) (Inv : A → Prop) (Good : R → A → Prop) (Bad : error → A → Prop)
    a res err a' :
  (∀ a, Inv a → match op a with
    | (res, None, a') => Good res a'
    | (_, Some e, a') =>
      match errors_As is_Permanent e with
      | Some p => Bad p a'
      | None => Inv a' ∧ ∀ cause, gives_up_with e cause → Bad cause a'
      end
    end) →
  Inv a → Retries op a res err a' → match err with None => Good res a' | Some e => Bad e a' end.
Proof.
  intros Hop Ha H.
  induction H as [a res a' He|a res e p a' He Hp|a res e cause a' He Hp Hc|a res e a1 res' err a' He Hp HR IH];
    specialize (Hop a Ha); rewrite He in Hop.
  - done.
  - by rewrite Hp in Hop.
  - rewrite Hp in Hop. by apply Hop.
  - rewrite Hp in Hop. by apply IH, Hop.
Qed.

(** ** The laws can hold: a [BackOff] that allows so many retries *)
Fixpoint retry_times {R A} (op : A → R * option error * A) (b : nat) (a : A) : R * option error * A :=
  match op a with
  | (res, None, a) => (res, None, a)
  | (res, Some e, a) =>
    match errors_As is_Permanent e with
    | Some p => (res, Some p, a)
    | None => match b with O => (res, Some e, a) | S b => retry_times op b a end
    end
  end.

#[export] Instance sampleBackoff : BackoffOps := {
  BackOff := nat;
  StopBackOff := 0%nat;
  WithContext b _ := b;
  RetryWithData R A := retry_times;
}.

#[export] Instance sampleBackoffLaws : BackoffLaws sampleBackoff.
Proof.
  split. intros R A op b. cbn [RetryWithData sampleBackoff]. induction b as [|b IH]; intros a res err a'; cbn [retry_times];
    destruct (op a) as [[r [e|]] a1] eqn:Hop; try (intros ?; simplify_eq; by apply retry_success);
    destruct (errors_As is_Permanent e) as [p|] eqn:Hp; try (intros ?; simplify_eq; by eapply retry_permanent).
  - intros ?; simplify_eq. eapply retry_give_up; [done..|by left].
  - intros H. eapply retry_again; eauto.
Qed.
