(* ===== verification/MemStore.v ===== *)
(** * The in-memory event store ([memory/eventstore.go])

    One definition per method of [memory.EventStore].  Save encodes before it
    takes the lock, so the registry it sees is an argument; everything after
    the lock is one atomic state change.  The stored records are immutable
    once appended, so the pointers shared by [global] and [events] are
    modelled by their values. *)
From S2P Require Import Prelude Core Iter Registry Log.

Record record : Type := mkRecord {
  rec_env : Envelope;
  rec_name : string;
  rec_payload : string;
  rec_metadata : string;
}.

Record EventStore : Type := mkEventStore {
  closed : bool;
  global : list record;
  events : gmap string (list record);
}.

Definition NewEventStore : EventStore := mkEventStore false [] ∅.

(** [m.events[id]], the zero value for a stream never saved to. *)
Definition stream (s : EventStore) (id : string) : list record := default [] (events s !! id).

Definition set_event (ev : option Event) (md : metadata) (env : Envelope) : Envelope :=
  mkEnvelope (EventID env) (StreamID env) md (CorrelationID env) (CausationID env)
    ev (Version env) (GlobalPosition env) (OccurredAt env).

Definition set_occurred (t : time) (env : Envelope) : Envelope :=
  mkEnvelope (EventID env) (StreamID env) (Metadata env) (CorrelationID env) (CausationID env)
    (env_Event env) (Version env) (GlobalPosition env) t.

Definition set_position (version position : Z) (env : Envelope) : Envelope :=
  mkEnvelope (EventID env) (StreamID env) (Metadata env) (CorrelationID env) (CausationID env)
    (env_Event env) version position (OccurredAt env).

Section mem_store.
Context `{J : JSON}.

(** [record.envelope]. *)
Definition envelope (r : record) (reg : Registry) : result error Envelope :=
  match DecodeEvent (rec_name r) (rec_payload r) reg with
  | Fail e => Fail e
  | Ok ev =>
    match DecodeMetadata (rec_metadata r) with
    | Fail e => Fail (Errorf "event" e)
    | Ok md => Ok (set_event (Some ev) (Some md) (rec_env r))
    end
  end.

(** The first loop of Save: every event of the batch names the same stream
    and carries an ID. *)
Fixpoint validate (streamId : string) (evs : list Envelope) : option error :=
  match evs with
  | [] => None
  | env :: evs =>
    if negb (bool_decide (StreamID env = streamId))
    then Some (Errorf "different stream ID" (Sentinel ErrInvalidEventBatch))
    else if bool_decide (EventID env = uuid_Nil)
    then Some (Errorf "no event ID" (Sentinel ErrInvalidEventBatch))
    else validate streamId evs
  end.

(** The second loop: encode, and default the time. *)
Fixpoint encode (now : time) (reg : Registry) (evs : list Envelope) : result error (list record) :=
  match evs with
  | [] => Ok []
  | env :: evs =>
    match EncodeEvent (env_Event env) reg with
    | Fail e => Fail (Errorf "save events to stream" e)
    | Ok payload =>
      match EncodeMetadata (Metadata env) with
      | Fail e => Fail (Errorf "save events to stream" e)
      | Ok md =>
        let name := match env_Event env with Some ev => ev_EventType ev | None => "" end in
        let env' := set_event None None env in
        let env' := if time_IsZero (OccurredAt env') then set_occurred now env' else env' in
        match encode now reg evs with
        | Fail e => Fail e
        | Ok recs => Ok (mkRecord env' name payload md :: recs)
        end
      end
    end
  end.

Definition check_revision (streamId : string) (currentVersion : Z) (revision : StreamState) :
    option (AppendResult * error) :=
  match revision with
  | Any => None
  | NoStream =>
    if negb (currentVersion =? 0)
    then Some (failed_append streamId, Errorf "already exists" (Sentinel ErrStreamExists)) else None
  | StreamExists =>
    if currentVersion =? 0
    then Some (failed_append streamId, Errorf "should exist" (Sentinel ErrStreamNotFound)) else None
  | Revision rev =>
    if negb (currentVersion =? rev)
    then Some (failed_append "",
               StreamRevisionConflictError streamId (Some revision) (Some (Revision currentVersion)))
    else None
  | OtherState _ => Some (failed_append streamId, Errorf "unsupported revision type" (Sentinel ErrInvalidRevision))
  end.

(** The append loop under the lock. *)
Fixpoint append (streamId : string) (currentVersion : Z) (recs : list record) (s : EventStore) :
    Z * EventStore :=
  match recs with
  | [] => (currentVersion, s)
  | rec :: recs =>
    let rec := mkRecord (set_position (u64 (currentVersion + 1)) (u64 (zlen (global s) + 1)) (rec_env rec))
                 (rec_name rec) (rec_payload rec) (rec_metadata rec) in
    append streamId (u64 (currentVersion + 1)) recs
      (mkEventStore (closed s) (global s ++ [rec])
         (<[streamId := stream s streamId ++ [rec]]> (events s)))
  end.

Definition Save (now : time) (reg : Registry) (evs : list Envelope) (revision : StreamState) (s : EventStore) :
    AppendResult * option error * EventStore :=
  match evs with
  | [] => (mkAppendResult true "" 0 0, None, s)
  | env0 :: _ =>
    let streamId := StreamID env0 in
    match validate streamId evs with
    | Some e => (failed_append streamId, Some e, s)
    | None =>
      match encode now reg evs with
      | Fail e => (failed_append streamId, Some e, s)
      | Ok records =>
        if closed s then (failed_append "", Some (New "save events: event store is closed"), s)
        else
          let currentVersion := zlen (stream s streamId) in
          match check_revision streamId currentVersion revision with
          | Some (res, e) => (res, Some e, s)
          | None =>
            let '(currentVersion, s) := append streamId currentVersion records s in
            (mkAppendResult true streamId currentVersion (zlen (global s)), None, s)
          end
      end
    end
  end.

(** The closure of the iterators: [offset] indexes the snapshot. *)
Definition snapshot_next (msg : string) (reg : Registry) (snapshot : list record) : IterFunc Z Envelope :=
  λ c offset,
    if zlen snapshot <=? offset then (Fail (Sentinel io_EOF), c, offset)
    else match snapshot !! Z.to_nat offset with
         | None => (Fail (Sentinel io_EOF), c, offset)
         | Some rec =>
           match envelope rec reg with
           | Fail e => (Fail (Errorf msg e), c, u64 (offset + 1))
           | Ok env => (Ok env, c, u64 (offset + 1))
           end
         end.

Definition LoadStreamFrom (reg : Registry) (id : string) (version : StreamState) (s : EventStore) :
    result error (Iterator Z Envelope) :=
  let evs := stream s id in
  let exists_ := bool_decide (is_Some (events s !! id)) in
  match match version with
        | NoStream => if exists_ then Fail (Errorf "expected empty stream" (Sentinel ErrStreamExists)) else Ok 0
        | StreamExists => if negb exists_ then Fail (Errorf "expected existing stream" (Sentinel ErrStreamNotFound)) else Ok 0
        | Revision v =>
          if zlen evs <? v then Fail (Errorf "load stream" (Sentinel ErrInvalidRevision)) else Ok v
        | _ => Ok 0
        end with
  | Fail e => Fail e
  | Ok offset => Ok (NewIteratorFunc (snapshot_next "load stream" reg evs) None offset)
  end.

Definition LoadStream (reg : Registry) (id : string) (s : EventStore) : result error (Iterator Z Envelope) :=
  LoadStreamFrom reg id StreamExists s.

Definition LoadCorrelation (reg : Registry) (id : string) (s : EventStore) : result error (Iterator Z Envelope) :=
  if bool_decide (id = "") then Fail (Errorf "load correlation" (Sentinel ErrEmptyCorrelationID))
  else
    let chain := bfilter (λ rec, bool_decide (CorrelationID (rec_env rec) = id)) (global s) in
    Ok (NewIteratorFunc (snapshot_next "load correlation" reg chain) None 0).

Definition matches (rec : record) (types prefixes : list string) : bool :=
  if negb (bool_decide (types = [])) && negb (bool_decide (rec_name rec ∈ types)) then false
  else bool_decide (prefixes = []) ||
       existsb (λ p, String.prefix p (StreamID (rec_env rec))) prefixes.

(** The loop of ReadAll over the records from index [after]; [evs] are the
    events found so far, last first. *)
Fixpoint read_loop (reg : Registry) (limit : Z) (opts : ReadOptions) (recs : list record)
    (evs : list Envelope) (next : Z) : result error (list Envelope * Z) :=
  match recs with
  | [] => Ok (rev evs, next)
  | rec :: recs =>
    let next := GlobalPosition (rec_env rec) in
    if matches rec (EventTypes opts) (StreamPrefixes opts) then
      match envelope rec reg with
      | Fail e => Fail (Errorf "read all" e)
      | Ok env =>
        let evs := env :: evs in
        if zlen evs =? limit then Ok (rev evs, next)
        else read_loop reg limit opts recs evs next
      end
    else read_loop reg limit opts recs evs next
  end.

Definition page_limit (opts : ReadOptions) : Z := if Limit opts <=? 0 then 500 else Limit opts.

Definition ReadAll (ctx_err : option error) (reg : Registry) (after : Z) (opts : ReadOptions) (s : EventStore) :
    result error ReadResult :=
  match ctx_err with
  | Some e => Fail e
  | None =>
    match read_loop reg (page_limit opts) opts (drop (Z.to_nat after) (global s)) [] after with
    | Fail e => Fail e
    | Ok (evs, next) => Ok (mkReadResult evs next (zlen (global s) <=? next))
    end
  end.

Definition Head (s : EventStore) : Z := zlen (global s).

Definition CloseStore (s : EventStore) : EventStore :=
  if closed s then s else mkEventStore true [] ∅.
End mem_store.

(** ** The store refines the abstract log *)

Definition rec_stream (id : string) (r : record) : bool := bool_decide (StreamID (rec_env r) = id).

Section refinement.
Context `{J : JSON, !JSONLaws J}.

Definition decodes (reg : Registry) (r : record) (env : Envelope) : Prop :=
  envelope r reg = Ok env ∧ rec_name r = env_type env.

(** [l] is the log a reader with registry [reg] sees in [s]. *)
Record represents (reg : Registry) (s : EventStore) (l : log) : Prop := {
  rep_decode : Forall2 (decodes reg) (global s) l;
  rep_streams id : stream s id = bfilter (rec_stream id) (global s);
  rep_exists id recs : events s !! id = Some recs → recs ≠ [];
  rep_numbered : numbered l;
}.

Lemma envelope_fields r reg env : envelope r reg = Ok env →
  StreamID env = StreamID (rec_env r) ∧ GlobalPosition env = GlobalPosition (rec_env r) ∧
  Version env = Version (rec_env r) ∧ CorrelationID env = CorrelationID (rec_env r).
Proof.
  unfold envelope. destruct (DecodeEvent _ _ _); [|done]. destruct (DecodeMetadata _); [|done].
  intros ?; simplify_eq. done.
Qed.

Lemma decodes_stream reg r env id : decodes reg r env → rec_stream id r = in_stream id env.
Proof. intros [H _]. unfold rec_stream, in_stream. by destruct (envelope_fields _ _ _ H) as [-> _]. Qed.

Lemma rep_stream_decodes reg s l id :
  represents reg s l → Forall2 (decodes reg) (stream s id) (stream_of id l).
Proof.
  intros [Hdec Hst _ _]. rewrite Hst. eapply Forall2_bfilter; [|done].
  intros r env H. by eapply decodes_stream.
Qed.

Lemma rep_zlen_stream reg s l id : represents reg s l → zlen (stream s id) = zlen (stream_of id l).
Proof. intros H. eapply Forall2_zlen, rep_stream_decodes, H. Qed.

Lemma rep_zlen reg s l : represents reg s l → zlen (global s) = zlen l.
Proof. intros H. eapply Forall2_zlen, rep_decode, H. Qed.

Lemma rep_is_Some reg s l id : represents reg s l → is_Some (events s !! id) ↔ stream_of id l ≠ [].
Proof.
  intros Hrep. pose proof (rep_stream_decodes _ _ _ id Hrep) as HF. unfold stream in HF.
  split.
  - intros [recs Hrecs]. rewrite Hrecs in HF. simpl in HF.
    intros Hnil. rewrite Hnil in HF. inversion HF; subst. by eapply (rep_exists _ _ _ Hrep).
  - intros Hne. destruct (events s !! id); [by eexists|]. simpl in HF. by inversion HF.
Qed.

Lemma NewEventStore_represents reg : represents reg NewEventStore [].
Proof.
  split; simpl; [constructor| | |split].
  - intros id. unfold stream; simpl. by rewrite lookup_empty.
  - intros id recs. by rewrite lookup_empty.
  - intros i env H. by destruct i.
  - intros id i env H. by destruct i.
Qed.

(** *** Save *)
Lemma validate_spec id evs :
  match validate id evs with
  | None => valid_batch id evs = true
  | Some e => valid_batch id evs = false ∧ errors_Is e ErrInvalidEventBatch = true
  end.
Proof.
  induction evs as [|env evs IH]; simpl; [done|].
  case_bool_decide; simpl; [|done]. case_bool_decide; simpl; done.
Qed.

Lemma valid_batch_stream id evs env : valid_batch id evs = true → env ∈ evs → StreamID env = id.
Proof.
  unfold valid_batch. rewrite forallb_elem. intros H Hin. specialize (H _ Hin).
  apply andb_true_iff in H as [H _]. by apply bool_decide_eq_true in H.
Qed.

Definition numbered_record (v g : Z) (r : record) : record :=
  mkRecord (set_position v g (rec_env r)) (rec_name r) (rec_payload r) (rec_metadata r).

Lemma encode_spec now reg reg' evs recs :
  registry_wf reg → (∀ name e, NewEventByName name reg = Ok e → NewEventByName name reg' = Ok e) →
  encode now reg evs = Ok recs →
  Forall2 (λ r env, StreamID (rec_env r) = StreamID env ∧
    ∀ v g, decodes reg' (numbered_record v g r) (stored now v g env)) recs evs.
Proof.
  intros Hwf Hmono. revert recs. induction evs as [|env evs IH]; intros recs; simpl.
  { intros ?; simplify_eq. constructor. }
  destruct (EncodeEvent (env_Event env) reg) as [payload|] eqn:He; [|done].
  destruct (EncodeMetadata (Metadata env)) as [md|] eqn:Hm; [|done].
  destruct (encode now reg evs) as [recs'|]; [|done]. intros ?; simplify_eq.
  constructor; [|by apply IH].
  destruct (env_Event env) as [ev|] eqn:Hev; [|done].
  split; [by destruct (time_IsZero _)|]. intros v g. split.
  - unfold envelope; simpl.
    rewrite (decode_encode _ _ _ _ Hwf Hmono He), (metadata_roundtrip _ _ Hm).
    unfold stored, set_event, set_position; simpl. rewrite Hev. simpl.
    by destruct (time_IsZero (OccurredAt env)).
  - simpl. unfold env_type, stored; simpl. by rewrite Hev; cbn; rewrite json_event_EventType.
Qed.

(** One turn of the append loop. *)
Definition append_record (streamId : string) (rec : record) (s : EventStore) : EventStore :=
  mkEventStore (closed s) (global s ++ [rec]) (<[streamId := stream s streamId ++ [rec]]> (events s)).

Lemma stream_append_record id id' rec s :
  stream (append_record id rec s) id' = if decide (id = id') then stream s id ++ [rec] else stream s id'.
Proof. unfold stream, append_record; simpl. rewrite lookup_insert. by case_decide. Qed.

Lemma append_record_represents reg s l id r env now :
  represents reg s l → StreamID (rec_env r) = id → StreamID env = id →
  (∀ v g, decodes reg (numbered_record v g r) (stored now v g env)) →
  represents reg
    (append_record id (numbered_record (zlen (stream_of id l) + 1) (zlen l + 1) r) s)
    (l ++ [stored now (zlen (stream_of id l) + 1) (zlen l + 1) env]).
Proof.
  intros Hrep Hr Henv Hdec. destruct Hrep as [Hd Hs Hne Hnum]. split.
  - simpl. apply Forall2_app; [done|]. constructor; [apply Hdec|constructor].
  - intros id'. rewrite stream_append_record. simpl. rewrite bfilter_app, <- !Hs. simpl.
    unfold rec_stream; simpl. rewrite Hr. case_decide as Heq.
    + subst id'. by rewrite bool_decide_true.
    + by rewrite bool_decide_false, app_nil_r.
  - intros id' recs. simpl. rewrite lookup_insert. case_decide; [|apply Hne].
    intros [= <-]. by destruct (stream s id).
  - apply (numbered_stamp now l id [env] Hnum).
    intros e He. apply list_elem_of_singleton in He. by subst.
Qed.

Lemma append_represents reg id now evs recs s l :
  represents reg s l → (∀ env, env ∈ evs → StreamID env = id) →
  Forall2 (λ r env, StreamID (rec_env r) = StreamID env ∧
    ∀ v g, decodes reg (numbered_record v g r) (stored now v g env)) recs evs →
  zlen l + zlen evs < two64 →
  ∃ s', append id (zlen (stream s id)) recs s = (zlen (stream_of id l) + zlen evs, s') ∧
    represents reg s' (l ++ stamp now (zlen (stream_of id l)) (zlen l) evs) ∧
    closed s' = closed s.
Proof.
  intros Hrep Hid HF. revert s l Hrep Hid.
  induction HF as [|r env recs evs [Hst Hdec] HF IH]; intros s l Hrep Hid Hb; simpl.
  - exists s. rewrite app_nil_r, (rep_zlen_stream _ _ _ id Hrep), zlen_nil, Z.add_0_r. done.
  - assert (StreamID env = id) as Henv by (apply Hid; constructor).
    rewrite (rep_zlen_stream _ _ _ id Hrep), (rep_zlen _ _ _ Hrep).
    rewrite zlen_cons in *. pose proof (zlen_stream_of id l). pose proof (zlen_nonneg evs).
    rewrite !u64_small by (unfold is_u64; lia).
    pose proof (append_record_represents _ _ _ id r env now Hrep ltac:(congruence) Henv Hdec) as Hrep1.
    destruct (IH _ _ Hrep1) as (s' & Happ & Hrep' & Hcl).
    + intros e He. apply Hid. by constructor.
    + rewrite zlen_app, zlen_cons, zlen_nil. lia.
    + rewrite (rep_zlen_stream _ _ _ id Hrep1) in Happ.
      assert (zlen (stream_of id (l ++ [stored now (zlen (stream_of id l) + 1) (zlen l + 1) env]))
        = zlen (stream_of id l) + 1) as Hz.
      { rewrite stream_of_app, zlen_app. f_equal. unfold stream_of, in_stream; simpl.
        by rewrite bool_decide_true. }
      rewrite Hz in Happ, Hrep'. rewrite zlen_app, zlen_cons, zlen_nil in Hrep'.
      rewrite <- app_assoc in Hrep'. simpl in Hrep'. rewrite Z.add_0_r in Hrep'.
      exists s'. rewrite Z.add_assoc. by split_and!.
Qed.

Lemma check_revision_spec id n rev :
  match check_revision id n rev with
  | None => expectation_holds rev n = true
  | Some (res, e) => expectation_holds rev n = false ∧ Successful res = false ∧ expectation_error rev n e
  end.
Proof. destruct rev; simpl; try done; destruct (n =? _); naive_solver. Qed.

(** Save on an open store, for a batch that can be encoded: it succeeds
    exactly when the expectation holds of the abstract stream, and then the
    log grows by the stamped batch. *)
Lemma Save_open now reg reg' evs env0 rev s l recs :
  represents reg' s l → registry_wf reg →
  (∀ name e, NewEventByName name reg = Ok e → NewEventByName name reg' = Ok e) →
  head evs = Some env0 → valid_batch (StreamID env0) evs = true →
  encode now reg evs = Ok recs → closed s = false → zlen l + zlen evs < two64 →
  let id := StreamID env0 in
  let n := zlen (stream_of id l) in
  if expectation_holds rev n then
    ∃ s', Save now reg evs rev s = (mkAppendResult true id (n + zlen evs) (zlen l + zlen evs), None, s') ∧
          represents reg' s' (l ++ stamp now n (zlen l) evs) ∧ closed s' = false
  else
    ∃ res e, Save now reg evs rev s = (res, Some e, s) ∧ Successful res = false ∧ expectation_error rev n e.
Proof.
  intros Hrep Hwf Hmono Hhead Hvalid Henc Hopen Hb id n. unfold Save.
  destruct evs as [|env evs]; [done|]. simpl in Hhead. injection Hhead as ->.
  pose proof (validate_spec (StreamID env0) (env0 :: evs)) as Hv.
  destruct (validate _ _) as [e|]; [destruct Hv; congruence|].
  rewrite Henc, Hopen. fold id. rewrite (rep_zlen_stream _ _ _ id Hrep). fold n.
  pose proof (check_revision_spec id n rev) as Hc.
  destruct (check_revision id n rev) as [[res e]|].
  - destruct Hc as (-> & Hres & He). by exists res, e.
  - rewrite Hc.
    destruct (append_represents reg' id now (env0 :: evs) recs s l Hrep) as (s' & Happ & Hrep' & Hcl).
    + intros e. by apply valid_batch_stream.
    + by eapply encode_spec.
    + done.
    + rewrite (rep_zlen_stream _ _ _ id Hrep) in Happ. fold n in Happ, Hrep'. rewrite Happ.
      exists s'. split_and!; [|done|congruence].
      rewrite (rep_zlen _ _ _ Hrep'), zlen_app. do 3 f_equal.
      unfold zlen. by rewrite stamp_length.
Qed.

(** The batch is checked before the store is looked at. *)
Lemma Save_refused_early now reg evs env0 rev s e :
  head evs = Some env0 →
  match validate (StreamID env0) evs with
  | Some e' => e' = e
  | None => encode now reg evs = Fail e
  end →
  Save now reg evs rev s = (failed_append (StreamID env0), Some e, s).
Proof.
  unfold Save. destruct evs as [|env evs]; [done|]. intros [= ->].
  destruct (validate _ _); [by intros ->|]. by intros ->.
Qed.

(** A Save that returns an error changes nothing. *)
Lemma Save_error now reg evs rev s res e s' :
  Save now reg evs rev s = (res, Some e, s') → s' = s ∧ Successful res = false.
Proof.
  unfold Save. destruct evs as [|env evs]; [done|].
  destruct (validate _ _); [naive_solver|]. destruct (encode _ _ _); [|naive_solver].
  destruct (closed s); [naive_solver|].
  pose proof (check_revision_spec (StreamID env) (zlen (stream s (StreamID env))) rev) as Hc.
  destruct (check_revision _ _ _) as [[r e']|]; [naive_solver|].
  by destruct (append _ _ _ _).
Qed.

(** *** Loads *)
Lemma snapshot_yields msg reg recs envs i :
  Forall2 (decodes reg) recs envs → zlen recs < two64 → 0 ≤ i ≤ zlen recs →
  Yields (snapshot_next msg reg recs) None i (drop (Z.to_nat i) envs) None None (zlen recs).
Proof.
  intros HF Hb. remember (Z.to_nat (zlen recs - i)) as n eqn:Hn. revert i Hn.
  pose proof (Forall2_zlen _ _ _ HF) as Hlen. unfold zlen in Hlen.
  induction n as [|n IH]; intros i Hn Hi.
  - assert (i = zlen recs) as -> by lia. rewrite drop_ge by (unfold zlen; lia).
    eapply (Yields_end _ _ _ None (Sentinel io_EOF)); [done|].
    unfold snapshot_next. by rewrite Z.leb_refl.
  - destruct (lookup_lt_is_Some_2 recs (Z.to_nat i)) as [r Hr]; [unfold zlen in *; lia|].
    destruct (Forall2_lookup_l _ _ _ _ _ HF Hr) as (env & Henv & Hdec & _).
    rewrite (drop_S _ _ _ Henv). eapply Yields_item; [done| |].
    + unfold snapshot_next. destruct (Z.leb_spec (zlen recs) i); [lia|].
      rewrite Hr, Hdec, u64_small by (unfold is_u64; lia). done.
    + replace (S (Z.to_nat i)) with (Z.to_nat (i + 1)) by lia. apply IH; lia.
Qed.

Lemma snapshot_All msg reg recs envs i :
  Forall2 (decodes reg) recs envs → zlen recs < two64 → 0 ≤ i ≤ zlen recs →
  ∃ it, All (S (length recs)) None (NewIteratorFunc (snapshot_next msg reg recs) None i)
        = Some (drop (Z.to_nat i) envs, None, it).
Proof.
  intros HF Hb Hi. eexists.
  rewrite (All_yields _ None _ _ _ _ _ _ (S (length recs)) (snapshot_yields msg reg recs envs i HF Hb Hi)).
  - done.
  - rewrite length_drop. pose proof (Forall2_length _ _ _ HF). lia.
Qed.

Lemma LoadStreamFrom_spec reg id version s l :
  represents reg s l → recognized version → zlen l < two64 →
  match load_error version (zlen (stream_of id l)) with
  | Some se => ∃ e, LoadStreamFrom reg id version s = Fail e ∧ errors_Is e se = true
  | None => ∃ it it', LoadStreamFrom reg id version s = Ok it ∧
      All (S (length (stream_of id l))) None it
      = Some (drop (Z.to_nat (load_offset version)) (stream_of id l), None, it')
  end.
Proof.
  intros Hrep Hrec Hb. pose proof (rep_stream_decodes _ _ _ id Hrep) as HF.
  pose proof (Forall2_zlen _ _ _ HF) as Hlen. pose proof (zlen_stream_of id l) as Hle.
  assert (bool_decide (is_Some (events s !! id)) = negb (zlen (stream_of id l) =? 0)) as Hex.
  { pose proof (rep_is_Some _ _ _ id Hrep) as Hiff. pose proof (zlen_zero (stream_of id l)) as Hz.
    case_bool_decide as Hd; destruct (Z.eqb_spec (zlen (stream_of id l)) 0); naive_solver. }
  assert (∀ off, 0 ≤ off ≤ zlen (stream_of id l) → ∃ it',
    All (S (length (stream_of id l))) None
      (NewIteratorFunc (snapshot_next "load stream" reg (stream s id)) None off)
    = Some (drop (Z.to_nat off) (stream_of id l), None, it')) as Hall.
  { intros off Hoff. rewrite <- (Forall2_length _ _ _ HF). apply snapshot_All; [done|lia..]. }
  unfold LoadStreamFrom, load_error, load_offset. rewrite Hex, Hlen.
  destruct version as [| | |v|raw]; simpl in Hrec; try done.
  - destruct (Hall 0) as [it' Hit]; [lia|]. eauto.
  - destruct (zlen (stream_of id l) =? 0) eqn:Hz; simpl; [|by eexists].
    destruct (Hall 0) as [it' Hit]; [lia|]. eauto.
  - destruct (zlen (stream_of id l) =? 0) eqn:Hz; simpl; [by eexists|].
    destruct (Hall 0) as [it' Hit]; [lia|]. eauto.
  - unfold is_u64 in Hrec. destruct (Z.ltb_spec (zlen (stream_of id l)) v); simpl; [by eexists|].
    destruct (Hall v) as [it' Hit]; [lia|]. eauto.
Qed.

(** *** Global reads *)
Lemma decodes_matches reg r env opts :
  decodes reg r env → matches r (EventTypes opts) (StreamPrefixes opts) = env_matches opts env.
Proof.
  intros [H Hn]. unfold matches, env_matches. destruct (envelope_fields _ _ _ H) as [-> _]. rewrite Hn.
  by repeat case_bool_decide.
Qed.

Lemma read_loop_spec reg limit opts recs envs acc next :
  Forall2 (decodes reg) recs envs → zlen acc < limit →
  (∀ i env, envs !! i = Some env → GlobalPosition env = next + Z.of_nat (S i)) →
  ∃ out next', read_loop reg limit opts recs acc next = Ok (out, next') ∧
    out = rev acc ++ bfilter (env_matches opts) (take (Z.to_nat (next' - next)) envs) ∧
    next ≤ next' ≤ next + zlen envs ∧ zlen out ≤ limit ∧
    (next' = next + zlen envs ∨ next < next').
Proof.
  intros HF. revert acc next. induction HF as [|r env recs envs Hdec HF IH]; intros acc next Hacc Hpos; cbn [read_loop].
  - exists (rev acc), next. rewrite zlen_nil, take_nil. simpl. rewrite app_nil_r.
    split_and!; [done|done|lia|lia| |left; lia]. unfold zlen in *. rewrite length_rev. lia.
  - rewrite (decodes_matches _ _ _ opts Hdec). destruct Hdec as [Henv _].
    destruct (envelope_fields _ _ _ Henv) as (_ & <- & _).
    assert (GlobalPosition env = next + 1) as Hp by (rewrite (Hpos 0%nat env eq_refl); lia).
    assert (∀ i e, envs !! i = Some e → GlobalPosition e = GlobalPosition env + Z.of_nat (S i)) as Hpos'.
    { intros i e He. rewrite (Hpos (S i) e He), Hp. lia. }
    pose proof (zlen_nonneg envs). rewrite zlen_cons.
    destruct (env_matches opts env) eqn:Hm.
    + rewrite Henv. destruct (zlen (env :: acc) =? limit) eqn:Hlim.
      * exists (rev (env :: acc)), (GlobalPosition env).
        rewrite Hp. replace (next + 1 - next) with 1 by lia.
        change (Z.to_nat 1) with 1%nat. cbn [take]. rewrite take_0. cbn [bfilter]. rewrite Hm.
        split_and!; [done|done|lia|lia| |right; lia].
        apply Z.eqb_eq in Hlim. unfold zlen in *. rewrite length_rev. lia.
      * destruct (IH (env :: acc) (GlobalPosition env)) as (out & next' & -> & Hout & Hn & Hl & Hend).
        { apply Z.eqb_neq in Hlim. rewrite zlen_cons in *. lia. }
        { done. }
        exists out, next'. split_and!; [done| |lia|lia|done|destruct Hend; [left|right]; lia].
        rewrite Hout. replace (Z.to_nat (next' - next)) with (S (Z.to_nat (next' - GlobalPosition env))) by lia.
        simpl. rewrite Hm, <- app_assoc. done.
    + destruct (IH acc (GlobalPosition env) Hacc Hpos') as (out & next' & -> & Hout & Hn & Hl & Hend).
      exists out, next'. split_and!; [done| |lia|lia|done|destruct Hend; [left|right]; lia].
      rewrite Hout. replace (Z.to_nat (next' - next)) with (S (Z.to_nat (next' - GlobalPosition env))) by lia.
      simpl. by rewrite Hm.
Qed.

Lemma ReadAll_page reg s l after opts :
  represents reg s l → 0 ≤ after →
  ∃ res, ReadAll None reg after opts s = Ok res ∧ page_ok l after opts res.
Proof.
  intros Hrep Ha. pose proof (rep_decode _ _ _ Hrep) as HF. pose proof (rep_zlen _ _ _ Hrep) as Hlen.
  destruct (read_loop_spec reg (page_limit opts) opts (drop (Z.to_nat after) (global s))
    (drop (Z.to_nat after) l) [] after) as (out & next & Hloop & Hout & Hn & Hl & Hend).
  - by apply Forall2_drop.
  - rewrite zlen_nil. unfold page_limit. destruct (Z.leb_spec (Limit opts) 0); lia.
  - intros i env. rewrite lookup_drop. intros Hi.
    rewrite (numbered_global _ (rep_numbered _ _ _ Hrep) _ _ Hi). lia.
  - unfold ReadAll. rewrite Hloop. eexists. split; [done|].
    assert (zlen (drop (Z.to_nat after) l) = Z.max 0 (zlen l - after)) as Hd.
    { unfold zlen. rewrite length_drop. lia. }
    rewrite Hd in *. rewrite Hlen.
    split; cbn [rr_Events rr_Next rr_AtEnd].
    + rewrite Hout. simpl. unfold scanned. reflexivity.
    + lia.
    + intros Hnend. apply Z.leb_gt in Hnend. lia.
    + apply Z.leb_le.
    + intros Hlim. unfold page_limit in Hl. destruct (Z.leb_spec (Limit opts) 0); lia.
Qed.

#[export] Instance mem_reader (reg : Registry) : GlobalReader EventStore := {
  reader_ReadAll s after opts := ReadAll None reg after opts s;
  reader_Head s := Ok (Head s);
}.

(** *** Correlation chains and Close *)
Lemma LoadCorrelation_spec reg id s l :
  represents reg s l → zlen l < two64 → id ≠ "" →
  ∃ it it', LoadCorrelation reg id s = Ok it ∧
    All (S (length l)) None it
    = Some (bfilter (λ env, bool_decide (CorrelationID env = id)) l, None, it').
Proof.
  intros Hrep Hb Hid. unfold LoadCorrelation. rewrite bool_decide_false by done.
  set (chain := bfilter _ (global s)).
  assert (Forall2 (decodes reg) chain (bfilter (λ env, bool_decide (CorrelationID env = id)) l)) as HF.
  { eapply Forall2_bfilter; [|apply Hrep]. intros r env [H _].
    by destruct (envelope_fields _ _ _ H) as (_ & _ & _ & ->). }
  assert (length chain ≤ length l)%nat as Hle.
  { unfold chain. etrans; [apply bfilter_length|].
    by rewrite (Forall2_length _ _ _ (rep_decode _ _ _ Hrep)). }
  assert (0 ≤ 0 ≤ zlen chain) as H0 by (unfold zlen; lia).
  assert (zlen chain < two64) as Hb' by (unfold zlen in *; lia).
  pose proof (snapshot_yields "load correlation" reg chain _ 0 HF Hb' H0) as HY.
  rewrite drop_0 in HY. do 2 eexists. split; [done|].
  rewrite (All_yields _ None _ _ _ _ _ _ (S (length l)) HY); [done|].
  rewrite <- (Forall2_length _ _ _ HF). lia.
Qed.

Lemma CloseStore_represents reg s : closed s = false → represents reg (CloseStore s) [].
Proof. unfold CloseStore. intros ->. by destruct (NewEventStore_represents reg). Qed.

(** ** Whole histories *)
Definition extends (reg reg' : Registry) : Prop :=
  ∀ name e, NewEventByName name reg = Ok e → NewEventByName name reg' = Ok e.

Definition encodable (reg : Registry) (env : Envelope) : bool :=
  match EncodeEvent (env_Event env) reg, EncodeMetadata (Metadata env) with
  | Ok _, Ok _ => true
  | _, _ => false
  end.

(** One call of Save, with the registry and the clock it sees. *)
Record save_op : Type := mkSaveOp {
  so_now : time;
  so_reg : Registry;
  so_events : list Envelope;
  so_revision : StreamState;
}.

Fixpoint run_saves (ops : list save_op) (s : EventStore) : list (AppendResult * option error) * EventStore :=
  match ops with
  | [] => ([], s)
  | op :: ops =>
    let '(res, e, s) := Save (so_now op) (so_reg op) (so_events op) (so_revision op) s in
    let '(out, s) := run_saves ops s in
    ((res, e) :: out, s)
  end.

(** What the [EventStore] interface promises of a call of Save. *)
Inductive verdict : Type :=
| Appended (id : string) (version position : Z)
| Nothing
| BadBatch
| NotEncodable
| Violated (rev : StreamState) (n : Z).

Definition log_save (op : save_op) (l : log) : verdict * log :=
  match so_events op with
  | [] => (Nothing, l)
  | env0 :: _ =>
    let id := StreamID env0 in
    let n := zlen (stream_of id l) in
    let k := zlen (so_events op) in
    if negb (valid_batch id (so_events op)) then (BadBatch, l)
    else if negb (forallb (encodable (so_reg op)) (so_events op)) then (NotEncodable, l)
    else if expectation_holds (so_revision op) n
    then (Appended id (n + k) (zlen l + k), l ++ stamp (so_now op) n (zlen l) (so_events op))
    else (Violated (so_revision op) n, l)
  end.

Fixpoint log_saves (ops : list save_op) (l : log) : list verdict * log :=
  match ops with
  | [] => ([], l)
  | op :: ops =>
    let '(v, l) := log_save op l in
    let '(vs, l) := log_saves ops l in
    (v :: vs, l)
  end.

(** The Go result that reports a verdict. *)
Definition reports (r : AppendResult * option error) (v : verdict) : Prop :=
  match v, r with
  | Appended id version position, (res, None) => res = mkAppendResult true id version position
  | Nothing, (res, None) => res = mkAppendResult true "" 0 0
  | BadBatch, (res, Some e) => Successful res = false ∧ errors_Is e ErrInvalidEventBatch = true
  | NotEncodable, (res, Some _) => Successful res = false
  | Violated rev n, (res, Some e) => Successful res = false ∧ expectation_error rev n e
  | _, _ => False
  end.

Definition total_events (ops : list save_op) : Z := foldr (λ op z, zlen (so_events op) + z) 0 ops.

(** Every op encodes with a well-formed registry the reader's extends. *)
Definition ops_ok (reg : Registry) (ops : list save_op) : Prop :=
  Forall (λ op, registry_wf (so_reg op) ∧ extends (so_reg op) reg) ops.

Lemma encode_encodable now reg evs :
  match encode now reg evs with Ok _ => true | Fail _ => false end = forallb (encodable reg) evs.
Proof.
  induction evs as [|env evs IH]; [done|]. cbn [encode forallb]. unfold encodable at 1.
  destruct (EncodeEvent _ _); [|done]. destruct (EncodeMetadata _); [|done].
  simpl. rewrite <- IH. by destruct (encode now reg evs).
Qed.

Lemma Save_step reg op s l :
  represents reg s l → registry_wf (so_reg op) → extends (so_reg op) reg → closed s = false →
  zlen l + zlen (so_events op) < two64 →
  ∃ res e s', Save (so_now op) (so_reg op) (so_events op) (so_revision op) s = (res, e, s') ∧
    reports (res, e) (log_save op l).1 ∧ represents reg s' (log_save op l).2 ∧ closed s' = false ∧
    zlen (log_save op l).2 ≤ zlen l + zlen (so_events op).
Proof.
  destruct op as [now sreg evs rev]; cbn [so_now so_reg so_events so_revision].
  intros Hrep Hwf Hext Hopen Hb. unfold log_save; cbn [so_now so_reg so_events so_revision].
  pose proof (zlen_nonneg evs) as Hlen.
  destruct evs as [|env0 evs']; [do 3 eexists; split; [done|]; split_and!; (done || (cbn; lia))|].
  set (evs := env0 :: evs') in *.
  pose proof (validate_spec (StreamID env0) evs) as Hv. pose proof (encode_encodable now sreg evs) as He.
  destruct (valid_batch (StreamID env0) evs) eqn:Hvalid; cbn [negb].
  2: { destruct (validate (StreamID env0) evs) as [e|] eqn:Hval; [|done]. exists (failed_append (StreamID env0)), (Some e), s.
       destruct Hv. rewrite (Save_refused_early now sreg evs env0 rev s e eq_refl) by (rewrite Hval; done). split_and!; (done || (cbn [fst snd]; lia)). }
  destruct (validate (StreamID env0) evs) as [e|] eqn:Hval; [by destruct Hv|].
  rewrite <- He. destruct (encode now sreg evs) as [recs|e] eqn:Henc; cbn [negb].
  2: { exists (failed_append (StreamID env0)), (Some e), s. rewrite (Save_refused_early now sreg evs env0 rev s e eq_refl) by (by rewrite Hval, Henc).
       split_and!; (done || (cbn [fst snd]; lia)). }
  pose proof (Save_open now sreg reg evs env0 rev s l recs Hrep Hwf Hext eq_refl Hvalid Henc Hopen Hb) as HS.
  cbn zeta in HS. destruct (expectation_holds rev _).
  - destruct HS as (s' & -> & Hrep' & Hcl). do 3 eexists. split; [done|].
    split_and!; [done..|]. cbn [fst snd]. rewrite zlen_app. unfold zlen. rewrite stamp_length. lia.
  - destruct HS as (res & e & -> & Hf & Hx). exists res, (Some e), s. split_and!; (done || (cbn; lia)).
Qed.

Lemma run_saves_step reg ops s l :
  represents reg s l → closed s = false → ops_ok reg ops → zlen l + total_events ops < two64 →
  Forall2 reports (run_saves ops s).1 (log_saves ops l).1 ∧
  represents reg (run_saves ops s).2 (log_saves ops l).2 ∧
  zlen (log_saves ops l).2 < two64.
Proof.
  intros Hrep Hcl Hops. revert s l Hrep Hcl. induction Hops as [|op ops [Hwf Hext] Hops IH];
    intros s l Hrep Hcl Hb; cbn [run_saves log_saves total_events foldr] in *.
  { split; [constructor|]. split; [done|]. cbn in *. lia. }
  fold (total_events ops) in Hb.
  assert (0 ≤ total_events ops) by (clear; induction ops as [|o ops IH]; simpl; [lia|pose proof (zlen_nonneg (so_events o)); lia]).
  destruct (Save_step reg op s l Hrep Hwf Hext Hcl) as (res & e & s' & -> & Hv & Hrep' & Hcl' & Hl); [lia|].
  destruct (log_save op l) as [v l'] eqn:HL. cbn [fst snd] in *.
  destruct (IH s' l' Hrep' Hcl') as (HF & HR & HZ); [lia|].
  destruct (run_saves ops s') as [out s'']. destruct (log_saves ops l') as [vs l''].
  cbn [fst snd] in *. split; [by constructor|done].
Qed.

Lemma run_saves_new reg ops :
  ops_ok reg ops → total_events ops < two64 →
  Forall2 reports (run_saves ops NewEventStore).1 (log_saves ops []).1 ∧
  represents reg (run_saves ops NewEventStore).2 (log_saves ops []).2 ∧
  zlen (log_saves ops []).2 < two64.
Proof. intros Hops Hb. apply run_saves_step; [apply NewEventStore_represents|done..]. Qed.
End refinement.

Section history.
Context `{J : JSON, !JSONLaws J}.

(** C3: The in-memory event store implements the abstract log.  For every history
    of saves, each save returns what the log answers (success, or the
    documented error for the violated expectation), the records the store
    keeps decode to the log, and every event carries its position in the log
    and in its stream. *)
Theorem Save_refines_log reg ops :
  ops_ok reg ops → total_events ops < two64 →
  Forall2 reports (run_saves ops NewEventStore).1 (log_saves ops []).1 ∧
  Forall2 (decodes reg) (global (run_saves ops NewEventStore).2) (log_saves ops []).2 ∧
  numbered (log_saves ops []).2.
Proof. intros Hops Hb. destruct (run_saves_new reg ops Hops Hb) as (? & [] & ?). done. Qed.

(** A Save of the in-memory store that returns an error leaves the store exactly
    as it was, and reports an unsuccessful append. *)
Theorem refused_Save_changes_nothing now reg evs rev s res e s' :
  Save now reg evs rev s = (res, Some e, s') → s' = s ∧ Successful res = false.
Proof. apply Save_error. Qed.

(** Reading the global log page by page, until a page is at its end, gives exactly
    the matching events after the start position in log order, whatever the
    page limit and the filters: no page repeats or skips an event, and the
    pages come to an end. *)
Theorem paging_reads_the_whole_log reg ops after opts :
  ops_ok reg ops → total_events ops < two64 → 0 ≤ after →
  let s := (run_saves ops NewEventStore).2 in
  let l := (log_saves ops []).2 in
  read_pages (GR := mem_reader reg) (S (length l)) s after opts
  = Some (Ok (bfilter (env_matches opts) (drop (Z.to_nat after) l))).
Proof.
  intros Hops Hb Ha s l. destruct (run_saves_new reg ops Hops Hb) as (_ & Hrep & _).
  apply read_pages_ok; [|done|].
  - intros after' Ha'. by apply ReadAll_page.
  - unfold l, zlen. lia.
Qed.

(** What every event of the log was saved as. *)
Lemma elem_of_stamp now v g evs env : env ∈ stamp now v g evs →
  ∃ saved, saved ∈ evs ∧ env = stored now (Version env) (GlobalPosition env) saved.
Proof.
  revert v g. induction evs as [|saved evs IH]; intros v g H; cbn [stamp] in H; [by apply not_elem_of_nil in H|].
  apply elem_of_cons in H as [->|H]; [exists saved; split; [by constructor|done]|].
  destruct (IH _ _ H) as (saved' & Hin & He). exists saved'. split; [by constructor|done].
Qed.

Lemma elem_of_log_saves ops : ∀ l env, env ∈ (log_saves ops l).2 → env ∈ l ∨
  ∃ op saved, op ∈ ops ∧ saved ∈ so_events op ∧ env = stored (so_now op) (Version env) (GlobalPosition env) saved.
Proof.
  induction ops as [|op ops IH]; intros l env H; cbn [log_saves] in H; [by left|].
  destruct (log_save op l) as [v l1] eqn:Hop. destruct (log_saves ops l1) as [vs l2] eqn:Hops.
  specialize (IH l1 env). rewrite Hops in IH.
  destruct (IH H) as [Hl|(op' & saved & Hin & Hs)]; [|right; exists op', saved; split; [by constructor|done]].
  unfold log_save in Hop. destruct (so_events op) as [|env0 evs] eqn:Hevs; [simplify_eq; by left|].
  repeat case_match; simplify_eq; try by left.
  apply elem_of_app in Hl as [Hl|(saved & Hin & Hs)%elem_of_stamp]; [by left|].
  right. exists op, saved. rewrite Hevs. split; [constructor|done].
Qed.

(** What JSON makes of the metadata of a saved envelope. *)
Definition decoded_metadata (saved env : Envelope) : Prop :=
  Metadata env = Some (json_value <$> default ∅ (Metadata saved)) ∧
  ∀ k a, default ∅ (Metadata env) !! k = Some a → json_kind a.

Lemma stored_metadata now v g saved : decoded_metadata saved (stored now v g saved).
Proof.
  split; [done|]. intros k a. cbn. rewrite lookup_fmap. destruct (_ !! k); [|done]. intros [= <-]. apply json_value_kind.
Qed.

(** C33: Loading a stream after any history of saves returns exactly the stream of
    the log of those saves, from the requested index on; NoStream,
    StreamExists and a revision past the end are refused with the documented
    error.  Every event of it is one that was given to a Save, with its ids
    and the time it had or got there, as JSON decodes it: the event is what
    its JSON makes of a new value of its type, and the metadata are never nil
    and of the kinds JSON has, strings as they were, integers as float64,
    values of the program's own types as maps, lists or another of these
    kinds. *)
Theorem load_returns_what_was_saved reg ops id version :
  ops_ok reg ops → total_events ops < two64 → recognized version →
  let s := (run_saves ops NewEventStore).2 in
  let hist := stream_of id (log_saves ops []).2 in
  match load_error version (zlen hist) with
  | Some se => ∃ e, LoadStreamFrom reg id version s = Fail e ∧ errors_Is e se = true
  | None => ∃ it it', LoadStreamFrom reg id version s = Ok it ∧
      All (S (length hist)) None it = Some (drop (Z.to_nat (load_offset version)) hist, None, it')
  end ∧
  Forall (λ env, ∃ op saved, op ∈ ops ∧ saved ∈ so_events op ∧
    env = stored (so_now op) (Version env) (GlobalPosition env) saved ∧ decoded_metadata saved env) hist.
Proof.
  intros Hops Hb Hrec s hist. destruct (run_saves_new reg ops Hops Hb) as (_ & Hrep & Hz). split.
  - by apply LoadStreamFrom_spec.
  - apply Forall_forall. intros env [_ Hin]%elem_of_bfilter.
    apply elem_of_log_saves in Hin as [Hin%not_elem_of_nil|(op & saved & Hop & Hs & He)]; [done|].
    exists op, saved. split_and!; [done..|]. rewrite He. apply stored_metadata.
Qed.

(** LoadCorrelation returns exactly the events of the log that carry the
    correlation id, of all streams, in the order they were committed. *)
Theorem correlation_chain_in_commit_order reg ops id :
  ops_ok reg ops → total_events ops < two64 → id ≠ "" →
  let s := (run_saves ops NewEventStore).2 in
  let l := (log_saves ops []).2 in
  ∃ it it', LoadCorrelation reg id s = Ok it ∧
    All (S (length l)) None it
    = Some (bfilter (λ env, bool_decide (CorrelationID env = id)) l, None, it').
Proof.
  intros Hops Hb Hid s l. destruct (run_saves_new reg ops Hops Hb) as (_ & Hrep & Hz).
  by apply LoadCorrelation_spec.
Qed.
End history.
