(* ===== verification/SqlEvents.v ===== *)
(** * The events table of the SQL stores ([sqlite/eventstore.go], [postgres/eventstore.go])

    What the two SQL event stores share: the rows of the table [events], how
    an envelope becomes a row and a row an envelope, and the queries over the
    rows.  The column types of the event's id and time differ, so they are
    parameters.  A statement of SQL is the function it denotes on the rows
    that are visible to it. *)
From S2P Require Import Prelude Core Iter Registry Log MemStore.

(** A row of [events]; [metadata] is never NULL in the rows the stores
    insert. *)
Record row (U Ts : Type) : Type := mkRow {
  row_id : Z;
  event_id : U;
  stream_id : string;
  stream_position : Z;
  event_type : string;
  payload : string;
  row_metadata : string;
  occurred_at : Ts;
  correlation_id : string;
  causation_id : string;
}.

Arguments mkRow {U Ts}.
Arguments row_id {U Ts}.
Arguments event_id {U Ts}.
Arguments stream_id {U Ts}.
Arguments stream_position {U Ts}.
Arguments event_type {U Ts}.
Arguments payload {U Ts}.
Arguments row_metadata {U Ts}.
Arguments occurred_at {U Ts}.
Arguments correlation_id {U Ts}.
Arguments causation_id {U Ts}.

(** How a store keeps an event id and a time in its columns. *)
Record columns (U Ts : Type) : Type := mkColumns {
  put_id : uuid → U;
  get_id : U → result error uuid;
  put_time : time → Ts;
  get_time : Ts → time;
}.

Arguments mkColumns {U Ts}.
Arguments put_id {U Ts}.
Arguments get_id {U Ts}.
Arguments put_time {U Ts}.
Arguments get_time {U Ts}.

(** What is read back as a time. *)
Definition column_time {U Ts} (C : columns U Ts) (t : time) : time := get_time C (put_time C t).

Class ColumnLaws {U Ts} (C : columns U Ts) : Prop := {
  column_id u : get_id C (put_id C u) = Ok u;
}.

Section table.
Context `{J : JSON} {U Ts : Type} (C : columns U Ts).
Implicit Types (r : row U Ts) (t : list (row U Ts)).

(** The VALUES of the INSERT for an encoded event. *)
Definition row_of (id : Z) (streamID : string) (pos : Z) (rec : record) : row U Ts :=
  mkRow id (put_id C (EventID (rec_env rec))) streamID pos (rec_name rec) (rec_payload rec)
    (rec_metadata rec) (put_time C (OccurredAt (rec_env rec))) (CorrelationID (rec_env rec)) (CausationID (rec_env rec)).

(** [scanEnvelope] *)
Definition scanEnvelope (reg : Registry) r : result error Envelope :=
  match get_id C (event_id r) with
  | Fail e => Fail (Errorf "scan envelope: event id" e)
  | Ok id =>
    match DecodeEvent (event_type r) (payload r) reg with
    | Fail e => Fail (Errorf "scan envelope" e)
    | Ok ev =>
      let meta := match DecodeMetadata (row_metadata r) with Ok m => m | Fail _ => ∅ end in
      Ok (mkEnvelope id (stream_id r) (Some meta) (correlation_id r) (causation_id r) (Some ev)
            (u64 (stream_position r)) (u64 (row_id r)) (get_time C (occurred_at r)))
    end
  end.

(** [queryEnvelopes]: every row, or the first error. *)
Fixpoint scan_rows (reg : Registry) t : result error (list Envelope) :=
  match t with
  | [] => Ok []
  | r :: t =>
    match scanEnvelope reg r with
    | Fail e => Fail e
    | Ok env => match scan_rows reg t with Fail e => Fail e | Ok envs => Ok (env :: envs) end
    end
  end.

(** [ORDER BY key] *)
Definition order_by (key : row U Ts → Z) t : list (row U Ts) := sort_slice (λ a b, key a <? key b) t.

Definition in_row_stream (id : string) r : bool := bool_decide (stream_id r = id).

(** [SELECT coalesce(max(stream_position), 0) FROM events WHERE stream_id = ?] *)
Definition select_version (id : string) t : Z :=
  foldr (λ r m, Z.max (stream_position r) m) 0 (bfilter (in_row_stream id) t).

(** [SELECT EXISTS(SELECT 1 FROM events WHERE stream_id = ?)] *)
Definition select_exists (id : string) t : bool := existsb (in_row_stream id) t.

(** [... WHERE stream_id = ? ORDER BY stream_position] *)
Definition select_stream (id : string) t : list (row U Ts) :=
  order_by stream_position (bfilter (in_row_stream id) t).

(** [... WHERE stream_id = ? AND stream_position > ? ORDER BY stream_position] *)
Definition select_stream_after (id : string) (from : Z) t : list (row U Ts) :=
  order_by stream_position (bfilter (λ r, in_row_stream id r && (from <? stream_position r)) t).

(** [... WHERE correlation_id = ? ORDER BY id] *)
Definition select_correlation (id : string) t : list (row U Ts) :=
  order_by row_id (bfilter (λ r, bool_decide (correlation_id r = id)) t).

(** [SELECT coalesce(max(id), 0) FROM events] *)
Definition select_head t : Z := foldr (λ r m, Z.max (row_id r) m) 0 t.

(** ** ReadAll *)

(** The stores differ in the SQL that compares a prefix with a stream. *)
Context (starts : string → string → bool).

Definition row_matches (opts : ReadOptions) r : bool :=
  (bool_decide (EventTypes opts = []) || bool_decide (event_type r ∈ EventTypes opts)) &&
  (bool_decide (StreamPrefixes opts = []) || existsb (λ p, starts p (stream_id r)) (StreamPrefixes opts)).

Definition select_page (after head : Z) (opts : ReadOptions) (limit : Z) t : list (row U Ts) :=
  take (Z.to_nat limit)
    (order_by row_id (bfilter (λ r, (after <? row_id r) && (row_id r <=? head) && row_matches opts r) t)).

(** [ReadAll]: the head is read from [head_rows], and the page from
    [page_rows], since other writers may commit in between.  Either query can
    fail. *)
Definition sql_ReadAll (head_err page_err : option error) (reg : Registry) (after : Z) (opts : ReadOptions)
    (head_rows page_rows : list (row U Ts)) : result error ReadResult :=
  if max_int64 <? after then Fail (Errorf "read all after" (Sentinel ErrInvalidRevision))
  else match head_err with
  | Some e => Fail (Errorf "read all" (Errorf "head" e))
  | None =>
    let head := u64 (select_head head_rows) in
    if head <=? after then Ok (mkReadResult [] after true)
    else match page_err with
    | Some e => Fail (Errorf "read all" e)
    | None =>
      let limit := page_limit opts in
      match scan_rows reg (select_page after head opts limit page_rows) with
      | Fail e => Fail (Errorf "read all" e)
      | Ok evs =>
        match last evs with
        | Some env =>
          if zlen evs =? limit then Ok (mkReadResult evs (GlobalPosition env) (head <=? GlobalPosition env))
          else Ok (mkReadResult evs (Z.max after head) true)
        | None => Ok (mkReadResult evs (Z.max after head) true)
        end
      end
    end
  end.
End table.

(** ** Rows and the log they stand for *)

(** A log whose positions ascend, possibly with gaps, and whose streams are
    numbered from 1. *)
Record ordered (l : log) : Prop := {
  ordered_positions : StronglySorted (λ a b, GlobalPosition a < GlobalPosition b) l;
  ordered_positive env : env ∈ l → 0 < GlobalPosition env ≤ max_int64;
  ordered_streams id i env : stream_of id l !! i = Some env → Version env = Z.of_nat (S i);
}.

(** The contract of a page over a log with gaps. *)
Record page_of (l : log) (after : Z) (opts : ReadOptions) (res : ReadResult) : Prop := {
  po_events : rr_Events res =
    bfilter (λ env, (after <? GlobalPosition env) && (GlobalPosition env <=? rr_Next res) && env_matches opts env) l;
  po_next : after ≤ rr_Next res ≤ max_int64;
  po_progress : rr_AtEnd res = false → ∃ env, env ∈ l ∧ after < GlobalPosition env ≤ rr_Next res;
  po_at_end : rr_AtEnd res = true ↔ ∀ env, env ∈ l → GlobalPosition env ≤ rr_Next res;
  po_limit : 0 < Limit opts → zlen (rr_Events res) ≤ Limit opts;
}.

(** *** A log without gaps *)
Lemma numbered_ordered l : numbered l → zlen l ≤ max_int64 → ordered l.
Proof.
  intros [Hg Hs] Hroom. split; [|intros env [i Hi]%list_elem_of_lookup|done].
  - clear Hs Hroom. revert Hg. induction l as [|x l IH] using rev_ind; intros Hg; [constructor|].
    apply StronglySorted_app. split_and!; [|apply IH|repeat constructor].
    + intros a b [i Hi]%list_elem_of_lookup ->%list_elem_of_singleton.
      rewrite (Hg i a) by (by apply lookup_app_l_Some). rewrite (Hg (length l) x) by (apply lookup_snoc_Some; by right).
      apply lookup_lt_Some in Hi. lia.
    + intros i env Hi. apply Hg. by apply lookup_app_l_Some.
  - rewrite (Hg _ _ Hi). apply lookup_lt_Some in Hi. unfold zlen in Hroom. lia.
Qed.

(** The pages of a log whose positions are its indexes are pages by position. *)
Lemma page_of_numbered l after opts res : numbered l → zlen l ≤ max_int64 → 0 ≤ after ≤ max_int64 →
  page_ok l after opts res → page_of l after opts res.
Proof.
  intros [Hg _] Hroom Ha [Hev Hnext Hprog Hat Hlim].
  assert (∀ env, env ∈ l → 0 < GlobalPosition env ≤ zlen l) as Hpos.
  { intros env [i Hi]%list_elem_of_lookup. rewrite (Hg _ _ Hi). apply lookup_lt_Some in Hi. unfold zlen. lia. }
  split; [|lia| | |done].
  - rewrite Hev. unfold scanned. rewrite <- (bfilter_bfilter (env_matches opts)). f_equal. rewrite <- (take_drop (Z.to_nat after) l) at 2.
    rewrite <- (take_drop (Z.to_nat (rr_Next res - after)) (drop (Z.to_nat after) l)) at 2.
    rewrite !bfilter_app, (bfilter_none _ (take (Z.to_nat after) l)), bfilter_all, bfilter_none, app_nil_r; [done|..];
      apply Forall_forall; intros env [i Hi]%list_elem_of_lookup; apply andb_true_iff || apply andb_false_iff.
    + rewrite !lookup_drop in Hi. rewrite (Hg _ _ Hi). right. apply Z.leb_gt. lia.
    + pose proof (lookup_lt_Some _ _ _ Hi) as Hlt. rewrite length_take in Hlt. rewrite lookup_take_lt, lookup_drop in Hi by lia.
      rewrite (Hg _ _ Hi). rewrite Z.ltb_lt, Z.leb_le. lia.
    + pose proof (lookup_lt_Some _ _ _ Hi) as Hlt. rewrite length_take in Hlt. rewrite lookup_take_lt in Hi by lia.
      rewrite (Hg _ _ Hi). left. apply Z.ltb_ge. lia.
  - intros Hend. specialize (Hprog Hend). destruct (lookup_lt_is_Some_2 l (Z.to_nat after)) as [env Hi]; [unfold zlen in *; lia|].
    exists env. split; [by eapply list_elem_of_lookup_2|]. rewrite (Hg _ _ Hi). lia.
  - rewrite Hat. split; [intros Hle env Hin%Hpos; lia|]. intros Hall. destruct l as [|x l]; [cbn; unfold zlen; cbn; lia|].
    destruct (lookup_lt_is_Some_2 (x :: l) (length l)) as [env Hi]; [cbn; lia|].
    specialize (Hall env (list_elem_of_lookup_2 _ _ _ Hi)). rewrite (Hg _ _ Hi) in Hall. rewrite zlen_cons. unfold zlen. lia.
Qed.

(** *** Reading rows *)
Section reading.
Context `{J : JSON} {U Ts : Type} (C : columns U Ts).
Implicit Types (r : row U Ts) (t : list (row U Ts)).

Record scans (reg : Registry) r (env : Envelope) : Prop := {
  sc_scan : scanEnvelope C reg r = Ok env;
  sc_type : event_type r = env_type env;
  sc_id : row_id r = GlobalPosition env;
  sc_position : stream_position r = Version env;
}.

Lemma scans_fields reg r env : scans reg r env → stream_id r = StreamID env ∧ correlation_id r = CorrelationID env.
Proof.
  intros [H _ _ _]. unfold scanEnvelope in H. destruct (get_id _ _); [|done]. destruct (DecodeEvent _ _ _); [|done].
  by injection H as <-.
Qed.

(** The table [t] stands for the log [l]. *)
Record table_log (reg : Registry) t (l : log) : Prop := {
  tl_scans : Forall2 (scans reg) t l;
  tl_ordered : ordered l;
}.

Lemma scan_rows_ok reg t l : Forall2 (scans reg) t l → scan_rows C reg t = Ok l.
Proof. induction 1 as [|r env t l [Hr _ _ _] H IH]; [done|]. cbn. by rewrite Hr, IH. Qed.

Lemma scans_sorted reg t l : Forall2 (scans reg) t l → StronglySorted (λ a b, GlobalPosition a < GlobalPosition b) l →
  StronglySorted (λ a b, row_id a < row_id b) t.
Proof.
  induction 1 as [|r env t l [_ _ Hr _] H IH]; [constructor|]. intros Hs. inversion_clear Hs as [|? ? Hs' Hx].
  constructor; [by apply IH|]. apply Forall_forall. intros r' Hr'. apply list_elem_of_lookup in Hr' as [i Hi].
  destruct (Forall2_lookup_l _ _ _ _ _ H Hi) as (env' & He & [_ _ Hid _]). rewrite Hr, Hid.
  eapply (proj1 (Forall_forall _ _) Hx), list_elem_of_lookup_2, He.
Qed.

Lemma order_by_id_ascending t : StronglySorted (λ a b, row_id a < row_id b) t → order_by row_id t = t.
Proof.
  intros Hs. apply sort_slice_id. eapply StronglySorted_impl; [|exact Hs]. intros a b H. cbn in *. apply Z.ltb_ge. lia.
Qed.

Lemma max_of_ascending {A} (key : A → Z) l m : (∀ x, x ∈ l → key x ≤ m) → 0 ≤ m → (l ≠ [] → ∃ x, x ∈ l ∧ key x = m) → (l = [] → m = 0) →
  foldr (λ x n, Z.max (key x) n) 0 l = m.
Proof.
  intros Hle Hm Hex Hnil.
  assert (∀ k, (∀ x, x ∈ k → key x ≤ m) → foldr (λ x n, Z.max (key x) n) 0 k ≤ m ∧ 0 ≤ foldr (λ x n, Z.max (key x) n) 0 k ∧
    ∀ x, x ∈ k → key x ≤ foldr (λ x n, Z.max (key x) n) 0 k) as Hall.
  { intros k. induction k as [|y k IH]; intros Hk; cbn.
    - split_and!; [lia..|]. by intros x ?%not_elem_of_nil.
    - destruct IH as (H1 & H2 & H3); [intros x Hx; apply Hk; by constructor|].
      specialize (Hk y ltac:(constructor)). split_and!; [lia..|].
      intros x [->|Hx]%elem_of_cons; [lia|]. specialize (H3 x Hx). lia. }
  destruct (Hall l Hle) as (H1 & H2 & H3). destruct l as [|y l]; [rewrite Hnil by done; done|].
  destruct Hex as (x & Hx & He); [done|]. specialize (H3 x Hx). lia.
Qed.

Lemma table_stream reg t l id : table_log reg t l →
  Forall2 (scans reg) (bfilter (in_row_stream id) t) (stream_of id l).
Proof.
  intros [Hs _]. eapply Forall2_bfilter; [|exact Hs]. intros r env H. unfold in_row_stream, in_stream.
  by destruct (scans_fields _ _ _ H) as [-> _].
Qed.

(** The version is the number of events of the stream. *)
Lemma select_version_spec reg t l id : table_log reg t l → select_version id t = zlen (stream_of id l).
Proof.
  intros Ht. pose proof (table_stream _ _ _ id Ht) as HF. destruct Ht as [_ [_ _ Hnum]].
  unfold select_version.
  assert (∀ r, r ∈ bfilter (in_row_stream id) t → ∃ i, bfilter (in_row_stream id) t !! i = Some r ∧ stream_position r = Z.of_nat (S i)) as Hpos.
  { intros r [i Hi]%list_elem_of_lookup. exists i. split; [done|].
    destruct (Forall2_lookup_l _ _ _ _ _ HF Hi) as (env & He & [_ _ _ ->]). by eapply Hnum. }
  rewrite <- (Forall2_zlen _ _ _ HF). apply max_of_ascending.
  - intros r Hr. destruct (Hpos r Hr) as (i & Hi & ->). apply lookup_lt_Some in Hi. unfold zlen. lia.
  - apply zlen_nonneg.
  - intros Hne. destruct (bfilter (in_row_stream id) t) as [|r0 k] eqn:Hk; [done|].
    destruct (lookup_lt_is_Some_2 (r0 :: k) (length k)) as [r Hr]; [cbn; lia|].
    exists r. split; [by eapply list_elem_of_lookup_2|]. destruct (Forall2_lookup_l _ _ _ _ _ HF Hr) as (env & He & [_ _ _ ->]).
    rewrite (Hnum _ _ _ He), zlen_cons. unfold zlen. lia.
  - by intros ->.
Qed.

(** The positions of a stream ascend by one. *)
Lemma stream_positions reg t l id : table_log reg t l →
  StronglySorted (λ a b, stream_position a < stream_position b) (bfilter (in_row_stream id) t).
Proof.
  intros Ht. pose proof (table_stream _ _ _ id Ht) as HF. destruct Ht as [_ [_ _ Hnum]].
  assert (∀ i r, bfilter (in_row_stream id) t !! i = Some r → stream_position r = Z.of_nat (S i)) as Hpos.
  { intros i r Hi. destruct (Forall2_lookup_l _ _ _ _ _ HF Hi) as (env & He & [_ _ _ ->]). by eapply Hnum. }
  clear HF Hnum. revert Hpos. generalize (bfilter (in_row_stream id) t) as k. intros k.
  induction k as [|r k IH] using rev_ind; intros Hpos; [constructor|]. apply StronglySorted_app. split_and!.
  - intros x y [i Hi]%list_elem_of_lookup ->%list_elem_of_singleton.
    rewrite (Hpos i x) by (by apply lookup_app_l_Some). rewrite (Hpos (length k) r) by (apply lookup_snoc_Some; by right).
    apply lookup_lt_Some in Hi. lia.
  - apply IH. intros i x Hi. apply Hpos. by apply lookup_app_l_Some.
  - repeat constructor.
Qed.

Lemma drop_ascending (P : Z → bool) n (k : list (row U Ts)) :
  (∀ i r, k !! i = Some r → P (stream_position r) = (n <=? Z.of_nat i)) → 0 ≤ n →
  bfilter (λ r, P (stream_position r)) k = drop (Z.to_nat n) k.
Proof.
  intros HP Hn. rewrite <- (take_drop (Z.to_nat n) k) at 1. rewrite bfilter_app, bfilter_none, bfilter_all; [done|..].
  - apply Forall_forall. intros r [i Hi]%list_elem_of_lookup. rewrite lookup_drop in Hi. rewrite (HP _ _ Hi).
    apply Z.leb_le. lia.
  - apply Forall_forall. intros r [i Hi]%list_elem_of_lookup. pose proof (lookup_lt_Some _ _ _ Hi) as Hl.
    rewrite length_take in Hl. rewrite lookup_take_lt in Hi by lia. rewrite (HP _ _ Hi). apply Z.leb_gt. lia.
Qed.

(** A load reads the stream after the [n]-th event. *)
Lemma select_stream_after_spec reg t l id from : table_log reg t l →
  scan_rows C reg (select_stream_after id from t) = Ok (drop (Z.to_nat from) (stream_of id l)).
Proof.
  intros Ht. pose proof (stream_positions _ _ _ id Ht) as Hsort. pose proof (table_stream _ _ _ id Ht) as HF.
  destruct Ht as [_ [_ _ Hnum]]. unfold select_stream_after, order_by.
  assert (bfilter (λ r, in_row_stream id r && (from <? stream_position r)) t
    = drop (Z.to_nat from) (bfilter (in_row_stream id) t)) as ->.
  { rewrite <- (bfilter_bfilter (λ r, from <? stream_position r) (in_row_stream id)).
    replace (Z.to_nat from) with (Z.to_nat (Z.max 0 from)) by lia.
    apply (drop_ascending (λ z, from <? z)); [|lia]. intros i r Hi.
    destruct (Forall2_lookup_l _ _ _ _ _ HF Hi) as (env & He & [_ _ _ ->]). rewrite (Hnum _ _ _ He).
    destruct (Z.ltb_spec from (Z.of_nat (S i))), (Z.leb_spec (Z.max 0 from) (Z.of_nat i)); lia. }
  rewrite sort_slice_id; [by eapply scan_rows_ok, Forall2_drop|].
  rewrite <- (take_drop (Z.to_nat from) (bfilter _ t)) in Hsort. apply StronglySorted_app_1_r in Hsort.
  eapply StronglySorted_impl; [|exact Hsort]. intros a b H. cbn in *. apply Z.ltb_ge. lia.
Qed.

Lemma select_stream_spec reg t l id : table_log reg t l →
  scan_rows C reg (select_stream id t) = Ok (stream_of id l).
Proof.
  intros Ht. pose proof (table_stream _ _ _ id Ht) as HF. unfold select_stream, order_by.
  rewrite sort_slice_id; [by eapply scan_rows_ok|]. eapply StronglySorted_impl; [|by eapply stream_positions].
  intros a b H. cbn in *. apply Z.ltb_ge. lia.
Qed.

Lemma select_exists_spec reg t l id : table_log reg t l → select_exists id t = negb (zlen (stream_of id l) =? 0).
Proof.
  intros Ht. pose proof (table_stream _ _ _ id Ht) as HF. unfold select_exists. rewrite <- (Forall2_zlen _ _ _ HF).
  clear. induction t as [|r t IH]; [done|]. cbn. destruct (in_row_stream id r); cbn; [|done].
  rewrite zlen_cons. pose proof (zlen_nonneg (bfilter (in_row_stream id) t)). symmetry. apply negb_true_iff, Z.eqb_neq. lia.
Qed.

Lemma select_correlation_spec reg t l id : table_log reg t l →
  scan_rows C reg (select_correlation id t) = Ok (bfilter (λ env, bool_decide (CorrelationID env = id)) l).
Proof.
  intros [HF Ho]. pose proof (scans_sorted _ _ _ HF (ordered_positions _ Ho)) as Hs. unfold select_correlation.
  rewrite order_by_id_ascending by (by apply StronglySorted_bfilter). eapply scan_rows_ok, Forall2_bfilter; [|exact HF].
  intros r env H. cbn. by destruct (scans_fields _ _ _ H) as [_ ->].
Qed.

Lemma select_head_spec reg t l : table_log reg t l →
  (∀ env, env ∈ l → GlobalPosition env ≤ select_head t) ∧ 0 ≤ select_head t ≤ max_int64 ∧
  (0 < select_head t → ∃ env, env ∈ l ∧ GlobalPosition env = select_head t).
Proof.
  intros [HF Ho]. unfold select_head.
  assert (∀ env, env ∈ l → 0 < GlobalPosition env ≤ max_int64) as Hb by apply Ho. clear Ho.
  induction HF as [|r env t l [_ _ Hid _] HF IH]; cbn.
  - split_and!; [by intros env ?%not_elem_of_nil|lia|unfold max_int64; lia|lia].
  - destruct IH as (H1 & H2 & H3); [intros e He; apply Hb; by constructor|].
    pose proof (Hb env ltac:(constructor)) as Hbe. rewrite Hid. split_and!; [|lia|lia|].
    + intros e [->|He]%elem_of_cons; [lia|]. specialize (H1 e He). lia.
    + intros _. destruct (Z.max_spec (GlobalPosition env) (foldr (λ r m, Z.max (row_id r) m) 0 t)) as [[Hlt ->]|[Hle ->]].
      * destruct H3 as (e & He & <-); [lia|]. exists e. split; [by constructor|done].
      * exists env. split; [constructor|done].
Qed.
End reading.

(** *** Pages *)
Section pages.
Context `{J : JSON} {U Ts : Type} (C : columns U Ts) (starts : string → string → bool).
Implicit Types (r : row U Ts) (t : list (row U Ts)).

(** The prefixes of the query mean in SQL what they mean in Go. *)
Definition literal_prefixes (opts : ReadOptions) : Prop :=
  ∀ p s, p ∈ StreamPrefixes opts → starts p s = String.prefix p s.

Lemma scans_match reg opts r env : literal_prefixes opts → scans C reg r env →
  row_matches starts opts r = env_matches opts env.
Proof.
  intros Hp Hr. destruct (scans_fields _ _ _ _ Hr) as [Hst _]. destruct Hr as [_ Ht _ _].
  unfold row_matches, env_matches. rewrite Ht. f_equal. f_equal. apply eq_true_iff_eq. rewrite !existsb_elem.
  setoid_rewrite Hst. split; intros (p & Hin & Hx); exists p; (split; [done|]); by rewrite Hp in *.
Qed.

(** Rows that were committed after the head was read lie behind it. *)
Definition later_rows t t' : Prop := ∃ k, t' = t ++ k.

Lemma select_page_ok reg t l t' l' after opts limit : literal_prefixes opts → later_rows t t' →
  table_log C reg t l → table_log C reg t' l' →
  ∃ evs, scan_rows C reg (select_page starts after (select_head t) opts limit t') = Ok evs ∧
    evs = take (Z.to_nat limit) (bfilter (λ env, (after <? GlobalPosition env) && env_matches opts env) l).
Proof.
  intros Hp [k ->] Ht Ht'. pose proof (select_head_spec _ _ _ _ Ht) as (Hle & Hb & Hex). destruct Ht as [HF Ho], Ht' as [HF' Ho'].
  assert (bfilter (λ r, (after <? row_id r) && (row_id r <=? select_head t) && row_matches starts opts r) (t ++ k)
    = bfilter (λ r, (after <? row_id r) && row_matches starts opts r) t) as Hrows.
  { rewrite bfilter_app. pose proof (scans_sorted _ _ _ _ HF' (ordered_positions _ Ho')) as Hs.
    apply StronglySorted_app in Hs as (Hab & Hs1 & Hs2).
    rewrite (bfilter_none _ k), app_nil_r.
    - apply bfilter_ext. intros r [i Hi]%list_elem_of_lookup. destruct (Forall2_lookup_l _ _ _ _ _ HF Hi) as (env & He & [_ _ Hid _]).
      specialize (Hle env ltac:(by eapply list_elem_of_lookup_2)). rewrite Hid.
      rewrite (proj2 (Z.leb_le (GlobalPosition env) _)) by done. by rewrite andb_true_r.
    - apply Forall_forall. intros r Hr. apply andb_false_iff. left. apply andb_false_iff. right. apply Z.leb_gt.
      destruct (Z.eq_dec (select_head t) 0) as [H0|H0].
      + apply Forall2_app_inv_l in HF' as (l1 & l2 & _ & H2 & ->). apply list_elem_of_lookup in Hr as [i Hi].
        destruct (Forall2_lookup_l _ _ _ _ _ H2 Hi) as (env & He & [_ _ -> _]).
        pose proof (ordered_positive _ Ho' env ltac:(apply elem_of_app; right; by eapply list_elem_of_lookup_2)). lia.
      + destruct Hex as (env & He & <-); [lia|]. apply list_elem_of_lookup in He as [i Hi].
        destruct (Forall2_lookup_r _ _ _ _ _ HF Hi) as (r' & Hr' & [_ _ <- _]). apply Hab; [by eapply list_elem_of_lookup_2|done]. }
  eexists. split; [|done]. unfold select_page. rewrite Hrows, order_by_id_ascending.
  - eapply scan_rows_ok. apply Forall2_take. eapply Forall2_bfilter; [|exact HF]. intros r env Hr. cbn.
    by rewrite (scans_match _ _ _ _ Hp Hr), (sc_id _ _ _ _ Hr).
  - apply StronglySorted_bfilter. by eapply scans_sorted, Ho.
Qed.

Lemma sql_ReadAll_page reg t l t' l' after opts : literal_prefixes opts → later_rows t t' →
  table_log C reg t l → table_log C reg t' l' → 0 ≤ after ≤ max_int64 →
  ∃ res, sql_ReadAll C starts None None reg after opts t t' = Ok res ∧ page_of l after opts res.
Proof.
  intros Hp Hk Ht Ht' Ha. destruct (select_head_spec _ _ _ _ Ht) as (Hle & Hb & Hex). pose proof Ht as [_ Ho].
  unfold sql_ReadAll. destruct (Z.ltb_spec max_int64 after); [lia|].
  rewrite u64_small by (unfold is_u64; unfold max_int64, two64 in *; lia).
  destruct (Z.leb_spec (select_head t) after) as [Hend|Hmore].
  { eexists. split; [done|]. split; cbn [rr_Events rr_Next rr_AtEnd]; [|lia|done| |unfold zlen; cbn; lia].
    - symmetry. apply bfilter_none, Forall_forall. intros env He. specialize (Hle env He).
      destruct (Z.ltb_spec after (GlobalPosition env)); [lia|done].
    - split; [|done]. intros _ env He. specialize (Hle env He). lia. }
  destruct (select_page_ok reg t l t' l' after opts (page_limit opts) Hp Hk Ht Ht') as (evs & -> & Hevs).
  set (F := bfilter (λ env, (after <? GlobalPosition env) && env_matches opts env) l) in *.
  assert (StronglySorted (λ a b, GlobalPosition a < GlobalPosition b) F) as HsF
    by (apply StronglySorted_bfilter, Ho).
  assert (0 < page_limit opts) as Hlim by (unfold page_limit; destruct (Z.leb_spec (Limit opts) 0); lia).
  assert (zlen evs ≤ page_limit opts) as Hlen by (rewrite Hevs; unfold zlen; rewrite length_take; lia).
  assert (0 < Limit opts → zlen evs ≤ Limit opts) as Hlimit
    by (unfold page_limit in Hlen; destruct (Z.leb_spec (Limit opts) 0); lia).
  assert (zlen evs ≠ page_limit opts → page_of l after opts (mkReadResult evs (Z.max after (select_head t)) true)) as Hpart.
  { intros Hne. rewrite Z.max_r by lia. split; cbn [rr_Events rr_Next rr_AtEnd]; [|lia|done|done|done].
    assert (evs = F) as ->.
    { rewrite Hevs. apply take_ge. rewrite Hevs in Hne, Hlen. unfold zlen in *. rewrite length_take in Hne, Hlen. lia. }
    unfold F. apply bfilter_ext. intros env He. rewrite (proj2 (Z.leb_le (GlobalPosition env) _)) by auto. by rewrite andb_true_r. }
  destruct (last evs) as [env|] eqn:Hlast.
  2: { eexists. split; [done|]. apply Hpart. apply last_None in Hlast. subst evs. rewrite Hlast, zlen_nil. lia. }
  destruct (Z.eqb_spec (zlen evs) (page_limit opts)) as [Hfull|Hne]; [|eexists; split; [done|by apply Hpart]].
  eexists. split; [done|]. assert (env ∈ F) as HinF.
  { apply last_Some_elem_of in Hlast. rewrite Hevs in Hlast. rewrite <- (take_drop (Z.to_nat (page_limit opts)) F); by apply elem_of_app; left. }
  unfold F in HinF. apply elem_of_bfilter in HinF as [Hm Hin]. apply andb_true_iff in Hm as [Hgt%Z.ltb_lt Hm].
  pose proof (ordered_positive _ Ho env Hin).
  split; cbn [rr_Events rr_Next rr_AtEnd]; [|lia| | |done].
  - rewrite Hevs in Hlast |- *. rewrite (take_ascending GlobalPosition _ F env HsF Hlast). unfold F.
    rewrite bfilter_bfilter. apply bfilter_ext. intros e _. cbn.
    by destruct (after <? GlobalPosition e), (GlobalPosition e <=? GlobalPosition env), (env_matches opts e).
  - intros _. exists env. split; [done|lia].
  - rewrite Z.leb_le. split.
    + intros Hn e He. specialize (Hle e He). lia.
    + intros Hall. destruct Hex as (e & He & <-); [lia|]. by apply Hall.
Qed.
End pages.

(** Paging reads exactly the matching events after the start, although the
    positions have gaps. *)
Lemma read_pages_ordered `{GR : GlobalReader R} (r : R) l opts : ordered l →
  (∀ after, 0 ≤ after ≤ max_int64 → ∃ res, reader_ReadAll r after opts = Ok res ∧ page_of l after opts res) →
  ∀ fuel after, 0 ≤ after ≤ max_int64 →
  zlen (bfilter (λ env, after <? GlobalPosition env) l) < Z.of_nat fuel →
  read_pages fuel r after opts =
  Some (Ok (bfilter (λ env, (after <? GlobalPosition env) && env_matches opts env) l)).
Proof.
  intros Ho Hr fuel. induction fuel as [|fuel IH]; intros after Ha Hf; [pose proof (zlen_nonneg (bfilter (λ env, after <? GlobalPosition env) l)); lia|]. cbn [read_pages].
  destruct (Hr after Ha) as (res & -> & [Hev Hnext Hprog Hend _]).
  destruct (rr_AtEnd res) eqn:HE.
  - do 2 f_equal. rewrite Hev. apply bfilter_ext. intros env He. pose proof (proj1 Hend eq_refl env He).
    rewrite (proj2 (Z.leb_le _ _)) by done. by rewrite andb_true_r.
  - destruct (Hprog eq_refl) as (env & Hin & Hpos). rewrite IH; [|lia|].
    + do 2 f_equal. rewrite Hev. apply split_ascending; [apply Ho|lia].
    + pose proof (bfilter_length_lt (λ e, rr_Next res <? GlobalPosition e) (λ e, after <? GlobalPosition e) l env) as Hlt.
      unfold zlen in *. specialize (Hlt ltac:(intros e _; rewrite !Z.ltb_lt; lia) Hin
        ltac:(apply Z.ltb_lt; lia) ltac:(apply Z.ltb_ge; lia)). lia.
Qed.

(** ** Appending rows *)
Lemma ordered_snoc l env : ordered l → Version env = zlen (stream_of (StreamID env) l) + 1 →
  (∀ e, e ∈ l → GlobalPosition e < GlobalPosition env) → 0 < GlobalPosition env ≤ max_int64 →
  ordered (l ++ [env]).
Proof.
  intros [Hs Hp Hn] Hv Hlt Hpos. split.
  - apply StronglySorted_app. split_and!; [|done|repeat constructor].
    intros a b Ha ->%list_elem_of_singleton. by apply Hlt.
  - intros e [He|He%list_elem_of_singleton]%elem_of_app; [by apply Hp|by subst].
  - intros id i e. rewrite stream_of_app. cbn. unfold in_stream. case_bool_decide as Hid; [|rewrite app_nil_r; apply Hn].
    intros [[_ Hi]|[-> He]]%lookup_snoc_Some; [by eapply Hn|]. subst. rewrite Hv. unfold zlen. lia.
Qed.

Lemma ordered_room l m : ordered l → (∀ e, e ∈ l → GlobalPosition e ≤ m) → 0 ≤ m → zlen l ≤ m.
Proof.
  intros [Hs Hp _] Hm H0.
  assert (∀ k, StronglySorted (λ a b, GlobalPosition a < GlobalPosition b) k → (∀ e, e ∈ k → 0 < GlobalPosition e) →
    ∀ n, 0 ≤ n → (∀ e, e ∈ k → GlobalPosition e ≤ n) → zlen k ≤ n) as Hk; [|apply Hk; [done| |done|done]; intros e He; by apply Hp].
  intros k. induction k as [|x k IH] using rev_ind; intros Hsk Hpk n Hn Hnk; [done|].
  apply StronglySorted_app in Hsk as (Hab & Hsk & _).
  assert (0 < GlobalPosition x) as Hx by (apply Hpk; set_solver).
  assert (GlobalPosition x ≤ n) by (apply Hnk; set_solver).
  assert (zlen k ≤ GlobalPosition x - 1) as Hle.
  { apply IH; [done|intros e He; apply Hpk; set_solver|lia|]. intros e He. specialize (Hab e x He ltac:(set_solver)). lia. }
  rewrite zlen_app, zlen_cons, zlen_nil. lia.
Qed.

Section appending.
Context `{J : JSON, !JSONLaws J} {U Ts : Type} (C : columns U Ts) `{!ColumnLaws C}.

(** What a load returns for a saved envelope: its time is the column's. *)
Definition sql_stored (now : time) (version position : Z) (env : Envelope) : Envelope :=
  set_occurred (column_time C (OccurredAt (stored now version position env))) (stored now version position env).

Lemma row_scans reg now rec env v g :
  StreamID (rec_env rec) = StreamID env → (∀ v g, decodes reg (numbered_record v g rec) (stored now v g env)) →
  0 ≤ v ≤ max_int64 → 0 ≤ g ≤ max_int64 →
  scans C reg (row_of C g (StreamID env) v rec) (sql_stored now v g env).
Proof.
  intros Hst Hdec Hv Hg. destruct (Hdec v g) as [Henv Hty]. cbn in Hty.
  split; [|exact Hty|done|done]. unfold envelope in Henv. cbn in Henv. unfold scanEnvelope. cbn.
  rewrite column_id. destruct (DecodeEvent (rec_name rec) (rec_payload rec) reg) as [ev|]; [|done].
  destruct (DecodeMetadata (rec_metadata rec)) as [md|]; [|done].
  apply (f_equal (λ r, match r with Ok e => e | Fail _ => env end)) in Henv.
  unfold sql_stored, column_time. rewrite <- Henv. unfold set_occurred. cbn. rewrite <- Hst.
  by rewrite !u64_small by (unfold is_u64, max_int64, two64 in *; lia).
Qed.

(** One inserted row. *)
Lemma table_log_insert reg now t l rec env g :
  table_log C reg t l → StreamID (rec_env rec) = StreamID env →
  (∀ v g, decodes reg (numbered_record v g rec) (stored now v g env)) →
  (∀ e, e ∈ l → GlobalPosition e < g) → 0 < g ≤ max_int64 →
  let v := zlen (stream_of (StreamID env) l) + 1 in
  table_log C reg (t ++ [row_of C g (StreamID env) v rec]) (l ++ [sql_stored now v g env]).
Proof.
  intros [HF Ho] Hst Hdec Hlt Hg v.
  assert (zlen l ≤ g - 1) by (eapply ordered_room; [done|intros e He; specialize (Hlt e He); lia|lia]).
  pose proof (zlen_stream_of (StreamID env) l). split.
  - apply Forall2_app; [done|]. constructor; [|constructor]. apply row_scans; [done..|subst v; lia|lia].
  - by apply ordered_snoc.
Qed.

(** The UNIQUE constraint on the stream and the position. *)
Definition taken (stream : string) (pos : Z) (t : list (row U Ts)) : bool :=
  existsb (λ r, bool_decide (stream_id r = stream) && (stream_position r =? pos)) t.

Lemma next_not_taken reg t l id : table_log C reg t l → taken id (zlen (stream_of id l) + 1) t = false.
Proof.
  intros Ht. apply not_true_iff_false. unfold taken. rewrite existsb_elem. intros (r & Hr & Hb).
  apply andb_true_iff in Hb as [Hid%bool_decide_eq_true Hpos%Z.eqb_eq].
  pose proof (table_stream _ _ _ _ id Ht) as HF.
  assert (r ∈ bfilter (in_row_stream id) t) as Hin by (apply elem_of_bfilter; split; [by apply bool_decide_eq_true|done]).
  apply list_elem_of_lookup in Hin as [i Hi]. destruct (Forall2_lookup_l _ _ _ _ _ HF Hi) as (env & He & [_ _ _ Hv]).
  rewrite (ordered_streams _ (tl_ordered _ _ _ _ Ht) _ _ _ He) in Hv. apply lookup_lt_Some in He. unfold zlen in Hpos. lia.
Qed.
End appending.
