(* ===== verification/SqliteStore.v ===== *)
(** * The SQLite event store ([sqlite/eventstore.go])

    [Open] gives the database one connection and begins every transaction
    with the write lock, so a transaction of [Save] is one change of the
    database; a transaction that does not commit leaves it as it was, with the
    counter of AUTOINCREMENT.  Any call of the database may fail: which ones
    do is an argument of the operations. *)
From S2P Require Import Prelude Core Iter Registry Context Log MemStore SqlEvents.
From Stdlib Require Import Strings.Ascii.

(** ** Columns *)

Definition UnixNano (t : time) : Z := int64 (t - unix_epoch).
Definition time_Unix (n : Z) : time := n + unix_epoch.

(** google/uuid: parsing what was printed. *)
Class UUIDParse : Type := uuid_Parse : string → result error uuid.

Class UUIDTextLaws {US : UUIDString} (UP : UUIDParse) : Prop := {
  uuid_roundtrip u : uuid_Parse (uuid_String u) = Ok u;
}.

Definition sqlite_columns `{US : UUIDString, UP : UUIDParse} : columns string Z := mkColumns uuid_String uuid_Parse UnixNano time_Unix.

#[export] Instance sqlite_column_laws `{US : UUIDString, UP : UUIDParse, !UUIDTextLaws UP} : ColumnLaws sqlite_columns.
Proof. split. apply uuid_roundtrip. Qed.

(** A time an [int64] of nanoseconds can hold, from 1677 to 2262. *)
Definition in_nanos (t : time) : Prop := min_int64 ≤ t - unix_epoch ≤ max_int64.

Lemma sqlite_time `{US : UUIDString, UP : UUIDParse} t : in_nanos t → column_time sqlite_columns t = t.
Proof. unfold in_nanos, column_time, sqlite_columns, UnixNano, time_Unix; cbn. intros H. rewrite int64_small; lia. Qed.

(** ** [substr(stream_id, 1, n)]

    On TEXT, substr counts UTF-8 characters: a byte from 0xc0 up begins a
    character that the continuation bytes after it, 0x80 to 0xbf, belong to. *)
Definition byte (c : ascii) : Z := Z.of_nat (nat_of_ascii c).

Fixpoint utf8_take (n : nat) (in_char : bool) (s : string) : string :=
  match s with
  | EmptyString => EmptyString
  | String c s =>
    if in_char && ((128 <=? byte c) && (byte c <? 192)) then String c (utf8_take n true s)
    else match n with
         | O => EmptyString
         | S n => String c (utf8_take n (192 <=? byte c) s)
         end
  end.

(** [substr(stream_id, 1, ?) = ?] with [len(p)] and [p] *)
Definition sqlite_starts (p s : string) : bool := bool_decide (utf8_take (String.length p) false s = p).

Fixpoint is_ascii (s : string) : bool :=
  match s with EmptyString => true | String c s => (byte c <? 128) && is_ascii s end.

(** For an ASCII prefix the comparison is [strings.HasPrefix]. *)
Lemma sqlite_starts_ascii p s : is_ascii p = true → sqlite_starts p s = String.prefix p s.
Proof.
  unfold sqlite_starts. revert s. induction p as [|c p IH]; intros s Hp.
  { destruct s; cbn; by rewrite bool_decide_true. }
  cbn in Hp. apply andb_true_iff in Hp as [Hc%Z.ltb_lt Hp].
  destruct s as [|d s]; [cbn; by rewrite bool_decide_false|].
  cbn [String.length utf8_take andb String.prefix]. destruct (ascii_dec c d) as [->|Hne].
  - rewrite <- (IH s Hp). destruct (Z.leb_spec 192 (byte d)); [lia|]. apply bool_decide_ext. split; [by intros [=]|by intros ->].
  - apply bool_decide_eq_false. congruence.
Qed.

(** The characters of a string, by the same rule. *)
Fixpoint utf8_length (in_char : bool) (s : string) : nat :=
  match s with
  | EmptyString => O
  | String c s =>
    if in_char && ((128 <=? byte c) && (byte c <? 192)) then utf8_length true s
    else S (utf8_length (192 <=? byte c) s)
  end.

Lemma utf8_take_longer p s n b : (utf8_length b p < n)%nat → s ≠ "" →
  (String.length p < String.length (utf8_take n b (p +:+ s)))%nat.
Proof.
  intros Hn Hs. revert n b Hn. induction p as [|c p IH]; intros n b Hn; cbn [utf8_length] in Hn.
  - destruct s as [|d s]; [done|]. change ("" +:+ String d s) with (String d s). cbn. destruct (b && _); cbn; [lia|]. destruct n; cbn; lia.
  - change (String c p +:+ s) with (String c (p +:+ s)). cbn [utf8_take]. destruct (b && _).
    + cbn. specialize (IH n true Hn). lia.
    + destruct n as [|n]; [lia|]. cbn. specialize (IH n (192 <=? byte c) ltac:(lia)). lia.
Qed.

(** A prefix with a character of several bytes is compared with too many
    characters of the stream, and never found in a longer one. *)
Lemma sqlite_starts_misses p s : (utf8_length false p < String.length p)%nat → s ≠ "" →
  sqlite_starts p (p +:+ s) = false ∧ String.prefix p (p +:+ s) = true.
Proof.
  intros Hp Hs. split.
  - unfold sqlite_starts. apply bool_decide_eq_false. intros He.
    pose proof (utf8_take_longer p s (String.length p) false Hp Hs) as Hl. rewrite He in Hl. lia.
  - clear Hp. induction p as [|c p IH]; [by destruct s|].
    change (String c p +:+ s) with (String c (p +:+ s)). cbn [String.prefix]. by destruct (ascii_dec c c).
Qed.

(** ** The database *)
Record sqlite : Type := mkSqlite {
  sq_rows : list (row string Z);
  sq_seq : Z;  (* sqlite_sequence *)
}.

Definition empty_sqlite : sqlite := mkSqlite [] 0.

(** The calls of the database, and the errors they return. *)
Inductive db_call : Type :=
| BeginTx
| QueryVersion
| InsertEvent (i : nat)
| CommitTx
| QueryHead
| QueryRows.

Definition faults : Type := db_call → option error.
Definition no_faults : faults := λ _, None.

Inductive db_error : Type :=
| UniqueViolation
| OtherDb (e : error).

Section store.
Context `{J : JSON} `{US : UUIDString, UP : UUIDParse}.

(** [INSERT INTO events ... RETURNING id] *)
Definition insert_event (streamID : string) (pos : Z) (rec : record) (d : sqlite) : result db_error (Z * sqlite) :=
  if taken streamID pos (sq_rows d) then Fail UniqueViolation
  else if max_int64 <=? sq_seq d then Fail (OtherDb (New "database or disk is full"))
  else let id := sq_seq d + 1 in Ok (id, mkSqlite (sq_rows d ++ [row_of sqlite_columns id streamID pos rec]) id).

(** The loop over the rows, from the [i]-th. *)
Fixpoint insert_events (fault : faults) (streamID : string) (revision : StreamState) (currentVersion : Z)
    (i : nat) (rows : list record) (lastID : Z) (d : sqlite) : result error (Z * sqlite) :=
  match rows with
  | [] => Ok (lastID, d)
  | rec :: rows =>
    let pos := int64 (int64 currentVersion + Z.of_nat i + 1) in
    match match fault (InsertEvent i) with
          | Some e => Fail (OtherDb e)
          | None => insert_event streamID pos rec d
          end with
    | Fail UniqueViolation =>
      Fail (StreamRevisionConflictError streamID (Some revision) (Some (Revision currentVersion)))
    | Fail (OtherDb e) => Fail (Errorf "save events to stream: insert event" e)
    | Ok (id, d) => insert_events fault streamID revision currentVersion (S i) rows id d
    end
  end.

Definition check_stream (streamID : string) (currentVersion : Z) (revision : StreamState) : option error :=
  match revision with
  | Any => None
  | NoStream => if negb (currentVersion =? 0) then Some (Errorf "already exists" (Sentinel ErrStreamExists)) else None
  | StreamExists => if currentVersion =? 0 then Some (Errorf "does not exist" (Sentinel ErrStreamNotFound)) else None
  | Revision rev =>
    if negb (currentVersion =? rev)
    then Some (StreamRevisionConflictError streamID (Some revision) (Some (Revision currentVersion))) else None
  | OtherState _ => Some (Errorf "unsupported revision type" (Sentinel ErrInvalidRevision))
  end.

(** [Save].  The loops that check and encode the batch are those of the
    in-memory store. *)
Definition sqlite_Save (fault : faults) (now : time) (reg : Registry) (evs : list Envelope) (revision : StreamState)
    (d : sqlite) : AppendResult * option error * sqlite :=
  match evs with
  | [] => (mkAppendResult true "" 0 0, None, d)
  | env0 :: _ =>
    let streamID := StreamID env0 in
    let failed e := (failed_append streamID, Some e, d) in
    match validate streamID evs with
    | Some e => failed e
    | None =>
      match encode now reg evs with
      | Fail e => failed e
      | Ok rows =>
        match fault BeginTx with
        | Some e => failed (Errorf "save events to stream: begin tx" e)
        | None =>
          match fault QueryVersion with
          | Some e => failed (Errorf "save events to stream: get stream version" e)
          | None =>
            let currentVersion := select_version streamID (sq_rows d) in
            match check_stream streamID currentVersion revision with
            | Some e => failed e
            | None =>
              match insert_events fault streamID revision currentVersion 0 rows 0 d with
              | Fail e => failed e
              | Ok (lastID, d') =>
                match fault CommitTx with
                | Some e => failed (Errorf "save events to stream: commit" e)
                | None => (mkAppendResult true streamID (u64 (currentVersion + zlen evs)) (u64 lastID), None, d')
                end
              end
            end
          end
        end
      end
    end
  end.

(** ** Loads *)
Definition query (fault : faults) (reg : Registry) (rows : list (row string Z)) : result error (list Envelope) :=
  match fault QueryRows with Some e => Fail e | None => scan_rows sqlite_columns reg rows end.

Definition sqlite_LoadStream (fault : faults) (reg : Registry) (id : string) (d : sqlite) :
    result error (Iterator nat Envelope) :=
  match query fault reg (select_stream id (sq_rows d)) with
  | Fail e => Fail (Errorf "load stream" e)
  | Ok [] => Fail (Errorf "load stream" (Sentinel ErrStreamNotFound))
  | Ok envs => Ok (NewSliceIterator envs)
  end.

Definition sqlite_LoadStreamFrom (fault : faults) (reg : Registry) (id : string) (version : StreamState) (d : sqlite) :
    outcome (result error (Iterator nat Envelope)) :=
  match version with
  | NoStream =>
    Returns match fault QueryRows with
            | Some e => Fail (Errorf "load stream" (Errorf "check existence" e))
            | None =>
              if select_exists id (sq_rows d)
              then Fail (Errorf "load stream: expected empty stream" (Sentinel ErrStreamExists))
              else Ok (NewSliceIterator [])
            end
  | StreamExists =>
    Returns match query fault reg (select_stream id (sq_rows d)) with
            | Fail e => Fail (Errorf "load stream" e)
            | Ok [] => Fail (Errorf "load stream: expected existing stream" (Sentinel ErrStreamNotFound))
            | Ok envs => Ok (NewSliceIterator envs)
            end
  | Any =>
    Returns match query fault reg (select_stream id (sq_rows d)) with
            | Fail e => Fail (Errorf "load stream" e)
            | Ok envs => Ok (NewSliceIterator envs)
            end
  | _ =>
    match ToRawInt64 version with
    | Panics p => Panics p
    | Returns from =>
      Returns match query fault reg (select_stream_after id from (sq_rows d)) with
              | Fail e => Fail (Errorf "load stream" e)
              | Ok envs => Ok (NewSliceIterator envs)
              end
    end
  end.

Definition sqlite_LoadCorrelation (fault : faults) (reg : Registry) (id : string) (d : sqlite) :
    result error (Iterator nat Envelope) :=
  if bool_decide (id = "") then Fail (Errorf "load correlation" (Sentinel ErrEmptyCorrelationID))
  else match query fault reg (select_correlation id (sq_rows d)) with
       | Fail e => Fail (Errorf "load correlation" e)
       | Ok envs => Ok (NewSliceIterator envs)
       end.

(** ** Global reads: [page] is the database when the page is read *)
Definition sqlite_ReadAll (fault : faults) (reg : Registry) (after : Z) (opts : ReadOptions) (d page : sqlite) :
    result error ReadResult :=
  sql_ReadAll sqlite_columns sqlite_starts (fault QueryHead) (fault QueryRows) reg after opts (sq_rows d) (sq_rows page).

Definition sqlite_Head (fault : faults) (d : sqlite) : result error Z :=
  match fault QueryHead with Some e => Fail (Errorf "head" e) | None => Ok (u64 (select_head (sq_rows d))) end.

#[export] Instance sqlite_reader (reg : Registry) : GlobalReader sqlite := {
  reader_ReadAll d after opts := sqlite_ReadAll no_faults reg after opts d d;
  reader_Head d := sqlite_Head no_faults d;
}.
End store.

(** ** The database stands for a log *)
Section refinement.
Context `{J : JSON, !JSONLaws J} `{US : UUIDString, UP : UUIDParse, !UUIDTextLaws UP}.
Local Notation C := sqlite_columns.

Record sqlite_log (reg : Registry) (d : sqlite) (l : log) : Prop := {
  sl_rows : Forall2 (scans C reg) (sq_rows d) l;
  sl_numbered : numbered l;
  sl_seq : sq_seq d = zlen l;
  sl_room : zlen l ≤ max_int64;
}.

Lemma sqlite_table reg d l : sqlite_log reg d l → table_log C reg (sq_rows d) l.
Proof. intros [? ? _ ?]. split; [done|by apply numbered_ordered]. Qed.

Lemma empty_sqlite_log reg : sqlite_log reg empty_sqlite [].
Proof. split; [constructor| |done|done]. split; intros; done. Qed.

Definition saved_time (now : time) (env : Envelope) : time := if time_IsZero (OccurredAt env) then now else OccurredAt env.

Lemma sql_stored_nanos now v g env : in_nanos (saved_time now env) → sql_stored C now v g env = stored now v g env.
Proof. intros H. unfold sql_stored. rewrite sqlite_time by done. done. Qed.

(** The insert of one event of the stream. *)
Lemma insert_event_log reg now d l rec env :
  sqlite_log reg d l → zlen l < max_int64 → StreamID (rec_env rec) = StreamID env → in_nanos (saved_time now env) →
  (∀ v g, decodes reg (numbered_record v g rec) (stored now v g env)) →
  let v := zlen (stream_of (StreamID env) l) + 1 in
  ∃ d', insert_event (StreamID env) v rec d = Ok (zlen l + 1, d') ∧
    sqlite_log reg d' (l ++ [stored now v (zlen l + 1) env]).
Proof.
  intros Hl Hroom Hst Hn Hdec v. subst v. pose proof (sqlite_table _ _ _ Hl) as Ht. destruct Hl as [Hrows Hnum Hseq _].
  unfold insert_event. rewrite (next_not_taken C reg _ _ _ Ht), Hseq.
  destruct (Z.leb_spec max_int64 (zlen l)); [lia|]. eexists. split; [done|].
  pose proof (zlen_nonneg l). pose proof (zlen_stream_of (StreamID env) l).
  split; cbn [sq_rows sq_seq]; rewrite ?zlen_app, ?zlen_cons, ?zlen_nil; [|..|lia|lia].
  - apply Forall2_app; [done|]. constructor; [|constructor]. rewrite <- (sql_stored_nanos _ _ _ _ Hn).
    apply row_scans; [apply _|done|done|lia|lia].
  - apply (numbered_stamp now l (StreamID env) [env] Hnum). by intros e ->%list_elem_of_singleton.
Qed.

(** An error of the database, as Save wraps it. *)
Definition db_failure (fault : faults) (e : error) : Prop :=
  ∃ c fe msg, fault c = Some fe ∧ e = Errorf msg fe.

Lemma insert_events_log reg now fault id rev cv recs evs : ∀ (i : nat) lastID d l,
  sqlite_log reg d l → (∀ env, env ∈ evs → StreamID env = id) → Forall (λ env, in_nanos (saved_time now env)) evs →
  Forall2 (λ r env, StreamID (rec_env r) = StreamID env ∧ ∀ v g, decodes reg (numbered_record v g r) (stored now v g env)) recs evs →
  zlen l + zlen evs < max_int64 → 0 ≤ cv → zlen (stream_of id l) = cv + Z.of_nat i →
  match insert_events fault id rev cv i recs lastID d with
  | Ok (lastID', d') =>
    sqlite_log reg d' (l ++ stamp now (zlen (stream_of id l)) (zlen l) evs) ∧
    lastID' = (if bool_decide (evs = []) then lastID else zlen l + zlen evs)
  | Fail e => db_failure fault e
  end.
Proof.
  revert evs. induction recs as [|rec recs IH]; intros evs i lastID d l Hl Hid Hn HF Hroom Hcv Hi;
    inversion HF as [|? env ? evs' [Hst Hdec] HF']; subst; cbn [insert_events].
  { cbn. by rewrite app_nil_r. }
  destruct (fault (InsertEvent i)) as [fe|] eqn:Hf; [by do 3 eexists|].
  assert (StreamID env = id) as Henv by (apply Hid; constructor). inversion_clear Hn as [|? ? Hn1 Hn2].
  pose proof (zlen_stream_of id l). pose proof (zlen_nonneg l). pose proof (zlen_nonneg evs'). rewrite zlen_cons in Hroom.
  rewrite (int64_small cv) by (unfold min_int64; lia). rewrite int64_small by (unfold min_int64; lia).
  destruct (insert_event_log reg now d l rec env Hl ltac:(lia) Hst Hn1 Hdec) as (d' & Hins & Hl').
  rewrite Henv in Hins, Hl'. replace (zlen (stream_of id l) + 1) with (cv + Z.of_nat i + 1) in Hins by lia. rewrite Hins.
  assert (zlen (stream_of id (l ++ [stored now (zlen (stream_of id l) + 1) (zlen l + 1) env])) = zlen (stream_of id l) + 1) as Hz.
  { rewrite stream_of_app, zlen_app. f_equal. unfold stream_of, in_stream; simpl. by rewrite bool_decide_true. }
  specialize (IH evs' (S i) (zlen l + 1) d' _ Hl').
  rewrite zlen_app, zlen_cons, zlen_nil, Hz, <- app_assoc in IH. cbn [stamp].
  rewrite bool_decide_false by done. rewrite zlen_cons.
  destruct (insert_events fault id rev cv (S i) recs (zlen l + 1) d') as [[lastID' d'']|e].
  - destruct IH as [IH1 IH2]; [intros e He; apply Hid; by constructor|done|done|lia|done|lia|].
    cbn in IH1. rewrite Z.add_0_r in IH1. split; [done|]. rewrite IH2. case_bool_decide; [subst evs'; rewrite zlen_nil|]; lia.
  - apply IH; [intros e' He; apply Hid; by constructor|done|done|lia|done|lia].
Qed.

Lemma check_stream_spec id n rev :
  match check_stream id n rev with
  | None => expectation_holds rev n = true
  | Some e => expectation_holds rev n = false ∧ expectation_error rev n e
  end.
Proof. destruct rev; simpl; try done; destruct (n =? _); naive_solver. Qed.

(** What Save promises of a batch, or a failure of the database that changed
    nothing. *)
Definition failed_on_db (fault : faults) (r : AppendResult * option error) : Prop :=
  Successful r.1 = false ∧ ∃ e, r.2 = Some e ∧ db_failure fault e.

Definition op_nanos (op : save_op) : Prop := Forall (λ env, in_nanos (saved_time (so_now op) env)) (so_events op).

Lemma sqlite_Save_step reg fault op d l :
  sqlite_log reg d l → registry_wf (so_reg op) → extends (so_reg op) reg → op_nanos op →
  zlen l + zlen (so_events op) < max_int64 →
  ∃ res e d', sqlite_Save fault (so_now op) (so_reg op) (so_events op) (so_revision op) d = (res, e, d') ∧
    (reports (res, e) (log_save op l).1 ∧ sqlite_log reg d' (log_save op l).2 ∨
     failed_on_db fault (res, e) ∧ d' = d).
Proof.
  destruct op as [now sreg evs rev]; unfold op_nanos, log_save; cbn [so_now so_reg so_events so_revision].
  intros Hl Hwf Hext Hn Hroom. destruct evs as [|env0 evs']; [do 3 eexists; split; [done|by left]|].
  unfold sqlite_Save. set (evs := env0 :: evs') in *.
  assert (∀ res e, Successful res = false → db_failure fault e → failed_on_db fault (res, Some e)) as Hdb by (intros; split; eauto).
  pose proof (validate_spec (StreamID env0) evs) as Hv. pose proof (encode_encodable now sreg evs) as He.
  destruct (validate (StreamID env0) evs) as [e|] eqn:Hval.
  { destruct Hv as [-> Hv]. do 3 eexists. split; [done|]. by left. }
  rewrite Hv, <- He. cbn [negb]. destruct (encode now sreg evs) as [rows|e] eqn:Henc; cbn [negb].
  2: { do 3 eexists. split; [done|]. by left. }
  destruct (fault BeginTx) as [fe|] eqn:Hb; [do 3 eexists; split; [done|]; right; split; [|done]; apply Hdb; [done|by do 3 eexists]|].
  destruct (fault QueryVersion) as [fe|] eqn:Hq; [do 3 eexists; split; [done|]; right; split; [|done]; apply Hdb; [done|by do 3 eexists]|].
  rewrite (select_version_spec C reg _ _ (StreamID env0) (sqlite_table _ _ _ Hl)). set (n := zlen (stream_of (StreamID env0) l)).
  pose proof (check_stream_spec (StreamID env0) n rev) as Hc. destruct (check_stream _ n rev) as [e|].
  { destruct Hc as [-> Hc]. do 3 eexists. split; [done|]. by left. }
  rewrite Hc. pose proof (zlen_stream_of (StreamID env0) l) as Hzs. pose proof (zlen_nonneg evs).
  pose proof (insert_events_log reg now fault (StreamID env0) rev n rows evs 0 0 d l Hl
    (λ env, valid_batch_stream (StreamID env0) evs env Hv) Hn (encode_spec _ _ _ _ _ Hwf Hext Henc) Hroom ltac:(lia) ltac:(lia)) as HI.
  destruct (insert_events _ _ _ _ _ _ _ _) as [[lastID d']|e].
  2: { do 3 eexists. split; [done|]. right. split; [|done]. by apply Hdb. }
  destruct (fault CommitTx) as [fe|] eqn:Hcm; [do 3 eexists; split; [done|]; right; split; [|done]; apply Hdb; [done|by do 3 eexists]|].
  destruct HI as [HI ->]. do 3 eexists. split; [done|]. left. split; [|done]. cbn [reports fst].
  rewrite bool_decide_false by done. by rewrite !u64_small by (unfold is_u64, max_int64, two64 in *; lia).
Qed.

(** ** Histories *)
Fixpoint sqlite_saves (ops : list (save_op * faults)) (d : sqlite) : list (AppendResult * option error) * sqlite :=
  match ops with
  | [] => ([], d)
  | (op, fault) :: ops =>
    let '(res, e, d) := sqlite_Save fault (so_now op) (so_reg op) (so_events op) (so_revision op) d in
    let '(out, d) := sqlite_saves ops d in
    ((res, e) :: out, d)
  end.

(** What a history of saves may answer, and the log it leads to: every save
    reports what the log answers, or failed on the database and did nothing. *)
Inductive answers : list (save_op * faults) → list (AppendResult * option error) → log → log → Prop :=
| answers_nil l : answers [] [] l l
| answers_served op fault ops r rs l l' : reports r (log_save op l).1 → answers ops rs (log_save op l).2 l' →
    answers ((op, fault) :: ops) (r :: rs) l l'
| answers_failed op fault ops r rs l l' : failed_on_db fault r → answers ops rs l l' →
    answers ((op, fault) :: ops) (r :: rs) l l'.

Definition sqlite_ops_ok (reg : Registry) (ops : list save_op) : Prop := ops_ok reg ops ∧ Forall op_nanos ops.

Lemma log_save_zlen op l : zlen l ≤ zlen (log_save op l).2 ≤ zlen l + zlen (so_events op).
Proof.
  unfold log_save. pose proof (zlen_nonneg (so_events op)). destruct (so_events op) as [|env evs] eqn:He; [cbn; lia|].
  assert (∀ now v g, zlen (stamp now v g (env :: evs)) = zlen (env :: evs)) as Hz by (intros; unfold zlen; by rewrite stamp_length).
  repeat case_match; cbn [snd]; try lia. rewrite zlen_app, Hz. lia.
Qed.

Lemma total_events_nonneg ops : 0 ≤ total_events ops.
Proof. unfold total_events. induction ops as [|o os IH]; cbn; [lia|]. pose proof (zlen_nonneg (so_events o)). lia. Qed.

Lemma sqlite_saves_step reg ops d l :
  sqlite_log reg d l → sqlite_ops_ok reg ops.*1 → zlen l + total_events ops.*1 < max_int64 →
  ∃ l', answers ops (sqlite_saves ops d).1 l l' ∧ sqlite_log reg (sqlite_saves ops d).2 l'.
Proof.
  revert d l. induction ops as [|[op fault] ops IH]; intros d l Hl [Hok Hn] Hroom; cbn [sqlite_saves fmap list_fmap fst] in *.
  { exists l. split; [constructor|done]. }
  inversion_clear Hok as [|? ? [Hwf Hext] Hok']. inversion_clear Hn as [|? ? Hn1 Hn2].
  cbn [total_events foldr] in Hroom. fold (total_events ops.*1) in Hroom.
  pose proof (total_events_nonneg ops.*1).
  destruct (sqlite_Save_step reg fault op d l Hl Hwf Hext Hn1) as (res & e & d' & -> & Hcase); [lia|].
  destruct Hcase as [[Hr Hl']|[Hr ->]].
  - pose proof (log_save_zlen op l). destruct (IH d' _ Hl') as (l' & Ha & Hl''); [done|lia|].
    destruct (sqlite_saves ops d') as [out d'']. exists l'. split; [by apply answers_served|done].
  - pose proof (zlen_nonneg (so_events op)). destruct (IH d _ Hl) as (l' & Ha & Hl''); [done|lia|].
    destruct (sqlite_saves ops d) as [out d'']. exists l'. split; [by apply answers_failed|done].
Qed.

Lemma sqlite_saves_new reg ops :
  sqlite_ops_ok reg ops.*1 → total_events ops.*1 < max_int64 →
  ∃ l, answers ops (sqlite_saves ops empty_sqlite).1 [] l ∧ sqlite_log reg (sqlite_saves ops empty_sqlite).2 l.
Proof. intros Hok Hb. apply sqlite_saves_step; [apply empty_sqlite_log|done|done]. Qed.

(** Without faults the answers are the log's. *)
Lemma answers_log ops rs l l' : answers ((λ op, (op, no_faults)) <$> ops) rs l l' →
  Forall2 reports rs (log_saves ops l).1 ∧ l' = (log_saves ops l).2.
Proof.
  revert rs l. induction ops as [|op ops IH]; intros rs l Ha; inversion Ha as [|? ? ? ? ? ? ? Hr Ha'|? ? ? ? ? ? ? [_ (e & _ & c & fe & msg & Hf & _)] _]; subst; [done| |done].
  cbn [log_saves]. destruct (log_save op l) as [v l1]. cbn [fst snd] in *. destruct (IH _ _ Ha') as [H1 H2].
  destruct (log_saves ops l1) as [vs l2]. split; [by constructor|done].
Qed.
End refinement.

(** ** Loads *)
Section loads.
Context `{J : JSON, !JSONLaws J} `{US : UUIDString, UP : UUIDParse, !UUIDTextLaws UP}.

(** Where the two stores differ: past the end there is nothing to load. *)
Definition sqlite_load_error (version : StreamState) (n : Z) : option sentinel :=
  match version with Revision _ => None | _ => load_error version n end.

Lemma sqlite_LoadStreamFrom_spec reg id version d l :
  sqlite_log reg d l → recognized version → load_offset version ≤ max_int64 →
  let hist := stream_of id l in
  match sqlite_load_error version (zlen hist) with
  | Some se => ∃ e, sqlite_LoadStreamFrom no_faults reg id version d = Returns (Fail e) ∧ errors_Is e se = true
  | None => ∃ it it', sqlite_LoadStreamFrom no_faults reg id version d = Returns (Ok it) ∧
      All (S (length hist)) None it = Some (drop (Z.to_nat (load_offset version)) hist, None, it')
  end.
Proof.
  intros Hl%sqlite_table Hrec Hoff hist.
  assert (∀ envs : list Envelope, (length envs ≤ length hist)%nat → ∃ it', All (S (length hist)) None (NewSliceIterator envs) = Some (envs, None, it')) as Hall.
  { intros envs Hle. eexists. apply slice_All. lia. }
  unfold sqlite_LoadStreamFrom, query. cbn [no_faults].
  destruct version as [| | |v|raw]; cbn in Hrec, Hoff; try done; cbn [sqlite_load_error load_error load_offset].
  - rewrite (select_stream_spec _ _ _ _ id Hl). fold hist. destruct (Hall hist) as [it' Hit]; [done|]. do 2 eexists. split; [done|exact Hit].
  - rewrite (select_exists_spec _ _ _ _ id Hl). fold hist. destruct (Z.eqb_spec (zlen hist) 0) as [H0|H0]; cbn [negb]; [|by eexists].
    destruct (Hall []) as [it' Hit]; [cbn; lia|]. apply zlen_zero in H0. rewrite H0 in Hit |- *. do 2 eexists. split; [done|exact Hit].
  - rewrite (select_stream_spec _ _ _ _ id Hl). fold hist. destruct (Z.eqb_spec (zlen hist) 0) as [H0|H0].
    + apply zlen_zero in H0. rewrite H0. by eexists.
    + destruct (Hall hist) as [it' Hit]; [done|]. destruct hist as [|e h]; [done|]. do 2 eexists. split; [done|exact Hit].
  - unfold ToRawInt64, Revision_ToRawInt64. destruct (Z.ltb_spec max_int64 v); [lia|].
    rewrite (select_stream_after_spec _ _ _ _ id _ Hl). fold hist.
    destruct (Hall (drop (Z.to_nat v) hist)) as [it' Hit]; [rewrite length_drop; lia|]. do 2 eexists. split; [done|exact Hit].
Qed.

Lemma ascii_literal opts : forallb is_ascii (StreamPrefixes opts) = true → literal_prefixes sqlite_starts opts.
Proof. rewrite forallb_elem. intros H p s Hp. by apply sqlite_starts_ascii, H. Qed.

Lemma sqlite_paging reg d l opts after : sqlite_log reg d l → forallb is_ascii (StreamPrefixes opts) = true →
  0 ≤ after ≤ max_int64 →
  read_pages (GR := sqlite_reader reg) (S (length l)) d after opts
  = Some (Ok (bfilter (env_matches opts) (drop (Z.to_nat after) l))).
Proof.
  intros Hl Hp Ha. pose proof (sqlite_table _ _ _ Hl) as Ht. destruct Hl as [_ Hn _ _].
  rewrite (read_pages_ordered d l opts (tl_ordered _ _ _ _ Ht)); [|  |done|].
  - do 2 f_equal. rewrite <- (bfilter_bfilter (env_matches opts) (λ env, after <? GlobalPosition env)). f_equal.
    rewrite <- (take_drop (Z.to_nat after) l) at 1. rewrite bfilter_app, bfilter_none, bfilter_all; [done|..]; apply Forall_forall;
      intros env [i Hi]%list_elem_of_lookup.
    + rewrite lookup_drop in Hi. rewrite (numbered_global _ Hn _ _ Hi). apply Z.ltb_lt. lia.
    + pose proof (lookup_lt_Some _ _ _ Hi) as Hlt. rewrite length_take in Hlt. rewrite lookup_take_lt in Hi by lia.
      rewrite (numbered_global _ Hn _ _ Hi). apply Z.ltb_ge. lia.
  - intros a Hb. apply (sql_ReadAll_page sqlite_columns sqlite_starts reg _ _ _ l); [by apply ascii_literal|exists []; by rewrite app_nil_r|done..].
  - pose proof (bfilter_length (λ env, after <? GlobalPosition env) l). unfold zlen. lia.
Qed.
End loads.

Section properties.
Context `{J : JSON, !JSONLaws J} `{US : UUIDString, UP : UUIDParse, !UUIDTextLaws UP}.

(** C25: The SQLite event store implements the abstract log.  For every history of
    saves whose times are within int64 nanoseconds of 1970, whichever calls of
    the database fail, each save returns what the log answers or, changing
    nothing, the wrapped error of the database; the rows decode to the log the
    served saves lead to, numbered without gaps. *)
Theorem sqlite_Save_refines_log reg ops :
  sqlite_ops_ok reg ops.*1 → total_events ops.*1 < max_int64 →
  ∃ l, answers ops (sqlite_saves ops empty_sqlite).1 [] l ∧
    Forall2 (scans sqlite_columns reg) (sq_rows (sqlite_saves ops empty_sqlite).2) l ∧ numbered l.
Proof. intros Hok Hb. destruct (sqlite_saves_new reg ops Hok Hb) as (l & Ha & [? ? _ _]). by exists l. Qed.

(** SQLite counts with int64, and refuses what is above it. *)
Lemma sqlite_above_int64 reg id v after opts d fuel : max_int64 < v → max_int64 < after →
  sqlite_LoadStreamFrom no_faults reg id (Revision v) d = Panics "eventsourcing: Revision overflows int64" ∧
  ∃ e, read_pages (GR := sqlite_reader reg) (S fuel) d after opts = Some (Fail e) ∧ errors_Is e ErrInvalidRevision = true.
Proof.
  intros Hv Ha. unfold sqlite_LoadStreamFrom, ToRawInt64, Revision_ToRawInt64. split.
  - by rewrite (proj2 (Z.ltb_lt _ _) Hv).
  - cbn [read_pages reader_ReadAll sqlite_reader]. unfold sqlite_ReadAll, sql_ReadAll. rewrite (proj2 (Z.ltb_lt _ _) Ha). by eexists.
Qed.

(** C36: The SQLite and the in-memory event store agree, but where a number is
    past the end.  After the same history of saves, with times within int64
    nanoseconds of 1970 and fewer than 2^63 - 1 events, they have answered
    alike, page through the same events from every position up to MaxInt64,
    under the same filters with ASCII prefixes, and load the same events of
    every stream from every version up to its end.  They differ in this: a
    load from a Revision past the end of the stream is refused with
    ErrInvalidRevision by the memory, while SQLite answers with no events up
    to MaxInt64 and panics above it; and a read of the log from a position
    above MaxInt64 finds nothing in the memory and fails with
    ErrInvalidRevision in SQLite. *)
Theorem sqlite_and_memory_agree reg ops after opts id version :
  sqlite_ops_ok reg ops → total_events ops < max_int64 → is_u64 after →
  forallb is_ascii (StreamPrefixes opts) = true → recognized version →
  let d := (sqlite_saves ((λ op, (op, no_faults)) <$> ops) empty_sqlite).2 in
  let s := (run_saves ops NewEventStore).2 in
  let hist := stream_of id (log_saves ops []).2 in
  Forall2 reports (sqlite_saves ((λ op, (op, no_faults)) <$> ops) empty_sqlite).1 (log_saves ops []).1 ∧
  Forall2 reports (run_saves ops NewEventStore).1 (log_saves ops []).1 ∧
  (∃ evs, read_pages (GR := mem_reader reg) (S (length (log_saves ops []).2)) s after opts = Some (Ok evs) ∧
     if after <=? max_int64
     then read_pages (GR := sqlite_reader reg) (S (length (log_saves ops []).2)) d after opts = Some (Ok evs)
     else evs = [] ∧ ∃ e, read_pages (GR := sqlite_reader reg) (S (length (log_saves ops []).2)) d after opts = Some (Fail e) ∧
                          errors_Is e ErrInvalidRevision = true) ∧
  match load_error version (zlen hist) with
  | None => ∃ evs it it' its its', sqlite_LoadStreamFrom no_faults reg id version d = Returns (Ok it) ∧
      LoadStreamFrom reg id version s = Ok its ∧
      All (S (length hist)) None it = Some (evs, None, it') ∧ All (S (length hist)) None its = Some (evs, None, its')
  | Some se => ∃ e, LoadStreamFrom reg id version s = Fail e ∧ errors_Is e se = true ∧
      match version with
      | Revision v =>
        if v <=? max_int64
        then ∃ it it', sqlite_LoadStreamFrom no_faults reg id version d = Returns (Ok it) ∧
               All (S (length hist)) None it = Some ([], None, it')
        else sqlite_LoadStreamFrom no_faults reg id version d = Panics "eventsourcing: Revision overflows int64"
      | _ => ∃ e', sqlite_LoadStreamFrom no_faults reg id version d = Returns (Fail e') ∧ errors_Is e' se = true
      end
  end.
Proof.
  intros Hok Hb Ha Hp Hrec d s hist.
  assert (((λ op, (op, no_faults)) <$> ops).*1 = ops) as Hfst by (rewrite <- list_fmap_compose; apply list_fmap_id).
  destruct (sqlite_saves_new reg ((λ op, (op, no_faults)) <$> ops)) as (l & Hans & Hl); [by rewrite Hfst..|].
  apply answers_log in Hans as [Hans ->]. destruct (run_saves_new reg ops (proj1 Hok)) as (Hm & Hrep & Hz); [unfold max_int64, two64 in *; lia|].
  assert (zlen (log_saves ops []).2 ≤ max_int64) as Hroom by apply Hl.
  split_and!; [done|done| |].
  - exists (bfilter (env_matches opts) (drop (Z.to_nat after) (log_saves ops []).2)). split.
    + destruct Ha. apply read_pages_ok; [|lia|unfold zlen; lia]. intros after' Ha'. by apply MemStore.ReadAll_page.
    + destruct (Z.leb_spec after max_int64); [apply sqlite_paging; (done || by destruct Ha)|].
      split; [by rewrite drop_ge by (unfold zlen in *; lia)|]. by eapply (sqlite_above_int64 reg id after).
  - pose proof (LoadStreamFrom_spec reg id version s _ Hrep Hrec Hz) as HM. fold hist in HM.
    pose proof (zlen_stream_of id (log_saves ops []).2) as Hzh. fold hist in Hzh.
    destruct (Z.leb_spec (load_offset version) max_int64) as [Hoff|Hoff].
    2: { destruct version as [| | |v|raw]; try (cbn in Hoff; unfold max_int64 in Hoff; lia). cbn [load_offset load_error] in *.
         rewrite (proj2 (Z.ltb_lt _ _)) in HM |- * by lia. destruct HM as (e & HM1 & HM2). exists e. split_and!; [done..|].
         rewrite (proj2 (Z.leb_gt _ _) Hoff). by apply (sqlite_above_int64 reg id v v opts d 0). }
    pose proof (sqlite_LoadStreamFrom_spec reg id version d _ Hl Hrec Hoff) as HS. cbv zeta in HS. fold hist in HS.
    destruct (load_error version (zlen hist)) as [se|] eqn:Hle.
    + destruct HM as (e & HM1 & HM2). exists e. split_and!; [done..|]. destruct version as [| | |v|raw]; cbn in Hrec; try done.
      all: cbn [sqlite_load_error] in HS; try (rewrite Hle in HS; exact HS).
      cbn [load_error load_offset] in Hle, Hoff. rewrite (proj2 (Z.leb_le _ _) Hoff). destruct (Z.ltb_spec (zlen hist) v) as [Hlt|]; [|done]. destruct HS as (it & it' & H1 & H2).
      rewrite drop_ge in H2 by (cbn; unfold zlen in *; lia). by exists it, it'.
    + destruct HM as (its & its' & HM1 & HM2). assert (sqlite_load_error version (zlen hist) = None) as Hse by (by destruct version).
      rewrite Hse in HS. destruct HS as (it & it' & H1 & H2). eexists _, it, it', its, its'. by split_and!.
Qed.
End properties.

(** ** Import ([sqlite/import.go]) *)
Section import.
Context `{J : JSON} `{US : UUIDString, UP : UUIDParse} `{GR : GlobalReader R}.

(** The events of a page; [counts] holds how many of each stream were
    copied. *)
Fixpoint import_page (now : time) (reg : Registry) (evs : list Envelope) (counts : gmap string Z) (copied : Z) (d : sqlite) :
    gmap string Z * Z * option error * sqlite :=
  match evs with
  | [] => (counts, copied, None, d)
  | env :: evs =>
    let n := default 0 (counts !! StreamID env) in
    match sqlite_Save no_faults now reg [env] (Revision n) d with
    | (_, Some e, d) => (counts, copied, Some (Errorf "sqlite: import: event" e), d)
    | (_, None, d) => import_page now reg evs (<[StreamID env := u64 (n + 1)]> counts) (copied + 1) d
    end
  end.

(** [Import], page after page from [after]; [None] when [fuel] runs out. *)
Fixpoint import_from (fuel : nat) (now : time) (reg : Registry) (src : R) (after : Z) (counts : gmap string Z) (copied : Z)
    (d : sqlite) : option (Z * option error * sqlite) :=
  match fuel with
  | O => None
  | S fuel =>
    match reader_ReadAll src after (mkReadOptions 500 [] []) with
    | Fail e => Some (copied, Some (Errorf "sqlite: import: read after" e), d)
    | Ok page =>
      match import_page now reg (rr_Events page) counts copied d with
      | (_, copied, Some e, d) => Some (copied, Some e, d)
      | (counts, copied, None, d) =>
        if rr_AtEnd page then Some (copied, None, d) else import_from fuel now reg src (rr_Next page) counts copied d
      end
    end
  end.

Definition Import (fuel : nat) (now : time) (reg : Registry) (src : R) (d : sqlite) : option (Z * option error * sqlite) :=
  import_from fuel now reg src 0 ∅ 0 d.
End import.

(** *** A copy keeps the log *)
Section import_proofs.
Context `{J : JSON, !JSONLaws J} `{US : UUIDString, UP : UUIDParse, !UUIDTextLaws UP} `{GR : GlobalReader R}.

(** The events Import reads can be saved again, and JSON keeps them as they
    are: they come from a store that keeps JSON. *)
Record importable (reg : Registry) (env : Envelope) : Prop := {
  im_id : EventID env ≠ uuid_Nil;
  im_encodable : encodable reg env = true;
  im_time : in_nanos (OccurredAt env) ∧ OccurredAt env ≠ time_zero;
  im_event : json_event <$> env_Event env = env_Event env;
  im_metadata : ∃ m, Metadata env = Some m ∧ json_value <$> m = m;
}.

Lemma stored_again now env v g : OccurredAt env ≠ time_zero → json_event <$> env_Event env = env_Event env →
  (∃ m, Metadata env = Some m ∧ json_value <$> m = m) → Version env = v → GlobalPosition env = g → stored now v g env = env.
Proof.
  intros Ht Hp (m & Hm & Hj) <- <-. unfold stored, time_IsZero. rewrite Hp, Hm. cbn [default id]. rewrite Hj. unfold time_zero in Ht.
  destruct (Z.eqb_spec (OccurredAt env) 0); [done|]. destruct env; cbn in *. by subst.
Qed.

(** What was copied so far. *)
Definition counted (counts : gmap string Z) (l : log) : Prop :=
  ∀ id, default 0 (counts !! id) = zlen (stream_of id l).

Lemma import_page_copies now reg evs : ∀ counts copied d l,
  registry_wf reg → sqlite_log reg d l → counted counts l → copied = zlen l → Forall (importable reg) evs →
  numbered (l ++ evs) → zlen l + zlen evs < max_int64 →
  ∃ counts' d', import_page now reg evs counts copied d = (counts', zlen (l ++ evs), None, d') ∧
    sqlite_log reg d' (l ++ evs) ∧ counted counts' (l ++ evs).
Proof.
  induction evs as [|env evs IH]; intros counts copied d l Hwf Hl Hc -> Him Hnum Hroom; cbn [import_page].
  { rewrite app_nil_r. by exists counts, d. }
  apply Forall_cons in Him as [[Hid Henc [Htime Hnz] Hptr Hmd] Him']. rewrite zlen_cons in Hroom. pose proof (zlen_nonneg evs).
  pose proof (zlen_stream_of (StreamID env) l). pose proof (zlen_nonneg l).
  assert (stored now (zlen (stream_of (StreamID env) l) + 1) (zlen l + 1) env = env) as Hsame.
  { apply stored_again; [done..| |].
    - pose proof (numbered_stream _ Hnum (StreamID env) (length (stream_of (StreamID env) l)) env) as Hv.
      rewrite Hv; [unfold zlen; lia|]. rewrite stream_of_app, lookup_app_r by lia. rewrite Nat.sub_diag.
      unfold stream_of, in_stream. cbn. by rewrite bool_decide_true.
    - rewrite (numbered_global _ Hnum (length l) env); [unfold zlen; lia|]. rewrite lookup_app_r, Nat.sub_diag by lia. done. }
  destruct (sqlite_Save_step reg no_faults (mkSaveOp now reg [env] (Revision (default 0 (counts !! StreamID env)))) d l Hl)
    as (res & e & d' & HS & Hcase); [done|by intros nm ev Hx| |cbn; rewrite zlen_cons, zlen_nil; lia|].
  { constructor; [|constructor]. unfold saved_time, time_IsZero. cbn [so_now]. unfold time_zero in Hnz.
    destruct (Z.eqb_spec (OccurredAt env) 0); [contradiction|exact Htime]. }
  cbn [so_now so_reg so_events so_revision] in HS. rewrite HS.
  unfold log_save in Hcase. cbn [so_now so_reg so_events so_revision] in Hcase. unfold valid_batch in Hcase. cbn [forallb] in Hcase.
  rewrite Henc, bool_decide_true, (bool_decide_false (EventID env = uuid_Nil)) in Hcase by done. cbn [negb andb expectation_holds] in Hcase.
  rewrite (Hc (StreamID env)), Z.eqb_refl in Hcase. cbn [stamp fst snd] in Hcase. rewrite Hsame in Hcase.
  destruct Hcase as [[Hrep Hl']|[[_ (e' & _ & c & fe & msg & Hf & _)] _]]; [|done].
  destruct e as [e|]; [by cbn in Hrep|].
  assert (counted (<[StreamID env := u64 (default 0 (counts !! StreamID env) + 1)]> counts) (l ++ [env])) as Hc'.
  { intros id. rewrite stream_of_app, zlen_app. unfold stream_of at 2, in_stream. cbn. destruct (decide (StreamID env = id)) as [<-|Hne].
    - rewrite lookup_insert_eq, bool_decide_true by done. cbn. rewrite (Hc (StreamID env)), zlen_cons, zlen_nil.
      apply u64_small. unfold is_u64, two64, max_int64 in *. lia.
    - rewrite lookup_insert_ne, bool_decide_false by done. cbn. rewrite (Hc id), zlen_nil. lia. }
  destruct (IH _ (zlen l + 1) d' (l ++ [env]) Hwf Hl' Hc') as (counts' & d'' & Hp & Hl'' & Hc''); [rewrite zlen_app, zlen_cons, zlen_nil; lia|done| |rewrite zlen_app, zlen_cons, zlen_nil; lia|].
  { by rewrite <- app_assoc. }
  rewrite <- app_assoc in Hp, Hl'', Hc''. by exists counts', d''.
Qed.
Definition unfiltered : ReadOptions := mkReadOptions 500 [] [].

(** A source that pages through [l]. *)
Definition pages_of (src : R) (l : log) : Prop :=
  ∀ after, 0 ≤ after → ∃ res, reader_ReadAll src after unfiltered = Ok res ∧ page_ok l after unfiltered res.

Lemma import_from_copies now reg src l : registry_wf reg → numbered l → Forall (importable reg) l → zlen l < max_int64 →
  pages_of src l → ∀ fuel after counts d, 0 ≤ after ≤ zlen l → zlen l - after < Z.of_nat fuel →
  sqlite_log reg d (take (Z.to_nat after) l) → counted counts (take (Z.to_nat after) l) →
  ∃ d', import_from fuel now reg src after counts after d = Some (zlen l, None, d') ∧ sqlite_log reg d' l.
Proof.
  intros Hwf Hnum Him Hroom Hsrc fuel. induction fuel as [|fuel IH]; intros after counts d Ha Hf Hl Hc; [lia|].
  cbn [import_from]. destruct (Hsrc after ltac:(lia)) as (res & Hread & [Hev Hnext Hprog Hend _]). unfold unfiltered in Hread. rewrite Hread.
  rewrite Z.max_r in Hnext by lia.
  assert (rr_Events res = scanned l after (rr_Next res)) as Hpage by (rewrite Hev; apply bfilter_all, Forall_forall; done).
  assert (take (Z.to_nat after) l ++ rr_Events res = take (Z.to_nat (rr_Next res)) l) as Htake.
  { rewrite Hpage. unfold scanned. rewrite take_take_drop. f_equal. lia. }
  assert (zlen (take (Z.to_nat (rr_Next res)) l) = rr_Next res) as Hz by (unfold zlen in *; rewrite length_take; lia).
  destruct (import_page_copies now reg (rr_Events res) counts after d _ Hwf Hl Hc) as (counts' & d' & Hp & Hl' & Hc').
  - unfold zlen in *. rewrite length_take. lia.
  - rewrite Hpage. by apply Forall_take, Forall_drop.
  - rewrite Htake. eapply numbered_prefix; [|exact Hnum]. apply prefix_take.
  - rewrite <- zlen_app, Htake, Hz. lia.
  - rewrite Hp, Htake, Hz in *. destruct (rr_AtEnd res) eqn:HE.
    + assert (rr_Next res = zlen l) as Hn by (pose proof (proj1 Hend eq_refl); lia).
      exists d'. rewrite Hn. split; [done|]. rewrite Hn, take_ge in Hl' by (unfold zlen; lia). done.
    + specialize (Hprog eq_refl). apply IH; [lia|lia|done|done].
Qed.

(** Import copies a log: from any source that pages through a numbered log of
    events that can be saved again, it returns the number of events, and the
    rows of the database decode to the very same log, positions, versions and
    times included. *)
Theorem Import_copies_the_log now reg src l : registry_wf reg → numbered l → Forall (importable reg) l →
  zlen l < max_int64 → pages_of src l →
  ∃ d, Import (S (length l)) now reg src empty_sqlite = Some (zlen l, None, d) ∧ Forall2 (scans sqlite_columns reg) (sq_rows d) l.
Proof.
  intros Hwf Hnum Him Hroom Hsrc. pose proof (zlen_nonneg l).
  destruct (import_from_copies now reg src l Hwf Hnum Him Hroom Hsrc (S (length l)) 0 ∅ empty_sqlite) as (d & Hd & [Hrows _ _ _]).
  - lia.
  - unfold zlen. lia.
  - apply empty_sqlite_log.
  - intros id. by rewrite lookup_empty.
  - by exists d.
Qed.
End import_proofs.
