(* ===== verification/PgStore.v ===== *)
(** * The PostgreSQL event store ([postgres/eventstore.go])

    Saves run concurrently: each is a transaction whose statements are atomic
    steps, and a run is any sequence of steps of any of them.  A statement
    sees the rows committed when it starts, [nextval] is never rolled back,
    and an advisory lock of a transaction is held until it ends.  Any
    transaction can fail at any step.  [pg_commits] records the order of the
    commits, which the database does not keep. *)
From S2P Require Import Prelude Core Iter Registry Log MemStore SqlEvents SqliteStore.

Section pg.
Context `{J : JSON}.
(** [hashtext], and what a TIMESTAMPTZ column gives back for a time. *)
Context (hashtext : string → Z) (timestamptz : time → time).

Definition pg_columns : columns uuid time := mkColumns id Ok timestamptz id.

(** Where a Save is. *)
Inductive tx_pc : Type :=
| WaitStream                       (* before the lock of its stream *)
| HasStream                        (* before SELECT MAX(stream_position) *)
| WaitAppend (currentVersion : Z)  (* before the lock of every append *)
| Inserting (currentVersion : Z) (i : nat) (lastID : Z)
| Over (res : AppendResult) (e : option error).

Record tx : Type := mkTx {
  tx_op : save_op;
  tx_rows : list record;            (* encoded *)
  tx_at : tx_pc;
  tx_pending : list (row uuid time) (* inserted, not committed *)
}.

Definition tx_stream (t : tx) : string := match so_events (tx_op t) with env :: _ => StreamID env | [] => "" end.

Record pg : Type := mkPg {
  pg_rows : list (row uuid time);   (* committed *)
  pg_seq : Z;                       (* the sequence of the column id *)
  pg_txs : list tx;
  pg_commits : list nat;
}.

Definition empty_pg : pg := mkPg [] 0 [] [].

(** ** Locks *)
Definition holds_stream (t : tx) : bool :=
  match tx_at t with HasStream | WaitAppend _ | Inserting _ _ _ => true | _ => false end.
Definition holds_append (t : tx) : bool := match tx_at t with Inserting _ _ _ => true | _ => false end.

Definition stream_lock_free (stream : string) (s : pg) : bool :=
  forallb (λ t, negb (holds_stream t && (hashtext (tx_stream t) =? hashtext stream))) (pg_txs s).
Definition append_lock_free (s : pg) : bool := forallb (λ t, negb (holds_append t)) (pg_txs s).

(** ** Steps *)
Definition with_tx (i : nat) (t : tx) (s : pg) : pg := mkPg (pg_rows s) (pg_seq s) (<[i := t]> (pg_txs s)) (pg_commits s).
Definition at_tx (p : tx_pc) (t : tx) : tx := mkTx (tx_op t) (tx_rows t) p (tx_pending t).
(** The deferred rollback: what was inserted is gone. *)
Definition rolled_back (res : AppendResult) (e : error) (t : tx) : tx := mkTx (tx_op t) (tx_rows t) (Over res (Some e)) [].
Definition tx_failed (e : error) (t : tx) : tx := rolled_back (failed_append (tx_stream t)) e t.

(** The part of [Save] before its transaction. *)
Definition new_tx (op : save_op) : tx :=
  let over res e := mkTx op [] (Over res e) [] in
  match so_events op with
  | [] => over (mkAppendResult true "" 0 0) None
  | env0 :: _ =>
    match validate (StreamID env0) (so_events op) with
    | Some e => over (failed_append (StreamID env0)) (Some e)
    | None =>
      match encode (so_now op) (so_reg op) (so_events op) with
      | Fail e => over (failed_append (StreamID env0)) (Some e)
      | Ok rows => mkTx op rows WaitStream []
      end
    end
  end.

Inductive pg_action : Type :=
| BeginSave (op : save_op)
| LockStream (i : nat)
| ReadVersion (i : nat)
| LockAppend (i : nat)
| InsertRow (i : nat)
| CommitSave (i : nat) (lost : option error)  (* [lost]: the answer did not arrive *)
| FailSave (i : nat) (e : error).

Definition next_row (t : tx) (i : nat) : option record := tx_rows t !! i.

(** [INSERT ... RETURNING id]: the sequence moves even when the row is
    refused. *)
Definition insert_next (n : nat) (cv : Z) (i : nat) (rec : record) (t : tx) (s : pg) : pg :=
  if max_int64 <=? pg_seq s
  then with_tx n (tx_failed (Errorf "insert event" (New "nextval: reached maximum value of sequence")) t) s
  else
    let id := pg_seq s + 1 in
    let pos := int64 (int64 (u64 (cv + 1)) + Z.of_nat i) in
    let s := mkPg (pg_rows s) id (pg_txs s) (pg_commits s) in
    if taken (tx_stream t) pos (pg_rows s ++ tx_pending t)
    then with_tx n (tx_failed (StreamRevisionConflictError (tx_stream t) (Some (so_revision (tx_op t))) (Some (Revision cv))) t) s
    else with_tx n (mkTx (tx_op t) (tx_rows t) (Inserting cv (S i) id)
                      (tx_pending t ++ [row_of pg_columns id (tx_stream t) pos rec])) s.

Definition pg_step (a : pg_action) (s : pg) : option pg :=
  match a with
  | BeginSave op => Some (mkPg (pg_rows s) (pg_seq s) (pg_txs s ++ [new_tx op]) (pg_commits s))
  | LockStream n =>
    match pg_txs s !! n with
    | Some t =>
      match tx_at t with
      | WaitStream => if stream_lock_free (tx_stream t) s then Some (with_tx n (at_tx HasStream t) s) else None
      | _ => None
      end
    | None => None
    end
  | ReadVersion n =>
    match pg_txs s !! n with
    | Some t =>
      match tx_at t with
      | HasStream =>
        let currentVersion := select_version (tx_stream t) (pg_rows s) in
        match check_stream (tx_stream t) currentVersion (so_revision (tx_op t)) with
        | Some e => Some (with_tx n (tx_failed e t) s)
        | None => Some (with_tx n (at_tx (WaitAppend currentVersion) t) s)
        end
      | _ => None
      end
    | None => None
    end
  | LockAppend n =>
    match pg_txs s !! n with
    | Some t =>
      match tx_at t with
      | WaitAppend cv => if append_lock_free s then Some (with_tx n (at_tx (Inserting cv 0 0) t) s) else None
      | _ => None
      end
    | None => None
    end
  | InsertRow n =>
    match pg_txs s !! n with
    | Some t =>
      match tx_at t with
      | Inserting cv i _ => match next_row t i with Some rec => Some (insert_next n cv i rec t s) | None => None end
      | _ => None
      end
    | None => None
    end
  | CommitSave n lost =>
    match pg_txs s !! n with
    | Some t =>
      match tx_at t with
      | Inserting cv i lastID =>
        match next_row t i with
        | Some _ => None
        | None =>
          let '(res, e) :=
            match lost with
            | None => (mkAppendResult true (tx_stream t) (u64 (cv + zlen (so_events (tx_op t)))) (u64 lastID), None)
            | Some e => (failed_append (tx_stream t), Some (Errorf "commit" e))
            end in
          Some (mkPg (pg_rows s ++ tx_pending t) (pg_seq s)
                  (<[n := mkTx (tx_op t) (tx_rows t) (Over res e) []]> (pg_txs s)) (pg_commits s ++ [n]))
        end
      | _ => None
      end
    | None => None
    end
  | FailSave n e =>
    match pg_txs s !! n with
    | Some t => match tx_at t with Over _ _ => None | _ => Some (with_tx n (tx_failed (Errorf "save events to stream" e) t) s) end
    | None => None
    end
  end.

(** ** Global reads: the head and the page are two statements *)
Definition starts_with (p s : string) : bool := String.prefix p s.

Definition pg_ReadAll (head_err page_err : option error) (reg : Registry) (after : Z) (opts : ReadOptions) (s page : pg) :
    result error ReadResult :=
  sql_ReadAll pg_columns starts_with head_err page_err reg after opts (pg_rows s) (pg_rows page).

(** ** Loads *)

(** The rows of a query: they hold a connection of the pool while open, and
    may break off with an error. *)
Record pg_cursor : Type := mkCursor {
  cur_rows : list (row uuid time);
  cur_err : option error;
  cur_open : bool;
}.

Definition cursor_next (reg : Registry) : IterFunc pg_cursor Envelope := λ c cur,
  match cur_rows cur with
  | [] => match cur_err cur with Some e => (Fail e, c, cur) | None => (Fail (Sentinel io_EOF), c, cur) end
  | r :: rows => (scanEnvelope pg_columns reg r, c, mkCursor rows (cur_err cur) (cur_open cur))
  end.

Definition cursor_close (cur : pg_cursor) : option error * pg_cursor := (None, mkCursor (cur_rows cur) (cur_err cur) false).

(** [queryRows], when the query fails with [err], or its rows end with
    [rows_err]. *)
Definition queryRows (err rows_err : option error) (reg : Registry) (rows : list (row uuid time)) :
    result error (Iterator pg_cursor Envelope) :=
  match err with
  | Some e => Fail e
  | None => Ok (NewIteratorFunc (cursor_next reg) (Some cursor_close) (mkCursor rows rows_err true))
  end.

(** An iterator over a slice, or over the rows of a query. *)
Definition pg_iterator : Type := Iterator nat Envelope + Iterator pg_cursor Envelope.

Definition over_rows (r : result error (Iterator pg_cursor Envelope)) : result error pg_iterator :=
  match r with Fail e => Fail e | Ok it => Ok (inr it) end.

(** [exists_err], [query_err] and [rows_err] are what the database answers;
    the query runs on [s'], which may have more rows than [s]. *)
Definition pg_LoadStream (exists_err query_err rows_err : option error) (reg : Registry) (id : string) (s s' : pg) :
    result error pg_iterator :=
  match exists_err with
  | Some e => Fail (Errorf "load stream: check existence" e)
  | None =>
    if negb (select_exists id (pg_rows s)) then Fail (Errorf "load stream" (Sentinel ErrStreamNotFound))
    else over_rows (queryRows query_err rows_err reg (select_stream id (pg_rows s')))
  end.

Definition pg_LoadStreamFrom (exists_err query_err rows_err : option error) (reg : Registry) (id : string)
    (version : StreamState) (s s' : pg) : outcome (result error pg_iterator) :=
  match version with
  | NoStream =>
    Returns match exists_err with
            | Some e => Fail (Errorf "load stream: check existence" e)
            | None =>
              if select_exists id (pg_rows s) then Fail (Errorf "expected empty stream" (Sentinel ErrStreamExists))
              else Ok (inl (NewSliceIterator []))
            end
  | StreamExists =>
    Returns match exists_err with
            | Some e => Fail (Errorf "load stream: check existence" e)
            | None =>
              if negb (select_exists id (pg_rows s)) then Fail (Errorf "expected existing stream" (Sentinel ErrStreamNotFound))
              else over_rows (queryRows query_err rows_err reg (select_stream id (pg_rows s')))
            end
  | Any => Returns (over_rows (queryRows query_err rows_err reg (select_stream id (pg_rows s'))))
  | _ =>
    match ToRawInt64 version with
    | Panics p => Panics p
    | Returns from => Returns (over_rows (queryRows query_err rows_err reg (select_stream_after id from (pg_rows s'))))
    end
  end.

Definition pg_LoadCorrelation (query_err rows_err : option error) (reg : Registry) (id : string) (s : pg) :
    result error (Iterator pg_cursor Envelope) :=
  if bool_decide (id = "") then Fail (Errorf "load correlation" (Sentinel ErrEmptyCorrelationID))
  else match queryRows query_err rows_err reg (select_correlation id (pg_rows s)) with
       | Fail e => Fail (Errorf "load correlation" e)
       | Ok it => Ok it
       end.

Definition pg_Head (head_err : option error) (s : pg) : result error Z :=
  match head_err with Some e => Fail (Errorf "head" e) | None => Ok (u64 (select_head (pg_rows s))) end.

(** ** Runs *)
Definition begins_ok (reg : Registry) (a : pg_action) : Prop :=
  match a with BeginSave op => registry_wf (so_reg op) ∧ extends (so_reg op) reg | _ => True end.

(** [s'] is reachable from [s]. *)
Inductive pg_runs (reg : Registry) : pg → pg → Prop :=
| pg_refl s : pg_runs reg s s
| pg_move s s' s'' a : pg_runs reg s s' → begins_ok reg a → pg_step a s' = Some s'' → pg_runs reg s s''.
End pg.


(** ** Saves in commit order *)
Section proofs.
Context `{J : JSON, !JSONLaws J} (hashtext : string → Z) (timestamptz : time → time).
Local Notation C := (pg_columns timestamptz).
Local Notation step := (pg_step hashtext timestamptz).
Implicit Types (t u : tx) (s : pg) (l : log) (ids : list Z) (op : save_op).

#[local] Instance pg_column_laws : ColumnLaws C.
Proof. by split. Qed.

(** The events of a batch as they are stored, after [v] events of the stream
    and under the given ids. *)
Fixpoint stamp_ids (now : time) (v : Z) ids (evs : list Envelope) : log :=
  match ids, evs with
  | id :: ids, env :: evs => sql_stored C now (v + 1) id env :: stamp_ids now (v + 1) ids evs
  | _, _ => []
  end.

Definition op_stream op : string := match so_events op with env :: _ => StreamID env | [] => "" end.
Definition op_version op l : Z := zlen (stream_of (op_stream op) l).
Definition op_block op ids l : log := stamp_ids (so_now op) (op_version op l) ids (so_events op).

(** [l] is what the saves [h] produce one after another, each finding its
    expectation met by the log it is appended to. *)
Inductive serial : list (save_op * list Z) → log → Prop :=
| serial_nil : serial [] []
| serial_snoc h l op ids : serial h l → expectation_holds (so_revision op) (op_version op l) = true →
    length ids = length (so_events op) → serial (h ++ [(op, ids)]) (l ++ op_block op ids l).

(** A Save failed on the database, not on the batch or the expectation. *)
Definition pg_failure (e : error) : Prop :=
  ∃ msg fe, msg ∈ ["save events to stream"; "insert event"; "commit"] ∧ e = Errorf msg fe.

(** What a Save that has returned says. *)
Definition tx_answer l t : Prop :=
  let op := tx_op t in
  match tx_at t with
  | Over res None =>
    so_events op = [] ∧ res = mkAppendResult true "" 0 0 ∨
    ∃ l1 ids l2, l = l1 ++ op_block op ids l1 ++ l2 ∧ length ids = length (so_events op) ∧ so_events op ≠ [] ∧
      expectation_holds (so_revision op) (op_version op l1) = true ∧
      res = mkAppendResult true (op_stream op) (op_version op l1 + zlen (so_events op)) (default 0 (last ids))
  | Over res (Some e) =>
    Successful res = false ∧
    (valid_batch (op_stream op) (so_events op) = false ∧ errors_Is e ErrInvalidEventBatch = true ∨
     forallb (encodable (so_reg op)) (so_events op) = false ∨
     (∃ l1 l2, l = l1 ++ l2 ∧ expectation_holds (so_revision op) (op_version op l1) = false ∧
        expectation_error (so_revision op) (op_version op l1) e) ∨
     pg_failure e)
  | _ => True
  end.

Definition encoded_as (reg : Registry) (now : time) (r : record) (env : Envelope) : Prop :=
  StreamID (rec_env r) = StreamID env ∧ ∀ v g, decodes reg (numbered_record v g r) (stored now v g env).

(** What a Save under way knows. *)
Record tx_ready (reg : Registry) t : Prop := {
  tr_events : so_events (tx_op t) ≠ [];
  tr_stream env : env ∈ so_events (tx_op t) → StreamID env = op_stream (tx_op t);
  tr_rows : Forall2 (encoded_as reg (so_now (tx_op t))) (tx_rows t) (so_events (tx_op t));
}.

Definition tx_inv (reg : Registry) (rows : list (row uuid time)) (seq : Z) l t : Prop :=
  let op := tx_op t in
  match tx_at t with
  | Over _ _ => tx_pending t = []
  | WaitStream | HasStream => tx_ready reg t ∧ tx_pending t = []
  | WaitAppend cv => tx_ready reg t ∧ tx_pending t = [] ∧ cv = op_version op l ∧
      expectation_holds (so_revision op) cv = true
  | Inserting cv i lastID => tx_ready reg t ∧ cv = op_version op l ∧ expectation_holds (so_revision op) cv = true ∧
      ∃ ids, length ids = i ∧ (i ≤ length (so_events op))%nat ∧ lastID = default 0 (last ids) ∧ 0 ≤ lastID ≤ seq ∧
        table_log C reg (rows ++ tx_pending t) (l ++ op_block op ids l) ∧
        ∀ env, env ∈ l ++ op_block op ids l → GlobalPosition env ≤ seq
  end.

Record pg_inv (reg : Registry) s (h : list (save_op * list Z)) l : Prop := {
  pi_table : table_log C reg (pg_rows s) l;
  pi_seq : 0 ≤ pg_seq s ≤ max_int64;
  pi_below env : env ∈ l → GlobalPosition env ≤ pg_seq s;
  pi_txs n t : pg_txs s !! n = Some t → tx_inv reg (pg_rows s) (pg_seq s) l t ∧ tx_answer l t;
  pi_append n m t u : pg_txs s !! n = Some t → pg_txs s !! m = Some u → holds_append t = true → holds_append u = true → n = m;
  pi_stream n m t u : pg_txs s !! n = Some t → pg_txs s !! m = Some u → holds_stream t = true → holds_stream u = true →
    hashtext (tx_stream t) = hashtext (tx_stream u) → n = m;
  pi_serial : serial h l;
  pi_ops : Forall2 (λ n x, ∃ t res e, pg_txs s !! n = Some t ∧ tx_op t = x.1 ∧ tx_at t = Over res e) (pg_commits s) h;
  pi_once : NoDup (pg_commits s);
}.

(** *** Facts *)
Lemma stamp_ids_length now v ids evs : (length ids ≤ length evs)%nat → length (stamp_ids now v ids evs) = length ids.
Proof. revert v evs. induction ids as [|id ids IH]; intros v [|env evs] H; cbn in *; try lia. rewrite IH; lia. Qed.

Lemma stamp_ids_snoc now v ids evs env id : evs !! length ids = Some env →
  stamp_ids now v (ids ++ [id]) evs = stamp_ids now v ids evs ++ [sql_stored C now (v + zlen ids + 1) id env].
Proof.
  revert v evs. induction ids as [|i ids IH]; intros v [|e evs] H; cbn in *; simplify_eq; try done.
  - by rewrite Z.add_0_r.
  - rewrite (IH _ _ H). replace (v + zlen (i :: ids) + 1) with (v + 1 + zlen ids + 1) by (rewrite zlen_cons; lia). done.
Qed.

Lemma stamp_ids_stream now v ids evs id : (∀ env, env ∈ evs → StreamID env = id) →
  stream_of id (stamp_ids now v ids evs) = stamp_ids now v ids evs ∧
  ∀ id', id' ≠ id → stream_of id' (stamp_ids now v ids evs) = [].
Proof.
  intros Hid.
  assert (∀ e, e ∈ stamp_ids now v ids evs → StreamID e = id) as Hall.
  { revert v ids. induction evs as [|env evs IH]; intros v [|i ids] e; cbn; try (by intros ?%not_elem_of_nil).
    intros [->|He]%elem_of_cons; [apply (Hid env); by constructor|]. eapply IH; [|exact He]. intros e' He'. apply Hid. by constructor. }
  split.
  - unfold stream_of. apply bfilter_all, Forall_forall. intros e He. apply bool_decide_eq_true. by apply Hall.
  - intros id' Hne. apply bfilter_none, Forall_forall. intros e He. apply bool_decide_eq_false. rewrite (Hall e He). congruence.
Qed.

Lemma tx_stream_op t : tx_stream t = op_stream (tx_op t).
Proof. done. Qed.

Lemma tx_answer_grows l k t : tx_answer l t → tx_answer (l ++ k) t.
Proof.
  unfold tx_answer. destruct (tx_at t) as [| | | |res [e|]]; try done.
  - intros [Hs Hc]. split; [done|]. destruct Hc as [?|[?|[(l1 & l2 & -> & Hv)|?]]]; [by left|right; by left| |do 3 right; done].
    do 2 right. left. exists l1, (l2 ++ k). by rewrite <- app_assoc.
  - intros [?|(l1 & ids & l2 & -> & Hx)]; [by left|right]. exists l1, ids, (l2 ++ k). split; [|done]. by rewrite <- !app_assoc.
Qed.

Lemma lookup_with_tx n t0 t s i u : pg_txs s !! n = Some t0 → <[n := t]> (pg_txs s) !! i = Some u →
  i = n ∧ u = t ∨ i ≠ n ∧ pg_txs s !! i = Some u.
Proof. intros Hn. rewrite list_lookup_insert_Some. naive_solver. Qed.

Lemma new_tx_spec reg op l rows seq : registry_wf (so_reg op) → extends (so_reg op) reg →
  tx_inv reg rows seq l (new_tx op) ∧ tx_answer l (new_tx op) ∧ tx_op (new_tx op) = op ∧
  holds_stream (new_tx op) = false ∧ holds_append (new_tx op) = false.
Proof.
  intros Hwf Hext. unfold new_tx. destruct (so_events op) as [|env0 evs] eqn:Hevs.
  { unfold tx_inv, tx_answer. cbn. rewrite Hevs. split_and!; try done. by left. }
  rewrite <- Hevs. assert (op_stream op = StreamID env0) as Hst by (unfold op_stream; by rewrite Hevs).
  pose proof (validate_spec (StreamID env0) (so_events op)) as Hv. rewrite <- Hst in *.
  pose proof (encode_encodable (so_now op) (so_reg op) (so_events op)) as He.
  destruct (validate _ _) as [e|] eqn:Hval.
  { unfold tx_inv, tx_answer. cbn. split_and!; try done. left. done. }
  destruct (encode _ _ _) as [recs|e] eqn:Henc.
  2: { unfold tx_inv, tx_answer. cbn. split_and!; try done. right. by left. }
  unfold tx_inv, tx_answer. cbn. split_and!; try done. split; cbn; [by rewrite Hevs| |by eapply encode_spec].
  intros env. by apply valid_batch_stream.
Qed.
(** *** Steps *)

(** A transaction moves on, and the sequence with it when it inserts. *)
Lemma pg_inv_move reg s h l n t0 t seq :
  pg_inv reg s h l → pg_txs s !! n = Some t0 → (∀ res e, tx_at t0 ≠ Over res e) → tx_op t = tx_op t0 →
  pg_seq s ≤ seq ≤ max_int64 → (seq = pg_seq s ∨ holds_append t0 = true) →
  tx_inv reg (pg_rows s) seq l t → tx_answer l t →
  (holds_append t = true → holds_append t0 = true ∨ append_lock_free s = true) →
  (holds_stream t = true → holds_stream t0 = true ∨ stream_lock_free hashtext (tx_stream t) s = true) →
  pg_inv reg (mkPg (pg_rows s) seq (<[n := t]> (pg_txs s)) (pg_commits s)) h l.
Proof.
  intros [Ht Hs Hb Htx Ha Hst Hser Hops Hone] Hn Hlive Hop Hseq Hmove Hinv Hans Happ Hstr.
  assert (∀ m u, pg_txs s !! m = Some u → m ≠ n → holds_append t = true → holds_append u = true → False) as Hxa.
  { intros m u Hm Hne Hx Hu. destruct (Happ Hx) as [H0|Hf]; [by eapply Hne, Ha|].
    unfold append_lock_free in Hf. rewrite forallb_elem in Hf. specialize (Hf u ltac:(by eapply list_elem_of_lookup_2)). by rewrite Hu in Hf. }
  assert (∀ m u, pg_txs s !! m = Some u → m ≠ n → holds_stream t = true → holds_stream u = true →
    hashtext (tx_stream t) = hashtext (tx_stream u) → False) as Hxs.
  { intros m u Hm Hne Hx Hu Hh. destruct (Hstr Hx) as [H0|Hf].
    - eapply Hne, Hst; [exact Hm|exact Hn|done|done|]. rewrite <- Hh. by rewrite !tx_stream_op, Hop.
    - unfold stream_lock_free in Hf. rewrite forallb_elem in Hf. specialize (Hf u ltac:(by eapply list_elem_of_lookup_2)).
      by rewrite Hu, Hh, Z.eqb_refl in Hf. }
  split; cbn [pg_rows pg_seq pg_txs pg_commits]; [done|lia| | | | |done| |done].
  - intros env He. specialize (Hb env He). lia.
  - intros m u Hm. destruct (lookup_with_tx _ _ _ _ _ _ Hn Hm) as [[-> ->]|[Hne Hu]]; [done|].
    destruct (Htx m u Hu) as [Hi Hw]. split; [|done]. destruct Hmove as [->|Happ0]; [done|].
    unfold tx_inv in *. destruct (tx_at u) eqn:Hpc; try done. exfalso. apply Hne. eapply Ha; [exact Hu|exact Hn| |done].
    unfold holds_append. by rewrite Hpc.
  - intros i j u w Hi Hj Hu Hw. destruct (lookup_with_tx _ _ _ _ _ _ Hn Hi) as [[-> ->]|[Hne1 Hi']], (lookup_with_tx _ _ _ _ _ _ Hn Hj) as [[-> ->]|[Hne2 Hj']];
      [done|exfalso; by eapply Hxa|exfalso; by eapply Hxa|by eapply Ha].
  - intros i j u w Hi Hj Hu Hw Hh. destruct (lookup_with_tx _ _ _ _ _ _ Hn Hi) as [[-> ->]|[Hne1 Hi']], (lookup_with_tx _ _ _ _ _ _ Hn Hj) as [[-> ->]|[Hne2 Hj']];
      [done|exfalso; by eapply Hxs|exfalso; eapply Hxs; (done || by symmetry)|by eapply Hst].
  - eapply Forall2_impl; [exact Hops|]. intros m x (u & res & e & Hm & Hx & Hpc). exists u, res, e. split_and!; [|done..].
    rewrite list_lookup_insert_ne; [done|]. intros <-. simplify_eq. by eapply Hlive.
Qed.

Lemma tx_failed_ok reg rows seq l t e : tx_op (tx_failed e t) = tx_op t ∧ tx_inv reg rows seq l (tx_failed e t) ∧
  holds_append (tx_failed e t) = false ∧ holds_stream (tx_failed e t) = false.
Proof. done. Qed.

(** A save that fails on the database or on its expectation. *)
Lemma pg_inv_fail reg s h l n t e seq :
  pg_inv reg s h l → pg_txs s !! n = Some t → (∀ res e, tx_at t ≠ Over res e) →
  pg_seq s ≤ seq ≤ max_int64 → (seq = pg_seq s ∨ holds_append t = true) → tx_answer l (tx_failed e t) →
  pg_inv reg (mkPg (pg_rows s) seq (<[n := tx_failed e t]> (pg_txs s)) (pg_commits s)) h l.
Proof.
  intros Hi Hn Hlive Hseq Hmove Hans. eapply pg_inv_move; try done.
Qed.

Lemma pg_failure_answer l t msg fe : msg ∈ ["save events to stream"; "insert event"; "commit"] →
  tx_answer l (tx_failed (Errorf msg fe) t).
Proof. intros Hm. split; [done|]. do 3 right. by exists msg, fe. Qed.

Lemma check_answer l t e : check_stream (tx_stream t) (op_version (tx_op t) l) (so_revision (tx_op t)) = Some e →
  tx_answer l (tx_failed e t).
Proof.
  intros Hc. pose proof (check_stream_spec (tx_stream t) (op_version (tx_op t) l) (so_revision (tx_op t))) as Hs.
  rewrite Hc in Hs. split; [done|]. do 2 right. left. exists l, []. by rewrite app_nil_r.
Qed.

(** The insert of the next row: it is never refused as a duplicate. *)
Lemma insert_next_inv reg s h l n t cv i lastID rec :
  pg_inv reg s h l → pg_txs s !! n = Some t → tx_at t = Inserting cv i lastID → tx_rows t !! i = Some rec →
  pg_inv reg (insert_next timestamptz n cv i rec t s) h l ∧
  ((∃ t', pg_txs (insert_next timestamptz n cv i rec t s) !! n = Some t' ∧ ∃ id, tx_at t' = Inserting cv (S i) id) ∨
   max_int64 ≤ pg_seq s).
Proof.
  intros Hi Hn Hpc Hrec. pose proof Hi as [Ht Hs Hb Htx Ha Hst Hser Hops Hone].
  destruct (Htx n t Hn) as [Hinv _]. unfold tx_inv in Hinv. rewrite Hpc in Hinv.
  destruct Hinv as ([Hne Hevs Hrows] & Hcv & Hexp & ids & Hlen & Hle & Hlast & Hrange & Htab & Hbelow).
  assert (∀ res e, tx_at t ≠ Over res e) as Hlive by (intros; congruence).
  assert (holds_append t = true) as Hhold by (unfold holds_append; by rewrite Hpc).
  unfold insert_next. destruct (Z.leb_spec max_int64 (pg_seq s)) as [Hfull|Hroom].
  { split; [|by right]. apply (pg_inv_fail reg s h l n t _ (pg_seq s)); [done..|lia|by left|].
    apply pg_failure_answer. set_solver. }
  destruct (Forall2_lookup_l _ _ _ _ _ Hrows Hrec) as (env & Henv & Hst1 & Hdec).
  assert (StreamID env = op_stream (tx_op t)) as Hid by (apply Hevs; by eapply list_elem_of_lookup_2).
  set (k := op_block (tx_op t) ids l) in *.
  assert (zlen (stream_of (StreamID env) (l ++ k)) = cv + Z.of_nat i) as Hz.
  { rewrite stream_of_app, zlen_app, Hid. unfold k, op_block.
    rewrite (proj1 (stamp_ids_stream _ _ ids _ _ Hevs)). unfold zlen at 2. rewrite stamp_ids_length by lia.
    unfold op_version in Hcv. lia. }
  assert (zlen (l ++ k) ≤ pg_seq s) as Hroomk by (eapply ordered_room; [apply Htab|done|lia]).
  pose proof (zlen_stream_of (StreamID env) (l ++ k)) as Hzs. unfold op_version in Hcv. pose proof (zlen_stream_of (op_stream (tx_op t)) l).
  rewrite (u64_small (cv + 1)) by (unfold is_u64, max_int64, two64 in *; lia).
  rewrite (int64_small (cv + 1)) by (unfold min_int64; lia).
  rewrite int64_small by (unfold min_int64; lia).
  replace (cv + 1 + Z.of_nat i) with (zlen (stream_of (StreamID env) (l ++ k)) + 1) by lia.
  rewrite (tx_stream_op t), <- Hid, (next_not_taken C reg _ _ _ Htab).
  set (t' := mkTx _ _ _ _).
  pose proof (table_log_insert C reg (so_now (tx_op t)) _ _ rec env (pg_seq s + 1) Htab Hst1 Hdec
    ltac:(intros e He; specialize (Hbelow e He); lia) ltac:(lia)) as Hnew. cbv zeta in Hnew.
  assert (op_block (tx_op t) (ids ++ [pg_seq s + 1]) l
    = k ++ [sql_stored C (so_now (tx_op t)) (zlen (stream_of (StreamID env) (l ++ k)) + 1) (pg_seq s + 1) env]) as Hblock.
  { unfold op_block. rewrite (stamp_ids_snoc _ _ _ _ env) by (by rewrite Hlen). unfold k, op_block. do 3 f_equal.
    unfold op_version, zlen at 2. rewrite Hlen. unfold k, op_block in Hz. unfold op_version in Hz. lia. }
  split.
  - apply (pg_inv_move reg s h l n t t' (pg_seq s + 1)); try done; [lia|by right| |by left|left; unfold holds_stream; by rewrite Hpc].
    unfold tx_inv, t'. cbn [tx_at tx_op tx_pending]. split; [split; [done..|exact Hrows]|]. split; [done|]. split; [done|].
    exists (ids ++ [pg_seq s + 1]). rewrite length_app, last_snoc. cbn [length default]. rewrite Hblock.
    split_and!; [lia| |done|lia|lia|by rewrite !app_assoc|].
    + apply lookup_lt_Some in Henv. lia.
    + intros e. rewrite app_assoc, elem_of_app. intros [He|He%list_elem_of_singleton]; [specialize (Hbelow e He); lia|]. by subst e.
  - left. exists t'. split; [|by eexists]. cbn [with_tx pg_txs]. apply list_lookup_insert_eq. by eapply lookup_lt_Some.
Qed.
(** A commit makes the block of the save the end of the log. *)
Lemma commit_inv reg s h l n t cv i lastID lost s' :
  pg_inv reg s h l → pg_txs s !! n = Some t → tx_at t = Inserting cv i lastID → step (CommitSave n lost) s = Some s' →
  ∃ ids, let l' := l ++ op_block (tx_op t) ids l in
    pg_inv reg s' (h ++ [(tx_op t, ids)]) l' ∧ pg_rows s `prefix_of` pg_rows s'.
Proof.
  intros Hi Hn Hpc Hx. pose proof Hi as [Ht Hs Hb Htx Ha Hst Hser Hops Hone].
  destruct (Htx n t Hn) as [Hinv _]. unfold tx_inv in Hinv. rewrite Hpc in Hinv.
  destruct Hinv as ([Hne Hevs Hrows] & Hcv & Hexp & ids & Hlen & Hle & Hlast & Hrange & Htab & Hbelow).
  assert (holds_append t = true) as Hhold by (unfold holds_append; by rewrite Hpc).
  assert (holds_stream t = true) as Hholds by (unfold holds_stream; by rewrite Hpc).
  cbn [pg_step] in Hx. rewrite Hn, Hpc in Hx. unfold next_row in Hx. destruct (tx_rows t !! i) eqn:Hrow; [done|].
  assert (length ids = length (so_events (tx_op t))) as Hfull.
  { apply lookup_ge_None in Hrow. rewrite (Forall2_length _ _ _ Hrows) in Hrow. lia. }
  set (k := op_block (tx_op t) ids l) in *. exists ids. fold k. cbv zeta.
  destruct (stamp_ids_stream (so_now (tx_op t)) (op_version (tx_op t) l) ids _ _ Hevs) as [Hsame Hother]. fold k in Hsame, Hother.
  change (stamp_ids _ _ _ _) with k in Hsame, Hother.
  assert (zlen k = zlen (so_events (tx_op t))) as Hzk.
  { unfold k, op_block, zlen. rewrite stamp_ids_length by lia. by rewrite Hfull. }
  assert (cv + zlen (so_events (tx_op t)) ≤ max_int64) as Hver.
  { assert (zlen (l ++ k) ≤ pg_seq s) by (eapply ordered_room; [apply Htab|done|lia]).
    pose proof (zlen_stream_of (op_stream (tx_op t)) (l ++ k)) as Hzs. rewrite stream_of_app, Hsame, zlen_app in Hzs.
    unfold op_version in Hcv. lia. }
  assert (0 ≤ cv) as Hcv0 by (rewrite Hcv; apply zlen_nonneg). pose proof (zlen_nonneg (so_events (tx_op t))).
  assert (∃ res e, s' = mkPg (pg_rows s ++ tx_pending t) (pg_seq s)
    (<[n := mkTx (tx_op t) (tx_rows t) (Over res e) []]> (pg_txs s)) (pg_commits s ++ [n]) ∧
    tx_answer (l ++ k) (mkTx (tx_op t) (tx_rows t) (Over res e) [])) as (res & e & -> & Hans).
  { destruct lost as [fe|]; injection Hx as <-; do 2 eexists; (split; [done|]).
    - split; [done|]. do 3 right. exists "commit", fe. split; [set_solver|done].
    - unfold tx_answer. cbn [tx_at tx_op]. cbv zeta. right. exists l, ids, []. rewrite app_nil_r.
      split_and!; [done..|by rewrite <- Hcv|].
      rewrite <- Hcv, <- Hlast, tx_stream_op. by rewrite !u64_small by (unfold is_u64, max_int64, two64 in *; lia). }
  set (t' := mkTx _ _ _ _) in *. split; [|by eexists]. split; cbn [pg_rows pg_seq pg_txs pg_commits].
  - exact Htab.
  - done.
  - exact Hbelow.
  - intros m u Hm. destruct (lookup_with_tx _ _ _ _ _ _ Hn Hm) as [[-> ->]|[Hmn Hu]]; [done|].
    destruct (Htx m u Hu) as [Hu1 Hu2]. split; [|by apply tx_answer_grows]. unfold tx_inv in *.
    destruct (tx_at u) eqn:Hpu; try done.
    + destruct Hu1 as (Hr & Hp & Hc & He). split_and!; [done..| |done]. rewrite Hc. unfold op_version.
      rewrite stream_of_app, Hother, app_nil_r; [done|]. intros Heq. apply Hmn.
      eapply Hst; [exact Hu|exact Hn|unfold holds_stream; by rewrite Hpu|done|]. by rewrite !tx_stream_op, Heq.
    + exfalso. apply Hmn. eapply Ha; [exact Hu|exact Hn|unfold holds_append; by rewrite Hpu|done].
  - intros x y u w Hx' Hy Hu Hw.
    destruct (lookup_with_tx _ _ _ _ _ _ Hn Hx') as [[-> ->]|[? ?]], (lookup_with_tx _ _ _ _ _ _ Hn Hy) as [[-> ->]|[? ?]]; try done.
    by eapply Ha.
  - intros x y u w Hx' Hy Hu Hw Hh.
    destruct (lookup_with_tx _ _ _ _ _ _ Hn Hx') as [[-> ->]|[? ?]], (lookup_with_tx _ _ _ _ _ _ Hn Hy) as [[-> ->]|[? ?]]; try done.
    by eapply Hst.
  - constructor; [done|by rewrite <- Hcv|done].
  - apply Forall2_app.
    + eapply Forall2_impl; [exact Hops|]. intros m x (u & r & er & Hm & Hux & Hpu). exists u, r, er. split_and!; [|done..].
      rewrite list_lookup_insert_ne; [done|]. intros <-. simplify_eq. congruence.
    + constructor; [|constructor]. exists t', res, e. split_and!; [|done..]. apply list_lookup_insert_eq. by eapply lookup_lt_Some.
  - apply NoDup_app. split_and!; [done| |apply NoDup_singleton]. intros m Hm ->%list_elem_of_singleton.
    apply list_elem_of_lookup in Hm as [j Hj]. destruct (Forall2_lookup_l _ _ _ _ _ Hops Hj) as (x & _ & u & r & er & Hu & _ & Hpu).
    simplify_eq. congruence.
Qed.

Lemma pg_begin_inv reg s h l op : pg_inv reg s h l → registry_wf (so_reg op) → extends (so_reg op) reg →
  pg_inv reg (mkPg (pg_rows s) (pg_seq s) (pg_txs s ++ [new_tx op]) (pg_commits s)) h l.
Proof.
  intros [Ht Hs Hb Htx Ha Hst Hser Hops Hone] Hwf Hext.
  destruct (new_tx_spec reg op l (pg_rows s) (pg_seq s) Hwf Hext) as (Hinv & Hans & _ & Hns & Hna).
  split; cbn [pg_rows pg_seq pg_txs pg_commits]; try done.
  - intros n t [[_ Hn]|[-> <-]]%lookup_snoc_Some; [exact (Htx n t Hn)|done].
  - intros n m t u [[_ Hn]|[-> <-]]%lookup_snoc_Some [[_ Hm]|[-> <-]]%lookup_snoc_Some; try congruence. by eapply Ha.
  - intros n m t u [[_ Hn]|[-> <-]]%lookup_snoc_Some [[_ Hm]|[-> <-]]%lookup_snoc_Some; try congruence. by eapply Hst.
  - eapply Forall2_impl; [exact Hops|]. intros m x (u & r & er & Hm & Hux & Hpu). exists u, r, er. split_and!; [|done..].
    by apply lookup_app_l_Some.
Qed.

Lemma pg_step_inv reg s h l a s' : pg_inv reg s h l → begins_ok reg a → step a s = Some s' →
  (∃ h' l', pg_inv reg s' h' l' ∧ l `prefix_of` l') ∧ pg_rows s `prefix_of` pg_rows s'.
Proof.
  intros Hi Hok Hx. pose proof Hi as [Ht Hs Hb Htx Ha Hst Hser Hops Hone].
  assert (∀ seq txs, pg_inv reg (mkPg (pg_rows s) seq txs (pg_commits s)) h l →
    (∃ h' l', pg_inv reg (mkPg (pg_rows s) seq txs (pg_commits s)) h' l' ∧ l `prefix_of` l') ∧
    pg_rows s `prefix_of` pg_rows (mkPg (pg_rows s) seq txs (pg_commits s))) as Hsame by (intros; split; [by exists h, l|done]).
  destruct a as [op|n|n|n|n|n lost|n e].
  - injection Hx as <-. destruct Hok. by apply Hsame, pg_begin_inv.
  - cbn [pg_step] in Hx. destruct (pg_txs s !! n) as [t|] eqn:Hn; [|done].
    destruct (tx_at t) eqn:Hpc; try done. destruct (stream_lock_free _ _ _) eqn:Hfree; [|done]. injection Hx as <-.
    destruct (Htx n t Hn) as [Hinv _]. unfold tx_inv in Hinv. rewrite Hpc in Hinv. destruct Hinv as [Hr Hp].
    apply Hsame, (pg_inv_move reg s h l n t (at_tx HasStream t)); try done; [intros; congruence|lia|by left| |by right].
    unfold tx_inv. cbn [tx_at at_tx tx_pending]. split; [|done]. destruct Hr. by split.
  - cbn [pg_step] in Hx. destruct (pg_txs s !! n) as [t|] eqn:Hn; [|done].
    destruct (tx_at t) eqn:Hpc; try done. destruct (Htx n t Hn) as [Hinv _]. unfold tx_inv in Hinv. rewrite Hpc in Hinv. destruct Hinv as [Hr Hp].
    rewrite (select_version_spec C reg _ _ (tx_stream t) Ht) in Hx. change (zlen (stream_of (tx_stream t) l)) with (op_version (tx_op t) l) in Hx.
    destruct (check_stream _ _ _) as [e|] eqn:Hc; injection Hx as <-.
    + apply Hsame, pg_inv_fail; try done; [intros; congruence|lia|by left|by apply check_answer].
    + apply Hsame, (pg_inv_move reg s h l n t (at_tx (WaitAppend (op_version (tx_op t) l)) t)); try done; [intros; congruence|lia|by left| |].
      * pose proof (check_stream_spec (tx_stream t) (op_version (tx_op t) l) (so_revision (tx_op t))) as Hcs. rewrite Hc in Hcs.
        unfold tx_inv. cbn [tx_at at_tx tx_pending]. split_and!; [destruct Hr; by split|done..].
      * intros _. left. unfold holds_stream. by rewrite Hpc.
  - cbn [pg_step] in Hx. destruct (pg_txs s !! n) as [t|] eqn:Hn; [|done].
    destruct (tx_at t) as [| |cv| |] eqn:Hpc; try done. destruct (append_lock_free s) eqn:Hfree; [|done]. injection Hx as <-.
    destruct (Htx n t Hn) as [Hinv _]. unfold tx_inv in Hinv. rewrite Hpc in Hinv. destruct Hinv as (Hr & Hp & Hcv & He).
    apply Hsame, (pg_inv_move reg s h l n t (at_tx (Inserting cv 0 0) t)); try done; [intros; congruence|lia|by left| |by right|].
    + unfold tx_inv. cbn [tx_at at_tx tx_op tx_pending]. split_and!; [destruct Hr; by split|done..|]. exists [].
      rewrite Hp. unfold op_block. cbn. rewrite !app_nil_r. split_and!; (done || lia).
    + intros _. left. unfold holds_stream. by rewrite Hpc.
  - cbn [pg_step] in Hx. destruct (pg_txs s !! n) as [t|] eqn:Hn; [|done].
    destruct (tx_at t) as [| | |cv i lastID|] eqn:Hpc; try done. unfold next_row in Hx.
    destruct (tx_rows t !! i) as [rec|] eqn:Hrec; [|done]. injection Hx as <-.
    destruct (insert_next_inv reg s h l n t cv i lastID rec Hi Hn Hpc Hrec) as [Hi' _].
    split; [by exists h, l|]. unfold insert_next. by repeat case_match.
  - destruct (pg_txs s !! n) as [t|] eqn:Hn; [|cbn in Hx; by rewrite Hn in Hx].
    destruct (tx_at t) as [| | |cv i lastID|] eqn:Hpc; try (cbn in Hx; by rewrite Hn, Hpc in Hx).
    destruct (commit_inv reg s h l n t cv i lastID lost s' Hi Hn Hpc Hx) as (ids & Hi' & Hp).
    split; [|done]. do 2 eexists. split; [exact Hi'|by eexists].
  - cbn [pg_step] in Hx. destruct (pg_txs s !! n) as [t|] eqn:Hn; [|done].
    assert (∀ p, tx_at t = p → (∀ res e, p ≠ Over res e) → s' = with_tx n (tx_failed (Errorf "save events to stream" e) t) s →
      (∃ h' l', pg_inv reg s' h' l' ∧ l `prefix_of` l') ∧ pg_rows s `prefix_of` pg_rows s') as Hgo.
    { intros p Hp Hl ->. apply Hsame, pg_inv_fail; try done; [by rewrite Hp|lia|by left|]. apply pg_failure_answer. set_solver. }
    destruct (tx_at t) eqn:Hpc; try done; injection Hx as <-; (eapply Hgo; [done|intros; congruence|done]).
Qed.

Lemma empty_pg_inv reg : pg_inv reg empty_pg [] [].
Proof.
  split; cbn [pg_rows pg_seq pg_txs pg_commits empty_pg].
  - split; [constructor|]. split; [constructor|by intros env ?%not_elem_of_nil|done].
  - unfold max_int64. lia.
  - by intros env ?%not_elem_of_nil.
  - done.
  - done.
  - done.
  - constructor.
  - constructor.
  - constructor.
Qed.

Lemma pg_runs_inv reg s s' h l : pg_inv reg s h l → pg_runs hashtext timestamptz reg s s' →
  (∃ h' l', pg_inv reg s' h' l' ∧ l `prefix_of` l') ∧ pg_rows s `prefix_of` pg_rows s'.
Proof.
  intros Hi Hr. induction Hr as [s|s s1 s2 a Hr IH Hok Hx]; [split; [by exists h, l|done]|].
  destruct (IH Hi) as [(h1 & l1 & Hi1 & Hp1) Hrows]. destruct (pg_step_inv _ _ _ _ _ _ Hi1 Hok Hx) as [(h2 & l2 & Hi2 & Hp2) Hrows2].
  split; [exists h2, l2; split; [done|]|]; by etrans.
Qed.
End proofs.

#[export] Instance pg_reader `{J : JSON} (timestamptz : time → time) (reg : Registry) : GlobalReader pg := {
  reader_ReadAll s after opts := pg_ReadAll timestamptz None None reg after opts s s;
  reader_Head s := pg_Head None s;
}.

(** ** Progress *)

(** The steps a Save has left. *)
Definition tx_left (t : tx) : Z :=
  match tx_at t with
  | WaitStream => 4 + zlen (tx_rows t)
  | HasStream => 3 + zlen (tx_rows t)
  | WaitAppend _ => 2 + zlen (tx_rows t)
  | Inserting _ i _ => 1 + Z.max 0 (zlen (tx_rows t) - Z.of_nat i)
  | Over _ _ => 0
  end.

Definition is_over (t : tx) : bool := match tx_at t with Over _ _ => true | _ => false end.
Definition is_begin (a : pg_action) : bool := match a with BeginSave _ => true | _ => false end.

(** A step of the program and the database, not a failure or a new call. *)
Definition is_progress (a : pg_action) : bool :=
  match a with BeginSave _ | FailSave _ _ | CommitSave _ (Some _) => false | _ => true end.

Section progress.
Context `{J : JSON, !JSONLaws J} (hashtext : string → Z) (timestamptz : time → time).
Local Notation step := (pg_step hashtext timestamptz).
Implicit Types (t u : tx) (s : pg).

Lemma tx_left_nonneg t : 0 ≤ tx_left t.
Proof. pose proof (zlen_nonneg (tx_rows t)). unfold tx_left. destruct (tx_at t); lia. Qed.

Lemma with_tx_left n t0 t txs : txs !! n = Some t0 → lsum tx_left (<[n := t]> txs) = lsum tx_left txs - tx_left t0 + tx_left t.
Proof. apply lsum_insert. Qed.

Lemma pg_step_left a s s' : step a s = Some s' → is_begin a = false → lsum tx_left (pg_txs s') < lsum tx_left (pg_txs s).
Proof.
  intros Hx Hb.
  assert (∀ n t t', pg_txs s !! n = Some t → pg_txs s' = <[n := t']> (pg_txs s) → tx_left t' < tx_left t →
    lsum tx_left (pg_txs s') < lsum tx_left (pg_txs s)) as Hgo.
  { intros n t t' Hn -> Hl. rewrite (with_tx_left _ _ _ _ Hn). lia. }
  assert (∀ t e, (match tx_at t with Over _ _ => False | _ => True end) → tx_left (tx_failed e t) < tx_left t) as Hfail.
  { intros t e Hl. pose proof (zlen_nonneg (tx_rows t)). unfold tx_left. cbn. destruct (tx_at t); (done || lia). }
  destruct a as [op|n|n|n|n|n lost|n e]; [done|..]; cbn [pg_step] in Hx; destruct (pg_txs s !! n) as [t|] eqn:Hn; try done;
    destruct (tx_at t) as [| |cv|cv i lastID|res er] eqn:Hpc; try done.
  - destruct (stream_lock_free _ _ _); [|done]. injection Hx as <-. eapply Hgo; [exact Hn|done|]. unfold tx_left. cbn. rewrite Hpc. lia.
  - destruct (check_stream _ _ _); injection Hx as <-; (eapply Hgo; [exact Hn|done|]); [apply Hfail; by rewrite Hpc|].
    unfold tx_left. cbn. rewrite Hpc. lia.
  - destruct (append_lock_free _); [|done]. injection Hx as <-. eapply Hgo; [exact Hn|done|].
    pose proof (zlen_nonneg (tx_rows t)). unfold tx_left. cbn. rewrite Hpc. lia.
  - unfold next_row in Hx. destruct (tx_rows t !! i) as [rec|] eqn:Hrec; [|done]. apply lookup_lt_Some in Hrec.
    unfold insert_next in Hx. destruct (max_int64 <=? pg_seq s).
    { injection Hx as <-. eapply Hgo; [exact Hn|done|apply Hfail; by rewrite Hpc]. }
    destruct (taken _ _ _); injection Hx as <-; (eapply Hgo; [exact Hn|done|]); [apply Hfail; by rewrite Hpc|].
    unfold tx_left. cbn. rewrite Hpc. unfold zlen. lia.
  - unfold next_row in Hx. destruct (tx_rows t !! i); [done|]. destruct lost; injection Hx as <-; (eapply Hgo; [exact Hn|done|]);
      unfold tx_left; cbn; rewrite Hpc; lia.
  - injection Hx as <-. eapply Hgo; [exact Hn|done|apply Hfail; by rewrite Hpc].
  - injection Hx as <-. eapply Hgo; [exact Hn|done|apply Hfail; by rewrite Hpc].
  - injection Hx as <-. eapply Hgo; [exact Hn|done|apply Hfail; by rewrite Hpc].
  - injection Hx as <-. eapply Hgo; [exact Hn|done|apply Hfail; by rewrite Hpc].
Qed.

(** Whoever holds the lock of all appends can go on; without one, whoever
    waits for it; else whoever holds the lock of a stream; else anyone. *)
Lemma pg_can_move s n t : pg_txs s !! n = Some t → is_over t = false →
  ∃ a s', is_progress a = true ∧ step a s = Some s'.
Proof.
  intros Hn Hlive.
  assert (∀ p : tx → bool, (∃ m u, pg_txs s !! m = Some u ∧ p u = true) ∨ ∀ m u, pg_txs s !! m = Some u → p u = false) as Hdec.
  { intros p. destruct (existsb p (pg_txs s)) eqn:He.
    - left. apply existsb_elem in He as (u & [m Hm]%list_elem_of_lookup & Hu). by exists m, u.
    - right. intros m u Hm. apply not_true_iff_false. intros Hu. apply not_true_iff_false in He. apply He, existsb_elem.
      exists u. split; [by eapply list_elem_of_lookup_2|done]. }
  assert (∀ p : tx → bool, (∀ m u, pg_txs s !! m = Some u → p u = false) → ∀ q : tx → bool, (∀ u, q u = true → p u = true) →
    forallb (λ u, negb (q u)) (pg_txs s) = true) as Hfree.
  { intros p Hp q Hq. apply forallb_elem. intros u [m Hm]%list_elem_of_lookup. specialize (Hp m u Hm).
    destruct (q u) eqn:Hu; [|done]. rewrite (Hq u Hu) in Hp. done. }
  destruct (Hdec holds_append) as [(m & u & Hm & Hu)|Happ].
  { unfold holds_append in Hu. destruct (tx_at u) as [| | |cv i lastID|] eqn:Hpc; try done.
    destruct (tx_rows u !! i) as [rec|] eqn:Hrec.
    - eexists (InsertRow m), _. split; [done|]. cbn. by rewrite Hm, Hpc; unfold next_row; rewrite Hrec.
    - eexists (CommitSave m None), _. split; [done|]. cbn. by rewrite Hm, Hpc; unfold next_row; rewrite Hrec. }
  destruct (Hdec holds_stream) as [(m & u & Hm & Hu)|Hstr].
  { unfold holds_stream in Hu. destruct (tx_at u) as [| |cv|cv i lastID|] eqn:Hpc; try done.
    - destruct (check_stream (tx_stream u) (select_version (tx_stream u) (pg_rows s)) (so_revision (tx_op u))) eqn:Hc;
        eexists (ReadVersion m), _; (split; [done|]); cbn; by rewrite Hm, Hpc, Hc.
    - eexists (LockAppend m), _. split; [done|]. cbn. rewrite Hm, Hpc. unfold append_lock_free. by rewrite (Hfree _ Happ).
    - specialize (Happ m u Hm). unfold holds_append in Happ. by rewrite Hpc in Happ. }
  eexists (LockStream n), _. split; [done|]. cbn. rewrite Hn. specialize (Hstr n t Hn) as Hs. unfold holds_stream in Hs.
  unfold is_over in Hlive. destruct (tx_at t); try done. unfold stream_lock_free.
  by rewrite (Hfree _ Hstr) by (intros u [? _]%andb_true_iff; done).
Qed.
End progress.

Section properties.
Context `{J : JSON, !JSONLaws J} (hashtext : string → Z) (timestamptz : time → time).
Local Notation runs := (pg_runs hashtext timestamptz).
Local Notation C := (pg_columns timestamptz).

(** C10: However concurrent saves of the PostgreSQL store interleave, fail or lose
    their connection, the committed rows decode to a log that the committed
    saves, run one after another in commit order, would have produced: each
    found its expectation met by exactly the log it was appended to, and its
    events form one block.  A save that reports success is such a block and
    reports the stream's new length and its last position; an error means a
    bad batch, an event that cannot be encoded, an expectation that some
    committed state of the stream violated, or a failure of the database, so
    no save ever fails on a duplicate position. *)
Theorem concurrent_saves_are_serial reg s : runs reg empty_pg s →
  ∃ h l, serial timestamptz h l ∧ Forall2 (scans C reg) (pg_rows s) l ∧ NoDup (pg_commits s) ∧
    Forall2 (λ n x, ∃ t res e, pg_txs s !! n = Some t ∧ tx_op t = x.1 ∧ tx_at t = Over res e) (pg_commits s) h ∧
    ∀ n t, pg_txs s !! n = Some t → tx_answer timestamptz l t.
Proof.
  intros Hr. destruct (pg_runs_inv _ _ _ _ _ _ _ (empty_pg_inv hashtext timestamptz reg) Hr) as [(h & l & [[] ] & _) _].
  exists h, l. split_and!; try done. intros n t Hn. by eapply pi_txs0.
Qed.

(** C11: Positions become visible in order: whatever is committed later has larger
    positions than everything committed before, so a reader that stored a
    position never misses an event.  A page whose head and rows are read by
    two statements, with commits in between, is exactly the matching part of
    the log at its first statement, and paging to the end gives all of it,
    although failed saves leave gaps. *)
Theorem positions_appear_in_order reg s s' after opts : runs reg empty_pg s → runs reg s s' → 0 ≤ after ≤ max_int64 →
  (∃ k, pg_rows s' = pg_rows s ++ k ∧ ∀ r r', r ∈ pg_rows s → r' ∈ k → row_id r < row_id r') ∧
  ∃ l, Forall2 (scans C reg) (pg_rows s) l ∧ ordered l ∧
    (∃ res, pg_ReadAll timestamptz None None reg after opts s s' = Ok res ∧ page_of l after opts res) ∧
    read_pages (GR := pg_reader timestamptz reg) (S (length l)) s after opts
    = Some (Ok (bfilter (λ env, (after <? GlobalPosition env) && env_matches opts env) l)).
Proof.
  intros Hr Hr' Ha. destruct (pg_runs_inv _ _ _ _ _ _ _ (empty_pg_inv hashtext timestamptz reg) Hr) as [(h & l & Hi & _) _].
  destruct (pg_runs_inv _ _ _ _ _ _ _ Hi Hr') as [(h' & l' & Hi' & _) [k Hk]].
  pose proof (pi_table _ _ _ _ _ _ Hi) as Ht. pose proof (pi_table _ _ _ _ _ _ Hi') as Ht'.
  assert (∀ o, literal_prefixes starts_with o) as Hlit by done. split.
  - exists k. split; [done|]. intros r r' H H'.
    pose proof (scans_sorted _ _ _ _ (tl_scans _ _ _ _ Ht') (ordered_positions _ (tl_ordered _ _ _ _ Ht'))) as Hs.
    rewrite Hk in Hs. apply StronglySorted_app in Hs as (Hab & _). by apply Hab.
  - exists l. split_and!; [apply Ht|apply Ht| |].
    + apply (sql_ReadAll_page C starts_with reg _ _ _ l'); [done|by exists k|done..].
    + apply read_pages_ordered; [apply Ht| |done|].
      * intros a Hb. apply (sql_ReadAll_page C starts_with reg _ _ _ l); [done|exists []; by rewrite app_nil_r|done..].
      * pose proof (bfilter_length (λ env, after <? GlobalPosition env) l). unfold zlen. lia.
Qed.

(** Concurrent saves of the PostgreSQL store cannot wait for each other for ever.
    Every step of a save takes from a measure that cannot become negative, and
    in every state in which some save has not returned, some save can take its
    next step without anything failing, although each holds the lock of its
    stream while it waits for the lock of all appends. *)
Theorem saves_never_deadlock s :
  0 ≤ lsum tx_left (pg_txs s) ∧
  (∀ a s', pg_step hashtext timestamptz a s = Some s' → is_begin a = false → lsum tx_left (pg_txs s') < lsum tx_left (pg_txs s)) ∧
  (forallb is_over (pg_txs s) = true ∨ ∃ a s', is_progress a = true ∧ pg_step hashtext timestamptz a s = Some s').
Proof.
  split_and!.
  - apply lsum_nonneg. intros t _. apply tx_left_nonneg.
  - intros a s'. apply pg_step_left.
  - destruct (forallb is_over (pg_txs s)) eqn:He; [by left|]. right.
    apply not_true_iff_false in He. rewrite forallb_elem in He.
    destruct (existsb (λ t, negb (is_over t)) (pg_txs s)) eqn:Hex.
    + apply existsb_elem in Hex as (t & [n Hn]%list_elem_of_lookup & Ht%negb_true_iff). by eapply pg_can_move.
    + exfalso. apply He. intros t Ht. apply not_true_iff_false in Hex. rewrite existsb_elem in Hex.
      destruct (is_over t) eqn:Ho; [done|]. exfalso. apply Hex. exists t. by rewrite Ho.
Qed.
End properties.

(** ** Loads read what is committed *)
Section loads.
Context `{J : JSON, !JSONLaws J} (timestamptz : time → time).
Local Notation C := (pg_columns timestamptz).

Lemma cursor_yields reg rows l b : scan_rows C reg rows = Ok l →
  Yields (cursor_next timestamptz reg) None (mkCursor rows None b) l None None (mkCursor [] None b).
Proof.
  revert l. induction rows as [|r rows IH]; intros l; cbn [scan_rows].
  - intros [= <-]. by eapply (Yields_end _ _ _ None (Sentinel io_EOF)).
  - destruct (scanEnvelope C reg r) as [env|] eqn:Hr; [|done]. destruct (scan_rows C reg rows) as [envs|]; [|done].
    intros [= <-]. eapply Yields_item; [done| |by apply IH]. unfold cursor_next. cbn [cur_rows cur_err cur_open]. by rewrite Hr.
Qed.

(** A query read to its end yields its rows and gives the connection back. *)
Lemma queryRows_All reg rows l : scan_rows C reg rows = Ok l →
  ∃ it it', queryRows timestamptz None None reg rows = Ok it ∧
    All (S (length l)) None it = Some (l, None, it') ∧ cur_open (it_state it') = false.
Proof.
  intros Hl. do 2 eexists. split; [done|]. split.
  - rewrite (All_yields _ (Some cursor_close) _ _ _ _ _ _ (S (length l)) (cursor_yields _ _ _ true Hl)); [done|lia].
  - done.
Qed.

(** Where the version asks for an offset, the load is the committed stream
    from there. *)
Lemma pg_LoadStreamFrom_offset reg id version s s' l' v : table_log C reg (pg_rows s') l' →
  version = Any ∧ v = 0 ∨ version = Revision v ∧ 0 ≤ v ≤ max_int64 →
  ∃ it it', pg_LoadStreamFrom timestamptz None None None reg id version s s' = Returns (Ok (inr it)) ∧
    All (S (length (drop (Z.to_nat v) (stream_of id l')))) None it = Some (drop (Z.to_nat v) (stream_of id l'), None, it') ∧
    cur_open (it_state it') = false.
Proof.
  intros Ht [[-> ->]|[-> Hv]]; cbn [pg_LoadStreamFrom].
  - destruct (queryRows_All reg _ _ (select_stream_spec C reg _ _ id Ht)) as (it & it' & -> & Hit). by exists it, it'.
  - unfold ToRawInt64, Revision_ToRawInt64. destruct (Z.ltb_spec max_int64 v); [lia|].
    destruct (queryRows_All reg _ _ (select_stream_after_spec C reg _ _ id v Ht)) as (it & it' & -> & Hit). by exists it, it'.
Qed.
End loads.
