(* ===== verification/KurrentClient.v ===== *)
(** * The KurrentDB client

    What [kurrentdb/eventstore.go] and [kurrentdb/errors.go] use of the
    package github.com/kurrent-io/KurrentDB-Client-Go and of gRPC: values,
    calls and errors.  The client is a parameter, [KurrentClient]; what the
    store relies on is [KurrentLaws], which speaks of the log [$all] of the
    server. *)
From S2P Require Import Prelude Core.

(** ** Values *)

(** The codes the store tells apart. *)
Inductive ErrorCode : Type :=
| ErrorCodeResourceNotFound | ErrorCodeStreamDeleted | ErrorCodeStreamTombstoned
| ErrorCodeResourceAlreadyExists
| ErrorCodeWrongExpectedVersion | ErrorCodeStreamRevisionConflict
| ErrorCodeNotLeader
| OtherErrorCode (n : Z).

#[export] Instance ErrorCode_eq_dec : EqDecision ErrorCode.
Proof. solve_decision. Defined.

(** The codes of gRPC. *)
Inductive Code : Type :=
| Unavailable | DeadlineExceeded | ResourceExhausted | Aborted
| OtherCode (n : Z).

Record EventData : Type := mkEventData {
  ed_EventID : uuid;
  ed_EventType : string;
  ed_Data : string;
  ed_Metadata : string;
}.

Record RecordedEvent : Type := mkRecordedEvent {
  re_EventID : uuid;
  re_EventType : string;
  re_StreamID : string;
  re_EventNumber : Z;
  re_Commit : Z;                (* Position.Commit *)
  re_CreatedDate : time;
  re_Data : string;
  re_UserMetadata : string;
}.

(** An event as it was read: [Event] is what a link resolves to. *)
Record ResolvedEvent : Type := mkResolvedEvent {
  rse_Event : RecordedEvent;
  rse_Link : option RecordedEvent;
}.

(** The stream state an append expects. *)
Inductive KStreamState : Type := KAny | KNoStream | KStreamExists | KRevision (n : Z).

Inductive Direction : Type := Forwards | Backwards.

(** A position in a stream, or in [$all]. *)
Inductive KPosition (P : Type) : Type := Start | End_ | At (p : P).
Arguments Start {P}.
Arguments End_ {P}.
Arguments At {P}.

Record Position : Type := mkPosition { pos_Commit : Z; pos_Prepare : Z }.

Record WriteResult : Type := mkWriteResult {
  wr_NextExpectedVersion : Z;
  wr_CommitPosition : Z;
}.

(** ** The client *)

(** [W] is the world the server is in.  A [Streamer] is the open read of
    [ReadStream] or [ReadAll]; [kurrent_Error] is the code of a value of type
    [*kurrentdb.Error], and [grpc_FromError] is [status.FromError]. *)
Class KurrentClient (W : Type) : Type := {
  Streamer : Type;
  AppendToStream : string → KStreamState → list EventData → W → result error WriteResult * W;
  ReadStream : string → Direction → KPosition Z → bool → Z → W → result error Streamer * W;
  client_ReadAll : Direction → KPosition Position → Z → W → result error Streamer * W;
  Recv : Streamer → result error ResolvedEvent * Streamer;
  streamer_Close : Streamer → W → W;
  OriginalEvent : ResolvedEvent → RecordedEvent;
  client_Close : W → option error * W;
  ctx_Err_at : W → option error;
  kurrent_Error : error → option ErrorCode;
  grpc_FromError : error → option Code;
}.

(** ** The server's log *)

Notation records := (list RecordedEvent).

Definition in_kstream (id : string) (r : RecordedEvent) : bool := bool_decide (re_StreamID r = id).
Definition kstream (id : string) (rs : records) : records := bfilter (in_kstream id) rs.

(** The log of a server none of whose streams was truncated or deleted. *)
Record server_log (rs : records) : Prop := {
  sl_positions : StronglySorted (λ a b, re_Commit a < re_Commit b) rs;
  sl_positive r : r ∈ rs → 0 < re_Commit r < two64;
  sl_numbers id i r : kstream id rs !! i = Some r → re_EventNumber r = Z.of_nat i;
  sl_room : zlen rs < max_int64;
}.

(** The expectation of an append to a stream of [n] events. *)
Definition kexpectation (st : KStreamState) (n : Z) : bool :=
  match st with
  | KAny => true
  | KNoStream => n =? 0
  | KStreamExists => negb (n =? 0)
  | KRevision r => n =? r + 1
  end.

(** [r] records [ed] in stream [id]. *)
Record records_event (id : string) (ed : EventData) (r : RecordedEvent) : Prop := {
  rec_stream_id : re_StreamID r = id;
  rec_event_id : re_EventID r = ed_EventID ed;
  rec_event_type : re_EventType r = ed_EventType ed;
  rec_data : re_Data r = ed_Data ed;
  rec_user_metadata : re_UserMetadata r = ed_Metadata ed;
}.

Section reads.
Context `{C : KurrentClient W}.

Definition error_code (e : error) : option ErrorCode := errors_As kurrent_Error e.

Definition not_found (e : error) : Prop := error_code e = Some ErrorCodeResourceNotFound.

Definition wrong_version (e : error) : Prop :=
  error_code e = Some ErrorCodeWrongExpectedVersion ∨ error_code e = Some ErrorCodeStreamRevisionConflict.

(** [s] delivers the events [rs], none of them through a link, and then [e]. *)
Inductive Delivers : Streamer → records → error → Prop :=
| delivers_end s e s' : Recv s = (Fail e, s') → Delivers s [] e
| delivers_event s r s' rs e :
    Recv s = (Ok (mkResolvedEvent r None), s') → Delivers s' rs e → Delivers s (r :: rs) e.

(** A read of [rs] that can fail on the way; a clean end means that nothing
    is left. *)
Definition reads (rs : records) (s : Streamer) : Prop :=
  ∃ got e, Delivers s got e ∧ got `prefix_of` rs ∧ (errors_Is e io_EOF = true → got = rs).
End reads.

(** The type of the records that link to another one. *)
Definition link_type : string := "$>".

(** What the client and the server document.  [serves w rs]: the log of the
    server is [rs].  Others append meanwhile, so a call finds the log
    somewhere between what it was before and what it is after; that of an
    open read is the log when the read ends. *)
Class KurrentLaws `(C : KurrentClient W) (serves : W → records → Prop) : Prop := {
  serves_log w rs : serves w rs → server_log rs;
  kurrent_Error_type e c : kurrent_Error e = Some c → ∃ text, e = New text;
  ctx_law w e : ctx_Err_at w = Some e → e = Sentinel context_Canceled ∨ e = Sentinel context_DeadlineExceeded;
  original_event r : OriginalEvent (mkResolvedEvent r None) = r;
  (** An append is one block, where its expectation held.  One that reports a
      failure may have been written. *)
  append_law id st eds w res w' rs : serves w rs → eds ≠ [] → AppendToStream id st eds w = (res, w') →
    ∃ rs', rs `prefix_of` rs' ∧ serves w' rs' ∧
      match res with
      | Ok wr => ∃ pre new, (pre ++ new) `prefix_of` rs' ∧ Forall2 (records_event id) eds new ∧
          kexpectation st (zlen (kstream id pre)) = true ∧
          wr_NextExpectedVersion wr = zlen (kstream id pre) + zlen eds - 1
      | Fail e => errors_As is_Permanent e = None ∧ (wrong_version e →
          ∃ at_, rs `prefix_of` at_ ∧ at_ `prefix_of` rs' ∧ kexpectation st (zlen (kstream id at_)) = false)
      end;
  (** Reading a stream from its [n]-th event. *)
  read_stream_law id from n resolve count w res w' rs : serves w rs →
    ReadStream id Forwards from resolve count w = (res, w') →
    (from = Start ∧ n = 0 ∨ from = At n ∧ 0 ≤ n) →
    ∃ at_ rs', rs `prefix_of` at_ ∧ at_ `prefix_of` rs' ∧ serves w' rs' ∧
      match res with
      | Fail _ => True
      | Ok s => (∀ r, r ∈ kstream id rs' → re_EventType r ≠ link_type) → zlen (kstream id at_) ≤ count →
          (∃ e s', Recv s = (Fail e, s') ∧ not_found e ∧ errors_Is e io_EOF = false ∧ kstream id at_ = []) ∨
          (∃ got e, Delivers s got e ∧ got `prefix_of` drop (Z.to_nat n) (kstream id at_) ∧ ¬ not_found e ∧
             (errors_Is e io_EOF = true → got = drop (Z.to_nat n) (kstream id at_) ∧ kstream id at_ ≠ []))
      end;
  (** Reading the last event of a stream. *)
  read_last_law id count w res w' rs : serves w rs →
    ReadStream id Backwards End_ false count w = (res, w') → 1 ≤ count →
    ∃ at_ rs', rs `prefix_of` at_ ∧ at_ `prefix_of` rs' ∧ serves w' rs' ∧
      match res with
      | Fail _ => True
      | Ok s => match Recv s with
                | (Ok k, _) => ∃ r, k = mkResolvedEvent r None ∧ last (kstream id at_) = Some r
                | (Fail e, _) => not_found e → kstream id at_ = []
                end
      end;
  (** Reading [$all] from a position on, which is included, or backwards. *)
  read_all_law from p count w res w' rs : serves w rs → client_ReadAll Forwards from count w = (res, w') →
    (from = Start ∧ p = 0 ∨ from = At (mkPosition p p)) →
    ∃ at_ rs', rs `prefix_of` at_ ∧ at_ `prefix_of` rs' ∧ serves w' rs' ∧
      match res with
      | Fail _ => True
      | Ok s => zlen at_ ≤ count → reads (bfilter (λ r, p <=? re_Commit r) at_) s
      end;
  read_all_back_law count w res w' rs : serves w rs → client_ReadAll Backwards End_ count w = (res, w') →
    ∃ at_ rs', rs `prefix_of` at_ ∧ at_ `prefix_of` rs' ∧ serves w' rs' ∧
      match res with
      | Fail _ => True
      | Ok s => zlen at_ ≤ count → reads (reverse at_) s
      end;
  close_law s w rs : serves w rs → ∃ rs', rs `prefix_of` rs' ∧ serves (streamer_Close s w) rs';
}.

(** ** Facts *)
Lemma kstream_app id rs k : kstream id (rs ++ k) = kstream id rs ++ kstream id k.
Proof. apply bfilter_app. Qed.

Lemma kstream_prefix id rs rs' : rs `prefix_of` rs' → kstream id rs `prefix_of` kstream id rs'.
Proof. intros [k ->]. rewrite kstream_app. by eexists. Qed.

Lemma server_log_prefix rs rs' : rs `prefix_of` rs' → server_log rs' → server_log rs.
Proof.
  intros Hp [Hs H0 Hn Hr]. split.
  - destruct Hp as [k ->]. by eapply StronglySorted_app_1_l.
  - intros r Hr'. apply H0. destruct Hp as [k ->]. set_solver.
  - intros id i r Hi. eapply Hn, prefix_lookup_Some; [exact Hi|by apply kstream_prefix].
  - apply prefix_length in Hp. unfold zlen in *. lia.
Qed.

Lemma kstream_length id rs : zlen (kstream id rs) ≤ zlen rs.
Proof. unfold zlen, kstream. pose proof (bfilter_length (in_kstream id) rs). lia. Qed.

Lemma kstream_all id rs : (∀ r, r ∈ rs → re_StreamID r = id) → kstream id rs = rs.
Proof. intros H. apply bfilter_all, Forall_forall. intros r Hr. by apply bool_decide_eq_true, H. Qed.

(** The events of a block that was appended are numbered from the stream's
    length on. *)
Lemma block_numbers id eds pre new rs : server_log rs → (pre ++ new) `prefix_of` rs → Forall2 (records_event id) eds new →
  ∀ i r, new !! i = Some r → re_EventNumber r = zlen (kstream id pre) + Z.of_nat i.
Proof.
  intros Hl Hp HF i r Hi. assert (kstream id new = new) as Hn.
  { apply kstream_all. intros x [j Hj]%list_elem_of_lookup. by destruct (Forall2_lookup_r _ _ _ _ _ HF Hj) as (ed & _ & []). }
  rewrite (sl_numbers _ Hl id (length (kstream id pre) + i) r); [unfold zlen; lia|].
  eapply prefix_lookup_Some; [|by apply kstream_prefix]. rewrite kstream_app, Hn, lookup_app_r by lia.
  by replace (length (kstream id pre) + i - length (kstream id pre))%nat with i by lia.
Qed.

Lemma Delivers_det `{C : KurrentClient W} (s : Streamer) rs e rs' e' : Delivers s rs e → Delivers s rs' e' → rs' = rs ∧ e' = e.
Proof.
  intros H. revert rs' e'. induction H as [s e s' He|s r s' rs e He H IH]; intros rs' e' H'.
  - inversion H' as [? e1 ? He'|? ? ? ? ? He']; rewrite He in He'; [|done]. injection He' as -> ->. done.
  - inversion H' as [? ? ? He'|? r1 ? ? ? He' H'']; rewrite He in He'; [done|]. injection He' as -> ->.
    by destruct (IH _ _ H'') as [-> ->].
Qed.
