(* ===== verification/Kurrent.v ===== *)
(** * The KurrentDB event store ([kurrentdb/eventstore.go], [kurrentdb/errors.go])

    A store over the client of [KurrentClient]: streams, their order and the
    checks of an append are the server's, and the store translates numbering,
    metadata and errors.  Logging is left out. *)
From S2P Require Import Prelude Core Iter Registry Context Log Backoff MemStore KurrentClient.

(** ** Errors ([errors.go]) *)
Section errors.
Context `{C : KurrentClient W}.

Definition sentinelFor (err : error) : option sentinel :=
  match error_code err with
  | None => None
  | Some (ErrorCodeResourceNotFound | ErrorCodeStreamDeleted | ErrorCodeStreamTombstoned) => Some ErrStreamNotFound
  | Some ErrorCodeResourceAlreadyExists => Some ErrStreamExists
  | Some _ => None
  end.

(** [mapError] of an error. *)
Definition map_err (op : string) (err : error) : error :=
  if errors_Is err io_EOF then err
  else match sentinelFor err with
       | Some sentinel => Errorf2 op (Sentinel sentinel) err
       | None => Errorf op err
       end.

Definition mapError (op : string) (err : option error) : option error :=
  match err with None => None | Some err => Some (map_err op err) end.

Definition isNotFound (err : error) : bool :=
  match error_code err with Some c => bool_decide (c = ErrorCodeResourceNotFound) | None => false end.

Definition isWrongExpectedVersion (err : error) : bool :=
  match error_code err with
  | Some (ErrorCodeWrongExpectedVersion | ErrorCodeStreamRevisionConflict) => true
  | _ => false
  end.

Definition expectationError (revision : StreamState) (err : error) : option error :=
  if negb (isWrongExpectedVersion err) then None
  else match revision with
       | NoStream => Some (Errorf2 "save events to stream" (Sentinel ErrStreamExists) err)
       | StreamExists => Some (Errorf2 "save events to stream" (Sentinel ErrStreamNotFound) err)
       | _ => None
       end.

Definition isRetryableError (err : error) : bool :=
  match error_code err with
  | Some ErrorCodeNotLeader => true
  | _ =>
    match grpc_FromError err with
    | None => false
    | Some (Unavailable | DeadlineExceeded | ResourceExhausted | Aborted) => true
    | Some (OtherCode _) => false
    end
  end.
End errors.

(** ** The store ([eventstore.go]) *)

(** KurrentDB's own metadata keys of an event's chain. *)
Definition k_correlationIDKey : string := "$correlationId".
Definition k_causationIDKey : string := "$causationId".

Definition readToEnd : Z := max_int64.
Definition scanLimit : Z := 4096.

Definition without_chain (md : gmap string any) : gmap string any :=
  delete k_causationIDKey (delete k_correlationIDKey md).

(** [metadata[key] = id], unless there is no id. *)
Definition with_id (key id : string) (md : gmap string any) : gmap string any :=
  if bool_decide (id = "") then md else <[key := AnyString id]> md.

Definition kurrent_metadata (ev : Envelope) : gmap string any :=
  with_id k_causationIDKey (CausationID ev)
    (with_id k_correlationIDKey (CorrelationID ev) (without_chain (default ∅ (Metadata ev)))).

(** [id, _ := metadata[key].(string)] *)
Definition string_at (key : string) (md : gmap string any) : string :=
  match md !! key with Some (AnyString s) => s | _ => "" end.

Definition hasPrefix (streamID : string) (prefixes : list string) : bool :=
  if bool_decide (prefixes = []) then true
  else existsb (λ p, String.prefix p streamID) prefixes.

Definition isSystemRecord (r : RecordedEvent) : bool :=
  String.prefix "$" (re_StreamID r) || String.prefix "$" (re_EventType r).

(** The expectation [Save] sends. *)
Definition stream_state (revision : StreamState) : outcome (result error KStreamState) :=
  match revision with
  | Any => Returns (Ok KAny)
  | NoStream => Returns (Ok KNoStream)
  | StreamExists => Returns (Ok KStreamExists)
  | Revision rev =>
    raw ← Revision_ToRawInt64 rev;
    let n := u64 raw in
    Returns (Ok (if n =? 0 then KNoStream else KRevision (u64 (n - 1))))
  | OtherState _ => Returns (Fail (Errorf "unsupported revision type" (Sentinel ErrInvalidRevision)))
  end.

Section store.
Context `{J : JSON, C : KurrentClient W, B : BackoffOps}.

Definition kurrent_event (reg : Registry) (ev : Envelope) : result error EventData :=
  match EncodeEvent (env_Event ev) reg with
  | Fail e => Fail (Errorf "save events to stream" e)
  | Ok data =>
    match EncodeMetadata (Some (kurrent_metadata ev)) with
    | Fail e => Fail (Errorf "save events to stream" e)
    | Ok md =>
      let name := match env_Event ev with Some e => ev_EventType e | None => "" end in
      Ok (mkEventData (EventID ev) name data md)
    end
  end.

Fixpoint kurrent_events (reg : Registry) (evs : list Envelope) : result error (list EventData) :=
  match evs with
  | [] => Ok []
  | ev :: evs => ed ← kurrent_event reg ev; eds ← kurrent_events reg evs; Ok (ed :: eds)
  end.

(** The function passed to [backoff.RetryNotifyWithData]. *)
Definition try_append (streamID : string) (streamState : KStreamState) (kEvents : list EventData) (w : W) :
    option WriteResult * option error * W :=
  match AppendToStream streamID streamState kEvents w with
  | (Ok result, w) => (Some result, None, w)
  | (Fail err, w) =>
    if isRetryableError err then
      match ctx_Err_at w with
      | Some ctxErr => (None, Some (Permanent (Errorf2 "" ctxErr err)), w)
      | None => (None, Some err, w)
      end
    else (None, Some (Permanent err), w)
  end.

Definition currentRevision (streamID : string) (w : W) : option StreamState * W :=
  match ReadStream streamID Backwards End_ false 1 w with
  | (Fail _, w) => (None, w)
  | (Ok streamer, w) =>
    let '(res, streamer) := Recv streamer in
    let rev := match res with
               | Ok kEvent => Some (Revision (u64 (re_EventNumber (OriginalEvent kEvent) + 1)))
               | Fail err => if isNotFound err then Some (Revision 0) else None
               end in
    (rev, streamer_Close streamer w)
  end.

(** What [Save] returns for the error of the retry loop. *)
Definition save_error (streamID : string) (revision : StreamState) (err : error) (w : W) :
    AppendResult * option error * W :=
  match isWrongExpectedVersion err, revision with
  | true, Revision rev =>
    let '(actual, w) := currentRevision streamID w in
    (failed_append streamID, Some (StreamRevisionConflictError streamID (Some (Revision rev)) actual), w)
  | _, _ =>
    match expectationError revision err with
    | Some expectation => (failed_append streamID, Some expectation, w)
    | None => (failed_append streamID, Some (map_err "save events to stream" err), w)
    end
  end.

Definition kurrent_Save (newBackoff : BackOff) (ctx : values) (reg : Registry) (evs : list Envelope) (revision : StreamState) (w : W) :
    outcome (AppendResult * option error * W) :=
  match evs with
  | [] => Returns (mkAppendResult true "" 0 0, None, w)
  | env0 :: _ =>
    let streamID := StreamID env0 in
    match validate streamID evs with
    | Some e => Returns (failed_append streamID, Some e, w)
    | None =>
      match kurrent_events reg evs with
      | Fail e => Returns (failed_append streamID, Some e, w)
      | Ok kEvents =>
        streamState ← stream_state revision;
        match streamState with
        | Fail e => Returns (failed_append streamID, Some e, w)
        | Ok streamState =>
          let '(res, err, w) :=
            RetryWithData (try_append streamID streamState kEvents) (WithContext newBackoff ctx) w in
          match err, res with
          | Some err, _ => Returns (save_error streamID revision err w)
          | None, Some result =>
            Returns (mkAppendResult true streamID (u64 (wr_NextExpectedVersion result + 1)) (wr_CommitPosition result), None, w)
          | None, None => Panics "nil pointer dereference"
          end
        end
      end
    end
  end.

Definition toEnvelope (reg : Registry) (rec : RecordedEvent) : result error Envelope :=
  match DecodeEvent (re_EventType rec) (re_Data rec) reg with
  | Fail e => Fail e
  | Ok ev =>
    let md := match DecodeMetadata (re_UserMetadata rec) with Ok md => md | Fail _ => ∅ end in
    Ok (mkEnvelope (re_EventID rec) (re_StreamID rec) (Some (without_chain md))
          (string_at k_correlationIDKey md) (string_at k_causationIDKey md) (Some ev)
          (u64 (re_EventNumber rec + 1)) (re_Commit rec) (re_CreatedDate rec))
  end.

(** ** Loads *)

(** The closure of the iterator, over the streamer and the world its close
    function acts on. *)
Definition load_next (reg : Registry) (missingIsEmpty mustNotExist : bool) : IterFunc (Streamer * W) Envelope :=
  λ c '(streamer, w),
    match Recv streamer with
    | (Fail err, streamer) =>
      (Fail (if missingIsEmpty && isNotFound err then Sentinel io_EOF else map_err "load stream" err), c, (streamer, w))
    | (Ok kEvent, streamer) =>
      ((if (mustNotExist : bool) then Fail (Errorf "load stream: expected empty stream" (Sentinel ErrStreamExists))
        else toEnvelope reg (rse_Event kEvent)), c, (streamer, w))
    end.

Definition load_close : Streamer * W → option error * (Streamer * W) :=
  λ '(streamer, w), (None, (streamer, streamer_Close streamer w)).

Record load_plan : Type := mkPlan {
  lp_from : KPosition Z;
  lp_missingIsEmpty : bool;
  lp_mustNotExist : bool;
}.

Definition load_plan_of (version : StreamState) : outcome (result error load_plan) :=
  match version with
  | Any => Returns (Ok (mkPlan Start true false))
  | NoStream => Returns (Ok (mkPlan Start true true))
  | StreamExists => Returns (Ok (mkPlan Start false false))
  | Revision r =>
    n ← Revision_ToRawInt64 r;
    Returns (Ok (mkPlan (if 0 <? n then At (u64 n) else Start) true false))
  | OtherState _ => Returns (Fail (Errorf "load stream: unsupported stream state" (Sentinel ErrInvalidRevision)))
  end.

Definition kurrent_LoadStreamFrom (reg : Registry) (id : string) (version : StreamState) (w : W) :
    outcome (result error (Iterator (Streamer * W) Envelope) * W) :=
  plan ← load_plan_of version;
  match plan with
  | Fail e => Returns (Fail e, w)
  | Ok p =>
    Returns match ReadStream id Forwards (lp_from p) true readToEnd w with
            | (Fail err, w) => (Fail (map_err "load stream" err), w)
            | (Ok streamer, w) =>
              (Ok (NewIteratorFunc (load_next reg (lp_missingIsEmpty p) (lp_mustNotExist p)) (Some load_close) (streamer, w)), w)
            end
  end.

Definition kurrent_LoadStream (reg : Registry) (id : string) (w : W) :
    outcome (result error (Iterator (Streamer * W) Envelope) * W) :=
  kurrent_LoadStreamFrom reg id StreamExists w.

(** ** Global reads *)

(** The loop of [ReadAll]; [None] when [fuel] runs out. *)
Fixpoint read_all_loop (fuel : nat) (reg : Registry) (after limit scan : Z) (opts : ReadOptions)
    (streamer : Streamer) (evs : list Envelope) (next scanned : Z) : option (result error ReadResult * Streamer) :=
  match fuel with
  | O => None
  | S fuel =>
    match Recv streamer with
    | (Fail err, streamer) =>
      Some ((if errors_Is err io_EOF then Ok (mkReadResult evs next true) else Fail (map_err "read all" err)), streamer)
    | (Ok kEvent, streamer) =>
      let rec := rse_Event kEvent in
      if re_Commit rec <=? after then read_all_loop fuel reg after limit scan opts streamer evs next scanned
      else
        let scanned := scanned + 1 in
        if (scan <? scanned) || (zlen evs =? limit) then Some (Ok (mkReadResult evs next false), streamer)
        else
          let next := re_Commit rec in
          if isSystemRecord rec
             || negb (bool_decide (EventTypes opts = [])) && negb (bool_decide (re_EventType rec ∈ EventTypes opts))
             || negb (hasPrefix (re_StreamID rec) (StreamPrefixes opts))
          then read_all_loop fuel reg after limit scan opts streamer evs next scanned
          else match toEnvelope reg rec with
               | Fail err => Some (Fail (Errorf "read all" err), streamer)
               | Ok env => read_all_loop fuel reg after limit scan opts streamer (evs ++ [env]) next scanned
               end
    end
  end.

Definition kurrent_ReadAll (fuel : nat) (reg : Registry) (after : Z) (opts : ReadOptions) (w : W) :
    option (result error ReadResult * W) :=
  let limit := page_limit opts in
  let from := if 0 <? after then At (mkPosition after after) else Start in
  let scan := Z.max limit scanLimit in
  match client_ReadAll Forwards from readToEnd w with
  | (Fail err, w) => Some (Fail (map_err "read all" err), w)
  | (Ok streamer, w) =>
    match read_all_loop fuel reg after limit scan opts streamer [] after 0 with
    | Some (res, streamer) => Some (res, streamer_Close streamer w)
    | None => None
    end
  end.

Fixpoint head_loop (fuel : nat) (streamer : Streamer) : option (result error Z * Streamer) :=
  match fuel with
  | O => None
  | S fuel =>
    match Recv streamer with
    | (Fail err, streamer) =>
      Some ((if errors_Is err io_EOF then Ok 0 else Fail (map_err "head" err)), streamer)
    | (Ok kEvent, streamer) =>
      if negb (isSystemRecord (rse_Event kEvent)) then Some (Ok (re_Commit (rse_Event kEvent)), streamer)
      else head_loop fuel streamer
    end
  end.

Definition kurrent_Head (fuel : nat) (w : W) : option (result error Z * W) :=
  match client_ReadAll Backwards End_ readToEnd w with
  | (Fail err, w) => Some (Fail (map_err "head" err), w)
  | (Ok streamer, w) =>
    match head_loop fuel streamer with
    | Some (res, streamer) => Some (res, streamer_Close streamer w)
    | None => None
    end
  end.

Definition kurrent_Close (w : W) : option error * W := client_Close w.
End store.

(** ** Translation *)

(** What a load returns for a saved envelope that was recorded as [r]. *)
Definition kurrent_stored `{J : JSON} (ev : Envelope) (r : RecordedEvent) : Envelope :=
  mkEnvelope (EventID ev) (StreamID ev) (Some (json_value <$> without_chain (default ∅ (Metadata ev)))) (CorrelationID ev) (CausationID ev)
    (json_event <$> env_Event ev) (re_EventNumber r + 1) (re_Commit r) (re_CreatedDate r).

(** What a reader with registry [reg] sees of the record [r]. *)
Definition decoded `{J : JSON} (reg : Registry) (r : RecordedEvent) (env : Envelope) : Prop :=
  toEnvelope reg r = Ok env ∧ env_type env = re_EventType r.

Section translation.
Context `{J : JSON, !JSONLaws J}.

(** JSON keeps the chain of the envelope, whose ids are strings. *)
Lemma chain_of_decoded ev :
  without_chain (json_value <$> kurrent_metadata ev) = json_value <$> without_chain (default ∅ (Metadata ev)) ∧
  string_at k_correlationIDKey (json_value <$> kurrent_metadata ev) = CorrelationID ev ∧
  string_at k_causationIDKey (json_value <$> kurrent_metadata ev) = CausationID ev.
Proof.
  unfold kurrent_metadata, with_id, without_chain, string_at.
  assert (k_correlationIDKey ≠ k_causationIDKey) as Hne by done.
  generalize dependent k_correlationIDKey. generalize dependent k_causationIDKey. intros b a Hne.
  destruct (bool_decide_reflect (CorrelationID ev = "")) as [Hc|Hc], (bool_decide_reflect (CausationID ev = "")) as [Hd|Hd];
    split_and!; rewrite ?Hc, ?Hd, ?lookup_fmap; simplify_map_eq; rewrite ?json_value_string; try done;
    apply map_eq; intros k; destruct (decide (k = a)), (decide (k = b)); simplify_map_eq; by rewrite ?lookup_fmap; simplify_map_eq.
Qed.

Lemma kurrent_event_decodes reg ev ed r : registry_wf reg → kurrent_event reg ev = Ok ed → records_event (StreamID ev) ed r →
  0 ≤ re_EventNumber r → re_EventNumber r + 1 < two64 → decoded reg r (kurrent_stored ev r).
Proof.
  intros Hwf Hed [Hst Hid Hty Hdata Hmd] H0 Hn. unfold kurrent_event in Hed.
  destruct (env_Event ev) as [e|] eqn:He; [|done]. destruct (EncodeEvent (Some e) reg) as [data|] eqn:Henc; [|done].
  destruct (EncodeMetadata _) as [md|] eqn:Hm; [|done]. injection Hed as <-. cbn in *. split.
  - unfold toEnvelope. rewrite Hty, Hdata, Hmd, (decode_encode e reg reg data Hwf (λ _ _ H, H) Henc), (metadata_roundtrip _ _ Hm).
    cbn [default id]. cbv zeta. destruct (chain_of_decoded ev) as (-> & -> & ->). unfold kurrent_stored.
    by rewrite He, Hid, Hst, u64_small by (unfold is_u64; lia).
  - by rewrite Hty; unfold kurrent_stored, env_type; rewrite He; cbn; rewrite json_event_EventType.
Qed.

Lemma kurrent_events_ok reg evs eds : kurrent_events reg evs = Ok eds → Forall2 (λ ev ed, kurrent_event reg ev = Ok ed) evs eds.
Proof.
  revert eds. induction evs as [|ev evs IH]; intros eds; cbn; [intros [= <-]; constructor|].
  destruct (kurrent_event reg ev) as [ed|] eqn:Hev; [|done]. destruct (kurrent_events reg evs) as [eds'|]; [|done].
  intros [= <-]. constructor; [done|by apply IH].
Qed.

Lemma kurrent_events_fail reg evs e : kurrent_events reg evs = Fail e → ∃ ev, ev ∈ evs ∧ kurrent_event reg ev = Fail e.
Proof.
  induction evs as [|ev evs IH]; cbn; [done|]. destruct (kurrent_event reg ev) as [ed|] eqn:Hev.
  - destruct (kurrent_events reg evs) as [eds|]; [done|]. intros [= ->]. destruct IH as (x & Hx & Hf); [done|]. exists x. set_solver.
  - intros [= ->]. exists ev. set_solver.
Qed.
End translation.

Definition state_in_range (st : StreamState) : Prop :=
  match st with Revision r => 0 ≤ r ≤ max_int64 | OtherState _ => False | _ => True end.

(** The conversion of a revision to the number of the last event. *)
Lemma stream_state_ok st : state_in_range st →
  ∃ ks, stream_state st = Returns (Ok ks) ∧ ∀ n, 0 ≤ n → kexpectation ks n = expectation_holds st n.
Proof.
  destruct st as [| | |r|raw]; cbn [state_in_range stream_state]; intros Hst; [by eexists|by eexists|by eexists| |done].
  unfold Revision_ToRawInt64. destruct (Z.ltb_spec max_int64 r); [lia|]. cbn [mbind outcome_bind].
  unfold max_int64 in *. rewrite (u64_small r) by (unfold is_u64, two64; lia).
  destruct (Z.eqb_spec r 0) as [->|Hr]; eexists; (split; [done|]); intros n Hn; cbn; [done|].
  rewrite u64_small by (unfold is_u64, two64; lia). apply eq_true_iff_eq. rewrite !Z.eqb_eq. lia.
Qed.

Section errors_facts.
Context `{C : KurrentClient W, serves : W → records → Prop, L : !KurrentLaws C serves}.

Lemma kurrent_Error_only e : (∀ text, e ≠ New text) → kurrent_Error e = None.
Proof. intros H. destruct (kurrent_Error e) eqn:He; [|done]. apply kurrent_Error_type in He as [text ->]. by destruct (H text). Qed.

Lemma error_code_sentinel s : error_code (Sentinel s) = None.
Proof. unfold error_code. cbn. by rewrite kurrent_Error_only. Qed.

Lemma error_code_Errorf op e : error_code (Errorf op e) = error_code e.
Proof. unfold error_code. cbn. by rewrite kurrent_Error_only. Qed.

Lemma error_code_Errorf2 op s e : error_code (Errorf2 op (Sentinel s) e) = error_code e.
Proof. unfold error_code. cbn. by rewrite !kurrent_Error_only. Qed.

Lemma isWrongExpectedVersion_spec e : isWrongExpectedVersion e = true ↔ wrong_version e.
Proof. unfold isWrongExpectedVersion, wrong_version. destruct (error_code e) as [[]|]; naive_solver. Qed.

Lemma isNotFound_spec e : isNotFound e = true ↔ not_found e.
Proof. unfold isNotFound, not_found. destruct (error_code e) as [c|]; [|done]. rewrite bool_decide_eq_true. naive_solver. Qed.

(** [mapError] keeps the end of a stream and the client's error, and adds the
    sentinel of its code. *)
Lemma map_err_EOF op e : errors_Is (map_err op e) io_EOF = errors_Is e io_EOF.
Proof.
  unfold map_err. destruct (errors_Is e io_EOF) eqn:He; [done|]. unfold sentinelFor.
  by destruct (error_code e) as [[]|]; cbn; rewrite ?He.
Qed.

Lemma map_err_code op e : error_code (map_err op e) = error_code e.
Proof.
  unfold map_err. destruct (errors_Is e io_EOF); [done|]. unfold sentinelFor.
  destruct (error_code e) as [[]|] eqn:He; by rewrite ?error_code_Errorf, ?error_code_Errorf2.
Qed.

Lemma map_err_not_found op e : not_found e → errors_Is e io_EOF = false → errors_Is (map_err op e) ErrStreamNotFound = true.
Proof. unfold not_found, map_err, sentinelFor. by intros -> ->. Qed.
End errors_facts.

(** ** Save *)

(** The events [evs] are one block of the log [rs'], where the expectation
    [st] held. *)
Definition saved_block `{J : JSON} (reg : Registry) (st : StreamState) (id : string) (evs : list Envelope)
    (rs rs' : records) (res : AppendResult) : Prop :=
  ∃ pre new, (pre ++ new) `prefix_of` rs' ∧
    Forall2 (λ ev r, decoded reg r (kurrent_stored ev r)) evs new ∧
    expectation_holds st (zlen (kstream id pre)) = true ∧
    Successful res = true ∧ res_StreamID res = id ∧
    NextExpectedVersion res = zlen (kstream id pre) + zlen evs ∧
    (rs `prefix_of` pre ∨ ∃ r ev, r ∈ rs ∧ head evs = Some ev ∧ re_EventID r = EventID ev).

(** The documented error of a violated expectation; the actual revision is
    that of the stream a moment later, or unknown. *)
Definition kurrent_violation (st : StreamState) (id : string) (at_ rs' : records) (e : error) : Prop :=
  match st with
  | Any | OtherState _ => False
  | NoStream => errors_Is e ErrStreamExists = true
  | StreamExists => errors_Is e ErrStreamNotFound = true
  | Revision r => ∃ actual, e = StreamRevisionConflictError id (Some (Revision r)) actual ∧
      ∀ n, actual = Some n → ∃ seen, at_ `prefix_of` seen ∧ seen `prefix_of` rs' ∧ n = Revision (zlen (kstream id seen))
  end.

Inductive kurrent_save_answer `{J : JSON, C : KurrentClient W} (reg : Registry) (evs : list Envelope) (st : StreamState)
    (rs rs' : records) : AppendResult → option error → Prop :=
| ksa_empty : evs = [] → kurrent_save_answer reg evs st rs rs' (mkAppendResult true "" 0 0) None
| ksa_saved ev res : head evs = Some ev → valid_batch (StreamID ev) evs = true →
    saved_block reg st (StreamID ev) evs rs rs' res → kurrent_save_answer reg evs st rs rs' res None
| ksa_invalid ev e : head evs = Some ev → valid_batch (StreamID ev) evs = false → errors_Is e ErrInvalidEventBatch = true →
    kurrent_save_answer reg evs st rs rs' (failed_append (StreamID ev)) (Some e)
| ksa_encoding ev ev' e : head evs = Some ev → ev' ∈ evs → kurrent_event reg ev' = Fail e →
    kurrent_save_answer reg evs st rs rs' (failed_append (StreamID ev)) (Some e)
| ksa_violated ev at_ e : head evs = Some ev → rs `prefix_of` at_ → at_ `prefix_of` rs' →
    expectation_holds st (zlen (kstream (StreamID ev) at_)) = false → kurrent_violation st (StreamID ev) at_ rs' e →
    kurrent_save_answer reg evs st rs rs' (failed_append (StreamID ev)) (Some e)
| ksa_failed ev e : head evs = Some ev → ¬ wrong_version e →
    kurrent_save_answer reg evs st rs rs' (failed_append (StreamID ev)) (Some (map_err "save events to stream" e)).

Section save.
Context `{J : JSON, !JSONLaws J, C : KurrentClient W, serves : W → records → Prop, L : !KurrentLaws C serves,
  B : BackoffOps, !BackoffLaws B}.
Implicit Types (w : W) (rs : records).

(** What the retry loop ends with. *)
Definition appended (id : string) (eds : list EventData) (ks : KStreamState) (rs : records) (res : option WriteResult) (w : W) : Prop :=
  ∃ wr rs', res = Some wr ∧ rs `prefix_of` rs' ∧ serves w rs' ∧
    ∃ pre new, (pre ++ new) `prefix_of` rs' ∧ Forall2 (records_event id) eds new ∧
      kexpectation ks (zlen (kstream id pre)) = true ∧
      wr_NextExpectedVersion wr = zlen (kstream id pre) + zlen eds - 1.

Definition refused (id : string) (ks : KStreamState) (rs : records) (e : error) (w : W) : Prop :=
  ∃ rs', rs `prefix_of` rs' ∧ serves w rs' ∧
    (wrong_version e → ∃ at_, rs `prefix_of` at_ ∧ at_ `prefix_of` rs' ∧ kexpectation ks (zlen (kstream id at_)) = false).

Lemma not_wrong_sentinel s : ¬ wrong_version (Sentinel s).
Proof. unfold wrong_version. rewrite error_code_sentinel. naive_solver. Qed.

Lemma try_append_retries id ks eds b ctx w rs res err w' : serves w rs → eds ≠ [] →
  RetryWithData (try_append id ks eds) (WithContext b ctx) w = (res, err, w') →
  match err with None => appended id eds ks rs res w' | Some e => refused id ks rs e w' end.
Proof.
  intros Hs Hne HR. apply retry_law in HR.
  refine (Retries_ind_inv _ (λ w, ∃ rs1, rs `prefix_of` rs1 ∧ serves w rs1) (appended id eds ks rs) (refused id ks rs) _ _ _ _ _ _ HR);
    [|by exists rs]. clear dependent w. clear w' res err.
  intros w (rs1 & Hp & Hs). unfold try_append. destruct (AppendToStream id ks eds w) as [[wr|e] w'] eqn:HA;
    destruct (append_law _ _ _ _ _ _ _ Hs Hne HA) as (rs2 & Hp2 & Hs2 & H).
  { exists wr, rs2. split_and!; [done|by etrans|done..]. }
  destruct H as [Hperm Hviol].
  assert (∀ e', (wrong_version e' → wrong_version e) → refused id ks rs e' w') as Hbad.
  { intros e' He. exists rs2. split_and!; [by etrans|done|]. intros (at_ & ? & ? & ?)%He%Hviol. exists at_. split_and!; [by etrans|done..]. }
  destruct (isRetryableError e); [|by apply Hbad]. destruct (ctx_Err_at w') as [ce|] eqn:Hce.
  - apply Hbad. unfold wrong_version. by destruct (ctx_law _ _ Hce) as [-> | ->]; rewrite error_code_Errorf2.
  - rewrite Hperm. split; [exists rs2; split; [by etrans|done]|]. intros cause [-> |[-> | ->]]; apply Hbad; [done| |];
      by intros ?%not_wrong_sentinel.
Qed.

Lemma currentRevision_spec id w rs : serves w rs → let '(actual, w') := currentRevision id w in
  ∃ rs', rs `prefix_of` rs' ∧ serves w' rs' ∧
    ∀ n, actual = Some n → ∃ seen, rs `prefix_of` seen ∧ seen `prefix_of` rs' ∧ n = Revision (zlen (kstream id seen)).
Proof.
  intros Hs. unfold currentRevision. destruct (ReadStream id Backwards End_ false 1 w) as [[s|e] w1] eqn:HR;
    destruct (read_last_law _ _ _ _ _ _ Hs HR ltac:(lia)) as (at_ & rs1 & Hp & Hp1 & Hs1 & H).
  2: { exists rs1. split_and!; [by etrans|done|done]. }
  destruct (Recv s) as [[k|e] s'].
  - destruct H as (r & -> & Hlast). destruct (close_law s' w1 rs1 Hs1) as (rs2 & Hp2 & Hs2). exists rs2.
    split_and!; [by do 2 etrans|done|]. intros n [= <-]. exists at_. split_and!; [done|by etrans|]. f_equal.
    pose proof (server_log_prefix _ _ Hp1 (serves_log _ _ Hs1)) as Hl. rewrite original_event.
    rewrite last_lookup in Hlast. rewrite (sl_numbers _ Hl _ _ _ Hlast). apply lookup_lt_Some in Hlast.
    pose proof (kstream_length id at_). pose proof (sl_room _ Hl). unfold zlen in *.
    rewrite u64_small; [lia|]. unfold is_u64, two64, max_int64 in *. lia.
  - destruct (close_law s' w1 rs1 Hs1) as (rs2 & Hp2 & Hs2). exists rs2. split_and!; [by do 2 etrans|done|].
    destruct (isNotFound e) eqn:Hn; [|done]. intros n [= <-]. apply isNotFound_spec in Hn.
    exists at_. split_and!; [done|by etrans|]. by rewrite (H Hn).
Qed.

(** The error of the retry loop becomes the documented one. *)
Lemma save_error_spec id st ks e w rs : state_in_range st → (∀ n, 0 ≤ n → kexpectation ks n = expectation_holds st n) →
  refused id ks rs e w →
  ∃ err w' rs', save_error id st e w = (failed_append id, Some err, w') ∧ rs `prefix_of` rs' ∧ serves w' rs' ∧
    ((∃ at_, rs `prefix_of` at_ ∧ at_ `prefix_of` rs' ∧ expectation_holds st (zlen (kstream id at_)) = false ∧
        kurrent_violation st id at_ rs' err) ∨
     (¬ wrong_version e ∧ err = map_err "save events to stream" e)).
Proof.
  intros Hst Hks (rs1 & Hp & Hs & Hviol). unfold save_error, expectationError.
  destruct (isWrongExpectedVersion e) eqn:Hw.
  - apply isWrongExpectedVersion_spec in Hw. destruct (Hviol Hw) as (at_ & Hp1 & Hp2 & Hk).
    rewrite Hks in Hk by apply zlen_nonneg. destruct st as [| | |r|raw]; cbn [negb]; try done.
    + do 3 eexists. split; [done|]. split_and!; [exact Hp|done|]. left. by exists at_.
    + do 3 eexists. split; [done|]. split_and!; [exact Hp|done|]. left. by exists at_.
    + pose proof (currentRevision_spec id w rs1 Hs) as HC. destruct (currentRevision id w) as [actual w'].
      destruct HC as (rs2 & Hp3 & Hs2 & Hn). exists (StreamRevisionConflictError id (Some (Revision r)) actual), w', rs2. split; [done|]. split; [by transitivity rs1|]. split; [done|]. left.
      exists at_. split_and!; [done|by etrans|done|]. eexists. split; [done|].
      intros n Hx. destruct (Hn n Hx) as (seen & ? & ? & ?). exists seen. split_and!; [by etrans|done..].
  - assert (¬ wrong_version e) as Hnw by (rewrite <- isWrongExpectedVersion_spec; by rewrite Hw).
    destruct st; cbn [negb]; (do 3 eexists; split; [done|]; split_and!; [exact Hp|done|by right]).
Qed.

Lemma kurrent_block reg st ks id evs eds rs res w : registry_wf reg → (∀ n, 0 ≤ n → kexpectation ks n = expectation_holds st n) →
  valid_batch id evs = true → evs ≠ [] → Forall2 (λ ev ed, kurrent_event reg ev = Ok ed) evs eds → appended id eds ks rs res w →
  ∃ wr rs', res = Some wr ∧ rs `prefix_of` rs' ∧ serves w rs' ∧
    saved_block reg st id evs rs rs' (mkAppendResult true id (u64 (wr_NextExpectedVersion wr + 1)) (wr_CommitPosition wr)).
Proof.
  intros Hwf Hks Hvalid Hne HE (wr & rs' & -> & Hp & Hs & pre & new & Hb & HF & Hx & Hnext). exists wr, rs'.
  split_and!; [done..|]. pose proof (serves_log _ _ Hs) as Hl. exists pre, new. rewrite Hks in Hx by apply zlen_nonneg.
  assert (zlen (kstream id pre) + zlen new < max_int64) as Hroom.
  { pose proof (kstream_length id pre). pose proof (sl_room _ (server_log_prefix _ _ Hb Hl)) as Hr. rewrite zlen_app in Hr. lia. }
  pose proof (zlen_nonneg (kstream id pre)). pose proof (Forall2_zlen _ _ _ HF) as Hl1. pose proof (Forall2_zlen _ _ _ HE) as Hl2.
  split_and!; [done| |done|done|done| |].
  - apply Forall2_same_length_lookup_2; [apply Forall2_length in HE, HF; lia|]. intros i ev r Hev Hr.
    destruct (Forall2_lookup_l _ _ _ _ _ HE Hev) as (ed & Hed & Henc). pose proof (Forall2_lookup_lr _ _ _ _ _ _ HF Hed Hr) as Hrec.
    assert (StreamID ev = id) as Hid by (eapply valid_batch_stream; [done|by eapply list_elem_of_lookup_2]).
    pose proof (block_numbers id eds pre new rs' Hl Hb HF i r Hr) as Hno. apply lookup_lt_Some in Hr.
    eapply kurrent_event_decodes; [done|done|by rewrite Hid|rewrite Hno; lia|].
    rewrite Hno. unfold zlen, max_int64, two64 in *. lia.
  - cbn [NextExpectedVersion]. rewrite Hnext. replace (zlen (kstream id pre) + zlen eds - 1 + 1) with (zlen (kstream id pre) + zlen eds) by lia.
    rewrite u64_small; [lia|]. pose proof (zlen_nonneg new). unfold is_u64, max_int64, two64 in *. lia.
  - assert (rs `prefix_of` pre ∨ pre `prefix_of` rs) as [Hc|[k ->]]; [eapply prefix_weak_total; [exact Hp|]; by eapply prefix_app_l|by left|].
    destruct k as [|r k]; [left; by rewrite app_nil_r|]. right. destruct HE as [|ev ed evs eds Hev HE]; [done|].
    inversion HF as [|? r' ? new' Hrec HF']; subst. exists r, ev. split_and!; [set_solver|done|].
    assert ((pre ++ r :: k) !! length pre = Some r) as Hr by (by apply list_lookup_middle).
    assert ((pre ++ r' :: new') !! length pre = Some r') as Hr' by (by apply list_lookup_middle).
    pose proof (prefix_lookup_Some _ _ _ _ Hr Hp). pose proof (prefix_lookup_Some _ _ _ _ Hr' Hb). simplify_eq.
    rewrite (rec_event_id _ _ _ Hrec). unfold kurrent_event in Hev.
    destruct (EncodeEvent _ _); [|done]. destruct (EncodeMetadata _); [|done]. by injection Hev as <-.
Qed.

(** C23: Save over KurrentDB keeps the contract of an event store, through every
    retry and whatever others append meanwhile.  It never panics.  When it
    reports success, its events are one block of the server's log at a point
    where the expectation held, decode, as JSON decodes them, to what was
    saved, chain included, and the reported version is the stream's length
    after them; unless the first event's id was in the log before, the block
    comes after all that was there when Save was called.  An error is that of
    an invalid batch or of an event that cannot be encoded, the documented one
    for an expectation that some log during the call violated, or an error of
    the client that is not about the expectation. *)
Theorem kurrent_Save_keeps_the_contract b ctx reg evs st w rs : serves w rs → registry_wf reg → state_in_range st →
  ∃ res err w' rs', kurrent_Save b ctx reg evs st w = Returns (res, err, w') ∧
    rs `prefix_of` rs' ∧ serves w' rs' ∧ kurrent_save_answer reg evs st rs rs' res err.
Proof.
  intros Hs Hwf Hst. unfold kurrent_Save. destruct evs as [|env0 evs'] eqn:Hevs; [do 4 eexists; split_and!; [done|done|exact Hs|by constructor]|].
  rewrite <- Hevs. assert (head evs = Some env0) as Hhd by (by rewrite Hevs). assert (evs ≠ []) as Hne by (by rewrite Hevs). clear Hevs evs'.
  pose proof (validate_spec (StreamID env0) evs) as Hv. destruct (validate (StreamID env0) evs) as [e|].
  { destruct Hv. do 4 eexists. split_and!; [done|done|exact Hs|by eapply ksa_invalid]. }
  destruct (kurrent_events reg evs) as [eds|e] eqn:He.
  2: { apply kurrent_events_fail in He as (ev' & ? & ?). do 4 eexists. split_and!; [done|done|exact Hs|by eapply ksa_encoding]. }
  apply kurrent_events_ok in He. destruct (stream_state_ok st Hst) as (ks & -> & Hks). cbn [mbind outcome_bind].
  destruct (RetryWithData _ _ _) as [[res err] w'] eqn:HR.
  apply (try_append_retries _ _ _ _ _ _ rs) in HR; [|done|intros ->; by inversion He; subst].
  destruct err as [e|].
  - destruct (save_error_spec _ _ _ _ _ _ Hst Hks HR) as (err & w2 & rs2 & -> & Hp & Hs2 & [(at_ & Hp1 & Hp2 & Hx & Hviol)|[Hw ->]]);
      do 4 eexists; (split_and!; [done|exact Hp|exact Hs2|]); [by eapply ksa_violated|by eapply ksa_failed].
  - destruct (kurrent_block reg st ks _ evs _ _ _ _ Hwf Hks Hv Hne He HR) as (wr & rs' & -> & Hp & Hs' & Hb).
    do 4 eexists. split_and!; [done|exact Hp|exact Hs'|by eapply ksa_saved].
Qed.
End save.

(** ** Loads *)

(** The error a load of a stream of [n] events must end with; past the end
    there is nothing to read. *)
Definition kurrent_load_error (version : StreamState) (n : Z) : option sentinel :=
  match version with NoStream | StreamExists => load_error version n | _ => None end.

(** How reading a loaded stream of the events [envs] ends. *)
Definition load_ends `{C : KurrentClient W} (version : StreamState) (envs evs : list Envelope) (err : option error) : Prop :=
  match err with
  | None => kurrent_load_error version (zlen envs) = None ∧ evs = drop (Z.to_nat (load_offset version)) envs
  | Some e =>
    (∃ s, kurrent_load_error version (zlen envs) = Some s ∧ errors_Is e s = true ∧ evs = []) ∨
    (∃ e0, e = map_err "load stream" e0 ∧ evs `prefix_of` drop (Z.to_nat (load_offset version)) envs)
  end.

Section loads.
Context `{J : JSON, C : KurrentClient W, serves : W → records → Prop, L : !KurrentLaws C serves}.
Implicit Types (w : W) (rs : records).

Lemma load_plan_ok version : state_in_range version → ∃ from mie mne,
  load_plan_of version = Returns (Ok (mkPlan from mie mne)) ∧
  (from = Start ∧ load_offset version = 0 ∨ from = At (load_offset version) ∧ 0 ≤ load_offset version) ∧
  mie = negb (bool_decide (version = StreamExists)) ∧ mne = bool_decide (version = NoStream).
Proof.
  destruct version as [| | |r|raw]; cbn [load_plan_of state_in_range load_offset]; intros Hr;
    [do 3 eexists; split_and!; [done|by left|done..]..| |done].
  unfold Revision_ToRawInt64. destruct (Z.ltb_spec max_int64 r); [lia|]. cbn [mbind outcome_bind].
  do 3 eexists. split_and!; [done| |done|done]. destruct (Z.ltb_spec 0 r); [right|left; split; [done|lia]].
  rewrite u64_small; [split; [done|lia]|]. unfold is_u64, max_int64, two64 in *. lia.
Qed.

(** What [Recv] delivers, the iterator yields. *)
Lemma load_ends_with reg mie mne w s e s' err end_ : Recv s = (Fail err, s') →
  e = (if mie && isNotFound err then Sentinel io_EOF else map_err "load stream" err) →
  end_ = (if errors_Is e io_EOF then None else Some e) →
  Yields (load_next reg mie mne) None (s, w) [] end_ None (s', w).
Proof. intros Hr -> ->. eapply (Yields_end _ _ _ None _ None); [done|]. unfold load_next. by rewrite Hr. Qed.

Lemma delivers_yields reg mie w s got e envs : Delivers s got e → Forall2 (decoded reg) got envs → isNotFound e = false →
  ∃ s', Yields (load_next reg mie false) None (s, w) envs (if errors_Is e io_EOF then None else Some (map_err "load stream" e)) None (s', w).
Proof.
  intros HD HF He. revert envs HF. induction HD as [s e s' Hr|s r s' got e Hr HD IH]; intros envs HF.
  - inversion HF; subst. exists s'. eapply load_ends_with; [done..|]. by rewrite He, andb_false_r, map_err_EOF.
  - inversion HF as [|? env ? envs' [Hdec _] HF']; subst. destruct (IH He _ HF') as (s2 & HY). exists s2.
    eapply Yields_item; [done| |exact HY]. unfold load_next. rewrite Hr. cbn [rse_Event]. by rewrite Hdec.
Qed.

(** A missing stream ends at the first event. *)
Lemma missing_yields reg mie mne w s e s' : Recv s = (Fail e, s') → isNotFound e = true → errors_Is e io_EOF = false →
  Yields (load_next reg mie mne) None (s, w) [] (if mie then None else Some (map_err "load stream" e)) None (s', w).
Proof.
  intros Hr He HEOF. eapply load_ends_with; [done..|]. rewrite He, andb_true_r. destruct mie; [done|]. by rewrite map_err_EOF, HEOF.
Qed.

(** A stream that must not exist, but does. *)
Lemma existing_yields reg mie w s got e : Delivers s got e → isNotFound e = false → (errors_Is e io_EOF = true → got ≠ []) →
  ∃ err s', Yields (load_next reg mie true) None (s, w) [] (Some err) None (s', w) ∧
    (errors_Is err ErrStreamExists = true ∧ got ≠ [] ∨ err = map_err "load stream" e).
Proof.
  intros HD He HEOF. destruct HD as [s e s' Hr|s r s' got e Hr HD].
  - destruct (errors_Is e io_EOF) eqn:HE; [by destruct HEOF|]. eexists _, s'. split; [|by right].
    eapply load_ends_with; [done..|]. by rewrite He, andb_false_r, map_err_EOF, HE.
  - set (err := Errorf "load stream: expected empty stream" (Sentinel ErrStreamExists)). exists err, s'. split; [|by left].
    apply (Yields_end _ _ _ None err None); [done|]. unfold load_next. by rewrite Hr.
Qed.

Lemma prefix_Forall2 {A B} (R : A → B → Prop) got k envs : got `prefix_of` k → Forall2 R k envs →
  ∃ evs, evs `prefix_of` envs ∧ Forall2 R got evs ∧ (got = k → evs = envs).
Proof.
  intros [k' ->] HF. apply Forall2_app_inv_l in HF as (e1 & e2 & H1 & H2 & ->). exists e1. split_and!; [by eexists|done|].
  intros Hk. destruct k'; [inversion H2; by rewrite app_nil_r|]. apply (f_equal length) in Hk. rewrite length_app in Hk. cbn in Hk. lia.
Qed.

(** Loading a stream from KurrentDB, read to the end, gives the events of the
    stream as it was at some moment of the call from the requested index on,
    or part of them and a client's error.  A clean end means that all were
    read and that the stream was there for StreamExists and was not for
    NoStream; the violated ones end with the documented error; a missing
    stream is an empty read for Any and a Revision.  The read is closed when
    the iterator ends. *)
Theorem kurrent_load_reads_the_stream reg id version w rs : serves w rs → state_in_range version →
  ∃ r w' at_ rs', kurrent_LoadStreamFrom reg id version w = Returns (r, w') ∧
    rs `prefix_of` at_ ∧ at_ `prefix_of` rs' ∧ serves w' rs' ∧
    match r with
    | Fail e => ∃ e0, e = map_err "load stream" e0
    | Ok it => ∀ envs fuel, (∀ x, x ∈ kstream id rs' → re_EventType x ≠ link_type) →
        Forall2 (decoded reg) (kstream id at_) envs → zlen rs' < Z.of_nat fuel →
        ∃ evs err it' s', All fuel None it = Some (evs, err, it') ∧ it_state it' = (s', streamer_Close s' w') ∧
          load_ends version envs evs err
    end.
Proof.
  intros Hs Hv. destruct (load_plan_ok version Hv) as (from & mie & mne & Hplan & Hfrom & Hmie & Hmne).
  unfold kurrent_LoadStreamFrom. rewrite Hplan. cbn [mbind outcome_bind lp_from lp_missingIsEmpty lp_mustNotExist].
  destruct (ReadStream id Forwards from true readToEnd w) as [[s|e] w'] eqn:HR;
    destruct (read_stream_law _ _ _ _ _ _ _ _ _ Hs HR Hfrom) as (at_ & rs' & Hp & Hp' & Hs' & H);
    (do 4 eexists; split; [done|]; split_and!; [exact Hp|exact Hp'|exact Hs'|]); [|by eexists].
  intros envs fuel Hlink HF Hfuel.
  pose proof (serves_log _ _ Hs') as Hl. pose proof (server_log_prefix _ _ Hp' Hl) as Hla.
  pose proof (kstream_length id at_). pose proof (sl_room _ Hla). pose proof (Forall2_zlen _ _ _ HF) as Hlen.
  assert (zlen at_ ≤ zlen rs') by (apply prefix_length in Hp'; unfold zlen; lia).
  assert (∀ evs err s', Yields (load_next reg mie mne) None (s, w') evs err None (s', w') → zlen evs ≤ zlen envs →
    load_ends version envs evs err → ∃ evs err it' s',
      All fuel None (NewIteratorFunc (load_next reg mie mne) (Some load_close) (s, w')) = Some (evs, err, it') ∧
      it_state it' = (s', streamer_Close s' w') ∧ load_ends version envs evs err) as Hgo.
  { intros evs err s' HY Hle Hend. do 4 eexists. split; [eapply All_yields; [exact HY|unfold zlen in *; lia]|]. done. }
  destruct H as [(e & s' & Hr & He & HEOF & Hk)|(got & e & HD & Hpre & He & HEOF)]; [done|unfold readToEnd; lia| |].
  - rewrite Hk in HF. inversion HF; subst envs. eapply Hgo; [by eapply missing_yields; [|apply isNotFound_spec|]|done|].
    subst mie. destruct (bool_decide_reflect (version = StreamExists)) as [->|Hne]; cbn [negb].
    + left. eexists. split_and!; [done|by apply map_err_not_found|done].
    + split; [by destruct version|by rewrite drop_nil].
  - assert (isNotFound e = false) as Hnf by (destruct (isNotFound e) eqn:Hn; [by apply isNotFound_spec in Hn|done]).
    subst mne. destruct (bool_decide_reflect (version = NoStream)) as [->|Hne].
    + destruct (existing_yields reg mie w' s got e HD Hnf) as (err & s' & HY & Herr).
      { intros HE. destruct (HEOF HE) as [-> Hk]. by rewrite drop_0. }
      eapply Hgo; [exact HY|apply zlen_nonneg|]. destruct Herr as [[Herr Hgot]| ->]; [left|right; eexists; split; [done|apply prefix_nil]].
      exists ErrStreamExists. split; [|by split]. cbn. destruct (Z.eqb_spec (zlen envs) 0) as [Hz|]; [|done].
      apply zlen_zero in Hz. subst envs. inversion HF as [Hk|]. rewrite <- Hk in Hpre. rewrite drop_nil in Hpre.
      apply prefix_nil_inv in Hpre. done.
    + destruct (prefix_Forall2 _ _ _ _ Hpre (Forall2_drop _ _ _ (Z.to_nat (load_offset version)) HF)) as (evs & Hevs & HFg & Hall).
      destruct (delivers_yields reg mie w' s got e evs HD HFg Hnf) as (s' & HY). eapply Hgo; [exact HY| |].
      { apply prefix_length in Hevs. rewrite length_drop in Hevs. unfold zlen. lia. }
      destruct (errors_Is e io_EOF) eqn:HE; [|right; by exists e]. destruct (HEOF eq_refl) as [Hg Hk]. split; [|by apply Hall].
      destruct version; try done. cbn. destruct (Z.eqb_spec (zlen envs) 0) as [Hz|]; [|done].
      apply zlen_zero in Hz. subst envs. by inversion HF.
Qed.
End loads.

(** ** Global reads *)

(** The records that are application events. *)
Definition app_records (rs : records) : records := bfilter (λ r, negb (isSystemRecord r)) rs.

Definition between (after next : Z) (r : RecordedEvent) : bool := (after <? re_Commit r) && (re_Commit r <=? next).

(** One page over the log [at_], whose application events are [envs]: nothing
    that matches is left out of what was scanned, the page ends because it is
    full, the budget is spent, or nothing is left. *)
Record kurrent_page (at_ : records) (envs : log) (after : Z) (opts : ReadOptions) (res : ReadResult) : Prop := {
  kp_events : rr_Events res =
    bfilter (λ env, (after <? GlobalPosition env) && (GlobalPosition env <=? rr_Next res) && env_matches opts env) envs;
  kp_next : after ≤ rr_Next res;
  kp_progress : rr_AtEnd res = false → ∃ r, r ∈ at_ ∧ after < re_Commit r ≤ rr_Next res;
  kp_at_end : rr_AtEnd res = true ↔ ∀ r, r ∈ at_ → re_Commit r ≤ rr_Next res;
  kp_limit : zlen (rr_Events res) ≤ page_limit opts;
  kp_budget : zlen (bfilter (between after (rr_Next res)) at_) ≤ Z.max (page_limit opts) scanLimit;
  kp_full : rr_AtEnd res = false → zlen (rr_Events res) = page_limit opts ∨
    zlen (bfilter (between after (rr_Next res)) at_) = Z.max (page_limit opts) scanLimit;
}.

(** Paging as a projection does, until a page is at the end, while others
    append. *)
Inductive pages_read `{J : JSON, C : KurrentClient W} (reg : Registry) (opts : ReadOptions) : Z → W → log → W → Prop :=
| pages_last fuel after w res w' : kurrent_ReadAll fuel reg after opts w = Some (Ok res, w') → rr_AtEnd res = true →
    pages_read reg opts after w (rr_Events res) w'
| pages_more fuel after w res w' evs w'' : kurrent_ReadAll fuel reg after opts w = Some (Ok res, w') → rr_AtEnd res = false →
    pages_read reg opts (rr_Next res) w' evs w'' → pages_read reg opts after w (rr_Events res ++ evs) w''.

Section global.
Context `{J : JSON, C : KurrentClient W, serves : W → records → Prop, L : !KurrentLaws C serves}.
Implicit Types (w : W) (rs : records).

Definition krec_matches (opts : ReadOptions) (r : RecordedEvent) : bool :=
  negb (isSystemRecord r) && (bool_decide (EventTypes opts = []) || bool_decide (re_EventType r ∈ EventTypes opts)) &&
  hasPrefix (re_StreamID r) (StreamPrefixes opts).

Definition last_commit (next : Z) rs : Z := default next (re_Commit <$> last rs).

Lemma last_commit_cons next r rs : last_commit next (r :: rs) = last_commit (re_Commit r) rs.
Proof. unfold last_commit. rewrite last_cons. by destruct (last rs). Qed.

Definition no_records rs : bool := match rs with [] => true | _ => false end.

(** What the loop makes of the records it still has to scan. *)
Lemma read_all_loop_spec reg after limit scan opts s got e : Delivers s got e → ∀ todo fuel evs next scanned,
  got `prefix_of` todo → (errors_Is e io_EOF = true → got = todo) → (length got < fuel)%nat →
  (∀ r, r ∈ todo → isSystemRecord r = false → ∃ env, decoded reg r env) → zlen evs ≤ limit → scanned ≤ scan →
  ∃ res s', read_all_loop fuel reg after limit scan opts s evs next scanned = Some (res, s') ∧
    match res with
    | Fail err => ∃ e0, err = map_err "read all" e0
    | Ok page => ∃ t1 t2 new, bfilter (λ r, after <? re_Commit r) todo = t1 ++ t2 ∧
        Forall2 (decoded reg) (bfilter (krec_matches opts) t1) new ∧
        page = mkReadResult (evs ++ new) (last_commit next t1) (no_records t2) ∧
        zlen (evs ++ new) ≤ limit ∧ scanned + zlen t1 ≤ scan ∧
        (t2 ≠ [] → zlen (evs ++ new) = limit ∨ scanned + zlen t1 = scan)
    end.
Proof.
  intros HD. induction HD as [s e s' Hr|s r s' got e Hr HD IH]; intros todo [|fuel] evs next scanned Hp HEOF Hf Hdec Hl Hsc;
    try (cbn in Hf; lia); cbn [read_all_loop]; rewrite Hr.
  - destruct (errors_Is e io_EOF); [|do 2 eexists; split; [done|by eexists]]. rewrite <- HEOF by done.
    do 2 eexists. split; [done|]. exists [], [], []. rewrite (app_nil_r evs), zlen_nil. split_and!; [done|by apply Forall2_nil|done|done|lia|done].
  - destruct Hp as [k ->]. cbn [rse_Event app] in *. set (todo := got ++ k) in *.
    assert (got `prefix_of` todo) as Hp by (by eexists).
    assert (errors_Is e io_EOF = true → got = todo) as HEOF' by (intros HE; by injection (HEOF HE)).
    cbn [length] in Hf. cbn [bfilter]. destruct (Z.leb_spec (re_Commit r) after) as [Hle|Hgt].
    { destruct (Z.ltb_spec after (re_Commit r)); [lia|]. apply IH; [done|done|lia| |done|done]. intros x Hx. apply Hdec. set_solver. }
    destruct (Z.ltb_spec after (re_Commit r)); [|lia]. cbv zeta.
    destruct (Z.ltb_spec scan (scanned + 1)); [|destruct (Z.eqb_spec (zlen evs) limit)]; cbn [orb].
    + do 2 eexists. split; [done|]. exists [], (r :: bfilter (λ r, after <? re_Commit r) todo), []. rewrite (app_nil_r evs), zlen_nil.
      split_and!; [done|by apply Forall2_nil|done|done|lia|right; lia].
    + do 2 eexists. split; [done|]. exists [], (r :: bfilter (λ r, after <? re_Commit r) todo), []. rewrite (app_nil_r evs), zlen_nil.
      split_and!; [done|by apply Forall2_nil|done|done|lia|by left].
    + assert (∀ evs', zlen evs' ≤ limit → ∀ pre, evs' = evs ++ pre → Forall2 (decoded reg) (bfilter (krec_matches opts) [r]) pre →
        ∃ res s2, read_all_loop fuel reg after limit scan opts s' evs' (re_Commit r) (scanned + 1) = Some (res, s2) ∧
        match res with
        | Fail err => ∃ e0, err = map_err "read all" e0
        | Ok page => ∃ t1 t2 new, r :: bfilter (λ r, after <? re_Commit r) todo = t1 ++ t2 ∧
            Forall2 (decoded reg) (bfilter (krec_matches opts) t1) new ∧
            page = mkReadResult (evs ++ new) (last_commit next t1) (no_records t2) ∧
            zlen (evs ++ new) ≤ limit ∧ scanned + zlen t1 ≤ scan ∧
            (t2 ≠ [] → zlen (evs ++ new) = limit ∨ scanned + zlen t1 = scan)
        end) as Hgo.
      { intros evs' Hl' pre -> HF.
        destruct (IH todo fuel (evs ++ pre) (re_Commit r) (scanned + 1) Hp HEOF' ltac:(lia)) as (res & s2 & HL & Hres);
          [by intros x Hx; apply Hdec; set_solver|done|lia|].
        exists res, s2. split; [done|]. destruct res as [page|err]; [|done].
        destruct Hres as (t1 & t2 & new & Ht & HF' & -> & H1 & H2 & H3). exists (r :: t1), t2, (pre ++ new).
        rewrite app_assoc, zlen_cons, last_commit_cons. split_and!; [by rewrite Ht| |done|done|lia|].
        - change (r :: t1) with ([r] ++ t1). rewrite bfilter_app. by apply Forall2_app.
        - intros Hne. destruct (H3 Hne); [by left|right; lia]. }
      cbn [bfilter] in Hgo. unfold krec_matches in Hgo at 1. specialize (Hdec r ltac:(by constructor)).
      destruct (isSystemRecord r); cbn [negb andb orb] in *; [eapply (Hgo evs Hl []); [by rewrite app_nil_r|constructor]|].
      destruct (bool_decide (EventTypes opts = [])), (bool_decide (re_EventType r ∈ EventTypes opts)),
        (hasPrefix (re_StreamID r) (StreamPrefixes opts)); cbn [negb andb orb] in *;
        try (eapply (Hgo evs Hl []); [by rewrite app_nil_r|constructor]);
        destruct (Hdec eq_refl) as (env & Henv); rewrite (proj1 Henv);
        (eapply Hgo; [rewrite zlen_app, zlen_cons, zlen_nil; lia|done|by constructor]).
Qed.

Lemma decoded_fields reg r env : decoded reg r env → StreamID env = re_StreamID r ∧ GlobalPosition env = re_Commit r.
Proof. intros [H _]. unfold toEnvelope in H. destruct (DecodeEvent _ _ _); [|done]. by injection H as <-. Qed.

Lemma decoded_matches reg opts r env : decoded reg r env → isSystemRecord r = false → krec_matches opts r = env_matches opts env.
Proof.
  intros Hd Hs. destruct (decoded_fields _ _ _ Hd) as [Hst _]. destruct Hd as [_ Hty].
  unfold krec_matches, env_matches, hasPrefix. by rewrite Hs, Hty, Hst.
Qed.

Lemma decoded_functional reg rs l k : Forall2 (decoded reg) rs l → Forall2 (decoded reg) rs k → l = k.
Proof.
  intros H. revert k. induction H as [|r env rs l [Hd _] H IH]; intros k Hk; inversion Hk as [|? env' ? k' [Hd' _] Hk']; subst; [done|].
  rewrite Hd in Hd'. injection Hd' as ->. f_equal. by apply IH.
Qed.

Lemma read_all_loop_mono fuel fuel' reg after limit scan opts s evs next scanned r :
  read_all_loop fuel reg after limit scan opts s evs next scanned = Some r → (fuel ≤ fuel')%nat →
  read_all_loop fuel' reg after limit scan opts s evs next scanned = Some r.
Proof.
  revert fuel' s evs next scanned. induction fuel as [|fuel IH]; intros [|fuel'] s evs next scanned H Hle; try done; [lia|].
  cbn [read_all_loop] in *. destruct (Recv s) as [[k|e] s']; [|done]. cbv zeta in *.
  destruct (re_Commit (rse_Event k) <=? after); [apply IH; [done|lia]|].
  destruct (_ || (zlen evs =? limit)); [done|]. destruct (isSystemRecord _ || _ || _); [apply IH; [done|lia]|].
  destruct (toEnvelope _ _); [apply IH; [done|lia]|done].
Qed.

(** A split of the records after [after] is a cut at a position. *)
Lemma split_at_commit at_ after t1 t2 : server_log at_ → bfilter (λ r, after <? re_Commit r) at_ = t1 ++ t2 →
  t1 = bfilter (between after (last_commit after t1)) at_ ∧ after ≤ last_commit after t1 ∧
  (∀ r, r ∈ t2 → r ∈ at_ ∧ last_commit after t1 < re_Commit r) ∧
  (∀ r, last t1 = Some r → r ∈ at_ ∧ after < re_Commit r ∧ re_Commit r = last_commit after t1).
Proof.
  intros Hl Ht. pose proof (StronglySorted_bfilter _ (λ r, after <? re_Commit r) _ (sl_positions _ Hl)) as Hs. rewrite Ht in Hs.
  assert (∀ r, r ∈ t1 ++ t2 → r ∈ at_ ∧ after < re_Commit r) as Hin.
  { intros r Hr. rewrite <- Ht, elem_of_bfilter, Z.ltb_lt in Hr. naive_solver. }
  pose proof Hs as Hs'. apply StronglySorted_app in Hs' as (Hab & Hs1 & _).
  assert (∀ r, r ∈ t1 → re_Commit r ≤ last_commit after t1) as Hle.
  { destruct t1 as [|x t1 _] using rev_ind; [by intros r ?%not_elem_of_nil|]. unfold last_commit. rewrite last_snoc. cbn.
    apply StronglySorted_app in Hs1 as (Hx & _ & _). intros r [Hr| ->%list_elem_of_singleton]%elem_of_app; [|lia].
    specialize (Hx r x Hr ltac:(set_solver)). lia. }
  assert (∀ r, last t1 = Some r → r ∈ t1 ∧ re_Commit r = last_commit after t1) as Hlast.
  { intros r Hr. split; [by apply last_Some_elem_of|]. unfold last_commit. by rewrite Hr. }
  assert (after ≤ last_commit after t1) as Haft.
  { destruct (last t1) as [r|] eqn:Hr; [|unfold last_commit; rewrite Hr; cbn; lia].
    destruct (Hlast r eq_refl) as [Hr1 <-]. destruct (Hin r ltac:(set_solver)). lia. }
  assert (∀ r, r ∈ t2 → last_commit after t1 < re_Commit r) as Hgt.
  { intros r Hr. destruct (last t1) as [x|] eqn:Hx.
    - destruct (Hlast x eq_refl) as [Hx1 <-]. by apply Hab.
    - unfold last_commit. rewrite Hx. cbn. apply Hin. set_solver. }
  split_and!; [|done| |].
  - transitivity (bfilter (λ r, re_Commit r <=? last_commit after t1) (t1 ++ t2)).
    + rewrite bfilter_app, bfilter_all, bfilter_none, app_nil_r; [done|..]; apply Forall_forall; intros r Hr.
      * apply Z.leb_gt. auto.
      * apply Z.leb_le. auto.
    + rewrite <- Ht, bfilter_bfilter. by apply bfilter_ext.
  - intros r Hr. split; [apply Hin; set_solver|auto].
  - intros r Hr. destruct (Hlast r Hr) as [Hr1 Hr2]. destruct (Hin r ltac:(set_solver)). done.
Qed.

Lemma page_of_scan reg at_ envs after opts t1 t2 new : server_log at_ → Forall2 (decoded reg) (app_records at_) envs →
  bfilter (λ r, after <? re_Commit r) at_ = t1 ++ t2 → Forall2 (decoded reg) (bfilter (krec_matches opts) t1) new →
  zlen new ≤ page_limit opts → zlen t1 ≤ Z.max (page_limit opts) scanLimit →
  (t2 ≠ [] → zlen new = page_limit opts ∨ zlen t1 = Z.max (page_limit opts) scanLimit) →
  kurrent_page at_ envs after opts (mkReadResult new (last_commit after t1) (no_records t2)).
Proof.
  intros Hl HF Ht Hnew H1 H2 H3. destruct (split_at_commit at_ after t1 t2 Hl Ht) as (Ht1 & Haft & Hgt & Hlast).
  assert (0 < page_limit opts) as Hpos by (unfold page_limit; destruct (Z.leb_spec (Limit opts) 0); lia).
  split; cbn [rr_Events rr_Next rr_AtEnd]; [|done| | |done|by rewrite <- Ht1|].
  - apply (decoded_functional reg (bfilter (krec_matches opts) t1)); [done|].
    assert (bfilter (krec_matches opts) t1 = bfilter (λ r, between after (last_commit after t1) r && krec_matches opts r) (app_records at_)) as ->.
    { rewrite Ht1 at 1. unfold app_records. rewrite !bfilter_bfilter. apply bfilter_ext. intros r _. unfold krec_matches.
      by destruct (isSystemRecord r), (between after (last_commit after t1) r). }
    set (m := last_commit after t1). assert (Forall2 (λ r env, decoded reg r env ∧ isSystemRecord r = false) (app_records at_) envs) as HF'.
    { apply Forall2_same_length_lookup_2; [by eapply Forall2_length|]. intros i r env Hr He. split; [exact (Forall2_lookup_lr _ _ _ _ _ _ HF Hr He)|].
      apply list_elem_of_lookup_2 in Hr. apply elem_of_bfilter in Hr as [Hr _]. by apply negb_true_iff in Hr. }
    eapply Forall2_impl; [eapply (Forall2_bfilter _ _ (λ env, (after <? GlobalPosition env) && (GlobalPosition env <=? m) && env_matches opts env)); [|exact HF']|by intros ? ? []].
    intros r env [Hd Hs]. unfold between. destruct (decoded_fields _ _ _ Hd) as [_ ->]. by rewrite (decoded_matches _ _ _ _ Hd Hs).
  - intros Hend. destruct t2 as [|x t2]; [done|]. destruct (last t1) as [r|] eqn:Hr.
    + destruct (Hlast r eq_refl) as (Hin & Hr1 & Hr2). exists r. split; [done|lia].
    + apply last_None in Hr. subst t1. inversion Hnew; subst. specialize (H3 ltac:(done)). unfold zlen, scanLimit in H3. cbn [length] in H3. lia.
  - split.
    + intros Hend r Hr. destruct t2; [|done]. rewrite app_nil_r in Ht. destruct (Z.le_gt_cases (re_Commit r) after); [lia|].
      assert (r ∈ t1) as Hin by (rewrite <- Ht; apply elem_of_bfilter; split; [by apply Z.ltb_lt|done]).
      rewrite Ht1 in Hin. apply elem_of_bfilter in Hin as [Hb _]. unfold between in Hb. apply andb_true_iff in Hb as [_ Hb%Z.leb_le]. done.
    + intros Hall. destruct t2 as [|r t2]; [done|]. destruct (Hgt r ltac:(set_solver)) as [Hr Hlt]. specialize (Hall r Hr). lia.
  - intros Hend. destruct t2; [done|]. rewrite <- Ht1. by apply H3.
Qed.

(** One page of the store over KurrentDB: with fuel for the records of the log the
    call returns, and a page holds every matching event between the start and
    its Next, keeps the limit and the number of records it may scan, moves
    Next past a record unless it is at the end, and is at the end exactly when
    the log has nothing after Next. *)
Theorem kurrent_page_is_complete reg after opts w rs : serves w rs → 0 ≤ after →
  (∀ w rs r, serves w rs → r ∈ rs → isSystemRecord r = false → ∃ env, decoded reg r env) →
  ∃ at_ rs' w' res, rs `prefix_of` at_ ∧ at_ `prefix_of` rs' ∧ serves w' rs' ∧
    (∀ fuel, zlen rs' < Z.of_nat fuel → kurrent_ReadAll fuel reg after opts w = Some (res, w')) ∧
    match res with
    | Fail e => ∃ e0, e = map_err "read all" e0
    | Ok page => ∀ envs, Forall2 (decoded reg) (app_records at_) envs → kurrent_page at_ envs after opts page
    end.
Proof.
  intros Hs Ha Hreg. unfold kurrent_ReadAll. set (from := if 0 <? after then _ else _).
  set (p := if 0 <? after then after else 0).
  assert (from = Start ∧ p = 0 ∨ from = At (mkPosition p p)) as Hfrom
    by (subst from p; destruct (0 <? after); [by right|by left]).
  assert (p ≤ after) as Hpa by (subst p; destruct (Z.ltb_spec 0 after); lia).
  destruct (client_ReadAll Forwards from readToEnd w) as [[s|e] w1] eqn:HR;
    destruct (read_all_law _ _ _ _ _ _ _ Hs HR Hfrom) as (at_ & rs1 & Hp & Hp1 & Hs1 & H).
  2: { exists at_, rs1, w1, (Fail (map_err "read all" e)). split_and!; [done..|by eexists]. }
  pose proof (server_log_prefix _ _ Hp1 (serves_log _ _ Hs1)) as Hla.
  destruct H as (got & e & HD & Hpre & HEOF); [pose proof (sl_room _ Hla); unfold readToEnd; lia|].
  assert (0 < page_limit opts) as Hpos by (unfold page_limit; destruct (Z.leb_spec (Limit opts) 0); lia).
  destruct (read_all_loop_spec reg after (page_limit opts) (Z.max (page_limit opts) scanLimit) opts s got e HD
    (bfilter (λ r, p <=? re_Commit r) at_) (S (length got)) [] after 0 Hpre HEOF) as (res & s' & HL & Hres);
    [lia| |rewrite zlen_nil; lia|unfold scanLimit; lia|].
  { intros r [_ Hr]%elem_of_bfilter. eapply Hreg; [exact Hs1|]. destruct Hp1 as [k ->]. set_solver. }
  destruct (close_law s' w1 rs1 Hs1) as (rs2 & Hp2 & Hs2). exists at_, rs2, (streamer_Close s' w1), res.
  split_and!; [done|by transitivity rs1|done| |].
  - intros fuel Hf. rewrite (read_all_loop_mono _ fuel _ _ _ _ _ _ _ _ _ _ HL); [done|]. apply prefix_length in Hpre, Hp1, Hp2.
    pose proof (bfilter_length (λ r, p <=? re_Commit r) at_). unfold zlen in Hf. lia.
  - destruct res as [page|err]; [|done]. intros envs HF. destruct Hres as (t1 & t2 & new & Ht & Hnew & -> & H1 & H2 & H3).
    cbn [app] in *. eapply page_of_scan; [done|exact HF| |exact Hnew|done|lia|intros Hne; destruct (H3 Hne); [by left|right; lia]].
    rewrite <- Ht, bfilter_bfilter. apply bfilter_ext. intros r _. destruct (Z.leb_spec p (re_Commit r)); [done|]. apply Z.ltb_ge. lia.
Qed.

Lemma kurrent_ReadAll_mono fuel fuel' reg after opts w r :
  kurrent_ReadAll fuel reg after opts w = Some r → (fuel ≤ fuel')%nat → kurrent_ReadAll fuel' reg after opts w = Some r.
Proof.
  unfold kurrent_ReadAll. destruct (client_ReadAll _ _ _ _) as [[s|e] w1]; [|done]. intros H Hle.
  destruct (read_all_loop fuel _ _ _ _ _ _ _ _ _) as [[res s']|] eqn:HL; [|done]. by rewrite (read_all_loop_mono _ _ _ _ _ _ _ _ _ _ _ _ HL Hle).
Qed.

Lemma decoded_sorted reg rs envs : StronglySorted (λ a b, re_Commit a < re_Commit b) rs → Forall2 (decoded reg) rs envs →
  StronglySorted (λ a b, GlobalPosition a < GlobalPosition b) envs.
Proof.
  intros Hs HF. induction HF as [|r env rs envs Hd HF IH]; [constructor|]. inversion_clear Hs as [|? ? Hs' Hx]. constructor; [by apply IH|].
  apply Forall_forall. intros e [i Hi]%list_elem_of_lookup. destruct (Forall2_lookup_r _ _ _ _ _ HF Hi) as (r' & Hr' & Hd').
  rewrite (proj2 (decoded_fields _ _ _ Hd)), (proj2 (decoded_fields _ _ _ Hd')).
  rewrite Forall_forall in Hx. eapply Hx, list_elem_of_lookup_2, Hr'.
Qed.

Lemma decoded_record reg at_ envs env : Forall2 (decoded reg) (app_records at_) envs → env ∈ envs →
  ∃ r, r ∈ at_ ∧ GlobalPosition env = re_Commit r.
Proof.
  intros HF [i Hi]%list_elem_of_lookup. destruct (Forall2_lookup_r _ _ _ _ _ HF Hi) as (r & Hr & Hd).
  apply list_elem_of_lookup_2, elem_of_bfilter in Hr as [_ Hr]. exists r. split; [done|]. by eapply decoded_fields.
Qed.

(** A page, and then everything after it. *)
Lemma page_then_rest reg at1 at_ envs after opts res : server_log at_ → at1 `prefix_of` at_ →
  Forall2 (decoded reg) (app_records at_) envs →
  (∀ envs1, Forall2 (decoded reg) (app_records at1) envs1 → kurrent_page at1 envs1 after opts res) → rr_AtEnd res = false →
  rr_Events res ++ bfilter (λ env, (rr_Next res <? GlobalPosition env) && env_matches opts env) envs
  = bfilter (λ env, (after <? GlobalPosition env) && env_matches opts env) envs.
Proof.
  intros Hl [k Hk] HF Hpage Hend.
  assert (StronglySorted (λ a b, GlobalPosition a < GlobalPosition b) envs) as Hsort
    by (eapply decoded_sorted; [apply StronglySorted_bfilter, Hl|exact HF]).
  assert (∃ e1 e2, envs = e1 ++ e2 ∧ Forall2 (decoded reg) (app_records at1) e1 ∧ Forall2 (decoded reg) (app_records k) e2) as (e1 & e2 & He & H1 & H2).
  { unfold app_records in HF. rewrite Hk, bfilter_app in HF. apply Forall2_app_inv_l in HF as (e1 & e2 & ? & ? & ->). by exists e1, e2. }
  destruct (Hpage e1 H1) as [Hev Hnext _ Hatend _ _ _].
  assert (∃ r, r ∈ at1 ∧ rr_Next res < re_Commit r) as (r & Hr & Hgt).
  { destruct (existsb (λ r, rr_Next res <? re_Commit r) at1) eqn:Hx.
    - apply existsb_elem in Hx as (r & Hr & Hx%Z.ltb_lt). by exists r.
    - exfalso. assert (rr_AtEnd res = true) as Ht; [|by rewrite Ht in Hend]. apply Hatend. intros r Hr.
      apply not_true_iff_false in Hx. rewrite existsb_elem in Hx. apply Z.nlt_ge. intros Hlt. apply Hx. exists r. split; [done|by apply Z.ltb_lt]. }
  rewrite <- (split_ascending GlobalPosition (env_matches opts) envs after (rr_Next res)) by done. f_equal.
  rewrite Hev, He, bfilter_app. rewrite (bfilter_none _ e2); [by rewrite app_nil_r|]. apply Forall_forall. intros env Henv.
  destruct (decoded_record _ _ _ _ H2 Henv) as (r' & Hr' & ->).
  pose proof (sl_positions _ Hl) as Hs. rewrite Hk in Hs. apply StronglySorted_app in Hs as (Hab & _ & _). specialize (Hab r r' Hr Hr').
  destruct (Z.leb_spec (re_Commit r') (rr_Next res)); [lia|]. by rewrite andb_false_r.
Qed.

(** The page a call returned, whatever its fuel. *)
Lemma page_returned reg fuel after opts w res w' rs : kurrent_ReadAll fuel reg after opts w = Some (Ok res, w') →
  serves w rs → 0 ≤ after →
  (∀ w rs r, serves w rs → r ∈ rs → isSystemRecord r = false → ∃ env, decoded reg r env) →
  ∃ at_ rs', rs `prefix_of` at_ ∧ at_ `prefix_of` rs' ∧ serves w' rs' ∧ after ≤ rr_Next res ∧
    ∀ envs, Forall2 (decoded reg) (app_records at_) envs → kurrent_page at_ envs after opts res.
Proof.
  intros HR Hs Ha Hreg. destruct (kurrent_page_is_complete reg after opts w rs Hs Ha Hreg) as (at_ & rs' & w1 & res1 & Hp & Hp' & Hs' & HF & Hres).
  pose proof (HF (fuel + S (length rs'))%nat ltac:(unfold zlen; lia)) as H1.
  rewrite (kurrent_ReadAll_mono _ (fuel + S (length rs'))%nat _ _ _ _ _ HR ltac:(lia)) in H1. injection H1 as <- <-.
  exists at_, rs'. split_and!; [done..| |done].
  assert (∃ envs, Forall2 (decoded reg) (app_records at_) envs) as [envs Henvs]; [|by apply (Hres envs Henvs)].
  assert (∀ r, r ∈ app_records at_ → ∃ env, decoded reg r env) as Hdec.
  { intros r [Hr1 Hr2]%elem_of_bfilter. eapply Hreg; [exact Hs'| |by apply negb_true_iff]. destruct Hp' as [k ->]. set_solver. }
  clear - Hdec. induction (app_records at_) as [|r rs IH]; [by exists []|].
  destruct IH as [envs IH]; [intros x Hx; apply Hdec; set_solver|]. destruct (Hdec r ltac:(set_solver)) as [env He].
  exists (env :: envs). by constructor.
Qed.

(** C24: Paging through the store over KurrentDB, page after page while others
    append, misses nothing and repeats nothing, as long as every application
    record decodes: the events of the pages together are exactly the matching
    application events after the start, in order, of the log the last page
    ended at, although pages are cut by a limit and by the number of records
    they may scan, the record at the start is delivered again, and the
    server's own records lie between. *)
Theorem kurrent_pages_read_everything reg opts after w evs w' : pages_read reg opts after w evs w' → ∀ rs, serves w rs → 0 ≤ after →
  (∀ w rs r, serves w rs → r ∈ rs → isSystemRecord r = false → ∃ env, decoded reg r env) →
  ∃ at_ rs', rs `prefix_of` at_ ∧ at_ `prefix_of` rs' ∧ serves w' rs' ∧
    ∀ envs, Forall2 (decoded reg) (app_records at_) envs →
      evs = bfilter (λ env, (after <? GlobalPosition env) && env_matches opts env) envs.
Proof.
  intros HP. induction HP as [fuel after w res w' HR Hend|fuel after w res w' evs w'' HR Hend HP IH]; intros rs Hs Ha Hreg;
    destruct (page_returned _ _ _ _ _ _ _ _ HR Hs Ha Hreg) as (at1 & rs1 & Hp & Hp1 & Hs1 & Hnext & Hpage).
  - exists at1, rs1. split_and!; [done..|]. intros envs HF. destruct (Hpage envs HF) as [-> _ _ Hat _ _ _].
    apply bfilter_ext. intros env Henv. destruct (decoded_record _ _ _ _ HF Henv) as (r & Hr & ->).
    pose proof (proj1 Hat Hend r Hr). destruct (Z.leb_spec (re_Commit r) (rr_Next res)); [by rewrite andb_true_r|lia].
  - destruct (IH rs1 Hs1 ltac:(lia) Hreg) as (at2 & rs2 & Hp2 & Hp3 & Hs2 & Hall). exists at2, rs2.
    assert (at1 `prefix_of` at2) as Hp12 by (by transitivity rs1).
    split_and!; [by transitivity at1|done|done|]. intros envs HF. rewrite (Hall envs HF).
    eapply page_then_rest; [exact (server_log_prefix _ _ Hp3 (serves_log _ _ Hs2))|exact Hp12|exact HF|exact Hpage|exact Hend].
Qed.

(** Newest first. *)
Lemma head_loop_spec s got e : Delivers s got e → ∀ todo fuel,
  got `prefix_of` todo → (errors_Is e io_EOF = true → got = todo) → (length got < fuel)%nat →
  ∃ res s', head_loop fuel s = Some (res, s') ∧
    match res with
    | Ok n => n = default 0 (re_Commit <$> head (app_records todo))
    | Fail err => ∃ e0, err = map_err "head" e0
    end.
Proof.
  intros HD. induction HD as [s e s' Hr|s r s' got e Hr HD IH]; intros todo [|fuel] Hp HEOF Hf; try (cbn in Hf; lia);
    cbn [head_loop]; rewrite Hr.
  - destruct (errors_Is e io_EOF); [|do 2 eexists; split; [done|by eexists]]. rewrite <- HEOF by done. by do 2 eexists.
  - destruct Hp as [k ->]. cbn [rse_Event app] in *. unfold app_records. cbn [bfilter]. destruct (isSystemRecord r); cbn [negb].
    + apply IH; [by eexists| |cbn in Hf; lia]. intros HE. by injection (HEOF HE).
    + by do 2 eexists.
Qed.

Lemma head_loop_mono fuel fuel' s r : head_loop fuel s = Some r → (fuel ≤ fuel')%nat → head_loop fuel' s = Some r.
Proof.
  revert fuel' s. induction fuel as [|fuel IH]; intros [|fuel'] s H Hle; try done; [lia|].
  cbn [head_loop] in *. destruct (Recv s) as [[k|e] s']; [|done]. destruct (negb _); [done|]. apply IH; [done|lia].
Qed.

Lemma bfilter_reverse {A} (p : A → bool) l : bfilter p (reverse l) = reverse (bfilter p l).
Proof.
  induction l as [|x l IH]; [done|]. rewrite reverse_cons, bfilter_app, IH. cbn [bfilter].
  destruct (p x); [by rewrite reverse_cons|by rewrite app_nil_r].
Qed.

(** Head is the position of the newest application event, 0 without one, so never
    beyond what ReadAll can return. *)
Theorem kurrent_Head_is_the_newest_event w rs : serves w rs →
  ∃ at_ rs' w' res, rs `prefix_of` at_ ∧ at_ `prefix_of` rs' ∧ serves w' rs' ∧
    (∀ fuel, zlen rs' < Z.of_nat fuel → kurrent_Head fuel w = Some (res, w')) ∧
    match res with
    | Ok n => n = default 0 (re_Commit <$> last (app_records at_))
    | Fail e => ∃ e0, e = map_err "head" e0
    end.
Proof.
  intros Hs. unfold kurrent_Head. destruct (client_ReadAll Backwards End_ readToEnd w) as [[s|e] w1] eqn:HR;
    destruct (read_all_back_law _ _ _ _ _ Hs HR) as (at_ & rs1 & Hp & Hp1 & Hs1 & H).
  2: { exists at_, rs1, w1, (Fail (map_err "head" e)). split_and!; [done..|by eexists]. }
  pose proof (server_log_prefix _ _ Hp1 (serves_log _ _ Hs1)) as Hla.
  destruct H as (got & e & HD & Hpre & HEOF); [pose proof (sl_room _ Hla); unfold readToEnd; lia|].
  destruct (head_loop_spec s got e HD (reverse at_) (S (length got)) Hpre HEOF ltac:(lia)) as (res & s' & HL & Hres).
  destruct (close_law s' w1 rs1 Hs1) as (rs2 & Hp2 & Hs2). exists at_, rs2, (streamer_Close s' w1), res.
  split_and!; [done|by transitivity rs1|done| |].
  - intros fuel Hf. rewrite (head_loop_mono _ fuel _ _ HL); [done|]. apply prefix_length in Hpre, Hp1, Hp2.
    rewrite length_reverse in Hpre. unfold zlen in Hf. lia.
  - destruct res; [|done]. by rewrite Hres; unfold app_records; rewrite bfilter_reverse, head_reverse.
Qed.
End global.
