(* ===== verification/CommandHandler.v ===== *)
(** * Command handlers ([command_handler.go])

    [NewCommandHandler] as a function of the options, the domain functions and
    a world that holds the event store, the clock and the source of UUIDs.
    Other processes write to the same store, so every operation of the world
    may also let the log grow; the laws of [EventStoreLaws] say only what the
    [EventStore] interface promises under such interference.  The retry loop
    is that of [Backoff]. *)
From S2P Require Import Prelude Core Registry Context Log Backoff.

(** ** What the handler calls *)

(** An event store in a shared world.  [LoadStreamFrom] gives the events the
    iterator yields and its final [Err]. *)
Class EventStoreOps (W : Type) : Type := {
  LoadStreamFrom : string → StreamState → W → result error (list Envelope * option error) * W;
  Save : list Envelope → StreamState → W → AppendResult * option error * W;
  uuid_New : W → uuid * W;
  time_Now : W → time * W;
}.

(** ** Options *)
Section handler.
Context `{U : UUIDString, ES : EventStoreOps W, B : BackoffOps}.
(** The aggregate state, and the domain functions of the application. *)
Context {T : Type} (initialState : T) (evolve : T → Envelope → T)
  (decide : T → Command → result error (list (option Event))).

Record handlerOptions : Type := mkHandlerOptions {
  opt_StreamState : StreamState;
  opt_RetryStrategy : option BackOff;
  opt_MetadataFuncs : list (values → gmap string any);
  opt_StreamNamer : values → Command → string;
}.

Definition CommandHandlerOption : Type := handlerOptions → handlerOptions.

Definition DefaultStreamNamer (_ : values) (cmd : Command) : string := cmd_AggregateID cmd.

Definition WithStreamState (state : StreamState) : CommandHandlerOption := λ cfg,
  mkHandlerOptions state (opt_RetryStrategy cfg) (opt_MetadataFuncs cfg) (opt_StreamNamer cfg).

(** [newBackOff] is the factory; [None] is a nil function, and a factory
    that returns nil yields [Some None]. *)
Definition WithRetryStrategy (newBackOff : option (option BackOff)) : CommandHandlerOption := λ cfg,
  match newBackOff with
  | None => cfg
  | Some b => mkHandlerOptions (opt_StreamState cfg) b (opt_MetadataFuncs cfg) (opt_StreamNamer cfg)
  end.

Definition WithMetadataExtractor (fn : values → gmap string any) : CommandHandlerOption := λ cfg,
  mkHandlerOptions (opt_StreamState cfg) (opt_RetryStrategy cfg) (opt_MetadataFuncs cfg ++ [fn])
    (opt_StreamNamer cfg).

Definition WithStreamNamer (namer : option (values → Command → string)) : CommandHandlerOption := λ cfg,
  match namer with
  | None => cfg
  | Some n => mkHandlerOptions (opt_StreamState cfg) (opt_RetryStrategy cfg) (opt_MetadataFuncs cfg) n
  end.

Definition default_options : handlerOptions :=
  mkHandlerOptions Any (Some StopBackOff) [] DefaultStreamNamer.

Definition apply_options (opts : list CommandHandlerOption) : handlerOptions :=
  foldl (λ cfg o, o cfg) default_options opts.

Definition retryStrategy (ctx : values) (newBackOff : option BackOff) : BackOff :=
  WithContext (default StopBackOff newBackOff) ctx.

(** ** One call of the handler *)

Definition autoConverge (st : StreamState) : bool :=
  match st with Any | StreamExists => true | _ => false end.

Definition firstLoadState (st : StreamState) : StreamState :=
  match st with Revision _ => Any | _ => st end.

(** The variables the retried function captures, and the world. *)
Record Attempt : Type := mkAttempt {
  at_state : T;
  at_loadState : StreamState;
  at_lastVersion : Z;
  at_world : W;
}.

(** [for iter.Next() { ... }] *)
Fixpoint evolve_all (evs : list Envelope) (a : Attempt) : Attempt :=
  match evs with
  | [] => a
  | event :: evs =>
    evolve_all evs (mkAttempt (evolve (at_state a) event) (Revision (Version event)) (Version event) (at_world a))
  end.

(** [maps.Copy] of the extractors' maps over the base metadata. *)
Definition base_metadata (opts : handlerOptions) (ctx : values) (cmd : Command) (commandID : string) :
    gmap string any :=
  foldl (λ m fn, fn ctx ∪ m)
    (<["command_type" := AnyString (cmd_CommandType cmd)]>
      (<["command_id" := AnyString commandID]> ∅))
    (opt_MetadataFuncs opts).

(** The loop that wraps the decided events, from index [i]. *)
Fixpoint wrap_events (streamID causationID : string) (md : gmap string any) (nextVersion : Z)
    (i : Z) (correlationID : string) (events : list (option Event)) (w : W) : list Envelope * W :=
  match events with
  | [] => ([], w)
  | event :: events =>
    let '(eventID, w) := uuid_New w in
    let correlationID := if bool_decide (correlationID = "") then uuid_String eventID else correlationID in
    let '(now, w) := time_Now w in
    let env := mkEnvelope eventID streamID (Some md) correlationID causationID event
                 (u64 (nextVersion + i)) 0 now in
    let '(envs, w) := wrap_events streamID causationID md nextVersion (i + 1) correlationID events w in
    (env :: envs, w)
  end.

(** The function passed to [backoff.RetryWithData]. *)
Definition attempt (opts : handlerOptions) (ctx : values) (cmd : Command) (streamID commandID : string)
    (a : Attempt) : AppendResult * option error * Attempt :=
  let '(r, w) := LoadStreamFrom streamID (at_loadState a) (at_world a) in
  match r with
  | Fail e =>
    (mkAppendResult false streamID (at_lastVersion a) 0, Some (Permanent (Errorf "load failed" e)),
     mkAttempt (at_state a) (at_loadState a) (at_lastVersion a) w)
  | Ok (evs, iter_err) =>
    let a := evolve_all evs (mkAttempt (at_state a) (at_loadState a) (at_lastVersion a) w) in
    match iter_err with
    | Some e => (mkAppendResult false streamID (at_lastVersion a) 0, Some (Permanent (Errorf "iter failed" e)), a)
    | None =>
      match decide (at_state a) cmd with
      | Fail e =>
        (mkAppendResult false streamID (at_lastVersion a) 0,
         Some (Permanent (Errorf "handle command" (BusinessRuleViolationError e))), a)
      | Ok [] => (mkAppendResult true streamID (at_lastVersion a) 0, None, a)
      | Ok events =>
        let '(envelopes, w) :=
          wrap_events streamID (CausationIDFromContext ctx) (base_metadata opts ctx cmd commandID)
            (u64 (at_lastVersion a + 1)) 0 (CorrelationIDFromContext ctx) events (at_world a) in
        let saveState := if autoConverge (opt_StreamState opts) then Revision (at_lastVersion a)
                         else opt_StreamState opts in
        let '(result, err, w) := Save envelopes saveState w in
        let a := mkAttempt (at_state a) (at_loadState a) (at_lastVersion a) w in
        match err with
        | None => (result, None, a)
        | Some e =>
          match errors_As is_Conflict e with
          | Some (s, x, act) =>
            let actual := match act with Some (Revision r) => r | _ => 0 end in
            let conflict := StreamRevisionConflictError s x act in
            let e := Errorf "concurrency conflict" conflict in
            (mkAppendResult false streamID actual 0,
             Some (if autoConverge (opt_StreamState opts) then e else Permanent e), a)
          | None => (result, Some (Permanent (Errorf "failed to save event" e)), a)
          end
        end
      end
    end
  end.

(** The closure [NewCommandHandler] returns. *)
Definition NewCommandHandler (opts : list CommandHandlerOption) (ctx : values) (command : Command) (w : W) :
    AppendResult * option error * W :=
  let options := apply_options opts in
  let streamID := opt_StreamNamer options ctx command in
  let '(commandUUID, w) := uuid_New w in
  let a := mkAttempt initialState (firstLoadState (opt_StreamState options)) 0 w in
  let '(res, err, a) :=
    RetryWithData (attempt options ctx command streamID (uuid_String commandUUID))
      (retryStrategy ctx (opt_RetryStrategy options)) a in
  (res, err, at_world a).
End handler.

Arguments handlerOptions {B}.
Arguments CommandHandlerOption {B}.
Arguments Attempt {W} T.

(** ** What the handler relies on *)

(** The [EventStore] contract, with other writers: [views w l] says that [l]
    is the store's log in world [w]. *)
Class EventStoreLaws (W : Type) `{J : JSON, ES : EventStoreOps W} (views : W → log → Prop) : Prop := {
  views_numbered w l : views w l → numbered l ∧ zlen l < two64 - 1;
  load_law id st w r w' l :
    views w l → recognized st → LoadStreamFrom id st w = (r, w') →
    ∃ at_load l', l `prefix_of` at_load ∧ at_load `prefix_of` l' ∧ views w' l' ∧
      match r with
      | Ok (evs, None) =>
        load_error st (zlen (stream_of id at_load)) = None ∧
        evs = drop (Z.to_nat (load_offset st)) (stream_of id at_load)
      | _ => True
      end;
  save_law id evs st w res err w' l :
    views w l → recognized st → evs ≠ [] → valid_batch id evs = true →
    Save evs st w = (res, err, w') →
    ∃ at_save l', l `prefix_of` at_save ∧ views w' l' ∧
      match err with
      | Some e => at_save `prefix_of` l'
      | None =>
        let n := zlen (stream_of id at_save) in
        expectation_holds st n = true ∧ Successful res = true ∧ res_StreamID res = id ∧
        NextExpectedVersion res = n + zlen evs ∧
        ∃ now, at_save ++ stamp now n (zlen at_save) evs `prefix_of` l'
      end;
  uuid_law w u w' l : views w l → uuid_New w = (u, w') →
    u ≠ uuid_Nil ∧ ∃ l', l `prefix_of` l' ∧ views w' l';
  now_law w t w' l : views w l → time_Now w = (t, w') → ∃ l', l `prefix_of` l' ∧ views w' l';
}.

(** ** Facts about one attempt *)
Section facts.
Context `{J : JSON, U : UUIDString, !UUIDLaws U, ES : EventStoreOps W, views : W → log → Prop,
          !EventStoreLaws W views, B : BackoffOps, !BackoffLaws B}.
Context {T : Type} (initialState : T) (evolve : T → Envelope → T)
  (decide : T → Command → result error (list (option Event))).
Implicit Types (opts : handlerOptions) (ctx : values) (cmd : Command) (a : Attempt (W := W) T).

(** The state folded from a history. *)
Definition folded (evs : list Envelope) : T := foldl evolve initialState evs.

(** The chain the events of one command share. *)
Definition chain_head (correlationID : string) (envs : list Envelope) : string :=
  if bool_decide (correlationID = "")
  then match envs with env :: _ => uuid_String (EventID env) | [] => "" end
  else correlationID.

Record wrapped (id causation correlation : string) (md : gmap string any) (events : list (option Event))
    (envs : list Envelope) : Prop := {
  wrapped_events : env_Event <$> envs = events;
  wrapped_fields : Forall (λ env, StreamID env = id ∧ EventID env ≠ uuid_Nil ∧ Metadata env = Some md ∧
    CausationID env = causation ∧ CorrelationID env = chain_head correlation envs) envs;
}.

Lemma wrap_events_spec id causation md next i corr events w envs w' l :
  views w l → wrap_events id causation md next i corr events w = (envs, w') →
  (∃ l', l `prefix_of` l' ∧ views w' l') ∧ wrapped id causation corr md events envs ∧
  ∀ j env, envs !! j = Some env → Version env = u64 (next + i + Z.of_nat j).
Proof.
  revert i corr w envs l. induction events as [|event events IH]; intros i corr w envs l Hv H;
    cbn [wrap_events] in H.
  { simplify_eq. split; [by exists l|]. split; [by repeat split|]. intros j env Hj. by destruct j. }
  destruct (uuid_New w) as [u w1] eqn:Hu. destruct (time_Now w1) as [now w2] eqn:Hn.
  destruct (uuid_law _ _ _ _ Hv Hu) as (Hnil & l1 & Hl1 & Hv1).
  destruct (now_law _ _ _ _ Hv1 Hn) as (l2 & Hl2 & Hv2).
  set (corr' := if bool_decide (corr = "") then uuid_String u else corr) in *.
  assert (corr' ≠ "") as Hcorr'.
  { unfold corr'. case_bool_decide; [apply uuid_String_nonempty|done]. }
  destruct (wrap_events id causation md next (i + 1) corr' events w2) as [envs' w3] eqn:Hw.
  simplify_eq. destruct (IH _ _ _ _ _ Hv2 Hw) as ((l3 & Hl3 & Hv3) & [Hev Hf] & Hver).
  split; [exists l3; split; [|done]; by do 2 (etrans; [eassumption|])|]. split.
  - split; cbn [fmap list_fmap env_Event]; [by rewrite <- Hev|].
    assert (chain_head corr (mkEnvelope u id (Some md) corr' causation event (u64 (next + i)) 0 now :: envs')
      = corr') as Hhead.
    { unfold chain_head, corr'. by case_bool_decide. }
    rewrite Hhead. constructor; [by cbn|]. eapply Forall_impl; [exact Hf|].
    intros env (? & ? & ? & ? & Hc). split_and!; [done..|]. rewrite Hc. unfold chain_head.
    by rewrite bool_decide_false.
  - intros [|j] env Hj; simplify_eq/=; [f_equal; lia|]. rewrite (Hver _ _ Hj). f_equal. lia.
Qed.

Lemma wrapped_valid id causation corr md events envs :
  wrapped id causation corr md events envs → valid_batch id envs = true.
Proof.
  intros [_ Hf]. unfold valid_batch. apply forallb_elem. intros env Hin.
  rewrite Forall_forall in Hf. destruct (Hf _ Hin) as (-> & Hnil & _).
  by rewrite bool_decide_true, bool_decide_false.
Qed.

Lemma wrapped_nonempty id causation corr md events envs :
  wrapped id causation corr md events envs → events ≠ [] → envs ≠ [].
Proof. intros [<- _] H ->. done. Qed.

Lemma evolve_all_spec evs a :
  evolve_all evolve evs a =
  mkAttempt (foldl evolve (at_state a) evs)
    (match last evs with Some e => Revision (Version e) | None => at_loadState a end)
    (match last evs with Some e => Version e | None => at_lastVersion a end) (at_world a).
Proof.
  revert a. induction evs as [|e evs IH]; intros a; [by destruct a|].
  cbn [evolve_all]. rewrite IH. simpl. destruct (last evs) as [e'|] eqn:Hl; [|].
  - destruct evs as [|e1 evs]; [done|]. change (last (e :: e1 :: evs)) with (last (e1 :: evs)). by rewrite Hl.
  - apply last_None in Hl. by subst.
Qed.

(** Between attempts: the captured variables describe the stream as of the
    log [lf]. *)
Record in_sync (st : StreamState) (id : string) (lf : log) (a : Attempt (W := W) T) : Prop := {
  sync_state : at_state a = folded (stream_of id lf);
  sync_version : at_lastVersion a = zlen (stream_of id lf);
  sync_load : (at_loadState a = Revision (zlen (stream_of id lf)) ∧ stream_of id lf ≠ []) ∨
    (at_loadState a = firstLoadState st ∧ stream_of id lf = []);
}.

Lemma load_offset_first st : load_offset (firstLoadState st) = 0.
Proof. by destruct st. Qed.

Lemma stream_continues id l l' :
  l `prefix_of` l' →
  stream_of id l' = stream_of id l ++ drop (Z.to_nat (zlen (stream_of id l))) (stream_of id l').
Proof.
  intros Hp. destruct (stream_of_prefix id _ _ Hp) as [k Hk]. rewrite Hk.
  unfold zlen. by rewrite Nat2Z.id, drop_app_length.
Qed.

(** Loading brings the variables in step with the log the load read. *)
Lemma load_in_sync st id lf at_load l' w' a evs :
  in_sync st id lf a → lf `prefix_of` at_load → at_load `prefix_of` l' → views w' l' →
  evs = drop (Z.to_nat (load_offset (at_loadState a))) (stream_of id at_load) →
  in_sync st id at_load
    (evolve_all evolve evs (mkAttempt (at_state a) (at_loadState a) (at_lastVersion a) w')).
Proof.
  intros [Hs Hver Hl] Hp Hp' Hv Hevs.
  assert (evs = drop (Z.to_nat (zlen (stream_of id lf))) (stream_of id at_load)) as Hd.
  { destruct Hl as [[Hl _]|[Hl Hnil]]; rewrite Hevs, Hl; [done|]. by rewrite load_offset_first, Hnil. }
  pose proof (stream_continues id _ _ Hp) as Hc. rewrite <- Hd in Hc.
  rewrite evolve_all_spec; cbn [at_state at_loadState at_lastVersion at_world].
  assert (match last evs with Some e => Version e | None => at_lastVersion a end
          = zlen (stream_of id at_load)) as Hlast.
  { destruct (last evs) as [e|] eqn:Hle.
    - apply (numbered_last at_load id); [by eapply numbered_prefix, views_numbered|].
      by rewrite Hc, last_app, Hle.
    - apply last_None in Hle. subst evs. rewrite Hle, app_nil_r in Hc. by rewrite Hc. }
  split; cbn [at_state at_loadState at_lastVersion].
  - rewrite Hs, Hc. unfold folded. by rewrite foldl_app.
  - done.
  - destruct (last evs) as [e|] eqn:Hle.
    { left. rewrite Hlast. split; [done|]. rewrite Hc. intros [_ ->]%app_eq_nil. done. }
    apply last_None in Hle. rewrite Hle, app_nil_r in Hc. rewrite Hc. by destruct Hl; [left|right].
Qed.

(** What a successful attempt has done: nothing, because the command has no
    effect on the stream, or one append to the stream it was decided on. *)
Definition committed (opts : handlerOptions) ctx cmd (id commandID : string) (lf l' : log)
    (res : AppendResult) : Prop :=
  ∃ events, decide (folded (stream_of id lf)) cmd = Ok events ∧ Successful res = true ∧
    res_StreamID res = id ∧
    match events with
    | [] => NextExpectedVersion res = zlen (stream_of id lf)
    | _ =>
      ∃ at_save now envs,
        lf `prefix_of` at_save ∧
        at_save ++ stamp now (zlen (stream_of id at_save)) (zlen at_save) envs `prefix_of` l' ∧
        wrapped id (CausationIDFromContext ctx) (CorrelationIDFromContext ctx)
          (base_metadata opts ctx cmd commandID) events envs ∧
        (∀ j env, envs !! j = Some env → Version env = u64 (zlen (stream_of id lf) + 1 + Z.of_nat j)) ∧
        expectation_holds (opt_StreamState opts) (zlen (stream_of id at_save)) = true ∧
        (autoConverge (opt_StreamState opts) = true → zlen (stream_of id at_save) = zlen (stream_of id lf)) ∧
        NextExpectedVersion res = zlen (stream_of id at_save) + zlen envs
    end.

Lemma u64_succ l id : zlen l < two64 - 1 → u64 (zlen (stream_of id l) + 1) = zlen (stream_of id l) + 1.
Proof. intros H. apply u64_small. pose proof (zlen_stream_of id l). unfold is_u64. lia. Qed.

Lemma in_sync_recognized st id lf a :
  recognized st → zlen lf < two64 - 1 → in_sync st id lf a → recognized (at_loadState a).
Proof.
  intros Hst Hb [_ _ [[-> _]|[-> _]]]; [|by destruct st].
  simpl. pose proof (zlen_stream_of id lf). unfold is_u64. lia.
Qed.

Lemma attempt_spec opts ctx cmd id commandID lf l a res err a' :
  recognized (opt_StreamState opts) →
  in_sync (opt_StreamState opts) id lf a → lf `prefix_of` l → views (at_world a) l →
  attempt evolve decide opts ctx cmd id commandID a = (res, err, a') →
  ∃ lf' l', lf `prefix_of` lf' ∧ lf' `prefix_of` l' ∧ views (at_world a') l' ∧
    match err with
    | None => committed opts ctx cmd id commandID lf' l' res
    | Some e => errors_As is_Permanent e = None →
                in_sync (opt_StreamState opts) id lf' a' ∧ autoConverge (opt_StreamState opts) = true
    end.
Proof.
  intros Hst Hsync Hlf Hv. unfold attempt.
  assert (recognized (at_loadState a)) as Hrec.
  { eapply in_sync_recognized; [done| |done]. destruct (views_numbered _ _ Hv).
    pose proof (prefix_zlen _ _ Hlf). lia. }
  destruct (LoadStreamFrom id (at_loadState a) (at_world a)) as [r w1] eqn:Hload.
  destruct (load_law _ _ _ _ _ _ Hv Hrec Hload) as (L & l1 & HL & HL1 & Hv1 & Hr).
  assert (lf `prefix_of` L) as HfL by (by etrans).
  destruct r as [[evs [e|]]|e]; cbn zeta beta iota.
  { intros ?; simplify_eq. exists L, l1. rewrite evolve_all_spec. by split_and!. }
  2: { intros ?; simplify_eq. exists L, l1. by split_and!. }
  destruct Hr as [Hle Hevs].
  pose proof (load_in_sync _ _ _ _ _ w1 _ _ Hsync HfL HL1 Hv1 Hevs) as Hs'.
  set (a1 := evolve_all _ _ _) in *.
  assert (at_world a1 = w1) as Hw1 by (unfold a1; by rewrite evolve_all_spec).
  rewrite (sync_state _ _ _ _ Hs'), (sync_version _ _ _ _ Hs').
  destruct (decide _ cmd) as [events|e] eqn:Hdec.
  2: { intros ?; simplify_eq. exists L, l1. rewrite Hw1. by split_and!. }
  destruct events as [|ev events'].
  { intros ?; simplify_eq. exists L, l1. rewrite Hw1. split_and!; [done..|]. by exists []. }
  destruct (wrap_events _ _ _ _ _ _ _ _) as [envs w2] eqn:Hwrap.
  rewrite Hw1 in Hwrap.
  destruct (wrap_events_spec _ _ _ _ _ _ _ _ _ _ _ Hv1 Hwrap) as ((l2 & Hl2 & Hv2) & Hwr & Hver).
  set (ss := if autoConverge _ then _ else _).
  assert (zlen L < two64 - 1) as HLb.
  { destruct (views_numbered _ _ Hv1). pose proof (prefix_zlen _ _ HL1). lia. }
  assert (recognized ss) as Hss.
  { unfold ss. destruct (autoConverge _); [|done]. simpl. pose proof (zlen_stream_of id L).
    unfold is_u64. lia. }
  destruct (Save envs ss w2) as [[result err'] w3] eqn:Hsave.
  destruct (save_law id _ _ _ _ _ _ _ Hv2 Hss (wrapped_nonempty _ _ _ _ _ _ Hwr ltac:(done))
    (wrapped_valid _ _ _ _ _ _ Hwr) Hsave) as (S' & l3 & HS & Hv3 & Herr).
  assert (L `prefix_of` S') as HLS by (by do 2 (etrans; [eassumption|])).
  destruct err' as [e|]; intros HR.
  - exists L, l3. split; [done|]. split; [by etrans|].
    destruct (errors_As is_Conflict e) as [[[s x] act]|]; simplify_eq; cbn [at_world]; split; try done.
    destruct (autoConverge (opt_StreamState opts)); [|done]. intros _. split; [|done].
    destruct Hs' as [? ? ?]. by split.
  - simplify_eq. cbn [at_world]. destruct Herr as (Hexp & Hsucc & Hid & Hnext & now & Hstamp).
    exists L, l3. split; [done|]. split.
    { etrans; [exact HLS|]. etrans; [|exact Hstamp]. by eexists. }
    split; [done|]. exists (ev :: events'). split_and!; [done..|].
    exists S', now, envs. split_and!; [done..| | | |done].
    + intros j env Hj. rewrite (Hver _ _ Hj), u64_succ by done. f_equal. lia.
    + unfold ss in Hexp. destruct (opt_StreamState opts); simpl in Hexp |- *; try done.
      apply Z.eqb_eq in Hexp. cbn [load_error] in Hle.
      rewrite Hexp. apply negb_true_iff, Z.eqb_neq. intros Hz%zlen_zero.
      destruct (sync_load _ _ _ _ Hsync) as [[_ Hne]|[Hl _]].
      * destruct (stream_of_prefix id _ _ HfL) as [k Hk]. rewrite Hz in Hk. by destruct (stream_of id lf).
      * rewrite Hl in Hle. simpl in Hle. by rewrite Hz in Hle.
    + intros Hauto. unfold ss in Hexp. rewrite Hauto in Hexp. simpl in Hexp. by apply Z.eqb_eq in Hexp.
Qed.

Lemma retries_spec opts ctx cmd id commandID lf l a res err a' :
  Retries (attempt evolve decide opts ctx cmd id commandID) a res err a' →
  recognized (opt_StreamState opts) →
  in_sync (opt_StreamState opts) id lf a → lf `prefix_of` l → views (at_world a) l →
  ∃ lf' l', lf `prefix_of` lf' ∧ lf' `prefix_of` l' ∧ views (at_world a') l' ∧
    (err = None → committed opts ctx cmd id commandID lf' l' res).
Proof.
  intros HR Hst. revert lf l.
  induction HR as [a res a' Hop|a res e p a' Hop Hp|a res e cause a' Hop Hp|a res e a' res' err a'' Hop Hp HR IH];
    intros lf l Hsync Hlf Hv;
    destruct (attempt_spec _ _ _ _ _ _ _ _ _ _ _ Hst Hsync Hlf Hv Hop) as (lf' & l' & Hp1 & Hp2 & Hv' & HX).
  1-3: exists lf', l'; by split_and!.
  destruct (HX Hp) as [Hsync' _].
  destruct (IH lf' l' Hsync' Hp2 Hv') as (lf'' & l'' & ? & ? & ? & ?).
  exists lf'', l''. split_and!; [by etrans|done..].
Qed.

(** The call of the handler, from the first load to its result. *)
Lemma handler_spec (opts : list CommandHandlerOption) ctx cmd w l res err w' :
  let options := apply_options opts in
  let id := opt_StreamNamer options ctx cmd in
  recognized (opt_StreamState options) → views w l →
  NewCommandHandler initialState evolve decide opts ctx cmd w = (res, err, w') →
  ∃ commandID lf l', lf `prefix_of` l' ∧ views w' l' ∧
    (err = None → committed options ctx cmd id commandID lf l' res).
Proof.
  intros options id Hst Hv. unfold NewCommandHandler. fold options. fold id.
  destruct (uuid_New w) as [u w1] eqn:Hu. destruct (RetryWithData _ _ _) as [[res1 err1] a'] eqn:HR.
  intros ?; simplify_eq. destruct (uuid_law _ _ _ _ Hv Hu) as (_ & l1 & Hl1 & Hv1).
  apply retry_law in HR.
  destruct (retries_spec _ _ _ _ _ [] l1 _ _ _ _ HR Hst) as (lf & l' & _ & Hp & Hv' & HX).
  - split; [done..|]. by right.
  - apply prefix_nil.
  - done.
  - exists (uuid_String u), lf, l'. done.
Qed.

(** Without convergence, every error of an attempt is permanent. *)
Lemma pinned_permanent opts ctx cmd id commandID a res e a' :
  autoConverge (opt_StreamState opts) = false →
  attempt evolve decide opts ctx cmd id commandID a = (res, Some e, a') →
  ∃ p, e = Permanent p.
Proof.
  intros Hc. unfold attempt. rewrite Hc. destruct (LoadStreamFrom _ _ _) as [[[evs [e1|]]|e1] w1].
  - intros ?; simplify_eq. by eexists.
  - destruct (decide _ _) as [[|ev events]|e1]; [intros ?; simplify_eq| |intros ?; simplify_eq; by eexists].
    destruct (wrap_events _ _ _ _ _ _ _ _) as [envs w2]. destruct (Save _ _ _) as [[r [e2|]] w3].
    + destruct (errors_As is_Conflict e2) as [[[s x] act]|]; intros ?; simplify_eq; by eexists.
    + intros ?; simplify_eq.
  - intros ?; simplify_eq. by eexists.
Qed.

Lemma retries_permanent {A} (op : A → AppendResult * option error * A) (a : A) res p (a0 : A) res' err (a' : A) :
  op a = (res, Some (Permanent p), a0) → Retries op a res' err a' → res' = res ∧ err = Some p ∧ a' = a0.
Proof. intros Hop HR. inversion HR as [? ? ? H|? ? ? ? ? H|? ? ? ? ? H|? ? ? ? ? ? ? H]; rewrite Hop in H; by simplify_eq/=. Qed.

Lemma retries_success {A} (op : A → AppendResult * option error * A) (a : A) res (a0 : A) res' err (a' : A) :
  op a = (res, None, a0) → Retries op a res' err a' → res' = res ∧ err = None ∧ a' = a0.
Proof. intros Hop HR. inversion HR as [? ? ? H|? ? ? ? ? H|? ? ? ? ? H|? ? ? ? ? ? ? H]; rewrite Hop in H; by simplify_eq/=. Qed.
End facts.

(** ** Correctness *)
Section correctness.
Context `{J : JSON, U : UUIDString, !UUIDLaws U, ES : EventStoreOps W, views : W → log → Prop,
          !EventStoreLaws W views, B : BackoffOps, !BackoffLaws B}.
Context {T : Type} (initialState : T) (evolve : T → Envelope → T)
  (decide : T → Command → result error (list (option Event))).

(** C1: A command handler that auto-converges (stream state Any or StreamExists)
    or expects a new stream never loses an update.  When it succeeds, the
    events it saved are what the decider returns for the fold of the whole
    stream as it was at the moment of the append, with no event of another
    writer in between, and the append is reported with the stream's new
    length; this holds through every retry and whatever other writers save
    meanwhile. *)
Theorem no_lost_update opts ctx cmd w l res w' :
  let options := apply_options opts in
  let id := opt_StreamNamer options ctx cmd in
  autoConverge (opt_StreamState options) = true ∨ opt_StreamState options = NoStream →
  views w l →
  NewCommandHandler initialState evolve decide opts ctx cmd w = (res, None, w') →
  ∃ before events envs now after,
    views w' (before ++ stamp now (zlen (stream_of id before)) (zlen before) envs ++ after) ∧
    decide (foldl evolve initialState (stream_of id before)) cmd = Ok events ∧
    env_Event <$> envs = events ∧
    Successful res = true ∧ NextExpectedVersion res = zlen (stream_of id before) + zlen envs.
Proof.
  intros options id Hst Hv HN.
  assert (recognized (opt_StreamState options)) as Hrec.
  { destruct Hst as [H|H]; [by destruct (opt_StreamState options)|by rewrite H]. }
  destruct (handler_spec _ _ _ _ _ _ _ _ _ _ _ Hrec Hv HN) as (cid & lf & l' & Hp & Hv' & HX).
  fold options id in HX. destruct (HX eq_refl) as (events & Hdec & Hs & _ & HE).
  destruct events as [|ev events].
  { destruct Hp as [k ->]. exists lf, [], [], 0, k. split_and!; [done..|]. rewrite HE, zlen_nil. lia. }
  destruct HE as (S' & now & envs & HS & [k Hk] & [Hev _] & _ & Hexp & Hauto & Hn).
  assert (stream_of id S' = stream_of id lf) as Heq.
  { destruct (stream_of_prefix id _ _ HS) as [k' Hk'].
    destruct Hst as [H|H].
    - specialize (Hauto H). rewrite Hk', zlen_app in Hauto.
      assert (k' = []) as -> by (apply zlen_zero; lia). by rewrite Hk', app_nil_r.
    - rewrite H in Hexp. simpl in Hexp. apply Z.eqb_eq, zlen_zero in Hexp. rewrite Hexp in Hk'.
      symmetry in Hk'. apply app_eq_nil in Hk' as [-> _]. done. }
  exists S', (ev :: events), envs, now, k. rewrite Heq in *. rewrite app_assoc, <- Hk.
  by split_and!.
Qed.

(** A handler that does not auto-converge makes exactly one attempt. *)
Theorem pinned_state_is_tried_once opts ctx cmd w res err w' :
  let options := apply_options opts in
  let id := opt_StreamNamer options ctx cmd in
  autoConverge (opt_StreamState options) = false →
  NewCommandHandler initialState evolve decide opts ctx cmd w = (res, err, w') →
  ∃ u w1 err1 a1, uuid_New w = (u, w1) ∧
    attempt evolve decide options ctx cmd id (uuid_String u)
      (mkAttempt initialState (firstLoadState (opt_StreamState options)) 0 w1) = (res, err1, a1) ∧
    at_world a1 = w' ∧ err1 = Permanent <$> err.
Proof.
  intros options id Hc. unfold NewCommandHandler. fold options. fold id.
  destruct (uuid_New w) as [u w1]. destruct (RetryWithData _ _ _) as [[res1 err1] a'] eqn:HR.
  intros ?; simplify_eq. apply retry_law in HR.
  set (a0 := mkAttempt _ _ _ _) in *.
  destruct (attempt evolve decide options ctx cmd id (uuid_String u) a0) as [[r1 e1] a1] eqn:Hatt.
  exists u, w1, e1, a1. split; [done|].
  destruct e1 as [e1|].
  - destruct (pinned_permanent _ _ _ _ _ _ _ _ _ _ _ Hc Hatt) as [p ->].
    by destruct (retries_permanent _ _ _ _ _ _ _ _ Hatt HR) as (-> & -> & ->).
  - by destruct (retries_success _ _ _ _ _ _ _ Hatt HR) as (-> & -> & ->).
Qed.

(** A command the decider rejects saves nothing: the handler returns after the
    load, without another call of the store, with an unsuccessful result and
    an error that wraps the decider's as a business rule violation. *)
Theorem rejected_command_saves_nothing opts ctx cmd w u w1 evs w2 e res err w' :
  let options := apply_options opts in
  let id := opt_StreamNamer options ctx cmd in
  uuid_New w = (u, w1) →
  LoadStreamFrom id (firstLoadState (opt_StreamState options)) w1 = (Ok (evs, None), w2) →
  decide (foldl evolve initialState evs) cmd = Fail e →
  NewCommandHandler initialState evolve decide opts ctx cmd w = (res, err, w') →
  w' = w2 ∧ Successful res = false ∧ ∃ e', err = Some e' ∧ errors_As is_BusinessRule e' = Some e.
Proof.
  intros options id Hu Hload Hdec. unfold NewCommandHandler. fold options. fold id. rewrite Hu.
  destruct (RetryWithData _ _ _) as [[res1 err1] a'] eqn:HR.
  intros ?; simplify_eq. apply retry_law in HR. set (a0 := mkAttempt _ _ _ _) in *.
  assert (∃ r a1, attempt evolve decide options ctx cmd id (uuid_String u) a0
    = (r, Some (Permanent (Errorf "handle command" (BusinessRuleViolationError e))), a1) ∧
    at_world a1 = w2 ∧ Successful r = false) as (r & a1 & Hatt & Hw & Hr).
  { unfold attempt. cbn [a0 at_loadState at_world]. rewrite Hload, evolve_all_spec. cbn [a0 at_state].
    rewrite Hdec. by do 2 eexists. }
  destruct (retries_permanent _ _ _ _ _ _ _ _ Hatt HR) as (-> & -> & ->).
  split_and!; [done..|]. by eexists.
Qed.

(** C32: The events of one successful command form one append and one chain: they
    are the decision on the state that was loaded, their batch was appended to
    a stream that met the caller's expectation, consecutive versions follow
    the loaded ones, and every envelope carries the command's metadata, the
    causation of the incoming context and one correlation id, which is the
    context's or else the first event's own id. *)
Theorem events_join_one_chain opts ctx cmd w l res w' :
  let options := apply_options opts in
  let id := opt_StreamNamer options ctx cmd in
  recognized (opt_StreamState options) → views w l →
  NewCommandHandler initialState evolve decide opts ctx cmd w = (res, None, w') →
  ∃ commandID seen l' events, views w' l' ∧ seen `prefix_of` l' ∧
    decide (foldl evolve initialState (stream_of id seen)) cmd = Ok events ∧
    (events ≠ [] → ∃ before now envs,
      before ++ stamp now (zlen (stream_of id before)) (zlen before) envs `prefix_of` l' ∧
      seen `prefix_of` before ∧
      expectation_holds (opt_StreamState options) (zlen (stream_of id before)) = true ∧
      wrapped id (CausationIDFromContext ctx) (CorrelationIDFromContext ctx)
        (base_metadata options ctx cmd commandID) events envs ∧
      (∀ j env, envs !! j = Some env → Version env = u64 (zlen (stream_of id seen) + 1 + Z.of_nat j))).
Proof.
  intros options id Hrec Hv HN.
  destruct (handler_spec _ _ _ _ _ _ _ _ _ _ _ Hrec Hv HN) as (cid & lf & l' & Hp & Hv' & HX).
  fold options id in HX. destruct (HX eq_refl) as (events & Hdec & Hs & _ & HE).
  exists cid, lf, l', events. split_and!; [done..|]. intros Hne.
  destruct events as [|ev events]; [done|].
  destruct HE as (S' & now & envs & HS & Hk & Hw & Hver & Hexp & _ & _).
  exists S', now, envs. by split_and!.
Qed.
End correctness.
