(* ===== verification/MemWorld.v ===== *)
(** * The in-memory store as the store of a command handler

    The interface [EventStoreLaws] of [CommandHandler] discharged by
    [memory.EventStore]: a world made of the store of [MemStore], a clock, a
    source of UUIDs and a script of saves by other writers, one of which runs
    before every operation of the handler.  [mw_room] bounds how many more
    events the process can hold. *)
From S2P Require Import Prelude Core Iter Registry Samples Context Log MemStore Backoff CommandHandler.
From stdpp Require Import pretty.
#[local] Open Scope Z_scope.

Record MemWorld : Type := mkMemWorld {
  mw_store : EventStore;
  mw_reg : Registry;
  mw_script : list (list Envelope * StreamState);
  mw_clock : Z;
  mw_uuid : Z;
  mw_room : Z;
}.

Section world.
Context `{J : JSON}.

Definition with_store (s : EventStore) (room : Z) (w : MemWorld) : MemWorld :=
  mkMemWorld s (mw_reg w) (mw_script w) (mw_clock w) (mw_uuid w) room.

(** Save, in a process that can still hold [mw_room] events. *)
Definition save_in_room (evs : list Envelope) (st : StreamState) (w : MemWorld) :
    AppendResult * option error * MemWorld :=
  if mw_room w <? zlen evs then (failed_append "", Some (New "out of memory"), w)
  else let '(res, err, s) := MemStore.Save (mw_clock w) (mw_reg w) evs st (mw_store w) in
       (res, err, with_store s (mw_room w - zlen evs) w).

(** The next save of another writer, if any is left. *)
Definition interfere (w : MemWorld) : MemWorld :=
  match mw_script w with
  | [] => w
  | (evs, st) :: script =>
    let w := mkMemWorld (mw_store w) (mw_reg w) script (mw_clock w) (mw_uuid w) (mw_room w) in
    (save_in_room evs st w).2
  end.

Definition mem_load (id : string) (st : StreamState) (w : MemWorld) :
    result error (list Envelope * option error) * MemWorld :=
  let w := interfere w in
  match MemStore.LoadStreamFrom (mw_reg w) id st (mw_store w) with
  | Fail e => (Fail e, w)
  | Ok it =>
    match All (S (length (stream (mw_store w) id))) None it with
    | Some (evs, err, _) => (Ok (evs, err), w)
    | None => (Fail (New "unreachable"), w)
    end
  end.

#[export] Instance mem_ops : EventStoreOps MemWorld := {
  LoadStreamFrom := mem_load;
  Save evs st w := save_in_room evs st (interfere w);
  uuid_New w := (mw_uuid w + 1, mkMemWorld (mw_store w) (mw_reg w) (mw_script w) (mw_clock w)
                                   (mw_uuid w + 1) (mw_room w));
  time_Now w := (mw_clock w + 1, mkMemWorld (mw_store w) (mw_reg w) (mw_script w) (mw_clock w + 1)
                                   (mw_uuid w) (mw_room w));
}.
End world.

Section laws.
Context `{J : JSON, !JSONLaws J}.

Record mem_views (w : MemWorld) (l : log) : Prop := {
  mv_rep : represents (mw_reg w) (mw_store w) l;
  mv_reg : registry_wf (mw_reg w);
  mv_open : closed (mw_store w) = false;
  mv_uuid : 0 ≤ mw_uuid w;
  mv_room : 0 ≤ mw_room w ∧ zlen l + mw_room w < two64 - 1;
}.

(** The call as a whole-history operation of [MemStore]. *)
Definition op_of (evs : list Envelope) (st : StreamState) (w : MemWorld) : save_op :=
  mkSaveOp (mw_clock w) (mw_reg w) evs st.

Lemma log_save_prefix op l : l `prefix_of` (log_save op l).2.
Proof. unfold log_save. repeat case_match; simpl; try done. by eexists. Qed.

Lemma save_in_room_spec evs st w l res err w' :
  mem_views w l → save_in_room evs st w = (res, err, w') →
  (mem_views w' l ∧ ∃ e, err = Some e) ∨
  (mem_views w' (log_save (op_of evs st w) l).2 ∧ reports (res, err) (log_save (op_of evs st w) l).1).
Proof.
  intros [Hrep Hwf Hopen Hu [Hr0 Hr]]. unfold save_in_room.
  destruct (Z.ltb_spec (mw_room w) (zlen evs)); [intros ?; simplify_eq; left; split; [by split|by eexists]|].
  destruct (Save_step (mw_reg w) (op_of evs st w) _ _ Hrep Hwf (λ _ _ H, H) Hopen)
    as (res' & e' & s' & Heq & Hv & Hrep' & Hopen' & Hlen); [unfold op_of; cbn; lia|].
  cbn [op_of so_now so_reg so_events so_revision] in Heq. rewrite Heq. intros ?; simplify_eq. right. split; [|done].
  pose proof (zlen_nonneg evs). cbn [op_of so_events] in Hlen.
  split; cbn [with_store mw_reg mw_store mw_uuid mw_room]; try done. unfold op_of in *; lia.
Qed.

Lemma interfere_views w l : mem_views w l → ∃ l', l `prefix_of` l' ∧ mem_views (interfere w) l'.
Proof.
  intros Hv. unfold interfere. destruct (mw_script w) as [|[evs st] script]; [by exists l|].
  set (w0 := mkMemWorld _ _ script _ _ _).
  assert (mem_views w0 l) as Hv0 by (destruct Hv; by split).
  destruct (save_in_room evs st w0) as [[res err] w'] eqn:HS.
  destruct (save_in_room_spec _ _ _ _ _ _ _ Hv0 HS) as [[H _]|[H _]]; [by exists l|].
  eexists. split; [apply log_save_prefix|exact H].
Qed.

#[export] Instance mem_laws : EventStoreLaws MemWorld mem_views.
Proof.
  split.
  - intros w l [Hrep _ _ _ []]. split; [apply Hrep|lia].
  - intros id st w r w' l Hv Hst. cbn [LoadStreamFrom mem_ops]. unfold mem_load.
    destruct (interfere_views _ _ Hv) as (l1 & Hp & Hv1). pose proof Hv1 as [Hrep _ _ _ Hb].
    pose proof (LoadStreamFrom_spec _ id st _ _ Hrep Hst ltac:(lia)) as HL.
    rewrite (Forall2_length _ _ _ (rep_stream_decodes _ _ _ id Hrep)).
    destruct (load_error st _) as [se|] eqn:Hle.
    + destruct HL as (e & -> & _). intros ?; simplify_eq. by exists l1, l1.
    + destruct HL as (it & it' & -> & ->). intros ?; simplify_eq. exists l1, l1. by rewrite Hle.
  - intros id evs st w res err w' l Hv Hst Hne Hvalid. cbn [Save mem_ops]. intros HS.
    destruct (interfere_views _ _ Hv) as (l1 & Hp & Hv1). exists l1.
    destruct (save_in_room_spec _ _ _ _ _ _ _ Hv1 HS) as [[H [e ->]]|[H Hrep]]; [by exists l1|].
    eexists. split; [done|]. split; [exact H|].
    destruct err as [e|]; [apply log_save_prefix|]. revert Hrep. unfold log_save, op_of.
    cbn [so_events so_reg so_revision so_now]. destruct evs as [|env evs]; [done|].
    assert (StreamID env = id) as -> by (eapply valid_batch_stream; [done|constructor]).
    rewrite Hvalid. destruct (forallb _ _); [|done]. cbn [negb].
    destruct (expectation_holds st _); [|done]. cbn [fst snd reports]. intros ->.
    split_and!; [done..|]. by eexists.
  - intros w u w' l [? ? ? ? ?] [= <- <-]. split; [unfold uuid_Nil; lia|]. exists l. split; [done|].
    split; cbn; (done || lia).
  - intros w t w' l [? ? ? ? ?] [= <- <-]. exists l. split; [done|]. by split.
Qed.
End laws.

(** ** A retry loop and a UUID printer that satisfy the laws *)

#[export] Instance sampleUUID : UUIDString := λ u, "u" +:+ pretty u.

#[export] Instance sampleUUIDLaws : UUIDLaws sampleUUID.
Proof.
  split; [done|]. intros u v H. unfold uuid_String, sampleUUID in H.
  apply (inj (String.append "u")) in H. by apply (inj (pretty (A := Z))) in H.
Qed.

(** ** Sample worlds *)
Definition sample_world (script : list (list Envelope * StreamState)) : MemWorld :=
  mkMemWorld NewEventStore sample_registry script 1 0 1000.

Definition place_order : Command := mkCommand "orders.Place" "o-1" "PlaceOrder" "".

(** Counts the events of the stream; every command places one more. *)
Definition count_evolve (n : nat) (_ : Envelope) : nat := S n.
Definition count_decide (n : nat) (cmd : Command) : result error (list (option Event)) :=
  Ok [Some (order_placed (cmd_AggregateID cmd) (pretty n))].
Definition reject_second (n : nat) (cmd : Command) : result error (list (option Event)) :=
  match n with O => count_decide n cmd | _ => Fail (New "already placed") end.

(** A save by another writer. *)
Definition other_save : list Envelope * StreamState :=
  ([sample_envelope 77 "o-1" (order_shipped "o-1" "x")], Any).

Lemma sample_registry_wf : registry_wf sample_registry.
Proof.
  destruct (register_all_inv [ByZero (order_placed "" ""); ByZero (order_shipped "" "")]
    emptyRegistry sample_registry emptyRegistry_wf) as [H _]; [|exact H].
  vm_compute. reflexivity.
Qed.

Lemma sample_world_views script : mem_views (sample_world script) [].
Proof.
  split; cbn; [apply NewEventStore_represents|apply sample_registry_wf|done|done|].
  split; vm_compute; done.
Qed.

(** ** A pinned revision and a writer in between

    The handler's first read ignores the pinned revision, and the save checks
    the revision the caller pinned, not the one that was read.  When another
    writer brings the stream to that revision between the two, the events
    decided on the shorter history are saved. *)
Definition stale_run : AppendResult * option error * MemWorld :=
  NewCommandHandler 0%nat count_evolve count_decide [WithStreamState (Revision 1)] ∅ place_order
    (sample_world [([], Any); other_save]).

(** C40: A handler with a pinned Revision can save a decision made on a stale
    history: its first load ignores the pinned revision, so when another
    writer brings the stream to exactly that revision between the load and the
    save, the events decided on the shorter history are appended, although the
    decider answers differently on the stream they are appended to. *)
Theorem pinned_revision_decides_on_stale_state :
  stale_run.1.2 = None ∧ Successful stale_run.1.1 = true ∧
  ∃ e1 e2,
    (mem_load "o-1" Any stale_run.2).1 = Ok ([e1; e2], None) ∧
    ev_data <$> env_Event e1 = Some "x" ∧
    count_decide (foldl count_evolve 0%nat []) place_order = Ok [env_Event e2] ∧
    count_decide (foldl count_evolve 0%nat [e1]) place_order ≠ Ok [env_Event e2].
Proof.
  split; [vm_compute; reflexivity|]. split; [vm_compute; reflexivity|].
  do 2 eexists. split; [vm_compute; reflexivity|].
  split; [reflexivity|]. split; [reflexivity|]. vm_compute. discriminate.
Qed.
