(* ===== verification/CommandBus.v ===== *)
(** * The command bus ([command_bus.go], [middleware.go])

    Goroutines interleave: a dispatch, a worker and a call of Stop each are a
    program counter, and every operation on a channel, a lock or a WaitGroup
    is one atomic [step].  A run is any sequence of steps.  Each shard also
    carries two histories the code does not keep, the commands sent to its
    queue and the ones its worker has finished, in order. *)
From S2P Require Import Prelude Core Context.

(** ** Choosing a shard: FNV-1a over 32 bits *)
Definition fnv32a_byte (h : Z) (b : Byte.byte) : Z :=
  u32 (Z.lxor h (Z.of_N (Byte.to_N b)) * 16777619).

Definition fnv32a (data : list Byte.byte) : Z := foldl fnv32a_byte 2166136261 data.

Definition selectShard (shardCount : Z) (aggregateID : string) : Z :=
  fnv32a (String.list_byte_of_string aggregateID) `mod` shardCount.

Record commandResult : Type := mkCommandResult {
  cr_Result : AppendResult;
  cr_Err : option error;
}.

(** A handler either returns or panics, with an error or any other value. *)
Inductive handler_outcome : Type :=
| HReturns (r : AppendResult) (err : option error)
| HPanics (v : error + string).

Section bus.
(** The world the handlers act on. *)
Context {W : Type}.

Definition CommandHandler : Type := values → Command → W → handler_outcome * W.
Definition CommandHandlerMiddleware : Type := CommandHandler → CommandHandler.

Record queuedCommand : Type := mkQueued {
  q_Ctx : values;
  q_Command : Command;
  (** The dispatch that waits on the response channel. *)
  q_id : nat;
}.

Inductive worker_pc : Type :=
| WSelect
| WTaken (q : queuedCommand)
| WRunning (q : queuedCommand) (h : CommandHandler)
| WExited.

Record shard : Type := mkShard {
  sh_queue : list queuedCommand;
  sh_worker : worker_pc;
  sh_sent : list nat;
  sh_finished : list nat;
}.

Inductive dispatch_pc : Type :=
| Enqueuing
| Waiting
| Returned (r : AppendResult) (err : option error).

Record dispatch : Type := mkDispatch {
  d_Ctx : values;
  d_Command : Command;
  d_pc : dispatch_pc;
}.

Inductive stop_pc : Type := StopEnqueues | StopDispatches | StopReturned.

#[export] Instance stop_pc_eq_dec : EqDecision stop_pc.
Proof. solve_decision. Defined.

Record CommandBus : Type := mkCommandBus {
  handlers : gmap string CommandHandler;
  middlewares : list CommandHandlerMiddleware;
  shardCount : Z;
  bufferSize : Z;
  shards : list shard;
  stopCh : bool;
  drainCh : bool;
  wg : Z;
  enqueueWG : Z;
  (** The goroutines, their contexts that have ended, and their response
      channels of capacity one. *)
  dispatches : gmap nat dispatch;
  ended : gmap nat error;
  responses : gmap nat commandResult;
  stops : gmap nat stop_pc;
  world : W;
}.

Definition NewCommandBus (bufferSize shardCount : Z) (w : W) : CommandBus :=
  let shardCount := if shardCount <=? 0 then 1 else shardCount in
  mkCommandBus ∅ [] shardCount bufferSize
    (replicate (Z.to_nat shardCount) (mkShard [] WSelect [] []))
    false false 0 0 ∅ ∅ ∅ ∅ w.

(** Field updates. *)
Definition set_shard (i : nat) (sh : shard) (b : CommandBus) : CommandBus :=
  mkCommandBus (handlers b) (middlewares b) (shardCount b) (bufferSize b) (<[i := sh]> (shards b))
    (stopCh b) (drainCh b) (wg b) (enqueueWG b) (dispatches b) (ended b) (responses b) (stops b) (world b).
Definition set_dispatch (id : nat) (d : dispatch) (b : CommandBus) : CommandBus :=
  mkCommandBus (handlers b) (middlewares b) (shardCount b) (bufferSize b) (shards b)
    (stopCh b) (drainCh b) (wg b) (enqueueWG b) (<[id := d]> (dispatches b)) (ended b) (responses b)
    (stops b) (world b).
Definition set_groups (dwg denq : Z) (b : CommandBus) : CommandBus :=
  mkCommandBus (handlers b) (middlewares b) (shardCount b) (bufferSize b) (shards b)
    (stopCh b) (drainCh b) (wg b + dwg) (enqueueWG b + denq) (dispatches b) (ended b) (responses b)
    (stops b) (world b).
Definition set_channels (stop drain : bool) (b : CommandBus) : CommandBus :=
  mkCommandBus (handlers b) (middlewares b) (shardCount b) (bufferSize b) (shards b)
    stop drain (wg b) (enqueueWG b) (dispatches b) (ended b) (responses b) (stops b) (world b).
Definition set_responses (r : gmap nat commandResult) (b : CommandBus) : CommandBus :=
  mkCommandBus (handlers b) (middlewares b) (shardCount b) (bufferSize b) (shards b)
    (stopCh b) (drainCh b) (wg b) (enqueueWG b) (dispatches b) (ended b) r (stops b) (world b).
Definition set_stop (k : nat) (pc : stop_pc) (b : CommandBus) : CommandBus :=
  mkCommandBus (handlers b) (middlewares b) (shardCount b) (bufferSize b) (shards b)
    (stopCh b) (drainCh b) (wg b) (enqueueWG b) (dispatches b) (ended b) (responses b)
    (<[k := pc]> (stops b)) (world b).
Definition set_ended (id : nat) (e : error) (b : CommandBus) : CommandBus :=
  mkCommandBus (handlers b) (middlewares b) (shardCount b) (bufferSize b) (shards b)
    (stopCh b) (drainCh b) (wg b) (enqueueWG b) (dispatches b) (<[id := e]> (ended b)) (responses b)
    (stops b) (world b).
Definition set_world (w : W) (b : CommandBus) : CommandBus :=
  mkCommandBus (handlers b) (middlewares b) (shardCount b) (bufferSize b) (shards b)
    (stopCh b) (drainCh b) (wg b) (enqueueWG b) (dispatches b) (ended b) (responses b) (stops b) w.
Definition set_handlers (hs : gmap string CommandHandler) (ms : list CommandHandlerMiddleware)
    (b : CommandBus) : CommandBus :=
  mkCommandBus hs ms (shardCount b) (bufferSize b) (shards b)
    (stopCh b) (drainCh b) (wg b) (enqueueWG b) (dispatches b) (ended b) (responses b) (stops b) (world b).

(** ** Registration *)
Definition Use (ms : list CommandHandlerMiddleware) (b : CommandBus) : CommandBus :=
  set_handlers (handlers b) (middlewares b ++ ms) b.

(** The closure that asserts the command's concrete type. *)
Definition typed_handler (goType : string) (handler : CommandHandler) : CommandHandler := λ ctx cmd w,
  if bool_decide (cmd_GoType cmd = goType) then handler ctx cmd w
  else (HReturns (failed_append "") (Some (New "unexpected command type")), w).

Definition Register (zero : Command) (handler : CommandHandler) (b : CommandBus) : outcome CommandBus :=
  match handlers b !! cmd_CommandType zero with
  | Some _ => Panics "handler already registered for command type"
  | None =>
    let h := typed_handler (cmd_GoType zero) handler in
    let h := foldr (λ m h, m h) h (middlewares b) in
    Returns (set_handlers (<[cmd_CommandType zero := h]> (handlers b)) (middlewares b) b)
  end.

Definition handlerFor (cmdName : string) (b : CommandBus) : option CommandHandler := handlers b !! cmdName.

(** ** Dispatch, one atomic step at a time *)
Definition shard_of (b : CommandBus) (cmd : Command) : nat :=
  Z.to_nat (selectShard (shardCount b) (cmd_AggregateID cmd)).

Definition dispatch_error (e : error) : error := Errorf "dispatch command" e.

(** Under the read lock: refuse, or register as in flight. *)
Definition dispatch_begin (id : nat) (ctx : values) (cmd : Command) (b : CommandBus) : option CommandBus :=
  match dispatches b !! id with
  | Some _ => None
  | None =>
    Some (if stopCh b
          then set_dispatch id (mkDispatch ctx cmd (Returned (failed_append "")
                 (Some (dispatch_error (Sentinel ErrCommandBusClosed))))) b
          else set_dispatch id (mkDispatch ctx cmd Enqueuing) (set_groups 1 1 b))
  end.

Definition queued (id : nat) (d : dispatch) : queuedCommand := mkQueued (d_Ctx d) (d_Command d) id.

Definition with_pc (d : dispatch) (pc : dispatch_pc) : dispatch := mkDispatch (d_Ctx d) (d_Command d) pc.

(** The send case: into the buffer, or straight to a worker that waits on
    the empty queue. *)
Definition dispatch_send (id : nat) (b : CommandBus) : option CommandBus :=
  d ← dispatches b !! id;
  match d_pc d with
  | Enqueuing =>
    let i := shard_of b (d_Command d) in
    sh ← shards b !! i;
    let sent := sh_sent sh ++ [id] in
    if zlen (sh_queue sh) <? bufferSize b then
      Some (set_groups 0 (-1) (set_dispatch id (with_pc d Waiting)
        (set_shard i (mkShard (sh_queue sh ++ [queued id d]) (sh_worker sh) sent (sh_finished sh)) b)))
    else
      match sh_worker sh, sh_queue sh with
      | WSelect, [] =>
        Some (set_groups 0 (-1) (set_dispatch id (with_pc d Waiting)
          (set_shard i (mkShard [] (WTaken (queued id d)) sent (sh_finished sh)) b)))
      | _, _ => None
      end
  | _ => None
  end.

(** The [stopCh] case of the same select. *)
Definition dispatch_closed (id : nat) (b : CommandBus) : option CommandBus :=
  d ← dispatches b !! id;
  match d_pc d with
  | Enqueuing =>
    if stopCh b then
      Some (set_groups (-1) (-1) (set_dispatch id (with_pc d (Returned (failed_append "")
        (Some (dispatch_error (Sentinel ErrCommandBusClosed))))) b))
    else None
  | _ => None
  end.

(** The [ctx.Done()] case of either select. *)
Definition dispatch_cancelled (id : nat) (b : CommandBus) : option CommandBus :=
  d ← dispatches b !! id;
  e ← ended b !! id;
  match d_pc d with
  | Enqueuing =>
    Some (set_groups (-1) (-1) (set_dispatch id
      (with_pc d (Returned (failed_append "") (Some (dispatch_error e)))) b))
  | Waiting =>
    Some (set_groups (-1) 0 (set_dispatch id
      (with_pc d (Returned (failed_append "") (Some (dispatch_error e)))) b))
  | Returned _ _ => None
  end.

Definition dispatch_receive (id : nat) (b : CommandBus) : option CommandBus :=
  d ← dispatches b !! id;
  r ← responses b !! id;
  match d_pc d with
  | Waiting =>
    Some (set_responses (delete id (responses b)) (set_groups (-1) 0 (set_dispatch id
      (with_pc d (Returned (cr_Result r) (dispatch_error <$> cr_Err r))) b)))
  | _ => None
  end.

(** ** The worker of shard [i] *)

Definition worker_take (i : nat) (b : CommandBus) : option CommandBus :=
  sh ← shards b !! i;
  match sh_worker sh, sh_queue sh with
  | WSelect, q :: queue => Some (set_shard i (mkShard queue (WTaken q) (sh_sent sh) (sh_finished sh)) b)
  | _, _ => None
  end.

(** [drainCh] is closed and the inner select finds nothing. *)
Definition worker_exit (i : nat) (b : CommandBus) : option CommandBus :=
  sh ← shards b !! i;
  match sh_worker sh, sh_queue sh with
  | WSelect, [] =>
    if drainCh b then Some (set_shard i (mkShard [] WExited (sh_sent sh) (sh_finished sh)) b) else None
  | _, _ => None
  end.

(** [cmd.ResponseCh <- r]: it would block on a full buffer. *)
Definition respond (i : nat) (sh : shard) (q : queuedCommand) (r : commandResult) (b : CommandBus) :
    option CommandBus :=
  match responses b !! q_id q with
  | Some _ => None
  | None =>
    Some (set_responses (<[q_id q := r]> (responses b))
      (set_shard i (mkShard (sh_queue sh) WSelect (sh_sent sh) (sh_finished sh ++ [q_id q])) b))
  end.

(** Skip a command whose context ended or that has no handler; start the
    handler otherwise. *)
Definition worker_start (i : nat) (b : CommandBus) : option CommandBus :=
  sh ← shards b !! i;
  match sh_worker sh with
  | WTaken q =>
    match ended b !! q_id q with
    | Some e => respond i sh q (mkCommandResult (failed_append "") (Some e)) b
    | None =>
      match handlerFor (cmd_CommandType (q_Command q)) b with
      | None => respond i sh q (mkCommandResult (failed_append "")
                  (Some (Errorf "dispatch command" (Sentinel ErrHandlerNotRegistered)))) b
      | Some h => Some (set_shard i (mkShard (sh_queue sh) (WRunning q h) (sh_sent sh) (sh_finished sh)) b)
      end
    end
  | _ => None
  end.

(** The deferred [recover]. *)
Definition recovered (o : handler_outcome) : commandResult :=
  match o with
  | HReturns r err => mkCommandResult r err
  | HPanics v =>
    let panicErr := match v with inl e => e | inr text => New text end in
    mkCommandResult (failed_append "")
      (Some (Errorf "handling command" (Join [panicErr; Sentinel ErrHandlerPanicked])))
  end.

Definition worker_finish (i : nat) (b : CommandBus) : option CommandBus :=
  sh ← shards b !! i;
  match sh_worker sh with
  | WRunning q h =>
    let '(o, w) := h (q_Ctx q) (q_Command q) (world b) in
    respond i sh q (recovered o) (set_world w b)
  | _ => None
  end.

(** ** Stop *)
Definition stop_begin (k : nat) (b : CommandBus) : option CommandBus :=
  match stops b !! k with
  | Some _ => None
  | None => Some (set_stop k StopEnqueues (set_channels true (drainCh b) b))
  end.

(** [enqueueWG.Wait()] returns at zero. *)
Definition stop_drain (k : nat) (b : CommandBus) : option CommandBus :=
  match stops b !! k with
  | Some StopEnqueues =>
    if enqueueWG b =? 0 then Some (set_stop k StopDispatches (set_channels (stopCh b) true b)) else None
  | _ => None
  end.

Definition stop_return (k : nat) (b : CommandBus) : option CommandBus :=
  match stops b !! k with
  | Some StopDispatches => if wg b =? 0 then Some (set_stop k StopReturned b) else None
  | _ => None
  end.

(** ** Runs *)

(** What the bus does by itself, once a dispatch or a Stop is under way. *)
Inductive internal : Type :=
| ISend (id : nat) | IClosed (id : nat) | ICancelled (id : nat) | IReceive (id : nat)
| ITake (i : nat) | IExit (i : nat) | IStart (i : nat) | IFinish (i : nat)
| IDrain (k : nat) | IReturn (k : nat).

(** What its users and their contexts do. *)
Inductive external : Type :=
| EDispatch (id : nat) (ctx : values) (cmd : Command)
| ECancel (id : nat) (e : error)
| EStop (k : nat)
| ERegister (zero : Command) (h : CommandHandler)
| EUse (ms : list CommandHandlerMiddleware)
| EWorld (w : W).

Definition exec_internal (a : internal) (b : CommandBus) : option CommandBus :=
  match a with
  | ISend id => dispatch_send id b
  | IClosed id => dispatch_closed id b
  | ICancelled id => dispatch_cancelled id b
  | IReceive id => dispatch_receive id b
  | ITake i => worker_take i b
  | IExit i => worker_exit i b
  | IStart i => worker_start i b
  | IFinish i => worker_finish i b
  | IDrain k => stop_drain k b
  | IReturn k => stop_return k b
  end.

Definition exec_external (a : external) (b : CommandBus) : option CommandBus :=
  match a with
  | EDispatch id ctx cmd => dispatch_begin id ctx cmd b
  | ECancel id e => match ended b !! id with Some _ => None | None => Some (set_ended id e b) end
  | EStop k => stop_begin k b
  | ERegister zero h => match Register zero h b with Returns b => Some b | Panics _ => None end
  | EUse ms => Some (Use ms b)
  | EWorld w => Some (set_world w b)
  end.

Inductive step (b b' : CommandBus) : Prop :=
| step_internal a : exec_internal a b = Some b' → step b b'
| step_external a : exec_external a b = Some b' → step b b'.

Definition reachable (bufferSize shardCount : Z) (w : W) (b : CommandBus) : Prop :=
  rtc step (NewCommandBus bufferSize shardCount w) b.
End bus.

Arguments CommandBus : clear implicits.
Arguments CommandHandler : clear implicits.
Arguments shard : clear implicits.
Arguments worker_pc : clear implicits.

(** ** The invariant *)
Section invariant.
Context {W : Type}.
Implicit Types (b : CommandBus W) (sh : shard W) (shs : list (shard W)) (ds : gmap nat dispatch)
  (rs : gmap nat commandResult) (d : dispatch).

Definition current (w : worker_pc W) : list queuedCommand :=
  match w with WTaken q | WRunning q _ => [q] | _ => [] end.

(** The commands of a shard that are not finished, in order. *)
Definition unfinished sh : list queuedCommand := current (sh_worker sh) ++ sh_queue sh.

Definition place (n : Z) d : nat := Z.to_nat (selectShard n (cmd_AggregateID (d_Command d))).

Record shard_ok (n : Z) ds (drain : bool) (i : nat) sh : Prop := {
  so_sent : sh_sent sh = sh_finished sh ++ (q_id <$> unfinished sh);
  so_once : NoDup (sh_sent sh);
  so_known id : id ∈ sh_sent sh → ∃ d, ds !! id = Some d ∧ place n d = i ∧ d_pc d ≠ Enqueuing;
  so_items q : q ∈ unfinished sh → ∃ d, ds !! q_id q = Some d ∧ q = queued (q_id q) d;
  so_exited : sh_worker sh = WExited → drain = true ∧ sh_queue sh = [];
}.

Record core_inv (n : Z) shs ds rs (drain : bool) : Prop := {
  c_count : 0 < n ∧ length shs = Z.to_nat n;
  c_shards i sh : shs !! i = Some sh → shard_ok n ds drain i sh;
  c_responses id : is_Some (rs !! id) → ∃ i sh, shs !! i = Some sh ∧ id ∈ sh_finished sh;
  c_waiting id d : ds !! id = Some d → d_pc d = Waiting →
    ∃ sh, shs !! place n d = Some sh ∧ id ∈ sh_sent sh ∧ (id ∈ sh_finished sh → is_Some (rs !! id));
}.

Lemma selectShard_range n s : 0 < n → 0 ≤ selectShard n s < n.
Proof. intros Hn. by apply Z.mod_pos_bound. Qed.

Lemma place_exists n shs ds rs drain d : core_inv n shs ds rs drain → ∃ sh, shs !! place n d = Some sh.
Proof.
  intros [[Hn Hl] _ _ _]. apply lookup_lt_is_Some_2. rewrite Hl. unfold place.
  pose proof (selectShard_range n (cmd_AggregateID (d_Command d)) Hn). lia.
Qed.

Lemma place_with_pc n d pc : place n (with_pc d pc) = place n d.
Proof. done. Qed.

(** A dispatch that a shard does not know yet is replaced. *)
Lemma core_dispatch n shs ds rs drain id d' :
  core_inv n shs ds rs drain → d_pc d' ≠ Waiting →
  match ds !! id with
  | None => True
  | Some d => ∃ pc, d' = with_pc d pc ∧ pc ≠ Enqueuing
  end →
  core_inv n shs (<[id := d']> ds) rs drain.
Proof.
  intros [Hn Hs Hr Hw] Hpc Hold. split; [done| |done|].
  - intros i sh Hi. destruct (Hs i sh Hi) as [H1 H2 H3 H4 H5]. split; [done..| | |done].
    + intros id' Hin. destruct (H3 id' Hin) as (d & Hd & Hp & Hne).
      destruct (decide (id = id')) as [->|Hneq]; [|exists d; by rewrite lookup_insert_ne].
      rewrite Hd in Hold. destruct Hold as (pc & -> & Hpc'). exists (with_pc d pc).
      by rewrite lookup_insert_eq.
    + intros q Hin. destruct (H4 q Hin) as (d & Hd & Hq).
      destruct (decide (id = q_id q)) as [->|Hneq]; [|exists d; by rewrite lookup_insert_ne].
      rewrite Hd in Hold. destruct Hold as (pc & -> & _). exists (with_pc d pc).
      by rewrite lookup_insert_eq.
  - intros id' d Hd Hwait. destruct (decide (id = id')) as [->|Hneq].
    + rewrite lookup_insert_eq in Hd. by simplify_eq.
    + rewrite lookup_insert_ne in Hd by done. by apply Hw.
Qed.

(** A worker moves without finishing a command or receiving a new one. *)
Lemma core_worker n shs ds rs drain drain' i sh sh' :
  core_inv n shs ds rs drain → shs !! i = Some sh → (drain = true → drain' = true) →
  sh_sent sh' = sh_sent sh → sh_finished sh' = sh_finished sh → unfinished sh' = unfinished sh →
  (sh_worker sh' = WExited → drain' = true ∧ sh_queue sh' = []) →
  core_inv n (<[i := sh']> shs) ds rs drain'.
Proof.
  intros [Hn Hs Hr Hw] Hi Hd Hsent Hfin Hunf Hex.
  assert (i < length shs)%nat as Hlt by by eapply lookup_lt_Some.
  split.
  - by rewrite length_insert.
  - intros j shj Hj. apply list_lookup_insert_Some in Hj as [(-> & <- & _)|(Hne & Hj)].
    + destruct (Hs _ _ Hi) as [H1 H2 H3 H4 H5]. split; rewrite ?Hsent, ?Hfin, ?Hunf; try done.
    + destruct (Hs _ _ Hj) as [H1 H2 H3 H4 H5]. split; try done. intros He.
      destruct (H5 He). auto.
  - intros id Hid. destruct (Hr id Hid) as (j & shj & Hj & Hin).
    destruct (decide (i = j)) as [->|Hne].
    + simplify_eq. exists j, sh'. rewrite list_lookup_insert_eq, Hfin by done. done.
    + exists j, shj. by rewrite list_lookup_insert_ne.
  - intros id d Hid Hwait. destruct (Hw id d Hid Hwait) as (shj & Hj & Hin & Hf).
    destruct (decide (i = place n d)) as [->|Hne].
    + simplify_eq. exists sh'. rewrite list_lookup_insert_eq, Hfin, Hsent by done. done.
    + exists shj. by rewrite list_lookup_insert_ne.
Qed.

(** A command enters the shard of its dispatch. *)
Lemma core_send n shs ds rs drain id d sh sh' :
  core_inv n shs ds rs drain → ds !! id = Some d → d_pc d = Enqueuing → shs !! place n d = Some sh →
  sh_sent sh' = sh_sent sh ++ [id] → sh_finished sh' = sh_finished sh →
  unfinished sh' = unfinished sh ++ [queued id d] → sh_worker sh' ≠ WExited ∨ sh_worker sh' = sh_worker sh →
  drain = false →
  core_inv n (<[place n d := sh']> shs) (<[id := with_pc d Waiting]> ds) rs drain.
Proof.
  intros Hinv Hd Hpc Hi Hsent Hfin Hunf Hex Hdrain. pose proof Hinv as [Hn Hs Hr Hw].
  assert (place n d < length shs)%nat as Hlt by by eapply lookup_lt_Some.
  assert (∀ j shj, shs !! j = Some shj → id ∉ sh_sent shj) as Hfresh.
  { intros j shj Hj Hin. destruct (so_known _ _ _ _ _ (Hs _ _ Hj) _ Hin) as (d' & Hd' & _ & Hne).
    by simplify_eq. }
  assert (∀ id', id' ≠ id → <[id := with_pc d Waiting]> ds !! id' = ds !! id') as Hne'
    by (intros; by rewrite lookup_insert_ne).
  split.
  - by rewrite length_insert.
  - intros j shj Hj. apply list_lookup_insert_Some in Hj as [(<- & <- & _)|(Hne & Hj)].
    + destruct (Hs _ _ Hi) as [H1 H2 H3 H4 H5]. split.
      * rewrite Hsent, H1, Hfin, Hunf, fmap_app. by rewrite <- app_assoc.
      * rewrite Hsent. apply NoDup_app. split; [done|]. split; [|apply NoDup_singleton].
        intros x Hx ->%list_elem_of_singleton. by eapply Hfresh.
      * rewrite Hsent. intros id' [Hin| ->%list_elem_of_singleton]%elem_of_app.
        -- rewrite Hne'; [by apply H3|]. intros ->. by eapply Hfresh.
        -- exists (with_pc d Waiting). by rewrite lookup_insert_eq.
      * rewrite Hunf. intros q [Hin| ->%list_elem_of_singleton]%elem_of_app.
        -- rewrite Hne'; [by apply H4|]. intros Heq. eapply (Hfresh _ _ Hi). rewrite H1, <- Heq.
           apply elem_of_app. right. by apply list_elem_of_fmap_2.
        -- exists (with_pc d Waiting). cbn. by rewrite lookup_insert_eq.
      * intros He. destruct Hex as [Hex|Hex]; [done|]. rewrite Hex in He. destruct (H5 He). congruence.
    + destruct (Hs _ _ Hj) as [H1 H2 H3 H4 H5]. split; try done.
      * intros id' Hin. rewrite Hne'; [by apply H3|]. intros ->. by eapply Hfresh.
      * intros q Hin. rewrite Hne'; [by apply H4|]. intros Heq. eapply (Hfresh _ _ Hj). rewrite H1, <- Heq.
        apply elem_of_app. right. by apply list_elem_of_fmap_2.
  - intros id' Hid'. destruct (Hr id' Hid') as (j & shj & Hj & Hin).
    destruct (decide (place n d = j)) as [<-|Hne].
    + simplify_eq. exists (place n d), sh'. rewrite list_lookup_insert_eq, Hfin by done. done.
    + exists j, shj. by rewrite list_lookup_insert_ne.
  - intros id' d' Hid' Hwait. destruct (decide (id' = id)) as [->|Hneq].
    + rewrite lookup_insert_eq in Hid'. simplify_eq. rewrite place_with_pc. exists sh'.
      rewrite list_lookup_insert_eq, Hsent, Hfin by done. split; [done|]. split; [set_solver|].
      intros Hin. exfalso. eapply (Hfresh _ _ Hi). rewrite (so_sent _ _ _ _ _ (Hs _ _ Hi)). set_solver.
    + rewrite Hne' in Hid' by done. destruct (Hw id' d' Hid' Hwait) as (shj & Hj & Hin & Hf).
      destruct (decide (place n d = place n d')) as [Heq|Hne].
      * rewrite <- Heq in *. simplify_eq. exists sh'. rewrite list_lookup_insert_eq, Hfin, Hsent by done.
        split; [done|]. split; [set_solver|done].
      * exists shj. by rewrite list_lookup_insert_ne.
Qed.

(** The worker answers its command. *)
Lemma core_respond n shs ds rs drain i sh q r :
  core_inv n shs ds rs drain → shs !! i = Some sh → current (sh_worker sh) = [q] →
  rs !! q_id q = None ∧
  core_inv n (<[i := mkShard (sh_queue sh) WSelect (sh_sent sh) (sh_finished sh ++ [q_id q])]> shs) ds
    (<[q_id q := r]> rs) drain.
Proof.
  intros Hinv Hi Hcur. pose proof Hinv as [Hn Hs Hr Hw].
  assert (i < length shs)%nat as Hlt by by eapply lookup_lt_Some.
  pose proof (Hs _ _ Hi) as [H1 H2 H3 H4 H5].
  assert (q_id q ∈ sh_sent sh) as Hqs.
  { rewrite H1. unfold unfinished. rewrite Hcur. set_solver. }
  assert (q_id q ∉ sh_finished sh) as Hqf.
  { intros Hin. rewrite H1 in H2. apply NoDup_app in H2 as (_ & H2 & _). apply (H2 _ Hin).
    unfold unfinished. rewrite Hcur. set_solver. }
  (* no other shard has the command *)
  assert (∀ j shj, shs !! j = Some shj → q_id q ∈ sh_sent shj → j = i) as Honly.
  { intros j shj Hj Hin. destruct (so_known _ _ _ _ _ (Hs _ _ Hj) _ Hin) as (d & Hd & <- & _).
    destruct (H3 _ Hqs) as (d' & Hd' & <- & _). by simplify_eq. }
  split.
  { apply eq_None_not_Some. intros Hid. destruct (Hr _ Hid) as (j & shj & Hj & Hin).
    assert (j = i) as ->; [|by simplify_eq]. eapply Honly; [exact Hj|].
    rewrite (so_sent _ _ _ _ _ (Hs _ _ Hj)). set_solver. }
  split.
  - by rewrite length_insert.
  - intros j shj Hj. apply list_lookup_insert_Some in Hj as [(<- & <- & _)|(Hne & Hj)]; [|by apply Hs].
    split; cbn [sh_sent sh_finished sh_worker sh_queue]; try done.
    + rewrite H1. unfold unfinished. rewrite Hcur. cbn. by rewrite <- app_assoc.
    + intros q' Hq'. apply H4. unfold unfinished. rewrite Hcur. unfold unfinished in Hq'. cbn in Hq'. set_solver.
  - intros id Hid. destruct (decide (id = q_id q)) as [->|Hne].
    + exists i. eexists. rewrite list_lookup_insert_eq by done. split; [done|]. cbn. set_solver.
    + rewrite lookup_insert_ne in Hid by done. destruct (Hr id Hid) as (j & shj & Hj & Hin).
      destruct (decide (i = j)) as [->|Hnej].
      * simplify_eq. exists j. eexists. rewrite list_lookup_insert_eq by done. split; [done|]. cbn. set_solver.
      * exists j, shj. by rewrite list_lookup_insert_ne.
  - intros id d Hid Hwait. destruct (Hw id d Hid Hwait) as (shj & Hj & Hin & Hf).
    destruct (decide (i = place n d)) as [->|Hne].
    + simplify_eq. eexists. rewrite list_lookup_insert_eq by done. split; [done|]. cbn. split; [done|].
      intros [Hin'| ->%list_elem_of_singleton]%elem_of_app; [|by rewrite lookup_insert_eq].
      rewrite lookup_insert_ne; [by apply Hf|]. congruence.
    + exists shj. rewrite list_lookup_insert_ne by done. split_and!; [done..|]. intros Hin'.
      destruct (decide (id = q_id q)) as [->|]; [by rewrite lookup_insert_eq|].
      rewrite lookup_insert_ne by done. auto.
Qed.

(** *** The whole bus *)
Definition active d : Z := match d_pc d with Returned _ _ => 0 | _ => 1 end.
Definition enqueuing d : Z := match d_pc d with Enqueuing => 1 | _ => 0 end.

Lemma active_nonneg d : 0 ≤ active d.
Proof. unfold active. by destruct (d_pc d). Qed.

Lemma enqueuing_nonneg d : 0 ≤ enqueuing d.
Proof. unfold enqueuing. by destruct (d_pc d). Qed.

Record bus_inv b : Prop := {
  bi_core : core_inv (shardCount b) (shards b) (dispatches b) (responses b) (drainCh b);
  bi_wg : wg b = msum active (dispatches b);
  bi_enqueue : enqueueWG b = msum enqueuing (dispatches b);
  bi_drain : drainCh b = true → stopCh b = true ∧ enqueueWG b = 0;
  bi_stops k pc : stops b !! k = Some pc →
    stopCh b = true ∧ (pc ≠ StopEnqueues → drainCh b = true) ∧ (pc = StopReturned → wg b = 0);
}.

Lemma msum_groups b : bus_inv b → 0 ≤ enqueueWG b ∧ 0 ≤ wg b.
Proof.
  intros [_ -> -> _ _]. split; apply msum_nonneg; [apply enqueuing_nonneg|apply active_nonneg].
Qed.

(** A dispatch that is enqueuing holds the drain back. *)
Lemma enqueuing_no_drain b id d :
  bus_inv b → dispatches b !! id = Some d → d_pc d = Enqueuing → drainCh b = false.
Proof.
  intros Hinv Hd Hpc. destruct (drainCh b) eqn:HD; [|done].
  destruct (bi_drain _ Hinv HD) as [_ H]. rewrite (bi_enqueue _ Hinv) in H.
  pose proof (msum_zero _ _ _ _ enqueuing_nonneg H Hd) as H0. unfold enqueuing in H0. by rewrite Hpc in H0.
Qed.

(** What the steps of Dispatch have in common: one dispatch moves, and the
    groups count it out. *)
Lemma inv_dispatch b b' id d d' :
  bus_inv b → dispatches b !! id = Some d → dispatches b' = <[id := d']> (dispatches b) →
  core_inv (shardCount b') (shards b') (dispatches b') (responses b') (drainCh b') →
  stopCh b' = stopCh b → drainCh b' = drainCh b → stops b' = stops b →
  wg b' = wg b - active d + active d' → enqueueWG b' = enqueueWG b - enqueuing d + enqueuing d' →
  active d' ≤ active d → enqueuing d' ≤ enqueuing d →
  bus_inv b'.
Proof.
  intros Hinv Hd Hds Hcore Hst Hdr Hsp Hwg Henq Hle1 Hle2.
  assert (wg b' = msum active (dispatches b')) as Hwg'.
  { rewrite Hwg, (bi_wg _ Hinv), Hds. by rewrite (msum_update _ _ _ _ _ Hd). }
  assert (enqueueWG b' = msum enqueuing (dispatches b')) as Henq'.
  { rewrite Henq, (bi_enqueue _ Hinv), Hds. by rewrite (msum_update _ _ _ _ _ Hd). }
  pose proof (msum_nonneg active (dispatches b') active_nonneg).
  pose proof (msum_nonneg enqueuing (dispatches b') enqueuing_nonneg).
  split; [done..| |].
  - rewrite Hdr, Hst. intros HD. destruct (bi_drain _ Hinv HD) as [? ?]. split; [done|lia].
  - intros k pc. rewrite Hsp, Hst, Hdr. intros Hk. destruct (bi_stops _ Hinv k pc Hk) as (? & ? & Hz).
    split_and!; [done..|]. intros Hpc. specialize (Hz Hpc). lia.
Qed.

(** What the steps of the workers have in common. *)
Lemma inv_worker b b' :
  bus_inv b → core_inv (shardCount b') (shards b') (dispatches b') (responses b') (drainCh b') →
  dispatches b' = dispatches b → stopCh b' = stopCh b → drainCh b' = drainCh b → stops b' = stops b →
  wg b' = wg b → enqueueWG b' = enqueueWG b → bus_inv b'.
Proof.
  intros [H1 H2 H3 H4 H5] Hcore Hd Hst Hdr Hsp Hwg Henq.
  split; [exact Hcore|rewrite ?Hd, ?Hst, ?Hdr, ?Hsp, ?Hwg, ?Henq; done..].
Qed.

Ltac bus_cbn := cbn [set_shard set_dispatch set_groups set_channels set_responses set_stop set_ended set_world
  set_handlers handlers shardCount shards stopCh drainCh wg enqueueWG dispatches responses stops ended].

Lemma respond_inv b i sh q r b' :
  bus_inv b → shards b !! i = Some sh → current (sh_worker sh) = [q] →
  respond i sh q r b = Some b' → bus_inv b'.
Proof.
  intros Hinv Hi Hcur. unfold respond.
  destruct (core_respond _ _ _ _ _ _ _ _ r (bi_core _ Hinv) Hi Hcur) as [-> Hcore].
  intros ?; simplify_eq. by eapply inv_worker.
Qed.

(** The worker never blocks on the response channel. *)
Lemma respond_ready b i sh q r :
  bus_inv b → shards b !! i = Some sh → current (sh_worker sh) = [q] → is_Some (respond i sh q r b).
Proof.
  intros Hinv Hi Hcur. unfold respond.
  destruct (core_respond _ _ _ _ _ _ _ _ r (bi_core _ Hinv) Hi Hcur) as [-> _]. by eexists.
Qed.

Lemma dispatch_send_inv b id b' : bus_inv b → dispatch_send id b = Some b' → bus_inv b'.
Proof.
  intros Hinv. unfold dispatch_send. destruct (dispatches b !! id) as [d|] eqn:Hd; [|done]. cbn [mbind option_bind].
  destruct (d_pc d) eqn:Hpc; try done. destruct (shards b !! _) as [sh|] eqn:Hi; [|done]. cbn [mbind option_bind].
  pose proof (enqueuing_no_drain _ _ _ Hinv Hd Hpc) as Hdr.
  assert (∀ sh', sh_sent sh' = sh_sent sh ++ [id] → sh_finished sh' = sh_finished sh →
    unfinished sh' = unfinished sh ++ [queued id d] → sh_worker sh' ≠ WExited ∨ sh_worker sh' = sh_worker sh →
    bus_inv (set_groups 0 (-1) (set_dispatch id (with_pc d Waiting) (set_shard (shard_of b (d_Command d)) sh' b))))
    as Hgoal.
  { intros sh' H1 H2 H3 H4. eapply (inv_dispatch b _ id d); [done..| |done|done|done| | | |]; bus_cbn;
      try (unfold active, enqueuing; rewrite Hpc; cbn; lia).
    by eapply (core_send _ _ _ _ _ _ _ sh); [apply Hinv|..]. }
  destruct (_ <? _).
  - intros ?; simplify_eq. apply Hgoal; cbn; [done..| |by right].
    unfold unfinished; cbn. by rewrite app_assoc.
  - destruct (sh_worker sh) eqn:Hwk; try done. destruct (sh_queue sh) eqn:Hq; [|done].
    intros ?; simplify_eq. apply Hgoal; cbn; [done..| |by left].
    unfold unfinished. rewrite Hwk, Hq. done.
Qed.

(** The dispatch [id] returns. *)
Lemma return_inv b id d r err rs' dg :
  bus_inv b → dispatches b !! id = Some d → d_pc d ≠ Returned r err → active d = 1 → dg = - enqueuing d →
  (rs' = responses b ∨ (rs' = delete id (responses b))) →
  bus_inv (set_responses rs' (set_groups (-1) dg (set_dispatch id (with_pc d (Returned r err)) b))).
Proof.
  intros Hinv Hd Hpc Hact Hdg Hrs. eapply (inv_dispatch b _ id d); [done..| |done|done|done| | | |]; bus_cbn;
    try (rewrite ?Hact; unfold active, enqueuing in *; cbn; destruct (d_pc d); (done || lia)).
  assert (core_inv (shardCount b) (shards b) (<[id := with_pc d (Returned r err)]> (dispatches b))
    (responses b) (drainCh b)) as [H1 H2 H3 H4].
  { apply core_dispatch; [apply Hinv|done|]. rewrite Hd. by exists (Returned r err). }
  destruct Hrs as [-> | ->]; [by split|]. split; [done..| |].
  - intros id' Hid'. apply H3. destruct Hid' as [v Hv]. apply lookup_delete_Some in Hv as [_ Hv]. by eexists.
  - intros id' d' Hid' Hwait. destruct (H4 id' d' Hid' Hwait) as (sh & Hsh & Hin & Hf).
    exists sh. split_and!; [done..|]. rewrite lookup_delete_ne; [done|]. intros ->.
    rewrite lookup_insert_eq in Hid'. by simplify_eq.
Qed.

Lemma set_responses_id b : set_responses (responses b) b = b.
Proof. by destruct b. Qed.

Lemma exec_internal_inv a b b' : bus_inv b → exec_internal a b = Some b' → bus_inv b'.
Proof.
  intros Hinv. destruct a as [id|id|id|id|i|i|i|i|k|k]; cbn [exec_internal].
  - by apply dispatch_send_inv.
  - unfold dispatch_closed. destruct (dispatches b !! id) as [d|] eqn:Hd; [|done]. cbn [mbind option_bind].
    destruct (d_pc d) eqn:Hpc; try done. destruct (stopCh b); [|done]. intros ?; simplify_eq.
    eapply (return_inv b id d _ _ (responses b) (-1)); [done..| | | |by left];
      unfold active, enqueuing; rewrite Hpc; done.
  - unfold dispatch_cancelled. destruct (dispatches b !! id) as [d|] eqn:Hd; [|done]. cbn [mbind option_bind].
    destruct (ended b !! id) as [e|]; [|done]. cbn [mbind option_bind].
    destruct (d_pc d) eqn:Hpc; try done; intros ?; simplify_eq.
    + eapply (return_inv b id d _ _ (responses b) (-1)); [done..| | | |by left];
        unfold active, enqueuing; rewrite Hpc; done.
    + eapply (return_inv b id d _ _ (responses b) 0); [done..| | | |by left];
        unfold active, enqueuing; rewrite Hpc; done.
  - unfold dispatch_receive. destruct (dispatches b !! id) as [d|] eqn:Hd; [|done]. cbn [mbind option_bind].
    destruct (responses b !! id) as [r|]; [|done]. cbn [mbind option_bind].
    destruct (d_pc d) eqn:Hpc; try done; intros ?; simplify_eq.
    eapply (return_inv b id d _ _ (delete id (responses b)) 0); [done..| | | |by right];
      unfold active, enqueuing; rewrite Hpc; done.
  - unfold worker_take. destruct (shards b !! i) as [sh|] eqn:Hi; [|done]. cbn [mbind option_bind].
    destruct (sh_worker sh) eqn:Hw; try done. destruct (sh_queue sh) as [|q queue] eqn:Hq; [done|].
    intros ?; simplify_eq. eapply inv_worker; [done| |done..]. bus_cbn.
    eapply core_worker; [apply Hinv|done..| |done]. unfold unfinished. by rewrite Hw, Hq.
  - unfold worker_exit. destruct (shards b !! i) as [sh|] eqn:Hi; [|done]. cbn [mbind option_bind].
    destruct (sh_worker sh) eqn:Hw; try done. destruct (sh_queue sh) as [|q queue] eqn:Hq; [|done].
    destruct (drainCh b) eqn:HD; [|done]. intros ?; simplify_eq. eapply inv_worker; [done| |done..]. bus_cbn.
    eapply core_worker; [apply Hinv|done..| |done]. unfold unfinished. by rewrite Hw, Hq.
  - unfold worker_start. destruct (shards b !! i) as [sh|] eqn:Hi; [|done]. cbn [mbind option_bind].
    destruct (sh_worker sh) as [|q| |] eqn:Hw; try done.
    assert (current (sh_worker sh) = [q]) as Hcur by by rewrite Hw.
    destruct (ended b !! q_id q); [by apply respond_inv|].
    destruct (handlerFor _ _) as [h|]; [|by apply respond_inv].
    intros ?; simplify_eq. eapply inv_worker; [done| |done..]. bus_cbn.
    eapply core_worker; [apply Hinv|done..| |done]. unfold unfinished. by rewrite Hw.
  - unfold worker_finish. destruct (shards b !! i) as [sh|] eqn:Hi; [|done]. cbn [mbind option_bind].
    destruct (sh_worker sh) as [| |q h|] eqn:Hw; try done. destruct (h _ _ _) as [o w].
    intros HR. eapply (respond_inv (set_world w b)); [|exact Hi| |exact HR]; [|by rewrite Hw].
    eapply inv_worker; [done|apply Hinv|done..].
  - unfold stop_drain. destruct (stops b !! k) as [[]|] eqn:Hk; try done.
    destruct (Z.eqb_spec (enqueueWG b) 0) as [Hz|]; [|done]. intros ?; simplify_eq.
    destruct Hinv as [H1 H2 H3 H4 H5]. destruct (H5 _ _ Hk) as (Hst & _ & _).
    split; bus_cbn; [|done..|].
    + destruct H1 as [C1 C2 C3 C4]. split; [done| |done..]. intros i sh Hi.
      destruct (C2 i sh Hi) as [? ? ? ? S5]. split; try done. intros He. by destruct (S5 He).
    + intros k' pc. rewrite lookup_insert_Some. intros [[<- <-]|[Hne Hk']]; [done|].
      by destruct (H5 _ _ Hk') as (? & ? & ?).
  - unfold stop_return. destruct (stops b !! k) as [[]|] eqn:Hk; try done.
    destruct (Z.eqb_spec (wg b) 0) as [Hz|]; [|done]. intros ?; simplify_eq.
    destruct Hinv as [H1 H2 H3 H4 H5]. destruct (H5 _ _ Hk) as (Hst & Hdr & _).
    split; bus_cbn; [done..|]. intros k' pc. rewrite lookup_insert_Some.
    intros [[<- <-]|[Hne Hk']]; [auto|]. by destruct (H5 _ _ Hk') as (? & ? & ?).
Qed.

Lemma Register_groups zero h b b' : Register zero h b = Returns b' → b' = set_handlers (handlers b') (middlewares b') b.
Proof. unfold Register. destruct (handlers b !! _); [done|]. intros ?; simplify_eq. done. Qed.

Lemma exec_external_inv a b b' : bus_inv b → exec_external a b = Some b' → bus_inv b'.
Proof.
  intros Hinv. destruct a as [id ctx cmd|id e|k|zero h|ms|w]; cbn [exec_external].
  - unfold dispatch_begin. destruct (dispatches b !! id) as [d|] eqn:Hd; [done|].
    destruct Hinv as [H1 H2 H3 H4 H5]. destruct (stopCh b) eqn:Hst; intros ?; simplify_eq.
    + split; bus_cbn; rewrite ?msum_insert by done; [|cbn; lia|cbn; lia|by rewrite Hst|rewrite Hst; done].
      apply core_dispatch; [done|done|by rewrite Hd].
    + assert (drainCh b = false) as HD by (destruct (drainCh b); [by destruct H4|done]).
      split; bus_cbn; rewrite ?msum_insert by done; [|cbn; lia|cbn; lia|by rewrite HD|].
      * apply core_dispatch; [done|done|by rewrite Hd].
      * intros k pc Hk. destruct (H5 k pc Hk). congruence.
  - destruct (ended b !! id); [done|]. intros ?; simplify_eq. eapply inv_worker; [done|apply Hinv|done..].
  - unfold stop_begin. destruct (stops b !! k) eqn:Hk; [done|]. intros ?; simplify_eq.
    destruct Hinv as [H1 H2 H3 H4 H5]. split; bus_cbn; [done..| |].
    + intros HD. by destruct (H4 HD).
    + intros k' pc. rewrite lookup_insert_Some. intros [[<- <-]|[Hne Hk']]; [done|].
      by destruct (H5 _ _ Hk') as (? & ? & ?).
  - destruct (Register zero h b) as [b1|] eqn:HR; [|done]. intros ?; simplify_eq.
    rewrite (Register_groups _ _ _ _ HR). eapply inv_worker; [done|apply Hinv|done..].
  - intros ?; simplify_eq. eapply inv_worker; [done|apply Hinv|done..].
  - intros ?; simplify_eq. eapply inv_worker; [done|apply Hinv|done..].
Qed.

Lemma NewCommandBus_inv buf n (w : W) : bus_inv (NewCommandBus buf n w).
Proof.
  split; cbn; [|by rewrite msum_empty..|done|intros k pc; by rewrite lookup_empty].
  split.
  - rewrite length_replicate. split; [|done]. destruct (Z.leb_spec n 0); lia.
  - intros i sh [-> _]%lookup_replicate. split; cbn; [done|constructor|..].
    + intros id Hin. by apply not_elem_of_nil in Hin.
    + intros q Hin. by apply not_elem_of_nil in Hin.
    + done.
  - intros id. rewrite lookup_empty. by intros [].
  - intros id d. by rewrite lookup_empty.
Qed.

Lemma reachable_inv buf n w b : reachable buf n w b → bus_inv b.
Proof.
  intros Hr. eapply (rtc_invariant step bus_inv); [|exact Hr|apply NewCommandBus_inv].
  intros b1 b2 Hinv [a Ha|a Ha]; [by eapply exec_internal_inv|by eapply exec_external_inv].
Qed.
End invariant.

(** ** Progress and termination *)
Section progress.
Context {W : Type}.
Implicit Types (b : CommandBus W) (sh : shard W).

Definition worker_weight (w : worker_pc W) : Z :=
  match w with WTaken _ => 3 | WRunning _ _ => 2 | WSelect => 1 | WExited => 0 end.
Definition shard_weight sh : Z := 3 * zlen (sh_queue sh) + worker_weight (sh_worker sh).
Definition dispatch_weight (d : dispatch) : Z :=
  match d_pc d with Enqueuing => 8 | Waiting => 1 | Returned _ _ => 0 end.
Definition stop_weight (pc : stop_pc) : Z :=
  match pc with StopEnqueues => 2 | StopDispatches => 1 | StopReturned => 0 end.

(** An upper bound of the internal steps left. *)
Definition bus_measure b : Z :=
  msum dispatch_weight (dispatches b) + lsum shard_weight (shards b) + msum stop_weight (stops b).

Lemma bus_measure_nonneg b : 0 ≤ bus_measure b.
Proof.
  assert (0 ≤ msum dispatch_weight (dispatches b))
    by (apply msum_nonneg; intros d; unfold dispatch_weight; by destruct (d_pc d)).
  assert (0 ≤ msum stop_weight (stops b)) by (apply msum_nonneg; by intros []).
  assert (0 ≤ lsum shard_weight (shards b)).
  { apply lsum_nonneg. intros sh _. unfold shard_weight. pose proof (zlen_nonneg (sh_queue sh)).
    destruct (sh_worker sh); cbn; lia. }
  unfold bus_measure. lia.
Qed.

Lemma respond_measure b i sh q r b' :
  shards b !! i = Some sh → current (sh_worker sh) = [q] → respond i sh q r b = Some b' →
  bus_measure b' < bus_measure b.
Proof.
  intros Hi Hcur. unfold respond. destruct (responses b !! q_id q); [done|]. intros ?; simplify_eq.
  unfold bus_measure; cbn. rewrite (lsum_insert _ _ _ _ _ Hi). unfold shard_weight; cbn.
  destruct (sh_worker sh); simplify_eq/=; lia.
Qed.

Lemma exec_internal_measure a b b' : exec_internal a b = Some b' → bus_measure b' < bus_measure b.
Proof.
  destruct a as [id|id|id|id|i|i|i|i|k|k]; cbn [exec_internal].
  1-4: unfold dispatch_send, dispatch_closed, dispatch_cancelled, dispatch_receive;
    destruct (dispatches b !! id) as [d|] eqn:Hd; [|done]; cbn [mbind option_bind].
  - destruct (d_pc d) eqn:Hpc; try done. destruct (shards b !! _) as [sh|] eqn:Hi; [|done]. cbn [mbind option_bind].
    destruct (_ <? _); [intros ?; simplify_eq|].
    2: { destruct (sh_worker sh) eqn:Hw; try done. destruct (sh_queue sh) eqn:Hq; [|done]. intros ?; simplify_eq.
         unfold bus_measure; cbn. rewrite (msum_update _ _ _ _ _ Hd), (lsum_insert _ _ _ _ _ Hi).
         unfold dispatch_weight, shard_weight. rewrite Hpc, Hw, Hq. cbn. lia. }
    unfold bus_measure; cbn. rewrite (msum_update _ _ _ _ _ Hd), (lsum_insert _ _ _ _ _ Hi).
    unfold dispatch_weight, shard_weight. rewrite Hpc. cbn [with_pc d_pc sh_queue sh_worker].
    rewrite zlen_snoc. lia.
  - destruct (d_pc d) eqn:Hpc; try done. destruct (stopCh b); [|done]. intros ?; simplify_eq.
    unfold bus_measure; cbn. rewrite (msum_update _ _ _ _ _ Hd). unfold dispatch_weight. rewrite Hpc; cbn. lia.
  - destruct (ended b !! id); [|done]. cbn [mbind option_bind]. destruct (d_pc d) eqn:Hpc; try done; intros ?; simplify_eq;
      unfold bus_measure; cbn; rewrite (msum_update _ _ _ _ _ Hd); unfold dispatch_weight; rewrite Hpc; cbn; lia.
  - destruct (responses b !! id); [|done]. cbn [mbind option_bind]. destruct (d_pc d) eqn:Hpc; try done; intros ?; simplify_eq.
    unfold bus_measure; cbn; rewrite (msum_update _ _ _ _ _ Hd); unfold dispatch_weight; rewrite Hpc; cbn; lia.
  - unfold worker_take. destruct (shards b !! i) as [sh|] eqn:Hi; [|done]. cbn [mbind option_bind].
    destruct (sh_worker sh) eqn:Hw; try done. destruct (sh_queue sh) as [|q queue] eqn:Hq; [done|].
    intros ?; simplify_eq. unfold bus_measure; cbn. rewrite (lsum_insert _ _ _ _ _ Hi).
    unfold shard_weight. rewrite Hw, Hq. cbn [sh_queue sh_worker worker_weight]. rewrite zlen_cons. lia.
  - unfold worker_exit. destruct (shards b !! i) as [sh|] eqn:Hi; [|done]. cbn [mbind option_bind].
    destruct (sh_worker sh) eqn:Hw; try done. destruct (sh_queue sh) as [|q queue] eqn:Hq; [|done].
    destruct (drainCh b); [|done].
    intros ?; simplify_eq. unfold bus_measure; cbn. rewrite (lsum_insert _ _ _ _ _ Hi).
    unfold shard_weight. rewrite Hw, Hq. cbn. lia.
  - unfold worker_start. destruct (shards b !! i) as [sh|] eqn:Hi; [|done]. cbn [mbind option_bind].
    destruct (sh_worker sh) as [|q| |] eqn:Hw; try done.
    assert (current (sh_worker sh) = [q]) as Hcur by by rewrite Hw.
    destruct (ended b !! q_id q); [by apply respond_measure|].
    destruct (handlerFor _ _) as [h|]; [|by apply respond_measure].
    intros ?; simplify_eq. unfold bus_measure; cbn. rewrite (lsum_insert _ _ _ _ _ Hi).
    unfold shard_weight. rewrite Hw. cbn. lia.
  - unfold worker_finish. destruct (shards b !! i) as [sh|] eqn:Hi; [|done]. cbn [mbind option_bind].
    destruct (sh_worker sh) as [| |q h|] eqn:Hw; try done. destruct (h _ _ _) as [o w].
    intros HR. change (bus_measure b) with (bus_measure (set_world w b)).
    eapply respond_measure; [exact Hi| |exact HR]. by rewrite Hw.
  - unfold stop_drain. destruct (stops b !! k) as [[]|] eqn:Hk; try done.
    destruct (enqueueWG b =? 0); [|done]. intros ?; simplify_eq.
    unfold bus_measure; cbn. rewrite (msum_update _ _ _ _ _ Hk). cbn. lia.
  - unfold stop_return. destruct (stops b !! k) as [[]|] eqn:Hk; try done.
    destruct (wg b =? 0); [|done]. intros ?; simplify_eq.
    unfold bus_measure; cbn. rewrite (msum_update _ _ _ _ _ Hk). cbn. lia.
Qed.

Fixpoint run_internal (acts : list internal) b : option (CommandBus W) :=
  match acts with
  | [] => Some b
  | a :: acts => match exec_internal a b with Some b => run_internal acts b | None => None end
  end.

Lemma run_internal_measure acts b b' :
  run_internal acts b = Some b' → zlen acts + bus_measure b' ≤ bus_measure b.
Proof.
  revert b. induction acts as [|a acts IH]; intros b H; simpl in H; [simplify_eq; rewrite zlen_nil; lia|].
  destruct (exec_internal a b) as [b1|] eqn:Ha; [|done]. apply exec_internal_measure in Ha.
  apply IH in H. rewrite zlen_cons. lia.
Qed.

(** A waiting command is answered or still with a live worker. *)
Lemma waiting_served b id d :
  bus_inv b → dispatches b !! id = Some d → d_pc d = Waiting →
  is_Some (responses b !! id) ∨
  ∃ sh, shards b !! shard_of b (d_Command d) = Some sh ∧ id ∈ (q_id <$> unfinished sh) ∧ sh_worker sh ≠ WExited.
Proof.
  intros Hinv Hd Hpc. destruct (bi_core _ Hinv) as [_ Hs _ Hw].
  destruct (Hw id d Hd Hpc) as (sh & Hsh & Hin & Hf).
  pose proof (Hs _ _ Hsh) as [H1 _ _ _ H5]. rewrite H1 in Hin. apply elem_of_app in Hin as [Hin|Hin]; [auto|].
  right. exists sh. split_and!; [done..|]. intros He. destruct (H5 He) as [_ Hq].
  unfold unfinished in Hin. rewrite He, Hq in Hin. by apply not_elem_of_nil in Hin.
Qed.

(** A live worker with a command can move. *)
Lemma worker_moves b i sh id :
  bus_inv b → shards b !! i = Some sh → id ∈ (q_id <$> unfinished sh) → sh_worker sh ≠ WExited →
  ∃ a, is_Some (exec_internal a b).
Proof.
  intros Hinv Hi Hin Hne. unfold unfinished in Hin. destruct (sh_worker sh) as [|q|q h|] eqn:Hw; [| | |done].
  - exists (ITake i). cbn. unfold worker_take. rewrite Hi. cbn [mbind option_bind]. rewrite Hw.
    destruct (sh_queue sh); [|by eexists]. by apply not_elem_of_nil in Hin.
  - exists (IStart i). cbn. unfold worker_start. rewrite Hi. cbn [mbind option_bind]. rewrite Hw.
    destruct (ended b !! q_id q); [by apply respond_ready; [..|rewrite Hw]|].
    destruct (handlerFor _ _); [by eexists|]. by apply respond_ready; [..|rewrite Hw].
  - exists (IFinish i). cbn. unfold worker_finish. rewrite Hi. cbn [mbind option_bind]. rewrite Hw.
    destruct (h _ _ _) as [o w]. apply (respond_ready (set_world w b)); [|done|by rewrite Hw].
    eapply inv_worker; [done|apply Hinv|done..].
Qed.

Lemma stop_moves b k pc :
  bus_inv b → stops b !! k = Some pc → pc ≠ StopReturned → ∃ a, is_Some (exec_internal a b).
Proof.
  intros Hinv Hk Hne. destruct (bi_stops _ Hinv k pc Hk) as (Hst & Hdr & _).
  destruct pc; [| |done].
  - destruct (Z.eq_dec (enqueueWG b) 0) as [Hz|Hz].
    + exists (IDrain k). cbn. unfold stop_drain. rewrite Hk, Hz. by eexists.
    + rewrite (bi_enqueue _ Hinv) in Hz. destruct (msum_witness _ _ Hz) as (id & d & Hd & Hpc).
      exists (IClosed id). cbn. unfold dispatch_closed. rewrite Hd, Hst. cbn [mbind option_bind].
      unfold enqueuing in Hpc. destruct (d_pc d); [by eexists|done..].
  - specialize (Hdr ltac:(done)). destruct (Z.eq_dec (wg b) 0) as [Hz|Hz].
    + exists (IReturn k). cbn. unfold stop_return. rewrite Hk, Hz. by eexists.
    + rewrite (bi_wg _ Hinv) in Hz. destruct (msum_witness _ _ Hz) as (id & d & Hd & Hpc).
      unfold active in Hpc. destruct (d_pc d) eqn:Hp; [| |done].
      * pose proof (enqueuing_no_drain _ _ _ Hinv Hd Hp). congruence.
      * destruct (waiting_served _ _ _ Hinv Hd Hp) as [[r Hr]|(sh & Hsh & Hin & Hex)].
        -- exists (IReceive id). cbn. unfold dispatch_receive. rewrite Hd, Hr. cbn [mbind option_bind].
           rewrite Hp. by eexists.
        -- by eapply worker_moves.
Qed.

Lemma exec_internal_stops a b b' k :
  exec_internal a b = Some b' → is_Some (stops b !! k) → is_Some (stops b' !! k).
Proof.
  intros Ha Hk.
  destruct a; cbn in Ha;
    unfold dispatch_send, dispatch_closed, dispatch_cancelled, dispatch_receive, worker_take, worker_exit,
      worker_start, worker_finish, respond, stop_drain, stop_return in Ha;
    repeat first [progress simplify_option_eq | case_match]; try done;
    cbn; rewrite lookup_insert_is_Some; destruct (decide (k0 = k)); tauto.
Qed.

Lemma run_internal_inv acts b b' k :
  run_internal acts b = Some b' → bus_inv b → is_Some (stops b !! k) → bus_inv b' ∧ is_Some (stops b' !! k).
Proof.
  revert b. induction acts as [|a acts IH]; intros b H Hinv Hk; simpl in H; [by simplify_eq|].
  destruct (exec_internal a b) as [b1|] eqn:Ha; [|done].
  eapply IH; [done|by eapply exec_internal_inv|by eapply exec_internal_stops].
Qed.
End progress.

(** ** Correctness *)
Section correctness.
Context {W : Type}.
Implicit Types (b : CommandBus W).

(** C4: In every interleaving each shard of the command bus is a serial queue.
    The commands sent to it are exactly the ones its worker finished, then the
    one it runs, then the queued ones, in this order and without repetition; a
    command only ever goes to the shard of its aggregate, and is queued as it
    was dispatched.  So the commands of one aggregate run one at a time, in
    the order they were accepted. *)
Theorem shard_is_a_serial_queue buf n (w : W) b i sh :
  reachable buf n w b → shards b !! i = Some sh →
  sh_sent sh = sh_finished sh ++ (q_id <$> current (sh_worker sh)) ++ (q_id <$> sh_queue sh) ∧
  NoDup (sh_sent sh) ∧
  (∀ id, id ∈ sh_sent sh → ∃ d, dispatches b !! id = Some d ∧ i = shard_of b (d_Command d)) ∧
  (∀ q, q ∈ current (sh_worker sh) ++ sh_queue sh →
     ∃ d, dispatches b !! q_id q = Some d ∧ q_Command q = d_Command d ∧ q_Ctx q = d_Ctx d).
Proof.
  intros Hr Hi. pose proof (reachable_inv _ _ _ _ Hr) as Hinv.
  destruct (c_shards _ _ _ _ _ (bi_core _ Hinv) i sh Hi) as [H1 H2 H3 H4 _].
  split_and!; [|done| |].
  - rewrite H1. unfold unfinished. by rewrite fmap_app.
  - intros id Hin. destruct (H3 id Hin) as (d & Hd & Hp & _). by exists d.
  - intros q Hq. destruct (H4 q Hq) as (d & Hd & ->). by exists d.
Qed.

(** C37: A dispatch that waits for its response is never forgotten: its response
    is there, or its command is queued or running on the shard of its
    aggregate, whose worker has not exited. *)
Theorem accepted_command_is_served buf n (w : W) b id d :
  reachable buf n w b → dispatches b !! id = Some d → d_pc d = Waiting →
  is_Some (responses b !! id) ∨
  ∃ sh, shards b !! shard_of b (d_Command d) = Some sh ∧
    id ∈ q_id <$> (current (sh_worker sh) ++ sh_queue sh) ∧ sh_worker sh ≠ WExited.
Proof. intros Hr. apply waiting_served. by eapply reachable_inv. Qed.

(** Once a call of Stop has returned, every call of Dispatch that was ever begun
    has returned too. *)
Theorem Stop_waits_for_every_dispatch buf n (w : W) b k id d :
  reachable buf n w b → stops b !! k = Some StopReturned → dispatches b !! id = Some d →
  ∃ r err, d_pc d = Returned r err.
Proof.
  intros Hr Hk Hd. pose proof (reachable_inv _ _ _ _ Hr) as Hinv.
  destruct (bi_stops _ Hinv _ _ Hk) as (_ & _ & Hz). specialize (Hz eq_refl).
  rewrite (bi_wg _ Hinv) in Hz. pose proof (msum_zero _ _ _ _ active_nonneg Hz Hd) as Ha.
  unfold active in Ha. destruct (d_pc d); [done..|by eexists _, _].
Qed.

(** C15: Stop terminates.  From any reachable state in which Stop was called, the
    bus can take only boundedly many steps by itself (a handler that returns
    is one of them), and whenever it can take none the call has returned: no
    command is lost and no goroutine waits for ever. *)
Theorem Stop_returns buf n (w : W) b k pc acts b' :
  reachable buf n w b → stops b !! k = Some pc → run_internal acts b = Some b' →
  zlen acts ≤ bus_measure b ∧
  (stops b' !! k = Some StopReturned ∨ ∃ a, is_Some (exec_internal a b')).
Proof.
  intros Hr Hk Hrun. pose proof (reachable_inv _ _ _ _ Hr) as Hinv. split.
  - pose proof (run_internal_measure _ _ _ Hrun). pose proof (bus_measure_nonneg b'). lia.
  - destruct (run_internal_inv _ _ _ k Hrun Hinv) as [Hinv' [pc' Hk']]; [by eexists|].
    destruct (decide (pc' = StopReturned)) as [->|Hne]; [by left|]. right. by eapply stop_moves.
Qed.

(** A command type keeps its first handler: registering it again panics, and no
    step replaces it. *)
Theorem handlers_are_registered_once b b' zero (h : CommandHandler W) h0 :
  handlers b !! cmd_CommandType zero = Some h0 → step b b' →
  returns (Register zero h b) = false ∧ handlers b' !! cmd_CommandType zero = Some h0.
Proof.
  intros Hh Hstep. split; [unfold Register; by rewrite Hh|].
  destruct Hstep as [a Ha|a Ha].
  - destruct a; cbn in Ha;
      unfold dispatch_send, dispatch_closed, dispatch_cancelled, dispatch_receive, worker_take, worker_exit,
        worker_start, worker_finish, respond, stop_drain, stop_return in Ha;
      repeat first [progress simplify_option_eq | case_match]; done.
  - destruct a as [id ctx cmd|id e|k|zero' h'|ms|w]; cbn in Ha; unfold dispatch_begin, stop_begin, Use in Ha;
      try (repeat first [progress simplify_option_eq | case_match]; done).
    unfold Register in Ha. destruct (handlers b !! cmd_CommandType zero') eqn:Hz; [done|]. simplify_eq. cbn.
    rewrite lookup_insert_ne; [done|]. congruence.
Qed.
End correctness.
