(* ===== verification/EventHandlers.v ===== *)
(** * Event handlers and event groups ([event_handler.go])

    An [EventHandler] is a value with a [Handle] method and, for the ones
    [OnEvent] builds, the methods [EventName] and [EventInstance]. *)
From S2P Require Import Prelude Core Registry Context.
From Stdlib Require Import Strings.Ascii.

(** An [EventGroupProcessor] is its map of handlers by event type. *)
Section handlers.
(** The world the handlers act on. *)
Context {W : Type}.

Record EventHandler : Type := mkEventHandler {
  Handle : values → option Event → W → option error * W;
  EventName : option string;
  EventInstance : option (option Event);
}.

Definition eventHandlerFunc (fn : values → option Event → W → option error * W) : EventHandler :=
  mkEventHandler fn None None.

Definition NewEventHandlerFunc := eventHandlerFunc.

(** [typedEventHandler[T, PT]] with [zero] the value of [new(T)]: the
    assertion [event.(PT)] holds of a pointer to the same type. *)
Definition typed_Handle (zero : Event) (fn : values → Event → W → option error * W) :
    values → option Event → W → option error * W := λ ctx event w,
  let skipped := Some (SkippedEventError event (String.append "*" (ev_GoType zero)) (envelopeFromContext ctx)) in
  match event with
  | Some ev =>
    if bool_decide (ev_GoType ev = ev_GoType zero) && ev_Pointer ev then fn ctx ev w
    else (skipped, w)
  | None => (skipped, w)
  end.

Definition OnEvent (zero : Event) (fn : values → Event → W → option error * W) : EventHandler :=
  mkEventHandler (typed_Handle zero fn) (Some (ev_GoType zero)) (Some (Some (pointer_form zero))).

(** [strings.TrimPrefix(s, "*")] *)
Definition trim_star (s : string) : string :=
  match s with String "*" s' => s' | _ => s end.

Fixpoint add_handlers (hs : list EventHandler) (m : gmap string EventHandler) : outcome (gmap string EventHandler) :=
  match hs with
  | [] => Returns m
  | h :: hs =>
    match EventName h with
    | None => Panics "handler does not have a function `EventName()`"
    | Some name =>
      let name := trim_star name in
      match m !! name with
      | Some _ => Panics "duplicate handler for event"
      | None => add_handlers hs (<[name := h]> m)
      end
    end
  end.

Definition NewEventGroupProcessor (hs : list EventHandler) : outcome (gmap string EventHandler) :=
  add_handlers hs ∅.

Definition group_Handle (p : gmap string EventHandler) (ctx : values) (ev : option Event) (w : W) :
    option error * W :=
  match p !! eventTypeKey ev with
  | None => (Some (SkippedEventError ev "" (envelopeFromContext ctx)), w)
  | Some h => Handle h ctx ev w
  end.

Definition StreamFilter (p : gmap string EventHandler) (r : Registry) : list string :=
  sort_slice string_less
    (concat ((λ '(key, h), match EventInstance h with
                           | Some ev => EventNamesFor ev r
                           | None => eventNamesForKey key r
                           end) <$> map_to_list p)).

(** ** Facts *)

(** Every handler of a group sits under its trimmed name. *)
Lemma add_handlers_spec hs m p :
  add_handlers hs m = Returns p →
  (∀ key h, p !! key = Some h → m !! key = Some h ∨
     (h ∈ hs ∧ trim_star <$> EventName h = Some key)) ∧
  (∀ h, h ∈ hs → ∃ name, EventName h = Some name ∧ p !! trim_star name = Some h) ∧
  (∀ key h, m !! key = Some h → p !! key = Some h).
Proof.
  revert m. induction hs as [|h hs IH]; intros m H; cbn [add_handlers] in H.
  { simplify_eq. split_and!; [by left| |done]. intros h Hin. by apply not_elem_of_nil in Hin. }
  destruct (EventName h) as [name|] eqn:Hname; [|done].
  destruct (m !! trim_star name) eqn:Hm; [done|].
  destruct (IH _ H) as (H1 & H2 & H3). split_and!.
  - intros key h' Hkey. destruct (H1 key h' Hkey) as [Hl|[Hin Hn]].
    + apply lookup_insert_Some in Hl as [[<- <-]|[_ Hl]]; [|by left].
      right. rewrite Hname. split; [by constructor|done].
    + right. split; [by constructor|done].
  - intros h' [->|Hin]%elem_of_cons; [|by apply H2]. exists name. split; [done|].
    apply H3. by rewrite lookup_insert_eq.
  - intros key h' Hkey. apply H3. rewrite lookup_insert_ne; [done|]. congruence.
Qed.

(** Go's type strings have no pointer star once indirection is stripped. *)
Definition base_type (ev : Event) : Prop := trim_star (ev_GoType ev) = ev_GoType ev.

Definition typed (hs : list EventHandler) : Prop :=
  Forall (λ h, ∃ zero fn, h = OnEvent zero fn ∧ base_type zero) hs.

Lemma typed_group hs p key h :
  typed hs → NewEventGroupProcessor hs = Returns p → p !! key = Some h →
  ∃ zero fn, h = OnEvent zero fn ∧ ev_GoType zero = key ∧ h ∈ hs.
Proof.
  intros Ht Hp Hkey. destruct (add_handlers_spec _ _ _ Hp) as (H1 & _).
  destruct (H1 _ _ Hkey) as [Hl|[Hin Hn]]; [by rewrite lookup_empty in Hl|].
  unfold typed in Ht. rewrite Forall_forall in Ht. destruct (Ht h Hin) as (zero & fn & -> & Hb).
  exists zero, fn. split_and!; [done| |done]. cbn in Hn. rewrite Hb in Hn. by simplify_eq.
Qed.

Lemma StreamFilter_elem hs p r name :
  typed hs → NewEventGroupProcessor hs = Returns p →
  name ∈ StreamFilter p r ↔ ∃ key, is_Some (p !! key) ∧ name ∈ eventNamesForKey key r.
Proof.
  intros Ht Hp. unfold StreamFilter. rewrite elem_of_sort_slice, elem_of_concat. split.
  - intros (names & Hn & Hin). apply list_elem_of_fmap in Hin as ([key h] & -> & Hin).
    apply elem_of_map_to_list in Hin. destruct (typed_group _ _ _ _ Ht Hp Hin) as (zero & fn & -> & <- & _).
    exists (ev_GoType zero). split; [by eexists|done].
  - intros (key & [h Hh] & Hn). destruct (typed_group _ _ _ _ Ht Hp Hh) as (zero & fn & -> & <- & _).
    exists (eventNamesForKey (ev_GoType zero) r). split; [done|].
    apply list_elem_of_fmap. eexists (_, _). split; [|by apply elem_of_map_to_list]. done.
Qed.
End handlers.

Arguments EventHandler : clear implicits.

(** An event group of typed handlers and the stream filter it derives from the
    registry agree: a registered event is handled exactly when its name is in
    the filter, and any other is returned as skipped, with its envelope, and
    touches nothing. *)
Theorem group_and_its_filter_agree {W} (hs : list (EventHandler W)) p gs r ctx ev w err w' :
  typed hs → NewEventGroupProcessor hs = Returns p →
  register_all gs emptyRegistry = Returns r →
  ev_EventType ev ∈ EventNamesFor (Some ev) r → ev_Pointer ev = true →
  (∀ h c e w, h ∈ hs → EventName h = Some (ev_GoType e) → ev_Pointer e = true → (Handle h c (Some e) w).1 = None) →
  group_Handle p ctx (Some ev) w = (err, w') →
  (err = None ↔ ev_EventType ev ∈ StreamFilter p r) ∧
  (err ≠ None → w' = w ∧ err = Some (SkippedEventError (Some ev) "" (envelopeFromContext ctx))).
Proof.
  intros Ht Hp Hr Hname Hptr Hok. unfold group_Handle.
  destruct (register_all_inv _ _ _ emptyRegistry_wf Hr) as [Hwf _].
  rewrite (StreamFilter_elem _ _ r _ Ht Hp).
  destruct (p !! eventTypeKey (Some ev)) as [h|] eqn:Hh.
  - destruct (typed_group _ _ _ _ Ht Hp Hh) as (zero & fn & Heq & Htype & Hin). subst h.
    intros HE. cbn in Htype. assert (err = None) as ->.
    { pose proof (Hok _ ctx ev w Hin) as H0. rewrite HE in H0. apply H0; [by rewrite <- Htype|done]. }
    split; [|done]. split; [|done]. intros _. exists (eventTypeKey (Some ev)). split; [by rewrite Hh|done].
  - intros ?; simplify_eq. split; [|done]. split; [done|]. intros (key & [h Hkey] & Hn).
    exfalso. assert (key = eventTypeKey (Some ev)) as ->; [|congruence].
    destruct (wf_named _ Hwf _ _ Hn) as (t1 & Ht1 & Hk1).
    destruct (wf_named _ Hwf _ _ Hname) as (t2 & Ht2 & Hk2). congruence.
Qed.
