(* ===== verification/MemProjStore.v ===== *)
(** * The in-memory projection store ([memory/projection_store.go])

    One definition per method, each an atomic change under [mu].  [Commit] and
    [Reset] run a function of the caller between two looks at the claim: it is
    an arbitrary change of the store and of the read model [M], since other
    instances may call the store while it runs. *)
From S2P Require Import Prelude Core ProjStore.

Record memoryInstance : Type := mkMemInstance {
  mi_version : Z;
  mi_heartbeat : time;
  mi_ttl : duration;
}.

Record memoryReplaySegment : Type := mkReplaySegment { rs_done : bool; rs_err : string }.

Record memoryReplay : Type := mkMemReplay {
  mr_streamID : string;
  mr_segments : gmap Z memoryReplaySegment;
}.

Record memoryRow : Type := mkRow {
  r_cp : Checkpoint;
  r_status : Status;
  r_owner : string;
  r_epoch : Z;
  r_heartbeat : time;
  r_ttl : duration;
  r_deadLetters : list DeadLetter;
}.

Record memoryProjection : Type := mkProjection {
  p_segments : Z;
  p_rows : gmap Z memoryRow;
  p_rebuildsRequested : Z;
  p_rebuildsDone : Z;
  p_rebuildFailed : Z;
  p_rebuildErr : string;
  p_replays : gmap Z memoryReplay;
}.

Record ProjectionStore : Type := mkProjectionStore {
  projections : gmap string memoryProjection;
  replays : Z;
  instances : gmap string (gmap string memoryInstance);
}.

Definition NewProjectionStore : ProjectionStore := mkProjectionStore ∅ 0 ∅.

(** ** Updates in place *)
Definition set_projection (name : string) (p : memoryProjection) (s : ProjectionStore) : ProjectionStore :=
  mkProjectionStore (<[name := p]> (projections s)) (replays s) (instances s).

Definition set_rows (rows : gmap Z memoryRow) (p : memoryProjection) : memoryProjection :=
  mkProjection (p_segments p) rows (p_rebuildsRequested p) (p_rebuildsDone p)
    (p_rebuildFailed p) (p_rebuildErr p) (p_replays p).

Definition set_replays (rs : gmap Z memoryReplay) (p : memoryProjection) : memoryProjection :=
  mkProjection (p_segments p) (p_rows p) (p_rebuildsRequested p) (p_rebuildsDone p)
    (p_rebuildFailed p) (p_rebuildErr p) rs.

(** Writes through the pointer [s.row(l)] returned. *)
Definition set_row (l : Lease) (r : memoryRow) (s : ProjectionStore) : ProjectionStore :=
  match projections s !! l_Name l with
  | None => s
  | Some p => set_projection (l_Name l) (set_rows (<[l_Segment l := r]> (p_rows p)) p) s
  end.

Definition empty_status (phase : Phase) (segment : Z) : Status :=
  mkStatus phase 0 0 0 "" "" segment 0 0 0 false.

Definition set_status_owner (owner : string) (st : Status) : Status :=
  mkStatus (st_Phase st) (st_Position st) (st_Head st) (st_Version st) (st_LastError st) owner
    (st_Segment st) (st_Age st) (st_ReplayUntil st) (st_ClaimTTL st) (st_RebuildRequested st).

Definition set_status_phase (phase : Phase) (st : Status) : Status :=
  mkStatus phase (st_Position st) (st_Head st) (st_Version st) (st_LastError st) (st_Owner st)
    (st_Segment st) (st_Age st) (st_ReplayUntil st) (st_ClaimTTL st) (st_RebuildRequested st).

Definition set_deadLetters (ds : list DeadLetter) (r : memoryRow) : memoryRow :=
  mkRow (r_cp r) (r_status r) (r_owner r) (r_epoch r) (r_heartbeat r) (r_ttl r) ds.

(** ** Declaring and claiming *)
Definition new_row (replayUntil i : Z) : memoryRow :=
  mkRow (mkCheckpoint 0 0 replayUntil "") (empty_status Starting i) "" 0 time_zero 0 [].

(** [Declare], a reserved word here. *)
Definition Declare_ (name : string) (segments replayUntil : Z) (s : ProjectionStore) :
    option error * ProjectionStore :=
  match projections s !! name with
  | None =>
    let rows := list_to_map ((λ i, (i, new_row replayUntil i)) <$> seqZ 0 segments) in
    (None, set_projection name (mkProjection segments rows 0 0 0 "" ∅) s)
  | Some p =>
    if negb (p_segments p =? segments) then (Some (Sentinel ErrSegmentsChanged), s) else (None, s)
  end.

Definition row (l : Lease) (s : ProjectionStore) : option memoryRow :=
  p ← projections s !! l_Name l; p_rows p !! l_Segment l.

Definition owned (l : Lease) (s : ProjectionStore) : option memoryRow :=
  match row l s with
  | None => None
  | Some r =>
    if bool_decide (r_owner r = "") || negb (bool_decide (r_owner r = l_Owner l)) || negb (r_epoch r =? l_Epoch l)
    then None else Some r
  end.

Definition no_lease : Lease := mkLease "" 0 "" 0.
Definition no_checkpoint : Checkpoint := mkCheckpoint 0 0 0 "".

Definition Claim (now : time) (l : Lease) (ttl : duration) (s : ProjectionStore) :
    Lease * Checkpoint * bool * ProjectionStore :=
  match row l s with
  | None => (no_lease, no_checkpoint, false, s)
  | Some r =>
    let held := bool_decide (is_Some (owned l s)) in
    if negb held && negb (bool_decide (r_owner r = "")) && (time_Sub now (r_heartbeat r) <=? r_ttl r)
    then (no_lease, no_checkpoint, false, s)
    else
      let epoch := if held then r_epoch r else u64 (r_epoch r + 1) in
      (mkLease (l_Name l) (l_Segment l) (l_Owner l) epoch, r_cp r, true,
       set_row l (mkRow (r_cp r) (set_status_owner (l_Owner l) (r_status r)) (l_Owner l) epoch now ttl
                    (r_deadLetters r)) s)
  end.

(** ** Units of work *)
Section units.
(** The read model. *)
Context {M : Type}.

Definition unit_fn : Type := ProjectionStore * M → option error * (ProjectionStore * M).

Definition Commit (now : time) (l : Lease) (cp : Checkpoint) (status : Status) (fn : unit_fn)
    (sm : ProjectionStore * M) : option error * (ProjectionStore * M) :=
  match owned l sm.1 with
  | None => (Some (Sentinel ErrClaimLost), sm)
  | Some _ =>
    match fn sm with
    | (Some err, sm) => (Some err, sm)
    | (None, (s, m)) =>
      match owned l s with
      | None => (Some (Sentinel ErrClaimLost), (s, m))
      | Some r =>
        (None, (set_row l (mkRow cp status (r_owner r) (r_epoch r) now (r_ttl r) (r_deadLetters r)) s, m))
      end
    end
  end.

(** One segment's row after a Reset by the holder of segment [seg0]. *)
Definition reset_row (now : time) (newVersion seg0 seg : Z) (r : memoryRow) : memoryRow :=
  let cp := mkCheckpoint 0 newVersion (Z.max (ReplayUntil (r_cp r)) (Position (r_cp r))) "" in
  let st := r_status r in
  let mine := seg =? seg0 in
  let st := mkStatus (if mine then Starting else Standby) 0 0 newVersion ""
              (if mine then st_Owner st else "") (st_Segment st) (st_Age st) (st_ReplayUntil st)
              (st_ClaimTTL st) (st_RebuildRequested st) in
  mkRow cp st (if mine then r_owner r else "") (r_epoch r) (if mine then now else r_heartbeat r) (r_ttl r) [].

Definition reset_projection (now : time) (newVersion seg0 : Z) (p : memoryProjection) : memoryProjection :=
  mkProjection (p_segments p) (map_imap (λ seg r, Some (reset_row now newVersion seg0 seg r)) (p_rows p))
    (p_rebuildsRequested p) (p_rebuildsRequested p) (p_rebuildFailed p) (p_rebuildErr p) ∅.

Definition Reset (now : time) (l : Lease) (newVersion : Z) (wipe : unit_fn)
    (sm : ProjectionStore * M) : option error * (ProjectionStore * M) :=
  match owned l sm.1 with
  | None => (Some (Sentinel ErrClaimLost), sm)
  | Some _ =>
    match wipe sm with
    | (Some err, sm) => (Some err, sm)
    | (None, (s, m)) =>
      match owned l s, projections s !! l_Name l with
      | Some _, Some p =>
        (None, (set_projection (l_Name l) (reset_projection now newVersion (l_Segment l) p) s, m))
      | _, _ => (Some (Sentinel ErrClaimLost), (s, m))
      end
    end
  end.
End units.

Definition Release (l : Lease) (s : ProjectionStore) : ProjectionStore :=
  match owned l s with
  | None => s
  | Some r =>
    set_row l (mkRow (r_cp r) (set_status_phase Standby (set_status_owner "" (r_status r))) "" (r_epoch r)
                 (r_heartbeat r) (r_ttl r) (r_deadLetters r)) s
  end.

Definition SaveStatus (now : time) (l : Lease) (status : Status) (s : ProjectionStore) :
    option error * ProjectionStore :=
  match owned l s with
  | None => (Some (Sentinel ErrClaimLost), s)
  | Some r =>
    let st := r_status r in
    let st := mkStatus (st_Phase status) (st_Position st) (st_Head status) (st_Version st) (st_LastError status)
                (st_Owner st) (st_Segment st) (st_Age st) (st_ReplayUntil st) (st_ClaimTTL st)
                (st_RebuildRequested st) in
    (None, set_row l (mkRow (r_cp r) st (r_owner r) (r_epoch r) now (r_ttl r) (r_deadLetters r)) s)
  end.

Definition loaded_status (now : time) (p : memoryProjection) (i : Z) (r : memoryRow) : Status :=
  let st := r_status r in
  mkStatus (st_Phase st) (Position (r_cp r)) (st_Head st) (cp_Version (r_cp r)) (st_LastError st) (r_owner r) i
    (if negb (time_IsZero (r_heartbeat r)) then time_Sub now (r_heartbeat r) else st_Age st)
    (ReplayUntil (r_cp r))
    (if negb (bool_decide (r_owner r = "")) then r_ttl r else st_ClaimTTL st)
    (p_rebuildsDone p <? p_rebuildsRequested p).

Definition LoadStatuses (now : time) (name : string) (s : ProjectionStore) : list Status :=
  match projections s !! name with
  | None => []
  | Some p => omap (λ i, loaded_status now p i <$> p_rows p !! i) (seqZ 0 (p_segments p))
  end.

(** ** Rebuild requests *)
Definition set_rebuilds (requested done failed : Z) (err : string) (p : memoryProjection) : memoryProjection :=
  mkProjection (p_segments p) (p_rows p) requested done failed err (p_replays p).

Definition RequestRebuild (name : string) (s : ProjectionStore) : result error Z * ProjectionStore :=
  match projections s !! name with
  | None => (Fail (Sentinel ErrUnknownProjection), s)
  | Some p =>
    let n := u64 (p_rebuildsRequested p + 1) in
    (Ok n, set_projection name (set_rebuilds n (p_rebuildsDone p) (p_rebuildFailed p) (p_rebuildErr p) p) s)
  end.

Definition Rebuilds (name : string) (s : ProjectionStore) : Z * Z :=
  match projections s !! name with
  | Some p => (p_rebuildsRequested p, p_rebuildsDone p)
  | None => (0, 0)
  end.

Definition FailRebuild (l : Lease) (requested : Z) (errMsg : string) (s : ProjectionStore) :
    option error * ProjectionStore :=
  match owned l s, projections s !! l_Name l with
  | Some _, Some p =>
    (None, if p_rebuildFailed p <=? requested
           then set_projection (l_Name l)
                  (set_rebuilds (p_rebuildsRequested p) (p_rebuildsDone p) requested errMsg p) s
           else s)
  | _, _ => (Some (Sentinel ErrClaimLost), s)
  end.

Definition RebuildFailure (name : string) (s : ProjectionStore) : Z * string :=
  match projections s !! name with
  | Some p => (p_rebuildFailed p, p_rebuildErr p)
  | None => (0, "")
  end.

(** ** Dead letters *)

Definition SaveDeadLetter (l : Lease) (d : DeadLetter) (s : ProjectionStore) : option error * ProjectionStore :=
  match row l s with
  | None => (Some (Sentinel ErrClaimLost), s)
  | Some r => (None, set_row l (set_deadLetters (insert_dead_letter d (r_deadLetters r)) r) s)
  end.

Definition LoadDeadLetters (name : string) (segment : Z) (s : ProjectionStore) : list DeadLetter :=
  match row (mkLease name segment "" 0) s with None => [] | Some r => r_deadLetters r end.

Definition DeleteDeadLetter (l : Lease) (position : Z) (s : ProjectionStore) : option error * ProjectionStore :=
  match row l s with
  | None => (Some (Sentinel ErrClaimLost), s)
  | Some r =>
    (None, set_row l (set_deadLetters (bfilter (λ d, negb (dl_Position d =? position)) (r_deadLetters r)) r) s)
  end.

(** ** Instances *)
Definition expired (now : time) (m : memoryInstance) : bool := mi_ttl m <? time_Sub now (mi_heartbeat m).

Definition held_by (owner : string) (name : string) (s : ProjectionStore) : Z :=
  match projections s !! name with
  | None => 0
  | Some p => zlen (bfilter (λ '(_, r), negb (bool_decide (r_owner r = "")) && bool_decide (r_owner r = owner))
                      (map_to_list (p_rows p)))
  end.

Definition owner_less (a b : Instance_) : bool := bool_decide (String.compare (in_Owner a) (in_Owner b) = Lt).

Definition liveInstances (name : string) (now : time) (s : ProjectionStore) : list Instance_ :=
  sort_slice owner_less
    (omap (λ '(o, m), if expired now m then None
                      else Some (mkInstance o (mi_version m) (held_by o name s) (time_Sub now (mi_heartbeat m))))
       (map_to_list (default ∅ (instances s !! name)))).

Definition set_instances (name : string) (ms : gmap string memoryInstance) (s : ProjectionStore) : ProjectionStore :=
  mkProjectionStore (projections s) (replays s) (<[name := ms]> (instances s)).

Definition Heartbeat (now : time) (name owner : string) (version : Z) (ttl : duration) (s : ProjectionStore) :
    list Instance_ * ProjectionStore :=
  if ttl =? 0 then
    ([], match instances s !! name with
         | None => s
         | Some ms => set_instances name (delete owner ms) s
         end)
  else
    let ms := <[owner := mkMemInstance version now ttl]> (default ∅ (instances s !! name)) in
    let ms := filter (λ '(_, m), expired now m = false) ms in
    let s := set_instances name ms s in
    (liveInstances name now s, s).

Definition LoadInstances (now : time) (name : string) (s : ProjectionStore) : list Instance_ :=
  liveInstances name now s.

(** ** Replay requests *)
Definition has_letters (streamID : string) (r : memoryRow) : bool :=
  existsb (λ d, bool_decide (dl_StreamID d = streamID)) (r_deadLetters r).

Definition RequestReplay (name streamID : string) (s : ProjectionStore) : result error Z * ProjectionStore :=
  match projections s !! name with
  | None => (Fail (Sentinel ErrUnknownProjection), s)
  | Some p =>
    let segs := (λ _, mkReplaySegment false "") <$> filter (λ '(_, r), has_letters streamID r = true) (p_rows p) in
    if bool_decide (segs = ∅) then (Ok 0, s)
    else
      let n := u64 (replays s + 1) in
      (Ok n, mkProjectionStore
               (<[name := set_replays (<[n := mkMemReplay streamID segs]> (p_replays p)) p]> (projections s))
               n (instances s))
  end.

Definition replay_less (a b : Replay) : bool :=
  (rp_Number a <? rp_Number b) || ((rp_Number a =? rp_Number b) && (rp_Segment a <? rp_Segment b)).

Definition PendingReplays (name : string) (s : ProjectionStore) : list Replay :=
  match projections s !! name with
  | None => []
  | Some p =>
    sort_slice replay_less
      (concat ((λ '(n, req),
         omap (λ '(seg, st), if negb (rs_done st) then Some (mkReplay n (mr_streamID req) seg) else None)
           (map_to_list (mr_segments req))) <$> map_to_list (p_replays p)))
  end.

Definition finished (req : memoryReplay) : bool :=
  forallb (λ '(_, st), rs_done st) (map_to_list (mr_segments req)).

Definition succeeded (req : memoryReplay) : bool :=
  forallb (λ '(_, st), rs_done st && bool_decide (rs_err st = "")) (map_to_list (mr_segments req)).

Definition FinishReplay (l : Lease) (number : Z) (errMsg : string) (s : ProjectionStore) :
    option error * ProjectionStore :=
  match owned l s, projections s !! l_Name l with
  | Some _, Some p =>
    (None,
     match p_replays p !! number with
     | None => s
     | Some req =>
       let req := match mr_segments req !! l_Segment l with
                  | None => req
                  | Some _ => mkMemReplay (mr_streamID req)
                                (<[l_Segment l := mkReplaySegment true errMsg]> (mr_segments req))
                  end in
       let rs := <[number := req]> (p_replays p) in
       let rs := if succeeded req
                 then filter (λ '(n, earlier),
                        (n <=? number) && bool_decide (mr_streamID earlier = mr_streamID req) && finished earlier = false) rs
                 else rs in
       set_projection (l_Name l) (set_replays rs p) s
     end)
  | _, _ => (Some (Sentinel ErrClaimLost), s)
  end.

Definition ReplayResult (name : string) (number : Z) (s : ProjectionStore) : Z * list string :=
  match p ← projections s !! name; p_replays p !! number with
  | None => (0, [])
  | Some req =>
    let segs := sort_slice (λ a b : Z * memoryReplaySegment, a.1 <? b.1) (map_to_list (mr_segments req)) in
    (zlen (bfilter (λ x, negb (rs_done x.2)) segs),
     omap (λ x, if rs_done x.2 && negb (bool_decide (rs_err x.2 = "")) then Some (rs_err x.2) else None) segs)
  end.

(** ** Histories

    Every change of the store is one of these calls.  Commit and Reset appear
    as their final write: before it they only look at the claim, and what
    their function does to the store in between are other calls. *)
Inductive call : Type :=
| CDeclare (name : string) (segments replayUntil : Z)
| CClaim (now : time) (l : Lease) (ttl : duration)
| CCommit (now : time) (l : Lease) (cp : Checkpoint) (status : Status)
| CReset (now : time) (l : Lease) (newVersion : Z)
| CRelease (l : Lease)
| CSaveStatus (now : time) (l : Lease) (status : Status)
| CRequestRebuild (name : string)
| CFailRebuild (l : Lease) (requested : Z) (errMsg : string)
| CSaveDeadLetter (l : Lease) (d : DeadLetter)
| CDeleteDeadLetter (l : Lease) (position : Z)
| CHeartbeat (now : time) (name owner : string) (version : Z) (ttl : duration)
| CRequestReplay (name streamID : string)
| CFinishReplay (l : Lease) (number : Z) (errMsg : string).

Definition no_fn : unit_fn (M := ()) := λ sm, (None, sm).

Definition exec (c : call) (s : ProjectionStore) : ProjectionStore :=
  match c with
  | CDeclare name segments ru => (Declare_ name segments ru s).2
  | CClaim now l ttl => (Claim now l ttl s).2
  | CCommit now l cp status => (Commit now l cp status no_fn (s, ())).2.1
  | CReset now l v => (Reset now l v no_fn (s, ())).2.1
  | CRelease l => Release l s
  | CSaveStatus now l status => (SaveStatus now l status s).2
  | CRequestRebuild name => (RequestRebuild name s).2
  | CFailRebuild l n e => (FailRebuild l n e s).2
  | CSaveDeadLetter l d => (SaveDeadLetter l d s).2
  | CDeleteDeadLetter l pos => (DeleteDeadLetter l pos s).2
  | CHeartbeat now name owner v ttl => (Heartbeat now name owner v ttl s).2
  | CRequestReplay name stream => (RequestReplay name stream s).2
  | CFinishReplay l n e => (FinishReplay l n e s).2
  end.

Definition run (cs : list call) (s : ProjectionStore) : ProjectionStore := foldl (λ s c, exec c s) s cs.

(** ** Rows *)

(** Two leases of the same segment. *)
Definition same_segment (l l' : Lease) : Prop := l_Name l = l_Name l' ∧ l_Segment l = l_Segment l'.

#[export] Instance same_segment_dec l l' : Decision (same_segment l l').
Proof. unfold same_segment. apply _. Defined.

Lemma row_set_row l l' r0 r s :
  row l s = Some r0 → row l' (set_row l r s) = if decide (same_segment l l') then Some r else row l' s.
Proof.
  unfold row, set_row. destruct (projections s !! l_Name l) as [p|] eqn:Hp; [|done].
  intros _. cbn. destruct (decide (same_segment l l')) as [[Hn Hs]|Hns].
  - rewrite <- Hn, <- Hs, lookup_insert_eq. cbn. by rewrite lookup_insert_eq.
  - rewrite lookup_insert. case_decide as Hn; [|done]. rewrite <- Hn, Hp. cbn.
    rewrite lookup_insert_ne; [done|]. intros Hs. by apply Hns.
Qed.

Lemma row_same_segment l l' s : same_segment l l' → row l s = row l' s.
Proof. unfold row. by intros [-> ->]. Qed.

Lemma owned_spec l s r :
  owned l s = Some r ↔ row l s = Some r ∧ r_owner r = l_Owner l ∧ l_Owner l ≠ "" ∧ r_epoch r = l_Epoch l.
Proof.
  unfold owned. destruct (row l s) as [r0|]; [|naive_solver].
  destruct (bool_decide_reflect (r_owner r0 = "")); destruct (bool_decide_reflect (r_owner r0 = l_Owner l));
    destruct (Z.eqb_spec (r_epoch r0) (l_Epoch l)); cbn; naive_solver congruence.
Qed.

Lemma owned_row l s r : owned l s = Some r → row l s = Some r.
Proof. rewrite owned_spec. tauto. Qed.

Lemma row_ext l s s' : projections s' = projections s → row l s' = row l s.
Proof. unfold row. by intros ->. Qed.

(** Replacing a projection without touching its rows. *)
Lemma row_set_projection name p p' s l :
  projections s !! name = Some p → p_rows p' = p_rows p → row l (set_projection name p' s) = row l s.
Proof.
  intros Hp Hr. unfold row, set_projection; cbn. rewrite lookup_insert.
  case_decide as Hn; [|done]. subst name. by rewrite Hp; cbn; rewrite Hr.
Qed.

Lemma row_reset now name v seg0 p s l :
  projections s !! name = Some p →
  row l (set_projection name (reset_projection now v seg0 p) s)
  = if decide (l_Name l = name) then reset_row now v seg0 (l_Segment l) <$> row l s else row l s.
Proof.
  intros Hp. unfold row, set_projection, reset_projection; cbn. rewrite lookup_insert.
  case_decide as Hn; case_decide as Hn'; try congruence. subst name. rewrite Hp. cbn.
  rewrite map_lookup_imap. by destruct (p_rows p !! l_Segment l).
Qed.

(** How a call may change a row it does not create. *)
Inductive row_change (c : call) (l : Lease) (r : memoryRow) : memoryRow → Prop :=
| rc_same : row_change c l r r
| rc_claim now lc ttl :
    c = CClaim now lc ttl → same_segment lc l →
    (r_owner r ≠ "" → (r_owner r = l_Owner lc ∧ r_epoch r = l_Epoch lc) ∨ r_ttl r < time_Sub now (r_heartbeat r)) →
    row_change c l r (mkRow (r_cp r) (set_status_owner (l_Owner lc) (r_status r)) (l_Owner lc)
      (if bool_decide (r_owner r ≠ "" ∧ r_owner r = l_Owner lc ∧ r_epoch r = l_Epoch lc)
       then r_epoch r else u64 (r_epoch r + 1)) now ttl (r_deadLetters r))
| rc_commit now lc cp status :
    c = CCommit now lc cp status → same_segment lc l → r_owner r = l_Owner lc → r_epoch r = l_Epoch lc →
    r_owner r ≠ "" →
    row_change c l r (mkRow cp status (r_owner r) (r_epoch r) now (r_ttl r) (r_deadLetters r))
| rc_reset now lc v :
    c = CReset now lc v → l_Name lc = l_Name l →
    row_change c l r (reset_row now v (l_Segment lc) (l_Segment l) r)
| rc_release lc st :
    c = CRelease lc → same_segment lc l →
    row_change c l r (mkRow (r_cp r) st "" (r_epoch r) (r_heartbeat r) (r_ttl r) (r_deadLetters r))
| rc_status now lc st st' :
    c = CSaveStatus now lc st → same_segment lc l →
    row_change c l r (mkRow (r_cp r) st' (r_owner r) (r_epoch r) now (r_ttl r) (r_deadLetters r))
| rc_letter lc d :
    c = CSaveDeadLetter lc d → same_segment lc l →
    row_change c l r (set_deadLetters (insert_dead_letter d (r_deadLetters r)) r)
| rc_delete lc pos :
    c = CDeleteDeadLetter lc pos → same_segment lc l →
    row_change c l r (set_deadLetters (bfilter (λ d, negb (dl_Position d =? pos)) (r_deadLetters r)) r).

Lemma row_change_set c lc l rc r r' s :
  row lc s = Some rc → row l s = Some r → (same_segment lc l → row_change c l rc r') →
  ∃ r1, row l (set_row lc r' s) = Some r1 ∧ row_change c l r r1.
Proof.
  intros Hlc Hl HC. rewrite (row_set_row _ _ _ _ _ Hlc). case_decide as Hs.
  - exists r'. split; [done|]. rewrite (row_same_segment _ _ _ Hs) in Hlc. simplify_eq. auto.
  - exists r. split; [done|constructor].
Qed.

Lemma proj_exec_row c l s r : row l s = Some r → ∃ r', row l (exec c s) = Some r' ∧ row_change c l r r'.
Proof.
  intros Hl. destruct c as [name segs ru|now lc ttl|now lc cp st|now lc v|lc|now lc st|name|lc n e|lc d|lc pos
    |now name owner v ttl|name stream|lc n e]; cbn [exec].
  - unfold Declare_. destruct (projections s !! name) as [p|] eqn:Hp.
    + destruct (negb _); exists r; (split; [done|constructor]).
    + exists r. split; [|constructor]. unfold row, set_projection; cbn. rewrite lookup_insert_ne; [done|].
      intros ->. unfold row in Hl. by rewrite Hp in Hl.
  - unfold Claim. destruct (row lc s) as [rc|] eqn:Hrc; [|by exists r; split; [|constructor]].
    destruct (_ && _) eqn:Hcond; [by exists r; split; [|constructor]|]. cbn [snd].
    apply (row_change_set _ _ _ _ _ _ _ Hrc Hl). intros Hs.
    assert (is_Some (owned lc s) ↔ r_owner rc ≠ "" ∧ r_owner rc = l_Owner lc ∧ r_epoch rc = l_Epoch lc) as Hiff.
    { split.
      - intros [r0 (Hr0 & ? & ? & ?)%owned_spec]. simplify_eq. split_and!; [congruence|done..].
      - intros (? & ? & ?). exists rc. apply owned_spec. split_and!; [done..|congruence|done]. }
    rewrite (bool_decide_ext _ _ Hiff). eapply rc_claim; [done|done|]. intros Hne.
    destruct (bool_decide_reflect (is_Some (owned lc s))) as [Hh|Hh]; [left; tauto|right].
    cbn in Hcond. rewrite bool_decide_false in Hcond by done. cbn in Hcond. by apply Z.leb_gt in Hcond.
  - unfold Commit, no_fn; cbn. destruct (owned lc s) as [rc|] eqn:Ho; [|by exists r; split; [|constructor]]. cbn.
    rewrite ?Ho. cbn. apply owned_spec in Ho as (Hrc & ? & ? & ?).
    apply (row_change_set _ _ _ _ _ _ _ Hrc Hl). intros Hs. eapply rc_commit; (done || congruence).
  - unfold Reset, no_fn; cbn. destruct (owned lc s) as [rc|] eqn:Ho; [|by exists r; split; [|constructor]]. cbn.
    rewrite ?Ho. destruct (projections s !! l_Name lc) as [p|] eqn:Hp; [|by exists r; split; [|constructor]]. cbn.
    rewrite (row_reset _ _ _ _ _ _ _ Hp). case_decide as Hn; [|by exists r; split; [|constructor]].
    rewrite Hl. cbn. eexists. split; [done|]. by eapply rc_reset.
  - unfold Release. destruct (owned lc s) as [rc|] eqn:Ho; [|by exists r; split; [|constructor]].
    apply (row_change_set _ _ _ _ _ _ _ (owned_row _ _ _ Ho) Hl). intros. by eapply rc_release.
  - unfold SaveStatus. destruct (owned lc s) as [rc|] eqn:Ho; [|by exists r; split; [|constructor]]. cbn [snd].
    apply (row_change_set _ _ _ _ _ _ _ (owned_row _ _ _ Ho) Hl). intros. by eapply rc_status.
  - unfold RequestRebuild. destruct (projections s !! name) as [p|] eqn:Hp; [|by exists r; split; [|constructor]].
    cbn [snd]. rewrite (row_set_projection _ _ _ _ _ Hp) by done. by exists r; split; [|constructor].
  - unfold FailRebuild. destruct (owned lc s), (projections s !! l_Name lc) as [p|] eqn:Hp;
      try by exists r; split; [|constructor]. cbn [snd]. destruct (_ <=? _); [|by exists r; split; [|constructor]].
    rewrite (row_set_projection _ _ _ _ _ Hp) by done. by exists r; split; [|constructor].
  - unfold SaveDeadLetter. destruct (row lc s) as [rc|] eqn:Hrc; [|by exists r; split; [|constructor]]. cbn [snd].
    apply (row_change_set _ _ _ _ _ _ _ Hrc Hl). intros. by eapply rc_letter.
  - unfold DeleteDeadLetter. destruct (row lc s) as [rc|] eqn:Hrc; [|by exists r; split; [|constructor]]. cbn [snd].
    apply (row_change_set _ _ _ _ _ _ _ Hrc Hl). intros. by eapply rc_delete.
  - exists r. split; [|constructor]. unfold Heartbeat. destruct (ttl =? 0); cbn; [by destruct (instances s !! name)|done].
  - unfold RequestReplay. destruct (projections s !! name) as [p|] eqn:Hp; [|by exists r; split; [|constructor]].
    case_bool_decide; [by exists r; split; [|constructor]|]. exists r. split; [|constructor].
    rewrite <- Hl. cbn [snd]. unfold row; cbn. rewrite lookup_insert. case_decide as Hn; [|done]. subst name. by rewrite Hp.
  - unfold FinishReplay. destruct (owned lc s), (projections s !! l_Name lc) as [p|] eqn:Hp;
      try by exists r; split; [|constructor]. cbn [snd].
    destruct (p_replays p !! n); [|by exists r; split; [|constructor]].
    rewrite (row_set_projection _ _ _ _ _ Hp) by done. by exists r; split; [|constructor].
Qed.

(** Only [Declare_] creates a row. *)
Lemma row_set_row_None l l' rc r s : row l s = Some rc → row l' s = None → row l' (set_row l r s) = None.
Proof.
  intros Hl Hl'. rewrite (row_set_row _ _ _ _ _ Hl). case_decide as Hs; [|done].
  by rewrite (row_same_segment _ _ _ Hs), Hl' in Hl.
Qed.

Lemma exec_new_row c l s r :
  row l s = None → row l (exec c s) = Some r → ∃ ru, r = new_row ru (l_Segment l).
Proof.
  intros Hl. destruct c as [name segs ru|now lc ttl|now lc cp st|now lc v|lc|now lc st|name|lc n e|lc d|lc pos
    |now name owner v ttl|name stream|lc n e]; cbn [exec].
  - unfold Declare_. destruct (projections s !! name) as [p|] eqn:Hp; [destruct (negb _); cbn; congruence|].
    cbn [snd]. unfold row, set_projection; cbn. rewrite lookup_insert. case_decide as Hn.
    + cbn. intros H%elem_of_list_to_map_2. apply list_elem_of_fmap in H as (i & [= -> ->] & _). by exists ru.
    + unfold row in Hl. congruence.
  - unfold Claim. destruct (row lc s) as [rc|] eqn:Hrc; [|cbn; congruence].
    destruct (_ && _); cbn [snd]; [congruence|]. by rewrite (row_set_row_None _ _ _ _ _ Hrc Hl).
  - unfold Commit, no_fn; cbn. destruct (owned lc s) as [rc|] eqn:Ho; cbn; [|congruence]. rewrite ?Ho. cbn.
    by rewrite (row_set_row_None _ _ _ _ _ (owned_row _ _ _ Ho) Hl).
  - unfold Reset, no_fn; cbn. destruct (owned lc s) as [rc|] eqn:Ho; cbn; [|congruence]. rewrite ?Ho.
    destruct (projections s !! l_Name lc) as [p|] eqn:Hp; cbn; [|congruence].
    rewrite (row_reset _ _ _ _ _ _ _ Hp), Hl. by case_decide.
  - unfold Release. destruct (owned lc s) as [rc|] eqn:Ho; [|congruence].
    by rewrite (row_set_row_None _ _ _ _ _ (owned_row _ _ _ Ho) Hl).
  - unfold SaveStatus. destruct (owned lc s) as [rc|] eqn:Ho; cbn [snd]; [|congruence].
    by rewrite (row_set_row_None _ _ _ _ _ (owned_row _ _ _ Ho) Hl).
  - unfold RequestRebuild. destruct (projections s !! name) as [p|] eqn:Hp; cbn [snd]; [|congruence].
    rewrite (row_set_projection _ _ _ _ _ Hp) by done. congruence.
  - unfold FailRebuild. destruct (owned lc s), (projections s !! l_Name lc) as [p|] eqn:Hp; cbn [snd]; try congruence.
    destruct (_ <=? _); [|congruence]. rewrite (row_set_projection _ _ _ _ _ Hp) by done. congruence.
  - unfold SaveDeadLetter. destruct (row lc s) as [rc|] eqn:Hrc; cbn [snd]; [|congruence].
    by rewrite (row_set_row_None _ _ _ _ _ Hrc Hl).
  - unfold DeleteDeadLetter. destruct (row lc s) as [rc|] eqn:Hrc; cbn [snd]; [|congruence].
    by rewrite (row_set_row_None _ _ _ _ _ Hrc Hl).
  - unfold Heartbeat. destruct (ttl =? 0); cbn; [destruct (instances s !! name)|];
      unfold row in *; cbn; congruence.
  - unfold RequestReplay. destruct (projections s !! name) as [p|] eqn:Hp; cbn [snd]; [|congruence].
    case_bool_decide; cbn [snd]; [congruence|]. unfold row in *; cbn. rewrite lookup_insert. case_decide as Hn; [|congruence].
    subst name. rewrite Hp in Hl. cbn in *. congruence.
  - unfold FinishReplay. destruct (owned lc s), (projections s !! l_Name lc) as [p|] eqn:Hp; cbn [snd]; try congruence.
    destruct (p_replays p !! n); [|congruence]. rewrite (row_set_projection _ _ _ _ _ Hp) by done. congruence.
Qed.

(** An invariant of rows holds in every history. *)
Lemma row_invariant (P : memoryRow → Prop) :
  (∀ ru i, P (new_row ru i)) → (∀ c l r r', P r → row_change c l r r' → P r') →
  ∀ cs l r, row l (run cs NewProjectionStore) = Some r → P r.
Proof.
  intros Hnew Hstep cs. induction cs as [|c cs IH] using rev_ind; intros l r.
  - unfold row; cbn. by rewrite lookup_empty.
  - unfold run. rewrite foldl_app. fold (run cs NewProjectionStore). cbn [foldl].
    destruct (row l (run cs NewProjectionStore)) as [r0|] eqn:Hl.
    + destruct (proj_exec_row c _ _ _ Hl) as (r' & Hr' & HC). rewrite Hr'. intros [= <-]. eauto.
    + intros Hr. destruct (exec_new_row _ _ _ _ Hl Hr) as [ru ->]. apply Hnew.
Qed.

(** ** Epochs *)
Definition holds (l : Lease) (r : memoryRow) : Prop :=
  r_owner r = l_Owner l ∧ l_Owner l ≠ "" ∧ r_epoch r = l_Epoch l.

Lemma owned_holds l s r : owned l s = Some r ↔ row l s = Some r ∧ holds l r.
Proof. rewrite owned_spec. unfold holds. tauto. Qed.

Lemma proj_row_change_epoch c l r r' :
  row_change c l r r' → 0 ≤ r_epoch r → r_epoch r + 1 < two64 →
  r_epoch r ≤ r_epoch r' ≤ r_epoch r + 1 ∧
  (r_epoch r' = r_epoch r → r_owner r' = r_owner r ∨ r_owner r' = "").
Proof.
  intros HC H0 Hb.
  destruct HC; cbn [r_epoch r_owner set_deadLetters reset_row]; try (split; [lia|auto]); [|by destruct (_ =? _); auto].
  case_bool_decide as Hd; [split; [lia|]; intuition congruence|].
  rewrite u64_small by (unfold is_u64; lia). split; lia.
Qed.

Lemma holds_stale c l r r' :
  row_change c l r r' → 0 ≤ r_epoch r → r_epoch r + 1 < two64 → l_Epoch l ≤ r_epoch r → ¬ holds l r →
  ¬ holds l r' ∧ l_Epoch l ≤ r_epoch r'.
Proof.
  intros HC H0 Hb Hle Hn. destruct (proj_row_change_epoch _ _ _ _ HC H0 Hb) as [He Ho]. split; [|lia].
  intros (H1 & H2 & H3). apply Hn. assert (r_epoch r = l_Epoch l) as Heq by lia.
  split_and!; [|done|done]. destruct (Ho ltac:(lia)); congruence.
Qed.

Lemma proj_run_rows cs l s r :
  row l s = Some r → 0 ≤ r_epoch r → r_epoch r + zlen cs < two64 →
  ∃ r', row l (run cs s) = Some r' ∧ r_epoch r ≤ r_epoch r' ≤ r_epoch r + zlen cs ∧
    (¬ holds l r → l_Epoch l ≤ r_epoch r → ¬ holds l r').
Proof.
  revert s r. induction cs as [|c cs IH]; intros s r Hr H0 Hb; [exists r; rewrite zlen_nil; split_and!; (done || lia)|].
  rewrite zlen_cons in *. pose proof (zlen_nonneg cs).
  destruct (proj_exec_row c _ _ _ Hr) as (r1 & Hr1 & HC).
  destruct (proj_row_change_epoch _ _ _ _ HC H0 ltac:(lia)) as [He _].
  destruct (IH _ _ Hr1 ltac:(lia) ltac:(lia)) as (r' & Hr' & He' & Hst).
  exists r'. split; [exact Hr'|]. split; [lia|]. intros Hn Hle. 
  destruct (holds_stale _ _ _ _ HC H0 ltac:(lia) Hle Hn). auto.
Qed.

(** ** Properties *)

(** C6: A claim that was lost once is fenced for good.  Once a lease is no longer
    the owner of its segment, no later call of anyone can make it the owner
    again: Commit, Reset, SaveStatus, FailRebuild and FinishReplay refuse it
    with ErrClaimLost without running their function or changing anything, and
    Release does nothing. *)
Theorem lost_lease_is_fenced_forever {M} l r cs1 cs2 s now v cp st n msg (fn : unit_fn (M := M)) (m : M) :
  owned l s = Some r → 0 ≤ r_epoch r → r_epoch r + zlen cs1 + zlen cs2 < two64 →
  owned l (run cs1 s) = None →
  let s' := run cs2 (run cs1 s) in
  Commit now l cp st fn (s', m) = (Some (Sentinel ErrClaimLost), (s', m)) ∧
  Reset now l v fn (s', m) = (Some (Sentinel ErrClaimLost), (s', m)) ∧
  SaveStatus now l st s' = (Some (Sentinel ErrClaimLost), s') ∧
  FailRebuild l n msg s' = (Some (Sentinel ErrClaimLost), s') ∧
  FinishReplay l n msg s' = (Some (Sentinel ErrClaimLost), s') ∧
  Release l s' = s'.
Proof.
  intros Ho H0 Hb Hlost s'. pose proof (zlen_nonneg cs1). pose proof (zlen_nonneg cs2).
  apply owned_holds in Ho as [Hr (Hh1 & Hh2 & Hh3)].
  destruct (proj_run_rows cs1 l s r Hr H0 ltac:(lia)) as (r1 & Hr1 & He1 & _).
  assert (¬ holds l r1) as Hn1.
  { intros Hh. assert (owned l (run cs1 s) = Some r1) by by apply owned_holds. congruence. }
  destruct (proj_run_rows cs2 l _ r1 Hr1 ltac:(lia) ltac:(lia)) as (r2 & Hr2 & He2 & Hst).
  assert (owned l s' = None) as Hno.
  { apply eq_None_not_Some. intros [r3 Hr3]. apply owned_holds in Hr3 as [Hr3 Hh]. unfold s' in Hr3.
    rewrite Hr2 in Hr3. simplify_eq. apply (Hst Hn1); [lia|done]. }
  unfold Commit, Reset, SaveStatus, FailRebuild, FinishReplay, Release. cbn [fst]. by rewrite Hno.
Qed.

(** A granted claim returns the segment's checkpoint and makes its lease the only
    owner.  It renews a claim its holder still has, and takes over only a
    segment without owner or one whose heartbeat is older than its ttl, with a
    larger epoch. *)
Theorem Claim_is_exclusive now l ttl s l' cp s' r :
  row l s = Some r → l_Owner l ≠ "" → 0 ≤ r_epoch r → r_epoch r + 1 < two64 →
  Claim now l ttl s = (l', cp, true, s') →
  cp = r_cp r ∧
  (∃ r', owned l' s' = Some r' ∧ r_cp r' = r_cp r ∧ r_heartbeat r' = now ∧ r_ttl r' = ttl) ∧
  (is_Some (owned l s) → l' = l) ∧
  (owned l s = None →
     (r_owner r = "" ∨ r_ttl r < time_Sub now (r_heartbeat r)) ∧ r_epoch r < l_Epoch l') ∧
  (∀ l2, same_segment l l2 → is_Some (owned l2 s') → l_Owner l2 = l_Owner l' ∧ l_Epoch l2 = l_Epoch l').
Proof.
  intros Hr Hne H0 Hb. unfold Claim. rewrite Hr.
  destruct (_ && _) eqn:Hcond; [done|]. intros ?; simplify_eq. split; [done|].
  assert (∀ r1, row l (set_row l r1 s) = Some r1) as Hset.
  { intros r1. rewrite (row_set_row _ _ _ _ _ Hr), decide_True; [done|by split]. }
  set (ep := if bool_decide (is_Some (owned l s)) then _ else _) in *. split.
  { eexists. split; [apply owned_holds; split; [apply Hset|by split_and!]|done]. }
  split_and!.
  - intros Ho. unfold ep. rewrite bool_decide_true by done. destruct Ho as [r0 (Hr0 & _ & _ & He)%owned_spec].
    simplify_eq. rewrite He. by destruct l.
  - intros Ho. unfold ep. rewrite Ho in *. rewrite bool_decide_false in * by (by intros []). cbn in *.
    rewrite u64_small by (unfold is_u64; lia). split; [|lia].
    destruct (bool_decide_reflect (r_owner r = "")); [by left|right]. cbn in Hcond. by apply Z.leb_gt in Hcond.
  - intros l2 Hs [r2 (Hr2 & H1 & H2 & H3)%owned_spec].
    rewrite <- (row_same_segment _ _ _ Hs), Hset in Hr2. simplify_eq/=. done.
Qed.

(** Commit checks the claim before and after its function.  A success means the
    lease held the segment both times and the row carries exactly the new
    checkpoint and status, every other segment being untouched; an error means
    the function was not run, or its own error is returned, or the claim was
    lost while it ran, and the checkpoint did not move. *)
Theorem Commit_is_all_or_nothing {M} now l cp status (fn : unit_fn (M := M)) s m err s' m' :
  Commit now l cp status fn (s, m) = (err, (s', m')) →
  match err with
  | None => is_Some (owned l s) ∧ ∃ s1 r, fn (s, m) = (None, (s1, m')) ∧ owned l s1 = Some r ∧
      row l s' = Some (mkRow cp status (r_owner r) (r_epoch r) now (r_ttl r) (r_deadLetters r)) ∧
      (∀ l2, ¬ same_segment l l2 → row l2 s' = row l2 s1)
  | Some e =>
      (owned l s = None ∧ e = Sentinel ErrClaimLost ∧ s' = s ∧ m' = m) ∨
      fn (s, m) = (Some e, (s', m')) ∨
      (fn (s, m) = (None, (s', m')) ∧ owned l s' = None ∧ e = Sentinel ErrClaimLost)
  end.
Proof.
  unfold Commit. cbn [fst]. destruct (owned l s) as [r0|] eqn:Ho; [|intros ?; simplify_eq; by left].
  destruct (fn (s, m)) as [[e|] [s1 m1]] eqn:Hfn; [intros ?; simplify_eq; right; by left|].
  destruct (owned l s1) as [r|] eqn:Ho1; intros ?; simplify_eq; [|right; by right].
  split; [by eexists|]. exists s1, r. pose proof (owned_row _ _ _ Ho1) as Hr.
  split_and!; [done..| |].
  - rewrite (row_set_row _ _ _ _ _ Hr), decide_True; [done|by split].
  - intros l2 Hn. by rewrite (row_set_row _ _ _ _ _ Hr), decide_False.
Qed.

(** A segment's checkpoint changes only by a Commit of a lease that owns the
    segment, to the committed value, or by a Reset of an owner of one of the
    projection's segments, to position 0 with its old position remembered as
    replayed. *)
Theorem checkpoint_moves_only_by_its_owner c l s r r' :
  row l s = Some r → row l (exec c s) = Some r' → r_cp r' ≠ r_cp r →
  (∃ now lc cp status, c = CCommit now lc cp status ∧ same_segment lc l ∧ is_Some (owned lc s) ∧ r_cp r' = cp) ∨
  (∃ now lc v, c = CReset now lc v ∧ l_Name lc = l_Name l ∧ is_Some (owned lc s) ∧
     Position (r_cp r') = 0 ∧ cp_Version (r_cp r') = v ∧
     ReplayUntil (r_cp r') = Z.max (ReplayUntil (r_cp r)) (Position (r_cp r))).
Proof.
  intros Hr Hr' Hne. destruct (proj_exec_row c _ _ _ Hr) as (r1 & Hr1 & HC). rewrite Hr1 in Hr'. simplify_eq.
  destruct HC as [|now lc ttl Hc Hs|now lc cp status Hc Hs How Hep Hnn|now lc v Hc Hn| | | |]; try done.
  - left. exists now, lc, cp, status. split_and!; [done..| |done]. exists r. apply owned_spec.
    rewrite (row_same_segment _ _ _ Hs). split_and!; (done || congruence).
  - right. exists now, lc, v. split_and!; [done..| |done|done|done].
    destruct (owned lc s) eqn:Ho; [by eexists|]. subst c. cbn in Hr1. unfold Reset in Hr1. cbn in Hr1.
    rewrite Ho in Hr1. cbn in Hr1. rewrite Hr in Hr1. injection Hr1 as Hr1. by rewrite <- Hr1 in Hne.
Qed.

(** A successful Reset, after its wipe, puts every segment of the projection back
    to the start, drops all dead letters and replay requests and marks every
    rebuild request as done; its caller keeps its segment and every other
    owner loses its claim. *)
Theorem Reset_rebuilds_every_segment {M} now l v (wipe : unit_fn (M := M)) s m s' m' :
  Reset now l v wipe (s, m) = (None, (s', m')) →
  ∃ s1 p, wipe (s, m) = (None, (s1, m')) ∧ projections s1 !! l_Name l = Some p ∧ is_Some (owned l s1) ∧
    is_Some (owned l s') ∧
    Rebuilds (l_Name l) s' = (p_rebuildsRequested p, p_rebuildsRequested p) ∧
    PendingReplays (l_Name l) s' = [] ∧
    ∀ l2, l_Name l2 = l_Name l →
      row l2 s' = reset_row now v (l_Segment l) (l_Segment l2) <$> row l2 s1 ∧
      LoadDeadLetters (l_Name l2) (l_Segment l2) s' = [] ∧
      (is_Some (owned l2 s') → same_segment l l2 ∧ l_Owner l2 = l_Owner l ∧ l_Epoch l2 = l_Epoch l).
Proof.
  unfold Reset. cbn [fst]. destruct (owned l s) as [r0|] eqn:Ho; [|done].
  destruct (wipe (s, m)) as [[e|] [s1 m1]] eqn:Hfn; [done|].
  destruct (owned l s1) as [r|] eqn:Ho1; [|done]. destruct (projections s1 !! l_Name l) as [p|] eqn:Hp; [|done].
  intros ?; simplify_eq. exists s1, p. pose proof Ho1 as (Hr & Hown & Hne & Hep)%owned_spec.
  assert (∀ l2, l_Name l2 = l_Name l →
    row l2 (set_projection (l_Name l) (reset_projection now v (l_Segment l) p) s1)
    = reset_row now v (l_Segment l) (l_Segment l2) <$> row l2 s1) as Hrow.
  { intros l2 Hn. by rewrite (row_reset _ _ _ _ _ _ _ Hp), decide_True. }
  split_and!; [done..| | | |].
  - exists (reset_row now v (l_Segment l) (l_Segment l) r). apply owned_spec. rewrite Hrow, Hr by done.
    cbn. by rewrite Z.eqb_refl.
  - unfold Rebuilds, set_projection; cbn. by rewrite lookup_insert_eq.
  - unfold PendingReplays, set_projection; cbn. rewrite lookup_insert_eq. cbn. by rewrite map_to_list_empty.
  - intros l2 Hn. split_and!; [by apply Hrow| |].
    + unfold LoadDeadLetters. rewrite Hrow by done. by destruct (row (mkLease (l_Name l2) (l_Segment l2) "" 0) s1).
    + intros [r2 (Hr2 & H1 & H2 & H3)%owned_spec]. rewrite Hrow in Hr2 by done.
      destruct (row l2 s1) as [r3|] eqn:Hr3; [|done]. cbn in Hr2. simplify_eq/=.
      destruct (Z.eqb_spec (l_Segment l2) (l_Segment l)) as [Heq|]; cbn in *; [|congruence].
      assert (same_segment l l2) as Hs by by split. split; [done|].
      rewrite (row_same_segment _ _ _ Hs) in Hr. simplify_eq. split; congruence.
Qed.

(** After any history of calls the dead letters of every segment are in the order
    of their positions in the log. *)
Theorem dead_letters_stay_in_log_order cs name segment :
  StronglySorted by_position (LoadDeadLetters name segment (run cs NewProjectionStore)).
Proof.
  unfold LoadDeadLetters. destruct (row _ _) as [r|] eqn:Hr; [|constructor].
  revert Hr. apply (row_invariant (λ r, StronglySorted by_position (r_deadLetters r))); [constructor|].
  intros c l r0 r' H HC. destruct HC; cbn; try done; [constructor| |].
  - by apply insert_dead_letter_sorted.
  - by apply StronglySorted_bfilter.
Qed.

(** ** Replay requests *)
Lemma elem_of_PendingReplays name s rp :
  rp ∈ PendingReplays name s ↔
  ∃ p req st, projections s !! name = Some p ∧ p_replays p !! rp_Number rp = Some req ∧
    mr_streamID req = rp_StreamID rp ∧ mr_segments req !! rp_Segment rp = Some st ∧ rs_done st = false.
Proof.
  unfold PendingReplays. destruct (projections s !! name) as [p|].
  2: { split; [intros H; by apply not_elem_of_nil in H|naive_solver]. }
  rewrite elem_of_sort_slice, elem_of_concat. split.
  - intros (rps & Hin & Hrps). apply list_elem_of_fmap in Hrps as ([n req] & -> & Hn).
    apply elem_of_map_to_list in Hn. apply list_elem_of_omap in Hin as ([seg st] & Hst & Heq).
    apply elem_of_map_to_list in Hst. destruct (rs_done st) eqn:Hd; simplify_eq/=. by exists p, req, st.
  - intros (p' & req & st & ? & Hreq & Hs & Hst & Hd). simplify_eq. eexists. split.
    2: { apply list_elem_of_fmap. exists (rp_Number rp, req). split; [done|]. by apply elem_of_map_to_list. }
    apply list_elem_of_omap. exists (rp_Segment rp, st). split; [by apply elem_of_map_to_list|].
    rewrite Hd; cbn. rewrite Hs. by destruct rp.
Qed.

Lemma finished_spec req :
  finished req = true ↔ ∀ seg st, mr_segments req !! seg = Some st → rs_done st = true.
Proof.
  unfold finished. rewrite forallb_elem. split.
  - intros H seg st Hst. by apply (H (seg, st)), elem_of_map_to_list.
  - intros H [seg st] Hin%elem_of_map_to_list. eauto.
Qed.

(** A replay request for a stream is recorded for exactly the segments that have
    dead letters of that stream, under a fresh number that is larger than
    every earlier one, and leaves the other pending replays as they were; with
    no such segment the number is 0 and nothing is requested. *)
Theorem RequestReplay_reaches_every_parked_segment name stream s n s' :
  0 ≤ replays s → replays s + 1 < two64 →
  (∀ p k, projections s !! name = Some p → is_Some (p_replays p !! k) → k ≤ replays s) →
  RequestReplay name stream s = (Ok n, s') →
  (n = 0 ↔ ∀ seg, ¬ ∃ r, row (mkLease name seg "" 0) s = Some r ∧ has_letters stream r = true) ∧
  (n ≠ 0 → replays s < n ∧ replays s' = n) ∧
  (∀ rp, rp ∈ PendingReplays name s' ↔
     rp ∈ PendingReplays name s ∨
     (n ≠ 0 ∧ rp_Number rp = n ∧ rp_StreamID rp = stream ∧
      ∃ r, row (mkLease name (rp_Segment rp) "" 0) s = Some r ∧ has_letters stream r = true)).
Proof.
  intros H0 Hb Hkeys. unfold RequestReplay. cbv zeta. destruct (projections s !! name) as [p|] eqn:Hp; [|done].
  set (segs := (λ _, mkReplaySegment false "") <$> filter _ (p_rows p)).
  assert (∀ seg st, segs !! seg = Some st ↔
    st = mkReplaySegment false "" ∧ ∃ r, row (mkLease name seg "" 0) s = Some r ∧ has_letters stream r = true) as Hsegs.
  { intros seg st. unfold segs, row; cbn. rewrite Hp, lookup_fmap_Some; cbn.
    setoid_rewrite map_lookup_filter_Some. naive_solver. }
  clearbody segs. case_bool_decide as He.
  - intros [= <- <-]. split_and!; [| done |].
    + split; [|done]. intros _ seg (r & Hr & Hl).
      assert (segs !! seg = Some (mkReplaySegment false "")) as Hs by (apply Hsegs; eauto).
      by rewrite He, lookup_empty in Hs.
    + intros rp. split; [by left|]. by intros [?|[? _]].
  - rewrite u64_small by (unfold is_u64; lia). intros [= <- <-]. split_and!.
    + split; [lia|]. intros Hno. exfalso. apply He. apply map_empty. intros seg.
      apply eq_None_not_Some. intros [st Hst]. apply Hsegs in Hst as [_ Hst]. by apply (Hno seg).
    + cbn. intros _. lia.
    + intros rp. rewrite !elem_of_PendingReplays; cbn. rewrite lookup_insert_eq, Hp. split.
      * intros (p' & req & st & ? & Hreq & Hs & Hst & Hd). simplify_eq. cbn in Hreq.
        apply lookup_insert_Some in Hreq as [[Hn <-]|[Hn Hreq]]; [right|left].
        -- cbn in Hst, Hs. apply Hsegs in Hst as [-> Hst]. split_and!; (done || lia).
        -- by exists p, req, st.
      * intros [(p' & req & st & ? & Hreq & Hs & Hst & Hd)|(_ & Hn & Hs & Hr)]; simplify_eq; eexists _.
        -- exists req, st. split_and!; [done| |done..]. cbn. rewrite lookup_insert_ne; [done|].
           assert (rp_Number rp ≤ replays s) by (eapply Hkeys; [done|by eexists]). lia.
        -- eexists _, _. split_and!; [done| | | |].
           ++ cbn. rewrite Hn. apply lookup_insert_eq.
           ++ done.
           ++ cbn. by apply Hsegs.
           ++ done.
Qed.

(** Finishing a replay on one segment removes exactly that segment's request from
    the pending ones: the pruning of requests that have succeeded never drops
    one that a segment still has to try. *)
Theorem FinishReplay_drops_no_untried_segment l n msg s s' :
  FinishReplay l n msg s = (None, s') →
  ∀ rp, rp ∈ PendingReplays (l_Name l) s' ↔
    rp ∈ PendingReplays (l_Name l) s ∧ ¬ (rp_Number rp = n ∧ rp_Segment rp = l_Segment l).
Proof.
  unfold FinishReplay. destruct (owned l s) as [r|] eqn:Ho; [|done].
  destruct (projections s !! l_Name l) as [p|] eqn:Hp; [|done]. intros [= <-] rp.
  destruct (p_replays p !! n) as [req|] eqn:Hreq.
  2: { split; [|tauto]. intros Hin. split; [done|]. intros [Hn _].
       apply elem_of_PendingReplays in Hin as (p' & req & st & ? & Hr & _). simplify_eq. }
  set (req' := match mr_segments req !! l_Segment l with None => req | Some _ => _ end).
  assert (mr_streamID req' = mr_streamID req) as Hstream by (unfold req'; by case_match).
  assert (∀ seg st, mr_segments req' !! seg = Some st ∧ rs_done st = false ↔
    mr_segments req !! seg = Some st ∧ rs_done st = false ∧ seg ≠ l_Segment l) as Hsegs.
  { intros seg st. unfold req'. destruct (mr_segments req !! l_Segment l) as [st0|] eqn:Hl0; cbn.
    - rewrite lookup_insert_Some. naive_solver.
    - naive_solver congruence. }
  assert (rp ∈ PendingReplays (l_Name l) (set_projection (l_Name l) (set_replays (<[n := req']> (p_replays p)) p) s)
    ↔ rp ∈ PendingReplays (l_Name l) s ∧ ¬ (rp_Number rp = n ∧ rp_Segment rp = l_Segment l)) as Hbase.
  { rewrite !elem_of_PendingReplays; cbn. rewrite lookup_insert_eq, Hp. split.
    - intros (p' & rq & st & ? & Hr & Hs & Hst & Hd). simplify_eq. cbn in Hr.
      apply lookup_insert_Some in Hr as [[Hn <-]|[Hn Hr]].
      + destruct (proj1 (Hsegs _ _) (conj Hst Hd)) as (? & ? & ?). split; [|tauto].
        exists p, req, st. split_and!; congruence.
      + split; [by exists p, rq, st|]. intros [? _]. congruence.
    - intros [(p' & rq & st & ? & Hr & Hs & Hst & Hd) Hne]. simplify_eq. eexists _.
      destruct (decide (rp_Number rp = n)) as [Hn|Hn].
      + exists req', st. assert (rq = req) as -> by congruence. destruct (proj2 (Hsegs (rp_Segment rp) st)) as [? ?].
        { split_and!; [done..|]. tauto. }
        split_and!; [done| |congruence|done..]. cbn. rewrite Hn. apply lookup_insert_eq.
      + exists rq, st. split_and!; [done| |done..]. cbn. by rewrite lookup_insert_ne. }
  destruct (succeeded req') eqn:Hsucc; [|exact Hbase]. rewrite <- Hbase.
  rewrite !elem_of_PendingReplays; cbn. rewrite !lookup_insert_eq. split.
  - intros (p' & rq & st & ? & Hr & Hs & Hst & Hd). simplify_eq. cbn in Hr.
    apply map_lookup_filter_Some in Hr as [Hr _]. eexists _, rq, st. split_and!; [done|exact Hr|done..].
  - intros (p' & rq & st & ? & Hr & Hs & Hst & Hd). simplify_eq. cbn in Hr.
    eexists _, rq, st. split_and!; [done| |done..]. cbn. apply map_lookup_filter_Some. split; [exact Hr|].
    destruct (finished rq) eqn:Hf; [|by rewrite andb_false_r].
    rewrite finished_spec in Hf. specialize (Hf _ _ Hst). congruence.
Qed.

(** ** Heartbeats *)
Lemma elem_of_liveInstances name now s i :
  i ∈ liveInstances name now s ↔
  ∃ m, default ∅ (instances s !! name) !! in_Owner i = Some m ∧ time_Sub now (mi_heartbeat m) ≤ mi_ttl m ∧
    i = mkInstance (in_Owner i) (mi_version m) (held_by (in_Owner i) name s) (time_Sub now (mi_heartbeat m)).
Proof.
  unfold liveInstances. rewrite elem_of_sort_slice, list_elem_of_omap. unfold expired. split.
  - intros ([o m] & Hin & Hi). apply elem_of_map_to_list in Hin.
    destruct (Z.ltb_spec (mi_ttl m) (time_Sub now (mi_heartbeat m))); simplify_eq/=. by exists m.
  - intros (m & Hm & Hle & ->). exists (in_Owner i, m). split; [by apply elem_of_map_to_list|]. cbn.
    destruct (Z.ltb_spec (mi_ttl m) (time_Sub now (mi_heartbeat m))); [lia|done].
Qed.

(** A heartbeat with a ttl reports exactly the instances that have not expired,
    the caller among them, each with the segments it holds and the age of its
    last heartbeat; it changes no projection and no other projection's
    instances. *)
Theorem Heartbeat_reports_the_live_instances now name owner version ttl s out s' :
  0 < ttl → Heartbeat now name owner version ttl s = (out, s') →
  projections s' = projections s ∧ out = LoadInstances now name s' ∧
  (∀ i, i ∈ out ↔
     (i = mkInstance owner version (held_by owner name s) 0) ∨
     (in_Owner i ≠ owner ∧ ∃ m, default ∅ (instances s !! name) !! in_Owner i = Some m ∧
        time_Sub now (mi_heartbeat m) ≤ mi_ttl m ∧
        i = mkInstance (in_Owner i) (mi_version m) (held_by (in_Owner i) name s) (time_Sub now (mi_heartbeat m)))) ∧
  (∀ name', name' ≠ name → instances s' !! name' = instances s !! name').
Proof.
  intros Httl. unfold Heartbeat. destruct (Z.eqb_spec ttl 0); [lia|]. intros ?; simplify_eq.
  split; [done|]. split; [done|]. split; [|intros name' Hne; cbn; by rewrite lookup_insert_ne].
  assert (time_Sub now now = 0) as Hz by (unfold time_Sub, min_int64, max_int64; lia).
  intros i. rewrite elem_of_liveInstances. cbn. rewrite lookup_insert_eq. cbn.
  assert (∀ o, held_by o name (set_instances name (filter (λ '(_, m), expired now m = false)
    (<[owner := mkMemInstance version now ttl]> (default ∅ (instances s !! name)))) s) = held_by o name s) as Hh by done.
  split.
  - intros (m & Hm & Hle & Hi). apply map_lookup_filter_Some in Hm as [Hm _].
    apply lookup_insert_Some in Hm as [[Ho <-]|[Ho Hm]]; [left|right].
    + cbn in Hi. rewrite Hz in Hi. rewrite Hi, <- Ho. done.
    + split; [congruence|]. by exists m.
  - intros [->|(Hne & m & Hm & Hle & Hi)].
    + exists (mkMemInstance version now ttl). cbn. rewrite Hz. split_and!; [|lia|done].
      apply map_lookup_filter_Some. split; [apply lookup_insert_eq|].
      unfold expired; cbn. rewrite Hz. apply Z.ltb_ge. lia.
    + exists m. split_and!; [|done|done]. apply map_lookup_filter_Some. rewrite lookup_insert_ne by done.
      split; [done|]. unfold expired. apply Z.ltb_ge. lia.
Qed.
