(* ===== verification/SqlProjection.v ===== *)
(** * The tables of the SQL projection stores

    What [schema.sql] of SQLite and of PostgreSQL declares for projections,
    and the statements the stores send, as functions on the rows they see.
    The clock of the server counts [ms] ticks per millisecond: SQLite keeps
    milliseconds, PostgreSQL microseconds. *)
From S2P Require Import Prelude Core ProjStore.

(** ** Rows *)

(** [projection_segments], with its primary key [(name, segment)] *)
Record segment_row : Type := mkSegmentRow {
  sg_position : Z;
  sg_version : Z;
  sg_replay_until : Z;
  sg_fingerprint : string;
  sg_phase : string;
  sg_head : Z;
  sg_last_error : option string;
  sg_owner : option string;
  sg_epoch : Z;
  sg_heartbeat : Z;
  sg_ttl_ms : Z;
}.

(** [projection_rebuilds], by [name] *)
Record rebuild_row : Type := mkRebuildRow {
  rb_requested : Z;
  rb_done : Z;
  rb_failed : Z;
  rb_error : option string;
}.

(** [projection_instances], by [(name, owner)] *)
Record instance_row : Type := mkInstanceRow {
  ir_version : Z;
  ir_heartbeat : Z;
  ir_ttl_ms : Z;
}.

(** [projection_dead_letters], in the order of [id] *)
Record letter_row : Type := mkLetterRow {
  lt_id : Z;
  lt_projection : string;
  lt_segment : Z;
  lt_global_position : Z;
  lt_stream_id : string;
  lt_event_type : string;
  lt_error : string;
  lt_skipped_at : Z;
}.

(** [projection_replays], by [id], and [projection_replay_segments], by
    [(replay, segment)] *)
Record replay_row : Type := mkReplayRow { rr_name : string; rr_stream_id : string }.
Record replay_segment_row : Type := mkReplaySegmentRow { rg_done : bool; rg_error : option string }.

Record proj_tables : Type := mkTables {
  t_segments : gmap (string * Z) segment_row;
  t_rebuilds : gmap string rebuild_row;
  t_instances : gmap (string * string) instance_row;
  t_letters : list letter_row;
  t_letter_seq : Z;
  t_replays : gmap Z replay_row;
  t_replay_seq : Z;
  t_replay_segments : gmap (Z * Z) replay_segment_row;
}.

Definition empty_tables : proj_tables := mkTables ∅ ∅ ∅ [] 0 ∅ 0 ∅.

Definition with_segments (x : gmap (string * Z) segment_row) (t : proj_tables) : proj_tables :=
  mkTables x (t_rebuilds t) (t_instances t) (t_letters t) (t_letter_seq t) (t_replays t) (t_replay_seq t)
    (t_replay_segments t).
Definition with_rebuilds (x : gmap string rebuild_row) (t : proj_tables) : proj_tables :=
  mkTables (t_segments t) x (t_instances t) (t_letters t) (t_letter_seq t) (t_replays t) (t_replay_seq t)
    (t_replay_segments t).
Definition with_instances (x : gmap (string * string) instance_row) (t : proj_tables) : proj_tables :=
  mkTables (t_segments t) (t_rebuilds t) x (t_letters t) (t_letter_seq t) (t_replays t) (t_replay_seq t)
    (t_replay_segments t).
Definition with_letters (x : list letter_row) (seq : Z) (t : proj_tables) : proj_tables :=
  mkTables (t_segments t) (t_rebuilds t) (t_instances t) x seq (t_replays t) (t_replay_seq t) (t_replay_segments t).
Definition with_replays (x : gmap Z replay_row) (seq : Z) (y : gmap (Z * Z) replay_segment_row) (t : proj_tables) :
    proj_tables :=
  mkTables (t_segments t) (t_rebuilds t) (t_instances t) (t_letters t) (t_letter_seq t) x seq y.

(** A value of Go as a column that may be NULL. *)
Definition nullString (s : string) : option string := if bool_decide (s = "") then None else Some s.
(** [sql.NullString.String], and a [*string] copied when it is not nil *)
Definition orEmpty (s : option string) : string := default "" s.

Definition parsePhase (s : string) : Phase :=
  if bool_decide (s = "standby") then Standby
  else if bool_decide (s = "catching_up") then CatchingUp
  else if bool_decide (s = "live") then Live
  else if bool_decide (s = "stalled") then Stalled
  else Starting.

(** ** Segments *)

(** [owner = ? AND epoch = ?]; NULL equals nothing. *)
Definition held_row (owner : string) (epoch : Z) (g : segment_row) : bool :=
  bool_decide (sg_owner g = Some owner) && (sg_epoch g =? epoch).

(** [WHERE name = ? AND segment = ? AND owner = ? AND epoch = ?] *)
Definition held_segment (name : string) (seg : Z) (owner : string) (epoch : Z) (t : proj_tables) : option segment_row :=
  match t_segments t !! (name, seg) with
  | Some g => if held_row owner epoch g then Some g else None
  | None => None
  end.

(** The rows of a projection, [ORDER BY segment] *)
Definition segments_of (name : string) (t : proj_tables) : list (Z * segment_row) :=
  sort_slice (λ a b : Z * segment_row, a.1 <? b.1)
    (omap (λ '((n, seg), g), if bool_decide (n = name) then Some (seg, g) else None) (map_to_list (t_segments t))).

(** [SELECT count] of the rows of a projection, and [EXISTS] one *)
Definition count_segments (name : string) (t : proj_tables) : Z := zlen (segments_of name t).
Definition declared (name : string) (t : proj_tables) : bool :=
  match segments_of name t with [] => false | _ => true end.

(** The columns' defaults *)
Definition default_segment (replayUntil now : Z) : segment_row :=
  mkSegmentRow 0 0 replayUntil "" "starting" 0 None None 0 now 15000.

(** [INSERT INTO projection_segments (name, segment, replay_until, ...)] *)
Definition insert_segment (name : string) (seg replayUntil : Z) (now : Z) (t : proj_tables) : option proj_tables :=
  match t_segments t !! (name, seg) with
  | Some _ => None
  | None => Some (with_segments (<[(name, seg) := default_segment replayUntil now]> (t_segments t)) t)
  end.

Section clock.
Context (ms : Z).

(** [heartbeat < now - ttl] *)
Definition lapsed (now heartbeat ttl_ms : Z) : bool := heartbeat <? now - ttl_ms * ms.

(** The UPDATE of [Claim] and what it RETURNs; the right-hand sides of SET
    see the row before the update. *)
Definition update_claim (name : string) (seg : Z) (owner : string) (ttl_ms epoch : Z) (now : Z) (t : proj_tables) :
    option segment_row * proj_tables :=
  match t_segments t !! (name, seg) with
  | None => (None, t)
  | Some g =>
    if held_row owner epoch g || bool_decide (sg_owner g = None) || lapsed now (sg_heartbeat g) (sg_ttl_ms g)
    then
      let g' := mkSegmentRow (sg_position g) (sg_version g) (sg_replay_until g) (sg_fingerprint g) (sg_phase g)
                  (sg_head g) (sg_last_error g) (Some owner)
                  (if held_row owner epoch g then sg_epoch g else sg_epoch g + 1) now ttl_ms in
      (Some g', with_segments (<[(name, seg) := g']> (t_segments t)) t)
    else (None, t)
  end.

(** A fenced UPDATE of one segment, and the number of rows it changed *)
Definition update_held (name : string) (seg : Z) (owner : string) (epoch : Z) (f : segment_row → segment_row)
    (t : proj_tables) : Z * proj_tables :=
  match held_segment name seg owner epoch t with
  | None => (0, t)
  | Some g => (1, with_segments (<[(name, seg) := f g]> (t_segments t)) t)
  end.

(** SET of [Commit], of [SaveStatus] and of [Release] *)
Definition set_checkpoint (position version replayUntil : Z) (fingerprint phase : string) (head : Z)
    (last_error : option string) (now : Z) (g : segment_row) : segment_row :=
  mkSegmentRow position version replayUntil fingerprint phase head last_error (sg_owner g) (sg_epoch g) now (sg_ttl_ms g).

Definition set_phase (phase : string) (head : Z) (last_error : option string) (now : Z) (g : segment_row) : segment_row :=
  mkSegmentRow (sg_position g) (sg_version g) (sg_replay_until g) (sg_fingerprint g) phase head last_error
    (sg_owner g) (sg_epoch g) now (sg_ttl_ms g).

Definition set_released (g : segment_row) : segment_row :=
  mkSegmentRow (sg_position g) (sg_version g) (sg_replay_until g) (sg_fingerprint g) "standby" (sg_head g)
    (sg_last_error g) None (sg_epoch g) (sg_heartbeat g) (sg_ttl_ms g).

(** The UPDATE of [Reset], on every segment of the projection *)
Definition set_reset (newVersion seg0 now seg : Z) (g : segment_row) : segment_row :=
  let mine := seg =? seg0 in
  mkSegmentRow 0 newVersion (Z.max (sg_replay_until g) (sg_position g)) "" (if mine then "starting" else "standby")
    0 None (if mine then sg_owner g else None) (sg_epoch g) (if mine then now else sg_heartbeat g) (sg_ttl_ms g).

Definition update_reset (name : string) (newVersion seg0 now : Z) (t : proj_tables) : proj_tables :=
  with_segments (map_imap (λ '(n, seg) g,
    Some (if bool_decide (n = name) then set_reset newVersion seg0 now seg g else g)) (t_segments t)) t.

(** The SELECT of [LoadStatuses]: a row, the age of its heartbeat, and
    whether a rebuild is requested *)
Definition rebuild_pending (name : string) (t : proj_tables) : bool :=
  match t_rebuilds t !! name with Some r => rb_done r <? rb_requested r | None => false end.

Definition select_statuses (name : string) (now : Z) (t : proj_tables) : list (Z * segment_row * Z * bool) :=
  (λ '(seg, g), (seg, g, now - sg_heartbeat g, rebuild_pending name t)) <$> segments_of name t.

(** ** Rebuilds *)
Definition upsert_rebuild (name : string) (t : proj_tables) : option Z * proj_tables :=
  if declared name t then
    let r := match t_rebuilds t !! name with
             | Some r => mkRebuildRow (rb_requested r + 1) (rb_done r) (rb_failed r) (rb_error r)
             | None => mkRebuildRow 1 0 0 None
             end in
    (Some (rb_requested r), with_rebuilds (<[name := r]> (t_rebuilds t)) t)
  else (None, t).

Definition update_rebuilds_done (name : string) (t : proj_tables) : proj_tables :=
  with_rebuilds (alter (λ r, mkRebuildRow (rb_requested r) (rb_requested r) (rb_failed r) (rb_error r)) name
                   (t_rebuilds t)) t.

Definition update_rebuild_failed (name : string) (requested : Z) (errMsg : string) (t : proj_tables) : proj_tables :=
  with_rebuilds (alter (λ r, if rb_failed r <=? requested
                             then mkRebuildRow (rb_requested r) (rb_done r) requested (Some errMsg) else r) name
                   (t_rebuilds t)) t.

(** ** Instances *)
Definition delete_instance (name owner : string) (t : proj_tables) : proj_tables :=
  with_instances (delete (name, owner) (t_instances t)) t.

Definition upsert_instance (name owner : string) (version ttl_ms : Z) (now : Z) (t : proj_tables) : proj_tables :=
  with_instances (<[(name, owner) := mkInstanceRow version now ttl_ms]> (t_instances t)) t.

Definition instance_lapsed (now : Z) (m : instance_row) : bool := lapsed now (ir_heartbeat m) (ir_ttl_ms m).

Definition delete_lapsed_instances (name : string) (now : Z) (t : proj_tables) : proj_tables :=
  with_instances (filter (λ '((n, _), m), bool_decide (n = name) && instance_lapsed now m = false) (t_instances t)) t.

(** [SELECT count] of the segments of [name] that [owner] claims *)
Definition count_held (name owner : string) (t : proj_tables) : Z :=
  zlen (bfilter (λ '(_, g), bool_decide (sg_owner g = Some owner)) (segments_of name t)).

(** Rows of instances: owner, version, age in ticks, segments, [ORDER BY owner] *)
Definition instance_less (a b : string * Z * Z * Z) : bool := bool_decide (String.compare a.1.1.1 b.1.1.1 = Lt).

Definition select_instances (p : instance_row → bool) (name : string) (now : Z) (t : proj_tables) :
    list (string * Z * Z * Z) :=
  sort_slice instance_less
    (omap (λ '((n, owner), m),
       if bool_decide (n = name) && p m then Some (owner, ir_version m, now - ir_heartbeat m, count_held n owner t)
       else None) (map_to_list (t_instances t))).

(** ** Dead letters *)
Definition of_segment (name : string) (seg : Z) (d : letter_row) : bool :=
  bool_decide (lt_projection d = name) && (lt_segment d =? seg).

Definition insert_letter (name : string) (seg position : Z) (streamID eventType err : string) (now : Z) (t : proj_tables) :
    proj_tables :=
  let id := t_letter_seq t + 1 in
  with_letters (t_letters t ++ [mkLetterRow id name seg position streamID eventType err now]) id t.

(** [ORDER BY global_position]; letters at one position, which SQL leaves in
    any order, in the order of their ids *)
Definition select_letters (name : string) (seg : Z) (t : proj_tables) : list letter_row :=
  sort_slice (λ a b, lt_global_position a <? lt_global_position b) (bfilter (of_segment name seg) (t_letters t)).

Definition delete_letter (name : string) (seg position : Z) (t : proj_tables) : proj_tables :=
  with_letters (bfilter (λ d, negb (of_segment name seg d && (lt_global_position d =? position))) (t_letters t))
    (t_letter_seq t) t.

Definition delete_letters (name : string) (t : proj_tables) : proj_tables :=
  with_letters (bfilter (λ d, negb (bool_decide (lt_projection d = name))) (t_letters t)) (t_letter_seq t) t.

(** ** Replay requests *)
Definition of_stream (name streamID : string) (d : letter_row) : bool :=
  bool_decide (lt_projection d = name) && bool_decide (lt_stream_id d = streamID).

Definition letters_exist (name streamID : string) (t : proj_tables) : bool :=
  existsb (of_stream name streamID) (t_letters t).

Definition insert_replay (name streamID : string) (t : proj_tables) : Z * proj_tables :=
  let id := t_replay_seq t + 1 in
  (id, with_replays (<[id := mkReplayRow name streamID]> (t_replays t)) id (t_replay_segments t) t).

(** [SELECT DISTINCT ?, segment] into the replay's segments *)
Definition insert_replay_segments (replay : Z) (name streamID : string) (t : proj_tables) : proj_tables :=
  with_replays (t_replays t) (t_replay_seq t)
    (foldr (λ d m, <[(replay, lt_segment d) := mkReplaySegmentRow false None]> m) (t_replay_segments t)
       (bfilter (of_stream name streamID) (t_letters t))) t.

(** The JOIN of requests and their segments, [ORDER BY id, segment] *)
Definition replay_row_less (a b : Z * Z * replay_row * replay_segment_row) : bool :=
  (a.1.1.1 <? b.1.1.1) || ((a.1.1.1 =? b.1.1.1) && (a.1.1.2 <? b.1.1.2)).

Definition select_replays (name : string) (t : proj_tables) : list (Z * Z * replay_row * replay_segment_row) :=
  sort_slice replay_row_less
    (omap (λ '((id, seg), g),
       match t_replays t !! id with
       | Some r => if bool_decide (rr_name r = name) then Some (id, seg, r, g) else None
       | None => None
       end) (map_to_list (t_replay_segments t))).

Definition select_replay (name : string) (number : Z) (t : proj_tables) : option replay_row :=
  match t_replays t !! number with
  | Some r => if bool_decide (rr_name r = name) then Some r else None
  | None => None
  end.

Definition update_replay_segment (number seg : Z) (err : option string) (t : proj_tables) : proj_tables :=
  with_replays (t_replays t) (t_replay_seq t)
    (alter (λ _, mkReplaySegmentRow true err) (number, seg) (t_replay_segments t)) t.

(** The subquery of the requests a replay makes obsolete *)
Definition no_segment_row (number : Z) (p : replay_segment_row → bool) (t : proj_tables) : bool :=
  forallb (λ '((id, _), g), negb ((id =? number) && p g)) (map_to_list (t_replay_segments t)).

Definition replay_obsolete (name streamID : string) (number : Z) (t : proj_tables) (id : Z) : bool :=
  match t_replays t !! id with
  | None => false
  | Some r =>
    bool_decide (rr_name r = name) && bool_decide (rr_stream_id r = streamID) && (id <=? number) &&
    no_segment_row id (λ g, negb (rg_done g)) t &&
    no_segment_row number (λ g, negb (rg_done g) || bool_decide (is_Some (rg_error g))) t
  end.

(** DELETE of the segments, or the requests, whose request [p] selects *)
Definition delete_replay_segments (p : Z → bool) (t : proj_tables) : proj_tables :=
  with_replays (t_replays t) (t_replay_seq t) (filter (λ '((id, _), _), p id = false) (t_replay_segments t)) t.

Definition delete_replays (p : Z → bool) (t : proj_tables) : proj_tables :=
  with_replays (filter (λ '(id, _), p id = false) (t_replays t)) (t_replay_seq t) (t_replay_segments t) t.

(** [replay IN (SELECT id FROM projection_replays WHERE name = ?)] *)
Definition replay_of (name : string) (t : proj_tables) (id : Z) : bool :=
  match t_replays t !! id with Some r => bool_decide (rr_name r = name) | None => false end.
End clock.

#[global] Arguments segments_of name t : simpl never.
#[global] Arguments select_letters name seg t : simpl never.
#[global] Arguments select_instances p name now t : simpl never.
#[global] Arguments select_replays name t : simpl never.

(** ** Facts *)
Lemma elem_of_segments_of name t x : x ∈ segments_of name t ↔ t_segments t !! (name, x.1) = Some x.2.
Proof.
  unfold segments_of. rewrite elem_of_sort_slice, list_elem_of_omap. destruct x as [seg g]; cbn. split.
  - intros ([[n seg'] g'] & Hin%elem_of_map_to_list & Hx). case_bool_decide; naive_solver.
  - intros Hin. exists (name, seg, g). split; [by apply elem_of_map_to_list|]. by rewrite bool_decide_true.
Qed.

Lemma segments_of_sorted name t : StronglySorted (λ a b : Z * segment_row, a.1 < b.1) (segments_of name t).
Proof.
  unfold segments_of. eapply StronglySorted_impl; [|apply sort_slice_strict].
  - intros x y. apply Z.ltb_lt.
  - apply (weak_Z_key fst).
  - apply NoDup_omap_inj; [|apply NoDup_map_to_list]. intros [[n seg] g] [[n' seg'] g'] z _ _.
    repeat case_bool_decide; naive_solver.
  - intros [i g] [j h] Hi Hj Hij%Z.ltb_ge Hji%Z.ltb_ge. cbn in *. assert (i = j) as -> by lia.
    apply list_elem_of_omap in Hi as ([[n seg] g'] & Hg%elem_of_map_to_list & Hx).
    apply list_elem_of_omap in Hj as ([[n' seg'] h'] & Hh%elem_of_map_to_list & Hy).
    repeat case_bool_decide; naive_solver.
Qed.

Lemma count_segments_range name n t : 0 ≤ n → (∀ seg, is_Some (t_segments t !! (name, seg)) ↔ 0 ≤ seg < n) → count_segments name t = n.
Proof.
  intros Hn Hs. unfold count_segments, zlen. rewrite <- (length_fmap fst).
  assert ((segments_of name t).*1 = seqZ 0 n) as ->; [|rewrite length_seqZ; lia].
  apply (strictly_sorted_ext (λ a b, a < b)); [lia|..].
  - apply (StronglySorted_fmap_in fst _ (λ a b, a < b) _ (λ x y _ _ H, H)), segments_of_sorted.
  - rewrite <- (Z2Nat.id n) by lia. apply seqZ_sorted.
  - intros seg. rewrite elem_of_seqZ, list_elem_of_fmap. replace (0 ≤ seg < 0 + n) with (0 ≤ seg < n) by done.
    rewrite <- Hs. split.
    + intros ([seg' g] & -> & Hin%elem_of_segments_of). by eexists.
    + intros [g Hg]. exists (seg, g). split; [done|]. by apply elem_of_segments_of.
Qed.

Lemma count_segments_zero name t : count_segments name t = 0 → ∀ seg, t_segments t !! (name, seg) = None.
Proof.
  unfold count_segments. intros H%zlen_zero seg. destruct (t_segments t !! (name, seg)) as [g|] eqn:Hg; [|done].
  assert ((seg, g) ∈ segments_of name t) as Hin by (by apply elem_of_segments_of). rewrite H in Hin. by apply not_elem_of_nil in Hin.
Qed.
