(* ===== verification/SqliteProjStore.v ===== *)
(** * The SQLite projection store ([sqlite/projection_store.go])

    The database is the tables of [SqlProjection] and the tables of the read
    model, any [M].  [Open] allows one connection and begins a transaction
    with the write lock, so transactions follow one another: each method is
    one change of the database.  [ms] is 1, as heartbeats are milliseconds. *)
From S2P Require Import Prelude Core ProjStore Effect SqlTx SqlValues SqlProjection.

Section store.
Context {M : Type}.
Notation D := (proj_tables * M)%type.
Context (env : db_env).

(** Statements on the store's own tables *)
Definition tx_query {A} (text : string) (f : Z → proj_tables → A) : Tx D A := select env text (λ now d, f now d.1).
Definition tx_update {A} (text : string) (f : Z → proj_tables → A * proj_tables) : Tx D A :=
  update env text (λ now d, let '(a, t) := f now d.1 in (a, (t, d.2))).
Definition tx_exec (text : string) (f : Z → proj_tables → proj_tables) : Tx D () :=
  tx_update text (λ now t, ((), f now t)).

(** ** Declaring and claiming *)

(** The loop over the segments, [n] of them from [i]. *)
Fixpoint insert_segments (name : string) (replayUntil : Z) (n : nat) (i : Z) : Tx D () :=
  match n with
  | O => mret ()
  | S n =>
    statement env "declare" (λ now d,
      match insert_segment name i (int64 replayUntil) now d.1 with
      | None => Fail (New "UNIQUE constraint failed")
      | Some t => Ok ((), (t, d.2))
      end) ≫= λ _, insert_segments name replayUntil n (i + 1)
  end.

Definition sqlite_Declare (name : string) (segments replayUntil : Z) : D → result error () * D :=
  runTx env "declare: begin" "declare: commit" (
    count ← tx_query "declare: count segments" (λ _, count_segments name);
    if negb (count =? 0) then
      if negb (count =? segments) then fail (Sentinel ErrSegmentsChanged) else mret ()
    else insert_segments name replayUntil (Z.to_nat segments) 0).

Definition sqlite_Claim (l : Lease) (ttl : duration) : D → result error (Lease * Checkpoint * bool) * D :=
  autocommit (
    row ← tx_update "claim" (update_claim 1 (l_Name l) (l_Segment l) (l_Owner l) (Milliseconds ttl) (int64 (l_Epoch l)));
    match row with
    | None => mret (mkLease "" 0 "" 0, mkCheckpoint 0 0 0 "", false)
    | Some g =>
      mret (mkLease (l_Name l) (l_Segment l) (l_Owner l) (u64 (sg_epoch g)),
            mkCheckpoint (u64 (sg_position g)) (sg_version g) (u64 (sg_replay_until g)) (sg_fingerprint g), true)
    end).

(** [ownedPosition] *)
Definition ownedPosition (l : Lease) : Tx D Z :=
  row ← tx_query "read" (λ _, held_segment (l_Name l) (l_Segment l) (l_Owner l) (int64 (l_Epoch l)));
  match row with
  | None => fail (Sentinel ErrClaimLost)
  | Some g => mret (u64 (sg_position g))
  end.

(** A fenced update, and [claimHeld] on its number of rows *)
Definition held_update (text : string) (l : Lease) (f : Z → segment_row → segment_row) : Tx D () :=
  n ← tx_update text (λ now, update_held (l_Name l) (l_Segment l) (l_Owner l) (int64 (l_Epoch l)) (f now));
  if n =? 0 then fail (Sentinel ErrClaimLost) else mret ().

(** ** Units of work: [fn] runs in the transaction *)
Definition sqlite_Commit (l : Lease) (cp : Checkpoint) (status : Status) (fn : Tx D ()) : D → result error () * D :=
  runTx env "commit: begin" "commit: commit" (
    ownedPosition l ;;
    fn ;;
    held_update "store checkpoint" l
      (set_checkpoint (int64 (Position cp)) (cp_Version cp) (int64 (ReplayUntil cp)) (Fingerprint cp)
         (Phase_String (st_Phase status)) (int64 (st_Head status)) (nullString (st_LastError status)))).

Definition sqlite_Reset (l : Lease) (newVersion : Z) (wipe : Tx D ()) : D → result error () * D :=
  runTx env "reset: begin" "reset: commit" (
    ownedPosition l ;;
    wipe ;;
    tx_exec "reset checkpoints" (λ now, update_reset (l_Name l) newVersion (l_Segment l) now) ;;
    tx_exec "clear dead letters" (λ _, delete_letters (l_Name l)) ;;
    tx_exec "clear replay requests" (λ _ t, delete_replay_segments (replay_of (l_Name l) t) t) ;;
    tx_exec "clear replay requests" (λ _ t, delete_replays (replay_of (l_Name l) t) t) ;;
    tx_exec "mark rebuild requests done" (λ _, update_rebuilds_done (l_Name l))).

Definition sqlite_Release (l : Lease) : D → result error () * D :=
  autocommit (
    tx_update "release" (λ _, update_held (l_Name l) (l_Segment l) (l_Owner l) (int64 (l_Epoch l)) set_released) ;;
    mret ()).

Definition sqlite_SaveStatus (l : Lease) (status : Status) : D → result error () * D :=
  autocommit (
    held_update "save status" l
      (set_phase (Phase_String (st_Phase status)) (int64 (st_Head status)) (nullString (st_LastError status)))).

Definition status_of (row : Z * segment_row * Z * bool) : Status :=
  let '(seg, g, age, pending) := row in
  mkStatus (parsePhase (sg_phase g)) (u64 (sg_position g)) (u64 (sg_head g)) (sg_version g) (orEmpty (sg_last_error g))
    (orEmpty (sg_owner g)) seg (of_ms (Z.max age 0)) (u64 (sg_replay_until g))
    (match sg_owner g with Some _ => of_ms (sg_ttl_ms g) | None => 0 end) pending.

Definition sqlite_LoadStatuses (name : string) : D → result error (list Status) * D :=
  autocommit (rows ← tx_query "load statuses" (select_statuses name); mret (status_of <$> rows)).

(** ** Instances *)
Definition instance_of (row : string * Z * Z * Z) : Instance_ :=
  let '(owner, version, age, segments) := row in mkInstance owner version segments (of_ms (Z.max age 0)).

Definition sqlite_Heartbeat (name owner : string) (version : Z) (ttl : duration) : D → result error (list Instance_) * D :=
  if ttl =? 0 then
    autocommit (tx_exec "leave" (λ _, delete_instance name owner) ;; mret [])
  else
    runTx env "heartbeat: begin" "heartbeat: commit" (
      tx_exec "heartbeat" (λ now, upsert_instance name owner version (Milliseconds ttl) now) ;;
      tx_exec "heartbeat: delete expired instances" (λ now, delete_lapsed_instances 1 name now) ;;
      rows ← tx_query "heartbeat: load instances" (select_instances (λ _, true) name);
      mret (instance_of <$> rows)).

Definition sqlite_LoadInstances (name : string) : D → result error (list Instance_) * D :=
  autocommit (
    rows ← tx_query "load instances" (λ now, select_instances (λ m, negb (instance_lapsed 1 now m)) name now);
    mret (instance_of <$> rows)).

(** ** Rebuild requests *)
Definition sqlite_RequestRebuild (name : string) : D → result error Z * D :=
  autocommit (
    n ← tx_update "request rebuild" (λ _, upsert_rebuild name);
    match n with None => fail (Sentinel ErrUnknownProjection) | Some n => mret (u64 n) end).

Definition sqlite_Rebuilds (name : string) : D → result error (Z * Z) * D :=
  autocommit (
    r ← tx_query "read rebuild requests" (λ _ t, t_rebuilds t !! name);
    match r with None => mret (0, 0) | Some r => mret (u64 (rb_requested r), u64 (rb_done r)) end).

Definition sqlite_FailRebuild (l : Lease) (requested : Z) (errMsg : string) : D → result error () * D :=
  runTx env "fail rebuild: begin" "fail rebuild: commit" (
    ownedPosition l ;;
    tx_exec "fail rebuild" (λ _, update_rebuild_failed (l_Name l) (int64 requested) errMsg)).

Definition sqlite_RebuildFailure (name : string) : D → result error (Z * string) * D :=
  autocommit (
    r ← tx_query "read rebuild failure" (λ _ t, t_rebuilds t !! name);
    match r with None => mret (0, "") | Some r => mret (u64 (rb_failed r), orEmpty (rb_error r)) end).

(** ** Dead letters: [SaveDeadLetter] and [DeleteDeadLetter] run in the
    transaction of their context, and fail where it carries none *)
Definition sqlite_SaveDeadLetter (tx : bool) (l : Lease) (d : DeadLetter) : Tx D () :=
  if negb tx then fail (New "sqlite: SaveDeadLetter called outside a ProjectionStore commit")
  else tx_exec "save dead letter" (λ now, insert_letter (l_Name l) (l_Segment l) (int64 (dl_Position d)) (dl_StreamID d)
    (dl_EventType d) (dl_Error d) now).

Definition sqlite_DeleteDeadLetter (tx : bool) (l : Lease) (position : Z) : Tx D () :=
  if negb tx then fail (New "sqlite: DeleteDeadLetter called outside a ProjectionStore commit")
  else tx_exec "delete dead letter" (λ _, delete_letter (l_Name l) (l_Segment l) (int64 position)).

Definition letter_of (d : letter_row) : DeadLetter :=
  mkDeadLetter (u64 (lt_global_position d)) (lt_stream_id d) (lt_event_type d) (lt_error d).

Definition sqlite_LoadDeadLetters (name : string) (segment : Z) : D → result error (list DeadLetter) * D :=
  autocommit (
    rows ← tx_query "load dead letters" (λ _, select_letters name segment);
    mret (letter_of <$> rows)).

(** ** Replay requests *)
Definition sqlite_RequestReplay (name streamID : string) : D → result error Z * D :=
  runTx env "request replay: begin" "request replay: commit" (
    known ← tx_query "request replay" (λ _, declared name);
    if negb known then fail (Sentinel ErrUnknownProjection)
    else
      held ← tx_query "request replay" (λ _, letters_exist name streamID);
      if negb held then mret 0
      else
        n ← tx_update "request replay" (λ _, insert_replay name streamID);
        tx_exec "request replay" (λ _, insert_replay_segments n name streamID) ;;
        mret (u64 n)).

Definition sqlite_PendingReplays (name : string) : D → result error (list Replay) * D :=
  autocommit (
    rows ← tx_query "load replay requests" (λ _ t, bfilter (λ r, negb (rg_done r.2)) (select_replays name t));
    mret ((λ '(id, seg, r, _), mkReplay (u64 id) (rr_stream_id r) seg) <$> rows)).

Definition sqlite_FinishReplay (l : Lease) (number : Z) (errMsg : string) : D → result error () * D :=
  runTx env "finish replay: begin" "finish replay: commit" (
    ownedPosition l ;;
    r ← tx_query "finish replay" (λ _, select_replay (l_Name l) (int64 number));
    match r with
    | None => mret ()
    | Some r =>
      let finished := replay_obsolete (l_Name l) (rr_stream_id r) (int64 number) in
      tx_exec "finish replay" (λ _, update_replay_segment (int64 number) (l_Segment l) (nullString errMsg)) ;;
      tx_exec "finish replay: delete finished requests" (λ _ t, delete_replay_segments (finished t) t) ;;
      tx_exec "finish replay: delete finished requests" (λ _ t, delete_replays (finished t) t)
    end).

Definition sqlite_ReplayResult (name : string) (number : Z) : D → result error (Z * list string) * D :=
  autocommit (
    rows ← tx_query "read replay" (λ _ t, bfilter (λ r, r.1.1.1 =? int64 number) (select_replays name t));
    let segs := (λ r : Z * Z * replay_row * replay_segment_row, r.2) <$> rows in
    mret (zlen (bfilter (λ g, negb (rg_done g)) segs),
          omap (λ g, if rg_done g then rg_error g else None) segs)).
End store.

(** Steps of the database on one that answers *)
Ltac run_tx := unfold autocommit, runTx, tx_query, tx_exec, tx_update, select, update, statement, ownedPosition,
  held_update, fail, mret, SE_ret, mbind, SE_bind; cbn.

(** ** Units are all or nothing *)
Section units.
Context {M : Type}.
Notation D := (proj_tables * M)%type.
Context (env : db_env).

Lemma ownedPosition_Ok l (s : nat * D) z s' : ownedPosition env l s = (Ok z, s') →
  s'.2 = s.2 ∧ ∃ g, held_segment (l_Name l) (l_Segment l) (l_Owner l) (int64 (l_Epoch l)) s.2.1 = Some g ∧ z = u64 (sg_position g).
Proof.
  unfold ownedPosition. intros (row & s1 & Hq & Hk)%bind_Ok. apply statement_Ok in Hq. injection Hq as Hr Hs.
  destruct row as [g|]; [|done]. cbn in Hk. injection Hk as <- <-. split; [congruence|]. eauto.
Qed.

(** Without the claim nothing after [ownedPosition] runs. *)
Lemma ownedPosition_lost {A} l (m m' : Z → Tx D A) (s : nat * D) :
  held_segment (l_Name l) (l_Segment l) (l_Owner l) (int64 (l_Epoch l)) s.2.1 = None →
  (ownedPosition env l ≫= m) s = (ownedPosition env l ≫= m') s ∧ ∃ e s', (ownedPosition env l ≫= m) s = (Fail e, s').
Proof.
  intros Hn. unfold ownedPosition, tx_query, select, statement, mbind, SE_bind. destruct (db_fault env s.1); [eauto|].
  cbn. rewrite Hn. cbn. eauto.
Qed.

Lemma held_update_Ok text l f (s s' : nat * D) : held_update env text l f s = (Ok (), s') →
  ∃ now g, held_segment (l_Name l) (l_Segment l) (l_Owner l) (int64 (l_Epoch l)) s.2.1 = Some g ∧
    s'.2 = (with_segments (<[(l_Name l, l_Segment l) := f now g]> (t_segments s.2.1)) s.2.1, s.2.2).
Proof.
  unfold held_update. intros (n & s1 & Hu & Hk)%bind_Ok. apply statement_Ok in Hu. unfold update_held in Hu.
  destruct (held_segment _ _ _ _ _) as [g|] eqn:Hg; injection Hu as <- Hs; cbn in Hk; [|done].
  exists (db_clock env s.1), g. split; [done|]. injection Hk as <-. by rewrite <- Hs.
Qed.

(** C34: A Commit of the SQLite projection store is all or nothing, read model
    included, whichever call of the database fails and whatever the function
    does in its transaction.  When it fails the database is as it was before;
    when it succeeds the lease held the segment before and after the function,
    the function's writes are there, and the segment's row carries exactly the
    new checkpoint and status.  Without the claim the function is not run. *)
Theorem sqlite_Commit_is_all_or_nothing l cp st (fn fn' : Tx D ()) d :
  let held := held_segment (l_Name l) (l_Segment l) (l_Owner l) (int64 (l_Epoch l)) in
  match sqlite_Commit env l cp st fn d with
  | (Fail _, d') => d' = d
  | (Ok _, d') =>
    ∃ n n' d1 now g, is_Some (held d.1) ∧ fn (n, d) = (Ok (), (n', d1)) ∧ held d1.1 = Some g ∧
      d' = (with_segments (<[(l_Name l, l_Segment l) :=
              set_checkpoint (int64 (Position cp)) (cp_Version cp) (int64 (ReplayUntil cp)) (Fingerprint cp)
                (Phase_String (st_Phase st)) (int64 (st_Head st)) (nullString (st_LastError st)) now g]>
              (t_segments d1.1)) d1.1, d1.2)
  end ∧ (held d.1 = None → sqlite_Commit env l cp st fn d = sqlite_Commit env l cp st fn' d ∧
         ∃ e, sqlite_Commit env l cp st fn d = (Fail e, d)).
Proof.
  intros held. split.
  - destruct (sqlite_Commit env l cp st fn d) as [[[]|e] d'] eqn:Hrun; [|by eapply runTx_rolls_back].
    apply runTx_Ok in Hrun as (n & (z & s1 & Ho & Hrun)%bind_Ok). apply ownedPosition_Ok in Ho as (Hs & g0 & Hg0 & _).
    cbn in Hs, Hg0. apply bind_Ok in Hrun as ([] & s2 & Hfn & Hrun). apply held_update_Ok in Hrun as (now & g & Hg & Hd).
    destruct s1 as [n1 d1], s2 as [n2 d2]. cbn in *. subst. exists n1, n2, d2, now, g. split_and!; [eauto|done..].
  - intros Hn. unfold sqlite_Commit, runTx. destruct (db_fault env 0); [eauto|].
    destruct (ownedPosition_lost l
      (λ _, fn ≫= λ _, held_update env "store checkpoint" l (set_checkpoint (int64 (Position cp)) (cp_Version cp)
         (int64 (ReplayUntil cp)) (Fingerprint cp) (Phase_String (st_Phase st)) (int64 (st_Head st)) (nullString (st_LastError st))))
      (λ _, fn' ≫= λ _, held_update env "store checkpoint" l (set_checkpoint (int64 (Position cp)) (cp_Version cp)
         (int64 (ReplayUntil cp)) (Fingerprint cp) (Phase_String (st_Phase st)) (int64 (st_Head st)) (nullString (st_LastError st))))
      (1%nat, d) Hn) as [Heq (e & s' & He)].
    rewrite <- Heq, He. eauto.
Qed.
End units.
