(* ===== verification/ProjSim.v ===== *)
(** * The SQLite projection store and the in-memory one: segments

    A simulation between the tables of [sqlite/projection_store.go] and the
    maps of [memory/projection_store.go], and that the calls about segments,
    checkpoints and dead letters keep it, with equal answers but for the age
    of a segment that was never claimed.  Clocks are in
    whole milliseconds, as SQLite's are, and run forward. *)
From S2P Require Import Prelude Core ProjStore MemProjStore Effect SqlTx SqlValues SqlProjection SqliteProjStore.

(** ** Values *)

Lemma nullString_eq s o : nullString s = Some o ↔ s = o ∧ o ≠ "".
Proof. unfold nullString. case_bool_decide; naive_solver. Qed.

Lemma nullString_ne s : s ≠ "" → nullString s = Some s.
Proof. unfold nullString. by case_bool_decide. Qed.

Lemma orEmpty_nullString s : orEmpty (nullString s) = s.
Proof. unfold nullString, orEmpty. case_bool_decide; [by subst|done]. Qed.

Lemma parsePhase_String p : (∀ n, p ≠ OtherPhase n) → parsePhase (Phase_String p) = p.
Proof. destruct p; try done. intros H. by destruct (H n). Qed.

(** ** The relation *)
Section sim.
Context `{C : Clock}.
Let Hbase : 0 ≤ base := base_nonneg.

Record row_sim (calls T : Z) (g : segment_row) (r : memoryRow) : Prop := {
  rw_cp : r_cp r = mkCheckpoint (sg_position g) (sg_version g) (sg_replay_until g) (sg_fingerprint g);
  rw_small : small (sg_position g) ∧ small (sg_replay_until g) ∧ small (sg_head g);
  rw_phase : st_Phase (r_status r) = parsePhase (sg_phase g);
  rw_head : st_Head (r_status r) = sg_head g;
  rw_error : st_LastError (r_status r) = orEmpty (sg_last_error g);
  rw_ttl0 : st_ClaimTTL (r_status r) = 0;
  rw_owner : sg_owner g = nullString (r_owner r);
  rw_epoch : sg_epoch g = r_epoch r ∧ 0 ≤ r_epoch r ≤ calls;
  rw_claim : r_owner r ≠ "" → r_heartbeat r = ms_time (sg_heartbeat g) ∧ r_ttl r = of_ms (sg_ttl_ms g) ∧
    0 < sg_ttl_ms g ∧ of_ms (sg_ttl_ms g) < max_int64;
  rw_heartbeat : base ≤ sg_heartbeat g ≤ T;
  (** a segment that was never claimed has no heartbeat in the memory *)
  rw_beat : r_heartbeat r = ms_time (sg_heartbeat g) ∨
    r_heartbeat r = time_zero ∧ r_owner r = "" ∧ st_Age (r_status r) = 0;
}.

Record inst_sim (T : Z) (m : instance_row) (i : memoryInstance) : Prop := {
  in_version : mi_version i = ir_version m;
  in_heartbeat : mi_heartbeat i = ms_time (ir_heartbeat m) ∧ base ≤ ir_heartbeat m ≤ T;
  in_ttl : mi_ttl i = of_ms (ir_ttl_ms m) ∧ 0 < ir_ttl_ms m ∧ of_ms (ir_ttl_ms m) < max_int64;
}.

(** The row of [projection_rebuilds] comes with the first request. *)
Definition rebuild_sim (calls : Z) (x : option rebuild_row) (p : memoryProjection) : Prop :=
  match x with
  | None => p_rebuildsRequested p = 0 ∧ p_rebuildsDone p = 0 ∧ p_rebuildFailed p = 0 ∧ p_rebuildErr p = ""
  | Some r => rb_requested r = p_rebuildsRequested p ∧ rb_done r = p_rebuildsDone p ∧
      rb_failed r = p_rebuildFailed p ∧ orEmpty (rb_error r) = p_rebuildErr p ∧
      0 < rb_requested r ≤ calls ∧ 0 ≤ rb_done r ≤ rb_requested r ∧ 0 ≤ rb_failed r ≤ rb_requested r
  end.

Definition part_sim (g : replay_segment_row) (x : memoryReplaySegment) : Prop :=
  rg_done g = rs_done x ∧ rg_error g = nullString (rs_err x).

Record replay_sim (rows : gmap Z replay_row) (parts : gmap (Z * Z) replay_segment_row) (id : Z) (name : string)
    (req : memoryReplay) : Prop := {
  rp_row : rows !! id = Some (mkReplayRow name (mr_streamID req));
  rp_parts seg : option_Forall2 part_sim (parts !! (id, seg)) (mr_segments req !! seg);
}.

Definition memory_replay (name : string) (id : Z) (s : ProjectionStore) : option memoryReplay :=
  p ← projections s !! name; p_replays p !! id.

(** What holds of the segments and dead letters of the tables *)
Record letters_wf (t : proj_tables) : Prop := {
  lw_segment d : d ∈ t_letters t → small (lt_global_position d) ∧ is_Some (t_segments t !! (lt_projection d, lt_segment d));
  lw_distinct : NoDup ((λ d, (lt_projection d, lt_segment d, lt_global_position d)) <$> t_letters t);
}.

Record sim (calls T : Z) (t : proj_tables) (s : ProjectionStore) : Prop := {
  sim_row l : option_Forall2 (row_sim calls T) (t_segments t !! (l_Name l, l_Segment l)) (row l s);
  sim_segments name p : projections s !! name = Some p →
    0 < p_segments p ∧ ∀ seg, is_Some (p_rows p !! seg) ↔ 0 ≤ seg < p_segments p;
  sim_letters l r : row l s = Some r → r_deadLetters r = letter_of <$> select_letters (l_Name l) (l_Segment l) t;
  sim_letters_wf : letters_wf t;
  sim_rebuild name p : projections s !! name = Some p → rebuild_sim calls (t_rebuilds t !! name) p;
  sim_no_rebuild name : projections s !! name = None → t_rebuilds t !! name = None;
  sim_instance name owner :
    option_Forall2 (inst_sim T) (t_instances t !! (name, owner)) (default ∅ (instances s !! name) !! owner);
  sim_replay name id req : memory_replay name id s = Some req →
    replay_sim (t_replays t) (t_replay_segments t) id name req;
  sim_replay_row id r : t_replays t !! id = Some r →
    1 ≤ id ≤ t_replay_seq t ∧ is_Some (memory_replay (rr_name r) id s);
  sim_part id seg : is_Some (t_replay_segments t !! (id, seg)) → is_Some (t_replays t !! id);
  sim_seq : t_replay_seq t = replays s ∧ 0 ≤ replays s ≤ calls;
}.

(** ** What the tables show of a projection *)

(** The rows of a projection whose segments are 0 to [n - 1] *)
Lemma segments_of_seq name t n : (∀ seg, is_Some (t_segments t !! (name, seg)) ↔ 0 ≤ seg < n) →
  segments_of name t = omap (λ i, pair i <$> t_segments t !! (name, i)) (seqZ 0 n).
Proof.
  intros Hdom. apply (strictly_sorted_ext (λ a b : Z * segment_row, a.1 < b.1)).
  - lia.
  - apply segments_of_sorted.
  - destruct (Z.le_gt_cases n 0). { rewrite seqZ_nil by lia. constructor. }
    rewrite <- (Z2Nat.id n) by lia. pose proof (seqZ_sorted (Z.to_nat n) 0) as Hs. revert Hs.
    generalize (seqZ 0 (Z.of_nat (Z.to_nat n))). induction 1 as [|i l Hl IH Hi]; [constructor|]. cbn.
    destruct (t_segments t !! (name, i)) as [g|]; [|done]. cbn. constructor; [done|]. apply Forall_forall.
    intros [j h] (k & Hk & Hj)%list_elem_of_omap. rewrite Forall_forall in Hi. specialize (Hi k Hk).
    destruct (t_segments t !! (name, k)); simplify_eq/=. done.
  - intros [seg g]. rewrite elem_of_segments_of, list_elem_of_omap; cbn. split.
    + intros Hg. exists seg. split; [|by rewrite Hg]. apply elem_of_seqZ. assert (0 ≤ seg < n); [|lia]. apply Hdom. eauto.
    + intros (i & _ & Hi). destruct (t_segments t !! (name, i)) eqn:?; simplify_eq/=. done.
Qed.

Lemma row_sim_mono calls calls' T T' g r : calls ≤ calls' → T ≤ T' → row_sim calls T g r → row_sim calls' T' g r.
Proof. intros Hc HT []. split; try done; [split; [tauto|lia]|lia]. Qed.

Lemma inst_sim_mono T T' m i : T ≤ T' → inst_sim T m i → inst_sim T' m i.
Proof. intros HT [? [? ?] ?]. split; [done| |done]. split; [done|lia]. Qed.

Lemma rebuild_sim_mono calls calls' x p : calls ≤ calls' → rebuild_sim calls x p → rebuild_sim calls' x p.
Proof. intros Hc. destruct x; cbn; [|done]. intros. intuition lia. Qed.

Lemma sim_mono calls calls' T T' t s : calls ≤ calls' → T ≤ T' → sim calls T t s → sim calls' T' t s.
Proof.
  intros Hc HT []. split; try done.
  - intros l. eapply option_Forall2_mono; [by apply sim_row0|]. intros. by eapply row_sim_mono.
  - intros name p Hp. eapply rebuild_sim_mono; [done|]. eauto.
  - intros name owner. eapply option_Forall2_mono; [by apply sim_instance0|]. intros. by eapply inst_sim_mono.
  - split; [tauto|lia].
Qed.

Lemma empty_sim T : sim 0 T empty_tables NewProjectionStore.
Proof.
  split; cbn.
  - intros l. unfold row; cbn. rewrite !lookup_empty. constructor.
  - intros name p. by rewrite lookup_empty.
  - intros l r. unfold row; cbn. by rewrite lookup_empty.
  - split; [by intros d ?%not_elem_of_nil|constructor].
  - intros name p. by rewrite lookup_empty.
  - intros name _. apply lookup_empty.
  - intros name owner. rewrite !lookup_empty. cbn. rewrite lookup_empty. constructor.
  - intros name id req. unfold memory_replay; cbn. by rewrite lookup_empty.
  - intros id r. by rewrite lookup_empty.
  - intros id seg. rewrite lookup_empty. by intros [].
  - lia.
Qed.

Section facts.
Context (calls T : Z) (t : proj_tables) (s : ProjectionStore) (Hsim : sim calls T t s) (Hcalls : calls ≤ max_int64).

Lemma sim_row_at name seg l : name = l_Name l → seg = l_Segment l →
  option_Forall2 (row_sim calls T) (t_segments t !! (name, seg)) (row l s).
Proof. intros -> ->. apply Hsim. Qed.

Lemma sim_domain name p seg : projections s !! name = Some p → is_Some (t_segments t !! (name, seg)) ↔ 0 ≤ seg < p_segments p.
Proof.
  intros Hp. destruct (sim_segments _ _ _ _ Hsim _ _ Hp) as [_ Hdom]. rewrite <- Hdom.
  pose proof (sim_row _ _ _ _ Hsim (mkLease name seg "" 0)) as Hr. unfold row in Hr; cbn in Hr. rewrite Hp in Hr. cbn in Hr.
  destruct Hr; split; intros []; eauto; done.
Qed.

Lemma sim_no_segment name seg : projections s !! name = None → t_segments t !! (name, seg) = None.
Proof.
  intros Hp. pose proof (sim_row _ _ _ _ Hsim (mkLease name seg "" 0)) as Hr. unfold row in Hr; cbn in Hr.
  rewrite Hp in Hr. cbn in Hr. by inversion Hr.
Qed.

Lemma sim_segments_of name :
  segments_of name t =
  match projections s !! name with
  | None => []
  | Some p => omap (λ i, pair i <$> t_segments t !! (name, i)) (seqZ 0 (p_segments p))
  end.
Proof.
  destruct (projections s !! name) as [p|] eqn:Hp.
  - apply segments_of_seq. intros seg. by apply sim_domain.
  - rewrite (segments_of_seq _ _ 0); [done|]. intros seg. rewrite (sim_no_segment _ _ Hp). split; [by intros []|lia].
Qed.

Lemma sim_count name p : projections s !! name = Some p → count_segments name t = p_segments p.
Proof.
  intros Hp. unfold count_segments. rewrite sim_segments_of, Hp.
  assert (∀ i, i ∈ seqZ 0 (p_segments p) → is_Some (t_segments t !! (name, i))) as Hdom.
  { intros i Hi%elem_of_seqZ. apply (sim_domain _ _ _ Hp). lia. }
  transitivity (zlen (seqZ 0 (p_segments p))).
  2: { unfold zlen. rewrite length_seqZ. destruct (sim_segments _ _ _ _ Hsim _ _ Hp). lia. }
  revert Hdom. generalize (seqZ 0 (p_segments p)). induction l as [|i l IH]; [done|]. intros Hdom. cbn.
  destruct (Hdom i) as [g ->]; [constructor|]. cbn. rewrite !zlen_cons, IH; [done|]. intros. apply Hdom. by constructor.
Qed.

Lemma sim_declared name : declared name t = bool_decide (is_Some (projections s !! name)).
Proof.
  unfold declared. destruct (projections s !! name) as [p|] eqn:Hp.
  - pose proof (sim_count _ _ Hp) as Hc. destruct (sim_segments _ _ _ _ Hsim _ _ Hp) as [Hpos _].
    unfold count_segments in Hc. destruct (segments_of name t); [change (0 = p_segments p) in Hc; lia|done].
  - rewrite sim_segments_of, Hp. done.
Qed.

(** Both stores agree on who holds a lease. *)
Lemma held_row_sim l g r : is_u64 (l_Epoch l) → row_sim calls T g r →
  held_row (l_Owner l) (int64 (l_Epoch l)) g
  = negb (bool_decide (r_owner r = "") || negb (bool_decide (r_owner r = l_Owner l)) || negb (r_epoch r =? l_Epoch l)).
Proof.
  intros He [? _ _ _ _ _ Ho [Hep Hb] _ _ _]. unfold held_row. rewrite Ho, Hep.
  assert (small (r_epoch r)) as Hs by (unfold small; lia).
  assert ((r_epoch r =? int64 (l_Epoch l)) = (r_epoch r =? l_Epoch l)) as ->.
  { apply eq_true_iff_eq. rewrite !Z.eqb_eq. pose proof (int64_eq_small _ _ He Hs). naive_solver. }
  rewrite !negb_orb, !negb_involutive. f_equal. apply eq_true_iff_eq.
  rewrite andb_true_iff, negb_true_iff, bool_decide_eq_false, !bool_decide_eq_true, nullString_eq. intuition congruence.
Qed.

Lemma held_sim l : is_u64 (l_Epoch l) →
  option_Forall2 (row_sim calls T) (held_segment (l_Name l) (l_Segment l) (l_Owner l) (int64 (l_Epoch l)) t) (owned l s).
Proof.
  intros He. unfold held_segment, owned. destruct (sim_row _ _ _ _ Hsim l) as [g r Hr|]; [|constructor].
  rewrite (held_row_sim _ _ _ He Hr). destruct (_ || _ || _); by constructor.
Qed.
End facts.

(** Changing one segment on both sides *)
Lemma sim_set_row calls calls' T T' t s l g g' r r' : sim calls T t s → calls ≤ calls' → T ≤ T' →
  t_segments t !! (l_Name l, l_Segment l) = Some g → row l s = Some r →
  row_sim calls' T' g' r' → r_deadLetters r' = r_deadLetters r →
  sim calls' T' (with_segments (<[(l_Name l, l_Segment l) := g']> (t_segments t)) t) (set_row l r' s).
Proof.
  intros Hsim Hc HT Hg Hr Hr' Hl. apply (sim_mono _ calls' _ T') in Hsim; [|done..].
  assert (∀ k, row k (set_row l r' s) = if decide (same_segment l k) then Some r' else row k s) as Hrow
    by (intros; by apply (row_set_row _ _ r)).
  assert (∃ p, projections s !! l_Name l = Some p ∧ p_rows p !! l_Segment l = Some r ∧
    set_row l r' s = set_projection (l_Name l) (set_rows (<[l_Segment l := r']> (p_rows p)) p) s) as (p & Hp & Hpr & Hset).
  { unfold row in Hr. unfold set_row. destruct (projections s !! l_Name l) as [p|]; cbn in Hr; [|congruence]. by exists p. }
  destruct Hsim as [S1 S2 S3 [S4 S5] S6 S7 S8 S9 S10 S11 S12]. split; cbn.
  - intros k. rewrite Hrow. case_decide as Hs.
    + destruct Hs as [<- <-]. rewrite lookup_insert_eq. by constructor.
    + rewrite lookup_insert_ne; [apply S1|]. intros [= ? ?]. by apply Hs.
  - intros name q. rewrite Hset; cbn. rewrite lookup_insert_Some. intros [[<- <-]|[Hn Hq]]; [|eauto]. cbn.
    destruct (S2 _ _ Hp) as [Hpos Hdom]. split; [done|]. intros seg. rewrite lookup_insert, <- Hdom.
    case_decide as He; [|done]. rewrite <- He, Hpr. split; eauto.
  - intros k rk. rewrite Hrow. case_decide as Hs; [|apply S3]. intros [= <-]. rewrite Hl.
    assert (row k s = Some r) as Hk by (by rewrite <- (row_same_segment _ _ _ Hs)).
    apply (S3 _ _ Hk).
  - split; [|done]. intros d Hd. destruct (S4 d Hd) as [H1 H2]. split; [done|]. cbn. rewrite lookup_insert_is_Some'. by right.
  - intros name q. rewrite Hset; cbn. rewrite lookup_insert_Some. intros [[<- <-]|[Hn Hq]]; [|eauto].
    specialize (S6 _ _ Hp). done.
  - intros name. rewrite Hset; cbn. rewrite lookup_insert_None. intros [? _]. eauto.
  - rewrite Hset. apply S8.
  - intros name id req. rewrite Hset. unfold memory_replay; cbn. rewrite lookup_insert. case_decide as He.
    + subst name. cbn. intros Hq. apply S9. unfold memory_replay. by rewrite Hp.
    + apply S9.
  - intros id rr Hid. destruct (S10 id rr Hid) as [Hb Hm]. split; [done|]. revert Hm. rewrite Hset. unfold memory_replay; cbn.
    rewrite lookup_insert. case_decide as He; [|done]. by rewrite <- He, Hp.
  - done.
  - by rewrite Hset.
Qed.

(** ** Claims and checkpoints *)
Lemma Claim_agrees calls T now t s m l n : sim calls T t s → calls < max_int64 → T ≤ now ≤ base + span →
  is_u64 (l_Epoch l) → l_Owner l ≠ "" → 0 < n → of_ms n < max_int64 →
  ∃ t', sqlite_Claim (M := ()) (instant now) l (of_ms n) (t, m) = (Ok (Claim (ms_time now) l (of_ms n) s).1, (t', m)) ∧
    sim (calls + 1) now t' (Claim (ms_time now) l (of_ms n) s).2.
Proof.
  intros Hsim Hc Hnow He Ho Hn Hn'. unfold sqlite_Claim. run_tx. rewrite Milliseconds_of_ms.
  assert (sim (calls + 1) now t s) as Hsame by (eapply sim_mono; [..|done]; lia).
  unfold update_claim, Claim. pose proof (sim_row _ _ _ _ Hsim l) as Hrow.
  destruct (t_segments t !! (l_Name l, l_Segment l)) as [g|] eqn:Hg; inversion Hrow as [? r Hr Hg' Hr'|]; clear Hrow; [|by exists t].
  symmetry in Hr'. subst.
  assert (bool_decide (is_Some (owned l s)) = held_row (l_Owner l) (int64 (l_Epoch l)) g) as ->.
  { rewrite (held_row_sim calls T) with (r := r) by (done || lia). unfold owned. rewrite Hr'. destruct (_ || _ || _); [apply bool_decide_eq_false; by intros []|apply bool_decide_eq_true; eauto]. }
  destruct Hr as [R1 (R2 & R3 & R4) R5 R6 R7 R8 R9 [R10 R11] R12 R13 R14].
  set (held := held_row _ _ g).
  assert (held || bool_decide (sg_owner g = None) || lapsed 1 now (sg_heartbeat g) (sg_ttl_ms g)
    = negb (negb held && negb (bool_decide (r_owner r = "")) && (time_Sub (ms_time now) (r_heartbeat r) <=? r_ttl r))) as ->.
  { rewrite !negb_andb, !negb_involutive. rewrite R9. unfold nullString.
    destruct (bool_decide_reflect (r_owner r = "")) as [Hre|Hre]; cbn; [by rewrite !orb_true_r|].
    destruct (R12 Hre) as (-> & -> & Hpos & Hmax). rewrite ms_Sub by lia. unfold lapsed. f_equal.
    rewrite Z.leb_antisym, negb_involutive. apply eq_true_iff_eq. rewrite !Z.ltb_lt. unfold of_ms, millisecond. lia. }
  destruct (_ && _ && _); cbn; [by exists t|].
  assert (sg_epoch g = r_epoch r ∧ 0 ≤ r_epoch r + 1 ≤ max_int64) as [Hge Hrb] by lia.
  assert (u64 (if held then sg_epoch g else sg_epoch g + 1) = if held then r_epoch r else u64 (r_epoch r + 1)) as Hep.
  { rewrite Hge. destruct held; [|done]. apply small_u64. unfold small. lia. }
  eexists. split.
  - rewrite Hep, R1. unfold small in *. rewrite !small_u64 by done. done.
  - apply (sim_set_row calls _ T _ _ _ _ g _ r); [done|lia|lia|done..| |done]. split; cbn; try done.
    + rewrite nullString_ne by done. done.
    + rewrite Hge. rewrite (small_u64 (r_epoch r + 1)) by (unfold small; lia). destruct held; lia.
    + lia.
    + by left.
Qed.

(** The loop of [Declare] inserts the rows of segments [i] to [i + n - 1]. *)
Lemma insert_segments_run {M} now name ru n i c t (m : M) :
  (∀ j, i ≤ j < i + Z.of_nat n → t_segments t !! (name, j) = None) →
  ∃ c' x, insert_segments (instant now) name ru n i (c, (t, m)) = (Ok (), (c', (with_segments x t, m))) ∧
    ∀ name' j, x !! (name', j) = if bool_decide (name' = name ∧ i ≤ j < i + Z.of_nat n)
                                 then Some (default_segment (int64 ru) now) else t_segments t !! (name', j).
Proof.
  revert i c t. induction n as [|n IH]; intros i c t Hfree.
  - exists c, (t_segments t). split; [by destruct t|]. intros. rewrite bool_decide_false; [done|]. lia.
  - cbn [insert_segments]. run_tx. unfold insert_segment. rewrite Hfree by lia. cbn.
    destruct (IH (i + 1) (S c) (with_segments (<[(name, i) := default_segment (int64 ru) now]> (t_segments t)) t)) as (c' & x & Hrun & Hx).
    { cbn. intros j Hj. rewrite lookup_insert_ne; [apply Hfree; lia|]. intros [= ?]. lia. }
    exists c', x. split; [exact Hrun|]. intros name' j. rewrite Hx. cbn. rewrite lookup_insert.
    destruct (decide (name' = name)) as [->|Hne].
    + destruct (decide (j = i)) as [->|Hj]; [rewrite decide_True by done|rewrite decide_False by congruence];
        repeat case_bool_decide; try done; exfalso; match goal with H : ¬ _ |- _ => apply H; split; [done|lia] end.
    + rewrite decide_False by congruence. by rewrite !bool_decide_false by tauto.
Qed.

Lemma new_rows_lookup ru n j : (list_to_map ((λ i, (i, new_row ru i)) <$> seqZ 0 n) : gmap Z memoryRow) !! j
  = if bool_decide (0 ≤ j < n) then Some (new_row ru j) else None.
Proof.
  assert (((λ i, (i, new_row ru i)) <$> seqZ 0 n).*1 = seqZ 0 n) as Hf
    by (generalize (seqZ 0 n) as l; induction l as [|i l IH]; cbn; [done|by f_equal]).
  case_bool_decide as Hj.
  - apply elem_of_list_to_map_1; [rewrite Hf; apply NoDup_seqZ|].
    apply list_elem_of_fmap. exists j. split; [done|]. apply elem_of_seqZ. lia.
  - apply not_elem_of_list_to_map_1. rewrite Hf, elem_of_seqZ. lia.
Qed.

Lemma select_letters_none t name seg : letters_wf t → t_segments t !! (name, seg) = None → select_letters name seg t = [].
Proof.
  intros [Hseg _] Hn. unfold select_letters. rewrite bfilter_none; [done|]. apply Forall_forall. intros d Hd.
  destruct (Hseg d Hd) as [_ [g Hg]]. unfold of_segment. apply not_true_iff_false.
  rewrite andb_true_iff, bool_decide_eq_true, Z.eqb_eq. intros [<- <-]. congruence.
Qed.

Lemma Declare_agrees calls T now t s m name n ru : sim calls T t s → calls < max_int64 → T ≤ now → base ≤ now →
  0 < n → small ru →
  ∃ t', sqlite_Declare (M := ()) (instant now) name n ru (t, m)
    = (match (Declare_ name n ru s).1 with None => Ok () | Some e => Fail e end, (t', m)) ∧
    sim (calls + 1) now t' (Declare_ name n ru s).2.
Proof.
  intros Hsim Hc HT Hb Hn Hru. assert (sim (calls + 1) now t s) as Hsame by (eapply sim_mono; [..|done]; lia).
  unfold sqlite_Declare. rewrite runTx_instant. run_tx. unfold Declare_. destruct (projections s !! name) as [p|] eqn:Hp.
  { rewrite (sim_count _ _ _ _ Hsim _ _ Hp). destruct (sim_segments _ _ _ _ Hsim _ _ Hp) as [Hpos _].
    destruct (Z.eqb_spec (p_segments p) 0); [lia|]. cbn. destruct (p_segments p =? n); cbn; by exists t. }
  unfold count_segments. rewrite (sim_segments_of _ _ _ _ Hsim), Hp, zlen_nil. cbn.
  assert (∀ j, t_segments t !! (name, j) = None) as Hnone by (intros; by eapply sim_no_segment).
  destruct (insert_segments_run now name ru (Z.to_nat n) 0 2 t m) as (c' & x & -> & Hx); [done|].
  rewrite Z2Nat.id in Hx by lia. rewrite (small_int64 ru Hru) in Hx. exists (with_segments x t). split; [done|].
  destruct Hsame as [S1 S2 S3 [S4 S5] S6 S7 S8 S9 S10 S11 S12].
  assert (∀ l, row l (set_projection name (mkProjection n (list_to_map ((λ i, (i, new_row ru i)) <$> seqZ 0 n)) 0 0 0 "" ∅) s)
    = if bool_decide (l_Name l = name) then (if bool_decide (0 ≤ l_Segment l < n) then Some (new_row ru (l_Segment l)) else None)
      else row l s) as Hrow.
  { intros l. unfold row, set_projection; cbn. rewrite lookup_insert. case_decide as He; case_bool_decide; try congruence.
    apply new_rows_lookup. }
  split; cbn.
  - intros l. rewrite Hrow, Hx. specialize (S1 l).
    destruct (bool_decide_reflect (l_Name l = name)) as [Hl|Hl]; [|rewrite bool_decide_false by tauto; exact S1].
    destruct (bool_decide_reflect (0 ≤ l_Segment l < n)) as [Hseg|Hseg].
    + rewrite bool_decide_true by done. constructor. unfold small in *. split; cbn; (done || lia || by right).
    + rewrite bool_decide_false by tauto. rewrite Hl, Hnone. constructor.
  - intros name' q. rewrite lookup_insert_Some. intros [[<- <-]|[? Hq]]; [|eauto]. cbn. split; [done|].
    intros j. rewrite new_rows_lookup. case_bool_decide; split; intros; [lia|eauto|by destruct H0|lia].
  - intros l r. rewrite Hrow. case_bool_decide as Hl; [|apply S3]. case_bool_decide; [|done]. intros [= <-].
    transitivity (letter_of <$> select_letters (l_Name l) (l_Segment l) t); [|done].
    by rewrite select_letters_none by (by split || by rewrite Hl).
  - split; [|done]. cbn. intros d Hd. destruct (S4 d Hd) as [? [g Hg]]. split; [done|]. rewrite Hx.
    case_bool_decide; eauto.
  - intros name' q. rewrite lookup_insert_Some. intros [[<- <-]|[? Hq]]; [|eauto]. by rewrite (S7 _ Hp).
  - intros name'. rewrite lookup_insert_None. intros [? _]. eauto.
  - apply S8.
  - intros name' id req. unfold memory_replay; cbn. rewrite lookup_insert. case_decide; [|apply S9]. cbn. by rewrite lookup_empty.
  - intros id r Hid. destruct (S10 id r Hid) as [? Hm]. split; [done|]. revert Hm. unfold memory_replay; cbn.
    rewrite lookup_insert. case_decide as He; [|done]. rewrite <- He, Hp. by intros [].
  - done.
  - done.
Qed.

Lemma Release_agrees calls T now t s m l : sim calls T t s → calls < max_int64 → T ≤ now → is_u64 (l_Epoch l) →
  ∃ t', sqlite_Release (M := ()) (instant now) l (t, m) = (Ok (), (t', m)) ∧ sim (calls + 1) now t' (Release l s).
Proof.
  intros Hsim Hc HT He. unfold sqlite_Release. run_tx. unfold update_held, Release.
  pose proof (held_sim _ _ _ _ Hsim ltac:(lia) l He) as Hh.
  destruct (held_segment _ _ _ _ _) as [g|] eqn:Hg; inversion Hh as [? r Hr Hg' Hr'|Hg' Hr']; subst; cbn.
  2: { exists t. split; [done|]. eapply sim_mono; [..|done]; lia. }
  eexists. split; [done|]. symmetry in Hr'. apply owned_row in Hr'.
  apply (sim_set_row calls _ T _ _ _ _ g _ r); [done|lia|lia| |done| |done].
  { unfold held_segment in Hg. destruct (_ !! _); [|done]. by destruct (held_row _ _ _); simplify_eq. }
  destruct Hr as [R1 R2 R3 R4 R5 R6 R7 R8 R9 R10 R11]. split; cbn; try done; [lia..|]. destruct R11 as [?|(? & ? & ?)]; [by left|by right].
Qed.

Lemma SaveStatus_agrees calls T now t s m l st : sim calls T t s → calls < max_int64 → T ≤ now → base ≤ now →
  is_u64 (l_Epoch l) → (∀ n, st_Phase st ≠ OtherPhase n) → small (st_Head st) →
  ∃ t', let '(e, s') := SaveStatus (ms_time now) l st s in
    sqlite_SaveStatus (M := ()) (instant now) l st (t, m) = (match e with None => Ok () | Some e => Fail e end, (t', m)) ∧
    sim (calls + 1) now t' s'.
Proof.
  intros Hsim Hc HT Hb He Hph Hhd. unfold sqlite_SaveStatus. run_tx. unfold update_held, SaveStatus.
  pose proof (held_sim _ _ _ _ Hsim ltac:(lia) l He) as Hh.
  destruct (held_segment _ _ _ _ _) as [g|] eqn:Hg; inversion Hh as [? r Hr Hg' Hr'|Hg' Hr']; subst; cbn.
  2: { exists t. split; [done|]. eapply sim_mono; [..|done]; lia. }
  eexists. split; [done|]. symmetry in Hr'. apply owned_row in Hr'.
  apply (sim_set_row calls _ T _ _ _ _ g _ r); [done|lia|lia| |done| |done].
  { unfold held_segment in Hg. destruct (_ !! _); [|done]. by destruct (held_row _ _ _); simplify_eq. }
  destruct Hr as [R1 R2 R3 R4 R5 R6 R7 R8 R9 R10 R11]. split; cbn; try done.
  - rewrite small_int64 by done. tauto.
  - by rewrite parsePhase_String.
  - by rewrite small_int64.
  - by rewrite orEmpty_nullString.
  - lia.
  - intros Ho. destruct (R9 Ho). done.
  - by left.
Qed.

(** The status the SQLite store gives and the one the memory gives: of a
    segment that was never claimed the memory knows no age, and the SQLite
    store gives the time since it was declared. *)
Definition aged (age : duration) (st : Status) : Status :=
  mkStatus (st_Phase st) (st_Position st) (st_Head st) (st_Version st) (st_LastError st) (st_Owner st)
    (st_Segment st) age (st_ReplayUntil st) (st_ClaimTTL st) (st_RebuildRequested st).

Definition same_status (sqlite memory : Status) : Prop :=
  sqlite = memory ∨
  st_Owner memory = "" ∧ st_Age memory = 0 ∧ 0 ≤ st_Age sqlite ∧ sqlite = aged (st_Age sqlite) memory.

Lemma rebuild_pending_sim calls T t s name p : sim calls T t s → projections s !! name = Some p →
  rebuild_pending name t = (p_rebuildsDone p <? p_rebuildsRequested p).
Proof.
  intros Hsim Hp. pose proof (sim_rebuild _ _ _ _ Hsim _ _ Hp) as Hr. unfold rebuild_pending.
  destruct (t_rebuilds t !! name) as [r|]; cbn in Hr; [by destruct Hr as (-> & -> & _)|]. by destruct Hr as (-> & -> & _).
Qed.

Lemma status_agrees calls T now t s name p i g r : sim calls T t s → calls ≤ max_int64 → T ≤ now ≤ base + span →
  projections s !! name = Some p → row_sim calls T g r →
  same_status (status_of (i, g, now - sg_heartbeat g, rebuild_pending name t)) (loaded_status (ms_time now) p i r).
Proof.
  intros Hsim Hc Hnow Hp [R1 (R2 & R3 & R4) R5 R6 R7 R8 R9 R10 R11 R12 R13].
  rewrite (rebuild_pending_sim _ _ _ _ _ _ Hsim Hp). unfold status_of, loaded_status, same_status; cbn.
  rewrite R9, R1, R5, R6, R7, R8, orEmpty_nullString, !small_u64 by done. cbn.
  destruct R13 as [->|(-> & Ho & HA)].
  - left. rewrite ms_time_nonzero by lia. cbn. rewrite ms_Sub by lia. rewrite Z.max_l by lia. unfold nullString.
    destruct (bool_decide_reflect (r_owner r = "")) as [Ho|Ho]; cbn; [done|]. by destruct (R11 Ho) as (_ & -> & _).
  - right. unfold aged; cbn. rewrite Ho, HA; cbn. split_and!; [done|done| |done]. unfold of_ms, millisecond. lia.
Qed.

Lemma LoadStatuses_agrees calls T now t s m name : sim calls T t s → calls ≤ max_int64 → T ≤ now ≤ base + span →
  ∃ sts, sqlite_LoadStatuses (M := ()) (instant now) name (t, m) = (Ok sts, (t, m)) ∧
    Forall2 same_status sts (LoadStatuses (ms_time now) name s).
Proof.
  intros Hsim Hc Hnow. unfold sqlite_LoadStatuses. run_tx. eexists. split; [done|].
  unfold select_statuses, LoadStatuses. rewrite (sim_segments_of _ _ _ _ Hsim).
  destruct (projections s !! name) as [p|] eqn:Hp; [|done].
  generalize (seqZ 0 (p_segments p)). induction l as [|i l IH]; [done|]. cbn.
  pose proof (sim_row _ _ _ _ Hsim (mkLease name i "" 0)) as Hr. unfold row in Hr; cbn in Hr. rewrite Hp in Hr. cbn in Hr.
  destruct Hr as [g r Hr|]; cbn; [|done]. constructor; [|done]. by eapply status_agrees.
Qed.

(** ** Dead letters *)
Definition before (a b : DeadLetter) : Prop := dl_Position a < dl_Position b.

Lemma elem_of_letters t name seg d :
  d ∈ letter_of <$> select_letters name seg t ↔ ∃ x, x ∈ t_letters t ∧ of_segment name seg x = true ∧ d = letter_of x.
Proof.
  rewrite list_elem_of_fmap. unfold select_letters. setoid_rewrite elem_of_sort_slice. setoid_rewrite elem_of_bfilter. naive_solver.
Qed.

Lemma letters_sorted t name seg : letters_wf t → StronglySorted before (letter_of <$> select_letters name seg t).
Proof.
  intros [Hw Hd]. unfold select_letters.
  apply (StronglySorted_fmap_in _ (λ a b, (lt_global_position a <? lt_global_position b) = true)).
  - intros x y Hx Hy Hxy%Z.ltb_lt. rewrite elem_of_sort_slice, elem_of_bfilter in Hx, Hy. unfold before; cbn.
    rewrite !small_u64; [done|apply Hw; tauto..].
  - apply sort_slice_strict; [apply weak_Z_key|apply bfilter_NoDup; by eapply NoDup_fmap_1|].
    intros x y [Hx1 Hx]%elem_of_bfilter [Hy1 Hy]%elem_of_bfilter H1%Z.ltb_ge H2%Z.ltb_ge.
    apply (NoDup_key _ _ _ _ Hd Hx Hy). unfold of_segment in *.
    apply andb_true_iff in Hx1 as [->%bool_decide_eq_true ->%Z.eqb_eq], Hy1 as [->%bool_decide_eq_true ->%Z.eqb_eq].
    f_equal. lia.
Qed.

(** Two lists of dead letters in strict order are the same when they have
    the same letters. *)
Lemma letters_ext t name seg ds : letters_wf t → StronglySorted before ds →
  (∀ d, d ∈ ds ↔ ∃ x, x ∈ t_letters t ∧ of_segment name seg x = true ∧ d = letter_of x) →
  ds = letter_of <$> select_letters name seg t.
Proof.
  intros Hwf Hs He. apply (strictly_sorted_ext before); [unfold before; lia|done|by apply letters_sorted|].
  intros d. by rewrite He, elem_of_letters.
Qed.

Lemma sorted_insert d ds : StronglySorted before ds → Forall (λ e, dl_Position e ≠ dl_Position d) ds →
  StronglySorted before (insert_dead_letter d ds).
Proof.
  intros Hs Hne. induction Hs as [|e ds Hs IH He]; cbn; [repeat constructor|]. inversion_clear Hne as [|? ? Hed Hne'].
  destruct (Z.ltb_spec (dl_Position e) (dl_Position d)).
  - constructor; [auto|]. rewrite Forall_forall in *. intros x. rewrite insert_dead_letter_perm, elem_of_cons.
    intros [->|Hx]; [done|auto].
  - constructor; [by constructor|]. rewrite Forall_forall in *. intros x. unfold before in *.
    rewrite elem_of_cons. intros [->|Hx]; [lia|]. specialize (He x Hx). lia.
Qed.

(** Changing the dead letters of one segment on both sides *)
Lemma sim_set_letters calls T t s l r ls seq ds : sim calls T t s → row l s = Some r →
  letters_wf (with_letters ls seq t) →
  (∀ k, ¬ same_segment l k → select_letters (l_Name k) (l_Segment k) (with_letters ls seq t)
                             = select_letters (l_Name k) (l_Segment k) t) →
  ds = letter_of <$> select_letters (l_Name l) (l_Segment l) (with_letters ls seq t) →
  sim calls T (with_letters ls seq t) (set_row l (set_deadLetters ds r) s).
Proof.
  intros Hsim Hr Hwf Hother Hds.
  assert (∃ g, t_segments t !! (l_Name l, l_Segment l) = Some g ∧ row_sim calls T g r) as (g & Hg & Hgr).
  { pose proof (sim_row _ _ _ _ Hsim l) as H. rewrite Hr in H. inversion H. eauto. }
  assert (∀ x k, row k (set_row l x s) = if decide (same_segment l k) then Some x else row k s) as Hrow
    by (intros; by apply (row_set_row _ _ r)).
  assert (∃ p, projections s !! l_Name l = Some p ∧ p_rows p !! l_Segment l = Some r) as (p & Hp & Hpr).
  { unfold row in Hr. destruct (projections s !! l_Name l) as [p|]; cbn in Hr; [|congruence]. by exists p. }
  unfold set_row in *. rewrite Hp in *. destruct Hsim as [S1 S2 S3 S45 S6 S7 S8 S9 S10 S11 S12]. split; cbn; try done.
  - intros k. rewrite Hrow. case_decide as Hs; [|apply S1]. destruct Hs as [<- <-]. rewrite Hg. constructor. by destruct Hgr; split.
  - intros name q. rewrite lookup_insert_Some. intros [[<- <-]|[? Hq]]; [|eauto]. cbn.
    destruct (S2 _ _ Hp) as [Hpos Hdom]. split; [done|]. intros i. rewrite lookup_insert, <- Hdom.
    case_decide as He; [|done]. rewrite <- He, Hpr. split; eauto.
  - intros k rk. rewrite Hrow. case_decide as Hs; [destruct Hs as [<- <-]; by intros [= <-]|].
    rewrite Hother by done. apply S3.
  - intros name q. rewrite lookup_insert_Some. intros [[<- <-]|[? Hq]]; [|eauto]. apply (S6 _ _ Hp).
  - intros name. rewrite lookup_insert_None. intros [? _]. eauto.
  - intros name id req. unfold memory_replay; cbn. rewrite lookup_insert. case_decide as He; [|apply S9].
    subst name. cbn. intros Hq. apply S9. unfold memory_replay. by rewrite Hp.
  - intros id rr Hid. destruct (S10 id rr Hid) as [? Hm]. split; [done|]. revert Hm. unfold memory_replay; cbn.
    rewrite lookup_insert. case_decide as He; [|done]. by rewrite <- He, Hp.
Qed.

Lemma sorted_delete pos ds : StronglySorted before ds → StronglySorted before (bfilter (λ d, negb (dl_Position d =? pos)) ds).
Proof. apply StronglySorted_bfilter. Qed.

Lemma SaveDeadLetter_agrees calls T now t s m l r d c : sim calls T t s → row l s = Some r →
  small (dl_Position d) → Forall (λ e, dl_Position e ≠ dl_Position d) (r_deadLetters r) →
  ∃ t', sqlite_SaveDeadLetter (M := ()) (instant now) true l d (c, (t, m)) = (Ok (), (S c, (t', m))) ∧
    sim calls T t' (set_row l (set_deadLetters (insert_dead_letter d (r_deadLetters r)) r) s).
Proof.
  intros Hsim Hr Hd Hne. unfold sqlite_SaveDeadLetter. run_tx. eexists. split; [done|].
  pose proof (sim_letters_wf _ _ _ _ Hsim) as Hwf. pose proof (sim_letters _ _ _ _ Hsim _ _ Hr) as Hds.
  unfold insert_letter. set (x := mkLetterRow _ _ _ _ _ _ _ _).
  assert (letter_of x = d) as Hx by (unfold x, letter_of; destruct d; cbn in *; by rewrite u64_int64, small_u64).
  assert (letters_wf (with_letters (t_letters t ++ [x]) (t_letter_seq t + 1) t)) as Hwf'.
  { destruct Hwf as [Hw Hk]. split; cbn.
    - intros y [Hy| ->%list_elem_of_singleton]%elem_of_app; [by apply Hw|]. cbn. rewrite small_int64 by done. split; [done|].
      pose proof (sim_row _ _ _ _ Hsim l) as H. rewrite Hr in H. inversion H. eauto.
    - rewrite fmap_app. apply NoDup_app. split_and!; [done| |apply NoDup_singleton].
      intros k Hk1 Hk2. apply list_elem_of_singleton in Hk2 as ->. apply list_elem_of_fmap in Hk1 as (y & Hy & Hyl). cbn in Hy.
      rewrite small_int64 in Hy by done. injection Hy as H1 H2 H3.
      rewrite Hds, Forall_forall in Hne. apply (Hne (letter_of y)).
      + apply elem_of_letters. exists y. split; [done|]. split; [|done]. unfold of_segment. rewrite <- H1, <- H2.
        by rewrite bool_decide_true, Z.eqb_refl.
      + cbn. by rewrite <- H3, small_u64. }
  apply sim_set_letters; [done|done|done|..].
  - intros k Hk. unfold select_letters; cbn. rewrite bfilter_app. cbn [bfilter]. unfold of_segment at 2; cbn.
    case_bool_decide; destruct (Z.eqb_spec (l_Segment l) (l_Segment k)); cbn; rewrite ?app_nil_r; try done. by destruct Hk.
  - apply letters_ext; [done|apply sorted_insert; [rewrite Hds; by apply letters_sorted|done]|].
    intros e. rewrite insert_dead_letter_perm, elem_of_cons, Hds, elem_of_letters. cbn. setoid_rewrite elem_of_app.
    setoid_rewrite list_elem_of_singleton. split.
    + intros [->|(y & ? & ? & ?)]; [|naive_solver]. exists x. split; [by right|]. split; [|done].
      unfold of_segment; cbn. by rewrite bool_decide_true, Z.eqb_refl.
    + intros (y & [Hy| ->] & Hs & ->); [right; naive_solver|left; done].
Qed.

Lemma DeleteDeadLetter_agrees calls T now t s m l r pos c : sim calls T t s → row l s = Some r → is_u64 pos →
  ∃ t', sqlite_DeleteDeadLetter (M := ()) (instant now) true l pos (c, (t, m)) = (Ok (), (S c, (t', m))) ∧
    sim calls T t' (set_row l (set_deadLetters (bfilter (λ d, negb (dl_Position d =? pos)) (r_deadLetters r)) r) s).
Proof.
  intros Hsim Hr Hpos. unfold sqlite_DeleteDeadLetter. run_tx. eexists. split; [done|].
  pose proof (sim_letters_wf _ _ _ _ Hsim) as Hwf. pose proof (sim_letters _ _ _ _ Hsim _ _ Hr) as Hds.
  assert (letters_wf (delete_letter (l_Name l) (l_Segment l) (int64 pos) t)) as Hwf'.
  { destruct Hwf as [Hw Hk]. split; cbn.
    - intros y [_ Hy]%elem_of_bfilter. by apply Hw.
    - revert Hk. generalize (t_letters t). induction l0 as [|y k IH]; cbn; [done|]. rewrite NoDup_cons. intros [Hy Hk].
      destruct (negb _); cbn; [|by apply IH]. constructor; [|by apply IH]. intros Hin. apply Hy.
      apply list_elem_of_fmap in Hin as (z & Hz & [_ Hzk]%elem_of_bfilter). apply list_elem_of_fmap. eauto. }
  unfold delete_letter in *. apply sim_set_letters; [done|done|done|..].
  - intros k Hk. unfold select_letters; cbn. rewrite bfilter_bfilter. f_equal. apply bfilter_ext. intros x _.
    unfold of_segment. destruct (bool_decide_reflect (lt_projection x = l_Name k)) as [->|]; cbn; [|by rewrite andb_false_r].
    destruct (Z.eqb_spec (lt_segment x) (l_Segment k)) as [->|]; cbn; [|by rewrite andb_false_r].
    case_bool_decide; cbn; [|done]. destruct (Z.eqb_spec (l_Segment k) (l_Segment l)); cbn; [|done]. by destruct Hk.
  - apply letters_ext; [done|apply sorted_delete; rewrite Hds; by apply letters_sorted|].
    intros e. rewrite elem_of_bfilter, Hds, elem_of_letters. cbn. setoid_rewrite elem_of_bfilter.
    assert (∀ x, x ∈ t_letters t → (lt_global_position x =? int64 pos) = (dl_Position (letter_of x) =? pos)) as Hp.
    { intros x Hx. destruct (lw_segment _ Hwf x Hx) as [Hsm _]. cbn. rewrite small_u64 by done. apply eq_true_iff_eq.
      rewrite !Z.eqb_eq. pose proof (int64_eq_small pos _ Hpos Hsm). split; intros; symmetry; apply H; congruence. }
    split.
    + intros [Hn (x & Hx & Hs & ->)]. exists x. split; [|done]. split; [|done]. by rewrite Hs, Hp.
    + intros (x & [Hn Hx] & Hs & ->). rewrite Hs, Hp in Hn by done. split; [done|]. eauto.
Qed.

(** ** Units of work *)

(** What the function of a Commit does with the store: it saves and deletes
    dead letters, all in the unit's context. *)
Inductive edit : Type :=
| ESave (d : DeadLetter)
| EDelete (position : Z).

Fixpoint sqlite_edits {M} (env : db_env) (l : Lease) (es : list edit) : Tx (proj_tables * M) () :=
  match es with
  | [] => mret ()
  | ESave d :: es => sqlite_SaveDeadLetter env true l d ;; sqlite_edits env l es
  | EDelete pos :: es => sqlite_DeleteDeadLetter env true l pos ;; sqlite_edits env l es
  end.

Fixpoint memory_edits {M} (l : Lease) (es : list edit) (sm : ProjectionStore * M) : option error * (ProjectionStore * M) :=
  match es with
  | [] => (None, sm)
  | e :: es =>
    match match e with ESave d => SaveDeadLetter l d sm.1 | EDelete pos => DeleteDeadLetter l pos sm.1 end with
    | (Some err, s) => (Some err, (s, sm.2))
    | (None, s) => memory_edits l es (s, sm.2)
    end
  end.

(** The runner saves no two dead letters at one position. *)
Fixpoint edits_ok (ds : list DeadLetter) (es : list edit) : Prop :=
  match es with
  | [] => True
  | ESave d :: es => small (dl_Position d) ∧ Forall (λ e, dl_Position e ≠ dl_Position d) ds ∧
                     edits_ok (insert_dead_letter d ds) es
  | EDelete pos :: es => is_u64 pos ∧ edits_ok (bfilter (λ d, negb (dl_Position d =? pos)) ds) es
  end.

Lemma edits_agree calls T now es t s m l r c : sim calls T t s → row l s = Some r → edits_ok (r_deadLetters r) es →
  ∃ c' t' s' ds, sqlite_edits (M := ()) (instant now) l es (c, (t, m)) = (Ok (), (c', (t', m))) ∧
    memory_edits (M := ()) l es (s, ()) = (None, (s', ())) ∧ sim calls T t' s' ∧ row l s' = Some (set_deadLetters ds r).
Proof.
  assert (∀ r' s0, row l s0 = Some r → row l (set_row l r' s0) = Some r') as Hset.
  { intros r' s0 H. rewrite (row_set_row _ _ r) by done. by rewrite decide_True. }
  intros Hsim. revert t s r c Hsim Hset. induction es as [|[d|pos] es IH]; intros t s r c Hsim Hset Hr Hok.
  - exists c, t, s, (r_deadLetters r). split_and!; [done..|]. by destruct r.
  - destruct Hok as (Hd & Hne & Hok). destruct (SaveDeadLetter_agrees _ _ now _ _ m _ _ _ c Hsim Hr Hd Hne) as (t1 & Hrun & Hsim1).
    destruct (IH t1 _ (set_deadLetters (insert_dead_letter d (r_deadLetters r)) r) (S c) Hsim1) as (c' & t' & s' & ds & H1 & H2 & H3 & H4).
    { intros r' s0 H. rewrite (row_set_row _ _ _ _ _ H). by rewrite decide_True. }
    { by apply Hset. }
    { done. }
    exists c', t', s', ds. cbn [sqlite_edits memory_edits]. unfold SaveDeadLetter; cbn [fst snd]. rewrite Hr.
    split_and!; [|done..|by rewrite H4]. by rewrite (bind_run _ _ _ _ _ Hrun).
  - destruct Hok as (Hpos & Hok). destruct (DeleteDeadLetter_agrees _ _ now _ _ m _ _ _ c Hsim Hr Hpos) as (t1 & Hrun & Hsim1).
    destruct (IH t1 _ (set_deadLetters (bfilter (λ d, negb (dl_Position d =? pos)) (r_deadLetters r)) r) (S c) Hsim1)
      as (c' & t' & s' & ds & H1 & H2 & H3 & H4).
    { intros r' s0 H. rewrite (row_set_row _ _ _ _ _ H). by rewrite decide_True. }
    { by apply Hset. }
    { done. }
    exists c', t', s', ds. cbn [sqlite_edits memory_edits]. unfold DeleteDeadLetter; cbn [fst snd]. rewrite Hr.
    split_and!; [|done..|by rewrite H4]. by rewrite (bind_run _ _ _ _ _ Hrun).
Qed.

Lemma owned_row_only l s s' r ds : owned l s = Some r → row l s' = Some (set_deadLetters ds r) →
  owned l s' = Some (set_deadLetters ds r).
Proof. rewrite !owned_spec. intuition. Qed.

(** [ownedPosition] finds the row the memory holds. *)
Lemma ownedPosition_agrees calls T now t s m l c : sim calls T t s → calls ≤ max_int64 → is_u64 (l_Epoch l) →
  ownedPosition (M := ()) (instant now) l (c, (t, m))
  = (match owned l s with Some r => Ok (Position (r_cp r)) | None => Fail (Sentinel ErrClaimLost) end, (S c, (t, m))).
Proof.
  intros Hsim Hc He. run_tx. destruct (held_sim _ _ _ _ Hsim Hc l He) as [g r Hr|]; [|done]. cbn.
  destruct Hr as [-> (? & _ & _)]. cbn. by rewrite small_u64.
Qed.

Lemma Commit_agrees calls T now t s m l cp st es : sim calls T t s → calls < max_int64 → T ≤ now → base ≤ now →
  is_u64 (l_Epoch l) → small (Position cp) → small (ReplayUntil cp) → small (st_Head st) → st_ClaimTTL st = 0 →
  (∀ n, st_Phase st ≠ OtherPhase n) → (∀ r, owned l s = Some r → edits_ok (r_deadLetters r) es) →
  ∃ t', let '(e, (s', _)) := Commit (ms_time now) l cp st (memory_edits l es) (s, ()) in
    sqlite_Commit (M := ()) (instant now) l cp st (sqlite_edits (instant now) l es) (t, m)
    = (match e with None => Ok () | Some e => Fail e end, (t', m)) ∧ sim (calls + 1) now t' s'.
Proof.
  intros Hsim Hc HT Hb He Hp Hru Hhd Httl Hph Hes. unfold sqlite_Commit. rewrite runTx_instant. unfold mbind at 1. unfold SE_bind at 1.
  rewrite (ownedPosition_agrees _ _ _ _ _ _ _ _ Hsim ltac:(lia) He). unfold Commit. cbn [fst].
  destruct (owned l s) as [r|] eqn:Hr.
  2: { exists t. split; [done|]. eapply sim_mono; [..|done]; lia. }
  destruct (edits_agree _ _ now es _ _ m l r 2 Hsim (owned_row _ _ _ Hr) (Hes _ eq_refl)) as (c' & t' & s' & ds & H1 & H2 & Hsim' & H4).
  rewrite (bind_run _ _ _ _ _ H1), H2. pose proof (owned_row_only _ _ _ _ _ Hr H4) as Ho'. rewrite Ho'.
  pose proof (held_sim _ _ _ _ Hsim' ltac:(lia) l He) as Hh. rewrite Ho' in Hh.
  inversion Hh as [g r' Hgr Hg Hr'|]. subst r'. symmetry in Hg. run_tx. unfold update_held. rewrite Hg. cbn. eexists. split; [done|].
  apply (sim_set_row calls _ T _ _ _ _ g _ (set_deadLetters ds r)); [done|lia|lia| |done| |done].
  { unfold held_segment in Hg. destruct (_ !! _); [|done]. by destruct (held_row _ _ _); simplify_eq. }
  destruct Hgr as [R1 R2 R3 R4 R5 R6 R7 R8 R9 R10 R11]. unfold small in *. split; cbn in *; rewrite ?small_int64 by done; try done.
  - by destruct cp.
  - by rewrite parsePhase_String.
  - by rewrite orEmpty_nullString.
  - lia.
  - intros Ho. destruct (R9 Ho). done.
  - by left.
Qed.

(** What Reset's statements leave *)
Definition tables_reset (name : string) (v seg0 now : Z) (t : proj_tables) : proj_tables :=
  let t1 := delete_letters name (update_reset name v seg0 now t) in
  let t2 := delete_replay_segments (replay_of name t1) t1 in
  update_rebuilds_done name (delete_replays (replay_of name t2) t2).

Lemma reset_segments name v seg0 now t n j :
  t_segments (tables_reset name v seg0 now t) !! (n, j)
  = (if bool_decide (n = name) then set_reset v seg0 now j else id) <$> t_segments t !! (n, j).
Proof.
  cbn. rewrite map_lookup_imap. destruct (t_segments t !! (n, j)) as [g|]; [|by case_bool_decide]. cbn. by case_bool_decide.
Qed.

Lemma reset_replays name v seg0 now t id r :
  t_replays (tables_reset name v seg0 now t) !! id = Some r ↔ t_replays t !! id = Some r ∧ rr_name r ≠ name.
Proof.
  change (t_replays (tables_reset name v seg0 now t)) with (filter (λ '(id, _), replay_of name t id = false) (t_replays t)).
  rewrite map_lookup_filter_Some. unfold replay_of. split.
  - intros [Hr Hn]. rewrite Hr in Hn. by apply bool_decide_eq_false in Hn.
  - intros [Hr Hn]. split; [done|]. rewrite Hr. by apply bool_decide_eq_false.
Qed.

Lemma reset_parts name v seg0 now t id j :
  t_replay_segments (tables_reset name v seg0 now t) !! (id, j)
  = if replay_of name t id then None else t_replay_segments t !! (id, j).
Proof.
  change (t_replay_segments (tables_reset name v seg0 now t))
    with (filter (λ '((id, _), _), replay_of name t id = false) (t_replay_segments t)).
  rewrite map_lookup_filter. destruct (t_replay_segments t !! (id, j)); cbn; destruct (replay_of name t id); done.
Qed.

Lemma reset_rebuilds name v seg0 now t n :
  t_rebuilds (tables_reset name v seg0 now t) !! n
  = (λ r, if bool_decide (n = name) then mkRebuildRow (rb_requested r) (rb_requested r) (rb_failed r) (rb_error r) else r)
      <$> t_rebuilds t !! n.
Proof.
  cbn. rewrite lookup_alter. case_decide as Hn.
  - rewrite bool_decide_true by done. by subst.
  - rewrite bool_decide_false by congruence. by destruct (t_rebuilds t !! n).
Qed.

Lemma reset_letters name v seg0 now t :
  t_letters (tables_reset name v seg0 now t) = bfilter (λ d, negb (bool_decide (lt_projection d = name))) (t_letters t).
Proof. done. Qed.

Lemma reset_row_sim calls T now v seg0 j g r : row_sim calls T g r → T ≤ now → base ≤ now →
  row_sim (calls + 1) now (set_reset v seg0 now j g) (reset_row (ms_time now) v seg0 j r).
Proof.
  intros [R1 (R2 & R3 & R4) R5 R6 R7 R8 R9 R10 R11 R12 R13] HT Hb. unfold set_reset, reset_row. rewrite R1. cbn.
  destruct (Z.eqb_spec j seg0); split; cbn; try done; unfold small in *; try lia.
  - intros Ho. by destruct (R11 Ho).
  - destruct R13 as [?|(? & ? & ?)]; [by left|by right].
Qed.

Lemma sim_reset calls T now t s l p v : sim calls T t s → T ≤ now → base ≤ now → projections s !! l_Name l = Some p →
  sim (calls + 1) now (tables_reset (l_Name l) v (l_Segment l) now t)
    (set_projection (l_Name l) (reset_projection (ms_time now) v (l_Segment l) p) s).
Proof.
  intros Hsim HT Hb Hp. assert (sim (calls + 1) now t s) as [S1 S2 S3 [S4 S5] S6 S7 S8 S9 S10 S11 S12]
    by (eapply sim_mono; [..|done]; lia).
  split.
  - intros k. rewrite (row_reset _ _ _ _ _ _ _ Hp), reset_segments. pose proof (sim_row _ _ _ _ Hsim k) as Hk.
    case_decide as Hn; [rewrite bool_decide_true by done|rewrite bool_decide_false, option_fmap_id by done; apply S1].
    destruct Hk as [g r Hgr|]; cbn; constructor. by apply (reset_row_sim calls T).
  - intros name q. unfold set_projection; cbn [projections]. rewrite lookup_insert_Some. intros [[<- <-]|[? Hq]]; [|eauto]. cbn.
    destruct (S2 _ _ Hp) as [Hpos Hdom]. split; [done|]. intros j. rewrite map_lookup_imap, <- Hdom.
    destruct (p_rows p !! j); cbn; [|done]. split; eauto.
  - intros k r. rewrite (row_reset _ _ _ _ _ _ _ Hp). unfold select_letters. rewrite reset_letters, bfilter_bfilter.
    case_decide as Hn.
    + destruct (row k s) as [r0|]; cbn; [|done]. intros [= <-]. cbn. rewrite bfilter_none; [done|].
      apply Forall_forall. intros d _. unfold of_segment. rewrite Hn. by case_bool_decide.
    + intros Hr. rewrite (S3 _ _ Hr). unfold select_letters. do 2 f_equal. apply bfilter_ext. intros d _. unfold of_segment.
      case_bool_decide; case_bool_decide; cbn; congruence || done.
  - split; [|rewrite reset_letters; by apply bfilter_NoDup_fmap]. intros d. rewrite reset_letters, elem_of_bfilter.
    intros [_ Hd]. destruct (S4 d Hd) as [? [g Hg]]. split; [done|]. rewrite reset_segments, Hg. by eexists.
  - intros name q. unfold set_projection; cbn [projections]. rewrite reset_rebuilds. rewrite lookup_insert_Some. intros [[<- <-]|[? Hq]].
    + specialize (S6 _ _ Hp). rewrite bool_decide_true by done. destruct (t_rebuilds t !! l_Name l); cbn in *; [|intuition congruence].
      intuition lia.
    + rewrite bool_decide_false by congruence. specialize (S6 _ _ Hq). by destruct (t_rebuilds t !! name).
  - intros name. unfold set_projection; cbn [projections]. rewrite reset_rebuilds, lookup_insert_None. intros [Hn _]. by rewrite S7.
  - intros name owner. apply S8.
  - intros name id req. unfold memory_replay, set_projection; cbn [projections]. rewrite lookup_insert. case_decide as Hn; [cbn; by rewrite lookup_empty|].
    intros Hreq. destruct (S9 name id req Hreq) as [H1 H2]. split.
    + apply reset_replays. split; [done|]. cbn. congruence.
    + intros j. rewrite reset_parts. unfold replay_of. rewrite H1. cbn. rewrite bool_decide_false by congruence. apply H2.
  - intros id r [Hr Hn]%reset_replays. destruct (S10 id r Hr) as [Hb1 Hm].
    split; [done|]. unfold memory_replay, set_projection; cbn [projections]. by rewrite lookup_insert_ne.
  - intros id j. rewrite reset_parts. destruct (replay_of (l_Name l) t id) eqn:Ho; [by intros []|]. intros Hj.
    destruct (S11 id j Hj) as [r Hr]. exists r. apply reset_replays. split; [done|]. unfold replay_of in Ho. rewrite Hr in Ho.
    by apply bool_decide_eq_false in Ho.
  - done.
Qed.

Lemma Reset_agrees calls T now t s m l v : sim calls T t s → calls < max_int64 → T ≤ now → base ≤ now → is_u64 (l_Epoch l) →
  ∃ t', let '(e, (s', _)) := Reset (ms_time now) l v no_fn (s, ()) in
    sqlite_Reset (M := ()) (instant now) l v (mret ()) (t, m)
    = (match e with None => Ok () | Some e => Fail e end, (t', m)) ∧ sim (calls + 1) now t' s'.
Proof.
  intros Hsim Hc HT Hb He. unfold sqlite_Reset. rewrite runTx_instant. unfold mbind at 1. unfold SE_bind at 1.
  rewrite (ownedPosition_agrees _ _ _ _ _ _ _ _ Hsim ltac:(lia) He). unfold Reset, no_fn. cbn [fst].
  destruct (owned l s) as [r|] eqn:Hr.
  2: { exists t. split; [done|]. eapply sim_mono; [..|done]; lia. }
  pose proof (owned_row _ _ _ Hr) as Hrow. unfold row in Hrow.
  destruct (projections s !! l_Name l) as [p|] eqn:Hp; cbn in Hrow; [|congruence].
  run_tx. exists (tables_reset (l_Name l) v (l_Segment l) now t). split; [done|]. by eapply sim_reset.
Qed.
End sim.
