(* ===== verification/ProjAgree.v ===== *)
(** * The SQLite projection store and the in-memory one: requests and instances

    The rest of the simulation of [ProjSim], and its result: every history of
    calls has the same answers from both stores, but for the age of a segment
    that was never claimed. *)
From S2P Require Import Prelude Core ProjStore MemProjStore Effect SqlTx SqlValues SqlProjection SqliteProjStore ProjSim.

Section sim.
Context `{C : Clock}.
Let Hbase : 0 ≤ base := base_nonneg.

(** ** Instances *)

(** A map whose keys are the numbers below [n] *)
Lemma map_to_list_seq {A} (m : gmap Z A) n : (∀ i, is_Some (m !! i) ↔ 0 ≤ i < n) →
  map_to_list m ≡ₚ omap (λ i, pair i <$> m !! i) (seqZ 0 n).
Proof.
  intros Hdom. apply NoDup_Permutation; [apply NoDup_map_to_list| |].
  - apply NoDup_omap_inj; [|apply NoDup_seqZ]. intros i j z _ _. destruct (m !! i), (m !! j); naive_solver.
  - intros [i x]. rewrite elem_of_map_to_list, list_elem_of_omap. split.
    + intros Hi. exists i. rewrite Hi. split; [|done]. apply elem_of_seqZ. assert (0 ≤ i < n); [|lia]. apply Hdom. eauto.
    + intros (j & _ & Hj). destruct (m !! j) eqn:?; naive_solver.
Qed.

Lemma count_held_sim calls T t s name owner : sim calls T t s → count_held name owner t = held_by owner name s.
Proof.
  intros Hsim. unfold count_held, held_by. rewrite (sim_segments_of _ _ _ _ Hsim).
  destruct (projections s !! name) as [p|] eqn:Hp; [|done]. destruct (sim_segments _ _ _ _ Hsim _ _ Hp) as [_ Hdom].
  assert (∀ l k : list (Z * memoryRow), l ≡ₚ k → ∀ f, zlen (bfilter f l) = zlen (bfilter f k)) as Hperm.
  { intros l k Hlk f. unfold zlen. f_equal. induction Hlk; cbn; try done; [destruct (f x); cbn; lia| |lia].
    destruct (f x), (f y); done. }
  rewrite (Hperm _ _ (map_to_list_seq _ _ Hdom)). generalize (seqZ 0 (p_segments p)). induction l as [|i l IH]; [done|]. cbn.
  pose proof (sim_row _ _ _ _ Hsim (mkLease name i "" 0)) as Hr. unfold row in Hr; cbn in Hr. rewrite Hp in Hr. cbn in Hr.
  destruct Hr as [g r Hr|]; cbn; [|done].
  assert (bool_decide (sg_owner g = Some owner) = negb (bool_decide (r_owner r = "")) && bool_decide (r_owner r = owner)) as ->.
  { rewrite (rw_owner _ _ _ _ Hr). apply eq_true_iff_eq.
    rewrite andb_true_iff, negb_true_iff, bool_decide_eq_false, !bool_decide_eq_true, nullString_eq. intuition congruence. }
  destruct (_ && _); [|done]. rewrite !zlen_cons. by rewrite IH.
Qed.

Lemma owner_less_order : weak_order owner_less.
Proof. apply (weak_string in_Owner). Qed.

Lemma owner_less_tie a b : owner_less a b = false → owner_less b a = false → in_Owner a = in_Owner b.
Proof.
  change (string_less (in_Owner a) (in_Owner b) = false → string_less (in_Owner b) (in_Owner a) = false → in_Owner a = in_Owner b).
  rewrite !string_less_le. intros. by apply (anti_symm String.le).
Qed.

Lemma lapsed_sim T now m i : inst_sim T m i → T ≤ now ≤ base + span → expired (ms_time now) i = instance_lapsed 1 now m.
Proof.
  intros [_ [Hh Hb] (Ht & Hpos & _)] Hnow. unfold expired, instance_lapsed, lapsed. rewrite Hh, Ht, ms_Sub by lia.
  apply eq_true_iff_eq. rewrite !Z.ltb_lt. unfold of_ms, millisecond. lia.
Qed.

(** The instances the database lists are those the memory lists. *)
Lemma instances_sim calls T now t s name (p : instance_row → bool) : sim calls T t s → T ≤ now ≤ base + span →
  (∀ owner m, t_instances t !! (name, owner) = Some m → p m = negb (instance_lapsed 1 now m)) →
  instance_of <$> select_instances p name now t = liveInstances name (ms_time now) s.
Proof.
  intros Hsim Hnow Hp. unfold select_instances, liveInstances.
  rewrite (sort_slice_fmap _ _ owner_less) by (by intros [[[? ?] ?] ?] [[[? ?] ?] ?]).
  set (l1 := instance_of <$> _). set (l2 := omap _ (map_to_list (default _ _))).
  assert (∀ x, x ∈ l1 ↔ ∃ m, t_instances t !! (name, in_Owner x) = Some m ∧ instance_lapsed 1 now m = false ∧
    x = mkInstance (in_Owner x) (ir_version m) (held_by (in_Owner x) name s) (of_ms (now - ir_heartbeat m))) as Hl1.
  { intros x. unfold l1. rewrite list_elem_of_fmap. setoid_rewrite list_elem_of_omap. split.
    - intros (y & -> & [[n o] m] & Hm%elem_of_map_to_list & Hy). destruct (bool_decide_reflect (n = name)) as [->|]; [|done].
      rewrite (Hp _ _ Hm) in Hy. destruct (instance_lapsed 1 now m) eqn:Hla; cbn in Hy; [done|]. simplify_eq. cbn.
      exists m. split_and!; [done..|]. rewrite (count_held_sim _ _ _ _ _ _ Hsim). f_equal. f_equal.
      pose proof (sim_instance _ _ _ _ Hsim name o) as Hi. rewrite Hm in Hi. inversion Hi as [? ? [_ [_ ?] _]|]. lia.
    - intros (m & Hm & Hla & ->). eexists (_, _, _, _). split; [|exists (name, in_Owner x, m); split; [by apply elem_of_map_to_list|]].
      2: { cbn. rewrite bool_decide_true by done. rewrite (Hp _ _ Hm), Hla. cbn. done. }
      cbn. rewrite (count_held_sim _ _ _ _ _ _ Hsim). f_equal. f_equal.
      pose proof (sim_instance _ _ _ _ Hsim name (in_Owner x)) as Hi. rewrite Hm in Hi. inversion Hi as [? ? [_ [_ ?] _]|]. lia. }
  assert (∀ x, x ∈ l1 ↔ x ∈ l2) as He.
  { intros x. rewrite Hl1. unfold l2. rewrite list_elem_of_omap. pose proof (sim_instance _ _ _ _ Hsim name (in_Owner x)) as Hi. split.
    - intros (m & Hm & Hla & Hx). rewrite Hm in Hi. inversion Hi as [? i Hmi Hm' Hi'|]; subst. symmetry in Hi'.
      exists (in_Owner x, i). split; [by apply elem_of_map_to_list|]. rewrite (lapsed_sim _ _ _ _ Hmi Hnow), Hla.
      destruct Hmi as [H1 [H2 H3] _]. rewrite Hx at 3. rewrite H1, H2, ms_Sub by lia. done.
    - intros ([o i] & Hin%elem_of_map_to_list & Hx). destruct (expired (ms_time now) i) eqn:Hex; simplify_eq/=.
      rewrite Hin in Hi. inversion Hi as [m ? Hmi Hm' Hi'|]; subst. exists m. rewrite (lapsed_sim _ _ _ _ Hmi Hnow) in Hex.
      split_and!; [done..|]. destruct Hmi as [H1 [H2 H3] _]. rewrite H1, H2, ms_Sub by lia. done. }
  apply sort_slice_ext; [apply owner_less_order|..|done].
  - unfold l1. apply NoDup_fmap_2_strong.
    + intros [[[o1 v1] a1] c1] [[[o2 v2] a2] c2] H1 H2 [= -> _ _ _].
      apply list_elem_of_omap in H1 as ([[n1 p1] m1] & Hm1%elem_of_map_to_list & H1).
      apply list_elem_of_omap in H2 as ([[n2 p2] m2] & Hm2%elem_of_map_to_list & H2).
      destruct (bool_decide_reflect (n1 = name)) as [->|], (p m1); try done. cbn in H1.
      destruct (bool_decide_reflect (n2 = name)) as [->|], (p m2); try done. cbn in H2. congruence.
    + apply NoDup_omap_inj; [|apply NoDup_map_to_list]. intros [[n1 p1] m1] [[n2 p2] m2] z H1%elem_of_map_to_list H2%elem_of_map_to_list.
      destruct (bool_decide_reflect (n1 = name)) as [->|], (p m1); try done. cbn. intros [= <-].
      destruct (bool_decide_reflect (n2 = name)) as [->|], (p m2); try done. cbn. intros [= -> _ _]. congruence.
  - unfold l2. apply NoDup_omap_inj; [|apply NoDup_map_to_list].
    intros [o1 i1] [o2 i2] z H1%elem_of_map_to_list H2%elem_of_map_to_list.
    destruct (expired _ i1); [done|]. intros [= <-]. destruct (expired _ i2); [done|]. intros [= -> _ _]. congruence.
  - intros a b (m & Hm & _ & ->)%Hl1 (m' & Hm' & _ & ->)%Hl1 H1 H2. pose proof (owner_less_tie _ _ H1 H2) as Ho. cbn in Ho.
    rewrite Ho in *. congruence.
Qed.

Lemma LoadInstances_agrees calls T now t s m name : sim calls T t s → T ≤ now ≤ base + span →
  sqlite_LoadInstances (M := ()) (instant now) name (t, m) = (Ok (LoadInstances (ms_time now) name s), (t, m)).
Proof.
  intros Hsim Hnow. unfold sqlite_LoadInstances. run_tx. unfold LoadInstances.
  by rewrite (instances_sim calls T now t s name).
Qed.

Lemma sim_set_instances calls calls' T T' t s x ins : sim calls T t s → calls ≤ calls' → T ≤ T' →
  (∀ name owner, option_Forall2 (inst_sim T') (x !! (name, owner)) (default ∅ (ins !! name) !! owner)) →
  sim calls' T' (with_instances x t) (mkProjectionStore (projections s) (replays s) ins).
Proof. intros Hsim Hc HT Hi. apply (sim_mono _ calls' _ T') in Hsim; [|done..]. destruct Hsim as [? ? ? [? ?]]. by split. Qed.

Lemma Heartbeat_agrees calls T now t s m name owner v n : sim calls T t s → calls < max_int64 → T ≤ now ≤ base + span →
  base ≤ now → 0 ≤ n → of_ms n < max_int64 →
  ∃ t', sqlite_Heartbeat (M := ()) (instant now) name owner v (of_ms n) (t, m)
    = (Ok (Heartbeat (ms_time now) name owner v (of_ms n) s).1, (t', m)) ∧
    sim (calls + 1) now t' (Heartbeat (ms_time now) name owner v (of_ms n) s).2.
Proof.
  intros Hsim Hc Hnow Hb Hn Hn'. unfold sqlite_Heartbeat, Heartbeat.
  destruct (Z.eqb_spec (of_ms n) 0) as [Hz|Hz].
  - run_tx. eexists. split; [done|]. cbn.
    assert (sim (calls + 1) now (delete_instance name owner t) (mkProjectionStore (projections s) (replays s)
      match instances s !! name with None => instances s | Some ms => <[name := delete owner ms]> (instances s) end)) as Hs.
    { unfold delete_instance. apply (sim_set_instances calls _ T); [done|lia|lia|]. intros name' owner'.
      pose proof (sim_instance _ _ _ _ Hsim name' owner') as Hi.
      destruct (decide ((name', owner') = (name, owner))) as [[= -> ->]|Hne].
      - rewrite lookup_delete_eq. destruct (instances s !! name) as [ms|] eqn:Hms.
        + rewrite lookup_insert_eq. cbn. rewrite lookup_delete_eq. constructor.
        + rewrite Hms. cbn. rewrite lookup_empty. constructor.
      - rewrite lookup_delete_ne by done.
        eapply (option_Forall2_mono _ (inst_sim now)) in Hi; [|intros; eapply inst_sim_mono; [|done]; lia].
        destruct (instances s !! name) as [ms|] eqn:Hms; [|done]. rewrite lookup_insert. case_decide as Hnn; [|done]. subst name'.
        rewrite Hms in Hi. cbn in *. rewrite lookup_delete_ne; [done|]. congruence. }
    by destruct (instances s !! name); [|destruct s].
  - run_tx. rewrite Milliseconds_of_ms. set (t' := delete_lapsed_instances _ _ _ _). exists t'.
    set (ms' := filter _ _). assert (0 < n) as Hpos by (unfold of_ms, millisecond in Hz; lia).
    assert (sim (calls + 1) now t' (set_instances name ms' s)) as Hs.
    { change t' with (with_instances (t_instances t') t). apply (sim_set_instances calls _ T); [done|lia|lia|].
      intros name' owner'. cbn.
      pose proof (sim_instance _ _ _ _ Hsim name' owner') as Hi.
      eapply (option_Forall2_mono _ (inst_sim now)) in Hi; [|intros; eapply inst_sim_mono; [|done]; lia].
      rewrite map_lookup_filter, !lookup_insert. case_decide as Hk; case_decide as Hn2; simplify_eq; cbn.
      - unfold ms'. rewrite map_lookup_filter, lookup_insert_eq. cbn. rewrite bool_decide_true by done. cbn.
        assert (inst_sim now (mkInstanceRow v now n) (mkMemInstance v (ms_time now) (of_ms n))) as Hme by (split; cbn; (done || lia)).
        rewrite (lapsed_sim _ _ _ _ Hme) by lia. unfold instance_lapsed, lapsed; cbn. destruct (Z.ltb_spec now (now - n * 1)); [lia|].
        by constructor.
      - unfold ms'. rewrite map_lookup_filter, lookup_insert_ne by congruence.
        destruct Hi as [x i Hx|]; cbn; [|constructor]. rewrite bool_decide_true by done. cbn.
        rewrite (lapsed_sim _ _ _ _ Hx) by lia. destruct (instance_lapsed 1 now x); by constructor.
      - destruct Hi as [x i Hx|]; cbn; [|constructor]. rewrite bool_decide_false by congruence. by constructor. }
    split; [|done]. do 2 f_equal. apply (instances_sim (calls + 1) now); [done|lia|]. intros o x. unfold t'. cbn.
    rewrite map_lookup_filter_Some. rewrite bool_decide_true by done. intros [_ Hx]. cbn in Hx. by rewrite Hx.
Qed.

(** ** Requests *)

(** Changing what a projection keeps besides its segments *)
Lemma sim_set_projection calls calls' T T' t t' s name p p' n : sim calls T t s → calls ≤ calls' → T ≤ T' →
  projections s !! name = Some p → p_segments p' = p_segments p → p_rows p' = p_rows p →
  t_segments t' = t_segments t → t_letters t' = t_letters t → t_instances t' = t_instances t →
  (∀ name', name' ≠ name → t_rebuilds t' !! name' = t_rebuilds t !! name') → rebuild_sim calls' (t_rebuilds t' !! name) p' →
  let s' := mkProjectionStore (<[name := p']> (projections s)) n (instances s) in
  (∀ name' id req, memory_replay name' id s' = Some req → replay_sim (t_replays t') (t_replay_segments t') id name' req) →
  (∀ id r, t_replays t' !! id = Some r → 1 ≤ id ≤ t_replay_seq t' ∧ is_Some (memory_replay (rr_name r) id s')) →
  (∀ id j, is_Some (t_replay_segments t' !! (id, j)) → is_Some (t_replays t' !! id)) →
  t_replay_seq t' = n ∧ 0 ≤ n ≤ calls' → sim calls' T' t' s'.
Proof.
  intros Hsim Hc HT Hp Hsegs Hrows Hts Htl Hti Hother Hreb s' H1 H2 H3 H4.
  apply (sim_mono _ calls' _ T') in Hsim; [|done..]. destruct Hsim as [S1 S2 S3 [S4 S5] S6 S7 S8 S9 S10 S11 S12].
  assert (∀ l, row l s' = row l s) as Hrow by (intros l; apply (row_set_projection name p p' s l Hp Hrows)).
  split; [| | | | | | |done..].
  - intros l. rewrite Hts, Hrow. apply S1.
  - intros name' q. unfold s'; cbn. rewrite lookup_insert_Some. intros [[<- <-]|[? Hq]]; [|eauto]. rewrite Hsegs, Hrows. exact (S2 _ _ Hp).
  - intros l r. rewrite Hrow. intros Hr. rewrite (S3 _ _ Hr). unfold select_letters. by rewrite Htl.
  - split; [|by rewrite Htl]. rewrite Htl, Hts. done.
  - intros name' q. unfold s'; cbn. rewrite lookup_insert_Some. intros [[<- <-]|[? Hq]]; [done|]. rewrite Hother by congruence. eauto.
  - intros name'. unfold s'; cbn. rewrite lookup_insert_None. intros [? Hn]. rewrite Hother by congruence. eauto.
  - intros name' owner. rewrite Hti. apply S8.
Qed.

(** The requests to replay are untouched. *)
Lemma replays_untouched s name p p' : projections s !! name = Some p → p_replays p' = p_replays p →
  ∀ name' id, memory_replay name' id (mkProjectionStore (<[name := p']> (projections s)) (replays s) (instances s))
              = memory_replay name' id s.
Proof.
  intros Hp Hr name' id. unfold memory_replay; cbn. rewrite lookup_insert. case_decide as Hn; [|done].
  subst name'. rewrite Hp. cbn. by rewrite Hr.
Qed.

Lemma sim_set_rebuilds calls T now t s name p p' x : sim calls T t s → T ≤ now → projections s !! name = Some p →
  p_segments p' = p_segments p → p_rows p' = p_rows p → p_replays p' = p_replays p →
  (∀ name', name' ≠ name → x !! name' = t_rebuilds t !! name') → rebuild_sim (calls + 1) (x !! name) p' →
  sim (calls + 1) now (with_rebuilds x t) (set_projection name p' s).
Proof.
  intros Hsim HT Hp H1 H2 H3 H4 H5. pose proof (replays_untouched _ _ _ _ Hp H3) as Hr.
  apply (sim_set_projection calls _ T _ t _ _ _ p); try done; [lia|..].
  - intros name' id req. rewrite Hr. apply Hsim.
  - intros id r Hid. rewrite Hr. by apply Hsim.
  - apply Hsim.
  - pose proof (sim_seq _ _ _ _ Hsim). cbn. lia.
Qed.

Lemma RequestRebuild_agrees calls T now t s m name : sim calls T t s → calls < max_int64 → T ≤ now →
  ∃ t', sqlite_RequestRebuild (M := ()) (instant now) name (t, m) = ((RequestRebuild name s).1, (t', m)) ∧
    sim (calls + 1) now t' (RequestRebuild name s).2.
Proof.
  intros Hsim Hc HT. unfold sqlite_RequestRebuild. run_tx. unfold upsert_rebuild, RequestRebuild.
  rewrite (sim_declared _ _ _ _ Hsim). destruct (projections s !! name) as [p|] eqn:Hp; cbn.
  2: { exists t. split; [done|]. eapply sim_mono; [..|done]; lia. }
  pose proof (sim_rebuild _ _ _ _ Hsim _ _ Hp) as Hr. eexists. split.
  - do 2 f_equal. destruct (t_rebuilds t !! name) as [r|]; cbn in *.
    + destruct Hr as (-> & _). done.
    + destruct Hr as (-> & _). done.
  - apply (sim_set_rebuilds calls T _ _ _ _ p); try done.
    + intros. by rewrite lookup_insert_ne.
    + rewrite lookup_insert_eq. destruct (t_rebuilds t !! name) as [r|]; cbn in *.
      * destruct Hr as (E1 & E2 & E3 & E4 & H1 & H2 & H3). rewrite small_u64 by (unfold small; lia).
        split_and!; (done || lia).
      * destruct Hr as (E1 & E2 & E3 & E4). pose proof (sim_seq _ _ _ _ Hsim). rewrite E1, small_u64 by (unfold small, max_int64; lia).
        split_and!; (done || lia).
Qed.

Lemma Rebuilds_agrees calls T now t s m name : sim calls T t s → calls ≤ max_int64 →
  sqlite_Rebuilds (M := ()) (instant now) name (t, m) = (Ok (Rebuilds name s), (t, m)).
Proof.
  intros Hsim Hc. unfold sqlite_Rebuilds. run_tx. unfold Rebuilds. destruct (projections s !! name) as [p|] eqn:Hp.
  - pose proof (sim_rebuild _ _ _ _ Hsim _ _ Hp) as Hr. destruct (t_rebuilds t !! name) as [r|]; cbn in *.
    + destruct Hr as (<- & <- & _ & _ & H1 & H2 & _). rewrite !small_u64 by (unfold small; lia). done.
    + destruct Hr as (-> & -> & _). done.
  - by rewrite (sim_no_rebuild _ _ _ _ Hsim _ Hp).
Qed.

Lemma FailRebuild_agrees calls T now t s m l n err : sim calls T t s → calls < max_int64 → T ≤ now → is_u64 (l_Epoch l) →
  (∀ p, projections s !! l_Name l = Some p → 0 < n ≤ p_rebuildsRequested p) →
  ∃ t', let '(e, s') := FailRebuild l n err s in
    sqlite_FailRebuild (M := ()) (instant now) l n err (t, m)
    = (match e with None => Ok () | Some e => Fail e end, (t', m)) ∧ sim (calls + 1) now t' s'.
Proof.
  intros Hsim Hc HT He Hn. unfold sqlite_FailRebuild. rewrite runTx_instant. unfold mbind at 1. unfold SE_bind at 1.
  rewrite (ownedPosition_agrees _ _ _ _ _ _ _ _ Hsim ltac:(lia) He). unfold FailRebuild.
  assert (sim (calls + 1) now t s) as Hsame by (eapply sim_mono; [..|done]; lia).
  destruct (owned l s) as [r|] eqn:Hr; [|by exists t]. pose proof (owned_row _ _ _ Hr) as Hrow. unfold row in Hrow.
  destruct (projections s !! l_Name l) as [p|] eqn:Hp; cbn in Hrow; [|congruence]. specialize (Hn p eq_refl).
  pose proof (sim_rebuild _ _ _ _ Hsim _ _ Hp) as Hrb.
  destruct (t_rebuilds t !! l_Name l) as [rb|] eqn:Htr; cbn in Hrb; [|lia]. destruct Hrb as (H1 & H2 & H3 & H4 & H5 & H6 & H7).
  run_tx. eexists. split; [done|]. rewrite small_int64 by (unfold small; lia).
  destruct (Z.leb_spec (p_rebuildFailed p) n) as [Hle|Hgt].
  - apply (sim_set_rebuilds calls T _ _ _ _ p); try done; [intros; by rewrite lookup_alter_ne|].
    rewrite lookup_alter_eq, Htr. cbn. rewrite H3. destruct (Z.leb_spec (p_rebuildFailed p) n); [|lia]. cbn. split_and!; (done || lia).
  - replace (update_rebuild_failed (l_Name l) n err t) with t; [done|]. unfold update_rebuild_failed.
    enough (∀ x, x = t_rebuilds t → with_rebuilds x t = t) as Hx; [symmetry; apply Hx|by intros ? ->; destruct t].
    apply map_eq. intros k. rewrite lookup_alter. case_decide as Hk; [|done]. subst k. rewrite Htr. cbn.
    destruct (Z.leb_spec (rb_failed rb) n); [lia|done].
Qed.

Lemma RebuildFailure_agrees calls T now t s m name : sim calls T t s → calls ≤ max_int64 →
  sqlite_RebuildFailure (M := ()) (instant now) name (t, m) = (Ok (RebuildFailure name s), (t, m)).
Proof.
  intros Hsim Hc. unfold sqlite_RebuildFailure. run_tx. unfold RebuildFailure. destruct (projections s !! name) as [p|] eqn:Hp.
  - pose proof (sim_rebuild _ _ _ _ Hsim _ _ Hp) as Hr. destruct (t_rebuilds t !! name) as [r|]; cbn in *.
    + destruct Hr as (_ & _ & <- & <- & H1 & H2 & H3). rewrite !small_u64 by (unfold small; lia). done.
    + destruct Hr as (_ & _ & -> & ->). done.
  - by rewrite (sim_no_rebuild _ _ _ _ Hsim _ Hp).
Qed.

Lemma LoadDeadLetters_agrees calls T now t s m name seg : sim calls T t s →
  sqlite_LoadDeadLetters (M := ()) (instant now) name seg (t, m) = (Ok (LoadDeadLetters name seg s), (t, m)).
Proof.
  intros Hsim. unfold sqlite_LoadDeadLetters. run_tx. unfold LoadDeadLetters.
  destruct (row (mkLease name seg "" 0) s) as [r|] eqn:Hr; [by rewrite (sim_letters _ _ _ _ Hsim _ _ Hr)|].
  rewrite select_letters_none; [done|apply Hsim|]. pose proof (sim_row _ _ _ _ Hsim (mkLease name seg "" 0)) as H.
  rewrite Hr in H. by inversion H.
Qed.

(** ** Replay requests *)
Lemma letters_of_stream calls T t s name p stream j : sim calls T t s → projections s !! name = Some p →
  (∃ r, p_rows p !! j = Some r ∧ has_letters stream r = true) ↔
  ∃ d, d ∈ t_letters t ∧ of_stream name stream d = true ∧ lt_segment d = j.
Proof.
  intros Hsim Hp. assert (∀ r, p_rows p !! j = Some r ↔ row (mkLease name j "" 0) s = Some r) as Hrow.
  { intros r. unfold row; cbn. by rewrite Hp. }
  unfold has_letters. split.
  - intros (r & Hr & Hl). apply Hrow in Hr. rewrite (sim_letters _ _ _ _ Hsim _ _ Hr) in Hl.
    apply existsb_elem in Hl as (d & Hd & Hs%bool_decide_eq_true). apply elem_of_letters in Hd as (x & Hx & Hxs & ->).
    exists x. unfold of_segment, of_stream in *. cbn in Hxs. apply andb_true_iff in Hxs as [-> ->%Z.eqb_eq].
    split_and!; [done| |done]. cbn in *. by rewrite bool_decide_true.
  - intros (d & Hd & [Hn Hs]%andb_true_iff & <-). apply bool_decide_eq_true in Hn as <-.
    destruct (lw_segment _ (sim_letters_wf _ _ _ _ Hsim) d Hd) as [_ [g Hg]].
    pose proof (sim_row _ _ _ _ Hsim (mkLease (lt_projection d) (lt_segment d) "" 0)) as H. cbn in H. rewrite Hg in H.
    inversion H as [? r Hgr Hg' Hr|]. subst. symmetry in Hr. exists r. split; [by apply Hrow|].
    apply existsb_elem. exists (letter_of d). split; [|done].
    rewrite (sim_letters _ _ _ _ Hsim _ _ Hr). apply elem_of_letters. exists d. split_and!; [done| |done].
    unfold of_segment; cbn. by rewrite bool_decide_true, Z.eqb_refl.
Qed.

Lemma replay_segments_lookup (n : Z) (x : replay_segment_row) (l : list letter_row) (m : gmap (Z * Z) replay_segment_row) (id j : Z) :
  foldr (λ d m, <[(n, lt_segment d) := x]> m) m l !! (id, j)
  = if bool_decide (id = n) && existsb (λ d, lt_segment d =? j) l then Some x else m !! (id, j).
Proof.
  induction l as [|d l IH]; cbn; [by rewrite andb_false_r|].
  rewrite lookup_insert, IH. destruct (decide ((n, lt_segment d) = (id, j))) as [Hd|Hd].
  - injection Hd as <- <-. by rewrite bool_decide_true, Z.eqb_refl.
  - case_bool_decide as Hn; [|done]. subst id. destruct (Z.eqb_spec (lt_segment d) j); [|done]. by subst.
Qed.

Lemma RequestReplay_agrees calls T now t s m name stream : sim calls T t s → calls < max_int64 → T ≤ now →
  ∃ t', sqlite_RequestReplay (M := ()) (instant now) name stream (t, m) = ((RequestReplay name stream s).1, (t', m)) ∧
    sim (calls + 1) now t' (RequestReplay name stream s).2.
Proof.
  intros Hsim Hc HT. unfold sqlite_RequestReplay. rewrite runTx_instant. run_tx. unfold RequestReplay.
  assert (sim (calls + 1) now t s) as Hsame by (eapply sim_mono; [..|done]; lia).
  rewrite (sim_declared _ _ _ _ Hsim). destruct (projections s !! name) as [p|] eqn:Hp; cbn; [|by exists t].
  pose proof (λ j, letters_of_stream _ _ _ _ _ _ stream j Hsim Hp) as Hletters.
  set (segs := (λ _, mkReplaySegment false "") <$> filter _ (p_rows p)).
  assert (∀ j x, segs !! j = Some x ↔ x = mkReplaySegment false "" ∧
    existsb (λ d, lt_segment d =? j) (bfilter (of_stream name stream) (t_letters t)) = true) as Hsegs.
  { intros j x. unfold segs. rewrite lookup_fmap_Some. setoid_rewrite map_lookup_filter_Some. cbn.
    rewrite existsb_elem. setoid_rewrite elem_of_bfilter. setoid_rewrite Z.eqb_eq. split.
    - intros (r & -> & Hr). split; [done|]. destruct (proj1 (Hletters j)) as (d & ? & ? & ?); eauto.
    - intros (-> & d & [? ?] & ?). destruct (proj2 (Hletters j)) as (r & ? & ?); eauto. }
  assert (letters_exist name stream t = negb (bool_decide (segs = ∅))) as ->.
  { unfold letters_exist. apply eq_true_iff_eq. rewrite existsb_elem, negb_true_iff, bool_decide_eq_false. split.
    - intros (d & Hd & Hs) He. assert (segs !! lt_segment d = Some (mkReplaySegment false "")) as Hx; [|by rewrite He, lookup_empty in Hx].
      apply Hsegs. split; [done|]. apply existsb_elem. exists d. rewrite elem_of_bfilter, Z.eqb_eq. done.
    - intros He. apply map_choose in He as (j & x & [_ Hx]%Hsegs). apply existsb_elem in Hx as (d & [Hd Hs]%elem_of_bfilter & _). eauto. }
  case_bool_decide as He; cbn; [by exists t|].
  pose proof (sim_seq _ _ _ _ Hsim) as [Hseq Hbound]. rewrite Hseq.
  assert (u64 (replays s + 1) = replays s + 1) as -> by (apply small_u64; unfold small; lia).
  eexists. split; [done|].
  assert (∀ id, t_replays t !! id ≠ None → id ≤ replays s) as Hold.
  { intros id Hid. destruct (t_replays t !! id) as [r|] eqn:Hr; [|done]. destruct (sim_replay_row _ _ _ _ Hsim _ _ Hr). lia. }
  assert (t_replays t !! (replays s + 1) = None) as Hfresh.
  { apply eq_None_not_Some. intros [r Hr]. assert (replays s + 1 ≤ replays s); [apply Hold; by rewrite Hr|lia]. }
  assert (∀ j, t_replay_segments t !! (replays s + 1, j) = None) as Hfresh'.
  { intros j. apply eq_None_not_Some. intros Hj. destruct (sim_part _ _ _ _ Hsim _ _ Hj) as [r Hr]. congruence. }
  eapply (sim_set_projection calls _ T _ t _ _ name p); try done; [lia|apply (sim_rebuild _ _ _ _ Hsame _ _ Hp)|..]; cbn.
  - intros name' id req. unfold memory_replay; cbn. rewrite lookup_insert. case_decide as Hn; [subst name'; cbn; rewrite lookup_insert_Some|].
    + intros [[<- <-]|[Hid Hreq]].
      * split; cbn; [by rewrite lookup_insert_eq|]. intros j. rewrite replay_segments_lookup, bool_decide_true by done. cbn.
        destruct (segs !! j) as [x|] eqn:Hx.
        -- apply Hsegs in Hx as [-> ->]. by repeat constructor.
        -- destruct (existsb _ _) eqn:Hex; [|rewrite Hfresh'; constructor].
           assert (segs !! j = Some (mkReplaySegment false "")) by (by apply Hsegs). congruence.
      * destruct (sim_replay _ _ _ _ Hsim name id req) as [H1 H2]; [unfold memory_replay; by rewrite Hp|]. split.
        -- rewrite lookup_insert_ne by congruence. done.
        -- intros j. rewrite replay_segments_lookup, bool_decide_false by congruence. apply H2.
    + intros Hreq. destruct (sim_replay _ _ _ _ Hsim name' id req Hreq) as [H1 H2].
      assert (id ≤ replays s) by (apply Hold; by rewrite H1). split.
      * rewrite lookup_insert_ne by lia. done.
      * intros j. rewrite replay_segments_lookup, bool_decide_false by lia. apply H2.
  - intros id r. rewrite lookup_insert_Some. unfold memory_replay; cbn. intros [[<- <-]|[Hid Hr]].
    + split; [lia|]. cbn. rewrite lookup_insert_eq. cbn. rewrite lookup_insert_eq. eauto.
    + destruct (sim_replay_row _ _ _ _ Hsim id r Hr) as [Hb Hm]. split; [lia|]. rewrite lookup_insert. case_decide as Hn; [|done].
      revert Hm. unfold memory_replay. rewrite <- Hn, Hp. cbn. by rewrite lookup_insert_ne by congruence.
  - intros id j. rewrite replay_segments_lookup, lookup_insert. case_decide as Hn; [eauto|].
    rewrite bool_decide_false by congruence. cbn. apply Hsim.
  - lia.
Qed.

(** A request's numbers fit the column. *)
Lemma replay_number calls T t s id r : sim calls T t s → calls ≤ max_int64 → t_replays t !! id = Some r → small id.
Proof. intros Hsim Hc Hr. destruct (sim_replay_row _ _ _ _ Hsim _ _ Hr), (sim_seq _ _ _ _ Hsim). unfold small. lia. Qed.

Lemma elem_of_select_replays name t id j r g :
  (id, j, r, g) ∈ select_replays name t ↔
  t_replay_segments t !! (id, j) = Some g ∧ t_replays t !! id = Some r ∧ rr_name r = name.
Proof.
  unfold select_replays. rewrite elem_of_sort_slice, list_elem_of_omap. split.
  - intros ([[id' j'] g'] & Hin%elem_of_map_to_list & Hx). destruct (t_replays t !! id') as [r'|] eqn:Hr; [|done].
    case_bool_decide; naive_solver.
  - intros (Hg & Hr & Hn). exists (id, j, g). split; [by apply elem_of_map_to_list|]. by rewrite Hr, bool_decide_true.
Qed.

Lemma replay_row_order : weak_order replay_row_less.
Proof.
  split; unfold replay_row_less; intros; cbn in *;
    repeat match goal with H : _ = _ |- _ => revert H end; rewrite ?orb_false_iff, ?orb_true_iff, ?andb_false_iff, ?andb_true_iff,
    ?Z.ltb_lt, ?Z.ltb_ge, ?Z.eqb_eq, ?Z.eqb_neq; lia.
Qed.

Lemma select_replays_sorted name t : StronglySorted (λ a b, replay_row_less a b = true) (select_replays name t).
Proof.
  unfold select_replays. apply sort_slice_strict; [apply replay_row_order|..].
  - apply NoDup_omap_inj; [|apply NoDup_map_to_list]. intros [[id j] g] [[id' j'] g'] z _ _.
    destruct (t_replays t !! id), (t_replays t !! id'); try done. repeat case_bool_decide; naive_solver.
  - intros [[[id j] r] g] [[[id' j'] r'] g'] H1 H2.
    rewrite <- (elem_of_sort_slice replay_row_less) in H1, H2.
    apply elem_of_select_replays in H1 as (Hg & Hr & _). apply elem_of_select_replays in H2 as (Hg' & Hr' & _).
    unfold replay_row_less; cbn. rewrite !orb_false_iff, !andb_false_iff, !Z.ltb_ge, !Z.eqb_neq. intros ? ?.
    assert (id = id') as -> by lia. assert (j = j') as -> by lia. congruence.
Qed.

Lemma PendingReplays_agrees calls T now t s m name : sim calls T t s → calls ≤ max_int64 →
  sqlite_PendingReplays (M := ()) (instant now) name (t, m) = (Ok (PendingReplays name s), (t, m)).
Proof.
  intros Hsim Hc. unfold sqlite_PendingReplays. run_tx. do 2 f_equal.
  assert (∀ a b, replay_less a b = true ↔ rp_Number a < rp_Number b ∨ (rp_Number a = rp_Number b ∧ rp_Segment a < rp_Segment b)) as Hless.
  { intros a b. unfold replay_less. by rewrite orb_true_iff, andb_true_iff, !Z.ltb_lt, Z.eqb_eq. }
  apply (strictly_sorted_ext (λ a b, replay_less a b = true)).
  - intros x y. rewrite !Hless. lia.
  - eapply StronglySorted_fmap_in; [|apply StronglySorted_bfilter, select_replays_sorted].
    intros [[[id j] r] g] [[[id' j'] r'] g'] [_ H1]%elem_of_bfilter [_ H2]%elem_of_bfilter.
    apply elem_of_select_replays in H1 as (_ & Hr & _). apply elem_of_select_replays in H2 as (_ & Hr' & _).
    rewrite Hless; cbn. rewrite !small_u64 by (by eapply replay_number).
    unfold replay_row_less; cbn. rewrite orb_true_iff, andb_true_iff, !Z.ltb_lt, Z.eqb_eq. lia.
  - unfold PendingReplays. destruct (projections s !! name) as [p|] eqn:Hp; [|constructor]. apply sort_slice_strict.
    + split; cbn; intros a b; unfold replay_less; intros; repeat match goal with H : _ = _ |- _ => revert H end;
        rewrite ?orb_false_iff, ?orb_true_iff, ?andb_false_iff, ?andb_true_iff, ?Z.ltb_lt, ?Z.ltb_ge, ?Z.eqb_eq, ?Z.eqb_neq; lia.
    + rewrite concat_fmap. apply NoDup_bind; [| |apply NoDup_map_to_list].
      * intros [n1 q1] [n2 q2] y H1%elem_of_map_to_list H2%elem_of_map_to_list Hy1 Hy2.
        apply list_elem_of_omap in Hy1 as ([j1 x1] & _ & Hy1). apply list_elem_of_omap in Hy2 as ([j2 x2] & _ & Hy2).
        destruct (negb (rs_done x1)), (negb (rs_done x2)); simplify_eq/=. done.
      * intros [n1 q1] _. apply NoDup_omap_inj; [|apply NoDup_map_to_list].
        intros [j1 x1] [j2 x2] y H1%elem_of_map_to_list H2%elem_of_map_to_list Hy1 Hy2.
        destruct (negb (rs_done x1)), (negb (rs_done x2)); simplify_eq/=. done.
    + intros a b Ha Hb H1 H2.
      rewrite <- (elem_of_sort_slice replay_less) in Ha, Hb.
      assert (a ∈ PendingReplays name s) as (p1 & q1 & ? & Hp1 & Hq1 & Hs1 & _)%elem_of_PendingReplays by (unfold PendingReplays; by rewrite Hp).
      assert (b ∈ PendingReplays name s) as (p2 & q2 & ? & Hp2 & Hq2 & Hs2 & _)%elem_of_PendingReplays by (unfold PendingReplays; by rewrite Hp).
      apply not_true_iff_false in H1, H2. rewrite Hless in H1, H2.
      assert (rp_Number a = rp_Number b ∧ rp_Segment a = rp_Segment b) as [Hn Hg] by lia.
      rewrite Hn in Hq1. simplify_eq. destruct a, b; cbn in *. congruence.
  - intros rp. rewrite elem_of_PendingReplays, list_elem_of_fmap. split.
    + intros ([[[id j] r] g] & -> & [Hd Hin]%elem_of_bfilter). apply elem_of_select_replays in Hin as (Hg & Hr & Hn).
      destruct (sim_replay_row _ _ _ _ Hsim _ _ Hr) as [_ [req Hreq]]. rewrite Hn in Hreq.
      destruct (sim_replay _ _ _ _ Hsim _ _ _ Hreq) as [H1 H2]. specialize (H2 j). rewrite Hg in H2.
      inversion H2 as [? x [Hx _] Hx1 Hx2|]; subst. symmetry in Hx2. unfold memory_replay in Hreq.
      destruct (projections s !! rr_name r) as [p|] eqn:Hp; [|done]. cbn in *. exists p, req, x.
      rewrite small_u64 by (by eapply replay_number). rewrite Hr in H1. simplify_eq. split_and!; try done; [by rewrite H1|].
      rewrite <- Hx. by destruct (rg_done g).
    + intros (p & req & x & Hp & Hreq & Hs & Hx & Hd). destruct (sim_replay _ _ _ _ Hsim name (rp_Number rp) req) as [H1 H2].
      { unfold memory_replay. by rewrite Hp. }
      specialize (H2 (rp_Segment rp)). rewrite Hx in H2. inversion H2 as [g ? [Hgx _] Hg1 Hg2|]; subst. symmetry in Hg1.
      exists (rp_Number rp, rp_Segment rp, mkReplayRow name (mr_streamID req), g). split.
      * cbn. rewrite small_u64 by (by eapply replay_number). rewrite Hs. by destruct rp.
      * apply elem_of_bfilter. cbn. rewrite Hgx, Hd. split; [done|]. by apply elem_of_select_replays.
Qed.

(** The requests of a name, as both stores look them up *)
Lemma select_replay_sim calls T t s name n : sim calls T t s → calls ≤ max_int64 → is_u64 n →
  match memory_replay name n s with
  | Some req => select_replay name (int64 n) t = Some (mkReplayRow name (mr_streamID req)) ∧ int64 n = n
  | None => select_replay name (int64 n) t = None
  end.
Proof.
  intros Hsim Hc Hn. unfold select_replay. destruct (memory_replay name n s) as [req|] eqn:Hreq.
  - destruct (sim_replay _ _ _ _ Hsim _ _ _ Hreq) as [H1 _].
    assert (int64 n = n) as Hi by (apply small_int64; by eapply replay_number). rewrite Hi, H1. cbn. by rewrite bool_decide_true.
  - destruct (t_replays t !! int64 n) as [r|] eqn:Hr; [|done]. case_bool_decide as Hnr; [|done].
    pose proof (replay_number _ _ _ _ _ _ Hsim Hc Hr) as Hs. apply (int64_eq_small _ _ Hn) in Hs as [Hs _].
    destruct (sim_replay_row _ _ _ _ Hsim _ _ Hr) as [_ [req Hm]]. rewrite <- (Hs eq_refl), Hnr, Hreq in Hm. done.
Qed.

Lemma no_segment_row_spec id p t :
  no_segment_row id p t = true ↔ ∀ j g, t_replay_segments t !! (id, j) = Some g → p g = false.
Proof.
  unfold no_segment_row. rewrite forallb_elem. split.
  - intros H j g Hg. specialize (H ((id, j), g)). rewrite elem_of_map_to_list in H. specialize (H Hg). cbn in H.
    rewrite Z.eqb_refl in H. by apply negb_true_iff in H.
  - intros H [[id' j] g] Hin%elem_of_map_to_list. destruct (Z.eqb_spec id' id) as [->|]; [|done]. cbn. by rewrite (H j g Hin).
Qed.

(** The second DELETE finds the same requests as the first. *)
Lemma obsolete_again name stream n t id :
  let p := replay_obsolete name stream n t in
  replay_obsolete name stream n (delete_replay_segments p t) id = p id.
Proof.
  intros p. unfold p. apply eq_true_iff_eq. unfold replay_obsolete at 1 3.
  change (t_replays (delete_replay_segments _ t)) with (t_replays t).
  destruct (t_replays t !! id) as [r|] eqn:Hr; [|done]. rewrite !andb_true_iff, !no_segment_row_spec.
  assert (∀ id' j g, t_replay_segments (delete_replay_segments p t) !! (id', j) = Some g ↔
    t_replay_segments t !! (id', j) = Some g ∧ p id' = false) as Hdel.
  { intros. cbn. rewrite map_lookup_filter_Some. done. }
  fold p. setoid_rewrite Hdel. split; [|naive_solver]. intros (((Hb & Hid) & Hdone) & Hok).
  assert (∀ id', p id' = true → ∀ j g, t_replay_segments t !! (id', j) = Some g → negb (rg_done g) = false) as Hp.
  { intros id'. unfold p, replay_obsolete. destruct (t_replays t !! id'); [|done].
    rewrite !andb_true_iff, !no_segment_row_spec. tauto. }
  assert (∀ id', p id' = true → ∀ j g, t_replay_segments t !! (n, j) = Some g → negb (rg_done g) || bool_decide (is_Some (rg_error g)) = false) as Hp'.
  { intros id'. unfold p, replay_obsolete. destruct (t_replays t !! id'); [|done].
    rewrite !andb_true_iff, !no_segment_row_spec. tauto. }
  split; [split; [done|]|].
  - intros j g Hg. destruct (p id) eqn:Hpi; [eauto|apply (Hdone j g); done].
  - intros j g Hg. destruct (p n) eqn:Hpn; [eauto|apply (Hok j g); done].
Qed.

(** What FinishReplay's statements leave *)
Lemma finish_tables name stream n seg err t :
  let t1 := update_replay_segment n seg err t in
  let p := replay_obsolete name stream n t1 in
  let t2 := delete_replay_segments p t1 in
  delete_replays (replay_obsolete name stream n t2) t2
  = with_replays (filter (λ '(id, _), p id = false) (t_replays t)) (t_replay_seq t)
      (filter (λ '((id, _), _), p id = false) (t_replay_segments t1)) t.
Proof.
  intros t1 p t2. assert (∀ id, replay_obsolete name stream n t2 id = p id) as Hp by (intros; apply obsolete_again).
  change (delete_replays (replay_obsolete name stream n t2) t2)
    with (with_replays (filter (λ '(id, _), replay_obsolete name stream n t2 id = false) (t_replays t)) (t_replay_seq t)
      (filter (λ '((id, _), _), p id = false) (t_replay_segments t1)) t).
  f_equal. apply map_filter_ext. intros id r _. by rewrite Hp.
Qed.

Lemma succeeded_spec req :
  succeeded req = true ↔ ∀ seg st, mr_segments req !! seg = Some st → rs_done st = true ∧ rs_err st = "".
Proof.
  unfold succeeded. rewrite forallb_elem. split.
  - intros H seg st Hst. specialize (H (seg, st)). rewrite elem_of_map_to_list, andb_true_iff, bool_decide_eq_true in H. auto.
  - intros H [seg st] Hin%elem_of_map_to_list. rewrite andb_true_iff, bool_decide_eq_true. eauto.
Qed.

Lemma part_bad g x : part_sim g x → negb (rg_done g) || bool_decide (is_Some (rg_error g)) = false ↔ rs_done x = true ∧ rs_err x = "".
Proof.
  intros [-> ->]. rewrite orb_false_iff, negb_false_iff, bool_decide_eq_false. unfold nullString.
  case_bool_decide as He; [|split; [intros [_ H]; destruct H; eauto|tauto]]. split; [tauto|]. intros [? _]. split; [done|by intros []].
Qed.

(** A request of the memory and the rows of the same number agree on being done. *)
Lemma rows_finished rows parts id name req t : replay_sim rows parts id name req → t_replay_segments t = parts →
  no_segment_row id (λ g, negb (rg_done g)) t = finished req ∧
  no_segment_row id (λ g, negb (rg_done g) || bool_decide (is_Some (rg_error g))) t = succeeded req.
Proof.
  intros [_ Hparts] Ht. split; apply eq_true_iff_eq; rewrite no_segment_row_spec, ?finished_spec, ?succeeded_spec, Ht; split.
  - intros H j x Hx. specialize (Hparts j). rewrite Hx in Hparts. inversion Hparts as [g ? [Hd _] Hg|]; subst.
    symmetry in Hg. specialize (H j g Hg). apply negb_false_iff in H. congruence.
  - intros H j g Hg. specialize (Hparts j). rewrite Hg in Hparts. inversion Hparts as [? x [Hd _] Hx Hx'|]; subst.
    symmetry in Hx'. apply negb_false_iff. rewrite Hd. eauto.
  - intros H j x Hx. specialize (Hparts j). rewrite Hx in Hparts. inversion Hparts as [g ? Hgx Hg|]; subst.
    symmetry in Hg. apply (part_bad g x Hgx). eauto.
  - intros H j g Hg. specialize (Hparts j). rewrite Hg in Hparts. inversion Hparts as [? x Hgx Hx Hx'|]; subst.
    symmetry in Hx'. apply (part_bad g x Hgx). eauto.
Qed.

(** What the memory keeps when a segment has finished request [n] *)
Definition req_done (seg : Z) (err : string) (req : memoryReplay) : memoryReplay :=
  match mr_segments req !! seg with
  | None => req
  | Some _ => mkMemReplay (mr_streamID req) (<[seg := mkReplaySegment true err]> (mr_segments req))
  end.

Lemma req_done_stream seg err req : mr_streamID (req_done seg err req) = mr_streamID req.
Proof. unfold req_done. by destruct (mr_segments req !! seg). Qed.

Lemma update_part_sim t n seg err name req : replay_sim (t_replays t) (t_replay_segments t) n name req →
  replay_sim (t_replays t) (t_replay_segments (update_replay_segment n seg (nullString err) t)) n name (req_done seg err req).
Proof.
  intros [H1 H2]. split; [by rewrite req_done_stream|]. intros j. cbn. specialize (H2 j). unfold req_done.
  destruct (decide (j = seg)) as [->|Hj].
  - rewrite lookup_alter_eq. destruct (mr_segments req !! seg) as [x|] eqn:Hx; inversion H2; subst; cbn.
    + rewrite lookup_insert_eq. by repeat constructor.
    + rewrite Hx. constructor.
  - rewrite lookup_alter_ne by congruence. destruct (mr_segments req !! seg); [|done]. cbn. by rewrite lookup_insert_ne.
Qed.

Lemma update_part_other t n seg err id name req : replay_sim (t_replays t) (t_replay_segments t) id name req → id ≠ n →
  replay_sim (t_replays t) (t_replay_segments (update_replay_segment n seg (nullString err) t)) id name req.
Proof. intros [H1 H2] Hid. split; [done|]. intros j. cbn. rewrite lookup_alter_ne by congruence. apply H2. Qed.

(** Deleting requests [gone] selects on both sides *)
Lemma replay_sim_filter rows parts (gone : Z → bool) id name req : replay_sim rows parts id name req → gone id = false →
  replay_sim (filter (λ '(id, _), gone id = false) rows) (filter (λ '((id, _), _), gone id = false) parts) id name req.
Proof.
  intros [H1 H2] Hg. split; [by apply map_lookup_filter_Some|]. intros j. rewrite map_lookup_filter.
  destruct (H2 j); cbn; [|constructor]. case_guard; [by constructor|done].
Qed.

Lemma FinishReplay_agrees calls T now t s m l n err : sim calls T t s → calls < max_int64 → T ≤ now →
  is_u64 (l_Epoch l) → is_u64 n →
  ∃ t', let '(e, s') := FinishReplay l n err s in
    sqlite_FinishReplay (M := ()) (instant now) l n err (t, m)
    = (match e with None => Ok () | Some e => Fail e end, (t', m)) ∧ sim (calls + 1) now t' s'.
Proof.
  intros Hsim Hc HT He Hn. unfold sqlite_FinishReplay. rewrite runTx_instant. unfold mbind at 1. unfold SE_bind at 1.
  rewrite (ownedPosition_agrees _ _ _ _ _ _ _ _ Hsim ltac:(lia) He). unfold FinishReplay.
  assert (sim (calls + 1) now t s) as Hsame by (eapply sim_mono; [..|done]; lia).
  destruct (owned l s) as [r|] eqn:Hr; [|by exists t]. pose proof (owned_row _ _ _ Hr) as Hrow. unfold row in Hrow.
  destruct (projections s !! l_Name l) as [p|] eqn:Hp; cbn in Hrow; [|congruence].
  pose proof (select_replay_sim _ _ _ _ (l_Name l) _ Hsim ltac:(lia) Hn) as Hsel. unfold memory_replay in Hsel. rewrite Hp in Hsel.
  cbn [mbind option_bind] in Hsel. erewrite bind_run by apply select_instant. cbn [fst snd].
  destruct (p_replays p !! n) as [req|] eqn:Hreq.
  2: { rewrite Hsel. exists t. done. }
  destruct Hsel as [-> ->]. cbn [rr_stream_id].
  destruct (sim_replay _ _ _ _ Hsim (l_Name l) n req) as [Hrow1 Hparts]; [unfold memory_replay; by rewrite Hp|].
  change (match mr_segments req !! l_Segment l with None => req | Some _ => _ end) with (req_done (l_Segment l) err req).
  set (req' := req_done (l_Segment l) err req).
  set (t1 := update_replay_segment n (l_Segment l) (nullString err) t).
  set (gone := replay_obsolete (l_Name l) (mr_streamID req) n t1).
  set (rs := <[n := req']> (p_replays p)).
  assert (∀ id q, rs !! id = Some q → replay_sim (t_replays t) (t_replay_segments t1) id (l_Name l) q) as Hrs.
  { intros id q. unfold rs. rewrite lookup_insert_Some. intros [[<- <-]|[Hid Hq]]; [by apply update_part_sim|].
    apply update_part_other; [|done]. apply Hsim. unfold memory_replay. by rewrite Hp. }
  assert (replay_sim (t_replays t) (t_replay_segments t1) n (l_Name l) req') as Hreq' by (apply Hrs, lookup_insert_eq).
  assert (∀ id q, rs !! id = Some q →
    gone id = (id <=? n) && bool_decide (mr_streamID q = mr_streamID req') && finished q && succeeded req') as Hgone.
  { intros id q Hq. destruct (rows_finished _ _ _ _ _ t1 (Hrs id q Hq) eq_refl) as [Hf _].
    destruct (rows_finished _ _ _ _ _ t1 Hreq' eq_refl) as [_ Hs]. unfold gone, replay_obsolete.
    rewrite Hf, Hs. change (t_replays t1) with (t_replays t). rewrite (rp_row _ _ _ _ _ (Hrs id q Hq)). cbn.
    unfold req'. rewrite req_done_stream, bool_decide_true by done. cbn. f_equal. f_equal. apply andb_comm. }
  assert (∀ id q, (if succeeded req' then filter (λ '(n0, earlier), (n0 <=? n) && bool_decide (mr_streamID earlier = mr_streamID req')
    && finished earlier = false) rs else rs) !! id = Some q ↔ rs !! id = Some q ∧ gone id = false) as Hkeep.
  { intros id q. destruct (succeeded req') eqn:Hs.
    - rewrite map_lookup_filter_Some. split; intros [Hq Hg]; (split; [done|]); rewrite (Hgone _ _ Hq), andb_true_r in *; done.
    - split; [|tauto]. intros Hq. split; [done|]. by rewrite (Hgone _ _ Hq), andb_false_r. }
  assert (∀ id r0, t_replays t !! id = Some r0 → rr_name r0 ≠ l_Name l → gone id = false) as Hothers.
  { intros id r0 Hr0 Hne. unfold gone, replay_obsolete. change (t_replays t1) with (t_replays t). rewrite Hr0.
    by rewrite bool_decide_false. }
  revert Hkeep. generalize (if succeeded req' then filter (λ '(n0, earlier), (n0 <=? n) &&
    bool_decide (mr_streamID earlier = mr_streamID req') && finished earlier = false) rs else rs) as rs'. intros rs' Hkeep.
  set (t2 := delete_replay_segments gone t1).
  exists (delete_replays (replay_obsolete (l_Name l) (mr_streamID req) n t2) t2). split; [done|].
  unfold t2, gone, t1. rewrite finish_tables. fold t1. fold gone.
  apply (sim_set_projection calls _ T _ t _ _ (l_Name l) p); try done; [lia|apply (sim_rebuild _ _ _ _ Hsame _ _ Hp)|..]; cbn.
  - intros name' id q. unfold memory_replay; cbn. rewrite lookup_insert. case_decide as Hname.
    + subst name'. cbn. intros [Hq Hg]%Hkeep. apply replay_sim_filter; auto.
    + intros Hq. pose proof (sim_replay _ _ _ _ Hsim name' id q Hq) as Hold. pose proof (rp_row _ _ _ _ _ Hold) as H1.
      assert (id ≠ n) by (intros ->; congruence). apply replay_sim_filter; [by apply update_part_other|].
      apply (Hothers _ _ H1). cbn. congruence.
  - intros id r0 [Hr0 Hg]%map_lookup_filter_Some. destruct (sim_replay_row _ _ _ _ Hsim id r0 Hr0) as [Hb Hm]. split; [done|].
    unfold memory_replay; cbn. rewrite lookup_insert. case_decide as Hname; [|done]. cbn.
    assert (is_Some (rs !! id)) as [q Hq].
    { unfold rs. rewrite lookup_insert_is_Some. destruct (decide (n = id)); [by left|right]. split; [done|].
      unfold memory_replay in Hm. rewrite <- Hname, Hp in Hm. done. }
    exists q. by apply Hkeep.
  - intros id j [g [Hg Hgone']%map_lookup_filter_Some]. cbn in Hg.
    assert (is_Some (t_replay_segments t !! (id, j))) as [r0 Hr0]%(sim_part _ _ _ _ Hsim).
    { revert Hg. rewrite lookup_alter. case_decide as Hk; [|eauto]. rewrite <- Hk.
      destruct (t_replay_segments t !! (n, l_Segment l)) eqn:E; [|done]. eauto. }
    exists r0. by apply map_lookup_filter_Some.
  - pose proof (sim_seq _ _ _ _ Hsame). tauto.
Qed.

(** The parts of one request, in the order of their segments *)
Definition part_of (x : Z * replay_segment_row) : Z * memoryReplaySegment :=
  (x.1, mkReplaySegment (rg_done x.2) (orEmpty (rg_error x.2))).

Lemma replay_parts_sim calls T t s name n req : sim calls T t s → memory_replay name n s = Some req →
  part_of <$> ((λ r : Z * Z * replay_row * replay_segment_row, (r.1.1.2, r.2)) <$>
    bfilter (λ r, r.1.1.1 =? n) (select_replays name t))
  = sort_slice (λ a b : Z * memoryReplaySegment, a.1 <? b.1) (map_to_list (mr_segments req)).
Proof.
  intros Hsim Hreq. destruct (sim_replay _ _ _ _ Hsim _ _ _ Hreq) as [H1 H2].
  apply (strictly_sorted_ext (λ a b : Z * memoryReplaySegment, a.1 < b.1)); [lia|..].
  - eapply (StronglySorted_fmap_in _ (λ a b : Z * replay_segment_row, a.1 < b.1)); [done|].
    eapply StronglySorted_fmap_in; [|apply StronglySorted_bfilter, select_replays_sorted].
    intros [[[id j] r] g] [[[id' j'] r'] g'] [Hid%Z.eqb_eq _]%elem_of_bfilter [Hid'%Z.eqb_eq _]%elem_of_bfilter. cbn in *. subst.
    unfold replay_row_less; cbn. rewrite orb_true_iff, andb_true_iff, !Z.ltb_lt. lia.
  - eapply StronglySorted_impl; [|apply sort_slice_strict].
    + intros x y. apply Z.ltb_lt.
    + apply (weak_Z_key fst).
    + apply NoDup_map_to_list.
    + intros [i x] [j y] Hi%elem_of_map_to_list Hj%elem_of_map_to_list. cbn. rewrite !Z.ltb_ge. intros ? ?.
      assert (i = j) as -> by lia. congruence.
  - intros [j x]. rewrite elem_of_sort_slice, elem_of_map_to_list. rewrite list_elem_of_fmap. setoid_rewrite list_elem_of_fmap.
    specialize (H2 j). split.
    + intros ([j' g] & Hx & ([[[id k] r] g'] & Hy & [Hid%Z.eqb_eq Hin]%elem_of_bfilter)). cbn in *. subst id.
      apply elem_of_select_replays in Hin as (Hg & _). unfold part_of in Hx. simplify_eq/=. rewrite Hg in H2.
      inversion H2 as [? x [Hd He] Hg1 Hx1|]; subst. rewrite Hd, He, orEmpty_nullString. by destruct x.
    + intros Hx. rewrite Hx in H2. inversion H2 as [g ? [Hd He] Hg1|]; subst. symmetry in Hg1. exists (j, g). split.
      * unfold part_of; cbn. rewrite Hd, He, orEmpty_nullString. by destruct x.
      * eexists (n, j, _, g). split; [done|]. apply elem_of_bfilter. cbn. rewrite Z.eqb_refl. split; [done|].
        by apply elem_of_select_replays.
Qed.

Lemma ReplayResult_agrees calls T now t s m name n : sim calls T t s → calls ≤ max_int64 → is_u64 n →
  sqlite_ReplayResult (M := ()) (instant now) name n (t, m) = (Ok (ReplayResult name n s), (t, m)).
Proof.
  intros Hsim Hc Hn. unfold sqlite_ReplayResult. run_tx. do 2 f_equal. unfold ReplayResult.
  change (p ← projections s !! name; p_replays p !! n) with (memory_replay name n s).
  pose proof (select_replay_sim _ _ _ _ name _ Hsim Hc Hn) as Hsel. destruct (memory_replay name n s) as [req|] eqn:Hreq.
  - destruct Hsel as [_ ->]. rewrite <- (replay_parts_sim _ _ _ _ _ _ _ Hsim Hreq).
    assert (∀ id j r g, (id, j, r, g) ∈ bfilter (λ r : Z * Z * replay_row * replay_segment_row, r.1.1.1 =? n) (select_replays name t) →
      rg_error g ≠ Some "") as Hne.
    { intros id j r g [_ Hin]%elem_of_bfilter. apply elem_of_select_replays in Hin as (Hg & Hr & Hrn).
      destruct (sim_replay_row _ _ _ _ Hsim _ _ Hr) as [_ [q Hq]]. destruct (sim_replay _ _ _ _ Hsim _ _ _ Hq) as [_ Hp].
      specialize (Hp j). rewrite Hg in Hp. inversion Hp as [? x [_ He] Hg1 Hx1|]; subst. rewrite He. by intros [_ ?]%nullString_eq. }
    revert Hne. generalize (bfilter (λ r : Z * Z * replay_row * replay_segment_row, r.1.1.1 =? n) (select_replays name t)).
    induction l as [|[[[id j] r] g] l IH]; intros Hne; [done|].
    specialize (IH ltac:(intros; eapply Hne; by constructor)). injection IH as IH1 IH2.
    specialize (Hne id j r g ltac:(constructor)). cbn. destruct (rg_done g) eqn:Hd; cbn.
    + rewrite IH1. f_equal. destruct (rg_error g) as [e|] eqn:He; cbn; [|done]. rewrite bool_decide_false by congruence. cbn.
      by rewrite IH2.
    + by rewrite !zlen_cons, IH1, IH2.
  - assert (bfilter (λ r, r.1.1.1 =? int64 n) (select_replays name t) = []) as ->; [|done].
    apply bfilter_none, Forall_forall. intros [[[id j] r] g] Hin. cbn. apply Z.eqb_neq. intros ->.
    apply elem_of_select_replays in Hin as (_ & Hr & Hrn). unfold select_replay in Hsel. rewrite Hr, bool_decide_true in Hsel; done.
Qed.
End sim.

(** ** Histories *)

(** A call of a projection store; times to live in milliseconds *)
Inductive proj_call : Type :=
| PDeclare (name : string) (segments replayUntil : Z)
| PClaim (l : Lease) (ttl_ms : Z)
| PCommit (l : Lease) (cp : Checkpoint) (status : Status) (es : list edit)
| PReset (l : Lease) (newVersion : Z)
| PRelease (l : Lease)
| PSaveStatus (l : Lease) (status : Status)
| PLoadStatuses (name : string)
| PHeartbeat (name owner : string) (version ttl_ms : Z)
| PLoadInstances (name : string)
| PRequestRebuild (name : string)
| PRebuilds (name : string)
| PFailRebuild (l : Lease) (requested : Z) (errMsg : string)
| PRebuildFailure (name : string)
| PLoadDeadLetters (name : string) (segment : Z)
| PRequestReplay (name streamID : string)
| PPendingReplays (name : string)
| PFinishReplay (l : Lease) (number : Z) (errMsg : string)
| PReplayResult (name : string) (number : Z).

Inductive proj_answer : Type :=
| ADone (r : result error ())
| AClaim (r : result error (Lease * Checkpoint * bool))
| AStatuses (r : result error (list Status))
| AInstances (r : result error (list Instance_))
| ANumber (r : result error Z)
| ANumbers (r : result error (Z * Z))
| AFailure (r : result error (Z * string))
| ALetters (r : result error (list DeadLetter))
| AReplays (r : result error (list Replay))
| AResult (r : result error (Z * list string)).

Definition done_or (e : option error) : result error () := match e with None => Ok () | Some e => Fail e end.

(** The two stores' answers: equal, statuses but for the age of a segment
    that was never claimed *)
Definition same_answer (sqlite memory : proj_answer) : Prop :=
  match sqlite, memory with
  | AStatuses (Ok xs), AStatuses (Ok ys) => Forall2 same_status xs ys
  | _, _ => sqlite = memory
  end.

Lemma same_answer_refl a : same_answer a a.
Proof. destruct a as [| |[sts|]| | | | | | |]; try done. cbn. induction sts; constructor; [by left|done]. Qed.

Definition answer {A} (f : A → proj_answer) {S} (x : A * S) : proj_answer * S := (f x.1, x.2).

(** A call of [sqlite/projection_store.go] when the clock reads [now], of a
    database that answers *)
Definition sqlite_call (now : Z) (c : proj_call) (d : proj_tables * ()) : proj_answer * (proj_tables * ()) :=
  let env := instant now in
  match c with
  | PDeclare name n ru => answer ADone (sqlite_Declare env name n ru d)
  | PClaim l ttl => answer AClaim (sqlite_Claim env l (of_ms ttl) d)
  | PCommit l cp st es => answer ADone (sqlite_Commit env l cp st (sqlite_edits env l es) d)
  | PReset l v => answer ADone (sqlite_Reset env l v (mret ()) d)
  | PRelease l => answer ADone (sqlite_Release env l d)
  | PSaveStatus l st => answer ADone (sqlite_SaveStatus env l st d)
  | PLoadStatuses name => answer AStatuses (sqlite_LoadStatuses env name d)
  | PHeartbeat name owner v ttl => answer AInstances (sqlite_Heartbeat env name owner v (of_ms ttl) d)
  | PLoadInstances name => answer AInstances (sqlite_LoadInstances env name d)
  | PRequestRebuild name => answer ANumber (sqlite_RequestRebuild env name d)
  | PRebuilds name => answer ANumbers (sqlite_Rebuilds env name d)
  | PFailRebuild l n err => answer ADone (sqlite_FailRebuild env l n err d)
  | PRebuildFailure name => answer AFailure (sqlite_RebuildFailure env name d)
  | PLoadDeadLetters name seg => answer ALetters (sqlite_LoadDeadLetters env name seg d)
  | PRequestReplay name stream => answer ANumber (sqlite_RequestReplay env name stream d)
  | PPendingReplays name => answer AReplays (sqlite_PendingReplays env name d)
  | PFinishReplay l n err => answer ADone (sqlite_FinishReplay env l n err d)
  | PReplayResult name n => answer AResult (sqlite_ReplayResult env name n d)
  end.

(** The same call of [memory/projection_store.go] *)
Definition memory_call (now : Z) (c : proj_call) (s : ProjectionStore) : proj_answer * ProjectionStore :=
  let t := ms_time now in
  match c with
  | PDeclare name n ru => answer (λ e, ADone (done_or e)) (Declare_ name n ru s)
  | PClaim l ttl => answer (λ x, AClaim (Ok x)) (Claim t l (of_ms ttl) s)
  | PCommit l cp st es => let '(e, (s, _)) := Commit t l cp st (memory_edits l es) (s, ()) in (ADone (done_or e), s)
  | PReset l v => let '(e, (s, _)) := Reset t l v no_fn (s, ()) in (ADone (done_or e), s)
  | PRelease l => (ADone (Ok ()), Release l s)
  | PSaveStatus l st => answer (λ e, ADone (done_or e)) (SaveStatus t l st s)
  | PLoadStatuses name => (AStatuses (Ok (LoadStatuses t name s)), s)
  | PHeartbeat name owner v ttl => answer (λ x, AInstances (Ok x)) (Heartbeat t name owner v (of_ms ttl) s)
  | PLoadInstances name => (AInstances (Ok (LoadInstances t name s)), s)
  | PRequestRebuild name => answer ANumber (RequestRebuild name s)
  | PRebuilds name => (ANumbers (Ok (Rebuilds name s)), s)
  | PFailRebuild l n err => answer (λ e, ADone (done_or e)) (FailRebuild l n err s)
  | PRebuildFailure name => (AFailure (Ok (RebuildFailure name s)), s)
  | PLoadDeadLetters name seg => (ALetters (Ok (LoadDeadLetters name seg s)), s)
  | PRequestReplay name stream => answer ANumber (RequestReplay name stream s)
  | PPendingReplays name => (AReplays (Ok (PendingReplays name s)), s)
  | PFinishReplay l n err => answer (λ e, ADone (done_or e)) (FinishReplay l n err s)
  | PReplayResult name n => (AResult (Ok (ReplayResult name n s)), s)
  end.

(** What the runners' calls keep to: numbers that fit a column of 64 bits,
    owners that have a name, times to live above a millisecond, a status that
    does not claim a time to live, no two dead letters at one position, and
    failures of rebuilds that were requested. *)
Definition call_ok (c : proj_call) (s : ProjectionStore) : Prop :=
  match c with
  | PDeclare _ n ru => 0 < n ∧ small ru
  | PClaim l ttl => is_u64 (l_Epoch l) ∧ l_Owner l ≠ "" ∧ 0 < ttl ∧ of_ms ttl < max_int64
  | PCommit l cp st es => is_u64 (l_Epoch l) ∧ small (Position cp) ∧ small (ReplayUntil cp) ∧ small (st_Head st) ∧
      st_ClaimTTL st = 0 ∧ (∀ n, st_Phase st ≠ OtherPhase n) ∧ ∀ r, owned l s = Some r → edits_ok (r_deadLetters r) es
  | PSaveStatus l st => is_u64 (l_Epoch l) ∧ (∀ n, st_Phase st ≠ OtherPhase n) ∧ small (st_Head st)
  | PHeartbeat _ _ _ ttl => 0 ≤ ttl ∧ of_ms ttl < max_int64
  | PFailRebuild l n _ => is_u64 (l_Epoch l) ∧ ∀ p, projections s !! l_Name l = Some p → 0 < n ≤ p_rebuildsRequested p
  | PFinishReplay l n _ => is_u64 (l_Epoch l) ∧ is_u64 n
  | PReset l _ | PRelease l => is_u64 (l_Epoch l)
  | PReplayResult _ n => is_u64 n
  | _ => True
  end.

Section histories.
Context `{C : Clock}.

(** A clock that runs forward from [T], and calls as the runners make them *)
Fixpoint history_ok (T : Z) (cs : list (Z * proj_call)) (s : ProjectionStore) : Prop :=
  match cs with
  | [] => True
  | (now, c) :: cs => T ≤ now ≤ base + span ∧ call_ok c s ∧ history_ok now cs (memory_call now c s).2
  end.

Lemma call_agrees calls T now c t s : sim calls T t s → calls < max_int64 → T ≤ now ≤ base + span → base ≤ now →
  call_ok c s →
  ∃ a t', sqlite_call now c (t, ()) = (a, (t', ())) ∧ same_answer a (memory_call now c s).1 ∧
    sim (calls + 1) now t' (memory_call now c s).2.
Proof.
  assert ((∃ name, c = PLoadStatuses name) ∨ ¬ ∃ name, c = PLoadStatuses name) as [(name & ->)|Hne]
    by (destruct c; first [by left; eexists|by right; intros []]).
  { intros Hsim Hc Hnow _ _. destruct (LoadStatuses_agrees _ _ _ _ _ () name Hsim ltac:(lia) Hnow) as (sts & Hrun & Hs).
    cbn [sqlite_call memory_call]. unfold answer. rewrite Hrun. do 2 eexists. split; [done|]. split; [exact Hs|].
    eapply sim_mono; [..|done]; lia. }
  enough (sim calls T t s → calls < max_int64 → T ≤ now ≤ base + span → base ≤ now → call_ok c s →
    ∃ t', sqlite_call now c (t, ()) = ((memory_call now c s).1, (t', ())) ∧ sim (calls + 1) now t' (memory_call now c s).2) as H.
  { intros Hsim Hc Hnow Hb Hok. destruct (H Hsim Hc Hnow Hb Hok) as (t' & Hrun & Hsim'). do 2 eexists. split; [exact Hrun|].
    split; [apply same_answer_refl|done]. }
  intros Hsim Hc Hnow Hb Hok. assert (sim (calls + 1) now t s) as Hsame by (eapply sim_mono; [..|done]; lia).
  assert (calls ≤ max_int64) as Hc' by lia. assert (T ≤ now) as HT by lia.
  destruct c as [name n ru|l ttl|l cp st es|l v|l|l st|name|name owner v ttl|name|name|name|l n err|name|name seg|name stream
    |name|l n err|name n]; cbn [call_ok] in Hok; unfold sqlite_call, memory_call, answer.
  - destruct Hok. destruct (Declare_agrees _ _ _ _ _ () name n ru Hsim Hc HT Hb) as (t' & -> & ?); [done..|]. by exists t'.
  - destruct Hok as (? & ? & ? & ?). destruct (Claim_agrees _ _ _ _ _ () l ttl Hsim Hc Hnow) as (t' & -> & ?); [done..|]. by exists t'.
  - destruct Hok as (? & ? & ? & ? & ? & ? & ?).
    destruct (Commit_agrees _ _ _ _ _ () l cp st es Hsim Hc HT Hb) as (t' & H'); [done..|].
    destruct (Commit _ _ _ _ _ _) as [e [s' []]]. destruct H' as [-> ?]. by exists t'.
  - destruct (Reset_agrees _ _ _ _ _ () l v Hsim Hc HT Hb Hok) as (t' & H').
    destruct (Reset _ _ _ _ _) as [e [s' []]]. destruct H' as [-> ?]. by exists t'.
  - destruct (Release_agrees _ _ _ _ _ () l Hsim Hc HT Hok) as (t' & -> & ?). by exists t'.
  - destruct Hok as (? & ? & ?). destruct (SaveStatus_agrees _ _ _ _ _ () l st Hsim Hc HT Hb) as (t' & H'); [done..|].
    destruct (SaveStatus _ _ _ _) as [e s']. destruct H' as [-> ?]. by exists t'.
  - destruct Hne. by exists name.
  - destruct Hok. destruct (Heartbeat_agrees _ _ _ _ _ () name owner v ttl Hsim Hc Hnow Hb) as (t' & -> & ?); [done..|]. by exists t'.
  - exists t. by rewrite (LoadInstances_agrees _ _ _ _ _ () name Hsim Hnow).
  - destruct (RequestRebuild_agrees _ _ _ _ _ () name Hsim Hc HT) as (t' & -> & ?). by exists t'.
  - exists t. by rewrite (Rebuilds_agrees _ _ now _ _ () name Hsim Hc').
  - destruct Hok. destruct (FailRebuild_agrees _ _ _ _ _ () l n err Hsim Hc HT) as (t' & H'); [done..|].
    destruct (FailRebuild _ _ _ _) as [e s']. destruct H' as [-> ?]. by exists t'.
  - exists t. by rewrite (RebuildFailure_agrees _ _ now _ _ () name Hsim Hc').
  - exists t. by rewrite (LoadDeadLetters_agrees _ _ now _ _ () name seg Hsim).
  - destruct (RequestReplay_agrees _ _ _ _ _ () name stream Hsim Hc HT) as (t' & -> & ?). by exists t'.
  - exists t. by rewrite (PendingReplays_agrees _ _ now _ _ () name Hsim Hc').
  - destruct Hok. destruct (FinishReplay_agrees _ _ _ _ _ () l n err Hsim Hc HT) as (t' & H'); [done..|].
    destruct (FinishReplay _ _ _ _) as [e s']. destruct H' as [-> ?]. by exists t'.
  - exists t. by rewrite (ReplayResult_agrees _ _ now _ _ () name n Hsim Hc' Hok).
Qed.

(** C5: The SQLite projection store behaves as the in-memory one, but for one age.
    Along every history of fewer than 2^63 - 1 calls by any number of
    instances on any number of projections, at readings of a clock in whole
    milliseconds that runs forward, both stores give the same answers:
    declarations, claims with their epochs and checkpoints, commits with the
    dead letters saved and deleted in them, resets, statuses, heartbeats and
    the instances they list, rebuild requests and failures, dead letters, and
    replay requests with their results.  The one difference: in a status of a
    segment without owner whose Age the memory gives as 0, the SQLite store
    may give another Age; the memory keeps no heartbeat of a segment before
    its first claim, SQLite keeps the time of its declaration.  The calls keep
    to what the runners do: at least one segment and a replay position below
    2^63 in Declare; a named owner and a time to live of whole milliseconds,
    positive and below MaxInt64 nanoseconds, in Claim, and one that is not
    negative in Heartbeat; epochs and replay numbers are uint64s; positions
    and heads below 2^63, a known phase and no ClaimTTL in the status of a
    Commit, a known phase and such a head in SaveStatus; a Commit's function
    saves and deletes dead letters, with positions below 2^63 and never two at
    one position, a Reset's does nothing; FailRebuild is for a rebuild that
    was requested. *)
Theorem sqlite_projection_store_refines_memory cs :
  zlen cs < max_int64 → history_ok base cs NewProjectionStore →
  Forall2 same_answer (answers sqlite_call cs (empty_tables, ())) (answers memory_call cs NewProjectionStore).
Proof.
  intros Hlen. assert (∀ calls T t s, sim calls T t s → base ≤ T → calls + zlen cs < max_int64 → history_ok T cs s →
    Forall2 same_answer (answers sqlite_call cs (t, ())) (answers memory_call cs s)) as H.
  2: { apply (H 0); [apply empty_sim|lia|lia]. }
  clear Hlen. induction cs as [|[now c] cs IH]; intros calls T t s Hsim HT Hc Hok; [constructor|].
  destruct Hok as (Hnow & Hcall & Hok). rewrite zlen_cons in Hc. pose proof (zlen_nonneg cs). cbn [answers].
  destruct (call_agrees calls T now c t s) as (a & t' & Hrun & Ha & Hsim'); [done|lia|done|lia|done|].
  rewrite Hrun. destruct (memory_call now c s) as [a' s']. cbn [fst snd] in *. constructor; [exact Ha|]. apply (IH (calls + 1) now); [done|lia|lia|done].
Qed.
End histories.
