(* ===== verification/PgProjStore.v ===== *)
(** * The PostgreSQL projection store ([postgres/projection_store.go])

    The database is the tables of [SqlProjection], with heartbeats in
    microseconds, and the tables of the read model, any [M].  Each method here
    is what it does while no other transaction is under way; [PgUnits] runs
    transactions side by side.  Sequences are not rolled back.  A number that
    a BIGINT cannot keep is refused by pgx: one of the faults a statement can
    have. *)
From S2P Require Import Prelude Core ProjStore Effect SqlTx SqlValues SqlProjection.

(** Microseconds per millisecond *)
Definition pg_ms : Z := 1000.

Section store.
Context {M : Type}.
Notation D := (proj_tables * M)%type.
(** [pg_age]: what a float64 of seconds keeps of a number of microseconds;
    [collate]: the order of the database's collation, in which LoadInstances
    and Heartbeat list owners. *)
Context (pg_age : Z → duration) (collate : string → string → bool) (env : db_env).

(** The rows go back, the sequences do not. *)
Definition roll_back (t t' : proj_tables) : proj_tables :=
  with_letters (t_letters t) (t_letter_seq t') (with_replays (t_replays t) (t_replay_seq t') (t_replay_segments t) t).

(** [runTx] *)
Definition pg_runTx {A} (begin_text commit_text : string) (fn : Tx D A) (d : D) : result error A * D :=
  match db_fault env 0 with
  | Some e => (Fail (Errorf begin_text e), d)
  | None =>
    match fn (1%nat, d) with
    | (Fail e, (_, d')) => (Fail e, (roll_back d.1 d'.1, d.2))
    | (Ok a, (n, d')) =>
      match db_fault env n with
      | Some e => (Fail (Errorf commit_text e), (roll_back d.1 d'.1, d.2))
      | None => (Ok a, d')
      end
    end
  end.

(** Statements on the store's own tables *)
Definition pg_query {A} (text : string) (f : Z → proj_tables → A) : Tx D A := select env text (λ now d, f now d.1).
Definition pg_update {A} (text : string) (f : Z → proj_tables → A * proj_tables) : Tx D A :=
  update env text (λ now d, let '(a, t) := f now d.1 in (a, (t, d.2))).
Definition pg_exec (text : string) (f : Z → proj_tables → proj_tables) : Tx D () :=
  pg_update text (λ now t, ((), f now t)).

(** ** Declaring and claiming *)

(** One INSERT ... ON CONFLICT DO NOTHING of the batch *)
Definition insert_if_absent (name : string) (seg replayUntil now : Z) (t : proj_tables) : proj_tables :=
  match insert_segment name seg replayUntil now t with None => t | Some t => t end.

Fixpoint insert_absent (name : string) (replayUntil : Z) (n : nat) (i now : Z) (t : proj_tables) : proj_tables :=
  match n with
  | O => t
  | S n => insert_absent name replayUntil n (i + 1) now (insert_if_absent name i replayUntil now t)
  end.

(** The batch is sent at once, and is one transaction. *)
Definition pg_insertSegments (name : string) (segments replayUntil : Z) : Tx D () :=
  pg_exec "declare segments" (insert_absent name replayUntil (Z.to_nat segments) 0).

Definition pg_Declare (name : string) (segments replayUntil : Z) : Tx D () :=
  count ← pg_query "declare: count segments" (λ _, count_segments name);
  if count =? 0 then pg_insertSegments name segments replayUntil
  else if negb (count =? segments) then fail (Sentinel ErrSegmentsChanged)
  else mret ().

Definition pg_Claim (l : Lease) (ttl : duration) : D → result error (Lease * Checkpoint * bool) * D :=
  autocommit (
    row ← pg_update "claim" (update_claim pg_ms (l_Name l) (l_Segment l) (l_Owner l) (Milliseconds ttl) (l_Epoch l));
    match row with
    | None => mret (mkLease "" 0 "" 0, mkCheckpoint 0 0 0 "", false)
    | Some g =>
      mret (mkLease (l_Name l) (l_Segment l) (l_Owner l) (sg_epoch g),
            mkCheckpoint (sg_position g) (sg_version g) (sg_replay_until g) (sg_fingerprint g), true)
    end).

(** [lockOwned] *)
Definition lockOwned (l : Lease) : Tx D Z :=
  row ← pg_query "lock" (λ _ t, t_segments t !! (l_Name l, l_Segment l));
  match row with
  | None => fail (Sentinel ErrClaimLost)
  | Some g => if negb (held_row (l_Owner l) (l_Epoch l) g) then fail (Sentinel ErrClaimLost) else mret (sg_position g)
  end.

(** ** Units of work *)
Definition commit_row (cp : Checkpoint) (status : Status) (now : Z) (g : segment_row) : segment_row :=
  set_checkpoint (Position cp) (cp_Version cp) (ReplayUntil cp) (Fingerprint cp) (Phase_String (st_Phase status))
    (st_Head status) (nullString (st_LastError status)) now g.

Definition pg_Commit (l : Lease) (cp : Checkpoint) (status : Status) (fn : Tx D ()) : D → result error () * D :=
  pg_runTx "commit: begin" "commit: commit" (
    lockOwned l ;;
    fn ;;
    pg_update "store checkpoint" (λ now, update_held (l_Name l) (l_Segment l) (l_Owner l) (l_Epoch l) (commit_row cp status now)) ;;
    mret ()).

(** ON DELETE CASCADE *)
Definition delete_replays_cascade (p : proj_tables → Z → bool) (t : proj_tables) : proj_tables :=
  delete_replays (p t) (delete_replay_segments (p t) t).

(** Of the rows Reset locked, whether the one of [l] is its claim *)
Definition holds_segment (l : Lease) (rows : list (Z * segment_row)) : bool :=
  existsb (λ '(seg, g), (seg =? l_Segment l) && held_row (l_Owner l) (l_Epoch l) g) rows.

Definition pg_Reset (l : Lease) (newVersion : Z) (wipe : Tx D ()) : D → result error () * D :=
  pg_runTx "reset: begin" "reset: commit" (
    rows ← pg_query "lock segments" (λ _, segments_of (l_Name l));
    if negb (holds_segment l rows) then fail (Sentinel ErrClaimLost)
    else
      wipe ;;
      pg_exec "reset checkpoints" (λ now, update_reset (l_Name l) newVersion (l_Segment l) now) ;;
      pg_exec "clear dead letters" (λ _, delete_letters (l_Name l)) ;;
      pg_exec "clear replay requests" (λ _, delete_replays_cascade (replay_of (l_Name l))) ;;
      pg_exec "mark rebuild requests done" (λ _, update_rebuilds_done (l_Name l))).

Definition pg_Release (l : Lease) : D → result error () * D :=
  autocommit (
    pg_update "release" (λ _, update_held (l_Name l) (l_Segment l) (l_Owner l) (l_Epoch l) set_released) ;;
    mret ()).

Definition pg_SaveStatus (l : Lease) (status : Status) : D → result error () * D :=
  autocommit (
    n ← pg_update "save status" (λ now, update_held (l_Name l) (l_Segment l) (l_Owner l) (l_Epoch l)
          (set_phase (Phase_String (st_Phase status)) (st_Head status) (nullString (st_LastError status)) now));
    if n =? 0 then fail (Sentinel ErrClaimLost) else mret ()).

Definition pg_status_of (row : Z * segment_row * Z * bool) : Status :=
  let '(seg, g, age, pending) := row in
  mkStatus (parsePhase (sg_phase g)) (sg_position g) (sg_head g) (sg_version g) (orEmpty (sg_last_error g))
    (orEmpty (sg_owner g)) seg (pg_age age) (sg_replay_until g)
    (match sg_owner g with Some _ => of_ms (sg_ttl_ms g) | None => 0 end) pending.

Definition pg_LoadStatuses (name : string) : D → result error (list Status) * D :=
  autocommit (rows ← pg_query "load statuses" (select_statuses name); mret (pg_status_of <$> rows)).

(** ** Instances *)
Definition pg_instance_of (row : string * Z * Z * Z) : Instance_ :=
  let '(owner, version, age, segments) := row in mkInstance owner version segments (pg_age age).

(** The rows of instances that are not lapsed and that [p] selects, with
    their age and the segments they claim *)
Definition live_rows (p : string → bool) (name : string) (now : Z) (t : proj_tables) : list (string * Z * Z * Z) :=
  omap (λ '((n, owner), m),
    if bool_decide (n = name) && p owner && negb (instance_lapsed pg_ms now m)
    then Some (owner, ir_version m, now - ir_heartbeat m, count_held n owner t) else None)
    (map_to_list (t_instances t)).

Definition order_by_owner (rows : list (string * Z * Z * Z)) : list (string * Z * Z * Z) :=
  sort_slice (λ a b : string * Z * Z * Z, collate a.1.1.1 b.1.1.1) rows.

(** The statement of [Heartbeat]: its reads see the table before its writes. *)
Definition heartbeat_rows (name owner : string) (version now : Z) (t : proj_tables) : list (string * Z * Z * Z) :=
  order_by_owner (live_rows (λ o, negb (bool_decide (o = owner))) name now t ++ [(owner, version, 0, count_held name owner t)]).

Definition heartbeat_write (name owner : string) (version ttl_ms now : Z) (t : proj_tables) : proj_tables :=
  upsert_instance name owner version ttl_ms now
    (with_instances (filter (λ '((n, o), m),
       bool_decide (n = name) && negb (bool_decide (o = owner)) && instance_lapsed pg_ms now m = false) (t_instances t)) t).

Definition pg_Heartbeat (name owner : string) (version : Z) (ttl : duration) : D → result error (list Instance_) * D :=
  if ttl =? 0 then
    autocommit (pg_exec "leave" (λ _, delete_instance name owner) ;; mret [])
  else
    autocommit (
      rows ← pg_update "heartbeat" (λ now t,
        (heartbeat_rows name owner version now t, heartbeat_write name owner version (Milliseconds ttl) now t));
      mret (pg_instance_of <$> rows)).

Definition pg_LoadInstances (name : string) : D → result error (list Instance_) * D :=
  autocommit (
    rows ← pg_query "load instances" (λ now t, order_by_owner (live_rows (λ _, true) name now t));
    mret (pg_instance_of <$> rows)).

(** ** Rebuild requests *)
Definition pg_RequestRebuild (name : string) : D → result error Z * D :=
  autocommit (
    n ← pg_update "request rebuild" (λ _, upsert_rebuild name);
    match n with None => fail (Sentinel ErrUnknownProjection) | Some n => mret n end).

Definition pg_Rebuilds (name : string) : D → result error (Z * Z) * D :=
  autocommit (
    r ← pg_query "read rebuild requests" (λ _ t, t_rebuilds t !! name);
    match r with None => mret (0, 0) | Some r => mret (rb_requested r, rb_done r) end).

Definition pg_FailRebuild (l : Lease) (requested : Z) (errMsg : string) : D → result error () * D :=
  pg_runTx "fail rebuild: begin" "fail rebuild: commit" (
    lockOwned l ;;
    pg_exec "fail rebuild" (λ _, update_rebuild_failed (l_Name l) requested errMsg)).

Definition pg_RebuildFailure (name : string) : D → result error (Z * string) * D :=
  autocommit (
    r ← pg_query "read rebuild failure" (λ _ t, t_rebuilds t !! name);
    match r with None => mret (0, "") | Some r => mret (rb_failed r, orEmpty (rb_error r)) end).

(** ** Dead letters, in the transaction of their context; [now()] is its start. *)
Definition pg_SaveDeadLetter (tx : bool) (l : Lease) (d : DeadLetter) : Tx D () :=
  if negb tx then fail (New "postgres: SaveDeadLetter called outside a ProjectionStore commit")
  else pg_exec "save dead letter" (λ _, insert_letter (l_Name l) (l_Segment l) (dl_Position d) (dl_StreamID d)
    (dl_EventType d) (dl_Error d) (db_clock env 0)).

Definition pg_DeleteDeadLetter (tx : bool) (l : Lease) (position : Z) : Tx D () :=
  if negb tx then fail (New "postgres: DeleteDeadLetter called outside a ProjectionStore commit")
  else pg_exec "delete dead letter" (λ _, delete_letter (l_Name l) (l_Segment l) position).

Definition pg_letter_of (d : letter_row) : DeadLetter :=
  mkDeadLetter (lt_global_position d) (lt_stream_id d) (lt_event_type d) (lt_error d).

Definition pg_LoadDeadLetters (name : string) (segment : Z) : D → result error (list DeadLetter) * D :=
  autocommit (
    rows ← pg_query "load dead letters" (λ _, select_letters name segment);
    mret (pg_letter_of <$> rows)).

(** ** Replay requests *)

(** The statement of [RequestReplay]: whether the projection is declared,
    and the request's id *)
Definition request_replay (name streamID : string) (t : proj_tables) : (bool * option Z) * proj_tables :=
  if declared name t && letters_exist name streamID t then
    let '(n, t') := insert_replay name streamID t in
    ((true, Some n), insert_replay_segments n name streamID t')
  else ((declared name t, None), t).

Definition pg_RequestReplay (name streamID : string) : D → result error Z * D :=
  autocommit (
    row ← pg_update "request replay" (λ _, request_replay name streamID);
    let '(known, n) := row in
    if negb known then fail (Sentinel ErrUnknownProjection)
    else match n with None => mret 0 | Some n => mret n end).

Definition pg_PendingReplays (name : string) : D → result error (list Replay) * D :=
  autocommit (
    rows ← pg_query "load replay requests" (λ _ t, bfilter (λ r, negb (rg_done r.2)) (select_replays name t));
    mret ((λ '(id, seg, r, _), mkReplay id (rr_stream_id r) seg) <$> rows)).

Definition pg_FinishReplay (l : Lease) (number : Z) (errMsg : string) : D → result error () * D :=
  pg_runTx "finish replay: begin" "finish replay: commit" (
    lockOwned l ;;
    r ← pg_query "finish replay" (λ _, select_replay (l_Name l) number);
    match r with
    | None => mret ()
    | Some r =>
      pg_exec "finish replay" (λ _, update_replay_segment number (l_Segment l) (nullString errMsg)) ;;
      pg_exec "finish replay: delete finished requests"
        (λ _, delete_replays_cascade (replay_obsolete (l_Name l) (rr_stream_id r) number))
    end).

Definition pg_ReplayResult (name : string) (number : Z) : D → result error (Z * list string) * D :=
  autocommit (
    rows ← pg_query "read replay" (λ _ t, bfilter (λ r, r.1.1.1 =? number) (select_replays name t));
    let segs := (λ r : Z * Z * replay_row * replay_segment_row, r.2) <$> rows in
    mret (zlen (bfilter (λ g, negb (rg_done g)) segs),
          omap (λ g, if rg_done g then rg_error g else None) segs)).
End store.

(** ** Two Declares at once

    [Declare] counts and inserts in two transactions. *)
Section declares.
Context {M : Type}.
Notation D := (proj_tables * M)%type.

(** What [Declare] does with the count it read. *)
Definition declare_rest (env : db_env) (name : string) (segments replayUntil count : Z) : Tx D () :=
  if count =? 0 then pg_insertSegments env name segments replayUntil
  else if negb (count =? segments) then fail (Sentinel ErrSegmentsChanged)
  else mret ().

Lemma pg_Declare_split env name segments replayUntil :
  pg_Declare env name segments replayUntil =
  (pg_query env "declare: count segments" (λ _, count_segments name) ≫= declare_rest env name segments replayUntil).
Proof. done. Qed.

Lemma insert_absent_lookup name ru n i now t name' seg :
  0 ≤ i → t_segments (insert_absent name ru n i now t) !! (name', seg) =
  match t_segments t !! (name', seg) with
  | Some g => Some g
  | None => if bool_decide (name' = name) && (i <=? seg) && (seg <? i + Z.of_nat n) then Some (default_segment ru now) else None
  end.
Proof.
  revert i t. induction n as [|n IH]; intros i t Hi; cbn [insert_absent].
  { destruct (t_segments t !! _); [done|]. destruct (Z.leb_spec i seg), (Z.ltb_spec seg (i + Z.of_nat 0)); try lia; by rewrite ?andb_false_r. }
  rewrite IH by lia. unfold insert_if_absent, insert_segment.
  destruct (t_segments t !! (name, i)) as [g0|] eqn:Hg0; cbn.
  - destruct (t_segments t !! (name', seg)) as [g|] eqn:Hg; [done|].
    destruct (bool_decide_reflect (name' = name)) as [->|]; cbn; [|done].
    assert (seg ≠ i) by congruence.
    destruct (Z.leb_spec (i + 1) seg), (Z.leb_spec i seg), (Z.ltb_spec seg (i + 1 + Z.of_nat n)), (Z.ltb_spec seg (i + Z.of_nat (S n))); cbn; (done || lia).
  - destruct (decide ((name, i) = (name', seg))) as [[= <- <-]|Hne].
    + rewrite lookup_insert_eq, Hg0, bool_decide_true by done. cbn. destruct (Z.leb_spec i i), (Z.ltb_spec i (i + Z.of_nat (S n))); cbn; (done || lia).
    + rewrite lookup_insert_ne by done. destruct (t_segments t !! (name', seg)) as [g|]; [done|].
      destruct (bool_decide_reflect (name' = name)) as [->|]; cbn; [|done]. assert (seg ≠ i) by congruence.
      destruct (Z.leb_spec (i + 1) seg), (Z.leb_spec i seg), (Z.ltb_spec seg (i + 1 + Z.of_nat n)), (Z.ltb_spec seg (i + Z.of_nat (S n))); cbn; (done || lia).
Qed.

(** Declare of the PostgreSQL store counts and inserts in two transactions: two
    first Declares with different counts whose counts both come first both
    succeed, and leave the rows of the larger count, where one after the other
    the second is refused with ErrSegmentsChanged. *)
Theorem concurrent_declares_disagree env name n1 n2 ru (t : proj_tables) (m : M) k :
  (∀ i, db_fault env i = None) → 0 < n1 < n2 → count_segments name t = 0 →
  ∃ t1 t2,
    (* both counts, then both inserts *)
    pg_query env "declare: count segments" (λ _, count_segments name) (k, (t, m)) = (Ok 0, (S k, (t, m))) ∧
    declare_rest env name n1 ru 0 (k, (t, m)) = (Ok (), (S k, (t1, m))) ∧
    declare_rest env name n2 ru 0 (k, (t1, m)) = (Ok (), (S k, (t2, m))) ∧
    (∀ seg, is_Some (t_segments t2 !! (name, seg)) ↔ 0 ≤ seg < n2) ∧
    (* one after the other, the second is refused *)
    pg_Declare env name n2 ru (k, (t1, m)) = (Fail (Sentinel ErrSegmentsChanged), (S k, (t1, m))).
Proof.
  intros Hf Hn Hc. pose proof (count_segments_zero _ _ Hc) as Hnone.
  set (now1 := db_clock env k). set (t1 := insert_absent name ru (Z.to_nat n1) 0 now1 t).
  set (t2 := insert_absent name ru (Z.to_nat n2) 0 now1 t1).
  assert (∀ seg, is_Some (t_segments t1 !! (name, seg)) ↔ 0 ≤ seg < n1) as H1.
  { intros seg. unfold t1. rewrite insert_absent_lookup, Hnone, bool_decide_true by (done || lia). cbn.
    destruct (Z.leb_spec 0 seg), (Z.ltb_spec seg (0 + Z.of_nat (Z.to_nat n1))); cbn; split; try lia; try (by intros []); by eexists. }
  exists t1, t2. unfold declare_rest, pg_insertSegments, pg_exec, pg_update, pg_query, update, select, statement. cbn [fst snd].
  rewrite Hf. cbn [fst snd]. rewrite Hc. split_and!; [done|cbn; by rewrite Hf|cbn; by rewrite Hf| |].
  - intros seg. unfold t2. rewrite insert_absent_lookup, bool_decide_true by (done || lia). cbn. specialize (H1 seg).
    destruct (t_segments t1 !! (name, seg)); [split; [intros _; assert (0 ≤ seg < n1) by (by apply H1); lia|by eexists]|].
    destruct (Z.leb_spec 0 seg), (Z.ltb_spec seg (0 + Z.of_nat (Z.to_nat n2))); cbn; split; try lia; try (by intros []); by eexists.
  - unfold pg_Declare, pg_query, select, statement, mbind, SE_bind. cbn [fst snd]. rewrite Hf. cbn [fst snd].
    rewrite (count_segments_range name n1 t1) by (done || lia).
    destruct (Z.eqb_spec n1 0), (Z.eqb_spec n1 n2); (done || lia).
Qed.
End declares.
