(* ===== verification/PgUnits.v ===== *)
(** * Units of work over PostgreSQL, side by side ([postgres/projection_store.go])

    The calls about the rows of [projection_segments], each a transaction of
    its own, as a transition system.  A statement sees the rows committed when
    it runs; a row lock (FOR UPDATE, or the one an UPDATE takes) is held until
    the transaction ends, and its writes are seen by others only then.  An
    UPDATE whose WHERE does not select the row does not wait for it.  What a
    handler or a wipe writes, the store's other tables included, are writes
    [Wr] that are committed with the unit, and waits of theirs are left out.
    [FailRebuild] and [FinishReplay] are units that lock their segment and
    write only such tables.  The rows have been declared before.  Any
    transaction can fail at any step, and the answer to a commit can be lost.
    [pu_hist] records the calls in the order they took effect, which the
    database does not keep. *)
From S2P Require Import Prelude Core ProjStore Effect SqlTx SqlValues SqlProjection PgProjStore.

Section units.
Context {Wr : Type}.

Inductive pg_call : Type :=
| QClaim (l : Lease) (ttl : duration)
| QRelease (l : Lease)
| QSaveStatus (l : Lease) (st : Status)
| QCommit (l : Lease) (cp : Checkpoint) (st : Status)
| QReset (l : Lease) (newVersion : Z)
| QFenced (l : Lease).   (* FailRebuild, FinishReplay *)

Definition call_lease (c : pg_call) : Lease :=
  match c with QClaim l _ | QRelease l | QSaveStatus l _ | QCommit l _ _ | QReset l _ | QFenced l => l end.
Definition call_key (c : pg_call) : string * Z := (l_Name (call_lease c), l_Segment (call_lease c)).

Inductive pg_reply : Type := ReplyClaim (r : Lease * Checkpoint * bool) | ReplyDone.

(** ** One call at a time *)
Definition append_writes (ws : list Wr) : Tx (proj_tables * list Wr) () := change_world (λ d, (d.1, d.2 ++ ws)).

Definition fenced_unit (env : db_env) (l : Lease) (ws : list Wr) : proj_tables * list Wr → result error () * (proj_tables * list Wr) :=
  pg_runTx env "begin" "commit" (lockOwned env l ;; append_writes ws).

Definition reply_done {A} (x : result error () * A) : result error pg_reply * A :=
  (match x.1 with Ok _ => Ok ReplyDone | Fail e => Fail e end, x.2).

Definition run_call (c : pg_call) (ws : list Wr) (now : Z) (d : proj_tables * list Wr) : result error pg_reply * (proj_tables * list Wr) :=
  let env := instant now in
  match c with
  | QClaim l ttl =>
    let '(r, d) := pg_Claim env l ttl d in (match r with Ok x => Ok (ReplyClaim x) | Fail e => Fail e end, d)
  | QRelease l => reply_done (pg_Release env l d)
  | QSaveStatus l st => reply_done (pg_SaveStatus env l st d)
  | QCommit l cp st => reply_done (pg_Commit env l cp st (append_writes ws) d)
  | QReset l v => reply_done (pg_Reset env l v (append_writes ws) d)
  | QFenced l => reply_done (fenced_unit env l ws d)
  end.

(** ** Transactions *)
Inductive unit_pc : Type :=
| UWait                       (* before its statement, or its first lock *)
| ULocking (upto : Z)         (* Reset: the rows below [upto] are locked *)
| URunning (ws : list Wr)     (* owned: [fn] or [wipe] runs *)
| UWritten (ws : list Wr) (now : Z) (rows : list (string * Z * segment_row))  (* before COMMIT *)
| UOver (res : result error pg_reply).

Record unit_tx : Type := mkUnit { ut_call : pg_call; ut_pc : unit_pc }.

Record entry : Type := mkEntry {
  en_tx : nat; en_call : pg_call; en_writes : list Wr; en_now : Z; en_answer : result error pg_reply
}.

Record pg_units : Type := mkUnits {
  pu_tables : proj_tables;
  pu_log : list Wr;
  pu_txs : list unit_tx;
  pu_hist : list entry;
}.

Definition pg_start (t : proj_tables) : pg_units := mkUnits t [] [] [].

(** ** Locks *)
Definition holds (u : unit_tx) (k : string * Z) : bool :=
  match ut_pc u with
  | UWait | UOver _ => false
  | ULocking upto => bool_decide (k.1 = (call_key (ut_call u)).1) && (k.2 <? upto)
  | URunning _ | UWritten _ _ _ =>
    match ut_call u with
    | QReset l _ => bool_decide (k.1 = l_Name l)
    | c => bool_decide (k = call_key c)
    end
  end.

Definition free (k : string * Z) (s : pg_units) : bool := forallb (λ u, negb (holds u k)) (pu_txs s).

(** The row the WHERE of a single statement selects *)
Definition selects (c : pg_call) (now : Z) (g : segment_row) : bool :=
  let l := call_lease c in
  match c with
  | QClaim _ _ => held_row (l_Owner l) (l_Epoch l) g || bool_decide (sg_owner g = None)
                  || lapsed pg_ms now (sg_heartbeat g) (sg_ttl_ms g)
  | _ => held_row (l_Owner l) (l_Epoch l) g
  end.

Definition single (c : pg_call) : bool :=
  match c with QClaim _ _ | QRelease _ | QSaveStatus _ _ => true | _ => false end.

(** ** Steps *)
Inductive pg_action : Type :=
| BeginUnit (c : pg_call)
| ExecUnit (i : nat) (now : Z)
| LockUnit (i : nat)
| WriteUnit (i : nat) (w : Wr)
| UpdateUnit (i : nat) (now : Z)
| CommitUnit (i : nat) (lost : option error)
| FailUnit (i : nat) (e : error).

Definition put (i : nat) (p : unit_pc) (c : pg_call) (s : pg_units) : pg_units :=
  mkUnits (pu_tables s) (pu_log s) (<[i := mkUnit c p]> (pu_txs s)) (pu_hist s).

(** [i] took effect: it is over, or its answer was lost. *)
Definition effect (i : nat) (c : pg_call) (ws : list Wr) (now : Z) (answer res : result error pg_reply)
    (t : proj_tables) (log : list Wr) (s : pg_units) : pg_units :=
  mkUnits t log (<[i := mkUnit c (UOver res)]> (pu_txs s)) (pu_hist s ++ [mkEntry i c ws now answer]).

Definition refused (i : nat) (c : pg_call) (s : pg_units) : pg_units :=
  let e := Fail (Sentinel ErrClaimLost) in effect i c [] 0 e e (pu_tables s) (pu_log s) s.

Definition step_exec (i : nat) (now : Z) (c : pg_call) (s : pg_units) : option pg_units :=
  let waits := match t_segments (pu_tables s) !! call_key c with
               | Some g => selects c now g && negb (free (call_key c) s)
               | None => false
               end in
  if waits then None
  else let '(res, (t, log)) := run_call c [] now (pu_tables s, pu_log s) in Some (effect i c [] now res res t log s).

(** [lockOwned], and Reset's SELECT ... ORDER BY segment FOR UPDATE: the next
    row, or, with all of them locked, whether the claim is held *)
Definition next_segment (name : string) (from : Z) (t : proj_tables) : option Z :=
  fst <$> head (bfilter (λ '(seg, _), from <=? seg) (segments_of name t)).

Definition step_owned (i : nat) (c : pg_call) (s : pg_units) : pg_units :=
  match t_segments (pu_tables s) !! call_key c with
  | Some g => if held_row (l_Owner (call_lease c)) (l_Epoch (call_lease c)) g then put i (URunning []) c s else refused i c s
  | None => refused i c s
  end.

Definition step_lock_next (i : nat) (c : pg_call) (next : option Z) (s : pg_units) : option pg_units :=
  let name := l_Name (call_lease c) in
  match next with
  | Some seg => if free (name, seg) s then Some (put i (ULocking (seg + 1)) c s) else None
  | None => Some (step_owned i c s)
  end.

Definition step_lock (i : nat) (u : unit_tx) (s : pg_units) : option pg_units :=
  let c := ut_call u in
  let name := l_Name (call_lease c) in
  match c, ut_pc u with
  | QReset _ _, UWait => step_lock_next i c (fst <$> head (segments_of name (pu_tables s))) s
  | QReset _ _, ULocking upto => step_lock_next i c (next_segment name upto (pu_tables s)) s
  | (QCommit _ _ _ | QFenced _), UWait =>
    match t_segments (pu_tables s) !! call_key c with
    | Some _ => if free (call_key c) s then Some (step_owned i c s) else None
    | None => Some (refused i c s)
    end
  | _, _ => None
  end.

(** The row versions the UPDATE of a unit writes *)
Definition new_rows (c : pg_call) (now : Z) (t : proj_tables) : list (string * Z * segment_row) :=
  match c with
  | QCommit l cp st =>
    match held_segment (l_Name l) (l_Segment l) (l_Owner l) (l_Epoch l) t with
    | Some g => [(call_key c, commit_row cp st now g)]
    | None => []
    end
  | QReset l v => (λ '(seg, g), ((l_Name l, seg), set_reset v (l_Segment l) now seg g)) <$> segments_of (l_Name l) t
  | _ => []
  end.

Definition publish (rows : list (string * Z * segment_row)) (t : proj_tables) : proj_tables :=
  with_segments (foldr (λ '(k, g) m, <[k := g]> m) (t_segments t) rows) t.
#[local] Arguments publish rows t : simpl never.

Definition pu_step (a : pg_action) (s : pg_units) : option pg_units :=
  match a with
  | BeginUnit c => Some (mkUnits (pu_tables s) (pu_log s) (pu_txs s ++ [mkUnit c UWait]) (pu_hist s))
  | ExecUnit i now =>
    match pu_txs s !! i with
    | Some (mkUnit c UWait) => if single c then step_exec i now c s else None
    | _ => None
    end
  | LockUnit i => match pu_txs s !! i with Some u => step_lock i u s | None => None end
  | WriteUnit i w =>
    match pu_txs s !! i with
    | Some (mkUnit c (URunning ws)) => Some (put i (URunning (ws ++ [w])) c s)
    | _ => None
    end
  | UpdateUnit i now =>
    match pu_txs s !! i with
    | Some (mkUnit c (URunning ws)) => Some (put i (UWritten ws now (new_rows c now (pu_tables s))) c s)
    | _ => None
    end
  | CommitUnit i lost =>
    match pu_txs s !! i with
    | Some (mkUnit c (UWritten ws now rows)) =>
      Some (effect i c ws now (Ok ReplyDone) (match lost with None => Ok ReplyDone | Some e => Fail e end)
              (publish rows (pu_tables s)) (pu_log s ++ ws) s)
    | _ => None
    end
  | FailUnit i e =>
    match pu_txs s !! i with
    | Some (mkUnit _ (UOver _)) | None => None
    | Some (mkUnit c _) => Some (put i (UOver (Fail e)) c s)
    end
  end.

Definition pu_run (s s' : pg_units) : Prop := ∃ a, pu_step a s = Some s'.

(** The calls one at a time, in the order they took effect *)
Fixpoint replay (h : list entry) (d : proj_tables * list Wr) : list (result error pg_reply) * (proj_tables * list Wr) :=
  match h with
  | [] => ([], d)
  | e :: h =>
    let '(a, d) := run_call (en_call e) (en_writes e) (en_now e) d in
    let '(answers, d) := replay h d in (a :: answers, d)
  end.

(** ** What a call does to the rows *)
Ltac run_pg := unfold run_call, reply_done, pg_Claim, pg_Release, pg_SaveStatus, pg_Commit, pg_Reset, fenced_unit, pg_runTx, lockOwned,
  autocommit, pg_query, pg_exec, pg_update, append_writes, change_world, select, update, statement, fail, mret, SE_ret, mbind, SE_bind;
  cbn.

Lemma segments_of_ext name t t' :
  (∀ seg, t_segments t !! (name, seg) = t_segments t' !! (name, seg)) → segments_of name t = segments_of name t'.
Proof.
  intros H. apply (strictly_sorted_ext (λ a b : Z * segment_row, a.1 < b.1)); [lia|apply segments_of_sorted..|].
  intros x. by rewrite !elem_of_segments_of, H.
Qed.

(** A call looks at the rows of segments only. *)
Lemma run_call_cong c (ws : list Wr) now t t' log : t_segments t = t_segments t' →
  (run_call c ws now (t, log)).1 = (run_call c ws now (t', log)).1 ∧
  t_segments (run_call c ws now (t, log)).2.1 = t_segments (run_call c ws now (t', log)).2.1 ∧
  (run_call c ws now (t, log)).2.2 = (run_call c ws now (t', log)).2.2.
Proof.
  intros Heq. destruct c as [l ttl|l|l st|l cp st|l v|l]; run_pg.
  - unfold update_claim. rewrite Heq. destruct (t_segments t' !! _) as [g|]; [|done]. destruct (_ || _); cbn; by rewrite ?Heq.
  - unfold update_held, held_segment. rewrite Heq. destruct (t_segments t' !! _) as [g|]; [|done]. destruct (held_row _ _ g); cbn; by rewrite ?Heq.
  - unfold update_held, held_segment. rewrite Heq. destruct (t_segments t' !! _) as [g|]; [|done]. destruct (held_row _ _ g); cbn; by rewrite ?Heq.
  - rewrite Heq. destruct (t_segments t' !! _) as [g|] eqn:Hg; [|done]. destruct (held_row _ _ g) eqn:Hh; cbn; [|done].
    unfold update_held, held_segment. rewrite Heq, Hg, Hh. cbn. by rewrite ?Heq.
  - rewrite (segments_of_ext (l_Name l) t t') by (intros; by rewrite Heq).
    destruct (holds_segment l _); cbn; by rewrite Heq.
  - rewrite Heq. destruct (t_segments t' !! _) as [g|]; [|done]. by destruct (held_row _ _ g).
Qed.

Definition owned_by (c : pg_call) (t : proj_tables) : Prop :=
  ∃ g, t_segments t !! call_key c = Some g ∧ held_row (l_Owner (call_lease c)) (l_Epoch (call_lease c)) g = true.

Lemma holds_segment_owned l v t : holds_segment l (segments_of (l_Name l) t) = true ↔ owned_by (QReset l v) t.
Proof.
  unfold holds_segment, owned_by, call_key; cbn. rewrite existsb_elem. split.
  - intros ([seg g] & Hin%elem_of_segments_of & [->%Z.eqb_eq Hh]%andb_true_iff). eauto.
  - intros (g & Hg & Hh). exists (l_Segment l, g). split; [by apply elem_of_segments_of|]. by rewrite Z.eqb_refl, Hh.
Qed.

(** A unit that has lost its claim changes nothing. *)
Lemma run_call_refused c t log : single c = false → ¬ owned_by c t →
  (run_call c [] 0 (t, log)).1 = Fail (Sentinel ErrClaimLost) ∧
  t_segments (run_call c [] 0 (t, log)).2.1 = t_segments t ∧ (run_call c [] 0 (t, log)).2.2 = log.
Proof.
  intros Hs Hno. destruct c as [l ttl|l|l st|l cp st|l v|l]; try done; run_pg.
  - destruct (t_segments t !! _) as [g|] eqn:Hg; [|done]. destruct (held_row _ _ g) eqn:Hh; [|done]. destruct Hno. by exists g.
  - destruct (holds_segment l _) eqn:Hh; [|done]. destruct Hno. by apply holds_segment_owned.
  - destruct (t_segments t !! _) as [g|] eqn:Hg; [|done]. destruct (held_row _ _ g) eqn:Hh; [|done]. destruct Hno. by exists g.
Qed.

Lemma publish_other rows t k : k ∉ rows.*1 → t_segments (publish rows t) !! k = t_segments t !! k.
Proof.
  unfold publish; cbn. induction rows as [|[k' g] rows IH]; intros Hk; [done|]. cbn in *. apply not_elem_of_cons in Hk as [? Hk].
  rewrite lookup_insert_ne by done. by apply IH.
Qed.

Lemma publish_row rows t k g : NoDup rows.*1 → (k, g) ∈ rows → t_segments (publish rows t) !! k = Some g.
Proof.
  unfold publish; cbn. induction rows as [|[k' g'] rows IH]; intros Hnd Hk; [by apply not_elem_of_nil in Hk|].
  cbn in *. apply NoDup_cons in Hnd as [Hk' Hnd]. apply elem_of_cons in Hk as [[= -> ->]|Hk]; [by rewrite lookup_insert_eq|].
  rewrite lookup_insert_ne; [by apply IH|]. intros ->. apply Hk'. apply list_elem_of_fmap. by exists (k, g).
Qed.

Definition is_reset (c : pg_call) : bool := match c with QReset _ _ => true | _ => false end.

(** The rows the UPDATE of an owned unit writes are rows of its own. *)
Lemma new_rows_fst c now t : owned_by c t → single c = false →
  NoDup (new_rows c now t).*1 ∧
  ∀ k g, (k, g) ∈ new_rows c now t → holds (mkUnit c (URunning [])) k = true ∧ is_Some (t_segments t !! k).
Proof.
  intros (g & Hg & Hh) Hs. destruct c as [l ttl|l|l st|l cp st|l v|l]; try done; cbn in *; unfold call_key, holds in *; cbn in *.
  - unfold held_segment. rewrite Hg, Hh. cbn. split; [apply NoDup_singleton|].
    intros k g' [= -> ->]%list_elem_of_singleton. split; [by apply bool_decide_true|by eexists].
  - split.
    + rewrite <- list_fmap_compose.
      rewrite (list_fmap_ext _ (pair (l_Name l) ∘ fst)) by (by intros ? [? ?]).
      rewrite list_fmap_compose. apply (NoDup_fmap_2 _).
      apply (strictly_sorted_NoDup (λ a b, a < b)); [lia|].
      apply (StronglySorted_fmap_in fst _ (λ a b, a < b) _ (λ x y _ _ H, H)), segments_of_sorted.
    + intros k g' ([seg r] & [= -> ->] & Hin%elem_of_segments_of)%list_elem_of_fmap. split; [by apply bool_decide_true|by eexists].
  - split; [constructor|]. by intros k g' ?%not_elem_of_nil.
Qed.

Lemma new_rows_ext c now t t' : (∀ k, holds (mkUnit c (URunning [])) k = true → t_segments t !! k = t_segments t' !! k) →
  new_rows c now t = new_rows c now t'.
Proof.
  intros H. destruct c as [l ttl|l|l st|l cp st|l v|l]; try done; unfold holds, new_rows, held_segment, call_key in *; cbn in *.
  - by rewrite H by (by apply bool_decide_true).
  - rewrite (segments_of_ext _ t t'); [done|]. intros seg. apply H. by apply bool_decide_true.
Qed.

(** An owned unit writes its rows and its other writes. *)
Lemma run_call_owned c ws now t log : single c = false → owned_by c t →
  (run_call c ws now (t, log)).1 = Ok ReplyDone ∧
  t_segments (run_call c ws now (t, log)).2.1 = t_segments (publish (new_rows c now t) t) ∧
  (run_call c ws now (t, log)).2.2 = log ++ ws.
Proof.
  intros Hs Ho. destruct c as [l ttl|l|l st|l cp st|l v|l]; try done.
  - destruct Ho as (g & Hg & Hh). unfold call_key in Hg; cbn in Hg, Hh. run_pg. rewrite Hg, Hh. cbn.
    unfold update_held, held_segment. rewrite Hg, Hh. done.
  - run_pg. rewrite (proj2 (holds_segment_owned l v t) Ho). cbn. split_and!; [done| |done].
    apply map_eq. intros [n seg]. rewrite map_lookup_imap.
    destruct (new_rows_fst _ now t Ho eq_refl) as [Hnd _]. cbn [new_rows] in *.
    destruct (t_segments t !! (n, seg)) as [g|] eqn:Hg; cbn; [destruct (bool_decide_reflect (n = l_Name l)) as [->|Hn]|].
    + symmetry. apply publish_row; [done|]. apply list_elem_of_fmap. exists (seg, g). split; [done|]. by apply elem_of_segments_of.
    + rewrite publish_other; [by rewrite Hg|]. intros (? & Hk & ([? ?] & -> & _)%list_elem_of_fmap)%list_elem_of_fmap. cbn in Hk. congruence.
    + rewrite publish_other; [by rewrite Hg|].
      intros (? & Hk & ([? ?] & -> & Hin%elem_of_segments_of)%list_elem_of_fmap)%list_elem_of_fmap. cbn in *. congruence.
  - destruct Ho as (g & Hg & Hh). unfold call_key in Hg; cbn in Hg, Hh. run_pg. by rewrite Hg, Hh.
Qed.

(** A single statement leaves the rows, or writes the one it selects. *)
Lemma run_single c ws now t log : single c = true →
  let t' := (run_call c ws now (t, log)).2.1 in
  (run_call c ws now (t, log)).2.2 = log ∧
  (t_segments t' = t_segments t ∨
   ∃ g g', t_segments t !! call_key c = Some g ∧ selects c now g = true ∧ t_segments t' = <[call_key c := g']> (t_segments t)).
Proof.
  intros Hs. unfold call_key, selects. destruct c as [l ttl|l|l st|l cp st|l v|l]; try done; run_pg.
  - unfold update_claim. destruct (t_segments t !! _) as [g|] eqn:Hg; [|by auto].
    destruct (_ || _) eqn:Hsel; cbn; [|by auto]. split; [done|]. right. eauto.
  - unfold update_held, held_segment. destruct (t_segments t !! _) as [g|] eqn:Hg; [|by auto].
    destruct (held_row _ _ g) eqn:Hh; cbn; [|by auto]. split; [done|]. right. eauto.
  - unfold update_held, held_segment. destruct (t_segments t !! _) as [g|] eqn:Hg; [|by auto].
    destruct (held_row _ _ g) eqn:Hh; cbn; [|by auto]. split; [done|]. right. eauto.
Qed.

(** ** The invariant *)
Definition unit_ok (t : proj_tables) (u : unit_tx) : Prop :=
  match ut_pc u with
  | UWait | UOver _ => True
  | ULocking _ => is_reset (ut_call u) = true
  | URunning _ => single (ut_call u) = false ∧ owned_by (ut_call u) t
  | UWritten _ now rows => single (ut_call u) = false ∧ owned_by (ut_call u) t ∧ rows = new_rows (ut_call u) now t
  end.

Record pu_inv (s : pg_units) : Prop := {
  inv_ok i u : pu_txs s !! i = Some u → unit_ok (pu_tables s) u;
  inv_excl i j u v k : i ≠ j → pu_txs s !! i = Some u → pu_txs s !! j = Some v →
    is_Some (t_segments (pu_tables s) !! k) → holds u k = true → holds v k = false;
}.

Lemma holds_own_key c p : (match p with URunning _ | UWritten _ _ _ => True | _ => False end) →
  holds (mkUnit c p) (call_key c) = true.
Proof. destruct p; try done; intros _; destruct c; by apply bool_decide_true. Qed.

Lemma owned_by_ext c t t' : t_segments t !! call_key c = t_segments t' !! call_key c → owned_by c t → owned_by c t'.
Proof. unfold owned_by. by intros ->. Qed.

Lemma unit_ok_ext t t' u : (∀ k, holds u k = true → t_segments t !! k = t_segments t' !! k) → unit_ok t u → unit_ok t' u.
Proof.
  destruct u as [c [| | ws|ws now rows|]]; unfold unit_ok; cbn; intros H; try done.
  - intros [Hs Ho]. split; [done|]. eapply owned_by_ext; [|done]. apply H. by apply (holds_own_key c (URunning [])).
  - intros (Hs & Ho & ->). split_and!; [done| |by apply new_rows_ext].
    eapply owned_by_ext; [|done]. apply H. by apply (holds_own_key c (URunning [])).
Qed.

Lemma free_elem k s : free k s = true ↔ ∀ i u, pu_txs s !! i = Some u → holds u k = false.
Proof.
  unfold free. rewrite forallb_forall. split.
  - intros H i u Hi. apply negb_true_iff, H. apply list_elem_of_In. by eapply list_elem_of_lookup_2.
  - intros H u Hu%list_elem_of_In. apply list_elem_of_lookup_1 in Hu as [i Hi]. apply negb_true_iff. by eapply H.
Qed.

(** A unit takes locks that are free. *)
Lemma put_inv i p c u s : pu_inv s → pu_txs s !! i = Some u →
  unit_ok (pu_tables s) (mkUnit c p) →
  (∀ k, is_Some (t_segments (pu_tables s) !! k) → holds (mkUnit c p) k = true → holds u k = true ∨ free k s = true) →
  pu_inv (put i p c s).
Proof.
  intros [Hok Hex] Hi Hu Hnew. pose proof (lookup_lt_Some _ _ _ Hi) as Hlt.
  assert (∀ j v k, i ≠ j → pu_txs s !! j = Some v → is_Some (t_segments (pu_tables s) !! k) →
            holds (mkUnit c p) k = true → holds v k = false) as Hi'.
  { intros j v k Hij Hj Hk Hh. destruct (Hnew k Hk Hh) as [Hold|Hfree]; [by eapply (Hex i j)|].
    by eapply free_elem. }
  split; cbn.
  - intros j v. rewrite list_lookup_insert_Some. intros [(-> & <- & _)|[_ Hj]]; [done|by eapply Hok].
  - intros j j' v v' k Hjj. rewrite !list_lookup_insert_Some.
    intros [(<- & <- & _)|[Hj Hv]] [(<- & <- & _)|[Hj' Hv']] Hk Hh; [done|by eapply Hi'| |by eapply (Hex j j')].
    apply not_true_iff_false. intros Hh'. enough (holds v k = false) by congruence. by eapply Hi'.
Qed.

(** A unit that is over has written rows that no other holds. *)
Lemma effect_inv i c ws now a r t' log s u : pu_inv s → pu_txs s !! i = Some u →
  (∀ k, is_Some (t_segments t' !! k) ↔ is_Some (t_segments (pu_tables s) !! k)) →
  (∀ j v k, i ≠ j → pu_txs s !! j = Some v → holds v k = true → t_segments (pu_tables s) !! k = t_segments t' !! k) →
  pu_inv (effect i c ws now a r t' log s).
Proof.
  intros [Hok Hex] Hi Hdom Hkeep. pose proof (lookup_lt_Some _ _ _ Hi) as Hlt. split; cbn.
  - intros j v. rewrite list_lookup_insert_Some. intros [(-> & <- & _)|[Hj Hv]]; [done|].
    eapply unit_ok_ext; [|by eapply Hok]. intros k. by eapply Hkeep.
  - intros j j' v v' k Hjj. rewrite !list_lookup_insert_Some, Hdom.
    intros [(<- & <- & _)|[Hj Hv]] [(<- & <- & _)|[Hj' Hv']] Hk Hh; [done|done|done|by eapply (Hex j j')].
Qed.

(** ** What a step does *)
Inductive pu_move (s : pg_units) : pg_units → Prop :=
| move_begin c : pu_move s (mkUnits (pu_tables s) (pu_log s) (pu_txs s ++ [mkUnit c UWait]) (pu_hist s))
| move_put i u p :
    pu_txs s !! i = Some u → (∀ r, ut_pc u ≠ UOver r) → (∀ r, p ≠ UOver (Ok r)) →
    unit_ok (pu_tables s) (mkUnit (ut_call u) p) →
    (∀ k, is_Some (t_segments (pu_tables s) !! k) → holds (mkUnit (ut_call u) p) k = true → holds u k = true ∨ free k s = true) →
    pu_move s (put i p (ut_call u) s)
| move_effect i u ws now a r t log :
    pu_txs s !! i = Some u → (∀ r, ut_pc u ≠ UOver r) → (∀ x, r = Ok x → a = r) →
    (∀ k, is_Some (t_segments t !! k) ↔ is_Some (t_segments (pu_tables s) !! k)) →
    (∀ j v k, i ≠ j → pu_txs s !! j = Some v → holds v k = true → t_segments (pu_tables s) !! k = t_segments t !! k) →
    (let run := run_call (ut_call u) ws now (pu_tables s, pu_log s) in
     run.1 = a ∧ t_segments run.2.1 = t_segments t ∧ run.2.2 = log) →
    pu_move s (effect i (ut_call u) ws now a r t log s).

Lemma move_refused s i u : pu_txs s !! i = Some u → (∀ r, ut_pc u ≠ UOver r) → single (ut_call u) = false →
  ¬ owned_by (ut_call u) (pu_tables s) → pu_move s (refused i (ut_call u) s).
Proof.
  intros Hi Hpc Hs Ho. apply move_effect; try done.
  by apply run_call_refused.
Qed.

(** With its rows locked, a unit is refused or owns its claim. *)
Lemma move_owned s i u : pu_txs s !! i = Some u → (∀ r, ut_pc u ≠ UOver r) → single (ut_call u) = false →
  (∀ k, is_Some (t_segments (pu_tables s) !! k) → holds (mkUnit (ut_call u) (URunning [])) k = true → holds u k = true ∨ free k s = true) →
  pu_move s (step_owned i (ut_call u) s).
Proof.
  intros Hi Hpc Hs Hl. unfold step_owned. destruct (t_segments _ !! _) as [g|] eqn:Hg.
  - destruct (held_row _ _ g) eqn:Hh.
    + apply move_put; try done. split; [done|]. by exists g.
    + apply move_refused; try done. intros (g' & ? & ?). congruence.
  - apply move_refused; try done. intros (g' & ? & ?). congruence.
Qed.

Lemma move_exec s i c now s' : pu_txs s !! i = Some (mkUnit c UWait) → single c = true → step_exec i now c s = Some s' → pu_move s s'.
Proof.
  intros Hi Hs. unfold step_exec. destruct (run_single c [] now (pu_tables s) (pu_log s) Hs) as [Hlog Hrow].
  destruct (run_call c [] now (pu_tables s, pu_log s)) as [res [t log]] eqn:Hrun. cbn in Hlog, Hrow. subst log.
  destruct Hrow as [Hrow|(g & g' & Hg & Hsel & Hrow)].
  - destruct (match _ with Some _ => _ | None => _ end); [done|]. intros [= <-].
    apply (move_effect s i (mkUnit c UWait)); try done; [by setoid_rewrite Hrow|by rewrite Hrow|]. cbn. by rewrite Hrun.
  - rewrite Hg, Hsel. cbn. destruct (free (call_key c) s) eqn:Hf; [|done]. cbn. intros [= <-].
    apply (move_effect s i (mkUnit c UWait)); try done; [| |cbn; by rewrite Hrun].
    + intros k. rewrite Hrow, lookup_insert_is_Some'. split; [|by auto]. intros [<-|?]; [by eexists|done].
    + intros j v k Hij Hj Hk. rewrite Hrow, lookup_insert_ne; [done|]. intros <-.
      rewrite free_elem in Hf. by rewrite (Hf _ _ Hj) in Hk.
Qed.

Lemma move_commit s i c ws now rows lost : pu_inv s → pu_txs s !! i = Some (mkUnit c (UWritten ws now rows)) →
  pu_move s (effect i c ws now (Ok ReplyDone) (match lost with None => Ok ReplyDone | Some e => Fail e end)
              (publish rows (pu_tables s)) (pu_log s ++ ws) s).
Proof.
  intros Hinv Hi. destruct (inv_ok s Hinv _ _ Hi) as (Hs & Ho & Hr). cbn in Hs, Ho, Hr. subst rows.
  destruct (new_rows_fst c now _ Ho Hs) as [Hnd Hrows].
  assert (∀ k, t_segments (publish (new_rows c now (pu_tables s)) (pu_tables s)) !! k = t_segments (pu_tables s) !! k ∨
    holds (mkUnit c (URunning [])) k = true ∧ is_Some (t_segments (pu_tables s) !! k) ∧
    is_Some (t_segments (publish (new_rows c now (pu_tables s)) (pu_tables s)) !! k)) as Hk.
  { intros k. destruct (decide (k ∈ (new_rows c now (pu_tables s)).*1)) as [Hin|]; [right|left; by apply publish_other].
    apply list_elem_of_fmap in Hin as ([k' g] & -> & Hin). destruct (Hrows _ _ Hin) as [? ?].
    rewrite (publish_row _ _ _ g) by done. by eauto. }
  apply (move_effect s i (mkUnit c (UWritten ws now (new_rows c now (pu_tables s))))); try done.
  - destruct lost; [done|]. by intros x [= ->].
  - intros k. destruct (Hk k) as [->|(_ & ? & ?)]; tauto.
  - intros j v k Hij Hj Hh. destruct (Hk k) as [->|(Hc & ? & ?)]; [done|]. exfalso.
    enough (holds v k = false) by congruence. by eapply (inv_excl s Hinv i j).
  - by apply run_call_owned.
Qed.

(** The locks of Reset *)
Lemma first_segment (p : Z → bool) name t :
  match fst <$> head (bfilter (λ '(seg, _), p seg) (segments_of name t)) with
  | Some seg => p seg = true ∧ is_Some (t_segments t !! (name, seg)) ∧
      ∀ seg', is_Some (t_segments t !! (name, seg')) → p seg' = true → seg ≤ seg'
  | None => ∀ seg', is_Some (t_segments t !! (name, seg')) → p seg' = false
  end.
Proof.
  pose proof (StronglySorted_bfilter _ (λ '(seg, _), p seg) _ (segments_of_sorted name t)) as Hsort.
  assert (∀ seg, is_Some (t_segments t !! (name, seg)) → p seg = true → ∃ g, (seg, g) ∈ bfilter (λ '(seg, _), p seg) (segments_of name t)) as Hin.
  { intros seg [g Hg] Hp. exists g. apply elem_of_bfilter. split; [done|]. by apply elem_of_segments_of. }
  destruct (bfilter _ _) as [|[seg g] rows] eqn:Hf; cbn.
  - intros seg Hseg. apply not_true_iff_false. intros Hp. destruct (Hin _ Hseg Hp) as [g ?%not_elem_of_nil]. done.
  - assert ((seg, g) ∈ bfilter (λ '(seg, _), p seg) (segments_of name t)) as [Hp Hg]%elem_of_bfilter by (rewrite Hf; left).
    apply elem_of_segments_of in Hg; cbn in *. split_and!; [done|by eexists|].
    intros seg' Hseg' Hp'. destruct (Hin _ Hseg' Hp') as [g' [[= -> _]|Hg']%elem_of_cons]; [lia|].
    apply StronglySorted_inv in Hsort as [_ Hall]. rewrite Forall_forall in Hall. by apply Z.lt_le_incl, (Hall _ Hg').
Qed.

Lemma move_lock_next s i u s' p l v : pu_txs s !! i = Some u → (∀ r, ut_pc u ≠ UOver r) → ut_call u = QReset l v →
  (∀ seg, p seg = false → is_Some (t_segments (pu_tables s) !! (l_Name l, seg)) → holds u (l_Name l, seg) = true) →
  step_lock_next i (ut_call u) (fst <$> head (bfilter (λ '(seg, _), p seg) (segments_of (l_Name l) (pu_tables s)))) s = Some s' →
  pu_move s s'.
Proof.
  intros Hi Hpc Hc Hheld. pose proof (first_segment p (l_Name l) (pu_tables s)) as Hfirst.
  destruct (fst <$> head _) as [seg|]; cbn.
  - destruct Hfirst as (Hp & _ & Hmin). rewrite Hc at 1. cbn. destruct (free (l_Name l, seg) s) eqn:Hf; [|done]. intros [= <-].
    apply move_put; try done; [by rewrite Hc|]. rewrite Hc. unfold holds at 1. cbn.
    intros [n seg'] Hsome [Hn%bool_decide_eq_true Hlt%Z.ltb_lt]%andb_true_iff. cbn in Hn, Hlt; subst n.
    destruct (p seg') eqn:Hp'; [right|left; by apply Hheld]. assert (seg' = seg) as -> by (pose proof (Hmin _ Hsome Hp'); lia). done.
  - intros [= <-]. apply move_owned; try done; [by rewrite Hc|]. rewrite Hc. unfold holds at 1. cbn.
    intros [n seg'] Hsome Hn%bool_decide_eq_true. cbn in Hn; subst n. left. apply Hheld; [|done]. by apply Hfirst.
Qed.

Lemma move_lock s i u s' : pu_inv s → pu_txs s !! i = Some u → step_lock i u s = Some s' → pu_move s s'.
Proof.
  intros Hinv Hi. unfold step_lock. destruct u as [c p]; cbn.
  assert (∀ l v p0 pc, (c = QReset l v) → p = pc → (∀ r, pc ≠ UOver r) →
    (∀ seg, p0 seg = false → is_Some (t_segments (pu_tables s) !! (l_Name l, seg)) → holds (mkUnit c p) (l_Name l, seg) = true) →
    step_lock_next i c (fst <$> head (bfilter (λ '(seg, _), p0 seg) (segments_of (l_Name l) (pu_tables s)))) s = Some s' → pu_move s s') as Hreset.
  { intros l v p0 pc Hc -> Hpc Hheld. by apply (move_lock_next s i (mkUnit c pc) s' p0 l v). }
  assert (single c = false → p = UWait →
    match t_segments (pu_tables s) !! call_key c with
    | Some _ => if free (call_key c) s then Some (step_owned i c s) else None
    | None => Some (refused i c s)
    end = Some s' →
    (∀ k, holds (mkUnit c (URunning [])) k = true → k = call_key c) → pu_move s s') as Hone.
  { intros Hs -> Hstep Hk. destruct (t_segments _ !! _) as [g|] eqn:Hg.
    - destruct (free _ s) eqn:Hf; [|done]. injection Hstep as <-. apply (move_owned s i (mkUnit c UWait)); try done.
      intros k _ ->%Hk. by right.
    - injection Hstep as <-. apply (move_refused s i (mkUnit c UWait)); try done. intros (g & ? & _). cbn in *. congruence. }
  destruct c as [l ttl|l|l st|l cp st|l v|l], p as [|upto|ws|ws now rows|r]; try done.
  - intros Hstep. apply Hone; try done. intros k. apply bool_decide_eq_true.
  - intros Hstep. apply (Hreset l v (λ _, true) UWait); try done. cbn in Hstep.
    rewrite bfilter_all; [done|]. apply Forall_forall. by intros [].
  - intros Hstep. apply (Hreset l v (λ seg, upto <=? seg) (ULocking upto)); try done.
    intros seg ?%Z.leb_gt _. apply andb_true_iff. split; [by apply bool_decide_true|by apply Z.ltb_lt].
  - intros Hstep. apply Hone; try done. intros k. apply bool_decide_eq_true.
Qed.

Lemma pu_step_move a s s' : pu_inv s → pu_step a s = Some s' → pu_move s s'.
Proof.
  intros Hinv. destruct a as [c|i now|i|i w|i now|i lost|i e]; cbn.
  - intros [= <-]. constructor.
  - destruct (pu_txs s !! i) as [[c []]|] eqn:Hi; try done. destruct (single c) eqn:Hs; [|done]. by apply (move_exec s i c now).
  - destruct (pu_txs s !! i) as [u|] eqn:Hi; [|done]. by apply move_lock.
  - destruct (pu_txs s !! i) as [[c []]|] eqn:Hi; try done. intros [= <-].
    apply (move_put s i (mkUnit c (URunning ws))); try done; [by apply (inv_ok s Hinv _ _ Hi)|by left].
  - destruct (pu_txs s !! i) as [[c []]|] eqn:Hi; try done. intros [= <-].
    apply (move_put s i (mkUnit c (URunning ws))); try done; [|by left].
    destruct (inv_ok s Hinv _ _ Hi) as [??]. by split_and!.
  - destruct (pu_txs s !! i) as [[c []]|] eqn:Hi; try done. intros [= <-]. by eapply move_commit.
  - destruct (pu_txs s !! i) as [[c p]|] eqn:Hi; [|done]. intros Hstep.
    assert ((∀ r, p ≠ UOver r) ∧ s' = put i (UOver (Fail e)) c s) as [Hpc ->] by (by destruct p; split; congruence).
    by apply (move_put s i (mkUnit c p)).
Qed.

Lemma pu_move_inv s s' : pu_inv s → pu_move s s' → pu_inv s'.
Proof.
  intros Hinv [c|i u p Hi _ _ Hok Hl|i u ws now a r t log Hi _ _ Hdom Hkeep _].
  - destruct Hinv as [Hok Hex]. split; cbn.
    + intros i u. rewrite lookup_snoc_Some. intros [[_ Hi]|[_ <-]]; [by eapply Hok|done].
    + intros i j u v k Hij. rewrite !lookup_snoc_Some. intros [[_ Hi]|[_ <-]] [[_ Hj]|[_ <-]] Hk Hh; try done. by eapply (Hex i j).
  - by eapply put_inv.
  - by eapply effect_inv.
Qed.

Lemma pg_start_inv t : pu_inv (pg_start t).
Proof. split; cbn; intros; by rewrite lookup_nil in *. Qed.

Lemma pu_run_inv t s : rtc pu_run (pg_start t) s → pu_inv s.
Proof.
  intros Hrun. eapply (rtc_ind_r pu_inv); [apply pg_start_inv| |exact Hrun].
  intros x y _ [a Ha] Hx. eapply pu_move_inv; [done|]. by eapply pu_step_move.
Qed.

(** ** One order for all units *)
Definition entries_of (i : nat) (h : list entry) : list entry := bfilter (λ e, (en_tx e =? i)%nat) h.

Definition is_over (u : unit_tx) : bool := match ut_pc u with UOver _ => true | _ => false end.

Lemma replay_snoc h e d :
  replay (h ++ [e]) d =
  let '(answers, d') := replay h d in
  let '(a, d') := run_call (en_call e) (en_writes e) (en_now e) d' in (answers ++ [a], d').
Proof.
  revert d. induction h as [|e' h IH]; intros d; cbn; [by destruct (run_call _ _ _ _)|].
  destruct (run_call (en_call e') _ _ _) as [a d1]. rewrite IH. destruct (replay h d1) as [answers d2].
  by destruct (run_call _ _ _ d2).
Qed.

Definition replays (t : proj_tables) (s : pg_units) : Prop :=
  ∃ t', replay (pu_hist s) (t, []) = (en_answer <$> pu_hist s, (t', pu_log s)) ∧ t_segments t' = t_segments (pu_tables s).

Definition unit_entries (s : pg_units) (i : nat) : Prop :=
  match pu_txs s !! i with
  | Some (mkUnit c (UOver (Ok r))) => ∃ ws now, entries_of i (pu_hist s) = [mkEntry i c ws now (Ok r)]
  | Some (mkUnit c (UOver (Fail _))) => (length (entries_of i (pu_hist s)) ≤ 1)%nat
  | _ => entries_of i (pu_hist s) = []
  end.

Lemma move_replays t s s' : replays t s → pu_move s s' → replays t s'.
Proof.
  intros (t0 & Hrep & Hseg) [c|i u p Hi _ _ Hok Hl|i u ws now a r t' log Hi _ _ Hdom Hkeep Hrun]; [by exists t0..|].
  unfold replays; cbn. rewrite replay_snoc, Hrep, fmap_app. cbn.
  destruct (run_call_cong (ut_call u) ws now t0 (pu_tables s) (pu_log s) Hseg) as (Ha & Ht & Hlog).
  destruct (run_call _ ws now (t0, pu_log s)) as [a1 [t1 log1]], Hrun as (<- & <- & <-). cbn in *.
  exists t1. by rewrite Ha, Hlog.
Qed.

Lemma move_entries s s' : (∀ i, unit_entries s i) → pu_move s s' → ∀ i, unit_entries s' i.
Proof.
  intros He [c|i u p Hi Hpc Hp _ _|i u ws now a r t' log Hi Hpc Hr _ _ _] j; pose proof (He j) as Hj; unfold unit_entries, entries_of in *; cbn.
  - destruct (decide (j < length (pu_txs s))%nat) as [Hlt|Hge]; [by rewrite lookup_app_l|].
    rewrite lookup_ge_None_2 in Hj by lia. rewrite lookup_app_r by lia. by destruct (j - length (pu_txs s))%nat.
  - destruct (decide (i = j)) as [<-|Hne]; [|by rewrite list_lookup_insert_ne].
    rewrite list_lookup_insert_eq by (by eapply lookup_lt_Some). rewrite Hi in Hj. destruct u as [c pc]; cbn in *.
    assert (bfilter (λ e, (en_tx e =? i)%nat) (pu_hist s) = []) as -> by (by destruct pc as [| | | |[]]; try naive_solver).
    destruct p as [| | | |[x|e]]; try done; [by destruct (Hp x)|cbn; lia].
  - rewrite bfilter_app. destruct (decide (i = j)) as [<-|Hne].
    + rewrite list_lookup_insert_eq by (by eapply lookup_lt_Some). rewrite Hi in Hj. destruct u as [c pc]; cbn in *.
      assert (bfilter (λ e, (en_tx e =? i)%nat) (pu_hist s) = []) as -> by (by destruct pc as [| | | |[]]; try naive_solver).
      rewrite Nat.eqb_refl. destruct r as [x|e]; cbn; [|lia]. rewrite (Hr x) by done. eauto.
    + rewrite list_lookup_insert_ne by done. cbn. destruct (Nat.eqb_spec i j); [done|]. by rewrite app_nil_r.
Qed.

Definition extends (s s' : pg_units) : Prop :=
  (∀ i u, pu_txs s !! i = Some u → is_over u = true → pu_txs s' !! i = Some u) ∧
  ∃ h, pu_hist s' = pu_hist s ++ h ∧ ∀ e u, e ∈ h → pu_txs s !! en_tx e = Some u → is_over u = false.

Lemma move_extends s s' : pu_move s s' → extends s s'.
Proof.
  intros [c|i u p Hi Hpc _ _ _|i u ws now a r t' log Hi Hpc _ _ _ _]; split; cbn.
  - intros i u Hi _. by apply lookup_app_l_Some.
  - exists []. split; [by rewrite app_nil_r|]. by intros e u ?%not_elem_of_nil.
  - intros j v Hj Hv. rewrite list_lookup_insert_ne; [done|]. intros ->. rewrite Hi in Hj. injection Hj as ->.
    unfold is_over in Hv. destruct (ut_pc v) eqn:Hx; naive_solver.
  - exists []. split; [by rewrite app_nil_r|]. by intros e v ?%not_elem_of_nil.
  - intros j v Hj Hv. rewrite list_lookup_insert_ne; [done|]. intros ->. rewrite Hi in Hj. injection Hj as ->.
    unfold is_over in Hv. destruct (ut_pc v) eqn:Hx; naive_solver.
  - eexists. split; [done|]. intros e v ->%list_elem_of_singleton. cbn. rewrite Hi. intros [= <-].
    unfold is_over. destruct (ut_pc u) eqn:Hx; naive_solver.
Qed.

Lemma extends_trans s1 s2 s3 : extends s1 s2 → extends s2 s3 → extends s1 s3.
Proof.
  intros [H1 (h1 & Hh1 & He1)] [H2 (h2 & Hh2 & He2)]. split; [by eauto|].
  exists (h1 ++ h2). split; [by rewrite Hh2, Hh1, app_assoc|].
  intros e u [He|He]%elem_of_app Hu; [by eapply He1|].
  destruct (is_over u) eqn:Ho; [|done]. rewrite <- Ho. eapply He2; [done|]. by apply H1.
Qed.

(** ** Every unit can finish *)
Definition rows_left (t : proj_tables) (c : pg_call) (p : Z → bool) : nat :=
  length (bfilter p (segments_of (l_Name (call_lease c)) t).*1).

Definition steps_left (t : proj_tables) (u : unit_tx) : nat :=
  match ut_pc u with
  | UWait => 4 + rows_left t (ut_call u) (λ _, true)
  | ULocking upto => 3 + rows_left t (ut_call u) (Z.leb upto)
  | URunning _ => 2
  | UWritten _ _ _ => 1
  | UOver _ => 0
  end%nat.

#[local] Arguments steps_left t u : simpl never.

Definition total_left (t : proj_tables) (s : pg_units) : nat := sum_list (steps_left t <$> pu_txs s).

(** A step of a unit other than failing *)
Definition pu_forward (s s' : pg_units) : Prop :=
  ∃ a, match a with BeginUnit _ | WriteUnit _ _ | FailUnit _ _ | CommitUnit _ (Some _) => False | _ => True end ∧
    pu_step a s = Some s'.

Definition same_rows (t t' : proj_tables) : Prop := ∀ k, is_Some (t_segments t !! k) ↔ is_Some (t_segments t' !! k).

Lemma same_rows_segments name t t' : same_rows t t' → (segments_of name t).*1 = (segments_of name t').*1.
Proof.
  intros Hs. apply (strictly_sorted_ext (λ a b, a < b)); [lia|..].
  1-2: apply (StronglySorted_fmap_in fst _ (λ a b, a < b) _ (λ x y _ _ H, H)), segments_of_sorted.
  intros seg. rewrite !list_elem_of_fmap. split; intros ([seg' g] & -> & Hin%elem_of_segments_of); cbn in *.
  - destruct (proj1 (Hs (name, seg'))) as [g' Hg']; [by eexists|]. exists (seg', g'). split; [done|]. by apply elem_of_segments_of.
  - destruct (proj2 (Hs (name, seg'))) as [g' Hg']; [by eexists|]. exists (seg', g'). split; [done|]. by apply elem_of_segments_of.
Qed.

Lemma move_same_rows s s' : pu_move s s' → same_rows (pu_tables s) (pu_tables s').
Proof. intros [c|i u p|i u ws now a r t log _ _ _ Hdom _ _]; intros k; cbn; [done|done|by rewrite Hdom]. Qed.

Lemma forward_lock_next t s i u p l v : pu_txs s !! i = Some u → ut_call u = QReset l v →
  (∀ k seg, fst <$> head (bfilter (λ '(seg, _), p seg) (segments_of (l_Name l) (pu_tables s))) = Some seg → k = (l_Name l, seg) → free k s = true) →
  (∀ seg, p seg = true → is_Some (t_segments (pu_tables s) !! (l_Name l, seg)) →
     (3 + rows_left t (ut_call u) (Z.leb (seg + 1)) < steps_left t u)%nat) →
  (2 < steps_left t u)%nat →
  ∃ s', step_lock_next i (ut_call u) (fst <$> head (bfilter (λ '(seg, _), p seg) (segments_of (l_Name l) (pu_tables s)))) s = Some s' ∧
    (total_left t s' < total_left t s)%nat.
Proof.
  intros Hi Hc Hfree Hl H2. pose proof (first_segment p (l_Name l) (pu_tables s)) as Hf.
  destruct (fst <$> head _) as [seg|]; cbn.
  - assert (l_Name (call_lease (ut_call u)) = l_Name l) as -> by (by rewrite Hc).
    rewrite (Hfree _ seg eq_refl eq_refl). eexists. split; [done|].
    apply (sum_list_insert_lt _ _ u); [done|]. by apply Hl; apply Hf.
  - eexists. split; [done|]. unfold step_owned. destruct (t_segments _ !! _) as [g|]; [destruct (held_row _ _ g)|];
      (apply (sum_list_insert_lt _ _ u); [done|refine (Nat.le_lt_trans _ _ _ _ H2); unfold steps_left; cbn; lia]).
Qed.

Definition is_locking (u : unit_tx) : bool := match ut_pc u with ULocking _ => true | _ => false end.
Definition is_owned (u : unit_tx) : bool := match ut_pc u with URunning _ | UWritten _ _ _ => true | _ => false end.

Lemma existsb_lookup (p : unit_tx → bool) txs :
  if existsb p txs then ∃ i u, txs !! i = Some u ∧ p u = true else ∀ i u, txs !! i = Some u → p u = false.
Proof.
  destruct (existsb p txs) eqn:He.
  - apply existsb_elem in He as (u & Hu & Hp). apply list_elem_of_lookup_1 in Hu as [i Hi]. eauto.
  - intros i u Hi. apply not_true_iff_false. intros Hp. apply not_true_iff_false in He. apply He, existsb_elem.
    exists u. split; [by eapply list_elem_of_lookup_2|done].
Qed.

(** Of the units that take Reset's locks, one is furthest. *)
Lemma furthest_unit (txs : list unit_tx) :
  (∃ i c upto, txs !! i = Some (mkUnit c (ULocking upto))) →
  ∃ i c upto, txs !! i = Some (mkUnit c (ULocking upto)) ∧
    ∀ j c' upto', txs !! j = Some (mkUnit c' (ULocking upto')) → upto' ≤ upto.
Proof.
  induction txs as [|[c p] txs IH]; intros (i & c0 & upto0 & Hi); [done|].
  assert ((∃ i c upto, txs !! i = Some (mkUnit c (ULocking upto))) ∨ ¬ ∃ i c upto, txs !! i = Some (mkUnit c (ULocking upto))) as [Hex|Hno].
  { pose proof (existsb_lookup is_locking txs) as Hl. destruct (existsb is_locking txs).
    - destruct Hl as (j & [c1 []] & Hj & Hl); try done. left. eauto.
    - right. intros (j & c1 & upto & Hj). by apply Hl in Hj. }
  - destruct (IH Hex) as (j & c1 & upto1 & Hj & Hmax).
    destruct (match p with ULocking upto => bool_decide (upto1 < upto) | _ => false end) eqn:Hp.
    + destruct p as [|upto| | |]; try done. apply bool_decide_eq_true in Hp. exists 0%nat, c, upto. split; [done|].
      intros [|k] c' upto' Hk; cbn in Hk; [injection Hk as ->; lia|]. pose proof (Hmax _ _ _ Hk). lia.
    + exists (S j), c1, upto1. split; [done|]. intros [|k] c' upto' Hk; cbn in Hk; [|by eapply Hmax].
      injection Hk as -> ->. apply bool_decide_eq_false in Hp. lia.
  - destruct i as [|i]; [|destruct Hno; eauto]. cbn in Hi. injection Hi as -> ->. exists 0%nat, c0, upto0. split; [done|].
    intros [|k] c' upto' Hk; cbn in Hk; [injection Hk as ->; lia|]. destruct Hno; eauto.
Qed.

Lemma rows_left_lock t t' c p seg : same_rows t t' → is_Some (t_segments t' !! (l_Name (call_lease c), seg)) → p seg = true →
  (∀ seg', seg < seg' → p seg' = true) → (rows_left t c (Z.leb (seg + 1)) < rows_left t c p)%nat.
Proof.
  intros Hs [g Hg] Hp Hup. unfold rows_left. rewrite (same_rows_segments _ _ _ Hs).
  apply (bfilter_length_lt _ _ _ seg); [|apply list_elem_of_fmap; exists (seg, g); split; [done|by apply elem_of_segments_of]|done|by apply Z.leb_gt; lia].
  intros y _ Hy%Z.leb_le. apply Hup. lia.
Qed.

Lemma forward_owned t s i u : pu_txs s !! i = Some u → is_owned u = true →
  ∃ s', pu_forward s s' ∧ (total_left t s' < total_left t s)%nat.
Proof.
  intros Hi Hu. destruct u as [c [| |ws|ws now rows|]]; try done.
  - eexists. split; [exists (UpdateUnit i 0); split; [done|]; cbn; by rewrite Hi|].
    apply (sum_list_insert_lt _ _ (mkUnit c (URunning ws))); [done|]. unfold steps_left; cbn. lia.
  - eexists. split; [exists (CommitUnit i None); split; [done|]; cbn; by rewrite Hi|].
    apply (sum_list_insert_lt _ _ (mkUnit c (UWritten ws now rows))); [done|]. unfold steps_left; cbn. lia.
Qed.

Lemma forward_locking t s i c upto : pu_inv s → same_rows t (pu_tables s) →
  (∀ j u, pu_txs s !! j = Some u → is_owned u = false) →
  pu_txs s !! i = Some (mkUnit c (ULocking upto)) →
  (∀ j c' upto', pu_txs s !! j = Some (mkUnit c' (ULocking upto')) → upto' ≤ upto) →
  ∃ s', pu_forward s s' ∧ (total_left t s' < total_left t s)%nat.
Proof.
  intros Hinv Hs Hown Hi Hmax. pose proof (inv_ok s Hinv _ _ Hi) as Hc. destruct c as [| | | |l v|]; try done.
  destruct (forward_lock_next t s i (mkUnit (QReset l v) (ULocking upto)) (Z.leb upto) l v) as (s' & Hstep & Hlt); try done.
  - intros k seg Hfirst ->. pose proof (first_segment (Z.leb upto) (l_Name l) (pu_tables s)) as Hf. rewrite Hfirst in Hf.
    destruct Hf as [Hle%Z.leb_le _]. apply free_elem. intros j [c' p'] Hj. specialize (Hown _ _ Hj).
    destruct p' as [|upto'| | |]; try done. pose proof (Hmax _ _ _ Hj). apply andb_false_iff. right. apply Z.ltb_ge. cbn. lia.
  - intros seg Hp Hseg. unfold steps_left; cbn.
    enough (rows_left t (QReset l v) (Z.leb (seg + 1)) < rows_left t (QReset l v) (Z.leb upto))%nat by lia.
    apply (rows_left_lock t (pu_tables s)); try done. intros seg' Hlt. apply Z.leb_le in Hp. apply Z.leb_le. lia.
  - unfold steps_left; cbn. lia.
  - exists s'. split; [|done]. exists (LockUnit i). split; [done|]. cbn. by rewrite Hi.
Qed.

Lemma forward_waiting t s i c : same_rows t (pu_tables s) → (∀ k, free k s = true) → pu_txs s !! i = Some (mkUnit c UWait) →
  ∃ s', pu_forward s s' ∧ (total_left t s' < total_left t s)%nat.
Proof.
  intros Hs Hfree Hi. assert (4 ≤ steps_left t (mkUnit c UWait))%nat as H4 by (unfold steps_left; cbn; lia).
  destruct (single c) eqn:Hsingle.
  { destruct (run_call c [] 0 (pu_tables s, pu_log s)) as [res [t' log]] eqn:Hrun.
    exists (effect i c [] 0 res res t' log s). split.
    - exists (ExecUnit i 0). split; [done|]. cbn. rewrite Hi, Hsingle. unfold step_exec. rewrite Hfree, Hrun.
      destruct (t_segments _ !! _); [by rewrite andb_false_r|done].
    - apply (sum_list_insert_lt _ _ (mkUnit c UWait)); [done|]. eapply Nat.lt_le_trans; [|exact H4]. unfold steps_left; cbn. lia. }
  destruct (is_reset c) eqn:Hreset.
  - destruct c as [| | | |l v|]; try done.
    destruct (forward_lock_next t s i (mkUnit (QReset l v) UWait) (λ _, true) l v) as (s' & Hstep & Hlt); try done.
    + intros seg _ Hseg. unfold steps_left; cbn.
      pose proof (rows_left_lock t (pu_tables s) (QReset l v) (λ _, true) seg Hs Hseg eq_refl (λ _ _, eq_refl)). lia.
    + lia.
    + exists s'. split; [|done]. exists (LockUnit i). split; [done|]. cbn. rewrite Hi. cbn. cbn in Hstep.
      rewrite bfilter_all in Hstep; [done|]. apply Forall_forall. by intros [].
  - assert (∃ s', step_lock i (mkUnit c UWait) s = Some s' ∧ (total_left t s' < total_left t s)%nat) as (s' & Hstep & Hlt).
    { assert (step_lock i (mkUnit c UWait) s = Some (match t_segments (pu_tables s) !! call_key c with
        Some _ => step_owned i c s | None => refused i c s end)) as ->.
      { destruct c; try done; cbn; destruct (t_segments _ !! _); try done; by rewrite Hfree. }
      eexists. split; [done|]. unfold step_owned.
      destruct (t_segments _ !! _) as [g|]; [destruct (held_row _ _ g)|];
        (apply (sum_list_insert_lt _ _ (mkUnit c UWait)); [done|]; eapply Nat.lt_le_trans; [|exact H4]; unfold steps_left; cbn; lia). }
    exists s'. split; [|done]. exists (LockUnit i). split; [done|]. cbn. by rewrite Hi.
Qed.

Lemma forward_step t s : pu_inv s → same_rows t (pu_tables s) → existsb (negb ∘ is_over) (pu_txs s) = true →
  ∃ s', pu_forward s s' ∧ (total_left t s' < total_left t s)%nat.
Proof.
  intros Hinv Hs Hex.
  pose proof (existsb_lookup is_owned (pu_txs s)) as Hown. destruct (existsb is_owned (pu_txs s)).
  { destruct Hown as (i & u & Hi & Hu). by eapply forward_owned. }
  pose proof (existsb_lookup is_locking (pu_txs s)) as Hlk. destruct (existsb is_locking (pu_txs s)).
  { destruct Hlk as (i & [c []] & Hi & Hu); try done.
    destruct (furthest_unit (pu_txs s)) as (j & c' & upto' & Hj & Hmax); [eauto|]. by eapply forward_locking. }
  pose proof (existsb_lookup (negb ∘ is_over) (pu_txs s)) as Hw. rewrite Hex in Hw.
  destruct Hw as (i & [c p] & Hi & Hu). pose proof (Hown _ _ Hi). pose proof (Hlk _ _ Hi). destruct p; try done.
  apply (forward_waiting t s i c); [done| |done]. intros k. apply free_elem. intros j [c' p'] Hj.
  pose proof (Hown _ _ Hj). pose proof (Hlk _ _ Hj). by destruct p'.
Qed.

Lemma forward_run s s' : pu_forward s s' → pu_run s s'.
Proof. intros (a & _ & Ha). by exists a. Qed.

(** ** Properties *)

(** C8: However units of work over PostgreSQL interleave (claims, releases,
    statuses, commits, resets, fenced records), wait for row locks, fail, or
    lose the answer to a commit (that of a single statement is not lost), they
    are serial: called one at a time in the order they took effect, each call
    of the store gives the answer that was recorded, and the calls leave the
    same rows of segments and the same committed writes.  A unit that returned
    success took effect exactly once and with that answer, one that failed at
    most once; a unit that was over before another began comes before it, and
    what is over stays as it is. *)
Theorem pg_units_are_serial t s : rtc pu_run (pg_start t) s →
  (∃ t', replay (pu_hist s) (t, []) = (en_answer <$> pu_hist s, (t', pu_log s)) ∧
     t_segments t' = t_segments (pu_tables s)) ∧
  (∀ i c r, pu_txs s !! i = Some (mkUnit c (UOver (Ok r))) →
     ∃ ws now, entries_of i (pu_hist s) = [mkEntry i c ws now (Ok r)]) ∧
  (∀ i c e, pu_txs s !! i = Some (mkUnit c (UOver (Fail e))) → (length (entries_of i (pu_hist s)) ≤ 1)%nat) ∧
  ∀ s', rtc pu_run s s' → extends s s'.
Proof.
  intros Hrun.
  assert (replays t s ∧ ∀ i, unit_entries s i) as [Hrep Hent].
  { enough (pu_inv s ∧ replays t s ∧ ∀ i, unit_entries s i) as (_ & ? & ?) by done.
    apply (rtc_ind_r (λ s, pu_inv s ∧ replays t s ∧ ∀ i, unit_entries s i) (R := pu_run) (pg_start t)); [| |done].
    - split_and!; [apply pg_start_inv|by exists t|by intros i; unfold unit_entries; cbn; rewrite lookup_nil].
    - intros x y _ [a Ha] (Hi & Hr & He). pose proof (pu_step_move _ _ _ Hi Ha) as Hm.
      split_and!; [by eapply pu_move_inv|by eapply move_replays|by eapply move_entries]. }
  split_and!; [done| | |].
  - intros i c r Hi. specialize (Hent i). unfold unit_entries in Hent. by rewrite Hi in Hent.
  - intros i c e Hi. specialize (Hent i). unfold unit_entries in Hent. by rewrite Hi in Hent.
  - intros s' Hrun'. apply pu_run_inv in Hrun. clear Hrep Hent. induction Hrun' as [s|s s1 s2 [a Ha] _ IH].
    + split; [done|]. exists []. split; [by rewrite app_nil_r|]. by intros e u ?%not_elem_of_nil.
    + pose proof (pu_step_move _ _ _ Hrun Ha) as Hm. eapply extends_trans; [by apply move_extends|].
      apply IH. by eapply pu_move_inv.
Qed.

(** While the function of a unit runs, its claim is the current one, and no step
    of another unit changes the rows it has locked. *)
Theorem running_unit_keeps_its_claim t s i u : rtc pu_run (pg_start t) s → pu_txs s !! i = Some u → is_owned u = true →
  owned_by (ut_call u) (pu_tables s) ∧
  ∀ a s', pu_step a s = Some s' → (∃ v, pu_txs s' !! i = Some v ∧ is_over v = false) →
    ∀ k, holds u k = true → t_segments (pu_tables s') !! k = t_segments (pu_tables s) !! k.
Proof.
  intros Hinv%pu_run_inv Hi Hu. split.
  - pose proof (inv_ok s Hinv _ _ Hi) as Hok. destruct u as [c []]; try done; [by destruct Hok|by destruct Hok as (_ & ? & _)].
  - intros a s' Ha (v & Hv & Hover) k Hk. apply (pu_step_move _ _ _ Hinv) in Ha.
    destruct Ha as [c|j u' p Hj _ _ _ _|j u' ws now a0 r t' log Hj _ _ _ Hkeep _]; cbn in *; [done..|].
    destruct (decide (j = i)) as [->|Hne]; [|symmetry; by eapply Hkeep].
    rewrite list_lookup_insert_eq in Hv by (by eapply lookup_lt_Some). by injection Hv as <-.
Qed.

(** Units of work over PostgreSQL never deadlock: from every reachable state, with
    any number of claims, commits and resets under way and resets of one
    projection among them, the units can all go on to their end without any of
    them failing, because Reset locks its segments in their order. *)
Theorem pg_units_can_finish t s : rtc pu_run (pg_start t) s →
  ∃ s', rtc pu_forward s s' ∧ ∀ i u, pu_txs s' !! i = Some u → is_over u = true.
Proof.
  intros Hinv%pu_run_inv. assert (same_rows (pu_tables s) (pu_tables s)) as Hs by done.
  revert Hs. generalize (pu_tables s) at 1. intros t0. remember (total_left t0 s) as n eqn:Hn.
  revert s Hinv Hn. induction (lt_wf n) as [n _ IH]. intros s Hinv -> Hs.
  destruct (existsb (negb ∘ is_over) (pu_txs s)) eqn:Hex.
  - destruct (forward_step t0 s Hinv Hs Hex) as (s1 & Hfw & Hlt).
    destruct (forward_run _ _ Hfw) as [a Ha]. pose proof (pu_step_move _ _ _ Hinv Ha) as Hm.
    destruct (IH _ Hlt s1) as (s' & Hrun & Hdone); [by eapply pu_move_inv|done| |].
    + intros k. by rewrite (Hs k), (move_same_rows _ _ Hm k).
    + exists s'. split; [by eapply rtc_l|done].
  - exists s. split; [done|]. intros i u Hi. pose proof (existsb_lookup (negb ∘ is_over) (pu_txs s)) as Hl.
    rewrite Hex in Hl. specialize (Hl _ _ Hi). cbn in Hl. by apply negb_false_iff in Hl.
Qed.
End units.
