(* ===== verification/Runner.v ===== *)
(** * The projection runner's state ([projection/projection.go], [runner.go])

    What a runner is configured with, what it calls, and what it keeps in
    memory.  Everything outside the process memory of the runner (the store,
    the log, the read model, the clock, the context) is one world [W], which
    every call may change. *)
From S2P Require Import Prelude Core Registry Context ProjStore CommandBus.

(** ** Configuration *)
Definition DefaultBatchSize : Z := 500.
Definition DefaultPollInterval : duration := second.
Definition DefaultClaimTTL : duration := 15 * second.

Definition ByStreamID (env : Envelope) : string := StreamID env.

Definition SegmentOf (key : string) (segments : Z) : Z :=
  if segments <=? 1 then 0
  else fnv32a (String.list_byte_of_string key) `mod` u32 segments.

Inductive ErrorPolicy : Type := StallOnError | SkipWhenLive | SkipAlways.

Definition ErrorPolicy_String (p : ErrorPolicy) : string :=
  match p with
  | StallOnError => "stall_on_error"
  | SkipWhenLive => "skip_when_live"
  | SkipAlways => "skip_always"
  end.

(** A handler acts on the world, within the unit of work its context carries. *)
Definition EventHandler (W : Type) : Type := values → option Event → W → option error * W.

(** [Definition] of the source. *)
Record ProjDefinition (W : Type) : Type := mkDefinition {
  p_Name : string;
  p_Handler : option (EventHandler W);
  p_EventTypes : list string;
  p_Version : Z;
  p_Reset : option (W → option error * W);
  p_Segments : Z;
  p_SegmentKey : option (Envelope → string);
  p_OnError : ErrorPolicy;
  p_Owner : string;
  p_BatchSize : Z;
  p_PollInterval : duration;
  p_ClaimTTL : duration;
}.
Arguments mkDefinition {W}.
Arguments p_Name {W}. Arguments p_Handler {W}. Arguments p_EventTypes {W}. Arguments p_Version {W}.
Arguments p_Reset {W}. Arguments p_Segments {W}. Arguments p_SegmentKey {W}. Arguments p_OnError {W}.
Arguments p_Owner {W}. Arguments p_BatchSize {W}. Arguments p_PollInterval {W}. Arguments p_ClaimTTL {W}.

(** ** What a runner calls *)

(** The optional [DeadLetterStore] interface. *)
Record DeadLetterOps (W : Type) : Type := mkDeadLetterOps {
  dls_SaveDeadLetter : Lease → DeadLetter → W → option error * W;
  dls_LoadDeadLetters : string → Z → W → result error (list DeadLetter) * W;
  dls_DeleteDeadLetter : Lease → Z → W → option error * W;
  dls_RequestReplay : string → string → W → result error Z * W;
  dls_PendingReplays : string → W → result error (list Replay) * W;
  dls_FinishReplay : Lease → Z → string → W → option error * W;
  dls_ReplayResult : string → Z → W → result error (Z * list string) * W;
}.
Arguments mkDeadLetterOps {W}.
Arguments dls_SaveDeadLetter {W}. Arguments dls_LoadDeadLetters {W}. Arguments dls_DeleteDeadLetter {W}.
Arguments dls_RequestReplay {W}. Arguments dls_PendingReplays {W}. Arguments dls_FinishReplay {W}.
Arguments dls_ReplayResult {W}.

(** The cases of the select of [waitLive]. *)
Inductive live_case : Type := CaseDone | CaseNudge | CasePoll.

(** The [Store] and [GlobalReader] interfaces, and [ctx.Err].  [Claim] gives
    [None] when it returns false. *)
Class StoreOps (W : Type) : Type := {
  st_Declare : string → Z → Z → W → option error * W;
  st_Claim : Lease → duration → W → result error (option (Lease * Checkpoint)) * W;
  st_Commit : Lease → Checkpoint → Status → (W → option error * W) → W → option error * W;
  st_Reset : Lease → Z → (W → option error * W) → W → option error * W;
  st_Release : Lease → W → option error * W;
  st_SaveStatus : Lease → Status → W → option error * W;
  st_LoadStatuses : string → W → result error (list Status) * W;
  st_RequestRebuild : string → W → result error Z * W;
  st_Rebuilds : string → W → result error (Z * Z) * W;
  st_FailRebuild : Lease → Z → string → W → option error * W;
  st_RebuildFailure : string → W → result error (Z * string) * W;
  st_Heartbeat : string → string → Z → duration → W → result error (list Instance_) * W;
  st_DeadLetters : option (DeadLetterOps W);
  rd_ReadAll : Z → ReadOptions → W → result error ReadResult * W;
  rd_Head : W → result error Z * W;
  (** [ctx.Err()]; the clock; a timer of so long that [ctx] cuts short; and
      [waitLive]'s select over [ctx.Done], a nudge and the poll timer *)
  ctx_done : W → option error;
  clock : W → time;
  sleepCtx : duration → W → W;
  select_live : Z → W → live_case * W;
  (** [err.Error()], the text of an error *)
  error_text : error → string;
}.

(** SHA-256 as [fingerprint] uses it: the first 16 bytes of the sum, in hex. *)
Class SHA256 : Type := sha256_hex16 : string → string.

(** ** Memory *)
Record segmentState : Type := mkSegment {
  ss_status : Status;
  ss_lease : Lease;
  ss_active : bool;
  ss_reserved : bool;
  ss_parked : gset string;
  ss_hasParked : bool;
  ss_rebuilding : bool;
}.

(** The replay requests queued in memory; [rq_replayed] counts how often the
    channel [replayed] was closed and replaced. *)
Record replayQueue : Type := mkReplayQueue {
  rq_pending : gmap Z (list Replay);
  rq_queued : list Replay;
  rq_checkReplays : bool;
  rq_replayed : Z;
  rq_waiters : Z;
  rq_errs : gmap Z (list error);
  rq_poll : bool;
}.

Record rebuildState : Type := mkRebuildState {
  rb_checkRebuild : bool;
  rb_warnedRebuild : Z;
  rb_rebuilt : Z;
  rb_resetting : bool;
  rb_rebuildFailed : Z;
  rb_rebuildErr : option error;
}.

Record membershipState : Type := mkMembership {
  mb_quota : Z;
  mb_held : Z;
  mb_instancesOK : bool;
  mb_stable : Z;
  mb_membership : string;
}.

(** [rn_changed] and [rn_notified] count the closings of the channel
    [changed] and the calls of [notifyWatchers]; [rn_nudged] counts nudges. *)
Record Runner (W : Type) : Type := mkRunner {
  rn_p : ProjDefinition W;
  rn_segments : Z;
  rn_fingerprint : string;
  rn_segs : list segmentState;
  rn_changed : Z;
  rn_notified : Z;
  rn_nudged : Z;
  rn_replays : replayQueue;
  rn_rebuild : rebuildState;
  rn_members : membershipState;
  rn_skipped : Z;
}.
Arguments mkRunner {W}.
Arguments rn_p {W}. Arguments rn_segments {W}. Arguments rn_fingerprint {W}. Arguments rn_segs {W}.
Arguments rn_changed {W}. Arguments rn_notified {W}. Arguments rn_nudged {W}. Arguments rn_replays {W}.
Arguments rn_rebuild {W}. Arguments rn_members {W}. Arguments rn_skipped {W}.

(** [slices.Compact] *)
Fixpoint compact (l : list string) : list string :=
  match l with
  | x :: (y :: _) as l => if bool_decide (x = y) then compact l else x :: compact l
  | l => l
  end.

(** ["\n"] *)
Definition newline : string := String (Ascii.ascii_of_nat 10) EmptyString.

Definition fingerprint `{SHA256} (eventTypes : list string) : string :=
  sha256_hex16 (String.concat newline (compact (sort_slice string_less eventTypes))).

Definition empty_status (p : Phase) (version segment : Z) : Status :=
  mkStatus p 0 0 version "" "" segment 0 0 0 false.

(** ** Updates *)
Section updates.
Context {W : Type}.
Implicit Types r : Runner W.

Definition set_segs (segs : list segmentState) r : Runner W :=
  mkRunner (rn_p r) (rn_segments r) (rn_fingerprint r) segs (rn_changed r) (rn_notified r) (rn_nudged r)
    (rn_replays r) (rn_rebuild r) (rn_members r) (rn_skipped r).
Definition signalChange r : Runner W :=
  mkRunner (rn_p r) (rn_segments r) (rn_fingerprint r) (rn_segs r) (rn_changed r + 1) (rn_notified r) (rn_nudged r)
    (rn_replays r) (rn_rebuild r) (rn_members r) (rn_skipped r).
Definition notifyWatchers r : Runner W :=
  mkRunner (rn_p r) (rn_segments r) (rn_fingerprint r) (rn_segs r) (rn_changed r) (rn_notified r + 1) (rn_nudged r)
    (rn_replays r) (rn_rebuild r) (rn_members r) (rn_skipped r).
Definition Nudge r : Runner W :=
  mkRunner (rn_p r) (rn_segments r) (rn_fingerprint r) (rn_segs r) (rn_changed r) (rn_notified r) (rn_nudged r + 1)
    (rn_replays r) (rn_rebuild r) (rn_members r) (rn_skipped r).
Definition set_replays (q : replayQueue) r : Runner W :=
  mkRunner (rn_p r) (rn_segments r) (rn_fingerprint r) (rn_segs r) (rn_changed r) (rn_notified r) (rn_nudged r)
    q (rn_rebuild r) (rn_members r) (rn_skipped r).
Definition set_rebuild (b : rebuildState) r : Runner W :=
  mkRunner (rn_p r) (rn_segments r) (rn_fingerprint r) (rn_segs r) (rn_changed r) (rn_notified r) (rn_nudged r)
    (rn_replays r) b (rn_members r) (rn_skipped r).
Definition set_members (m : membershipState) r : Runner W :=
  mkRunner (rn_p r) (rn_segments r) (rn_fingerprint r) (rn_segs r) (rn_changed r) (rn_notified r) (rn_nudged r)
    (rn_replays r) (rn_rebuild r) m (rn_skipped r).
Definition add_skipped r : Runner W :=
  mkRunner (rn_p r) (rn_segments r) (rn_fingerprint r) (rn_segs r) (rn_changed r) (rn_notified r) (rn_nudged r)
    (rn_replays r) (rn_rebuild r) (rn_members r) (rn_skipped r + 1).

(** [r.segs[seg]]; the runner only indexes its own segments. *)
Definition seg_of (seg : Z) r : option segmentState := rn_segs r !! Z.to_nat seg.

Definition update_seg (seg : Z) (f : segmentState → segmentState) r : Runner W :=
  set_segs (alter f (Z.to_nat seg) (rn_segs r)) r.

Definition with_status (st : Status) (s : segmentState) : segmentState :=
  mkSegment st (ss_lease s) (ss_active s) (ss_reserved s) (ss_parked s) (ss_hasParked s) (ss_rebuilding s).
Definition with_lease (l : Lease) (s : segmentState) : segmentState :=
  mkSegment (ss_status s) l (ss_active s) (ss_reserved s) (ss_parked s) (ss_hasParked s) (ss_rebuilding s).
Definition with_active (b : bool) (s : segmentState) : segmentState :=
  mkSegment (ss_status s) (ss_lease s) b (ss_reserved s) (ss_parked s) (ss_hasParked s) (ss_rebuilding s).
Definition with_reserved (b : bool) (s : segmentState) : segmentState :=
  mkSegment (ss_status s) (ss_lease s) (ss_active s) b (ss_parked s) (ss_hasParked s) (ss_rebuilding s).
(** An assignment to [parked] followed by [noteParked]. *)
Definition with_parked (ps : gset string) (s : segmentState) : segmentState :=
  mkSegment (ss_status s) (ss_lease s) (ss_active s) (ss_reserved s) ps
    (negb (bool_decide (ps = ∅))) (ss_rebuilding s).
Definition with_rebuilding (b : bool) (s : segmentState) : segmentState :=
  mkSegment (ss_status s) (ss_lease s) (ss_active s) (ss_reserved s) (ss_parked s) (ss_hasParked s) b.

Definition no_segment : segmentState :=
  mkSegment (empty_status Starting 0 0) (mkLease "" 0 "" 0) false false ∅ false false.

(** [lease]; [parked]; [status]. *)
Definition lease (seg : Z) r : Lease := ss_lease (default no_segment (seg_of seg r)).
Definition parked (seg : Z) r : gset string := ss_parked (default no_segment (seg_of seg r)).
Definition status_of (seg : Z) r : Status := ss_status (default no_segment (seg_of seg r)).

Definition readOptions r : ReadOptions := mkReadOptions (p_BatchSize (rn_p r)) (p_EventTypes (rn_p r)) [].
End updates.

(** ** Building a runner *)
Section new_runner.
Context {W : Type} `{SHA256}.

Definition new_segment (p : ProjDefinition W) (i : Z) : segmentState :=
  mkSegment (empty_status Starting (p_Version p) i) (mkLease (p_Name p) i (p_Owner p) 0)
    false false ∅ false false.

(** [host] is the host name and process ID, [random] the random part. *)
Definition ownerOf (host random owner : string) : string :=
  (if bool_decide (owner = "") then host else owner) +:+ "/" +:+ random.

Definition unregistered (reg : Registry) (names : list string) : bool :=
  existsb (λ name, match NewEventByName name reg with Ok _ => false | Fail _ => true end) names.

Definition is_nil {A} (o : option A) : bool := match o with None => true | Some _ => false end.

Definition NewRunner (reg : Registry) (host random : string) (p : ProjDefinition W) : outcome (Runner W) :=
  if bool_decide (p_Name p = "") then Panics "projection: Definition.Name is required"
  else if is_nil (p_Handler p) then Panics "Handler is required"
  else if bool_decide (p_EventTypes p = []) then Panics "EventTypes is required"
  else if negb (p_Version p =? 0) && is_nil (p_Reset p) then Panics "Version > 0 requires Reset"
  else
    let segments := Z.max (p_Segments p) 1 in
    if (1 <? segments) && is_nil (p_SegmentKey p) then Panics "Segments > 1 requires SegmentKey"
    else if unregistered reg (p_EventTypes p) then Panics "event is not registered"
    else
      let poll := if p_PollInterval p <=? 0 then DefaultPollInterval else p_PollInterval p in
      let ttl := if p_ClaimTTL p <=? 0 then DefaultClaimTTL else p_ClaimTTL p in
      if ttl <=? poll then Panics "PollInterval must be shorter than ClaimTTL"
      else
        let p := mkDefinition (p_Name p) (p_Handler p) (p_EventTypes p) (p_Version p) (p_Reset p)
                   (p_Segments p) (p_SegmentKey p) (p_OnError p) (ownerOf host random (p_Owner p))
                   (if p_BatchSize p <=? 0 then DefaultBatchSize else p_BatchSize p) poll ttl in
        Returns (mkRunner p segments (fingerprint (p_EventTypes p))
          (new_segment p <$> seqZ 0 segments) 0 0 0
          (mkReplayQueue ∅ [] false 0 0 ∅ false)
          (mkRebuildState false 0 0 false 0 None)
          (mkMembership 0 0 false 0 "") 0).
End new_runner.

(** ** Facts *)
Lemma SegmentOf_range key segments : 1 ≤ segments < two32 → 0 ≤ SegmentOf key segments < segments.
Proof.
  intros Hs. unfold SegmentOf. destruct (Z.leb_spec segments 1); [lia|].
  unfold u32. rewrite (Z.mod_small segments) by lia. apply Z.mod_pos_bound. lia.
Qed.

Lemma seg_of_update {W} (r : Runner W) seg seg' f :
  0 ≤ seg → 0 ≤ seg' →
  seg_of seg' (update_seg seg f r) = if decide (seg = seg') then f <$> seg_of seg' r else seg_of seg' r.
Proof.
  intros H0 H0'. unfold seg_of, update_seg; cbn. case_decide as Hs.
  - subst. by rewrite list_lookup_alter_eq.
  - rewrite list_lookup_alter_ne; [done|lia].
Qed.
