(* ===== verification/Membership.v ===== *)
(** * Spreading segments over instances ([projection/instances.go]) *)
From S2P Require Import Prelude Core ProjStore Runner.

Definition shedGrace : Z := 2.

Definition heartbeatInterval {W} (r : Runner W) : duration :=
  Z.min (p_PollInterval (rn_p r)) (Z.quot (p_ClaimTTL (rn_p r)) 3).

Definition top_version (ins : list Instance_) : Z := foldl (λ top m, Z.max top (in_Version m)) 0 ins.

(** By descending segments held, then by owner. *)
Definition share_less (a b : Instance_) : bool :=
  (in_Segments b <? in_Segments a) ||
  ((in_Segments a =? in_Segments b) && string_less (in_Owner a) (in_Owner b)).

Definition counted (ins : list Instance_) : list Instance_ :=
  sort_slice share_less (bfilter (λ m, in_Version m =? top_version ins) ins).

(** [slices.IndexFunc] *)
Fixpoint index_of (owner : string) (l : list Instance_) : option nat :=
  match l with
  | [] => None
  | m :: l => if bool_decide (in_Owner m = owner) then Some 0%nat else S <$> index_of owner l
  end.

Definition quota (ins : list Instance_) (owner : string) (segments : Z) : Z :=
  let live := counted ins in
  match index_of owner live with
  | None => 0
  | Some i =>
    let n := zlen live in
    let q := segments `quot` n in
    if Z.of_nat i <? segments `rem` n then q + 1 else q
  end.

(** A byte 0 as a string. *)
Definition nul : string := String Ascii.zero EmptyString.

Section membership.
Context {W : Type} `{ST : StoreOps W}.
(** [strconv.Itoa] *)
Context (itoa : Z → string).

Definition membership (ins : list Instance_) : string :=
  foldl (λ b m, b +:+ in_Owner m +:+ nul +:+ itoa (in_Version m) +:+ nul) "" ins.

(** [heartbeat], given what [Store.Heartbeat] returned. *)
Definition heartbeat_result (res : result error (list Instance_)) (r : Runner W) : option error * Runner W :=
  let m := rn_members r in
  match res with
  | Fail e => (Some e, set_members (mkMembership (mb_quota m) (mb_held m) false (mb_stable m) (mb_membership m)) r)
  | Ok ins =>
    let sig := membership ins in
    let stable := if bool_decide (sig = mb_membership m) then mb_stable m + 1 else 0 in
    let q := quota ins (p_Owner (rn_p r)) (rn_segments r) in
    let r := set_members (mkMembership q (mb_held m) true stable sig) r in
    (None, if (q <? mb_held m) && (shedGrace <=? stable) then Nudge r else r)
  end.

Definition heartbeat (r : Runner W) (w : W) : option error * Runner W * W :=
  let '(res, w) := st_Heartbeat (p_Name (rn_p r)) (p_Owner (rn_p r)) (p_Version (rn_p r)) (p_ClaimTTL (rn_p r)) w in
  let '(err, r) := heartbeat_result res r in
  (err, r, w).

(** [leave] sends a heartbeat with a ttl of 0. *)
Definition leave (r : Runner W) (w : W) : W :=
  (st_Heartbeat (p_Name (rn_p r)) (p_Owner (rn_p r)) (p_Version (rn_p r)) 0 w).2.

Definition reserve (seg : Z) (r : Runner W) : bool * Runner W :=
  let m := rn_members r in
  match seg_of seg r with
  | None => (false, r)
  | Some s =>
    if ss_reserved s then (true, r)
    else if negb (mb_instancesOK m) || (mb_quota m <=? mb_held m) then (false, r)
    else (true, set_members (mkMembership (mb_quota m) (mb_held m + 1) (mb_instancesOK m) (mb_stable m) (mb_membership m))
                  (update_seg seg (with_reserved true) r))
  end.

Definition unreserve (seg : Z) (r : Runner W) : Runner W :=
  let m := rn_members r in
  match seg_of seg r with
  | None => r
  | Some s =>
    if ss_reserved s
    then set_members (mkMembership (mb_quota m) (mb_held m - 1) (mb_instancesOK m) (mb_stable m) (mb_membership m))
           (update_seg seg (with_reserved false) r)
    else r
  end.

(** The loop of [shouldShed] over the segments from [i] down to 1. *)
Fixpoint highest_reserved (segs : list segmentState) (i : nat) : option nat :=
  match i with
  | O => None
  | S j => match segs !! i with
           | Some s => if ss_reserved s then Some i else highest_reserved segs j
           | None => highest_reserved segs j
           end
  end.

Definition shouldShed (seg : Z) (r : Runner W) : bool :=
  let m := rn_members r in
  if negb (mb_instancesOK m) || (mb_stable m <? shedGrace) || (mb_held m <=? mb_quota m) then false
  else match highest_reserved (rn_segs r) (pred (length (rn_segs r))) with
       | Some i => Z.of_nat i =? seg
       | None => seg =? 0
       end.
End membership.

(** ** Quotas *)

(** The quotas of [n] instances over [segments], by rank. *)
Definition share (segments n i : Z) : Z :=
  let q := segments `quot` n in if i <? segments `rem` n then q + 1 else q.

Lemma index_of_lookup owner l i :
  index_of owner l = Some i → ∃ m, l !! i = Some m ∧ in_Owner m = owner.
Proof.
  revert i. induction l as [|m l IH]; intros i; simpl; [done|]. case_bool_decide.
  - intros [= <-]. by exists m.
  - destruct (index_of owner l) as [j|]; [|done]. intros [= <-]. by apply IH.
Qed.

Lemma index_of_nodup l i m :
  NoDup (in_Owner <$> l) → l !! i = Some m → index_of (in_Owner m) l = Some i.
Proof.
  revert i. induction l as [|m0 l IH]; intros i Hnd Hi; [done|]. cbn [fmap list_fmap] in Hnd.
  apply NoDup_cons in Hnd as [Hnin Hnd]. cbn [index_of]. destruct i as [|i]; simplify_eq/=.
  - by rewrite bool_decide_true.
  - rewrite bool_decide_false.
    + by rewrite (IH i Hnd Hi).
    + intros Heq. apply Hnin. rewrite Heq. apply list_elem_of_fmap_2. by eapply list_elem_of_lookup_2.
Qed.

Lemma quota_rank ins segments i m :
  NoDup (in_Owner <$> ins) → counted ins !! i = Some m →
  quota ins (in_Owner m) segments = share segments (zlen (counted ins)) (Z.of_nat i).
Proof.
  intros Hnd Hi. unfold quota, share. rewrite (index_of_nodup _ i); [done| |done].
  unfold counted. rewrite sort_slice_perm.
  clear -Hnd. induction ins as [|x ins IH]; [constructor|].
  assert (∀ v, NoDup (in_Owner <$> bfilter (λ m, in_Version m =? v) (x :: ins))) as H; [|apply H].
  intros v. clear IH. revert Hnd. generalize (x :: ins). clear. intros l.
  induction l as [|y l IH]; cbn [fmap list_fmap bfilter]; [done|]. intros [Hn Hl]%NoDup_cons.
  destruct (_ =? _); [|auto]. cbn. apply NoDup_cons. split; [|auto].
  intros (z & Hz & Hin)%list_elem_of_fmap. apply elem_of_bfilter in Hin as [_ Hin].
  apply Hn. rewrite Hz. by apply list_elem_of_fmap_2.
Qed.

(** The shares of the first [k] ranks. *)
Definition share_sum (segments n : Z) (k : nat) : Z :=
  lsum (share segments n) (seqZ 0 (Z.of_nat k)).

Lemma share_sum_S segments n k : share_sum segments n (S k) = share_sum segments n k + share segments n (Z.of_nat k).
Proof.
  unfold share_sum. rewrite Nat2Z.inj_succ, <- Z.add_1_r, seqZ_app by lia.
  rewrite lsum_app. replace (seqZ (0 + Z.of_nat k) 1) with [Z.of_nat k] by (unfold seqZ; cbn; f_equal; lia).
  f_equal. unfold lsum; cbn. lia.
Qed.

Lemma share_sum_closed segments n k :
  0 ≤ segments → 0 < n → Z.of_nat k ≤ n →
  share_sum segments n k = Z.of_nat k * (segments `quot` n) + Z.min (Z.of_nat k) (segments `rem` n).
Proof.
  intros Hs Hn. pose proof (Z.rem_bound_pos segments n Hs Hn) as Hr.
  induction k as [|k IH]; intros Hk; [change (share_sum segments n 0) with 0; change (Z.of_nat 0) with 0; rewrite Z.min_l by lia; lia|].
  rewrite share_sum_S, IH by lia. unfold share.
  destruct (Z.ltb_spec (Z.of_nat k) (segments `rem` n)); lia.
Qed.

Lemma share_sum_total segments n : 0 ≤ segments → 0 < n → share_sum segments n (Z.to_nat n) = segments.
Proof.
  intros Hs Hn. rewrite share_sum_closed by lia. pose proof (Z.rem_bound_pos segments n Hs Hn).
  pose proof (Z.quot_rem' segments n). rewrite Z2Nat.id by lia. nia.
Qed.

Lemma lsum_quota ins segments l k :
  NoDup (in_Owner <$> ins) → (∀ i m, l !! i = Some m → counted ins !! (k + i)%nat = Some m) →
  lsum (λ m, quota ins (in_Owner m) segments) l
  = lsum (share segments (zlen (counted ins))) (seqZ (Z.of_nat k) (zlen l)).
Proof.
  intros Hnd. revert k. induction l as [|m l IH]; intros k Hl; [done|].
  rewrite zlen_cons. rewrite seqZ_cons by (pose proof (zlen_nonneg l); lia). unfold lsum in *; cbn.
  rewrite (quota_rank ins segments k m Hnd) by (specialize (Hl 0%nat m eq_refl); by rewrite Nat.add_0_r in Hl).
  f_equal. replace (Z.pred (1 + zlen l)) with (zlen l) by lia.
  replace (Z.succ (Z.of_nat k)) with (Z.of_nat (S k)) by lia. apply IH.
  intros i m' Hi. replace (S k + i)%nat with (k + S i)%nat by lia. by apply Hl.
Qed.

(** C38: The quotas the instances compute from the same view add up to the number
    of segments; instances on an older version get none; and no two of the
    others differ by more than one segment. *)
Theorem quotas_cover_the_segments ins segments :
  0 ≤ segments → NoDup (in_Owner <$> ins) → counted ins ≠ [] →
  lsum (λ m, quota ins (in_Owner m) segments) (counted ins) = segments ∧
  (∀ m, m ∈ ins → in_Version m < top_version ins → quota ins (in_Owner m) segments = 0) ∧
  (∀ m, m ∈ counted ins →
     segments `quot` zlen (counted ins) ≤ quota ins (in_Owner m) segments ≤ segments `quot` zlen (counted ins) + 1).
Proof.
  intros Hs Hnd Hne.
  assert (0 < zlen (counted ins)) as Hn.
  { pose proof (zlen_nonneg (counted ins)). pose proof (proj1 (zlen_zero (counted ins))).
    destruct (Z.eq_dec (zlen (counted ins)) 0); [tauto|lia]. }
  split_and!.
  - rewrite (lsum_quota ins segments (counted ins) 0 Hnd) by done.
    etrans; [|exact (share_sum_total segments (zlen (counted ins)) Hs Hn)]. unfold share_sum.
    by rewrite Z2Nat.id by lia.
  - intros m Hm Hv. unfold quota. destruct (index_of (in_Owner m) (counted ins)) as [i|] eqn:Hi; [|done].
    exfalso. apply index_of_lookup in Hi as (m' & Hl & Ho). apply list_elem_of_lookup_2 in Hl.
    unfold counted in Hl. rewrite elem_of_sort_slice, elem_of_bfilter in Hl. destruct Hl as [Hv' Hin'].
    apply Z.eqb_eq in Hv'. assert (m' = m) as ->; [|lia].
    apply list_elem_of_lookup in Hm as [j Hj]. apply list_elem_of_lookup in Hin' as [j' Hj'].
    assert (j' = j) as ->; [|congruence].
    eapply NoDup_lookup; [exact Hnd| |]; rewrite list_lookup_fmap; [by rewrite Hj'|].
    rewrite Hj. cbn. by rewrite Ho.
  - intros m Hm. apply list_elem_of_lookup in Hm as [i Hi]. rewrite (quota_rank _ _ _ _ Hnd Hi).
    unfold share. destruct (_ <? _); lia.
Qed.

(** ** Reservations *)
Definition reserved_count (segs : list segmentState) : Z :=
  lsum (λ s, if ss_reserved s then 1 else 0) segs.

Definition held_ok {W} (r : Runner W) : Prop :=
  mb_held (rn_members r) = reserved_count (rn_segs r) ∧ 1 ≤ zlen (rn_segs r).

Lemma alter_insert {A} (f : A → A) (l : list A) i x : l !! i = Some x → alter f i l = <[i := f x]> l.
Proof.
  revert i. induction l as [|y l IH]; intros [|i] H; simplify_eq/=; [done|]. by rewrite <- IH.
Qed.

Lemma reserve_held {W} seg (r : Runner W) : held_ok r → held_ok (reserve seg r).2.
Proof.
  intros [Hh Hl]. unfold reserve. destruct (seg_of seg r) as [s|] eqn:Hs; [|done].
  destruct (ss_reserved s) eqn:Hres; [done|]. destruct (_ || _); [done|]. unfold held_ok; cbn.
  unfold seg_of in Hs. rewrite (alter_insert _ _ _ _ Hs). unfold zlen in *. rewrite length_insert.
  split; [|done]. unfold reserved_count in *. rewrite (lsum_insert _ _ _ _ _ Hs). cbn. rewrite Hres. lia.
Qed.

Lemma unreserve_held {W} seg (r : Runner W) : held_ok r → held_ok (unreserve seg r).
Proof.
  intros [Hh Hl]. unfold unreserve. destruct (seg_of seg r) as [s|] eqn:Hs; [|done].
  destruct (ss_reserved s) eqn:Hres; [|done]. unfold held_ok; cbn.
  unfold seg_of in Hs. rewrite (alter_insert _ _ _ _ Hs). unfold zlen in *. rewrite length_insert.
  split; [|done]. unfold reserved_count in *. rewrite (lsum_insert _ _ _ _ _ Hs). cbn. rewrite Hres. lia.
Qed.

Lemma highest_reserved_spec segs i :
  match highest_reserved segs i with
  | Some j => (1 ≤ j ≤ i)%nat ∧ (∃ s, segs !! j = Some s ∧ ss_reserved s = true) ∧
      ∀ k s, (j < k ≤ i)%nat → segs !! k = Some s → ss_reserved s = false
  | None => ∀ k s, (1 ≤ k ≤ i)%nat → segs !! k = Some s → ss_reserved s = false
  end.
Proof.
  induction i as [|i IH]; [intros k s; lia|]. cbn [highest_reserved].
  destruct (segs !! S i) as [s0|] eqn:Hs0.
  - destruct (ss_reserved s0) eqn:Hr.
    + split; [lia|]. split; [by exists s0|]. intros k s. lia.
    + destruct (highest_reserved segs i) as [j|].
      * destruct IH as (H1 & H2 & H3). split; [lia|]. split; [done|]. intros k s Hk Hks.
        destruct (decide (k = S i)) as [->|]; [congruence|]. apply (H3 k); [lia|done].
      * intros k s Hk Hks. destruct (decide (k = S i)) as [->|]; [congruence|]. apply (IH k); [lia|done].
  - destruct (highest_reserved segs i) as [j|].
    + destruct IH as (H1 & H2 & H3). split; [lia|]. split; [done|]. intros k s Hk Hks.
      destruct (decide (k = S i)) as [->|]; [congruence|]. apply (H3 k); [lia|done].
    + intros k s Hk Hks. destruct (decide (k = S i)) as [->|]; [congruence|]. apply (IH k); [lia|done].
Qed.

Lemma reserved_count_zero segs : (∀ k s, segs !! k = Some s → ss_reserved s = false) → reserved_count segs = 0.
Proof.
  unfold reserved_count. induction segs as [|s segs IH]; intros H; [done|]. unfold lsum in *; cbn.
  rewrite (H 0%nat s eq_refl), IH; [done|]. intros k s' Hk. by apply (H (S k)).
Qed.

(** A reservation keeps the count of held segments exact and never lets it grow
    past the quota: a segment is newly reserved only after a successful
    heartbeat and below the quota. *)
Theorem reservations_respect_the_quota {W} seg (r : Runner W) ok r' :
  held_ok r → reserve seg r = (ok, r') →
  held_ok r' ∧ mb_held (rn_members r') ≤ Z.max (mb_held (rn_members r)) (mb_quota (rn_members r)) ∧
  (ok = true → ∃ s, seg_of seg r' = Some s ∧ ss_reserved s = true) ∧
  (ok = true → mb_held (rn_members r') ≠ mb_held (rn_members r) →
     mb_instancesOK (rn_members r) = true ∧ mb_held (rn_members r') ≤ mb_quota (rn_members r)).
Proof.
  intros Hok HR. split; [pose proof (reserve_held seg r Hok) as H; by rewrite HR in H|].
  revert HR. unfold reserve. destruct (seg_of seg r) as [s|] eqn:Hs; [|intros ?; simplify_eq; split_and!; (done || lia)].
  destruct (ss_reserved s) eqn:Hres.
  { intros ?; simplify_eq. split_and!; [lia|intros _; by exists s|done]. }
  destruct (negb _ || _) eqn:Hc; [intros ?; simplify_eq; split_and!; (done || lia)|].
  apply orb_false_iff in Hc as [Hi%negb_false_iff Hq%Z.leb_gt]. intros ?; simplify_eq. cbn.
  split_and!; [lia| |intros _ _; split; [done|lia]].
  intros _. exists (with_reserved true s). split; [|done]. unfold seg_of, update_seg in *; cbn.
  by rewrite list_lookup_alter_eq, Hs.
Qed.

(** When an instance has held more than its quota for long enough, exactly one of
    its segments is asked to be shed, the highest-numbered one it holds and
    segment 0 only when it holds no other; otherwise none is. *)
Theorem exactly_one_segment_is_shed {W} (r : Runner W) :
  held_ok r → 0 ≤ mb_quota (rn_members r) →
  if mb_instancesOK (rn_members r) && (shedGrace <=? mb_stable (rn_members r)) &&
     (mb_quota (rn_members r) <? mb_held (rn_members r))
  then ∃ seg s, 0 ≤ seg ∧ seg_of seg r = Some s ∧ ss_reserved s = true ∧
       (∀ seg', 0 ≤ seg' → shouldShed seg' r = true ↔ seg' = seg) ∧
       (∀ seg' s', 0 < seg' → seg_of seg' r = Some s' → ss_reserved s' = true → seg' ≤ seg)
  else ∀ seg, shouldShed seg r = false.
Proof.
  intros [Hh Hl] Hq. unfold shouldShed. set (m := rn_members r) in *.
  rewrite (Z.leb_antisym (mb_stable m) shedGrace), (Z.ltb_antisym (mb_held m) (mb_quota m)).
  destruct (mb_instancesOK m); [|done]. cbn [negb orb andb].
  destruct (Z.ltb_spec (mb_stable m) shedGrace); cbn [negb orb andb]; [done|].
  destruct (Z.leb_spec (mb_held m) (mb_quota m)); cbn [negb orb andb]; [done|].
  pose proof (highest_reserved_spec (rn_segs r) (pred (length (rn_segs r)))) as Hhr.
  destruct (highest_reserved _ _) as [j|].
  - destruct Hhr as (Hj & (s & Hs & Hr) & Hmax). exists (Z.of_nat j), s. unfold seg_of. rewrite Nat2Z.id.
    split_and!; [lia|done|done| |].
    + intros seg' Hpos. rewrite Z.eqb_eq. lia.
    + intros seg' s' Hpos Hs' Hr'. destruct (Z.le_gt_cases seg' (Z.of_nat j)); [done|]. exfalso.
      pose proof (lookup_lt_Some _ _ _ Hs'). rewrite (Hmax (Z.to_nat seg') s') in Hr'; [done|lia|done].
  - assert (∃ s, rn_segs r !! 0%nat = Some s) as [s Hs].
    { apply lookup_lt_is_Some_2. unfold zlen in Hl. lia. }
    exists 0, s. change (Z.to_nat 0) with 0%nat. unfold seg_of. split_and!; [done|done| | |].
    + destruct (ss_reserved s) eqn:Hr; [done|]. exfalso.
      assert (reserved_count (rn_segs r) = 0); [|lia]. apply reserved_count_zero. intros k s' Hk.
      destruct k as [|k]; [congruence|]. pose proof (lookup_lt_Some _ _ _ Hk). apply (Hhr (S k)); [lia|done].
    + intros seg' Hpos. by rewrite Z.eqb_eq.
    + intros seg' s' Hpos Hs' Hr'. exfalso. pose proof (lookup_lt_Some _ _ _ Hs').
      rewrite (Hhr (Z.to_nat seg') s') in Hr'; [done|lia|done].
Qed.
