(* ===== verification/ProjStatus.v ===== *)
(** * Statuses and probes ([projection/status.go], [projection/probe.go])

    How a runner and a probe judge a projection from the statuses of its
    segments.  A waiting loop is one look at the state at a time; what wakes
    it is the counter [rn_changed] or [pr_changed]. *)
From S2P Require Import Prelude Core ProjStore Runner.

Definition phaseRank (p : Phase) : Z :=
  match p with Stalled => 0 | CatchingUp => 2 | Live => 3 | _ => 1 end.

Section status.
Context {W : Type}.
Implicit Types r : Runner W.

(** One turn of the loop of [Runner.Status]. *)
Definition combine (out st : Status) : Status :=
  mkStatus (if phaseRank (st_Phase st) <? phaseRank (st_Phase out) then st_Phase st else st_Phase out)
    (Z.min (st_Position out) (st_Position st)) (Z.max (st_Head out) (st_Head st)) (st_Version out)
    (if bool_decide (st_LastError out = "") then st_LastError st else st_LastError out)
    (if bool_decide (st_Owner out = "") then st_Owner st else st_Owner out)
    (st_Segment out) (st_Age out) (st_ReplayUntil out) (st_ClaimTTL out) (st_RebuildRequested out).

Definition Runner_Status r : Status :=
  foldl (λ out s, combine out (ss_status s))
    (mkStatus Live (st_Position (status_of 0 r)) 0 (p_Version (rn_p r)) "" "" 0 0 0 0 false) (rn_segs r).

Definition Status_IsLive (s : Status) (claimTTL : duration) : bool :=
  let claimTTL := if 0 <? st_ClaimTTL s then st_ClaimTTL s else claimTTL in
  bool_decide (st_Phase s = Live) && negb (bool_decide (st_Owner s = "")) && (st_Age s <=? claimTTL).

(** [setStatus]: the lease the call was made under must still be current. *)
Definition setStatus (seg : Z) (l : Lease) (st : Status) r : Runner W :=
  match seg_of seg r with
  | None => r
  | Some s =>
    if negb (bool_decide (ss_lease s = l)) then r
    else
      let phaseChanged := negb (bool_decide (st_Phase (ss_status s) = st_Phase st)) in
      let r := signalChange (update_seg seg (with_status st) r) in
      if phaseChanged then notifyWatchers r else r
  end.

Definition setPhase (seg : Z) (p : Phase) (lastErr : string) (owned : bool) r : Runner W :=
  notifyWatchers (signalChange (update_seg seg (λ s,
    let st := ss_status s in
    with_status (mkStatus p (st_Position st) (st_Head st) (st_Version st) lastErr
      (if owned then p_Owner (rn_p r) else "") (st_Segment st) (st_Age st) (st_ReplayUntil st)
      (st_ClaimTTL st) (st_RebuildRequested st)) s) r)).
End status.

(** ** Probes *)
Definition DefaultProbeInterval : duration := 100000000.

Record Probe : Type := mkProbe {
  pr_name : string;
  pr_interval : duration;
  pr_claimTTL : duration;
  pr_segments : Z;
  pr_waiters : Z;
  pr_polling : bool;
  pr_statuses : list Status;
  pr_storeErr : option error;
  pr_changed : Z;
}.

(** The nil-store panic has no counterpart: a store is always given. *)
Definition NewProbe (name : string) (pollInterval claimTTL : duration) : outcome Probe :=
  if bool_decide (name = "") then Panics "projection: ProbeDefinition.Name is required"
  else Returns (mkProbe name (if pollInterval <=? 0 then DefaultProbeInterval else pollInterval)
                  (if claimTTL <=? 0 then DefaultClaimTTL else claimTTL) 0 0 false [] None 0).

Definition complete (p : Probe) (statuses : list Status) : bool :=
  (0 <? zlen statuses) && (pr_segments p <=? zlen statuses).

Definition reached (p : Probe) (statuses : list Status) (position : Z) : bool :=
  complete p statuses && forallb (λ s, negb (st_Position s <? position)) statuses.

Definition Probe_IsLive (p : Probe) (statuses : list Status) : bool :=
  complete p statuses && forallb (λ s, Status_IsLive s (pr_claimTTL p)) statuses.

(** The first lines of [Probe.WaitUntil]: the first wait starts a poller. *)
Definition wait_begin (p : Probe) : Probe :=
  let n := pr_waiters p + 1 in
  if n =? 1
  then mkProbe (pr_name p) (pr_interval p) (pr_claimTTL p) (pr_segments p) n true [] (pr_storeErr p) (pr_changed p)
  else mkProbe (pr_name p) (pr_interval p) (pr_claimTTL p) (pr_segments p) n (pr_polling p) (pr_statuses p)
         (pr_storeErr p) (pr_changed p).

(** Its deferred function: the last wait stops the poller. *)
Definition wait_end (p : Probe) : Probe :=
  let n := pr_waiters p - 1 in
  mkProbe (pr_name p) (pr_interval p) (pr_claimTTL p) (pr_segments p) n
    (if n =? 0 then false else pr_polling p) (pr_statuses p) (pr_storeErr p) (pr_changed p).

(** One read of the poller; [stopped] is its own context. *)
Definition poll_read (stopped : bool) (res : result error (list Status)) (p : Probe) : Probe :=
  if stopped then p
  else mkProbe (pr_name p) (pr_interval p) (pr_claimTTL p) (pr_segments p) (pr_waiters p) (pr_polling p)
         (match res with Ok statuses => statuses | Fail _ => pr_statuses p end)
         (match res with Ok _ => None | Fail e => Some e end) (pr_changed p + 1).

(** ** Not reached *)
Record NotReachedError : Type := mkNotReached {
  nr_Name : string;
  nr_Position : Z;
  nr_Statuses : list Status;
  nr_StoreErr : option error;
  nr_Err : option error;
}.

Fixpoint behind_loop (position : Z) (statuses : list Status) (first : option Status) : option Status :=
  match statuses with
  | [] => first
  | s :: statuses =>
    if position <=? st_Position s then behind_loop position statuses first
    else if bool_decide (st_Phase s = Stalled) then Some s
    else behind_loop position statuses (match first with None => Some s | Some _ => first end)
  end.

Definition Behind (e : NotReachedError) : option Status := behind_loop (nr_Position e) (nr_Statuses e) None.

Definition NotReached_Unwrap (e : NotReachedError) : list error := omap id [nr_Err e; nr_StoreErr e].

(** One turn of the loop of [Probe.WaitUntil]: return, or wait. *)
Definition probe_wait (p : Probe) (position : Z) (ctx_err : option error) : option (option NotReachedError) :=
  if reached p (pr_statuses p) position then Some None
  else match ctx_err with
       | Some e => Some (Some (mkNotReached (pr_name p) position (pr_statuses p) (pr_storeErr p) (Some e)))
       | None => None
       end.

(** One turn of the loop of [Runner.WaitUntil]. *)
Inductive wait_turn : Type := AskProbe | Reached | NotReached (e : NotReachedError) | Waits.

Definition runner_wait {W} (r : Runner W) (position : Z) (ctx_err : option error) : wait_turn :=
  let statuses := ss_status <$> rn_segs r in
  if negb (forallb (λ s, bool_decide (st_Owner s = p_Owner (rn_p r))) statuses) then AskProbe
  else if forallb (λ s, position <=? st_Position s) statuses then Reached
  else match ctx_err with
       | Some e => NotReached (mkNotReached (p_Name (rn_p r)) position statuses None (Some e))
       | None => Waits
       end.

(** [Runner.IsLive] for an unsegmented projection this instance owns, [None]
    when it asks the probe. *)
Definition runner_IsLive {W} (r : Runner W) : option bool :=
  if (rn_segments r =? 1) && bool_decide (st_Owner (status_of 0 r) = p_Owner (rn_p r))
  then Some (bool_decide (st_Phase (status_of 0 r) = Live)) else None.

(** ** Facts *)
Lemma combine_loop (segs : list segmentState) out :
  let c := foldl (λ out s, combine out (ss_status s)) out segs in
  (st_Position c ≤ st_Position out ∧ st_Head out ≤ st_Head c ∧ phaseRank (st_Phase c) ≤ phaseRank (st_Phase out)) ∧
  (∀ s, s ∈ segs → st_Position c ≤ st_Position (ss_status s) ∧ st_Head (ss_status s) ≤ st_Head c ∧
     phaseRank (st_Phase c) ≤ phaseRank (st_Phase (ss_status s))) ∧
  (st_Position c = st_Position out ∨ ∃ s, s ∈ segs ∧ st_Position c = st_Position (ss_status s)) ∧
  (st_Phase c = st_Phase out ∨ ∃ s, s ∈ segs ∧ st_Phase c = st_Phase (ss_status s)).
Proof.
  cbv zeta. revert out. induction segs as [|s segs IH]; intros out; cbn [foldl].
  { split_and!; [lia|lia|lia| |by left|by left]. intros s Hs. by apply not_elem_of_nil in Hs. }
  destruct (IH (combine out (ss_status s))) as ((H1 & H2 & H3) & H4 & H5 & H6).
  set (c := foldl _ _ segs) in *.
  assert (phaseRank (st_Phase (combine out (ss_status s)))
    = Z.min (phaseRank (st_Phase out)) (phaseRank (st_Phase (ss_status s)))) as Hrank.
  { unfold combine; cbn. destruct (Z.ltb_spec (phaseRank (st_Phase (ss_status s))) (phaseRank (st_Phase out))); lia. }
  cbn [combine st_Position st_Head] in H1, H2. rewrite Hrank in H3. split_and!; [lia|lia|lia| | |].
  - intros s' [->|Hs']%elem_of_cons; [split_and!; lia|by apply H4].
  - destruct H5 as [H5|(s' & Hs' & H5)]; [|right; exists s'; split; [by constructor|done]].
    cbn [combine st_Position] in H5. destruct (Z.min_spec (st_Position out) (st_Position (ss_status s))) as [[_ Hm]|[_ Hm]].
    + left. congruence.
    + right. exists s. split; [constructor|congruence].
  - destruct H6 as [H6|(s' & Hs' & H6)]; [|right; exists s'; split; [by constructor|done]].
    unfold combine in H6; cbn in H6. destruct (_ <? _); [|by left]. right. exists s. split; [constructor|done].
Qed.

Lemma phaseRank_Live p : phaseRank p = 3 ↔ p = Live.
Proof. destruct p; cbn; split; (done || lia). Qed.

(** The combined status of a segmented projection is its segments' furthest
    behind: its position is the lowest, it is live exactly when all segments
    are, and stalled as soon as one is. *)
Theorem combined_status_is_the_furthest_behind {W} (r : Runner W) :
  rn_segs r ≠ [] →
  (∀ s, s ∈ rn_segs r → st_Position (Runner_Status r) ≤ st_Position (ss_status s)) ∧
  (∃ s, s ∈ rn_segs r ∧ st_Position (Runner_Status r) = st_Position (ss_status s)) ∧
  (st_Phase (Runner_Status r) = Live ↔ ∀ s, s ∈ rn_segs r → st_Phase (ss_status s) = Live) ∧
  ((∃ s, s ∈ rn_segs r ∧ st_Phase (ss_status s) = Stalled) → st_Phase (Runner_Status r) = Stalled).
Proof.
  intros Hne. unfold Runner_Status.
  destruct (combine_loop (rn_segs r)
    (mkStatus Live (st_Position (status_of 0 r)) 0 (p_Version (rn_p r)) "" "" 0 0 0 0 false))
    as ((H1 & H2 & H3) & H4 & H5 & H6).
  set (c := foldl _ _ _) in *. cbn in H1, H2, H3, H5, H6. split_and!.
  - intros s Hs. by apply H4.
  - destruct H5 as [H5|H5]; [|done]. destruct (rn_segs r) as [|s segs] eqn:Hsegs; [done|].
    exists s. split; [constructor|]. rewrite H5. unfold status_of, seg_of. by rewrite Hsegs.
  - split.
    + intros Hc s Hs. destruct (H4 s Hs) as (_ & _ & Hr). rewrite Hc in Hr. apply phaseRank_Live.
      destruct (st_Phase (ss_status s)); cbn in *; lia.
    + intros Hall. destruct H6 as [H6|(s & Hs & H6)]; [done|]. rewrite H6. by apply Hall.
  - intros (s & Hs & Hst). destruct (H4 s Hs) as (_ & _ & Hr). rewrite Hst in Hr. cbn in Hr.
    destruct (st_Phase c); cbn in Hr; (done || lia).
Qed.

Lemma behind_loop_spec position statuses first :
  match behind_loop position statuses first with
  | None => first = None ∧ ∀ s, s ∈ statuses → position ≤ st_Position s
  | Some b => Some b = first ∨ (b ∈ statuses ∧ st_Position b < position)
  end ∧
  ((∃ s, s ∈ statuses ∧ st_Position s < position ∧ st_Phase s = Stalled) →
   ∃ b, behind_loop position statuses first = Some b ∧ st_Phase b = Stalled).
Proof.
  revert first. induction statuses as [|s statuses IH]; intros first; cbn [behind_loop].
  { split; [destruct first; [by left|split; [done|]]|].
    - intros s Hs. by apply not_elem_of_nil in Hs.
    - intros (s & Hs & _). by apply not_elem_of_nil in Hs. }
  destruct (Z.leb_spec position (st_Position s)) as [Hle|Hlt].
  - destruct (IH first) as [H1 H2]. split.
    + destruct (behind_loop position statuses first) as [b|].
      * destruct H1 as [H1|[Hin Hb]]; [by left|right; split; [by constructor|done]].
      * destruct H1 as [-> H1]. split; [done|]. intros s' [->|Hs']%elem_of_cons; auto.
    + intros (s' & [->|Hs']%elem_of_cons & Hp & Hst); [lia|]. apply H2. by exists s'.
  - case_bool_decide as Hst.
    + split; [right; split; [constructor|done]|]. intros _. by exists s.
    + set (f := match first with None => Some s | Some _ => first end). destruct (IH f) as [H1 H2].
      split.
      * destruct (behind_loop position statuses f) as [b|].
        -- destruct H1 as [H1|[Hin Hb]]; [|right; split; [by constructor|done]].
           unfold f in H1. destruct first; [by left|]. simplify_eq. right. split; [constructor|done].
        -- destruct H1 as [H1 _]. unfold f in H1. by destruct first.
      * intros (s' & [->|Hs']%elem_of_cons & Hp & Hst'); [done|]. apply H2. by exists s'.
Qed.

(** A wait on a probe returns without error only when statuses of all segments
    were seen, each at the position or past it; it fails only when its context
    ended, and its error then names a segment that was behind, a stalled one
    if there is any. *)
Theorem WaitUntil_is_right p position ctx_err :
  match probe_wait p position ctx_err with
  | Some None => pr_statuses p ≠ [] ∧ pr_segments p ≤ zlen (pr_statuses p) ∧
      ∀ s, s ∈ pr_statuses p → position ≤ st_Position s
  | Some (Some e) => is_Some ctx_err ∧
      (pr_segments p ≤ zlen (pr_statuses p) → pr_statuses p ≠ [] →
       ∃ b, Behind e = Some b ∧ b ∈ pr_statuses p ∧ st_Position b < position ∧
         ((∃ s, s ∈ pr_statuses p ∧ st_Position s < position ∧ st_Phase s = Stalled) → st_Phase b = Stalled))
  | None => ctx_err = None
  end.
Proof.
  unfold probe_wait, reached, complete. pose proof (zlen_nonneg (pr_statuses p)) as H0.
  destruct (Z.ltb_spec 0 (zlen (pr_statuses p))) as [Hlt|Hge]; cbn [andb].
  2: { destruct ctx_err; [|done]. split; [by eexists|]. intros _ Hne.
       rewrite <- zlen_zero in Hne. lia. }
  assert (pr_statuses p ≠ []) as Hne by (rewrite <- zlen_zero; lia).
  destruct (Z.leb_spec (pr_segments p) (zlen (pr_statuses p))) as [Hle|Hgt]; cbn [andb].
  2: { destruct ctx_err; [|done]. split; [by eexists|]. lia. }
  destruct (forallb _ (pr_statuses p)) eqn:Hall.
  - split_and!; [done..|]. rewrite forallb_elem in Hall. intros s Hs. specialize (Hall s Hs).
    apply negb_true_iff, Z.ltb_ge in Hall. done.
  - destruct ctx_err; [|done]. split; [by eexists|]. intros _ _. unfold Behind; cbn.
    destruct (behind_loop_spec position (pr_statuses p) None) as [H1 H2].
    destruct (behind_loop position (pr_statuses p) None) as [b|].
    + destruct H1 as [H1|[Hin Hb]]; [done|]. exists b. split_and!; [done..|].
      intros Hex. destruct (H2 Hex) as (b' & ? & ?). congruence.
    + destruct H1 as [_ H1]. exfalso. enough (forallb (λ s, negb (st_Position s <? position)) (pr_statuses p) = true)
        by congruence.
      apply forallb_elem. intros s Hs. apply negb_true_iff, Z.ltb_ge. by apply H1.
Qed.
