(* ===== verification/Segment.v ===== *)
(** * The loop of one segment ([projection/segment.go], [replay.go], [runner.go])

    The methods of [Runner] that a segment's goroutine runs, in a monad that
    threads the runner's memory and the world and carries the error they
    return.  The runner's own goroutines interleave at the calls that touch
    the world. *)
From S2P Require Import Prelude Core Effect Context Log ProjStore Runner Membership ProjStatus.

(** A method of [Runner]. *)
Notation M W := (SE (Runner W) W).

Section segment.
Context {W : Type} `{U : UUIDString, ST : StoreOps W}.
(** The context the runner was started with, and its segment. *)
Context (ctx : values) (seg : Z).

Definition check_ctx : M W () := e ← world ctx_done; match e with Some e => fail e | None => mret () end.

(** ** Events *)
Definition own_event (r : Runner W) (env : Envelope) : bool :=
  match p_SegmentKey (rn_p r) with
  | None => false
  | Some key => SegmentOf (key env) (rn_segments r) =? seg
  end.

Definition ownEvents (r : Runner W) (events : list Envelope) : list Envelope := bfilter (own_event r) events.

Definition handle (r : Runner W) (env : Envelope) (replayUntil : Z) (w : W) : option error * W :=
  match p_Handler (rn_p r) with
  | None => (None, w)
  | Some h =>
    let '(err, w) := h (withEnvelope ctx env replayUntil) (env_Event env) w in
    match err with
    | None => (None, w)
    | Some e => match errors_As is_Skipped e with
                | Some _ => (None, w)
                | None => (Some (handlerError env e), w)
                end
    end
  end.

(** The loop over a batch inside its unit of work. *)
Fixpoint handle_all (r : Runner W) (events : list Envelope) (replayUntil : Z) (w : W) : option error * W :=
  match events with
  | [] => (None, w)
  | env :: events =>
    match handle r env replayUntil w with
    | (Some e, w) => (Some e, w)
    | (None, w) => handle_all r events replayUntil w
    end
  end.

Definition shouldSkip (policy : ErrorPolicy) (phase : Phase) (replaying : bool) : bool :=
  match policy with
  | SkipAlways => true
  | SkipWhenLive => bool_decide (phase = Live) && negb replaying
  | StallOnError => false
  end.

Definition commit (cp : Checkpoint) (status : Status) (fn : W → option error * W) : M W () :=
  l ← asks (lease seg);
  lift_err (st_Commit l cp status fn) ;;
  modify (setStatus seg l status).

Definition no_write (w : W) : option error * W := (None, w).

Definition dead_letter (env : Envelope) (cause : error) : DeadLetter :=
  mkDeadLetter (GlobalPosition env) (StreamID env)
    (match env_Event env with Some ev => ev_EventType ev | None => "" end) (error_text cause).

Definition skipEvent (env : Envelope) (cause : error) (cp : Checkpoint) (status : Status) : M W () :=
  l ← asks (lease seg);
  commit cp status (λ w, match st_DeadLetters with
                         | None => (None, w)
                         | Some dls => dls_SaveDeadLetter dls l (dead_letter env cause) w
                         end) ;;
  modify add_skipped.

Definition at_position (p : Z) (cp : Checkpoint) : Checkpoint :=
  mkCheckpoint p (cp_Version cp) (ReplayUntil cp) (Fingerprint cp).

Definition status_at (p : Z) (st : Status) : Status :=
  mkStatus (st_Phase st) p (st_Head st) (st_Version st) (st_LastError st) (st_Owner st)
    (st_Segment st) (st_Age st) (st_ReplayUntil st) (st_ClaimTTL st) (st_RebuildRequested st).

Definition set_parked (ps : gset string) : M W () := modify (update_seg seg (with_parked ps)).

(** The loop of [applyOneByOne]. *)
Fixpoint one_by_one (events : list Envelope) (batchCP : Checkpoint) (batchStatus : Status) : M W () :=
  match events with
  | [] => mret ()
  | env :: events =>
    check_ctx ;;
    let cp := at_position (GlobalPosition env) batchCP in
    let status := status_at (GlobalPosition env) batchStatus in
    ps ← asks (parked seg);
    if bool_decide (StreamID env ∈ ps) then
      skipEvent env (Sentinel ErrStreamParked) cp status ;;
      one_by_one events batchCP batchStatus
    else
      r ← asks id;
      res ← try (commit cp status (handle r env (ReplayUntil cp)));
      match res with
      | Ok _ => one_by_one events batchCP batchStatus
      | Fail err =>
        check_ctx ;;
        match errors_As is_handlerError err with
        | Some (_, cause) =>
          if shouldSkip (p_OnError (rn_p r)) (st_Phase batchStatus) (GlobalPosition env <=? ReplayUntil cp) then
            skipEvent env cause cp status ;;
            set_parked ({[StreamID env]} ∪ ps) ;;
            one_by_one events batchCP batchStatus
          else fail err
        | None => fail err
        end
      end
  end.

(** Callers pass at least one event. *)
Definition applyOneByOne (events : list Envelope) (batchCP : Checkpoint) (batchStatus : Status) : M W () :=
  one_by_one events batchCP batchStatus ;;
  (match last events with
   | Some env => if GlobalPosition env <? Position batchCP then commit batchCP batchStatus no_write else mret ()
   | None => mret ()
   end) ;;
  modify notifyWatchers.

Definition applyBatch (events : list Envelope) (cp : Checkpoint) (status : Status) : M W () :=
  ps ← asks (parked seg);
  if existsb (λ env, bool_decide (StreamID env ∈ ps)) events then applyOneByOne events cp status
  else
    r ← asks id;
    res ← try (commit cp status (handle_all r events (ReplayUntil cp)));
    match res with
    | Ok _ => modify notifyWatchers
    | Fail err => match errors_As is_handlerError err with
                  | Some _ => applyOneByOne events cp status
                  | None => fail err
                  end
    end.

(** ** Parked streams *)
Definition loadParked (cp : Checkpoint) : M W () :=
  if Position cp =? 0 then set_parked ∅
  else match st_DeadLetters with
       | None => mret ()
       | Some dls =>
         r ← asks id;
         letters ← wrap "load dead letters" (lift (dls_LoadDeadLetters dls (p_Name (rn_p r)) seg));
         set_parked (list_to_set (dl_StreamID <$> letters))
       end.

(** One dead letter of [replayStream]'s loop. *)
Definition replay_letter (dls : DeadLetterOps W) (cp : Checkpoint) (d : DeadLetter) : M W () :=
  res ← wrap "replay stream: read event" (lift (rd_ReadAll (dl_Position d - 1) (mkReadOptions 1 [] [])));
  match rr_Events res with
  | [env] =>
    if negb (GlobalPosition env =? dl_Position d) then fail (New "replay stream: event is not in the log")
    else
      status ← asks (status_of seg);
      r ← asks id;
      l ← asks (lease seg);
      wrap "replay stream" (commit cp status (λ w,
        match handle r env (ReplayUntil cp) w with
        | (Some e, w) => (Some e, w)
        | (None, w) => dls_DeleteDeadLetter dls l (dl_Position d) w
        end))
  | _ => fail (New "replay stream: event is not in the log")
  end.

Fixpoint replay_letters (dls : DeadLetterOps W) (cp : Checkpoint) (streamID : string) (applied : list Z)
    (letters : list DeadLetter) : M W () :=
  match letters with
  | [] => mret ()
  | d :: letters =>
    if negb (bool_decide (dl_StreamID d = streamID)) || bool_decide (dl_Position d ∈ applied)
    then replay_letters dls cp streamID applied letters
    else replay_letter dls cp d ;; replay_letters dls cp streamID (dl_Position d :: applied) letters
  end.

Definition replayStream (dls : DeadLetterOps W) (cp : Checkpoint) (streamID : string) : M W () :=
  r ← asks id;
  letters ← wrap "replay stream: load dead letters" (lift (dls_LoadDeadLetters dls (p_Name (rn_p r)) seg));
  replay_letters dls cp streamID [] letters ;;
  ps ← asks (parked seg);
  set_parked (ps ∖ {[streamID]}) ;;
  modify notifyWatchers.
End segment.
