(* ===== verification/SegmentLoop.v ===== *)
(** * Claiming, rebuilding and working ([segment.go], [runner.go], [replay.go])

    The rest of a segment's goroutine: the replay requests it serves, the
    rebuilds it runs, one turn of [work] and one of [runSegment].  The loops
    themselves take fuel, since a segment works until its context ends. *)
From S2P Require Import Prelude Core Effect Context Log ProjStore Runner Membership ProjStatus Segment.

(** ** Queued replays ([replay.go]) *)
Section queue.
Context {W : Type}.
Implicit Types r : Runner W.

Definition upd_replays (f : replayQueue → replayQueue) r : Runner W := set_replays (f (rn_replays r)) r.

Definition with_poll (b : bool) (q : replayQueue) : replayQueue :=
  mkReplayQueue (rq_pending q) (rq_queued q) (rq_checkReplays q) (rq_replayed q) (rq_waiters q) (rq_errs q) b.

Definition replay_eqb (a b : Replay) : bool :=
  (rp_Number a =? rp_Number b) && bool_decide (rp_StreamID a = rp_StreamID b) && (rp_Segment a =? rp_Segment b).

Definition is_queued (rp : Replay) (q : replayQueue) : bool := existsb (replay_eqb rp) (rq_queued q).

Definition drop (reqs queued : list Replay) : list Replay :=
  bfilter (λ rp, negb (existsb (replay_eqb rp) reqs)) queued.

Definition takeReplays (seg : Z) r : list Replay * Runner W :=
  let q := rn_replays r in
  (default [] (rq_pending q !! seg),
   set_replays (mkReplayQueue (delete seg (rq_pending q)) (rq_queued q) (rq_checkReplays q) (rq_replayed q)
                  (rq_waiters q) (rq_errs q) (rq_poll q)) r).

Definition dropReplays (reqs : list Replay) r : Runner W :=
  upd_replays (λ q, mkReplayQueue (rq_pending q) (drop reqs (rq_queued q)) (rq_checkReplays q) (rq_replayed q)
                      (rq_waiters q) (rq_errs q) (rq_poll q)) r.

Definition setActive (seg : Z) (active : bool) r : Runner W :=
  let r := update_seg seg (with_active active) r in
  if active then upd_replays (with_poll true) r
  else upd_replays (λ q,
    mkReplayQueue (delete seg (rq_pending q)) (drop (default [] (rq_pending q !! seg)) (rq_queued q))
      (rq_checkReplays q) (rq_replayed q) (rq_waiters q) (rq_errs q) (rq_poll q)) r.

Definition replaysWanted r : bool :=
  rq_poll (rn_replays r) || existsb (λ s, ss_active s && ss_hasParked s) (rn_segs r).

(** The loop of [queueReplays] over the pending requests. *)
Fixpoint queue_all (pending : list Replay) r : Runner W :=
  match pending with
  | [] => r
  | rp :: pending =>
    let q := rn_replays r in
    let skip := (rp_Segment rp <? 0) || (zlen (rn_segs r) <=? rp_Segment rp)
                || negb (ss_active (default no_segment (seg_of (rp_Segment rp) r))) || is_queued rp q in
    queue_all pending
      (if skip then r
       else set_replays (mkReplayQueue
              (<[rp_Segment rp := default [] (rq_pending q !! rp_Segment rp) ++ [rp]]> (rq_pending q))
              (rp :: rq_queued q) (rq_checkReplays q) (rq_replayed q) (rq_waiters q) (rq_errs q) (rq_poll q)) r)
  end.

Definition queueReplays (dls : DeadLetterOps W) : M W () :=
  modify (upd_replays (with_poll false)) ;;
  r ← asks id;
  res ← try (lift (dls_PendingReplays dls (p_Name (rn_p r))));
  match res with
  | Fail e => modify (upd_replays (with_poll true)) ;; fail (Errorf "load replay requests" e)
  | Ok pending => modify (queue_all pending)
  end.
End queue.

Section loop.
Context {W : Type} `{U : UUIDString, ST : StoreOps W}.
Context (ctx : values) (seg : Z).

(** ** Serving replays *)
Definition record_failure (number : Z) (err : error) (r : Runner W) : Runner W :=
  upd_replays (λ q, if 0 <? rq_waiters q
    then mkReplayQueue (rq_pending q) (rq_queued q) (rq_checkReplays q) (rq_replayed q) (rq_waiters q)
           (<[number := default [] (rq_errs q !! number) ++ [err]]> (rq_errs q)) (rq_poll q)
    else q) r.

Definition signal_replayed (r : Runner W) : Runner W :=
  upd_replays (λ q, mkReplayQueue (rq_pending q) (rq_queued q) (rq_checkReplays q) (rq_replayed q + 1)
                      (rq_waiters q) (rq_errs q) (rq_poll q)) r.

Fixpoint serve_all (dls : DeadLetterOps W) (cp : Checkpoint) (reqs : list Replay) : M W () :=
  match reqs with
  | [] => mret ()
  | rp :: reqs =>
    res ← try (replayStream ctx seg dls cp (rp_StreamID rp));
    check_ctx ;;
    msg ← (match res with
           | Ok _ => mret ""
           | Fail err =>
             if errors_Is err ErrClaimLost then fail err
             else modify (record_failure (rp_Number rp) err) ;; mret (error_text err)
           end : M W string);
    l ← asks (lease seg);
    fin ← try (lift_err (dls_FinishReplay dls l (rp_Number rp) msg));
    match fin with
    | Fail err =>
      if errors_Is err ErrClaimLost then fail err
      else modify signal_replayed ;; serve_all dls cp reqs
    | Ok _ => modify signal_replayed ;; serve_all dls cp reqs
    end
  end.

Definition serveReplays (cp : Checkpoint) : M W () :=
  reqs ← asks (λ r, (takeReplays seg r).1);
  modify (λ r, (takeReplays seg r).2) ;;
  match reqs, st_DeadLetters with
  | [], _ | _, None => mret ()
  | _, Some dls =>
    finally (serve_all dls cp reqs) (λ r, dropReplays reqs (upd_replays (with_poll true) r))
  end.

(** ** Claims and rebuilds *)

(** [claim]: [None] when the claim is held by another. *)
Definition claim : M W (option Checkpoint) :=
  r ← asks id;
  res ← lift (st_Claim (lease seg r) (p_ClaimTTL (rn_p r)));
  match res with
  | None => mret None
  | Some (l, cp) => modify (update_seg seg (with_lease l)) ;; mret (Some cp)
  end.

Definition reclaim : M W Checkpoint :=
  cp ← wrap "reclaim segment" claim;
  match cp with None => fail (Sentinel ErrClaimLost) | Some cp => mret cp end.

Definition upd_rebuild (f : rebuildState → rebuildState) (r : Runner W) : Runner W := set_rebuild (f (rn_rebuild r)) r.

Definition with_resetting (b : bool) (x : rebuildState) : rebuildState :=
  mkRebuildState (rb_checkRebuild x) (rb_warnedRebuild x) (rb_rebuilt x) b (rb_rebuildFailed x) (rb_rebuildErr x).

(** Every segment back at position 0, and the others' leases retired. *)
Definition wiped_segment (version : Z) (i : nat) (s : segmentState) : segmentState :=
  let st := ss_status s in
  let s := with_status (mkStatus (st_Phase st) 0 (st_Head st) version (st_LastError st) (st_Owner st)
             (st_Segment st) (st_Age st) (st_ReplayUntil st) (st_ClaimTTL st) (st_RebuildRequested st)) s in
  if Z.of_nat i =? seg then s
  else let l := ss_lease s in with_lease (mkLease (l_Name l) (l_Segment l) (l_Owner l) 0) s.

Definition no_reset (w : W) : option error * W := (None, w).

Definition rebuild : M W Checkpoint :=
  modify (upd_rebuild (with_resetting true)) ;;
  r ← asks id;
  wrap "rebuild" (lift_err (st_Reset (lease seg r) (p_Version (rn_p r)) (default no_reset (p_Reset (rn_p r))))) ;;
  head ← asks (λ r, st_Head (status_of seg r));
  modify (λ r, signalChange (set_segs (imap (wiped_segment (p_Version (rn_p r))) (rn_segs r)) r)) ;;
  modify (update_seg seg (with_rebuilding true)) ;;
  set_parked seg ∅ ;;
  cp ← reclaim;
  l ← asks (lease seg);
  modify (setStatus seg l (mkStatus CatchingUp (Position cp) head (p_Version (rn_p r)) "" (p_Owner (rn_p r)) seg
                             0 0 0 false)) ;;
  modify notifyWatchers ;;
  mret cp.

Definition is_fail {A} (res : result error A) : option error := match res with Fail e => Some e | Ok _ => None end.

Definition rebuildTried (requested : Z) (err : option error) : M W () :=
  done ← world ctx_done;
  let failed := (0 <? requested) && is_nil done &&
                match err with Some e => negb (errors_Is e ErrClaimLost) | None => false end in
  l ← asks (lease 0);
  (match err with
   | Some e => if failed then (res ← try (lift_err (st_FailRebuild l requested (error_text e))); mret ()) else mret ()
   | None => mret ()
   end : M W ()) ;;
  modify (upd_rebuild (λ x, mkRebuildState (rb_checkRebuild x) (rb_warnedRebuild x) (rb_rebuilt x + 1) false
    (if failed then requested else rb_rebuildFailed x) (if failed then err else rb_rebuildErr x))).

Definition rebuildDue (last : time) : M W (Z * time) :=
  asked ← asks (λ r, rb_checkRebuild (rn_rebuild r));
  modify (upd_rebuild (λ x, mkRebuildState false (rb_warnedRebuild x) (rb_rebuilt x) (rb_resetting x)
                              (rb_rebuildFailed x) (rb_rebuildErr x))) ;;
  now ← world clock;
  r ← asks id;
  if negb asked && negb (time_IsZero last) && (time_Sub now last <? p_PollInterval (rn_p r)) then mret (0, last)
  else
    last ← world clock;
    res ← wrap "read rebuild requests" (lift (st_Rebuilds (p_Name (rn_p r))));
    let '(requested, done) := res in
    if requested <=? done then mret (0, last)
    else match p_Reset (rn_p r) with
         | None =>
           modify (upd_rebuild (λ x, mkRebuildState (rb_checkRebuild x) requested (rb_rebuilt x) (rb_resetting x)
                                       (rb_rebuildFailed x) (rb_rebuildErr x))) ;;
           mret (0, last)
         | Some _ => mret (requested, last)
         end.

(** Rebuild, and record the outcome whether or not it succeeded. *)
Definition rebuild_for (requested : Z) : M W Checkpoint :=
  res ← try rebuild;
  rebuildTried requested (is_fail res) ;;
  match res with Ok cp => mret cp | Fail e => fail e end.

(** ** Working *)

(** Before the loop of [work]: rebuild on a changed definition. *)
Definition work_start (cp : Checkpoint) : M W Checkpoint :=
  loadParked seg cp ;;
  r ← asks id;
  if 0 <? Position cp then
    let upgraded := cp_Version cp <? p_Version (rn_p r) in
    let typesChanged := negb (bool_decide (Fingerprint cp = "")) && negb (bool_decide (Fingerprint cp = rn_fingerprint r)) in
    if upgraded || (typesChanged && negb (is_nil (p_Reset (rn_p r))) && (rn_segments r =? 1)) then rebuild_for 0
    else if typesChanged then fail (Errorf "projection segment" (Sentinel ErrEventTypesChanged))
    else mret cp
  else mret cp.

Definition serve_rebuild (cp : Checkpoint) (checked : time) : M W (Checkpoint * time) :=
  if seg =? 0 then
    due ← rebuildDue checked;
    let '(requested, checked) := due in
    if 0 <? requested then (cp ← rebuild_for requested; mret (cp, checked)) else mret (cp, checked)
  else mret (cp, checked).

(** The write of one read: apply the events, move past events this segment
    does not handle, or only publish the status. *)
Definition write_batch (cp newCP : Checkpoint) (status : Status) (events : list Envelope) : M W Checkpoint :=
  match events with
  | _ :: _ => applyBatch ctx seg events newCP status ;; mret newCP
  | [] =>
    if Position cp <? Position newCP then commit seg newCP status no_write ;; mret newCP
    else
      l ← asks (lease seg);
      res ← try (lift_err (st_SaveStatus l status));
      match res with
      | Fail e => if errors_Is e ErrClaimLost then fail e
                  else modify (setStatus seg l status) ;; mret cp
      | Ok _ => modify (setStatus seg l status) ;; mret cp
      end
  end.

Definition read_batch (cp : Checkpoint) : M W (bool * Checkpoint * Status * list Envelope) :=
  r ← asks id;
  res ← wrap "read" (lift (rd_ReadAll (Position cp) (readOptions r)));
  let next := Z.max (rr_Next res) (Position cp) in
  head ← (if rr_AtEnd res then mret next
          else head ← wrap "read head" (lift rd_Head); mret (Z.max head next) : M W Z);
  let events := if 1 <? rn_segments r then ownEvents seg r (rr_Events res) else rr_Events res in
  let newCP := mkCheckpoint next (p_Version (rn_p r)) (ReplayUntil cp) (rn_fingerprint r) in
  let status := mkStatus (if rr_AtEnd res then Live else CatchingUp) next head (p_Version (rn_p r)) ""
                  (p_Owner (rn_p r)) seg 0 0 0 false in
  mret (rr_AtEnd res, newCP, status, events).

(** At the end of the log: the rebuild is over, and wait for more. *)
Definition wait_at_end (at_end : bool) : M W () :=
  if at_end then
    modify (update_seg seg (with_rebuilding false)) ;;
    c ← lift_total (select_live seg);
    match c with
    | CaseDone => e ← world ctx_done; fail (default (Sentinel context_Canceled) e)
    | _ => mret ()
    end
  else mret ().

Definition work_turn (cp : Checkpoint) (checked : time) : M W (Checkpoint * time) :=
  check_ctx ;;
  shed ← asks (shouldShed seg);
  if shed : bool then fail (Sentinel errShed)
  else
    st ← serve_rebuild cp checked;
    let '(cp, checked) := st in
    serveReplays cp ;;
    batch ← read_batch cp;
    let '(at_end, newCP, status, events) := batch in
    cp ← write_batch cp newCP status events;
    wait_at_end at_end ;;
    mret (cp, checked).

(** [fuel] turns of the loop of [work]; it leaves the loop only with an
    error. *)
Fixpoint work_loop (fuel : nat) (cp : Checkpoint) (checked : time) : M W (Checkpoint * time) :=
  match fuel with
  | O => mret (cp, checked)
  | S fuel => st ← work_turn cp checked; let '(cp, checked) := st in work_loop fuel cp checked
  end.

Definition work (fuel : nat) (cp : Checkpoint) : M W (Checkpoint * time) :=
  cp ← work_start cp; work_loop fuel cp time_zero.

(** ** The segment's goroutine *)
Definition release : M W () :=
  l ← asks (lease seg);
  res ← try (lift_err (st_Release l));
  mret ().

Definition shed : M W () :=
  release ;;
  modify (unreserve seg) ;;
  modify (setPhase seg Standby "" false).

Definition publishStatus : M W () :=
  st ← asks (status_of seg);
  l ← asks (lease seg);
  res ← try (lift_err (st_SaveStatus l st));
  mret ().

(** [waitStalled], [fuel] looks at the clock at most. *)
Fixpoint waitStalled (fuel : nat) (deadline : time) : M W () :=
  match fuel with
  | O => mret ()
  | S fuel =>
    now ← world clock;
    done ← world ctx_done;
    let left := time_Sub deadline now in
    if (left <=? 0) || negb (is_nil done) then mret ()
    else
      r ← asks id;
      change_world (sleepCtx (Z.min left (p_PollInterval (rn_p r)))) ;;
      now ← world clock;
      done ← world ctx_done;
      if (time_Sub deadline now <=? 0) || negb (is_nil done) then mret ()
      else
        st ← asks (status_of seg);
        l ← asks (lease seg);
        res ← try (lift_err (st_SaveStatus l st));
        match res with
        | Fail e => if errors_Is e ErrClaimLost then mret () else waitStalled fuel deadline
        | Ok _ => waitStalled fuel deadline
        end
  end.

(** The variables of [runSegment]; the backoff is a parameter: [retry k] is
    its [k]th wait since the last Reset. *)
Record loop_state : Type := mkLoop { lo_held : bool; lo_outdated : bool; lo_retry : nat }.

Context (retry : nat → duration).

(** What one turn of the loop does next: stop, or go around again. *)
Inductive turn_end : Type := Again (l : loop_state) | Stop (l : loop_state).

Definition standby (l : loop_state) : M W turn_end :=
  modify (setPhase seg Standby "" false) ;;
  r ← asks id;
  change_world (sleepCtx (p_PollInterval (rn_p r))) ;;
  mret (Again l).

Definition run_turn (fuel : nat) (l : loop_state) : M W turn_end :=
  over ← asks (shouldShed seg);
  l ← (if lo_held l && over then shed ;; mret (mkLoop false (lo_outdated l) 0) else mret l : M W loop_state);
  ok ← asks (λ r, (reserve seg r).1);
  modify (λ r, (reserve seg r).2) ;;
  if negb ok then standby l
  else
    res ← try claim;
    match res with
    | Fail err =>
      modify (unreserve seg) ;;
      modify (setPhase seg Stalled (error_text err) false) ;;
      change_world (sleepCtx (retry (lo_retry l))) ;;
      mret (Again (mkLoop (lo_held l) (lo_outdated l) (S (lo_retry l))))
    | Ok None =>
      modify (unreserve seg) ;;
      standby (mkLoop false (lo_outdated l) 0)
    | Ok (Some cp) =>
      r ← asks id;
      if p_Version (rn_p r) <? cp_Version cp then
        release ;;
        modify (unreserve seg) ;;
        standby (mkLoop false true (lo_retry l))
      else
        before ← asks (λ r, st_Position (status_of seg r));
        modify (setActive seg true) ;;
        res ← try (work fuel cp);
        modify (setActive seg false) ;;
        done ← world ctx_done;
        match done, res with
        | Some _, _ => mret (Stop (mkLoop true false (lo_retry l)))
        | None, Ok _ => mret (Again (mkLoop true false (lo_retry l)))
        | None, Fail err =>
          if errors_Is err errShed then shed ;; mret (Again (mkLoop false false 0))
          else if errors_Is err ErrClaimLost then
            modify (unreserve seg) ;;
            modify (setPhase seg Standby "" false) ;;
            mret (Again (mkLoop false false 0))
          else
            after ← asks (λ r, st_Position (status_of seg r));
            let k := if after =? before then lo_retry l else 0%nat in
            modify (setPhase seg Stalled (error_text err) true) ;;
            publishStatus ;;
            now ← world clock;
            waitStalled fuel (time_Add now (retry k)) ;;
            mret (Again (mkLoop true false (S k)))
        end
    end.

(** [runSegment]'s deferred function. *)
Definition run_end (l : loop_state) : M W () :=
  release ;;
  modify (unreserve seg) ;;
  modify (setPhase seg Standby "" false).

Fixpoint run_loop (fuel : nat) (l : loop_state) : M W loop_state :=
  match fuel with
  | O => mret l
  | S fuel =>
    done ← world ctx_done;
    match done with
    | Some _ => mret l
    | None =>
      e ← run_turn fuel l;
      match e with Again l => run_loop fuel l | Stop l => mret l end
    end
  end.

Definition runSegment (fuel : nat) : M W () :=
  l ← run_loop fuel (mkLoop false false 0);
  run_end l.
End loop.
