(* ===== verification/RunnerRun.v ===== *)
(** * Starting a runner and waiting for it ([projection/runner.go], [replay.go], [instances.go])

    [start], [Run], and the calls that wait: [Rebuild] and [ReplayStream].
    [others] is whatever the other goroutines of the runner do, to its memory
    and to the world, while the one modelled does not hold the lock; [select]
    is such a wait, which says whether it ended with the context.  [Run]'s
    goroutines together are one [segments_run]. *)
From S2P Require Import Prelude Core ProjStore Runner Effect Membership Segment SegmentLoop.

(** A deferred function that only matters when [m] fails *)
Definition on_failure {St W A} (m : SE St W A) (f : St → St) : SE St W A := λ s,
  match m s with
  | (Fail e, (r, w)) => (Fail e, (f r, w))
  | x => x
  end.

Section run.
Context {W : Type} `{ST : StoreOps W}.
(** [strconv.Itoa]; the backoff's wait before each try; the others *)
Context (itoa : Z → string) (retry : nat → duration) (others : M W ()) (select : M W bool).

(** ** [start] *)
Definition send_heartbeat : M W () := λ s,
  let '(e, r, w) := heartbeat itoa s.1 s.2 in (match e with None => Ok () | Some e => Fail e end, (r, w)).

Definition startOnce : M W () :=
  r ← asks id;
  head ← wrap "read head" (lift rd_Head);
  wrap "declare segments" (lift_err (st_Declare (p_Name (rn_p r)) (rn_segments r) head)) ;;
  wrap "heartbeat" send_heartbeat.

(** [None] when the fuel is gone *)
Fixpoint start_loop (fuel k : nat) (giveUp : time) : M W (option (result error ())) :=
  match fuel with
  | O => mret None
  | S fuel =>
    res ← try startOnce;
    done ← world ctx_done;
    match res with
    | Ok _ => mret (Some res)
    | Fail err =>
      if negb (is_nil done) || errors_Is err ErrSegmentsChanged then mret (Some res)
      else
        now ← world clock;
        if time_After (time_Add now (retry k)) giveUp then mret (Some res)
        else change_world (sleepCtx (retry k)) ;; start_loop fuel (S k) giveUp
    end
  end.

Definition start (fuel : nat) : M W (option (result error ())) :=
  now ← world clock;
  r ← asks id;
  start_loop fuel 0 (time_Add now (p_ClaimTTL (rn_p r))).

(** [ctx.Err()], and what [start] failed with *)
Definition Run (fuel : nat) (segments_run : M W ()) : M W (option error) :=
  a ← start fuel;
  match a with
  | None => mret None
  | Some (Fail e) => mret (Some e)
  | Some (Ok _) => segments_run ;; r ← asks id; change_world (leave r) ;; world ctx_done
  end.

(** ** One round of the loops beside the segments *)
Definition membership_round (failing : bool) : M W bool :=
  res ← try send_heartbeat;
  done ← world ctx_done;
  mret (match res with Fail _ => failing || is_nil done | Ok _ => false end).

(** [polled]: the poll timer fired, rather than [checkReplays] *)
Definition replays_round (dls : DeadLetterOps W) (polled failing : bool) : M W bool :=
  wanted ← asks replaysWanted;
  if polled && negb wanted then mret failing
  else
    res ← try (queueReplays dls);
    done ← world ctx_done;
    mret (match res with Fail _ => failing || is_nil done | Ok _ => false end).

(** ** [Rebuild] *)
Definition check_rebuild (b : bool) (x : rebuildState) : rebuildState :=
  mkRebuildState b (rb_warnedRebuild x) (rb_rebuilt x) (rb_resetting x) (rb_rebuildFailed x) (rb_rebuildErr x).

(** What the reads of a turn say: [None] to wait on *)
Definition rebuild_answer (n localFailed : Z) (localErr : option error) (failed : Z) (failMsg : string) (done : Z)
    (resetting : bool) : option (option error) :=
  if (n <=? done) && negb resetting then Some None
  else if n <=? done then None
  else if n <=? localFailed then Some localErr
  else if n <=? failed then Some (Some (New failMsg))
  else None.

Fixpoint rebuild_wait (fuel : nat) (n : Z) : M W (option (option error)) :=
  match fuel with
  | O => mret None
  | S fuel =>
    b ← asks rn_rebuild;
    others ;;
    r ← asks id;
    fm ← wrap "read rebuild failure" (lift (st_RebuildFailure (p_Name (rn_p r))));
    others ;;
    rd ← wrap "read rebuild requests" (lift (st_Rebuilds (p_Name (rn_p r))));
    others ;;
    resetting ← asks (λ r, rb_resetting (rn_rebuild r));
    match rebuild_answer n (rb_rebuildFailed b) (rb_rebuildErr b) fm.1 fm.2 rd.2 resetting with
    | Some a => mret (Some a)
    | None =>
      ended ← select;
      if (ended : bool) then done ← world ctx_done; mret (Some done) else rebuild_wait fuel n
    end
  end.

Definition Rebuild (fuel : nat) : M W (option (option error)) :=
  r ← asks id;
  match p_Reset (rn_p r) with
  | None => mret (Some (Some (Sentinel ErrNoReset)))
  | Some _ =>
    n ← wrap "request rebuild" (lift (st_RequestRebuild (p_Name (rn_p r))));
    modify (upd_rebuild (check_rebuild true)) ;;
    modify Nudge ;;
    rebuild_wait fuel n
  end.

(** ** [ReplayStream] *)

(** The first error with a text, and the others *)
Fixpoint take_text (msg : string) (local : list error) : option (error * list error) :=
  match local with
  | [] => None
  | e :: local =>
    if bool_decide (error_text e = msg) then Some (e, local)
    else (λ x, (x.1, e :: x.2)) <$> take_text msg local
  end.

Fixpoint replay_errors (local : list error) (msgs : list string) : list error :=
  match msgs with
  | [] => []
  | msg :: msgs =>
    match take_text msg local with
    | None => New msg :: replay_errors local msgs
    | Some (e, local) => e :: replay_errors local msgs
    end
  end.

Definition replayError (n : Z) (msgs : list string) (r : Runner W) : option error :=
  errors_Join (Some <$> replay_errors (default [] (rq_errs (rn_replays r) !! n)) msgs).

Definition add_waiter (q : replayQueue) : replayQueue :=
  mkReplayQueue (rq_pending q) (rq_queued q) (rq_checkReplays q) (rq_replayed q) (rq_waiters q + 1) (rq_errs q) (rq_poll q).

(** The deferred function *)
Definition drop_waiter (n : Z) (q : replayQueue) : replayQueue :=
  let waiters := rq_waiters q - 1 in
  mkReplayQueue (rq_pending q) (rq_queued q) (rq_checkReplays q) (rq_replayed q) waiters
    (if waiters =? 0 then ∅ else delete n (rq_errs q)) (rq_poll q).

Definition ask_replays (q : replayQueue) : replayQueue :=
  mkReplayQueue (rq_pending q) (rq_queued q) true (rq_replayed q) (rq_waiters q) (rq_errs q) (rq_poll q).

Fixpoint replay_wait (fuel : nat) (dls : DeadLetterOps W) (n : Z) : M W (option (option error)) :=
  match fuel with
  | O => mret None
  | S fuel =>
    r ← asks id;
    res ← wrap "read result" (lift (dls_ReplayResult dls (p_Name (rn_p r)) n));
    let '(pending, msgs) := res in
    others ;;
    if pending =? 0 then r ← asks id; mret (Some (replayError n msgs r))
    else
      ended ← select;
      if (ended : bool) then done ← world ctx_done; mret (Some done) else replay_wait fuel dls n
  end.

Definition ReplayStream (fuel : nat) (streamID : string) : M W (option (option error)) :=
  match st_DeadLetters with
  | None => mret (Some (Some (Sentinel ErrNoDeadLetterStore)))
  | Some dls =>
    modify (upd_replays add_waiter) ;;
    r ← asks id;
    others ;;
    n ← on_failure (wrap "request replay" (lift (dls_RequestReplay dls (p_Name (rn_p r)) streamID)))
          (upd_replays (drop_waiter 0));
    modify (upd_replays ask_replays) ;;
    finally (replay_wait fuel dls n) (upd_replays (drop_waiter n))
  end.
End run.

(** ** [start] returns

    The clock runs forward, a context that ended stays so, and a sleep lasts
    as long as it was told to unless the context ends. *)
Class ClockLaws {W : Type} `{ST : StoreOps W} : Prop := {
  cl_head w : clock w ≤ clock (rd_Head w).2 ∧ (ctx_done w ≠ None → ctx_done (rd_Head w).2 ≠ None);
  cl_declare name n head w : let w' := (st_Declare name n head w).2 in clock w ≤ clock w' ∧ (ctx_done w ≠ None → ctx_done w' ≠ None);
  cl_heartbeat name owner v ttl w :
    let w' := (st_Heartbeat name owner v ttl w).2 in clock w ≤ clock w' ∧ (ctx_done w ≠ None → ctx_done w' ≠ None);
  cl_sleep d w : ctx_done (sleepCtx d w) ≠ None ∨ clock w + d ≤ clock (sleepCtx d w);
}.

Section start.
Context {W : Type} `{ST : StoreOps W} `{CL : ClockLaws W}.
Context (itoa : Z → string) (retry : nat → duration).
Notation state := (Runner W * W)%type.

(** [s'] is later than [s]. *)
Definition after (s s' : state) : Prop :=
  clock s.2 ≤ clock s'.2 ∧ (ctx_done s.2 ≠ None → ctx_done s'.2 ≠ None).

Lemma after_refl s : after s s.
Proof. by split. Qed.

Lemma after_trans s1 s2 s3 : after s1 s2 → after s2 s3 → after s1 s3.
Proof. intros [H1 H2] [H3 H4]. split; [lia|auto]. Qed.

Lemma startOnce_after s : after s (startOnce itoa s).2.
Proof.
  destruct s as [r w]. unfold startOnce, wrap, lift, lift_err, asks, send_heartbeat, mbind, SE_bind; cbn.
  pose proof (cl_head w) as H1. destruct (rd_Head w) as [[head|e] w1]; cbn in *; [|done].
  pose proof (cl_declare (p_Name (rn_p r)) (rn_segments r) head w1) as H2.
  destruct (st_Declare _ _ head w1) as [[e|] w2]; cbn in *; [by eapply (after_trans _ (r, w1))|].
  unfold heartbeat. pose proof (cl_heartbeat (p_Name (rn_p r)) (p_Owner (rn_p r)) (p_Version (rn_p r)) (p_ClaimTTL (rn_p r)) w2) as H3.
  destruct (st_Heartbeat _ _ _ _ w2) as [res w3]; cbn in *. destruct (heartbeat_result itoa res r) as [[e|] r']; cbn;
    (eapply (after_trans _ (r, w1)); [done|]; eapply (after_trans _ (r, w2)); done).
Qed.

Lemma start_loop_returns unit fuel k giveUp (s : state) :
  0 < unit → (∀ k, unit ≤ retry k) →
  (ctx_done s.2 ≠ None ∧ (1 ≤ fuel)%nat ∨ (0 < fuel)%nat ∧ giveUp - clock s.2 < Z.of_nat fuel * unit - unit) →
  ∃ a s', start_loop itoa retry fuel k giveUp s = (Ok (Some a), s') ∧
    match a with
    | Ok _ => True
    | Fail e => errors_Is e ErrSegmentsChanged = true ∨ ctx_done s'.2 ≠ None ∨ ∃ k', giveUp < clock s'.2 + retry k'
    end.
Proof.
  intros Hu Hr. revert k s. induction fuel as [|fuel IH]; intros k s Hf; [lia|].
  cbn [start_loop]. unfold try, world, change_world, mbind, SE_bind. pose proof (startOnce_after s) as [Hc Hd].
  destruct (startOnce itoa s) as [[[]|e] s1]; cbn [fst snd] in *; [by eexists _, s1|].
  destruct (ctx_done s1.2) as [d|] eqn:Hdone; cbn [is_nil negb orb].
  { eexists _, s1. split; [done|]. right; left. by rewrite Hdone. }
  destruct (errors_Is e ErrSegmentsChanged) eqn:He; [eexists _, s1; split; [done|by left]|].
  unfold time_After, time_Add. destruct (Z.ltb_spec giveUp (clock s1.2 + retry k)) as [Hlt|Hge].
  { eexists _, s1. split; [done|]. right; right. by exists k. }
  apply IH. cbn [fst snd]. specialize (Hr k). destruct Hf as [[Hf _]|[_ Hf]]; [by destruct (Hd Hf)|].
  assert (0 < fuel)%nat by (destruct fuel; lia).
  destruct (cl_sleep (retry k) s1.2) as [Hs|Hs]; [left; split; [done|lia]|right; split; [done|]]. nia.
Qed.

(** C35: Starting a runner ends.  However often reading the head of the log,
    declaring the segments or the first heartbeat fails, start returns within
    its ClaimTTL divided by the shortest wait of the backoff, and two more,
    attempts: with success, with a changed segment count, because its context
    ended, or because a wait of the backoff would end later than ClaimTTL
    after it began. *)
Theorem start_returns unit (s : state) : 0 < unit → (∀ k, unit ≤ retry k) → 0 ≤ p_ClaimTTL (rn_p s.1) →
  let fuel := S (S (Z.to_nat (p_ClaimTTL (rn_p s.1) / unit))) in
  ∃ a s', start itoa retry fuel s = (Ok (Some a), s') ∧
    match a with
    | Ok _ => True
    | Fail e => errors_Is e ErrSegmentsChanged = true ∨ ctx_done s'.2 ≠ None ∨
        ∃ k, clock s.2 + p_ClaimTTL (rn_p s.1) < clock s'.2 + retry k
    end.
Proof.
  intros Hu Hr Httl fuel. unfold start, world, asks, mbind, SE_bind. apply (start_loop_returns unit); [done..|]. right.
  unfold time_Add, fuel. cbn [fst snd id]. split; [lia|]. set (ttl := p_ClaimTTL (rn_p s.1)) in *.
  pose proof (Z.mul_succ_div_gt ttl unit Hu). pose proof (Z.div_pos ttl unit Httl Hu). 
  rewrite !Nat2Z.inj_succ, Z2Nat.id by done. nia.
Qed.
End start.

(** ** The errors of [ReplayStream] *)
Section errors.
Context {W : Type} `{ST : StoreOps W}.

Lemma take_text_spec msg local :
  match take_text msg local with
  | None => ∀ e, e ∈ local → error_text e ≠ msg
  | Some (e, rest) => error_text e = msg ∧ local ≡ₚ e :: rest
  end.
Proof.
  induction local as [|e local IH]; cbn; [by intros e ?%not_elem_of_nil|].
  destruct (bool_decide_reflect (error_text e = msg)) as [He|He]; [done|].
  destruct (take_text msg local) as [[e' rest]|]; cbn.
  - destruct IH as [? ->]. split; [done|]. apply Permutation_swap.
  - intros x [->|Hx]%elem_of_cons; [done|by apply IH].
Qed.

(** The errors ReplayStream joins have the texts the segments recorded, in their
    order; each is an error of this instance with that text, used once, and
    only a text none is left for is made into a new error. *)
Theorem replay_errors_match local msgs : (∀ m, error_text (New m) = m) →
  error_text <$> replay_errors local msgs = msgs ∧
  ∃ picks rest,
    replay_errors local msgs = zip_with (λ m pick, default (New m) pick) msgs picks ∧ length picks = length msgs ∧
    local ≡ₚ omap id picks ++ rest ∧
    ∀ i m, msgs !! i = Some m → picks !! i = Some None → ∀ e, e ∈ rest → error_text e ≠ m.
Proof.
  intros Hnew. revert local. induction msgs as [|msg msgs IH]; intros local; cbn.
  { split; [done|]. exists [], local. by split_and!. }
  pose proof (take_text_spec msg local) as Ht. destruct (take_text msg local) as [[e local']|]; cbn.
  - destruct Ht as [<- Hperm]. destruct (IH local') as (IH1 & picks & rest & IH2 & IH3 & IH4 & IH5). split; [by rewrite IH1|].
    exists (Some e :: picks), rest. cbn. split_and!; [by rewrite IH2|by rewrite IH3|by rewrite Hperm, IH4|].
    intros [|i] m; cbn; [done|]. apply IH5.
  - destruct (IH local) as (IH1 & picks & rest & IH2 & IH3 & IH4 & IH5). split; [by rewrite Hnew, IH1|].
    exists (None :: picks), rest. cbn. split_and!; [by rewrite IH2|by rewrite IH3|done|].
    intros [|i] m; cbn; [|apply IH5]. intros [= <-] _ e He. apply Ht. rewrite IH4. apply elem_of_app. by right.
Qed.
End errors.
