(* ===== verification/Delivery.v ===== *)
(** * What a segment delivers ([projection/segment.go])

    The invariant a segment keeps over its read model, its checkpoint and its
    dead letters, against the contract of a transactional [Store] and a
    [GlobalReader]: every event of the segment up to the checkpoint was either
    applied exactly once or is recorded as a dead letter, and the events of
    each stream were applied in order, without a gap.  Claims may be lost to
    another instance at any call; then nothing is claimed of the store any
    more, and the fence keeps this instance from writing to it. *)
From S2P Require Import Prelude Core Context Log ProjStore Runner Membership ProjStatus Segment SegmentLoop.

(** What the store holds of one segment: its checkpoint, the read model and
    its dead letters. *)
Record Snap (Mdl : Type) : Type := mkSnap {
  sn_cp : Checkpoint;
  sn_model : Mdl;
  sn_letters : list DeadLetter;
}.
Arguments mkSnap {Mdl}. Arguments sn_cp {Mdl}. Arguments sn_model {Mdl}. Arguments sn_letters {Mdl}.

(** ** The contract *)
Section contract.
Context {W Mdl : Type} `{U : UUIDString, ST : StoreOps W}.
Context (stored : W → Snap Mdl) (holds issued : Lease → W → Prop) (log_of : W → log).

(** The log only grows, and a lease once granted stays granted: the store
    never grants it to anyone again. *)
Definition later (w w' : W) : Prop :=
  log_of w `prefix_of` log_of w' ∧ ∀ l, issued l w → issued l w'.

(** A call that is not a write of the lease [l0]: while [l0] is still held
    afterwards, nothing stored has changed. *)
Definition frame (l0 : Lease) (w w' : W) : Prop :=
  later w w' ∧ (holds l0 w' → holds l0 w ∧ stored w' = stored w).

(** The [Store] and [GlobalReader] contracts, with other instances and
    writers active.  Inside a unit of work, [stored] is what that unit
    sees. *)
Class StoreLaws (P : ProjDefinition W) (seg : Z) (m0 : Mdl) (dls : DeadLetterOps W) : Prop := {
  law_dls : st_DeadLetters = Some dls;
  law_log w : numbered (log_of w);
  law_issued l w : holds l w → issued l w;
  law_commit l cp st fn w err w' l0 : st_Commit l cp st fn w = (err, w') →
    match err with
    | None => ∃ w1, fn w = (None, w1) ∧ later w1 w' ∧
        (holds l0 w' → l0 = l ∧ holds l0 w1 ∧
           stored w' = mkSnap cp (sn_model (stored w1)) (sn_letters (stored w1)))
    | Some _ => frame l0 w w'
    end;
  law_reset l v fn w err w' l0 : st_Reset l v fn w = (err, w') →
    match err with
    | None => ∃ w1 ru, fn w = (None, w1) ∧ later w1 w' ∧
        (holds l0 w' → l0 = l ∧ holds l0 w1 ∧
           stored w' = mkSnap (mkCheckpoint 0 v ru "") (sn_model (stored w1)) [])
    | Some _ => frame l0 w w'
    end;
  law_claim l ttl w res w' l0 : st_Claim l ttl w = (res, w') →
    match res with
    | Ok (Some (l', cp)) => later w w' ∧ 0 ≤ Position cp ≤ zlen (log_of w') ∧
        (holds l0 w' → l0 = l' ∧ cp = sn_cp (stored w') ∧
                     (l' = l ∧ holds l w ∧ stored w' = stored w ∨ ¬ issued l' w))
    | _ => frame l0 w w'
    end;
  law_status l st w err w' l0 : st_SaveStatus l st w = (err, w') → frame l0 w w';
  law_release l w err w' l0 : st_Release l w = (err, w') → frame l0 w w';
  law_rebuilds name w res w' l0 : st_Rebuilds name w = (res, w') → frame l0 w w';
  law_fail_rebuild l n msg w err w' l0 : st_FailRebuild l n msg w = (err, w') → frame l0 w w';
  law_head w res w' l0 : rd_Head w = (res, w') → frame l0 w w';
  law_sleep d w l0 : frame l0 w (sleepCtx d w);
  law_select i w c w' l0 : select_live i w = (c, w') → frame l0 w w';
  law_read after opts w res w' l0 : rd_ReadAll after opts w = (res, w') →
    frame l0 w w' ∧
    match res with
    | Ok page => 0 ≤ after → ∃ l, log_of w `prefix_of` l ∧ l `prefix_of` log_of w' ∧ page_ok l after opts page
    | Fail _ => True
    end;
  law_letters w res w' l0 : dls_LoadDeadLetters dls (p_Name P) seg w = (res, w') →
    frame l0 w w' ∧
    (∀ ds, res = Ok ds → holds l0 w' → ds = sn_letters (stored w'));
  law_finish l n msg w err w' l0 : dls_FinishReplay dls l n msg w = (err, w') → frame l0 w w';
  law_save_letter l d w w' l0 : dls_SaveDeadLetter dls l d w = (None, w') →
    later w w' ∧
    (holds l0 w' → holds l0 w ∧
       stored w' = mkSnap (sn_cp (stored w)) (sn_model (stored w)) (insert_dead_letter d (sn_letters (stored w))));
  law_delete_letter l p w w' l0 : dls_DeleteDeadLetter dls l p w = (None, w') →
    later w w' ∧
    (holds l0 w' → holds l0 w ∧
       stored w' = mkSnap (sn_cp (stored w)) (sn_model (stored w))
                     (bfilter (λ d, negb (dl_Position d =? p)) (sn_letters (stored w))));
  (** The application's functions write to the read model only. *)
  law_handler h c ev w err w' l0 : p_Handler P = Some h → h c ev w = (err, w') →
    later w w' ∧
    (holds l0 w' → holds l0 w ∧ sn_cp (stored w') = sn_cp (stored w) ∧ sn_letters (stored w') = sn_letters (stored w));
  law_wipe f w w' l0 : p_Reset P = Some f → f w = (None, w') →
    later w w' ∧ (holds l0 w' → holds l0 w ∧ sn_model (stored w') = m0);
}.
End contract.
Arguments law_dls {_ _ _ _ _ _ _ _ _ _ _ _}.
Arguments law_log {_ _ _ _ _ _ _ _ _ _ _ _} _.
Arguments law_issued {_ _ _ _ _ _ _ _ _ _ _ _} _ _.
Arguments law_commit {_ _ _ _ _ _ _ _ _ _ _ _} _ _ _ _ _ _ _ _.
Arguments law_reset {_ _ _ _ _ _ _ _ _ _ _ _} _ _ _ _ _ _ _.
Arguments law_claim {_ _ _ _ _ _ _ _ _ _ _ _} _ _ _ _ _ _.
Arguments law_status {_ _ _ _ _ _ _ _ _ _ _ _} _ _ _ _ _ _.
Arguments law_release {_ _ _ _ _ _ _ _ _ _ _ _} _ _ _ _ _.
Arguments law_rebuilds {_ _ _ _ _ _ _ _ _ _ _ _} _ _ _ _ _.
Arguments law_fail_rebuild {_ _ _ _ _ _ _ _ _ _ _ _} _ _ _ _ _ _ _.
Arguments law_head {_ _ _ _ _ _ _ _ _ _ _ _} _ _ _ _.
Arguments law_sleep {_ _ _ _ _ _ _ _ _ _ _ _} _ _ _.
Arguments law_select {_ _ _ _ _ _ _ _ _ _ _ _} _ _ _ _ _.
Arguments law_read {_ _ _ _ _ _ _ _ _ _ _ _} _ _ _ _ _ _.
Arguments law_letters {_ _ _ _ _ _ _ _ _ _ _ _} _ _ _ _.
Arguments law_finish {_ _ _ _ _ _ _ _ _ _ _ _} _ _ _ _ _ _ _.
Arguments law_save_letter {_ _ _ _ _ _ _ _ _ _ _ _} _ _ _ _ _.
Arguments law_delete_letter {_ _ _ _ _ _ _ _ _ _ _ _} _ _ _ _ _.
Arguments law_handler {_ _ _ _ _ _ _ _ _ _ _ _} _ _ _ _ _ _ _.
Arguments law_wipe {_ _ _ _ _ _ _ _ _ _ _ _} _ _ _ _.

(** ** Logs and the events of a segment *)
Section own.
Context (own_ev : Envelope → bool).

(** The events of the segment up to position [p]. *)
Definition own (l : log) (p : Z) : log := bfilter own_ev (take (Z.to_nat p) l).

Lemma own_prefix l l' p : l `prefix_of` l' → p ≤ zlen l → own l' p = own l p.
Proof.
  intros [k ->] Hp. unfold own. rewrite take_app_le; [done|]. unfold zlen in Hp. lia.
Qed.

Lemma own_extend l p q : 0 ≤ p ≤ q → own l q = own l p ++ bfilter own_ev (scanned l p q).
Proof.
  intros Hpq. unfold own, scanned. rewrite <- bfilter_app. f_equal.
  replace (Z.to_nat q) with (Z.to_nat p + Z.to_nat (q - p))%nat by lia. by rewrite take_take_drop.
Qed.

Lemma scanned_prefix l l' p q : l `prefix_of` l' → 0 ≤ p → q ≤ zlen l → scanned l' p q = scanned l p q.
Proof.
  intros [k ->] Hp Hq. unfold scanned. unfold zlen in Hq.
  destruct (Z.le_gt_cases p q) as [Hle|Hgt].
  - rewrite drop_app_le by lia. rewrite take_app_le; [done|]. rewrite length_drop. lia.
  - replace (Z.to_nat (q - p)) with 0%nat by lia. by rewrite !take_0.
Qed.

Lemma elem_of_own l p env : numbered l → env ∈ own l p → env ∈ l ∧ GlobalPosition env ≤ p.
Proof.
  intros [Hg _] [_ Hin]%elem_of_bfilter. apply list_elem_of_lookup in Hin as [i Hi].
  apply lookup_take_Some in Hi as [Hi Hlt]. split; [by eapply list_elem_of_lookup_2|].
  rewrite (Hg _ _ Hi). lia.
Qed.

(** The first of the segment's events after [p]. *)
Lemma own_next l p q env events :
  numbered l → 0 ≤ p → q ≤ zlen l → bfilter own_ev (scanned l p q) = env :: events →
  p < GlobalPosition env ≤ q ∧ own l (GlobalPosition env) = own l p ++ [env] ∧
  bfilter own_ev (scanned l (GlobalPosition env) q) = events.
Proof.
  intros Hnum Hp Hq Hev. set (g := GlobalPosition env).
  assert (env ∈ scanned l p q) as Hin.
  { assert (env ∈ bfilter own_ev (scanned l p q)) as H by (rewrite Hev; constructor).
    by apply elem_of_bfilter in H as [_ H]. }
  pose proof Hin as Hin'. apply (elem_of_scanned l p q env Hnum Hp) in Hin' as [Hl Hg]. fold g in Hg.
  (* split at the predecessor of [env] *)
  assert (scanned l p q = scanned l p (g - 1) ++ env :: scanned l g q) as Hsplit.
  { rewrite (scanned_split l p (g - 1) q) by lia. f_equal.
    rewrite (scanned_split l (g - 1) g q) by lia.
    assert (scanned l (g - 1) g = [env]) as ->; [|done].
    apply list_elem_of_lookup in Hl as [i Hi]. pose proof (numbered_global _ Hnum _ _ Hi) as Hgi. fold g in Hgi.
    unfold scanned. replace (Z.to_nat (g - (g - 1))) with 1%nat by lia.
    replace (Z.to_nat (g - 1)) with i by lia. rewrite (drop_S _ _ _ Hi). cbn [take]. by rewrite take_0. }
  rewrite Hsplit, bfilter_app in Hev. cbn [bfilter] in Hev.
  assert (bfilter own_ev (scanned l p (g - 1)) = []) as Hnone.
  { destruct (bfilter own_ev (scanned l p (g - 1))) as [|e es] eqn:He; [done|]. exfalso.
    simpl in Hev. simplify_eq.
    assert (env ∈ bfilter own_ev (scanned l p (g - 1))) as H by (rewrite He; constructor).
    apply elem_of_bfilter in H as [_ H]. apply (elem_of_scanned l p _ env Hnum Hp) in H. fold g in H. lia. }
  rewrite Hnone in Hev. simpl in Hev. destruct (own_ev env) eqn:Hown.
  2: { exfalso. assert (env ∈ bfilter own_ev (scanned l g q)) as H by (rewrite Hev; constructor).
       apply elem_of_bfilter in H as [H _]. congruence. }
  simplify_eq. split; [lia|]. split; [|done].
  rewrite (own_extend l p g) by lia. f_equal.
  rewrite (scanned_split l p (g - 1) g) by lia. rewrite bfilter_app, Hnone. simpl.
  assert (scanned l (g - 1) g = [env]) as ->; [|cbn; by rewrite Hown].
  apply list_elem_of_lookup in Hl as [i Hi]. pose proof (numbered_global _ Hnum _ _ Hi) as Hgi. fold g in Hgi.
  unfold scanned. replace (Z.to_nat (g - (g - 1))) with 1%nat by lia.
  replace (Z.to_nat (g - 1)) with i by lia. rewrite (drop_S _ _ _ Hi). cbn [take]. by rewrite take_0.
Qed.
End own.

(** ** The invariant *)
Section invariant.
Context {W Mdl : Type} `{U : UUIDString, ST : StoreOps W}.
Context (stored : W → Snap Mdl) (holds : Lease → W → Prop) (log_of : W → log).
Context (ctx : values) (P : ProjDefinition W) (seg : Z) (m0 : Mdl) (own_ev : Envelope → bool).

(** [Applies A m]: the read model [m] is the result of running the handler
    on the events [A], in order, each of them successfully. *)
Inductive Applies : list Envelope → Mdl → Prop :=
| applies_nil : Applies [] m0
| applies_event evs env ru r w w' :
    Applies evs (sn_model (stored w)) → rn_p r = P → handle ctx r env ru w = (None, w') →
    Applies (evs ++ [env]) (sn_model (stored w')).

Definition letter_of (d : DeadLetter) (env : Envelope) : Prop :=
  dl_Position d = GlobalPosition env ∧ dl_StreamID d = StreamID env.

(** [A] was applied and [E] dead-lettered: together the segment's events up
    to [p], and per stream in log order, the dead-lettered ones last. *)
Definition accounted (l : log) (p : Z) (m : Mdl) (ds : list DeadLetter) : Prop :=
  ∃ A E, Applies A m ∧ Forall2 letter_of ds E ∧
    ∀ s, stream_of s A ++ stream_of s E = stream_of s (own own_ev l p).

Definition inv (l : log) (sn : Snap Mdl) : Prop :=
  0 ≤ Position (sn_cp sn) ≤ zlen l ∧ accounted l (Position (sn_cp sn)) (sn_model sn) (sn_letters sn).

Lemma inv_mono l l' sn : l `prefix_of` l' → inv l sn → inv l' sn.
Proof.
  intros Hp [Hpos (A & E & HA & HE & Hs)]. pose proof (prefix_zlen _ _ Hp). split; [lia|].
  exists A, E. split_and!; [done..|]. intros s. by rewrite Hs, (own_prefix own_ev l l') by (done || lia).
Qed.

Lemma inv_start l ru v fp : inv l (mkSnap (mkCheckpoint 0 v ru fp) m0 []).
Proof.
  split; cbn; [pose proof (zlen_nonneg l); lia|]. exists [], []. split_and!; [constructor..|]. done.
Qed.

(** Every dead letter stands for an event of the segment in the log. *)
Lemma letter_event l p m ds d :
  numbered l → accounted l p m ds → d ∈ ds →
  ∃ env, letter_of d env ∧ env ∈ own own_ev l p ∧ GlobalPosition env ≤ p.
Proof.
  intros Hnum (A & E & HA & HE & Hs) Hd. apply list_elem_of_lookup in Hd as [i Hi].
  destruct (Forall2_lookup_l _ _ _ _ _ HE Hi) as (env & HEi & Hlo). exists env. split; [done|].
  assert (env ∈ own own_ev l p) as Hin.
  { assert (env ∈ stream_of (StreamID env) (own own_ev l p)) as H.
    { rewrite <- Hs, elem_of_app. right. apply elem_of_bfilter. split; [by apply bool_decide_eq_true|].
      by eapply list_elem_of_lookup_2. }
    by apply elem_of_bfilter in H as [_ H]. }
  split; [done|]. by apply elem_of_own in Hin as [_ ?].
Qed.

(** *** Applying a batch none of whose streams is parked *)
Lemma accounted_apply l p q m m' ds events :
  0 ≤ p ≤ q → bfilter own_ev (scanned l p q) = events → accounted l p m ds →
  (∀ d env, d ∈ ds → env ∈ events → dl_StreamID d ≠ StreamID env) →
  (∀ A, Applies A m → Applies (A ++ events) m') →
  accounted l q m' ds.
Proof.
  intros Hpq Hev (A & E & HA & HE & Hs) Hpark Happ. exists (A ++ events), E.
  split_and!; [auto|done|]. intros s. rewrite (own_extend own_ev l p q Hpq), Hev, !stream_of_app, <- Hs.
  destruct (stream_of s events) as [|env evs] eqn:Hes; [by rewrite !app_nil_r|].
  assert (stream_of s E = []) as ->; [|by rewrite !app_nil_r].
  apply bfilter_nil_iff. intros e He. apply bool_decide_eq_false. intros Hse.
  apply list_elem_of_lookup in He as [i Hi].
  destruct (Forall2_lookup_r _ _ _ _ _ HE Hi) as (d & Hd & _ & Hds).
  assert (env ∈ stream_of s events) as Hin by (rewrite Hes; constructor).
  apply elem_of_bfilter in Hin as [Hst Hin]. apply bool_decide_eq_true in Hst.
  apply (Hpark d env); [by eapply list_elem_of_lookup_2|done|congruence].
Qed.

(** *** Recording the next event as a dead letter *)
Lemma accounted_skip l p q m ds env events d :
  numbered l → 0 ≤ p → q ≤ zlen l → bfilter own_ev (scanned l p q) = env :: events →
  accounted l p m ds → letter_of d env →
  accounted l (GlobalPosition env) m (insert_dead_letter d ds).
Proof.
  intros Hnum Hp Hq Hev Hacc Hd.
  destruct (own_next own_ev l p q env events Hnum Hp Hq Hev) as (Hg & Hown & _).
  assert (insert_dead_letter d ds = ds ++ [d]) as ->.
  { apply insert_dead_letter_last. apply Forall_forall. intros d' Hd'.
    destruct (letter_event _ _ _ _ _ Hnum Hacc Hd') as (env' & [-> _] & _ & Hle). destruct Hd as [-> _]. lia. }
  destruct Hacc as (A & E & HA & HE & Hs). exists A, (E ++ [env]). split_and!; [done| |].
  - apply Forall2_app; [done|]. constructor; [done|constructor].
  - intros s. by rewrite Hown, !stream_of_app, app_assoc, Hs.
Qed.

(** *** Moving past events of other segments *)
Lemma accounted_advance l p q m ds :
  0 ≤ p ≤ q → bfilter own_ev (scanned l p q) = [] → accounted l p m ds → accounted l q m ds.
Proof.
  intros Hpq Hev (A & E & HA & HE & Hs). exists A, E. split_and!; [done..|].
  intros s. by rewrite (own_extend own_ev l p q Hpq), Hev, app_nil_r.
Qed.

(** *** Applying the first dead letter of a stream again *)
Lemma Forall2_delete_letter (ds : list DeadLetter) (E : list Envelope) pos env :
  Forall2 letter_of ds E → GlobalPosition env = pos →
  Forall2 letter_of (bfilter (λ d, negb (dl_Position d =? pos)) ds)
    (bfilter (λ e, negb (GlobalPosition e =? pos)) E).
Proof.
  intros HE Hpos. eapply Forall2_bfilter; [|exact HE]. intros d e [Hd _]. by rewrite Hd.
Qed.

Lemma accounted_replay l p m m' ds1 d ds2 env :
  numbered l → accounted l p m (ds1 ++ d :: ds2) →
  (∀ d', d' ∈ ds1 → dl_StreamID d' ≠ dl_StreamID d) →
  env ∈ l → GlobalPosition env = dl_Position d →
  (∀ A, Applies A m → Applies (A ++ [env]) m') →
  accounted l p m' (bfilter (λ d', negb (dl_Position d' =? dl_Position d)) (ds1 ++ d :: ds2)).
Proof.
  intros Hnum Hacc Hfirst Hl Hg Happ. pose proof Hacc as (A & E & HA & HE & Hs).
  apply Forall2_app_inv_l in HE as (E1 & E2' & HE1 & HE2 & ->).
  apply Forall2_cons_inv_l in HE2 as (e & E2 & [Hde Hds] & HE2 & ->).
  (* the event the letter stands for is the one that was read *)
  assert (∀ x, x ∈ E1 ++ e :: E2 → x ∈ l) as HEl.
  { intros x Hx. assert (x ∈ stream_of (StreamID x) (own own_ev l p)) as H.
    { rewrite <- Hs, elem_of_app. right. apply elem_of_bfilter. split; [by apply bool_decide_eq_true|done]. }
    apply elem_of_bfilter in H as [_ H]. by apply elem_of_own in H as [? _]. }
  assert (∀ x y, x ∈ l → y ∈ l → GlobalPosition x = GlobalPosition y → x = y) as Hinj.
  { intros x y Hx Hy Hxy. apply list_elem_of_lookup in Hx as [i Hi], Hy as [j Hj].
    rewrite (numbered_global _ Hnum _ _ Hi), (numbered_global _ Hnum _ _ Hj) in Hxy.
    assert (i = j) as -> by lia. congruence. }
  assert (e = env) as ->.
  { apply Hinj; [apply HEl; set_solver|done|congruence]. }
  (* positions of the other letters of the stream differ *)
  assert (NoDup (stream_of (StreamID env) (own own_ev l p))) as Hnd.
  { apply bfilter_NoDup. unfold own. apply bfilter_NoDup.
    apply NoDup_alt. intros i j x Hi Hj. apply lookup_take_Some in Hi as [Hi _], Hj as [Hj _].
    pose proof (numbered_global _ Hnum _ _ Hi) as H1. pose proof (numbered_global _ Hnum _ _ Hj) as H2. lia. }
  exists (A ++ [env]), (bfilter (λ x, negb (GlobalPosition x =? dl_Position d)) (E1 ++ env :: E2)).
  split_and!; [auto| |].
  - apply (Forall2_delete_letter _ _ _ env); [|done]. apply Forall2_app; [done|]. by constructor.
  - intros s. rewrite <- Hs, !stream_of_app. rewrite !bfilter_app. cbn [bfilter].
    rewrite Hg, Z.eqb_refl. cbn [negb].
    assert (∀ K, (∀ x, x ∈ K → x ∈ E1 ++ env :: E2) → env ∉ K →
      bfilter (λ x, negb (GlobalPosition x =? dl_Position d)) K = K) as Hkeep.
    { intros K HK Hnin. apply bfilter_all, Forall_forall. intros x Hx. apply negb_true_iff, Z.eqb_neq.
      intros Heq. apply Hnin. rewrite <- (Hinj x env); [done|by apply HEl, HK|done|congruence]. }
    assert (stream_of (StreamID env) E1 = []) as HE1nil.
    { apply bfilter_nil_iff. intros x Hx. apply bool_decide_eq_false. intros Hsx.
      apply list_elem_of_lookup in Hx as [i Hi]. destruct (Forall2_lookup_r _ _ _ _ _ HE1 Hi) as (d' & Hd' & _ & Hst).
      apply (Hfirst d'); [by eapply list_elem_of_lookup_2|]. rewrite Hst, Hds. congruence. }
    assert (env ∉ E1) as Hnin1.
    { intros Hin. assert (env ∈ stream_of (StreamID env) E1) as H
        by (apply elem_of_bfilter; split; [by apply bool_decide_eq_true|done]).
      rewrite HE1nil in H. by apply not_elem_of_nil in H. }
    assert (env ∉ E2) as Hnin2.
    { intros Hin. rewrite <- (Hs (StreamID env)), !stream_of_app, HE1nil in Hnd. cbn [app] in Hnd.
      apply NoDup_app in Hnd as (_ & _ & Hnd). unfold stream_of at 1, in_stream at 1 in Hnd. cbn [bfilter] in Hnd.
      rewrite bool_decide_true in Hnd by done. apply NoDup_cons in Hnd as [Hnin _]. apply Hnin.
      apply elem_of_bfilter. split; [by apply bool_decide_eq_true|done]. }
    rewrite !Hkeep; [|set_solver|done|set_solver|done].
    destruct (decide (s = StreamID env)) as [->|Hne].
    + rewrite stream_of_app, HE1nil. cbn [app]. rewrite <- app_assoc. f_equal.
      unfold stream_of at 1 3, in_stream; cbn [bfilter]. rewrite bool_decide_true by done. done.
    + assert (stream_of s [env] = []) as ->.
      { unfold stream_of, in_stream; cbn. by rewrite bool_decide_false. }
      rewrite app_nil_r, stream_of_app. f_equal. f_equal.
      unfold stream_of at 2, in_stream; cbn [bfilter]. by rewrite bool_decide_false.
Qed.
End invariant.
