(* ===== verification/SegmentProof.v ===== *)
(** * The loop of a segment keeps its invariant

    The methods of [Segment] and [SegmentLoop], against the contract of
    [Delivery]: rules for the monad, a specification of each method, and the
    theorem that whatever [work] does, and however it ends, the events of the
    segment are delivered exactly once and in order while its lease is held. *)
From S2P Require Import Prelude Core Effect Context Log ProjStore Runner Membership ProjStatus Segment SegmentLoop Delivery.

(** ** Updates of the memory that leave the segment's lease and parked streams *)
Section keeps.
Context {W : Type} (seg : Z).

Definition keeps (f : Runner W → Runner W) : Prop := ∀ r,
  rn_p (f r) = rn_p r ∧ rn_segments (f r) = rn_segments r ∧ rn_fingerprint (f r) = rn_fingerprint r ∧
  (is_Some (seg_of seg r) → is_Some (seg_of seg (f r))) ∧
  lease seg (f r) = lease seg r ∧ parked seg (f r) = parked seg r.

Lemma keeps_segs f : (∀ r, rn_p (f r) = rn_p r ∧ rn_segments (f r) = rn_segments r ∧
  rn_fingerprint (f r) = rn_fingerprint r ∧ rn_segs (f r) = rn_segs r) → keeps f.
Proof.
  intros H r. destruct (H r) as (-> & -> & -> & Hs). unfold lease, parked, seg_of. by rewrite Hs.
Qed.

Lemma keeps_compose f g : keeps f → keeps g → keeps (λ r, g (f r)).
Proof.
  intros Hf Hg r. destruct (Hf r) as (? & ? & ? & ? & ? & ?), (Hg (f r)) as (? & ? & ? & ? & ? & ?).
  split_and!; try congruence. auto.
Qed.

Lemma keeps_update_seg g :
  (∀ s, ss_lease (g s) = ss_lease s ∧ ss_parked (g s) = ss_parked s) → keeps (update_seg seg g).
Proof.
  intros Hg r. unfold update_seg, lease, parked, seg_of; cbn.
  rewrite list_lookup_alter_eq. split_and!; try done; [by intros [x ->]; eexists|..];
    (destruct (rn_segs r !! Z.to_nat seg) as [x|]; [|done]); cbn; by destruct (Hg x).
Qed.

Lemma keeps_setStatus l st : keeps (setStatus seg l st).
Proof.
  intros r. pose proof (keeps_update_seg (with_status st) (λ s, conj eq_refl eq_refl) r) as H.
  unfold setStatus. destruct (seg_of seg r) as [s|] eqn:Hs; [|by split_and!].
  destruct (bool_decide (ss_lease s = l)); [|by split_and!]. cbn [negb].
  by destruct (bool_decide (st_Phase (ss_status s) = st_Phase st)).
Qed.

Lemma keeps_rebuilding b : keeps (update_seg seg (with_rebuilding b)).
Proof. by apply keeps_update_seg. Qed.

Lemma keeps_wiped : 0 ≤ seg →
  keeps (λ r, signalChange (set_segs (imap (wiped_segment seg (p_Version (rn_p r))) (rn_segs r)) r)).
Proof.
  intros Hseg r. unfold lease, parked, seg_of; cbn. rewrite list_lookup_imap.
  split_and!; try done; [by intros [x ->]; eexists|..];
    (destruct (rn_segs r !! Z.to_nat seg) as [x|]; [|done]); cbn; unfold wiped_segment;
    rewrite Z2Nat.id, Z.eqb_refl by done; done.
Qed.

Lemma keeps_notifyWatchers : keeps notifyWatchers.
Proof. by apply keeps_segs. Qed.
Lemma keeps_add_skipped : keeps add_skipped.
Proof. by apply keeps_segs. Qed.
Lemma keeps_upd_replays g : keeps (upd_replays g).
Proof. by apply keeps_segs. Qed.
Lemma keeps_upd_rebuild g : keeps (upd_rebuild g).
Proof. by apply keeps_segs. Qed.
Lemma keeps_takeReplays i : keeps (λ r, (takeReplays i r).2).
Proof. by apply keeps_segs. Qed.
End keeps.

Create HintDb keeps.
#[export] Hint Resolve keeps_setStatus keeps_notifyWatchers keeps_add_skipped keeps_upd_replays
  keeps_upd_rebuild keeps_takeReplays : keeps.

(** ** Specifications *)
Section specs.
Context {W Mdl : Type} `{U : UUIDString, ST : StoreOps W}.
Context (stored : W → Snap Mdl) (holds issued : Lease → W → Prop) (log_of : W → log).
Context (ctx : values) (P : ProjDefinition W) (N : Z) (FP : string) (seg : Z) (m0 : Mdl).
Context (dls : DeadLetterOps W) (laws : StoreLaws stored holds issued log_of P seg m0 dls).
Context (l0 : Lease) (seg_nonneg : 0 ≤ seg).
Notation state := (Runner W * W)%type.

(** The events this segment of this definition handles. *)
Definition own_ev (env : Envelope) : bool :=
  env_matches (mkReadOptions (p_BatchSize P) (p_EventTypes P) []) env &&
  (negb (1 <? N) ||
   match p_SegmentKey P with None => false | Some key => SegmentOf (key env) N =? seg end).

Notation inv := (inv stored ctx P m0 own_ev).
Notation later := (later issued log_of).
Notation frame := (frame stored holds issued log_of).
Notation Applies := (Applies stored ctx P m0).
Notation accounted := (accounted stored ctx P m0 own_ev).

Definition config (r : Runner W) : Prop :=
  rn_p r = P ∧ rn_segments r = N ∧ rn_fingerprint r = FP ∧ is_Some (seg_of seg r).

(** The store is at position [p] of the log [L]. *)
Definition good (L : log) (p : Z) (G : Snap Mdl → Prop) (sn : Snap Mdl) : Prop :=
  Position (sn_cp sn) = p ∧ inv L sn ∧ G sn.

(** It holds dead letters of the streams [PK] only. *)
Definition within (PK : gset string) (sn : Snap Mdl) : Prop := ∀ d, d ∈ sn_letters sn → dl_StreamID d ∈ PK.

(** [K] are the streams the runner keeps as parked. *)
Definition J (L : log) (p : Z) (G : Snap Mdl → Prop) (K : gset string) (s : state) : Prop :=
  config s.1 ∧ parked seg s.1 = K ∧ issued l0 s.2 ∧ L `prefix_of` log_of s.2 ∧ 0 ≤ p ≤ zlen L ∧
  (holds l0 s.2 → lease seg s.1 = l0 ∧ good L p G (stored s.2)).

Definition Safe (s : state) : Prop :=
  config s.1 ∧ issued l0 s.2 ∧ (holds l0 s.2 → inv (log_of s.2) (stored s.2)).

(** *** Stability *)
Lemma later_trans w1 w2 w3 : later w1 w2 → later w2 w3 → later w1 w3.
Proof. intros [H1 H2] [H3 H4]. split; [by etrans|auto]. Qed.

Lemma later_refl w : later w w.
Proof. by split. Qed.

Lemma frame_refl w : frame l0 w w.
Proof. split; [apply later_refl|done]. Qed.

Lemma J_Safe L p G K s : J L p G K s → Safe s.
Proof.
  intros (Hc & _ & Hi & HL & _ & Hh). split_and!; [done..|]. intros H. destruct (Hh H) as (_ & _ & Hinv & _).
  by eapply inv_mono.
Qed.

Lemma J_frame L p G K r w w' : J L p G K (r, w) → frame l0 w w' → J L p G K (r, w').
Proof.
  intros (Hc & HK & Hi & HL & Hp & Hh) [[Hl Hiss] Hfr]. cbn in *. split_and!; cbn; try done; [auto|by etrans|lia|lia|].
  intros H. destruct (Hfr H) as [H0 ->]. by apply Hh.
Qed.

Lemma Safe_frame r w w' : Safe (r, w) → frame l0 w w' → Safe (r, w').
Proof.
  intros (Hc & Hi & Hh) [[Hl Hiss] Hfr]. cbn in *. split_and!; cbn; [done|auto|].
  intros H. destruct (Hfr H) as [H0 ->]. eapply inv_mono; [exact Hl|auto].
Qed.

Lemma config_keeps f r : keeps seg f → config r → config (f r).
Proof.
  intros Hf (Hp & Hn & Hfp & Hs). unfold config. destruct (Hf r) as (-> & -> & -> & Hs' & _). split_and!; auto.
Qed.

Lemma J_keeps f L p G K r w : keeps seg f → J L p G K (r, w) → J L p G K (f r, w).
Proof.
  intros Hf (Hc & HK & Hi & HL & Hp & Hh). cbn in *. pose proof (config_keeps _ _ Hf Hc).
  destruct (Hf r) as (_ & _ & _ & _ & Hl & Hk). unfold J; cbn. rewrite Hl, Hk. by split_and!; try lia.
Qed.

Lemma Safe_keeps f r w : keeps seg f → Safe (r, w) → Safe (f r, w).
Proof. intros Hf (Hc & Hi & Hh). split_and!; [by apply config_keeps|done..]. Qed.

Lemma J_modify f L p G K F : keeps seg f → triple (J L p G K) (modify f) (λ _, J L p G K) F.
Proof. intros Hf. apply triple_modify. intros r w HJ. by apply J_keeps. Qed.

Lemma J_lift {A} (f : W → result error A * W) L p G K :
  (∀ w res w', f w = (res, w') → frame l0 w w') →
  triple (J L p G K) (lift f) (λ _, J L p G K) (J L p G K).
Proof. intros Hf. apply triple_lift. intros r w res w' HJ Heq. pose proof (J_frame _ _ _ _ _ _ _ HJ (Hf _ _ _ Heq)). by destruct res. Qed.

Lemma J_lift_err (f : W → option error * W) L p G K :
  (∀ w res w', f w = (res, w') → frame l0 w w') →
  triple (J L p G K) (lift_err f) (λ _, J L p G K) (J L p G K).
Proof. intros Hf. apply triple_lift_err. intros r w res w' HJ Heq. pose proof (J_frame _ _ _ _ _ _ _ HJ (Hf _ _ _ Heq)). by destruct res. Qed.

Lemma check_ctx_spec L p G K : triple (J L p G K) check_ctx (λ _, J L p G K) (J L p G K).
Proof.
  eapply triple_bind; [apply triple_world|]. intros [e|]; [by apply triple_fail|by apply triple_ret].
Qed.

Lemma set_parked_spec ps L p G K F :
  (∀ sn, G sn → within ps sn) → triple (J L p G K) (set_parked seg ps) (λ _, J L p (within ps) ps) F.
Proof.
  intros Hps. apply triple_modify. intros r w (Hc & HK & Hi & HL & Hp & Hh). cbn in *.
  destruct Hc as (Hc1 & Hc2 & Hc3 & [s Hs]).
  assert (seg_of seg (update_seg seg (with_parked ps) r) = Some (with_parked ps s)) as Hs'.
  { unfold seg_of, update_seg; cbn. rewrite list_lookup_alter_eq. unfold seg_of in Hs. by rewrite Hs. }
  split_and!; cbn; try done; unfold lease, parked; rewrite ?Hs'; cbn; try done; try lia.
  intros H. destruct (Hh H) as (Hl & Hg1 & Hg2 & Hg3). unfold lease in Hl. rewrite Hs in Hl.
  unfold good; split_and!; [done..|auto].
Qed.

(** *** Handling events inside a unit of work *)
Lemma handle_spec r env ru w w1 :
  rn_p r = P → handle ctx r env ru w = (None, w1) →
  later w w1 ∧
  (holds l0 w1 → holds l0 w ∧ sn_cp (stored w1) = sn_cp (stored w) ∧ sn_letters (stored w1) = sn_letters (stored w)) ∧
  ∀ A, Applies A (sn_model (stored w)) → Applies (A ++ [env]) (sn_model (stored w1)).
Proof.
  intros Hr Hh. assert (∀ A, Applies A (sn_model (stored w)) → Applies (A ++ [env]) (sn_model (stored w1))) as HA.
  { intros A HA. by eapply applies_event. }
  unfold handle in Hh. rewrite Hr in Hh. destruct (p_Handler P) as [h|] eqn:HP.
  2: { injection Hh as <-. split_and!; [apply later_refl|done|done]. }
  destruct (h _ _ w) as [err w'] eqn:Hw. assert (w' = w1) as ->.
  { destruct err as [e|]; [|by injection Hh]. destruct (errors_As is_Skipped e); by injection Hh. }
  destruct (law_handler h _ _ w err w1 l0 HP Hw). done.
Qed.

Lemma handle_all_spec r events ru w w1 :
  rn_p r = P → handle_all ctx r events ru w = (None, w1) →
  later w w1 ∧
  (holds l0 w1 → holds l0 w ∧ sn_cp (stored w1) = sn_cp (stored w) ∧ sn_letters (stored w1) = sn_letters (stored w)) ∧
  ∀ A, Applies A (sn_model (stored w)) → Applies (A ++ events) (sn_model (stored w1)).
Proof.
  intros Hr. revert w. induction events as [|env events IH]; intros w Hh; cbn [handle_all] in Hh.
  { injection Hh as <-. split_and!; [apply later_refl|done|]. intros A. by rewrite app_nil_r. }
  destruct (handle ctx r env ru w) as [[e|] w2] eqn:He; [done|].
  destruct (handle_spec _ _ _ _ _ Hr He) as (Hl & Hs & HA). destruct (IH _ Hh) as (Hl' & Hs' & HA').
  split_and!; [by eapply later_trans| |].
  - intros H. destruct (Hs' H) as (H2 & -> & ->). auto.
  - intros A HA0. specialize (HA' _ (HA _ HA0)). by rewrite <- app_assoc in HA'.
Qed.

(** *** Commits *)
Lemma commit_spec L p G K cp st fn G' :
  0 ≤ Position cp ≤ zlen L →
  (∀ w w1, L `prefix_of` log_of w → fn w = (None, w1) → later w w1 ∧
     (holds l0 w1 → holds l0 w ∧
        (good L p G (stored w) →
         good L (Position cp) G' (mkSnap cp (sn_model (stored w1)) (sn_letters (stored w1)))))) →
  triple (J L p G K) (commit seg cp st fn) (λ _, J L (Position cp) G' K) (J L p G K).
Proof.
  intros Hcp Hfn. apply (triple_asks _ _ (λ _, True)); [done|]. intros l _. eapply triple_bind; [|intros ?; by apply J_modify, keeps_setStatus].
  apply triple_lift_err. intros r w err w' HJ Hc. pose proof (law_commit _ _ _ _ _ _ _ l0 Hc) as Hlaw.
  destruct err as [e|]; [by eapply J_frame|]. destruct Hlaw as (w1 & Hfw & [Hl1 Hi1] & Hst).
  destruct HJ as (Hcf & HK & Hi & HL & Hp & Hh). cbn in *. destruct (Hfn _ _ HL Hfw) as ([Hl2 Hi2] & Hg).
  split_and!; cbn; try done; try lia; [auto|by do 2 (etrans; [eassumption|])|].
  intros H. destruct (Hst H) as (_ & H1 & ->). destruct (Hg H1) as [H0 Hgood].
  destruct (Hh H0) as [Hlease Hg0]. split; [done|auto].
Qed.

(** A commit that only moves the position, past events of other segments. *)
Lemma commit_advance_spec L p PK K cp st :
  p ≤ Position cp ≤ zlen L → bfilter own_ev (scanned L p (Position cp)) = [] →
  triple (J L p (within PK) K) (commit seg cp st no_write) (λ _, J L (Position cp) (within PK) K) (J L p (within PK) K).
Proof.
  intros Hcp Hnone s HJ. pose proof HJ as (_ & _ & _ & _ & Hp & _). revert s HJ.
  apply (commit_spec L p (within PK) K cp st no_write (within PK)); [lia|]. intros w w1 _ [= <-]. split; [apply later_refl|].
  intros H. split; [done|]. intros (Hpos & [Hr Hacc] & Hds). rewrite Hpos in Hacc. split_and!; cbn; [done|split; cbn; [lia|]|done].
  eapply accounted_advance; [|done|done]. lia.
Qed.

Lemma skipEvent_spec L p q PK K env events cause cp st :
  numbered L → p ≤ q ≤ zlen L → bfilter own_ev (scanned L p q) = env :: events → Position cp = GlobalPosition env →
  triple (J L p (within PK) K) (skipEvent seg env cause cp st)
    (λ _, J L (GlobalPosition env) (within ({[StreamID env]} ∪ PK)) K) (J L p (within PK) K).
Proof.
  intros Hnum Hq Hev Hcp s HJ. pose proof HJ as (_ & _ & _ & _ & Hp & _). revert s HJ.
  pose proof (own_next own_ev L p q env events Hnum ltac:(lia) ltac:(lia) Hev) as (Hg & _).
  apply (triple_asks _ _ (λ _, True)); [done|]. intros l _.
  eapply triple_bind; [|intros ?; by apply J_modify, keeps_add_skipped].
  rewrite <- Hcp. apply commit_spec; [lia|]. intros w w1 _ Hfn. rewrite law_dls in Hfn.
  destruct (law_save_letter _ _ _ _ l0 Hfn) as [Hl Hs]. split; [done|]. intros H. destruct (Hs H) as [H0 ->].
  split; [done|]. intros (Hpos & [Hr Hacc] & Hds). rewrite Hpos in Hacc. unfold good; cbn. split_and!; [done|..].
  - split; cbn; [lia|]. rewrite Hcp. by eapply (accounted_skip _ _ _ _ _ L p q); [done|lia|lia|done..].
  - intros d; cbn. rewrite (insert_dead_letter_perm (dead_letter env cause)), elem_of_cons. intros [->|Hd]; [|set_solver].
    cbn. set_solver.
Qed.

(** *** Batches *)
Lemma to_Safe {A} (Pre : state → Prop) (m : M W A) Q L p G K :
  triple Pre m Q (J L p G K) → triple Pre m Q Safe.
Proof. intros H. eapply triple_conseq; [exact H|done..|]. apply J_Safe. Qed.

Lemma J_config L p G K s : J L p G K s → rn_p s.1 = P ∧ rn_segments s.1 = N ∧ rn_fingerprint s.1 = FP.
Proof. by intros [(? & ? & ? & _) _]. Qed.

(** The commit of one event: applied, or nothing happened. *)
Lemma commit_event_spec L p q PK K r env events cp st ru :
  numbered L → rn_p r = P → p ≤ q ≤ zlen L → bfilter own_ev (scanned L p q) = env :: events →
  Position cp = GlobalPosition env → StreamID env ∉ PK →
  triple (J L p (within PK) K) (commit seg cp st (handle ctx r env ru))
    (λ _, J L (GlobalPosition env) (within PK) K) (J L p (within PK) K).
Proof.
  intros Hnum Hr Hq Hev Hcp Hst s HJ. pose proof HJ as (_ & _ & _ & _ & Hp & _). revert s HJ.
  pose proof (own_next own_ev L p q env events Hnum ltac:(lia) ltac:(lia) Hev) as (Hg & Hown & _).
  rewrite <- Hcp. apply commit_spec; [lia|]. intros w w1 _ Hfn.
  destruct (handle_spec _ _ _ _ _ Hr Hfn) as (Hl & Hs & HA). split; [done|]. intros H.
  destruct (Hs H) as (H0 & _ & ->). split; [done|]. intros (Hpos & [Hr' Hacc] & Hds). rewrite Hpos in Hacc.
  split_and!; cbn; [done|split; cbn; [lia|]|done]. rewrite Hcp.
  eapply (accounted_apply _ _ _ _ _ L p _ _ _ _ [env]); [lia| |done| |done].
  - apply (app_inv_head (own own_ev L p)). rewrite <- (own_extend own_ev L p (GlobalPosition env)); [done|lia].
  - intros d e Hd ->%list_elem_of_singleton Heq. apply Hst. rewrite <- Heq. auto.
Qed.

Definition delivered (L : log) (p q : Z) (events : list Envelope) (s : state) : Prop :=
  ∃ p' K, p ≤ p' ≤ q ∧ bfilter own_ev (scanned L p' q) = [] ∧
    (events = [] → p' = p) ∧ (∀ env, last events = Some env → p' = GlobalPosition env) ∧ J L p' (within K) K s.

Lemma delivered_cons L p q env events s :
  p < GlobalPosition env ≤ q → delivered L (GlobalPosition env) q events s →
  delivered L p q (env :: events) s.
Proof.
  intros Hg (p' & K & Hp' & Hn & Hnil & Hlast & HJ). exists p', K. split_and!; try lia; try done.
  intros e He. destruct events as [|e' es]; [|by rewrite last_cons_cons in He; apply Hlast].
  injection He as <-. by apply Hnil.
Qed.

Lemma one_by_one_spec L q events cp st p K :
  numbered L → p ≤ q ≤ zlen L → bfilter own_ev (scanned L p q) = events →
  triple (J L p (within K) K) (one_by_one ctx seg events cp st) (λ _, delivered L p q events) Safe.
Proof.
  intros Hnum. revert p K. induction events as [|env events IH]; intros p K Hq Hev; cbn [one_by_one].
  { apply triple_ret. intros s HJ. exists p, K. split_and!; [lia|lia|done..]. }
  intros s HJ. pose proof HJ as (_ & _ & _ & _ & Hp & _). revert s HJ.
  pose proof (own_next own_ev L p q env events Hnum ltac:(lia) ltac:(lia) Hev) as (Hg & _ & Hrest).
  assert (∀ K', triple (J L (GlobalPosition env) (within K') K') (one_by_one ctx seg events cp st)
    (λ _, delivered L p q (env :: events)) Safe) as Hnext.
  { intros K'. eapply triple_conseq; [apply (IH (GlobalPosition env) K'); [lia|done]|done| |done].
    intros ? s. by apply delivered_cons. }
  eapply triple_bind; [eapply to_Safe, check_ctx_spec|]. intros ?.
  apply (triple_asks _ _ (λ ps, ps = K)); [by intros s (_ & -> & _)|]. intros ps ->.
  case_bool_decide as Hin.
  - eapply triple_bind; [eapply to_Safe, (skipEvent_spec L p q); done|]. intros ?.
    eapply triple_pre; [apply (Hnext K)|]. intros s. by replace ({[StreamID env]} ∪ K) with K by set_solver.
  - apply (triple_asks _ _ (λ r, rn_p r = P)); [by intros s (? & _)%J_config|]. intros r Hr.
    eapply triple_bind; [eapply triple_try, (commit_event_spec L p q K K r env events); done|].
    intros [[]|err]; [done|]. eapply triple_bind; [eapply to_Safe, check_ctx_spec|]. intros ?.
    destruct (errors_As is_handlerError err) as [[pe cause]|]; [|apply triple_fail, J_Safe].
    destruct (shouldSkip _ _ _); [|apply triple_fail, J_Safe].
    eapply triple_bind; [eapply to_Safe, (skipEvent_spec L p q); done|]. intros ?.
    eapply triple_bind; [by apply set_parked_spec|]. intros ?. apply Hnext.
Qed.

Lemma applyOneByOne_spec L p K events cp st :
  numbered L → p ≤ Position cp ≤ zlen L → bfilter own_ev (scanned L p (Position cp)) = events → events ≠ [] →
  triple (J L p (within K) K) (applyOneByOne ctx seg events cp st) (λ _ s, ∃ K', J L (Position cp) (within K') K' s) Safe.
Proof.
  intros Hnum Hq Hev Hne. eapply triple_bind; [by apply (one_by_one_spec L (Position cp))|]. intros ?.
  eapply triple_bind with (Mid := λ _ s, ∃ K', J L (Position cp) (within K') K' s).
  2: { intros _. apply triple_modify. intros r w [K' HJ]. exists K'. by apply J_keeps; [apply keeps_notifyWatchers|]. }
  intros s (p' & K' & Hp' & Hnone & _ & Hlast & HJ).
  destruct (last events) as [env|] eqn:He; [|by apply last_None in He].
  specialize (Hlast env eq_refl) as ->. destruct (Z.ltb_spec (GlobalPosition env) (Position cp)) as [Hlt|Hge].
  - revert s HJ. eapply triple_conseq; [eapply to_Safe, (commit_advance_spec L (GlobalPosition env)); [lia|done]|done| |done].
    intros ? s HJ. by exists K'.
  - replace (Position cp) with (GlobalPosition env) by lia. by exists K'.
Qed.

Lemma applyBatch_spec L p K events cp st :
  numbered L → p ≤ Position cp ≤ zlen L → bfilter own_ev (scanned L p (Position cp)) = events → events ≠ [] →
  triple (J L p (within K) K) (applyBatch ctx seg events cp st) (λ _ s, ∃ K', J L (Position cp) (within K') K' s) Safe.
Proof.
  intros Hnum Hq Hev Hne s HJ. pose proof HJ as (_ & _ & _ & _ & Hp & _). revert s HJ.
  apply (triple_asks _ _ (λ ps, ps = K)); [by intros s (_ & -> & _)|]. intros ps ->.
  destruct (existsb _ events) eqn:Hex; [by apply applyOneByOne_spec|].
  apply (triple_asks _ _ (λ r, rn_p r = P)); [by intros s (? & _)%J_config|]. intros r Hr.
  eapply triple_bind; [eapply triple_try, (commit_spec L p (within K) K cp st _ (within K))|].
  - lia.
  - intros w w1 _ Hfn. destruct (handle_all_spec _ _ _ _ _ Hr Hfn) as (Hl & Hs & HA). split; [done|]. intros H.
    destruct (Hs H) as (H0 & _ & ->). split; [done|]. intros (Hpos & [Hr' Hacc] & Hds). rewrite Hpos in Hacc.
    split_and!; cbn; [done|split; cbn; [lia|]|done].
    eapply (accounted_apply _ _ _ _ _ L p); [lia|exact Hev|done| |done].
    intros d e Hd He Heq. apply not_true_iff_false in Hex. apply Hex, existsb_exists. exists e.
    split; [by apply list_elem_of_In|]. apply bool_decide_eq_true. rewrite <- Heq. auto.
  - intros [[]|err].
    + apply triple_modify. intros r' w HJ. exists K. by apply J_keeps; [apply keeps_notifyWatchers|].
    + destruct (errors_As _ err); [by apply applyOneByOne_spec|apply triple_fail, J_Safe].
Qed.

(** *** Parked streams *)
Lemma letters_at_start L sn : Position (sn_cp sn) = 0 → inv L sn → sn_letters sn = [].
Proof.
  intros Hp [_ (A & E & _ & HE & Hs)]. rewrite Hp in Hs. destruct HE as [|d env ds E _ _]; [done|]. exfalso.
  specialize (Hs (StreamID env)). rewrite app_comm_cons in Hs || idtac.
  assert (env ∈ stream_of (StreamID env) A ++ stream_of (StreamID env) (env :: E)) as H.
  { apply elem_of_app. right. apply elem_of_bfilter. split; [by apply bool_decide_eq_true|constructor]. }
  rewrite Hs in H. by apply not_elem_of_nil in H.
Qed.

Definition any_parked (L : log) (p : Z) (s : state) : Prop := ∃ K, J L p (within K) K s.

Lemma loadParked_spec L p K cp :
  Position cp = p →
  triple (J L p (λ _, True) K) (loadParked seg cp) (λ _, any_parked L p) (J L p (λ _, True) K).
Proof.
  intros Hcp. unfold loadParked. rewrite Hcp. destruct (Z.eqb_spec p 0) as [->|Hne].
  - intros s HJ. assert (J L 0 (within ∅) K s) as HJ'.
    { destruct HJ as (Hc & HK & Hi & HL & Hp & Hh). split_and!; try done; try lia. intros H.
      destruct (Hh H) as (Hl & Hpos & Hinv & _). unfold good; split_and!; [done..|]. intros d. cbn.
      rewrite (letters_at_start L) by done. by intros ?%not_elem_of_nil. }
    revert s HJ HJ'. intros s _. eapply triple_conseq; [by apply (set_parked_spec ∅)|done| |done].
    intros ? ? ?. by exists ∅.
  - rewrite law_dls. apply (triple_asks _ _ (λ r, rn_p r = P)); [by intros s (? & _)%J_config|]. intros r Hr.
    eapply triple_bind with (Mid := λ ds, J L p (within (list_to_set (dl_StreamID <$> ds))) K).
    + apply triple_wrap, triple_lift. intros r' w res w' HJ Hld. rewrite Hr in Hld.
      destruct (law_letters _ _ _ l0 Hld) as [Hfr Hds]. pose proof (J_frame _ _ _ _ _ _ _ HJ Hfr) as HJ'.
      destruct res as [ds|e]; [|done]. pose proof (Hds ds eq_refl) as Hst.
      destruct HJ' as (Hc & HK & Hi & HL & Hp & Hh). split_and!; try done; try lia. intros H.
      destruct (Hh H) as (Hl & Hpos & Hinv & _). unfold good; split_and!; [done..|]. intros d Hd. cbn in Hd.
      rewrite <- (Hst H) in Hd. apply elem_of_list_to_set, list_elem_of_fmap. by exists d.
    + intros ds. eapply triple_conseq; [by apply set_parked_spec|done| |done]. intros ? s HJ. eexists; exact HJ.
Qed.

(** The letters left after the replays at [applied] succeeded. *)
Definition left_of (ds : list DeadLetter) (applied : list Z) (sn : Snap Mdl) : Prop :=
  sn_letters sn = bfilter (λ d, negb (bool_decide (dl_Position d ∈ applied))) ds.

Lemma left_of_next ds applied pos (cp : Checkpoint) (m : Mdl) sn :
  left_of ds applied sn →
  left_of ds (pos :: applied) (mkSnap cp m (bfilter (λ d, negb (dl_Position d =? pos)) (sn_letters sn))).
Proof.
  unfold left_of; cbn. intros ->. rewrite bfilter_bfilter. apply bfilter_ext. intros d _.
  rewrite (bool_decide_ext (dl_Position d ∈ pos :: applied) (dl_Position d = pos ∨ dl_Position d ∈ applied))
    by apply elem_of_cons.
  rewrite bool_decide_or, negb_orb, andb_comm. f_equal. f_equal.
  by destruct (Z.eqb_spec (dl_Position d) pos); [rewrite bool_decide_true|rewrite bool_decide_false].
Qed.

Lemma J_weaken L p (G G' : Snap Mdl → Prop) K s : (∀ sn, G sn → G' sn) → J L p G K s → J L p G' K s.
Proof.
  intros HG (Hc & HK & Hi & HL & Hp & Hh). unfold J. split_and!; try done; try lia. intros H.
  destruct (Hh H) as (Hl & Hpos & Hinv & Hg). unfold good; split_and!; auto.
Qed.

Lemma scanned_sub l p q env : env ∈ scanned l p q → env ∈ l.
Proof.
  unfold scanned. intros [i Hi]%list_elem_of_lookup. apply lookup_take_Some in Hi as [Hi _].
  rewrite lookup_drop in Hi. by eapply list_elem_of_lookup_2.
Qed.

(** An event below the end of a known part of the log lies in that part. *)
Lemma in_known_part L l big env :
  numbered big → L `prefix_of` big → l `prefix_of` big → env ∈ l → GlobalPosition env ≤ zlen L → env ∈ L.
Proof.
  intros Hnum HL Hl [i Hi]%list_elem_of_lookup Hg. pose proof (prefix_lookup_Some _ _ _ _ Hi Hl) as Hb.
  rewrite (numbered_global _ Hnum _ _ Hb) in Hg. destruct (lookup_lt_is_Some_2 L i) as [e He]; [unfold zlen in Hg; lia|].
  pose proof (prefix_lookup_Some _ _ _ _ He HL) as Hb'. rewrite Hb in Hb'. injection Hb' as ->.
  by eapply list_elem_of_lookup_2.
Qed.

Definition replaying (L : log) (p : Z) (K : gset string) (ds : list DeadLetter) (applied : list Z) : state → Prop :=
  J L p (λ sn, within K sn ∧ left_of ds applied sn) K.

Lemma replay_write_spec L p K ds pre d todo applied r env cp st l :
  numbered L → rn_p r = P → Position cp = p → ds = pre ++ d :: todo → dl_Position d ∉ applied →
  (∀ d', d' ∈ pre → dl_StreamID d' = dl_StreamID d → dl_Position d' ∈ applied) →
  GlobalPosition env = dl_Position d → (1 ≤ GlobalPosition env ≤ zlen L → env ∈ L) → 0 ≤ p ≤ zlen L →
  triple (replaying L p K ds applied)
    (commit seg cp st (λ w, match handle ctx r env (ReplayUntil cp) w with
                            | (Some e, w) => (Some e, w)
                            | (None, w) => dls_DeleteDeadLetter dls l (dl_Position d) w
                            end))
    (λ _, replaying L p K ds (dl_Position d :: applied)) (replaying L p K ds applied).
Proof.
  intros Hnum Hr Hcp Hds Hna Hpre Hg HinL Hp. rewrite <- Hcp. apply commit_spec; [lia|]. intros w w1 _ Hfn.
  destruct (handle ctx r env (ReplayUntil cp) w) as [[e|] w2] eqn:Hh; [done|].
  destruct (handle_spec _ _ _ _ _ Hr Hh) as (Hl & Hs & HA). destruct (law_delete_letter _ _ _ _ l0 Hfn) as [Hl' Hs'].
  split; [by eapply later_trans|]. intros H. destruct (Hs' H) as (H2 & ->). destruct (Hs H2) as (H0 & _ & ->).
  split; [done|]. intros (Hpos & [Hr' Hacc] & Hw & Hleft). rewrite Hpos in Hacc. cbn.
  unfold good; split_and!; cbn; [done| |..].
  - split; cbn; [lia|]. rewrite Hleft in Hacc |- *. subst ds. rewrite bfilter_app in Hacc |- *. cbn [bfilter] in *.
    rewrite bool_decide_false in Hacc |- * by done. cbn [negb] in *.
    assert (env ∈ L) as Hin.
    { apply HinL. rewrite Hg. destruct (letter_event _ _ _ _ _ _ _ _ _ d Hnum Hacc) as (e & [-> _] & Hown & ?).
      { apply elem_of_app; right; constructor. }
      apply elem_of_own in Hown as [[i Hi]%list_elem_of_lookup _]; [|done].
      rewrite (numbered_global _ Hnum _ _ Hi) in *. lia. }
    eapply accounted_replay; try done. intros d' [Hn Hd']%elem_of_bfilter Hst. apply negb_true_iff, bool_decide_eq_false in Hn.
    apply Hn. auto.
  - intros d' [_ Hd']%elem_of_bfilter. by apply Hw.
  - by apply (left_of_next _ _ (dl_Position d) cp (sn_model (stored w2))) in Hleft.
Qed.

Lemma replay_letter_spec L p K ds pre d todo applied cp :
  numbered L → Position cp = p → ds = pre ++ d :: todo → dl_Position d ∉ applied →
  (∀ d', d' ∈ pre → dl_StreamID d' = dl_StreamID d → dl_Position d' ∈ applied) →
  triple (replaying L p K ds applied) (replay_letter ctx seg dls cp d)
    (λ _, replaying L p K ds (dl_Position d :: applied)) (J L p (within K) K).
Proof.
  intros Hnum Hcp Hds Hna Hpre s0 HJ0. pose proof HJ0 as (_ & _ & _ & _ & Hp & _). revert s0 HJ0.
  assert (∀ s, replaying L p K ds applied s → J L p (within K) K s) as Hweak.
  { intros s. apply J_weaken. by intros sn [? _]. }
  eapply triple_bind with (Mid := λ page s,
    (1 ≤ dl_Position d → ∀ env, rr_Events page = [env] → GlobalPosition env ≤ zlen L → env ∈ L) ∧
    replaying L p K ds applied s).
  { apply triple_wrap, triple_lift. intros r w res w' HJ Hread.
    destruct (law_read _ _ _ _ _ l0 Hread) as [Hfr Hpage]. pose proof (J_frame _ _ _ _ _ _ _ HJ Hfr) as HJ'.
    destruct res as [page|e]; [|by apply Hweak]. split; [|done]. intros H1 env Hev Hle.
    destruct Hpage as (l & _ & Hl & Hok); [lia|]. destruct HJ' as (_ & _ & _ & HL & _).
    apply (in_known_part L l (log_of w')); [apply law_log|done|done| |done].
    assert (env ∈ rr_Events page) as Hin by (rewrite Hev; constructor). rewrite (page_events _ _ _ _ Hok) in Hin.
    apply elem_of_bfilter in Hin as [_ Hin]. by apply scanned_sub in Hin. }
  intros page. apply triple_pure. intros Henv. destruct (rr_Events page) as [|env [|]]; [by apply triple_fail| |by apply triple_fail].
  destruct (Z.eqb_spec (GlobalPosition env) (dl_Position d)) as [Hg|]; cbn [negb]; [|by apply triple_fail].
  apply (triple_asks _ _ (λ _, True)); [done|]. intros st _.
  apply (triple_asks _ _ (λ r, rn_p r = P)); [by intros s (? & _)%J_config|]. intros r Hr.
  apply (triple_asks _ _ (λ _, True)); [done|]. intros l _. apply triple_wrap.
  eapply triple_conseq; [eapply (replay_write_spec L p K ds pre d todo applied r env cp st l); try done|done..|done].
  intros [? ?]. apply Henv; [lia|done|done].
Qed.

Lemma replay_letters_spec L p K ds todo pre applied streamID cp :
  numbered L → Position cp = p → ds = pre ++ todo →
  (∀ d', d' ∈ pre → dl_StreamID d' = streamID → dl_Position d' ∈ applied) →
  triple (replaying L p K ds applied) (replay_letters ctx seg dls cp streamID applied todo)
    (λ _ s, ∃ applied, (∀ d', d' ∈ ds → dl_StreamID d' = streamID → dl_Position d' ∈ applied) ∧
              replaying L p K ds applied s) (J L p (within K) K).
Proof.
  intros Hnum Hcp Hds. revert pre applied Hds.
  induction todo as [|d todo IH]; intros pre applied Hds Hpre; cbn [replay_letters].
  { apply triple_ret. intros s HJ. exists applied. rewrite app_nil_r in Hds. by subst pre. }
  assert (ds = (pre ++ [d]) ++ todo) as Hds' by (by rewrite Hds, <- app_assoc).
  assert (∀ ps : list Z, (dl_StreamID d = streamID → dl_Position d ∈ ps) → (∀ x, x ∈ applied → x ∈ ps) →
    ∀ d', d' ∈ pre ++ [d] → dl_StreamID d' = streamID → dl_Position d' ∈ ps) as Hnext.
  { intros ps Hd Hps d' [Hd'| ->%list_elem_of_singleton]%elem_of_app Hst; auto. }
  destruct (negb _ || _) eqn:Hskip.
  - apply (IH (pre ++ [d]) applied); [done|]. apply Hnext; [|done]. intros <-.
    apply orb_true_iff in Hskip as [Hn|Hin]; [|by apply bool_decide_eq_true in Hin].
    by rewrite bool_decide_true in Hn.
  - apply orb_false_iff in Hskip as [Hst Hna]. apply negb_false_iff, bool_decide_eq_true in Hst.
    apply bool_decide_eq_false in Hna. subst streamID.
    eapply triple_bind; [eapply (replay_letter_spec L p K ds pre d todo applied); eauto|].
    intros ?. apply (IH (pre ++ [d])); [done|]. apply Hnext; intros; constructor; done.
Qed.

Lemma replayStream_spec L p K cp streamID :
  numbered L → Position cp = p →
  triple (J L p (within K) K) (replayStream ctx seg dls cp streamID) (λ _, any_parked L p) (J L p (within K) K).
Proof.
  intros Hnum Hcp. apply (triple_asks _ _ (λ r, rn_p r = P)); [by intros s (? & _)%J_config|]. intros r Hr.
  eapply triple_bind with (Mid := λ ds, replaying L p K ds []).
  { apply triple_wrap, triple_lift. intros r' w res w' HJ Hld. rewrite Hr in Hld.
    destruct (law_letters _ _ _ l0 Hld) as [Hfr Hds]. pose proof (J_frame _ _ _ _ _ _ _ HJ Hfr) as HJ'.
    destruct res as [ds|e]; [|done]. pose proof (Hds ds eq_refl) as Hst.
    destruct HJ' as (Hc & HK & Hi & HL & Hp & Hh). unfold replaying, J. split_and!; try done; try lia. intros H.
    destruct (Hh H) as (Hl & Hpos & Hinv & Hw). unfold good; split_and!; [done..|]. unfold left_of.
    cbn. rewrite <- (Hst H). symmetry. by apply bfilter_all, Forall_forall. }
  intros ds.
  eapply triple_bind; [apply (replay_letters_spec L p K ds ds [] []); try done; by intros d' ?%not_elem_of_nil|].
  intros ? s (applied & Hall & HJ). revert s HJ.
  apply (triple_asks _ _ (λ ps, ps = K)); [by intros s (_ & -> & _)|]. intros ps ->.
  eapply triple_bind; [apply (set_parked_spec (K ∖ {[streamID]}))|].
  - intros sn [Hw Hleft] d Hd. apply elem_of_difference. split; [by apply Hw|]. intros Hst%elem_of_singleton.
    rewrite Hleft in Hd. apply elem_of_bfilter in Hd as [Hn Hd]. apply negb_true_iff, bool_decide_eq_false in Hn.
    apply Hn. auto.
  - intros ?. apply triple_modify. intros r' w HJ. eexists. apply J_keeps; [apply keeps_notifyWatchers|exact HJ].
Qed.

Lemma any_modify f L p F : keeps seg f → triple (any_parked L p) (modify f) (λ _, any_parked L p) F.
Proof. intros Hf. apply triple_modify. intros r w [K HJ]. exists K. by apply J_keeps. Qed.

Lemma any_Safe L p s : any_parked L p s → Safe s.
Proof. intros [K HJ]. by eapply J_Safe. Qed.

Lemma any_lift_err (f : W → option error * W) L p :
  (∀ w res w', f w = (res, w') → frame l0 w w') →
  triple (any_parked L p) (lift_err f) (λ _, any_parked L p) (any_parked L p).
Proof.
  intros Hf. apply triple_lift_err. intros r w err w' [K HJ] Heq.
  pose proof (J_frame _ _ _ _ _ _ _ HJ (Hf _ _ _ Heq)). destruct err; by exists K.
Qed.

Lemma serve_all_spec L p cp reqs :
  numbered L → Position cp = p →
  triple (any_parked L p) (serve_all ctx seg dls cp reqs) (λ _, any_parked L p) Safe.
Proof.
  intros Hnum Hcp. induction reqs as [|rp reqs IH]; cbn [serve_all]; [by apply triple_ret|].
  eapply triple_bind with (Mid := λ _, any_parked L p).
  { intros s [K HJ]. pose proof (triple_try _ _ _ _ (λ _, False) (replayStream_spec L p K cp (rp_StreamID rp) Hnum Hcp) s HJ) as H.
    destruct (try _ s) as [[[[]|e]|e] s']; [done|by exists K|done]. }
  intros res. eapply triple_bind with (Mid := λ _, any_parked L p).
  { intros s [K HJ]. pose proof (check_ctx_spec L p _ K s HJ) as H.
    destruct (check_ctx s) as [[?|e] s']; [by exists K|by eapply J_Safe]. }
  intros ?. eapply triple_bind with (Mid := λ _, any_parked L p).
  { destruct res as [?|err]; [by apply triple_ret|]. destruct (errors_Is _ _); [by apply triple_fail, any_Safe|].
    eapply triple_bind; [by apply any_modify, keeps_upd_replays|]. intros ?. by apply triple_ret. }
  intros msg. apply (triple_asks _ _ (λ _, True)); [done|]. intros l _.
  eapply triple_bind with (Mid := λ _, any_parked L p).
  { eapply triple_conseq; [apply triple_try, any_lift_err; intros; by eapply law_finish|done| |done].
    by intros [?|?] s. }
  intros [?|err].
  - eapply triple_bind; [by apply any_modify, keeps_upd_replays|]. done.
  - destruct (errors_Is _ _); [by apply triple_fail, any_Safe|].
    eapply triple_bind; [by apply any_modify, keeps_upd_replays|]. done.
Qed.

Lemma serveReplays_spec L p cp :
  numbered L → Position cp = p →
  triple (any_parked L p) (serveReplays ctx seg cp) (λ _, any_parked L p) Safe.
Proof.
  intros Hnum Hcp. apply (triple_asks _ _ (λ _, True)); [done|]. intros reqs _.
  eapply triple_bind; [by apply any_modify, keeps_takeReplays|]. intros ?.
  rewrite law_dls. destruct reqs as [|rp reqs]; [by apply triple_ret|].
  apply triple_finally; [by apply serve_all_spec|..].
  - intros ? r w [K HJ]. exists K. by apply J_keeps; [by apply keeps_segs|].
  - intros r w HS. by apply Safe_keeps; [by apply keeps_segs|].
Qed.

(** *** Calls that write nothing of the segment *)
Definition stable (Pre : state → Prop) : Prop :=
  (∀ f r w, keeps seg f → Pre (r, w) → Pre (f r, w)) ∧
  (∀ r w w', frame l0 w w' → Pre (r, w) → Pre (r, w')) ∧
  (∀ s, Pre s → rn_p s.1 = P).

Lemma stable_modify Pre f F : stable Pre → keeps seg f → triple Pre (modify f) (λ _, Pre) F.
Proof. intros (Hk & _) Hf. apply triple_modify. intros r w. by apply Hk. Qed.

Lemma stable_lift {A} Pre (f : W → result error A * W) :
  stable Pre → (∀ w res w', f w = (res, w') → frame l0 w w') → triple Pre (lift f) (λ _, Pre) Pre.
Proof. intros (_ & Hs & _) Hf. apply triple_lift. intros r w res w' HP Heq. destruct res; by eauto. Qed.

Lemma stable_try_lift_err Pre (f : W → option error * W) F :
  stable Pre → (∀ w res w', f w = (res, w') → frame l0 w w') → triple Pre (try (lift_err f)) (λ _, Pre) F.
Proof.
  intros (_ & Hs & _) Hf. eapply triple_conseq; [apply triple_try|done| |done].
  - apply triple_lift_err with (Q := λ _, Pre) (F := Pre). intros r w err w' HP Heq. destruct err; by eauto.
  - by intros [?|?].
Qed.

(** At [p] of some part of the log. *)
Definition somewhere (p : Z) (s : state) : Prop := ∃ L, any_parked L p s.

(** The invariant holds, or nothing has been written since [X] held. *)
Definition fine (X : Snap Mdl → Prop) (s : state) : Prop :=
  config s.1 ∧ issued l0 s.2 ∧ (holds l0 s.2 → inv (log_of s.2) (stored s.2) ∨ X (stored s.2)).

Lemma stable_somewhere p : stable (somewhere p).
Proof.
  split_and!.
  - intros f r w Hf (L & K & HJ). exists L, K. by apply J_keeps.
  - intros r w w' Hf (L & K & HJ). exists L, K. by eapply J_frame.
  - intros s (L & K & HJ). by apply J_config in HJ as [? _].
Qed.

Lemma stable_fine X : stable (fine X).
Proof.
  split_and!.
  - intros f r w Hf (Hc & Hi & Hh). split_and!; [by apply config_keeps|done..].
  - intros r w w' [[Hl Hiss] Hfr] (Hc & Hi & Hh). cbn in *. split_and!; cbn; [done|auto|]. intros H.
    destruct (Hfr H) as [H0 ->]. destruct (Hh H0); [left; by eapply inv_mono|by right].
  - by intros s ((? & _) & _).
Qed.

Lemma Safe_fine X s : Safe s → fine X s.
Proof. intros (Hc & Hi & Hh). split_and!; auto. Qed.

Lemma somewhere_Safe p s : somewhere p s → Safe s.
Proof. intros [L HJ]. by eapply any_Safe. Qed.

(** *** Claims and rebuilds *)
Lemma claim_spec L p K :
  triple (J L p (within K) K) (claim seg)
    (λ res s, match res with Some cp => somewhere (Position cp) s | None => Safe s end) Safe.
Proof.
  intros s0 HJ0. pose proof HJ0 as (Hc0 & HK0 & Hi0 & HL0 & Hp0 & Hh0). destruct s0 as [r w]. cbn in *.
  unfold claim, asks, lift, mbind, SE_bind; cbn. destruct (st_Claim _ _ w) as [res w'] eqn:Hcl.
  pose proof (law_claim _ _ _ _ _ l0 Hcl) as Hlaw. destruct res as [[[l' cp]|]|e].
  - destruct Hlaw as ([Hlog Hiss] & Hpos & Hst).
    assert (holds l0 w' → l' = l0 ∧ good (log_of w') (Position cp) (within K) (stored w')) as Hh.
    { intros H. destruct (Hst H) as (Hl & -> & [(Hl2 & H0 & Heq)|Hn]); [|by rewrite <- Hl in Hn].
      rewrite <- Hl2, <- Hl in H0. split; [done|]. rewrite Heq. destruct (Hh0 H0) as (_ & <- & Hinv & Hw).
      unfold good; split_and!; [done| |done]. eapply inv_mono; [|exact Hinv]. by etrans. }
    exists (log_of w'), K. cbn. destruct Hc0 as (Hc1 & Hc2 & Hc3 & [s Hs]).
    assert (seg_of seg (update_seg seg (with_lease l') r) = Some (with_lease l' s)) as Hs'.
    { unfold seg_of, update_seg; cbn. rewrite list_lookup_alter_eq. unfold seg_of in Hs. by rewrite Hs. }
    unfold J, config, parked, lease in *; cbn. rewrite Hs'; rewrite Hs in HK0; cbn in *.
    split_and!; try done; try lia; auto.
  - eapply Safe_frame; [by eapply J_Safe|done].
  - eapply Safe_frame; [by eapply J_Safe|done].
Qed.

Lemma reclaim_spec L p K : triple (J L p (within K) K) (reclaim seg) (λ cp, somewhere (Position cp)) Safe.
Proof.
  eapply triple_bind; [apply triple_wrap, claim_spec|]. intros [cp|]; [by apply triple_ret|by apply triple_fail].
Qed.

(** Position 0, with nothing parked. *)
Definition restarted (s : state) : Prop := ∃ L K, J L 0 (within ∅) K s.

Lemma stable_restarted : stable restarted.
Proof.
  split_and!.
  - intros f r w Hf (L & K & HJ). exists L, K. by apply J_keeps.
  - intros r w w' Hf (L & K & HJ). exists L, K. by eapply J_frame.
  - intros s (L & K & HJ). by apply J_config in HJ as [? _].
Qed.

(** The reset of a rebuild: the read model is empty, at position 0. *)
Lemma reset_spec X r f :
  p_Reset P = Some f →
  triple (λ s, fine X s ∧ s.1 = r) (lift_err (st_Reset (lease seg r) (p_Version P) f)) (λ _, restarted) (fine X).
Proof.
  intros HR. apply triple_lift_err. intros r' w err w' [HF Hr] Hres. cbn in Hr. subst r'.
  pose proof (law_reset _ _ _ _ _ _ l0 Hres) as Hlaw.
  destruct err as [e|]; [by eapply (stable_fine X)|]. destruct Hlaw as (w1 & ru & Hf & [Hl1 Hi1] & Hst).
  destruct (law_wipe _ _ _ l0 HR Hf) as [[Hl2 Hi2] Hm]. destruct HF as (Hc & Hi & _). cbn in *.
  exists (log_of w'), (parked seg r). split_and!; cbn; try done; [auto|pose proof (zlen_nonneg (log_of w')); lia|].
  intros H. destruct (Hst H) as (Hl & H1 & ->). destruct (Hm H1) as [_ ->]. split; [congruence|].
  unfold good; split_and!; [done|apply inv_start|]. by intros d ?%not_elem_of_nil.
Qed.

Lemma rebuild_spec X :
  is_Some (p_Reset P) → triple (fine X) (rebuild seg) (λ cp, somewhere (Position cp)) (fine X).
Proof.
  intros [f HR]. eapply triple_bind; [by apply stable_modify, keeps_upd_rebuild; apply stable_fine|]. intros ?.
  apply triple_memory. intros r s HF. assert (rn_p r = P) as HrP by (destruct HF as [HF <-]; by apply (stable_fine X)).
  rewrite HrP, HR. cbn [default from_option]. revert s HF.
  eapply triple_bind; [apply triple_wrap, reset_spec, HR|]. intros ?.
  apply (triple_asks _ _ (λ _, True)); [done|]. intros head _.
  eapply triple_bind; [apply stable_modify, keeps_wiped; [apply stable_restarted|done]|]. intros ?.
  eapply triple_bind; [by apply stable_modify, keeps_rebuilding; apply stable_restarted|]. intros ?.
  intros s' (L & K & HJ). revert s' HJ.
  eapply triple_bind; [by apply set_parked_spec|]. intros ?.
  eapply triple_conseq with (F := Safe) (Q := λ cp, somewhere (Position cp)); [|done..|apply Safe_fine].
  eapply triple_bind; [apply reclaim_spec|]. intros cp.
  apply (triple_asks _ _ (λ _, True)); [done|]. intros l _.
  eapply triple_bind; [by apply stable_modify, keeps_setStatus; apply stable_somewhere|]. intros ?.
  eapply triple_bind; [by apply stable_modify, keeps_notifyWatchers; apply stable_somewhere|]. intros ?.
  by apply triple_ret.
Qed.

Lemma rebuildTried_spec Pre requested err F : stable Pre → triple Pre (rebuildTried requested err) (λ _, Pre) F.
Proof.
  intros Hst. eapply triple_bind; [apply triple_world|]. intros done.
  apply (triple_asks _ _ (λ _, True)); [done|]. intros l _.
  eapply triple_bind with (Mid := λ _, Pre); [|intros ?; by apply stable_modify, keeps_upd_rebuild].
  destruct err as [e|]; [|by apply triple_ret]. destruct (_ && _); [|by apply triple_ret].
  eapply triple_bind; [apply stable_try_lift_err; [done|]; intros; by eapply law_fail_rebuild|]. intros ?.
  by apply triple_ret.
Qed.

Lemma rebuild_for_spec X requested :
  is_Some (p_Reset P) → triple (fine X) (rebuild_for seg requested) (λ cp, somewhere (Position cp)) (fine X).
Proof.
  intros HR. eapply triple_bind; [by apply triple_try, rebuild_spec|]. intros [cp|e].
  - eapply triple_bind; [apply rebuildTried_spec, stable_somewhere|]. intros ?. by apply triple_ret.
  - eapply triple_bind; [apply rebuildTried_spec, stable_fine|]. intros ?. by apply triple_fail.
Qed.

Lemma rebuildDue_spec p last :
  triple (somewhere p) (rebuildDue last)
    (λ res s, (0 < res.1 → is_Some (p_Reset P)) ∧ somewhere p s) (somewhere p).
Proof.
  apply (triple_asks _ _ (λ _, True)); [done|]. intros asked _.
  eapply triple_bind; [by apply stable_modify, keeps_upd_rebuild; apply stable_somewhere|]. intros ?.
  eapply triple_bind; [apply triple_world|]. intros now.
  apply (triple_asks _ _ (λ r, rn_p r = P)); [by apply stable_somewhere|]. intros r Hr. rewrite Hr.
  destruct (_ && _); [by apply triple_ret|]. eapply triple_bind; [apply triple_world|]. intros now'.
  eapply triple_bind; [apply triple_wrap, stable_lift; [apply stable_somewhere|intros; by eapply law_rebuilds]|].
  intros [requested finished]. destruct (requested <=? finished); [by apply triple_ret|].
  destruct (p_Reset P) as [f|] eqn:HR; [apply triple_ret; intros; split; [by eexists|done]|].
  eapply triple_bind; [by apply stable_modify, keeps_upd_rebuild; apply stable_somewhere|]. intros ?. by apply triple_ret.
Qed.

Lemma serve_rebuild_spec cp checked :
  triple (somewhere (Position cp)) (serve_rebuild seg cp checked) (λ res, somewhere (Position res.1)) Safe.
Proof.
  unfold serve_rebuild. destruct (seg =? 0); [|by apply triple_ret].
  eapply triple_bind; [eapply triple_conseq; [apply rebuildDue_spec|done..|apply somewhere_Safe]|].
  intros [requested checked']. apply triple_pure. cbn. intros HR.
  destruct (Z.ltb_spec 0 requested); [|by apply triple_ret].
  eapply triple_bind with (Mid := λ cp', somewhere (Position cp')); [|intros cp'; by apply triple_ret].
  eapply triple_conseq; [apply (rebuild_for_spec (λ _, False)); auto| |done|].
  - intros s ?%somewhere_Safe. by apply Safe_fine.
  - intros s (Hc & Hi & Hh). split_and!; [done..|]. intros Hl. by destruct (Hh Hl) as [?|[]].
Qed.

(** *** A turn of the loop *)
Lemma J_grow L L' p K s :
  J L p (within K) K s → L `prefix_of` L' → L' `prefix_of` log_of s.2 → J L' p (within K) K s.
Proof.
  intros (Hc & HK & Hi & HL & Hp & Hh) HLL HL'. pose proof (prefix_zlen _ _ HLL) as Hz.
  unfold J; split_and!; try done; try lia. intros H. destruct (Hh H) as (Hl & Hpos & Hinv & Hw).
  unfold good; split_and!; [done..| |done]. by eapply inv_mono.
Qed.

Lemma bfilter_own r l : rn_p r = P → rn_segments r = N →
  (if 1 <? N then ownEvents seg r (bfilter (env_matches (readOptions r)) l)
   else bfilter (env_matches (readOptions r)) l) = bfilter own_ev l.
Proof.
  intros HP HN. unfold readOptions, ownEvents. rewrite HP. unfold own_ev. destruct (1 <? N) eqn:H1; cbn [negb orb].
  - rewrite bfilter_bfilter. apply bfilter_ext. intros env _. unfold own_event. by rewrite HP, HN.
  - apply bfilter_ext. intros env _. by rewrite andb_true_r.
Qed.

(** What a read found: the segment's events up to the new position. *)
Definition read_ok (p : Z) (batch : bool * Checkpoint * Status * list Envelope) (s : state) : Prop :=
  let '(_, newCP, _, events) := batch in
  ∃ L, numbered L ∧ p ≤ Position newCP ≤ zlen L ∧ bfilter own_ev (scanned L p (Position newCP)) = events ∧
    any_parked L p s.

Lemma stable_any L p : stable (any_parked L p).
Proof.
  split_and!.
  - intros f r w Hf (K & HJ). exists K. by apply J_keeps.
  - intros r w w' Hf (K & HJ). exists K. by eapply J_frame.
  - intros s (K & HJ). by apply J_config in HJ as [? _].
Qed.

Lemma read_batch_spec cp : triple (somewhere (Position cp)) (read_batch seg cp) (read_ok (Position cp)) Safe.
Proof.
  apply (triple_asks _ _ (λ r, rn_p r = P ∧ rn_segments r = N)).
  { intros s (L & K & HJ). by apply J_config in HJ as (? & ? & _). }
  intros r [HP HN].
  eapply triple_bind with (Mid := λ page s, ∃ L, numbered L ∧ Position cp ≤ rr_Next page ≤ zlen L ∧
    rr_Events page = bfilter (env_matches (readOptions r)) (scanned L (Position cp) (rr_Next page)) ∧
    any_parked L (Position cp) s).
  { apply triple_wrap, triple_lift. intros r' w res w' (L & K & HJ) Hread.
    pose proof HJ as (_ & _ & _ & HL & Hp & _). cbn in HL. assert (0 ≤ Position cp) as H0 by lia.
    destruct (law_read _ _ _ _ _ l0 Hread) as [Hfr Hpage]. pose proof (J_frame _ _ _ _ _ _ _ HJ Hfr) as HJ'.
    destruct res as [page|e]; [|by eapply J_Safe]. specialize (Hpage H0). destruct Hpage as (l & Hwl & Hl & [Hev Hnext _ _ _]).
    assert (L `prefix_of` l) as HLl by (by etrans). pose proof (prefix_zlen _ _ HLl).
    exists l. split_and!; [|lia|lia|done|exists K; by eapply J_grow].
    eapply numbered_prefix; [exact Hl|]. apply law_log. }
  intros page s (L & Hnum & Hnext & Hev & Hany). revert s Hany.
  rewrite Z.max_l by lia.
  eapply triple_bind with (Mid := λ _, any_parked L (Position cp)).
  { destruct (rr_AtEnd page); [by apply triple_ret|].
    eapply triple_bind with (Mid := λ _, any_parked L (Position cp)); [|intros head; by apply triple_ret].
    eapply triple_conseq; [apply triple_wrap, stable_lift; [apply stable_any|intros; by eapply law_head]|done..|apply any_Safe]. }
  intros head. apply triple_ret. intros s Hany. exists L. cbn. split_and!; [done|lia|lia| |done].
  rewrite HN, Hev. symmetry. by apply bfilter_own.
Qed.

Lemma write_batch_spec L cp newCP st events :
  numbered L → Position cp ≤ Position newCP ≤ zlen L → bfilter own_ev (scanned L (Position cp) (Position newCP)) = events →
  triple (any_parked L (Position cp)) (write_batch ctx seg cp newCP st events) (λ cp', somewhere (Position cp')) Safe.
Proof.
  intros Hnum Hp Hev. destruct events as [|env events]; cbn [write_batch].
  - destruct (Z.ltb_spec (Position cp) (Position newCP)).
    + eapply triple_bind with (Mid := λ _, any_parked L (Position newCP)).
      * intros s [K HJ]. pose proof (commit_advance_spec L (Position cp) K K newCP st Hp Hev s HJ) as Hc.
        destruct (commit _ _ _ _ s) as [[?|?] ?]; [by exists K|by eapply J_Safe].
      * intros ?. apply triple_ret. intros s HJ. by exists L.
    + apply (triple_asks _ _ (λ _, True)); [done|]. intros l _.
      eapply triple_bind; [apply stable_try_lift_err; [apply stable_any|]; intros; by eapply law_status|].
      assert (triple (any_parked L (Position cp)) (modify (setStatus seg l st) ;; mret cp) (λ cp', somewhere (Position cp')) Safe) as Hok.
      { eapply triple_bind; [by apply any_modify, keeps_setStatus|]. intros ?. apply triple_ret. intros s HJ. by exists L. }
      intros [?|e]; [exact Hok|]. destruct (errors_Is _ _); [apply triple_fail, any_Safe|exact Hok].
  - eapply triple_bind with (Mid := λ _, any_parked L (Position newCP)); [|intros ?; apply triple_ret; intros s HJ; by exists L].
    intros s [K HJ]. revert s HJ. by apply applyBatch_spec.
Qed.

Lemma wait_at_end_spec p at_end : triple (somewhere p) (wait_at_end seg at_end) (λ _, somewhere p) Safe.
Proof.
  unfold wait_at_end. destruct at_end; [|by apply triple_ret].
  eapply triple_bind; [by apply stable_modify, keeps_rebuilding; apply stable_somewhere|]. intros ?.
  eapply triple_bind with (Mid := λ _, somewhere p).
  { apply triple_lift_total. intros r w c w' HJ Hsel. apply (proj1 (proj2 (stable_somewhere p)) r w); [|done].
    by eapply law_select. }
  intros []; [|by apply triple_ret..]. eapply triple_bind; [apply triple_world|]. intros e.
  apply triple_fail, somewhere_Safe.
Qed.

Lemma work_turn_spec cp checked :
  triple (somewhere (Position cp)) (work_turn ctx seg cp checked) (λ res, somewhere (Position res.1)) Safe.
Proof.
  eapply triple_bind with (Mid := λ _, somewhere (Position cp)).
  { eapply triple_bind; [apply triple_world|]. intros [e|]; [apply triple_fail, somewhere_Safe|by apply triple_ret]. }
  intros ?. apply (triple_asks _ _ (λ _, True)); [done|]. intros [|] _; [apply triple_fail, somewhere_Safe|].
  eapply triple_bind; [apply serve_rebuild_spec|]. intros [cp' checked']. cbn.
  eapply triple_bind with (Mid := λ _, somewhere (Position cp')).
  { intros s (L & K & HJ). pose proof HJ as (_ & _ & _ & HL & _). assert (numbered L) as Hnum by
      (eapply numbered_prefix; [exact HL|apply law_log]).
    pose proof (serveReplays_spec L (Position cp') cp' Hnum eq_refl s (ex_intro _ K HJ)) as H.
    destruct (serveReplays _ _ _ s) as [[?|?] ?]; [by exists L|done]. }
  intros ?. eapply triple_bind; [apply read_batch_spec|]. intros [[[at_end newCP] st] events] s (L & Hnum & Hp & Hev & HJ).
  revert s HJ. eapply triple_bind; [by apply (write_batch_spec L)|]. intros cp''.
  eapply triple_bind; [apply wait_at_end_spec|]. intros ?. by apply triple_ret.
Qed.

Lemma work_loop_spec fuel cp checked :
  triple (somewhere (Position cp)) (work_loop ctx seg fuel cp checked) (λ _, Safe) Safe.
Proof.
  revert cp checked. induction fuel as [|fuel IH]; intros cp checked; cbn [work_loop].
  { apply triple_ret, somewhere_Safe. }
  eapply triple_bind; [apply work_turn_spec|]. intros [cp' checked']. apply IH.
Qed.

(** *** The whole of [work] *)

(** The checkpoint was written by this definition, or there is none yet. *)
Definition current (cp : Checkpoint) : Prop :=
  Position cp = 0 ∨ p_Version P ≤ cp_Version cp ∧ (Fingerprint cp = "" ∨ Fingerprint cp = FP).

(** What [NewRunner] checks: a definition with a version has a Reset. *)
Definition resettable (cp : Checkpoint) : Prop := cp_Version cp < p_Version P → is_Some (p_Reset P).

Lemma work_start_current L K cp :
  current cp → triple (J L (Position cp) (λ _, True) K) (work_start seg cp) (λ cp', somewhere (Position cp')) Safe.
Proof.
  intros Hcur. eapply triple_bind; [eapply to_Safe, loadParked_spec; done|]. intros ?.
  apply (triple_asks _ _ (λ r, rn_p r = P ∧ rn_fingerprint r = FP)).
  { intros s (K' & HJ). by apply J_config in HJ as (? & _ & ?). }
  intros r [HP HF]. rewrite HP, HF.
  assert (∀ s, any_parked L (Position cp) s → somewhere (Position cp) s) as Hret by (intros s HJ; by exists L).
  destruct (Z.ltb_spec 0 (Position cp)) as [Hpos|]; [|by apply triple_ret].
  destruct Hcur as [H0|[Hv Hfp]]; [lia|]. destruct (Z.ltb_spec (cp_Version cp) (p_Version P)); [lia|].
  assert (negb (bool_decide (Fingerprint cp = "")) && negb (bool_decide (Fingerprint cp = FP)) = false) as ->.
  { destruct Hfp as [->| ->]; [done|]. by rewrite (bool_decide_true (FP = FP)), andb_false_r. }
  by apply triple_ret.
Qed.

Lemma work_start_stale X cp :
  ¬ current cp → 0 ≤ Position cp → resettable cp →
  triple (fine X) (work_start seg cp) (λ cp', somewhere (Position cp')) (fine X).
Proof.
  intros Hcur H0 Hres. unfold current in Hcur.
  eapply triple_bind with (Mid := λ _, fine X).
  { unfold loadParked. destruct (Z.eqb_spec (Position cp) 0); [tauto|]. rewrite law_dls.
    apply (triple_asks _ _ (λ r, rn_p r = P)); [by apply stable_fine|]. intros r0 Hr0. rewrite Hr0.
    eapply triple_bind; [apply triple_wrap, stable_lift; [apply stable_fine|]; intros w res w' Hld; by apply (law_letters _ _ _ l0 Hld)|].
    intros ds. apply triple_modify. intros r' w (Hc & Hi & Hh). split_and!; [|done..].
    destruct Hc as (Hc1 & Hc2 & Hc3 & [s Hs]). split_and!; [done..|]. unfold seg_of, update_seg in *; cbn.
    cbn in Hs. rewrite list_lookup_alter_eq, Hs. by eexists. }
  intros ?. apply (triple_asks _ _ (λ r, rn_p r = P ∧ rn_fingerprint r = FP)).
  { by intros s ((? & _ & ? & _) & _). }
  intros r [HP HF]. rewrite HP, HF. destruct (Z.ltb_spec 0 (Position cp)); [|lia].
  destruct (Z.ltb_spec (cp_Version cp) (p_Version P)); cbn [orb]; [by apply rebuild_for_spec, Hres|].
  destruct (negb _ && negb _) eqn:Htypes; cbn [andb].
  - destruct (p_Reset P) as [f|] eqn:HR; cbn; [|by apply triple_fail].
    destruct (rn_segments r =? 1); [apply rebuild_for_spec; by rewrite HR|by apply triple_fail].
  - exfalso. apply andb_false_iff in Htypes. rewrite !negb_false_iff, !bool_decide_eq_true in Htypes. tauto.
Qed.

(** Whatever [work] does: the invariant holds while the lease is held,
    unless it failed before it wrote anything. *)
Lemma work_keeps fuel cp r w :
  config r → issued l0 w → 0 ≤ Position cp ≤ zlen (log_of w) → resettable cp →
  (holds l0 w → lease seg r = l0 ∧ sn_cp (stored w) = cp ∧ (current cp → inv (log_of w) (stored w))) →
  match work ctx seg fuel cp (r, w) with
  | (Ok _, s) => Safe s
  | (Fail _, s) => fine (λ sn, sn = stored w) s
  end.
Proof.
  intros Hc Hi Hp Hres Hh.
  assert (current cp ∨ ¬ current cp) as [Hcur|Hcur] by (unfold current; destruct (decide (Position cp = 0)),
    (decide (p_Version P ≤ cp_Version cp)), (decide (Fingerprint cp = "")), (decide (Fingerprint cp = FP)); tauto).
  - assert (triple (J (log_of w) (Position cp) (λ _, True) (parked seg r)) (work ctx seg fuel cp) (λ _, Safe) Safe) as H.
    { eapply triple_bind; [by apply work_start_current|]. intros cp'. apply work_loop_spec. }
    assert (J (log_of w) (Position cp) (λ _, True) (parked seg r) (r, w)) as HJ.
    { split_and!; try done; try lia. intros Hl. destruct (Hh Hl) as (Hle & Hcp & Hinv).
      unfold good; split_and!; [done|cbn; by rewrite Hcp|cbn; auto|done]. }
    specialize (H _ HJ). destruct (work _ _ _ _ _) as [[?|?] s]; [done|by apply Safe_fine].
  - apply (triple_conseq (fine (λ sn, sn = stored w)) (fine (λ sn, sn = stored w)) _ (λ _, Safe) (λ _, Safe)
      (fine (λ sn, sn = stored w)) (fine (λ sn, sn = stored w))); try done; [|by split_and!; auto].
    eapply triple_bind; [apply work_start_stale; [done|lia|done]|]. intros cp'.
    eapply triple_conseq; [apply work_loop_spec|done..|apply Safe_fine].
Qed.
End specs.

(** *** Exactly once, in order *)

(** C2: Whatever a segment's [work] does and however it ends (events fail, replays
    and rebuilds run, the store refuses, the claim moves to another instance),
    a segment that still holds its lease has accounted for its events exactly
    once.  Up to the checkpoint each of its events was either applied by the
    handler to the read model or is a dead letter, and within each stream they
    are in log order with the dead-lettered ones last, so a parked stream is
    never overtaken.  If [work] could not even start, the store is as it was. *)
Theorem work_delivers_exactly_once {W Mdl} `{U : UUIDString, ST : StoreOps W}
    (stored : W → Snap Mdl) (holds issued : Lease → W → Prop) (log_of : W → log)
    (ctx : values) (seg : Z) (m0 : Mdl) (dls : DeadLetterOps W) (fuel : nat) (cp : Checkpoint)
    (r r' : Runner W) (w w' : W) res
    (laws : StoreLaws stored holds issued log_of (rn_p r) seg m0 dls)
    (Hseg : 0 ≤ seg) (Hin : is_Some (seg_of seg r))
    (Hlease : holds (lease seg r) w) (Hcp : sn_cp (stored w) = cp) (Hpos : 0 ≤ Position cp ≤ zlen (log_of w))
    (Hreset : cp_Version cp < p_Version (rn_p r) → is_Some (p_Reset (rn_p r)))
    (Hinv : current (rn_p r) (rn_fingerprint r) cp →
            inv stored ctx (rn_p r) m0 (own_ev (rn_p r) (rn_segments r) seg) (log_of w) (stored w))
    (Hwork : work ctx seg fuel cp (r, w) = (res, (r', w')))
    (Hheld : holds (lease seg r) w') :
  inv stored ctx (rn_p r) m0 (own_ev (rn_p r) (rn_segments r) seg) (log_of w') (stored w') ∨
  (∃ e, res = Fail e) ∧ stored w' = stored w.
Proof.
  assert (config (rn_p r) (rn_segments r) (rn_fingerprint r) seg r) as Hc by done.
  pose proof (work_keeps stored holds issued log_of ctx (rn_p r) (rn_segments r) (rn_fingerprint r) seg m0 dls laws
    (lease seg r) Hseg fuel cp r w Hc (law_issued _ _ Hlease) Hpos Hreset (λ _, conj eq_refl (conj Hcp Hinv))) as H.
  rewrite Hwork in H. destruct res as [a|e]; destruct H as (_ & _ & Hh); cbn in Hh.
  - left. auto.
  - destruct (Hh Hheld) as [?|Heq]; [by left|right; eauto].
Qed.
