(* ===== verification/TxWorld.v ===== *)
(** * A transactional store, as an instance of the delivery contract

    A small world with one log, one projection of one segment and its read
    model, whose units of work roll back, and whose claims are exclusive.  It
    satisfies [StoreLaws], so the hypotheses of [SegmentProof] can hold, and
    it runs: a poisoned event is dead-lettered, its stream parked, and the
    stream replayed after the handler was fixed. *)
From S2P Require Import Prelude Core Effect Registry Samples Context Log MemWorld ProjStore Runner Membership ProjStatus Segment SegmentLoop Delivery SegmentProof.

Record TxWorld : Type := mkTx {
  tx_n : nat;                (* the events appended so far *)
  tx_snap : Snap (list Z);   (* the read model: the positions handled *)
  tx_lease : Lease;
  tx_fixed : bool;           (* the handler no longer fails *)
  tx_polls : nat;            (* the waits left before the context ends *)
  tx_replays : list Replay;
}.

Definition sample_event (id : uuid) (stream : string) (version position : Z) (ev : Event) : Envelope :=
  mkEnvelope id stream None "" "" (Some ev) version position 1.

Definition sample_log : log := [
  sample_event 1 "order-a" 1 1 (order_placed "a" "");
  sample_event 2 "order-b" 1 2 (order_placed "b" "poison");
  sample_event 3 "order-b" 2 3 (order_shipped "b" "");
  sample_event 4 "order-a" 2 4 (order_shipped "a" "");
  sample_event 5 "order-c" 1 5 (order_placed "c" "")].

Definition tx_log (w : TxWorld) : log := take (tx_n w) sample_log.

Definition tx_holds (l : Lease) (w : TxWorld) : Prop := tx_lease w = l.
Definition tx_issued (l : Lease) (w : TxWorld) : Prop := l_Epoch l ≤ l_Epoch (tx_lease w).

Definition tx_set (sn : Snap (list Z)) (w : TxWorld) : TxWorld :=
  mkTx (tx_n w) sn (tx_lease w) (tx_fixed w) (tx_polls w) (tx_replays w).

Definition claim_lost : option error := Some (Sentinel ErrClaimLost).

Definition tx_Claim (l : Lease) (ttl : duration) (w : TxWorld) : result error (option (Lease * Checkpoint)) * TxWorld :=
  if bool_decide (l = tx_lease w) then
    let cp := sn_cp (tx_snap w) in
    if (0 <=? Position cp) && (Position cp <=? zlen (tx_log w)) then (Ok (Some (l, cp)), w)
    else (Fail (New "checkpoint is not in the log"), w)
  else
    let l := mkLease (l_Name l) (l_Segment l) (l_Owner l) (l_Epoch (tx_lease w) + 1) in
    (Ok (Some (l, mkCheckpoint 0 0 0 "")), mkTx (tx_n w) (mkSnap (mkCheckpoint 0 0 0 "") [] []) l
       (tx_fixed w) (tx_polls w) (tx_replays w)).

(** A unit of work: rolled back when [fn] fails or the lease is lost. *)
Definition tx_unit (l : Lease) (fn : TxWorld → option error * TxWorld) (write : Snap (list Z) → Snap (list Z))
    (w : TxWorld) : option error * TxWorld :=
  match fn w with
  | (Some e, _) => (Some e, w)
  | (None, w1) => if bool_decide (l = tx_lease w1) then (None, tx_set (write (tx_snap w1)) w1) else (claim_lost, w)
  end.

Definition tx_letters (l : Lease) (f : list DeadLetter → list DeadLetter) (w : TxWorld) : option error * TxWorld :=
  if bool_decide (l = tx_lease w)
  then let sn := tx_snap w in (None, tx_set (mkSnap (sn_cp sn) (sn_model sn) (f (sn_letters sn))) w)
  else (claim_lost, w).

Definition tx_ReadAll (after : Z) (opts : ReadOptions) (w : TxWorld) : result error ReadResult * TxWorld :=
  let l := tx_log w in
  let limit := if 0 <? Limit opts then Limit opts else zlen l in
  let next := Z.max after (Z.min (after + limit) (zlen l)) in
  (Ok (mkReadResult (bfilter (env_matches opts) (scanned l after next)) next (zlen l <=? next)), w).

Definition tx_dls : DeadLetterOps TxWorld := {|
  dls_SaveDeadLetter l d := tx_letters l (insert_dead_letter d);
  dls_LoadDeadLetters _ _ w := (Ok (sn_letters (tx_snap w)), w);
  dls_DeleteDeadLetter l p := tx_letters l (bfilter (λ d, negb (dl_Position d =? p)));
  dls_RequestReplay _ stream w := (Ok 1, mkTx (tx_n w) (tx_snap w) (tx_lease w) (tx_fixed w) (tx_polls w) [mkReplay 1 stream 0]);
  dls_PendingReplays _ w := (Ok (tx_replays w), w);
  dls_FinishReplay _ _ _ w := (None, mkTx (tx_n w) (tx_snap w) (tx_lease w) (tx_fixed w) (tx_polls w) []);
  dls_ReplayResult _ _ w := (Ok (0, []), w);
|}.

#[export] Instance tx_ops : StoreOps TxWorld := {|
  st_Declare _ _ _ w := (None, w);
  st_Claim := tx_Claim;
  st_Commit l cp _ fn := tx_unit l fn (λ sn, mkSnap cp (sn_model sn) (sn_letters sn));
  st_Reset l v fn := tx_unit l fn (λ sn, mkSnap (mkCheckpoint 0 v (Position (sn_cp sn)) "") (sn_model sn) []);
  st_Release _ w := (None, w);
  st_SaveStatus _ _ w := (None, w);
  st_LoadStatuses _ w := (Ok [], w);
  st_RequestRebuild _ w := (Ok 0, w);
  st_Rebuilds _ w := (Ok (0, 0), w);
  st_FailRebuild _ _ _ w := (None, w);
  st_RebuildFailure _ w := (Ok (0, ""), w);
  st_Heartbeat _ _ _ _ w := (Ok [], w);
  st_DeadLetters := Some tx_dls;
  rd_ReadAll := tx_ReadAll;
  rd_Head w := (Ok (zlen (tx_log w)), w);
  ctx_done w := match tx_polls w with O => Some (Sentinel context_Canceled) | S _ => None end;
  clock _ := 0;
  sleepCtx _ w := w;
  select_live _ w := (CasePoll, mkTx (S (tx_n w)) (tx_snap w) (tx_lease w) (tx_fixed w) (pred (tx_polls w)) (tx_replays w));
  error_text _ := "error";
|}.

(** ** A projection over it *)

(** The handler records the position of its event, and fails on a poisoned
    one until it is fixed. *)
Definition record_position (ctx : values) (ev : option Event) (w : TxWorld) : option error * TxWorld :=
  match ev with
  | Some ev =>
    if negb (tx_fixed w) && bool_decide (ev_data ev = "poison") then (Some (New "poisoned"), w)
    else
      let sn := tx_snap w in
      (None, tx_set (mkSnap (sn_cp sn) (sn_model sn ++ [GlobalPositionFromContext ctx]) (sn_letters sn)) w)
  | None => (None, w)
  end.

Definition clear_model (w : TxWorld) : option error * TxWorld :=
  (None, tx_set (mkSnap (sn_cp (tx_snap w)) [] (sn_letters (tx_snap w))) w).

Definition tx_definition : ProjDefinition TxWorld :=
  mkDefinition "orders" (Some record_position) ["OrderPlaced"; "OrderShipped"] 1 (Some clear_model) 1 None
    SkipAlways "node" 2 0 0.

#[export] Instance sampleSHA : SHA256 := λ s, s.

Definition tx_runner : Runner TxWorld :=
  match NewRunner sample_registry "host" "1" tx_definition with
  | Returns r => r
  | Panics _ => mkRunner tx_definition 1 "" [] 0 0 0 (mkReplayQueue ∅ [] false 0 0 ∅ false)
                  (mkRebuildState false 0 0 false 0 None) (mkMembership 0 0 false 0 "") 0
  end.

Definition tx_start : TxWorld :=
  mkTx 3 (mkSnap (mkCheckpoint 0 0 0 "") [] []) (lease 0 tx_runner) false 4 [].

(** Four turns: the poisoned event 2 and the later event 3 of its stream
    are dead letters, the other events are in the read model. *)
Definition tx_run : result error (Checkpoint * time) * (Runner TxWorld * TxWorld) :=
  work ∅ 0 4 (mkCheckpoint 0 0 0 "") (tx_runner, tx_start).

Lemma tx_run_delivers :
  sn_model (tx_snap tx_run.2.2) = [1; 4; 5] ∧
  dl_Position <$> sn_letters (tx_snap tx_run.2.2) = [2; 3] ∧
  Position (sn_cp (tx_snap tx_run.2.2)) = 5 ∧ parked 0 tx_run.2.1 = {["order-b"]}.
Proof. vm_compute. done. Qed.

(** Then the handler is fixed and the stream replayed: 2 and 3 follow. *)
Definition tx_fix (w : TxWorld) : TxWorld :=
  mkTx (tx_n w) (tx_snap w) (tx_lease w) true 3 [mkReplay 1 "order-b" 0].

Definition tx_replay : result error () * (Runner TxWorld * TxWorld) :=
  (queueReplays tx_dls ;; serveReplays ∅ 0 (sn_cp (tx_snap tx_run.2.2)))
    (setActive 0 true tx_run.2.1, tx_fix tx_run.2.2).

Lemma tx_replay_delivers :
  sn_model (tx_snap tx_replay.2.2) = [1; 4; 5; 2; 3] ∧ sn_letters (tx_snap tx_replay.2.2) = [] ∧
  parked 0 tx_replay.2.1 = ∅.
Proof. vm_compute. done. Qed.

(** ** The contract holds *)
Lemma sample_log_numbered : numbered sample_log.
Proof.
  split.
  - intros i env. do 5 (destruct i as [|i]; [by intros [= <-]|]). done.
  - intros id i env. unfold stream_of, in_stream, sample_log. cbn [bfilter StreamID sample_event].
    repeat case_bool_decide; subst; try done; cbn [bfilter];
      do 3 (destruct i as [|i]; [by intros [= <-]|]); done.
Qed.

Lemma tx_log_numbered w : numbered (tx_log w).
Proof. eapply numbered_prefix; [apply prefix_take|apply sample_log_numbered]. Qed.

Notation tx_later := (later tx_issued tx_log).
Notation tx_frame := (frame tx_snap tx_holds tx_issued tx_log).

Lemma tx_later_refl w : tx_later w w.
Proof. by split. Qed.

Lemma tx_frame_refl l0 w : tx_frame l0 w w.
Proof. split; [apply tx_later_refl|done]. Qed.

Lemma tx_unit_spec l fn write w err w' l0 :
  tx_unit l fn write w = (err, w') →
  match err with
  | None => ∃ w1, fn w = (None, w1) ∧ tx_later w1 w' ∧
      (tx_holds l0 w' → l0 = l ∧ tx_holds l0 w1 ∧ tx_snap w' = write (tx_snap w1))
  | Some _ => tx_frame l0 w w'
  end.
Proof.
  unfold tx_unit. destruct (fn w) as [[e|] w1]; [intros [= <- <-]; apply tx_frame_refl|].
  case_bool_decide as Hl; intros [= <- <-]; [|apply tx_frame_refl].
  exists w1. split_and!; [done|by split|]. unfold tx_holds; cbn. intros <-. done.
Qed.

Lemma tx_letters_spec l f w w' l0 :
  tx_letters l f w = (None, w') →
  tx_later w w' ∧ (tx_holds l0 w' → tx_holds l0 w ∧
    tx_snap w' = mkSnap (sn_cp (tx_snap w)) (sn_model (tx_snap w)) (f (sn_letters (tx_snap w)))).
Proof. unfold tx_letters. case_bool_decide; intros [= <-]. split; [by split|done]. Qed.

Lemma tx_Claim_spec l ttl w res w' l0 :
  tx_Claim l ttl w = (res, w') →
  match res with
  | Ok (Some (l', cp)) => tx_later w w' ∧ 0 ≤ Position cp ≤ zlen (tx_log w') ∧
      (tx_holds l0 w' → l0 = l' ∧ cp = sn_cp (tx_snap w') ∧
         (l' = l ∧ tx_holds l w ∧ tx_snap w' = tx_snap w ∨ ¬ tx_issued l' w))
  | _ => tx_frame l0 w w'
  end.
Proof.
  unfold tx_Claim. case_bool_decide as Hl.
  - destruct (_ && _) eqn:Hp; intros [= <- <-]; [|apply tx_frame_refl].
    apply andb_true_iff in Hp as [H1%Z.leb_le H2%Z.leb_le]. split_and!; [apply tx_later_refl|lia|lia|].
    unfold tx_holds. intros H. split_and!; [congruence|done|left; by rewrite Hl].
  - intros [= <- <-]. split_and!; cbn; [|lia|apply zlen_nonneg|].
    + split; [done|]. unfold tx_issued; cbn. lia.
    + unfold tx_holds, tx_issued; cbn. intros <-. split_and!; [done..|]. right. lia.
Qed.

Lemma tx_ReadAll_spec after opts w res w' l0 :
  tx_ReadAll after opts w = (res, w') →
  tx_frame l0 w w' ∧
  match res with
  | Ok page => 0 ≤ after → ∃ l, tx_log w `prefix_of` l ∧ l `prefix_of` tx_log w' ∧ page_ok l after opts page
  | Fail _ => True
  end.
Proof.
  intros [= <- <-]. split; [apply tx_frame_refl|]. intros Ha. exists (tx_log w). split_and!; [done..|].
  pose proof (zlen_nonneg (tx_log w)) as Hn. set (n := zlen (tx_log w)) in *.
  set (limit := if 0 <? Limit opts then Limit opts else n).
  assert (0 < limit ∨ n = 0) as Hlim by (unfold limit; destruct (Z.ltb_spec 0 (Limit opts)); lia).
  set (next := Z.max after (Z.min (after + limit) n)). split; cbn.
  - done.
  - fold n. lia.
  - intros H%Z.leb_gt. lia.
  - by rewrite Z.leb_le.
  - intros Hl. unfold zlen.
    pose proof (bfilter_length (env_matches opts) (scanned (tx_log w) after next)) as H1.
    assert (length (scanned (tx_log w) after next) ≤ Z.to_nat (next - after))%nat by (unfold scanned; rewrite length_take; lia).
    unfold limit in *. destruct (Z.ltb_spec 0 (Limit opts)); lia.
Qed.

Lemma prefix_take_S (l : log) n : take n l `prefix_of` take (S n) l.
Proof.
  exists (take 1 (skipn n l)). rewrite take_take_drop. by rewrite Nat.add_1_r.
Qed.

#[export] Instance tx_laws : StoreLaws tx_snap tx_holds tx_issued tx_log (rn_p tx_runner) 0 [] tx_dls.
Proof.
  split.
  - done.
  - apply tx_log_numbered.
  - unfold tx_holds, tx_issued. intros l w <-. lia.
  - intros l cp st fn w err w' l0. apply tx_unit_spec.
  - intros l v fn w err w' l0 H. pose proof (tx_unit_spec _ _ _ _ _ _ l0 H) as Hs. destruct err; [done|].
    destruct Hs as (w1 & ? & ? & ?). by eexists w1, _.
  - apply tx_Claim_spec.
  - intros * [= _ <-]. apply tx_frame_refl.
  - intros * [= _ <-]. apply tx_frame_refl.
  - intros * [= _ <-]. apply tx_frame_refl.
  - intros * [= _ <-]. apply tx_frame_refl.
  - intros * [= _ <-]. apply tx_frame_refl.
  - intros. apply tx_frame_refl.
  - intros * [= _ <-]. split; [|done]. split; [|done]. cbn. apply prefix_take_S.
  - apply tx_ReadAll_spec.
  - intros * [= <- <-]. split; [apply tx_frame_refl|]. by intros ds [= <-].
  - intros * [= _ <-]. split; [by split|done].
  - intros *. apply tx_letters_spec.
  - intros *. apply tx_letters_spec.
  - intros h c ev w err w' l0 Hh. change (Some record_position = Some h) in Hh. injection Hh as <-.
    unfold record_position. destruct ev as [ev|]; [|intros [= <- <-]; by split].
    destruct (negb (tx_fixed w) && _); intros [= <- <-]; (split; [by split|done]).
  - intros f w w' l0 Hf. change (Some clear_model = Some f) in Hf. injection Hf as <-.
    intros [= <-]. split; [by split|done].
Qed.

