(* ===== verification/AutoTypes.v ===== *)
(** * Automations: data ([automation/scheduler.go], [store.go], [automation.go])

    What the runner, its scheduler and the store exchange.  The type of an
    item is a parameter. *)
From S2P Require Import Prelude Core.

(** ** [scheduler.go] *)
Record ClaimRequest : Type := mkClaimRequest {
  cr_Segments : list string;
  cr_MaxPerKey : Z;
  cr_Lease : duration;
}.

Record Claimed (T : Type) : Type := mkClaimed { cl_Segment : string; cl_Items : list T }.
Arguments mkClaimed {T}. Arguments cl_Segment {T}. Arguments cl_Items {T}.

(** [Segment]; named apart from the file of that name. *)
Record Candidate : Type := mkCandidate { cd_Key : string; cd_Group : string }.

Record Item (T : Type) : Type := mkItem { it_Key : string; it_Value : T; it_Deadline : time }.
Arguments mkItem {T}. Arguments it_Key {T}. Arguments it_Value {T}. Arguments it_Deadline {T}.

Record Batch (T : Type) : Type := mkBatch { ba_Key : string; ba_Items : list (Item T) }.
Arguments mkBatch {T}. Arguments ba_Key {T}. Arguments ba_Items {T}.

(** [OutcomeKind] and [Outcome]: the fields a kind does not use are its
    arguments. *)
Inductive Outcome : Type :=
| Done
| Failed (err : error)
| DeferredOutcome (until : time).

(** ** [store.go] *)
Record SegmentLease : Type := mkSegmentLease { sl_Name : string; sl_Key : string; sl_Owner : string; sl_Epoch : Z }.

#[export] Instance SegmentLease_eq_dec : EqDecision SegmentLease.
Proof. solve_decision. Defined.

Record ReleaseRequest : Type := mkRelease { re_Lease : SegmentLease; re_DeferFor : duration; re_Served : bool }.

Record AcquireResult : Type := mkAcquired { ac_Granted : list SegmentLease; ac_Active : Z; ac_Eligible : Z }.

Record SegmentState : Type := mkSegmentState { sg_Key : string; sg_Group : string; sg_Owner : string; sg_PausedFor : duration }.

(** ** [automation.go] *)
Inductive Phase : Type := Starting | Waiting | Idle | Working | Stalled | Paused.

#[export] Instance Phase_eq_dec : EqDecision Phase.
Proof. solve_decision. Defined.

Definition Phase_String (p : Phase) : string :=
  match p with
  | Starting => "starting" | Waiting => "waiting" | Idle => "idle"
  | Working => "working" | Stalled => "stalled" | Paused => "paused"
  end.

Record Status : Type := mkStatus {
  st_Owner : string;
  st_Phase : Phase;
  st_WaitingFor : string;
  st_Processed : Z;
  st_Failed : Z;
  st_Deferred : Z;
  st_LastError : string;
  st_Age : duration;
}.

Record Summary : Type := mkSummary {
  su_Processed : Z;
  su_Failed : Z;
  su_Deferred : Z;
  su_NextEligible : time;
}.

Definition Summary_add (s o : Summary) : Summary :=
  mkSummary (su_Processed s + su_Processed o) (su_Failed s + su_Failed o) (su_Deferred s + su_Deferred o)
    (if negb (time_IsZero (su_NextEligible o)) &&
        (time_IsZero (su_NextEligible s) || time_Before (su_NextEligible o) (su_NextEligible s))
     then su_NextEligible o else su_NextEligible s).
