(* ===== verification/AutoStore.v ===== *)
(** * The in-memory automation store ([memory/automation_store.go])

    One Record per struct and one Definition per method.  Every method holds
    the mutex, so each is one step; [now] is the [time.Now] it reads.  Rows
    are shared by pointer only under their own key, so they are values here.
    Theorems: what [Acquire] grants and in which order, and that a segment
    lease is exclusive and fenced. *)
From S2P Require Import Prelude Core AutoTypes.

Record localRow : Type := mkRow {
  lr_group : string;
  lr_owner : string;
  lr_epoch : Z;
  lr_leaseUntil : time;
  lr_pausedTill : time;
  lr_firstSeen : time;
  lr_lastServed : time;
}.

Record published : Type := mkPublished { pu_status : Status; pu_at : time; pu_ttl : duration }.

Record AutomationStore : Type := mkStore {
  au_rows : gmap string (gmap string localRow);
  au_paused : gmap string bool;
  au_instances : gmap string (gmap string published);
}.

Definition NewAutomationStore : AutomationStore := mkStore ∅ ∅ ∅.

Definition rows_of (name : string) (s : AutomationStore) : gmap string localRow := default ∅ (au_rows s !! name).
Definition set_rows (name : string) (rs : gmap string localRow) (s : AutomationStore) : AutomationStore :=
  mkStore (<[name := rs]> (au_rows s)) (au_paused s) (au_instances s).

(** [row]: the row of [key], created at first sight. *)
Definition new_row (now : time) : localRow := mkRow "" "" 0 time_zero time_zero now time_zero.
Definition row (key : string) (now : time) (rs : gmap string localRow) : localRow := default (new_row now) (rs !! key).

Definition waited (r : localRow) : time := if time_IsZero (lr_lastServed r) then lr_firstSeen r else lr_lastServed r.

Definition heldAt (r : localRow) (now : time) : bool :=
  negb (bool_decide (lr_owner r = "")) && time_After (lr_leaseUntil r) now.

Definition set_group (g : string) (r : localRow) : localRow :=
  mkRow g (lr_owner r) (lr_epoch r) (lr_leaseUntil r) (lr_pausedTill r) (lr_firstSeen r) (lr_lastServed r).
Definition set_lease (owner : string) (epoch : Z) (until : time) (r : localRow) : localRow :=
  mkRow (lr_group r) owner epoch until (lr_pausedTill r) (lr_firstSeen r) (lr_lastServed r).
Definition set_paused_till (t : time) (r : localRow) : localRow :=
  mkRow (lr_group r) (lr_owner r) (lr_epoch r) (lr_leaseUntil r) t (lr_firstSeen r) (lr_lastServed r).
Definition set_served (t : time) (r : localRow) : localRow :=
  mkRow (lr_group r) (lr_owner r) (lr_epoch r) (lr_leaseUntil r) (lr_pausedTill r) (lr_firstSeen r) t.

(** ** [Acquire] *)

(** The candidates, each once, and the rows with all of them recorded. *)
Fixpoint see (now : time) (candidates : list Candidate) (seen : list string) (rs : gmap string localRow)
    : list string * gmap string localRow :=
  match candidates with
  | [] => ([], rs)
  | c :: candidates =>
    let k := cd_Key c in
    if bool_decide (k ∈ seen) then see now candidates seen rs
    else
      let r := row k now rs in
      let r := if bool_decide (cd_Group c = "") then r else set_group (cd_Group c) r in
      let '(ks, rs) := see now candidates (k :: seen) (<[k := r]> rs) in
      (k :: ks, rs)
  end.

Section order.
(** The candidates with their rows, in the order they were given. *)
Context (now : time) (cands : list (string * localRow)).

Notation cand := (string * localRow)%type.

Definition byGroup (g : string) : list cand := bfilter (λ c, bool_decide (lr_group c.2 = g)) cands.

Definition latest_served (g : string) : option time :=
  foldl (λ t c, let ls := lr_lastServed c.2 in
                if time_IsZero ls then t
                else match t with
                     | None => Some ls
                     | Some t0 => if time_After ls t0 then Some ls else t
                     end) None (byGroup g).

Definition first_seen (g : string) : time :=
  match byGroup g with
  | [] => time_zero
  | c :: cs => foldl (λ t c, if time_Before (lr_firstSeen c.2) t then lr_firstSeen c.2 else t) (lr_firstSeen c.2) cs
  end.

Definition groupTurn (g : string) : time := default (first_seen g) (latest_served g).

Definition turn_before (a b : cand) : bool :=
  if negb (waited a.2 =? waited b.2) then time_Before (waited a.2) (waited b.2) else string_less a.1 b.1.

Fixpoint position_of (k : string) (cs : list cand) : Z :=
  match cs with
  | [] => 0
  | c :: cs => if bool_decide (c.1 = k) then 0 else 1 + position_of k cs
  end.

Definition rank (c : cand) : Z := position_of c.1 (sort_slice turn_before (byGroup (lr_group c.2))).

Definition cand_before (a b : cand) : bool :=
  if negb (rank a =? rank b) then rank a <? rank b
  else
    let ga := lr_group a.2 in let gb := lr_group b.2 in
    if negb (groupTurn ga =? groupTurn gb) then time_Before (groupTurn ga) (groupTurn gb)
    else if negb (bool_decide (ga = gb)) then string_less ga gb
    else string_less a.1 b.1.

Definition sorted_cands : list cand := sort_slice cand_before cands.
End order.

Definition paused_at (now : time) (r : localRow) : bool := time_After (lr_pausedTill r) now.

(** The loop that grants. *)
Fixpoint grant_all (now : time) (name owner : string) (max : Z) (ttl : duration)
    (cands : list (string * localRow)) (res : AcquireResult) (rs : gmap string localRow)
    : AcquireResult * gmap string localRow :=
  match cands with
  | [] => (res, rs)
  | (key, r) :: cands =>
    if paused_at now r then grant_all now name owner max ttl cands res rs
    else
      let res := mkAcquired (ac_Granted res) (ac_Active res + 1) (ac_Eligible res) in
      if heldAt r now then grant_all now name owner max ttl cands res rs
      else if zlen (ac_Granted res) <? max then
        let r := set_lease owner (u64 (lr_epoch r + 1)) (time_Add now ttl) r in
        grant_all now name owner max ttl cands
          (mkAcquired (ac_Granted res ++ [mkSegmentLease name key owner (lr_epoch r)]) (ac_Active res) (ac_Eligible res))
          (<[key := r]> rs)
      else grant_all now name owner max ttl cands
             (mkAcquired (ac_Granted res) (ac_Active res) (ac_Eligible res + 1)) rs
  end.

Definition with_rows (keys : list string) (rs : gmap string localRow) : list (string * localRow) :=
  omap (λ k, (λ r, (k, r)) <$> rs !! k) keys.

Definition Acquire (now : time) (name owner : string) (candidates : list Candidate) (max : Z) (ttl : duration)
    (s : AutomationStore) : AcquireResult * AutomationStore :=
  let '(keys, rs) := see now candidates [] (rows_of name s) in
  let cands := sorted_cands (with_rows keys rs) in
  let '(res, rs) := grant_all now name owner max ttl cands (mkAcquired [] 0 0) rs in
  (res, set_rows name rs s).

(** ** The other methods *)
Definition holds_epoch (l : SegmentLease) (r : localRow) : bool :=
  bool_decide (lr_owner r = sl_Owner l) && (lr_epoch r =? sl_Epoch l).

Definition row_of (name key : string) (s : AutomationStore) : option localRow := rows_of name s !! key.

Fixpoint Renew (now : time) (held : list SegmentLease) (ttl : duration) (s : AutomationStore)
    : list SegmentLease * AutomationStore :=
  match held with
  | [] => ([], s)
  | l :: held =>
    match row_of (sl_Name l) (sl_Key l) s with
    | Some r =>
      if holds_epoch l r && time_After (lr_leaseUntil r) now then
        let r := set_lease (lr_owner r) (lr_epoch r) (time_Add now ttl) r in
        Renew now held ttl (set_rows (sl_Name l) (<[sl_Key l := r]> (rows_of (sl_Name l) s)) s)
      else let '(lost, s) := Renew now held ttl s in (l :: lost, s)
    | None => let '(lost, s) := Renew now held ttl s in (l :: lost, s)
    end
  end.

Definition later_pause (t : time) (r : localRow) : localRow :=
  if time_After t (lr_pausedTill r) then set_paused_till t r else r.

Definition released (now : time) (rr : ReleaseRequest) (r : localRow) : localRow :=
  let r := set_lease "" (lr_epoch r) time_zero r in
  let r := if 0 <? re_DeferFor rr then later_pause (time_Add now (re_DeferFor rr)) r else r in
  if re_Served rr then set_served now r else r.

Fixpoint Release (now : time) (rel : list ReleaseRequest) (s : AutomationStore) : list SegmentLease * AutomationStore :=
  match rel with
  | [] => ([], s)
  | rr :: rel =>
    let l := re_Lease rr in
    match row_of (sl_Name l) (sl_Key l) s with
    | Some r =>
      if holds_epoch l r then
        Release now rel (set_rows (sl_Name l) (<[sl_Key l := released now rr r]> (rows_of (sl_Name l) s)) s)
      else let '(lost, s) := Release now rel s in (l :: lost, s)
    | None => let '(lost, s) := Release now rel s in (l :: lost, s)
    end
  end.

Definition Defer (now : time) (name key : string) (d : duration) (s : AutomationStore) : AutomationStore :=
  let rs := rows_of name s in
  set_rows name (<[key := later_pause (time_Add now d) (row key now rs)]> rs) s.

Definition DeferredFor (now : time) (name key : string) (s : AutomationStore) : duration :=
  match row_of name key s with
  | None => 0
  | Some r => Z.max 0 (time_Sub (lr_pausedTill r) now)
  end.

Definition SetPaused (name : string) (paused : bool) (s : AutomationStore) : AutomationStore :=
  mkStore (au_rows s) (<[name := paused]> (au_paused s)) (au_instances s).

Definition Paused_ (name : string) (s : AutomationStore) : bool := default false (au_paused s !! name).

Definition with_age (age : duration) (st : Status) : Status :=
  AutoTypes.mkStatus (st_Owner st) (st_Phase st) (st_WaitingFor st) (st_Processed st) (st_Failed st) (st_Deferred st)
    (st_LastError st) age.

Definition SaveStatus (now : time) (name : string) (status : Status) (ttl : duration) (s : AutomationStore) : AutomationStore :=
  let inst := default ∅ (au_instances s !! name) in
  let inst := filter (λ '(_, p), time_Sub now (pu_at p) ≤ pu_ttl p) inst in
  let inst := <[st_Owner status := mkPublished (with_age 0 status) now ttl]> inst in
  mkStore (au_rows s) (au_paused s) (<[name := inst]> (au_instances s)).

Definition LoadStatuses (now : time) (name : string) (s : AutomationStore) : list Status :=
  sort_slice (λ a b, string_less (st_Owner a) (st_Owner b))
    (omap (λ '(_, p), let age := time_Sub now (pu_at p) in
                      if age <=? pu_ttl p then Some (with_age age (pu_status p)) else None)
       (map_to_list (default ∅ (au_instances s !! name)))).

Definition LoadSegments (now : time) (name : string) (s : AutomationStore) : list SegmentState :=
  sort_slice (λ a b, string_less (sg_Key a) (sg_Key b))
    ((λ '(key, r), mkSegmentState key (lr_group r) (if heldAt r now then lr_owner r else "")
                     (Z.max 0 (time_Sub (lr_pausedTill r) now))) <$> map_to_list (rows_of name s)).

(** ** Facts *)
Lemma row_of_set name key name' key' r s :
  row_of name key (set_rows name' (<[key' := r]> (rows_of name' s)) s) =
  if decide (name = name' ∧ key = key') then Some r else row_of name key s.
Proof.
  unfold row_of, rows_of, set_rows; cbn. destruct (decide (name = name')) as [->|Hn].
  - rewrite lookup_insert_eq. cbn. destruct (decide (key = key')) as [->|Hk].
    + rewrite lookup_insert_eq. by rewrite decide_True.
    + rewrite lookup_insert_ne by done. rewrite decide_False by naive_solver. done.
  - rewrite lookup_insert_ne by done. rewrite decide_False by naive_solver. done.
Qed.

(** *** Recording the candidates *)
Lemma see_spec now cands seen rs ks rs' :
  see now cands seen rs = (ks, rs') →
  NoDup ks ∧
  (∀ k, k ∈ ks ↔ k ∉ seen ∧ ∃ c, c ∈ cands ∧ cd_Key c = k) ∧
  (∀ k, k ∈ ks → ∃ g, rs' !! k = Some (set_group g (row k now rs))) ∧
  (∀ k, k ∉ ks → rs' !! k = rs !! k).
Proof.
  revert seen rs ks rs'. induction cands as [|c cands IH]; intros seen rs ks rs'; cbn [see].
  { intros [= <- <-]. split_and!; [constructor| |by intros k ?%not_elem_of_nil|done].
    intros k. split; [by intros ?%not_elem_of_nil|]. intros (_ & c & Hc & _). by apply not_elem_of_nil in Hc. }
  case_bool_decide as Hseen.
  { intros H. destruct (IH _ _ _ _ H) as (Hnd & Hin & Hg & Hrs). split_and!; [done| |done..].
    intros k. rewrite Hin. set_solver. }
  set (r := if bool_decide (cd_Group c = "") then _ else _).
  destruct (see now cands (cd_Key c :: seen) _) as [ks1 rs1] eqn:Hsee. intros [= <- <-].
  destruct (IH _ _ _ _ Hsee) as (Hnd & Hin & Hg & Hrs).
  assert (cd_Key c ∉ ks1) as Hnin by (rewrite Hin; set_solver).
  split_and!.
  - by constructor.
  - intros k. rewrite elem_of_cons, Hin. destruct (decide (k = cd_Key c)) as [->|Hk]; set_solver.
  - intros k [->|Hk]%elem_of_cons.
    + rewrite Hrs, lookup_insert_eq by done. unfold r. case_bool_decide; [|by eexists].
      exists (lr_group (row (cd_Key c) now rs)). by destruct (row (cd_Key c) now rs).
    + destruct (Hg k Hk) as [g ->]. exists g. f_equal. f_equal. unfold row.
      rewrite lookup_insert_ne; [done|]. set_solver.
  - intros k [Hk1 Hk2]%not_elem_of_cons. rewrite Hrs by done. by rewrite lookup_insert_ne by done.
Qed.

Lemma with_rows_keys keys rs :
  (∀ k, k ∈ keys → is_Some (rs !! k)) → (with_rows keys rs).*1 = keys.
Proof.
  intros H. induction keys as [|k keys IH]; [done|]. unfold with_rows; cbn [omap list_omap].
  destruct (H k) as [r ->]; [constructor|]. cbn. f_equal. apply IH. intros k' Hk'. apply H. by constructor.
Qed.

Lemma elem_of_with_rows keys rs k r : (k, r) ∈ with_rows keys rs ↔ k ∈ keys ∧ rs !! k = Some r.
Proof.
  unfold with_rows. rewrite list_elem_of_omap. split.
  - intros (k' & Hk & Hr). destruct (rs !! k') eqn:Hk'; by simplify_eq/=.
  - intros [Hk Hr]. exists k. by rewrite Hr.
Qed.

(** *** The loop that grants *)
Definition open_at (now : time) (c : string * localRow) : bool := negb (paused_at now c.2).
Definition free_at (now : time) (c : string * localRow) : bool := open_at now c && negb (heldAt c.2 now).

Definition grant_row (now : time) (owner : string) (ttl : duration) (r : localRow) : localRow :=
  set_lease owner (u64 (lr_epoch r + 1)) (time_Add now ttl) r.
Definition grant_lease (name owner : string) (c : string * localRow) : SegmentLease :=
  mkSegmentLease name c.1 owner (u64 (lr_epoch c.2 + 1)).

Lemma grant_all_spec now name owner max ttl cands res rs res' rs' :
  NoDup cands.*1 → grant_all now name owner max ttl cands res rs = (res', rs') →
  let free := bfilter (free_at now) cands in
  let n := Z.to_nat (max - zlen (ac_Granted res)) in
  ac_Granted res' = ac_Granted res ++ (grant_lease name owner <$> take n free) ∧
  ac_Active res' = ac_Active res + zlen (bfilter (open_at now) cands) ∧
  ac_Eligible res' = ac_Eligible res + zlen (drop n free) ∧
  (∀ k r, (k, r) ∈ take n free → rs' !! k = Some (grant_row now owner ttl r)) ∧
  (∀ k, k ∉ (take n free).*1 → rs' !! k = rs !! k).
Proof.
  revert res rs. induction cands as [|[k r] cands IH]; intros res rs Hnd; cbn [grant_all].
  { intros [= <- <-]. cbn. rewrite take_nil, drop_nil. change (zlen []) with 0. rewrite app_nil_r, !Z.add_0_r.
    split_and!; try done. by intros k r ?%not_elem_of_nil. }
  cbn [fmap list_fmap] in Hnd. apply NoDup_cons in Hnd as [Hk Hnd].
  cbn [bfilter]. change (open_at now (k, r)) with (negb (paused_at now r)).
  change (free_at now (k, r)) with (negb (paused_at now r) && negb (heldAt r now)).
  destruct (paused_at now r); cbn [negb andb].
  { intros H. exact (IH _ _ Hnd H). }
  destruct (heldAt r now); cbn [negb andb].
  { intros H. destruct (IH _ _ Hnd H) as (Hg & Ha & He & Hin & Hout). cbn [ac_Granted ac_Active ac_Eligible] in *.
    rewrite zlen_cons. split_and!; try done. lia. }
  cbn [ac_Granted ac_Active ac_Eligible lr_epoch set_lease].
  destruct (Z.ltb_spec (zlen (ac_Granted res)) max) as [Hlt|Hge]; intros H.
  - destruct (IH _ _ Hnd H) as (Hg & Ha & He & Hin & Hout). cbn [ac_Granted ac_Active ac_Eligible lr_epoch set_lease] in *.
    rewrite zlen_snoc in *. replace (Z.to_nat (max - zlen (ac_Granted res)))
      with (S (Z.to_nat (max - (zlen (ac_Granted res) + 1)))) by lia.
    set (n := Z.to_nat (max - (zlen (ac_Granted res) + 1))) in *. cbn [take drop fmap list_fmap].
    split_and!; [by rewrite Hg, <- app_assoc|rewrite zlen_cons; lia|lia|..].
    + intros k' r' [[= -> ->]|Hin']%elem_of_cons; [|by apply Hin]. rewrite Hout; [by rewrite lookup_insert_eq|].
      intros ([k' r'] & -> & Hkr)%list_elem_of_fmap. apply Hk, list_elem_of_fmap. exists (k', r'). split; [done|].
      eapply elem_of_take_sub in Hkr. by apply elem_of_bfilter in Hkr as [_ ?].
    + intros k' [Hne Hn]%not_elem_of_cons. rewrite Hout by done. by rewrite lookup_insert_ne by done.
  - destruct (IH _ _ Hnd H) as (Hg & Ha & He & Hin & Hout). cbn [ac_Granted ac_Active ac_Eligible] in *.
    replace (Z.to_nat (max - zlen (ac_Granted res))) with 0%nat in * by lia.
    rewrite !take_0, !drop_0, ?zlen_cons in *. split_and!; try done; lia.
Qed.

(** *** The order *)
Lemma weak_turn : weak_order turn_before.
Proof. apply (weak_lex_Z (λ c : string * localRow, waited c.2)), weak_string. Qed.

Lemma weak_cand cands : weak_order (cand_before cands).
Proof.
  apply (weak_lex_Z (rank cands)), (weak_lex_Z (λ c : string * localRow, groupTurn cands (lr_group c.2))),
    (weak_lex_string (λ c : string * localRow, lr_group c.2)), weak_string.
Qed.

Lemma cand_before_rank cands a b : cand_before cands b a = false → rank cands a ≤ rank cands b.
Proof. unfold cand_before. destruct (Z.eqb_spec (rank cands b) (rank cands a)); cbn; [lia|]. rewrite Z.ltb_ge. lia. Qed.

Lemma turn_before_waited a b : turn_before b a = false → waited a.2 ≤ waited b.2.
Proof. unfold turn_before, time_Before. destruct (Z.eqb_spec (waited b.2) (waited a.2)); cbn; [lia|]. rewrite Z.ltb_ge. lia. Qed.

Lemma position_sorted (R : string * localRow → string * localRow → Prop) cs a b :
  StronglySorted R cs → NoDup cs.*1 → a ∈ cs → b ∈ cs → position_of a.1 cs ≤ position_of b.1 cs → a = b ∨ R a b.
Proof.
  assert (∀ k cs, 0 ≤ position_of k cs) as Hpos.
  { intros k l. induction l as [|x l IH]; cbn; [lia|]. case_bool_decide; lia. }
  induction 1 as [|c cs Hs IH Hc]; cbn [fmap list_fmap position_of]; [by intros _ ?%not_elem_of_nil|].
  intros [Hn Hnd]%NoDup_cons. rewrite !elem_of_cons. rewrite Forall_forall in Hc.
  assert (∀ x, x ∈ cs → c.1 ≠ x.1) as Hne.
  { intros x Hx Heq. apply Hn, list_elem_of_fmap. by exists x. }
  intros [->|Ha] [->|Hb] Hle; [by left|right; auto| |].
  - rewrite (bool_decide_false (c.1 = a.1)), bool_decide_true in Hle by auto. specialize (Hpos a.1 cs). lia.
  - rewrite !bool_decide_false in Hle by auto. apply IH; auto. lia.
Qed.

Lemma StronglySorted_take_drop {A} (R : A → A → Prop) n l a b :
  StronglySorted R l → a ∈ take n l → b ∈ drop n l → R a b.
Proof.
  intros Hs. rewrite <- (take_drop n l) in Hs. intros Ha Hb. apply StronglySorted_app in Hs as (H & _). by apply H.
Qed.

Lemma rank_waited cands a b :
  NoDup cands.*1 → a ∈ cands → b ∈ cands → lr_group a.2 = lr_group b.2 → rank cands a ≤ rank cands b →
  waited a.2 ≤ waited b.2.
Proof.
  intros Hnd Ha Hb Hg. unfold rank. rewrite Hg. intros Hle.
  destruct (position_sorted _ _ a b (sort_slice_weak turn_before (byGroup cands (lr_group b.2)) weak_turn)) as [->|H].
  - rewrite (sort_slice_perm turn_before). unfold byGroup. revert Hnd. clear. induction cands as [|c cands IH]; [done|].
    cbn [bfilter fmap list_fmap]. intros [Hn Hnd]%NoDup_cons. destruct (bool_decide _); [|auto].
    cbn. constructor; [|auto]. intros (x & Heq & [_ Hx]%elem_of_bfilter)%list_elem_of_fmap.
    apply Hn, list_elem_of_fmap. by exists x.
  - apply elem_of_sort_slice, elem_of_bfilter. split; [by apply bool_decide_eq_true|done].
  - apply elem_of_sort_slice, elem_of_bfilter. split; [by apply bool_decide_eq_true|done].
  - done.
  - done.
  - by apply turn_before_waited.
Qed.


(** ** Histories *)
Inductive call : Type :=
| CAcquire (now : time) (name owner : string) (candidates : list Candidate) (max : Z) (ttl : duration)
| CRenew (now : time) (held : list SegmentLease) (ttl : duration)
| CRelease (now : time) (rel : list ReleaseRequest)
| CDefer (now : time) (name key : string) (d : duration)
| CSetPaused (name : string) (paused : bool)
| CSaveStatus (now : time) (name : string) (status : Status) (ttl : duration).

Definition exec (c : call) (s : AutomationStore) : AutomationStore :=
  match c with
  | CAcquire now name owner candidates max ttl => (Acquire now name owner candidates max ttl s).2
  | CRenew now held ttl => (Renew now held ttl s).2
  | CRelease now rel => (Release now rel s).2
  | CDefer now name key d => Defer now name key d s
  | CSetPaused name paused => SetPaused name paused s
  | CSaveStatus now name status ttl => SaveStatus now name status ttl s
  end.

Definition run (cs : list call) (s : AutomationStore) : AutomationStore := foldl (λ s c, exec c s) s cs.

Definition same_lease (r r' : localRow) : Prop :=
  lr_owner r' = lr_owner r ∧ lr_epoch r' = lr_epoch r ∧ lr_leaseUntil r' = lr_leaseUntil r.

Definition on_key (name key : string) (l : SegmentLease) : Prop := sl_Name l = name ∧ sl_Key l = key.

(** What one call can do to the lease of a row. *)
Definition row_change (name key : string) (c : call) (r r' : localRow) : Prop :=
  same_lease r r' ∨
  match c with
  | CAcquire now name' owner _ _ ttl =>
    name' = name ∧ heldAt r now = false ∧ lr_owner r' = owner ∧ lr_epoch r' = u64 (lr_epoch r + 1)
  | CRenew now held ttl =>
    lr_owner r' = lr_owner r ∧ lr_epoch r' = lr_epoch r ∧ ∃ l, l ∈ held ∧ on_key name key l ∧ holds_epoch l r = true
  | CRelease now rel =>
    lr_owner r' = "" ∧ lr_epoch r' = lr_epoch r ∧
    ∃ rr, rr ∈ rel ∧ on_key name key (re_Lease rr) ∧ holds_epoch (re_Lease rr) r = true
  | _ => False
  end.

Lemma holds_epoch_spec l r : holds_epoch l r = true ↔ lr_owner r = sl_Owner l ∧ lr_epoch r = sl_Epoch l.
Proof. unfold holds_epoch. by rewrite andb_true_iff, bool_decide_eq_true, Z.eqb_eq. Qed.

Lemma Renew_row now held ttl s name key r :
  row_of name key s = Some r →
  ∃ r', row_of name key (Renew now held ttl s).2 = Some r' ∧ row_change name key (CRenew now held ttl) r r'.
Proof.
  revert s r. induction held as [|l held IH]; intros s r Hr; cbn [Renew]; [exists r; split; [done|by left]|].
  assert (∀ r', row_change name key (CRenew now held ttl) r r' → row_change name key (CRenew now (l :: held) ttl) r r') as Hmono.
  { intros r' [?|(? & ? & l' & Hl' & ?)]; [by left|right]. split_and!; [done..|]. exists l'. split; [by constructor|done]. }
  destruct (row_of (sl_Name l) (sl_Key l) s) as [rl|] eqn:Hl.
  2: { destruct (IH _ _ Hr) as (r' & ? & ?). destruct (Renew now held ttl s); cbn in *. eauto. }
  destruct (holds_epoch l rl && _) eqn:Hh.
  2: { destruct (IH _ _ Hr) as (r' & ? & ?). destruct (Renew now held ttl s); cbn in *. eauto. }
  apply andb_true_iff in Hh as [Hh _]. set (rl' := set_lease _ _ _ rl).
  destruct (decide (name = sl_Name l ∧ key = sl_Key l)) as [[-> ->]|Hne].
  - assert (rl = r) as -> by congruence. destruct (IH (set_rows (sl_Name l) (<[sl_Key l:=rl']> (rows_of (sl_Name l) s)) s) rl') as (r' & Hr' & Hch).
    { rewrite row_of_set. by rewrite decide_True. }
    exists r'. split; [done|]. right. destruct Hch as [(H1 & H2 & H3)|(H1 & H2 & _)]; rewrite H1, H2;
      (split_and!; [done..|]; exists l; split_and!; [by constructor|by split|done]).
  - destruct (IH (set_rows (sl_Name l) (<[sl_Key l:=rl']> (rows_of (sl_Name l) s)) s) r) as (r' & Hr' & Hch).
    { rewrite row_of_set. by rewrite decide_False. }
    eauto.
Qed.

Lemma Release_row now rel s name key r :
  row_of name key s = Some r →
  ∃ r', row_of name key (Release now rel s).2 = Some r' ∧ row_change name key (CRelease now rel) r r'.
Proof.
  revert s r. induction rel as [|rr rel IH]; intros s r Hr; cbn [Release]; [exists r; split; [done|by left]|].
  set (l := re_Lease rr).
  assert (∀ r', row_change name key (CRelease now rel) r r' → row_change name key (CRelease now (rr :: rel)) r r') as Hmono.
  { intros r' [?|(? & ? & l' & Hl' & ?)]; [by left|right]. split_and!; [done..|]. exists l'. split; [by constructor|done]. }
  destruct (row_of (sl_Name l) (sl_Key l) s) as [rl|] eqn:Hl.
  2: { destruct (IH _ _ Hr) as (r' & ? & ?). destruct (Release now rel s); cbn in *. eauto. }
  destruct (holds_epoch l rl) eqn:Hh.
  2: { destruct (IH _ _ Hr) as (r' & ? & ?). destruct (Release now rel s); cbn in *. eauto. }
  set (rl' := released now rr rl).
  destruct (decide (name = sl_Name l ∧ key = sl_Key l)) as [[-> ->]|Hne].
  - assert (rl = r) as -> by congruence. destruct (IH (set_rows (sl_Name l) (<[sl_Key l:=rl']> (rows_of (sl_Name l) s)) s) rl') as (r' & Hr' & Hch).
    { rewrite row_of_set. by rewrite decide_True. }
    exists r'. split; [done|]. right.
    assert (lr_owner rl' = "" ∧ lr_epoch rl' = lr_epoch r) as [Ho He].
    { unfold rl', released, later_pause. destruct (0 <? _), (re_Served rr); try (destruct (time_After _ _)); done. }
    assert (lr_owner r' = "" ∧ lr_epoch r' = lr_epoch r) as [? ?].
    { destruct Hch as [(-> & -> & _)|(-> & -> & _)]; by rewrite ?Ho, ?He. }
    split_and!; [done..|]. exists rr. split_and!; [by constructor|by split|done].
  - destruct (IH (set_rows (sl_Name l) (<[sl_Key l:=rl']> (rows_of (sl_Name l) s)) s) r) as (r' & Hr' & Hch).
    { rewrite row_of_set. by rewrite decide_False. }
    eauto.
Qed.

Lemma auto_exec_row c name key s r :
  row_of name key s = Some r →
  ∃ r', row_of name key (exec c s) = Some r' ∧ row_change name key c r r'.
Proof.
  intros Hr. destruct c as [now name' owner cands max ttl|now held ttl|now rel|now name' key' d|name' p|now name' st ttl]; cbn [exec].
  - destruct (Acquire now name' owner cands max ttl s) as [res s'] eqn:Hac. cbn.
    unfold Acquire in Hac. destruct (see now cands [] (rows_of name' s)) as [keys rs] eqn:Hsee.
    destruct (see_spec _ _ _ _ _ _ Hsee) as (Hnd & Hin & Hg & Hout).
    set (order := sorted_cands (with_rows keys rs)) in *. destruct (grant_all _ _ _ _ _ order _ rs) as [res1 rs1] eqn:Hgr.
    injection Hac as <- <-. assert (order ≡ₚ with_rows keys rs) as Hperm by apply sort_slice_perm.
    assert (NoDup order.*1) as Hndo.
    { rewrite Hperm, with_rows_keys; [done|]. intros k Hk. destruct (Hg k Hk) as [g ->]. by eexists. }
    destruct (grant_all_spec _ _ _ _ _ _ _ _ _ _ Hndo Hgr) as (_ & _ & _ & H4 & H5). cbn [ac_Granted] in *.
    unfold row_of, rows_of, set_rows; cbn. destruct (decide (name' = name)) as [->|Hne].
    2: { rewrite lookup_insert_ne by done. exists r. split; [done|by left]. }
    rewrite lookup_insert_eq. cbn. unfold row_of in Hr.
    assert (∃ rk, rs !! key = Some rk ∧ same_lease r rk) as (rk & Hrk & Hsame).
    { destruct (decide (key ∈ keys)) as [Hk|Hk].
      - destruct (Hg key Hk) as [g ->]. eexists. split; [done|]. unfold row. by rewrite Hr.
      - rewrite Hout by done. by exists r. }
    set (granted := take _ _) in *.
    destruct (decide (key ∈ granted.*1)) as [Hk|Hk].
    + apply list_elem_of_fmap in Hk as ([k rk'] & Hkey & Hk). cbn in Hkey. subst k. exists (grant_row now owner ttl rk').
      split; [by apply H4|]. right. apply elem_of_take_sub, elem_of_bfilter in Hk as [Hfree Hk].
      rewrite Hperm, elem_of_with_rows in Hk. destruct Hk as [_ Hk]. assert (rk' = rk) as -> by congruence.
      destruct Hsame as (Ho & He & Hu). apply andb_true_iff in Hfree as [_ Hfree%negb_true_iff].
      split_and!; [done| |done|by rewrite <- He]. unfold heldAt in *. by rewrite <- Ho, <- Hu.
    + rewrite H5 by done. exists rk. split; [done|by left].
  - by apply Renew_row.
  - by apply Release_row.
  - destruct (decide (name = name' ∧ key = key')) as [[-> ->]|Hne].
    + unfold Defer. rewrite row_of_set, decide_True by done. eexists. split; [done|]. left. unfold row.
      unfold row_of in Hr. rewrite Hr. cbn. unfold later_pause. by destruct (time_After _ _).
    + unfold Defer. rewrite row_of_set, decide_False by done. exists r. split; [done|by left].
  - exists r. split; [done|by left].
  - exists r. split; [done|by left].
Qed.

Lemma auto_row_change_epoch name key c r r' :
  row_change name key c r r' → 0 ≤ lr_epoch r → lr_epoch r + 1 < two64 →
  lr_epoch r ≤ lr_epoch r' ≤ lr_epoch r + 1 ∧
  (lr_epoch r' = lr_epoch r → lr_owner r' = lr_owner r ∨ lr_owner r' = "").
Proof.
  intros [(Ho & -> & _)|Hc] H0 Hb; [split; [lia|auto]|].
  destruct c; try done.
  - destruct Hc as (_ & _ & _ & ->). rewrite u64_small by (unfold is_u64; lia). split; lia.
  - destruct Hc as (Ho & -> & _). split; [lia|auto].
  - destruct Hc as (Ho & -> & _). split; [lia|auto].
Qed.

(** [l] was granted for this row, and is not current any more. *)
Definition lost (l : SegmentLease) (r : localRow) : Prop :=
  sl_Epoch l ≤ lr_epoch r ∧ holds_epoch l r = false.

Lemma lost_stays l name key c r r' :
  sl_Owner l ≠ "" → row_change name key c r r' → 0 ≤ lr_epoch r → lr_epoch r + 1 < two64 → lost l r → lost l r'.
Proof.
  intros Hown Hc H0 Hb [Hle Hnot]. destruct (auto_row_change_epoch _ _ _ _ _ Hc H0 Hb) as [He Ho]. split; [lia|].
  apply not_true_iff_false. rewrite holds_epoch_spec. apply not_true_iff_false in Hnot. rewrite holds_epoch_spec in Hnot.
  intros [H1 H2]. assert (lr_epoch r' = lr_epoch r) as Heq by lia. destruct (Ho Heq); apply Hnot; split; congruence.
Qed.

Lemma auto_run_rows cs name key s r :
  row_of name key s = Some r → 0 ≤ lr_epoch r → lr_epoch r + zlen cs < two64 →
  ∃ r', row_of name key (run cs s) = Some r' ∧ lr_epoch r ≤ lr_epoch r' ≤ lr_epoch r + zlen cs ∧
    ∀ l, sl_Owner l ≠ "" → lost l r → lost l r'.
Proof.
  revert s r. induction cs as [|c cs IH]; intros s r Hr H0 Hb.
  { change (zlen []) with 0 in *. exists r. split_and!; (done || lia). }
  rewrite zlen_cons in *. pose proof (zlen_nonneg cs). destruct (auto_exec_row c _ _ _ _ Hr) as (r1 & Hr1 & Hc).
  destruct (auto_row_change_epoch _ _ _ _ _ Hc H0 ltac:(lia)) as [He _].
  destruct (IH _ _ Hr1 ltac:(lia) ltac:(lia)) as (r' & Hr' & He' & Hlost). exists r'. split_and!; [done|lia|lia|].
  intros l Hl Hlo. apply Hlost; [done|]. eapply lost_stays; try done; lia.
Qed.

(** C30: A segment lease is exclusive and fenced.  While it is live, no call of
    anyone takes it away, and nobody else is granted the segment, until its
    holder releases it or it ends; and once it was superseded, no later call
    makes it valid again: Renew and Release report it lost and change nothing. *)
Theorem segment_lease_is_exclusive_and_fenced l s r cs1 cs2 :
  row_of (sl_Name l) (sl_Key l) s = Some r → holds_epoch l r = true → sl_Owner l ≠ "" →
  0 ≤ lr_epoch r → lr_epoch r + zlen cs1 + zlen cs2 < two64 →
  (∀ c, (∀ now rel rr, c = CRelease now rel → rr ∈ rel → re_Lease rr ≠ l) →
        (∀ now name owner cands max ttl, c = CAcquire now name owner cands max ttl → now < lr_leaseUntil r) →
        ∃ r', row_of (sl_Name l) (sl_Key l) (exec c s) = Some r' ∧ holds_epoch l r' = true) ∧
  (∀ r1, row_of (sl_Name l) (sl_Key l) (run cs1 s) = Some r1 → holds_epoch l r1 = false →
   let s' := run cs2 (run cs1 s) in
   ∀ now ttl d served, Renew now [l] ttl s' = ([l], s') ∧ Release now [mkRelease l d served] s' = ([l], s')).
Proof.
  intros Hr Hh Hown H0 Hb. pose proof (zlen_nonneg cs1). pose proof (zlen_nonneg cs2). split.
  - intros c Hrel Hacq. destruct (auto_exec_row c _ _ _ _ Hr) as (r' & Hr' & Hc). exists r'. split; [done|].
    apply holds_epoch_spec in Hh as [Ho He]. apply holds_epoch_spec.
    destruct Hc as [(-> & -> & _)|Hc]; [done|]. destruct c; try done.
    + destruct Hc as (_ & Hheld & _). exfalso. unfold heldAt in Hheld. rewrite Ho, bool_decide_false in Hheld by done.
      cbn in Hheld. apply Z.ltb_ge in Hheld. specialize (Hacq _ _ _ _ _ _ eq_refl). lia.
    + destruct Hc as (-> & -> & _). done.
    + destruct Hc as (_ & _ & rr & Hrr & [Hn Hk] & [Hro Hre]%holds_epoch_spec). exfalso.
      apply (Hrel _ _ _ eq_refl Hrr). destruct (re_Lease rr), l; cbn in *. congruence.
  - intros r1 Hr1 Hl s' now ttl d served. destruct (auto_run_rows cs1 _ _ _ _ Hr H0 ltac:(lia)) as (r1' & Hr1' & He1 & _).
    assert (r1' = r1) as -> by congruence. apply holds_epoch_spec in Hh as [_ He].
    destruct (auto_run_rows cs2 _ _ _ _ Hr1 ltac:(lia) ltac:(lia)) as (r2 & Hr2 & _ & Hlost).
    destruct (Hlost l Hown) as [_ Hno]; [split; [lia|done]|]. fold s' in Hr2.
    unfold Renew, Release. cbn [re_Lease]. rewrite Hr2, Hno. done.
Qed.

(** ** What a live lease means to its holder *)
Definition live_lease (now : time) (l : SegmentLease) (s : AutomationStore) : Prop :=
  ∃ r, row_of (sl_Name l) (sl_Key l) s = Some r ∧ holds_epoch l r = true ∧ now < lr_leaseUntil r.

Lemma Renew_live now held ttl s l :
  0 < ttl → live_lease now l s → (∀ l', l' ∈ held → sl_Key l' = sl_Key l → l' = l) →
  live_lease now l (Renew now held ttl s).2 ∧ sl_Key l ∉ sl_Key <$> (Renew now held ttl s).1.
Proof.
  intros Httl. revert s. induction held as [|l' held IH]; intros s Hlive Hl; cbn [Renew].
  { split; [done|apply not_elem_of_nil]. }
  assert (∀ l', l' ∈ held → sl_Key l' = sl_Key l → l' = l) as Hl' by (intros; apply Hl; [by constructor|done]).
  assert (sl_Key l' = sl_Key l → l' = l) as Hhd by (apply Hl; constructor).
  destruct Hlive as (r & Hr & Hh & Hlt). destruct (decide (sl_Key l' = sl_Key l)) as [Heq|Hne].
  - rewrite (Hhd Heq), Hr, Hh. unfold time_After. rewrite (proj2 (Z.ltb_lt _ _) Hlt). cbn [andb].
    apply IH; [|done]. eexists. rewrite row_of_set, decide_True by done. split_and!; [done|done|cbn; unfold time_Add; lia].
  - assert (∀ r', live_lease now l (set_rows (sl_Name l') (<[sl_Key l' := r']> (rows_of (sl_Name l') s)) s)) as Hset.
    { intros r'. exists r. rewrite row_of_set, decide_False by naive_solver. done. }
    destruct (row_of (sl_Name l') (sl_Key l') s) as [r'|]; [destruct (_ && _); [by apply IH|]|];
      (destruct (IH s ltac:(by exists r) Hl') as [H1 H2]; destruct (Renew now held ttl s) as [lost s']; cbn in *;
       split; [done|]; apply not_elem_of_cons; split; [congruence|done]).
Qed.

Lemma Acquire_live now owner cands max ttl s l :
  sl_Owner l ≠ "" → live_lease now l s →
  let '(res, s') := Acquire now (sl_Name l) owner cands max ttl s in
  live_lease now l s' ∧ sl_Key l ∉ sl_Key <$> ac_Granted res.
Proof.
  intros Hown (r & Hr & Hh & Hlt). unfold Acquire.
  destruct (see now cands [] (rows_of (sl_Name l) s)) as [keys rs] eqn:Hsee.
  destruct (see_spec _ _ _ _ _ _ Hsee) as (Hnd & Hin & Hg & Hout).
  set (order := sorted_cands (with_rows keys rs)). destruct (grant_all _ _ _ _ _ order _ rs) as [res1 rs1] eqn:Hgr.
  assert (order ≡ₚ with_rows keys rs) as Hperm by apply sort_slice_perm.
  assert (NoDup order.*1) as Hndo.
  { rewrite Hperm, with_rows_keys; [done|]. intros k Hk. destruct (Hg k Hk) as [g ->]. by eexists. }
  destruct (grant_all_spec _ _ _ _ _ _ _ _ _ _ Hndo Hgr) as (H1 & _ & _ & _ & H5). cbn [ac_Granted] in *.
  assert (∃ rk, rs !! sl_Key l = Some rk ∧ same_lease r rk) as (rk & Hrk & Hsame).
  { destruct (decide (sl_Key l ∈ keys)) as [Hk|Hk].
    - destruct (Hg _ Hk) as [g ->]. eexists. split; [done|]. unfold row. unfold row_of in Hr. by rewrite Hr.
    - rewrite Hout by done. by exists r. }
  destruct Hsame as (Ho & He & Hu). apply holds_epoch_spec in Hh as [Ho' He'].
  assert (heldAt rk now = true) as Hheld.
  { unfold heldAt. rewrite Ho, Ho', bool_decide_false by done. cbn. rewrite Hu. by apply Z.ltb_lt. }
  set (granted := take _ _) in *.
  assert (sl_Key l ∉ granted.*1) as Hng.
  { intros ([k rk'] & Hkey & Hk)%list_elem_of_fmap. cbn in Hkey. subst k.
    apply elem_of_take_sub, elem_of_bfilter in Hk as [Hfree Hk]. rewrite Hperm, elem_of_with_rows in Hk.
    destruct Hk as [_ Hk]. assert (rk' = rk) as -> by congruence.
    apply andb_true_iff in Hfree as [_ Hfree]. cbn in Hfree. by rewrite Hheld in Hfree. }
  split.
  - exists rk. split_and!; [|apply holds_epoch_spec; split; congruence|lia].
    unfold row_of, rows_of, set_rows; cbn. rewrite lookup_insert_eq. cbn. by rewrite H5.
  - rewrite H1. cbn. intros (l' & Hk & (c & -> & Hc)%list_elem_of_fmap)%list_elem_of_fmap. cbn in Hk.
    apply Hng, list_elem_of_fmap. by exists c.
Qed.

Lemma Acquire_max now name owner cands max ttl s :
  zlen (ac_Granted (Acquire now name owner cands max ttl s).1) ≤ Z.max 0 max.
Proof.
  unfold Acquire. destruct (see now cands [] (rows_of name s)) as [keys rs] eqn:Hsee.
  destruct (see_spec _ _ _ _ _ _ Hsee) as (Hnd & _ & Hg & _).
  set (order := sorted_cands (with_rows keys rs)). destruct (grant_all _ _ _ _ _ order _ rs) as [res1 rs1] eqn:Hgr.
  assert (order ≡ₚ with_rows keys rs) as Hperm by apply sort_slice_perm.
  assert (NoDup order.*1) as Hndo.
  { rewrite Hperm, with_rows_keys; [done|]. intros k Hk. destruct (Hg k Hk) as [g ->]. by eexists. }
  destruct (grant_all_spec _ _ _ _ _ _ _ _ _ _ Hndo Hgr) as (H1 & _). cbn in *. change (zlen []) with 0 in H1.
  rewrite H1. unfold zlen. rewrite length_fmap, length_take. lia.
Qed.
