(* ===== verification/SqlAutomation.v ===== *)
(** * The tables of the SQL automation stores

    What [schema.sql] of SQLite and of PostgreSQL declares for automations,
    and the statements both stores send, as functions on the rows they see.
    The two differ in how they keep an instant that may be unset, here [I]:
    SQLite keeps 0, PostgreSQL NULL.  The clock counts [ms] ticks per
    millisecond. *)
From S2P Require Import Prelude Core AutoTypes.

(** ** Rows *)

(** [automation_segments], by [(name, segment_key)] *)
Record auto_row (I : Type) : Type := mkAutoRow {
  ar_group_key : string;
  ar_owner : string;
  ar_epoch : Z;
  ar_lease_until : I;
  ar_paused_until : I;
  ar_first_seen : Z;
  ar_last_served : option Z;
}.
Arguments mkAutoRow {I}. Arguments ar_group_key {I}. Arguments ar_owner {I}. Arguments ar_epoch {I}.
Arguments ar_lease_until {I}. Arguments ar_paused_until {I}. Arguments ar_first_seen {I}. Arguments ar_last_served {I}.

(** [automation_instances], by [(name, owner)] *)
Record auto_instance : Type := mkAutoInstance {
  ai_phase : Z;
  ai_waiting_for : string;
  ai_processed : Z;
  ai_failed : Z;
  ai_deferred : Z;
  ai_last_error : string;
  ai_heartbeat : Z;
  ai_ttl_ms : Z;
}.

(** [automation_controls] has one column but its key. *)
Record auto_tables (I : Type) : Type := mkAutoTables {
  at_segments : gmap (string * string) (auto_row I);
  at_controls : gmap string bool;
  at_instances : gmap (string * string) auto_instance;
}.
Arguments mkAutoTables {I}. Arguments at_segments {I}. Arguments at_controls {I}. Arguments at_instances {I}.

(** [int(p)] and [Phase(n)]; only the numbers of phases are written. *)
Definition Phase_int (p : Phase) : Z :=
  match p with Starting => 0 | Waiting => 1 | Idle => 2 | Working => 3 | Stalled => 4 | Paused => 5 end.
Definition Phase_of (n : Z) : Phase :=
  if n =? 1 then Waiting else if n =? 2 then Idle else if n =? 3 then Working else if n =? 4 then Stalled
  else if n =? 5 then Paused else Starting.

(** [uniqueCandidates] of both stores *)
Fixpoint unique_from (segs : list Candidate) (seen : list string) : list Candidate :=
  match segs with
  | [] => []
  | s :: segs =>
    if bool_decide (cd_Key s ∈ seen) then unique_from segs seen else s :: unique_from segs (cd_Key s :: seen)
  end.
Definition uniqueCandidates (segs : list Candidate) : list Candidate := unique_from segs [].

Section segments.
Context {I : Type} (unset : I).
Notation auto_row := (auto_row I).
Notation auto_tables := (auto_tables I).

Definition empty_auto : auto_tables := mkAutoTables ∅ ∅ ∅.
Definition with_auto_segments (x : gmap (string * string) auto_row) (t : auto_tables) : auto_tables :=
  mkAutoTables x (at_controls t) (at_instances t).
Definition with_auto_instances (x : gmap (string * string) auto_instance) (t : auto_tables) : auto_tables :=
  mkAutoTables (at_segments t) (at_controls t) x.

(** The columns' defaults *)
Definition new_auto_row (group : string) (now : Z) : auto_row := mkAutoRow group "" 0 unset unset now None.

Definition set_auto_group (g : string) (r : auto_row) : auto_row :=
  mkAutoRow g (ar_owner r) (ar_epoch r) (ar_lease_until r) (ar_paused_until r) (ar_first_seen r) (ar_last_served r).
Definition set_auto_lease (owner : string) (epoch : Z) (until : I) (r : auto_row) : auto_row :=
  mkAutoRow (ar_group_key r) owner epoch until (ar_paused_until r) (ar_first_seen r) (ar_last_served r).
Definition set_auto_pause (until : I) (r : auto_row) : auto_row :=
  mkAutoRow (ar_group_key r) (ar_owner r) (ar_epoch r) (ar_lease_until r) until (ar_first_seen r) (ar_last_served r).
Definition set_auto_served (at_ : option Z) (r : auto_row) : auto_row :=
  mkAutoRow (ar_group_key r) (ar_owner r) (ar_epoch r) (ar_lease_until r) (ar_paused_until r) (ar_first_seen r) at_.

(** INSERT ... ON CONFLICT DO UPDATE of the candidates: a candidate without a
    group keeps the group it was recorded with. *)
Definition record_candidate (name : string) (now : Z) (c : Candidate) (t : auto_tables) : auto_tables :=
  let k := (name, cd_Key c) in
  let r := match at_segments t !! k with
           | None => new_auto_row (cd_Group c) now
           | Some r => if bool_decide (cd_Group c = "") then r else set_auto_group (cd_Group c) r
           end in
  with_auto_segments (<[k := r]> (at_segments t)) t.

Definition record_candidates (name : string) (cands : list Candidate) (now : Z) (t : auto_tables) : auto_tables :=
  foldl (λ t c, record_candidate name now c t) t cands.

(** [WHERE name = ? AND segment_key IN (...)] *)
Definition rows_among (name : string) (keys : list string) (t : auto_tables) : list (string * auto_row) :=
  omap (λ '((n, k), r), if bool_decide (n = name ∧ k ∈ keys) then Some (k, r) else None) (map_to_list (at_segments t)).

(** ** The windows of the SELECT that puts candidates in fairness order *)
Section fairness.
Context (rows : list (string * auto_row)).
Notation cand := (string * auto_row)%type.

(** [PARTITION BY group_key] *)
Definition partition_of (g : string) : list cand := bfilter (λ c, bool_decide (ar_group_key c.2 = g)) rows.

(** [coalesce(last_served, first_seen)] *)
Definition waiting_since (r : auto_row) : Z := default (ar_first_seen r) (ar_last_served r).

(** [ORDER BY coalesce(last_served, first_seen), segment_key] *)
Definition waiting_less (a b : cand) : bool :=
  if negb (waiting_since a.2 =? waiting_since b.2) then waiting_since a.2 <? waiting_since b.2 else string_less a.1 b.1.

(** The place of a key in a list of rows, from 1 *)
Fixpoint row_number (k : string) (cs : list cand) : Z :=
  match cs with
  | [] => 1
  | c :: cs => if bool_decide (c.1 = k) then 1 else 1 + row_number k cs
  end.

Definition window_rank (c : cand) : Z := row_number c.1 (sort_slice waiting_less (partition_of (ar_group_key c.2))).

(** The aggregates [max] and [min], NULL where there is nothing to compare *)
Definition agg_max (l : list Z) : option Z := match l with [] => None | x :: l => Some (foldr Z.max x l) end.
Definition agg_min (l : list Z) : option Z := match l with [] => None | x :: l => Some (foldr Z.min x l) end.

(** [coalesce(max(last_served), min(first_seen))] over the partition *)
Definition window_turn (g : string) : option Z :=
  match agg_max (omap (λ c, ar_last_served c.2) (partition_of g)) with
  | Some t => Some t
  | None => agg_min ((λ c, ar_first_seen c.2) <$> partition_of g)
  end.

(** [ORDER BY rank, turn, group_key, segment_key]; the turn of a row's own
    group is not NULL. *)
Definition fair_less (a b : cand) : bool :=
  if negb (window_rank a =? window_rank b) then window_rank a <? window_rank b
  else
    let ga := ar_group_key a.2 in let gb := ar_group_key b.2 in
    let ta := default 0 (window_turn ga) in let tb := default 0 (window_turn gb) in
    if negb (ta =? tb) then ta <? tb
    else if negb (bool_decide (ga = gb)) then string_less ga gb
    else string_less a.1 b.1.

Definition in_fair_order : list cand := sort_slice fair_less rows.
End fairness.

(** The rows the SELECT yields: key, held, paused *)
Definition select_candidates (held paused : Z → auto_row → bool) (name : string) (keys : list string) (now : Z)
    (t : auto_tables) : list (string * bool * bool) :=
  (λ '(k, r), (k, held now r, paused now r)) <$> in_fair_order (rows_among name keys t).

(** The loop over them: the keys to grant, the counts of active and eligible
    rows *)
Fixpoint scan_candidates (max_ : Z) (rows : list (string * bool * bool)) (grant : list string) (active eligible : Z) :
    list string * Z * Z :=
  match rows with
  | [] => (grant, active, eligible)
  | (key, held, paused) :: rows =>
    if (paused : bool) then scan_candidates max_ rows grant active eligible
    else if (held : bool) then scan_candidates max_ rows grant (active + 1) eligible
    else if zlen grant <? max_ then scan_candidates max_ rows (grant ++ [key]) (active + 1) eligible
    else scan_candidates max_ rows grant (active + 1) (eligible + 1)
  end.

(** [WHERE name = ? AND segment_key = ? AND owner = ? AND epoch = ?] *)
Definition fenced (owner : string) (epoch : Z) (r : auto_row) : bool :=
  bool_decide (ar_owner r = owner) && (ar_epoch r =? epoch).

(** An UPDATE of the row of one key where [p] holds, and the number of rows it
    changed *)
Definition update_where (name key : string) (p : auto_row → bool) (f : auto_row → auto_row) (t : auto_tables) :
    Z * auto_tables :=
  match at_segments t !! (name, key) with
  | Some r => if p r then (1, with_auto_segments (<[(name, key) := f r]> (at_segments t)) t) else (0, t)
  | None => (0, t)
  end.

(** INSERT of a paused key, or [f] on the row there is *)
Definition upsert_pause (name key : string) (until : I) (f : auto_row → auto_row) (now : Z) (t : auto_tables) :
    auto_tables :=
  let r := match at_segments t !! (name, key) with
           | None => set_auto_pause until (new_auto_row "" now)
           | Some r => f r
           end in
  with_auto_segments (<[(name, key) := r]> (at_segments t)) t.

(** The rows of an automation, [ORDER BY segment_key] *)
Definition auto_segments_of (name : string) (t : auto_tables) : list (string * auto_row) :=
  sort_slice (λ a b : string * auto_row, string_less a.1 b.1)
    (omap (λ '((n, k), r), if bool_decide (n = name) then Some (k, r) else None) (map_to_list (at_segments t))).

(** ** Controls and instances *)
Definition upsert_control (name : string) (paused : bool) (t : auto_tables) : auto_tables :=
  mkAutoTables (at_segments t) (<[name := paused]> (at_controls t)) (at_instances t).

Context (ms : Z).

(** [heartbeat + ttl_ms < now] *)
Definition auto_expired (now : Z) (i : auto_instance) : bool := ai_heartbeat i + ai_ttl_ms i * ms <? now.

Definition delete_expired (name : string) (now : Z) (t : auto_tables) : auto_tables :=
  with_auto_instances
    (filter (λ '((n, _), i), bool_decide (n = name) && auto_expired now i = false) (at_instances t)) t.

Definition upsert_auto_instance (name owner : string) (phase : Z) (waiting_for : string)
    (processed failed deferred : Z) (last_error : string) (ttl_ms now : Z) (t : auto_tables) : auto_tables :=
  with_auto_instances
    (<[(name, owner) := mkAutoInstance phase waiting_for processed failed deferred last_error now ttl_ms]>
       (at_instances t)) t.

(** [heartbeat + ttl_ms >= now], [ORDER BY owner] *)
Definition select_live (name : string) (now : Z) (t : auto_tables) : list (string * auto_instance) :=
  sort_slice (λ a b : string * auto_instance, string_less a.1 b.1)
    (omap (λ '((n, o), i), if bool_decide (n = name) && negb (auto_expired now i) then Some (o, i) else None)
       (map_to_list (at_instances t))).
End segments.
#[global] Arguments rows_among {I} name keys t : simpl never.
#[global] Arguments in_fair_order {I} rows : simpl never.
#[global] Arguments auto_segments_of {I} name t : simpl never.
#[global] Arguments select_live {I} ms name now t : simpl never.

(** ** Facts *)
(** The aggregates, by what they promise *)
Lemma agg_max_spec l m : agg_max l = Some m ↔ m ∈ l ∧ ∀ x, x ∈ l → x ≤ m.
Proof.
  assert (∀ x k, foldr Z.max x k ∈ x :: k ∧ ∀ y, y ∈ x :: k → y ≤ foldr Z.max x k) as H.
  { intros x k. induction k as [|z k [IH1 IH2]]; cbn; [set_solver by lia|]. split.
    - destruct (Z.max_spec z (foldr Z.max x k)) as [[_ ->]|[_ ->]]; [|set_solver].
      apply elem_of_cons in IH1 as [->|]; set_solver.
    - intros y [->|[->|Hy]%elem_of_cons]%elem_of_cons; [|lia|].
      + specialize (IH2 x ltac:(set_solver)). lia.
      + specialize (IH2 y ltac:(set_solver)). lia. }
  destruct l as [|x k]; cbn; [split; [done|intros [[]%not_elem_of_nil _]]|]. destruct (H x k) as [H1 H2]. split.
  - intros [= <-]. done.
  - intros [Hm Hle]. f_equal. specialize (H2 m Hm). specialize (Hle _ H1). lia.
Qed.

Lemma agg_min_spec l m : agg_min l = Some m ↔ m ∈ l ∧ ∀ x, x ∈ l → m ≤ x.
Proof.
  assert (∀ x k, foldr Z.min x k ∈ x :: k ∧ ∀ y, y ∈ x :: k → foldr Z.min x k ≤ y) as H.
  { intros x k. induction k as [|z k [IH1 IH2]]; cbn; [set_solver by lia|]. split.
    - destruct (Z.min_spec z (foldr Z.min x k)) as [[_ ->]|[_ ->]]; [set_solver|].
      apply elem_of_cons in IH1 as [->|]; set_solver.
    - intros y [->|[->|Hy]%elem_of_cons]%elem_of_cons; [|lia|].
      + specialize (IH2 x ltac:(set_solver)). lia.
      + specialize (IH2 y ltac:(set_solver)). lia. }
  destruct l as [|x k]; cbn; [split; [done|intros [[]%not_elem_of_nil _]]|]. destruct (H x k) as [H1 H2]. split.
  - intros [= <-]. done.
  - intros [Hm Hle]. f_equal. specialize (H2 m Hm). specialize (Hle _ H1). lia.
Qed.

Lemma agg_max_None l : agg_max l = None ↔ l = [].
Proof. by destruct l. Qed.

Lemma elem_of_rows_among {I} name keys (t : auto_tables I) k r :
  (k, r) ∈ rows_among name keys t ↔ k ∈ keys ∧ at_segments t !! (name, k) = Some r.
Proof.
  unfold rows_among. rewrite list_elem_of_omap. split.
  - intros ([[n k'] r'] & Hin%elem_of_map_to_list & Hx). case_bool_decide; naive_solver.
  - intros [Hk Hr]. exists (name, k, r). split; [by apply elem_of_map_to_list|]. by rewrite bool_decide_true.
Qed.

Lemma rows_among_keys {I} name keys (t : auto_tables I) : NoDup (rows_among name keys t).*1.
Proof.
  apply NoDup_fmap_2_strong.
  - intros [k r] [k' r'] [_ H1]%elem_of_rows_among [_ H2]%elem_of_rows_among Heq. cbn in Heq. subst. congruence.
  - unfold rows_among. apply NoDup_omap_inj; [|apply NoDup_map_to_list]. intros [[n k] g] [[n' k'] g'] z _ _.
    repeat case_bool_decide; naive_solver.
Qed.

Section orders.
Context {I : Type}.

Lemma weak_waiting : weak_order (@waiting_less I).
Proof. apply weak_lex_Z, weak_string. Qed.

Lemma weak_fair rows : weak_order (@fair_less I rows).
Proof.
  apply weak_lex_Z, (weak_lex_Z (λ a, default 0 (window_turn rows (ar_group_key a.2)))).
  apply (weak_lex_string (λ a : string * auto_row I, ar_group_key a.2)), weak_string.
Qed.

Lemma fair_less_key rows (a b : string * auto_row I) : fair_less rows a b = false → fair_less rows b a = false → a.1 = b.1.
Proof.
  unfold fair_less. intros Hab Hba.
  destruct (Z.eqb_spec (window_rank rows a) (window_rank rows b)) as [Hr|Hr], (Z.eqb_spec (window_rank rows b) (window_rank rows a));
    try lia; cbn in *; [|rewrite !Z.ltb_ge in *; lia].
  set (ta := default 0 (window_turn rows (ar_group_key a.2))) in *. set (tb := default 0 (window_turn rows (ar_group_key b.2))) in *.
  destruct (Z.eqb_spec ta tb), (Z.eqb_spec tb ta); try lia; cbn in *; [|rewrite !Z.ltb_ge in *; lia].
  destruct (bool_decide_reflect (ar_group_key a.2 = ar_group_key b.2)), (bool_decide_reflect (ar_group_key b.2 = ar_group_key a.2));
    try congruence; cbn in *; rewrite string_less_le in *; [by apply (anti_symm String.le)|].
  exfalso. by destruct n; apply (anti_symm String.le).
Qed.
End orders.
