(* ===== verification/SqliteAutoStore.v ===== *)
(** * The SQLite automation store ([sqlite/automation_store.go])

    The database is the tables of [SqlAutomation].  As [Open] allows one
    connection and begins transactions with the write lock, each method is one
    change of the database.  The candidates reach SQLite as JSON: [json_text]
    is what [json.Marshal] and [json_extract] make of a string.  Instants are
    Unix milliseconds, 0 where they are unset. *)
From S2P Require Import Prelude Core AutoTypes Effect SqlTx SqlValues SqlAutomation.

(** [DeferFor], in milliseconds, and Served, as [Release] passes them *)
Definition released_pause (defer_ms now until : Z) : Z := if 0 <? defer_ms then Z.max until (now + defer_ms) else until.

Section store.
Context (env : db_env) (json_text : string → string).
Notation D := (auto_tables Z).

Definition sqlite_held (now : Z) (r : auto_row Z) : bool :=
  negb (bool_decide (ar_owner r = "")) && (now <? ar_lease_until r).
Definition sqlite_paused (now : Z) (r : auto_row Z) : bool := now <? ar_paused_until r.

(** [json_each] of the marshalled candidates *)
Definition json_cands (cands : list Candidate) : list Candidate :=
  (λ c, mkCandidate (json_text (cd_Key c)) (json_text (cd_Group c))) <$> cands.

(** UPDATE ... RETURNING epoch; no row is [sql.ErrNoRows]. *)
Definition sqlite_grant (name key owner : string) (ttl : duration) : Tx D SegmentLease :=
  epoch ← statement env "grant" (λ now (t : D),
    match at_segments t !! (name, key) with
    | None => Fail (New "sql: no rows in result set")
    | Some r =>
      let r' := set_auto_lease owner (ar_epoch r + 1) (now + Milliseconds ttl) r in
      Ok (ar_epoch r', with_auto_segments (<[(name, key) := r']> (at_segments t)) t)
    end);
  mret (mkSegmentLease name key owner (u64 epoch)).

Fixpoint sqlite_grants (name owner : string) (ttl : duration) (keys : list string) : Tx D (list SegmentLease) :=
  match keys with
  | [] => mret []
  | key :: keys =>
    l ← sqlite_grant name key owner ttl;
    ls ← sqlite_grants name owner ttl keys;
    mret (l :: ls)
  end.

Definition sqlite_Acquire (name owner : string) (candidates : list Candidate) (max_ : Z) (ttl : duration) :
    D → result error AcquireResult * D :=
  match uniqueCandidates candidates with
  | [] => λ t, (Ok (mkAcquired [] 0 0), t)
  | cands =>
    let js := json_cands cands in
    runTx env "acquire: begin" "acquire: commit" (
      update env "record candidates" (λ now t, ((), record_candidates 0 name js now t)) ;;
      rows ← select env "read candidates" (select_candidates sqlite_held sqlite_paused name (cd_Key <$> js));
      let '(grant, active, eligible) := scan_candidates max_ rows [] 0 0 in
      granted ← sqlite_grants name owner ttl grant;
      mret (mkAcquired granted active eligible))
  end.

(** The loop of [Renew] and of [Release]: a fenced update for each lease, and
    the leases whose update changed nothing *)
Fixpoint fenced_updates {A} (text : string) (lease : A → SegmentLease) (p : A → Z → auto_row Z → bool)
    (f : A → Z → auto_row Z → auto_row Z) (xs : list A) : Tx D (list SegmentLease) :=
  match xs with
  | [] => mret []
  | x :: xs =>
    let l := lease x in
    n ← update env text (λ now, update_where (sl_Name l) (sl_Key l) (p x now) (f x now));
    lost ← fenced_updates text lease p f xs;
    mret (if 0 <? n then lost else l :: lost)
  end.

Definition renewable (l : SegmentLease) (now : Z) (r : auto_row Z) : bool :=
  fenced (sl_Owner l) (int64 (sl_Epoch l)) r && (now <? ar_lease_until r).
Definition set_renewed (ttl : duration) (now : Z) (r : auto_row Z) : auto_row Z :=
  set_auto_lease (ar_owner r) (ar_epoch r) (now + Milliseconds ttl) r.

Definition sqlite_Renew (held : list SegmentLease) (ttl : duration) : D → result error (list SegmentLease) * D :=
  runTx env "renew: begin" "renew: commit" (
    fenced_updates "renew" id renewable (λ _, set_renewed ttl) held).

Definition releasable (rr : ReleaseRequest) (_ : Z) (r : auto_row Z) : bool :=
  fenced (sl_Owner (re_Lease rr)) (int64 (sl_Epoch (re_Lease rr))) r.
Definition set_auto_released (rr : ReleaseRequest) (now : Z) (r : auto_row Z) : auto_row Z :=
  mkAutoRow (ar_group_key r) "" (ar_epoch r) 0
    (released_pause (Milliseconds (re_DeferFor rr)) now (ar_paused_until r)) (ar_first_seen r)
    (if re_Served rr then Some now else ar_last_served r).

Definition sqlite_auto_Release (rel : list ReleaseRequest) : D → result error (list SegmentLease) * D :=
  runTx env "release: begin" "release: commit" (
    fenced_updates "release" re_Lease releasable set_auto_released rel).

Definition sqlite_Defer (name key : string) (d : duration) : D → result error () * D :=
  autocommit (update env "defer" (λ now t,
    let until := now + Milliseconds d in
    ((), upsert_pause 0 name key until (λ r, set_auto_pause (Z.max (ar_paused_until r) until) r) now t))).

Definition sqlite_DeferredFor (name key : string) : D → result error duration * D :=
  autocommit (
    row ← select env "deferred for" (λ now (t : D),
      (λ r, Z.max (ar_paused_until r - now) 0) <$> at_segments t !! (name, key));
    match row with None => mret 0 | Some n => mret (of_ms n) end).

Definition sqlite_SetPaused (name : string) (paused : bool) : D → result error () * D :=
  autocommit (update env "set paused" (λ _ t, ((), upsert_control name paused t))).

Definition sqlite_Paused (name : string) : D → result error bool * D :=
  autocommit (
    row ← select env "paused" (λ _ (t : D), at_controls t !! name);
    match row with None => mret false | Some p => mret p end).

Definition sqlite_auto_SaveStatus (name : string) (st : Status) (ttl : duration) : D → result error () * D :=
  runTx env "save status: begin" "save status: commit" (
    update env "expire" (λ now t, ((), delete_expired 1 name now t)) ;;
    update env "write" (λ now t,
      ((), upsert_auto_instance name (st_Owner st) (Phase_int (st_Phase st)) (st_WaitingFor st)
             (int64 (st_Processed st)) (int64 (st_Failed st)) (int64 (st_Deferred st)) (st_LastError st)
             (Milliseconds ttl) now t))).

Definition live_status (row : string * auto_instance * Z) : Status :=
  let '(owner, i, age) := row in
  mkStatus owner (Phase_of (ai_phase i)) (ai_waiting_for i) (u64 (ai_processed i)) (u64 (ai_failed i))
    (u64 (ai_deferred i)) (ai_last_error i) (of_ms age).

Definition sqlite_auto_LoadStatuses (name : string) : D → result error (list Status) * D :=
  autocommit (
    rows ← select env "load statuses" (λ now t, (λ x : string * auto_instance, (x, now - ai_heartbeat x.2)) <$> select_live 1 name now t);
    mret (live_status <$> rows)).

Definition sqlite_LoadSegments (name : string) : D → result error (list SegmentState) * D :=
  autocommit (
    rows ← select env "load segments" (λ now t,
      (λ '(k, r), (k, ar_group_key r, if sqlite_held now r then ar_owner r else "", Z.max (ar_paused_until r - now) 0))
        <$> auto_segments_of name t);
    mret ((λ '(k, g, o, pauseMS), mkSegmentState k g o (of_ms pauseMS)) <$> rows)).
End store.

(** ** What [Acquire] does on a database that may fail at any call *)
Definition free_row (now : Z) (g : auto_row Z) : bool := negb (sqlite_paused now g) && negb (sqlite_held now g).

Lemma scan_spec now max_ (l : list (string * auto_row Z)) grant active eligible :
  let free := bfilter (λ c, free_row now c.2) l in
  let n := Z.to_nat (max_ - zlen grant) in
  scan_candidates max_ ((λ '(k, r), (k, sqlite_held now r, sqlite_paused now r)) <$> l) grant active eligible =
  (grant ++ (take n free).*1, active + zlen (bfilter (λ c, negb (sqlite_paused now c.2)) l), eligible + zlen (drop n free)).
Proof.
  revert grant active eligible. induction l as [|[k r] l IH]; intros grant active eligible; cbn.
  { rewrite take_nil, drop_nil, app_nil_r. change (zlen []) with 0. by rewrite !Z.add_0_r. }
  fold (fmap (M := list) (λ '(k, r), (k, sqlite_held now r, sqlite_paused now r)) l) in *. change (free_row now r) with (negb (sqlite_paused now r) && negb (sqlite_held now r)).
  destruct (sqlite_paused now r); cbn [negb andb]; [apply IH|].
  destruct (sqlite_held now r); cbn [negb andb]; [rewrite IH, zlen_cons; f_equal; f_equal; lia|].
  destruct (Z.ltb_spec (zlen grant) max_); rewrite IH.
  - rewrite zlen_snoc, zlen_cons. replace (Z.to_nat (max_ - zlen grant)) with (S (Z.to_nat (max_ - (zlen grant + 1)))) by lia.
    cbn [take drop fmap list_fmap fst]. rewrite <- app_assoc. cbn. f_equal. f_equal. lia.
  - replace (Z.to_nat (max_ - zlen grant)) with 0%nat by lia. rewrite !take_0, !drop_0, !zlen_cons. cbn. f_equal; [f_equal|]; lia.
Qed.

Definition auto_granted (now : Z) (owner : string) (ttl : Z) (g : auto_row Z) : auto_row Z :=
  set_auto_lease owner (ar_epoch g + 1) (now + ttl) g.
Definition auto_lease (name owner : string) (c : string * auto_row Z) : SegmentLease :=
  mkSegmentLease name c.1 owner (u64 (ar_epoch c.2 + 1)).


Lemma record_candidates_row name cands now (t : auto_tables Z) name' k :
  match at_segments t !! (name', k) with
  | Some g => ∃ grp, at_segments (record_candidates 0 name cands now t) !! (name', k) = Some (set_auto_group grp g)
  | None => ∀ g, at_segments (record_candidates 0 name cands now t) !! (name', k) = Some g → ∃ grp, g = new_auto_row 0 grp now
  end.
Proof.
  unfold record_candidates. revert t. induction cands as [|c cands IH]; intros t; cbn.
  { destruct (at_segments t !! (name', k)) as [g|]; [|done]. exists (ar_group_key g). by destruct g. }
  specialize (IH (record_candidate 0 name now c t)).
  assert (at_segments (record_candidate 0 name now c t) !! (name', k) = at_segments t !! (name', k) ∨
    ∃ grp, at_segments (record_candidate 0 name now c t) !! (name', k) =
      Some (match at_segments t !! (name', k) with Some g => set_auto_group grp g | None => new_auto_row 0 grp now end)) as Hc.
  { unfold record_candidate; cbn. destruct (decide ((name, cd_Key c) = (name', k))) as [[= <- <-]|Hne].
    - right. rewrite lookup_insert_eq. destruct (at_segments t !! _) as [g|]; [|by eexists].
      case_bool_decide; [|by eexists]. exists (ar_group_key g). by destruct g.
    - left. by rewrite lookup_insert_ne. }
  destruct Hc as [Hc|[grp Hc]]; rewrite Hc in IH; [done|]. destruct (at_segments t !! (name', k)) as [g|].
  - destruct IH as [grp' ->]. by exists grp'.
  - destruct IH as [grp' ->]. intros g [= <-]. by exists grp'.
Qed.

Section faults.
Context (env : db_env).

Lemma sqlite_grant_Ok name key owner ttl (s s' : nat * auto_tables Z) l : sqlite_grant env name key owner ttl s = (Ok l, s') →
  ∃ g until, at_segments s.2 !! (name, key) = Some g ∧ l = mkSegmentLease name key owner (u64 (ar_epoch g + 1)) ∧
    s'.2 = with_auto_segments (<[(name, key) := set_auto_lease owner (ar_epoch g + 1) until g]> (at_segments s.2)) s.2.
Proof.
  unfold sqlite_grant. intros (e & s1 & Hs & Hk)%bind_Ok. apply statement_Ok in Hs.
  destruct (at_segments s.2 !! (name, key)) as [g|]; [|done]. injection Hs as He Hs. injection Hk as <- <-.
  eexists g, _. split_and!; [done|by rewrite <- He|by rewrite <- Hs].
Qed.

Lemma sqlite_grants_Ok name owner ttl ks (s s' : nat * auto_tables Z) ls :
  NoDup ks → sqlite_grants env name owner ttl ks s = (Ok ls, s') →
  sl_Key <$> ls = ks ∧
  (∀ l, l ∈ ls → ∃ g until, at_segments s.2 !! (name, sl_Key l) = Some g ∧
     l = mkSegmentLease name (sl_Key l) owner (u64 (ar_epoch g + 1)) ∧
     at_segments s'.2 !! (name, sl_Key l) = Some (set_auto_lease owner (ar_epoch g + 1) until g)) ∧
  (∀ name' k, name' ≠ name ∨ k ∉ ks → at_segments s'.2 !! (name', k) = at_segments s.2 !! (name', k)).
Proof.
  intros Hnd. revert s ls. induction Hnd as [|k ks Hk Hnd IH]; intros s ls; cbn [sqlite_grants].
  { intros [= <- <-]. split_and!; [done|by intros l ?%not_elem_of_nil|done]. }
  intros (l & s1 & (g & until & Hg & -> & Hs1)%sqlite_grant_Ok & (ls1 & s2 & Hgs & Hr)%bind_Ok)%bind_Ok.
  injection Hr as <- <-. destruct (IH _ _ Hgs) as (H1 & H2 & H3). rewrite Hs1 in H2, H3. cbn in H2, H3. split_and!.
  - cbn. by rewrite H1.
  - intros l [->|Hl]%elem_of_cons; cbn.
    + exists g, until. split_and!; [done..|]. rewrite H3 by (by right). by rewrite lookup_insert_eq.
    + destruct (H2 l Hl) as (g' & u & Hg' & ? & ?). exists g', u. split_and!; [|done..].
      rewrite lookup_insert_ne in Hg'; [done|]. intros [= ->]. apply Hk. rewrite <- H1. by apply list_elem_of_fmap_2.
  - intros name' k' Hor. rewrite H3 by set_solver. rewrite lookup_insert_ne; [done|]. set_solver.
Qed.

(** Acquire of the SQLite automation store takes no segment that is held or paused
    and loses none, whichever call of the database fails and however its clock
    moves between the statements.  When it fails the database is as it was.
    When it succeeds it granted at most the number asked for, each key once;
    every row there was before is unchanged but for its group, or it was free
    at the reading of the SELECT and is now leased to the caller under the
    next epoch, which the granted lease carries. *)
Theorem sqlite_Acquire_grants_free_segments_or_nothing json_text name owner cands max_ ttl t :
  match sqlite_Acquire env json_text name owner cands max_ ttl t with
  | (Fail _, t') => t' = t
  | (Ok res, t') =>
    zlen (ac_Granted res) ≤ Z.max 0 max_ ∧ NoDup (sl_Key <$> ac_Granted res) ∧
    ∃ now, ∀ name' k,
      match at_segments t !! (name', k) with
      | Some g => ∃ grp, at_segments t' !! (name', k) = Some (set_auto_group grp g) ∨
          ∃ until, mkSegmentLease name k owner (u64 (ar_epoch g + 1)) ∈ ac_Granted res ∧ name' = name ∧
            free_row now g = true ∧
            at_segments t' !! (name', k) = Some (set_auto_group grp (set_auto_lease owner (ar_epoch g + 1) until g))
      | None => True
      end ∧
      (name' = name → k ∈ sl_Key <$> ac_Granted res →
       ∃ g', at_segments t' !! (name, k) = Some g' ∧ mkSegmentLease name k owner (u64 (ar_epoch g')) ∈ ac_Granted res ∧ ar_owner g' = owner)
  end.
Proof.
  unfold sqlite_Acquire. destruct (uniqueCandidates cands) as [|c0 us]; cbn [fst snd].
  { split_and!; [change (0 ≤ Z.max 0 max_); lia|constructor|]. exists 0. intros name' k. split; [|by intros _ ?%not_elem_of_nil].
    destruct (at_segments t !! (name', k)) as [g|]; [|done]. exists (ar_group_key g). left. by destruct g. }
  generalize (json_cands json_text (c0 :: us)). intros js. destruct (runTx _ _ _ _ t) as [[res|e] t'] eqn:Hrun; [|by eapply runTx_rolls_back].
  apply runTx_Ok in Hrun as (n & ([] & s1 & Hrec & (rows & s2 & Hsel & Hgr)%bind_Ok)%bind_Ok).
  apply statement_Ok in Hrec, Hsel. injection Hrec as Hs1. injection Hsel as Hrows Hs2. cbn in Hs1, Hrows, Hs2.
  set (now := db_clock env s1.1) in *. set (t1 := s1.2) in *. unfold select_candidates in Hrows.
  set (l := in_fair_order (rows_among name (cd_Key <$> js) t1)) in *. rewrite <- Hrows, (scan_spec now max_ l [] 0 0) in Hgr.
  change (zlen []) with 0 in Hgr. rewrite Z.sub_0_r in Hgr. cbn [app] in Hgr. set (free := bfilter (λ c : string * auto_row Z, free_row now c.2) l) in *.
  apply bind_Ok in Hgr as (ls & s3 & Hgs & Hr). injection Hr as <- Hs3. cbn [ac_Granted].
  assert (l ≡ₚ rows_among name (cd_Key <$> js) t1) as Hperm by apply sort_slice_perm.
  assert (NoDup (take (Z.to_nat max_) free).*1) as Hnd.
  { assert (NoDup free.*1) as Hf by (apply bfilter_NoDup_fmap; rewrite Hperm; apply rows_among_keys).
    rewrite <- (take_drop (Z.to_nat max_) free), fmap_app in Hf. by apply NoDup_app in Hf as [? _]. }
  destruct (sqlite_grants_Ok _ _ _ _ _ _ _ Hnd Hgs) as (Hk & Hin & Hout). rewrite <- Hs2, Hs3 in Hin, Hout. cbn [snd] in Hin, Hout.
  split_and!; [|by rewrite Hk|exists now; intros name' k; split].
  - unfold zlen. rewrite <- (length_fmap sl_Key), Hk, length_fmap, length_take. lia.
  - pose proof (record_candidates_row name js (db_clock env 1) t name' k) as Hrow.
    destruct (at_segments t !! (name', k)) as [g|] eqn:Hg; [|done]. destruct Hrow as [grp Hrow]. exists grp.
    rewrite Hs1 in Hrow. destruct (decide (name' = name ∧ k ∈ sl_Key <$> ls)) as [[-> Hk2]|Hn].
    + right. apply list_elem_of_fmap in Hk2 as (x & -> & Hx). destruct (Hin x Hx) as (g' & until & Hg' & Hlease & Ht').
      rewrite Hrow in Hg'. injection Hg' as <-. exists until. cbn in Hlease. split_and!; [by rewrite <- Hlease|done| |done].
      assert (sl_Key x ∈ (take (Z.to_nat max_) free).*1) as ([k g'] & Hkx & Hfr)%list_elem_of_fmap by (rewrite <- Hk; by apply list_elem_of_fmap_2).
      apply elem_of_take_sub, elem_of_bfilter in Hfr as [Hfree Hl]. cbn in Hkx, Hfree.
      rewrite Hperm, elem_of_rows_among in Hl. destruct Hl as [_ Hl]. rewrite <- Hkx, Hrow in Hl. injection Hl as <-. exact Hfree.
    + left. rewrite Hout; [done|]. rewrite <- Hk. apply not_and_l in Hn. tauto.
  - intros -> (x & -> & Hx)%list_elem_of_fmap. destruct (Hin x Hx) as (g' & until & Hg' & Hlease & Ht').
    eexists. split; [exact Ht'|]. split; [|done]. cbn. rewrite <- Hlease. done.
Qed.
End faults.
