(* ===== verification/AutoSim.v ===== *)
(** * The SQLite automation store and the in-memory one

    A simulation between the tables of [sqlite/automation_store.go] and the
    maps of [memory/automation_store.go], and that every method keeps it, with
    equal answers.  The order of [Acquire], window functions there and sorts
    of indexes here, is the same.  Clocks are in whole milliseconds, as
    SQLite's are, and run forward. *)
From S2P Require Import Prelude Core AutoTypes AutoStore Effect SqlTx SqlValues SqlAutomation SqliteAutoStore.

(** The folds of the in-memory store *)
Definition later_served (t : option time) (c : string * localRow) : option time :=
  let ls := lr_lastServed c.2 in
  if time_IsZero ls then t
  else match t with None => Some ls | Some t0 => if time_After ls t0 then Some ls else t end.

Lemma latest_fold l t : match foldl later_served t l with
  | None => t = None ∧ ∀ c, c ∈ l → lr_lastServed c.2 = 0
  | Some m => (t = Some m ∨ ∃ c, c ∈ l ∧ lr_lastServed c.2 = m ∧ m ≠ 0) ∧
      (∀ t0, t = Some t0 → t0 ≤ m) ∧ ∀ c, c ∈ l → lr_lastServed c.2 ≠ 0 → lr_lastServed c.2 ≤ m
  end.
Proof.
  revert t. induction l as [|c l IH]; intros t; cbn.
  { destruct t as [m|]; [split_and!; [by left|intros ? [= <-]; lia|by intros ? ?%not_elem_of_nil]|].
    split; [done|by intros ? ?%not_elem_of_nil]. }
  specialize (IH (later_served t c)). destruct (foldl later_served _ l) as [m|].
  - destruct IH as (H1 & H2 & H3). unfold later_served, time_IsZero, time_After in *.
    destruct (Z.eqb_spec (lr_lastServed c.2) 0) as [Hz|Hz].
    { split_and!; [|done|intros x [->|Hx]%elem_of_cons; [done|auto]]. destruct H1 as [?|(x & Hx & ?)]; [by left|right]. set_solver. }
    destruct t as [t0|]; [destruct (Z.ltb_spec t0 (lr_lastServed c.2))|].
    + split_and!.
      * destruct H1 as [[= <-]|(x & Hx & ?)]; right; [exists c|exists x]; split_and!; set_solver.
      * intros ? [= <-]. specialize (H2 _ eq_refl). lia.
      * intros x [->|Hx]%elem_of_cons Hne; [by apply H2|auto].
    + split_and!.
      * destruct H1 as [?|(x & Hx & ?)]; [by left|right]. set_solver.
      * done.
      * intros x [->|Hx]%elem_of_cons Hne; [specialize (H2 _ eq_refl); lia|auto].
    + split_and!.
      * destruct H1 as [[= <-]|(x & Hx & ?)]; right; [exists c|exists x]; split_and!; set_solver.
      * done.
      * intros x [->|Hx]%elem_of_cons Hne; [by apply H2|auto].
  - destruct IH as [H1 H2]. unfold later_served, time_IsZero, time_After in H1.
    destruct (Z.eqb_spec (lr_lastServed c.2) 0) as [Hz|Hz]; [|destruct t as [t0|]; [destruct (t0 <? _)|]; done].
    split; [done|]. intros x [->|Hx]%elem_of_cons; auto.
Qed.

Lemma first_fold l t : let m := foldl (λ t c, if time_Before (lr_firstSeen c.2) t then lr_firstSeen c.2 else t) t l in
  (m = t ∨ ∃ c : string * localRow, c ∈ l ∧ lr_firstSeen c.2 = m) ∧ m ≤ t ∧ ∀ c, c ∈ l → m ≤ lr_firstSeen c.2.
Proof.
  revert t. induction l as [|c l IH]; intros t; cbn; [split_and!; [by left|lia|by intros ? ?%not_elem_of_nil]|].
  specialize (IH (if time_Before (lr_firstSeen c.2) t then lr_firstSeen c.2 else t)).
  cbn in IH. unfold time_Before in *. destruct IH as (H1 & H2 & H3).
  destruct (Z.ltb_spec (lr_firstSeen c.2) t); split_and!; try lia.
  - destruct H1 as [->|(x & ? & ?)]; right; [exists c|exists x]; set_solver.
  - intros x [->|Hx]%elem_of_cons; [done|auto].
  - destruct H1 as [?|(x & ? & ?)]; [by left|right]. set_solver.
  - intros x [->|Hx]%elem_of_cons; [lia|auto].
Qed.

(** ** The order of [Acquire] *)

(** What the order looks at *)
Record ord_sim (g : auto_row Z) (r : localRow) : Prop := {
  or_group : ar_group_key g = lr_group r;
  or_first : lr_firstSeen r = ms_time (ar_first_seen g);
  or_served : match ar_last_served g with None => lr_lastServed r = 0 | Some n => 0 ≤ n ∧ lr_lastServed r = ms_time n end;
}.

Lemma ord_served g r : ord_sim g r → lr_lastServed r ≠ 0 → ∃ n, ar_last_served g = Some n ∧ lr_lastServed r = ms_time n.
Proof. intros [_ _ H] Hne. destruct (ar_last_served g) as [n|]; [|done]. destruct H. eauto. Qed.

Lemma ord_waited g r : ord_sim g r → waited r = ms_time (waiting_since g).
Proof.
  intros [_ Hf Hs]. unfold waited, waiting_since. destruct (ar_last_served g) as [n|]; cbn; [|by rewrite Hs, Hf].
  destruct Hs as [Hn ->]. by rewrite ms_time_nonzero by done.
Qed.

Section order.
Notation zrow := (string * (auto_row Z * localRow))%type.
Definition sql_view (z : zrow) : string * auto_row Z := (z.1, z.2.1).
Definition mem_view (z : zrow) : string * localRow := (z.1, z.2.2).

Context (zs : list zrow) (rows : list (string * auto_row Z)).
Context (Hrows : rows ≡ₚ sql_view <$> zs) (Hnd : NoDup zs.*1) (Hsim : ∀ z, z ∈ zs → ord_sim z.2.1 z.2.2).
Let cands := mem_view <$> zs.

Definition zgroup (g : string) : list zrow := bfilter (λ z, bool_decide (ar_group_key z.2.1 = g)) zs.

Lemma zgroup_in g z : z ∈ zgroup g ↔ ar_group_key z.2.1 = g ∧ z ∈ zs.
Proof. unfold zgroup. by rewrite elem_of_bfilter, bool_decide_eq_true. Qed.

Lemma zgroup_sub g z : z ∈ zgroup g → z ∈ zs.
Proof. rewrite zgroup_in. tauto. Qed.

Lemma partition_view g : partition_of rows g ≡ₚ sql_view <$> zgroup g.
Proof.
  unfold partition_of, zgroup. rewrite Hrows. clear. induction zs as [|z l IH]; [done|]. cbn.
  destruct (bool_decide _); cbn; by rewrite IH.
Qed.

Lemma byGroup_view g : byGroup cands g = mem_view <$> zgroup g.
Proof.
  unfold byGroup, zgroup, cands. clear Hrows Hnd. induction zs as [|z l IH]; [done|]. cbn.
  rewrite (or_group _ _ (Hsim z ltac:(constructor))). rewrite IH by (intros; apply Hsim; by constructor).
  by destruct (bool_decide _).
Qed.

Lemma zkeys_inj x y : x ∈ zs → y ∈ zs → x.1 = y.1 → x = y.
Proof. intros Hx Hy. by apply (NoDup_key fst zs). Qed.

Lemma sql_views_NoDup l : NoDup l → (∀ z, z ∈ l → z ∈ zs) → NoDup (sql_view <$> l).
Proof.
  intros Hl Hin. apply NoDup_fmap_2_strong; [|done]. intros x y Hx Hy Hxy. apply zkeys_inj; [auto..|]. by injection Hxy.
Qed.

(** Both sides sort the partition alike. *)
Lemma waiting_views x y : x ∈ zs → y ∈ zs → turn_before (mem_view x) (mem_view y) = waiting_less (sql_view x) (sql_view y).
Proof.
  intros Hx Hy. unfold turn_before, waiting_less, sql_view, mem_view; cbn.
  rewrite (ord_waited _ _ (Hsim _ Hx)), (ord_waited _ _ (Hsim _ Hy)).
  assert ((ms_time (waiting_since x.2.1) =? ms_time (waiting_since y.2.1)) = (waiting_since x.2.1 =? waiting_since y.2.1)) as ->.
  { apply eq_true_iff_eq. rewrite !Z.eqb_eq. unfold ms_time, of_ms, millisecond. lia. }
  unfold time_Before. destruct (negb _); [|done]. apply eq_true_iff_eq. by rewrite !Z.ltb_lt, ms_time_lt.
Qed.

Definition zwaiting (g : string) : list zrow := sort_slice (λ x y, waiting_less (sql_view x) (sql_view y)) (zgroup g).

Lemma waiting_orders g : sort_slice waiting_less (partition_of rows g) = sql_view <$> zwaiting g ∧
  sort_slice turn_before (byGroup cands g) = mem_view <$> zwaiting g.
Proof.
  assert (NoDup (sql_view <$> zgroup g)) as Hg.
  { apply sql_views_NoDup; [|by intros z [_ ?]%zgroup_in]. apply bfilter_NoDup. by apply NoDup_fmap_1 in Hnd. }
  split.
  - unfold zwaiting. rewrite (sort_slice_fmap sql_view _ waiting_less) by done.
    apply sort_slice_ext; [apply weak_waiting|by rewrite partition_view|done| |].
    + intros a b. rewrite !(partition_view g). intros (x & -> & Hx%zgroup_in)%list_elem_of_fmap (y & -> & Hy%zgroup_in)%list_elem_of_fmap.
      unfold waiting_less; cbn. destruct (Z.eqb_spec (waiting_since x.2.1) (waiting_since y.2.1)) as [Heq|Hne].
      * rewrite Heq, Z.eqb_refl; cbn. rewrite !string_less_le. intros H1 H2. f_equal. apply zkeys_inj; [tauto..|].
        by apply (anti_symm String.le).
      * rewrite (proj2 (Z.eqb_neq _ _)) by lia. cbn. rewrite !Z.ltb_ge. lia.
    + intros x. by rewrite (partition_view g).
  - rewrite byGroup_view. apply sort_slice_views. intros x y [_ Hx]%zgroup_in [_ Hy]%zgroup_in. by apply waiting_views.
Qed.

Lemma row_number_view k l : row_number k (sql_view <$> l) = 1 + position_of k (mem_view <$> l).
Proof. induction l as [|z l IH]; cbn; [done|]. destruct (bool_decide _); [done|]. rewrite IH. lia. Qed.

Lemma rank_views z : z ∈ zs → window_rank rows (sql_view z) = 1 + rank cands (mem_view z).
Proof.
  intros Hz. unfold window_rank, rank; cbn. rewrite <- (or_group _ _ (Hsim _ Hz)).
  destruct (waiting_orders (ar_group_key z.2.1)) as [-> ->]. apply row_number_view.
Qed.

Lemma turn_views g z : z ∈ zgroup g → groupTurn cands g = ms_time (default 0 (window_turn rows g)).
Proof.
  intros Hz. unfold groupTurn, latest_served, first_seen. rewrite byGroup_view.
  assert (∀ x, x ∈ partition_of rows g ↔ ∃ z, x = sql_view z ∧ z ∈ zgroup g) as Hin.
  { intros x. by rewrite partition_view, list_elem_of_fmap. }
  pose proof (latest_fold (mem_view <$> zgroup g) None) as Hl.
  change (foldl _ None (mem_view <$> zgroup g)) with (foldl later_served None (mem_view <$> zgroup g)).
  unfold window_turn. destruct (foldl later_served None _) as [m|]; cbn.
  - destruct Hl as ([|(c & (y & -> & Hy)%list_elem_of_fmap & Hm & Hm0)] & _ & Hmax); [done|]. cbn in Hm.
    assert (y ∈ zs) as Hys by (by eapply zgroup_sub). rewrite <- Hm in Hm0.
    destruct (ord_served _ _ (Hsim _ Hys) Hm0) as (n & Hn & Hmn).
    assert (agg_max (omap (λ c, ar_last_served c.2) (partition_of rows g)) = Some n) as ->; [|cbn; congruence].
    apply agg_max_spec. split.
    + apply list_elem_of_omap. exists (sql_view y). split; [apply Hin; eauto|done].
    + intros x (c & (w & -> & Hw)%Hin & Hx)%list_elem_of_omap. cbn in Hx. assert (w ∈ zs) as Hws by (by eapply zgroup_sub).
      pose proof (or_served _ _ (Hsim _ Hws)) as Ho. rewrite Hx in Ho. destruct Ho as [Hx0 Ho].
      specialize (Hmax (mem_view w) ltac:(apply list_elem_of_fmap; eauto)). cbn in Hmax. rewrite Ho in Hmax.
      pose proof (ms_time_nonzero x Hx0) as Hnz. unfold time_IsZero in Hnz. apply Z.eqb_neq in Hnz. specialize (Hmax Hnz).
      rewrite <- Hm, Hmn in Hmax. by apply ms_time_le.
  - destruct Hl as [_ Hl]. assert (agg_max (omap (λ c, ar_last_served c.2) (partition_of rows g)) = None) as ->.
    { apply agg_max_None. apply elem_of_nil_inv. intros x (c & (w & -> & Hw)%Hin & Hx)%list_elem_of_omap. cbn in Hx.
      assert (w ∈ zs) as Hws by (by eapply zgroup_sub). pose proof (or_served _ _ (Hsim _ Hws)) as Ho. rewrite Hx in Ho.
      destruct Ho as [Hx0 Ho]. specialize (Hl (mem_view w) ltac:(apply list_elem_of_fmap; eauto)). cbn in Hl.
      pose proof (ms_time_nonzero x Hx0) as Hnz. unfold time_IsZero in Hnz. apply Z.eqb_neq in Hnz. congruence. }
    destruct (zgroup g) as [|z0 l] eqn:Hg; [by apply not_elem_of_nil in Hz|]. cbn [fmap list_fmap].
    pose proof (first_fold (mem_view <$> l) (lr_firstSeen z0.2.2)) as Hf. cbn zeta in Hf. fold (fmap mem_view l). cbn [mem_view snd]. setoid_rewrite <- Hg in Hin.
    set (m := foldl _ _ (mem_view <$> l)) in *.
    assert (∃ y, y ∈ zgroup g ∧ lr_firstSeen y.2.2 = m ∧ ∀ w, w ∈ zgroup g → m ≤ lr_firstSeen w.2.2) as (y & Hy & Hym & Hmin).
    { rewrite Hg. destruct Hf as (H1 & H2 & H3). assert (∀ w, w ∈ z0 :: l → m ≤ lr_firstSeen w.2.2) as Hmin.
      { intros w [->|Hw]%elem_of_cons; [done|]. apply (H3 (mem_view w)), list_elem_of_fmap. eauto. }
      destruct H1 as [H1|(c & (y & -> & Hy)%list_elem_of_fmap & Hym)]; [exists z0|exists y]; split_and!; try done; by constructor. }
    assert (y ∈ zs) as Hys by (by eapply zgroup_sub). rewrite <- Hym, (or_first _ _ (Hsim _ Hys)).
    assert (agg_min ((λ c, ar_first_seen c.2) <$> partition_of rows g) = Some (ar_first_seen y.2.1)) as ->; [|done].
    apply agg_min_spec. split.
    + apply list_elem_of_fmap. exists (sql_view y). split; [done|]. apply Hin. eauto.
    + intros x (c & -> & (w & -> & Hw)%Hin)%list_elem_of_fmap. cbn. assert (w ∈ zs) as Hws by (by eapply zgroup_sub).
      specialize (Hmin w Hw). rewrite <- Hym, (or_first _ _ (Hsim _ Hys)), (or_first _ _ (Hsim _ Hws)) in Hmin. by apply ms_time_le.
Qed.

Lemma fair_views x y : x ∈ zs → y ∈ zs → cand_before cands (mem_view x) (mem_view y) = fair_less rows (sql_view x) (sql_view y).
Proof.
  intros Hx Hy. unfold cand_before, fair_less. rewrite !rank_views by done.
  assert ((1 + rank cands (mem_view x) =? 1 + rank cands (mem_view y)) = (rank cands (mem_view x) =? rank cands (mem_view y))) as ->
    by (apply eq_true_iff_eq; rewrite !Z.eqb_eq; lia).
  destruct (negb (_ =? _)) eqn:Hr; [apply eq_true_iff_eq; rewrite !Z.ltb_lt; lia|]. clear Hr.
  unfold sql_view, mem_view; cbn. rewrite <- (or_group _ _ (Hsim x Hx)), <- (or_group _ _ (Hsim y Hy)).
  rewrite (turn_views _ x), (turn_views _ y) by (by apply zgroup_in). unfold time_Before.
  set (tx := default 0 _). set (ty := default 0 _).
  assert ((ms_time tx =? ms_time ty) = (tx =? ty)) as ->.
  { apply eq_true_iff_eq. rewrite !Z.eqb_eq. unfold ms_time, of_ms, millisecond. lia. }
  destruct (negb (tx =? ty)); [|done]. apply eq_true_iff_eq. by rewrite !Z.ltb_lt, ms_time_lt.
Qed.

(** The SELECT yields the rows in the order the in-memory store grants. *)
Lemma fair_orders_agree : ∃ l, l ≡ₚ zs ∧ in_fair_order rows = sql_view <$> l ∧ sorted_cands cands = mem_view <$> l.
Proof.
  exists (sort_slice (λ x y, fair_less rows (sql_view x) (sql_view y)) zs). split_and!.
  - apply sort_slice_perm.
  - unfold in_fair_order. rewrite (sort_slice_fmap sql_view _ (fair_less rows)) by done.
    assert (NoDup (sql_view <$> zs)) as Hv by (apply sql_views_NoDup; [by eapply NoDup_fmap_1|done]).
    apply sort_slice_ext; [apply weak_fair|by rewrite Hrows|done| |by intros x; rewrite Hrows].
    intros a b Ha Hb H1 H2. rewrite Hrows in Ha, Hb. apply list_elem_of_fmap in Ha as (x & -> & Hx), Hb as (y & -> & Hy).
    f_equal. apply zkeys_inj; [done..|]. by apply (fair_less_key rows (sql_view x) (sql_view y)).
  - unfold sorted_cands. apply (sort_slice_views mem_view sql_view). intros. by apply fair_views.
Qed.
End order.
