(* ===== verification/AutoAgree.v ===== *)
(** * The SQLite automation store and the in-memory one: every call

    The relation between the two states, that every method keeps it with
    equal answers, and so that histories of calls are answered alike. *)
From S2P Require Import Prelude Core AutoTypes AutoStore Effect SqlTx SqlValues SqlAutomation SqliteAutoStore AutoSim.

(** Steps of the database on one that answers *)
Ltac run_auto := unfold autocommit, runTx, select, update, statement, fail, mret, SE_ret, mbind, SE_bind; cbn.

Section agree.
Context `{C : Clock} (json_text : string → string).
Let Hbase : 0 ≤ base := base_nonneg.
Notation D := (auto_tables Z).

(** ** The relation *)

(** An instant up to which something lasts: the same, or over in both. *)
Definition until_sim (T n : Z) (t : time) : Prop :=
  (t = ms_time n ∨ (n ≤ T ∧ t ≤ ms_time T)) ∧ of_ms (n - T) ≤ max_int64.

Record seg_sim (calls T : Z) (g : auto_row Z) (r : localRow) : Prop := {
  sg_ord : ord_sim g r;
  sg_owner : ar_owner g = lr_owner r;
  sg_epoch : ar_epoch g = lr_epoch r ∧ 0 ≤ lr_epoch r ≤ calls;
  sg_lease : until_sim T (ar_lease_until g) (lr_leaseUntil r);
  sg_pause : until_sim T (ar_paused_until g) (lr_pausedTill r);
}.

Record pub_sim (T : Z) (owner : string) (i : auto_instance) (p : published) : Prop := {
  ps_status : pu_status p = live_status (owner, i, 0);
  ps_at : pu_at p = ms_time (ai_heartbeat i) ∧ base ≤ ai_heartbeat i ≤ T;
  ps_ttl : pu_ttl p = of_ms (ai_ttl_ms i);
}.

Definition instances_of (name : string) (s : AutomationStore) : gmap string published := default ∅ (au_instances s !! name).

Record auto_sim (calls T : Z) (t : D) (s : AutomationStore) : Prop := {
  as_row name key : option_Forall2 (seg_sim calls T) (at_segments t !! (name, key)) (row_of name key s);
  as_control name : at_controls t !! name = au_paused s !! name;
  as_instance name owner : option_Forall2 (pub_sim T owner) (at_instances t !! (name, owner)) (instances_of name s !! owner);
}.

(** *** The relation as the clock runs *)
Lemma until_mono T T' n t : T ≤ T' → until_sim T n t → until_sim T' n t.
Proof.
  intros HT [[->|[H1 H2]] H3]; (split; [|unfold of_ms, millisecond in *; lia]); [by left|right].
  split; [lia|]. apply ms_time_le in HT. lia.
Qed.

Lemma until_past T n t : n ≤ T → t ≤ ms_time T → until_sim T n t.
Proof. intros. split; [by right|]. unfold of_ms, millisecond, max_int64. lia. Qed.

Lemma until_after now T n t : until_sim T n t → T ≤ now → time_After t (ms_time now) = (now <? n).
Proof.
  intros [[->|[H1 H2]] _] Hnow; unfold time_After; apply eq_true_iff_eq; rewrite !Z.ltb_lt; [by rewrite ms_time_lt|].
  pose proof (proj2 (ms_time_le T now) Hnow). lia.
Qed.

Lemma until_set now d : of_ms d ≤ max_int64 → until_sim now (now + d) (time_Add (ms_time now) (of_ms d)).
Proof. intros. rewrite ms_time_Add. split; [by left|]. by replace (now + d - now) with d by lia. Qed.

(** A pause that is set again keeps the later end. *)
Lemma until_later now n t d : until_sim now n t → of_ms d ≤ max_int64 →
  until_sim now (Z.max n (now + d)) (if time_After (time_Add (ms_time now) (of_ms d)) t then time_Add (ms_time now) (of_ms d) else t).
Proof.
  intros [H1 H2] Hd. rewrite ms_time_Add. unfold time_After. pose proof (ms_time_lt n (now + d)) as Hlt.
  pose proof (ms_time_le (now + d) now) as Hle. split.
  - destruct H1 as [->|[H1 H3]].
    + left. destruct (Z.ltb_spec (ms_time n) (ms_time (now + d))); f_equal; lia.
    + destruct (Z.ltb_spec t (ms_time (now + d))); [|right; lia].
      destruct (Z.le_gt_cases (now + d) now); [right; lia|left; f_equal; lia].
  - destruct (Z.max_spec n (now + d)) as [[_ ->]|[_ ->]]; [|done]. by replace (now + d - now) with d by lia.
Qed.

Lemma until_left now n t : until_sim now n t → Z.max 0 (time_Sub t (ms_time now)) = of_ms (Z.max (n - now) 0).
Proof.
  intros [[->|[H1 H2]] H3]; unfold time_Sub, ms_time, of_ms, millisecond, min_int64, max_int64 in *; lia.
Qed.

Lemma seg_mono calls calls' T T' g r : calls ≤ calls' → T ≤ T' → seg_sim calls T g r → seg_sim calls' T' g r.
Proof. intros Hc HT [H1 H2 H3 H4 H5]. split; [done|done|split; [tauto|lia]|by eapply until_mono..]. Qed.

Lemma pub_mono T T' owner i p : T ≤ T' → pub_sim T owner i p → pub_sim T' owner i p.
Proof. intros HT [H1 [H2 H3] H4]. split; [done|split; [done|lia]|done]. Qed.

Lemma auto_mono calls calls' T T' t s : calls ≤ calls' → T ≤ T' → auto_sim calls T t s → auto_sim calls' T' t s.
Proof.
  intros Hc HT [H1 H2 H3]. split; [|done|].
  - intros name key. eapply option_Forall2_mono; [apply H1|]. intros ? ?. by apply seg_mono.
  - intros name owner. eapply option_Forall2_mono; [apply H3|]. intros ? ?. by apply pub_mono.
Qed.

Lemma auto_sim_empty : auto_sim 0 base empty_auto NewAutomationStore.
Proof.
  split; intros; [|done|]; unfold row_of, rows_of, instances_of; cbn; rewrite ?lookup_empty; cbn; rewrite ?lookup_empty; constructor.
Qed.

Lemma auto_held_sim calls T now g r : seg_sim calls T g r → T ≤ now → heldAt r (ms_time now) = sqlite_held now g.
Proof. intros [_ Ho _ Hl _] HT. unfold heldAt, sqlite_held. by rewrite Ho, (until_after _ _ _ _ Hl HT). Qed.

Lemma paused_sim calls T now g r : seg_sim calls T g r → T ≤ now → paused_at (ms_time now) r = sqlite_paused now g.
Proof. intros [_ _ _ _ Hp] HT. unfold paused_at, sqlite_paused. by rewrite (until_after _ _ _ _ Hp HT). Qed.

(** *** Replacing one row *)
Lemma set_row_sim calls T t s name key g r :
  auto_sim calls T t s → seg_sim calls T g r →
  auto_sim calls T (with_auto_segments (<[(name, key) := g]> (at_segments t)) t)
    (set_rows name (<[key := r]> (rows_of name s)) s).
Proof.
  intros [H1 H2 H3] Hg. split; [|done|done]. intros name' key'. cbn. rewrite row_of_set.
  destruct (decide (name' = name ∧ key' = key)) as [[-> ->]|Hne]; [rewrite lookup_insert_eq; by constructor|].
  rewrite lookup_insert_ne by (intros [= <- <-]; naive_solver). apply H1.
Qed.

(** ** Recording candidates *)
Definition mem_record (now : time) (c : Candidate) (rs : gmap string localRow) : gmap string localRow :=
  let r := row (cd_Key c) now rs in
  <[cd_Key c := if bool_decide (cd_Group c = "") then r else set_group (cd_Group c) r]> rs.

Lemma see_unique now cands seen rs :
  see now cands seen rs = (cd_Key <$> unique_from cands seen, foldl (λ rs c, mem_record now c rs) rs (unique_from cands seen)).
Proof.
  revert seen rs. induction cands as [|c cands IH]; intros seen rs; [done|]. cbn [see unique_from].
  case_bool_decide; [apply IH|]. rewrite IH. done.
Qed.

Lemma unique_from_sub cands seen c : c ∈ unique_from cands seen → c ∈ cands.
Proof.
  revert seen. induction cands as [|d cands IH]; intros seen; [done|]. cbn. case_bool_decide.
  - intros H'%IH. by constructor.
  - intros [->|H'%IH]%elem_of_cons; by constructor.
Qed.

Lemma record_sim calls now t s name c rs : auto_sim calls now t (set_rows name rs s) → 0 ≤ calls → base ≤ now →
  auto_sim calls now (record_candidate 0 name now c t) (set_rows name (mem_record (ms_time now) c rs) s).
Proof.
  intros Hsim Hc Hb. pose proof (as_row _ _ _ _ Hsim name (cd_Key c)) as Hrow.
  assert (rows_of name (set_rows name rs s) = rs) as Hrs by (unfold rows_of, set_rows; cbn; by rewrite lookup_insert_eq).
  unfold row_of in Hrow. rewrite Hrs in Hrow.
  assert (set_rows name (mem_record (ms_time now) c rs) s =
          set_rows name (mem_record (ms_time now) c (rows_of name (set_rows name rs s))) (set_rows name rs s)) as ->.
  { rewrite Hrs. unfold set_rows; cbn. by rewrite insert_insert_eq. }
  unfold record_candidate, mem_record. apply set_row_sim; [done|]. unfold row. rewrite Hrs.
  inversion Hrow as [g r [H1 H2 H3 H4 H5] Hg Hr|Hg Hr]; cbn.
  - destruct H1 as [O1 O2 O3]. case_bool_decide; split; try done; split; done.
  - assert (∀ grp, seg_sim calls now (new_auto_row 0 grp now) (set_group grp (new_row (ms_time now)))) as Hnew.
    { intros grp. assert (until_sim now 0 time_zero) as Hu.
      { apply until_past; [lia|]. unfold time_zero, ms_time, of_ms, unix_epoch, second, millisecond. lia. }
      split; [by split|done|cbn; lia|done..]. }
    case_bool_decide as Hgrp; [|apply Hnew]. rewrite Hgrp. exact (Hnew "").
Qed.

Lemma records_sim calls now t s name cands rs : auto_sim calls now t (set_rows name rs s) → 0 ≤ calls → base ≤ now →
  auto_sim calls now (record_candidates 0 name cands now t)
    (set_rows name (foldl (λ rs c, mem_record (ms_time now) c rs) rs cands) s).
Proof.
  intros Hsim Hc Hb. unfold record_candidates. revert t rs Hsim. induction cands as [|c cands IH]; intros t rs Hsim; [done|].
  cbn. by apply IH, record_sim.
Qed.

(** ** [Acquire] *)
Definition plain (c : Candidate) : Prop := json_text (cd_Key c) = cd_Key c ∧ json_text (cd_Group c) = cd_Group c.

Lemma json_plain cands : Forall plain cands → json_cands json_text cands = cands.
Proof. induction 1 as [|c l [H1 H2] Hl IH]; [done|]. cbn. fold (json_cands json_text l). rewrite IH, H1, H2. by destruct c. Qed.

Lemma grants_run now name owner ttl (gs : list (string * auto_row Z)) n (t : D) :
  NoDup gs.*1 → (∀ k g, (k, g) ∈ gs → at_segments t !! (name, k) = Some g) →
  ∃ n' t', sqlite_grants (instant now) name owner (of_ms ttl) gs.*1 (n, t) = (Ok (auto_lease name owner <$> gs), (n', t')) ∧
    at_controls t' = at_controls t ∧ at_instances t' = at_instances t ∧
    (∀ k g, (k, g) ∈ gs → at_segments t' !! (name, k) = Some (auto_granted now owner ttl g)) ∧
    (∀ name' k, name' ≠ name ∨ k ∉ gs.*1 → at_segments t' !! (name', k) = at_segments t !! (name', k)).
Proof.
  revert n t. induction gs as [|[k g] gs IH]; intros n t Hnd Hin.
  { exists n, t. split_and!; try done. by intros ? ? ?%not_elem_of_nil. }
  cbn in Hnd. apply NoDup_cons in Hnd as [Hk Hnd]. cbn [fmap list_fmap fst sqlite_grants].
  set (g' := auto_granted now owner ttl g).
  destruct (IH (S n) (with_auto_segments (<[(name, k) := g']> (at_segments t)) t)) as (n' & t' & Hrun & Hc & Hi & Hg & Ho); [done| |].
  { intros k' h Hh. cbn. rewrite lookup_insert_ne; [apply Hin; by constructor|].
    intros [= <-]. apply Hk, list_elem_of_fmap. by exists (k, h). }
  exists n', t'. split_and!; [| | |intros k' h [[= -> ->]|Hh]%elem_of_cons|]; try done.
  - rewrite (bind_run _ _ (n, t) (mkSegmentLease name k owner (u64 (ar_epoch g + 1)))
      (S n, with_auto_segments (<[(name, k) := g']> (at_segments t)) t)).
    + rewrite (bind_run _ _ _ _ _ Hrun). done.
    + unfold sqlite_grant. run_auto. rewrite (Hin k g) by constructor. cbn. by rewrite Milliseconds_of_ms.
  - rewrite Ho by (by right). cbn. by rewrite lookup_insert_eq.
  - by apply Hg.
  - intros name' k' Hor. rewrite Ho by set_solver. cbn. rewrite lookup_insert_ne; [done|]. set_solver.
Qed.

Lemma same_rows_sim calls T t s name : auto_sim calls T t s → auto_sim calls T t (set_rows name (rows_of name s) s).
Proof.
  intros [H1 H2 H3]. split; [|done|done]. intros name' key. specialize (H1 name' key). unfold row_of, rows_of, set_rows in *; cbn.
  destruct (decide (name' = name)) as [->|]; [by rewrite lookup_insert_eq|by rewrite lookup_insert_ne].
Qed.

(** The candidates' rows of both states, key by key *)
Definition joint (name : string) (keys : list string) (t : D) (rs : gmap string localRow) : list (string * (auto_row Z * localRow)) :=
  omap (λ k, match at_segments t !! (name, k), rs !! k with Some g, Some r => Some (k, (g, r)) | _, _ => None end) keys.

Lemma joint_views calls now name keys t rs s :
  auto_sim calls now t (set_rows name rs s) → NoDup keys → (∀ k, k ∈ keys → is_Some (rs !! k)) →
  let zs := joint name keys t rs in
  rows_among name keys t ≡ₚ sql_view <$> zs ∧ with_rows keys rs = mem_view <$> zs ∧ zs.*1 = keys ∧
  ∀ z, z ∈ zs → seg_sim calls now z.2.1 z.2.2 ∧ at_segments t !! (name, z.1) = Some z.2.1 ∧ rs !! z.1 = Some z.2.2.
Proof.
  intros Hsim Hnd Hall zs.
  assert (∀ k, option_Forall2 (seg_sim calls now) (at_segments t !! (name, k)) (rs !! k)) as Hrow.
  { intros k. pose proof (as_row _ _ _ _ Hsim name k) as Hr. unfold row_of, rows_of, set_rows in Hr; cbn in Hr.
    by rewrite lookup_insert_eq in Hr. }
  assert (∀ z, z ∈ zs ↔ z.1 ∈ keys ∧ at_segments t !! (name, z.1) = Some z.2.1 ∧ rs !! z.1 = Some z.2.2) as Hz.
  { intros [k [g r]]. unfold zs, joint. rewrite list_elem_of_omap. cbn. split.
    - intros (k' & Hk & Hx). destruct (at_segments t !! (name, k')) eqn:E1, (rs !! k') eqn:E2; naive_solver.
    - intros (Hk & E1 & E2). exists k. by rewrite E1, E2. }
  assert (∀ k, k ∈ keys → ∃ g r, at_segments t !! (name, k) = Some g ∧ rs !! k = Some r) as Hboth.
  { intros k Hk. destruct (Hall k Hk) as [r Hr]. specialize (Hrow k). rewrite Hr in Hrow.
    destruct (at_segments t !! (name, k)) as [g|]; [eauto|inversion Hrow]. }
  assert (zs.*1 = keys) as Hkeys.
  { unfold zs, joint. clear - Hboth. induction keys as [|k keys IH]; [done|]. cbn.
    destruct (Hboth k ltac:(constructor)) as (g & r & -> & ->). cbn. f_equal. apply IH. intros. apply Hboth. by constructor. }
  split_and!; [| |done|].
  - apply NoDup_Permutation.
    + unfold rows_among. apply NoDup_omap_inj; [|apply NoDup_map_to_list]. intros [[n k] g] [[n' k'] g'] z _ _.
      repeat case_bool_decide; naive_solver.
    + apply (NoDup_fmap_1 fst). rewrite <- list_fmap_compose. change (fst ∘ sql_view) with (@fst string (auto_row Z * localRow)).
      by rewrite Hkeys.
    + intros [k g]. unfold rows_among. rewrite list_elem_of_omap, list_elem_of_fmap. split.
      * intros ([[n k'] g'] & Hin%elem_of_map_to_list & Hx). case_bool_decide as Hk; [|done]. destruct Hk as [-> Hk].
        injection Hx as -> ->. destruct (Hboth k Hk) as (g0 & r & Hg & Hr). exists (k, (g, r)). split; [done|]. by apply Hz.
      * intros ([k' [g' r]] & Hx & (Hk & Hg & _)%Hz). unfold sql_view in Hx; cbn in *. injection Hx as -> ->.
        exists (name, k', g'). split; [by apply elem_of_map_to_list|]. by rewrite bool_decide_true.
  - unfold zs, joint, with_rows, mem_view. clear - Hboth. induction keys as [|k keys IH]; [done|]. cbn.
    destruct (Hboth k ltac:(constructor)) as (g & r & -> & ->). cbn. f_equal. apply IH. intros. apply Hboth. by constructor.
  - intros z (Hk & Hg & Hr)%Hz. split_and!; [|done..]. specialize (Hrow z.1). rewrite Hg, Hr in Hrow. by inversion Hrow.
Qed.

Notation zrow := (string * (auto_row Z * localRow))%type.

(** The candidates of both states, in the order of grants *)
Lemma candidates_agree calls now t s name cands keys rs :
  auto_sim calls now t s → 0 ≤ calls → base ≤ now → see (ms_time now) cands [] (rows_of name s) = (keys, rs) →
  keys = cd_Key <$> uniqueCandidates cands ∧
  let t1 := record_candidates 0 name (uniqueCandidates cands) now t in
  auto_sim calls now t1 (set_rows name rs s) ∧
  ∃ l, NoDup l.*1 ∧ in_fair_order (rows_among name keys t1) = sql_view <$> l ∧ sorted_cands (with_rows keys rs) = mem_view <$> l ∧
    ∀ z, z ∈ l → seg_sim calls now z.2.1 z.2.2 ∧ at_segments t1 !! (name, z.1) = Some z.2.1 ∧ rs !! z.1 = Some z.2.2.
Proof.
  intros Hsim Hc Hb Hsee. destruct (see_spec _ _ _ _ _ _ Hsee) as (Hnd & _ & Hg & _). rewrite see_unique in Hsee.
  injection Hsee as Hkeys Hrs. fold (uniqueCandidates cands) in Hkeys, Hrs. split; [done|]. intros t1.
  pose proof (records_sim calls now t s name (uniqueCandidates cands) _ (same_rows_sim _ _ _ _ name Hsim) Hc Hb) as H1.
  rewrite Hrs in H1. split; [exact H1|].
  destruct (joint_views calls now name keys t1 rs s H1 Hnd) as (Hv1 & Hv2 & Hzk & Hz).
  { intros k Hk. destruct (Hg k Hk) as [g ->]. by eexists. }
  destruct (fair_orders_agree (joint name keys t1 rs) _ Hv1) as (l & Hl & Ho1 & Ho2).
  { by rewrite Hzk. } { intros z Hin. apply (sg_ord _ _ _ _ (proj1 (Hz z Hin))). }
  exists l. split_and!; [by rewrite Hl, Hzk|done|by rewrite Hv2|]. intros z Hin. apply Hz. by rewrite <- Hl.
Qed.

(** Which of them are open and free *)
Lemma views_filter (l : list zrow) (p : localRow → bool) (q : auto_row Z → bool) :
  (∀ z, z ∈ l → p z.2.2 = q z.2.1) →
  bfilter (λ c, p c.2) (mem_view <$> l) = mem_view <$> bfilter (λ z, q z.2.1) l.
Proof. intros Hpq. rewrite bfilter_fmap. f_equal. by apply bfilter_ext. Qed.

Lemma free_views calls now (l : list zrow) : (∀ z, z ∈ l → seg_sim calls now z.2.1 z.2.2) →
  bfilter (open_at (ms_time now)) (mem_view <$> l) = mem_view <$> bfilter (λ z, negb (sqlite_paused now z.2.1)) l ∧
  bfilter (free_at (ms_time now)) (mem_view <$> l) = mem_view <$> bfilter (λ z, free_row now z.2.1) l.
Proof.
  intros Hl. split.
  - apply (views_filter l (λ r, negb (paused_at (ms_time now) r)) (λ g, negb (sqlite_paused now g))).
    intros z Hin. by rewrite (paused_sim _ _ now _ _ (Hl z Hin)).
  - apply (views_filter l (λ r, negb (paused_at (ms_time now) r) && negb (heldAt r (ms_time now))) (free_row now)).
    intros z Hin. unfold free_row. by rewrite (auto_held_sim _ _ now _ _ (Hl z Hin)), (paused_sim _ _ now _ _ (Hl z Hin)).
Qed.

(** Granting the same candidates keeps the relation. *)
Lemma granted_sim calls now t1 t' s name owner ttl rs rs' (zg : list zrow) :
  auto_sim calls now t1 (set_rows name rs s) → 0 ≤ calls < max_int64 → of_ms ttl ≤ max_int64 →
  (∀ z, z ∈ zg → seg_sim calls now z.2.1 z.2.2) →
  at_controls t' = at_controls t1 → at_instances t' = at_instances t1 →
  (∀ k g, (k, g) ∈ sql_view <$> zg → at_segments t' !! (name, k) = Some (auto_granted now owner ttl g)) →
  (∀ name' k, name' ≠ name ∨ k ∉ zg.*1 → at_segments t' !! (name', k) = at_segments t1 !! (name', k)) →
  (∀ k r, (k, r) ∈ mem_view <$> zg → rs' !! k = Some (grant_row (ms_time now) owner (of_ms ttl) r)) →
  (∀ k, k ∉ zg.*1 → rs' !! k = rs !! k) →
  auto_sim (calls + 1) now t' (set_rows name rs' s).
Proof.
  intros H1 Hc Httl Hz Hc' Hi' Hin' Hout' Hin Hout. split.
  - intros name2 k2. pose proof (as_row _ _ _ _ H1 name2 k2) as Hr. unfold row_of, rows_of, set_rows in *; cbn in *.
    destruct (decide (name2 = name ∧ k2 ∈ zg.*1)) as [[-> Hk]|Hk].
    + apply list_elem_of_fmap in Hk as ([k [g r]] & -> & Hk). rewrite lookup_insert_eq. cbn.
      rewrite (Hin' k g), (Hin k r) by (apply list_elem_of_fmap; by exists (k, (g, r))).
      destruct (Hz _ Hk) as [[O1 O2 O3] S2 [S3 S3'] S4 S5]. cbn in *. constructor.
      unfold auto_granted, grant_row. rewrite u64_small by (unfold is_u64, max_int64, two64 in *; lia).
      split; [by split|done|cbn; lia|by apply until_set|done].
    + rewrite Hout' by (apply not_and_l in Hk; tauto).
      assert (∀ g r, seg_sim calls now g r → seg_sim (calls + 1) now g r) as Hm by (intros ? ?; apply seg_mono; lia).
      destruct (decide (name2 = name)) as [->|Hne].
      * rewrite lookup_insert_eq in *. cbn in *. rewrite Hout by tauto. by eapply option_Forall2_mono.
      * rewrite lookup_insert_ne in * by done. by eapply option_Forall2_mono.
  - intros name2. rewrite Hc'. apply (as_control _ _ _ _ H1).
  - intros name2 owner2. rewrite Hi'. apply (as_instance _ _ _ _ H1).
Qed.

Lemma grant_leases calls now name owner (zg : list zrow) : (∀ z, z ∈ zg → seg_sim calls now z.2.1 z.2.2) →
  grant_lease name owner <$> (mem_view <$> zg) = auto_lease name owner <$> (sql_view <$> zg).
Proof.
  intros Hz. rewrite <- !list_fmap_compose. apply list_fmap_ext. intros i z Hi%list_elem_of_lookup_2.
  cbn. unfold grant_lease, auto_lease; cbn. by rewrite (proj1 (sg_epoch _ _ _ _ (Hz z Hi))).
Qed.

Lemma Acquire_agrees calls T now t s name owner cands max_ ttl :
  auto_sim calls T t s → 0 ≤ calls < max_int64 → T ≤ now → base ≤ now → Forall plain cands → of_ms ttl ≤ max_int64 →
  ∃ t', sqlite_Acquire (instant now) json_text name owner cands max_ (of_ms ttl) t =
      (Ok (Acquire (ms_time now) name owner cands max_ (of_ms ttl) s).1, t') ∧
    auto_sim (calls + 1) now t' (Acquire (ms_time now) name owner cands max_ (of_ms ttl) s).2.
Proof.
  intros Hsim Hc HT Hb Hplain Httl. apply (auto_mono calls calls T now) in Hsim; [|lia|done].
  unfold sqlite_Acquire, Acquire. destruct (see (ms_time now) cands [] (rows_of name s)) as [keys rs] eqn:Hsee.
  destruct (candidates_agree calls now t s name cands keys rs Hsim ltac:(lia) Hb Hsee) as (Hkeys & H1 & l & Hnd & Ho1 & Ho2 & Hz).
  assert (json_cands json_text (uniqueCandidates cands) = uniqueCandidates cands) as Hjs.
  { apply json_plain, Forall_forall. intros c Hin. apply (proj1 (Forall_forall _ _) Hplain). by eapply unique_from_sub. }
  destruct (uniqueCandidates cands) as [|c0 us] eqn:Hu.
  { rewrite see_unique in Hsee. unfold uniqueCandidates in Hu. rewrite Hu in Hsee. cbn in Hsee. injection Hsee as <- <-.
    exists t. cbn. split; [done|]. apply same_rows_sim. eapply auto_mono; [..|exact Hsim]; lia. }
  rewrite <- Hu in *. clear c0 us Hu Hsee Hsim. rewrite Hjs, <- Hkeys, Ho2.
  set (t1 := record_candidates 0 name (uniqueCandidates cands) now t) in *.
  destruct (grant_all _ _ _ _ _ (mem_view <$> l) _ rs) as [res rs'] eqn:Hgr.
  apply grant_all_spec in Hgr as (G1 & G2 & G3 & G4 & G5); [|by rewrite <- list_fmap_compose].
  destruct (free_views calls now l ltac:(intros; by apply Hz)) as [Hop Hf]. rewrite Hop, Hf in *.
  cbn [ac_Granted ac_Active ac_Eligible app] in *. change (zlen []) with 0 in *. rewrite Z.sub_0_r in *.
  set (n := Z.to_nat max_) in *. set (zfree := bfilter (λ z : zrow, free_row now z.2.1) l) in *.
  rewrite <- !fmap_take in *. set (zg := take n zfree) in *.
  assert (∀ z, z ∈ zg → z ∈ l) as Hgz by (intros z Hin%elem_of_take_sub; by apply elem_of_bfilter in Hin as [_ ?]).
  assert (NoDup zg.*1) as Hndg.
  { assert (NoDup zfree.*1) as Hndf by (by apply bfilter_NoDup_fmap).
    unfold zg. rewrite <- (take_drop n zfree), fmap_app in Hndf. by apply NoDup_app in Hndf as [? _]. }
  assert ((sql_view <$> zg).*1 = zg.*1 ∧ (mem_view <$> zg).*1 = zg.*1) as [Hk1 Hk2] by (by rewrite <- !list_fmap_compose).
  destruct (grants_run now name owner ttl (sql_view <$> zg) 3 t1) as (n' & t' & Hrun & Hc' & Hi' & Hin' & Hout').
  { by rewrite Hk1. } { intros k g (z & [= -> ->] & Hin%Hgz)%list_elem_of_fmap. apply (Hz z Hin). }
  rewrite Hk1, ?Hk2 in *. exists t'. split.
  - unfold runTx. cbn [db_fault instant]. rewrite (bind_run _ _ _ () (2%nat, t1)) by done.
    rewrite (bind_run _ _ _ (select_candidates sqlite_held sqlite_paused name keys now t1) (3%nat, t1)) by done.
    unfold select_candidates. rewrite Ho1, (scan_spec now max_ (sql_view <$> l) [] 0 0). change (zlen []) with 0. rewrite Z.sub_0_r.
    assert (bfilter (λ c, free_row now c.2) (sql_view <$> l) = sql_view <$> zfree) as -> by (by rewrite bfilter_fmap).
    rewrite <- fmap_take. fold n zg. rewrite Hk1. cbn [app].
    rewrite (bind_run _ _ _ _ _ Hrun). cbn. do 2 f_equal. rewrite <- (grant_leases calls now) by (intros; by apply Hz, Hgz).
    destruct res as [a b c]. cbn in *. subst a b c. rewrite bfilter_fmap. unfold zlen. by rewrite !length_fmap, !length_drop, !length_fmap.
  - apply (granted_sim calls now t1 t' s name owner ttl rs rs' zg); try done. intros; by apply Hz, Hgz.
Qed.

(** ** [Renew] and [Release]: fenced updates, one after the other *)
Fixpoint mem_updates {A} (lease : A → SegmentLease) (p : A → localRow → bool) (f : A → localRow → localRow) (xs : list A)
    (s : AutomationStore) : list SegmentLease * AutomationStore :=
  match xs with
  | [] => ([], s)
  | x :: xs =>
    let l := lease x in
    match row_of (sl_Name l) (sl_Key l) s with
    | Some r =>
      if p x r then mem_updates lease p f xs (set_rows (sl_Name l) (<[sl_Key l := f x r]> (rows_of (sl_Name l) s)) s)
      else let '(lost, s) := mem_updates lease p f xs s in (l :: lost, s)
    | None => let '(lost, s) := mem_updates lease p f xs s in (l :: lost, s)
    end
  end.

Lemma Renew_updates now held ttl s : Renew now held ttl s =
  mem_updates id (λ l r, holds_epoch l r && time_After (lr_leaseUntil r) now)
    (λ _ r, set_lease (lr_owner r) (lr_epoch r) (time_Add now ttl) r) held s.
Proof.
  revert s. induction held as [|l held IH]; intros s; [done|]. cbn [Renew mem_updates id].
  destruct (row_of _ _ s) as [r|]; [destruct (holds_epoch l r && _)|]; by rewrite IH.
Qed.

Lemma Release_updates now rel s : Release now rel s =
  mem_updates re_Lease (λ rr, holds_epoch (re_Lease rr)) (released now) rel s.
Proof.
  revert s. induction rel as [|rr rel IH]; intros s; [done|]. cbn [Release mem_updates].
  destruct (row_of _ _ s) as [r|]; [destruct (holds_epoch _ r)|]; by rewrite IH.
Qed.

Lemma updates_agree {A} calls now text lease (p : A → Z → auto_row Z → bool) f pm fm (xs : list A) n t s :
  auto_sim calls now t s →
  (∀ x g r, x ∈ xs → seg_sim calls now g r → p x now g = pm x r ∧ seg_sim calls now (f x now g) (fm x r)) →
  ∃ n' t', fenced_updates (instant now) text lease p f xs (n, t) = (Ok (mem_updates lease pm fm xs s).1, (n', t')) ∧
    auto_sim calls now t' (mem_updates lease pm fm xs s).2.
Proof.
  revert n t s. induction xs as [|x xs IH]; intros n t s Hsim Hx; [by exists n, t|]. cbn [fenced_updates mem_updates].
  set (l := lease x). assert (∀ y g r, y ∈ xs → seg_sim calls now g r → p y now g = pm y r ∧ seg_sim calls now (f y now g) (fm y r)) as Hxs.
  { intros. apply Hx; [by constructor|done]. }
  set (upd := update_where (sl_Name l) (sl_Key l) (p x now) (f x now)).
  rewrite (bind_run _ _ (n, t) (upd t).1 (S n, (upd t).2)) by apply update_instant.
  pose proof (as_row _ _ _ _ Hsim (sl_Name l) (sl_Key l)) as Hrow. unfold upd, update_where.
  assert (∃ n' t', fenced_updates (instant now) text lease p f xs (S n, t) = (Ok (mem_updates lease pm fm xs s).1, (n', t')) ∧
    auto_sim calls now t' (mem_updates lease pm fm xs s).2) as (n1 & t1 & Hr1 & Hs1) by (by apply IH).
  destruct (mem_updates lease pm fm xs s) as [lost1 s1]; cbn in Hr1, Hs1.
  inversion Hrow as [g r Hgr Hg Hr|Hg Hr]; cbn [fst snd].
  - destruct (Hx x g r ltac:(constructor) Hgr) as [-> Hf]. destruct (pm x r); cbn [fst snd].
    + apply (set_row_sim _ _ _ _ (sl_Name l) (sl_Key l) _ _ Hsim) in Hf. destruct (IH (S n) _ _ Hf Hxs) as (n' & t' & Hrun & Hs').
      exists n', t'. by rewrite (bind_run _ _ _ _ _ Hrun).
    + exists n1, t1. by rewrite (bind_run _ _ _ _ _ Hr1).
  - exists n1, t1. by rewrite (bind_run _ _ _ _ _ Hr1).
Qed.

Lemma updates_run {A} calls T now t s text btext ctext lease (p : A → Z → auto_row Z → bool) f pm fm (xs : list A) :
  auto_sim calls T t s → T ≤ now →
  (∀ x g r, x ∈ xs → seg_sim calls now g r → p x now g = pm x r ∧ seg_sim calls now (f x now g) (fm x r)) →
  ∃ t', runTx (instant now) btext ctext (fenced_updates (instant now) text lease p f xs) t = (Ok (mem_updates lease pm fm xs s).1, t') ∧
    auto_sim (calls + 1) now t' (mem_updates lease pm fm xs s).2.
Proof.
  intros Hsim HT Hx. apply (auto_mono calls calls T now) in Hsim; [|lia|done].
  destruct (updates_agree calls now text lease p f pm fm xs 1 t s Hsim Hx) as (n' & t' & Hrun & Hs').
  exists t'. unfold runTx. cbn [db_fault instant]. rewrite Hrun. split; [done|]. eapply auto_mono; [..|exact Hs']; lia.
Qed.

Lemma fenced_sim calls T g r l : seg_sim calls T g r → calls ≤ max_int64 → is_u64 (sl_Epoch l) →
  fenced (sl_Owner l) (int64 (sl_Epoch l)) g = holds_epoch l r.
Proof.
  intros [_ Ho [He Hb] _ _] Hc Hl. unfold fenced, holds_epoch. rewrite Ho, He. f_equal. apply eq_true_iff_eq. rewrite !Z.eqb_eq.
  assert (small (lr_epoch r)) as Hs by (unfold small; lia). pose proof (int64_eq_small _ _ Hl Hs). naive_solver.
Qed.

Lemma Renew_agrees calls T now t s held ttl :
  auto_sim calls T t s → calls < max_int64 → T ≤ now → of_ms ttl ≤ max_int64 → Forall (λ l, is_u64 (sl_Epoch l)) held →
  ∃ t', sqlite_Renew (instant now) held (of_ms ttl) t = (Ok (Renew (ms_time now) held (of_ms ttl) s).1, t') ∧
    auto_sim (calls + 1) now t' (Renew (ms_time now) held (of_ms ttl) s).2.
Proof.
  intros Hsim Hc HT Httl Hheld. rewrite Renew_updates. unfold sqlite_Renew. apply (updates_run _ T); [done..|].
  intros l g r Hin Hgr. apply (proj1 (Forall_forall _ _) Hheld) in Hin. unfold renewable. cbn.
  rewrite (fenced_sim _ _ _ _ l Hgr) by (done || lia). destruct Hgr as [H1 H2 H3 H4 H5]. split.
  - by rewrite (until_after _ _ _ _ H4).
  - unfold set_renewed. rewrite Milliseconds_of_ms. destruct H1. split; cbn; [by split|done|done|by apply until_set|done].
Qed.

Definition whole_ms (d : duration) : Prop := ∃ n, d = of_ms n ∧ of_ms n ≤ max_int64.

Lemma auto_Release_agrees calls T now t s rel :
  auto_sim calls T t s → calls < max_int64 → T ≤ now → base ≤ now →
  Forall (λ rr, is_u64 (sl_Epoch (re_Lease rr)) ∧ whole_ms (re_DeferFor rr)) rel →
  ∃ t', sqlite_auto_Release (instant now) rel t = (Ok (Release (ms_time now) rel s).1, t') ∧
    auto_sim (calls + 1) now t' (Release (ms_time now) rel s).2.
Proof.
  intros Hsim Hc HT Hb Hrel. rewrite Release_updates. unfold sqlite_auto_Release. apply (updates_run _ T); [done..|].
  intros rr g r Hin Hgr. apply (proj1 (Forall_forall _ _) Hrel) in Hin as [Hep (d & Hd & Hmax)]. unfold releasable.
  rewrite (fenced_sim _ _ _ _ _ Hgr) by (done || lia). split; [done|].
  destruct Hgr as [[O1 O2 O3] H2 H3 H4 H5]. unfold released, set_auto_released, released_pause, later_pause. rewrite Hd, Milliseconds_of_ms.
  assert ((0 <? of_ms d) = (0 <? d)) as -> by (apply eq_true_iff_eq; rewrite !Z.ltb_lt; unfold of_ms, millisecond; lia).
  assert (until_sim now 0 time_zero) as Hu.
  { apply until_past; [lia|]. unfold time_zero, ms_time, of_ms, unix_epoch, second, millisecond. lia. }
  pose proof (until_later now _ _ d H5 Hmax) as Hl. cbn [set_lease lr_pausedTill] in *.
  destruct (0 <? d), (re_Served rr); try (destruct (time_After _ _)); (split; [split|..]; cbn; done || (split; [lia|done])).
Qed.

(** ** Pauses *)
Lemma upsert_pause_sim calls now t s name key d :
  auto_sim calls now t s → 0 ≤ calls → base ≤ now → of_ms d ≤ max_int64 →
  auto_sim calls now (upsert_pause 0 name key (now + d) (λ r, set_auto_pause (Z.max (ar_paused_until r) (now + d)) r) now t)
    (Defer (ms_time now) name key (of_ms d) s).
Proof.
  intros Hsim Hc Hb Hd. unfold upsert_pause, Defer. apply set_row_sim; [done|]. pose proof (as_row _ _ _ _ Hsim name key) as Hrow.
  unfold row_of in Hrow. unfold row, later_pause.
  assert (until_sim now 0 time_zero) as Hu.
  { apply until_past; [lia|]. unfold time_zero, ms_time, of_ms, unix_epoch, second, millisecond. lia. }
  inversion Hrow as [g r [[O1 O2 O3] H2 H3 H4 H5] Hg Hr|Hg Hr]; cbn [default].
  - pose proof (until_later now _ _ d H5 Hd) as Hl. destruct (time_After _ _); (split; [split|..]; done).
  - cbn. pose proof (until_set now d Hd) as Hs.
    assert (until_sim now (now + d) (if time_After (time_Add (ms_time now) (of_ms d)) time_zero then time_Add (ms_time now) (of_ms d) else time_zero)) as Hl.
    { unfold time_After. destruct (Z.ltb_spec time_zero (time_Add (ms_time now) (of_ms d))) as [|Hle]; [done|].
      apply until_past; [|destruct Hu as [[->|[_ ?]] _]; unfold time_zero, ms_time, of_ms, unix_epoch, second, millisecond; lia].
      rewrite ms_time_Add in Hle. unfold time_zero, ms_time, of_ms, unix_epoch, second, millisecond in Hle. lia. }
    destruct (time_After _ _); (split; [split|..]; done || (cbn; lia)).
Qed.

Lemma Defer_agrees calls T now t s name key d :
  auto_sim calls T t s → 0 ≤ calls → T ≤ now → base ≤ now → of_ms d ≤ max_int64 →
  ∃ t', sqlite_Defer (instant now) name key (of_ms d) t = (Ok (), t') ∧
    auto_sim (calls + 1) now t' (Defer (ms_time now) name key (of_ms d) s).
Proof.
  intros Hsim Hc HT Hb Hd. eexists. split.
  { unfold sqlite_Defer, autocommit. rewrite update_instant. cbn. rewrite Milliseconds_of_ms. done. }
  apply upsert_pause_sim; [|lia|done..]. eapply auto_mono; [..|exact Hsim]; lia.
Qed.

Lemma DeferredFor_agrees calls T now t s name key : auto_sim calls T t s → T ≤ now →
  sqlite_DeferredFor (instant now) name key t = (Ok (DeferredFor (ms_time now) name key s), t).
Proof.
  intros Hsim HT. unfold sqlite_DeferredFor, DeferredFor. run_auto. pose proof (as_row _ _ _ _ Hsim name key) as Hrow.
  inversion Hrow as [g r Hgr Hg Hr|Hg Hr]; cbn; [|done]. do 2 f_equal. symmetry. apply until_left. eapply until_mono; [done|].
  apply (sg_pause _ _ _ _ Hgr).
Qed.

Lemma SetPaused_agrees calls T now t s name p : auto_sim calls T t s → T ≤ now →
  ∃ t', sqlite_SetPaused (instant now) name p t = (Ok (), t') ∧ auto_sim (calls + 1) now t' (SetPaused name p s).
Proof.
  intros Hsim HT. eexists. split; [done|]. eapply auto_mono in Hsim as [H1 H2 H3]; [split; [exact H1| |exact H3]|lia|done].
  intros name'. cbn. destruct (decide (name = name')) as [->|]; [by rewrite !lookup_insert_eq|by rewrite !lookup_insert_ne].
Qed.

Lemma Paused_agrees calls T now t s name : auto_sim calls T t s →
  sqlite_Paused (instant now) name t = (Ok (Paused_ name s), t).
Proof.
  intros Hsim. unfold sqlite_Paused, Paused_. run_auto. rewrite (as_control _ _ _ _ Hsim). by destruct (au_paused s !! name).
Qed.

(** ** Statuses *)
Lemma Phase_of_int p : Phase_of (Phase_int p) = p.
Proof. by destruct p. Qed.

Lemma expired_agree now owner i p : pub_sim now owner i p → now ≤ base + span →
  auto_expired 1 now i = negb (time_Sub (ms_time now) (pu_at p) <=? pu_ttl p).
Proof.
  intros [_ [-> Hb] ->] Hnow. rewrite ms_Sub by lia. unfold auto_expired, of_ms, millisecond. apply eq_true_iff_eq.
  rewrite negb_true_iff, Z.ltb_lt, Z.leb_gt. lia.
Qed.

Lemma auto_SaveStatus_agrees calls T now t s name st ttl :
  auto_sim calls T t s → T ≤ now ≤ base + span → base ≤ now →
  is_u64 (st_Processed st) → is_u64 (st_Failed st) → is_u64 (st_Deferred st) →
  ∃ t', sqlite_auto_SaveStatus (instant now) name st (of_ms ttl) t = (Ok (), t') ∧
    auto_sim (calls + 1) now t' (SaveStatus (ms_time now) name st (of_ms ttl) s).
Proof.
  intros Hsim [HT Hspan] Hb Hp Hf Hd. eexists. split; [done|]. cbn. rewrite Milliseconds_of_ms.
  eapply auto_mono in Hsim as [H1 H2 H3]; [split; [exact H1|exact H2|]|lia|exact HT]. intros name' owner.
  unfold instances_of, SaveStatus; cbn. rewrite !lookup_insert. destruct (decide (name = name')) as [<-|Hn]; cbn.
  - destruct (decide (st_Owner st = owner)) as [<-|Ho].
    + rewrite !decide_True by done. rewrite lookup_insert_eq. constructor. split; [|done|done]. cbn.
      unfold with_age, live_status; cbn. by rewrite Phase_of_int, !u64_int64, !u64_small.
    + rewrite decide_False by congruence. rewrite lookup_insert_ne by done. specialize (H3 name owner).
      unfold instances_of in H3. inversion H3 as [i p Hip Hi Hpu|Hi Hpu].
      * pose proof (expired_agree now owner i p Hip Hspan) as He.
        destruct (auto_expired 1 now i) eqn:Hx; symmetry in He; [apply negb_true_iff, Z.leb_gt in He|apply negb_false_iff, Z.leb_le in He].
        -- rewrite !map_lookup_filter, <- Hi, <- Hpu. cbn. rewrite option_guard_False, option_guard_False; [constructor|lia|].
           rewrite bool_decide_true, Hx; done.
        -- rewrite !map_lookup_filter, <- Hi, <- Hpu. cbn. rewrite option_guard_True, option_guard_True; [by constructor|lia|].
           rewrite Hx. apply andb_false_r.
      * rewrite !map_lookup_filter, <- Hi, <- Hpu. constructor.
  - rewrite decide_False by congruence. specialize (H3 name' owner). unfold instances_of in H3. rewrite map_lookup_filter.
    destruct (at_instances t !! (name', owner)) as [i|]; cbn; [|done].
    rewrite option_guard_True; [done|]. by rewrite bool_decide_false.
Qed.

Lemma auto_LoadStatuses_agrees calls T now t s name : auto_sim calls T t s → T ≤ now ≤ base + span →
  sqlite_auto_LoadStatuses (instant now) name t = (Ok (LoadStatuses (ms_time now) name s), t).
Proof.
  intros Hsim [HT Hspan]. apply (auto_mono calls calls T now) in Hsim; [|lia|done].
  unfold sqlite_auto_LoadStatuses. run_auto. do 2 f_equal. rewrite <- list_fmap_compose. unfold select_live, LoadStatuses.
  rewrite (sort_slice_fmap _ _ (λ a b, string_less (st_Owner a) (st_Owner b))) by (by intros [] []).
  fold (instances_of name s). pose proof (as_instance _ _ _ _ Hsim name) as Hi.
  set (F := live_status ∘ _). set (sql := omap _ (map_to_list (at_instances t))).
  assert (∀ o i, (o, i) ∈ sql ↔ at_instances t !! (name, o) = Some i ∧ auto_expired 1 now i = false) as Hsql.
  { intros o i. unfold sql. rewrite list_elem_of_omap. split.
    - intros ([[n o'] i'] & Hin%elem_of_map_to_list & Hx). destruct (bool_decide_reflect (n = name)); [|done].
      destruct (auto_expired 1 now i') eqn:He; naive_solver.
    - intros [Hin He]. exists (name, o, i). split; [by apply elem_of_map_to_list|]. by rewrite bool_decide_true, He. }
  assert (∀ st, st ∈ F <$> sql ↔ ∃ o i, st = F (o, i) ∧ at_instances t !! (name, o) = Some i ∧ auto_expired 1 now i = false) as Hl.
  { intros st. rewrite list_elem_of_fmap. split; [intros ([o i] & -> & Hin%Hsql); eauto|].
    intros (o & i & -> & Hin). exists (o, i). split; [done|by apply Hsql]. }
  assert (∀ a b, a ∈ F <$> sql → b ∈ F <$> sql → st_Owner a = st_Owner b → a = b) as Hinj.
  { intros a b (o & i & -> & Ha & _)%Hl (o' & i' & -> & Hb & _)%Hl. cbn. intros ->. congruence. }
  apply sort_slice_ext.
  - apply weak_string.
  - apply NoDup_fmap_2_strong.
    + intros [o i] [o' i'] Hx%Hsql Hy%Hsql Hxy. assert (o = o') as -> by (by injection Hxy). naive_solver.
    + unfold sql. apply NoDup_omap_inj; [|apply NoDup_map_to_list]. intros [[n o] i] [[n' o'] i'] z _ _.
      destruct (bool_decide_reflect (n = name)), (bool_decide_reflect (n' = name)), (auto_expired 1 now i), (auto_expired 1 now i'); naive_solver.
  - apply NoDup_omap_inj; [|apply NoDup_map_to_list]. intros [o p] [o' p'] z Hx%elem_of_map_to_list Hy%elem_of_map_to_list.
    destruct (_ <=? pu_ttl p), (_ <=? pu_ttl p'); try done. intros [= <-] [= Heq]. pose proof (Hi o) as Ho. pose proof (Hi o') as Ho'.
    rewrite Hx in Ho. rewrite Hy in Ho'. inversion Ho as [i q [Hs1 _ _]|]; subst. inversion Ho' as [i' q' [Hs2 _ _]|]; subst.
    rewrite Hs1, Hs2 in Heq. unfold with_age, live_status in Heq; cbn in Heq. assert (o = o') as -> by congruence. congruence.
  - intros a b Ha Hb H1 H2. apply Hinj; [done..|]. apply (anti_symm String.le); by apply string_less_le.
  - intros st. rewrite Hl, list_elem_of_omap. split.
    + intros (o & i & -> & Hin & He). specialize (Hi o). rewrite Hin in Hi. inversion Hi as [? p Hip Hx Hp|]; subst.
      exists (o, p). split; [by apply elem_of_map_to_list|]. rewrite (expired_agree now o i p Hip Hspan) in He.
      apply negb_false_iff in He. rewrite He. f_equal. destruct Hip as [-> [-> Hb] _]. rewrite ms_Sub by lia. done.
    + intros ([o p] & Hin%elem_of_map_to_list & Hx). specialize (Hi o). rewrite Hin in Hi. inversion Hi as [i ? Hip Hx' Hp|]; subst.
      destruct (_ <=? pu_ttl p) eqn:He; [|done]. exists o, i. split_and!; [|done|by rewrite (expired_agree now o i p Hip Hspan), He].
      injection Hx as <-. destruct Hip as [-> [-> Hb] _]. rewrite ms_Sub by lia. done.
Qed.

(** ** Segments *)
Lemma LoadSegments_agrees calls T now t s name : auto_sim calls T t s → T ≤ now →
  sqlite_LoadSegments (instant now) name t = (Ok (LoadSegments (ms_time now) name s), t).
Proof.
  intros Hsim HT. apply (auto_mono calls calls T now) in Hsim; [|lia|done].
  unfold sqlite_LoadSegments. run_auto. do 2 f_equal. rewrite <- list_fmap_compose. unfold auto_segments_of, LoadSegments.
  rewrite (sort_slice_fmap _ _ (λ a b, string_less (sg_Key a) (sg_Key b))) by (by intros [] []).
  pose proof (as_row _ _ _ _ Hsim name) as Hi. unfold row_of in Hi. set (F := _ ∘ _). set (sql := omap _ (map_to_list (at_segments t))).
  set (G := λ '(key, r), mkSegmentState key _ _ _).
  assert (∀ k g, (k, g) ∈ sql ↔ at_segments t !! (name, k) = Some g) as Hsql.
  { intros k g. unfold sql. rewrite list_elem_of_omap. split.
    - intros ([[n k'] g'] & Hin%elem_of_map_to_list & Hx). destruct (bool_decide_reflect (n = name)); naive_solver.
    - intros Hin. exists (name, k, g). split; [by apply elem_of_map_to_list|]. by rewrite bool_decide_true. }
  assert (∀ k g r, seg_sim calls now g r → F (k, g) = G (k, r)) as HFG.
  { intros k g r Hgr. unfold F, G; cbn. rewrite (auto_held_sim _ _ now _ _ Hgr) by done.
    rewrite (until_left _ _ _ (sg_pause _ _ _ _ Hgr)). rewrite <- (sg_owner _ _ _ _ Hgr). by rewrite (or_group _ _ (sg_ord _ _ _ _ Hgr)). }
  apply sort_slice_ext.
  - apply weak_string.
  - apply NoDup_fmap_2_strong.
    + intros [k g] [k' g'] Hx%Hsql Hy%Hsql Hxy. assert (k = k') as -> by (by injection Hxy). naive_solver.
    + unfold sql. apply NoDup_omap_inj; [|apply NoDup_map_to_list]. intros [[n k] g] [[n' k'] g'] z _ _.
      destruct (bool_decide_reflect (n = name)), (bool_decide_reflect (n' = name)); naive_solver.
  - apply NoDup_fmap_2_strong; [|apply NoDup_map_to_list].
    intros [k r] [k' r'] Hx%elem_of_map_to_list Hy%elem_of_map_to_list Hxy. assert (k = k') as -> by (by injection Hxy). congruence.
  - intros a b ([k g] & -> & Ha%Hsql)%list_elem_of_fmap ([k' g'] & -> & Hb%Hsql)%list_elem_of_fmap H1 H2.
    assert (k = k') as -> by (apply (anti_symm String.le); by apply string_less_le). congruence.
  - intros x. rewrite !list_elem_of_fmap. split.
    + intros ([k g] & -> & Hin%Hsql). specialize (Hi k). rewrite Hin in Hi. inversion Hi as [? r Hgr Hx Hr|]; subst.
      exists (k, r). split; [by apply HFG|]. by apply elem_of_map_to_list.
    + intros ([k r] & -> & Hin%elem_of_map_to_list). specialize (Hi k). rewrite Hin in Hi. inversion Hi as [g ? Hgr Hx Hr|]; subst.
      exists (k, g). split; [symmetry; by apply HFG|]. by apply Hsql.
Qed.

(** ** Histories *)

(** A call of an automation store; times to live and pauses in milliseconds *)
Inductive auto_call : Type :=
| AAcquire (name owner : string) (candidates : list Candidate) (max_ ttl_ms : Z)
| ARenew (held : list SegmentLease) (ttl_ms : Z)
| ARelease (rel : list (SegmentLease * Z * bool))
| ADefer (name key : string) (d_ms : Z)
| ADeferredFor (name key : string)
| ASetPaused (name : string) (paused : bool)
| APaused (name : string)
| ASaveStatus (name : string) (st : Status) (ttl_ms : Z)
| ALoadStatuses (name : string)
| ALoadSegments (name : string).

Inductive auto_answer : Type :=
| GotSegments (r : result error AcquireResult)
| GotLost (r : result error (list SegmentLease))
| GotDone (r : result error ())
| GotPause (r : result error duration)
| GotPaused (r : result error bool)
| GotStatuses (r : result error (list Status))
| GotStates (r : result error (list SegmentState)).

Definition release_requests (rel : list (SegmentLease * Z * bool)) : list ReleaseRequest :=
  (λ '(l, d_ms, served), mkRelease l (of_ms d_ms) served) <$> rel.

Definition reply {A S} (f : A → auto_answer) (x : A * S) : auto_answer * S := (f x.1, x.2).

Definition sqlite_auto_call (now : Z) (c : auto_call) (t : D) : auto_answer * D :=
  let db := instant now in
  match c with
  | AAcquire name owner cands max_ ttl => reply GotSegments (sqlite_Acquire db json_text name owner cands max_ (of_ms ttl) t)
  | ARenew held ttl => reply GotLost (sqlite_Renew db held (of_ms ttl) t)
  | ARelease rel => reply GotLost (sqlite_auto_Release db (release_requests rel) t)
  | ADefer name key d => reply GotDone (sqlite_Defer db name key (of_ms d) t)
  | ADeferredFor name key => reply GotPause (sqlite_DeferredFor db name key t)
  | ASetPaused name paused => reply GotDone (sqlite_SetPaused db name paused t)
  | APaused name => reply GotPaused (sqlite_Paused db name t)
  | ASaveStatus name st ttl => reply GotDone (sqlite_auto_SaveStatus db name st (of_ms ttl) t)
  | ALoadStatuses name => reply GotStatuses (sqlite_auto_LoadStatuses db name t)
  | ALoadSegments name => reply GotStates (sqlite_LoadSegments db name t)
  end.

Definition memory_auto_call (now : Z) (c : auto_call) (s : AutomationStore) : auto_answer * AutomationStore :=
  let now := ms_time now in
  match c with
  | AAcquire name owner cands max_ ttl => reply (λ r, GotSegments (Ok r)) (Acquire now name owner cands max_ (of_ms ttl) s)
  | ARenew held ttl => reply (λ r, GotLost (Ok r)) (Renew now held (of_ms ttl) s)
  | ARelease rel => reply (λ r, GotLost (Ok r)) (Release now (release_requests rel) s)
  | ADefer name key d => (GotDone (Ok ()), Defer now name key (of_ms d) s)
  | ADeferredFor name key => (GotPause (Ok (DeferredFor now name key s)), s)
  | ASetPaused name paused => (GotDone (Ok ()), SetPaused name paused s)
  | APaused name => (GotPaused (Ok (Paused_ name s)), s)
  | ASaveStatus name st ttl => (GotDone (Ok ()), SaveStatus now name st (of_ms ttl) s)
  | ALoadStatuses name => (GotStatuses (Ok (LoadStatuses now name s)), s)
  | ALoadSegments name => (GotStates (Ok (LoadSegments now name s)), s)
  end.

(** Numbers as Go has them: Durations, uint64s, and keys that JSON keeps. *)
Definition auto_call_ok (c : auto_call) : Prop :=
  match c with
  | AAcquire _ _ cands _ ttl => Forall plain cands ∧ of_ms ttl ≤ max_int64
  | ARenew held ttl => Forall (λ l, is_u64 (sl_Epoch l)) held ∧ of_ms ttl ≤ max_int64
  | ARelease rel => Forall (λ '(l, d, _), is_u64 (sl_Epoch l) ∧ of_ms d ≤ max_int64) rel
  | ADefer _ _ d => of_ms d ≤ max_int64
  | ASaveStatus _ st _ => is_u64 (st_Processed st) ∧ is_u64 (st_Failed st) ∧ is_u64 (st_Deferred st)
  | _ => True
  end.

Fixpoint auto_history_ok (T : Z) (cs : list (Z * auto_call)) : Prop :=
  match cs with
  | [] => True
  | (now, c) :: cs => T ≤ now ≤ base + span ∧ auto_call_ok c ∧ auto_history_ok now cs
  end.

Lemma auto_call_agrees calls T now c t s :
  auto_sim calls T t s → 0 ≤ calls < max_int64 → T ≤ now ≤ base + span → base ≤ now → auto_call_ok c →
  ∃ t', sqlite_auto_call now c t = ((memory_auto_call now c s).1, t') ∧ auto_sim (calls + 1) now t' (memory_auto_call now c s).2.
Proof.
  intros Hsim Hc Hnow Hb Hok. assert (auto_sim (calls + 1) now t s) as Hsame by (eapply auto_mono; [..|exact Hsim]; lia).
  assert (T ≤ now) as HT by lia. assert (0 ≤ calls) as Hc0 by lia. assert (calls < max_int64) as Hc1 by lia.
  destruct c as [name owner cands max_ ttl|held ttl|rel|name key d|name key|name p|name|name st ttl|name|name];
    cbn [auto_call_ok] in Hok; unfold sqlite_auto_call, memory_auto_call, reply.
  - destruct Hok as [? ?]. destruct (Acquire_agrees _ _ _ _ _ name owner cands max_ ttl Hsim Hc HT Hb) as (t' & -> & ?); [done..|]. by exists t'.
  - destruct Hok as [? ?]. destruct (Renew_agrees _ _ _ _ _ held ttl Hsim Hc1 HT) as (t' & -> & ?); [done..|]. by exists t'.
  - destruct (auto_Release_agrees _ _ _ _ _ (release_requests rel) Hsim Hc1 HT Hb) as (t' & -> & ?); [|by exists t'].
    apply Forall_fmap. eapply Forall_impl; [exact Hok|]. intros [[l d] b] [? ?]. split; [done|]. by exists d.
  - destruct (Defer_agrees _ _ _ _ _ name key d Hsim Hc0 HT Hb Hok) as (t' & -> & ?). by exists t'.
  - rewrite (DeferredFor_agrees _ _ _ _ _ name key Hsim HT). by exists t.
  - destruct (SetPaused_agrees _ _ now _ _ name p Hsim HT) as (t' & -> & ?). by exists t'.
  - rewrite (Paused_agrees _ _ now _ _ name Hsim). by exists t.
  - destruct Hok as (? & ? & ?). destruct (auto_SaveStatus_agrees _ _ _ _ _ name st ttl Hsim Hnow Hb) as (t' & -> & ?); [done..|]. by exists t'.
  - rewrite (auto_LoadStatuses_agrees _ _ _ _ _ name Hsim Hnow). by exists t.
  - rewrite (LoadSegments_agrees _ _ _ _ _ name Hsim HT). by exists t.
Qed.

Lemma auto_answers_agree calls T t s cs : auto_sim calls T t s → base ≤ T → 0 ≤ calls → calls + zlen cs < max_int64 →
  auto_history_ok T cs → answers sqlite_auto_call cs t = answers memory_auto_call cs s.
Proof.
  revert calls T t s. induction cs as [|[now c] cs IH]; intros calls T t s Hsim HT Hc0 Hc Hok; [done|].
  destruct Hok as (Hnow & Hcall & Hok). rewrite zlen_cons in Hc. pose proof (zlen_nonneg cs). cbn [answers].
  destruct (auto_call_agrees calls T now c t s) as (t' & Hrun & Hsim'); [done|lia|done|lia|done|].
  rewrite Hrun. destruct (memory_auto_call now c s) as [a s']. cbn in *. f_equal. apply (IH (calls + 1) now); [done|lia|lia|lia|done].
Qed.

End agree.
