(* ===== verification/PgAutoStore.v ===== *)
(** * The PostgreSQL automation store ([postgres/automation_store.go])

    The database is the tables of [SqlAutomation], with instants in
    microseconds and NULL where they are unset.  [now()] is the start of the
    transaction, which is its first call of the database.  Each method here is
    what it does while no other transaction is under way; [PgLeases] has the
    locks of those that run side by side. *)
From S2P Require Import Prelude Core AutoTypes Effect SqlTx SqlValues SqlAutomation.

(** Microseconds per millisecond *)
Definition us_per_ms : Z := 1000.

(** [greatest(a, b)] with a NULL; [ceil(n / 1000)] and the cast of [n / 1000]
    to BIGINT, which rounds, half away from zero *)
Definition greatest (a : option Z) (b : Z) : Z := match a with None => b | Some a => Z.max a b end.
Definition ceil_ms (us : Z) : Z := - (- us / us_per_ms).
Definition round_ms (us : Z) : Z := Z.sgn us * ((Z.abs us + 500) / us_per_ms).

(** An UPDATE ... FROM a list of parameters: each row that one of them selects
    is set by it, the first where several do; and what RETURNING sees *)
Section update_from.
Context {A I : Type} (key : A → string * string) (p : A → auto_row I → bool) (f : A → auto_row I → auto_row I).

Fixpoint selecting (hs : list A) (k : string * string) (r : auto_row I) : option A :=
  match hs with
  | [] => None
  | h :: hs => if bool_decide (key h = k) && p h r then Some h else selecting hs k r
  end.

Definition update_from (hs : list A) (t : auto_tables I) : list (string * string * auto_row I * A) * auto_tables I :=
  (omap (λ '(k, r), (λ h, (k, f h r, h)) <$> selecting hs k r) (map_to_list (at_segments t)),
   with_auto_segments (map_imap (λ k r, Some (match selecting hs k r with Some h => f h r | None => r end)) (at_segments t)) t).
End update_from.

Section store.
Context (env : db_env).
Notation row := (auto_row (option Z)).
Notation D := (auto_tables (option Z)).

Definition txnow : Z := db_clock env 0.

Definition pg_held (now : Z) (r : row) : bool :=
  negb (bool_decide (ar_owner r = "")) && match ar_lease_until r with Some u => now <? u | None => false end.
Definition pg_paused (now : Z) (r : row) : bool := match ar_paused_until r with Some u => now <? u | None => false end.

(** ** Acquire *)

(** UPDATE ... RETURNING of the keys to grant *)
Definition grant_rows (name owner : string) (grant : list string) (ttl_ms now : Z) (t : D) : gmap string Z * D :=
  let '(rows, t) := update_from (pair name) (λ _ _, true)
    (λ _ r, set_auto_lease owner (ar_epoch r + 1) (Some (now + ttl_ms * us_per_ms)) r) grant t in
  (list_to_map ((λ '(k, r, _), (k.2, ar_epoch r)) <$> rows), t).

Fixpoint granted_leases (name owner : string) (epochs : gmap string Z) (grant : list string) : result error (list SegmentLease) :=
  match grant with
  | [] => Ok []
  | key :: grant =>
    match epochs !! key with
    | None => Fail (New "row vanished")
    | Some epoch =>
      match granted_leases name owner epochs grant with
      | Ok ls => Ok (mkSegmentLease name key owner (u64 epoch) :: ls)
      | Fail e => Fail e
      end
    end
  end.

Definition pg_Acquire (name owner : string) (candidates : list Candidate) (max_ : Z) (ttl : duration) :
    D → result error AcquireResult * D :=
  match uniqueCandidates candidates with
  | [] => λ t, (Ok (mkAcquired [] 0 0), t)
  | cands =>
    runTx env "acquire" "acquire" (
      update env "record candidates" (λ _ t, ((), record_candidates None name cands txnow t)) ;;
      rows ← select env "read candidates" (λ _, select_candidates pg_held pg_paused name (cd_Key <$> cands) txnow);
      let '(grant, active, eligible) := scan_candidates max_ rows [] 0 0 in
      match grant with
      | [] => mret (mkAcquired [] active eligible)
      | _ =>
        epochs ← update env "grant" (λ _, grant_rows name owner grant (Milliseconds ttl) txnow);
        match granted_leases name owner epochs grant with
        | Fail e => fail e
        | Ok granted => mret (mkAcquired granted active eligible)
        end
      end)
  end.

(** ** Renew and Release *)
Definition lease_key (l : SegmentLease) : string * string := (sl_Name l, sl_Key l).

(** [unmatched] *)
Definition unmatched (done want : list SegmentLease) : list SegmentLease := bfilter (λ l, negb (bool_decide (l ∈ done))) want.

Definition pg_renewable (now : Z) (l : SegmentLease) (r : row) : bool :=
  fenced (sl_Owner l) (int64 (sl_Epoch l)) r && match ar_lease_until r with Some u => now <? u | None => false end.

Definition renew_rows (held : list SegmentLease) (ttl_ms now : Z) (t : D) : list SegmentLease * D :=
  let '(rows, t) := update_from lease_key (pg_renewable now)
    (λ _ r, set_auto_lease (ar_owner r) (ar_epoch r) (Some (now + ttl_ms * us_per_ms)) r) held t in
  ((λ '(k, r, _), mkSegmentLease k.1 k.2 (ar_owner r) (u64 (ar_epoch r))) <$> rows, t).

Definition pg_Renew (held : list SegmentLease) (ttl : duration) : D → result error (list SegmentLease) * D :=
  match held with
  | [] => λ t, (Ok [], t)
  | _ =>
    autocommit (
      done ← update env "renew" (λ _, renew_rows held (Milliseconds ttl) txnow);
      mret (unmatched done held))
  end.

Definition pg_released (now : Z) (rr : ReleaseRequest) (r : row) : row :=
  let defer_ms := Milliseconds (re_DeferFor rr) in
  mkAutoRow (ar_group_key r) "" (ar_epoch r) None
    (if 0 <? defer_ms then Some (greatest (ar_paused_until r) (now + defer_ms * us_per_ms)) else ar_paused_until r)
    (ar_first_seen r) (if re_Served rr then Some now else ar_last_served r).

Definition release_rows (rel : list ReleaseRequest) (now : Z) (t : D) : list SegmentLease * D :=
  let '(rows, t) := update_from (λ rr, lease_key (re_Lease rr))
    (λ rr, fenced (sl_Owner (re_Lease rr)) (int64 (sl_Epoch (re_Lease rr)))) (pg_released now) rel t in
  ((λ '(k, _, rr), mkSegmentLease k.1 k.2 (sl_Owner (re_Lease rr)) (u64 (int64 (sl_Epoch (re_Lease rr))))) <$> rows, t).

Definition pg_auto_Release (rel : list ReleaseRequest) : D → result error (list SegmentLease) * D :=
  match rel with
  | [] => λ t, (Ok [], t)
  | _ =>
    autocommit (
      done ← update env "release" (λ _, release_rows rel txnow);
      mret (unmatched done (re_Lease <$> rel)))
  end.

(** ** Pauses *)
Definition pg_Defer (name key : string) (d : duration) : D → result error () * D :=
  autocommit (update env "defer" (λ _ t,
    let until := txnow + Milliseconds d * us_per_ms in
    ((), upsert_pause None name key (Some until) (λ r, set_auto_pause (Some (greatest (ar_paused_until r) until)) r) txnow t))).

(** [coalesce(greatest(ceil(...), 0), 0)] *)
Definition paused_ms (now : Z) (r : row) : Z :=
  match ar_paused_until r with None => 0 | Some u => Z.max (ceil_ms (u - now)) 0 end.

Definition pg_DeferredFor (name key : string) : D → result error duration * D :=
  autocommit (
    row ← select env "deferred for" (λ _ (t : D), paused_ms txnow <$> at_segments t !! (name, key));
    match row with None => mret 0 | Some n => mret (of_ms n) end).

Definition pg_SetPaused (name : string) (paused : bool) : D → result error () * D :=
  autocommit (update env "set paused" (λ _ t, ((), upsert_control name paused t))).

Definition pg_Paused (name : string) : D → result error bool * D :=
  autocommit (
    row ← select env "paused" (λ _ (t : D), at_controls t !! name);
    match row with None => mret false | Some p => mret p end).

(** ** Statuses *)
Definition pg_auto_SaveStatus (name : string) (st : Status) (ttl : duration) : D → result error () * D :=
  runTx env "save status" "save status" (
    update env "expire" (λ _ t, ((), delete_expired us_per_ms name txnow t)) ;;
    update env "write" (λ _ t,
      ((), upsert_auto_instance name (st_Owner st) (Phase_int (st_Phase st)) (st_WaitingFor st)
             (int64 (st_Processed st)) (int64 (st_Failed st)) (int64 (st_Deferred st)) (st_LastError st)
             (Milliseconds ttl) txnow t))).

Definition pg_live_status (row : string * auto_instance * Z) : Status :=
  let '(owner, i, ageMS) := row in
  mkStatus owner (Phase_of (ai_phase i)) (ai_waiting_for i) (u64 (ai_processed i)) (u64 (ai_failed i))
    (u64 (ai_deferred i)) (ai_last_error i) (of_ms ageMS).

Definition pg_auto_LoadStatuses (name : string) : D → result error (list Status) * D :=
  autocommit (
    rows ← select env "load statuses" (λ _ t,
      (λ x : string * auto_instance, (x, round_ms (txnow - ai_heartbeat x.2))) <$> select_live us_per_ms name txnow t);
    mret (pg_live_status <$> rows)).

Definition pg_LoadSegments (name : string) : D → result error (list SegmentState) * D :=
  autocommit (
    rows ← select env "load segments" (λ _ t,
      (λ '(k, r), (k, ar_group_key r, if pg_held txnow r then ar_owner r else "", paused_ms txnow r)) <$> auto_segments_of name t);
    mret ((λ '(k, g, o, pauseMS), mkSegmentState k g o (of_ms pauseMS)) <$> rows)).
End store.
