(* ===== verification/PgAutoAgree.v ===== *)
(** * The PostgreSQL automation store and the SQLite one

    At readings of a clock in whole milliseconds the two stores keep the same
    rows, microseconds and NULL in the one where milliseconds and 0 are in the
    other, and give the same answers; so the PostgreSQL store, too, behaves
    as the in-memory one.  Between whole milliseconds its answers about pauses
    and ages are rounded. *)
From S2P Require Import Prelude Core AutoTypes AutoStore Effect SqlTx SqlValues SqlAutomation SqliteAutoStore AutoSim AutoAgree PgAutoStore.

(** ** Rows *)
Definition until_scaled (n : Z) (u : option Z) : Prop := match u with None => n = 0 | Some m => m = us_per_ms * n end.

Record row_scaled (g : auto_row Z) (h : auto_row (option Z)) : Prop := {
  rs_group : ar_group_key h = ar_group_key g;
  rs_owner : ar_owner h = ar_owner g;
  rs_epoch : ar_epoch h = ar_epoch g;
  rs_lease : until_scaled (ar_lease_until g) (ar_lease_until h);
  rs_pause : until_scaled (ar_paused_until g) (ar_paused_until h);
  rs_first : ar_first_seen h = us_per_ms * ar_first_seen g;
  rs_served : ar_last_served h = Z.mul us_per_ms <$> ar_last_served g;
}.

(** ** The order of [Acquire] does not depend on the order of the table. *)
Section perm.
Context {I : Type}.
Implicit Types rows : list (string * auto_row I).

Lemma agg_max_perm l l' : l ≡ₚ l' → agg_max l = agg_max l'.
Proof.
  intros Hp. destruct (agg_max l) as [m|] eqn:Hm; symmetry.
  - apply agg_max_spec in Hm. apply agg_max_spec. by setoid_rewrite <- Hp.
  - apply agg_max_None in Hm. apply agg_max_None. subst. by apply Permutation_nil_l in Hp.
Qed.

Lemma agg_min_perm l l' : l ≡ₚ l' → agg_min l = agg_min l'.
Proof.
  intros Hp. destruct (agg_min l) as [m|] eqn:Hm; symmetry.
  - apply agg_min_spec in Hm. apply agg_min_spec. by setoid_rewrite <- Hp.
  - destruct l; [|done]. by apply Permutation_nil_l in Hp as <-.
Qed.

Lemma window_rank_perm rows rows' c : rows ≡ₚ rows' → NoDup rows.*1 → window_rank rows c = window_rank rows' c.
Proof.
  intros Hp Hnd. unfold window_rank. f_equal.
  assert (∀ g, partition_of rows g ≡ₚ partition_of rows' g) as Hpart by (intros g; unfold partition_of; by rewrite Hp).
  assert (NoDup (partition_of rows (ar_group_key c.2)).*1) as Hk by (by apply bfilter_NoDup_fmap).
  apply sort_slice_ext; [apply weak_waiting|by eapply NoDup_fmap_1| | |intros x; by rewrite Hpart].
  - rewrite <- Hpart. by eapply NoDup_fmap_1.
  - intros a b Ha Hb H1 H2. eapply (NoDup_key fst); [exact Hk|done..|].
    unfold waiting_less in H1, H2. destruct (Z.eqb_spec (waiting_since a.2) (waiting_since b.2)) as [Heq|Hne]; cbn in H1.
    + rewrite Heq, Z.eqb_refl in H2. cbn in H2. apply (anti_symm String.le); by apply string_less_le.
    + rewrite (proj2 (Z.eqb_neq _ _)) in H2 by done. cbn in H2. rewrite !Z.ltb_ge in *. lia.
Qed.

Lemma window_turn_perm rows rows' g : rows ≡ₚ rows' → window_turn rows g = window_turn rows' g.
Proof.
  intros Hp. unfold window_turn, partition_of.
  rewrite (agg_max_perm _ (omap (λ c, ar_last_served c.2) (bfilter (λ c, bool_decide (ar_group_key c.2 = g)) rows'))) by (by rewrite Hp).
  destruct (agg_max _); [done|]. apply agg_min_perm. by rewrite Hp.
Qed.

Lemma in_fair_order_perm rows rows' : rows ≡ₚ rows' → NoDup rows.*1 → in_fair_order rows = in_fair_order rows'.
Proof.
  intros Hp Hnd. unfold in_fair_order.
  assert (sort_slice (fair_less rows) rows' = sort_slice (fair_less rows') rows') as <-.
  { rewrite <- (list_fmap_id rows') at 1. rewrite (sort_slice_views id id _ (fair_less rows')); [by rewrite list_fmap_id|].
    intros a b _ _. unfold fair_less, id. by rewrite !(window_rank_perm rows rows'), !(window_turn_perm rows rows'). }
  apply sort_slice_ext; [apply weak_fair|by eapply NoDup_fmap_1|rewrite <- Hp; by eapply NoDup_fmap_1| |intros x; by rewrite Hp].
  intros a b Ha Hb H1 H2. eapply (NoDup_key fst); [exact Hnd|done..|]. by apply (fair_less_key rows).
Qed.
End perm.

(** ** The order of rows that correspond *)
Section order.
Notation prow := (string * (auto_row Z * auto_row (option Z)))%type.
Definition ms_view (z : prow) : string * auto_row Z := (z.1, z.2.1).
Definition us_view (z : prow) : string * auto_row (option Z) := (z.1, z.2.2).

Context (zs : list prow) (Hsim : ∀ z, z ∈ zs → row_scaled z.2.1 z.2.2).

Definition pgroup (g : string) : list prow := bfilter (λ z, bool_decide (ar_group_key z.2.1 = g)) zs.

Lemma pgroup_sub g z : z ∈ pgroup g → z ∈ zs.
Proof. unfold pgroup. rewrite elem_of_bfilter. tauto. Qed.

Lemma partition_ms g : partition_of (ms_view <$> zs) g = ms_view <$> pgroup g.
Proof. unfold partition_of. by rewrite bfilter_fmap. Qed.

Lemma partition_us g : partition_of (us_view <$> zs) g = us_view <$> pgroup g.
Proof.
  unfold partition_of. rewrite bfilter_fmap. f_equal. apply bfilter_ext. intros z Hz. cbn. by rewrite (rs_group _ _ (Hsim z Hz)).
Qed.

Lemma since_scaled z : z ∈ zs → waiting_since z.2.2 = us_per_ms * waiting_since z.2.1.
Proof.
  intros Hz. unfold waiting_since. rewrite (rs_served _ _ (Hsim z Hz)), (rs_first _ _ (Hsim z Hz)). by destruct (ar_last_served z.2.1).
Qed.

Lemma scaled_eqb a b : (us_per_ms * a =? us_per_ms * b) = (a =? b).
Proof. apply eq_true_iff_eq. rewrite !Z.eqb_eq. unfold us_per_ms. lia. Qed.

Lemma scaled_ltb a b : (us_per_ms * a <? us_per_ms * b) = (a <? b).
Proof. apply eq_true_iff_eq. rewrite !Z.ltb_lt. unfold us_per_ms. lia. Qed.

Lemma rank_scaled z : z ∈ zs → window_rank (us_view <$> zs) (us_view z) = window_rank (ms_view <$> zs) (ms_view z).
Proof.
  intros Hz. unfold window_rank. cbn. rewrite (rs_group _ _ (Hsim z Hz)), partition_us, partition_ms.
  rewrite (sort_slice_views us_view ms_view _ waiting_less).
  - rewrite <- (sort_slice_fmap ms_view (λ x y, waiting_less (ms_view x) (ms_view y))) by done.
    generalize (sort_slice (λ x y, waiting_less (ms_view x) (ms_view y)) (pgroup (ar_group_key z.2.1))). intros l.
    induction l as [|w l IH]; [done|]. cbn. fold (fmap us_view l) (fmap ms_view l). by rewrite IH.
  - intros x y Hx%pgroup_sub Hy%pgroup_sub. unfold waiting_less; cbn. by rewrite !since_scaled, scaled_eqb, scaled_ltb.
Qed.

Lemma agg_max_scaled l : agg_max (Z.mul us_per_ms <$> l) = Z.mul us_per_ms <$> agg_max l.
Proof.
  destruct (agg_max l) as [m|] eqn:Hm; cbn.
  - apply agg_max_spec in Hm as [Hin Hle]. apply agg_max_spec. split; [by apply list_elem_of_fmap_2|].
    intros x (y & -> & Hy)%list_elem_of_fmap. specialize (Hle y Hy). unfold us_per_ms. lia.
  - apply agg_max_None in Hm as ->. done.
Qed.

Lemma agg_min_scaled l : agg_min (Z.mul us_per_ms <$> l) = Z.mul us_per_ms <$> agg_min l.
Proof.
  destruct (agg_min l) as [m|] eqn:Hm; cbn.
  - apply agg_min_spec in Hm as [Hin Hle]. apply agg_min_spec. split; [by apply list_elem_of_fmap_2|].
    intros x (y & -> & Hy)%list_elem_of_fmap. specialize (Hle y Hy). unfold us_per_ms. lia.
  - by destruct l.
Qed.

Lemma turn_scaled g : window_turn (us_view <$> zs) g = Z.mul us_per_ms <$> window_turn (ms_view <$> zs) g.
Proof.
  unfold window_turn. rewrite partition_us, partition_ms.
  assert (omap (λ c, ar_last_served c.2) (us_view <$> pgroup g) = Z.mul us_per_ms <$> omap (λ c, ar_last_served c.2) (ms_view <$> pgroup g)) as ->.
  { assert (∀ z, z ∈ pgroup g → z ∈ zs) as Hin by apply pgroup_sub. revert Hin. generalize (pgroup g). intros l Hin.
    induction l as [|z l IH]; [done|]. cbn. fold (fmap us_view l) (fmap ms_view l).
    rewrite (rs_served _ _ (Hsim z (Hin z ltac:(constructor)))). rewrite IH by (intros; apply Hin; by constructor).
    by destruct (ar_last_served z.2.1). }
  rewrite agg_max_scaled. destruct (agg_max _); [done|]. cbn. rewrite <- agg_min_scaled. f_equal.
  rewrite <- !list_fmap_compose. apply list_fmap_ext. intros i z Hz%list_elem_of_lookup_2%pgroup_sub. cbn. apply (rs_first _ _ (Hsim z Hz)).
Qed.

Lemma fair_scaled x y : x ∈ zs → y ∈ zs →
  fair_less (us_view <$> zs) (us_view x) (us_view y) = fair_less (ms_view <$> zs) (ms_view x) (ms_view y).
Proof.
  intros Hx Hy. unfold fair_less. rewrite !rank_scaled by done. cbn.
  rewrite (rs_group _ _ (Hsim x Hx)), (rs_group _ _ (Hsim y Hy)), !turn_scaled.
  assert (∀ o, default 0 (Z.mul us_per_ms <$> o) = us_per_ms * default 0 o) as Hd by (by intros []).
  by rewrite !Hd, scaled_eqb, scaled_ltb.
Qed.

Lemma fair_orders_scaled : ∃ l, l ≡ₚ zs ∧ in_fair_order (us_view <$> zs) = us_view <$> l ∧ in_fair_order (ms_view <$> zs) = ms_view <$> l.
Proof.
  exists (sort_slice (λ x y, fair_less (ms_view <$> zs) (ms_view x) (ms_view y)) zs). split_and!; [apply sort_slice_perm| |].
  - unfold in_fair_order. apply sort_slice_views. intros. by apply fair_scaled.
  - unfold in_fair_order. by rewrite (sort_slice_fmap ms_view _ (fair_less (ms_view <$> zs))).
Qed.
End order.

(** ** Tables *)
Definition scale_instance (i : auto_instance) : auto_instance :=
  mkAutoInstance (ai_phase i) (ai_waiting_for i) (ai_processed i) (ai_failed i) (ai_deferred i) (ai_last_error i)
    (us_per_ms * ai_heartbeat i) (ai_ttl_ms i).

Record tables_scaled (t : auto_tables Z) (u : auto_tables (option Z)) : Prop := {
  ts_row k : option_Forall2 row_scaled (at_segments t !! k) (at_segments u !! k);
  ts_control : at_controls u = at_controls t;
  ts_instance : at_instances u = scale_instance <$> at_instances t;
}.

Lemma empty_scaled : tables_scaled empty_auto empty_auto.
Proof. split; [|done|cbn; by rewrite fmap_empty]. intros k. cbn. rewrite !lookup_empty. constructor. Qed.

Lemma set_row_scaled t u k g h : tables_scaled t u → row_scaled g h →
  tables_scaled (with_auto_segments (<[k := g]> (at_segments t)) t) (with_auto_segments (<[k := h]> (at_segments u)) u).
Proof.
  intros [Hr Hc Hi] Hgh. split; [|done|done]. intros k'. cbn. destruct (decide (k = k')) as [->|Hne].
  - rewrite !lookup_insert_eq. by constructor.
  - by rewrite !lookup_insert_ne.
Qed.

Lemma until_scaled_lt now n u : 0 ≤ now → until_scaled n u →
  match u with Some m => us_per_ms * now <? m | None => false end = (now <? n).
Proof.
  intros Hnow. destruct u as [m|]; cbn; [intros ->; apply scaled_ltb|]. intros ->. symmetry. by apply Z.ltb_ge.
Qed.

Lemma held_scaled now g h : 0 ≤ now → row_scaled g h → pg_held (us_per_ms * now) h = sqlite_held now g.
Proof. intros Hnow [_ Ho _ Hl _ _ _]. unfold pg_held, sqlite_held. by rewrite Ho, (until_scaled_lt now _ _ Hnow Hl). Qed.

Lemma paused_scaled now g h : 0 ≤ now → row_scaled g h → pg_paused (us_per_ms * now) h = sqlite_paused now g.
Proof. intros Hnow [_ _ _ _ Hp _ _]. unfold pg_paused, sqlite_paused. by rewrite (until_scaled_lt now _ _ Hnow Hp). Qed.

Lemma record_scaled name cands now t u : tables_scaled t u →
  tables_scaled (record_candidates 0 name cands now t) (record_candidates None name cands (us_per_ms * now) u).
Proof.
  unfold record_candidates. revert t u. induction cands as [|c cands IH]; intros t u H; [done|]. cbn. apply IH.
  unfold record_candidate. apply set_row_scaled; [done|].
  pose proof (ts_row _ _ H (name, cd_Key c)) as Hr. inversion Hr as [g h [] Hg Hh|Hg Hh]; [|done].
  case_bool_decide; by split.
Qed.

(** The rows of both tables a SELECT reads, and their order *)
Lemma joint_scaled name keys t u : tables_scaled t u →
  ∃ l, NoDup l.*1 ∧ in_fair_order (rows_among name keys t) = ms_view <$> l ∧ in_fair_order (rows_among name keys u) = us_view <$> l ∧
    ∀ z, z ∈ l → row_scaled z.2.1 z.2.2 ∧ at_segments t !! (name, z.1) = Some z.2.1 ∧ at_segments u !! (name, z.1) = Some z.2.2.
Proof.
  intros Hsim. set (zs := omap (λ '(k, g), (λ h, (k, (g, h))) <$> at_segments u !! (name, k)) (rows_among name keys t)).
  assert (∀ z, z ∈ zs ↔ z.1 ∈ keys ∧ at_segments t !! (name, z.1) = Some z.2.1 ∧ at_segments u !! (name, z.1) = Some z.2.2) as Hz.
  { intros [k [g h]]. unfold zs. rewrite list_elem_of_omap. split.
    - intros ([k' g'] & [Hk Hg]%elem_of_rows_among & Hx). destruct (at_segments u !! (name, k')) eqn:E; [|done]. cbn in *. naive_solver.
    - intros (Hk & Hg & Hh). exists (k, g). cbn in *. rewrite Hh. split; [by apply elem_of_rows_among|done]. }
  assert (rows_among name keys t = ms_view <$> zs) as Hms.
  { unfold zs. assert (∀ k g, (k, g) ∈ rows_among name keys t → is_Some (at_segments u !! (name, k))) as Hsome.
    { intros k g [_ Hg]%elem_of_rows_among. pose proof (ts_row _ _ Hsim (name, k)) as Hr. rewrite Hg in Hr. inversion Hr. by eexists. }
    revert Hsome. generalize (rows_among name keys t). intros l Hsome. induction l as [|[k g] l IH]; [done|]. cbn.
    destruct (Hsome k g ltac:(constructor)) as [h ->]. cbn. f_equal. apply IH. intros. eapply Hsome. by constructor. }
  assert (NoDup zs.*1) as Hnd.
  { pose proof (rows_among_keys name keys t) as H. rewrite Hms, <- list_fmap_compose in H. exact H. }
  assert (rows_among name keys u ≡ₚ us_view <$> zs) as Hus.
  { apply NoDup_Permutation; [eapply NoDup_fmap_1, rows_among_keys| |].
    - apply (NoDup_fmap_1 fst). rewrite <- list_fmap_compose. exact Hnd.
    - intros [k h]. rewrite elem_of_rows_among, list_elem_of_fmap. split.
      + intros [Hk Hh]. pose proof (ts_row _ _ Hsim (name, k)) as Hr. rewrite Hh in Hr. inversion Hr as [g h0 Hgh Hg Hh0|]; subst.
        exists (k, (g, h)). split; [done|]. by apply Hz.
      + intros ([k' [g' h']] & [= -> ->] & (? & ? & ?)%Hz). done. }
  assert (∀ z, z ∈ zs → row_scaled z.2.1 z.2.2) as Hrow.
  { intros z (_ & Hg & Hh)%Hz. pose proof (ts_row _ _ Hsim (name, z.1)) as Hr. rewrite Hg, Hh in Hr. by inversion Hr. }
  destruct (fair_orders_scaled zs Hrow) as (l & Hl & Hou & Hom).
  exists l. split_and!; [by rewrite Hl|by rewrite Hms| |].
  - rewrite <- Hou. apply in_fair_order_perm; [done|apply rows_among_keys].
  - intros z Hin. rewrite Hl in Hin. split; [by apply Hrow|]. apply Hz in Hin. tauto.
Qed.

(** ** UPDATE ... FROM *)
Section update_from.
Context {A I : Type} (key : A → string * string) (p : A → auto_row I → bool) (f : A → auto_row I → auto_row I).

Lemma selecting_Some hs k r h : selecting key p hs k r = Some h → h ∈ hs ∧ key h = k ∧ p h r = true.
Proof.
  induction hs as [|h' hs IH]; cbn; [done|]. destruct (bool_decide_reflect (key h' = k)); cbn.
  - destruct (p h' r) eqn:Hp; [intros [= ->]; split_and!; [constructor|done..]|intros (? & ? & ?)%IH; split_and!; [by constructor|done..]].
  - intros (? & ? & ?)%IH. split_and!; [by constructor|done..].
Qed.

Lemma selecting_unique hs k r h : NoDup (key <$> hs) → h ∈ hs → key h = k →
  selecting key p hs k r = if p h r then Some h else None.
Proof.
  intros Hnd Hh <-. induction hs as [|h' hs IH]; [by apply not_elem_of_nil in Hh|].
  cbn in Hnd. apply NoDup_cons in Hnd as [Hk Hnd]. cbn. apply elem_of_cons in Hh as [<-|Hh].
  - rewrite bool_decide_true by done. cbn. destruct (p h r); [done|].
    destruct (selecting key p hs (key h) r) as [h'|] eqn:Hs; [|done]. apply selecting_Some in Hs as (Hin & Heq & _).
    destruct Hk. rewrite <- Heq. by apply list_elem_of_fmap_2.
  - rewrite bool_decide_false; [by apply IH|]. intros Heq. apply Hk. rewrite Heq. by apply list_elem_of_fmap_2.
Qed.

Lemma update_from_lookup hs t k : at_segments (update_from key p f hs t).2 !! k =
  (λ r, match selecting key p hs k r with Some h => f h r | None => r end) <$> at_segments t !! k.
Proof. unfold update_from; cbn. rewrite map_lookup_imap. by destruct (at_segments t !! k). Qed.

Lemma update_from_rows hs t k r' h : (k, r', h) ∈ (update_from key p f hs t).1 ↔
  ∃ r, at_segments t !! k = Some r ∧ selecting key p hs k r = Some h ∧ r' = f h r.
Proof.
  unfold update_from; cbn. rewrite list_elem_of_omap. split.
  - intros ([k' r] & Hin%elem_of_map_to_list & Hx). destruct (selecting key p hs k' r) eqn:Hs; [|done]. injection Hx as <- <- <-. eauto.
  - intros (r & Hr & Hs & ->). exists (k, r). split; [by apply elem_of_map_to_list|]. by rewrite Hs.
Qed.
End update_from.

(** ** [Acquire] *)
Section calls.
Context `{C : Clock}.
Notation prow := (string * (auto_row Z * auto_row (option Z)))%type.

Definition us_granted (now : Z) (owner : string) (ttl : Z) (h : auto_row (option Z)) : auto_row (option Z) :=
  set_auto_lease owner (ar_epoch h + 1) (Some (now + ttl * us_per_ms)) h.

Lemma grant_rows_spec name owner (zg : list prow) ttl now u : NoDup zg.*1 →
  (∀ z, z ∈ zg → at_segments u !! (name, z.1) = Some z.2.2) →
  let '(epochs, u') := grant_rows name owner zg.*1 ttl now u in
  (∀ z, z ∈ zg → epochs !! z.1 = Some (ar_epoch z.2.2 + 1)) ∧
  (∀ z, z ∈ zg → at_segments u' !! (name, z.1) = Some (us_granted now owner ttl z.2.2)) ∧
  (∀ name' k, name' ≠ name ∨ k ∉ zg.*1 → at_segments u' !! (name', k) = at_segments u !! (name', k)) ∧
  at_controls u' = at_controls u ∧ at_instances u' = at_instances u.
Proof.
  intros Hnd Hin. unfold grant_rows. set (p := λ (_ : string) (_ : auto_row (option Z)), true).
  set (f := λ (_ : string) (r : auto_row (option Z)), _). destruct (update_from _ p f _ u) as [rows u'] eqn:Hup.
  assert (NoDup (pair name <$> zg.*1)) as Hk by (apply (NoDup_fmap_2 _); exact Hnd).
  assert (∀ z r, z ∈ zg → selecting (pair name) p zg.*1 (name, z.1) r = Some z.1) as Hsel.
  { intros z r Hz. by rewrite (selecting_unique _ _ _ _ _ z.1) by (done || by apply list_elem_of_fmap_2). }
  pose proof (update_from_lookup (pair name) p f zg.*1 u) as Hl. pose proof (update_from_rows (pair name) p f zg.*1 u) as Hr.
  rewrite Hup in Hl, Hr. cbn [fst snd] in Hl, Hr. split_and!.
  - intros z Hz. apply elem_of_list_to_map_1'.
    + intros e ([[k r] h] & [= Hk1 ->] & (r0 & Hr0 & Hs & ->)%Hr)%list_elem_of_fmap.
      apply selecting_Some in Hs as (_ & <- & _). cbn in Hk1. subst h. rewrite Hin in Hr0 by done. by injection Hr0 as <-.
    + apply list_elem_of_fmap. exists ((name, z.1), f z.1 z.2.2, z.1). split; [done|]. apply Hr. exists z.2.2. by rewrite Hin, Hsel.
  - intros z Hz. rewrite Hl, Hin by done. cbn. by rewrite Hsel.
  - intros name' k Hor. rewrite Hl. destruct (at_segments u !! (name', k)) as [r|]; [|done]. cbn.
    destruct (selecting _ _ _ _ _) as [h|] eqn:Hs; [|done]. apply selecting_Some in Hs as (Hh & [= <- <-] & _). naive_solver.
  - unfold update_from in Hup. by injection Hup as _ <-.
  - unfold update_from in Hup. by injection Hup as _ <-.
Qed.

Lemma granted_leases_spec name owner (zg : list prow) epochs : (∀ z, z ∈ zg → row_scaled z.2.1 z.2.2 ∧ epochs !! z.1 = Some (ar_epoch z.2.2 + 1)) →
  granted_leases name owner epochs zg.*1 = Ok (auto_lease name owner <$> (ms_view <$> zg)).
Proof.
  induction zg as [|z zg IH]; intros Hz; [done|]. cbn. destruct (Hz z ltac:(constructor)) as [Hr ->].
  fold (fmap fst zg). rewrite IH by (intros; apply Hz; by constructor). cbn. unfold auto_lease at 2; cbn. by rewrite (rs_epoch _ _ Hr).
Qed.

Lemma granted_scaled name owner ttl now t u t' u' (zg : list prow) : tables_scaled t u →
  (∀ z, z ∈ zg → row_scaled z.2.1 z.2.2) →
  (∀ z, z ∈ zg → at_segments t' !! (name, z.1) = Some (auto_granted now owner ttl z.2.1)) →
  (∀ name' k, name' ≠ name ∨ k ∉ zg.*1 → at_segments t' !! (name', k) = at_segments t !! (name', k)) →
  at_controls t' = at_controls t → at_instances t' = at_instances t →
  (∀ z, z ∈ zg → at_segments u' !! (name, z.1) = Some (us_granted (us_per_ms * now) owner ttl z.2.2)) →
  (∀ name' k, name' ≠ name ∨ k ∉ zg.*1 → at_segments u' !! (name', k) = at_segments u !! (name', k)) →
  at_controls u' = at_controls u → at_instances u' = at_instances u →
  tables_scaled t' u'.
Proof.
  intros [Hr Hc Hi] Hz H1 H2 H3 H4 H5 H6 H7 H8. split; [|by rewrite H3, H7|by rewrite H4, H8].
  intros [name' k]. destruct (decide (name' = name ∧ k ∈ zg.*1)) as [[-> (z & -> & Hin)%list_elem_of_fmap]|Hn].
  - rewrite H1, H5 by done. constructor. destruct (Hz z Hin). unfold auto_granted, us_granted. split; cbn; try done; [by f_equal|].
    unfold us_per_ms. lia.
  - apply not_and_l in Hn. rewrite H2, H6 by tauto. apply Hr.
Qed.

#[local] Arguments grant_rows name owner grant ttl_ms now t : simpl never.
#[local] Arguments granted_leases name owner epochs grant : simpl never.
#[local] Arguments sqlite_grants env name owner ttl keys : simpl never.

Lemma Acquire_scaled now t u name owner cands max_ ttl : tables_scaled t u → 0 ≤ now →
  ∃ a t' u', sqlite_Acquire (instant now) id name owner cands max_ (of_ms ttl) t = (Ok a, t') ∧
    pg_Acquire (instant (us_per_ms * now)) name owner cands max_ (of_ms ttl) u = (Ok a, u') ∧ tables_scaled t' u'.
Proof.
  intros Hsim Hnow. unfold sqlite_Acquire, pg_Acquire. destruct (uniqueCandidates cands) as [|c0 us] eqn:Hu; [by exists (mkAcquired [] 0 0), t, u|].
  rewrite <- Hu. assert (json_cands id (uniqueCandidates cands) = uniqueCandidates cands) as ->.
  { unfold json_cands. rewrite <- (list_fmap_id (uniqueCandidates cands)) at 2. apply list_fmap_ext. by intros ? [] _. }
  clear c0 us Hu. set (cs := uniqueCandidates cands).
  pose proof (record_scaled name cs now t u Hsim) as H1. set (t1 := record_candidates 0 name cs now t) in *.
  set (u1 := record_candidates None name cs (us_per_ms * now) u) in *.
  destruct (joint_scaled name (cd_Key <$> cs) t1 u1 H1) as (l & Hnd & Hot & Hou & Hl).
  assert (select_candidates sqlite_held sqlite_paused name (cd_Key <$> cs) now t1 =
          select_candidates pg_held pg_paused name (cd_Key <$> cs) (us_per_ms * now) u1) as Hsel.
  { unfold select_candidates. rewrite Hot, Hou, <- !list_fmap_compose. apply list_fmap_ext. intros i z Hz%list_elem_of_lookup_2.
    destruct (Hl z Hz) as [Hr _]. unfold ms_view, us_view; cbn. by rewrite (held_scaled now _ _ Hnow Hr), (paused_scaled now _ _ Hnow Hr). }
  run_auto. unfold txnow; cbn. fold t1 u1. rewrite <- Hsel. unfold select_candidates. rewrite Hot, scan_spec. cbn [app].
  change (zlen []) with 0. rewrite Z.sub_0_r. set (n := Z.to_nat max_). rewrite (bfilter_fmap ms_view).
  set (free := bfilter (λ z : prow, free_row now (ms_view z).2) l). rewrite <- fmap_take. set (zg := take n free).
  assert ((ms_view <$> zg).*1 = zg.*1) as Hk by (by rewrite <- list_fmap_compose). rewrite Hk.
  assert (∀ z, z ∈ zg → z ∈ l) as Hin.
  { intros z Hz%elem_of_take_sub%elem_of_bfilter. tauto. }
  assert (NoDup zg.*1) as Hndg.
  { assert (NoDup free.*1) as Hf by (by apply bfilter_NoDup_fmap). rewrite <- (take_drop n free), fmap_app in Hf. by apply NoDup_app in Hf as [? _]. }
  destruct (decide (zg = [])) as [Hz|Hz]; [rewrite Hz; cbn; by eexists _, t1, u1|].
  destruct (grants_run id now name owner ttl (ms_view <$> zg) 3%nat t1) as (n' & t' & Hrun & Hc & Hi & Hg & Ho).
  { by rewrite Hk. } { intros k g ([k' [g' h']] & [= -> ->] & Hzin)%list_elem_of_fmap. apply (Hl _ (Hin _ Hzin)). }
  rewrite Hk in Hrun, Ho. rewrite Hrun.
  pose proof (grant_rows_spec name owner zg ttl (us_per_ms * now) u1 Hndg) as Hgr.
  rewrite Milliseconds_of_ms. destruct (grant_rows name owner zg.*1 ttl (us_per_ms * now) u1) as [epochs u'] eqn:Hgrant.
  destruct Hgr as (G1 & G2 & G3 & G4 & G5); [intros z Hzin; by apply Hl, Hin|].
  eexists _, t', u'. split; [done|]. split.
  - destruct zg.*1 as [|k0 ks] eqn:Hks; [by destruct zg|]. rewrite <- Hks in *. cbn. rewrite Hgrant.
    rewrite (granted_leases_spec name owner zg epochs) by (intros z Hzin; split; [by apply Hl, Hin|by apply G1]). done.
  - eapply (granted_scaled name owner ttl now t1 u1 t' u' zg); try done; [intros z Hzin; by apply Hl, Hin|].
    intros z Hzin. apply Hg, list_elem_of_fmap. by exists z.
Qed.

(** ** [Renew] and [Release], for leases of different keys *)
Section fences.
Context {A : Type} (lease : A → SegmentLease).
Notation akey := (λ x, lease_key (lease x)).

Definition matched {I} (p : A → auto_row I → bool) (t : auto_tables I) (x : A) : bool :=
  match at_segments t !! akey x with Some r => p x r | None => false end.

Lemma fenced_updates_spec text (p : A → Z → auto_row Z → bool) f now xs n (t : auto_tables Z) : NoDup (akey <$> xs) →
  ∃ n' t', fenced_updates (instant now) text lease p f xs (n, t) =
      (Ok (lease <$> bfilter (λ x, negb (matched (λ x, p x now) t x)) xs), (n', t')) ∧
    at_controls t' = at_controls t ∧ at_instances t' = at_instances t ∧
    ∀ k, at_segments t' !! k =
      (λ r, match selecting akey (λ x, p x now) xs k r with Some x => f x now r | None => r end) <$> at_segments t !! k.
Proof.
  revert n t. induction xs as [|x xs IH]; intros n t Hnd.
  { exists n, t. split_and!; [done..|]. intros k. cbn. by destruct (at_segments t !! k). }
  cbn [fmap list_fmap] in Hnd. apply NoDup_cons in Hnd as [Hx Hnd]. fold (fmap (λ x, lease_key (lease x)) xs) in Hx, Hnd.
  cbn [fenced_updates]. set (t1 := (update_where (sl_Name (lease x)) (sl_Key (lease x)) (p x now) (f x now) t).2).
  assert (∀ k, k ≠ akey x → at_segments t1 !! k = at_segments t !! k) as Hother.
  { intros k Hk. unfold t1, update_where. destruct (at_segments t !! _) as [r|]; [|done]. destruct (p x now r); [|done]. cbn.
    by rewrite lookup_insert_ne. }
  destruct (IH (S n) t1 Hnd) as (n' & t' & Hrun & Hc & Hi & Hl).
  assert (∀ y, y ∈ xs → akey y ≠ akey x) as Hne by (intros y Hy Heq; apply Hx; rewrite <- Heq; by apply (list_elem_of_fmap_2 akey)).
  assert (bfilter (λ x, negb (matched (λ x, p x now) t1 x)) xs = bfilter (λ x, negb (matched (λ x, p x now) t x)) xs) as Hm.
  { apply bfilter_ext. intros y Hy. unfold matched. by rewrite Hother by (by apply Hne). }
  rewrite Hm in Hrun. exists n', t'. split_and!.
  - rewrite (bind_run _ _ (n, t) (update_where (sl_Name (lease x)) (sl_Key (lease x)) (p x now) (f x now) t).1 (S n, t1))
      by (by rewrite update_instant).
    rewrite (bind_run _ _ _ _ _ Hrun). unfold mret, SE_ret. do 2 f_equal. cbn [bfilter].
    generalize (bfilter (λ x, negb (matched (λ x, p x now) t x)) xs). intros rest. unfold matched, update_where, lease_key.
    destruct (at_segments t !! _) as [r|]; [|done]. by destruct (p x now r).
  - rewrite Hc. unfold t1, update_where. destruct (at_segments t !! _) as [r|]; [|done]. by destruct (p x now r).
  - rewrite Hi. unfold t1, update_where. destruct (at_segments t !! _) as [r|]; [|done]. by destruct (p x now r).
  - intros k. rewrite Hl. cbn [selecting]. destruct (bool_decide_reflect (lease_key (lease x) = k)) as [<-|Hk]; cbn [andb].
    + assert (∀ r, selecting akey (λ x, p x now) xs (akey x) r = None) as Hnone.
      { intros r. destruct (selecting _ _ _ _ _) as [h|] eqn:Hs; [|done]. apply selecting_Some in Hs as (Hh & Heq & _). by destruct (Hne h Hh). }
      unfold t1, update_where, lease_key in *. destruct (at_segments t !! _) as [r|] eqn:Hr; [|cbn; by rewrite Hr].
      destruct (p x now r) eqn:Hp; cbn; [rewrite lookup_insert_eq|rewrite Hr]; cbn; by rewrite Hnone, ?Hp.
    + by rewrite Hother.
Qed.

(** What an UPDATE ... FROM returns, read as leases, are the matched ones. *)
Lemma update_from_done {I} (p : A → auto_row I → bool) f (out : string * string * auto_row I * A → SegmentLease) xs t :
  NoDup (akey <$> xs) →
  (∀ x r, x ∈ xs → p x r = true → out (akey x, f x r, x) = lease x) →
  unmatched (out <$> (update_from akey p f xs t).1) (lease <$> xs) = lease <$> bfilter (λ x, negb (matched p t x)) xs.
Proof.
  intros Hnd Hout. unfold unmatched. rewrite bfilter_fmap. f_equal. apply bfilter_ext. intros x Hx. f_equal.
  apply eq_true_iff_eq. rewrite bool_decide_eq_true, list_elem_of_fmap. unfold matched. split.
  - intros ([[k r'] h] & Heq & (r & Hr & Hs & ->)%update_from_rows). apply selecting_Some in Hs as (Hh & <- & Hp).
    rewrite Hout in Heq by done. assert (x = h) as -> by (apply (NoDup_key akey xs); [done..|by rewrite Heq]). by rewrite Hr.
  - destruct (at_segments t !! akey x) as [r|] eqn:Hr; [|done]. intros Hp. exists (akey x, f x r, x). split; [by rewrite Hout|].
    apply update_from_rows. exists r. split; [done|]. rewrite (selecting_unique _ _ _ _ _ x) by done. by rewrite Hp.
Qed.

(** The two updates on corresponding tables *)
Lemma fenced_scaled (p : A → auto_row Z → bool) f (p' : A → auto_row (option Z) → bool) f' xs t u t' u' :
  tables_scaled t u →
  (∀ x g h, x ∈ xs → row_scaled g h → p' x h = p x g ∧ (p x g = true → row_scaled (f x g) (f' x h))) →
  at_controls t' = at_controls t → at_instances t' = at_instances t →
  (∀ k, at_segments t' !! k = (λ r, match selecting akey p xs k r with Some x => f x r | None => r end) <$> at_segments t !! k) →
  u' = (update_from akey p' f' xs u).2 →
  tables_scaled t' u' ∧ bfilter (λ x, negb (matched p' u x)) xs = bfilter (λ x, negb (matched p t x)) xs.
Proof.
  intros [Hr Hc Hi] Hp Hc' Hi' Hl ->.
  assert (∀ k g h, row_scaled g h → selecting akey p' xs k h = selecting akey p xs k g) as Hsel.
  { intros k g h Hgh. clear Hl. induction xs as [|x xs IH]; [done|]. cbn. rewrite (proj1 (Hp x g h ltac:(constructor) Hgh)).
    rewrite IH; [done|]. intros y g' h' Hy. apply Hp. by constructor. }
  split.
  - split; [|cbn; by rewrite Hc'|cbn; by rewrite Hi'].
    intros k. rewrite Hl, update_from_lookup. pose proof (Hr k) as Hk. inversion Hk as [g h Hgh Hg Hh|Hg Hh]; cbn; [|constructor].
    constructor. rewrite (Hsel k g h Hgh). destruct (selecting akey p xs k g) as [x|] eqn:Hs; [|done].
    apply selecting_Some in Hs as (Hx & _ & Hpx). by apply (proj2 (Hp x g h Hx Hgh)).
  - apply bfilter_ext. intros x Hx. unfold matched. pose proof (Hr (akey x)) as Hk. inversion Hk as [g h Hgh Hg Hh|Hg Hh]; [|done].
    by rewrite (proj1 (Hp x g h Hx Hgh)).
Qed.
End fences.

Lemma us_epoch l (r : auto_row (option Z)) : is_u64 (sl_Epoch l) → fenced (sl_Owner l) (int64 (sl_Epoch l)) r = true →
  ar_owner r = sl_Owner l ∧ u64 (ar_epoch r) = sl_Epoch l.
Proof. intros He [Ho%bool_decide_eq_true ->%Z.eqb_eq]%andb_true_iff. split; [done|]. by rewrite u64_int64, u64_small. Qed.

Lemma fenced_same owner epoch g h : row_scaled g h → fenced owner epoch h = fenced owner epoch g.
Proof. intros [_ Ho He _ _ _ _]. unfold fenced. by rewrite Ho, He. Qed.

Lemma pg_Renew_run now held ttl u : held ≠ [] → pg_Renew (instant now) held ttl u =
  (Ok (unmatched (renew_rows held (Milliseconds ttl) now u).1 held), (renew_rows held (Milliseconds ttl) now u).2).
Proof. by destruct held. Qed.

Lemma pg_Release_run now rel u : rel ≠ [] → pg_auto_Release (instant now) rel u =
  (Ok (unmatched (release_rows rel now u).1 (re_Lease <$> rel)), (release_rows rel now u).2).
Proof. by destruct rel. Qed.

Lemma Renew_scaled now t u held ttl : tables_scaled t u → 0 ≤ now → NoDup (lease_key <$> held) → Forall (λ l, is_u64 (sl_Epoch l)) held →
  ∃ lost t' u', sqlite_Renew (instant now) held (of_ms ttl) t = (Ok lost, t') ∧
    pg_Renew (instant (us_per_ms * now)) held (of_ms ttl) u = (Ok lost, u') ∧ tables_scaled t' u'.
Proof.
  intros Hsim Hnow Hnd Hu. rewrite Forall_forall in Hu. destruct (decide (held = [])) as [->|Hne]; [by exists [], t, u|].
  destruct (fenced_updates_spec id "renew" renewable (λ _, set_renewed (of_ms ttl)) now held 1 t Hnd) as (n' & t' & Hrun & Hc & Hi & Hl).
  set (p' := pg_renewable (us_per_ms * now)).
  set (f' := λ (_ : SegmentLease) (r : auto_row (option Z)), set_auto_lease (ar_owner r) (ar_epoch r) (Some (us_per_ms * now + ttl * us_per_ms)) r).
  set (u' := (update_from lease_key p' f' held u).2).
  destruct (fenced_scaled id (λ l, renewable l now) (λ _, set_renewed (of_ms ttl) now) p' f' held t u t' u') as [Hsim' Hm]; [done| |done..|].
  { intros l g h Hin Hgh. split.
    - unfold p', pg_renewable, renewable. by rewrite (fenced_same _ _ _ _ Hgh), (until_scaled_lt now _ _ Hnow (rs_lease _ _ Hgh)).
    - intros _. destruct Hgh. unfold set_renewed, f'. rewrite Milliseconds_of_ms. split; cbn; try done. unfold us_per_ms. lia. }
  eexists _, t', u'. split; [by unfold sqlite_Renew; rewrite runTx_instant, Hrun|]. split; [|done].
  rewrite pg_Renew_run, list_fmap_id, <- Hm by done. unfold renew_rows. rewrite Milliseconds_of_ms. fold p' f'.
  pose proof (update_from_done id p' f' (λ '(k, r, _), mkSegmentLease k.1 k.2 (ar_owner r) (u64 (ar_epoch r))) held u Hnd) as Hd.
  change (λ x, lease_key (id x)) with lease_key in Hd. unfold u'. destruct (update_from lease_key p' f' held u) as [rows u1]. cbn [fst snd] in *.
  rewrite !list_fmap_id in Hd. rewrite Hd; [done|].
  intros l r Hin Hp. cbn. apply andb_true_iff in Hp as [Hp _]. destruct (us_epoch l r (Hu l Hin) Hp) as [-> ->]. by destruct l.
Qed.

Lemma released_scaled now rr g h : 0 ≤ now → row_scaled g h →
  row_scaled (set_auto_released rr now g) (pg_released (us_per_ms * now) rr h).
Proof.
  intros Hnow [Hg Ho He Hl Hp Hf Hs]. unfold set_auto_released, pg_released, released_pause. split; cbn; try done.
  - destruct (Z.ltb_spec 0 (Milliseconds (re_DeferFor rr))); [|done]. cbn. unfold greatest.
    destruct (ar_paused_until h) as [m|]; cbn in Hp; unfold us_per_ms in *; lia.
  - by destruct (re_Served rr).
Qed.

Lemma auto_Release_scaled now t u rel : tables_scaled t u → 0 ≤ now → NoDup ((λ rr, lease_key (re_Lease rr)) <$> rel) →
  Forall (λ rr, is_u64 (sl_Epoch (re_Lease rr))) rel →
  ∃ lost t' u', sqlite_auto_Release (instant now) rel t = (Ok lost, t') ∧
    pg_auto_Release (instant (us_per_ms * now)) rel u = (Ok lost, u') ∧ tables_scaled t' u'.
Proof.
  intros Hsim Hnow Hnd Hu. rewrite Forall_forall in Hu. destruct (decide (rel = [])) as [->|Hne]; [by exists [], t, u|].
  destruct (fenced_updates_spec re_Lease "release" releasable set_auto_released now rel 1 t Hnd) as (n' & t' & Hrun & Hc & Hi & Hl).
  set (p' := λ rr, fenced (I := option Z) (sl_Owner (re_Lease rr)) (int64 (sl_Epoch (re_Lease rr)))). set (f' := pg_released (us_per_ms * now)).
  set (u' := (update_from (λ rr, lease_key (re_Lease rr)) p' f' rel u).2).
  destruct (fenced_scaled re_Lease (λ rr, releasable rr now) (λ rr, set_auto_released rr now) p' f' rel t u t' u') as [Hsim' Hm]; [done| |done..|].
  { intros rr g h Hin Hgh. split; [by apply fenced_same|]. intros _. by apply released_scaled. }
  eexists _, t', u'. split; [by unfold sqlite_auto_Release; rewrite runTx_instant, Hrun|]. split; [|done].
  rewrite pg_Release_run, <- Hm by done. unfold release_rows. fold p' f'.
  pose proof (update_from_done re_Lease p' f'
    (λ '(k, _, rr), mkSegmentLease k.1 k.2 (sl_Owner (re_Lease rr)) (u64 (int64 (sl_Epoch (re_Lease rr))))) rel u Hnd) as Hd.
  unfold u'. destruct (update_from _ p' f' rel u) as [rows u1]. cbn [fst snd] in *. rewrite <- Hd; [done|].
  intros rr r Hin _. cbn. rewrite u64_int64, (u64_small _ (Hu rr Hin)). by destruct (re_Lease rr).
Qed.

(** ** Pauses and controls *)
Lemma Defer_scaled now t u name key d : tables_scaled t u → 0 ≤ now → 0 ≤ now + d →
  ∃ t' u', sqlite_Defer (instant now) name key (of_ms d) t = (Ok (), t') ∧
    pg_Defer (instant (us_per_ms * now)) name key (of_ms d) u = (Ok (), u') ∧ tables_scaled t' u'.
Proof.
  intros Hsim Hnow Hd. unfold sqlite_Defer, pg_Defer. run_auto. rewrite Milliseconds_of_ms. unfold txnow; cbn [db_clock instant].
  eexists _, _. split_and!; [done..|]. unfold upsert_pause. apply set_row_scaled; [done|].
  pose proof (ts_row _ _ Hsim (name, key)) as Hr. inversion Hr as [g h [Hg Ho He Hl Hp Hf Hs] E1 E2|E1 E2]; split; cbn; try done; [|unfold us_per_ms; lia].
  unfold greatest. destruct (ar_paused_until h) as [m|]; cbn in Hp; unfold us_per_ms in *; lia.
Qed.

Lemma paused_ms_scaled now g h : 0 ≤ now → row_scaled g h → paused_ms (us_per_ms * now) h = Z.max (ar_paused_until g - now) 0.
Proof.
  intros Hnow [_ _ _ _ Hp _ _]. unfold paused_ms. destruct (ar_paused_until h) as [m|]; cbn in Hp; [|lia]. subst m. f_equal.
  unfold ceil_ms. replace (- (us_per_ms * ar_paused_until g - us_per_ms * now)) with ((now - ar_paused_until g) * us_per_ms) by lia.
  rewrite Z.div_mul by done. lia.
Qed.

Lemma DeferredFor_scaled now t u name key : tables_scaled t u → 0 ≤ now →
  ∃ a, sqlite_DeferredFor (instant now) name key t = (Ok a, t) ∧ pg_DeferredFor (instant (us_per_ms * now)) name key u = (Ok a, u).
Proof.
  intros Hsim Hnow. unfold sqlite_DeferredFor, pg_DeferredFor. run_auto. unfold txnow; cbn [db_clock instant].
  pose proof (ts_row _ _ Hsim (name, key)) as Hr. inversion Hr as [g h Hgh E1 E2|E1 E2]; cbn; [|by eexists].
  rewrite (paused_ms_scaled now g h) by done. by eexists.
Qed.

Lemma SetPaused_scaled now t u name p : tables_scaled t u →
  ∃ t' u', sqlite_SetPaused (instant now) name p t = (Ok (), t') ∧
    pg_SetPaused (instant (us_per_ms * now)) name p u = (Ok (), u') ∧ tables_scaled t' u'.
Proof. intros [Hr Hc Hi]. unfold sqlite_SetPaused, pg_SetPaused. run_auto. eexists _, _. split_and!; [done..|]. split; cbn; [done|by rewrite Hc|done]. Qed.

Lemma Paused_scaled now t u name : tables_scaled t u →
  ∃ a, sqlite_Paused (instant now) name t = (Ok a, t) ∧ pg_Paused (instant (us_per_ms * now)) name u = (Ok a, u).
Proof. intros Hsim. unfold sqlite_Paused, pg_Paused. run_auto. rewrite (ts_control _ _ Hsim). destruct (at_controls t !! name); by eexists. Qed.

(** ** Statuses *)
Lemma expired_scaled now i : auto_expired us_per_ms (us_per_ms * now) (scale_instance i) = auto_expired 1 now i.
Proof. unfold auto_expired; cbn. apply eq_true_iff_eq. rewrite !Z.ltb_lt. unfold us_per_ms. lia. Qed.

Lemma auto_SaveStatus_scaled now t u name st ttl : tables_scaled t u →
  ∃ t' u', sqlite_auto_SaveStatus (instant now) name st (of_ms ttl) t = (Ok (), t') ∧
    pg_auto_SaveStatus (instant (us_per_ms * now)) name st (of_ms ttl) u = (Ok (), u') ∧ tables_scaled t' u'.
Proof.
  intros [Hr Hc Hi]. unfold sqlite_auto_SaveStatus, pg_auto_SaveStatus. run_auto. unfold txnow; cbn [db_clock instant].
  eexists _, _. split_and!; [done..|]. split; cbn; [done|done|]. rewrite fmap_insert. f_equal. rewrite Hi.
  apply map_eq. intros k. rewrite lookup_fmap, !map_lookup_filter, lookup_fmap. destruct (at_instances t !! k) as [i|]; [|done]. cbn.
  destruct k as [n o]. rewrite expired_scaled. by case_guard.
Qed.

Lemma ages_scaled now i : round_ms (us_per_ms * now - ai_heartbeat (scale_instance i)) = now - ai_heartbeat i.
Proof.
  unfold round_ms; cbn. replace (us_per_ms * now - us_per_ms * ai_heartbeat i) with (us_per_ms * (now - ai_heartbeat i)) by lia.
  generalize (now - ai_heartbeat i). intros d. rewrite Z.abs_mul, Z.sgn_mul. change (Z.abs us_per_ms) with us_per_ms. change (Z.sgn us_per_ms) with 1.
  replace (us_per_ms * Z.abs d + 500) with (500 + Z.abs d * us_per_ms) by lia. rewrite Z.div_add by done. change (500 / us_per_ms) with 0. lia.
Qed.

(** Lists of a SELECT ordered by a key *)
Definition key_less {X} (a b : string * X) : Prop := string_less a.1 b.1 = true.

Lemma sort_by_key {X} (l : list (string * X)) : NoDup l.*1 → StronglySorted key_less (sort_slice (λ a b, string_less a.1 b.1) l).
Proof.
  intros Hnd. apply sort_slice_strict; [apply weak_string|by eapply NoDup_fmap_1|].
  intros a b Ha Hb H1 H2. apply (NoDup_key fst l); [done..|]. apply (anti_symm String.le); by apply string_less_le.
Qed.

Lemma key_less_asym {X} (x y : string * X) : key_less x y → key_less y x → False.
Proof. unfold key_less. intros Hxy%(weak_total _ (weak_string id)) Hyx. unfold not_after, id in Hxy. congruence. Qed.

Lemma sorted_agree {X Y} (R : X → Y → Prop) (a : list (string * X)) (b : list (string * Y)) :
  StronglySorted key_less a → StronglySorted key_less b →
  (∀ k x, (k, x) ∈ a → ∃ y, (k, y) ∈ b ∧ R x y) → (∀ k y, (k, y) ∈ b → ∃ x, (k, x) ∈ a) →
  Forall2 (λ p q, p.1 = q.1 ∧ R p.2 q.2) a b.
Proof.
  intros Ha Hb Hab Hba.
  assert (a.*1 = b.*1) as Hk.
  { apply (strictly_sorted_ext (λ x y, string_less x y = true)).
    - intros x y. apply (key_less_asym (x, ()) (y, ())).
    - by apply (StronglySorted_fmap_in fst key_less).
    - by apply (StronglySorted_fmap_in fst key_less).
    - intros k. rewrite !list_elem_of_fmap. split.
      + intros ([k' x] & -> & Hx). destruct (Hab k' x Hx) as (y & Hy & _). by exists (k', y).
      + intros ([k' y] & -> & Hy). destruct (Hba k' y Hy) as (x & Hx). by exists (k', x). }
  assert (NoDup b.*1) as Hnd.
  { rewrite <- Hk. apply (strictly_sorted_NoDup (λ x y, string_less x y = true)).
    - intros x Hx. by apply (key_less_asym (x, ()) (x, ())).
    - by apply (StronglySorted_fmap_in fst key_less). }
  apply Forall2_same_length_lookup. split; [by rewrite <- (length_fmap fst a), Hk, length_fmap|].
  intros i [k x] [k' y] Hx Hy. assert (k = k') as <-.
  { pose proof (f_equal (.!! i) Hk) as Hi. cbn in Hi. rewrite !list_lookup_fmap, Hx, Hy in Hi. by injection Hi. }
  split; [done|]. apply list_elem_of_lookup_2 in Hx, Hy. destruct (Hab k x Hx) as (y' & Hy' & HR). cbn.
  assert ((k, y) = (k, y')) as [= ->] by (by apply (NoDup_key fst b)). done.
Qed.

Lemma fmap_agree {X Y B} (f : X → B) (g : Y → B) (P : X → Y → Prop) a b : Forall2 P a b → (∀ x y, P x y → f x = g y) → f <$> a = g <$> b.
Proof. intros H Hfg. induction H as [|x y a b Hxy _ IH]; [done|]. cbn. by rewrite (Hfg x y Hxy), <- IH. Qed.

Lemma keys_NoDup {X} (l : list (string * X)) : NoDup l → (∀ k x y, (k, x) ∈ l → (k, y) ∈ l → x = y) → NoDup l.*1.
Proof.
  intros Hnd H. apply NoDup_fmap_2_strong; [|done]. intros [k x] [k' y] Hx Hy Heq. cbn in Heq. subst k'. f_equal. by eapply H.
Qed.

Lemma elem_of_live {I} ms name now (t : auto_tables I) o i :
  (o, i) ∈ select_live ms name now t ↔ at_instances t !! (name, o) = Some i ∧ auto_expired ms now i = false.
Proof.
  unfold select_live. rewrite elem_of_sort_slice, list_elem_of_omap. split.
  - intros ([[n o'] i'] & Hin%elem_of_map_to_list & Hx). destruct (bool_decide_reflect (n = name)), (auto_expired ms now i') eqn:He; naive_solver.
  - intros [Hi He]. exists (name, o, i). split; [by apply elem_of_map_to_list|]. by rewrite bool_decide_true, He.
Qed.

Lemma live_sorted {I} ms name now (t : auto_tables I) : StronglySorted key_less (select_live ms name now t).
Proof.
  apply sort_by_key, keys_NoDup.
  - apply NoDup_omap_inj; [|apply NoDup_map_to_list]. intros [[n o] i] [[n' o'] i'] z _ _.
    destruct (bool_decide_reflect (n = name)), (bool_decide_reflect (n' = name)), (auto_expired ms now i), (auto_expired ms now i'); naive_solver.
  - intros o i i' H1 H2. pose proof (elem_of_live ms name now t o) as He. unfold select_live in He. setoid_rewrite elem_of_sort_slice in He.
    apply He in H1 as [H1 _], H2 as [H2 _]. congruence.
Qed.

Lemma auto_LoadStatuses_scaled now t u name : tables_scaled t u →
  ∃ a, sqlite_auto_LoadStatuses (instant now) name t = (Ok a, t) ∧ pg_auto_LoadStatuses (instant (us_per_ms * now)) name u = (Ok a, u).
Proof.
  intros Hsim. unfold sqlite_auto_LoadStatuses, pg_auto_LoadStatuses. run_auto. unfold txnow; cbn [db_clock instant].
  eexists. split; [done|]. f_equal. f_equal. rewrite <- !list_fmap_compose. symmetry.
  eapply (fmap_agree _ _ (λ p q, p.1 = q.1 ∧ q.2 = scale_instance p.2)).
  - apply (sorted_agree (λ i j, j = scale_instance i)); [apply live_sorted..| |].
    + intros o i [Hi He]%elem_of_live. exists (scale_instance i). split; [|done]. apply elem_of_live.
      by rewrite (ts_instance _ _ Hsim), lookup_fmap, Hi, expired_scaled.
    + intros o j [Hj He]%elem_of_live. rewrite (ts_instance _ _ Hsim), lookup_fmap in Hj.
      destruct (at_instances t !! (name, o)) as [i|] eqn:Hi; [|done]. injection Hj as <-. exists i. apply elem_of_live. by rewrite expired_scaled in He.
  - intros [o i] [o' j] [Ho Hj]. cbn in Ho, Hj. subst o' j. unfold compose. cbn [fst snd]. rewrite ages_scaled. done.
Qed.

(** ** Segments *)
Lemma elem_of_auto_segments {I} name (t : auto_tables I) k r : (k, r) ∈ auto_segments_of name t ↔ at_segments t !! (name, k) = Some r.
Proof.
  unfold auto_segments_of. rewrite elem_of_sort_slice, list_elem_of_omap. split.
  - intros ([[n k'] r'] & Hin%elem_of_map_to_list & Hx). destruct (bool_decide_reflect (n = name)); naive_solver.
  - intros Hr. exists (name, k, r). split; [by apply elem_of_map_to_list|]. by rewrite bool_decide_true.
Qed.

Lemma auto_segments_sorted {I} name (t : auto_tables I) : StronglySorted key_less (auto_segments_of name t).
Proof.
  apply sort_by_key, keys_NoDup.
  - apply NoDup_omap_inj; [|apply NoDup_map_to_list]. intros [[n k] r] [[n' k'] r'] z _ _.
    destruct (bool_decide_reflect (n = name)), (bool_decide_reflect (n' = name)); naive_solver.
  - intros k r r' H1 H2. pose proof (elem_of_auto_segments name t k) as He. unfold auto_segments_of in He. setoid_rewrite elem_of_sort_slice in He.
    apply He in H1, H2. congruence.
Qed.

Lemma LoadSegments_scaled now t u name : tables_scaled t u → 0 ≤ now →
  ∃ a, sqlite_LoadSegments (instant now) name t = (Ok a, t) ∧ pg_LoadSegments (instant (us_per_ms * now)) name u = (Ok a, u).
Proof.
  intros Hsim Hnow. unfold sqlite_LoadSegments, pg_LoadSegments. run_auto. unfold txnow; cbn [db_clock instant].
  eexists. split; [done|]. f_equal. f_equal. rewrite <- !list_fmap_compose. symmetry.
  eapply (fmap_agree _ _ (λ p q, p.1 = q.1 ∧ row_scaled p.2 q.2)).
  - apply (sorted_agree row_scaled); [apply auto_segments_sorted..| |].
    + intros k g Hg%elem_of_auto_segments. pose proof (ts_row _ _ Hsim (name, k)) as Hr. rewrite Hg in Hr. inversion Hr as [g0 h Hgh Hg0 Hh|]; subst.
      exists h. split; [by apply elem_of_auto_segments|done].
    + intros k h Hh%elem_of_auto_segments. pose proof (ts_row _ _ Hsim (name, k)) as Hr. rewrite Hh in Hr. inversion Hr as [g h0 Hgh Hg Hh0|]; subst.
      exists g. by apply elem_of_auto_segments.
  - intros [k g] [k' h] [Hk Hgh]. cbn in Hk, Hgh. subst k'. unfold compose.
    rewrite (held_scaled now g h), (paused_ms_scaled now g h), (rs_group _ _ Hgh), (rs_owner _ _ Hgh) by done. done.
Qed.

(** ** Histories *)
Definition pg_auto_call (now : Z) (c : auto_call) (u : auto_tables (option Z)) : auto_answer * auto_tables (option Z) :=
  let db := instant now in
  match c with
  | AAcquire name owner cands max_ ttl => reply GotSegments (pg_Acquire db name owner cands max_ (of_ms ttl) u)
  | ARenew held ttl => reply GotLost (pg_Renew db held (of_ms ttl) u)
  | ARelease rel => reply GotLost (pg_auto_Release db (release_requests rel) u)
  | ADefer name key d => reply GotDone (pg_Defer db name key (of_ms d) u)
  | ADeferredFor name key => reply GotPause (pg_DeferredFor db name key u)
  | ASetPaused name paused => reply GotDone (pg_SetPaused db name paused u)
  | APaused name => reply GotPaused (pg_Paused db name u)
  | ASaveStatus name st ttl => reply GotDone (pg_auto_SaveStatus db name st (of_ms ttl) u)
  | ALoadStatuses name => reply GotStatuses (pg_auto_LoadStatuses db name u)
  | ALoadSegments name => reply GotStates (pg_LoadSegments db name u)
  end.

(** The leases of one call are of different keys, and a pause ends no earlier
    than the clock's zero. *)
Definition pg_call_ok (now : Z) (c : auto_call) : Prop :=
  match c with
  | ARenew held _ => NoDup (lease_key <$> held)
  | ARelease rel => NoDup ((λ x, lease_key x.1.1) <$> rel)
  | ADefer _ _ d => 0 ≤ now + d
  | _ => True
  end.

Lemma pg_call_scaled now c t u : tables_scaled t u → 0 ≤ now → auto_call_ok id c → pg_call_ok now c →
  ∃ a t' u', sqlite_auto_call id now c t = (a, t') ∧ pg_auto_call (us_per_ms * now) c u = (a, u') ∧ tables_scaled t' u'.
Proof.
  intros Hsim Hnow Hok Hpg.
  destruct c as [name owner cands max_ ttl|held ttl|rel|name key d|name key|name p|name|name st ttl|name|name]; cbn [auto_call_ok pg_call_ok] in *;
    unfold sqlite_auto_call, pg_auto_call, reply.
  - destruct (Acquire_scaled now t u name owner cands max_ ttl Hsim Hnow) as (a & t' & u' & -> & -> & ?). by eexists _, t', u'.
  - destruct (Renew_scaled now t u held ttl Hsim Hnow Hpg) as (a & t' & u' & -> & -> & ?); [tauto|]. by eexists _, t', u'.
  - destruct (auto_Release_scaled now t u (release_requests rel) Hsim Hnow) as (a & t' & u' & -> & -> & ?); [| |by eexists _, t', u'].
    + unfold release_requests. rewrite <- list_fmap_compose. erewrite list_fmap_ext; [exact Hpg|]. by intros ? [[? ?] ?] _.
    + apply Forall_fmap. eapply Forall_impl; [exact Hok|]. intros [[l d] b] [? ?]. done.
  - destruct (Defer_scaled now t u name key d Hsim Hnow Hpg) as (t' & u' & -> & -> & ?). by eexists _, t', u'.
  - destruct (DeferredFor_scaled now t u name key Hsim Hnow) as (a & -> & ->). by eexists _, t, u.
  - destruct (SetPaused_scaled now t u name p Hsim) as (t' & u' & -> & -> & ?). by eexists _, t', u'.
  - destruct (Paused_scaled now t u name Hsim) as (a & -> & ->). by eexists _, t, u.
  - destruct (auto_SaveStatus_scaled now t u name st ttl Hsim) as (t' & u' & -> & -> & ?). by eexists _, t', u'.
  - destruct (auto_LoadStatuses_scaled now t u name Hsim) as (a & -> & ->). by eexists _, t, u.
  - destruct (LoadSegments_scaled now t u name Hsim Hnow) as (a & -> & ->). by eexists _, t, u.
Qed.

Definition us_history (cs : list (Z * auto_call)) : list (Z * auto_call) := (λ x, (us_per_ms * x.1, x.2)) <$> cs.

End calls.
