(* ===== verification/PgLeases.v ===== *)
(** * Row locks of the PostgreSQL automation store

    The transactions of [postgres/automation_store.go] that write rows of
    [automation_segments], as the locks they take one after the other and
    hold until they end.  The INSERT of [Acquire] locks the candidates' rows
    in the order of their keys, and its other statements only rows it has
    locked; [Defer] locks one row; the UPDATE ... FROM of [Renew] and of
    [Release] locks the rows of its leases in the order of a join, which SQL
    leaves open. *)
From S2P Require Import Prelude Core AutoTypes SqlAutomation PgAutoStore.

Notation row_key := (string * string)%type.

Definition row_key_less (a b : row_key) : bool :=
  if negb (bool_decide (a.1 = b.1)) then string_less a.1 b.1 else string_less a.2 b.2.

Inductive lock_call : Type :=
| LAcquire (name : string) (candidates : list Candidate)
| LDefer (name key : string)
| LRenew (held : list SegmentLease) (order : list row_key)
| LRelease (rel : list SegmentLease) (order : list row_key).

(** The keys a call locks, in order; for a join any order of its rows' keys *)
Definition locks_of (c : lock_call) : list row_key :=
  match c with
  | LAcquire name cands => pair name <$> sort_slice string_less (cd_Key <$> uniqueCandidates cands)
  | LDefer name key => [(name, key)]
  | LRenew _ order | LRelease _ order => order
  end.

Definition lock_call_ok (c : lock_call) : Prop :=
  match c with LRenew ls order | LRelease ls order => order ≡ₚ remove_dups (lease_key <$> ls) | _ => True end.

(** A transaction: what it holds, and what it still locks; or it is over. *)
Inductive lock_tx : Type := Locking (held todo : list row_key) | TxOver.

Definition lock_start (c : lock_call) : lock_tx := Locking [] (locks_of c).

Definition tx_holds (k : row_key) (x : lock_tx) : bool :=
  match x with Locking held _ => bool_decide (k ∈ held) | TxOver => false end.

Definition lock_free (k : row_key) (txs : list lock_tx) : bool := forallb (λ x, negb (tx_holds k x)) txs.

(** The next lock of [i], or its end *)
Definition lock_step (i : nat) (txs : list lock_tx) : option (list lock_tx) :=
  match txs !! i with
  | Some (Locking held (k :: todo)) => if lock_free k txs then Some (<[i := Locking (held ++ [k]) todo]> txs) else None
  | Some (Locking _ []) => Some (<[i := TxOver]> txs)
  | _ => None
  end.

Definition lock_run (txs txs' : list lock_tx) : Prop := ∃ i, lock_step i txs = Some txs'.

(** ** Locks in order *)
Definition ordered_tx (x : lock_tx) : Prop :=
  match x with Locking held todo => StronglySorted (λ a b, row_key_less a b = true) (held ++ todo) | TxOver => True end.

Definition lock_work (x : lock_tx) : nat := match x with Locking _ todo => S (length todo) | TxOver => 0 end.

Lemma weak_row_key : weak_order row_key_less.
Proof. apply (weak_lex_string fst), weak_string. Qed.

Lemma row_key_asym a b : row_key_less a b = true → row_key_less b a = true → False.
Proof. intros H1%(weak_total _ weak_row_key) H2. unfold not_after in H1. congruence. Qed.

Lemma lock_step_ordered i txs txs' : Forall ordered_tx txs → lock_step i txs = Some txs' → Forall ordered_tx txs'.
Proof.
  intros Hall. unfold lock_step. destruct (txs !! i) as [[held [|k todo]|]|] eqn:Hi; [| |done|done].
  - intros [= <-]. by apply Forall_insert.
  - destruct (lock_free k txs); [|done]. intros [= <-]. apply Forall_insert; [done|].
    apply (Forall_lookup_1 _ _ _ _ Hall) in Hi. cbn in *. by rewrite <- app_assoc.
Qed.

Lemma lock_free_elem k (txs : list lock_tx) : lock_free k txs = true ↔ ∀ x, x ∈ txs → tx_holds k x = false.
Proof.
  unfold lock_free. rewrite forallb_forall. setoid_rewrite list_elem_of_In. by setoid_rewrite negb_true_iff.
Qed.

(** The transaction that waits for the greatest key *)
Lemma greatest_wait (txs : list lock_tx) : (∃ held k todo, Locking held (k :: todo) ∈ txs) →
  ∃ held k todo, Locking held (k :: todo) ∈ txs ∧
    ∀ held' k' todo', Locking held' (k' :: todo') ∈ txs → row_key_less k k' = false.
Proof.
  induction txs as [|x txs IH]; intros (h0 & k0 & t0 & Hin); [by apply not_elem_of_nil in Hin|].
  assert ((∃ h k t, Locking h (k :: t) ∈ txs) ∨ ∀ h k t, Locking h (k :: t) ∉ txs) as [Hex|Hno].
  { destruct (existsb (λ x, match x with Locking _ (_ :: _) => true | _ => false end) txs) eqn:He.
    - apply existsb_elem in He as ([h [|k t]|] & Hx & ?); try done. left. eauto.
    - right. intros h k t Hx. apply not_true_iff_false in He. apply He, existsb_elem. eauto. }
  - destruct (IH Hex) as (h & k & t & Hk & Hmax). destruct x as [h1 [|k1 t1]|].
    + exists h, k, t. split; [by right|]. intros h' k' t' [|Hx]%elem_of_cons; [done|by eapply Hmax].
    + destruct (row_key_less k k1) eqn:Hlt.
      * exists h1, k1, t1. split; [by left|]. pose proof (weak_total _ weak_row_key _ _ Hlt) as Hk1.
        intros h' k' t' [[= -> -> ->]|Hx]%elem_of_cons; [|apply (weak_trans _ weak_row_key k' k k1); [by eapply Hmax|done]].
        apply not_true_iff_false. intros Hx. by apply (row_key_asym k1 k1).
      * exists h, k, t. split; [by right|]. intros h' k' t' [[= -> -> ->]|Hx]%elem_of_cons; [done|by eapply Hmax].
    + exists h, k, t. split; [by right|]. intros h' k' t' [|Hx]%elem_of_cons; [done|by eapply Hmax].
  - apply elem_of_cons in Hin as [<-|Hin]; [|by destruct (Hno h0 k0 t0)]. exists h0, k0, t0. split; [by left|].
    intros h' k' t' [[= -> -> ->]|Hx]%elem_of_cons; [|by destruct (Hno h' k' t')].
    apply not_true_iff_false. intros Hx. by apply (row_key_asym k0 k0).
Qed.

Lemma ordered_step (txs : list lock_tx) : Forall ordered_tx txs → (∃ x, x ∈ txs ∧ x ≠ TxOver) →
  ∃ i txs', lock_step i txs = Some txs' ∧ (sum_list (lock_work <$> txs') < sum_list (lock_work <$> txs))%nat.
Proof.
  intros Hall (x & Hx & Hover). rewrite Forall_forall in Hall. destruct x as [held todo|]; [|done].
  destruct (existsb (λ x, match x with Locking _ [] => true | _ => false end) txs) eqn:He.
  { apply existsb_elem in He as ([h [|k t]|] & Hin & ?); try done. apply list_elem_of_lookup_1 in Hin as [i Hi].
    exists i, (<[i := TxOver]> txs). unfold lock_step. rewrite Hi. split; [done|]. apply (sum_list_insert_lt _ _ _ _ _ Hi). cbn. lia. }
  assert (∀ h, Locking h [] ∉ txs) as Hnone.
  { intros h Hin. apply not_true_iff_false in He. apply He, existsb_elem. eauto. }
  destruct todo as [|k0 todo0]; [by destruct (Hnone held)|].
  destruct (greatest_wait txs) as (h & k & t & Hin & Hmax); [eauto|]. apply list_elem_of_lookup_1 in Hin as [i Hi].
  exists i, (<[i := Locking (h ++ [k]) t]> txs). unfold lock_step. rewrite Hi.
  assert (lock_free k txs = true) as ->.
  { apply lock_free_elem. intros [h' todo'|] Hin'; [|done]. apply bool_decide_eq_false. intros Hk.
    destruct todo' as [|k' t']; [by destruct (Hnone h')|]. specialize (Hmax _ _ _ Hin'). specialize (Hall _ Hin'). cbn in Hall.
    enough (row_key_less k k' = true) by congruence. eapply (StronglySorted_app_1_elem_of (λ a b, row_key_less a b = true)); [exact Hall|done|by left]. }
  split; [done|]. apply (sum_list_insert_lt _ _ _ _ _ Hi). cbn. lia.
Qed.

Lemma unique_keys segs seen : NoDup (cd_Key <$> unique_from segs seen) ∧ ∀ c, c ∈ unique_from segs seen → cd_Key c ∉ seen.
Proof.
  revert seen. induction segs as [|s segs IH]; intros seen; cbn; [split; [constructor|by intros c ?%not_elem_of_nil]|].
  destruct (bool_decide_reflect (cd_Key s ∈ seen)) as [Hin|Hin]; [apply IH|].
  destruct (IH (cd_Key s :: seen)) as [Hnd Hseen]. cbn. split.
  - apply NoDup_cons. split; [|done]. intros (c & Hc & Hx)%list_elem_of_fmap. apply (Hseen c Hx). rewrite <- Hc. by left.
  - intros c [->|Hx]%elem_of_cons; [done|]. intros Hc. apply (Hseen c Hx). by right.
Qed.

Lemma locks_ordered c : match c with LAcquire _ _ | LDefer _ _ => True | _ => False end → ordered_tx (lock_start c).
Proof.
  destruct c as [name cands|name key| |]; try done; intros _; cbn; [|repeat constructor].
  apply (StronglySorted_fmap_in (pair name) (λ a b, string_less a b = true)).
  - intros a b _ _ Hab. unfold row_key_less; cbn. by rewrite bool_decide_true.
  - apply sort_slice_strict; [apply (weak_string id)|apply unique_keys|].
    intros a b _ _ H1 H2. apply (anti_symm String.le); by apply string_less_le.
Qed.

(** Transactions that lock in key order, as Acquire and Defer do, can always all
    go on to their end. *)
Theorem ordered_locks_never_deadlock cs txs :
  Forall (λ c, match c with LAcquire _ _ | LDefer _ _ => True | _ => False end) cs →
  rtc lock_run (lock_start <$> cs) txs → ∃ txs', rtc lock_run txs txs' ∧ ∀ x, x ∈ txs' → x = TxOver.
Proof.
  intros Hcs Hrun. assert (Forall ordered_tx txs) as Hall.
  { assert (Forall ordered_tx (lock_start <$> cs)) as H0 by (apply Forall_fmap; eapply Forall_impl; [exact Hcs|apply locks_ordered]).
    revert H0. induction Hrun as [|x y z [i Hi] _ IH]; [done|]. intros H0. apply IH. by eapply lock_step_ordered. }
  clear Hcs Hrun. remember (sum_list (lock_work <$> txs)) as n eqn:Hn. revert txs Hall Hn.
  induction (lt_wf n) as [n _ IH]. intros txs Hall ->.
  destruct (existsb (λ x, match x with TxOver => false | _ => true end) txs) eqn:He.
  - apply existsb_elem in He as (x & Hx & Hover).
    destruct (ordered_step txs Hall) as (i & txs1 & Hi & Hlt); [exists x; split; [done|by intros ->]|].
    destruct (IH _ Hlt txs1) as (txs' & Hrun & Hdone); [by eapply lock_step_ordered|done|].
    exists txs'. split; [|done]. eapply rtc_l; [by exists i|done].
  - exists txs. split; [done|]. intros x Hx. destruct x; [|done]. apply not_true_iff_false in He. destruct He.
    apply existsb_elem. eauto.
Qed.

(** A Renew of two leases that locks their rows in another order than that of
    their keys, and an Acquire of the same two keys, can reach a state in
    which neither is over and neither can take its next lock. *)
Theorem renew_and_acquire_can_deadlock name owner epoch k1 k2 : string_less k1 k2 = true →
  let held := [mkSegmentLease name k1 owner epoch; mkSegmentLease name k2 owner epoch] in
  let renew := LRenew held [(name, k2); (name, k1)] in
  let acquire := LAcquire name [mkCandidate k1 ""; mkCandidate k2 ""] in
  lock_call_ok renew ∧
  ∃ txs, rtc lock_run (lock_start <$> [renew; acquire]) txs ∧
    (∀ x, x ∈ txs → x ≠ TxOver) ∧ ∀ i, lock_step i txs = None.
Proof.
  intros Hlt held renew acquire.
  assert (k1 ≠ k2) as Hne by (intros ->; by apply (row_key_asym (name, k2) (name, k2)); unfold row_key_less; cbn; rewrite bool_decide_true).
  assert (locks_of acquire = [(name, k1); (name, k2)]) as Hacq.
  { cbn. unfold uniqueCandidates; cbn. rewrite (bool_decide_false (k1 ∈ [])) by apply not_elem_of_nil. cbn.
    rewrite (bool_decide_false (k2 ∈ [k1])) by (intros ?%list_elem_of_singleton; congruence). cbn.
    by rewrite (weak_total _ (weak_string id) k1 k2 Hlt : string_less k2 k1 = false). }
  assert (lock_call_ok renew) as Hok.
  { apply NoDup_Permutation; [|apply NoDup_remove_dups|].
    - apply NoDup_cons. split; [intros Heq%list_elem_of_singleton; congruence|apply NoDup_singleton].
    - intros k. rewrite elem_of_remove_dups. cbn. set_solver. }
  split; [done|]. exists [Locking [(name, k2)] [(name, k1)]; Locking [(name, k1)] [(name, k2)]]. split_and!.
  - cbn [fmap list_fmap]. unfold lock_start. rewrite Hacq. cbn [renew locks_of].
    eapply rtc_l; [exists 0%nat; reflexivity|]. eapply rtc_l; [exists 1%nat|done].
    unfold lock_step. cbn. rewrite bool_decide_false; [done|]. intros ?%list_elem_of_singleton. congruence.
  - intros x [->|[->|?%not_elem_of_nil]%elem_of_cons]%elem_of_cons; done.
  - intros [|[|i]]; [..|done]; unfold lock_step; cbn.
    + rewrite (bool_decide_true ((name, k1) ∈ [(name, k1)])) by (by left). cbn. by rewrite andb_false_r.
    + by rewrite (bool_decide_true ((name, k2) ∈ [(name, k2)])) by (by left).
Qed.
