(* ===== verification/ClaimScheduler.v ===== *)
(** * The default scheduler ([automation/claim_scheduler.go])

    The scheduler's memory is a Record, the store, the todo list and the clock
    are one world.  Its methods hold the mutex, so each is one step.  Where the
    code ranges over the map of held segments, the order is [map_range], which
    the laws only require to list the map's entries. *)
From S2P Require Import Prelude Core Effect AutoTypes.

(** ** What it calls *)

(** The [Store] of an automation, its list, the list's segments and
    [time.Now].  [li_segments] is [None] for a list that is not [Segmented]. *)
Class SchedulerOps (W T : Type) : Type := {
  sto_Acquire : string → string → list Candidate → Z → duration → W → result error AcquireResult * W;
  sto_Renew : list SegmentLease → duration → W → result error (list SegmentLease) * W;
  sto_Release : list ReleaseRequest → W → result error (list SegmentLease) * W;
  sto_Defer : string → string → duration → W → option error * W;
  sto_DeferredFor : string → string → W → result error duration * W;
  li_Claim : ClaimRequest → W → result error (list T) * W;
  li_ClaimSegments : ClaimRequest → W → result error (list (Claimed T)) * W;
  li_segments : option (W → result error (list Candidate) * W);
  sc_now : W → time;
  map_range : ∀ {A}, gmap string A → list (string * A);
}.

Class SchedulerLaws (W T : Type) `{SchedulerOps W T} : Prop := {
  range_perm {A} (m : gmap string A) : map_range m ≡ₚ map_to_list m;
  acquire_max name owner cands max ttl w res w' :
    sto_Acquire name owner cands max ttl w = (Ok res, w') → zlen (ac_Granted res) ≤ Z.max 0 max;
}.

Definition DefaultSegmentTerm : duration := 30 * second.

(** The fields that do not change. *)
Record schedulerConfig : Type := mkConfig {
  sf_name : string;
  sf_lease : duration;
  sf_ttl : duration;
  sf_maxPerKey : Z;
  sf_maxSegments : Z;
  sf_term : duration;
  sf_pollInterval : duration;
  sf_owner : string;
}.

Record heldSegment : Type := mkHeld {
  hs_lease : SegmentLease;
  hs_since : time;
  hs_served : bool;
  hs_busy : bool;
  hs_leaseEnd : time;
  hs_deferUntil : time;
}.

Record claimScheduler : Type := mkScheduler {
  cs_held : gmap string heldSegment;
  cs_lastEligible : Z;
  cs_busy : bool;
}.

Definition newClaimScheduler (name : string) (lease poll : duration) (batchSize maxSegments : Z) (owner : string)
    : schedulerConfig * claimScheduler :=
  (mkConfig name lease (3 * lease + poll) batchSize maxSegments DefaultSegmentTerm poll owner,
   mkScheduler ∅ 0 false).

Section scheduler.
Context {W T : Type} `{OPS : SchedulerOps W T}.
Context (cf : schedulerConfig).

Notation S := (SE claimScheduler W).

Definition upd_held (f : gmap string heldSegment → gmap string heldSegment) (s : claimScheduler) : claimScheduler :=
  mkScheduler (f (cs_held s)) (cs_lastEligible s) (cs_busy s).
Definition set_eligible (n : Z) (s : claimScheduler) : claimScheduler := mkScheduler (cs_held s) n (cs_busy s).
Definition set_busy (b : bool) (s : claimScheduler) : claimScheduler := mkScheduler (cs_held s) (cs_lastEligible s) b.

(** [release] *)
Definition release (h : heldSegment) (deferFor : duration) : S () :=
  modify (upd_held (delete (sl_Key (hs_lease h)))) ;;
  _ ← wrap "release" (lift (sto_Release [mkRelease (hs_lease h) deferFor (hs_served h)]));
  mret ().

Definition nextUnsegmented : S (list (Batch T)) :=
  busy ← asks cs_busy;
  if busy : bool then mret []
  else
    paused ← wrap "deferred" (lift (sto_DeferredFor (sf_name cf) ""));
    if 0 <? paused then mret []
    else
      claimed ← world sc_now;
      items ← wrap "claim" (lift (li_Claim (mkClaimRequest [] (sf_maxPerKey cf) (sf_lease cf))));
      match items with
      | [] => mret []
      | _ :: _ =>
        modify (set_busy true) ;;
        mret [mkBatch "" ((λ it, mkItem "" it (time_Add claimed (sf_lease cf))) <$> items)]
      end.

(** The loop over the lost leases. *)
Fixpoint forget_lost (now : time) (lost : list SegmentLease) : S () :=
  match lost with
  | [] => mret ()
  | l :: lost =>
    h ← asks (λ s, cs_held s !! sl_Key l);
    modify (upd_held (delete (sl_Key l))) ;;
    (match h with
     | Some h => if time_IsZero (hs_deferUntil h) then mret ()
                 else wrap "defer" (lift_err (sto_Defer (sf_name cf) (sl_Key l) (time_Sub (hs_deferUntil h) now)))
     | None => mret ()
     end : S ()) ;;
    forget_lost now lost
  end.

Definition renew_held (now : time) : S () :=
  held ← asks cs_held;
  if bool_decide (held = ∅) then mret ()
  else
    lost ← wrap "renew" (lift (sto_Renew ((λ kh : string * heldSegment, hs_lease kh.2) <$> map_range held) (sf_ttl cf)));
    forget_lost now lost.

(** The segment held longest past its term, among those not busy. *)
Definition oldest (now : time) (held : gmap string heldSegment) : option heldSegment :=
  foldl (λ o (kh : string * heldSegment), let h := kh.2 in
    if negb (hs_busy h) && (sf_term cf <=? time_Sub now (hs_since h)) &&
       match o with None => true | Some o => time_Before (hs_since h) (hs_since o) end
    then Some h else o) None (map_range held).

Definition rotate (now : time) : S () :=
  s ← asks id;
  if (0 <? cs_lastEligible s) && (sf_maxSegments cf <=? Z.of_nat (size (cs_held s))) then
    match oldest now (cs_held s) with
    | Some h => release h 0
    | None => mret ()
    end
  else mret ().

Definition acquire (now : time) (segments : W → result error (list Candidate) * W) : S () :=
  cands ← wrap "segments" (lift segments);
  held ← asks cs_held;
  let max := Z.max 0 (sf_maxSegments cf - Z.of_nat (size held)) in
  res ← wrap "acquire" (lift (sto_Acquire (sf_name cf) (sf_owner cf) cands max (sf_ttl cf)));
  modify (set_eligible (ac_Eligible res)) ;;
  modify (upd_held (λ held, foldl (λ held l, <[sl_Key l := mkHeld l now false false time_zero time_zero]> held)
                              held (ac_Granted res))).

(** The loop of [claimHeld]: the groups asked for that have items. *)
Definition batches_of (keys : list string) (deadline : time) (groups : list (Claimed T)) : list (Batch T) :=
  omap (λ g, if negb (bool_decide (cl_Segment g ∈ keys)) then None
             else match cl_Items g with
                  | [] => None
                  | _ :: _ => Some (mkBatch (cl_Segment g) ((λ it, mkItem (cl_Segment g) it deadline) <$> cl_Items g))
                  end) groups.

Definition claimHeld (keys : list string) : S (list (Batch T)) :=
  now ← world sc_now;
  groups ← wrap "claim" (lift (li_ClaimSegments (mkClaimRequest keys (sf_maxPerKey cf) (sf_lease cf))));
  mret (batches_of keys (time_Add now (sf_lease cf)) groups).

(** [got]: the deadline of the last batch of each segment. *)
Definition got (batches : list (Batch T)) : gmap string time :=
  foldl (λ m b, match ba_Items b with it :: _ => <[ba_Key b := it_Deadline it]> m | [] => m end) ∅ batches.

Definition start_batch (leaseEnd : time) (h : heldSegment) : heldSegment :=
  mkHeld (hs_lease h) (hs_since h) true true leaseEnd (hs_deferUntil h).

(** The loop over the free segments: mark the ones that got work, and
    return the idle ones. *)
Fixpoint mark_busy (got : gmap string time) (free : list string) (held : gmap string heldSegment)
    : list heldSegment * gmap string heldSegment :=
  match free with
  | [] => ([], held)
  | k :: free =>
    match held !! k with
    | None => mark_busy got free held
    | Some h =>
      match got !! k with
      | Some leaseEnd => mark_busy got free (<[k := start_batch leaseEnd h]> held)
      | None => let '(idle, held) := mark_busy got free held in (h :: idle, held)
      end
    end
  end.

Fixpoint release_all (idle : list heldSegment) : S () :=
  match idle with
  | [] => mret ()
  | h :: idle => release h (sf_pollInterval cf) ;; release_all idle
  end.

Definition nextSegmented (segments : W → result error (list Candidate) * W) : S (list (Batch T)) :=
  now ← world sc_now;
  renew_held now ;;
  rotate now ;;
  acquire now segments ;;
  held ← asks cs_held;
  let free := fst <$> bfilter (λ kh : string * heldSegment, negb (hs_busy kh.2)) (map_range held) in
  if bool_decide (free = []) then mret []
  else
    batches ← claimHeld free;
    held ← asks cs_held;
    let '(idle, held') := mark_busy (got batches) free held in
    modify (upd_held (λ _, held')) ;;
    release_all idle ;;
    mret batches.

Definition Next : S (list (Batch T)) :=
  match li_segments with
  | None => nextUnsegmented
  | Some segments => nextSegmented segments
  end.

(** [Done]: an item's outcome. *)
Definition Done_ (item : Item T) (out : Outcome) : S () :=
  match out with
  | DeferredOutcome until =>
    now ← world sc_now;
    let until := if time_After until now then until else time_Add now (sf_lease cf) in
    match li_segments with
    | None => wrap "defer" (lift_err (sto_Defer (sf_name cf) "" (time_Sub until now)))
    | Some _ =>
      h ← asks (λ s, cs_held s !! it_Key item);
      match h with
      | None => wrap "defer" (lift_err (sto_Defer (sf_name cf) (it_Key item) (time_Sub until now)))
      | Some h =>
        if time_After until (hs_deferUntil h) then
          modify (upd_held (insert (it_Key item)
            (mkHeld (hs_lease h) (hs_since h) (hs_served h) (hs_busy h) (hs_leaseEnd h) until)))
        else mret ()
      end
    end
  | _ => mret ()
  end.

Definition idle_segment (h : heldSegment) : heldSegment :=
  mkHeld (hs_lease h) (hs_since h) (hs_served h) false (hs_leaseEnd h) (hs_deferUntil h).

Definition Drained (key : string) : S () :=
  match li_segments with
  | None => modify (set_busy false)
  | Some _ =>
    h ← asks (λ s, cs_held s !! key);
    match h with
    | None => mret ()
    | Some h =>
      let h := idle_segment h in
      modify (upd_held (insert key h)) ;;
      if time_IsZero (hs_deferUntil h) then mret ()
      else
        let until := if time_After (hs_leaseEnd h) (hs_deferUntil h) then hs_leaseEnd h else hs_deferUntil h in
        now ← world sc_now;
        release h (time_Sub until now)
    end
  end.

Definition close_request (now : time) (h : heldSegment) : ReleaseRequest :=
  mkRelease (hs_lease h) (if time_After (hs_deferUntil h) now then time_Sub (hs_deferUntil h) now else 0) (hs_served h).

Definition Close : S () :=
  held ← asks cs_held;
  if bool_decide (held = ∅) then mret ()
  else
    now ← world sc_now;
    modify (upd_held (λ _, ∅)) ;;
    _ ← wrap "release" (lift (sto_Release ((λ kh : string * heldSegment, close_request now kh.2) <$> map_range held)));
    mret ().
End scheduler.

(** ** Facts *)
Section facts.
Context {W T : Type} `{OPS : SchedulerOps W T} `{!SchedulerLaws W T}.
Context (cf : schedulerConfig).
Notation state := (claimScheduler * W)%type.

Lemma elem_of_range {A} (m : gmap string A) k a : (k, a) ∈ map_range m ↔ m !! k = Some a.
Proof. by rewrite (range_perm m), elem_of_map_to_list. Qed.

(** Predicates on the memory alone are kept by calls. *)
Lemma keep_lift {A} (f : W → result error A * W) (I : claimScheduler → Prop) :
  triple (λ s, I s.1) (lift f) (λ _ s, I s.1) (λ s, I s.1).
Proof. apply triple_lift. intros r w [?|?] w' HI _; exact HI. Qed.

Lemma keep_lift_err (f : W → option error * W) (I : claimScheduler → Prop) :
  triple (λ s, I s.1) (lift_err f) (λ _ s, I s.1) (λ s, I s.1).
Proof. apply triple_lift_err. intros r w [?|] w' HI _; exact HI. Qed.

(** *** [release] only forgets the segment *)
Lemma release_keeps h d (I : claimScheduler → Prop) :
  (∀ s, I s → I (upd_held (delete (sl_Key (hs_lease h))) s)) →
  triple (λ s, I s.1) (release (T := T) h d) (λ _ s, I s.1) (λ s, I s.1).
Proof.
  intros HI. eapply triple_bind; [apply triple_modify with (Q := λ _ s, I s.1); intros r w; apply HI|].
  intros ?. eapply triple_bind; [apply triple_wrap, (keep_lift _ I)|]. intros ?. by apply triple_ret.
Qed.

Lemma release_all_keeps idle (I : claimScheduler → Prop) :
  (∀ h s, h ∈ idle → I s → I (upd_held (delete (sl_Key (hs_lease h))) s)) →
  triple (λ s, I s.1) (release_all (T := T) cf idle) (λ _ s, I s.1) (λ s, I s.1).
Proof.
  induction idle as [|h idle IH]; intros HI; cbn [release_all]; [by apply triple_ret|].
  eapply triple_bind; [apply (release_keeps h _ I); intros s; apply HI; constructor|].
  intros ?. apply IH. intros h' s Hh'. apply HI. by constructor.
Qed.

Lemma forget_lost_keeps now lost (I : claimScheduler → Prop) :
  (∀ l s, l ∈ lost → I s → I (upd_held (delete (sl_Key l)) s)) →
  triple (λ s, I s.1) (forget_lost (T := T) cf now lost) (λ _ s, I s.1) (λ s, I s.1).
Proof.
  induction lost as [|l lost IH]; intros HI; cbn [forget_lost]; [by apply triple_ret|].
  apply (triple_asks _ _ (λ _, True)); [done|]. intros h _.
  eapply triple_bind; [apply triple_modify with (Q := λ _ s, I s.1); intros r w; apply HI; constructor|]. intros ?.
  eapply triple_bind with (Mid := λ _ s, I s.1).
  - destruct h as [h|]; [|by apply triple_ret]. destruct (time_IsZero _); [by apply triple_ret|].
    apply triple_wrap, (keep_lift_err _ I).
  - intros ?. apply IH. intros l' s Hl'. apply HI. by constructor.
Qed.

(** *** The cap *)
Definition capped (s : claimScheduler) : Prop := Z.of_nat (size (cs_held s)) ≤ sf_maxSegments cf.

Lemma capped_delete k s : capped s → capped (upd_held (delete k) s).
Proof.
  unfold capped; cbn. destruct (cs_held s !! k) as [h|] eqn:Hk.
  - rewrite map_size_delete_Some by eauto. lia.
  - by rewrite delete_id.
Qed.

Lemma size_inserts (now : time) ls (held : gmap string heldSegment) :
  Z.of_nat (size (foldl (λ held l, <[sl_Key l := mkHeld l now false false time_zero time_zero]> held) held ls))
  ≤ Z.of_nat (size held) + zlen ls.
Proof.
  revert held. induction ls as [|l ls IH]; intros held; cbn [foldl]; [change (zlen []) with 0; lia|].
  etrans; [apply IH|]. rewrite zlen_cons. destruct (held !! sl_Key l) eqn:Hk.
  - rewrite map_size_insert_Some by eauto. lia.
  - rewrite map_size_insert_None by done. lia.
Qed.

Lemma mark_busy_size g free held idle held' :
  mark_busy g free held = (idle, held') → size held' = size held.
Proof.
  revert held idle. induction free as [|k free IH]; intros held idle; cbn [mark_busy]; [by intros [= _ <-]|].
  destruct (held !! k) as [h|] eqn:Hk; [|apply IH]. destruct (g !! k) as [e|].
  - intros H. rewrite (IH _ _ H). by rewrite map_size_insert_Some.
  - destruct (mark_busy g free held) as [idle1 held1] eqn:Hm. intros [= <- <-]. by eapply IH.
Qed.

Lemma acquire_capped now segments :
  triple (λ s, capped s.1) (acquire (T := T) cf now segments) (λ _ s, capped s.1) (λ s, capped s.1).
Proof.
  eapply triple_bind; [apply triple_wrap, (keep_lift _ capped)|]. intros cands.
  apply triple_remember. intros st.
  eapply triple_bind with (Mid := λ res s, zlen (ac_Granted res) ≤ Z.max 0 (sf_maxSegments cf - Z.of_nat (size (cs_held st))) ∧
    (capped s.1 ∧ s.1 = st)).
  { apply triple_wrap, triple_lift. intros r w [res|e] w' [HI Hst] Hacq; [|exact HI].
    apply acquire_max in Hacq. split; [lia|done]. }
  intros res. apply triple_pure. intros Hmax.
  eapply triple_bind with (Mid := λ _ s, capped s.1 ∧ cs_held s.1 = cs_held st).
  { apply triple_modify. intros r w [HI Hst]. cbn in *. by subst st. }
  intros ?. apply triple_modify. intros r w [HI Hst]. unfold capped in *; cbn in *. rewrite Hst in *.
  pose proof (size_inserts now (ac_Granted res) (cs_held st)). lia.
Qed.

Definition keeps {A} (I : claimScheduler → Prop) (m : SE claimScheduler W A) : Prop :=
  triple (λ s, I s.1) m (λ _ s, I s.1) (λ s, I s.1).

Lemma keeps_run {A} (I : claimScheduler → Prop) (m : SE claimScheduler W A) st w :
  keeps I m → I st → I (m (st, w)).2.1.
Proof. intros Hm HI. specialize (Hm (st, w) HI). by destruct (m (st, w)) as [[?|?] ?]. Qed.

Lemma keeps_bind {A B} I (m : SE claimScheduler W A) (f : A → SE claimScheduler W B) :
  keeps I m → (∀ a, keeps I (f a)) → keeps I (m ≫= f).
Proof. intros Hm Hf. eapply triple_bind; [exact Hm|exact Hf]. Qed.

Lemma keeps_asks {A B} I (f : claimScheduler → A) (g : A → SE claimScheduler W B) :
  (∀ a, keeps I (g a)) → keeps I (asks f ≫= g).
Proof. intros Hg. apply (triple_asks _ _ (λ _, True)); [done|]. intros a _. apply Hg. Qed.

Lemma keeps_world {A B} I (f : W → A) (g : A → SE claimScheduler W B) :
  (∀ a, keeps I (g a)) → keeps I (world f ≫= g).
Proof. intros Hg. eapply triple_bind; [apply triple_world|exact Hg]. Qed.

Lemma keeps_modify I (f : claimScheduler → claimScheduler) : (∀ s, I s → I (f s)) → keeps I (modify f).
Proof. intros Hf. apply triple_modify. intros r w. apply Hf. Qed.

Lemma keeps_ret {A} I (a : A) : keeps I (mret a).
Proof. by apply triple_ret. Qed.

Lemma keeps_call {A} I text (f : W → result error A * W) : keeps I (wrap text (lift f)).
Proof. apply triple_wrap, (keep_lift f I). Qed.

Lemma keeps_call_err I text (f : W → option error * W) : keeps I (wrap text (lift_err f)).
Proof. apply triple_wrap, (keep_lift_err f I). Qed.

Lemma nextSegmented_capped segments : keeps capped (nextSegmented (T := T) cf segments).
Proof.
  apply keeps_world. intros now. apply keeps_bind.
  { apply keeps_asks. intros held. case_bool_decide; [apply keeps_ret|].
    apply keeps_bind; [apply keeps_call|]. intros lost. apply (forget_lost_keeps now lost capped).
    intros l s _. apply capped_delete. }
  intros ?. apply keeps_bind.
  { apply keeps_asks. intros s. destruct (_ && _); [|apply keeps_ret]. destruct (oldest _ _ _); [|apply keeps_ret].
    apply (release_keeps _ _ capped). intros s'. apply capped_delete. }
  intros ?. apply keeps_bind; [apply acquire_capped|]. intros ?.
  apply triple_remember. intros st1. cbv beta zeta. case_bool_decide; [by apply triple_ret; intros s [? _]|].
  eapply triple_bind with (Mid := λ _ s, capped s.1).
  { eapply triple_pre; [apply keeps_world; intros now'; apply keeps_bind; [apply keeps_call|intros gs; apply keeps_ret]|].
    by intros s [? _]. }
  intros batches. apply triple_remember. intros st2. destruct (mark_busy _ _ _) as [idle held'] eqn:Hm.
  eapply triple_bind with (Mid := λ _ s, capped s.1).
  { apply triple_modify. intros r w [HI Hst]. cbn in *. subst st2. unfold capped in *; cbn.
    by rewrite (mark_busy_size _ _ _ _ _ Hm). }
  intros ?. apply keeps_bind; [|intros ?; apply keeps_ret].
  apply (release_all_keeps idle capped). intros h s _. apply capped_delete.
Qed.

Lemma Next_capped : keeps capped (Next (T := T) cf).
Proof.
  unfold Next. destruct li_segments as [segments|]; [apply nextSegmented_capped|].
  apply keeps_asks. intros [|]; [apply keeps_ret|]. apply keeps_bind; [apply keeps_call|]. intros paused.
  destruct (0 <? paused); [apply keeps_ret|]. apply keeps_world. intros claimed.
  apply keeps_bind; [apply keeps_call|]. intros [|it items]; [apply keeps_ret|].
  apply keeps_bind; [by apply keeps_modify|]. intros ?. apply keeps_ret.
Qed.

Lemma capped_insert k h h' s : cs_held s !! k = Some h → capped s → capped (upd_held (insert k h') s).
Proof. unfold capped; cbn. intros Hk. by rewrite map_size_insert_Some by eauto. Qed.

Lemma Done_capped item out : keeps capped (Done_ (T := T) cf item out).
Proof.
  destruct out as [|e|until]; [apply keeps_ret..|]. apply keeps_world. intros now.
  destruct li_segments; [|apply keeps_call_err]. apply triple_remember. intros st.
  destruct (cs_held st !! it_Key item) as [h|] eqn:Hk.
  - destruct (time_After _ _); [|by apply triple_ret; intros s [? _]]. apply triple_modify. intros r w [HI Hst].
    cbn in *. subst r. by eapply capped_insert.
  - eapply triple_pre; [apply keeps_call_err|]. by intros s [? _].
Qed.

Lemma Drained_capped key : keeps capped (Drained (T := T) key).
Proof.
  unfold Drained. destruct li_segments; [|by apply keeps_modify]. apply triple_remember. intros st.
  destruct (cs_held st !! key) as [h|] eqn:Hk; [|by apply triple_ret; intros s [? _]].
  eapply triple_bind with (Mid := λ _ s, capped s.1).
  { apply triple_modify. intros r w [HI Hst]. cbn in *. subst r. by eapply capped_insert. }
  intros ?. destruct (time_IsZero _); [apply keeps_ret|]. apply keeps_world. intros now.
  apply (release_keeps _ _ capped). intros s. apply capped_delete.
Qed.

Lemma Close_capped : 0 ≤ sf_maxSegments cf → keeps capped (Close (T := T)).
Proof.
  intros H0. apply keeps_asks. intros held. case_bool_decide; [apply keeps_ret|]. apply keeps_world. intros now.
  apply keeps_bind; [apply keeps_modify; intros s _; unfold capped; cbn; by rewrite map_size_empty|].
  intros ?. apply keeps_bind; [apply keeps_call|]. intros ?. apply keeps_ret.
Qed.

(** The scheduler never holds more than [MaxSegments] segments: starting within
    the cap, [Next] keeps within it whether it returns batches or fails, and
    so do [Done], [Drained] and [Close]. *)
Theorem scheduler_holds_at_most_MaxSegments item out key st w :
  Z.of_nat (size (cs_held st)) ≤ sf_maxSegments cf →
  Z.of_nat (size (cs_held (Next (T := T) cf (st, w)).2.1)) ≤ sf_maxSegments cf ∧
  Z.of_nat (size (cs_held (Done_ (T := T) cf item out (st, w)).2.1)) ≤ sf_maxSegments cf ∧
  Z.of_nat (size (cs_held (Drained (T := T) key (st, w)).2.1)) ≤ sf_maxSegments cf ∧
  Z.of_nat (size (cs_held (Close (T := T) (st, w)).2.1)) ≤ sf_maxSegments cf.
Proof.
  intros Hc. split_and!.
  - by apply (keeps_run capped _ st w Next_capped).
  - by apply (keeps_run capped _ st w (Done_capped item out)).
  - by apply (keeps_run capped _ st w (Drained_capped key)).
  - apply (keeps_run capped _ st w); [|done]. apply Close_capped. lia.
Qed.

(** *** A segment whose batch runs *)
Definition keyed (s : claimScheduler) : Prop := ∀ k h, cs_held s !! k = Some h → sl_Key (hs_lease h) = k.

Lemma keyed_delete k s : keyed s → keyed (upd_held (delete k) s).
Proof. intros H k' h Hk. cbn in Hk. apply lookup_delete_Some in Hk as [_ Hk]. by apply H. Qed.

Lemma inserts_lookup (now : time) ls (held : gmap string heldSegment) k h :
  k ∉ sl_Key <$> ls → held !! k = Some h →
  foldl (λ held l, <[sl_Key l := mkHeld l now false false time_zero time_zero]> held) held ls !! k = Some h.
Proof.
  revert held. induction ls as [|l ls IH]; intros held; cbn [foldl fmap list_fmap]; [done|].
  intros [Hk Hks]%not_elem_of_cons Hh. apply IH; [done|]. by rewrite lookup_insert_ne by done.
Qed.

Lemma inserts_keyed (now : time) ls (held : gmap string heldSegment) :
  (∀ k h, held !! k = Some h → sl_Key (hs_lease h) = k) →
  ∀ k h, foldl (λ held l, <[sl_Key l := mkHeld l now false false time_zero time_zero]> held) held ls !! k = Some h →
    sl_Key (hs_lease h) = k.
Proof.
  revert held. induction ls as [|l ls IH]; intros held Hheld; cbn [foldl]; [done|].
  apply IH. intros k h [[<- <-]|[_ Hk]]%lookup_insert_Some; [done|auto].
Qed.

Lemma mark_busy_spec g free held idle held' :
  mark_busy g free held = (idle, held') → (∀ k h, held !! k = Some h → sl_Key (hs_lease h) = k) →
  (∀ k h, held' !! k = Some h → sl_Key (hs_lease h) = k) ∧
  (∀ h, h ∈ idle → sl_Key (hs_lease h) ∈ free) ∧
  (∀ k, k ∉ free → held' !! k = held !! k).
Proof.
  revert held idle. induction free as [|k free IH]; intros held idle; cbn [mark_busy].
  { intros [= <- <-] Hk. split_and!; [done| |done]. by intros h ?%not_elem_of_nil. }
  destruct (held !! k) as [h|] eqn:Hh.
  2: { intros H Hk. destruct (IH _ _ H Hk) as (H1 & H2 & H3). split_and!; [done| |].
       - intros h Hi. constructor. auto.
       - intros k' [_ Hk']%not_elem_of_cons. auto. }
  destruct (g !! k) as [e|].
  - intros H Hk. destruct (IH _ _ H) as (H1 & H2 & H3).
    { intros k' h' [[<- <-]|[_ Hk']]%lookup_insert_Some; cbn; auto. }
    split_and!; [done|intros h' Hi; constructor; auto|].
    intros k' [Hne Hk']%not_elem_of_cons. rewrite H3 by done. by rewrite lookup_insert_ne by done.
  - destruct (mark_busy g free held) as [idle1 held1] eqn:Hm. intros [= <- <-] Hk.
    destruct (IH _ _ Hm Hk) as (H1 & H2 & H3). split_and!; [done| |].
    + intros h' [->|Hi]%elem_of_cons; [rewrite (Hk _ _ Hh); constructor|constructor; auto].
    + intros k' [_ Hk']%not_elem_of_cons. auto.
Qed.

Lemma oldest_spec now held h :
  oldest cf now held = Some h → ∃ k, held !! k = Some h ∧ hs_busy h = false.
Proof.
  unfold oldest. set (f := λ o kh, _).
  assert (∀ l o, (∀ kh, kh ∈ l → held !! kh.1 = Some kh.2) →
    (∀ x, o = Some x → ∃ k, held !! k = Some x ∧ hs_busy x = false) →
    ∀ x, foldl f o l = Some x → ∃ k, held !! k = Some x ∧ hs_busy x = false) as H.
  { induction l as [|[k x] l IH]; intros o Hl Ho; cbn [foldl]; [done|].
    apply IH; [intros kh Hkh; apply Hl; by constructor|]. intros y. unfold f; cbn [snd].
    destruct (negb (hs_busy x)) eqn:Hb; cbn; [|apply Ho]. destruct (_ && _); [|apply Ho].
    intros [= <-]. exists k. split; [apply (Hl (k, x)); constructor|by apply negb_true_iff]. }
  apply (H _ None); [|done]. intros [k x] Hkx. by apply elem_of_range.
Qed.

Lemma batches_of_keys keys deadline groups b : b ∈ batches_of (T := T) keys deadline groups → ba_Key b ∈ keys.
Proof.
  unfold batches_of. intros (g & _ & Hg)%list_elem_of_omap.
  case_bool_decide as Hin; cbn in Hg; [|done]. destruct (cl_Items g); by simplify_eq/=.
Qed.

(** The store keeps the lease [l] while [live] holds: it neither reports
    it lost, nor grants it again, nor gives it up for other segments. *)
Record keeps_lease (l : SegmentLease) (live : W → Prop) : Prop := {
  live_renew ls w res w' : live w → (∀ l', l' ∈ ls → sl_Key l' = sl_Key l → l' = l) → sto_Renew ls (sf_ttl cf) w = (res, w') →
    live w' ∧ ∀ lost, res = Ok lost → sl_Key l ∉ sl_Key <$> lost;
  live_acquire cands max w res w' : live w → sto_Acquire (sf_name cf) (sf_owner cf) cands max (sf_ttl cf) w = (res, w') →
    live w' ∧ ∀ r, res = Ok r → sl_Key l ∉ sl_Key <$> ac_Granted r;
  live_release l' d served w res w' : sl_Key l' ≠ sl_Key l → live w → sto_Release [mkRelease l' d served] w = (res, w') → live w';
  live_defer key d w err w' : live w → sto_Defer (sf_name cf) key d w = (err, w') → live w';
  live_segments segments w res w' : li_segments = Some segments → live w → segments w = (res, w') → live w';
  live_claim req w res w' : live w → li_ClaimSegments req w = (res, w') → live w';
}.

Section running.
Context (h : heldSegment) (Hbusy : hs_busy h = true) (live : W → Prop) (Hlive : keeps_lease (hs_lease h) live).
Notation k := (sl_Key (hs_lease h)).

Definition runs (s : state) : Prop := keyed s.1 ∧ cs_held s.1 !! k = Some h ∧ live s.2.

Lemma runs_delete k' st w : k' ≠ k → runs (st, w) → runs (upd_held (delete k') st, w).
Proof.
  intros Hne (Hk & Hh & Hl). split_and!; [by apply keyed_delete| |done]. cbn. by rewrite lookup_delete_ne.
Qed.

Lemma release_runs h' d :
  sl_Key (hs_lease h') ≠ k → triple runs (release (T := T) h' d) (λ _, runs) runs.
Proof.
  intros Hne. eapply triple_bind; [apply triple_modify with (Q := λ _, runs); intros r w; by apply runs_delete|].
  intros ?. eapply triple_bind with (Mid := λ _, runs); [|intros ?; by apply triple_ret]. apply triple_wrap, triple_lift.
  intros r w res w' (Hk & Hh & Hl) Hrel. assert (runs (r, w')) by (split_and!; [done..|by eapply live_release]).
  by destruct res.
Qed.

Lemma release_all_runs idle :
  (∀ h', h' ∈ idle → sl_Key (hs_lease h') ≠ k) → triple runs (release_all (T := T) cf idle) (λ _, runs) runs.
Proof.
  induction idle as [|h' idle IH]; intros Hi; cbn [release_all]; [by apply triple_ret|].
  eapply triple_bind; [apply release_runs, Hi; constructor|]. intros ?. apply IH. intros x Hx. apply Hi. by constructor.
Qed.

Lemma forget_lost_runs now lost :
  k ∉ sl_Key <$> lost → triple runs (forget_lost (T := T) cf now lost) (λ _, runs) runs.
Proof.
  induction lost as [|l lost IH]; cbn [forget_lost fmap list_fmap]; [by intros _; apply triple_ret|].
  intros [Hl Hlost]%not_elem_of_cons. apply (triple_asks _ _ (λ _, True)); [done|]. intros h' _.
  eapply triple_bind; [apply triple_modify with (Q := λ _, runs); intros r w; apply runs_delete; congruence|]. intros ?.
  eapply triple_bind with (Mid := λ _, runs); [|intros ?; by apply IH].
  destruct h' as [h'|]; [|by apply triple_ret]. destruct (time_IsZero _); [by apply triple_ret|].
  apply triple_wrap, triple_lift_err. intros r w err w' (Hk & Hh & Hlv) Hd.
  assert (runs (r, w')) by (split_and!; [done..|by eapply live_defer]). by destruct err.
Qed.

Lemma renew_runs now : triple runs (renew_held (T := T) cf now) (λ _, runs) runs.
Proof.
  apply triple_remember. intros st. case_bool_decide; [by apply triple_ret; intros s [? _]|].
  eapply triple_bind with (Mid := λ lost s, k ∉ sl_Key <$> lost ∧ runs s).
  - apply triple_wrap, triple_lift. intros r w res w' [(Hk & Hh & Hlv) Hst] Hr. cbn in *. subst st.
    assert (∀ l', l' ∈ (λ kh : string * heldSegment, hs_lease kh.2) <$> map_range (cs_held r) →
      sl_Key l' = k → l' = hs_lease h) as Hsame.
    { intros l' ([k' h'] & -> & Hkh)%list_elem_of_fmap Heq. apply elem_of_range in Hkh. cbn in *.
      pose proof (Hk _ _ Hkh). congruence. }
    destruct (live_renew _ _ Hlive _ _ _ _ Hlv Hsame Hr) as [Hlv' Hlost].
    destruct res as [lost|e]; [split; [by apply Hlost|]|]; by split_and!.
  - intros lost. apply triple_pure. apply forget_lost_runs.
Qed.

Lemma rotate_runs now : triple runs (rotate (T := T) cf now) (λ _, runs) runs.
Proof.
  apply triple_remember. intros st. cbn [id]. destruct (_ && _); [|by apply triple_ret; intros s [? _]].
  destruct (oldest cf now (cs_held st)) as [h'|] eqn:Ho; [|by apply triple_ret; intros s [? _]].
  intros s [Hr Hst]. revert s Hr Hst. intros s Hr Hst. assert (sl_Key (hs_lease h') ≠ k) as Hne.
  { apply oldest_spec in Ho as (k' & Hk' & Hb). destruct Hr as (Hk & Hh & _). rewrite Hst in Hk, Hh.
    rewrite (Hk _ _ Hk'). intros ->. congruence. }
  exact (release_runs h' 0 Hne s Hr).
Qed.

Lemma acquire_runs now segments :
  li_segments = Some segments → triple runs (acquire (T := T) cf now segments) (λ _, runs) runs.
Proof.
  intros Hseg. eapply triple_bind with (Mid := λ _, runs).
  { apply triple_wrap, triple_lift. intros r w res w' (Hk & Hh & Hlv) Hs.
    assert (runs (r, w')) by (split_and!; [done..|by eapply live_segments]). by destruct res. }
  intros cands. apply (triple_asks _ _ (λ _, True)); [done|]. intros held _.
  eapply triple_bind with (Mid := λ res s, k ∉ sl_Key <$> ac_Granted res ∧ runs s).
  { apply triple_wrap, triple_lift. intros r w res w' (Hk & Hh & Hlv) Ha.
    destruct (live_acquire _ _ Hlive _ _ _ _ _ Hlv Ha) as [Hlv' Hg].
    destruct res as [res|e]; [split; [by apply Hg|]|]; by split_and!. }
  intros res. apply triple_pure. intros Hg.
  eapply triple_bind with (Mid := λ _, runs); [by apply triple_modify; intros r w (? & ? & ?)|]. intros ?.
  apply triple_modify. intros r w (Hk & Hh & Hlv). split_and!; [|by apply inserts_lookup|done].
  unfold keyed; cbn. by apply inserts_keyed.
Qed.

Lemma nextSegmented_runs segments :
  li_segments = Some segments →
  triple runs (nextSegmented (T := T) cf segments) (λ bs s, k ∉ ba_Key <$> bs ∧ runs s) runs.
Proof.
  intros Hseg. eapply triple_bind; [apply triple_world|]. intros now.
  eapply triple_bind; [apply renew_runs|]. intros ?. eapply triple_bind; [apply rotate_runs|]. intros ?.
  eapply triple_bind; [by apply acquire_runs|]. intros ?.
  apply triple_remember. intros st. cbv zeta. set (free := fst <$> _).
  assert (∀ s, runs s ∧ s.1 = st → k ∉ free) as Hfree.
  { intros s [(_ & Hh & _) <-] ([k' h'] & Heq & [Hb Hk']%elem_of_bfilter)%list_elem_of_fmap.
    apply elem_of_range in Hk'. cbn in *. rewrite Heq, Hk' in Hh. injection Hh as ->. by rewrite Hbusy in Hb. }
  case_bool_decide; [apply triple_ret; intros s [Hr _]; split; [apply not_elem_of_nil|done]|].
  intros s Hs. specialize (Hfree s Hs). destruct Hs as [Hr _]. revert s Hr.
  eapply triple_bind with (Mid := λ bs s, k ∉ ba_Key <$> bs ∧ runs s).
  { eapply triple_bind; [apply triple_world|]. intros now'. eapply triple_bind with (Mid := λ _, runs).
    - apply triple_wrap, triple_lift. intros r w res w' (Hk & Hh & Hlv) Hc.
      assert (runs (r, w')) by (split_and!; [done..|by eapply live_claim]). by destruct res.
    - intros groups. apply triple_ret. intros s Hr. split; [|done].
      intros (b & Heq & Hb)%list_elem_of_fmap. apply Hfree. rewrite Heq. by eapply batches_of_keys. }
  intros bs. apply triple_pure. intros Hbs.
  apply triple_remember. intros st2. destruct (mark_busy _ _ _) as [idle held'] eqn:Hm.
  intros s [Hr Hst]. destruct Hr as (Hk & Hh & Hlv). rewrite Hst in Hk, Hh.
  destruct (mark_busy_spec _ _ _ _ _ Hm Hk) as (Hk' & Hidle & Hother).
  assert (runs (upd_held (λ _, held') s.1, s.2)) as Hr' by (split_and!; [done| |done]; cbn; by rewrite Hother).
  unfold mbind at 1, SE_bind at 1, modify at 1. revert Hr'. generalize (upd_held (λ _, held') s.1, s.2).
  apply (triple_bind runs _ _ (λ _, runs)).
  - apply release_all_runs. intros h' Hi Heq. apply Hfree. rewrite <- Heq. by apply Hidle.
  - intros ?. by apply triple_ret.
Qed.
End running.

(** C27: [Next] never hands out a batch for a segment whose batch still runs: as
    long as the store keeps the lease, the segment stays held as it is, is
    neither released nor claimed again, and no batch that [Next] returns is
    for it. *)
Theorem running_segment_gets_no_second_batch h live segments st w res st' w' :
  li_segments = Some segments → keeps_lease (hs_lease h) live → live w →
  (∀ k h, cs_held st !! k = Some h → sl_Key (hs_lease h) = k) →
  cs_held st !! sl_Key (hs_lease h) = Some h → hs_busy h = true →
  Next (T := T) cf (st, w) = (res, (st', w')) →
  cs_held st' !! sl_Key (hs_lease h) = Some h ∧ live w' ∧ ∀ bs, res = Ok bs → sl_Key (hs_lease h) ∉ ba_Key <$> bs.
Proof.
  intros Hseg Hlive Hw Hkeyed Hh Hbusy Hnext. unfold Next in Hnext. rewrite Hseg in Hnext.
  pose proof (nextSegmented_runs h Hbusy live Hlive segments Hseg (st, w) ltac:(by split_and!)) as H.
  rewrite Hnext in H. destruct res as [bs|e].
  - destruct H as (Hk & _ & ? & ?). split_and!; [done..|]. by intros ? [= <-].
  - destruct H as (_ & ? & ?). split_and!; [done..|]. done.
Qed.

(** A deferral pauses its segment for as long as it may have to: when the batch of
    a held segment drains after an item deferred until [until], the segment is
    released with a pause that lasts until then, or until the leases of the
    batch's items end if that is later; a segment no longer held is paused in
    the store at once. *)
Theorem deferral_pauses_the_segment item until h segments st w :
  li_segments = Some segments →
  let k := it_Key item in let now := sc_now w in
  let u := if time_After until now then until else time_Add now (sf_lease cf) in
  0 < u → 0 ≤ hs_deferUntil h → sl_Key (hs_lease h) = k →
  (cs_held st !! k = Some h →
   ∃ s1, Done_ (T := T) cf item (DeferredOutcome until) (st, w) = (Ok (), s1) ∧
     Drained (T := T) k s1 =
       let '(res, w') := sto_Release [mkRelease (hs_lease h)
            (time_Sub (Z.max (hs_leaseEnd h) (Z.max (hs_deferUntil h) u)) now) (hs_served h)] w in
       (match res with Ok _ => Ok () | Fail e => Fail (Errorf "release" e) end, (upd_held (delete k) st, w'))) ∧
  (cs_held st !! k = None →
   Done_ (T := T) cf item (DeferredOutcome until) (st, w) =
     let '(err, w') := sto_Defer (sf_name cf) k (time_Sub u now) w in
     (match err with None => Ok () | Some e => Fail (Errorf "defer" e) end, (st, w'))).
Proof.
  intros Hseg k now u Hu Hd Hkey. assert (∀ (m : gmap string heldSegment) (x : heldSegment), delete k (<[k := x]> m) = delete k m) as Hdel.
  { intros m x. by rewrite delete_insert_eq. }
  split; intros Hk.
  - exists (upd_held (insert k (mkHeld (hs_lease h) (hs_since h) (hs_served h) (hs_busy h) (hs_leaseEnd h)
              (Z.max (hs_deferUntil h) u))) st, w).
    split.
    + unfold Done_. rewrite Hseg. cbv [mbind SE_bind world asks modify fst snd]. fold k now u. rewrite Hk.
      unfold time_After. destruct (Z.ltb_spec (hs_deferUntil h) u).
      * by rewrite Z.max_r by lia.
      * rewrite Z.max_l by lia. unfold mret, SE_ret. f_equal. f_equal. destruct st as [held e b]. cbn in *.
        unfold upd_held; cbn. f_equal. rewrite insert_id; [done|]. rewrite Hk. by destruct h.
    + unfold Drained. rewrite Hseg. cbv [mbind SE_bind world asks modify fst snd]. cbn [cs_held upd_held].
      rewrite lookup_insert_eq. unfold idle_segment; cbn [hs_deferUntil hs_leaseEnd hs_lease hs_served hs_since].
      unfold time_IsZero. rewrite (proj2 (Z.eqb_neq _ _)) by lia. unfold release, wrap, lift, modify, mbind, SE_bind.
      cbn [fst snd hs_lease hs_served]. fold now. rewrite Hkey.
      assert (∀ a b, (if time_After a b then a else b) = Z.max a b) as ->.
      { intros a b. unfold time_After. destruct (Z.ltb_spec b a); lia. }
      destruct (sto_Release _ w) as [res w']. unfold upd_held; cbn. rewrite !Hdel. by destruct res.
  - unfold Done_. rewrite Hseg. cbv [mbind SE_bind world asks modify fst snd]. fold k now u. rewrite Hk.
    unfold wrap, lift_err; cbn. fold k now u. by destruct (sto_Defer _ _ _ w) as [[e|] w'].
Qed.
End facts.
