(* ===== verification/AutoWorld.v ===== *)
(** * The scheduler over the in-memory store

    A world of an [AutomationStore], a clock and a segmented todo list, as an
    instance of what the scheduler calls.  The store's lemmas discharge the
    scheduler's assumption that a live lease is kept.  The first [Release] of
    such a world can fail, as one of a database can. *)
From S2P Require Import Prelude Core Effect AutoTypes AutoStore ClaimScheduler.

Record AutoWorld : Type := mkAuto {
  wa_store : AutomationStore;
  wa_now : time;
  wa_items : list (string * string * time);   (* segment, item, leased until *)
  wa_cands : list Candidate;
  wa_failing : bool;
}.

Definition set_store (s : AutomationStore) (w : AutoWorld) : AutoWorld :=
  mkAuto s (wa_now w) (wa_items w) (wa_cands w) (wa_failing w).
Definition repaired (w : AutoWorld) : AutoWorld := mkAuto (wa_store w) (wa_now w) (wa_items w) (wa_cands w) false.
Definition tick (d : duration) (w : AutoWorld) : AutoWorld :=
  mkAuto (wa_store w) (wa_now w + d) (wa_items w) (wa_cands w) (wa_failing w).

(** The items a claim takes: pending ones, at most [MaxPerKey] a segment. *)
Definition pending (w : AutoWorld) (max : Z) (seg : string) : list string :=
  take (Z.to_nat max) (omap (λ '(s, it, until), if bool_decide (s = seg) && (until <=? wa_now w) then Some it else None)
                         (wa_items w)).

Definition lease_items (req : ClaimRequest) (w : AutoWorld) : AutoWorld :=
  mkAuto (wa_store w) (wa_now w)
    ((λ '(s, it, until), if bool_decide (s ∈ cr_Segments req) && bool_decide (it ∈ pending w (cr_MaxPerKey req) s)
                         then (s, it, wa_now w + cr_Lease req) else (s, it, until)) <$> wa_items w)
    (wa_cands w) (wa_failing w).

#[export] Instance auto_ops : SchedulerOps AutoWorld string := {|
  sto_Acquire name owner cands max ttl w :=
    let '(res, s) := Acquire (wa_now w) name owner cands max ttl (wa_store w) in (Ok res, set_store s w);
  sto_Renew held ttl w := let '(lost, s) := Renew (wa_now w) held ttl (wa_store w) in (Ok lost, set_store s w);
  sto_Release rel w :=
    if wa_failing w then (Fail (New "database is locked"), repaired w)
    else let '(lost, s) := AutoStore.Release (wa_now w) rel (wa_store w) in (Ok lost, set_store s w);
  sto_Defer name key d w := (None, set_store (Defer (wa_now w) name key d (wa_store w)) w);
  sto_DeferredFor name key w := (Ok (DeferredFor (wa_now w) name key (wa_store w)), w);
  li_Claim req w := (Ok [], w);
  li_ClaimSegments req w :=
    (Ok ((λ seg, mkClaimed seg (pending w (cr_MaxPerKey req) seg)) <$> cr_Segments req), lease_items req w);
  li_segments := Some (λ w, (Ok (wa_cands w), w));
  sc_now := wa_now;
  map_range _ m := map_to_list m;
|}.

#[export] Instance auto_laws : SchedulerLaws AutoWorld string.
Proof.
  split; [done|]. intros name owner cands max ttl w res w'. cbn.
  pose proof (Acquire_max (wa_now w) name owner cands max ttl (wa_store w)) as H.
  destruct (Acquire _ _ _ _ _ _ _) as [r s]. by intros [= <- _].
Qed.

(** The in-memory store keeps a live lease for the scheduler that holds it. *)
Lemma memory_store_keeps_lease cf l :
  sl_Name l = sf_name cf → sl_Owner l ≠ "" → 0 < sf_ttl cf →
  keeps_lease cf l (λ w : AutoWorld, live_lease (wa_now w) l (wa_store w)).
Proof.
  intros Hname Hown Httl. split; cbn.
  - intros ls w res w' Hl Hsame. pose proof (Renew_live (wa_now w) ls (sf_ttl cf) (wa_store w) l Httl Hl Hsame) as [H1 H2].
    destruct (Renew _ _ _ _) as [lost s]. intros [= <- <-]. split; [done|]. by intros ? [= <-].
  - intros cands max w res w' Hl. rewrite <- Hname.
    pose proof (Acquire_live (wa_now w) (sf_owner cf) cands max (sf_ttl cf) (wa_store w) l Hown Hl) as H.
    destruct (Acquire _ _ _ _ _ _ _) as [r s]. intros [= <- <-]. split; [apply H|]. intros ? [= <-]. apply H.
  - intros l' d served w res w' Hne (r & Hr & Hrest). destruct (wa_failing w); [intros [= <- <-]; by exists r|].
    destruct (row_of (sl_Name l') (sl_Key l') (wa_store w)) as [r'|]; [|intros [= <- <-]; by exists r].
    destruct (holds_epoch l' r'); intros [= <- <-]; exists r; [|done].
    cbn. rewrite row_of_set, decide_False by naive_solver. done.
  - intros key d w err w' (r & Hr & Hh & Hlt) [= _ <-]. cbn. unfold live_lease, Defer. rewrite row_of_set.
    case_decide as Hk; [|by exists r]. destruct Hk as [<- <-]. eexists. split; [done|]. unfold row, row_of in *. rewrite Hr.
    cbn. unfold later_pause. by destruct (time_After _ _).
  - intros segments w res w' [= <-] Hl [= <- <-]. done.
  - intros req w res w' Hl [= <- <-]. done.
Qed.

(** ** A failed release *)
Definition sample_config : schedulerConfig := (newClaimScheduler "ship-orders" (10 * second) (5 * second) 10 2 "me").1.

(** Segment "a" has one item, segment "b" none; the database refuses the
    first release. *)
Definition sample_auto : AutoWorld :=
  mkAuto NewAutomationStore second [("a", "x", 0)] [mkCandidate "a" ""; mkCandidate "b" ""] true.

Definition start_scheduler : claimScheduler := (newClaimScheduler "ship-orders" 0 0 0 0 "me").2.

Definition next_round (s : claimScheduler * AutoWorld) :
    result error (list (Batch string)) * (claimScheduler * AutoWorld) :=
  let '(res, (st, w)) := Next sample_config s in (res, (st, tick second w)).

Fixpoint rounds (n : nat) (s : claimScheduler * AutoWorld) : list (result error (list (Batch string))) * (claimScheduler * AutoWorld) :=
  match n with
  | O => ([], s)
  | S n => let '(res, s) := next_round s in let '(all, s) := rounds n s in (res :: all, s)
  end.

Definition failed_round := next_round (start_scheduler, sample_auto).
Definition later_rounds := rounds 120 failed_round.2.

Definition no_batch_for (k : string) (res : result error (list (Batch string))) : bool :=
  match res with Ok bs => negb (existsb (λ b, bool_decide (ba_Key b = k)) bs) | Fail _ => false end.

(** When giving back an idle segment fails, [Next] returns the error and drops the
    batches it claimed in the same call, but keeps their segments marked busy.
    Nothing will ever call [Drained] for them: here segment "a" is renewed for
    two minutes of rounds that all succeed, its item is due again after ten
    seconds, and no round hands it out. *)
Theorem failed_release_strands_the_claimed_segments :
  (∃ e, failed_round.1 = Fail e) ∧
  (∃ h, cs_held failed_round.2.1 !! "a" = Some h ∧ hs_busy h = true) ∧
  forallb (no_batch_for "a") later_rounds.1 = true ∧
  pending later_rounds.2.2 10 "a" = ["x"] ∧
  (∃ h, cs_held later_rounds.2.1 !! "a" = Some h ∧ hs_busy h = true) ∧
  lr_owner <$> row_of "ship-orders" "a" (wa_store later_rounds.2.2) = Some "me".
Proof.
  split_and!; [eexists; vm_compute; reflexivity|eexists; split; [vm_compute; reflexivity|done]|
    vm_compute; reflexivity|vm_compute; reflexivity|eexists; split; [vm_compute; reflexivity|done]|vm_compute; reflexivity].
Qed.
