(* ===== verification/AutoRunner.v ===== *)
(** * The automation runner ([automation/automation.go])

    [RunOnce] and [Run]: the round of the main goroutine and the goroutines
    of the batches it started, as a state with one action per call or critical
    section.  What the store, the dependencies, the scheduler, the clock and
    the context answer is part of an action, so a run is any sequence of
    answers and interleavings.  [rr_hist] records the calls of the
    scheduler, which the code does not keep. *)
From S2P Require Import Prelude Core AutoTypes BatchRun.

(** ** [flight] *)
Record flight : Type := mkFlight { fl_active : Z; fl_drained : Z; fl_sum : Summary }.

Definition new_flight : flight := mkFlight 0 0 no_summary.

(** The end of a batch's goroutine. *)
Definition flight_end (s : Summary) (f : flight) : flight :=
  mkFlight (fl_active f - 1) (u64 (fl_drained f + 1)) (Summary_add (fl_sum f) s).
Definition flight_begin (f : flight) : flight := mkFlight (fl_active f + 1) (fl_drained f) (fl_sum f).

(** ** Statuses *)
Definition set_phase (p : Phase) (waitingFor lastErr : string) (st : Status) : Status :=
  mkStatus (st_Owner st) p waitingFor (st_Processed st) (st_Failed st) (st_Deferred st)
    (if bool_decide (lastErr = "") then st_LastError st else lastErr) (st_Age st).

Definition publishEvery : duration := second.

(** [saveStatus] writes a status that changed or is old enough. *)
Definition due_status (now : time) (st published : Status) (publishedAt : time) : bool :=
  negb (bool_decide (st_Phase st = st_Phase published) && bool_decide (st_WaitingFor st = st_WaitingFor published) &&
        (time_Sub now publishedAt <? publishEvery)).

Section runner.
Context {T : Type}.
(** [err.Error()] *)
Context (error_text : error → string).

(** A batch's goroutine: in [runBatch], before [Drained], before the end of
    the flight, and before [wg.Done]. *)
Inductive task_pc : Type :=
| InBatch
| Ran (s : Summary)
| Gave (s : Summary)
| Ended.

Definition task : Type := Batch T * task_pc.

Inductive pc : Type :=
| AtCtx | AtStatus | AtPause | AtDeps | AtCount
| AtNext (drained : Z)
| Starting_ (rest : list (Batch T)) (any : bool) (drained : Z)
| AtRunning (drained : Z)
| AtDrained (drained : Z)
| WhenPaused
| NextFailed (e : error)
| InWait
| InStall
| Finishing (e : option error)
| Summing (e : option error)
| Closing (s : Summary) (e : option error)
| Finished (s : Summary) (e : option error).

(** The calls of the scheduler. *)
Inductive sched_call : Type :=
| CNext (batches : list (Batch T))
| CStart (b : Batch T)
| CDrained (b : Batch T) (s : Summary)
| CClose.

Record runnerState : Type := mkRunnerState {
  rr_pc : pc;
  rr_status : Status;
  rr_published : Status;
  rr_publishedAt : time;
  rr_nudge : bool;
  rr_released : bool;
  rr_flight : flight;
  rr_tasks : list task;
  rr_hist : list sched_call;
}.

(** Updates. *)
Definition at_pc (p : pc) (s : runnerState) : runnerState :=
  mkRunnerState p (rr_status s) (rr_published s) (rr_publishedAt s) (rr_nudge s) (rr_released s) (rr_flight s)
    (rr_tasks s) (rr_hist s).
Definition with_phase (p : Phase) (waitingFor lastErr : string) (s : runnerState) : runnerState :=
  mkRunnerState (rr_pc s) (set_phase p waitingFor lastErr (rr_status s)) (rr_published s) (rr_publishedAt s)
    (rr_nudge s) (rr_released s) (rr_flight s) (rr_tasks s) (rr_hist s).
Definition with_published (now : time) (s : runnerState) : runnerState :=
  mkRunnerState (rr_pc s) (rr_status s) (rr_status s) now (rr_nudge s) (rr_released s) (rr_flight s)
    (rr_tasks s) (rr_hist s).
Definition with_nudge (n : bool) (s : runnerState) : runnerState :=
  mkRunnerState (rr_pc s) (rr_status s) (rr_published s) (rr_publishedAt s) n (rr_released s) (rr_flight s)
    (rr_tasks s) (rr_hist s).
Definition with_released (r : bool) (s : runnerState) : runnerState :=
  mkRunnerState (rr_pc s) (rr_status s) (rr_published s) (rr_publishedAt s) (rr_nudge s) r (rr_flight s)
    (rr_tasks s) (rr_hist s).
Definition with_tasks (f : flight) (ts : list task) (s : runnerState) : runnerState :=
  mkRunnerState (rr_pc s) (rr_status s) (rr_published s) (rr_publishedAt s) (rr_nudge s) (rr_released s) f
    ts (rr_hist s).
Definition called (c : sched_call) (s : runnerState) : runnerState :=
  mkRunnerState (rr_pc s) (rr_status s) (rr_published s) (rr_publishedAt s) (rr_nudge s) (rr_released s)
    (rr_flight s) (rr_tasks s) (rr_hist s ++ [c]).

(** [start]: count the batch and start its goroutine. *)
Definition start (b : Batch T) (s : runnerState) : runnerState :=
  called (CStart b) (with_tasks (flight_begin (rr_flight s)) (rr_tasks s ++ [(b, InBatch)]) s).

(** ** What can happen *)
Inductive action : Type :=
(* answers to the main goroutine *)
| Ctx (e : option error)
| PublishStatus (now : time) (saved : bool)
| Pause (r : result error bool)
| Deps (r : result error string)   (* the first dependency that is not live, or "" *)
| NextAnswer (r : result error (list (Batch T)))
| Proceed
| Wake (by_nudge : bool)
(* the goroutines *)
| BatchReturns (i : nat) (sum : Summary)
| GiveBack (i : nat)
| EndFlight (i : nat)
| GoroutineDone (i : nat)
(* a nudge from outside *)
| Nudged.

(** One step of a batch's goroutine. *)
Definition exec_task (a : action) (s : runnerState) : option runnerState :=
  match a with
  | BatchReturns i sum =>
    match rr_tasks s !! i with
    | Some (b, InBatch) => Some (with_tasks (rr_flight s) (<[i := (b, Ran sum)]> (rr_tasks s)) s)
    | _ => None
    end
  | GiveBack i =>
    match rr_tasks s !! i with
    | Some (b, Ran sum) =>
      Some (called (CDrained b sum) (with_tasks (rr_flight s) (<[i := (b, Gave sum)]> (rr_tasks s)) s))
    | _ => None
    end
  | EndFlight i =>
    match rr_tasks s !! i with
    | Some (b, Gave sum) => Some (with_tasks (flight_end sum (rr_flight s)) (<[i := (b, Ended)]> (rr_tasks s)) s)
    | _ => None
    end
  | GoroutineDone i =>
    match rr_tasks s !! i with
    | Some (b, Ended) => Some (with_nudge true (with_tasks (rr_flight s) (delete i (rr_tasks s)) s))
    | _ => None
    end
  | Nudged => Some (with_nudge true s)
  | _ => None
  end.

(** [saveStatus], [saveStatusNow] when [always]: a write that fails is
    logged. *)
Definition publish (always : bool) (now : time) (saved : bool) (s : runnerState) : runnerState :=
  if (always || due_status now (rr_status s) (rr_published s) (rr_publishedAt s)) && saved
  then with_published now s else s.

(** [setWaiting] and wait for a dependency that is not live, or go on. *)
Definition checked_deps (dep : string) (go_on : pc) (s : runnerState) : runnerState :=
  if bool_decide (dep = "") then at_pc go_on s else at_pc InWait (with_phase Waiting dep "" s).

(** The steps [RunOnce] and [Run] share: the context and the status at the
    top of a round, the starts of its batches, and waiting. *)
Definition exec_round (a : action) (s : runnerState) : option runnerState :=
  match rr_pc s, a with
  | AtCtx, Ctx (Some e) => Some (at_pc (Finishing (Some e)) s)
  | AtCtx, Ctx None => Some (at_pc AtStatus s)
  | AtStatus, PublishStatus now saved => Some (at_pc AtPause (publish false now saved s))
  | AtCount, Proceed => Some (at_pc (AtNext (fl_drained (rr_flight s))) s)
  | AtNext d, NextAnswer (Ok bs) =>
    Some (called (CNext bs) (at_pc (Starting_ bs (match bs with [] => false | _ => true end) d) s))
  | Starting_ (b :: bs) any d, Proceed => Some (start b (at_pc (Starting_ bs any d) s))
  | Starting_ [] true _, Proceed => Some (at_pc AtCtx (with_phase Working "" "" s))
  | Starting_ [] false d, Proceed => Some (at_pc (AtRunning d) s)
  | InWait, Wake by_nudge =>
    if by_nudge && negb (rr_nudge s) then None
    else Some (at_pc AtCtx (if by_nudge then with_nudge false s else s))
  | Finishing e, Proceed => match rr_tasks s with [] => Some (at_pc (Summing e) s) | _ => None end
  | Summing e, PublishStatus now saved => Some (at_pc (Closing (fl_sum (rr_flight s)) e) (publish true now saved s))
  | Closing sum e, Proceed => Some (called CClose (at_pc (Finished sum e) s))
  | _, _ => None
  end.

(** [RunOnce] *)
Definition exec_RunOnce (a : action) (s : runnerState) : option runnerState :=
  match rr_pc s, a with
  | AtPause, Pause (Fail e) => Some (at_pc (Finishing (Some (Errorf "check pause" e))) (with_phase Stalled "" (error_text e) s))
  | AtPause, Pause (Ok true) => Some (at_pc (Finishing None) (with_phase Paused "" "" s))
  | AtPause, Pause (Ok false) => Some (at_pc AtDeps s)
  | AtDeps, Deps (Fail e) => Some (at_pc (Finishing (Some (Errorf "check" e))) (with_phase Stalled "" (error_text e) s))
  | AtDeps, Deps (Ok dep) => Some (checked_deps dep AtCount s)
  | AtNext _, NextAnswer (Fail e) => Some (at_pc (Finishing (Some (Errorf "schedule" e))) (with_phase Stalled "" (error_text e) s))
  | AtRunning d, Proceed => Some (at_pc (if fl_active (rr_flight s) =? 0 then AtDrained d else InWait) s)
  | AtDrained d, Proceed =>
    if fl_drained (rr_flight s) =? d then Some (at_pc (Finishing None) (with_phase Idle "" "" s))
    else Some (at_pc InWait s)
  | _, _ => match exec_round a s with Some s => Some s | None => exec_task a s end
  end.

(** [Run]: it stalls where [RunOnce] returns, and gives the segments back
    once when it is paused. *)
Definition exec_Run (a : action) (s : runnerState) : option runnerState :=
  match rr_pc s, a with
  | AtPause, Pause (Fail e) => Some (at_pc InStall (with_phase Stalled "" (error_text (Errorf "check pause" e)) s))
  | AtPause, Pause (Ok true) => Some (at_pc WhenPaused (with_phase Paused "" "" s))
  | AtPause, Pause (Ok false) => Some (at_pc AtDeps (with_released false s))
  | WhenPaused, Proceed =>
    if negb (rr_released s) && (fl_active (rr_flight s) =? 0)
    then Some (called CClose (at_pc InWait (with_released true s))) else Some (at_pc InWait s)
  | AtDeps, Deps (Fail e) => Some (at_pc InStall (with_phase Stalled "" (error_text (Errorf "check" e)) s))
  | AtDeps, Deps (Ok dep) => Some (checked_deps dep (AtNext 0) s)
  | AtNext _, NextAnswer (Fail e) => Some (at_pc (NextFailed e) s)
  | NextFailed e, Ctx None => Some (at_pc InStall (with_phase Stalled "" (error_text (Errorf "schedule" e)) s))
  | NextFailed _, Ctx (Some e) => Some (at_pc (Finishing (Some e)) s)
  | AtRunning d, Proceed =>
    Some (at_pc InWait (with_phase (if 0 <? fl_active (rr_flight s) then Working else Idle) "" "" s))
  | InStall, Wake false => Some (at_pc AtCtx s)
  | Summing e, Proceed => Some (at_pc (Closing (fl_sum (rr_flight s)) e) s)
  | Summing _, PublishStatus _ _ => None
  | _, _ => match exec_round a s with Some s => Some s | None => exec_task a s end
  end.

Definition initial_status (owner : string) : Status := mkStatus owner Starting "" 0 0 0 "" 0.

Definition new_runner (owner : string) : runnerState :=
  mkRunnerState AtCtx (initial_status owner) (initial_status "") time_zero false false new_flight [] [].

(** The states [RunOnce], or [Run] when [once] is false, goes through. *)
Inductive runs_to (once : bool) (owner : string) : runnerState → Prop :=
| runs_start : runs_to once owner (new_runner owner)
| runs_step s a s' : runs_to once owner s → (if once then exec_RunOnce else exec_Run) a s = Some s' →
    runs_to once owner s'.
End runner.

Arguments runnerState : clear implicits.
Arguments action : clear implicits.
Arguments sched_call : clear implicits.
Arguments task : clear implicits.
Arguments pc : clear implicits.

(** ** What the history says *)
Section history.
Context {T : Type}.
Implicit Types (h : list (sched_call T)) (ts : list (task T)).

Definition handed h : list (Batch T) := concat ((λ c, match c with CNext bs => bs | _ => [] end) <$> h).
Definition started h : list (Batch T) := omap (λ c, match c with CStart b => Some b | _ => None end) h.
Definition given h : list (Batch T * Summary) := omap (λ c, match c with CDrained b s => Some (b, s) | _ => None end) h.
Definition is_next (c : sched_call T) : bool := match c with CNext _ => true | _ => false end.

(** The batches not given back yet, the summaries not added yet, and the
    goroutines the flight still counts. *)
Definition not_given ts : list (Batch T) :=
  omap (λ t : task T, match t.2 with InBatch | Ran _ => Some t.1 | _ => None end) ts.
Definition to_add ts : list Summary := omap (λ t : task T, match t.2 with Gave s => Some s | _ => None end) ts.
Definition counted_tasks ts : list (task T) := bfilter (λ t, match t.2 with Ended => false | _ => true end) ts.

(** The starts still to come of the batches handed out last. *)
Definition to_start (p : pc T) : list (Batch T) := match p with Starting_ rest _ _ => rest | _ => [] end.

Record flight_inv (f : flight) ts h : Prop := {
  fi_active : fl_active f = zlen (counted_tasks ts);
  fi_batches : started h ≡ₚ (given h).*1 ++ not_given ts;
  fi_drained : zlen (to_add ts) ≤ zlen (given h) ∧ fl_drained f = u64 (zlen (given h) - zlen (to_add ts));
  fi_sum (g : Summary → Z) : g no_summary = 0 → (∀ a b, g (Summary_add a b) = g a + g b) →
    g (fl_sum f) + lsum g (to_add ts) = lsum g (given h).*2;
}.

Lemma task_split ts i t : ts !! i = Some t →
  ∃ l1 l2, ts = l1 ++ t :: l2 ∧ (∀ t', <[i := t']> ts = l1 ++ t' :: l2) ∧ delete i ts = l1 ++ l2.
Proof.
  intros Hi. exists (take i ts), (drop (S i) ts). pose proof (lookup_lt_Some _ _ _ Hi).
  rewrite (take_drop_middle ts i t Hi). split; [done|]. split; [|by rewrite delete_take_drop].
  intros t'. by rewrite insert_take_drop.
Qed.

Lemma lsum_cons {A} (g : A → Z) x l : lsum g (x :: l) = g x + lsum g l.
Proof. done. Qed.

Lemma started_snoc h c : started (h ++ [c]) = started h ++ match c with CStart b => [b] | _ => [] end.
Proof. unfold started. rewrite omap_app. by destruct c. Qed.
Lemma given_snoc h c : given (h ++ [c]) = given h ++ match c with CDrained b s => [(b, s)] | _ => [] end.
Proof. unfold given. rewrite omap_app. by destruct c. Qed.
Lemma handed_snoc h c : handed (h ++ [c]) = handed h ++ match c with CNext bs => bs | _ => [] end.
Proof. unfold handed. rewrite fmap_app, concat_app. cbn. by rewrite app_nil_r. Qed.

Lemma flight_inv_call f ts h c : match c with CNext _ | CClose => True | _ => False end →
  flight_inv f ts h → flight_inv f ts (h ++ [c]).
Proof.
  intros Hc [Ha Hb Hd Hs]. destruct c; try done;
    (split; [done|..]; try intros g; rewrite ?given_snoc, ?started_snoc, ?app_nil_r; auto).
Qed.

Lemma flight_inv_start f ts h b :
  flight_inv f ts h → flight_inv (flight_begin f) (ts ++ [(b, InBatch)]) (h ++ [CStart b]).
Proof.
  intros [Ha Hb Hd Hs]. split; unfold counted_tasks, not_given, to_add in *.
  - rewrite bfilter_app, zlen_app, <- Ha. done.
  - rewrite started_snoc, given_snoc, app_nil_r, omap_app, Hb. cbn. by rewrite app_assoc.
  - rewrite given_snoc, app_nil_r, omap_app. cbn. by rewrite app_nil_r.
  - intros g. rewrite given_snoc, app_nil_r, omap_app. cbn. rewrite app_nil_r. by apply Hs.
Qed.

(** A goroutine keeps the books. *)
Lemma flight_inv_task a (s s' : runnerState T) : exec_task a s = Some s' →
  flight_inv (rr_flight s) (rr_tasks s) (rr_hist s) → flight_inv (rr_flight s') (rr_tasks s') (rr_hist s').
Proof.
  intros Hx [Ha Hb [Hle Hd] Hs]. unfold counted_tasks, not_given, to_add in *.
  destruct a as [| | | | | | |i sum|i|i|i|]; cbn in Hx; try done; [..|by simplify_eq];
    (destruct (rr_tasks s !! i) as [[b [|sm|sm|]]|] eqn:Hi; try done);
    destruct (task_split _ _ _ Hi) as (l1 & l2 & Hl & Hins & Hdel);
    injection Hx as <-; cbn; rewrite ?Hins, ?Hdel; clear Hi Hins Hdel; rewrite Hl in *;
    rewrite ?bfilter_app, ?zlen_app in Ha; cbn in Ha; rewrite ?omap_app in *; cbn in Hb, Hle, Hd, Hs;
    split; unfold counted_tasks, not_given, to_add; rewrite ?bfilter_app, ?zlen_app, ?omap_app; cbn;
    try done; rewrite ?given_snoc, ?started_snoc, ?app_nil_r.
  - rewrite Hb, fmap_app. cbn. solve_Permutation.
  - rewrite !zlen_app, !zlen_cons, ?zlen_nil in *. split; [lia|]. rewrite Hd. f_equal. lia.
  - intros g H0 Hg. specialize (Hs g H0 Hg). rewrite fmap_app. cbn.
    rewrite !lsum_app, !lsum_cons in *. change (lsum g []) with 0. lia.
  - rewrite zlen_cons in Ha. lia.
  - rewrite !zlen_app, zlen_cons in *. split; [lia|]. rewrite Hd, u64_idemp_add. f_equal. lia.
  - intros g H0 Hg. rewrite <- (Hs g H0 Hg), Hg, !lsum_app, lsum_cons. lia.
Qed.
End history.

(** ** The invariant *)
Section invariant.
Context {T : Type} (error_text : error → string).
Implicit Types (h : list (sched_call T)) (ts : list (task T)) (s : runnerState T).

(** Between a call of [Next] and the next one only goroutines call. *)
Definition between h : Prop :=
  Forall (λ c, match c with CStart _ | CDrained _ _ => True | _ => False end) h.

(** The last answer of [Next] and what was called since; [d] counted no more
    than the batches given back before it. *)
Definition asked (once : bool) (bs : list (Batch T)) (d : Z) (h2 : list (sched_call T)) h : Prop :=
  ∃ h1 k, h = h1 ++ CNext bs :: h2 ∧ between h2 ∧ (once = true → d = u64 k ∧ 0 ≤ k ≤ zlen (given h1)).

(** Nothing was out when [Next] last found nothing, and nothing but [Close]
    was called since. *)
Definition quiet h : Prop :=
  ∃ h1 h2, h = h1 ++ CNext [] :: h2 ∧ Forall (λ c, c = CClose) h2 ∧ started h1 ≡ₚ (given h1).*1.

Definition all_ended ts : Prop := counted_tasks ts = [].

#[local] Instance all_ended_dec ts : Decision (all_ended ts).
Proof. unfold all_ended. destruct (counted_tasks ts); [by left|by right]. Defined.

Definition nothing_out h : Prop := started h ≡ₚ (given h).*1.

Definition done_quietly (ph : Phase) ts h : Prop := ph = Paused ∨ ph = Idle ∧ quiet h ∧ all_ended ts.

Definition pc_inv (once : bool) (p : pc T) (ph : Phase) (f : flight) ts h : Prop :=
  match p with
  | AtNext d => once = true → ∃ k, d = u64 k ∧ 0 ≤ k ≤ zlen (given h)
  | Starting_ rest any d => ∃ bs h2, asked once bs d h2 h ∧ bs = started h2 ++ rest ∧ (any = false → bs = [])
  | AtRunning d => ∃ h2, asked once [] d h2 h ∧ started h2 = []
  | AtDrained d => fl_active f = 0 ∧ ∃ h2, asked once [] d h2 h ∧ started h2 = []
  | Finishing None => once = true → done_quietly ph ts h
  | Summing e => ts = [] ∧ (e = None → once = true → done_quietly ph ts h)
  | Closing sum e => ts = [] ∧ sum = fl_sum f ∧ (e = None → once = true → done_quietly ph ts h)
  | Finished sum e => ts = [] ∧ sum = fl_sum f ∧ last h = Some CClose ∧ (e = None → once = true → done_quietly ph ts h)
  | _ => True
  end.

Record runner_inv (once : bool) s : Prop := {
  ri_flight : flight_inv (rr_flight s) (rr_tasks s) (rr_hist s);
  ri_handed : handed (rr_hist s) = started (rr_hist s) ++ to_start (rr_pc s);
  ri_close h1 h2 : rr_hist s = h1 ++ CClose :: h2 → nothing_out h1;
  ri_pc : pc_inv once (rr_pc s) (st_Phase (rr_status s)) (rr_flight s) (rr_tasks s) (rr_hist s);
}.

(** *** Ended goroutines *)
Lemma all_ended_idle ts : all_ended ts → not_given ts = [] ∧ to_add ts = [].
Proof.
  unfold all_ended, counted_tasks, not_given, to_add. induction ts as [|[b [|sm|sm|]] ts IH]; cbn; try done.
Qed.

Lemma flight_idle f ts h : flight_inv f ts h → all_ended ts → nothing_out h ∧ fl_drained f = u64 (zlen (given h)).
Proof.
  intros [_ Hb [_ Hd] _] He. destruct (all_ended_idle _ He) as [H1 H2]. rewrite H1, app_nil_r in Hb.
  rewrite H2 in Hd. split; [exact Hb|]. rewrite Hd. f_equal. rewrite zlen_nil. lia.
Qed.

Lemma flight_active f ts h : flight_inv f ts h → fl_active f = 0 → all_ended ts.
Proof. intros [Ha _ _ _] H. rewrite Ha in H. by apply zlen_zero. Qed.

(** A goroutine only calls [Drained], and not once all have ended. *)
Lemma exec_task_effect a s s' : exec_task a s = Some s' →
  rr_pc s' = rr_pc s ∧ rr_status s' = rr_status s ∧
  (rr_hist s' = rr_hist s ∨ ∃ b sm, rr_hist s' = rr_hist s ++ [CDrained b sm]) ∧
  (rr_tasks s = [] → rr_tasks s' = []) ∧
  (all_ended (rr_tasks s) → all_ended (rr_tasks s') ∧ rr_hist s' = rr_hist s ∧ rr_flight s' = rr_flight s) ∧
  (rr_tasks s = [] → rr_flight s' = rr_flight s ∧ rr_hist s' = rr_hist s).
Proof.
  intros Hx. destruct a as [| | | | | | |i sum|i|i|i|]; cbn in Hx; try done;
    [..|injection Hx as <-; cbn; naive_solver];
    (destruct (rr_tasks s !! i) as [[b [|sm|sm|]]|] eqn:Hi; try done); injection Hx as <-; cbn;
    (split_and!; [done|done|first [by left|by right; eexists _, _]|by intros H; rewrite H in Hi| |by intros H; rewrite H in Hi]);
    destruct (task_split _ _ _ Hi) as (l1 & l2 & Hl & Hins & Hdel); rewrite ?Hins, ?Hdel;
    unfold all_ended, counted_tasks; rewrite Hl, !bfilter_app; cbn; intros H;
    first [by apply app_eq_nil in H as [_ ?]|by split_and!].
Qed.

Lemma between_app h k : between h → between k → between (h ++ k).
Proof. unfold between. by rewrite Forall_app. Qed.

Lemma asked_snoc once bs d h2 h c : between [c] → asked once bs d h2 h → asked once bs d (h2 ++ [c]) (h ++ [c]).
Proof.
  intros Hc (h1 & k & -> & Hb & Hk). exists h1, k. split; [by rewrite <- app_assoc|].
  split; [by apply between_app|done].
Qed.

Lemma pc_inv_drained once p ph f ts ts' f' h b sm :
  pc_inv once p ph f ts h → (∀ e, p ≠ AtDrained e) → ts ≠ [] → ¬ all_ended ts →
  pc_inv once p ph f' ts' (h ++ [CDrained b sm]).
Proof.
  intros Hp Hne Hts Hae. destruct p as [| | | | |d|rest any d|d|d| |e| | |[e|]|e|sum e|sum e]; cbn in *; try done.
  - intros Ho. destruct (Hp Ho) as (k & -> & Hk). exists k. split; [done|]. rewrite given_snoc, zlen_app.
    cbn. pose proof (zlen_nonneg [(b, sm)]). lia.
  - destruct Hp as (bs & h2 & Ha & Hbs & Hany). exists bs, (h2 ++ [CDrained b sm]).
    split; [by apply asked_snoc; [repeat constructor|]|]. by rewrite started_snoc, app_nil_r.
  - destruct Hp as (h2 & Ha & Hs). exists (h2 ++ [CDrained b sm]).
    split; [by apply asked_snoc; [repeat constructor|]|]. by rewrite started_snoc, app_nil_r.
  - by destruct (Hne d).
  - intros Ho. destruct (Hp Ho) as [H|(_ & _ & H)]; [by left|done].
  - by destruct Hp as [-> _].
  - by destruct Hp as [-> _].
  - by destruct Hp as [-> _].
Qed.

Definition is_task (a : action T) : bool :=
  match a with BatchReturns _ _ | GiveBack _ | EndFlight _ | GoroutineDone _ | Nudged => true | _ => false end.

Definition exec (once : bool) : action T → runnerState T → option (runnerState T) :=
  if once then exec_RunOnce error_text else exec_Run error_text.

Lemma exec_round_task a s : is_task a = true → exec_round a s = None.
Proof.
  intros Ha. unfold exec_round. destruct (rr_pc s) as [| | | | |d|[|b rest] [|] d|d|d| |e| | |e|e|sum e|sum e];
    by destruct a.
Qed.

Lemma exec_is_task once a s : is_task a = true → exec once a s = exec_task a s.
Proof.
  intros Ha. pose proof (exec_round_task _ s Ha) as Hr. unfold exec. destruct once; unfold exec_RunOnce, exec_Run;
    rewrite Hr; destruct (rr_pc s); by destruct a.
Qed.

Lemma inv_move once s s' :
  runner_inv once s → rr_flight s' = rr_flight s → rr_tasks s' = rr_tasks s → rr_hist s' = rr_hist s →
  to_start (rr_pc s') = to_start (rr_pc s) →
  pc_inv once (rr_pc s') (st_Phase (rr_status s')) (rr_flight s) (rr_tasks s) (rr_hist s) → runner_inv once s'.
Proof. intros [Hf Hh Hc _] H1 H2 H3 H4 Hp. split; rewrite ?H1, ?H2, ?H3, ?H4; done. Qed.

Lemma inv_task once a s s' : is_task a = true → runner_inv once s → exec_task a s = Some s' → runner_inv once s'.
Proof.
  intros Ha [Hf Hh Hc Hp] Hx. pose proof (flight_inv_task _ _ _ Hx Hf) as Hf'.
  destruct (exec_task_effect _ _ _ Hx) as (E1 & E2 & E3 & E4 & E5 & E6).
  split; [exact Hf'| | |].
  - rewrite E1. destruct E3 as [->|(b & sm & ->)]; [done|].
    by rewrite handed_snoc, started_snoc, !app_nil_r.
  - destruct E3 as [->|(b & sm & E3)]; [exact Hc|]. intros h1 h2 Heq. rewrite E3 in Heq.
    destruct h2 as [|c h2] using rev_ind; [apply app_inj_tail in Heq; naive_solver|].
    rewrite app_comm_cons, app_assoc in Heq. apply app_inj_tail in Heq as [Heq _]. by eapply Hc.
  - rewrite E1, E2. destruct (decide (all_ended (rr_tasks s))) as [Hae|Hae].
    + destruct (E5 Hae) as (Hae' & -> & ->). clear E3 E5 E6.
      destruct (rr_pc s) as [| | | | |d|rest any d|d|d| |e| | |[e|]|e|sum e|sum e]; cbn in *; try done;
        try (destruct Hp as [Ht Hp]; split; [by apply E4|]); unfold done_quietly in *; naive_solver.
    + assert (rr_tasks s ≠ []) as Hne by (intros H; apply Hae; by rewrite H).
      destruct E3 as [E3|(b & sm & ->)].
      * rewrite E3. destruct (rr_pc s) as [| | | | |d|rest any d|d|d| |e| | |[e|]|e|sum e|sum e]; cbn in *; try done.
        -- destruct Hp as [H0 _]. by destruct (Hae (flight_active _ _ _ Hf H0)).
        -- intros Ho. destruct (Hp Ho) as [H|(_ & _ & H)]; [by left|done].
        -- by destruct Hp as [H _].
        -- by destruct Hp as [H _].
        -- by destruct Hp as [H _].
      * eapply pc_inv_drained; [exact Hp| |exact Hne|exact Hae].
        intros d Hd. rewrite Hd in Hp. destruct Hp as [H0 _]. by destruct (Hae (flight_active _ _ _ Hf H0)).
Qed.

(** *** The main goroutine *)
Lemma snoc_close h c h1 h2 : c ≠ CClose → (∀ h1 h2, h = h1 ++ CClose :: h2 → nothing_out h1) →
  h ++ [c] = h1 ++ CClose :: h2 → nothing_out h1.
Proof.
  intros Hne Hc Heq. destruct h2 as [|x h2] using rev_ind; [apply app_inj_tail in Heq; naive_solver|].
  rewrite app_comm_cons, app_assoc in Heq. apply app_inj_tail in Heq as [Heq _]. by eapply Hc.
Qed.

(** A call of [Close] with nothing out. *)
Lemma close_inv once s s' :
  runner_inv once s → all_ended (rr_tasks s) → rr_flight s' = rr_flight s → rr_tasks s' = rr_tasks s →
  rr_hist s' = rr_hist s ++ [CClose] → to_start (rr_pc s') = to_start (rr_pc s) →
  pc_inv once (rr_pc s') (st_Phase (rr_status s')) (rr_flight s) (rr_tasks s) (rr_hist s ++ [CClose]) →
  runner_inv once s'.
Proof.
  intros [Hf Hh Hc Hp] Hae H1 H2 H3 H4 Hp'. split; rewrite ?H1, ?H2, ?H3, ?H4; [by apply flight_inv_call| | |done].
  - by rewrite handed_snoc, started_snoc, !app_nil_r.
  - intros h1 h2 Heq. destruct h2 as [|x h2] using rev_ind.
    + apply app_inj_tail in Heq as [<- _]. by apply (flight_idle _ _ _ Hf Hae).
    + rewrite app_comm_cons, app_assoc in Heq. apply app_inj_tail in Heq as [Heq _]. by eapply Hc.
Qed.

(** [Next] answers: everything handed out before was started. *)
Lemma next_inv once d bs s :
  rr_pc s = AtNext d → runner_inv once s →
  runner_inv once (called (CNext bs) (at_pc (Starting_ bs (match bs with [] => false | _ => true end) d) s)).
Proof.
  intros Hpc [Hf Hh Hc Hp]. rewrite Hpc in Hh, Hp. cbn in Hh, Hp. rewrite app_nil_r in Hh.
  split; cbn -[handed started given]; [by apply flight_inv_call| | |].
  - rewrite handed_snoc, started_snoc, Hh. by rewrite app_nil_r.
  - intros h1 h2. by apply snoc_close.
  - destruct once.
    + destruct (Hp eq_refl) as (k & -> & Hk). exists bs, []. split; [|by destruct bs].
      exists (rr_hist s), k. split_and!; [done|constructor|done].
    + exists bs, []. split; [|by destruct bs]. exists (rr_hist s), 0. split_and!; [done|constructor|done].
Qed.

Lemma start_inv once b bs any d s :
  rr_pc s = Starting_ (b :: bs) any d → runner_inv once s → runner_inv once (start b (at_pc (Starting_ bs any d) s)).
Proof.
  intros Hpc [Hf Hh Hc Hp]. rewrite Hpc in Hh, Hp. cbn in Hh, Hp.
  split; cbn -[handed started given]; [by apply flight_inv_start| | |].
  - rewrite handed_snoc, started_snoc, Hh, app_nil_r. by rewrite <- app_assoc.
  - intros h1 h2. by apply snoc_close.
  - destruct Hp as (bs0 & h2 & Ha & -> & Hany). exists (started h2 ++ b :: bs), (h2 ++ [CStart b]).
    split; [by apply asked_snoc; [repeat constructor|]|]. split; [|done].
    by rewrite started_snoc, <- app_assoc.
Qed.

(** No batch came back between the answer of [Next] and now. *)
Lemma idle_quiet d s :
  rr_pc s = AtDrained d → runner_inv true s → zlen (rr_hist s) < two64 → fl_drained (rr_flight s) = d →
  quiet (rr_hist s) ∧ all_ended (rr_tasks s).
Proof.
  intros Hpc [Hf _ _ Hp] Hb Hd. rewrite Hpc in Hp. destruct Hp as [Ha (h2 & (h1 & k & Hh & Hbt & Hk) & Hs)].
  pose proof (flight_active _ _ _ Hf Ha) as Hae. split; [|done].
  destruct (flight_idle _ _ _ Hf Hae) as [Hout Hdr]. destruct (Hk eq_refl) as [Hdk Hkb].
  assert (∀ h, zlen (given h) ≤ zlen h) as Hgiven.
  { intros h. unfold zlen, given. induction h as [|[| | |] h IH]; cbn; lia. }
  assert (zlen (given (rr_hist s)) = zlen (given h1) + zlen (given h2)) as Hsplit.
  { rewrite Hh. unfold given. rewrite omap_app. cbn. by rewrite zlen_app. }
  pose proof (Hgiven (rr_hist s)). pose proof (zlen_nonneg (given h2)). pose proof (zlen_nonneg (given h1)).
  rewrite Hdr, Hdk, !u64_small in Hd by (unfold is_u64; lia).
  assert (given h2 = []) as Hg2 by (apply zlen_zero; lia).
  assert (h2 = []) as ->.
  { destruct h2 as [|c h2]; [done|]. apply Forall_cons_1 in Hbt as [Hc _]. by destruct c. }
  exists h1, []. split_and!; [done|constructor|].
  rewrite Hh in Hout. unfold nothing_out in Hout. by rewrite started_snoc, given_snoc, !app_nil_r in Hout.
Qed.

Lemma publish_moves always now saved s :
  rr_flight (publish always now saved s) = rr_flight s ∧ rr_tasks (publish always now saved s) = rr_tasks s ∧
  rr_hist (publish always now saved s) = rr_hist s ∧ rr_status (publish always now saved s) = rr_status s.
Proof. unfold publish. by destruct (_ && _). Qed.

Lemma checked_deps_inv once dep go_on s :
  runner_inv once s → to_start (rr_pc s) = [] → to_start go_on = [] →
  (∀ ph, pc_inv once go_on ph (rr_flight s) (rr_tasks s) (rr_hist s)) → runner_inv once (checked_deps dep go_on s).
Proof.
  intros Hi H1 H2 Hp. unfold checked_deps.
  case_bool_decide; (eapply inv_move; [exact Hi|done|done|done|by cbn; rewrite H1, ?H2|]); [apply Hp|done].
Qed.

Ltac moved Hpc := eapply inv_move; [eassumption|done|done|done|by rewrite Hpc|try done].

Lemma round_inv once a s s' : exec_round a s = Some s' → runner_inv once s → runner_inv once s'.
Proof.
  unfold exec_round. intros Hx Hi. pose proof (ri_pc _ _ Hi) as Hp.
  destruct (rr_pc s) as [| | | | |d|[|b rest] [|] d|d|d| |e| | |e|e|sum e|sum e] eqn:Hpc; destruct a; try done.
  - destruct e; injection Hx as <-; moved Hpc.
  - injection Hx as <-. destruct (publish_moves false now saved s) as (H1 & H2 & H3 & _).
    eapply inv_move; [exact Hi|exact H1|exact H2|exact H3|by rewrite Hpc|done].
  - injection Hx as <-. moved Hpc. intros _. destruct (ri_flight _ _ Hi) as [_ _ [Hle Hd] _].
    eexists. split; [exact Hd|]. pose proof (zlen_nonneg (to_add (rr_tasks s))). lia.
  - destruct r as [bs|e]; [|done]. injection Hx as <-. by apply next_inv.
  - injection Hx as <-. moved Hpc.
  - injection Hx as <-. moved Hpc. destruct Hp as (bs & h2 & Ha & Hbs & Hany). specialize (Hany eq_refl).
    cbn. exists h2. rewrite app_nil_r in Hbs. subst bs. rewrite Hany in *. done.
  - injection Hx as <-. by apply start_inv.
  - injection Hx as <-. by apply start_inv.
  - destruct (by_nudge && _); [done|]. injection Hx as <-. destruct by_nudge; moved Hpc.
  - destruct (rr_tasks s) eqn:Ht; [|done]. injection Hx as <-. moved Hpc. cbn. rewrite Ht. split; [done|]. by intros -> Ho; apply Hp.
  - injection Hx as <-. destruct (publish_moves true now saved s) as (H1 & H2 & H3 & H4), Hp as [Ht Hp].
    eapply inv_move; [exact Hi|exact H1|exact H2|exact H3|by rewrite Hpc|]. cbn. by rewrite H4.
  - injection Hx as <-. destruct Hp as (Ht & Hs & Hp).
    eapply close_inv; [exact Hi|by rewrite Ht|done|done|done|by rewrite Hpc|]. cbn. rewrite last_snoc.
    split_and!; [done..|]. intros He Ho. destruct (Hp He Ho) as [H|(H & (h1 & h2 & Hh & H2 & H3) & Hae)]; [by left|].
    right. split_and!; [done| |done]. exists h1, (h2 ++ [CClose]). rewrite Hh, <- app_assoc. split_and!; [done| |done].
    apply Forall_app. by split; [|repeat constructor].
Qed.

Lemma RunOnce_inv a s s' : is_task a = false → exec_RunOnce error_text a s = Some s' → zlen (rr_hist s) < two64 →
  runner_inv true s → runner_inv true s'.
Proof.
  intros Ha Hx Hb Hi. pose proof (ri_pc _ _ Hi) as Hp. unfold exec_RunOnce in Hx.
  assert (∀ s', match exec_round a s with Some s => Some s | None => exec_task a s end = Some s' → runner_inv true s') as Hrest.
  { intros s0 H. destruct (exec_round a s) eqn:Hr; [|by destruct a]. injection H as <-. by eapply round_inv. }
  destruct (rr_pc s) as [| | | | |d|rest any d|d|d| |e| | |e|e|sum e|sum e] eqn:Hpc; try (by apply Hrest);
    destruct a; try done; try (by apply Hrest).
  - destruct r as [[|]|e]; injection Hx as <-; moved Hpc. intros _. by left.
  - destruct r as [dep|e]; injection Hx as <-; [|moved Hpc]. apply checked_deps_inv; [done|by rewrite Hpc|done|done].
  - destruct r as [bs|e]; [by apply Hrest|]. injection Hx as <-. moved Hpc.
  - injection Hx as <-. destruct (Z.eqb_spec (fl_active (rr_flight s)) 0); moved Hpc.
  - destruct (Z.eqb_spec (fl_drained (rr_flight s)) d) as [Hd|]; injection Hx as <-; moved Hpc.
    intros _. right. split; [done|]. by eapply idle_quiet.
Qed.

Lemma Run_inv a s s' : is_task a = false → exec_Run error_text a s = Some s' →
  runner_inv false s → runner_inv false s'.
Proof.
  intros Ha Hx Hi. pose proof (ri_pc _ _ Hi) as Hp. unfold exec_Run in Hx.
  assert (∀ s', match exec_round a s with Some s => Some s | None => exec_task a s end = Some s' → runner_inv false s') as Hrest.
  { intros s0 H. destruct (exec_round a s) eqn:Hr; [|by destruct a]. injection H as <-. by eapply round_inv. }
  destruct (rr_pc s) as [| | | | |d|rest any d|d|d| |e| | |e|e|sum e|sum e] eqn:Hpc; try (by apply Hrest);
    destruct a; try done; try (by apply Hrest).
  - destruct r as [[|]|e]; injection Hx as <-; moved Hpc.
  - destruct r as [dep|e]; injection Hx as <-; [|moved Hpc]. apply checked_deps_inv; [done|by rewrite Hpc|done|done].
  - destruct r as [bs|e]; [by apply Hrest|]. injection Hx as <-. moved Hpc.
  - injection Hx as <-. moved Hpc.
  - destruct (_ && _) eqn:Hc; injection Hx as <-; [|moved Hpc].
    apply andb_true_iff in Hc as [_ Hc%Z.eqb_eq]. pose proof (flight_active _ _ _ (ri_flight _ _ Hi) Hc) as Hae.
    eapply close_inv; [exact Hi|exact Hae|done|done|done|by rewrite Hpc|done].
  - destruct e0; injection Hx as <-; moved Hpc.
  - destruct by_nudge; [by apply Hrest|]. injection Hx as <-. moved Hpc.
  - injection Hx as <-. destruct Hp as [Ht _]. moved Hpc.
Qed.

(** Histories only grow. *)
Lemma exec_hist once a s s' : exec once a s = Some s' → zlen (rr_hist s) ≤ zlen (rr_hist s').
Proof.
  destruct (is_task a) eqn:Ha.
  - rewrite (exec_is_task _ _ _ Ha). intros Hx. destruct (exec_task_effect _ _ _ Hx) as (_ & _ & [->|(b & sm & ->)] & _); [lia|].
    rewrite zlen_app. pose proof (zlen_nonneg [CDrained b sm]). lia.
  - intros Hx. assert (rr_hist s' = rr_hist s ∨ ∃ c, rr_hist s' = rr_hist s ++ [c]) as [->|[c ->]].
    2, 3: rewrite ?zlen_app; pose proof (zlen_nonneg (rr_hist s)); try pose proof (zlen_nonneg [c]); lia.
    unfold exec, exec_RunOnce, exec_Run, exec_round, checked_deps, publish in Hx. destruct once, (rr_pc s) as [| | | | |d|[|b rest] [|] d|d|d| |e| | |e|e|sum e|sum e], a;
      repeat case_match; simplify_eq/=; try (by left); try (by right; eexists); done.
Qed.

Lemma runs_inv once owner s : runs_to error_text once owner s → zlen (rr_hist s) < two64 → runner_inv once s.
Proof.
  induction 1 as [|s a s' _ IH Hx]; intros Hb.
  - split; cbn; [|done| |done].
    + split; cbn; [done|done|done|]. intros g H0 _. rewrite H0. done.
    + intros [|] h2; done.
  - pose proof (exec_hist once a s s' Hx). specialize (IH ltac:(lia)).
    destruct (is_task a) eqn:Ha.
    + fold (exec once) in Hx. rewrite (exec_is_task _ _ _ Ha) in Hx. by eapply inv_task.
    + destruct once; [eapply RunOnce_inv; try done; lia|by eapply Run_inv].
Qed.
End invariant.

(** ** Returning *)
Section returning.
Context {T : Type} (error_text : error → string).

Definition stopping (s : runnerState T) : bool :=
  match rr_pc s with Finishing _ | Summing _ | Closing _ _ | Finished _ _ => true | _ => false end.

Definition task_left (t : task T) : Z := match t.2 with InBatch => 4 | Ran _ => 3 | Gave _ => 2 | Ended => 1 end.

(** What is left to do: every step but a nudge takes from it. *)
Definition left_to_do (s : runnerState T) : Z :=
  match rr_pc s with Finishing _ => 3 | Summing _ => 2 | Closing _ _ => 1 | _ => 0 end + lsum task_left (rr_tasks s).

Lemma left_to_do_nonneg s : 0 ≤ left_to_do s.
Proof.
  unfold left_to_do. assert (0 ≤ lsum task_left (rr_tasks s)); [|by destruct (rr_pc s); lia].
  apply lsum_nonneg. intros [b [| | |]] _; unfold task_left; cbn; lia.
Qed.

Lemma exec_task_left a (s s' : runnerState T) : exec_task a s = Some s' → a ≠ Nudged →
  rr_pc s' = rr_pc s ∧ lsum task_left (rr_tasks s') < lsum task_left (rr_tasks s).
Proof.
  intros Hx Hn. destruct a as [| | | | | | |i sum|i|i|i|]; cbn in Hx; try done;
    (destruct (rr_tasks s !! i) as [[b [|sm|sm|]]|] eqn:Hi; try done); injection Hx as <-; cbn; (split; [done|]);
    destruct (task_split _ _ _ Hi) as (l1 & l2 & Hl & Hins & Hdel); rewrite ?Hins, ?Hdel, Hl, !lsum_app, !lsum_cons;
    unfold task_left at 2; try unfold task_left at 4; cbn; lia.
Qed.

Lemma stopping_step once a (s s' : runnerState T) : stopping s = true → exec error_text once a s = Some s' → a ≠ Nudged →
  stopping s' = true ∧ left_to_do s' < left_to_do s.
Proof.
  intros Hs Hx Hn. destruct (is_task a) eqn:Ha.
  - rewrite (exec_is_task _ _ _ _ Ha) in Hx. destruct (exec_task_left _ _ _ Hx Hn) as [Hpc Hlt].
    unfold stopping, left_to_do in *. rewrite Hpc. split; [done|]. destruct (rr_pc s); lia.
  - unfold stopping, left_to_do, exec, exec_RunOnce, exec_Run, exec_round in *.
    destruct once, (rr_pc s) as [| | | | |d|rest any d|d|d| |e| | |e|e|sum e|sum e]; try done; destruct a; try done;
      try (destruct (rr_tasks s) eqn:Ht; [|done]); injection Hx as <-; cbn; rewrite ?Ht; (split; [done|]);
      try (destruct (publish_moves true now saved s) as (_ & -> & _)); lia.
Qed.

Lemma stopping_moves once (s : runnerState T) : stopping s = true → (∀ sum e, rr_pc s ≠ Finished sum e) →
  ∃ a s', a ≠ Nudged ∧ exec error_text once a s = Some s'.
Proof.
  intros Hs Hf. destruct (rr_tasks s) as [|[b t] ts] eqn:Ht.
  - unfold stopping, exec, exec_RunOnce, exec_Run, exec_round in *.
    destruct (rr_pc s) as [| | | | |d|rest any d|d|d| |e| | |e|e|sum e|sum e] eqn:Hpc; try done.
    + exists Proceed. destruct once; cbn; rewrite Hpc, Ht; by eexists.
    + destruct once; [exists (PublishStatus 0 true)|exists Proceed]; cbn; rewrite Hpc; by eexists.
    + exists Proceed. destruct once; cbn; rewrite Hpc; by eexists.
    + by destruct (Hf sum e).
  - destruct t as [|sm|sm|];
      [exists (BatchReturns 0 no_summary)|exists (GiveBack 0)|exists (EndFlight 0)|exists (GoroutineDone 0)];
      eexists; (split; [done|]); rewrite exec_is_task by done; cbn; by rewrite Ht.
Qed.
End returning.

(** ** Properties *)
Section properties.
Context {T : Type} (error_text : error → string).

(** C26: When [RunOnce] returns without an error, either the automation was
    paused, or its last question found nothing and nothing was left: the
    scheduler's last answer was empty, every batch handed out before it had
    already been given back, and nothing but the closing followed. *)
Theorem RunOnce_ends_when_nothing_is_eligible owner (s : runnerState T) sum :
  runs_to error_text true owner s → zlen (rr_hist s) < two64 → rr_pc s = Finished sum None →
  st_Phase (rr_status s) = Paused ∨
  st_Phase (rr_status s) = Idle ∧
  ∃ h1 h2, rr_hist s = h1 ++ CNext [] :: h2 ∧ Forall (λ c, c = CClose) h2 ∧ handed h1 ≡ₚ (given h1).*1.
Proof.
  intros Hr Hb Hpc. destruct (runs_inv _ _ _ _ Hr Hb) as [_ Hh _ Hp]. rewrite Hpc in Hp, Hh.
  destruct Hp as (_ & _ & _ & Hp). destruct (Hp eq_refl eq_refl) as [H|(Hi & (h1 & h2 & Heq & Hc & Ho) & _)]; [by left|].
  right. split; [done|]. exists h1, h2. split_and!; [done..|]. rewrite <- Ho.
  assert (∀ h, Forall (λ c : sched_call T, c = CClose) h → handed h = [] ∧ started h = []) as Hclosed.
  { induction 1 as [|c h -> _ [IH1 IH2]]; [done|]. unfold handed, started in *. cbn. by rewrite IH1, IH2. }
  destruct (Hclosed h2 Hc) as [E1 E2]. rewrite Heq in Hh. unfold handed, started in *.
  rewrite fmap_app, concat_app, omap_app in Hh. cbn in Hh. rewrite E1, E2, !app_nil_r in Hh. by rewrite Hh.
Qed.

(** C22: Whatever the scheduler, the store, the dependencies and the context
    answer, and however the goroutines interleave, [Run] and [RunOnce] start
    only batches the scheduler handed out, in order, and give each back at
    most once; they call the scheduler's Close only when every started batch
    has been given back.  When they return, Close was the last call, every
    batch handed out was given back exactly once, and the summary counts each
    of them. *)
Theorem batches_are_given_back_before_Close once owner (s : runnerState T) :
  runs_to error_text once owner s → zlen (rr_hist s) < two64 →
  started (rr_hist s) `prefix_of` handed (rr_hist s) ∧
  (given (rr_hist s)).*1 ⊆+ started (rr_hist s) ∧
  (∀ h1 h2, rr_hist s = h1 ++ CClose :: h2 → started h1 ≡ₚ (given h1).*1) ∧
  (∀ sum e, rr_pc s = Finished sum e →
     last (rr_hist s) = Some CClose ∧ handed (rr_hist s) ≡ₚ (given (rr_hist s)).*1 ∧
     su_Processed sum = lsum su_Processed (given (rr_hist s)).*2 ∧
     su_Failed sum = lsum su_Failed (given (rr_hist s)).*2 ∧
     su_Deferred sum = lsum su_Deferred (given (rr_hist s)).*2).
Proof.
  intros Hr Hb. destruct (runs_inv _ _ _ _ Hr Hb) as [Hf Hh Hc Hp]. pose proof Hf as [_ Hbatch _ Hsum].
  split_and!.
  - rewrite Hh. by eexists.
  - rewrite Hbatch. by apply submseteq_inserts_r.
  - exact Hc.
  - intros sum e Hpc. rewrite Hpc in Hp, Hh. destruct Hp as (Ht & -> & Hl & _). rewrite Ht in Hsum, Hbatch.
    cbn in Hh, Hbatch. rewrite app_nil_r in Hh, Hbatch. split_and!; [done|by rewrite Hh|..];
      (rewrite <- Hsum by done; cbn; change (lsum _ []) with 0; lia).
Qed.

(** The runner returns once its context has ended.  At the top of a round an ended
    context leads to the end of the run; from there every step but a nudge
    takes from a measure that cannot become negative, keeps the run ending,
    and until it has returned some such step is possible. *)
Theorem runner_returns_after_its_context_ended once (s : runnerState T) e :
  (rr_pc s = AtCtx → exec error_text once (Ctx (Some e)) s = Some (at_pc (Finishing (Some e)) s)) ∧
  (stopping s = true →
     0 ≤ left_to_do s ∧
     (∀ a s', exec error_text once a s = Some s' → a ≠ Nudged → stopping s' = true ∧ left_to_do s' < left_to_do s) ∧
     ((∀ sum e, rr_pc s ≠ Finished sum e) → ∃ a s', a ≠ Nudged ∧ exec error_text once a s = Some s')).
Proof.
  split.
  - intros Hpc. destruct once; cbn; unfold exec_RunOnce, exec_Run, exec_round; by rewrite Hpc.
  - intros Hs. split_and!; [apply left_to_do_nonneg| |by apply stopping_moves].
    intros a s' Hx Hn. by eapply stopping_step.
Qed.
End properties.

(** ** Building a runner *)
Definition DefaultLease : duration := 60 * second.
Definition DefaultAutomationBatch : Z := 10.
Definition DefaultAutomationPoll : duration := 5 * second.
Definition DefaultConcurrency : Z := 1.
Definition DefaultMaxSegments : Z := 32.

Section definition.
(** The todo list, the dependencies, the store, the scheduler and the work. *)
Context {TL Dep Sto Sch Wk : Type}.

(** [Definition] without its ordering key and logger. *)
Record AutomationDefinition : Type := mkAutomation {
  ad_Name : string;
  ad_TodoList : option TL;
  ad_Projection : option Dep;
  ad_Store : option Sto;
  ad_Scheduler : option Sch;
  ad_Work : option Wk;
  ad_WaitFor : list Dep;
  ad_Concurrency : Z;
  ad_MaxSegments : Z;
  ad_BatchSize : Z;
  ad_Lease : duration;
  ad_PollInterval : duration;
}.

Definition or_default (v default : Z) : Z := if v <=? 0 then default else v.

Definition with_defaults (d : AutomationDefinition) : AutomationDefinition :=
  mkAutomation (ad_Name d) (ad_TodoList d) (ad_Projection d) (ad_Store d) (ad_Scheduler d) (ad_Work d) (ad_WaitFor d)
    (or_default (ad_Concurrency d) DefaultConcurrency) (or_default (ad_MaxSegments d) DefaultMaxSegments)
    (or_default (ad_BatchSize d) DefaultAutomationBatch) (or_default (ad_Lease d) DefaultLease)
    (or_default (ad_PollInterval d) DefaultAutomationPoll).

(** The checks of [NewRunner], with the definition and the dependencies the
    runner keeps. *)
Definition NewAutomation (d : AutomationDefinition) : outcome (AutomationDefinition * list Dep) :=
  if bool_decide (ad_Name d = "") then Panics "automation: Definition.Name is required"
  else match ad_Projection d, ad_Work d, ad_Scheduler d, ad_TodoList d, ad_Store d with
  | None, _, _, _, _ => Panics "Projection is required"
  | _, None, _, _, _ => Panics "Work is required"
  | _, _, None, None, _ => Panics "TodoList or Scheduler is required"
  | _, _, Some _, Some _, _ | _, _, Some _, _, Some _ => Panics "Scheduler excludes TodoList and Store"
  | _, _, _, Some _, None => Panics "Store is required with TodoList"
  | Some p, _, _, _, _ => Returns (with_defaults d, p :: ad_WaitFor d)
  end.

(** A runner has either a scheduler of its own or a list with a store, and
    every tuning field is positive. *)
Lemma NewAutomation_ok d d' deps : NewAutomation d = Returns (d', deps) →
  (is_Some (ad_Scheduler d') ↔ ad_TodoList d' = None) ∧ (is_Some (ad_TodoList d') → is_Some (ad_Store d')) ∧
  (∃ p, ad_Projection d' = Some p ∧ deps = p :: ad_WaitFor d') ∧
  0 < ad_Concurrency d' ∧ 0 < ad_MaxSegments d' ∧ 0 < ad_BatchSize d' ∧ 0 < ad_Lease d' ∧ 0 < ad_PollInterval d'.
Proof.
  unfold NewAutomation. case_bool_decide; [done|]. intros Hd.
  assert (∀ v w, 0 < w → 0 < or_default v w) as Hpos.
  { intros v w Hw. unfold or_default. destruct (Z.leb_spec v 0); lia. }
  destruct (ad_Projection d) as [p|] eqn:Hp, (ad_Work d), (ad_Scheduler d) as [sc|] eqn:Hsc, (ad_TodoList d) as [tl|] eqn:Htl,
    (ad_Store d) as [st|] eqn:Hst; try done; injection Hd as <- <-; cbn; rewrite ?Hp, ?Hsc, ?Htl, ?Hst;
    split_and!; try (apply Hpos; vm_compute; done); try naive_solver.
Qed.
End definition.

(** ** One item *)

(** [work], given what the work function returned and whether the run's
    context has ended: the outcome, or [None] when the run is stopping. *)
Definition item_outcome {T} (lease : duration) (now : time) (item : Item T) (err : option error) (ctx_err : option sentinel) :
    option Outcome :=
  if negb (time_IsZero (it_Deadline item)) && negb (time_After (it_Deadline item) now)
  then Some (Failed (New "lease expired before work started"))
  else match err, ctx_err with
       | Some e, Some c => if errors_Is e c then None else Some (classify err lease now)
       | _, _ => Some (classify err lease now)
       end.

(** The counters of the status. *)
Definition count_outcome (error_text : error → string) (out : Outcome) (st : Status) : Status :=
  match out with
  | Done => mkStatus (st_Owner st) (st_Phase st) (st_WaitingFor st) (st_Processed st + 1) (st_Failed st) (st_Deferred st)
              (st_LastError st) (st_Age st)
  | DeferredOutcome _ => mkStatus (st_Owner st) (st_Phase st) (st_WaitingFor st) (st_Processed st) (st_Failed st)
              (st_Deferred st + 1) (st_LastError st) (st_Age st)
  | Failed e => mkStatus (st_Owner st) (st_Phase st) (st_WaitingFor st) (st_Processed st) (st_Failed st + 1) (st_Deferred st)
              (error_text e) (st_Age st)
  end.
