(* ===== verification/QueryBus.v ===== *)
(** * The query bus ([query_bus.go], [query_gateway.go], [query_handler.go], [middleware.go])

    Go's type parameters are values here: a type is its identity, the name
    [%T] prints and, for an interface, the types that implement it.  A value
    of interface type carries its dynamic type, and an assertion compares
    types, so what the bus does with the types of its handlers can be stated.
    Every method of the bus is one critical section of its lock. *)
From S2P Require Import Prelude Core Context.

(** ** Types and values *)
Inductive GoType : Type :=
| Concrete (id name zero : string)
| Interface (id name : string) (implementers : list string).

#[export] Instance GoType_eq_dec : EqDecision GoType.
Proof. solve_decision. Defined.

Definition type_name (t : GoType) : string :=
  match t with Concrete _ name _ | Interface _ name _ => name end.

(** An interface value: nil, or a dynamic type and data. *)
Definition Value : Type := option (string * string).

(** The assertion [v.(t)] succeeds. *)
Definition asserts (t : GoType) (v : Value) : bool :=
  match v, t with
  | None, _ => false
  | Some (id, _), Concrete id' _ _ => bool_decide (id = id')
  | Some (id, _), Interface _ _ impl => bool_decide (id ∈ impl)
  end.

Definition zero_value (t : GoType) : Value :=
  match t with Concrete id _ z => Some (id, z) | Interface _ _ _ => None end.

(** [v] can be the value of a variable of type [t]. *)
Definition typed_value (t : GoType) (v : Value) : Prop :=
  asserts t v = true ∨ v = None ∧ zero_value t = None.

Section bus.
(** The world the handlers act on. *)
Context {W : Type}.

(** A call returns a result and an error, or panics. *)
Definition QueryFunc : Type := values → Value → W → outcome (Value * option error) * W.

(** [QueryHandler[T, R]] *)
Record QueryHandler : Type := mkQueryHandler {
  qh_T : GoType;
  qh_R : GoType;
  HandleQuery : QueryFunc;
}.

(** Between [QueryGateway[Query, any]]s. *)
Definition QueryHandlerMiddleware : Type := QueryFunc → QueryFunc.

Record QueryBus : Type := mkQueryBus {
  qb_handlers : gmap string QueryHandler;
  qb_requestees : gset string;
  qb_middlewares : list QueryHandlerMiddleware;
}.

Definition NewQueryBus : QueryBus := mkQueryBus ∅ ∅ [].

Definition queryKey (T R : GoType) : string :=
  "*" +:+ type_name T +:+ "|*" +:+ type_name R.

Definition QueryBus_Use (ms : list QueryHandlerMiddleware) (q : QueryBus) : QueryBus :=
  mkQueryBus (qb_handlers q) (qb_requestees q) (qb_middlewares q ++ ms).

(** ** [wrapQueryHandler] *)

(** The innermost gateway: [h.HandleQuery(ctx, qry.(T))]. *)
Definition any_handler (h : QueryHandler) : QueryFunc := λ ctx qry w,
  if asserts (qh_T h) qry then HandleQuery h ctx qry w
  else (Panics "interface conversion", w).

Definition anyNext (h : QueryHandler) (ms : list QueryHandlerMiddleware) : QueryFunc :=
  foldr (λ m next, m next) (any_handler h) ms.

(** Back from [any] to [R]. *)
Definition restore (R : GoType) (o : outcome (Value * option error)) : outcome (Value * option error) :=
  match o with
  | Panics p => Panics p
  | Returns (result, Some err) =>
    Returns (if asserts R result then result else zero_value R, Some err)
  | Returns (None, None) => Returns (zero_value R, None)
  | Returns (Some v, None) =>
    if asserts R (Some v) then Returns (Some v, None) else Panics "interface conversion"
  end.

Definition wrapQueryHandler (h : QueryHandler) (ms : list QueryHandlerMiddleware) : QueryHandler :=
  match ms with
  | [] => h
  | _ => mkQueryHandler (qh_T h) (qh_R h) (λ ctx qry w,
           let '(o, w) := anyNext h ms ctx qry w in (restore (qh_R h) o, w))
  end.

(** ** Registration, gateways, validation *)
Definition RegisterQueryHandler (h : QueryHandler) (q : QueryBus) : outcome QueryBus :=
  let key := queryKey (qh_T h) (qh_R h) in
  match qb_handlers q !! key with
  | Some _ => Panics "duplicate handler registered"
  | None => Returns (mkQueryBus (<[key := wrapQueryHandler h (qb_middlewares q)]> (qb_handlers q))
                       (qb_requestees q) (qb_middlewares q))
  end.

Definition addRequestee (key : string) (q : QueryBus) : QueryBus :=
  mkQueryBus (qb_handlers q) ({[key]} ∪ qb_requestees q) (qb_middlewares q).

Definition query_handlerFor (key : string) (q : QueryBus) : option QueryHandler := qb_handlers q !! key.

(** What [NewQueryGateway] does to the bus, and the function it returns,
    called when the bus is [q]. *)
Definition NewQueryGateway (T R : GoType) (q : QueryBus) : QueryBus := addRequestee (queryKey T R) q.

Definition QueryGateway (T R : GoType) (q : QueryBus) : QueryFunc := λ ctx qry w,
  match query_handlerFor (queryKey T R) q with
  | None => (Returns (zero_value R, Some (Errorf "no handler registered for query" (Sentinel ErrHandlerNotFound))), w)
  | Some h =>
    if bool_decide (qh_T h = T) && bool_decide (qh_R h = R) then HandleQuery h ctx qry w
    else (Returns (zero_value R, Some (New "handler type mismatch for query")), w)
  end.

Definition unknown (q : QueryBus) (requestee : string) : option error :=
  match qb_handlers q !! requestee with
  | Some _ => None
  | None => Some (New ("unknown query handler: " +:+ requestee))
  end.

Definition Validate (q : QueryBus) : option error :=
  match omap (unknown q) (elements (qb_requestees q)) with
  | [] => None
  | errs => Some (Join errs)
  end.

(** ** Histories: a registration that panics changes nothing *)
Inductive query_op : Type :=
| QUse (ms : list QueryHandlerMiddleware)
| QRegister (h : QueryHandler)
| QGateway (T R : GoType).

Definition exec_query (o : query_op) (q : QueryBus) : QueryBus :=
  match o with
  | QUse ms => QueryBus_Use ms q
  | QRegister h => match RegisterQueryHandler h q with Returns q => q | Panics _ => q end
  | QGateway T R => NewQueryGateway T R q
  end.

Definition run_query (ops : list query_op) (q : QueryBus) : QueryBus := foldl (λ q o, exec_query o q) q ops.

(** The first handler registered for two types, with the middlewares in use
    by then. *)
Fixpoint first_handler (T R : GoType) (ms : list QueryHandlerMiddleware) (ops : list query_op) :
    option (QueryHandler * list QueryHandlerMiddleware) :=
  match ops with
  | [] => None
  | QUse ms' :: ops => first_handler T R (ms ++ ms') ops
  | QRegister h :: ops =>
    if bool_decide (qh_T h = T) && bool_decide (qh_R h = R) then Some (h, ms) else first_handler T R ms ops
  | QGateway _ _ :: ops => first_handler T R ms ops
  end.

(** The printed names tell the registered types from [T] and [R]. *)
Definition told_apart (T R : GoType) (ops : list query_op) : Prop :=
  ∀ h, QRegister h ∈ ops → queryKey (qh_T h) (qh_R h) = queryKey T R → qh_T h = T ∧ qh_R h = R.
End bus.

Arguments QueryFunc : clear implicits.
Arguments QueryHandler : clear implicits.
Arguments QueryHandlerMiddleware : clear implicits.
Arguments QueryBus : clear implicits.
Arguments query_op : clear implicits.

(** ** Facts *)
Section facts.
Context {W : Type}.
Implicit Types (q : QueryBus W) (h : QueryHandler W) (ms : list (QueryHandlerMiddleware W)) (ops : list (query_op W)).

Lemma wrapQueryHandler_types h ms : qh_T (wrapQueryHandler h ms) = qh_T h ∧ qh_R (wrapQueryHandler h ms) = qh_R h.
Proof. by destruct ms. Qed.

Lemma first_handler_types T R ms ops h ms' :
  first_handler T R ms ops = Some (h, ms') → qh_T h = T ∧ qh_R h = R.
Proof.
  revert ms. induction ops as [|[ms0|h0|T0 R0] ops IH]; intros ms; cbn; [done|apply IH| |apply IH].
  destruct (_ && _) eqn:Hb; [|apply IH]. intros [= <- _].
  apply andb_true_iff in Hb as [H1%bool_decide_eq_true H2%bool_decide_eq_true]. done.
Qed.

(** A key keeps its first handler, with the middlewares of that moment. *)
Lemma run_query_handlers T R ops q : told_apart T R ops →
  qb_handlers (run_query ops q) !! queryKey T R =
  match qb_handlers q !! queryKey T R with
  | Some h => Some h
  | None => (λ x, wrapQueryHandler x.1 x.2) <$> first_handler T R (qb_middlewares q) ops
  end.
Proof.
  revert q. induction ops as [|o ops IH]; intros q Ht; [cbn; by destruct (qb_handlers q !! queryKey T R)|].
  cbn [run_query foldl]. fold (run_query ops (exec_query o q)).
  rewrite IH by (intros h Hin; apply Ht; by constructor).
  destruct o as [ms|h|T' R']; cbn [exec_query first_handler QueryBus_Use NewQueryGateway addRequestee
    qb_handlers qb_middlewares]; [done| |done].
  assert (queryKey (qh_T h) (qh_R h) = queryKey T R → qh_T h = T ∧ qh_R h = R) as Hh by (apply Ht; constructor).
  unfold RegisterQueryHandler. destruct (qb_handlers q !! queryKey (qh_T h) (qh_R h)) as [h0|] eqn:Hq.
  - destruct (qb_handlers q !! queryKey T R) eqn:Hk; [done|].
    destruct (_ && _) eqn:Hb; [|done]. apply andb_true_iff in Hb as [H1%bool_decide_eq_true H2%bool_decide_eq_true].
    exfalso. subst. congruence.
  - cbn [qb_handlers qb_middlewares]. destruct (decide (queryKey (qh_T h) (qh_R h) = queryKey T R)) as [He|Hne].
    + destruct (Hh He) as [HT HR]. rewrite !bool_decide_true by done. cbn [andb fmap option_fmap option_map fst snd].
      rewrite He, lookup_insert_eq. by rewrite <- He, Hq.
    + rewrite lookup_insert_ne by done. destruct (_ && _) eqn:Hb; [|done].
      apply andb_true_iff in Hb as [H1%bool_decide_eq_true H2%bool_decide_eq_true]. exfalso. subst. congruence.
Qed.

Lemma run_query_requestees ops q key :
  key ∈ qb_requestees (run_query ops q) ↔ key ∈ qb_requestees q ∨ ∃ T R, QGateway T R ∈ ops ∧ key = queryKey T R.
Proof.
  revert q. induction ops as [|o ops IH]; intros q.
  - split; [by left|]. intros [H|(T & R & H & _)]; [done|]. by apply not_elem_of_nil in H.
  - cbn [run_query foldl]. fold (run_query ops (exec_query o q)). rewrite IH. setoid_rewrite elem_of_cons.
    assert (qb_requestees (exec_query o q) = match o with QGateway T R => {[queryKey T R]} ∪ qb_requestees q | _ => qb_requestees q end) as ->.
    { destruct o as [ms|h|T R]; [done| |done]. cbn. unfold RegisterQueryHandler. by destruct (_ !! _). }
    destruct o as [ms|h|T R]; [naive_solver..|]. set_solver.
Qed.

Lemma Validate_nil q : Validate q = None ↔ ∀ key, key ∈ qb_requestees q → is_Some (qb_handlers q !! key).
Proof.
  unfold Validate. setoid_rewrite <- elem_of_elements. set (ks := elements _). clearbody ks.
  induction ks as [|k ks IH]; cbn.
  - split; [|done]. intros _ key H. by apply not_elem_of_nil in H.
  - unfold unknown at 1. setoid_rewrite elem_of_cons. destruct (qb_handlers q !! k) as [h|] eqn:Hk.
    + rewrite IH. naive_solver.
    + split; [done|]. intros H. specialize (H k (or_introl eq_refl)). rewrite Hk in H. by destruct H.
Qed.

(** *** Types of results *)

(** A handler of Go's type system: it returns values of its result type. *)
Definition honest h : Prop := ∀ ctx qry w v err w',
  HandleQuery h ctx qry w = (Returns (v, err), w') → typed_value (qh_R h) v.

Lemma zero_typed R : typed_value R (zero_value R).
Proof. destruct R; [left; cbn; by rewrite bool_decide_true|by right]. Qed.

Lemma restore_typed R o v err : restore R o = Returns (v, err) → typed_value R v.
Proof.
  destruct o as [[[x|] [e|]]|p]; cbn [restore]; try done;
    try (destruct (asserts R (Some x)) eqn:Ha; [|try done]); intros [= <- <-]; try apply zero_typed; by left.
Qed.

Lemma restore_honest R v err : typed_value R v → restore R (Returns (v, err)) = Returns (v, err).
Proof.
  intros [Ha|[-> Hz]]; cbn [restore].
  - destruct v as [v|]; [|done]. destruct err; by rewrite Ha.
  - destruct err; cbn [asserts]; by rewrite Hz.
Qed.

Lemma honest_wrap h ms : honest h → honest (wrapQueryHandler h ms).
Proof.
  intros Hh. destruct ms as [|m ms]; [done|]. intros ctx qry w v err w'.
  cbn [wrapQueryHandler HandleQuery qh_R]. destruct (anyNext _ _ _ _ _) as [o w0]. intros [= Ho _].
  by eapply restore_typed.
Qed.

(** A middleware that only passes the call along. *)
Definition transparent (m : QueryHandlerMiddleware W) : Prop :=
  ∀ next ctx qry w, m next ctx qry w = next ctx qry w.

Lemma anyNext_transparent h ms ctx qry w :
  Forall transparent ms → anyNext h ms ctx qry w = any_handler h ctx qry w.
Proof.
  unfold anyNext. intros H. revert ctx qry w. induction H as [|m ms Hm _ IH]; intros ctx qry w; cbn [foldr]; [done|].
  by rewrite Hm, IH.
Qed.

Lemma run_query_honest ops q key h :
  (∀ h, QRegister h ∈ ops → honest h) → (∀ key h, qb_handlers q !! key = Some h → honest h) →
  qb_handlers (run_query ops q) !! key = Some h → honest h.
Proof.
  revert q. induction ops as [|o ops IH]; intros q Ho Hq; [by apply Hq|].
  cbn [run_query foldl]. fold (run_query ops (exec_query o q)). apply IH; [intros h0 Hin; apply Ho; by constructor|].
  intros k h0. destruct o as [ms|h1|T R]; cbn; try apply Hq.
  unfold RegisterQueryHandler. destruct (qb_handlers q !! queryKey (qh_T h1) (qh_R h1)); cbn; [apply Hq|].
  rewrite lookup_insert_Some. intros [[_ <-]|[_ H]]; [|by eapply Hq]. apply honest_wrap, Ho. constructor.
Qed.
End facts.

(** ** Properties *)
Section properties.
Context {W : Type}.

Lemma gateway_of_first_handler (ops : list (query_op W)) T R ctx qry w :
  told_apart T R ops →
  QueryGateway T R (run_query ops NewQueryBus) ctx qry w =
  match first_handler T R [] ops with
  | Some (h, ms) => HandleQuery (wrapQueryHandler h ms) ctx qry w
  | None => (Returns (zero_value R, Some (Errorf "no handler registered for query" (Sentinel ErrHandlerNotFound))), w)
  end.
Proof.
  intros Ht. unfold QueryGateway, query_handlerFor. rewrite (run_query_handlers _ _ _ _ Ht). cbn [NewQueryBus qb_handlers qb_middlewares]. rewrite lookup_empty.
  destruct (first_handler T R [] ops) as [[h ms]|] eqn:Hf; [|done].
  destruct (first_handler_types _ _ _ _ _ _ Hf) as [HT HR], (wrapQueryHandler_types h ms) as [HT' HR'].
  cbn [fmap option_fmap option_map fst snd]. by rewrite !bool_decide_true by congruence.
Qed.

(** A query gateway calls the first handler that was registered for its query and
    result types, wrapped in the middlewares in use at that moment and in no
    later one; without such a handler it returns the zero result and
    ErrHandlerNotFound.  This holds after any history of registrations whose
    printed type names do not collide. *)
Theorem query_gateway_calls_its_handler (ops : list (query_op W)) T R ctx qry w :
  told_apart T R ops →
  QueryGateway T R (run_query ops NewQueryBus) ctx qry w =
  match first_handler T R [] ops with
  | Some (h, ms) => HandleQuery (wrapQueryHandler h ms) ctx qry w
  | None => (Returns (zero_value R, Some (Errorf "no handler registered for query" (Sentinel ErrHandlerNotFound))), w)
  end.
Proof. apply gateway_of_first_handler. Qed.

(** [Validate] reports no error exactly when every gateway that was created has a
    handler for its query and result types. *)
Theorem Validate_finds_every_missing_handler (ops : list (query_op W)) :
  (∀ T R, QGateway T R ∈ ops → told_apart T R ops) →
  Validate (run_query ops NewQueryBus) = None ↔
  ∀ T R, QGateway T R ∈ ops → is_Some (first_handler T R [] ops).
Proof.
  intros Ht. rewrite Validate_nil.
  assert (∀ T R, QGateway T R ∈ ops →
    is_Some (qb_handlers (run_query ops NewQueryBus) !! queryKey T R) ↔ is_Some (first_handler T R [] ops)) as Hh.
  { intros T R Hin. rewrite (run_query_handlers _ _ _ _ (Ht T R Hin)). cbn [NewQueryBus qb_handlers qb_middlewares].
    rewrite lookup_empty. apply fmap_is_Some. }
  setoid_rewrite run_query_requestees. split.
  - intros H T R Hin. apply Hh; [done|]. apply H. right. by exists T, R.
  - intros H key [Hk|(T & R & Hin & ->)]; [by apply not_elem_of_empty in Hk|]. by apply Hh, H.
Qed.

(** What a gateway of result type [R] makes of what the middlewares answer. *)
Inductive comes_out (R : GoType) : outcome (Value * option error) → outcome (Value * option error) → Prop :=
| comes_typed v err : asserts R v = true → comes_out R (Returns (v, err)) (Returns (v, err))
| comes_replaced v err : asserts R v = false → comes_out R (Returns (v, Some err)) (Returns (zero_value R, Some err))
| comes_nil : comes_out R (Returns (None, None)) (Returns (zero_value R, None))
| comes_wrong v : asserts R (Some v) = false → comes_out R (Returns (Some v, None)) (Panics "interface conversion")
| comes_panic p : comes_out R (Panics p) (Panics p).

Lemma restore_comes_out R o : comes_out R o (restore R o).
Proof.
  destruct o as [[[v|] [e|]]|p]; cbn [restore]; try (destruct (asserts R _) eqn:Ha); try by constructor.
Qed.

(** C39: What the middlewares answer comes out of a query gateway as its result
    type, and as itself where it can.  After any history of registrations of
    handlers that return their result type, whose printed type names do not
    collide, a gateway calls the first handler of its types in the middlewares
    in use when it was registered: a result of the right type comes out
    unchanged with its error; a result of another type, or nil, that comes
    with an error is replaced by the zero value and the error kept; nil
    without an error is the zero value; another type without an error panics,
    and a panic goes through.  Without middlewares the answer is the handler's
    own, without a handler the zero value with ErrHandlerNotFound, and in
    every case a value that is returned has the result type. *)
Theorem query_results_are_typed (ops : list (query_op W)) T R ctx qry w :
  (∀ h, QRegister h ∈ ops → honest h) → told_apart T R ops →
  let call := QueryGateway T R (run_query ops NewQueryBus) ctx qry w in
  match first_handler T R [] ops with
  | None => ∃ e, call = (Returns (zero_value R, Some e), w) ∧ errors_Is e ErrHandlerNotFound = true
  | Some (h, []) => call = HandleQuery h ctx qry w
  | Some (h, ms) => comes_out R (anyNext h ms ctx qry w).1 call.1 ∧ call.2 = (anyNext h ms ctx qry w).2
  end ∧
  ∀ v err, call.1 = Returns (v, err) → typed_value R v.
Proof.
  intros Ho Ht call. split.
  - pose proof (gateway_of_first_handler ops T R ctx qry w Ht) as Hc. fold call in Hc. rewrite Hc.
    destruct (first_handler T R [] ops) as [[h [|m ms]]|] eqn:Hf; [done| |by eexists].
    cbn [wrapQueryHandler HandleQuery]. destruct (first_handler_types _ _ _ _ _ _ Hf) as [_ <-].
    destruct (anyNext h (m :: ms) ctx qry w) as [o w']. split; [apply restore_comes_out|done].
  - intros v err. unfold call, QueryGateway, query_handlerFor.
    destruct (qb_handlers (run_query ops NewQueryBus) !! queryKey T R) as [h|] eqn:Hh;
      [|intros [= <- _]; apply zero_typed].
    destruct (_ && _) eqn:Hb; [|intros [= <- _]; apply zero_typed].
    apply andb_true_iff in Hb as [_ <-%bool_decide_eq_true].
    destruct (HandleQuery h ctx qry w) as [o w'] eqn:Hq. cbn [fst]. intros ->.
    eapply (run_query_honest ops NewQueryBus _ h Ho); [|exact Hh|exact Hq]. intros k h0 H. cbn [NewQueryBus qb_handlers] in H.
    by rewrite lookup_empty in H.
Qed.

(** Wrapping a handler in middlewares that only pass the query on gives the
    handler back: the way through the untyped gateways loses neither the
    result, nor the error, nor nil. *)
Theorem transparent_middlewares_change_nothing (h : QueryHandler W) ms ctx qry w :
  Forall transparent ms → honest h → asserts (qh_T h) qry = true →
  HandleQuery (wrapQueryHandler h ms) ctx qry w = HandleQuery h ctx qry w.
Proof.
  intros Hms Hh Hq. destruct ms as [|m ms]; [done|]. cbn [wrapQueryHandler HandleQuery].
  rewrite (anyNext_transparent _ _ _ _ _ Hms). unfold any_handler. rewrite Hq.
  destruct (HandleQuery h ctx qry w) as [[[v err]|p] w'] eqn:Hc; [|done].
  by rewrite (restore_honest _ _ _ (Hh _ _ _ _ _ _ Hc)).
Qed.

(** Two types that print the same name share one key: the second of them
    cannot be registered, and although [Validate] finds its handler, its
    gateway always fails. *)
Theorem equal_names_collide (h h' : QueryHandler W) q q' ctx qry w :
  queryKey (qh_T h') (qh_R h') = queryKey (qh_T h) (qh_R h) → qh_T h' ≠ qh_T h →
  RegisterQueryHandler h q = Returns q' →
  returns (RegisterQueryHandler h' q') = false ∧ unknown q' (queryKey (qh_T h') (qh_R h')) = None ∧
  ∃ text, QueryGateway (qh_T h') (qh_R h') q' ctx qry w = (Returns (zero_value (qh_R h'), Some (New text)), w).
Proof.
  intros Hk Hne. unfold RegisterQueryHandler. rewrite Hk. destruct (qb_handlers q !! _); [done|]. intros [= <-].
  unfold unknown, QueryGateway, query_handlerFor. cbn [qb_handlers]. rewrite !Hk, !lookup_insert_eq.
  split_and!; [done..|]. destruct (wrapQueryHandler_types h (qb_middlewares q)) as [HT _].
  rewrite bool_decide_false by congruence. by eexists.
Qed.
End properties.
