(* ===== verification/Telemetry.v ===== *)
(** * Telemetry: signals, options and what keeps them in order ([telemetry/telemetry.go], [config.go])

    The wrappers of package [telemetry] report through the OpenTelemetry API.
    What they report is here the sequence of the calls they make, each a
    [signal], next to the world of the program they wrap: the exporters
    behind the API are not modelled.  A span is its number in the order of
    the starts. *)
From S2P Require Import Prelude Core Context ProjStore.

(** ** Attributes *)

(** A string, an integer, a number of seconds, the text of an error and of a
    time *)
Inductive attr_value : Type :=
| AString (s : string)
| AInt64 (n : Z)
| ASeconds (d : duration)
| AText (e : error)
| ATime (t : time).

Definition KeyValue : Type := string * attr_value.

Definition AttrDBSystemName := "db.system.name".
Definition AttrCommandType := "eventsourcing.command.type".
Definition AttrAggregateID := "eventsourcing.aggregate.id".
Definition AttrStreamID := "eventsourcing.stream.id".
Definition AttrStreamVersion := "eventsourcing.stream.version".
Definition AttrEventType := "eventsourcing.event.type".
Definition AttrEventID := "eventsourcing.event.id".
Definition AttrEventCount := "eventsourcing.event.count".
Definition AttrEventGlobalPos := "eventsourcing.event.global_position".
Definition AttrEventStreamPos := "eventsourcing.event.stream_position".
Definition AttrCorrelationID := "eventsourcing.correlation.id".
Definition AttrCausationID := "eventsourcing.causation.id".
Definition AttrQueryType := "eventsourcing.query.type".
Definition AttrQueryID := "eventsourcing.query.id".
Definition AttrResult := "eventsourcing.result".
Definition AttrErrorType := "error.type".
Definition AttrLinkReason := "eventsourcing.link.reason".
Definition AttrErrorMessage := "eventsourcing.error.message".
Definition AttrProjectionName := "eventsourcing.projection.name".
Definition AttrProjectionSegment := "eventsourcing.projection.segment".
Definition AttrProjectionPosition := "eventsourcing.projection.position".
Definition AttrProjectionPhase := "eventsourcing.projection.phase".
Definition AttrAutomationName := "eventsourcing.automation.name".
Definition AttrAutomationPhase := "eventsourcing.automation.phase".
Definition AttrAutomationSegment := "eventsourcing.automation.segment".
Definition AttrEventStoreOperation := "eventsourcing.event_store.operation".

(** ** Instruments *)

(** The bucket boundaries of a histogram are in milliseconds. *)
Inductive instrument_kind : Type :=
| Float64Histogram (boundaries : list Z)
| Int64Counter
| Int64UpDownCounter
| Int64Gauge
| Int64ObservableGauge
| Int64ObservableCounter.

Record Instrument : Type := mkInstrument { i_name : string; i_kind : instrument_kind; i_unit : string }.

#[export] Instance instrument_kind_eq_dec : EqDecision instrument_kind.
Proof. solve_decision. Defined.
#[export] Instance Instrument_eq_dec : EqDecision Instrument.
Proof. solve_decision. Defined.

Definition CommandDuration := mkInstrument "eventsourcing.command.duration"
  (Float64Histogram [1; 5; 10; 25; 50; 100; 250; 500; 1000; 2500; 5000; 10000]) "s".
Definition CommandActive := mkInstrument "eventsourcing.command.active" Int64UpDownCounter "{command}".
Definition QueryDuration := mkInstrument "eventsourcing.query.duration"
  (Float64Histogram [1; 5; 10; 25; 50; 100; 250; 500; 1000; 2500; 5000]) "s".
Definition QueryActive := mkInstrument "eventsourcing.query.active" Int64UpDownCounter "{query}".
Definition EventHandlerDuration := mkInstrument "eventsourcing.event_handler.duration"
  (Float64Histogram [1; 5; 10; 25; 50; 100; 250; 500; 1000; 2500; 5000]) "s".
Definition EventStoreDuration := mkInstrument "eventsourcing.event_store.duration"
  (Float64Histogram [1; 5; 10; 25; 50; 100; 250; 500; 1000; 2500; 5000]) "s".
Definition EventStoreAppended := mkInstrument "eventsourcing.event_store.appended.events" Int64Counter "{event}".
Definition EventStoreLoaded := mkInstrument "eventsourcing.event_store.loaded.events" Int64Counter "{event}".
Definition ProjectionBatchDuration := mkInstrument "eventsourcing.projection.batch.duration"
  (Float64Histogram [1; 5; 10; 25; 50; 100; 250; 500; 1000; 2500; 5000; 10000]) "s".
Definition ProjectionClaims := mkInstrument "eventsourcing.projection.claims" Int64Counter "{claim}".
Definition ProjectionRebuilds := mkInstrument "eventsourcing.projection.rebuilds" Int64Counter "{rebuild}".
Definition ProjectionHeartbeats := mkInstrument "eventsourcing.projection.heartbeats" Int64Counter "{heartbeat}".
Definition ProjectionInstanceCount := mkInstrument "eventsourcing.projection.instance.count" Int64Gauge "{instance}".
Definition AutomationWorkDuration := mkInstrument "eventsourcing.automation.work.duration"
  (Float64Histogram [5; 10; 25; 50; 100; 250; 500; 1000; 2500; 5000; 10000; 30000; 60000]) "s".
Definition AutomationAcquisitions := mkInstrument "eventsourcing.automation.acquisitions" Int64Counter "{acquisition}".
Definition AutomationSegmentGrants := mkInstrument "eventsourcing.automation.segment.grants" Int64Counter "{segment}".
Definition AutomationSegmentWaiting := mkInstrument "eventsourcing.automation.segment.waiting" Int64Gauge "{segment}".
Definition AutomationSegmentLost := mkInstrument "eventsourcing.automation.segment.lost" Int64Counter "{segment}".
Definition ProjectionSegmentHeld := mkInstrument "eventsourcing.projection.segment.held" Int64Gauge "{segment}".

(** ** Signals *)
Inductive span_kind : Type := SpanKindInternal | SpanKindClient.

(** [codes.Ok], and [codes.Error] with the text of an error *)
Inductive span_status : Type := StatusOk | StatusError (err : error).

Record span_start : Type := mkStart {
  ss_name : string;
  ss_kind : span_kind;
  ss_parent : option Z;
  ss_attrs : list KeyValue;
  ss_links : list (Z * list KeyValue);
  ss_timestamp : option time;
}.

Inductive measure : Type := Added (n : Z) | RecordedInt (n : Z) | RecordedSeconds (d : duration).

(** A measurement is recorded in the context of a span. *)
Inductive signal : Type :=
| Started (span : Z) (s : span_start)
| SetAttributes (span : Z) (attrs : list KeyValue)
| SetStatus (span : Z) (st : span_status)
| RecordError (span : Z) (err : error)
| AddEvent (span : Z) (name : string) (attrs : list KeyValue)
| Ended (span : Z)
| Measured (i : Instrument) (span : option Z) (m : measure) (attrs : list KeyValue).

(** A world with what was reported from it *)
Record Tel (W : Type) : Type := mkTel { tel_world : W; tel_spans : Z; tel_signals : list signal }.
Arguments mkTel {W}. Arguments tel_world {W}. Arguments tel_spans {W}. Arguments tel_signals {W}.

(** [time.Now()] *)
Class WallClock (W : Type) : Type := time_of : W → time.

(** [trace.SpanFromContext]; without a span in [ctx] it gives one that drops
    what it is told. *)
Definition SpanFromContext (ctx : values) : option Z :=
  match ctx !! spanKey with Some (VSpan id) => Some id | _ => None end.

Section signals.
Context {W : Type}.

Definition emits (ss : list signal) (t : Tel W) : Tel W := mkTel (tel_world t) (tel_spans t) (tel_signals t ++ ss).
Definition emit (s : signal) : Tel W → Tel W := emits [s].

Definition tracer_Start (ctx : values) (name : string) (kind : span_kind) (attrs : list KeyValue)
    (links : list (Z * list KeyValue)) (at_ : option time) (t : Tel W) : values * Z * Tel W :=
  let id := tel_spans t in
  (WithValue ctx spanKey (VSpan id), id,
   mkTel (tel_world t) (id + 1) (tel_signals t ++ [Started id (mkStart name kind (SpanFromContext ctx) attrs links at_)])).

Definition End_ (span : Z) : Tel W → Tel W := emit (Ended span).

(** [Add] of a counter, and [Record] of a gauge and of a histogram *)
Definition Add (i : Instrument) (ctx : values) (n : Z) (attrs : list KeyValue) : signal :=
  Measured i (SpanFromContext ctx) (Added n) attrs.
Definition Record_ (i : Instrument) (ctx : values) (n : Z) (attrs : list KeyValue) : signal :=
  Measured i (SpanFromContext ctx) (RecordedInt n) attrs.
Definition Record_seconds (i : Instrument) (ctx : values) (d : duration) (attrs : list KeyValue) : signal :=
  Measured i (SpanFromContext ctx) (RecordedSeconds d) attrs.

(** [trace.SpanFromContext(ctx).AddEvent(name, ...)] *)
Definition add_event (ctx : values) (name : string) (attrs : list KeyValue) (t : Tel W) : Tel W :=
  match SpanFromContext ctx with Some span => emit (AddEvent span name attrs) t | None => t end.

Definition now `{WallClock W} (t : Tel W) : time := time_of (tel_world t).
(** [time.Since(start)] *)
Definition since `{WallClock W} (start : time) (t : Tel W) : duration := time_Sub (now t) start.
End signals.

(** ** Options *)
Record config : Type := mkConfig {
  Operation : string;
  GetOperation : option (values → string → string);
  Attributes : list KeyValue;
  GetAttributes : option (values → list KeyValue);
}.

Definition Option : Type := config → config.

Definition WithOperation (operation : string) : Option := λ o,
  mkConfig operation (GetOperation o) (Attributes o) (GetAttributes o).
Definition WithOperationGetter (fn : values → string → string) : Option := λ o,
  mkConfig (Operation o) (Some fn) (Attributes o) (GetAttributes o).
Definition WithAttributes (attrs : list KeyValue) : Option := λ o,
  mkConfig (Operation o) (GetOperation o) attrs (GetAttributes o).
Definition WithAttributeGetter (fn : values → list KeyValue) : Option := λ o,
  mkConfig (Operation o) (GetOperation o) (Attributes o) (Some fn).

(** The zero [config], with the options applied in their order *)
Definition configure (options : list Option) : config := foldl (λ c o, o c) (mkConfig "" None [] None) options.

(** The name of an endpoint's span: the default, the fixed name, or what the
    getter makes of it *)
Definition span_name (cfg : config) (ctx : values) (default_ : string) : string :=
  let operation := if bool_decide (Operation cfg ≠ "") then Operation cfg else default_ in
  match GetOperation cfg with
  | Some get => let op := get ctx operation in if bool_decide (op ≠ "") then op else operation
  | None => operation
  end.

(** [append(attrs, cfg.GetAttributes(ctx)...)] *)
Definition got_attributes (cfg : config) (ctx : values) : list KeyValue :=
  match GetAttributes cfg with Some get => get ctx | None => [] end.

(** [toInt64] of [telemetry/projection.go]: a position as a metric, saturating *)
Definition toInt64 (v : Z) : Z := Z.min v max_int64.

(** ** [errorType] *)
Definition errorType (err : error) : string :=
  if bool_decide (is_Some (errors_As is_Conflict err)) then "stream_revision_conflict"
  else if errors_Is err ErrStreamExists then "stream_exists"
  else if errors_Is err ErrStreamNotFound then "stream_not_found"
  else if errors_Is err context_DeadlineExceeded then "deadline_exceeded"
  else if errors_Is err context_Canceled then "canceled"
  else "_OTHER".

Definition result_attr (result : string) : KeyValue := (AttrResult, AString result).
Definition errorType_attr (err : error) : KeyValue := (AttrErrorType, AString (errorType err)).

(** [AttrResult] and, on a failure, [AttrErrorType] *)
Definition outcome_attrs (err : option error) : list KeyValue :=
  match err with
  | None => [result_attr "success"]
  | Some e => [result_attr "failure"; errorType_attr e]
  end.

(** A span that failed: its error type, the error and the status *)
Definition fail_span (span : Z) (err : error) : list signal :=
  [SetAttributes span [errorType_attr err]; RecordError span err; SetStatus span (StatusError err)].

(** [endSpan] of [telemetry/projection_store.go] *)
Definition endSpan (span : Z) (err : option error) : list signal :=
  match err with
  | Some e => [RecordError span e; SetStatus span (StatusError e)]
  | None => [SetStatus span StatusOk]
  end.

(** ** Spans in order

    A reader of the signals that follows which spans are open: a span is
    started once, used while it is open, and ended once. *)
Definition span_used (s : signal) : option Z :=
  match s with
  | SetAttributes id _ | SetStatus id _ | RecordError id _ | AddEvent id _ _ => Some id
  | _ => None
  end.

Definition lifecycle_step (st : option (Z * gset Z)) (s : signal) : option (Z * gset Z) :=
  '(n, open) ← st;
  match s with
  | Started id _ => if bool_decide (id = n) then Some (n + 1, {[id]} ∪ open) else None
  | Ended id => if bool_decide (id ∈ open) then Some (n, open ∖ {[id]}) else None
  | _ => match span_used s with
         | Some id => if bool_decide (id ∈ open) then Some (n, open) else None
         | None => Some (n, open)
         end
  end.

Definition lifecycle (ss : list signal) : option (Z * gset Z) := foldl lifecycle_step (Some (0, ∅)) ss.

(** The level of an instrument that is added to *)
Definition added (i : Instrument) (s : signal) : Z :=
  match s with Measured j _ (Added n) _ => if bool_decide (i = j) then n else 0 | _ => 0 end.
Definition in_flight (i : Instrument) (ss : list signal) : Z := foldr (λ s n, added i s + n) 0 ss.

Definition levels : Type := Instrument → Z.
Definition bump (i : Instrument) (n : Z) (lv : levels) : levels := λ j, lv j + (if bool_decide (j = i) then n else 0).

(** What was reported so far is in order, the spans of [S] are open, and the
    active counters stand at [lv]. *)
Record accounts {W} (S : gset Z) (lv : levels) (t : Tel W) : Prop := {
  ac_lifecycle : lifecycle (tel_signals t) = Some (tel_spans t, S);
  ac_known : ∀ id, id ∈ S → id < tel_spans t;
  ac_levels : ∀ i, i_kind i = Int64UpDownCounter → in_flight i (tel_signals t) = lv i;
}.

Definition ctx_open (ctx : values) (S : gset Z) : Prop := ∀ id, SpanFromContext ctx = Some id → id ∈ S.

(** A call that leaves the open spans and the active counters as it found
    them *)
Definition keeps {W A} (f : values → Tel W → A * Tel W) : Prop :=
  ∀ ctx t S lv, ctx_open ctx S → accounts S lv t → accounts S lv (f ctx t).2.

(** Signals that use spans of [S] and neither start nor end one nor touch an
    active counter *)
Definition quiet (S : gset Z) (s : signal) : Prop :=
  match s with
  | Started _ _ | Ended _ => False
  | Measured i _ (Added _) _ => i_kind i ≠ Int64UpDownCounter
  | Measured _ _ _ _ => True
  | SetAttributes id _ | SetStatus id _ | RecordError id _ | AddEvent id _ _ => id ∈ S
  end.

Section facts.
Context {W : Type}.
Implicit Types (t : Tel W) (S : gset Z) (lv : levels).

Lemma lifecycle_app ss ss' : lifecycle (ss ++ ss') = foldl lifecycle_step (lifecycle ss) ss'.
Proof. apply foldl_app. Qed.

Lemma in_flight_app i ss ss' : in_flight i (ss ++ ss') = in_flight i ss + in_flight i ss'.
Proof. induction ss as [|s ss IH]; cbn; [done|]. unfold in_flight in *. rewrite IH. lia. Qed.

Lemma accounts_emits S lv t ss : Forall (quiet S) ss → accounts S lv t → accounts S lv (emits ss t).
Proof.
  intros Hq [Hl Hk Hv]. split; cbn [emits tel_signals tel_spans]; [|done|].
  - rewrite lifecycle_app, Hl. clear Hl. induction Hq as [|s ss Hs _ IH]; [done|]. cbn [foldl].
    replace (lifecycle_step _ s) with (Some (tel_spans t, S)); [done|].
    destruct s; cbn in Hs |- *; try done; by rewrite bool_decide_true.
  - intros i Hi. rewrite in_flight_app, Hv by done. enough (in_flight i ss = 0) by lia.
    induction Hq as [|s ss Hs _ IH]; [done|]. cbn [in_flight foldr]. fold (in_flight i ss). rewrite IH.
    destruct s; cbn in Hs |- *; try done. destruct m; try done. by rewrite bool_decide_false by (by intros ->).
Qed.

Lemma accounts_emit S lv t s : quiet S s → accounts S lv t → accounts S lv (emit s t).
Proof. intros H. by apply accounts_emits, list.Forall_singleton. Qed.

Lemma accounts_Add S lv t i ctx n attrs : accounts S lv t → accounts S (bump i n lv) (emit (Add i ctx n attrs) t).
Proof.
  intros [Hl Hk Hv]. split; cbn [emit emits tel_signals tel_spans]; [by rewrite lifecycle_app, Hl|done|].
  intros j Hj. rewrite in_flight_app, Hv by done. cbn. unfold bump. lia.
Qed.

Lemma accounts_levels S lv lv' t : (∀ i, lv i = lv' i) → accounts S lv t → accounts S lv' t.
Proof. intros Heq [? ? Hv]. split; [done..|]. intros i Hi. by rewrite <- Heq, Hv. Qed.

Lemma accounts_bump_back S lv t i n : accounts S (bump i (-n) (bump i n lv)) t → accounts S lv t.
Proof. apply accounts_levels. intros j. unfold bump. destruct (bool_decide _); lia. Qed.

Lemma accounts_start S lv t ctx name kind attrs links at_ ctx' id t' :
  accounts S lv t → tracer_Start ctx name kind attrs links at_ t = (ctx', id, t') →
  accounts ({[id]} ∪ S) lv t' ∧ id ∉ S ∧ ctx_open ctx' ({[id]} ∪ S) ∧ tel_world t' = tel_world t.
Proof.
  intros [Hl Hk Hv] [= <- <- <-]. split_and!; [split; cbn [tel_signals tel_spans]| | |done].
  - rewrite lifecycle_app, Hl. cbn. by rewrite bool_decide_true.
  - intros id [->%elem_of_singleton|Hid]%elem_of_union; [lia|]. specialize (Hk id Hid). lia.
  - intros i Hi. rewrite in_flight_app, Hv by done. cbn. lia.
  - intros Hin. specialize (Hk _ Hin). lia.
  - intros id. unfold SpanFromContext, WithValue. rewrite lookup_insert_eq. intros [= <-]. set_solver.
Qed.

Lemma accounts_End S lv t id : id ∉ S → accounts ({[id]} ∪ S) lv t → accounts S lv (End_ id t).
Proof.
  intros Hid [Hl Hk Hv]. split; cbn [End_ emit emits tel_signals tel_spans].
  - rewrite lifecycle_app, Hl. cbn. rewrite bool_decide_true by set_solver. do 2 f_equal. set_solver.
  - intros j Hj. apply Hk. set_solver.
  - intros i Hi. rewrite in_flight_app, Hv by done. cbn. lia.
Qed.

Lemma accounts_add_event S lv t ctx name attrs :
  ctx_open ctx S → accounts S lv t → accounts S lv (add_event ctx name attrs t).
Proof.
  intros Hc Ha. unfold add_event. destruct (SpanFromContext ctx) as [id|] eqn:Hs; [|done].
  apply accounts_emit; [|done]. by apply Hc.
Qed.

(** A call inside a fresh span, next to which [i] went up *)
Lemma keeps_in_span {A} (f : values → Tel W → A * Tel W) ctx t S lv name kind attrs links at_ ctx' id t1 i n kvs a t2 :
  keeps f → accounts S lv t → tracer_Start ctx name kind attrs links at_ t = (ctx', id, t1) →
  f ctx' (emit (Add i ctx' n kvs) t1) = (a, t2) → id ∉ S ∧ accounts ({[id]} ∪ S) (bump i n lv) t2.
Proof.
  intros Hk Ha Hs Hf. destruct (accounts_start _ _ _ _ _ _ _ _ _ _ _ _ Ha Hs) as (Ha1 & Hid & Hc & _).
  split; [done|]. pose proof (Hk ctx' _ _ _ Hc (accounts_Add _ _ _ i ctx' n kvs Ha1)) as H. by rewrite Hf in H.
Qed.

(** The deferred calls that undo this *)
Lemma accounts_deferred S lv t id i ctx n kvs :
  id ∉ S → accounts ({[id]} ∪ S) (bump i n lv) t → accounts S lv (End_ id (emit (Add i ctx (-n) kvs) t)).
Proof. intros Hid Ha. apply accounts_End; [done|]. by eapply accounts_bump_back, accounts_Add. Qed.

Lemma endSpan_quiet S id err : id ∈ S → Forall (quiet S) (endSpan id err).
Proof. destruct err; by repeat constructor. Qed.

Lemma accounts_empty (w : W) : accounts ∅ (λ _, 0) (mkTel w 0 []).
Proof. split; [done|set_solver|done]. Qed.
End facts.

(** A signal that uses an open span, or measures *)
Ltac quiet_tac := repeat first [apply list.Forall_nil; exact I | apply list.Forall_cons; split]; cbn; first [done | set_solver].

(** ** What the program sees

    A call over the reporting world does to the program's world, and returns,
    what a call over the program's world does. *)
Definition erases {W A} (f : values → Tel W → A * Tel W) (f0 : values → W → A * W) : Prop :=
  ∀ ctx t, ((f ctx t).1, tel_world (f ctx t).2) = f0 ctx (tel_world t).

(** A call that does not look at what the wrappers put in its context: the
    keys are of private types. *)
Definition oblivious {W A} (f0 : values → W → A * W) : Prop :=
  ∀ ctx w v, f0 (WithValue ctx spanKey v) w = f0 ctx w ∧ f0 (WithValue ctx leaseKey v) w = f0 ctx w.

Lemma erases_run {W A} (f : values → Tel W → A * Tel W) f0 ctx t a t' :
  erases f f0 → f ctx t = (a, t') → f0 ctx (tel_world t) = (a, tel_world t').
Proof. intros He Hf. rewrite <- He. by rewrite Hf. Qed.

Lemma erases_in_span {W A} (f : values → Tel W → A * Tel W) f0 ctx v t t1 a t2 :
  erases f f0 → oblivious f0 → f (WithValue ctx spanKey v) t1 = (a, t2) → tel_world t1 = tel_world t →
  f0 ctx (tel_world t) = (a, tel_world t2).
Proof.
  intros He Ho Hf Hw. rewrite <- (proj1 (Ho ctx (tel_world t) v)), <- Hw. by eapply erases_run.
Qed.

Lemma add_event_world {W} ctx name attrs (t : Tel W) : tel_world (add_event ctx name attrs t) = tel_world t.
Proof. unfold add_event. by destruct (SpanFromContext ctx). Qed.

(** ** The error types *)
Definition error_types : list string :=
  ["stream_revision_conflict"; "stream_exists"; "stream_not_found"; "deadline_exceeded"; "canceled"; "_OTHER"].

Lemma errorType_known err : errorType err ∈ error_types.
Proof. unfold errorType, error_types. repeat case_match; set_solver. Qed.

(** ** Code that reports nothing *)
Definition silent {W A} (f0 : values → W → A * W) : values → Tel W → A * Tel W := λ ctx t,
  let '(a, w) := f0 ctx (tel_world t) in (a, mkTel w (tel_spans t) (tel_signals t)).

Lemma silent_erases {W A} (f0 : values → W → A * W) : erases (silent f0) f0.
Proof. intros ctx t. unfold silent. by destruct (f0 ctx (tel_world t)). Qed.

Lemma silent_keeps {W A} (f0 : values → W → A * W) : keeps (silent f0).
Proof. intros ctx t S lv _ [? ? ?]. unfold silent. by destruct (f0 ctx (tel_world t)). Qed.
