(* ===== verification/TelemetryHandlers.v ===== *)
(** * Telemetry of handlers ([telemetry/command_handler.go], [query_handler.go], [event_handler.go])

    Each wrapper starts a span, calls the handler in the span's context,
    records the outcome and ends the span; its deferred calls run when the
    handler panics too. *)
From S2P Require Import Prelude Core Context ProjStore CommandBus EventHandlers QueryBus Telemetry.

(** The propagator of the process: [Inject] gives the headers for the span of
    a context, [Extract] the span the headers name, if it is valid. *)
Class Propagator : Type := { Inject : values → gmap string string; Extract : gmap string string → option Z }.

(** A carrier with the headers of a context names that context's span, and a
    header is not empty. *)
Class PropagatorLaws (P : Propagator) : Prop := {
  inject_nonempty ctx : map_Forall (λ _ h, h ≠ "") (Inject ctx);
  extract_inject ctx id m : SpanFromContext ctx = Some id → Inject ctx ⊆ m → Extract m = Some id;
}.

Section handlers.
Context {W : Type} `{WallClock W, U : UUIDString}.

(** ** Commands *)
Definition handleCommand (ctx : values) (cfg : config) (commandType aggregateID : string) (attr : list KeyValue)
    (next : values → Tel W → handler_outcome * Tel W) (t : Tel W) : handler_outcome * Tel W :=
  let operation := span_name cfg ctx ("handle " +:+ commandType) in
  let '(ctx, span, t) := tracer_Start ctx operation SpanKindInternal attr [] None t in
  let typeAttr := (AttrCommandType, AString commandType) in
  let t := emit (Add CommandActive ctx 1 [typeAttr]) t in
  let deferred t := End_ span (emit (Add CommandActive ctx (-1) [typeAttr]) t) in
  let startTime := now t in
  match next ctx t with
  | (HPanics v, t) => (HPanics v, deferred t)
  | (HReturns result err, t) =>
    let duration := since startTime t in
    let streamID := (AttrStreamID, AString (res_StreamID result)) in
    let version := (AttrStreamVersion, AInt64 (int64 (NextExpectedVersion result))) in
    let t := emit (SetAttributes span [streamID; version]) t in
    let '(metricAttrs, t) :=
      match err with
      | None => ([typeAttr; result_attr "success"], emit (SetStatus span StatusOk) t)
      | Some e =>
        match errors_As is_Conflict e, errors_As is_BusinessRule e with
        | None, Some cause =>
          let message := (AttrErrorMessage, AText cause) in
          ([typeAttr; result_attr "rejected"],
           emits [SetAttributes span [message]; SetStatus span StatusOk;
                  AddEvent span "business_rule_violation"
                    [typeAttr; (AttrAggregateID, AString aggregateID); streamID; version; message]] t)
        | conflict, _ =>
          ([typeAttr; result_attr "failure"; errorType_attr e],
           emits (match conflict with Some _ => [AddEvent span "concurrency_conflict" [streamID]] | None => [] end ++
                  [SetAttributes span [errorType_attr e]; SetStatus span (StatusError e); RecordError span e]) t)
        end
      end in
    (HReturns result err, deferred (emit (Record_seconds CommandDuration ctx duration metricAttrs) t))
  end.

Definition CommandTelemetry (options : list Option) : CommandHandlerMiddleware (W := Tel W) :=
  let cfg := configure options in λ next ctx cmd t,
  let attr := [(AttrCommandType, AString (cmd_CommandType cmd)); (AttrAggregateID, AString (cmd_AggregateID cmd));
               (AttrCorrelationID, AString (CorrelationIDFromContext ctx));
               (AttrCausationID, AString (CausationIDFromContext ctx))] ++ Attributes cfg ++ got_attributes cfg ctx in
  handleCommand ctx cfg (cmd_CommandType cmd) (cmd_AggregateID cmd) attr (λ ctx, next ctx cmd) t.

Definition WithCommandTelemetry (next : CommandHandler (Tel W)) (options : list Option) : CommandHandler (Tel W) :=
  let cfg := configure options in λ ctx cmd t,
  let attr := Attributes cfg ++
              [(AttrAggregateID, AString (cmd_AggregateID cmd)); (AttrCommandType, AString (cmd_CommandType cmd));
               (AttrCorrelationID, AString (CorrelationIDFromContext ctx));
               (AttrCausationID, AString (CausationIDFromContext ctx))] ++ got_attributes cfg ctx in
  handleCommand ctx cfg (cmd_CommandType cmd) (cmd_AggregateID cmd) attr (λ ctx, next ctx cmd) t.

(** ** Queries *)

(** The printed name of a dynamic type, and [ID] of a query: of Go's runtime
    and of the application. *)
Context (printed : string → string) (query_ID : string * string → string).

Definition queryTypeName (qry : Value) : string :=
  match qry with Some (id, _) => trim_star (printed id) | None => "<nil>" end.

(** [qry.ID()] of a nil query panics. *)
Definition handleQuery (ctx : values) (cfg : config) (queryType : string) (qry : Value)
    (next : values → Tel W → outcome (Value * option error) * Tel W) (t : Tel W) :
    outcome (Value * option error) * Tel W :=
  match qry with
  | None => (Panics "nil pointer dereference", t)
  | Some q =>
    let attr := [(AttrQueryType, AString queryType); (AttrQueryID, AString (query_ID q))] ++
                Attributes cfg ++ got_attributes cfg ctx in
    let operation := span_name cfg ctx ("handle " +:+ queryType) in
    let '(ctx, span, t) := tracer_Start ctx operation SpanKindInternal attr [] None t in
    let typeAttr := (AttrQueryType, AString queryType) in
    let t := emit (Add QueryActive ctx 1 [typeAttr]) t in
    let deferred t := End_ span (emit (Add QueryActive ctx (-1) [typeAttr]) t) in
    let startTime := now t in
    match next ctx t with
    | (Panics p, t) => (Panics p, deferred t)
    | (Returns (result, err), t) =>
      let duration := since startTime t in
      let t := match err with
               | Some e => emits [SetAttributes span [errorType_attr e]; SetStatus span (StatusError e); RecordError span e] t
               | None => emit (SetStatus span StatusOk) t
               end in
      (Returns (result, err),
       deferred (emit (Record_seconds QueryDuration ctx duration (typeAttr :: outcome_attrs err)) t))
    end
  end.

Definition QueryTelemetry (options : list Option) : QueryHandlerMiddleware (Tel W) :=
  let cfg := configure options in λ next ctx qry t,
  handleQuery ctx cfg (queryTypeName qry) qry (λ ctx, next ctx qry) t.

Definition WithQueryTelemetry (next : QueryHandler (Tel W)) (options : list Option) : QueryHandler (Tel W) :=
  let cfg := configure options in
  mkQueryHandler (qh_T next) (qh_R next) (λ ctx qry t,
    handleQuery ctx cfg (queryTypeName qry) qry (λ ctx, HandleQuery next ctx qry) t).

(** ** Events *)

(** [Handle] of an event handler that may panic, as a wrapper does on a nil
    event *)
Definition HandleFunc : Type := values → option Event → Tel W → outcome (option error) * Tel W.

(** [leaseAttrs] of [telemetry/projection_store.go] *)
Definition leaseAttrs (l : Lease) : list KeyValue :=
  [(AttrProjectionName, AString (l_Name l)); (AttrProjectionSegment, AInt64 (l_Segment l))].

Definition lease_of (ctx : values) : option Lease :=
  match ctx !! leaseKey with Some (VLease l) => Some l | _ => None end.

(** The metadata that can be a header *)
Definition carrier (md : metadata) : gmap string string :=
  match md with
  | Some m => omap (λ v, match v with AnyString s => if bool_decide (s = "") then None else Some s | AnyOther _ _ => None end) m
  | None => ∅
  end.

Definition WithEventTelemetry `{Propagator} (next : HandleFunc) (options : list Option) : HandleFunc :=
  let cfg := configure options in λ ctx event t,
  match event with
  | None => (Panics "nil pointer dereference", t)
  | Some ev =>
    let eventType := (AttrEventType, AString (ev_EventType ev)) in
    let lease := lease_of ctx in
    let attr := [eventType; (AttrEventID, AString (uuid_String (EventIDFromContext ctx)));
                 (AttrEventGlobalPos, AInt64 (int64 (GlobalPositionFromContext ctx)));
                 (AttrEventStreamPos, AInt64 (int64 (VersionFromContext ctx)));
                 (AttrStreamID, AString (StreamIDFromContext ctx));
                 (AttrCorrelationID, AString (CorrelationIDFromContext ctx))] ++
                match lease with Some l => leaseAttrs l | None => [] end ++
                Attributes cfg ++ got_attributes cfg ctx in
    let metricAttr := eventType :: match lease with Some l => [(AttrProjectionName, AString (l_Name l))] | None => [] end in
    let links := match Extract (carrier (MetadataFromContext ctx)) with
                 | Some original => [(original, [(AttrLinkReason, AString "event.consumed.from.stream")])]
                 | None => []
                 end in
    let operation := span_name cfg ctx "process event" in
    let '(ctx, span, t) := tracer_Start ctx operation SpanKindInternal attr links None t in
    let startTime := now t in
    match next ctx event t with
    | (Panics p, t) => (Panics p, End_ span t)
    | (Returns err, t) =>
      let duration := since startTime t in
      let '(result, t) :=
        match err with
        | None => ([result_attr "success"], emit (SetStatus span StatusOk) t)
        | Some e =>
          match errors_As is_Skipped e with
          | Some _ => ([result_attr "skipped"], emit (SetStatus span StatusOk) t)
          | None => ([result_attr "failure"; errorType_attr e],
              emits [SetAttributes span [errorType_attr e]; SetStatus span (StatusError e); RecordError span e] t)
          end
        end in
      (Returns err, End_ span (emit (Record_seconds EventHandlerDuration ctx duration (metricAttr ++ result)) t))
    end
  end.

(** A handler of [EventHandlers], which does not panic *)
Definition handle_func (h : EventHandler (Tel W)) : HandleFunc := λ ctx event t,
  let '(err, t) := Handle h ctx event t in (Returns err, t).
End handlers.
Arguments HandleFunc : clear implicits.

(** ** Proofs *)
Section facts.
Context {W : Type} `{WallClock W, U : UUIDString}.
Implicit Types (t : Tel W) (cfg : config).

(** *** The program sees its own handlers *)
Lemma handleCommand_erases cfg commandType aggregateID next next0 ctx attr t :
  erases next next0 → oblivious next0 →
  let r := handleCommand ctx cfg commandType aggregateID attr next t in
  (r.1, tel_world r.2) = next0 ctx (tel_world t).
Proof.
  intros He Ho. unfold handleCommand. cbn [tracer_Start]. destruct (next _ _) as [o t2] eqn:Hn.
  rewrite (erases_in_span _ _ _ _ t _ _ _ He Ho Hn eq_refl).
  destruct o as [result [e|]|v]; [|done|done].
  by destruct (errors_As is_Conflict e), (errors_As is_BusinessRule e).
Qed.

Lemma handleQuery_erases qid cfg queryType q next next0 ctx t :
  erases next next0 → oblivious next0 →
  let r := handleQuery qid ctx cfg queryType (Some q) next t in
  (r.1, tel_world r.2) = next0 ctx (tel_world t).
Proof.
  intros He Ho. unfold handleQuery. cbn [tracer_Start]. destruct (next _ _) as [o t2] eqn:Hn.
  rewrite (erases_in_span _ _ _ _ t _ _ _ He Ho Hn eq_refl). by destruct o as [[result [e|]]|v].
Qed.

Lemma event_erases `{Propagator} (next : HandleFunc W) next0 options ev :
  erases (λ ctx, next ctx (Some ev)) next0 → oblivious next0 →
  erases (λ ctx, WithEventTelemetry next options ctx (Some ev)) next0.
Proof.
  intros He Ho ctx t. unfold WithEventTelemetry. cbn [tracer_Start]. destruct (next _ _ _) as [o t2] eqn:Hn.
  rewrite (erases_in_span _ _ _ _ t _ _ _ He Ho Hn eq_refl).
  destruct o as [[e|]|v]; [|done|done]. by destruct (errors_As is_Skipped e).
Qed.

(** *** Spans and active counters *)
Lemma handleCommand_keeps cfg commandType aggregateID attr next ctx t S lv :
  keeps next → accounts S lv t → accounts S lv (handleCommand ctx cfg commandType aggregateID attr next t).2.
Proof.
  intros Hk Ha. unfold handleCommand. destruct (tracer_Start _ _ _ _ _ _ _) as [[ctx' id] t1] eqn:Hs.
  destruct (next _ _) as [o t2] eqn:Hn. destruct (keeps_in_span _ _ _ _ _ _ _ _ _ _ _ _ _ _ _ _ _ _ Hk Ha Hs Hn) as [Hid Ha2].
  destruct o as [result [e|]|v]; cbn; [|apply (accounts_deferred _ _ _ _ _ _ 1); [done|]..].
  2,3: repeat (apply accounts_emit; [cbn; set_solver|]); done.
  destruct (errors_As is_Conflict e), (errors_As is_BusinessRule e); cbn;
    apply (accounts_deferred _ _ _ _ _ _ 1); try done;
    (apply accounts_emit; [done|]); (apply accounts_emits; [quiet_tac|]); (apply accounts_emit; [cbn; set_solver|]); done.
Qed.

Lemma handleQuery_keeps qid cfg queryType qry next :
  keeps next → keeps (λ ctx t, handleQuery qid ctx cfg queryType qry next t).
Proof.
  intros Hk ctx t S lv _ Ha. unfold handleQuery. destruct qry as [q|]; [|done].
  destruct (tracer_Start _ _ _ _ _ _ _) as [[ctx' id] t1] eqn:Hs. destruct (next _ _) as [o t2] eqn:Hn.
  destruct (keeps_in_span _ _ _ _ _ _ _ _ _ _ _ _ _ _ _ _ _ _ Hk Ha Hs Hn) as [Hid Ha2].
  destruct o as [[result err]|p]; cbn; apply (accounts_deferred _ _ _ _ _ _ 1); try done.
  apply accounts_emit; [done|]. destruct err; [apply accounts_emits|apply accounts_emit]; try done; quiet_tac.
Qed.

Lemma event_keeps `{Propagator} (next : HandleFunc W) options event :
  keeps (λ ctx, next ctx event) → keeps (λ ctx, WithEventTelemetry next options ctx event).
Proof.
  intros Hk ctx t S lv _ Ha. unfold WithEventTelemetry. destruct event as [ev|]; [|done].
  destruct (tracer_Start _ _ _ _ _ _ _) as [[ctx' id] t1] eqn:Hs.
  destruct (accounts_start _ _ _ _ _ _ _ _ _ _ _ _ Ha Hs) as (Ha1 & Hid & Hc & _).
  specialize (Hk ctx' _ _ _ Hc Ha1). cbn beta in Hk. destruct (next _ _ _) as [o t2]. cbn in Hk.
  destruct o as [[e|]|p]; cbn; [destruct (errors_As is_Skipped e)| |by apply accounts_End];
    cbn; apply accounts_End; try done; (apply accounts_emit; [done|]); apply accounts_emits; try done; quiet_tac.
Qed.
End facts.

(** ** The properties *)
Section properties.
Context {W : Type} `{WallClock W, U : UUIDString, P : Propagator}.

(** A handler of a kind of message [M], over the reporting world, that does
    what [h0] does *)
Definition reports_on {M A} (h : values → M → Tel W → A * Tel W) (h0 : values → M → W → A * W) : Prop :=
  ∀ m, erases (λ ctx, h ctx m) (λ ctx, h0 ctx m) ∧ oblivious (λ ctx, h0 ctx m).

Definition keeps_all {M A} (h : values → M → Tel W → A * Tel W) : Prop := ∀ m, keeps (λ ctx, h ctx m).

(** C16: Telemetry changes nothing for the program: around a command, query or
    event handler that does not read the private context keys, every wrapper,
    for a query or event that is not nil, returns what the handler returns,
    panics as it panics, and leaves the program's world as it leaves it,
    whatever the options.  (On a nil query or event a wrapper panics itself.) *)
Theorem handlers_do_not_see_telemetry printed qid options
    (command : CommandHandler (Tel W)) command0 (query : QueryFunc (Tel W)) query0 (event : HandleFunc W) event0 :
  reports_on command command0 → reports_on query query0 → reports_on event event0 →
  (∀ ctx cmd t, let r := CommandTelemetry options command ctx cmd t in
     (r.1, tel_world r.2) = command0 ctx cmd (tel_world t) ∧
     (let r := WithCommandTelemetry command options ctx cmd t in
     (r.1, tel_world r.2) = command0 ctx cmd (tel_world t))) ∧
  (∀ ctx q t, let r := QueryTelemetry printed qid options query ctx (Some q) t in
     (r.1, tel_world r.2) = query0 ctx (Some q) (tel_world t) ∧
     (∀ T R, let r := HandleQuery (WithQueryTelemetry printed qid (mkQueryHandler T R query) options) ctx (Some q) t in
     (r.1, tel_world r.2) = query0 ctx (Some q) (tel_world t))) ∧
  (∀ ctx ev t, let r := WithEventTelemetry event options ctx (Some ev) t in
     (r.1, tel_world r.2) = event0 ctx (Some ev) (tel_world t)).
Proof.
  intros Hc Hq He. split_and!.
  - intros ctx cmd t. destruct (Hc cmd) as [Hce Hco].
    split; [by apply (handleCommand_erases _ _ _ _ _ _ _ _ Hce Hco)|by apply (handleCommand_erases _ _ _ _ _ _ _ _ Hce Hco)].
  - intros ctx q t. destruct (Hq (Some q)) as [Hqe Hqo].
    split; [|intros T R]; by apply (handleQuery_erases _ _ _ _ _ _ _ _ Hqe Hqo).
  - intros ctx ev t. destruct (He (Some ev)) as [Hee Heo]. by apply (event_erases _ _ options ev Hee Heo).
Qed.

(** C17: Around handlers that leave the spans and the in-flight counters as they
    found them, so do the wrappers of commands, queries and events, nested in
    any way and also when the handler panics: a span is started under a fresh
    number, used only while it is open and ended once, and what a wrapper
    added to an in-flight counter it takes off again. *)
Theorem handler_spans_end_once printed qid options
    (command : CommandHandler (Tel W)) (query : QueryFunc (Tel W)) (event : HandleFunc W) :
  keeps_all command → keeps_all query → keeps_all event →
  keeps_all (CommandTelemetry options command) ∧ keeps_all (WithCommandTelemetry command options) ∧
  keeps_all (QueryTelemetry printed qid options query) ∧
  (∀ T R, keeps_all (HandleQuery (WithQueryTelemetry printed qid (mkQueryHandler T R query) options))) ∧
  keeps_all (WithEventTelemetry event options).
Proof.
  intros Hc Hq He. split_and!; [..|by intros m; apply event_keeps].
  1,2: by intros m ctx t S lv _; apply handleCommand_keeps.
  - intros m. apply handleQuery_keeps, Hq.
  - intros T R m. apply handleQuery_keeps, Hq.
Qed.
End properties.
