(* ===== verification/TelemetryEvents.v ===== *)
(** * Telemetry of event stores ([telemetry/event_store.go])

    The wrapper of an event store: [Save] inside a span whose headers go into
    the events' metadata, a load whose span lasts as long as its iterator,
    and pages of the global log reported once they are read. *)
From S2P Require Import Prelude Core Iter Context ProjStore Log EventHandlers Telemetry TelemetryHandlers.

(** A [GlobalReader], and an [EventStore] with the iterators [It]; [Save]
    also gives the caller's slice as it leaves it. *)
Record GlobalReaderFns (W : Type) : Type := mkReaderFns {
  gr_ReadAll : values → Z → ReadOptions → W → (ReadResult * option error) * W;
  gr_Head : values → W → result error Z * W;
}.
Arguments mkReaderFns {W}. Arguments gr_ReadAll {W}. Arguments gr_Head {W}.

Definition SaveFunc (W : Type) : Type :=
  values → list Envelope → StreamState → W → (outcome (AppendResult * option error) * list Envelope) * W.

Record EventStoreFns (W It : Type) : Type := mkStoreFns {
  es_Save : SaveFunc W;
  es_LoadStream : values → string → W → outcome (result error It) * W;
  es_LoadStreamFrom : values → string → StreamState → W → outcome (result error It) * W;
  es_Close : W → option error * W;
  es_Reader : option (GlobalReaderFns W);
}.
Arguments mkStoreFns {W It}. Arguments es_Save {W It}. Arguments es_LoadStream {W It}.
Arguments es_LoadStreamFrom {W It}. Arguments es_Close {W It}. Arguments es_Reader {W It}.

(** ** The attributes of an operation *)
Definition dbSystem (cfg : config) : list KeyValue :=
  match list_find (λ kv : KeyValue, kv.1 = AttrDBSystemName) (Attributes cfg) with Some (_, kv) => [kv] | None => [] end.

Definition operation_attr (op : string) : KeyValue := (AttrEventStoreOperation, AString op).

Definition metricAttrs (cfg : config) (op : string) (err : option error) : list KeyValue :=
  operation_attr op :: outcome_attrs err ++ dbSystem cfg.

(** ** The headers of a span go into the events' metadata *)
Definition inject (headers : gmap string string) (ev : Envelope) : Envelope :=
  mkEnvelope (EventID ev) (StreamID ev) (Some ((AnyString <$> headers) ∪ default ∅ (Metadata ev)))
    (CorrelationID ev) (CausationID ev) (env_Event ev) (Version ev) (GlobalPosition ev) (OccurredAt ev).

Section store.
Context {W : Type} `{WallClock W, P : Propagator} (cfg : config).

Definition Save (next : SaveFunc (Tel W)) : SaveFunc (Tel W) := λ ctx events revision t,
  let streamID := match events with ev :: _ => StreamID ev | [] => "" end in
  match ToRawInt64 revision with
  | Panics p => ((Panics p, events), t)
  | Returns raw =>
    let spanAttrs := Attributes cfg ++
      [operation_attr "append"; (AttrStreamID, AString streamID); (AttrStreamVersion, AInt64 raw)] ++
      match events with
      | ev :: _ => [(AttrCorrelationID, AString (CorrelationID ev)); (AttrCausationID, AString (CausationID ev))]
      | [] => []
      end in
    let '(ctx, span, t) := tracer_Start ctx (span_name cfg ctx "append events") SpanKindClient spanAttrs [] None t in
    let events := inject (Inject ctx) <$> events in
    let start := now t in
    match next ctx events revision t with
    | ((Panics p, events), t) => ((Panics p, events), End_ span t)
    | ((Returns (result, err), events), t) =>
      let t := emit (Record_seconds EventStoreDuration ctx (since start t) (metricAttrs cfg "append" err)) t in
      let t := match err with
               | None => emit (Add EventStoreAppended ctx (zlen events) (dbSystem cfg)) t
               | Some e => emits (fail_span span e) t
               end in
      ((Returns (result, err), events), End_ span t)
    end
  end.

(** ** Loads *)

(** What the closures of a load share, with what they reported *)
Record load_state : Type := mkLoad { ls_inStore : duration; ls_eventCount : Z; ls_signals : list signal }.

(** The closure [done] *)
Definition load_done (spanCtx : values) (span : Z) (err : option error) (d : load_state) : load_state :=
  mkLoad (ls_inStore d) (ls_eventCount d)
    (ls_signals d ++ [SetAttributes span [(AttrEventCount, AInt64 (ls_eventCount d))];
                      Record_seconds EventStoreDuration spanCtx (ls_inStore d) (metricAttrs cfg "load" err)] ++
     match err with Some e => fail_span span e | None => [] end ++ [Ended span]).

Context {St : Type}.
(** The time as the source's captured state has it *)
Context (clock : St → time).

(** The closure that advances the source *)
Definition load_next (spanCtx : values) : IterFunc (Iterator St Envelope * load_state) Envelope := λ c '(src, d),
  let advancedAt := clock (it_state src) in
  let '(ok, c, src) := Next c src in
  let d := mkLoad (int64 (ls_inStore d + time_Sub (clock (it_state src)) advancedAt)) (ls_eventCount d) (ls_signals d) in
  match ok, Value src with
  | true, Some v =>
    (Ok v, c, (src, mkLoad (ls_inStore d) (int64 (ls_eventCount d + 1))
                      (ls_signals d ++ [Add EventStoreLoaded spanCtx 1 (dbSystem cfg)])))
  | _, _ => (Fail (Sentinel io_EOF), c, (src, d))
  end.

Definition load_iterator (spanCtx : values) (span : Z) (src : Iterator St Envelope) (inStore : duration) :
    Iterator (Iterator St Envelope * load_state) Envelope :=
  NewIteratorFunc (load_next spanCtx) (Some (wrap_close (Some (load_done spanCtx span)))) (src, mkLoad inStore 0 []).

Definition load (ctx : values) (attrs : list KeyValue)
    (open : values → Tel W → outcome (result error (Iterator St Envelope)) * Tel W) (t : Tel W) :
    outcome (result error (Iterator (Iterator St Envelope * load_state) Envelope)) * Tel W :=
  let '(spanCtx, span, t) :=
    tracer_Start ctx "load events" SpanKindClient (Attributes cfg ++ operation_attr "load" :: attrs) [] None t in
  let calledAt := now t in
  let '(r, t) := open spanCtx t in
  let inStore := since calledAt t in
  match r with
  | Panics p => (Panics p, t)
  | Returns (Fail e) => (Returns (Fail e), emits (ls_signals (load_done spanCtx span (Some e) (mkLoad inStore 0 []))) t)
  | Returns (Ok src) => (Returns (Ok (load_iterator spanCtx span src inStore)), t)
  end.

(** ** Pages of the global log *)
Definition ReadAll (next : values → Z → ReadOptions → Tel W → (ReadResult * option error) * Tel W) :
    values → Z → ReadOptions → Tel W → (ReadResult * option error) * Tel W := λ ctx after opts t,
  let startedAt := now t in
  let '((res, err), t) := next ctx after opts t in
  let n := zlen (rr_Events res) in
  let t := emit (Record_seconds EventStoreDuration ctx (since startedAt t) (metricAttrs cfg "read_all" err)) t in
  let t := match err with None => emit (Add EventStoreLoaded ctx n (dbSystem cfg)) t | Some _ => t end in
  let reported := match err with None => negb (n =? 0) | Some _ => true end in
  if reported then
    let '(_, span, t) := tracer_Start ctx "read all events" SpanKindClient
      (Attributes cfg ++ [operation_attr "read_all"; (AttrStreamVersion, AInt64 (toInt64 after)); (AttrEventCount, AInt64 n)])
      [] (Some startedAt) t in
    let t := match err with Some e => emits (fail_span span e) t | None => t end in
    ((res, err), End_ span t)
  else ((res, err), t).
End store.

(** ** [WithEventStoreTelemetry] *)
Definition WithEventStoreTelemetry {W St} `{WallClock W, P : Propagator} (clock : St → time)
    (next : EventStoreFns (Tel W) (Iterator St Envelope)) (options : list Option) :
    EventStoreFns (Tel W) (Iterator (Iterator St Envelope * load_state) Envelope) :=
  let cfg := configure options in
  mkStoreFns (Save cfg (es_Save next))
    (λ ctx id, load cfg clock ctx [(AttrStreamID, AString id)] (λ ctx, es_LoadStream next ctx id))
    (λ ctx id version t,
       match ToRawInt64 version with
       | Panics p => (Panics p, t)
       | Returns raw => load cfg clock ctx [(AttrStreamID, AString id); (AttrStreamVersion, AInt64 raw)]
                          (λ ctx, es_LoadStreamFrom next ctx id version) t
       end)
    (es_Close next)
    ((λ r, mkReaderFns (ReadAll cfg (gr_ReadAll r)) (gr_Head r)) <$> es_Reader next).

(** ** Proofs *)

(** *** Injecting headers *)
Lemma inject_metadata headers ev key :
  (default ∅ (Metadata (inject headers ev)) : gmap string any) !! key =
  match headers !! key with Some h => Some (AnyString h) | None => default ∅ (Metadata ev) !! key end.
Proof.
  cbn. rewrite lookup_union, lookup_fmap. destruct (headers !! key); cbn; [by destruct (default ∅ _ !! _)|].
  by destruct (default ∅ _ !! _).
Qed.

(** The headers a handler of the event reads back *)
Lemma carrier_inject headers ev : map_Forall (λ _ h, h ≠ "") headers → headers ⊆ carrier (Metadata (inject headers ev)).
Proof.
  intros Hne. apply map_subseteq_spec. intros key h Hh. unfold carrier. cbn.
  rewrite lookup_omap, lookup_union, lookup_fmap, Hh. cbn.
  rewrite union_Some_l. cbn. rewrite bool_decide_false; [done|]. by apply (Hne _ _ Hh).
Qed.

Section facts.
Context {W : Type} `{WallClock W, P : Propagator}.
Implicit Types (t : Tel W) (cfg : config).

(** *** Saves *)

Lemma Save_erases cfg next next0 ctx events revision raw t :
  (∀ events, erases (λ ctx, next ctx events revision) (λ ctx, next0 ctx events revision) ∧
             oblivious (λ ctx, next0 ctx events revision)) →
  ToRawInt64 revision = Returns raw →
  let headers := Inject (WithValue ctx spanKey (VSpan (tel_spans t))) in
  let r := Save cfg next ctx events revision t in
  (r.1, tel_world r.2) = next0 ctx (inject headers <$> events) revision (tel_world t).
Proof.
  intros Hn Hraw headers r. subst r. unfold Save. rewrite Hraw. cbn [tracer_Start]. fold headers.
  destruct (Hn (inject headers <$> events)) as [He Ho].
  destruct (next _ _ _ _) as [[o evs] t2] eqn:Hnext.
  rewrite (erases_in_span (λ ctx, next ctx (inject headers <$> events) revision) _ _ _ t _ _ _ He Ho Hnext eq_refl).
  by destruct o as [[result [e|]]|p].
Qed.

Lemma Save_keeps cfg next events revision :
  (∀ events, keeps (λ ctx, next ctx events revision)) → keeps (λ ctx, Save cfg next ctx events revision).
Proof.
  intros Hk ctx t S lv _ Ha. unfold Save. destruct (ToRawInt64 revision); [|done].
  destruct (tracer_Start _ _ _ _ _ _ _) as [[ctx' id] t1] eqn:Hs.
  destruct (accounts_start _ _ _ _ _ _ _ _ _ _ _ _ Ha Hs) as (Ha1 & Hid & Hc & _).
  specialize (Hk (inject (Inject ctx') <$> events) ctx' _ _ _ Hc Ha1). cbn beta in Hk.
  destruct (next _ _ _ _) as [[o evs] t2]. cbn in Hk.
  destruct o as [[result [e|]]|p]; cbn; apply accounts_End; try done; apply accounts_emits; try quiet_tac;
    by apply accounts_emit.
Qed.

(** *** Pages *)
Lemma ReadAll_erases cfg next next0 after opts :
  erases (λ ctx, next ctx after opts) next0 → erases (λ ctx, ReadAll cfg next ctx after opts) next0.
Proof.
  intros He ctx t. unfold ReadAll. pose proof (He ctx t) as Hn. cbn beta in Hn.
  destruct (next ctx after opts t) as [[res err] t1]. cbn in Hn. rewrite <- Hn.
  destruct err as [e|]; cbn; [done|]. by destruct (negb _).
Qed.

Lemma ReadAll_keeps cfg next after opts :
  keeps (λ ctx, next ctx after opts) → keeps (λ ctx, ReadAll cfg next ctx after opts).
Proof.
  intros Hk ctx t S lv Hc Ha. unfold ReadAll. specialize (Hk ctx t S lv Hc Ha). cbn beta in Hk.
  destruct (next ctx after opts t) as [[res err] t1]. cbn in Hk.
  set (t2 := match err with None => emit _ _ | Some _ => _ end).
  assert (accounts S lv t2) as Ha2.
  { unfold t2. destruct err; repeat (apply accounts_emit; [done|]); done. }
  destruct (match err with None => negb _ | Some _ => true end); [|done].
  destruct (tracer_Start _ _ _ _ _ _ t2) as [[ctx' id] t3] eqn:Hs.
  destruct (accounts_start _ _ _ _ _ _ _ _ _ _ _ _ Ha2 Hs) as (Ha3 & Hid & _ & _).
  apply accounts_End; [done|]. destruct err; [|done]. apply accounts_emits; [quiet_tac|done].
Qed.
End facts.

(** *** Loads *)
Section loads.
Context {St : Type} (cfg : config) (clock : St → time) (spanCtx : values) (span : Z).
Implicit Types (src : Iterator St Envelope) (it : Iterator (Iterator St Envelope * load_state) Envelope).

Definition loaded_signal : signal := Add EventStoreLoaded spanCtx 1 (dbSystem cfg).

(** What the end of a load of [n] events reports *)
Definition end_signals (inStore : duration) (n : nat) (err : option error) : list signal :=
  [SetAttributes span [(AttrEventCount, AInt64 (int64 (Z.of_nat n)))];
   Record_seconds EventStoreDuration spanCtx inStore (metricAttrs cfg "load" err)] ++
  match err with Some e => fail_span span e | None => [] end ++ [Ended span].

(** A caller advances and closes the iterator as it likes, and gets [n]
    items. *)
Inductive reads it0 : nat → Iterator (Iterator St Envelope * load_state) Envelope → Prop :=
| reads_start : reads it0 0 it0
| reads_item n it c c' it' : reads it0 n it → Next c it = (true, c', it') → reads it0 (S n) it'
| reads_end n it c c' it' : reads it0 n it → Next c it = (false, c', it') → reads it0 n it'
| reads_close n it : reads it0 n it → reads it0 n (Close it).2.

Definition load_inv (n : nat) it : Prop :=
  it_next it = load_next cfg clock spanCtx ∧
  it_close it = Some (wrap_close (Some (load_done cfg spanCtx span))) ∧
  let d := (it_state it).2 in
  ls_eventCount d = int64 (Z.of_nat n) ∧
  ls_signals d = replicate n loaded_signal ++ (if it_done it then end_signals (ls_inStore d) n (it_closeErr it) else []).

Lemma load_inv_close n it : load_inv n it → load_inv n (Close it).2.
Proof.
  intros Hi. unfold Close. destruct (it_done it) eqn:Hd; [done|].
  destruct Hi as (Hn & Hc & He & Hs). rewrite Hc. destruct (it_state it) as [src d]. cbn in *.
  rewrite Hd, app_nil_r in Hs. split_and!; [done..|]. cbn. rewrite Hs, He. done.
Qed.

Lemma load_inv_next n it c b c' it' :
  load_inv n it → Next c it = (b, c', it') → load_inv (if b then S n else n) it'.
Proof.
  intros Hi. unfold Next, finish. destruct (it_done it) eqn:Hd; [by intros [= <- _ <-]|].
  destruct (ctx_Err c) as [[e|] c1].
  { intros [= <- _ <-]. apply load_inv_close. by destruct Hi as (? & ? & ? & ?). }
  pose proof Hi as (Hn & Hc & He & Hs). rewrite Hn. unfold load_next. rewrite Hd, app_nil_r in Hs.
  destruct (it_state it) as [src d] eqn:Hst. cbn in He, Hs.
  destruct (Next c1 src) as [[ok c2] src'] eqn:HN. destruct ok; [destruct (Value src') as [v|]|].
  - intros [= <- _ <-]. unfold load_inv. cbn. split_and!; [done..| |].
    + rewrite He. unfold int64, two64. rewrite Nat2Z.inj_succ.
      set (a := (Z.of_nat n + 9223372036854775808) `mod` _).
      replace (a - 9223372036854775808 + 1 + 9223372036854775808) with (a + 1) by lia. unfold a.
      rewrite Zplus_mod_idemp_l. do 2 f_equal. lia.
    + rewrite Hd, Hs, app_nil_r. by rewrite <- replicate_cons_app.
  - intros [= <- _ <-]. apply load_inv_close. split_and!; cbn; try done. by rewrite Hd, Hs, app_nil_r.
  - intros [= <- _ <-]. apply load_inv_close. split_and!; cbn; try done. by rewrite Hd, Hs, app_nil_r.
Qed.

Lemma reads_inv src inStore n it : reads (load_iterator cfg clock spanCtx span src inStore) n it → load_inv n it.
Proof.
  induction 1 as [|n it c c' it' _ IH HN|n it c c' it' _ IH HN|n it _ IH].
  - by split_and!.
  - by apply (load_inv_next _ _ _ _ _ _ IH HN).
  - by apply (load_inv_next _ _ _ _ _ _ IH HN).
  - by apply load_inv_close.
Qed.

(** Between two items *)
Definition load_reading src (d : load_state) (cur : option Envelope) : Iterator (Iterator St Envelope * load_state) Envelope :=
  mkIterator (load_next cfg clock spanCtx) (Some (wrap_close (Some (load_done cfg spanCtx span)))) (src, d) cur None None false.

Lemma load_collect fuel src src' d cur vs c :
  (∀ st, (it_next src None st).1.2 = None) → collect fuel None src = Some (vs, c, src') →
  ∃ it, collect fuel None (load_reading src d cur) = Some (vs, None, it) ∧ Err it = Err src' ∧ it_closeErr it = Err src' ∧ it_done it = true.
Proof.
  revert src d cur vs. induction fuel as [|fuel IH]; intros src d cur vs Hctx; [done|].
  cbn [collect]. destruct (Next None src) as [[b c1] src1] eqn:HN.
  destruct (Next_None_ctx _ _ _ _ Hctx HN) as [-> Hnext].
  unfold Next at 1; cbn [load_reading it_done ctx_Err it_next it_state load_next]. rewrite HN.
  destruct b.
  - destruct (Next_true_value _ _ _ _ HN) as [v Hv]. rewrite Hv.
    destruct (collect fuel None src1) as [[[vs1 c2] it2]|] eqn:Hc; [|done]. intros ?; simplify_eq/=.
    match goal with |- context [set_current v (set_state (src1, ?d') _)] =>
      change (set_current v (set_state (src1, d') (load_reading src d cur))) with (load_reading src1 d' (Some v));
      destruct (IH src1 d' (Some v) vs1) as (it & -> & Herr & Hce & Hdone); [by rewrite Hnext|done|]
    end. by exists it.
  - intros ?; simplify_eq/=. eexists. split; [done|]. cbn. split; [|done].
    unfold Err at 1; cbn. by destruct (Err _).
Qed.

Lemma collect_reads fuel c it0 n it vs c' it' :
  reads it0 n it → collect fuel c it = Some (vs, c', it') → reads it0 (n + length vs) it'.
Proof.
  revert c n it vs. induction fuel as [|fuel IH]; intros c n it vs Hr; [done|]. cbn [collect].
  destruct (Next c it) as [[b c1] it1] eqn:HN. destruct b.
  - destruct (Value it1); [|done]. destruct (collect fuel c1 it1) as [[[vs1 c2] it2]|] eqn:Hc; [|done].
    intros [= <- <- <-]. cbn [length]. rewrite Nat.add_succ_r. change (S (n + length vs1)) with (S n + length vs1)%nat.
    eapply IH; [|done]. by eapply reads_item.
  - intros [= <- <- <-]. cbn. rewrite Nat.add_0_r. by eapply reads_close, reads_end.
Qed.
End loads.

(** ** The properties *)
Section properties.
Context {W St : Type} `{WallClock W, P : Propagator}.
Implicit Types (t : Tel W) (options : list Option).

(** C19: However a caller mixes advancing and closing a traced load, it reports
    one loaded event for each event it returned and nothing else until it
    ends, and then, once, the number of events, one duration with the outcome,
    the error if there was one, and the end of its span. *)
Theorem load_span_covers_the_load cfg (clock : St → time) ctx attrs open t it t1 n it' :
  load cfg clock ctx attrs open t = (Returns (Ok it), t1) → reads it n it' →
  let span := tel_spans t in
  let spanCtx := WithValue ctx spanKey (VSpan span) in
  let d := (it_state it').2 in
  ls_signals d = replicate n (loaded_signal cfg spanCtx) ++
    (if it_done it' then end_signals cfg spanCtx span (ls_inStore d) n (it_closeErr it') else []).
Proof.
  unfold load. cbn [tracer_Start]. destruct (open _ _) as [[[src|e]|p] t2]; [|done..]. intros [= <- <-] Hr.
  apply (reads_inv cfg clock _ _ _ _ _ _ Hr).
Qed.

(** A traced load yields the events of the store's iterator, ends with its error,
    and has reported that many events. *)
Theorem traced_load_reads_the_stream cfg (clock : St → time) ctx attrs open t src t1 fuel vs e src' :
  open (WithValue ctx spanKey (VSpan (tel_spans t)))
    (tracer_Start ctx "load events" SpanKindClient (Attributes cfg ++ operation_attr "load" :: attrs) [] None t).2 =
    (Returns (Ok src), t1) →
  (∀ st, (it_next src None st).1.2 = None) → All fuel None src = Some (vs, e, src') →
  ∃ it it', load cfg clock ctx attrs open t = (Returns (Ok it), t1) ∧ All fuel None it = Some (vs, e, it') ∧
    it_done it' = true ∧ it_closeErr it' = e ∧ reads it (length vs) it'.
Proof.
  intros Ho Hctx. unfold All. destruct (collect fuel None src) as [[[vs1 c] src1]|] eqn:Hc; [|done].
  intros [= -> <- ->]. unfold load, tracer_Start in *. cbn [snd] in Ho. rewrite Ho.
  match goal with |- context [load_iterator cfg clock ?sc ?sp src ?d] =>
    destruct (load_collect cfg clock sc sp _ _ _ (mkLoad d 0 []) None _ _ Hctx Hc) as (it' & Hit & Herr & Hce & Hd);
    set (it := load_iterator cfg clock sc sp src d) in * end.
  exists it, it'. split; [done|]. change (load_reading _ _ _ _ _ _ _) with it in Hit.
  pose proof (collect_reads _ _ it 0 it _ _ _ (reads_start it) Hit). rewrite Hit, Herr, Hce. by split_and!.
Qed.

(** A traced Save asks the store for what the caller asked, with the span's
    headers in the events' metadata, and returns what it returns; a traced
    ReadAll is the store's. *)
Theorem event_store_does_not_see_telemetry cfg (next : SaveFunc (Tel W)) next0 reader reader0 :
  (∀ events revision, erases (λ ctx, next ctx events revision) (λ ctx, next0 ctx events revision) ∧
                      oblivious (λ ctx, next0 ctx events revision)) →
  (∀ after opts, erases (λ ctx, reader ctx after opts) (λ ctx, reader0 ctx after opts)) →
  (∀ ctx events revision raw t, ToRawInt64 revision = Returns raw →
     let headers := Inject (WithValue ctx spanKey (VSpan (tel_spans t))) in
     let r := Save cfg next ctx events revision t in
     (r.1, tel_world r.2) = next0 ctx (inject headers <$> events) revision (tel_world t)) ∧
  (∀ ctx after opts t, let r := ReadAll cfg reader ctx after opts t in
     (r.1, tel_world r.2) = reader0 ctx after opts (tel_world t)).
Proof.
  intros Hs Hr. split.
  - intros ctx events revision raw t. by apply Save_erases; intros evs.
  - intros ctx after opts t. apply (ReadAll_erases cfg reader (λ ctx, reader0 ctx after opts)), Hr.
Qed.

(** Save and ReadAll leave the spans and the in-flight counters as they found them
    when the store does. *)
Theorem event_store_spans_end_once cfg (next : SaveFunc (Tel W)) reader :
  (∀ events revision, keeps (λ ctx, next ctx events revision)) →
  (∀ after opts, keeps (λ ctx, reader ctx after opts)) →
  (∀ events revision, keeps (λ ctx, Save cfg next ctx events revision)) ∧
  (∀ after opts, keeps (λ ctx, ReadAll cfg reader ctx after opts)).
Proof.
  intros Hs Hr. split; intros; [by apply Save_keeps; intros evs|]. apply ReadAll_keeps, Hr.
Qed.

(** The attribute getter reaches none of the event store's spans or measurements. *)
Theorem event_store_ignores_attribute_getter cfg get (next : SaveFunc (Tel W)) reader (clock : St → time) attrs open t :
  let cfg' := WithAttributeGetter get cfg in
  Save cfg' next = Save cfg next ∧ ReadAll cfg' reader = ReadAll cfg reader ∧
  ∀ ctx, let r := load cfg clock ctx attrs open t in let r' := load cfg' clock ctx attrs open t in r'.2 = r.2.
Proof.
  split_and!; [done..|]. intros ctx. unfold load, tracer_Start. cbn.
  by destruct (open _ _) as [[[?|?]|?] ?].
Qed.

(** A Save with a revision above MaxInt64 panics before the store is asked. *)
Theorem traced_save_panics_on_large_revisions cfg (next : SaveFunc (Tel W)) ctx events r t :
  max_int64 < r → ∃ p, Save cfg next ctx events (Revision r) t = ((Panics p, events), t).
Proof. intros Hr. eexists. unfold Save. cbn. unfold Revision_ToRawInt64. by rewrite (proj2 (Z.ltb_lt _ _) Hr). Qed.

Lemma started_in (l rest ss : list signal) l' x : l' = (l ++ [x]) ++ rest → x ∈ l' ++ ss.
Proof. intros ->. set_solver. Qed.

(** A call only adds to the report. *)
Definition reports {A} (f : values → Tel W → A * Tel W) : Prop := ∀ ctx t, tel_signals t `prefix_of` tel_signals (f ctx t).2.

Lemma prefix_emits ss t l : l `prefix_of` tel_signals t → l `prefix_of` tel_signals (emits ss t).
Proof. intros Hp. by apply prefix_app_r. Qed.

(** C18: The trace of an event survives the store: with a propagator that reads
    back the span context it wrote, as that of W3C TraceContext does
    (OpenTelemetry's default writes nothing), when an event that a traced Save
    handed to the store is later given to a traced handler with the same
    metadata, the handler's span links to exactly the span of that Save,
    whatever metadata the event had before. *)
Theorem handler_span_links_to_the_append `{U : UUIDString, !PropagatorLaws P} cfg (next : SaveFunc (Tel W)) ctx events revision t
    result events' t1 ev env options handler hctx replayUntil event t2 :
  (∀ evs, reports (λ ctx, next ctx evs revision)) → (∀ ctx evs t, (next ctx evs revision t).1.2 = evs) →
  reports (λ ctx, handler ctx (Some event)) →
  Save cfg next ctx events revision t = ((Returns result, events'), t1) →
  ev ∈ events' → Metadata env = Metadata ev →
  let appended := tel_spans t in
  (∃ s, Started appended s ∈ tel_signals t1 ∧ ss_kind s = SpanKindClient) ∧
  ∃ s, Started (tel_spans t2) s ∈ tel_signals (WithEventTelemetry handler options (withEnvelope hctx env replayUntil) (Some event) t2).2 ∧
       fst <$> ss_links s = [appended].
Proof.
  intros Hrep Hkeep Hhandler HS Hev Hmd appended. unfold Save in HS.
  destruct (ToRawInt64 revision) as [raw|]; [|done]. cbn [tracer_Start] in HS.
  set (spanCtx := WithValue ctx spanKey _) in HS. set (started := mkTel _ _ _) in HS.
  pose proof (Hrep (inject (Inject spanCtx) <$> events) spanCtx started) as Hpre. cbn beta in Hpre.
  pose proof (Hkeep spanCtx (inject (Inject spanCtx) <$> events) started) as Hsame.
  destruct (next _ _ _ _) as [[o evs] t3]. cbn in Hpre, Hsame. subst evs.
  destruct o as [[res err]|]; [|done]. injection HS as _ <- <-. split.
  - destruct Hpre as [rest Hrest]. unfold End_, emit, emits. cbn [tel_signals].
    eexists. destruct err; cbn [tel_signals]; rewrite <- !(assoc_L (++)); (split; [by eapply started_in|done]).
  - apply list_elem_of_fmap in Hev as (ev0 & -> & _). unfold WithEventTelemetry. cbn [tracer_Start].
    assert (Extract (carrier (MetadataFromContext (withEnvelope hctx env replayUntil))) = Some appended) as ->.
    { destruct (handler_context hctx env replayUntil) as (_ & _ & _ & _ & _ & -> & _). rewrite Hmd.
      apply (extract_inject spanCtx); [by unfold SpanFromContext, spanCtx, WithValue; rewrite lookup_insert_eq|].
      apply carrier_inject, inject_nonempty. }
    match goal with |- context [handler ?c (Some event) ?t] => pose proof (Hhandler c t) as Hpre2; cbn beta in Hpre2;
      destruct (handler c (Some event) t) as [o2 t4] end.
    destruct Hpre2 as [rest2 Hrest2]. cbn in Hrest2. eexists.
    destruct o2 as [[e|]|]; [destruct (errors_As is_Skipped e)| |]; cbn; rewrite <- ?(assoc_L (++));
      (split; [by eapply started_in|done]).
Qed.
End properties.
