(* ===== verification/TelemetryProj.v ===== *)
(** * Telemetry of projections ([telemetry/projection_store.go], [projection.go])

    The wrapper of a projection store, and what the observer of a runner
    reports. *)
From S2P Require Import Prelude Core Context ProjStore Telemetry TelemetryHandlers.

(** ** The interfaces, with their contexts

    A function handed to [Commit] or [Reset] gets the context of the unit and
    may panic. *)
Definition UnitFn (W : Type) : Type := values → W → outcome (option error) * W.

Record DeadLetterFns (W : Type) : Type := mkDeadLetterFns {
  df_SaveDeadLetter : values → Lease → DeadLetter → W → option error * W;
  df_LoadDeadLetters : values → string → Z → W → result error (list DeadLetter) * W;
  df_DeleteDeadLetter : values → Lease → Z → W → option error * W;
  df_RequestReplay : values → string → string → W → result error Z * W;
  df_PendingReplays : values → string → W → result error (list Replay) * W;
  df_FinishReplay : values → Lease → Z → string → W → option error * W;
  df_ReplayResult : values → string → Z → W → result error (Z * list string) * W;
}.
Arguments mkDeadLetterFns {W}.
Arguments df_SaveDeadLetter {W}. Arguments df_LoadDeadLetters {W}. Arguments df_DeleteDeadLetter {W}.
Arguments df_RequestReplay {W}. Arguments df_PendingReplays {W}. Arguments df_FinishReplay {W}. Arguments df_ReplayResult {W}.

Record StoreFns (W : Type) : Type := mkProjStoreFns {
  pf_Declare : values → string → Z → Z → W → option error * W;
  pf_Claim : values → Lease → duration → W → (Lease * Checkpoint * bool * option error) * W;
  pf_Commit : values → Lease → Checkpoint → Status → UnitFn W → W → outcome (option error) * W;
  pf_Reset : values → Lease → Z → UnitFn W → W → outcome (option error) * W;
  pf_Release : values → Lease → W → option error * W;
  pf_SaveStatus : values → Lease → Status → W → option error * W;
  pf_LoadStatuses : values → string → W → result error (list Status) * W;
  pf_RequestRebuild : values → string → W → result error Z * W;
  pf_Rebuilds : values → string → W → result error (Z * Z) * W;
  pf_FailRebuild : values → Lease → Z → string → W → option error * W;
  pf_RebuildFailure : values → string → W → result error (Z * string) * W;
  pf_Heartbeat : values → string → string → Z → duration → W → (list Instance_ * option error) * W;
  pf_LoadInstances : values → string → W → result error (list Instance_) * W;
  pf_DeadLetters : option (DeadLetterFns W);
}.
Arguments mkProjStoreFns {W}. Arguments pf_Declare {W}. Arguments pf_Claim {W}. Arguments pf_Commit {W}. Arguments pf_Reset {W}.
Arguments pf_Release {W}. Arguments pf_SaveStatus {W}. Arguments pf_LoadStatuses {W}. Arguments pf_RequestRebuild {W}.
Arguments pf_Rebuilds {W}. Arguments pf_FailRebuild {W}. Arguments pf_RebuildFailure {W}. Arguments pf_Heartbeat {W}.
Arguments pf_LoadInstances {W}. Arguments pf_DeadLetters {W}.

(** ** The wrapper *)
Definition name_attr (name : string) : KeyValue := (AttrProjectionName, AString name).

Section store.
Context {W : Type} `{WallClock W} (cfg : config) (next : StoreFns (Tel W)).

Definition spanAttrs (ctx : values) (l : Lease) (extra : list KeyValue) : list KeyValue :=
  leaseAttrs l ++ extra ++ Attributes cfg ++ got_attributes cfg ctx.

Definition Claim (ctx : values) (l : Lease) (ttl : duration) (t : Tel W) :
    (Lease * Checkpoint * bool * option error) * Tel W :=
  let '((claimed, cp, ok, err), t) := pf_Claim next ctx l ttl t in
  let result := match err with Some _ => "failure" | None => if ok then "acquired" else "held" end in
  ((claimed, cp, ok, err), emit (Add ProjectionClaims ctx 1 [name_attr (l_Name l); result_attr result]) t).

Definition Commit (ctx : values) (l : Lease) (cp : Checkpoint) (status : Status) (fn : UnitFn (Tel W)) (t : Tel W) :
    outcome (option error) * Tel W :=
  let startedAt := now t in
  let attrs := spanAttrs ctx l [(AttrProjectionPosition, AInt64 (toInt64 (Position cp)));
                                (AttrProjectionPhase, AString (Phase_String (st_Phase status)))] in
  let '(ctx, span, t) := tracer_Start ctx "process batch" SpanKindInternal attrs [] None t in
  match pf_Commit next (WithValue ctx leaseKey (VLease l)) l cp status fn t with
  | (Panics p, t) => (Panics p, End_ span t)
  | (Returns err, t) =>
    let result := match err with
                  | Some e => if errors_Is e ErrClaimLost then "claim_lost" else "failure"
                  | None => "success"
                  end in
    let t := emit (Record_seconds ProjectionBatchDuration ctx (since startedAt t) [name_attr (l_Name l); result_attr result]) t in
    (Returns err, End_ span (emits (endSpan span err) t))
  end.

Definition Reset_ (ctx : values) (l : Lease) (newVersion : Z) (wipe : UnitFn (Tel W)) (t : Tel W) :
    outcome (option error) * Tel W :=
  let '(ctx, span, t) := tracer_Start ctx "rebuild projection" SpanKindInternal (spanAttrs ctx l []) [] None t in
  match pf_Reset next ctx l newVersion wipe t with
  | (Panics p, t) => (Panics p, End_ span t)
  | (Returns err, t) =>
    let result := match err with Some _ => "failure" | None => "success" end in
    let t := emit (Add ProjectionRebuilds ctx 1 [name_attr (l_Name l); result_attr result]) t in
    (Returns err, End_ span (emits (endSpan span err) t))
  end.

(** One gauge value per entry of the owner's *)
Definition held_signals (ctx : values) (name owner : string) (instances : list Instance_) : list signal :=
  (λ inst, Record_ ProjectionSegmentHeld ctx (in_Segments inst) [name_attr name]) <$>
    bfilter (λ inst, bool_decide (in_Owner inst = owner)) instances.

Definition Heartbeat (ctx : values) (name owner : string) (version : Z) (ttl : duration) (t : Tel W) :
    (list Instance_ * option error) * Tel W :=
  let '((instances, err), t) := pf_Heartbeat next ctx name owner version ttl t in
  if bool_decide (ttl = 0) then ((instances, err), t)
  else
    match err with
    | Some e => ((instances, Some e), emit (Add ProjectionHeartbeats ctx 1 [name_attr name; result_attr "failure"]) t)
    | None =>
      ((instances, None),
       emits (Add ProjectionHeartbeats ctx 1 [name_attr name; result_attr "success"] ::
              Record_ ProjectionInstanceCount ctx (zlen instances) [name_attr name] ::
              held_signals ctx name owner instances) t)
    end.

Definition SaveDeadLetter (dls : DeadLetterFns (Tel W)) (ctx : values) (l : Lease) (d : DeadLetter) (t : Tel W) :
    option error * Tel W :=
  let t := add_event ctx "dead letter"
    [(AttrEventGlobalPos, AInt64 (toInt64 (dl_Position d))); (AttrStreamID, AString (dl_StreamID d));
     (AttrEventType, AString (dl_EventType d)); (AttrErrorMessage, AString (dl_Error d))] t in
  df_SaveDeadLetter dls ctx l d t.

Definition telemetryDeadLetterStore (dls : DeadLetterFns (Tel W)) : DeadLetterFns (Tel W) :=
  mkDeadLetterFns (SaveDeadLetter dls) (df_LoadDeadLetters dls) (df_DeleteDeadLetter dls) (df_RequestReplay dls)
    (df_PendingReplays dls) (df_FinishReplay dls) (df_ReplayResult dls).

Definition ProjectionStore_ : StoreFns (Tel W) :=
  mkProjStoreFns (pf_Declare next) Claim Commit Reset_ (pf_Release next) (pf_SaveStatus next) (pf_LoadStatuses next)
    (pf_RequestRebuild next) (pf_Rebuilds next) (pf_FailRebuild next) (pf_RebuildFailure next) Heartbeat
    (pf_LoadInstances next) (telemetryDeadLetterStore <$> pf_DeadLetters next).
End store.

Definition WithProjectionStoreTelemetry {W} `{WallClock W} (next : StoreFns (Tel W)) (options : list Option) : StoreFns (Tel W) :=
  ProjectionStore_ (configure options) next.

(** ** [ObserveProjection] *)

(** Observable instruments *)
Definition ProjectionLag := mkInstrument "eventsourcing.projection.lag" Int64ObservableGauge "{position}".
Definition ProjectionPosition := mkInstrument "eventsourcing.projection.position" Int64ObservableGauge "{position}".
Definition ProjectionPhase := mkInstrument "eventsourcing.projection.phase" Int64ObservableGauge "1".
Definition ProjectionDeadLettered := mkInstrument "eventsourcing.projection.dead_lettered.events" Int64ObservableCounter "{event}".

Definition phases : list Phase := [Starting; Standby; CatchingUp; Live; Stalled].

Definition observation : Type := Instrument * Z * list KeyValue.

(** The callback, from the runner's name, status and dead-letter count; the
    subtraction is of [uint64]s. *)
Definition ObserveProjection (name : string) (st : Status) (deadLettered : Z) : list observation :=
  [(ProjectionLag, toInt64 (u64 (st_Head st - Z.min (st_Position st) (st_Head st))), [name_attr name]);
   (ProjectionPosition, toInt64 (st_Position st), [name_attr name])] ++
  ((λ p, (ProjectionPhase, if bool_decide (p = st_Phase st) then 1 else 0,
          [name_attr name; (AttrProjectionPhase, AString (Phase_String p))])) <$> phases) ++
  [(ProjectionDeadLettered, deadLettered, [name_attr name])].

(** ** Proofs *)

(** *** The program sees its own store *)
Definition both {W A} (f : values → Tel W → A * Tel W) (f0 : values → W → A * W) : Prop := erases f f0 ∧ oblivious f0.

Record dead_letters_erase {W} (s : DeadLetterFns (Tel W)) (s0 : DeadLetterFns W) : Prop := {
  de_Save l d : both (λ ctx, df_SaveDeadLetter s ctx l d) (λ ctx, df_SaveDeadLetter s0 ctx l d);
  de_Load name seg : both (λ ctx, df_LoadDeadLetters s ctx name seg) (λ ctx, df_LoadDeadLetters s0 ctx name seg);
  de_Delete l p : both (λ ctx, df_DeleteDeadLetter s ctx l p) (λ ctx, df_DeleteDeadLetter s0 ctx l p);
  de_Request name id : both (λ ctx, df_RequestReplay s ctx name id) (λ ctx, df_RequestReplay s0 ctx name id);
  de_Pending name : both (λ ctx, df_PendingReplays s ctx name) (λ ctx, df_PendingReplays s0 ctx name);
  de_Finish l n msg : both (λ ctx, df_FinishReplay s ctx l n msg) (λ ctx, df_FinishReplay s0 ctx l n msg);
  de_Result name n : both (λ ctx, df_ReplayResult s ctx name n) (λ ctx, df_ReplayResult s0 ctx name n);
}.

Record store_erases {W} (s : StoreFns (Tel W)) (s0 : StoreFns W) : Prop := {
  se_Declare name n ru : both (λ ctx, pf_Declare s ctx name n ru) (λ ctx, pf_Declare s0 ctx name n ru);
  se_Claim l ttl : both (λ ctx, pf_Claim s ctx l ttl) (λ ctx, pf_Claim s0 ctx l ttl);
  se_Commit l cp st fn fn0 : both fn fn0 → both (λ ctx, pf_Commit s ctx l cp st fn) (λ ctx, pf_Commit s0 ctx l cp st fn0);
  se_Reset l v fn fn0 : both fn fn0 → both (λ ctx, pf_Reset s ctx l v fn) (λ ctx, pf_Reset s0 ctx l v fn0);
  se_Release l : both (λ ctx, pf_Release s ctx l) (λ ctx, pf_Release s0 ctx l);
  se_SaveStatus l st : both (λ ctx, pf_SaveStatus s ctx l st) (λ ctx, pf_SaveStatus s0 ctx l st);
  se_LoadStatuses name : both (λ ctx, pf_LoadStatuses s ctx name) (λ ctx, pf_LoadStatuses s0 ctx name);
  se_RequestRebuild name : both (λ ctx, pf_RequestRebuild s ctx name) (λ ctx, pf_RequestRebuild s0 ctx name);
  se_Rebuilds name : both (λ ctx, pf_Rebuilds s ctx name) (λ ctx, pf_Rebuilds s0 ctx name);
  se_FailRebuild l n msg : both (λ ctx, pf_FailRebuild s ctx l n msg) (λ ctx, pf_FailRebuild s0 ctx l n msg);
  se_RebuildFailure name : both (λ ctx, pf_RebuildFailure s ctx name) (λ ctx, pf_RebuildFailure s0 ctx name);
  se_Heartbeat name o v ttl : both (λ ctx, pf_Heartbeat s ctx name o v ttl) (λ ctx, pf_Heartbeat s0 ctx name o v ttl);
  se_LoadInstances name : both (λ ctx, pf_LoadInstances s ctx name) (λ ctx, pf_LoadInstances s0 ctx name);
  se_DeadLetters : option_Forall2 dead_letters_erase (pf_DeadLetters s) (pf_DeadLetters s0);
}.

(** *** Spans and active counters *)
Record dead_letters_keep {W} (s : DeadLetterFns (Tel W)) : Prop := {
  dk_Save l d : keeps (λ ctx, df_SaveDeadLetter s ctx l d);
  dk_Load name seg : keeps (λ ctx, df_LoadDeadLetters s ctx name seg);
  dk_Delete l p : keeps (λ ctx, df_DeleteDeadLetter s ctx l p);
  dk_Request name id : keeps (λ ctx, df_RequestReplay s ctx name id);
  dk_Pending name : keeps (λ ctx, df_PendingReplays s ctx name);
  dk_Finish l n msg : keeps (λ ctx, df_FinishReplay s ctx l n msg);
  dk_Result name n : keeps (λ ctx, df_ReplayResult s ctx name n);
}.

Record store_keeps {W} (s : StoreFns (Tel W)) : Prop := {
  sk_Declare name n ru : keeps (λ ctx, pf_Declare s ctx name n ru);
  sk_Claim l ttl : keeps (λ ctx, pf_Claim s ctx l ttl);
  sk_Commit l cp st fn : keeps fn → keeps (λ ctx, pf_Commit s ctx l cp st fn);
  sk_Reset l v fn : keeps fn → keeps (λ ctx, pf_Reset s ctx l v fn);
  sk_Release l : keeps (λ ctx, pf_Release s ctx l);
  sk_SaveStatus l st : keeps (λ ctx, pf_SaveStatus s ctx l st);
  sk_LoadStatuses name : keeps (λ ctx, pf_LoadStatuses s ctx name);
  sk_RequestRebuild name : keeps (λ ctx, pf_RequestRebuild s ctx name);
  sk_Rebuilds name : keeps (λ ctx, pf_Rebuilds s ctx name);
  sk_FailRebuild l n msg : keeps (λ ctx, pf_FailRebuild s ctx l n msg);
  sk_RebuildFailure name : keeps (λ ctx, pf_RebuildFailure s ctx name);
  sk_Heartbeat name o v ttl : keeps (λ ctx, pf_Heartbeat s ctx name o v ttl);
  sk_LoadInstances name : keeps (λ ctx, pf_LoadInstances s ctx name);
  sk_DeadLetters dls : pf_DeadLetters s = Some dls → dead_letters_keep dls;
}.

Section facts.
Context {W : Type} `{WallClock W} (cfg : config).
Implicit Types (s : StoreFns (Tel W)) (t : Tel W).

Lemma Claim_erases s l ttl f0 :
  both (λ ctx, pf_Claim s ctx l ttl) f0 → both (λ ctx, Claim s ctx l ttl) f0.
Proof.
  intros [He Ho]. split; [|done]. intros ctx t. unfold Claim. pose proof (He ctx t) as Hn. cbn beta in Hn.
  by destruct (pf_Claim _ _ _ _ _) as [[[[? ?] ?] ?] ?].
Qed.

Lemma Heartbeat_erases s name owner v ttl f0 :
  both (λ ctx, pf_Heartbeat s ctx name owner v ttl) f0 → both (λ ctx, Heartbeat s ctx name owner v ttl) f0.
Proof.
  intros [He Ho]. split; [|done]. intros ctx t. unfold Heartbeat. pose proof (He ctx t) as Hn. cbn beta in Hn.
  destruct (pf_Heartbeat _ _ _ _ _ _ _) as [[? [?|]] ?]; by case_bool_decide.
Qed.

Lemma SaveDeadLetter_erases dls l d f0 :
  both (λ ctx, df_SaveDeadLetter dls ctx l d) f0 → both (λ ctx, SaveDeadLetter (W := W) dls ctx l d) f0.
Proof.
  intros [He Ho]. split; [|done]. intros ctx t. unfold SaveDeadLetter. rewrite He. by rewrite add_event_world.
Qed.

(** Inside the span of a unit of work, with or without its lease *)
Lemma Commit_erases s l cp st fn f0 :
  both (λ ctx, pf_Commit s ctx l cp st fn) f0 → both (λ ctx, Commit cfg s ctx l cp st fn) f0.
Proof.
  intros [He Ho]. split; [|done]. intros ctx t. unfold Commit. cbn [tracer_Start]. destruct (pf_Commit _ _ _ _ _ _ _) as [o t2] eqn:Hn.
  pose proof (erases_run _ _ _ _ _ _ He Hn) as H0. rewrite (proj2 (Ho _ _ _)), (proj1 (Ho _ _ _)) in H0. cbn in H0.
  rewrite H0. by destruct o as [[e|]|p].
Qed.

Lemma Reset_erases s l v wipe f0 :
  both (λ ctx, pf_Reset s ctx l v wipe) f0 → both (λ ctx, Reset_ cfg s ctx l v wipe) f0.
Proof.
  intros [He Ho]. split; [|done]. intros ctx t. unfold Reset_. cbn [tracer_Start]. destruct (pf_Reset _ _ _ _ _ _) as [o t2] eqn:Hn.
  rewrite (erases_in_span (λ ctx, pf_Reset s ctx l v wipe) _ _ _ t _ _ _ He Ho Hn eq_refl). by destruct o as [[e|]|p].
Qed.

Lemma Claim_keeps s l ttl : keeps (λ ctx, pf_Claim s ctx l ttl) → keeps (λ ctx, Claim s ctx l ttl).
Proof.
  intros Hk ctx t S lv Hc Ha. unfold Claim. specialize (Hk ctx t S lv Hc Ha). cbn beta in Hk.
  destruct (pf_Claim _ _ _ _ _) as [[[[? ?] ?] ?] ?]. by apply accounts_emit.
Qed.

Lemma held_quiet S ctx name owner instances : Forall (quiet S) (held_signals ctx name owner instances).
Proof. unfold held_signals. apply list.Forall_fmap, list.Forall_forall. done. Qed.

Lemma Heartbeat_keeps s name owner v ttl :
  keeps (λ ctx, pf_Heartbeat s ctx name owner v ttl) → keeps (λ ctx, Heartbeat s ctx name owner v ttl).
Proof.
  intros Hk ctx t S lv Hc Ha. unfold Heartbeat. specialize (Hk ctx t S lv Hc Ha). cbn beta in Hk.
  destruct (pf_Heartbeat _ _ _ _ _ _ _) as [[? [?|]] ?]; case_bool_decide; try done; cbn; [by apply accounts_emit|].
  apply accounts_emits; [|done]. do 2 (constructor; [done|]). apply held_quiet.
Qed.

Lemma SaveDeadLetter_keeps dls l d :
  keeps (λ ctx, df_SaveDeadLetter dls ctx l d) → keeps (λ ctx, SaveDeadLetter (W := W) dls ctx l d).
Proof. intros Hk ctx t S lv Hc Ha. by apply Hk, accounts_add_event. Qed.

Lemma ctx_open_value ctx S key v : key ≠ spanKey → ctx_open ctx S → ctx_open (WithValue ctx key v) S.
Proof. intros Hne Hc id. unfold SpanFromContext, WithValue. rewrite lookup_insert_ne by done. apply Hc. Qed.

Lemma Commit_keeps s l cp st fn :
  keeps (λ ctx, pf_Commit s ctx l cp st fn) → keeps (λ ctx, Commit cfg s ctx l cp st fn).
Proof.
  intros Hk ctx t S lv _ Ha. unfold Commit. destruct (tracer_Start _ _ _ _ _ _ _) as [[ctx' id] t1] eqn:Hs.
  destruct (accounts_start _ _ _ _ _ _ _ _ _ _ _ _ Ha Hs) as (Ha1 & Hid & Hc & _).
  specialize (Hk (WithValue ctx' leaseKey (VLease l)) t1 _ lv ltac:(by apply ctx_open_value) Ha1). cbn beta in Hk.
  destruct (pf_Commit _ _ _ _ _ _ _) as [[err|p] t2]; apply accounts_End; try done. cbn in Hk.
  apply accounts_emits; [apply endSpan_quiet; set_solver|by apply accounts_emit].
Qed.

Lemma Reset_keeps s l v wipe :
  keeps (λ ctx, pf_Reset s ctx l v wipe) → keeps (λ ctx, Reset_ cfg s ctx l v wipe).
Proof.
  intros Hk ctx t S lv _ Ha. unfold Reset_. destruct (tracer_Start _ _ _ _ _ _ _) as [[ctx' id] t1] eqn:Hs.
  destruct (accounts_start _ _ _ _ _ _ _ _ _ _ _ _ Ha Hs) as (Ha1 & Hid & Hc & _).
  specialize (Hk ctx' t1 _ lv Hc Ha1). cbn beta in Hk.
  destruct (pf_Reset _ _ _ _ _ _) as [[err|p] t2]; apply accounts_End; try done. cbn in Hk.
  apply accounts_emits; [apply endSpan_quiet; set_solver|by apply accounts_emit].
Qed.
End facts.

(** ** The properties *)
Section properties.
Context {W : Type} `{WallClock W}.
Implicit Types (s : StoreFns (Tel W)) (options : list Option).

(** C20: A projection store with telemetry is the store without it, method by
    method: every call returns the same and does the same to the program's
    world, the units of work with their functions included. *)
Theorem projection_store_does_not_see_telemetry s (s0 : StoreFns W) options :
  store_erases s s0 → store_erases (WithProjectionStoreTelemetry s options) s0.
Proof.
  intros [? ? Hc Hr ? ? ? ? ? ? ? ? ? Hd]. split; cbn; try done.
  - intros l ttl. by apply Claim_erases.
  - intros l cp st fn fn0 Hfn. by apply Commit_erases, Hc.
  - intros l v fn fn0 Hfn. by apply Reset_erases, Hr.
  - intros name o v ttl. by apply Heartbeat_erases.
  - destruct Hd as [dls dls0 [? ? ? ? ? ? ?]|]; constructor. split; try done. intros l d. by apply SaveDeadLetter_erases.
Qed.

(** The wrapper of a projection store leaves the spans and the in-flight counters
    as it found them when the store does, also around a unit of work that
    panics. *)
Theorem projection_store_spans_end_once s options :
  store_keeps s → store_keeps (WithProjectionStoreTelemetry s options).
Proof.
  intros [? ? Hc Hr ? ? ? ? ? ? ? ? ? Hd]. split; cbn; try done.
  - intros l ttl. by apply Claim_keeps.
  - intros l cp st fn Hfn. by apply Commit_keeps, Hc.
  - intros l v fn Hfn. by apply Reset_keeps, Hr.
  - intros name o v ttl. by apply Heartbeat_keeps.
  - intros dls Hdls. apply fmap_Some in Hdls as (dls0 & Hdls & ->). destruct (Hd _ Hdls).
    split; try done. intros l d. by apply SaveDeadLetter_keeps.
Qed.
End properties.

(** The observed lag of a projection is how far its position is behind the head,
    from 0 to MaxInt64, and never wraps; and of the phases it reports exactly
    the current one is 1. *)
Theorem projection_observation name st deadLettered :
  is_u64 (st_Position st) → is_u64 (st_Head st) →
  let obs := ObserveProjection name st deadLettered in
  (∀ v kvs, (ProjectionLag, v, kvs) ∈ obs → 0 ≤ v ≤ max_int64 ∧ v = toInt64 (Z.max 0 (st_Head st - st_Position st))) ∧
  (match st_Phase st with OtherPhase _ => 0 | _ => 1 end) =
    foldr (λ o n, (if bool_decide (o.1.1 = ProjectionPhase) then o.1.2 else 0) + n) 0 obs ∧
  (st_Phase st ∈ phases → (ProjectionPhase, 1, [name_attr name; (AttrProjectionPhase, AString (Phase_String (st_Phase st)))]) ∈ obs).
Proof.
  intros Hp Hh obs. unfold is_u64, two64 in Hp, Hh. split_and!.
  - intros v kvs Hin. unfold obs, ObserveProjection, phases in Hin. cbn in Hin.
    rewrite !elem_of_cons in Hin. destruct Hin as [[= -> _]|Hin]; [|by repeat destruct Hin as [[=]|Hin]; inversion Hin].
    unfold toInt64, u64, max_int64, two64. rewrite Z.mod_small by lia. lia.
  - unfold obs. destruct (st_Phase st) eqn:Hph; unfold ObserveProjection; rewrite Hph; vm_compute; done.
  - intros Hin. unfold obs, ObserveProjection. rewrite !elem_of_app. right. left. apply list_elem_of_fmap.
    exists (st_Phase st). by rewrite bool_decide_true.
Qed.
