(* ===== verification/TelemetryAuto.v ===== *)
(** * Telemetry of automations ([telemetry/automation.go], [automation_store.go])

    The wrapper of an automation's work, the wrapper of its store, and what
    the observer of a runner reports. *)
From S2P Require Import Prelude Core Context ProjStore AutoTypes Telemetry TelemetryHandlers TelemetryProj.

(** ** Work *)
Definition WorkFunc (T W : Type) : Type := values → T → W → outcome (option error) * W.

Definition automation_name (name : string) : KeyValue := (AttrAutomationName, AString name).

Section work.
Context {T W : Type} `{WallClock W}.

Definition WithWorkTelemetry (name : string) (work : WorkFunc T (Tel W)) (options : list Option) : WorkFunc T (Tel W) :=
  let cfg := configure options in λ ctx item t,
  let nameAttr := automation_name name in
  let attrs := nameAttr :: Attributes cfg ++ got_attributes cfg ctx in
  let '(ctx, span, t) := tracer_Start ctx (span_name cfg ctx "process item") SpanKindInternal attrs [] None t in
  let startedAt := now t in
  match work ctx item t with
  | (Panics p, t) => (Panics p, End_ span t)
  | (Returns err, t) =>
    let duration := since startedAt t in
    let '(metricAttrs, t) :=
      match err with
      | None => ([nameAttr; result_attr "success"], emit (SetStatus span StatusOk) t)
      | Some e =>
        match errors_As is_Deferred e with
        | Some until =>
          let evAttrs := if time_IsZero until then [] else [("eventsourcing.automation.deferred_until", ATime until)] in
          ([nameAttr; result_attr "deferred"], emits [AddEvent span "deferred" evAttrs; SetStatus span StatusOk] t)
        | None => ([nameAttr; result_attr "failure"; errorType_attr e], emits (fail_span span e) t)
        end
      end in
    (Returns err, End_ span (emit (Record_seconds AutomationWorkDuration ctx duration metricAttrs) t))
  end.
End work.

(** ** The store *)
Record AutoStoreFns (W : Type) : Type := mkAutoStoreFns {
  af_Acquire : values → string → string → list Candidate → Z → duration → W → (AcquireResult * option error) * W;
  af_Renew : values → list SegmentLease → duration → W → (list SegmentLease * option error) * W;
  af_Release : values → list ReleaseRequest → W → (list SegmentLease * option error) * W;
  af_Defer : values → string → string → duration → W → option error * W;
  af_DeferredFor : values → string → string → W → result error duration * W;
  af_SetPaused : values → string → bool → W → option error * W;
  af_Paused : values → string → W → result error bool * W;
  af_SaveStatus : values → string → AutoTypes.Status → duration → W → option error * W;
  af_LoadStatuses : values → string → W → result error (list AutoTypes.Status) * W;
  af_LoadSegments : values → string → W → result error (list SegmentState) * W;
}.
Arguments mkAutoStoreFns {W}. Arguments af_Acquire {W}. Arguments af_Renew {W}. Arguments af_Release {W}. Arguments af_Defer {W}.
Arguments af_DeferredFor {W}. Arguments af_SetPaused {W}. Arguments af_Paused {W}. Arguments af_SaveStatus {W}.
Arguments af_LoadStatuses {W}. Arguments af_LoadSegments {W}.

Section store.
Context {W : Type} (cfg : config) (next : AutoStoreFns (Tel W)).

Definition Acquire (ctx : values) (name owner : string) (candidates : list Candidate) (max : Z) (ttl : duration)
    (t : Tel W) : (AcquireResult * option error) * Tel W :=
  let '((res, err), t) := af_Acquire next ctx name owner candidates max ttl t in
  let nameAttr := automation_name name in
  match err with
  | Some e => ((res, Some e), emit (Add AutomationAcquisitions ctx 1 [nameAttr; result_attr "failure"]) t)
  | None =>
    let n := zlen (ac_Granted res) in
    ((res, None),
     emits ([Add AutomationAcquisitions ctx 1 [nameAttr; result_attr "success"]] ++
            (if 0 <? n then [Add AutomationSegmentGrants ctx n [nameAttr]] else []) ++
            [Record_ AutomationSegmentWaiting ctx (ac_Eligible res) [nameAttr]]) t)
  end.

Definition countLost (ctx : values) (lost : list SegmentLease) : list signal :=
  (λ l, Add AutomationSegmentLost ctx 1 [automation_name (sl_Name l)]) <$> lost.

Definition Renew (ctx : values) (held : list SegmentLease) (ttl : duration) (t : Tel W) :
    (list SegmentLease * option error) * Tel W :=
  let '((lost, err), t) := af_Renew next ctx held ttl t in ((lost, err), emits (countLost ctx lost) t).

Definition deferred_attrs (name key : string) (d : duration) : list KeyValue :=
  [automation_name name; (AttrAutomationSegment, AString key); ("eventsourcing.automation.deferred_for", ASeconds d)].

Definition deferral (ctx : values) (lost : list SegmentLease) (rr : ReleaseRequest) (t : Tel W) : Tel W :=
  if (0 <? re_DeferFor rr) && negb (bool_decide (re_Lease rr ∈ lost))
  then add_event ctx "segment deferred" (deferred_attrs (sl_Name (re_Lease rr)) (sl_Key (re_Lease rr)) (re_DeferFor rr)) t
  else t.

Definition Release (ctx : values) (rel : list ReleaseRequest) (t : Tel W) : (list SegmentLease * option error) * Tel W :=
  let '((lost, err), t) := af_Release next ctx rel t in
  let t := match err with None => foldl (λ t rr, deferral ctx lost rr t) t rel | Some _ => t end in
  ((lost, err), emits (countLost ctx lost) t).

Definition Defer (ctx : values) (name key : string) (d : duration) (t : Tel W) : option error * Tel W :=
  let '(err, t) := af_Defer next ctx name key d t in
  (err, match err with None => add_event ctx "segment deferred" (deferred_attrs name key d) t | Some _ => t end).

Definition SetPaused (ctx : values) (name : string) (paused : bool) (t : Tel W) : option error * Tel W :=
  let operation := if paused then "pause automation" else "resume automation" in
  let attrs := automation_name name :: Attributes cfg ++ got_attributes cfg ctx in
  let '(ctx, span, t) := tracer_Start ctx operation SpanKindInternal attrs [] None t in
  let '(err, t) := af_SetPaused next ctx name paused t in
  (err, End_ span (emits (endSpan span err) t)).

Definition AutomationStore_ : AutoStoreFns (Tel W) :=
  mkAutoStoreFns Acquire Renew Release Defer (af_DeferredFor next) SetPaused (af_Paused next) (af_SaveStatus next)
    (af_LoadStatuses next) (af_LoadSegments next).
End store.

Definition WithAutomationStoreTelemetry {W} (next : AutoStoreFns (Tel W)) (options : list Option) : AutoStoreFns (Tel W) :=
  AutomationStore_ (configure options) next.

(** ** [ObserveAutomation] *)
Definition AutomationPhase := mkInstrument "eventsourcing.automation.phase" Int64ObservableGauge "1".
Definition AutomationItems := mkInstrument "eventsourcing.automation.items" Int64ObservableCounter "{item}".

Definition automationPhases : list AutoTypes.Phase :=
  [AutoTypes.Starting; Waiting; Idle; Working; AutoTypes.Stalled; Paused].

(** [order] is the one in which Go ranges over the map of the counts. *)
Definition ObserveAutomation (order : list (string * Z) → list (string * Z)) (name : string) (st : AutoTypes.Status) : list observation :=
  ((λ p, (AutomationPhase, if bool_decide (p = AutoTypes.st_Phase st) then 1 else 0,
          [automation_name name; (AttrAutomationPhase, AString (AutoTypes.Phase_String p))])) <$> automationPhases) ++
  ((λ '(result, n), (AutomationItems, toInt64 n, [automation_name name; result_attr result])) <$>
     order [("success", st_Processed st); ("failure", st_Failed st); ("deferred", st_Deferred st)]).

(** ** Proofs *)
Record auto_store_erases {W} (s : AutoStoreFns (Tel W)) (s0 : AutoStoreFns W) : Prop := {
  ae_Acquire name owner cs m ttl : both (λ ctx, af_Acquire s ctx name owner cs m ttl) (λ ctx, af_Acquire s0 ctx name owner cs m ttl);
  ae_Renew held ttl : both (λ ctx, af_Renew s ctx held ttl) (λ ctx, af_Renew s0 ctx held ttl);
  ae_Release rel : both (λ ctx, af_Release s ctx rel) (λ ctx, af_Release s0 ctx rel);
  ae_Defer name key d : both (λ ctx, af_Defer s ctx name key d) (λ ctx, af_Defer s0 ctx name key d);
  ae_DeferredFor name key : both (λ ctx, af_DeferredFor s ctx name key) (λ ctx, af_DeferredFor s0 ctx name key);
  ae_SetPaused name p : both (λ ctx, af_SetPaused s ctx name p) (λ ctx, af_SetPaused s0 ctx name p);
  ae_Paused name : both (λ ctx, af_Paused s ctx name) (λ ctx, af_Paused s0 ctx name);
  ae_SaveStatus name st ttl : both (λ ctx, af_SaveStatus s ctx name st ttl) (λ ctx, af_SaveStatus s0 ctx name st ttl);
  ae_LoadStatuses name : both (λ ctx, af_LoadStatuses s ctx name) (λ ctx, af_LoadStatuses s0 ctx name);
  ae_LoadSegments name : both (λ ctx, af_LoadSegments s ctx name) (λ ctx, af_LoadSegments s0 ctx name);
}.

Record auto_store_keeps {W} (s : AutoStoreFns (Tel W)) : Prop := {
  ak_Acquire name owner cs m ttl : keeps (λ ctx, af_Acquire s ctx name owner cs m ttl);
  ak_Renew held ttl : keeps (λ ctx, af_Renew s ctx held ttl);
  ak_Release rel : keeps (λ ctx, af_Release s ctx rel);
  ak_Defer name key d : keeps (λ ctx, af_Defer s ctx name key d);
  ak_DeferredFor name key : keeps (λ ctx, af_DeferredFor s ctx name key);
  ak_SetPaused name p : keeps (λ ctx, af_SetPaused s ctx name p);
  ak_Paused name : keeps (λ ctx, af_Paused s ctx name);
  ak_SaveStatus name st ttl : keeps (λ ctx, af_SaveStatus s ctx name st ttl);
  ak_LoadStatuses name : keeps (λ ctx, af_LoadStatuses s ctx name);
  ak_LoadSegments name : keeps (λ ctx, af_LoadSegments s ctx name);
}.

Section facts.
Context {W : Type} (cfg : config).
Implicit Types (s : AutoStoreFns (Tel W)) (t : Tel W).

Lemma deferrals_world ctx lost rel t : tel_world (foldl (λ t rr, deferral ctx lost rr t) t rel) = tel_world t.
Proof.
  revert t. induction rel as [|rr rel IH]; intros t; cbn; [done|]. rewrite IH. unfold deferral.
  destruct (_ && _); [apply add_event_world|done].
Qed.

Lemma deferrals_accounts S lv ctx lost rel t :
  ctx_open ctx S → accounts S lv t → accounts S lv (foldl (λ t rr, deferral ctx lost rr t) t rel).
Proof.
  intros Hc. revert t. induction rel as [|rr rel IH]; intros t Ha; cbn; [done|]. apply IH. unfold deferral.
  destruct (_ && _); [by apply accounts_add_event|done].
Qed.

Lemma lost_quiet S ctx lost : Forall (quiet S) (countLost ctx lost).
Proof. unfold countLost. by apply list.Forall_fmap, list.Forall_forall. Qed.

Lemma SetPaused_erases s name p f0 :
  both (λ ctx, af_SetPaused s ctx name p) f0 → both (λ ctx, SetPaused cfg s ctx name p) f0.
Proof.
  intros [He Ho]. split; [|done]. intros ctx t. unfold SetPaused. cbn [tracer_Start].
  destruct (af_SetPaused _ _ _ _ _) as [err t2] eqn:Hn.
  by rewrite (erases_in_span (λ ctx, af_SetPaused s ctx name p) _ _ _ t _ _ _ He Ho Hn eq_refl).
Qed.

Lemma SetPaused_keeps s name p : keeps (λ ctx, af_SetPaused s ctx name p) → keeps (λ ctx, SetPaused cfg s ctx name p).
Proof.
  intros Hk ctx t S lv _ Ha. unfold SetPaused. destruct (tracer_Start _ _ _ _ _ _ _) as [[ctx' id] t1] eqn:Hs.
  destruct (accounts_start _ _ _ _ _ _ _ _ _ _ _ _ Ha Hs) as (Ha1 & Hid & Hc & _).
  specialize (Hk ctx' t1 _ lv Hc Ha1). cbn beta in Hk. destruct (af_SetPaused _ _ _ _ _) as [err t2].
  apply accounts_End; [done|]. apply accounts_emits; [apply endSpan_quiet; set_solver|done].
Qed.

Lemma Acquire_keeps s name owner cs m ttl :
  keeps (λ ctx, af_Acquire s ctx name owner cs m ttl) → keeps (λ ctx, Acquire s ctx name owner cs m ttl).
Proof.
  intros Hk ctx t S lv Hc Ha. unfold Acquire. specialize (Hk ctx t S lv Hc Ha). cbn beta in Hk.
  destruct (af_Acquire _ _ _ _ _ _ _ _) as [[res [e|]] t2]; cbn; [by apply accounts_emit|].
  apply accounts_emits; [|done]. constructor; [done|]. destruct (0 <? _); cbn; quiet_tac.
Qed.

Lemma Renew_keeps s held ttl : keeps (λ ctx, af_Renew s ctx held ttl) → keeps (λ ctx, Renew s ctx held ttl).
Proof.
  intros Hk ctx t S lv Hc Ha. unfold Renew. specialize (Hk ctx t S lv Hc Ha). cbn beta in Hk.
  destruct (af_Renew _ _ _ _ _) as [[lost err] t2]. apply accounts_emits; [apply lost_quiet|done].
Qed.

Lemma Release_keeps s rel : keeps (λ ctx, af_Release s ctx rel) → keeps (λ ctx, Release s ctx rel).
Proof.
  intros Hk ctx t S lv Hc Ha. unfold Release. specialize (Hk ctx t S lv Hc Ha). cbn beta in Hk.
  destruct (af_Release _ _ _ _) as [[lost [e|]] t2]; (apply accounts_emits; [apply lost_quiet|]); [done|].
  by apply deferrals_accounts.
Qed.

Lemma Defer_keeps s name key d : keeps (λ ctx, af_Defer s ctx name key d) → keeps (λ ctx, Defer s ctx name key d).
Proof.
  intros Hk ctx t S lv Hc Ha. unfold Defer. specialize (Hk ctx t S lv Hc Ha). cbn beta in Hk.
  destruct (af_Defer _ _ _ _ _ _) as [[e|] t2]; [done|]. by apply accounts_add_event.
Qed.
End facts.

(** ** The properties *)
Section properties.
Context {T W : Type} `{WallClock W}.

(** An automation's work and its store with telemetry return and do what they do
    without it. *)
Theorem automation_does_not_see_telemetry name (work : WorkFunc T (Tel W)) work0 s (s0 : AutoStoreFns W) options :
  (∀ item, both (λ ctx, work ctx item) (λ ctx, work0 ctx item)) → auto_store_erases s s0 →
  (∀ item, both (λ ctx, WithWorkTelemetry name work options ctx item) (λ ctx, work0 ctx item)) ∧
  auto_store_erases (WithAutomationStoreTelemetry s options) s0.
Proof.
  intros Hw [Hac Hrn Hrl Hdf ? Hsp ? ? ? ?]. split.
  - intros item. destruct (Hw item) as [He Ho]. split; [|done]. intros ctx t. unfold WithWorkTelemetry. cbn [tracer_Start].
    destruct (work _ _ _) as [o t2] eqn:Hn.
    rewrite (erases_in_span (λ ctx, work ctx item) _ _ _ t _ _ _ He Ho Hn eq_refl).
    destruct o as [[e|]|p]; [|done..]. by destruct (errors_As is_Deferred e).
  - split; cbn; try done.
    + intros nm owner cs m ttl. destruct (Hac nm owner cs m ttl) as [He Ho]. split; [|done]. intros ctx t.
      rewrite <- He. unfold Acquire. by destruct (af_Acquire _ _ _ _ _ _ _ _) as [[? [?|]] ?].
    + intros held ttl. destruct (Hrn held ttl) as [He Ho]. split; [|done]. intros ctx t.
      rewrite <- He. unfold Renew. by destruct (af_Renew _ _ _ _ _) as [[? ?] ?].
    + intros rel. destruct (Hrl rel) as [He Ho]. split; [|done]. intros ctx t. rewrite <- He. unfold Release.
      destruct (af_Release _ _ _ _) as [[? [?|]] ?]; cbn; [done|]. by rewrite deferrals_world.
    + intros nm key d. destruct (Hdf nm key d) as [He Ho]. split; [|done]. intros ctx t. rewrite <- He. unfold Defer.
      destruct (af_Defer _ _ _ _ _ _) as [[?|] ?]; cbn; [done|]. by rewrite add_event_world.
    + intros nm p. by apply SetPaused_erases.
Qed.

(** The wrappers of an automation's work and of its store leave the spans and the
    in-flight counters as they found them. *)
Theorem automation_spans_end_once name (work : WorkFunc T (Tel W)) (s : AutoStoreFns (Tel W)) options :
  keeps_all work → auto_store_keeps s →
  keeps_all (WithWorkTelemetry name work options) ∧ auto_store_keeps (WithAutomationStoreTelemetry s options).
Proof.
  intros Hw [Hac Hrn Hrl Hdf ? Hsp ? ? ? ?]. split.
  - intros item ctx t S lv _ Ha. unfold WithWorkTelemetry.
    destruct (tracer_Start _ _ _ _ _ _ _) as [[ctx' id] t1] eqn:Hs.
    destruct (accounts_start _ _ _ _ _ _ _ _ _ _ _ _ Ha Hs) as (Ha1 & Hid & Hc & _).
    specialize (Hw item ctx' _ _ _ Hc Ha1). cbn beta in Hw. destruct (work _ _ _) as [o t2]. cbn in Hw.
    destruct o as [[e|]|p]; cbn; [destruct (errors_As is_Deferred e)| |by apply accounts_End];
      cbn; apply accounts_End; try done; (apply accounts_emit; [done|]); apply accounts_emits; try done; quiet_tac.
  - split; cbn; try done; intros; [by apply Acquire_keeps|by apply Renew_keeps|by apply Release_keeps|by apply Defer_keeps|by apply SetPaused_keeps].
Qed.
End properties.

(** Whatever order Go ranges over the map in, the observer of an automation
    reports the same values, and of the phases exactly the current one as 1. *)
Theorem automation_observation order name st :
  (∀ l, order l ≡ₚ l) →
  let obs := ObserveAutomation order name st in
  (AutomationPhase, 1, [automation_name name; (AttrAutomationPhase, AString (AutoTypes.Phase_String (AutoTypes.st_Phase st)))]) ∈ obs ∧
  foldr (λ o n, (if bool_decide (o.1.1 = AutomationPhase) then o.1.2 else 0) + n) 0 obs = 1 ∧
  obs ≡ₚ ObserveAutomation id name st.
Proof.
  intros Ho obs.
  assert (obs ≡ₚ ObserveAutomation id name st) as Hp by (unfold obs, ObserveAutomation; by rewrite Ho).
  split_and!; [| |done].
  - rewrite Hp. unfold ObserveAutomation. rewrite elem_of_app. left. apply list_elem_of_fmap.
    exists (AutoTypes.st_Phase st). rewrite bool_decide_true by done. split; [done|]. unfold automationPhases.
    destruct (AutoTypes.st_Phase st); set_solver.
  - assert (∀ (f : observation → Z) l l', l ≡ₚ l' → foldr (λ o n, f o + n) 0 l = foldr (λ o n, f o + n) 0 l') as Hf.
    { intros f l l'. induction 1; cbn; lia. }
    rewrite (Hf _ _ _ Hp). unfold ObserveAutomation. destruct (AutoTypes.st_Phase st); vm_compute; done.
Qed.
