(* ===== verification/Logging.v ===== *)
(** * Logging of handlers ([logging])

    The wrappers that log what handlers do.  A logger is what it says to
    [Enabled]; the records it is given are kept next to the world. *)
From S2P Require Import Prelude Core Context CommandBus EventHandlers QueryBus.

Inductive Level : Type := LevelDebug | LevelInfo | LevelError.
#[export] Instance Level_eq_dec : EqDecision Level.
Proof. solve_decision. Defined.

Inductive log_value : Type := LString (s : string) | LUint64 (n : Z) | LError (e : error).

Record log_record : Type := mkLog { lr_level : Level; lr_msg : string; lr_attrs : list (string * log_value) }.

Record Logger : Type := mkLogger { Enabled : values → Level → bool }.

(** A world with the records written from it *)
Record Logged (W : Type) : Type := mkLogged { lg_world : W; lg_records : list log_record }.
Arguments mkLogged {W}. Arguments lg_world {W}. Arguments lg_records {W}.

(** [default_] is [slog.Default()]. *)
Definition loggerOrDefault (default_ : Logger) (logger : option Logger) : Logger :=
  match logger with Some l => l | None => default_ end.

Section logging.
Context {W : Type} `{UUIDString} (default_ : Logger).

Definition log (level : Level) (msg : string) (attrs : list (string * log_value)) (t : Logged W) : Logged W :=
  mkLogged (lg_world t) (lg_records t ++ [mkLog level msg attrs]).

(** [if logger.Enabled(ctx, level) { logger.LogAttrs(ctx, level, ...) }] *)
Definition log_if (logger : Logger) (ctx : values) (level : Level) (msg : string) (attrs : list (string * log_value)) (t : Logged W) :
    Logged W := if Enabled logger ctx level then log level msg attrs t else t.

(** ** Commands *)
Definition WithCommandLogging (logger : option Logger) (next : CommandHandler (Logged W)) : CommandHandler (Logged W) :=
  let logger := loggerOrDefault default_ logger in λ ctx cmd t,
  let attrs := [("command_type", LString (cmd_CommandType cmd)); ("aggregate_id", LString (cmd_AggregateID cmd))] in
  let t := log_if logger ctx LevelInfo "dispatching command" attrs t in
  match next ctx cmd t with
  | (HReturns result (Some err), t) =>
    let '(level, msg) := match errors_As is_BusinessRule err with
                         | Some _ => (LevelInfo, "command rejected")
                         | None => (LevelError, "command failed")
                         end in
    (HReturns result (Some err), log_if logger ctx level msg (attrs ++ [("error", LError err)]) t)
  | (o, t) => (o, t)
  end.

Definition CommandLogging (logger : option Logger) : CommandHandlerMiddleware (W := Logged W) := λ next,
  WithCommandLogging logger next.

(** ** Queries *)

(** The printed name of the dynamic type of a query *)
Context (printed : Value → string).

Definition WithQueryLogging (logger : option Logger) (next : QueryHandler (Logged W)) : QueryHandler (Logged W) :=
  let logger := loggerOrDefault default_ logger in
  mkQueryHandler (qh_T next) (qh_R next) (λ ctx qry t,
    let t := log_if logger ctx LevelInfo "handling query" [("query_type", LString (printed qry))] t in
    match HandleQuery next ctx qry t with
    | (Returns (result, Some err), t) =>
      (Returns (result, Some err),
       log_if logger ctx LevelError "query failed" [("query_type", LString (printed qry)); ("error", LError err)] t)
    | (o, t) => (o, t)
    end).

Definition QueryLogging (logger : option Logger) (T R : GoType) : QueryHandlerMiddleware (Logged W) := λ next,
  HandleQuery (WithQueryLogging logger (mkQueryHandler T R next)).

(** ** Events *)
Definition eventAttrs (ctx : values) (ev : Event) : list (string * log_value) :=
  [("event_type", LString (ev_EventType ev)); ("stream_id", LString (StreamIDFromContext ctx));
   ("aggregate_id", LString (AggregateIDFromContext ctx)); ("version", LUint64 (VersionFromContext ctx));
   ("global_position", LUint64 (GlobalPositionFromContext ctx));
   ("event_id", LString (uuid_String (EventIDFromContext ctx))); ("correlation_id", LString (CorrelationIDFromContext ctx))].

Definition LoggedFunc : Type := values → option Event → Logged W → outcome (option error) * Logged W.

(** Building the attributes of a nil event panics. *)
Definition log_event (on : bool) (ctx : values) (event : option Event) (level : Level) (msg : string)
    (extra : list (string * log_value)) (t : Logged W) : outcome () * Logged W :=
  if on then
    match event with
    | Some ev => (Returns (), log level msg (eventAttrs ctx ev ++ extra) t)
    | None => (Panics "nil pointer dereference", t)
    end
  else (Returns (), t).

(** [text] is [err.Error()]. *)
Definition WithEventLogging (text : error → string) (logger : option Logger) (next : LoggedFunc) : LoggedFunc :=
  let logger := loggerOrDefault default_ logger in λ ctx event t,
  let debug := Enabled logger ctx LevelDebug in
  match log_event debug ctx event LevelDebug "handling event" [] t with
  | (Panics p, t) => (Panics p, t)
  | (Returns _, t) =>
    match next ctx event t with
    | (Panics p, t) => (Panics p, t)
    | (Returns err, t) =>
      let '(o, t) :=
        match err with
        | None => log_event debug ctx event LevelDebug "event handled" [] t
        | Some e =>
          match errors_As is_Skipped e with
          | Some _ => log_event debug ctx event LevelDebug "event skipped" [("reason", LString (text e))] t
          | None => log_event (Enabled logger ctx LevelError) ctx event LevelError "event failed" [("error", LError e)] t
          end
        end in
      (match o with Returns _ => Returns err | Panics p => Panics p end, t)
    end
  end.

(** [EventLogging], and the deprecated [WithLoggingMiddleware] *)
Definition EventLogging (text : error → string) (logger : option Logger) (next : LoggedFunc) : LoggedFunc :=
  WithEventLogging text logger next.
Definition WithLoggingMiddleware (text : error → string) (logger : option Logger) (next : LoggedFunc) : LoggedFunc :=
  WithEventLogging text logger next.
End logging.
Arguments LoggedFunc : clear implicits.

(** ** Proofs *)

(** A handler over the logged world that does what [f0] does, and writes
    records of its own *)
Definition logs_on {W M A} (f : values → M → Logged W → A * Logged W) (f0 : values → M → W → A * W) : Prop :=
  ∀ ctx m t, ((f ctx m t).1, lg_world (f ctx m t).2) = f0 ctx m (lg_world t).

(** The failures a report of records shows *)
Definition failures_in (rs : list log_record) : nat := length (bfilter (λ r, bool_decide (lr_level r = LevelError)) rs).
Arguments failures_in : simpl never.

Section facts.
Context {W : Type} `{UUIDString} (default_ : Logger).
Implicit Types (t : Logged W).

Lemma log_if_world logger ctx level msg attrs t : lg_world (log_if logger ctx level msg attrs t) = lg_world t.
Proof. unfold log_if. by destruct (Enabled _ _ _). Qed.

Lemma log_event_some on ctx ev level msg extra t :
  ∃ t', log_event on ctx (Some ev) level msg extra t = (Returns (), t') ∧ lg_world t' = lg_world t.
Proof. unfold log_event. destruct on; by eexists. Qed.

Lemma log_off on ctx event level msg extra t : on = false → log_event on ctx event level msg extra t = (Returns (), t).
Proof. by intros ->. Qed.

(** Logging changes nothing for the program: the wrappers return what the handlers
    return and leave the program's world as they leave it. *)
Theorem handlers_do_not_see_logging logger printed text
    (command : CommandHandler (Logged W)) command0 (query : QueryHandler (Logged W)) query0 (event : LoggedFunc W) event0 :
  logs_on command command0 → logs_on (HandleQuery query) query0 → logs_on event event0 →
  logs_on (WithCommandLogging default_ logger command) command0 ∧
  logs_on (HandleQuery (WithQueryLogging default_ printed logger query)) query0 ∧
  (∀ ctx ev t, let r := WithEventLogging default_ text logger event ctx (Some ev) t in
     (r.1, lg_world r.2) = event0 ctx (Some ev) (lg_world t)).
Proof.
  intros Hc Hq He. split_and!.
  - intros ctx cmd t. unfold WithCommandLogging. set (t1 := log_if _ _ _ _ _ t). pose proof (Hc ctx cmd t1) as Hn.
    unfold t1 in Hn at 3. rewrite log_if_world in Hn. rewrite <- Hn.
    destruct (command ctx cmd t1) as [[result [err|]|v] t2]; cbn; [|done..].
    destruct (errors_As is_BusinessRule err); cbn; by rewrite log_if_world.
  - intros ctx qry t. unfold WithQueryLogging; cbn. set (t1 := log_if _ _ _ _ _ t). pose proof (Hq ctx qry t1) as Hn.
    unfold t1 in Hn at 3. rewrite log_if_world in Hn. rewrite <- Hn.
    destruct (HandleQuery query ctx qry t1) as [[[result [err|]]|v] t2]; cbn; [|done..]. by rewrite log_if_world.
  - intros ctx ev t. unfold WithEventLogging.
    destruct (log_event_some (Enabled (loggerOrDefault default_ logger) ctx LevelDebug) ctx ev LevelDebug "handling event" [] t)
      as (t1 & -> & Hw). rewrite <- Hw, <- He. destruct (event ctx (Some ev) t1) as [[err|p] t2]; [|done].
    assert (∀ on level msg extra, ((let '(o, t) := log_event on ctx (Some ev) level msg extra t2 in
      (match o with Returns _ => Returns err | Panics p => Panics p end, t)).1,
      lg_world (let '(o, t) := log_event on ctx (Some ev) level msg extra t2 in
      (match o with Returns _ => Returns err | Panics p => Panics p end, t)).2) = (Returns err, lg_world t2)) as Hl.
    { intros on level msg extra. destruct (log_event_some on ctx ev level msg extra t2) as (t3 & -> & Hw3). cbn. by rewrite Hw3. }
    destruct err as [e|]; [destruct (errors_As is_Skipped e)|]; apply Hl.
Qed.

Lemma failures_in_app rs rs' : failures_in (rs ++ rs') = (failures_in rs + failures_in rs')%nat.
Proof. unfold failures_in. by rewrite bfilter_app, length_app. Qed.

(** A record of a failure counts if the logger is on. *)
Lemma failures_log_if logger ctx level msg attrs t :
  failures_in (lg_records (log_if logger ctx level msg attrs t)) =
  (failures_in (lg_records t) + if Enabled logger ctx level && bool_decide (level = LevelError) then 1 else 0)%nat.
Proof.
  unfold log_if. destruct (Enabled _ _ _); cbn; [|lia]. rewrite failures_in_app. f_equal.
  by destruct level.
Qed.

Lemma failures_log_event on ctx ev level msg extra t :
  failures_in (lg_records (log_event on ctx (Some ev) level msg extra t).2) =
  (failures_in (lg_records t) + if on && bool_decide (level = LevelError) then 1 else 0)%nat.
Proof.
  unfold log_event. destruct on; cbn; [|lia]. rewrite failures_in_app. f_equal.
  by destruct level.
Qed.

(** A handler that writes no record *)
Definition writes_nothing {M A} (f : values → M → Logged W → A * Logged W) : Prop :=
  ∀ ctx m t, lg_records (f ctx m t).2 = lg_records t.

(** The calls that are failures, and not rejections or skips *)
Definition command_failures (o : handler_outcome) : nat :=
  match o with
  | HReturns _ (Some e) => if errors_As is_BusinessRule e then 0%nat else 1%nat
  | _ => 0%nat
  end.
Definition query_failures (o : outcome (Value * option error)) : nat :=
  match o with Returns (_, Some _) => 1%nat | _ => 0%nat end.
Definition event_failures (o : outcome (option error)) : nat :=
  match o with Returns (Some e) => if errors_As is_Skipped e then 0%nat else 1%nat | _ => 0%nat end.

(** With errors enabled, a wrapper writes one error record for a call that failed
    and none for one that succeeded, was rejected by a business rule or
    skipped its event. *)
Theorem failures_are_logged_once logger printed text (command : CommandHandler (Logged W)) (query : QueryHandler (Logged W)) (event : LoggedFunc W) :
  (∀ ctx, Enabled (loggerOrDefault default_ logger) ctx LevelError = true) →
  writes_nothing command → writes_nothing (HandleQuery query) → writes_nothing event →
  (∀ ctx cmd t, let r := WithCommandLogging default_ logger command ctx cmd t in
     failures_in (lg_records r.2) = (failures_in (lg_records t) + command_failures r.1)%nat) ∧
  (∀ ctx qry t, let r := HandleQuery (WithQueryLogging default_ printed logger query) ctx qry t in
     failures_in (lg_records r.2) = (failures_in (lg_records t) + query_failures r.1)%nat) ∧
  (∀ ctx ev t, let r := WithEventLogging default_ text logger event ctx (Some ev) t in
     failures_in (lg_records r.2) = (failures_in (lg_records t) + event_failures r.1)%nat).
Proof.
  intros Hon Hc Hq He. split_and!.
  - intros ctx cmd t. unfold WithCommandLogging. set (t1 := log_if _ _ _ _ _ t). specialize (Hc ctx cmd t1).
    assert (failures_in (lg_records t1) = failures_in (lg_records t)) as Ht1.
    { unfold t1. rewrite failures_log_if. cbn. rewrite andb_false_r. lia. }
    destruct (command ctx cmd t1) as [[result [err|]|v] t2]; cbn in Hc |- *; rewrite <- ?Ht1, <- ?Hc; try (cbn; lia).
    destruct (errors_As is_BusinessRule err) eqn:Hb; cbn; rewrite failures_log_if, ?Hon, ?andb_false_r; cbn; by rewrite ?Hb.
  - intros ctx qry t. unfold WithQueryLogging; cbn. set (t1 := log_if _ _ _ _ _ t). specialize (Hq ctx qry t1).
    assert (failures_in (lg_records t1) = failures_in (lg_records t)) as Ht1.
    { unfold t1. rewrite failures_log_if. cbn. rewrite andb_false_r. lia. }
    destruct (HandleQuery query ctx qry t1) as [[[result [err|]]|v] t2]; cbn in Hq |- *; rewrite <- ?Ht1, <- ?Hq; try (cbn; lia).
    rewrite failures_log_if, Hon. done.
  - intros ctx ev t. unfold WithEventLogging. set (l := loggerOrDefault default_ logger).
    destruct (log_event_some (Enabled l ctx LevelDebug) ctx ev LevelDebug "handling event" [] t) as (t1 & Ht1 & _).
    pose proof (failures_log_event (Enabled l ctx LevelDebug) ctx ev LevelDebug "handling event" [] t) as Hf1.
    rewrite Ht1 in Hf1 |- *. cbn in Hf1. rewrite andb_false_r in Hf1.
    specialize (He ctx (Some ev) t1). destruct (event ctx (Some ev) t1) as [[err|p] t2]; cbn in He |- *; [|rewrite He; lia].
    assert (∀ on level msg extra, failures_in (lg_records (let '(o, t) := log_event on ctx (Some ev) level msg extra t2 in
      (match o with Returns _ => Returns err | Panics p => Panics p end, t)).2) =
      (failures_in (lg_records t) + if on && bool_decide (level = LevelError) then 1 else 0)%nat) as Hl.
    { intros on level msg extra. pose proof (failures_log_event on ctx ev level msg extra t2) as Hf2.
      destruct (log_event_some on ctx ev level msg extra t2) as (t3 & Ht3 & _). rewrite Ht3 in Hf2 |- *. cbn in Hf2 |- *.
      rewrite Hf2, He, Hf1. lia. }
    assert (∀ on level msg extra, (let '(o, t) := log_event on ctx (Some ev) level msg extra t2 in
      (match o with Returns _ => Returns err | Panics p => Panics p end, t)).1 = Returns err) as Hr.
    { intros on level msg extra. by destruct (log_event_some on ctx ev level msg extra t2) as (t3 & -> & _). }
    destruct err as [e|]; [destruct (errors_As is_Skipped e) eqn:Hs|]; cbn [event_failures]; rewrite Hl, Hr; cbn; rewrite ?Hs;
      rewrite ?andb_false_r; try done. unfold l. by rewrite Hon.
Qed.
End facts.
