(* ===== verification/TelemetryExamples.v ===== *)
(** * Telemetry and logging at concrete inputs

    A propagator that satisfies its laws, handlers over a counting world, and
    the witnesses of the properties of the wrappers. *)
From Stdlib Require Import Strings.Ascii.
From S2P Require Import Prelude Core Iter Context ProjStore Samples MemWorld CommandBus EventHandlers QueryBus Telemetry TelemetryHandlers TelemetryEvents TelemetryProj.

(** ** A propagator: one header that spells the span *)
Fixpoint tally (n : nat) : string := match n with O => "" | S n => String "i" (tally n) end.
Definition spell (id : Z) : string := String (if (id <? 0)%Z then "-"%char else "+"%char) (tally (Z.to_nat (Z.abs id))).
Definition unspell (s : string) : Z :=
  match s with
  | String "-" s => - Z.of_nat (String.length s)
  | String _ s => Z.of_nat (String.length s)
  | "" => 0
  end.

Lemma length_tally n : String.length (tally n) = n.
Proof. induction n as [|n IH]; cbn; [done|]. by rewrite IH. Qed.

Lemma unspell_spell id : unspell (spell id) = id.
Proof. unfold spell, unspell. destruct (Z.ltb_spec id 0); cbn; rewrite length_tally; lia. Qed.

Arguments spell : simpl never.
Arguments unspell : simpl never.

#[export] Instance sample_propagator : Propagator := {
  Inject ctx := match SpanFromContext ctx with Some id => {["traceparent" := spell id]} | None => ∅ end;
  Extract m := unspell <$> m !! "traceparent";
}.

#[export] Instance sample_propagator_laws : PropagatorLaws sample_propagator.
Proof.
  split.
  - intros ctx. cbn. destruct (SpanFromContext ctx); [|apply map_Forall_empty]. by apply map_Forall_singleton.
  - intros ctx id m Hs Hm. cbn in *. rewrite Hs in Hm. apply map_singleton_subseteq_l in Hm. rewrite Hm. cbn.
    by rewrite unspell_spell.
Qed.

(** ** Handlers over a counting world, whose clock is the count *)
#[export] Instance counting_clock : WallClock Z := λ n, n.

Definition counted_command : values → Command → Z → handler_outcome * Z := λ _ cmd n,
  if bool_decide (cmd_CommandType cmd = "Explode") then (HPanics (inr "boom"), n + 1)
  else if bool_decide (cmd_CommandType cmd = "Reject")
  then (HReturns (failed_append "s") (Some (BusinessRuleViolationError (New "no"))), n + 1)
  else (HReturns (mkAppendResult true "s" 3 7) None, n + 2).

Definition counted_query : values → Value → Z → outcome (Value * option error) * Z := λ _ _ n,
  (Returns (None, Some (Sentinel context_Canceled)), n + 1).

Definition counted_event : values → option Event → Z → outcome (option error) * Z := λ ctx _ n,
  (Returns (Some (SkippedEventError None (StreamIDFromContext ctx) None)), n + 1).

Definition silently {M A} (h0 : values → M → Z → A * Z) : values → M → Tel Z → A * Tel Z := λ ctx m, silent (λ ctx, h0 ctx m) ctx.

Lemma silently_reports {M A} (h0 : values → M → Z → A * Z) : (∀ m, oblivious (λ ctx, h0 ctx m)) → reports_on (silently h0) h0.
Proof. intros Ho m. split; [apply silent_erases|apply Ho]. Qed.

Lemma silently_keeps {M A} (h0 : values → M → Z → A * Z) : keeps_all (silently h0).
Proof. intros m. apply silent_keeps. Qed.

Lemma counted_event_oblivious ev : oblivious (λ ctx, counted_event ctx ev).
Proof.
  intros ctx w v. unfold counted_event, StreamIDFromContext, WithValue. cbn.
  by rewrite !lookup_insert_ne.
Qed.

Definition a_command (type_ : string) : Command := mkCommand "main.Cmd" "a-1" type_ "".
Definition an_event : Event := mkEvent "main.Done" true "a-1" "Done" "".
Definition started : Tel Z := mkTel 10 0 [].

(** A rejected command: its span is fine, its result is "rejected". *)
Example rejected_command :
  let r := CommandTelemetry [WithOperation "op"] (silently counted_command) ∅ (a_command "Reject") started in
  lifecycle (tel_signals r.2) = Some (1, ∅) ∧ tel_world r.2 = 11 ∧
  Measured CommandDuration (Some 0) (RecordedSeconds 1)
    [(AttrCommandType, AString "Reject"); (AttrResult, AString "rejected")] ∈ tel_signals r.2.
Proof. split_and!; [vm_compute; reflexivity..|]. cbn. set_solver. Qed.

(** Telemetry around telemetry *)
Definition nested := CommandTelemetry [] (WithCommandTelemetry (silently counted_command) []).

Example nested_spans :
  lifecycle (tel_signals (nested ∅ (a_command "Explode") started).2) = Some (2, ∅) ∧
  in_flight CommandActive (tel_signals (nested ∅ (a_command "Explode") started).2) = 0.
Proof. by vm_compute. Qed.

Lemma handlers_do_not_see_telemetry_witness :
  let r := CommandTelemetry [] (silently counted_command) ∅ (a_command "Place") started in
  (r.1, tel_world r.2) = (HReturns (mkAppendResult true "s" 3 7) None, 12).
Proof.
  pose proof (handlers_do_not_see_telemetry id fst [] (silently counted_command) counted_command
    (silently counted_query) counted_query (silently counted_event) counted_event) as [H _].
  - apply silently_reports. done.
  - apply silently_reports. done.
  - apply silently_reports. apply counted_event_oblivious.
  - exact (proj1 (H ∅ (a_command "Place") started)).
Defined.

Lemma handler_spans_end_once_witness :
  accounts ∅ (λ _, 0) (CommandTelemetry [] (silently counted_command) ∅ (a_command "Explode") started).2.
Proof.
  pose proof (handler_spans_end_once id fst [] (silently counted_command) (silently counted_query) (silently counted_event)) as [H _];
    [apply silently_keeps..|].
  apply (H (a_command "Explode") ∅ started); [by intros id|apply accounts_empty].
Defined.

(** ** An event store that takes everything, and one stream to load *)
Definition an_envelope : Envelope := mkEnvelope 5 "s" None "" "" (Some an_event) 1 1 0.

Definition accepting : SaveFunc Z := λ _ events _ n, ((Returns (mkAppendResult true "s" (zlen events) n, None), events), n + 1).
Definition tel_accepting : SaveFunc (Tel Z) := λ ctx events revision, silent (λ ctx, accepting ctx events revision) ctx.

Definition an_open (_ : values) (t : Tel Z) : outcome (result error (Iterator nat Envelope)) * Tel Z :=
  (Returns (Ok (NewSliceIterator [an_envelope; an_envelope])), t).

Definition a_load : outcome (result error (Iterator (Iterator nat Envelope * load_state) Envelope)) * Tel Z :=
  load (configure []) (λ _ : nat, 0) ∅ [] an_open started.

Definition loaded_iterator : Iterator (Iterator nat Envelope * load_state) Envelope :=
  match a_load.1 with Returns (Ok it) => it | _ => NewIteratorFunc (λ c st, (Fail (Sentinel io_EOF), c, st)) None (NewSliceIterator [], mkLoad 0 0 []) end.

Lemma load_span_covers_the_load_witness :
  let it := (Close (Next None loaded_iterator).2).2 in
  ls_signals (it_state it).2 =
    replicate 1 (loaded_signal (configure []) (WithValue ∅ spanKey (VSpan 0))) ++
    end_signals (configure []) (WithValue ∅ spanKey (VSpan 0)) 0 0 1 None.
Proof.
  exact (load_span_covers_the_load (configure []) (λ _ : nat, 0) ∅ [] an_open started loaded_iterator a_load.2 1
    (Close (Next None loaded_iterator).2).2 eq_refl
    (reads_close _ _ _ (reads_item _ _ _ None None _ (reads_start loaded_iterator) eq_refl))).
Defined.

Definition a_save := Save (configure []) tel_accepting ∅ [an_envelope] NoStream started.

Lemma handler_span_links_to_the_append_witness :
  ∃ s, Started 1 s ∈ tel_signals (WithEventTelemetry (silently counted_event) [] (withEnvelope ∅ (inject {["traceparent" := "+"]} an_envelope) 0)
         (Some an_event) a_save.2).2 ∧ fst <$> ss_links s = [0].
Proof.
  refine (proj2 (handler_span_links_to_the_append (configure []) tel_accepting ∅ [an_envelope] NoStream started
    (mkAppendResult true "s" 1 10, None) [inject {["traceparent" := "+"]} an_envelope] a_save.2
    (inject {["traceparent" := "+"]} an_envelope) _ [] (silently counted_event) ∅ 0 an_event a_save.2 _ _ _ _ _ _)).
  - intros evs ctx t. unfold tel_accepting, silent. by destruct (accepting _ _ _ _).
  - intros ctx evs t. done.
  - intros ctx t. unfold silently, silent. by destruct (counted_event _ _ _).
  - vm_compute. reflexivity.
  - by left.
  - done.
Defined.

(** ** A projection store with nothing behind it *)
Definition no_store : StoreFns Z := mkProjStoreFns (λ _ _ _ _ n, (None, n)) (λ _ l _ n, (l, mkCheckpoint 0 1 0 "", true, None, n))
  (λ ctx _ _ _ fn n, fn ctx (n + 1)) (λ ctx _ _ fn n, fn ctx (n + 1)) (λ _ _ n, (None, n)) (λ _ _ _ n, (None, n))
  (λ _ _ n, (Ok [], n)) (λ _ _ n, (Ok 1, n)) (λ _ _ n, (Ok (1, 0), n)) (λ _ _ _ _ n, (None, n)) (λ _ _ n, (Ok (0, ""), n))
  (λ _ _ o v _ n, ([mkInstance o v 1 0], None, n)) (λ _ _ n, (Ok [], n)) None.

(** The same over the reporting world; the function of a unit runs there. *)
Definition tel_no_store : StoreFns (Tel Z) := mkProjStoreFns (λ _ _ _ _ t, (None, t)) (λ _ l _ t, (l, mkCheckpoint 0 1 0 "", true, None, t))
  (λ ctx _ _ _ fn t, fn ctx (mkTel (tel_world t + 1) (tel_spans t) (tel_signals t)))
  (λ ctx _ _ fn t, fn ctx (mkTel (tel_world t + 1) (tel_spans t) (tel_signals t))) (λ _ _ t, (None, t)) (λ _ _ _ t, (None, t))
  (λ _ _ t, (Ok [], t)) (λ _ _ t, (Ok 1, t)) (λ _ _ t, (Ok (1, 0), t)) (λ _ _ _ _ t, (None, t)) (λ _ _ t, (Ok (0, ""), t))
  (λ _ _ o v _ t, ([mkInstance o v 1 0], None, t)) (λ _ _ t, (Ok [], t)) None.

Lemma no_store_erases : store_erases tel_no_store no_store.
Proof.
  split; cbn; try done.
  - intros l cp st fn fn0 [He Ho]. split; [|intros ctx w v; apply Ho]. intros ctx t. apply (He ctx).
  - intros l v fn fn0 [He Ho]. split; [|intros ctx w v'; apply Ho]. intros ctx t. apply (He ctx).
  - constructor.
Qed.

Definition batch0 : UnitFn Z := λ ctx n, counted_event ctx None n.

Lemma projection_store_does_not_see_telemetry_witness :
  let s := WithProjectionStoreTelemetry tel_no_store [] in
  let st := mkStatus Live 5 5 1 "" "o" 0 0 0 0 false in
  let r := pf_Commit s ∅ (mkLease "p" 0 "o" 1) (mkCheckpoint 5 1 0 "") st (silent batch0) started in
  (r.1, tel_world r.2) = (Returns (Some (SkippedEventError None "" None)), 12).
Proof.
  intros s st. pose proof (projection_store_does_not_see_telemetry tel_no_store no_store [] no_store_erases) as H.
  refine (proj1 (se_Commit _ _ H (mkLease "p" 0 "o" 1) (mkCheckpoint 5 1 0 "") st (silent batch0) batch0 _) ∅ started).
  split; [apply silent_erases|apply counted_event_oblivious].
Defined.
