(* ===== verification/DashEvents.v ===== *)
(** * The events view of the dashboard ([dashboard/events.go])

    The log, newest first, over a [GlobalReader], which only reads forwards:
    a window that ends where the page ends is widened until it holds a page
    of matches. *)
From S2P Require Import Prelude Core Iter Registry Context Log MemStore SqlEvents.

Definition defaultEventPage : Z := 50.
Definition maxEventPage : Z := 500.
Definition maxEventScan : Z := 100000.

(** The payload, or the error shown in its place. *)
Inductive shown_payload : Type := ShowPayload (data : string) | ShowError (e : error).

Record eventView : Type := mkEventView {
  ev_Position : Z;
  ev_EventID : string;
  ev_StreamID : string;
  ev_Version : Z;
  ev_Type : string;
  ev_OccurredAt : time;
  ev_CorrelationID : string;
  ev_CausationID : string;
  ev_Metadata : metadata;
  ev_Payload : shown_payload;
}.

Definition newEventView `{J : JSON, U : UUIDString} (reg : Registry) (env : Envelope) : eventView :=
  mkEventView (GlobalPosition env) (uuid_String (EventID env)) (StreamID env) (Version env) (env_type env) (OccurredAt env)
    (CorrelationID env) (CausationID env) (Metadata env)
    (match EncodeEvent (env_Event env) reg with Ok data => ShowPayload data | Fail e => ShowError e end).

Record eventsPage : Type := mkEventsPage {
  ep_Events : list eventView;
  ep_Head : Z;
  ep_Older : Z;
  ep_Scanned : Z;
}.

Section reading.
Context `{GR : GlobalReader R}.

(** ** [readRange] *)

(** The loop over a page's events: what it keeps, and whether it returned. *)
Fixpoint keep_until (end_ : Z) (evs out : log) : log * bool :=
  match evs with
  | [] => (out, false)
  | env :: evs => if end_ <? GlobalPosition env then (out, true) else keep_until end_ evs (out ++ [env])
  end.

Fixpoint range_loop (fuel : nat) (r : R) (after end_ : Z) (opts : ReadOptions) (out : log) : option (result error log) :=
  if negb (after <? end_) then Some (Ok out)
  else match fuel with
  | O => None
  | S fuel =>
    match reader_ReadAll r after opts with
    | Fail e => Some (Fail e)
    | Ok res =>
      let '(out, returned) := keep_until end_ (rr_Events res) out in
      if returned || rr_AtEnd res || (rr_Next res <=? after) || (end_ <=? rr_Next res) then Some (Ok out)
      else range_loop fuel r (rr_Next res) end_ opts out
    end
  end.

(** [opts] with the limit of a page *)
Definition page_options (opts : ReadOptions) : ReadOptions := mkReadOptions maxEventPage (EventTypes opts) (StreamPrefixes opts).

Definition readRange (fuel : nat) (r : R) (after end_ : Z) (opts : ReadOptions) : option (result error log) :=
  range_loop fuel r after end_ (page_options opts) [].

(** ** [readBackwards] *)

(** The loop that widens the window: what it found, [Older] and [Scanned]. *)
Fixpoint back_loop (turns fuel : nat) (r : R) (end_ limit window : Z) (opts : ReadOptions) :
    option (result error (log * Z * Z)) :=
  match turns with
  | O => None
  | S turns =>
    let start := if window <? end_ then end_ - window else 0 in
    match readRange fuel r start end_ opts with
    | None => None
    | Some (Fail e) => Some (Fail e)
    | Some (Ok found) =>
      if limit <=? zlen found then
        let found := drop (length found - Z.to_nat limit) found in
        Some (Ok (found, match found with env :: _ => GlobalPosition env | [] => 0 end, 0))
      else if start =? 0 then Some (Ok (found, 0, 0))
      else if maxEventScan <=? end_ - start then Some (Ok (found, start + 1, start + 1))
      else back_loop turns fuel r end_ limit (Z.min (u64 (window * 4)) maxEventScan) opts
    end
  end.

(** Enough turns for a window that starts with one position. *)
Definition back_turns : nat := 10.

(** The last position of the page before [before]. *)
Definition back_end (head before : Z) : Z := if (0 <? before) && (before - 1 <? head) then before - 1 else head.

Definition readBackwards `{J : JSON, U : UUIDString} (reg : Registry) (fuel : nat) (r : R) (before limit : Z) (opts : ReadOptions) :
    option (result error eventsPage) :=
  match reader_Head r with
  | Fail e => Some (Fail e)
  | Ok head =>
    let end_ := back_end head before in
    if end_ =? 0 then Some (Ok (mkEventsPage [] head 0 0))
    else match back_loop back_turns fuel r end_ limit limit opts with
    | None => None
    | Some (Fail e) => Some (Fail e)
    | Some (Ok (found, older, scanned)) =>
      Some (Ok (mkEventsPage (newEventView reg <$> reverse found) head older scanned))
    end
  end.

(** A reader that follows [Older] to the end of the log. *)
Fixpoint browse `{J : JSON, U : UUIDString} (reg : Registry) (pages fuel : nat) (r : R) (before limit : Z) (opts : ReadOptions) :
    option (result error (list eventView)) :=
  match pages with
  | O => None
  | S pages =>
    match readBackwards reg fuel r before limit opts with
    | None => None
    | Some (Fail e) => Some (Fail e)
    | Some (Ok page) =>
      if ep_Older page =? 0 then Some (Ok (ep_Events page))
      else match browse reg pages fuel r (ep_Older page) limit opts with
           | Some (Ok evs) => Some (Ok (ep_Events page ++ evs))
           | other => other
           end
    end
  end.
End reading.

(** ** What the view shows *)

(** The contract of a reader whose log is [l] and whose newest position is
    [head]; [head] may be behind. *)
Record reads_log `{GR : GlobalReader R} (opts : ReadOptions) (r : R) (l : log) (head : Z) : Prop := {
  rl_ordered : ordered l;
  rl_page after : 0 ≤ after ≤ max_int64 → ∃ res, reader_ReadAll r after (page_options opts) = Ok res ∧ page_of l after (page_options opts) res;
  rl_head : reader_Head r = Ok head;
  rl_head_bound : 0 ≤ head ≤ max_int64;
}.

(** The matching events in [(after, end_]]. *)
Definition in_range (opts : ReadOptions) (after end_ : Z) (env : Envelope) : bool :=
  (after <? GlobalPosition env) && (GlobalPosition env <=? end_) && env_matches opts env.

Section proofs.
Context `{GR : GlobalReader R}.
Implicit Types (r : R) (l : log).

Lemma keep_until_spec end_ evs out : StronglySorted (λ a b, GlobalPosition a < GlobalPosition b) evs →
  keep_until end_ evs out = (out ++ bfilter (λ env, GlobalPosition env <=? end_) evs, existsb (λ env, end_ <? GlobalPosition env) evs).
Proof.
  intros Hs. revert out. induction Hs as [|env evs Hs IH Hx]; intros out; cbn; [by rewrite app_nil_r|].
  destruct (Z.ltb_spec end_ (GlobalPosition env)), (Z.leb_spec (GlobalPosition env) end_); try lia; cbn.
  - rewrite bfilter_none, app_nil_r; [done|]. eapply Forall_impl; [exact Hx|]. intros e He. apply Z.leb_gt. cbn in He. lia.
  - by rewrite IH, <- app_assoc.
Qed.

Lemma bfilter_range_split opts l a b end_ : StronglySorted (λ x y, GlobalPosition x < GlobalPosition y) l → a ≤ b ≤ end_ →
  bfilter (in_range opts a b) l ++ bfilter (in_range opts b end_) l = bfilter (in_range opts a end_) l.
Proof.
  intros Hs Hab.
  assert (∀ e, e ∈ l → in_range opts a end_ e = (a <? GlobalPosition e) && ((GlobalPosition e <=? end_) && env_matches opts e)) as H3
    by (intros; unfold in_range; by rewrite andb_assoc).
  rewrite (bfilter_ext _ _ _ H3). rewrite <- (split_ascending GlobalPosition (λ env, (GlobalPosition env <=? end_) && env_matches opts env) l a b) by (done || lia).
  f_equal; apply bfilter_ext; intros e _; unfold in_range.
  - destruct (Z.leb_spec (GlobalPosition e) b); [|by rewrite andb_false_r].
    rewrite (proj2 (Z.leb_le (GlobalPosition e) end_)) by lia. done.
  - by rewrite andb_assoc.
Qed.

Lemma range_loop_spec r l head opts end_ : reads_log opts r l head → end_ ≤ max_int64 → ∀ fuel after out, 0 ≤ after →
  zlen (bfilter (λ env, after <? GlobalPosition env) l) < Z.of_nat fuel →
  range_loop fuel r after end_ (page_options opts) out = Some (Ok (out ++ bfilter (in_range opts after end_) l)).
Proof.
  intros [Ho Hpage _ _] Hend fuel. induction fuel as [|fuel IH]; intros after out Ha Hf; [pose proof (zlen_nonneg (bfilter (λ env, after <? GlobalPosition env) l)); lia|].
  cbn [range_loop]. destruct (Z.ltb_spec after end_) as [Hlt|Hge]; cbn [negb].
  2: { rewrite bfilter_none, app_nil_r; [done|]. apply Forall_forall. intros e _. unfold in_range.
       destruct (Z.ltb_spec after (GlobalPosition e)), (Z.leb_spec (GlobalPosition e) end_); [lia|done..]. }
  destruct (Hpage after ltac:(lia)) as (res & -> & [Hev Hnext Hprog Hat _]).
  change (env_matches (page_options opts)) with (env_matches opts) in Hev.
  assert (bfilter (λ env, GlobalPosition env <=? end_) (rr_Events res) = bfilter (in_range opts after (Z.min end_ (rr_Next res))) l) as Hk.
  { rewrite Hev, bfilter_bfilter. apply bfilter_ext. intros e _. unfold in_range.
    destruct (after <? GlobalPosition e), (Z.leb_spec (GlobalPosition e) (rr_Next res)), (Z.leb_spec (GlobalPosition e) end_),
      (Z.leb_spec (GlobalPosition e) (Z.min end_ (rr_Next res))), (env_matches opts e); (done || lia). }
  rewrite keep_until_spec by (rewrite Hev; apply StronglySorted_bfilter, Ho). rewrite Hk.
  assert (end_ ≤ rr_Next res → out ++ bfilter (in_range opts after (Z.min end_ (rr_Next res))) l = out ++ bfilter (in_range opts after end_) l) as Hdone
    by (intros; by rewrite Z.min_l by lia).
  destruct (existsb _ (rr_Events res)) eqn:Hx; cbn [orb].
  { do 2 f_equal. apply Hdone. apply existsb_elem in Hx as (e & He & Hx%Z.ltb_lt). rewrite Hev in He.
    apply elem_of_bfilter in He as [Hb _]. apply andb_true_iff in Hb as [[_ Hb%Z.leb_le]%andb_true_iff _]. lia. }
  destruct (rr_AtEnd res) eqn:HE; cbn [orb].
  { do 3 f_equal. apply bfilter_ext. intros e He. pose proof (proj1 Hat eq_refl e He). unfold in_range.
    destruct (Z.leb_spec (GlobalPosition e) end_), (Z.leb_spec (GlobalPosition e) (Z.min end_ (rr_Next res))); (done || lia). }
  destruct (Hprog eq_refl) as (env & Hin & Hpos). destruct (Z.leb_spec (rr_Next res) after); [lia|]. cbn [orb].
  destruct (Z.leb_spec end_ (rr_Next res)); [do 2 f_equal; by apply Hdone|].
  rewrite IH; [|lia|].
  - rewrite <- app_assoc, Z.min_r by lia. by rewrite (bfilter_range_split opts l after (rr_Next res) end_ (ordered_positions _ Ho)) by lia.
  - pose proof (bfilter_length_lt (λ e, rr_Next res <? GlobalPosition e) (λ e, after <? GlobalPosition e) l env) as Hl.
    unfold zlen in *. specialize (Hl ltac:(intros e _; rewrite !Z.ltb_lt; lia) Hin ltac:(apply Z.ltb_lt; lia) ltac:(apply Z.ltb_ge; lia)). lia.
Qed.

Lemma readRange_spec r l head opts after end_ fuel : reads_log opts r l head → end_ ≤ max_int64 → 0 ≤ after → (length l < fuel)%nat →
  readRange fuel r after end_ opts = Some (Ok (bfilter (in_range opts after end_) l)).
Proof.
  intros Hr Hend Ha Hf. unfold readRange. rewrite (range_loop_spec r l head) by (done || (pose proof (bfilter_length (λ env, after <? GlobalPosition env) l); unfold zlen; lia)).
  done.
Qed.
End proofs.

(** ** One page *)

(** The end of a list sorted by position, from its first element. *)
Lemma drop_is_bfilter (l : log) k env evs : StronglySorted (λ a b, GlobalPosition a < GlobalPosition b) l →
  drop k l = env :: evs → bfilter (λ e, GlobalPosition env <=? GlobalPosition e) l = drop k l.
Proof.
  intros Hs Hd. rewrite <- (take_drop k l) at 1. rewrite <- (take_drop k l) in Hs.
  apply StronglySorted_app in Hs as (Hx & _ & Hs2). rewrite bfilter_app, bfilter_none, bfilter_all; [done| |].
  - rewrite Hd in *. apply StronglySorted_inv in Hs2 as [_ Hs2]. constructor; [apply Z.leb_refl|].
    eapply Forall_impl; [exact Hs2|]. intros e He. apply Z.leb_le. cbn in He. lia.
  - apply Forall_forall. intros e He. apply Z.leb_gt. apply Hx; [done|]. rewrite Hd. left.
Qed.

(** What a page holds: the matches from [older] to the end of the page, all
    of them; it is full, the log is exhausted, or the scan was capped. *)
Record back_page (l : log) (opts : ReadOptions) (end_ limit : Z) (found : log) (older scanned : Z) : Prop := {
  bp_found : found = bfilter (in_range opts (Z.max 0 (older - 1)) end_) l;
  bp_older : 0 ≤ older ≤ end_;
  bp_limit : zlen found ≤ limit;
  bp_short : older ≠ 0 → zlen found < limit → scanned = older ∧ maxEventScan ≤ end_ - (older - 1);
  bp_scanned : scanned ≠ 0 → scanned = older ∧ zlen found < limit;
}.

(** What the page shows of a run of the log: newest first. *)
Definition view_of `{J : JSON, U : UUIDString} (reg : Registry) (evs : log) : list eventView := newEventView reg <$> reverse evs.

Lemma view_of_app `{J : JSON, U : UUIDString} reg evs1 evs2 : view_of reg (evs1 ++ evs2) = view_of reg evs2 ++ view_of reg evs1.
Proof. unfold view_of. by rewrite reverse_app, fmap_app. Qed.

Lemma back_end_bound head before : 0 ≤ before → 0 ≤ head → 0 ≤ back_end head before ≤ head.
Proof. intros. unfold back_end. destruct (Z.ltb_spec 0 before), (Z.ltb_spec (before - 1) head); cbn; lia. Qed.

Lemma in_range_empty opts l a b : b ≤ a → bfilter (in_range opts a b) l = [].
Proof.
  intros. apply bfilter_none, Forall_forall. intros e _. unfold in_range.
  destruct (Z.ltb_spec a (GlobalPosition e)), (Z.leb_spec (GlobalPosition e) b); (done || lia).
Qed.

Section pages.
Context `{GR : GlobalReader R}.
Context (opts : ReadOptions) (r : R) (l : log) (head : Z) (Hr : reads_log opts r l head).

(** The page when the window holds enough: its last [limit] matches. *)
Lemma back_page_full start end_ limit : 0 ≤ start → 1 ≤ limit →
  let found := bfilter (in_range opts start end_) l in
  let kept := drop (length found - Z.to_nat limit) found in
  limit ≤ zlen found →
  back_page l opts end_ limit kept (match kept with env :: _ => GlobalPosition env | [] => 0 end) 0.
Proof using Hr.
  intros Hs Hlim found kept Hfull.
  assert (length kept = Z.to_nat limit) as Hkept by (subst kept; rewrite length_drop; unfold zlen in Hfull; lia).
  destruct kept as [|env evs] eqn:Hk; [cbn in Hkept; lia|]. rewrite <- Hk in *.
  assert (env ∈ found) as Hin.
  { rewrite <- (take_drop (length found - Z.to_nat limit) found). apply elem_of_app. right. fold kept. rewrite Hk. left. }
  apply elem_of_bfilter in Hin as [Hin _]. unfold in_range in Hin. rewrite !andb_true_iff, Z.ltb_lt, Z.leb_le in Hin.
  split; [|lia|unfold zlen; lia|unfold zlen; lia|done].
  subst kept. rewrite <- (drop_is_bfilter found _ env evs); [|subst found; apply StronglySorted_bfilter, Hr|done].
  subst found. rewrite bfilter_bfilter. apply bfilter_ext. intros e _. unfold in_range.
  destruct (Z.ltb_spec start (GlobalPosition e)), (Z.leb_spec (GlobalPosition env) (GlobalPosition e)),
    (Z.ltb_spec (Z.max 0 (GlobalPosition env - 1)) (GlobalPosition e)), (GlobalPosition e <=? end_), (env_matches opts e); (done || lia).
Qed.

Context (fuel : nat) (Hfuel : (length l < fuel)%nat).

(** A turn answers with a page, or widens the window. *)
Lemma back_loop_turn end_ limit turns window : 0 < end_ ≤ max_int64 → 1 ≤ limit → 1 ≤ window ≤ maxEventScan →
  (∃ found older scanned, back_loop (S turns) fuel r end_ limit window opts = Some (Ok (found, older, scanned)) ∧
    back_page l opts end_ limit found older scanned) ∨
  window < maxEventScan ∧ back_loop (S turns) fuel r end_ limit window opts =
    back_loop turns fuel r end_ limit (Z.min (window * 4) maxEventScan) opts.
Proof using Hr Hfuel.
  intros Hend Hlim Hw. cbn [back_loop]. set (start := if window <? end_ then end_ - window else 0).
  assert (0 ≤ start < end_ ∧ (start = 0 ∨ end_ - start = window)) as [Hs Hs2] by (subst start; destruct (Z.ltb_spec window end_); lia).
  rewrite (readRange_spec r l head) by (done || lia).
  destruct (Z.leb_spec limit (zlen (bfilter (in_range opts start end_) l))) as [Hfull|Hshort].
  { left. eexists _, _, _. split; [done|]. apply back_page_full; (done || lia). }
  destruct (Z.eqb_spec start 0) as [H0|H0].
  { left. eexists _, _, _. split; [done|]. split; [by rewrite H0|lia|lia|done|done]. }
  destruct (Z.leb_spec maxEventScan (end_ - start)) as [Hcap|Hcap].
  - left. eexists _, _, _. split; [done|]. split; [by replace (Z.max 0 (start + 1 - 1)) with start by lia|lia|lia|lia|lia].
  - right. unfold maxEventScan in *. rewrite u64_small by (unfold is_u64, two64; lia). split; [lia|done].
Qed.

Lemma back_loop_spec end_ limit : 0 < end_ ≤ max_int64 → 1 ≤ limit → ∀ turns window,
  1 ≤ window ≤ maxEventScan → maxEventScan ≤ window * 4 ^ Z.of_nat turns →
  ∃ found older scanned, back_loop (S turns) fuel r end_ limit window opts = Some (Ok (found, older, scanned)) ∧
    back_page l opts end_ limit found older scanned.
Proof using Hr Hfuel.
  intros Hend Hlim turns. induction turns as [|turns IH]; intros window Hw Hturns.
  - destruct (back_loop_turn end_ limit 0 window) as [?|[Hlt _]]; [done..|].
    change (4 ^ Z.of_nat 0) with 1 in Hturns. lia.
  - destruct (back_loop_turn end_ limit (S turns) window) as [?|[_ ->]]; [done..|].
    unfold maxEventScan in *. apply IH; [lia|]. rewrite Nat2Z.inj_succ, Z.pow_succ_r in Hturns by lia.
    pose proof (Z.pow_pos_nonneg 4 (Z.of_nat turns) ltac:(lia) ltac:(lia)). nia.
Qed.

Lemma back_loop_page end_ limit : 0 < end_ ≤ max_int64 → 1 ≤ limit ≤ maxEventPage →
  ∃ found older scanned, back_loop back_turns fuel r end_ limit limit opts = Some (Ok (found, older, scanned)) ∧
    back_page l opts end_ limit found older scanned.
Proof using Hr Hfuel.
  intros Hend Hlim. apply (back_loop_spec end_ limit Hend ltac:(lia) 9); unfold maxEventPage, maxEventScan in *; [lia|].
  change (4 ^ Z.of_nat 9) with 262144. lia.
Qed.

(** ** Following the pages *)
Context `{J : JSON, U : UUIDString} (reg : Registry).

Lemma readBackwards_spec before limit : 0 ≤ before → 1 ≤ limit ≤ maxEventPage →
  ∃ found older scanned, readBackwards reg fuel r before limit opts = Some (Ok (mkEventsPage (view_of reg found) head older scanned)) ∧
    back_page l opts (back_end head before) limit found older scanned.
Proof using Hr Hfuel.
  intros Hb Hlim. unfold readBackwards. rewrite (rl_head _ _ _ _ Hr). pose proof (rl_head_bound _ _ _ _ Hr).
  pose proof (back_end_bound head before Hb ltac:(lia)). destruct (Z.eqb_spec (back_end head before) 0) as [Hz|Hz].
  - exists [], 0, 0. split; [done|]. rewrite Hz. split; [by rewrite in_range_empty|lia|rewrite zlen_nil; lia|done|done].
  - destruct (back_loop_page (back_end head before) limit) as (found & older & scanned & -> & Hp); [lia..|].
    by exists found, older, scanned.
Qed.

Lemma browse_spec limit : 1 ≤ limit ≤ maxEventPage → ∀ pages before, 0 ≤ before → back_end head before < Z.of_nat pages →
  browse reg pages fuel r before limit opts = Some (Ok (view_of reg (bfilter (in_range opts 0 (back_end head before)) l))).
Proof using Hr Hfuel.
  intros Hlim pages. pose proof (rl_head_bound _ _ _ _ Hr).
  induction pages as [|pages IH]; intros before Hb Hp; pose proof (back_end_bound head before Hb ltac:(lia)); [lia|].
  cbn [browse]. destruct (readBackwards_spec before limit Hb Hlim) as (found & older & scanned & -> & [-> Ho _ _ _]).
  cbn [ep_Older ep_Events]. destruct (Z.eqb_spec older 0) as [->|]; [done|].
  assert (back_end head older = older - 1) as He.
  { unfold back_end. destruct (Z.ltb_spec 0 older), (Z.ltb_spec (older - 1) head); cbn; lia. }
  rewrite IH, He by lia. rewrite <- view_of_app, Z.max_r, (bfilter_range_split opts l 0 (older - 1)) by
    (lia || apply ordered_positions, Hr). done.
Qed.
End pages.

(** C12: The events view lists the log.  With a reader that keeps the GlobalReader
    contract, following Older from page to page ends and shows every matching
    event before the requested position (up to the head) exactly once, newest
    first, although a reader only reads forwards, windows are widened, pages
    are cut and a scan is capped. *)
Theorem event_pages_list_the_log `{GR : GlobalReader R, J : JSON, U : UUIDString} reg opts (r : R) l head limit before pages fuel :
  reads_log opts r l head → (length l < fuel)%nat → 1 ≤ limit ≤ maxEventPage → 0 ≤ before → (Z.to_nat head < pages)%nat →
  browse reg pages fuel r before limit opts = Some (Ok (newEventView reg <$> reverse (bfilter (λ env,
    (GlobalPosition env <=? back_end head before) && env_matches opts env) l))).
Proof.
  intros Hr Hfuel Hlim Hb Hp. pose proof (rl_head_bound _ _ _ _ Hr) as Hh. pose proof (back_end_bound head before Hb ltac:(lia)).
  rewrite (browse_spec opts r l head Hr fuel Hfuel reg limit Hlim pages before Hb ltac:(lia)). unfold view_of. do 4 f_equal.
  apply bfilter_ext. intros env Hin. unfold in_range. pose proof (ordered_positive _ (rl_ordered _ _ _ _ Hr) env Hin).
  by rewrite (proj2 (Z.ltb_lt 0 _)) by lia.
Qed.

(** ** Readers *)
Lemma mem_reads_log `{J : JSON} reg s l opts : represents reg s l → zlen l ≤ max_int64 → reads_log (GR := mem_reader reg) opts s l (zlen l).
Proof.
  intros Hrep Hroom. split.
  - by apply numbered_ordered; [apply (rep_numbered _ _ _ Hrep)|].
  - intros after Ha. destruct (ReadAll_page reg s l after (page_options opts) Hrep ltac:(lia)) as (res & He & Hp).
    exists res. split; [done|]. apply page_of_numbered; [apply (rep_numbered _ _ _ Hrep)|done..].
  - cbn. unfold Head. by rewrite (rep_zlen _ _ _ Hrep).
  - pose proof (zlen_nonneg l). lia.
Qed.
