(* ===== verification/DashView.v ===== *)
(** * The projections view of the dashboard ([dashboard/view.go])

    What the page shows of a projection: one word for each segment and for
    the whole, the totals, and an estimate of the speed over a sliding
    window.  A [float64] is a binary64 number of the standard library's
    [SpecFloat]. *)
From Stdlib Require Import SpecFloat.
From S2P Require Import Prelude Core ProjStore SqlValues ProjStatus.

(** ** [float64] *)
Definition float64 : Type := spec_float.
Definition f64_zero : float64 := S754_zero false.
(** [float64(n)] *)
Definition f64_of (n : Z) : float64 := binary_normalize 53 1024 n 0 false.
Definition f64_div : float64 → float64 → float64 := SFdiv 53 1024.
Definition f64_add : float64 → float64 → float64 := SFadd 53 1024.
Definition f64_pos (x : float64) : bool := SFltb f64_zero x.
(** [d.Seconds()] *)
Definition Seconds (d : duration) : float64 :=
  f64_add (f64_of (Z.quot d second)) (f64_div (f64_of (Z.rem d second)) (f64_of second)).

(** ** The words, worst first *)
Definition stateUnreadable : string := "unreadable".
Definition stateStalled : string := "stalled".
Definition stateSilent : string := "silent".
Definition stateRebuildRequested : string := "rebuild_requested".
Definition stateNotStarted : string := "not_started".
Definition stateWaiting : string := "waiting".
Definition stateReplaying : string := "replaying".
Definition stateCatchingUp : string := "catching_up".
Definition stateLive : string := "live".

Definition stateRanks : gmap string Z := list_to_map
  [(stateUnreadable, 0); (stateStalled, 1); (stateSilent, 2); (stateRebuildRequested, 3); (stateNotStarted, 4);
   (stateWaiting, 5); (stateReplaying, 6); (stateCatchingUp, 7); (stateLive, 8)].
(** A missing key reads as 0. *)
Definition stateRank (s : string) : Z := default 0 (stateRanks !! s).

Record instanceView : Type := mkInstanceView { iv_Owner : string; iv_Version : Z; iv_Segments : Z; iv_AgeMs : Z }.

Definition instancesView (instances : list Instance_) : list instanceView :=
  (λ m, mkInstanceView (in_Owner m) (in_Version m) (in_Segments m) (Milliseconds (in_Age m))) <$> instances.

Record segmentView : Type := mkSegmentView {
  sv_Segment : Z; sv_State : string; sv_Position : Z; sv_Head : Z; sv_Replay : Z; sv_Owner : string; sv_AgeMs : Z;
  sv_LastError : string; sv_Version : Z;
}.

Record projectionView : Type := mkProjectionView {
  pv_Name : string; pv_State : string; pv_Position : Z; pv_Head : Z; pv_Behind : Z; pv_Rate : float64; pv_ETA : float64;
  pv_Version : Z; pv_Local : bool; pv_CanReset : bool; pv_RebuildRequested : bool; pv_Error : string;
  pv_Segments : list segmentView; pv_Instances : list instanceView;
}.

(** ** One segment *)
Definition shown_ttl (s : Status) (claimTTL : duration) : duration := if 0 <? st_ClaimTTL s then st_ClaimTTL s else claimTTL.

Definition silent (s : Status) (claimTTL : duration) : bool :=
  negb (bool_decide (st_Owner s = "")) && (shown_ttl s claimTTL <? st_Age s) && negb (bool_decide (st_Phase s = Standby)).

Definition segmentState (s : Status) (claimTTL : duration) : string :=
  if silent s claimTTL then stateSilent
  else match st_Phase s with
       | Stalled => stateStalled
       | CatchingUp => if st_Position s <? st_ReplayUntil s then stateReplaying else stateCatchingUp
       | Live => stateLive
       | _ => stateWaiting
       end.

Definition segment_view (claimTTL : duration) (s : Status) : segmentView :=
  mkSegmentView (st_Segment s) (segmentState s claimTTL) (st_Position s) (st_Head s) (st_ReplayUntil s) (st_Owner s)
    (Milliseconds (st_Age s)) (st_LastError s) (st_Version s).

(** ** A projection *)

(** The worse of two words. *)
Definition worse (new old : string) : string := if stateRank new <? stateRank old then new else old.

(** One turn of the loop of [view]. *)
Definition view_turn (claimTTL : duration) (v : projectionView) (i : nat) (s : Status) : projectionView :=
  let seg := segment_view claimTTL s in
  let '(st0, pos0) := if (i =? 0)%nat then (sv_State seg, st_Position s) else (pv_State v, pv_Position v) in
  let st1 := worse (sv_State seg) st0 in
  mkProjectionView (pv_Name v) (if st_RebuildRequested s then worse stateRebuildRequested st1 else st1)
    (Z.min pos0 (st_Position s)) (Z.max (pv_Head v) (st_Head s))
    (if st_Position s <? st_Head s then Z.max (pv_Behind v) (st_Head s - st_Position s) else pv_Behind v)
    (pv_Rate v) (pv_ETA v) (Z.max (pv_Version v) (st_Version s)) (pv_Local v) (pv_CanReset v)
    (if st_RebuildRequested s then true else pv_RebuildRequested v) (pv_Error v) (pv_Segments v ++ [seg]) (pv_Instances v).

Fixpoint view_loop (claimTTL : duration) (i : nat) (statuses : list Status) (v : projectionView) : projectionView :=
  match statuses with
  | [] => v
  | s :: statuses => view_loop claimTTL (S i) statuses (view_turn claimTTL v i s)
  end.

Definition view (name : string) (statuses : list Status) (claimTTL : duration) : projectionView :=
  view_loop claimTTL 0 statuses
    (mkProjectionView name stateNotStarted 0 0 0 f64_zero f64_zero 0 false false false "" [] []).

(** ** The rate *)
Record sample : Type := mkSample { sa_position : Z; sa_at : time }.
Record rate : Type := mkRate { ra_samples : list sample; ra_perSecond : float64 }.
Definition no_rate : rate := mkRate [] f64_zero.

Definition rateWindow : duration := 5 * second.
Definition rateMinSpan : duration := second.

Definition moved_back (position : Z) (samples : list sample) : bool :=
  match last samples with Some s => position <? sa_position s | None => false end.

(** The loop that drops samples before the window. *)
Fixpoint drop_old (at_ : time) (samples : list sample) : list sample :=
  match samples with
  | a :: ((b :: _ :: _) as rest) => if rateWindow <=? time_Sub at_ (sa_at b) then drop_old at_ rest else samples
  | _ => samples
  end.

Definition observe (position : Z) (at_ : time) (r : rate) : rate :=
  let r := if moved_back position (ra_samples r) then no_rate else r in
  let samples := drop_old at_ (ra_samples r ++ [mkSample position at_]) in
  match samples with
  | [] => mkRate samples (ra_perSecond r)
  | first :: _ =>
    let span := time_Sub at_ (sa_at first) in
    mkRate samples (if rateMinSpan <=? span then f64_div (f64_of (u64 (position - sa_position first))) (Seconds span) else ra_perSecond r)
  end.

(** ** What the words mean *)

(** The words a projection's segments give, a requested rebuild included. *)
Definition words (claimTTL : duration) (s : Status) : list string :=
  segmentState s claimTTL :: (if st_RebuildRequested s then [stateRebuildRequested] else []).

(** How far a segment is behind. *)
Definition backlog (s : Status) : Z := Z.max 0 (st_Head s - st_Position s).

Lemma worse_rank a b : stateRank (worse a b) = Z.min (stateRank a) (stateRank b).
Proof. unfold worse. destruct (Z.ltb_spec (stateRank a) (stateRank b)); lia. Qed.

Lemma worse_either a b : worse a b = a ∨ worse a b = b.
Proof. unfold worse. destruct (stateRank a <? stateRank b); auto. Qed.

(** The shown word is the worst of the words that were seen. *)
Definition worst_of (seen : list string) (w : string) : Prop := w ∈ seen ∧ ∀ x, x ∈ seen → stateRank w ≤ stateRank x.

Lemma worst_of_snoc seen w x : worst_of seen w → worst_of (seen ++ [x]) (worse x w).
Proof.
  intros [Hin Hmin]. split.
  - destruct (worse_either x w) as [->| ->]; apply elem_of_app; [right; by apply list_elem_of_singleton|by left].
  - intros y [Hy| ->%list_elem_of_singleton]%elem_of_app; rewrite worse_rank; [specialize (Hmin y Hy)|]; lia.
Qed.

Lemma worst_of_one w : worst_of [w] (worse w w).
Proof.
  assert (worse w w = w) as -> by (destruct (worse_either w w); done).
  split; [by apply list_elem_of_singleton|]. by intros x ->%list_elem_of_singleton.
Qed.

(** Several numbers as the least, the greatest, and the greatest backlog. *)
Record view_of_statuses (claimTTL : duration) (name : string) (seen : list Status) (v : projectionView) : Prop := {
  vs_name : pv_Name v = name;
  vs_segments : pv_Segments v = segment_view claimTTL <$> seen;
  vs_state : seen ≠ [] → worst_of (seen ≫= words claimTTL) (pv_State v);
  vs_position : seen ≠ [] → pv_Position v ∈ st_Position <$> seen ∧ Forall (λ s, pv_Position v ≤ st_Position s) seen;
  vs_head : pv_Head v = foldr Z.max 0 (st_Head <$> seen);
  vs_version : pv_Version v = foldr Z.max 0 (st_Version <$> seen);
  vs_behind : pv_Behind v = foldr Z.max 0 (backlog <$> seen);
  vs_rebuild : pv_RebuildRequested v = existsb st_RebuildRequested seen;
}.

Lemma max_nonneg {A} (f : A → Z) l : 0 ≤ foldr Z.max 0 (f <$> l).
Proof. induction l; cbn in *; lia. Qed.

Lemma max_snoc {A} (f : A → Z) l x : foldr Z.max 0 (f <$> l ++ [x]) = Z.max (foldr Z.max 0 (f <$> l)) (f x).
Proof. induction l as [|y l IH]; cbn in *; [lia|]. rewrite IH. lia. Qed.

Lemma view_turn_spec claimTTL name seen v s : view_of_statuses claimTTL name seen v →
  view_of_statuses claimTTL name (seen ++ [s]) (view_turn claimTTL v (length seen) s).
Proof.
  intros [Hn Hs Hst Hp Hh Hv Hb Hr]. unfold view_turn.
  set (st0 := if (length seen =? 0)%nat then (sv_State (segment_view claimTTL s), st_Position s) else (pv_State v, pv_Position v)).
  assert (worst_of ((seen ≫= words claimTTL) ++ [segmentState s claimTTL]) (worse (segmentState s claimTTL) st0.1) ∧
    Z.min st0.2 (st_Position s) ∈ st_Position <$> seen ++ [s] ∧ Forall (λ x, Z.min st0.2 (st_Position s) ≤ st_Position x) (seen ++ [s]))
    as (Hw & Hin & Hmin).
  { subst st0. destruct seen as [|s0 seen]; cbn [length Nat.eqb fst snd].
    - rewrite Z.min_id. split_and!; [apply worst_of_one|cbn; left|]. constructor; [lia|constructor].
    - specialize (Hst ltac:(done)). destruct (Hp ltac:(done)) as [Hin Hmin]. split_and!; [by apply worst_of_snoc| |].
      + rewrite fmap_app. apply elem_of_app. destruct (Z.min_spec (pv_Position v) (st_Position s)) as [[_ ->]|[_ ->]]; [by left|right; left].
      + apply Forall_app. split; [|repeat constructor; lia]. eapply Forall_impl; [exact Hmin|]. intros x Hx. cbn in Hx. lia. }
  destruct st0 as [st0 pos0]. cbn [fst snd] in *.
  split; cbn; [done|by rewrite Hs, fmap_app|intros _|by intros _|..].
  - assert ((seen ++ [s]) ≫= words claimTTL = (seen ≫= words claimTTL) ++ [segmentState s claimTTL] ++
      (if st_RebuildRequested s then [stateRebuildRequested] else [])) as -> by (rewrite bind_app; cbn; by rewrite app_nil_r).
    destruct (st_RebuildRequested s); [|by rewrite app_nil_r]. rewrite app_assoc. by apply worst_of_snoc.
  - by rewrite max_snoc, Hh.
  - by rewrite max_snoc, Hv.
  - rewrite max_snoc, <- Hb. pose proof (max_nonneg backlog seen). rewrite <- Hb in *. unfold backlog in *.
    destruct (Z.ltb_spec (st_Position s) (st_Head s)); lia.
  - rewrite existsb_app, <- Hr. cbn. destruct (st_RebuildRequested s), (pv_RebuildRequested v); done.
Qed.

Lemma view_spec name statuses claimTTL : view_of_statuses claimTTL name statuses (view name statuses claimTTL).
Proof.
  unfold view. set (v0 := mkProjectionView _ _ _ _ _ _ _ _ _ _ _ _ _ _).
  assert (∀ seen v, view_of_statuses claimTTL name seen v →
    view_of_statuses claimTTL name (seen ++ statuses) (view_loop claimTTL (length seen) statuses v)) as Hloop.
  { induction statuses as [|s statuses IH]; intros seen v Hv; cbn; [by rewrite app_nil_r|].
    rewrite (cons_middle s seen statuses), app_assoc.
    replace (S (length seen)) with (length (seen ++ [s])) by (rewrite length_app; cbn; lia). by apply IH, view_turn_spec. }
  apply (Hloop [] v0). by split.
Qed.

(** ** A live projection *)
Definition segment_live (claimTTL : duration) (s : Status) : Prop :=
  st_Phase s = Live ∧ silent s claimTTL = false ∧ st_RebuildRequested s = false.

Lemma silent_not_live claimTTL s : Status_IsLive s claimTTL = true → silent s claimTTL = false.
Proof.
  unfold Status_IsLive, silent. fold (shown_ttl s claimTTL). intros [_ Hage%Z.leb_le]%andb_true_iff.
  destruct (Z.ltb_spec (shown_ttl s claimTTL) (st_Age s)); [lia|]. by rewrite andb_false_r.
Qed.

Lemma segment_words claimTTL s : Forall (λ w, stateRank w = 8) (words claimTTL s) ↔ segment_live claimTTL s.
Proof.
  unfold words, segment_live, segmentState. split.
  - intros Hall. apply Forall_cons in Hall as [Hw Hr]. split_and!.
    + destruct (silent s claimTTL); [done|]. destruct (st_Phase s); try done. by destruct (st_Position s <? st_ReplayUntil s).
    + by destruct (silent s claimTTL).
    + destruct (st_RebuildRequested s); [|done]. apply Forall_inv in Hr. vm_compute in Hr. congruence.
  - intros (Hp & -> & ->). rewrite Hp. by repeat constructor.
Qed.

Lemma words_bound claimTTL s w : w ∈ words claimTTL s → stateRank w ≤ 8 ∧ (stateRank w = 8 → w = stateLive).
Proof.
  assert (∀ w, w ∈ [stateStalled; stateSilent; stateRebuildRequested; stateWaiting; stateReplaying; stateCatchingUp; stateLive] →
    stateRank w ≤ 8 ∧ (stateRank w = 8 → w = stateLive)) as Hall.
  { apply Forall_forall. repeat constructor; vm_compute; congruence. }
  intros Hw. apply Hall. revert Hw. unfold words, segmentState.
  destruct (silent s claimTTL), (st_Phase s), (st_Position s <? st_ReplayUntil s), (st_RebuildRequested s); set_solver.
Qed.

(** A projection is shown as live exactly when it has segments, every one of them
    is at the head of the log with an owner that still publishes, and no
    rebuild is requested. *)
Theorem page_says_live_when_every_segment_is name statuses claimTTL : statuses ≠ [] →
  pv_State (view name statuses claimTTL) = stateLive ↔ Forall (segment_live claimTTL) statuses.
Proof.
  intros Hne. destruct (vs_state _ _ _ _ (view_spec name statuses claimTTL) Hne) as [Hin Hmin].
  apply list_elem_of_bind in Hin as (s & Hw & Hs). split.
  - intros Hl. rewrite Hl in *. apply Forall_forall. intros s' Hs'. apply segment_words, Forall_forall. intros w Hw'.
    pose proof (words_bound _ _ _ Hw') as [? _]. specialize (Hmin w (proj2 (list_elem_of_bind _ _ _) (ex_intro _ s' (conj Hw' Hs')))).
    change (stateRank stateLive) with 8 in Hmin. lia.
  - intros Hall. rewrite Forall_forall in Hall. apply (words_bound _ _ _ Hw).
    pose proof (proj2 (segment_words _ _) (Hall s Hs)) as Hr. rewrite Forall_forall in Hr. by apply Hr.
Qed.

(** ** The estimate *)

(** What a rate keeps of the samples since the projection last moved back:
    the newest ones; what it dropped lies a whole window back. *)
Record rate_inv (hist : list sample) (now : time) (r : rate) : Prop := {
  ri_kept : ∃ k, ra_samples r = drop k hist ∧
    ((0 < k)%nat → ∃ first, head (ra_samples r) = Some first ∧ rateWindow ≤ time_Sub now (sa_at first));
  ri_positions : StronglySorted (λ a b, sa_position a ≤ sa_position b) (ra_samples r);
  ri_u64 : Forall (λ a, is_u64 (sa_position a)) (ra_samples r);
  ri_window : match ra_samples r with _ :: b :: _ :: _ => time_Sub now (sa_at b) < rateWindow | _ => True end;
}.

(** The samples since the projection last moved back. *)
Definition since_back (hist : list sample) (position : Z) (at_ : time) : list sample :=
  (if moved_back position hist then [] else hist) ++ [mkSample position at_].

Lemma time_Sub_mono t u x : t ≤ u → time_Sub t x ≤ time_Sub u x.
Proof. unfold time_Sub. lia. Qed.

Lemma drop_old_spec at_ samples : ∃ k, drop_old at_ samples = drop k samples ∧
  ((0 < k)%nat → ∃ first, head (drop k samples) = Some first ∧ rateWindow ≤ time_Sub at_ (sa_at first)) ∧
  match drop k samples with _ :: b :: _ :: _ => time_Sub at_ (sa_at b) < rateWindow | _ => True end.
Proof.
  induction samples as [|a samples IH]; [by exists 0%nat; split_and!; [|lia|]|].
  destruct samples as [|b [|c samples]]; [by exists 0%nat; split_and!; [|lia|]..|].
  cbn [drop_old]. destruct (Z.leb_spec rateWindow (time_Sub at_ (sa_at b))) as [Hle|Hgt].
  - destruct IH as (k & Hd & Hk & Hw). exists (S k). split_and!; [done| |done]. intros _.
    destruct k; [by exists b|]. apply Hk. lia.
  - exists 0%nat. split_and!; [done|lia|done].
Qed.

Lemma moved_back_kept hist now r position : rate_inv hist now r → moved_back position hist = moved_back position (ra_samples r).
Proof.
  intros [(k & Hk & Hfirst) _ _ _]. unfold moved_back. rewrite Hk in *. destruct (decide (k = 0%nat)) as [->|]; [done|].
  destruct Hfirst as (first & Hh & _); [lia|]. destruct (drop k hist) as [|x l] eqn:Hd; [done|].
  rewrite <- (take_drop k hist), Hd, last_app_cons. done.
Qed.

(** The samples with the new one behind them. *)
Lemma samples_snoc position at_ samples : StronglySorted (λ a b, sa_position a ≤ sa_position b) samples →
  Forall (λ a, is_u64 (sa_position a)) samples → moved_back position samples = false → is_u64 position →
  StronglySorted (λ a b, sa_position a ≤ sa_position b) (samples ++ [mkSample position at_]) ∧
  Forall (λ a, is_u64 (sa_position a) ∧ sa_position a ≤ position) (samples ++ [mkSample position at_]).
Proof.
  intros Hs Hu Hm Hp.
  assert (Forall (λ a, sa_position a ≤ position) samples) as Hle.
  { unfold moved_back in Hm. destruct (last samples) as [z|] eqn:Hz; [|by apply last_None in Hz as ->].
    apply Z.ltb_ge in Hm. apply last_Some in Hz as [l ->]. apply StronglySorted_app in Hs as (Hx & _ & _).
    apply Forall_app. split; [|by repeat constructor]. apply Forall_forall. intros a Ha.
    specialize (Hx a z Ha ltac:(left)). cbn in Hx. lia. }
  split.
  - apply StronglySorted_app. split_and!; [|done|repeat constructor]. rewrite Forall_forall in Hle. by intros a b Ha ->%list_elem_of_singleton; apply Hle.
  - apply Forall_app. split; [by apply Forall_and|]. repeat constructor; [apply Hp..|done].
Qed.

(** Observing: what is kept, and what the estimate is taken over. *)
Lemma observe_spec hist now r position at_ : rate_inv hist now r → now ≤ at_ → is_u64 position →
  rate_inv (since_back hist position at_) at_ (observe position at_ r) ∧
  ∃ first, head (ra_samples (observe position at_ r)) = Some first ∧ 0 ≤ position - sa_position first ∧
    ra_perSecond (observe position at_ r) =
      if rateMinSpan <=? time_Sub at_ (sa_at first)
      then f64_div (f64_of (position - sa_position first)) (Seconds (time_Sub at_ (sa_at first)))
      else if moved_back position hist then f64_zero else ra_perSecond r.
Proof.
  intros Hr Hat Hpos. unfold since_back. rewrite (moved_back_kept _ _ _ position Hr).
  set (r0 := if moved_back position (ra_samples r) then no_rate else r).
  set (hist0 := if moved_back position (ra_samples r) then [] else hist).
  assert (rate_inv hist0 now r0 ∧ moved_back position (ra_samples r0) = false ∧
    ra_perSecond r0 = if moved_back position (ra_samples r) then f64_zero else ra_perSecond r) as ([(k & Hk & Hfirst) Hs Hu Hw] & Hmb & <-).
  { subst r0 hist0. destruct (moved_back position (ra_samples r)) eqn:Hm; [|done].
    split_and!; [|done|done]. split; [by exists 0%nat; split; [|lia]|constructor|constructor|done]. }
  unfold observe. fold r0.
  destruct (drop_old_spec at_ (ra_samples r0 ++ [mkSample position at_])) as (j & Hd & Hj & Hwin). rewrite Hd.
  set (l := ra_samples r0 ++ [mkSample position at_]) in *.
  destruct (samples_snoc position at_ _ Hs Hu Hmb Hpos) as [Hs' Hall]. fold l in Hs', Hall.
  assert (∃ first, head (drop j l) = Some first) as [first Hf].
  { destruct j; [|destruct Hj as (f & Hf & _); [lia|by exists f]]. subst l. by destruct (ra_samples r0); eexists. }
  assert (first ∈ l) as Hin.
  { rewrite <- (take_drop j l). apply elem_of_app. right. destruct (drop j l); [done|]. injection Hf as ->. left. }
  destruct (drop j l) as [|x rest] eqn:Hjl; [done|]. injection Hf as ->.
  split; [split; cbn [ra_samples]|exists first; split_and!; [done| |]].
  - exists (k `min` length hist0 + j)%nat. rewrite <- drop_drop, drop_app_le by lia.
    assert (drop (k `min` length hist0) hist0 = ra_samples r0) as Hk0.
    { rewrite Hk. destruct (Nat.min_spec k (length hist0)) as [[_ ->]|[? ->]]; [done|]. by rewrite !drop_ge by lia. }
    rewrite Hk0. fold l. rewrite Hjl. split; [done|]. intros H0. destruct j as [|j]; [|by apply Hj; lia].
    destruct Hfirst as (f & Hf & Hle); [lia|]. exists first. split; [done|].
    pose proof (time_Sub_mono now at_ (sa_at first) Hat). subst l. destruct (ra_samples r0); [done|].
    cbn in Hjl. injection Hf as ->. injection Hjl as -> _. lia.
  - rewrite <- Hjl. rewrite <- (take_drop j l) in Hs'. by apply StronglySorted_app in Hs' as (_ & _ & ?).
  - rewrite <- Hjl. apply Forall_drop. eapply Forall_impl; [exact Hall|]. by intros a [? _].
  - done.
  - rewrite Forall_forall in Hall. specialize (Hall first Hin) as [_ ?]. lia.
  - cbn. rewrite Forall_forall in Hall. destruct (Hall first Hin) as [[? _] ?].
    rewrite u64_small; [done|]. unfold is_u64 in *. lia.
Qed.
