(* ===== verification/DashAuto.v ===== *)
(** * The automations view of the dashboard ([dashboard/automations.go])

    What the page shows of an automation: one word, totals over the live
    instances, and who holds which segment. *)
From S2P Require Import Prelude Core AutoTypes SqlValues DashView.

Definition statePaused : string := "paused".
Definition stateWorking : string := "working".
Definition stateIdle : string := "idle".

Definition automationRanks : gmap string Z := list_to_map
  [(stateUnreadable, 0); (stateStalled, 1); (statePaused, 2); (stateNotStarted, 3); (stateWaiting, 4); (stateWorking, 5); (stateIdle, 6)].
(** A missing key reads as 0. *)
Definition automationRank (s : string) : Z := default 0 (automationRanks !! s).

Record automationInstanceView : Type := mkAutomationInstanceView {
  aiv_Owner : string; aiv_State : string; aiv_WaitingFor : string; aiv_Processed : Z; aiv_Failed : Z; aiv_Deferred : Z;
  aiv_LastError : string; aiv_Segments : Z; aiv_AgeMs : Z;
}.

Record automationSegmentView : Type := mkAutomationSegmentView {
  asv_Key : string; asv_Group : string; asv_Owner : string; asv_PausedMs : Z;
}.

Record automationView : Type := mkAutomationView {
  av_Name : string; av_State : string; av_Paused : bool; av_CanPause : bool; av_Processed : Z; av_Failed : Z; av_Deferred : Z;
  av_WaitingFor : string; av_LastError : string; av_Error : string; av_Instances : list automationInstanceView;
  av_Segments : list automationSegmentView;
}.

Definition phaseState (p : Phase) : string :=
  match p with
  | Stalled => stateStalled
  | Paused => statePaused
  | Working => stateWorking
  | Idle => stateIdle
  | _ => stateWaiting
  end.

(** The map [held], as the loop over the segments fills it. *)
Definition count_held (segments : list SegmentState) : gmap string Z :=
  foldl (λ held s, if bool_decide (sg_Owner s = "") then held else <[sg_Owner s := default 0 (held !! sg_Owner s) + 1]> held) ∅ segments.

Definition automation_segment (s : SegmentState) : automationSegmentView :=
  mkAutomationSegmentView (sg_Key s) (sg_Group s) (sg_Owner s) (Milliseconds (sg_PausedFor s)).

Definition instance_view (held : gmap string Z) (st : Status) : automationInstanceView :=
  mkAutomationInstanceView (st_Owner st) (phaseState (st_Phase st)) (st_WaitingFor st) (st_Processed st) (st_Failed st)
    (st_Deferred st) (st_LastError st) (default 0 (held !! st_Owner st)) (Milliseconds (st_Age st)).

(** One turn of the loop over the statuses. *)
Definition automation_turn (held : gmap string Z) (v : automationView) (i : nat) (st : Status) : automationView :=
  let iv := instance_view held st in
  mkAutomationView (av_Name v)
    (if (i =? 0)%nat || (automationRank (aiv_State iv) <? automationRank (av_State v)) then aiv_State iv else av_State v)
    (av_Paused v) (av_CanPause v) (u64 (av_Processed v + st_Processed st)) (u64 (av_Failed v + st_Failed st))
    (u64 (av_Deferred v + st_Deferred st))
    (if negb (bool_decide (st_WaitingFor st = "")) && bool_decide (av_WaitingFor v = "") then st_WaitingFor st else av_WaitingFor v)
    (if bool_decide (aiv_State iv = stateStalled) && bool_decide (av_LastError v = "") then st_LastError st else av_LastError v)
    (av_Error v) (av_Instances v ++ [iv]) (av_Segments v).

Fixpoint automation_loop (held : gmap string Z) (i : nat) (statuses : list Status) (v : automationView) : automationView :=
  match statuses with
  | [] => v
  | st :: statuses => automation_loop held (S i) statuses (automation_turn held v i st)
  end.

Definition set_state (state : string) (v : automationView) : automationView :=
  mkAutomationView (av_Name v) state (av_Paused v) (av_CanPause v) (av_Processed v) (av_Failed v) (av_Deferred v)
    (av_WaitingFor v) (av_LastError v) (av_Error v) (av_Instances v) (av_Segments v).

Definition automationViewOf (name : string) (paused : bool) (statuses : list Status) (segments : list SegmentState) : automationView :=
  let v := automation_loop (count_held segments) 0 statuses
    (mkAutomationView name stateNotStarted paused false 0 0 0 "" "" "" [] (automation_segment <$> segments)) in
  if paused then set_state statePaused v else v.

(** ** What it shows *)

(** The segments an owner holds. *)
Definition owned (owner : string) (segments : list SegmentState) : Z :=
  zlen (bfilter (λ s, bool_decide (sg_Owner s = owner)) segments).

(** The first error of a stalled instance, and the first dependency waited for. *)
Definition first_text (f : Status → string) (statuses : list Status) : string :=
  default "" (head (bfilter (λ t, negb (bool_decide (t = ""))) (f <$> statuses))).

Definition stalled_error (st : Status) : string := if bool_decide (st_Phase st = Stalled) then st_LastError st else "".

Record automation_view_of (name : string) (paused : bool) (segments : list SegmentState) (seen : list Status) (v : automationView) : Prop := {
  ao_name : av_Name v = name;
  ao_paused : av_Paused v = paused;
  ao_state : match seen with
             | [] => av_State v = stateNotStarted
             | _ => av_State v ∈ (phaseState ∘ st_Phase <$> seen) ∧
                    Forall (λ st, automationRank (av_State v) ≤ automationRank (phaseState (st_Phase st))) seen
             end;
  ao_processed : av_Processed v = u64 (lsum st_Processed seen);
  ao_failed : av_Failed v = u64 (lsum st_Failed seen);
  ao_deferred : av_Deferred v = u64 (lsum st_Deferred seen);
  ao_waiting : av_WaitingFor v = first_text st_WaitingFor seen;
  ao_error : av_LastError v = first_text stalled_error seen;
  ao_instances : av_Instances v = instance_view (count_held segments) <$> seen;
  ao_segments : av_Segments v = automation_segment <$> segments;
}.

Lemma u64_lsum_snoc {A} (f : A → Z) l x n : n = u64 (lsum f l) → u64 (n + f x) = u64 (lsum f (l ++ [x])).
Proof. intros ->. rewrite lsum_app, u64_idemp_add. f_equal. unfold lsum at 3. cbn [foldr]. lia. Qed.

Lemma first_text_snoc f seen st : first_text f (seen ++ [st]) = if bool_decide (first_text f seen = "") then f st else first_text f seen.
Proof.
  unfold first_text. rewrite fmap_app, bfilter_app. set (l := bfilter _ (f <$> seen)).
  destruct l as [|t l'] eqn:Hl; cbn.
  - destruct (bool_decide_reflect (f st = "")) as [->|]; done.
  - assert (t ∈ l) as Ht by (rewrite Hl; left). apply elem_of_bfilter in Ht as [Ht _].
    destruct (bool_decide_reflect (t = "")); done.
Qed.

Lemma phaseState_stalled p : bool_decide (phaseState p = stateStalled) = bool_decide (p = Stalled).
Proof. by destruct p. Qed.

Lemma automation_turn_spec name paused segments seen v st : automation_view_of name paused segments seen v →
  automation_view_of name paused segments (seen ++ [st]) (automation_turn (count_held segments) v (length seen) st).
Proof.
  intros [Hn Hps Hs Hp Hf Hd Hw He Hi Hg]. split; cbn; [done|done| |by apply u64_lsum_snoc..| | |by rewrite fmap_app, Hi|done].
  - assert (∀ w l, w ∈ (phaseState ∘ st_Phase <$> l) ∧ Forall (λ st, automationRank w ≤ automationRank (phaseState (st_Phase st))) l →
      match l with [] => w = stateNotStarted | _ => w ∈ (phaseState ∘ st_Phase <$> l) ∧
        Forall (λ st, automationRank w ≤ automationRank (phaseState (st_Phase st))) l end) as Hm by (by intros ? []; [intros [? _]; set_solver|]).
    apply Hm. rewrite fmap_app, elem_of_app, Forall_app, Forall_singleton. destruct seen as [|st0 seen]; [split_and!; [right; left|constructor|cbn; lia]|].
    destruct Hs as [Hin Hmin]. cbn [length Nat.eqb orb].
    destruct (Z.ltb_spec (automationRank (phaseState (st_Phase st))) (automationRank (av_State v))).
    + split_and!; [right; left| |lia]. eapply Forall_impl; [exact Hmin|]. intros x Hx. cbn in Hx. lia.
    + split_and!; [by left|done|lia].
  - rewrite first_text_snoc, <- Hw. destruct (bool_decide_reflect (av_WaitingFor v = "")), (bool_decide_reflect (st_WaitingFor st = "")); cbn; congruence.
  - rewrite first_text_snoc, <- He, phaseState_stalled. unfold stalled_error.
    destruct (bool_decide_reflect (av_LastError v = "")), (bool_decide_reflect (st_Phase st = Stalled)); cbn; congruence.
Qed.

(** The map holds the number of each owner's segments. *)
Lemma count_held_spec segments owner : owner ≠ "" → default 0 (count_held segments !! owner) = owned owner segments.
Proof.
  intros Ho. unfold count_held, owned.
  assert (∀ held : gmap string Z, default 0 (foldl (λ held s, if bool_decide (sg_Owner s = "") then held
      else <[sg_Owner s := default 0 (held !! sg_Owner s) + 1]> held) held segments !! owner) =
    default 0 (held !! owner) + zlen (bfilter (λ s, bool_decide (sg_Owner s = owner)) segments)) as Hall.
  { induction segments as [|s segments IH]; intros held; [change (default 0 (held !! owner) = default 0 (held !! owner) + 0); lia|]. cbn [foldl bfilter]. rewrite IH.
    destruct (bool_decide_reflect (sg_Owner s = "")) as [He|He], (bool_decide_reflect (sg_Owner s = owner)) as [<-|]; try congruence.
    - rewrite lookup_insert_eq, zlen_cons. cbn. lia.
    - by rewrite lookup_insert_ne. }
  rewrite Hall, lookup_empty. done.
Qed.

Lemma automationViewOf_spec name paused statuses segments : ∃ v, automation_view_of name paused segments statuses v ∧
  automationViewOf name paused statuses segments = if paused then set_state statePaused v else v.
Proof.
  unfold automationViewOf. set (v0 := mkAutomationView _ _ _ _ _ _ _ _ _ _ _ _). eexists. split; [|done].
  assert (∀ seen v, automation_view_of name paused segments seen v →
    automation_view_of name paused segments (seen ++ statuses) (automation_loop (count_held segments) (length seen) statuses v)) as Hloop.
  { induction statuses as [|s statuses IH]; intros seen v Hv; cbn; [by rewrite app_nil_r|].
    rewrite (cons_middle s seen statuses), app_assoc.
    replace (S (length seen)) with (length (seen ++ [s])) by (rewrite length_app; cbn; lia). by apply IH, automation_turn_spec. }
  apply (Hloop [] v0). by split.
Qed.
