(* ===== verification/DashHub.v ===== *)
(** * The hub of the dashboard ([dashboard/hub.go])

    One reader serves every open page.  Goroutines are program counters and
    every lock, channel and timer operation is one atomic step; the clock is
    an argument of the steps that look at it.  What a read finds is any
    snapshot, as the bytes it is marshalled to ([Dashboard.read] says which). *)
From S2P Require Import Prelude Core.

Definition readTimeout : duration := 5 * second.
Definition minGap : duration := 100 * millisecond.

Definition page_id : Type := nat.
Definition reader_id : Type := nat.
Definition bytes : Type := string.

(** A subscriber's channel of capacity one, and what its page shows: the
    last snapshot it received. *)
Record page : Type := mkPage { pg_buf : option bytes; pg_shown : option bytes }.

(** Where a reader is in [run] and [publish]. *)
Inductive pc : Type :=
| Waiting (timer : time)                        (* at the select; when its timer fires *)
| Reading                                       (* in [h.read] *)
| Locking (b : bytes)                           (* in [publish], before the lock *)
| Draining (b : bytes) (todo : list page_id)    (* before the next subscriber, holding the lock *)
| Sending (b : bytes) (ch : page_id) (todo : list page_id).

(** A reader; [ru_starts] are the times its reads began, newest first. *)
Record run_state : Type := mkRun { ru_pc : pc; ru_earliest : time; ru_starts : list time }.

Record hub : Type := mkHub {
  hb_nudge : bool;                      (* [nudge] holds a poke *)
  hb_subs : gmap page_id page;
  hb_stop : option reader_id;           (* the reader that [stop] cancels *)
  hb_latest : option bytes;
  hb_lock : option reader_id;           (* the reader that holds [mu] while it publishes *)
  hb_runs : gmap reader_id run_state;
  hb_cancelled : gset reader_id;        (* the readers whose context ended *)
  hb_clock : time;                      (* the monotonic clock *)
}.

Definition newHub : hub := mkHub false ∅ None None None ∅ ∅ time_zero.

Definition set_nudge (b : bool) (h : hub) : hub :=
  mkHub b (hb_subs h) (hb_stop h) (hb_latest h) (hb_lock h) (hb_runs h) (hb_cancelled h) (hb_clock h).
Definition set_subs (subs : gmap page_id page) (h : hub) : hub :=
  mkHub (hb_nudge h) subs (hb_stop h) (hb_latest h) (hb_lock h) (hb_runs h) (hb_cancelled h) (hb_clock h).
Definition set_lock (l : option reader_id) (h : hub) : hub :=
  mkHub (hb_nudge h) (hb_subs h) (hb_stop h) (hb_latest h) l (hb_runs h) (hb_cancelled h) (hb_clock h).
Definition set_latest (b : option bytes) (h : hub) : hub :=
  mkHub (hb_nudge h) (hb_subs h) (hb_stop h) b (hb_lock h) (hb_runs h) (hb_cancelled h) (hb_clock h).
Definition set_run (r : reader_id) (u : run_state) (h : hub) : hub :=
  mkHub (hb_nudge h) (hb_subs h) (hb_stop h) (hb_latest h) (hb_lock h) (<[r := u]> (hb_runs h)) (hb_cancelled h) (hb_clock h).
Definition goto (r : reader_id) (u : run_state) (p : pc) (h : hub) : hub := set_run r (mkRun p (ru_earliest u) (ru_starts u)) h.

Definition set_clock (now : time) (h : hub) : hub :=
  mkHub (hb_nudge h) (hb_subs h) (hb_stop h) (hb_latest h) (hb_lock h) (hb_runs h) (hb_cancelled h) now.

Definition cancelled (h : hub) (r : reader_id) : bool := bool_decide (r ∈ hb_cancelled h).

(** ** [subscribe], [unsubscribe], [poke] *)

(** [ch] is a new channel and [r] the reader it may start. *)
Definition subscribe (ch : page_id) (r : reader_id) (h : hub) : option hub :=
  if bool_decide (is_Some (hb_subs h !! ch)) || bool_decide (is_Some (hb_runs h !! r)) || cancelled h r then None
  else
    let h := set_subs (<[ch := mkPage (hb_latest h) None]> (hb_subs h)) h in
    Some (match hb_stop h with
          | Some _ => h
          | None => mkHub (hb_nudge h) (hb_subs h) (Some r) (hb_latest h) (hb_lock h)
                      (<[r := mkRun (Waiting time_zero) time_zero []]> (hb_runs h)) (hb_cancelled h) (hb_clock h)
          end).

Definition unsubscribe (ch : page_id) (h : hub) : hub :=
  let h := set_subs (delete ch (hb_subs h)) h in
  match hb_stop h with
  | Some r =>
    if bool_decide (hb_subs h = ∅)
    then mkHub (hb_nudge h) (hb_subs h) None None (hb_lock h) (hb_runs h) ({[r]} ∪ hb_cancelled h) (hb_clock h)
    else h
  | None => h
  end.

Definition poke (h : hub) : hub := set_nudge true h.

(** The page takes a snapshot from its channel and shows it. *)
Definition receive (ch : page_id) (h : hub) : option hub :=
  match hb_subs h !! ch with
  | Some (mkPage (Some b) _) => Some (set_subs (<[ch := mkPage None (Some b)]> (hb_subs h)) h)
  | _ => None
  end.

(** ** [run] and [publish] *)
Section reader.
Context (interval : duration).

Definition gap : duration := Z.min minGap interval.

Definition start_read (r : reader_id) (u : run_state) (now : time) (h : hub) : hub :=
  set_run r (mkRun Reading (time_Add now gap) (now :: ru_starts u)) h.

(** [<-t.C] *)
Definition tick (r : reader_id) (u : run_state) (now : time) (h : hub) : option hub :=
  match ru_pc u with
  | Waiting timer => if now <? timer then None else Some (start_read r u now h)
  | _ => None
  end.

(** [<-h.nudge] *)
Definition nudged (r : reader_id) (u : run_state) (now : time) (h : hub) : option hub :=
  match ru_pc u with
  | Waiting _ =>
    if negb (hb_nudge h) then None
    else
      let h := set_nudge false h in
      let wait := time_Sub (ru_earliest u) now in
      Some (if 0 <? wait then goto r u (Waiting (time_Add now wait)) h else start_read r u now h)
  | _ => None
  end.

(** [<-ctx.Done()]: the goroutine returns. *)
Definition quit (r : reader_id) (u : run_state) (h : hub) : option hub :=
  match ru_pc u with
  | Waiting _ =>
    if cancelled h r
    then Some (mkHub (hb_nudge h) (hb_subs h) (hb_stop h) (hb_latest h) (hb_lock h) (delete r (hb_runs h)) (hb_cancelled h) (hb_clock h))
    else None
  | _ => None
  end.

Definition rest (r : reader_id) (u : run_state) (now : time) (h : hub) : hub := goto r u (Waiting (time_Add now interval)) h.

(** The read is over; [b] is [None] when it could not be marshalled. *)
Definition read_done (r : reader_id) (u : run_state) (b : option bytes) (now : time) (h : hub) : option hub :=
  match ru_pc u with
  | Reading =>
    match b with
    | Some b => Some (if cancelled h r then rest r u now h else goto r u (Locking b) h)
    | None => Some (rest r u now h)
    end
  | _ => None
  end.

(** [publish] takes the lock; [order] is the order of the range over [subs]. *)
Definition lock (r : reader_id) (u : run_state) (order : list page_id) (now : time) (h : hub) : option hub :=
  match ru_pc u with
  | Locking b =>
    if bool_decide (hb_lock h = None) && bool_decide (NoDup order) && bool_decide (list_to_set order = dom (hb_subs h)) then
      Some (if cancelled h r then rest r u now h
            else goto r u (Draining b order) (set_latest (Some b) (set_lock (Some r) h)))
    else None
  | _ => None
  end.

(** The loop over the subscribers; a send to a full channel blocks. *)
Definition publish (r : reader_id) (u : run_state) (now : time) (h : hub) : option hub :=
  match ru_pc u with
  | Draining b [] => Some (rest r u now (set_lock None h))
  | Draining b (ch :: todo) =>
    Some (goto r u (Sending b ch todo)
            (set_subs (alter (λ pg, mkPage None (pg_shown pg)) ch (hb_subs h)) h))
  | Sending b ch todo =>
    match hb_subs h !! ch with
    | Some (mkPage None shown) => Some (goto r u (Draining b todo) (set_subs (<[ch := mkPage (Some b) shown]> (hb_subs h)) h))
    | _ => None
    end
  | _ => None
  end.

Inductive action : Type :=
| Subscribe (ch : page_id) (r : reader_id)
| Unsubscribe (ch : page_id)
| Receive (ch : page_id)
| Poke
| Tick (r : reader_id) (now : time)
| Nudged (r : reader_id) (now : time)
| Quit (r : reader_id)
| ReadDone (r : reader_id) (b : option bytes) (now : time)
| Lock (r : reader_id) (order : list page_id) (now : time)
| Publish (r : reader_id) (now : time).

(** A step of a reader that looks at the clock, which never runs backwards. *)
Definition run_at (r : reader_id) (now : time) (f : run_state → hub → option hub) (h : hub) : option hub :=
  match hb_runs h !! r with
  | Some u => if hb_clock h <=? now then f u (set_clock now h) else None
  | None => None
  end.

(** [None] for a step that cannot be taken. *)
Definition exec (a : action) (h : hub) : option hub :=
  match a with
  | Subscribe ch r => if bool_decide (hb_lock h = None) then subscribe ch r h else None
  | Unsubscribe ch => if bool_decide (hb_lock h = None) then Some (unsubscribe ch h) else None
  | Receive ch => receive ch h
  | Poke => Some (poke h)
  | Tick r now => run_at r now (λ u, tick r u now) h
  | Nudged r now => run_at r now (λ u, nudged r u now) h
  | Quit r => run_at r (hb_clock h) (quit r) h
  | ReadDone r b now => run_at r now (λ u, read_done r u b now) h
  | Lock r order now => run_at r now (λ u, lock r u order now) h
  | Publish r now => run_at r now (λ u, publish r u now) h
  end.

Inductive reachable : hub → Prop :=
| reach_new : reachable newHub
| reach_step h a h' : reachable h → exec a h = Some h' → reachable h'.
End reader.

(** ** The pages *)
Definition publishing (p : pc) : bool := match p with Draining _ _ | Sending _ _ _ => true | _ => false end.

(** Where the publisher is, and the subscribers it has yet to serve. *)
Definition pub_pc (h : hub) : option pc := hb_lock h ≫= λ r, ru_pc <$> hb_runs h !! r.

#[global] Arguments pub_pc : simpl never.

Definition to_serve (p : option pc) : list page_id :=
  match p with Some (Draining _ todo) => todo | Some (Sending _ ch todo) => ch :: todo | _ => [] end.

(** A page holds the latest snapshot: in its channel, or on the screen. *)
Definition holds_latest (latest : option bytes) (pg : page) : Prop :=
  match pg_buf pg with Some b => latest = Some b | None => pg_shown pg = latest end.

Record hub_inv (h : hub) : Prop := {
  hi_stop r : hb_stop h = Some r → r ∉ hb_cancelled h ∧ is_Some (hb_runs h !! r);
  hi_live r : is_Some (hb_runs h !! r) → r ∉ hb_cancelled h → hb_stop h = Some r;
  hi_subs : hb_subs h = ∅ ↔ hb_stop h = None;
  hi_idle : hb_stop h = None → hb_latest h = None;
  hi_lock r u : hb_runs h !! r = Some u → publishing (ru_pc u) = bool_decide (hb_lock h = Some r);
  hi_holder r : hb_lock h = Some r → hb_stop h = Some r;
  hi_pages ch pg : hb_subs h !! ch = Some pg → ch ∈ to_serve (pub_pc h) ∨ holds_latest (hb_latest h) pg;
  hi_todo : NoDup (to_serve (pub_pc h)) ∧ ∀ ch, ch ∈ to_serve (pub_pc h) → is_Some (hb_subs h !! ch);
  hi_publishes : match pub_pc h with
                 | Some (Draining b _) => hb_latest h = Some b
                 | Some (Sending b ch _) => hb_latest h = Some b ∧ ∃ shown, hb_subs h !! ch = Some (mkPage None shown)
                 | _ => True
                 end;
}.

Lemma pub_pc_free h : hb_lock h = None → pub_pc h = None.
Proof. unfold pub_pc. by intros ->. Qed.

Lemma inv_new : hub_inv newHub.
Proof. split; cbn; try done; [by intros r [? ?]|]. split; [constructor|]. intros ch Hin. by apply not_elem_of_nil in Hin. Qed.

(** A step of a reader outside [publish] leaves the pages alone. *)
Lemma inv_quiet h r u u' : hub_inv h → hb_runs h !! r = Some u → publishing (ru_pc u) = false → publishing (ru_pc u') = false →
  hub_inv (set_run r u' h).
Proof.
  intros [] Hu Hp Hp'.
  assert (hb_lock h ≠ Some r) as Hr by (specialize (hi_lock0 r u Hu); rewrite Hp in hi_lock0; by case_bool_decide).
  assert (pub_pc (set_run r u' h) = pub_pc h) as Hpc.
  { unfold pub_pc. cbn. destruct (hb_lock h) as [r'|]; [|done]. cbn. by rewrite lookup_insert_ne by congruence. }
  split; rewrite ?Hpc; cbn; try done.
  - intros r' Hs. destruct (hi_stop0 r' Hs). split; [done|]. rewrite lookup_insert_is_Some. destruct (decide (r = r')); auto.
  - intros r' Hs. apply hi_live0. rewrite lookup_insert_is_Some in Hs. destruct Hs as [<-|[_ ?]]; [by eexists|done].
  - intros r' v. rewrite lookup_insert_Some. intros [[<- <-]|[_ Hv]]; [|by apply hi_lock0]. rewrite Hp'. by rewrite bool_decide_false.
Qed.

Lemma inv_nudge h b : hub_inv h → hub_inv (set_nudge b h).
Proof. by intros []. Qed.

Lemma inv_clock h now : hub_inv h → hub_inv (set_clock now h).
Proof. by intros []. Qed.

(** What changes only the pages and not who is served keeps the rest. *)
Lemma inv_pages h subs : hub_inv h → dom subs = dom (hb_subs h) →
  (∀ ch pg, subs !! ch = Some pg → ch ∈ to_serve (pub_pc h) ∨ holds_latest (hb_latest h) pg) →
  (∀ b ch todo, pub_pc h = Some (Sending b ch todo) → subs !! ch = hb_subs h !! ch) → hub_inv (set_subs subs h).
Proof.
  intros [] Hdom Hok Hsend. split; change (pub_pc (set_subs subs h)) with (pub_pc h); cbn; try done.
  - rewrite <- hi_subs0, <- !(dom_empty_iff_L (D := gset page_id)), Hdom. done.
  - destruct hi_todo0 as [Hnd Hin]. split; [done|]. intros ch Hch%Hin. by rewrite <- elem_of_dom, Hdom, elem_of_dom.
  - destruct (pub_pc h) as [[]|] eqn:Hpc; try done. by rewrite (Hsend _ _ _ eq_refl).
Qed.

Lemma inv_receive h h' ch : hub_inv h → receive ch h = Some h' → hub_inv h'.
Proof.
  unfold receive. intros Hinv Hr. destruct (hb_subs h !! ch) as [[[b|] shown]|] eqn:Hch; [|done..]. injection Hr as <-.
  apply inv_pages; [done|by apply dom_insert_lookup_L; rewrite Hch| |].
  - intros ch' pg. rewrite lookup_insert_Some. intros [[<- <-]|[_ Hpg]]; [|by eapply hi_pages].
    destruct (hi_pages _ Hinv _ _ Hch) as [?|Hok]; [by left|by right].
  - intros b' ch' todo Hpc. pose proof (hi_publishes _ Hinv) as Hp. rewrite Hpc in Hp. destruct Hp as (_ & sh & Hsh).
    rewrite lookup_insert_ne; [done|]. intros ->. congruence.
Qed.

(** The invariant while nobody publishes. *)
Lemma inv_free h : hb_lock h = None →
  (∀ r, hb_stop h = Some r → r ∉ hb_cancelled h ∧ is_Some (hb_runs h !! r)) →
  (∀ r, is_Some (hb_runs h !! r) → r ∉ hb_cancelled h → hb_stop h = Some r) →
  (hb_subs h = ∅ ↔ hb_stop h = None) → (hb_stop h = None → hb_latest h = None) →
  (∀ r u, hb_runs h !! r = Some u → publishing (ru_pc u) = false) →
  (∀ ch pg, hb_subs h !! ch = Some pg → holds_latest (hb_latest h) pg) → hub_inv h.
Proof.
  intros Hl ?????? . pose proof (pub_pc_free h Hl) as Hpc. split; rewrite ?Hpc; try done.
  - intros r u Hu. rewrite Hl, bool_decide_false by done. eauto.
  - intros r Hr. congruence.
  - intros ch pg Hpg. right. eauto.
  - split; [constructor|]. intros ch Hch. by apply not_elem_of_nil in Hch.
Qed.

Lemma free_pages h : hub_inv h → hb_lock h = None → ∀ ch pg, hb_subs h !! ch = Some pg → holds_latest (hb_latest h) pg.
Proof.
  intros Hinv Hl ch pg Hpg. destruct (hi_pages _ Hinv _ _ Hpg) as [Hx|?]; [|done].
  rewrite pub_pc_free in Hx by done. by apply not_elem_of_nil in Hx.
Qed.

Lemma free_runs h : hub_inv h → hb_lock h = None → ∀ r u, hb_runs h !! r = Some u → publishing (ru_pc u) = false.
Proof. intros Hinv Hl r u Hu. rewrite (hi_lock _ Hinv _ _ Hu), Hl. by apply bool_decide_false. Qed.

Lemma inv_subscribe h h' ch r : hub_inv h → hb_lock h = None → subscribe ch r h = Some h' → hub_inv h'.
Proof.
  unfold subscribe, cancelled. intros Hinv Hlock Hs.
  destruct (bool_decide_reflect (is_Some (hb_subs h !! ch))), (bool_decide_reflect (is_Some (hb_runs h !! r))) as [|Hrun],
    (bool_decide_reflect (r ∈ hb_cancelled h)) as [|Hcan]; try done. injection Hs as <-.
  assert (∀ ch' pg, <[ch := mkPage (hb_latest h) None]> (hb_subs h) !! ch' = Some pg → holds_latest (hb_latest h) pg) as Hpages.
  { intros ch' pg. rewrite lookup_insert_Some. intros [[<- <-]|[_ Hpg]]; [|by eapply free_pages].
    unfold holds_latest. cbn. by destruct (hb_latest h). }
  pose proof (insert_non_empty (hb_subs h) ch (mkPage (hb_latest h) None)) as Hne.
  cbn. destruct (hb_stop h) as [r0|] eqn:Hstop; apply inv_free; cbn; try done.
  - apply (hi_stop _ Hinv).
  - apply (hi_live _ Hinv).
  - by rewrite Hstop.
  - by rewrite Hstop.
  - by apply free_runs.
  - intros r' [= <-]. split; [done|]. rewrite lookup_insert_eq. by eexists.
  - intros r'. rewrite lookup_insert_is_Some. intros [->|[_ Hr]] Hc; [done|]. pose proof (hi_live _ Hinv r' Hr Hc). congruence.
  - intros r' u. rewrite lookup_insert_Some. intros [[<- <-]|[_ Hu]]; [done|]. by eapply free_runs.
Qed.

Lemma inv_unsubscribe h ch : hub_inv h → hb_lock h = None → hub_inv (unsubscribe ch h).
Proof.
  unfold unsubscribe. intros Hinv Hlock. cbn.
  assert (∀ ch' pg, delete ch (hb_subs h) !! ch' = Some pg → holds_latest (hb_latest h) pg) as Hpages.
  { intros ch' pg. rewrite lookup_delete_Some. intros [_ Hpg]. by eapply free_pages. }
  destruct (hb_stop h) as [r|] eqn:Hstop; [destruct (bool_decide_reflect (delete ch (hb_subs h) = ∅)) as [He|He]|].
  - apply inv_free; cbn; try done; [|by apply free_runs|by rewrite He].
    intros r' Hr Hc. apply not_elem_of_union in Hc as [Hne%not_elem_of_singleton Hc].
    pose proof (hi_live _ Hinv r' Hr Hc). congruence.
  - apply inv_free; cbn; try done; [apply (hi_stop _ Hinv)|apply (hi_live _ Hinv)|by rewrite Hstop|by rewrite Hstop|by apply free_runs].
  - apply inv_free; cbn; try done; [apply (hi_stop _ Hinv)|apply (hi_live _ Hinv)| |apply (hi_idle _ Hinv)|by apply free_runs].
    rewrite (proj2 (hi_subs _ Hinv) Hstop), delete_empty. done.
Qed.

(** What the publisher's own steps must keep. *)
Lemma inv_publisher h r u : hub_inv h → hb_runs h !! r = Some u → hb_stop h = Some r → hb_lock h = None ∨ hb_lock h = Some r →
  ∀ p subs b, publishing p = true → dom subs = dom (hb_subs h) →
  (∀ ch pg, subs !! ch = Some pg → ch ∈ to_serve (Some p) ∨ holds_latest (Some b) pg) →
  (NoDup (to_serve (Some p)) ∧ ∀ ch, ch ∈ to_serve (Some p) → is_Some (subs !! ch)) →
  match p with Draining b' _ => b = b' | Sending b' ch _ => b = b' ∧ ∃ shown, subs !! ch = Some (mkPage None shown) | _ => True end →
  hub_inv (goto r u p (set_subs subs (set_latest (Some b) (set_lock (Some r) h)))).
Proof.
  intros Hinv Hu Hstop Hlock p subs b Hp Hdom Hpages Htodo Hpub.
  assert (pub_pc (goto r u p (set_subs subs (set_latest (Some b) (set_lock (Some r) h)))) = Some p) as Hpc.
  { unfold pub_pc. cbn. by rewrite lookup_insert_eq. }
  split; rewrite ?Hpc; cbn; try done.
  - intros r' Hr'. destruct (hi_stop _ Hinv r' Hr'). split; [done|]. rewrite lookup_insert_is_Some. destruct (decide (r = r')); auto.
  - intros r'. rewrite lookup_insert_is_Some. intros [->|[_ Hr]] Hc; [done|by apply (hi_live _ Hinv)].
  - rewrite <- (hi_subs _ Hinv), <- !(dom_empty_iff_L (D := gset page_id)), Hdom. done.
  - rewrite Hstop. done.
  - intros r' u'. rewrite lookup_insert_Some. intros [[<- <-]|[Hne Hu']]; [by rewrite bool_decide_true|].
    rewrite (hi_lock _ Hinv _ _ Hu'). destruct Hlock as [-> | ->]; by rewrite !bool_decide_false by congruence.
  - intros r' [= <-]. done.
  - destruct p; try done; [by rewrite Hpub|]. by destruct Hpub as [-> ?].
Qed.

Lemma inv_lock h r u order now interval : hub_inv h → hb_runs h !! r = Some u → ∀ h', lock interval r u order now h = Some h' → hub_inv h'.
Proof.
  unfold lock, cancelled. intros Hinv Hu h' Hl. destruct (ru_pc u) as [| |b| |] eqn:Hpc; try done.
  destruct (bool_decide_reflect (hb_lock h = None)) as [Hlock|], (bool_decide_reflect (NoDup order)),
    (bool_decide_reflect (list_to_set order = dom (hb_subs h))) as [Hdom|]; try done. cbn in Hl. injection Hl as <-.
  destruct (bool_decide_reflect (r ∈ hb_cancelled h)) as [|Hc].
  - apply inv_quiet with u; [done..|by rewrite Hpc|done].
  - assert (∀ ch, ch ∈ order ↔ is_Some (hb_subs h !! ch)) as Hin.
    { intros ch. rewrite <- elem_of_dom, <- Hdom. by rewrite elem_of_list_to_set. }
    apply (inv_publisher h r u Hinv Hu); cbn; try done; [by apply (hi_live _ Hinv); [eexists|]|by left| |split; [done|apply Hin]].
    intros ch pg Hpg. left. apply Hin. by eexists.
Qed.

Lemma publisher h r u : hub_inv h → hb_runs h !! r = Some u → publishing (ru_pc u) = true →
  hb_lock h = Some r ∧ hb_stop h = Some r ∧ pub_pc h = Some (ru_pc u).
Proof.
  intros Hinv Hu Hp. pose proof (hi_lock _ Hinv _ _ Hu) as Hl. rewrite Hp in Hl. symmetry in Hl. apply bool_decide_eq_true in Hl.
  split_and!; [done|by apply (hi_holder _ Hinv)|]. unfold pub_pc. rewrite Hl. cbn. by rewrite Hu.
Qed.

Lemma hub_eta h l b : hb_lock h = l → hb_latest h = b → set_latest b (set_lock l h) = h.
Proof. intros <- <-. by destruct h. Qed.

Lemma inv_publish h r u now interval : hub_inv h → hb_runs h !! r = Some u → ∀ h', publish interval r u now h = Some h' → hub_inv h'.
Proof.
  unfold publish. intros Hinv Hu h' Hs.
  assert (publishing (ru_pc u) = true) as Hp by by destruct (ru_pc u).
  destruct (publisher h r u Hinv Hu Hp) as (Hlock & Hstop & Hpc).
  pose proof (hi_publishes _ Hinv) as Hpub. pose proof (hi_todo _ Hinv) as [Hnd Hin]. pose proof (hi_pages _ Hinv) as Hpages.
  rewrite Hpc in Hpub, Hnd, Hin, Hpages. destruct (ru_pc u) as [| | |b [|ch todo]|b ch todo] eqn:Hpcu; try done.
  - injection Hs as <-. apply inv_free; cbn; try done.
    + intros r' Hr'. destruct (hi_stop _ Hinv r' Hr'). split; [done|]. rewrite lookup_insert_is_Some. destruct (decide (r = r')); auto.
    + intros r'. rewrite lookup_insert_is_Some. intros [->|[_ Hr]] Hc; [done|by apply (hi_live _ Hinv)].
    + apply Hinv.
    + apply Hinv.
    + intros r' u'. rewrite lookup_insert_Some. intros [[<- <-]|[Hne Hu']]; [done|].
      rewrite (hi_lock _ Hinv _ _ Hu'), Hlock. apply bool_decide_false. congruence.
    + intros ch pg Hpg. by destruct (Hpages ch pg Hpg) as [Hx%not_elem_of_nil|?].
  - injection Hs as <-. rewrite <- (hub_eta h (Some r) (Some b)) by done.
    destruct (Hin ch ltac:(left)) as [pg Hpg].
    apply (inv_publisher h r u Hinv Hu Hstop (or_intror Hlock)); cbn; [done|apply dom_alter_L| | |].
    + intros ch' pg'. destruct (decide (ch = ch')) as [<-|Hne]; [intros _; left; left|].
      rewrite lookup_alter_ne by done. intros Hpg'. rewrite <- Hpub. by apply Hpages.
    + split; [done|]. intros ch' Hch'. rewrite lookup_alter_is_Some. by apply Hin.
    + split; [done|]. exists (pg_shown pg). by rewrite lookup_alter_eq, Hpg.
  - destruct Hpub as (Hlatest & shown & Hch). rewrite Hch in Hs. injection Hs as <-. rewrite <- (hub_eta h (Some r) (Some b)) by done.
    apply NoDup_cons in Hnd as [Hnew Hnd].
    apply (inv_publisher h r u Hinv Hu Hstop (or_intror Hlock)); cbn; [done|by apply dom_insert_lookup_L; rewrite Hch| | |done].
    + intros ch' pg'. rewrite lookup_insert_Some. intros [[<- <-]|[Hne Hpg']]; [by right|].
      destruct (Hpages ch' pg' Hpg') as [[->|?]%elem_of_cons|Hok]; [done|by left|right; by rewrite <- Hlatest].
    + split; [done|]. intros ch' Hch'. rewrite lookup_insert_is_Some. destruct (decide (ch = ch')); [by left|right].
      split; [done|]. apply Hin. by right.
Qed.

Lemma inv_quit h r u : hub_inv h → hb_runs h !! r = Some u → ∀ h', quit r u h = Some h' → hub_inv h'.
Proof.
  unfold quit, cancelled. intros Hk Hu h' Hs. destruct (ru_pc u) eqn:Hp; try done.
  destruct (bool_decide_reflect (r ∈ hb_cancelled h)) as [Hc|]; [|done]. injection Hs as <-.
  assert (hb_stop h ≠ Some r) as Hr2 by (intros Hr; by apply (hi_stop _ Hk) in Hr as [? _]).
  assert (hb_lock h ≠ Some r) as Hr1 by (intros Hr; by apply (hi_holder _ Hk) in Hr).
  set (h' := mkHub _ _ _ _ _ _ _ _).
  assert (pub_pc h' = pub_pc h) as Hpc.
  { unfold pub_pc. cbn. destruct (hb_lock h) as [r'|]; [|done]. cbn. by rewrite lookup_delete_ne by congruence. }
  destruct Hk. split; rewrite ?Hpc; cbn; try done.
  - intros r' Hs. destruct (hi_stop0 r' Hs). split; [done|]. rewrite lookup_delete_is_Some. split; [congruence|done].
  - intros r'. rewrite lookup_delete_is_Some. intros [_ ?]. by apply hi_live0.
  - intros r' v. rewrite lookup_delete_Some. intros [_ Hv]. by apply hi_lock0.
Qed.

Lemma hub_inv_exec interval a h h' : hub_inv h → exec interval a h = Some h' → hub_inv h'.
Proof.
  assert (∀ r now f, hub_inv h → (∀ u k, hub_inv k → hb_runs k !! r = Some u → ∀ h', f u k = Some h' → hub_inv h') →
    run_at r now f h = Some h' → hub_inv h') as Hrun.
  { unfold run_at. intros r now f Hinv Hf Hs. destruct (hb_runs h !! r) as [u|] eqn:Hu; [|done].
    destruct (hb_clock h <=? now); [|done]. apply (Hf u (set_clock now h)); [by apply inv_clock|done|done]. }
  intros Hinv Hs. destruct a; cbn in Hs.
  - case_bool_decide; [|done]. by eapply inv_subscribe.
  - case_bool_decide; [|done]. injection Hs as <-. by apply inv_unsubscribe.
  - by eapply inv_receive.
  - injection Hs as <-. by apply inv_nudge.
  - revert Hs. apply Hrun; [done|]. unfold tick. intros u k Hk Hu h2 H2. destruct (ru_pc u) eqn:Hp; try done.
    destruct (now <? timer); [done|]. injection H2 as <-. by apply inv_quiet with u; rewrite ?Hp.
  - revert Hs. apply Hrun; [done|]. unfold nudged. intros u k Hk Hu h2 H2. destruct (ru_pc u) eqn:Hp; try done.
    destruct (hb_nudge k); [|done]. injection H2 as <-. destruct (_ <? _); apply inv_quiet with u; try done; try (by rewrite Hp); by apply inv_nudge.
  - revert Hs. apply Hrun; [done|]. intros u k. apply inv_quit.
  - revert Hs. apply Hrun; [done|]. unfold read_done. intros u k Hk Hu h2 H2. destruct (ru_pc u) eqn:Hp; try done.
    destruct b; injection H2 as <-; [destruct (cancelled k r)|]; by apply inv_quiet with u; rewrite ?Hp.
  - revert Hs. apply Hrun; [done|]. intros u k. apply inv_lock.
  - revert Hs. apply Hrun; [done|]. intros u k. apply inv_publish.
Qed.

Lemma hub_reachable_inv interval h : reachable interval h → hub_inv h.
Proof. induction 1; [apply inv_new|by eapply hub_inv_exec]. Qed.

(** C28: Whatever pages open, close, receive and whoever pokes, and however
    readers that were stopped linger: outside of a publication every open page
    shows the latest snapshot or has it waiting in its channel, a reader runs
    while a page is open, and it is the only one whose context has not ended. *)
Theorem every_page_shows_the_latest_snapshot interval h : reachable interval h →
  (hb_lock h = None → ∀ ch pg, hb_subs h !! ch = Some pg → holds_latest (hb_latest h) pg) ∧
  (hb_subs h ≠ ∅ → ∃ r, is_Some (hb_runs h !! r) ∧ r ∉ hb_cancelled h) ∧
  (∀ r, is_Some (hb_runs h !! r) → r ∉ hb_cancelled h → hb_subs h ≠ ∅ ∧
     ∀ r', is_Some (hb_runs h !! r') → r' ∉ hb_cancelled h → r' = r).
Proof.
  intros Hinv%hub_reachable_inv. split_and!; [by apply free_pages| |].
  - intros Hne. destruct (hb_stop h) as [r|] eqn:Hs; [|by apply (hi_subs _ Hinv) in Hs].
    destruct (hi_stop _ Hinv r Hs) as [? ?]. by exists r.
  - intros r Hr Hc. pose proof (hi_live _ Hinv r Hr Hc) as Hs. split.
    + rewrite (hi_subs _ Hinv), Hs. done.
    + intros r' Hr' Hc'. pose proof (hi_live _ Hinv r' Hr' Hc'). congruence.
Qed.

(** ** Publishing ends *)

(** So many steps of the publisher. *)
Fixpoint publish_steps (interval : duration) (n : nat) (r : reader_id) (now : time) (h : hub) : option hub :=
  match n with
  | O => Some h
  | S n => exec interval (Publish r now) h ≫= publish_steps interval n r now
  end.

(** The steps a publisher has left. *)
Definition publish_work (p : pc) : nat :=
  match p with Draining _ todo => S (2 * length todo) | Sending _ _ todo => S (S (2 * length todo)) | _ => 0 end.

Lemma publish_step interval h r u now : hub_inv h → hb_runs h !! r = Some u → publishing (ru_pc u) = true → hb_clock h ≤ now →
  ∃ h' u', exec interval (Publish r now) h = Some h' ∧ hb_runs h' !! r = Some u' ∧ hb_clock h' = now ∧
    (hb_lock h' = None ∧ publish_work (ru_pc u) = 1%nat ∨
     publishing (ru_pc u') = true ∧ publish_work (ru_pc u) = S (publish_work (ru_pc u'))).
Proof.
  intros Hinv Hu Hp Hnow. destruct (publisher h r u Hinv Hu Hp) as (_ & _ & Hpc).
  pose proof (hi_publishes _ Hinv) as Hpub. rewrite Hpc in Hpub.
  unfold exec, run_at. rewrite Hu. destruct (Z.leb_spec (hb_clock h) now); [|lia]. unfold publish.
  destruct (ru_pc u) as [| | |b [|ch todo]|b ch todo] eqn:Hpcu; try done; cbn [set_clock hb_subs].
  - eexists _, _. split_and!; [done|cbn; apply lookup_insert_eq|done|]. by left.
  - eexists _, _. split_and!; [done|cbn; apply lookup_insert_eq|done|]. right. split; [done|]. cbn. lia.
  - destruct Hpub as (_ & shown & ->). eexists _, _. split_and!; [done|cbn; apply lookup_insert_eq|done|]. right. split; [done|]. cbn. lia.
Qed.

(** A publication never blocks on a page that does not read: with nobody's help it
    is over, and the lock free, after at most two steps per page and one. *)
Theorem publishing_never_blocks interval h r now : reachable interval h → hb_lock h = Some r → hb_clock h ≤ now →
  ∃ n h', (n ≤ 2 * size (hb_subs h) + 1)%nat ∧ publish_steps interval n r now h = Some h' ∧ hb_lock h' = None.
Proof.
  intros Hreach Hlock Hnow. pose proof (hub_reachable_inv _ _ Hreach) as Hinv.
  destruct (hi_stop _ Hinv r (hi_holder _ Hinv r Hlock)) as [_ [u Hu]].
  assert (publishing (ru_pc u) = true) as Hp by (rewrite (hi_lock _ Hinv _ _ Hu); by apply bool_decide_true).
  exists (publish_work (ru_pc u)).
  assert (publish_work (ru_pc u) ≤ 2 * size (hb_subs h) + 1)%nat as Hwork.
  { destruct (publisher h r u Hinv Hu Hp) as (_ & _ & Hpc). destruct (hi_todo _ Hinv) as [Hnd Hin]. rewrite Hpc in *.
    assert (length (to_serve (Some (ru_pc u))) ≤ size (hb_subs h))%nat as Hlen.
    { rewrite <- size_dom, <- (size_list_to_set (C := gset page_id)) by done.
      apply subseteq_size. intros ch Hch%elem_of_list_to_set. by apply elem_of_dom, Hin. }
    destruct (ru_pc u); cbn in *; lia. }
  cut (∀ n h u, reachable interval h → hb_runs h !! r = Some u → publishing (ru_pc u) = true → hb_clock h ≤ now →
    publish_work (ru_pc u) = n → ∃ h', publish_steps interval n r now h = Some h' ∧ hb_lock h' = None).
  { intros Hall. destruct (Hall _ h u Hreach Hu Hp Hnow eq_refl) as (h' & ? & ?). by exists h'. }
  clear. induction n as [|n IH]; intros h u Hreach Hu Hp Hnow Hn; [by destruct (ru_pc u)|].
  destruct (publish_step interval h r u now (hub_reachable_inv _ _ Hreach) Hu Hp Hnow) as (h' & u' & Hs & Hu' & Hc & [[Hl Hw]|[Hp' Hw]]);
    cbn [publish_steps]; rewrite Hs; cbn [mbind option_bind].
  - assert (n = 0%nat) as -> by lia. by exists h'.
  - apply (IH h' u'); [by eapply reach_step|done|done|lia|lia].
Qed.

(** ** Reads are spaced *)

(** Each read of a reader begins at least [gap] after the one before, and its
    timer does not fire before [earliest]. *)
Record run_ok (interval : duration) (clock : time) (u : run_state) : Prop := {
  ro_spaced : Sorted (λ later earlier, earlier + gap interval ≤ later) (ru_starts u);
  ro_earliest : match ru_starts u with [] => ru_earliest u = time_zero | t :: _ => t ≤ clock ∧ ru_earliest u = t + gap interval end;
  ro_timer : match ru_pc u with Waiting timer => ru_earliest u ≤ timer | _ => True end;
}.

Definition clock_inv (interval : duration) (h : hub) : Prop :=
  0 ≤ hb_clock h ∧ ∀ r u, hb_runs h !! r = Some u → run_ok interval (hb_clock h) u.

Lemma run_ok_later interval t t' u : run_ok interval t u → t ≤ t' → run_ok interval t' u.
Proof. intros [? He ?] ?. split; try done. destruct (ru_starts u); [done|]. destruct He. split; [lia|done]. Qed.

Lemma run_ok_starts interval clock u now : run_ok interval clock u → clock ≤ now → 0 ≤ now → ru_earliest u ≤ now → 
  run_ok interval now (mkRun Reading (time_Add now (gap interval)) (now :: ru_starts u)).
Proof.
  intros [Hs He _] Hc H0 Hle. split; cbn; [|done|done]. constructor; [done|].
  destruct (ru_starts u) as [|t l]; constructor. lia.
Qed.

Lemma run_ok_goto interval clock u p : run_ok interval clock u → (∀ t, p = Waiting t → ru_earliest u ≤ t) →
  run_ok interval clock (mkRun p (ru_earliest u) (ru_starts u)).
Proof. intros [] Hp. split; cbn; try done. destruct p; try done. by apply Hp. Qed.

Lemma earliest_bound interval clock u : 0 < interval → 0 ≤ clock → run_ok interval clock u → ru_earliest u ≤ clock + gap interval.
Proof.
  intros Hi Hc [_ He _]. unfold gap, minGap, millisecond in *. destruct (ru_starts u) as [|t l]; [rewrite He; unfold time_zero|]; lia.
Qed.

Lemma clock_set_run interval h r u : clock_inv interval h → run_ok interval (hb_clock h) u → clock_inv interval (set_run r u h).
Proof.
  intros [H0 Hall] Hu. split; [done|]. cbn. intros r' u'. rewrite lookup_insert_Some. intros [[<- <-]|[_ ?]]; [done|by eapply Hall].
Qed.

Lemma clock_goto interval h r u p : clock_inv interval h → hb_runs h !! r = Some u → (∀ t, p = Waiting t → ru_earliest u ≤ t) →
  clock_inv interval (goto r u p h).
Proof. intros Hc Hu Hp. apply clock_set_run; [done|]. apply run_ok_goto; [|done]. by apply Hc in Hu. Qed.

Lemma clock_rest interval h r u : 0 < interval → clock_inv interval h → hb_runs h !! r = Some u →
  clock_inv interval (rest interval r u (hb_clock h) h).
Proof.
  intros Hi Hc Hu. apply clock_goto; [done..|]. intros t [= <-].
  pose proof (earliest_bound interval _ u Hi (proj1 Hc) (proj2 Hc _ _ Hu)). unfold time_Add, gap in *. lia.
Qed.

Lemma clock_reader_step interval h r u : 0 < interval → clock_inv interval h → hb_runs h !! r = Some u → ∀ h' now, now = hb_clock h →
  (tick interval r u now h = Some h' ∨ nudged interval r u now h = Some h' ∨ quit r u h = Some h' ∨
   (∃ b, read_done interval r u b now h = Some h') ∨ (∃ order, lock interval r u order now h = Some h') ∨
   publish interval r u now h = Some h') → clock_inv interval h'.
Proof.
  intros Hi Hc Hu h' now ->. pose proof (proj2 Hc _ _ Hu) as Hok.
  intros [Hs|[Hs|[Hs|[[b Hs]|[[order Hs]|Hs]]]]].
  - unfold tick in Hs. destruct (ru_pc u) as [timer| | | |] eqn:Hp; try done. destruct (Z.ltb_spec (hb_clock h) timer); [done|].
    injection Hs as <-. apply clock_set_run; [done|]. pose proof (ro_timer _ _ _ Hok) as Ht. rewrite Hp in Ht.
    apply run_ok_starts with (hb_clock h); [done|lia|apply Hc|lia].
  - unfold nudged in Hs. destruct (ru_pc u) as [timer| | | |] eqn:Hp; try done. destruct (hb_nudge h); [|done]. injection Hs as <-.
    pose proof (earliest_bound interval _ u Hi (proj1 Hc) Hok) as Hb.
    assert (gap interval ≤ max_int64) by (unfold gap, minGap, millisecond, max_int64; lia).
    destruct (Z.ltb_spec 0 (time_Sub (ru_earliest u) (hb_clock h))) as [Hw|Hw].
    + apply clock_goto; [done..|]. intros t [= <-]. unfold time_Sub, time_Add, max_int64, min_int64 in *. lia.
    + apply clock_set_run; [done|]. apply run_ok_starts with (hb_clock h); [done|cbn; lia|apply Hc|]. unfold time_Sub, max_int64, min_int64 in Hw. cbn. lia.
  - unfold quit in Hs. destruct (ru_pc u); try done. destruct (cancelled h r); [|done]. injection Hs as <-.
    split; [apply Hc|]. cbn. intros r' v. rewrite lookup_delete_Some. intros [_ Hv]. by apply Hc in Hv.
  - unfold read_done in Hs. destruct (ru_pc u); try done.
    destruct b; injection Hs as <-; [destruct (cancelled h r)|]; (by apply clock_rest) || by apply clock_goto.
  - unfold lock in Hs. destruct (ru_pc u); try done. destruct (_ && _); [|done]. injection Hs as <-.
    destruct (cancelled h r); [by apply clock_rest|]. apply clock_goto; [|done|done]. by destruct Hc.
  - unfold publish in Hs. destruct (ru_pc u) as [| | |b [|ch todo]|b ch todo]; try done.
    + injection Hs as <-. apply (clock_rest interval (set_lock None h)); [done|by destruct Hc|done].
    + injection Hs as <-. apply clock_goto; [by destruct Hc|done|done].
    + destruct (hb_subs h !! ch) as [[[] ?]|]; try done. injection Hs as <-. apply clock_goto; [by destruct Hc|done|done].
Qed.

Lemma clock_exec interval a h h' : 0 < interval → clock_inv interval h → exec interval a h = Some h' → clock_inv interval h'.
Proof.
  intros Hi Hc Hs.
  assert (∀ r now f, run_at r now f h = Some h' → hb_clock h ≤ now → ∃ u, hb_runs h !! r = Some u ∧ clock_inv interval (set_clock now h) ∧
    f u (set_clock now h) = Some h') as Hrun.
  { unfold run_at. intros r now f Hf Hle. destruct (hb_runs h !! r) as [u|] eqn:Hu; [|done]. destruct (hb_clock h <=? now); [|done].
    exists u. split_and!; [done| |done]. destruct Hc as [H0 Hall]. split; cbn; [lia|]. intros r' u' Hu'%Hall. by eapply run_ok_later. }
  assert (∀ r now f, run_at r now f h = Some h' → hb_clock h ≤ now) as Hnow.
  { unfold run_at. intros r now f. destruct (hb_runs h !! r); [|done]. by destruct (Z.leb_spec (hb_clock h) now). }
  destruct a; cbn in Hs; try (destruct (Hrun _ _ _ Hs (Hnow _ _ _ Hs)) as (u & Hu & Hc' & Hf);
    eapply (clock_reader_step interval _ r u Hi Hc' Hu h' _ eq_refl); naive_solver).
  - case_bool_decide; [|done]. unfold subscribe in Hs. destruct (_ || _ || _); [done|]. injection Hs as <-.
    destruct Hc as [H0 Hall]. destruct (hb_stop _); [done|]. split; [done|]. cbn. intros r' u'. rewrite lookup_insert_Some.
    intros [[<- <-]|[_ ?]]; [|by eapply Hall]. split; cbn; [constructor|done|done].
  - case_bool_decide; [|done]. injection Hs as <-. unfold unsubscribe. destruct (hb_stop _); [destruct (bool_decide _)|]; by destruct Hc.
  - unfold receive in Hs. destruct (hb_subs h !! ch) as [[[] ?]|]; try done. injection Hs as <-. by destruct Hc.
  - injection Hs as <-. by destruct Hc.
Qed.

(** Reads of one reader begin at least the smaller of minGap and the interval
    apart, however often the hub is poked. *)
Theorem reads_are_spaced interval h r u : 0 < interval → reachable interval h → hb_runs h !! r = Some u →
  Sorted (λ later earlier, earlier + Z.min minGap interval ≤ later) (ru_starts u).
Proof.
  intros Hi Hreach Hu.
  assert (clock_inv interval h) as Hc.
  { clear Hu. induction Hreach as [|h a h' _ IH Hs]; [|by eapply clock_exec]. split; [done|]. intros r' u' Hr. change (hb_runs newHub) with (∅ : gmap reader_id run_state) in Hr. by rewrite lookup_empty in Hr. }
  exact (ro_spaced _ _ _ (proj2 Hc _ _ Hu)).
Qed.
