(* ===== verification/Dashboard.v ===== *)
(** * The dashboard ([dashboard/dashboard.go], the handlers of [automations.go]
    and [events.go], and [hub.read])

    A dashboard over the stores it was given, each a record of operations on
    a world [W].  A request is what the handlers look at; its path is the
    segments the mux matches.  A response is its status and the value that
    is encoded.  Parsing an address or a URL and lower-casing are the
    standard library's, and parameters. *)
From Stdlib Require Import Strings.Ascii Strings.String.
From S2P Require Import Prelude Core Iter Registry Context Log AutoTypes ProjStore Runner DashEvents DashView DashAuto DashHub.

Class NetText : Type := {
  ToLower : string → string;          (* [strings.ToLower] *)
  ParseIP : string → bool;            (* [net.ParseIP] finds an address *)
  url_Host : string → option string;  (* [url.Parse]'s [Host] *)
}.

(** ** Text *)
Definition index_byte (c : ascii) (s : list ascii) : option nat := fst <$> list_find (λ x, x = c) s.
Definition last_index_byte (c : ascii) (s : list ascii) : option nat := (λ i, length s - 1 - i)%nat <$> index_byte c (reverse s).
Definition has_byte (c : ascii) (s : list ascii) : bool := negb (is_nil (index_byte c s)).

(** [net.SplitHostPort]: the host, or [None] for an error. *)
Definition SplitHostPort (hostport : string) : option string :=
  let s := list_ascii_of_string hostport in
  match last_index_byte ":" s with
  | None => None
  | Some i =>
    match s with
    | "["%char :: _ =>
      match index_byte "]" s with
      | None => None
      | Some end_ =>
        if negb (S end_ =? i)%nat || has_byte "[" (drop 1 s) || has_byte "]" (drop (S end_) s) then None
        else Some (string_of_list_ascii (drop 1 (take end_ s)))
      end
    | _ =>
      if has_byte ":" (take i s) || has_byte "[" s || has_byte "]" s then None else Some (string_of_list_ascii (take i s))
    end
  end.

Fixpoint trim_left (p : ascii → bool) (s : list ascii) : list ascii :=
  match s with c :: s' => if p c then trim_left p s' else s | [] => [] end.

(** [strings.TrimSuffix(s, ".")] and [strings.Trim(s, "[]")] *)
Definition trim_dot (s : string) : string :=
  match reverse (list_ascii_of_string s) with "."%char :: r => string_of_list_ascii (reverse r) | _ => s end.
Definition trim_brackets (s : string) : string :=
  let p c := bool_decide (c = "["%char) || bool_decide (c = "]"%char) in
  string_of_list_ascii (reverse (trim_left p (reverse (trim_left p (list_ascii_of_string s))))).

(** The value of a run of decimal digits. *)
Fixpoint digits (s : list ascii) (n : Z) : option Z :=
  match s with
  | [] => Some n
  | c :: s => let d := Z.of_nat (nat_of_ascii c) - 48 in if (0 <=? d) && (d <=? 9) then digits s (10 * n + d) else None
  end.
Definition digits1 (s : list ascii) : option Z := match s with [] => None | _ => digits s 0 end.

(** [strconv.ParseUint(s, 10, 64)] and [strconv.Atoi(s)] *)
Definition ParseUint (s : string) : option Z :=
  n ← digits1 (list_ascii_of_string s); if n <? two64 then Some n else None.
Definition Atoi (s : string) : option Z :=
  n ← match list_ascii_of_string s with
      | "-"%char :: t => Z.opp <$> digits1 t
      | "+"%char :: t => digits1 t
      | t => digits1 t
      end;
  if (min_int64 <=? n) && (n <=? max_int64) then Some n else None.

(** ** The stores *)
Record ProjectionOps (W : Type) : Type := mkProjectionOps {
  po_LoadStatuses : string → W → result error (list Status) * W;
  po_LoadInstances : string → W → result error (list Instance_) * W;
  po_RequestRebuild : string → W → result error Z * W;
}.
Arguments mkProjectionOps {W}. Arguments po_LoadStatuses {W}. Arguments po_LoadInstances {W}. Arguments po_RequestRebuild {W}.

Record AutomationOps (W : Type) : Type := mkAutomationOps {
  ao_Paused : string → W → result error bool * W;
  ao_LoadStatuses : string → W → result error (list AutoTypes.Status) * W;
  ao_LoadSegments : string → W → result error (list SegmentState) * W;
  ao_SetPaused : string → bool → W → option error * W;
}.
Arguments mkAutomationOps {W}. Arguments ao_Paused {W}. Arguments ao_LoadStatuses {W}. Arguments ao_LoadSegments {W}.
Arguments ao_SetPaused {W}.

(** [CorrelationLoader] *)
Class CorrelationLoader (C St : Type) : Type := cl_LoadCorrelation : C → string → result error (Iterator St Envelope).

(** The clock, and [err.Error()] *)
Class DashEnv (W : Type) : Type := { dash_now : W → time; dash_text : error → string }.

(** ** The dashboard *)
Definition DefaultInterval : duration := 500 * millisecond.

Section dashboard.
Context {W R C St : Type} `{GR : GlobalReader R, CL : CorrelationLoader C St, E : DashEnv W, N : NetText, J : JSON, U : UUIDString}.

Record Dashboard : Type := mkDashboard {
  d_store : ProjectionOps W;
  d_names : list string;
  d_runners : gmap string (Runner W);
  d_reset : bool;
  d_interval : duration;
  d_claimTTL : duration;
  d_title : string;
  d_hosts : list string;
  d_events : option R;
  d_chains : option C;
  d_automations : option (AutomationOps W);
  d_automationNames : list string;
  d_pause : bool;
}.

Definition Name (r : Runner W) : string := p_Name (rn_p r).
Definition CanRebuild (r : Runner W) : bool := negb (is_nil (p_Reset (rn_p r))).

(** *** Options *)
Definition Option_ : Type := Dashboard → Dashboard.

Definition WithRunners (runners : list (Runner W)) : Option_ := λ d,
  foldl (λ d r, mkDashboard (d_store d) (d_names d ++ [Name r]) (<[Name r := r]> (d_runners d)) (d_reset d) (d_interval d) (d_claimTTL d)
    (d_title d) (d_hosts d) (d_events d) (d_chains d) (d_automations d) (d_automationNames d) (d_pause d)) d runners.
Definition WithProjections (names : list string) : Option_ := λ d,
  mkDashboard (d_store d) (d_names d ++ names) (d_runners d) (d_reset d) (d_interval d) (d_claimTTL d)
    (d_title d) (d_hosts d) (d_events d) (d_chains d) (d_automations d) (d_automationNames d) (d_pause d).
Definition WithReset : Option_ := λ d,
  mkDashboard (d_store d) (d_names d) (d_runners d) true (d_interval d) (d_claimTTL d)
    (d_title d) (d_hosts d) (d_events d) (d_chains d) (d_automations d) (d_automationNames d) (d_pause d).
Definition WithAutomations (store : AutomationOps W) (names : list string) : Option_ := λ d,
  mkDashboard (d_store d) (d_names d) (d_runners d) (d_reset d) (d_interval d) (d_claimTTL d)
    (d_title d) (d_hosts d) (d_events d) (d_chains d) (Some store) (d_automationNames d ++ names) (d_pause d).
Definition WithPause : Option_ := λ d,
  mkDashboard (d_store d) (d_names d) (d_runners d) (d_reset d) (d_interval d) (d_claimTTL d)
    (d_title d) (d_hosts d) (d_events d) (d_chains d) (d_automations d) (d_automationNames d) true.
Definition WithInterval (interval : duration) : Option_ := λ d,
  mkDashboard (d_store d) (d_names d) (d_runners d) (d_reset d) interval (d_claimTTL d)
    (d_title d) (d_hosts d) (d_events d) (d_chains d) (d_automations d) (d_automationNames d) (d_pause d).
Definition WithClaimTTL (ttl : duration) : Option_ := λ d,
  mkDashboard (d_store d) (d_names d) (d_runners d) (d_reset d) (d_interval d) ttl
    (d_title d) (d_hosts d) (d_events d) (d_chains d) (d_automations d) (d_automationNames d) (d_pause d).
Definition WithAllowedHosts (hosts : list string) : Option_ := λ d,
  mkDashboard (d_store d) (d_names d) (d_runners d) (d_reset d) (d_interval d) (d_claimTTL d)
    (d_title d) (d_hosts d ++ (ToLower <$> hosts)) (d_events d) (d_chains d) (d_automations d) (d_automationNames d) (d_pause d).
(** [chains] is the reader as a [CorrelationLoader], if it is one. *)
Definition WithEvents (reader : R) (chains : option C) : Option_ := λ d,
  mkDashboard (d_store d) (d_names d) (d_runners d) (d_reset d) (d_interval d) (d_claimTTL d)
    (d_title d) (d_hosts d) (Some reader) chains (d_automations d) (d_automationNames d) (d_pause d).
Definition WithTitle (title : string) : Option_ := λ d,
  mkDashboard (d_store d) (d_names d) (d_runners d) (d_reset d) (d_interval d) (d_claimTTL d)
    title (d_hosts d) (d_events d) (d_chains d) (d_automations d) (d_automationNames d) (d_pause d).

Definition dedupe (names : list string) : list string :=
  foldl (λ out n, if negb (bool_decide (n = "")) && negb (bool_decide (n ∈ out)) then out ++ [n] else out) [] names.

(** The dashboard, and the runners whose commits poke its hub. *)
Definition New (store : ProjectionOps W) (opts : list Option_) : Dashboard * list string :=
  let d := foldl (λ d opt, opt d)
    (mkDashboard store [] ∅ false DefaultInterval DefaultClaimTTL "Projections" [] None None None [] false) opts in
  let names := dedupe (d_names d) in
  let automationNames := dedupe (d_automationNames d) in
  let title := if bool_decide (d_title d = "Projections") && bool_decide (names = []) && negb (bool_decide (automationNames = [])) then "Automations" else d_title d in
  (mkDashboard (d_store d) names (d_runners d) (d_reset d)
    (if d_interval d <=? 0 then DefaultInterval else d_interval d) (if d_claimTTL d <=? 0 then DefaultClaimTTL else d_claimTTL d)
    title (d_hosts d) (d_events d) (d_chains d) (d_automations d)
    (match d_automations d with None => [] | _ => automationNames end)
    (match d_automations d with None => false | _ => d_pause d end),
   (map_to_list (d_runners d)).*1).
End dashboard.
Arguments Dashboard : clear implicits.

(** ** Reading the stores *)
Record snapshot : Type := mkSnapshot {
  sn_Title : string; sn_Reset : bool; sn_Events : bool; sn_Chains : bool; sn_Projections : list projectionView;
  sn_ShowAutomations : bool; sn_Automations : list automationView;
}.

(** The fields [read] sets on a view. *)
Definition complete_view (v : projectionView) (instances : list Instance_) (local canReset : bool) (err : option string) (perSecond : float64) :
    projectionView :=
  mkProjectionView (pv_Name v) (if err then stateUnreadable else pv_State v) (pv_Position v) (pv_Head v) (pv_Behind v) perSecond
    (if f64_pos perSecond && (0 <? pv_Behind v) then f64_div (f64_of (pv_Behind v)) perSecond else pv_ETA v)
    (pv_Version v) local canReset (pv_RebuildRequested v) (default (pv_Error v) err) (pv_Segments v) (instancesView instances).

Definition complete_automation (v : automationView) (canPause : bool) (err : option string) : automationView :=
  mkAutomationView (av_Name v) (if err then stateUnreadable else av_State v) (av_Paused v) canPause (av_Processed v) (av_Failed v)
    (av_Deferred v) (av_WaitingFor v) (av_LastError v) (default (av_Error v) err) (av_Instances v) (av_Segments v).

(** A value or the zero value, and the error. *)
Definition value_or {A} (zero : A) (r : result error A) : A := match r with Ok a => a | Fail _ => zero end.
Definition error_of {A} (r : result error A) : option error := match r with Ok _ => None | Fail e => Some e end.

Section reading.
Context {W R C : Type} `{E : DashEnv W}.

(** One turn of the loop of [read]. *)
Definition read_projection (track : bool) (d : Dashboard W R C) (name : string) (rates : gmap string rate) (w : W) :
    projectionView * gmap string rate * W :=
  let '(statuses, w) := po_LoadStatuses (d_store d) name w in
  let '(instances, w) := po_LoadInstances (d_store d) name w in
  let err := match error_of statuses with Some e => Some e | None => error_of instances end in
  let runner := d_runners d !! name in
  let v := view name (value_or [] statuses) (d_claimTTL d) in
  let r := default no_rate (rates !! name) in
  let r := if track && is_nil err && (0 <? zlen (value_or [] statuses)) then observe (pv_Position v) (dash_now w) r else r in
  (complete_view v (value_or [] instances) (negb (is_nil runner))
     (d_reset d && match runner with Some r => CanRebuild r | None => true end) (dash_text <$> err) (ra_perSecond r),
   if track then <[name := r]> rates else rates, w).

Fixpoint read_projections (track : bool) (d : Dashboard W R C) (names : list string) (rates : gmap string rate) (w : W) :
    list projectionView * gmap string rate * W :=
  match names with
  | [] => ([], rates, w)
  | name :: names =>
    let '(v, rates, w) := read_projection track d name rates w in
    let '(vs, rates, w) := read_projections track d names rates w in
    (v :: vs, rates, w)
  end.

(** [readAutomations] *)
Fixpoint readAutomations (pause : bool) (store : AutomationOps W) (names : list string) (w : W) : list automationView * W :=
  match names with
  | [] => ([], w)
  | name :: names =>
    let '(paused, w) := ao_Paused store name w in
    let '(statuses, w) := ao_LoadStatuses store name w in
    let '(segments, w) := ao_LoadSegments store name w in
    let err := errors_Join [error_of paused; error_of statuses; error_of segments] in
    let v := complete_automation (automationViewOf name (value_or false paused) (value_or [] statuses) (value_or [] segments))
               pause (dash_text <$> err) in
    let '(vs, w) := readAutomations pause store names w in
    (v :: vs, w)
  end.

(** [hub.read] *)
Definition read (track : bool) (d : Dashboard W R C) (rates : gmap string rate) (w : W) : snapshot * gmap string rate * W :=
  let '(vs, rates, w) := read_projections track d (d_names d) rates w in
  let '(avs, w) := match d_automations d with
                   | Some store => readAutomations (d_pause d) store (d_automationNames d) w
                   | None => ([], w)
                   end in
  (mkSnapshot (d_title d) (d_reset d) (negb (is_nil (d_events d))) (negb (is_nil (d_chains d))) vs
     (negb (is_nil (d_automations d))) avs, rates, w).
End reading.

(** ** Requests *)

(** [rq_Path] is [None] for the empty path, or else the segments; a header
    or a query parameter that is absent reads as empty. *)
Record request : Type := mkRequest {
  rq_Method : string; rq_Host : string; rq_Path : option (list string); rq_RequestURI : string;
  rq_Header : string → string; rq_Query : string → list string;
}.

Inductive body : Type :=
| NoBody
| Text (s : string)
| StaticPage
| Stream
| Location (url : string)
| ErrorBody (msg : string)
| MessageBody (msg : string)
| SnapshotBody (s : snapshot)
| EventsBody (p : eventsPage)
| ChainBody (id : string) (events : list eventView).

Record response : Type := mkResponse { rs_Status : Z; rs_Body : body }.

Definition writeError (status : Z) (msg : string) : response := mkResponse status (ErrorBody msg).
Definition writeMessage (status : Z) (msg : string) : response := mkResponse status (MessageBody msg).

Definition StatusOK : Z := 200.
Definition StatusAccepted : Z := 202.
Definition StatusMovedPermanently : Z := 301.
Definition StatusBadRequest : Z := 400.
Definition StatusForbidden : Z := 403.
Definition StatusNotFound : Z := 404.
Definition StatusMethodNotAllowed : Z := 405.
Definition StatusConflict : Z := 409.
Definition StatusInternalServerError : Z := 500.

(** The routes of the mux. *)
Inductive route : Type :=
| Page | Events | Snapshot | Rebuild (name : string) | Pause (name : string) (paused : bool) | EventList | Chain (id : string).

Definition path_route (segments : list string) : option route :=
  match segments with
  | [] => Some Page
  | ["events"] => Some Events
  | ["api"; "snapshot"] => Some Snapshot
  | ["api"; "projections"; name; "rebuild"] => Some (Rebuild name)
  | ["api"; "automations"; name; "pause"] => Some (Pause name true)
  | ["api"; "automations"; name; "resume"] => Some (Pause name false)
  | ["api"; "events"] => Some EventList
  | ["api"; "correlations"; id] => Some (Chain id)
  | _ => None
  end.

(** A pattern with GET also matches HEAD. *)
Definition method_ok (rt : route) (method : string) : bool :=
  match rt with
  | Rebuild _ | Pause _ _ => bool_decide (method = "POST")
  | _ => bool_decide (method = "GET") || bool_decide (method = "HEAD")
  end.

Section handlers.
Context {W R C St : Type} `{GR : GlobalReader R, CL : CorrelationLoader C St, E : DashEnv W, N : NetText, J : JSON, U : UUIDString}.
Context (reg : Registry) (fuel : nat).

(** What the handlers change: the stores, the hub and its rates. *)
Record server : Type := mkServer { se_world : W; se_hub : hub; se_rates : gmap string rate }.

Implicit Types (d : Dashboard W R C) (q : request) (s : server).

Definition set_world (w : W) s : server := mkServer w (se_hub s) (se_rates s).
Definition poke_hub s : server := mkServer (se_world s) (poke (se_hub s)) (se_rates s).

Definition allowedHost d (host : string) : bool :=
  let host := default host (SplitHostPort host) in
  let host := ToLower (trim_dot host) in
  if bool_decide (host = "localhost") || ParseIP (trim_brackets host) then true else bool_decide (host ∈ d_hosts d).

Definition sameOrigin q : bool :=
  let site := rq_Header q "Sec-Fetch-Site" in
  if negb (bool_decide (site = "")) then bool_decide (site = "same-origin")
  else
    let origin := rq_Header q "Origin" in
    if bool_decide (origin = "") then true else bool_decide (url_Host origin = Some (rq_Host q)).

Definition serveSnapshot d s : response * server :=
  let '(snap, _, w) := read false d (se_rates s) (se_world s) in
  (mkResponse StatusOK (SnapshotBody snap), set_world w s).

Definition serveRebuild d q (name : string) s : response * server :=
  if negb (d_reset d) then (writeError StatusNotFound "Rebuilding is turned off for this dashboard.", s)
  else if negb (sameOrigin q) then (writeError StatusForbidden "Rebuilds can only be started from the dashboard page.", s)
  else if negb (bool_decide (name ∈ d_names d)) then (writeError StatusNotFound (name +:+ " is not shown on this dashboard."), s)
  else if match d_runners d !! name with Some r => negb (CanRebuild r) | None => false end
  then (writeError StatusConflict (name +:+ " has no Reset in its Definition, so it cannot be rebuilt."), s)
  else
    let '(res, w) := po_RequestRebuild (d_store d) name (se_world s) in
    let s := poke_hub (set_world w s) in
    match res with
    | Ok _ => (writeMessage StatusAccepted ("Rebuild of " +:+ name +:+ " requested. The runner holding segment 0 starts it between two batches."), s)
    | Fail e =>
      if errors_Is e ErrUnknownProjection
      then (writeError StatusConflict ("No runner has started " +:+ name +:+ " yet, so there is nothing to rebuild."), s)
      else (writeError StatusInternalServerError ("Requesting a rebuild of " +:+ name +:+ " failed: " +:+ dash_text e), s)
    end.

Definition servePause d (paused : bool) q (name : string) s : response * server :=
  let verb := if paused then "Pausing" else "Resuming" in
  if negb (d_pause d) then (writeError StatusNotFound "Pausing automations is turned off for this dashboard.", s)
  else if negb (sameOrigin q) then (writeError StatusForbidden "Automations can only be paused from the dashboard page.", s)
  else if negb (bool_decide (name ∈ d_automationNames d)) then (writeError StatusNotFound (name +:+ " is not shown on this dashboard."), s)
  else
    match d_automations d with
    | None => (mkResponse StatusInternalServerError NoBody, s)  (* the nil store's panic; see [New] *)
    | Some store =>
      match ao_SetPaused store name paused (se_world s) with
      | (Some e, w) => (writeError StatusInternalServerError (verb +:+ " " +:+ name +:+ " failed: " +:+ dash_text e), set_world w s)
      | (None, w) =>
        (writeMessage StatusOK (name +:+ (if paused then " paused. Every instance stops claiming at its next poll; items already running finish."
                                          else " resumed. Every instance claims work again at its next poll.")),
         poke_hub (set_world w s))
      end
    end.

(** The limit and the position a request asks for. *)
Definition parse_limit q : option Z :=
  let t := default "" (head (rq_Query q "limit")) in
  if bool_decide (t = "") then Some defaultEventPage
  else n ← Atoi t; if n <=? 0 then None else Some (Z.min n maxEventPage).
Definition parse_before q : option Z :=
  let t := default "" (head (rq_Query q "before")) in if bool_decide (t = "") then Some 0 else ParseUint t.

(** [None] when [fuel] does not suffice. *)
Definition serveEventList d q : option response :=
  match d_events d with
  | None => Some (writeError StatusNotFound "This dashboard shows no events; see dashboard.WithEvents.")
  | Some reader =>
    match parse_limit q with
    | None => Some (writeError StatusBadRequest "limit must be a positive number.")
    | Some limit =>
      match parse_before q with
      | None => Some (writeError StatusBadRequest "before must be a log position.")
      | Some before =>
        match readBackwards reg fuel reader before limit (mkReadOptions 0 (rq_Query q "type") (rq_Query q "stream")) with
        | None => None
        | Some (Fail e) => Some (writeError StatusInternalServerError ("Reading the log failed: " +:+ dash_text e))
        | Some (Ok page) => Some (mkResponse StatusOK (EventsBody page))
        end
      end
    end
  end.

(** The loop of [serveChain], and the iterator's error. *)
Fixpoint chain_loop (fuel : nat) (it : Iterator St Envelope) (events : list eventView) : option (list eventView * option error) :=
  match fuel with
  | O => None
  | S fuel =>
    match Next None it with
    | (false, _, it) => Some (events, Err it)
    | (true, _, it) =>
      match Value it with
      | None => None
      | Some env =>
        let events := events ++ [newEventView reg env] in
        if zlen events =? maxEventScan then Some (events, Err it) else chain_loop fuel it events
      end
    end
  end.

Definition serveChain d (id : string) : option response :=
  match d_chains d with
  | None => Some (writeError StatusNotFound "The event store cannot load correlation chains; it does not implement eventsourcing.CorrelationLoader.")
  | Some chains =>
    let failed e := writeError StatusInternalServerError ("Loading the chain failed: " +:+ dash_text e) in
    match cl_LoadCorrelation chains id with
    | Fail e => Some (if errors_Is e ErrEmptyCorrelationID then writeError StatusBadRequest "Give a correlation ID." else failed e)
    | Ok it =>
      match chain_loop fuel it [] with
      | None => None
      | Some (events, None) => Some (mkResponse StatusOK (ChainBody id events))
      | Some (_, Some e) => Some (failed e)
      end
    end
  end.

(** The redirect of a request without a path. *)
Fixpoint cut_query (s : list ascii) : list ascii * list ascii :=
  match s with
  | [] => ([], [])
  | "?"%char :: s => ([], s)
  | c :: s => let '(path, query) := cut_query s in (c :: path, query)
  end.

Definition redirect_target (uri : string) : string :=
  let '(path, query) := cut_query (list_ascii_of_string uri) in
  string_of_list_ascii (path ++ ["/"%char] ++ match query with [] => [] | _ => "?"%char :: query end).

(** The mux and its handlers; the stream of [/events] is the hub's. *)
Definition serve_route d q (rt : route) s : option (response * server) :=
  match rt with
  | Page => Some (mkResponse StatusOK StaticPage, s)
  | Events => Some (mkResponse StatusOK Stream, s)
  | Snapshot => Some (serveSnapshot d s)
  | Rebuild name => Some (serveRebuild d q name s)
  | Pause name paused => Some (servePause d paused q name s)
  | EventList => (λ r, (r, s)) <$> serveEventList d q
  | Chain id => (λ r, (r, s)) <$> serveChain d id
  end.

Definition ServeHTTP d q s : option (response * server) :=
  if negb (allowedHost d (rq_Host q))
  then Some (mkResponse StatusForbidden (Text ("dashboard: host " +:+ rq_Host q +:+ " is not allowed; see WithAllowedHosts")), s)
  else
    match rq_Path q with
    | None => Some (mkResponse StatusMovedPermanently (Location (redirect_target (rq_RequestURI q))), s)
    | Some segments =>
      match path_route segments with
      | None => Some (mkResponse StatusNotFound NoBody, s)
      | Some rt => if method_ok rt (rq_Method q) then serve_route d q rt s else Some (mkResponse StatusMethodNotAllowed NoBody, s)
      end
    end.
End handlers.
Arguments server : clear implicits.

(** ** A dashboard as [New] makes it *)
Section new.
Context {W R C : Type} `{N : NetText}.
Implicit Types d : Dashboard W R C.

(** What [New] promises of its options' result. *)
Record dashboard_wf d : Prop := {
  dw_names : NoDup (d_names d) ∧ "" ∉ d_names d;
  dw_automations : NoDup (d_automationNames d) ∧ "" ∉ d_automationNames d;
  dw_interval : 0 < d_interval d;
  dw_claimTTL : 0 < d_claimTTL d;
  dw_pause : d_automations d = None → d_pause d = false ∧ d_automationNames d = [];
}.

Lemma dedupe_spec names : NoDup (dedupe names) ∧ "" ∉ dedupe names ∧ ∀ n, n ≠ "" → n ∈ dedupe names ↔ n ∈ names.
Proof.
  unfold dedupe.
  assert (∀ out, NoDup out → "" ∉ out →
    let res := foldl (λ out n, if negb (bool_decide (n = "")) && negb (bool_decide (n ∈ out)) then out ++ [n] else out) out names in
    NoDup res ∧ "" ∉ res ∧ ∀ n, n ≠ "" → n ∈ res ↔ n ∈ out ∨ n ∈ names) as Hall.
  { induction names as [|x names IH]; intros out Hnd He; cbn; [set_solver|].
    destruct (bool_decide_reflect (x = "")) as [->|Hx]; cbn; [destruct (IH out) as (? & ? & ?); set_solver|].
    destruct (bool_decide_reflect (x ∈ out)) as [Hin|Hin]; cbn; [destruct (IH out) as (? & ? & ?); set_solver|].
    destruct (IH (out ++ [x])) as (? & ? & Hi); [|set_solver|].
    - apply NoDup_app. split_and!; [done|set_solver|apply NoDup_singleton].
    - split_and!; [done|done|]. intros n Hn. rewrite Hi by done. set_solver. }
  destruct (Hall [] (NoDup_nil_2) ltac:(apply not_elem_of_nil)) as (? & ? & Hi). split_and!; [done|done|].
  intros n Hn. rewrite Hi by done. set_solver.
Qed.

(** Whatever the options, the dashboard is well formed. *)
Lemma New_wf store (opts : list (Option_ (W := W) (R := R) (C := C))) : dashboard_wf (New store opts).1.
Proof.
  unfold New. set (d := foldl _ _ _). cbn.
  destruct (dedupe_spec (d_names d)) as (? & ? & _), (dedupe_spec (d_automationNames d)) as (? & ? & _).
  split; cbn; [done| | | |by destruct (d_automations d)].
  - destruct (d_automations d); [done|]. split; [constructor|apply not_elem_of_nil].
  - destruct (Z.leb_spec (d_interval d) 0); [done|lia].
  - destruct (Z.leb_spec (d_claimTTL d) 0); [done|lia].
Qed.
End new.

(** ** Who can change what *)
Section safety.
Context {W R C St : Type} `{GR : GlobalReader R, CL : CorrelationLoader C St, E : DashEnv W, N : NetText, J : JSON, U : UUIDString}.
Context (reg : Registry) (fuel : nat).
Implicit Types (d : Dashboard W R C) (q : request) (s : server W).

(** Loading from the stores does not change them. *)
Record reads_only d : Prop := {
  ro_statuses name w : (po_LoadStatuses (d_store d) name w).2 = w;
  ro_instances name w : (po_LoadInstances (d_store d) name w).2 = w;
  ro_automations store name w : d_automations d = Some store →
    (ao_Paused store name w).2 = w ∧ (ao_LoadStatuses store name w).2 = w ∧ (ao_LoadSegments store name w).2 = w;
}.

Lemma read_projections_world track d names rates w : reads_only d → (read_projections track d names rates w).2 = w.
Proof.
  intros [Hs Hi _]. revert rates. induction names as [|name names IH]; intros rates; [done|]. cbn. unfold read_projection.
  specialize (Hs name w). destruct (po_LoadStatuses _ _ _) as [sr w1]. cbn in Hs. subst w1.
  specialize (Hi name w). destruct (po_LoadInstances _ _ _) as [ir w1]. cbn in Hi. subst w1. cbn [fst snd].
  match goal with |- context [read_projections track d names ?rt w] => specialize (IH rt); destruct (read_projections track d names rt w) as [[vs r'] w'] end.
  done.
Qed.

Lemma readAutomations_world d pause store names w : reads_only d → d_automations d = Some store → (readAutomations pause store names w).2 = w.
Proof.
  intros [_ _ Ha] Hd. induction names as [|name names IH]; [done|]. cbn.
  destruct (Ha store name w Hd) as (Hp & Hs & Hg).
  destruct (ao_Paused store name w) as [pr w1]. cbn in Hp. subst w1.
  destruct (ao_LoadStatuses store name w) as [sr w1]. cbn in Hs. subst w1.
  destruct (ao_LoadSegments store name w) as [gr w1]. cbn in Hg. subst w1.
  destruct (readAutomations pause store names w). done.
Qed.

Lemma read_world track d rates w : reads_only d → (read track d rates w).2 = w.
Proof.
  intros Hr. unfold read. pose proof (read_projections_world track d (d_names d) rates w Hr) as Hp.
  destruct (read_projections track d (d_names d) rates w) as [[vs r'] w']. cbn in Hp. subst w'.
  destruct (d_automations d) as [store|] eqn:Hd; [|done].
  pose proof (readAutomations_world d (d_pause d) store (d_automationNames d) w Hr Hd) as Ha.
  by destruct (readAutomations _ _ _ _).
Qed.

(** How a request may change the stores. *)
Inductive may_change d q (w : W) : W → Prop :=
| change_rebuild name : rq_Path q ≫= path_route = Some (Rebuild name) → d_reset d = true → name ∈ d_names d →
    (∀ r, d_runners d !! name = Some r → CanRebuild r = true) → may_change d q w (po_RequestRebuild (d_store d) name w).2
| change_pause name paused store : rq_Path q ≫= path_route = Some (Pause name paused) → d_pause d = true → name ∈ d_automationNames d → d_automations d = Some store → may_change d q w (ao_SetPaused store name paused w).2.

Lemma serveRebuild_changes d q name s : rq_Path q ≫= path_route = Some (Rebuild name) →
  se_world (serveRebuild d q name s).2 ≠ se_world s → sameOrigin q = true ∧ may_change d q (se_world s) (se_world (serveRebuild d q name s).2).
Proof.
  intros Hpath. unfold serveRebuild. destruct (d_reset d) eqn:Hreset; [|done]. destruct (sameOrigin q) eqn:Ho; [|done].
  destruct (bool_decide_reflect (name ∈ d_names d)) as [Hin|]; [|done]. cbn [negb].
  destruct (match d_runners d !! name with Some r => negb (CanRebuild r) | None => false end) eqn:Hr; [done|].
  assert (may_change d q (se_world s) (po_RequestRebuild (d_store d) name (se_world s)).2) as Hm.
  { apply change_rebuild; [done..|]. intros r Hrr. rewrite Hrr in Hr. by apply negb_false_iff in Hr. }
  destruct (po_RequestRebuild (d_store d) name (se_world s)) as [[n|e] w]; [done|]. by destruct (errors_Is e ErrUnknownProjection).
Qed.

Lemma servePause_changes d q name paused s : rq_Path q ≫= path_route = Some (Pause name paused) →
  se_world (servePause d paused q name s).2 ≠ se_world s → sameOrigin q = true ∧ may_change d q (se_world s) (se_world (servePause d paused q name s).2).
Proof.
  intros Hpath. unfold servePause. destruct (d_pause d) eqn:Hpause; [|done]. destruct (sameOrigin q) eqn:Ho; [|done].
  destruct (bool_decide_reflect (name ∈ d_automationNames d)) as [Hin|]; [|done]. cbn [negb].
  destruct (d_automations d) as [store|] eqn:Hstore; [|done].
  pose proof (change_pause d q (se_world s) name paused store Hpath Hpause Hin Hstore) as Hm.
  by destruct (ao_SetPaused store name paused (se_world s)) as [[e|] w].
Qed.

(** C29: A request changes the stores only if its host is allowed, it is a POST
    from the dashboard's own page or from no browser, and it asks to rebuild a
    projection the dashboard shows, with rebuilds turned on and a Reset if it
    runs here, or to pause or resume an automation it shows, with pausing
    turned on; and then it does what that one call of the store does. *)
Theorem only_the_page_changes_the_stores d q s resp s' : reads_only d → ServeHTTP reg fuel d q s = Some (resp, s') →
  se_world s' ≠ se_world s →
  allowedHost d (rq_Host q) = true ∧ rq_Method q = "POST" ∧ sameOrigin q = true ∧ may_change d q (se_world s) (se_world s').
Proof.
  intros Hreads Hs Hne. unfold ServeHTTP in Hs. destruct (allowedHost d (rq_Host q)); [|by injection Hs as <- <-]. cbn [negb] in Hs.
  destruct (rq_Path q) as [segments|] eqn:Hpath; [|by injection Hs as <- <-].
  destruct (path_route segments) as [rt|] eqn:Hrt; [|by injection Hs as <- <-].
  destruct (method_ok rt (rq_Method q)) eqn:Hm; [|by injection Hs as <- <-].
  assert (rq_Path q ≫= path_route = Some rt) as Hroute by by rewrite Hpath.
  destruct rt as [| | |name|name paused| |id]; cbn in Hs, Hm.
  - by injection Hs as <- <-.
  - by injection Hs as <- <-.
  - injection Hs as Hs. unfold serveSnapshot in Hs. pose proof (read_world false d (se_rates s) (se_world s) Hreads) as Hw.
    destruct (read false d (se_rates s) (se_world s)) as [[snap rates] w]. cbn in Hw. subst w. by injection Hs as <- <-.
  - apply bool_decide_eq_true in Hm. injection Hs as Hs. pose proof (serveRebuild_changes d q name s Hroute) as Hc.
    rewrite Hs in Hc. by destruct (Hc Hne).
  - apply bool_decide_eq_true in Hm. injection Hs as Hs. pose proof (servePause_changes d q name paused s Hroute) as Hc.
    rewrite Hs in Hc. by destruct (Hc Hne).
  - destruct (serveEventList reg fuel d q); [|done]. by injection Hs as <- <-.
  - destruct (serveChain reg fuel d id); [|done]. by injection Hs as <- <-.
Qed.
End safety.

(** ** The event list *)
Lemma digits_nonneg s : ∀ n m, 0 ≤ n → digits s n = Some m → 0 ≤ m.
Proof.
  induction s as [|c s IH]; intros n m Hn; cbn; [by intros [= <-]|]. destruct (_ && _) eqn:Hd; [|done].
  apply IH. apply andb_true_iff in Hd as [Hd%Z.leb_le _]. lia.
Qed.

Lemma parse_before_nonneg q before : parse_before q = Some before → 0 ≤ before.
Proof.
  unfold parse_before. destruct (bool_decide _); [by intros [= <-]|]. unfold ParseUint. intros (n & Hn & Hb)%bind_Some.
  destruct (n <? two64); [|done]. injection Hb as <-. unfold digits1 in Hn. destruct (list_ascii_of_string _); [done|]. by eapply digits_nonneg in Hn.
Qed.

Lemma parse_limit_bounds q limit : parse_limit q = Some limit → 1 ≤ limit ≤ maxEventPage.
Proof.
  unfold parse_limit, defaultEventPage, maxEventPage. destruct (bool_decide _); [intros [= <-]; lia|]. intros (n & _ & Hl)%bind_Some.
  destruct (Z.leb_spec n 0); [done|]. injection Hl as <-. lia.
Qed.

(** A request for events is answered with the page it asks for, or with 400 when
    its limit or position is no number. *)
Theorem event_list_answers `{GR : GlobalReader R, E : DashEnv W, J : JSON, U : UUIDString} {C : Type} reg fuel (d : Dashboard W R C) q r l head :
  d_events d = Some r → reads_log (mkReadOptions 0 (rq_Query q "type") (rq_Query q "stream")) r l head → (length l < fuel)%nat →
  match parse_limit q, parse_before q with
  | Some limit, Some before => ∃ found older scanned,
      serveEventList reg fuel d q = Some (mkResponse StatusOK (EventsBody (mkEventsPage (view_of reg found) head older scanned))) ∧
      back_page l (mkReadOptions 0 (rq_Query q "type") (rq_Query q "stream")) (back_end head before) limit found older scanned
  | _, _ => ∃ msg, serveEventList reg fuel d q = Some (writeError StatusBadRequest msg)
  end.
Proof.
  intros Hd Hr Hf. unfold serveEventList. rewrite Hd.
  destruct (parse_limit q) as [limit|] eqn:Hl; [|by eexists]. destruct (parse_before q) as [before|] eqn:Hb; [|by eexists].
  destruct (readBackwards_spec _ r l head Hr fuel Hf reg before limit (parse_before_nonneg _ _ Hb) (parse_limit_bounds _ _ Hl))
    as (found & older & scanned & -> & Hp). by exists found, older, scanned.
Qed.
