(* ===== verification/DashWorld.v ===== *)
(** * The dashboard over the in-memory stores

    A request to rebuild or to pause is seen by the next snapshot; the events
    view reads the log of an in-memory event store. *)
From S2P Require Import Prelude Core Iter Registry Context Log MemStore AutoTypes AutoStore ProjStore MemProjStore Runner DashEvents DashView DashAuto DashHub Dashboard.

Record memory_world : Type := mkMemoryWorld {
  mw_projections : MemProjStore.ProjectionStore;
  mw_automations : AutoStore.AutomationStore;
  mw_now : time;
}.

Definition mem_projection_ops : ProjectionOps memory_world :=
  mkProjectionOps
    (λ name w, (Ok (MemProjStore.LoadStatuses (mw_now w) name (mw_projections w)), w))
    (λ name w, (Ok (MemProjStore.LoadInstances (mw_now w) name (mw_projections w)), w))
    (λ name w, let '(r, s) := MemProjStore.RequestRebuild name (mw_projections w) in (r, mkMemoryWorld s (mw_automations w) (mw_now w))).

Definition mem_automation_ops : AutomationOps memory_world :=
  mkAutomationOps
    (λ name w, (Ok (AutoStore.Paused_ name (mw_automations w)), w))
    (λ name w, (Ok (AutoStore.LoadStatuses (mw_now w) name (mw_automations w)), w))
    (λ name w, (Ok (AutoStore.LoadSegments (mw_now w) name (mw_automations w)), w))
    (λ name paused w, (None, mkMemoryWorld (mw_projections w) (AutoStore.SetPaused name paused (mw_automations w)) (mw_now w))).

(** ** A snapshot, projection by projection *)
Section views.
Context {R C : Type} `{E : DashEnv memory_world}.
Implicit Types (d : Dashboard memory_world R C) (w : memory_world).

(** A projection's entry is the view of its statuses, completed. *)
Definition entry_of d w (name : string) (v : projectionView) : Prop :=
  ∃ instances local canReset perSecond,
    v = complete_view (view name (MemProjStore.LoadStatuses (mw_now w) name (mw_projections w)) (d_claimTTL d)) instances local canReset None perSecond.

Lemma read_projections_entries track d names rates w : d_store d = mem_projection_ops →
  Forall2 (entry_of d w) names (read_projections track d names rates w).1.1 ∧ (read_projections track d names rates w).2 = w.
Proof.
  intros Hd. revert rates. induction names as [|name names IH]; intros rates; [by split; [constructor|]|].
  cbn [read_projections]. destruct (read_projection track d name rates w) as [[v rates'] w'] eqn:Hv.
  unfold read_projection in Hv. rewrite Hd in Hv. cbn in Hv. injection Hv as <- <- <-.
  match goal with |- context [read_projections track d names ?rt w] => specialize (IH rt); destruct (read_projections track d names rt w) as [[vs r'] w'] end.
  cbn in IH |- *. destruct IH as [IH ->]. split; [|done]. constructor; [|done]. by eexists _, _, _, _.
Qed.

Definition automation_entry_of d w (name : string) (v : automationView) : Prop :=
  v = complete_automation (automationViewOf name (AutoStore.Paused_ name (mw_automations w))
        (AutoStore.LoadStatuses (mw_now w) name (mw_automations w)) (AutoStore.LoadSegments (mw_now w) name (mw_automations w))) (d_pause d) None.

Lemma readAutomations_entries d names w : Forall2 (automation_entry_of d w) names (readAutomations (d_pause d) mem_automation_ops names w).1.
Proof.
  induction names as [|name names IH]; [constructor|]. cbn. destruct (readAutomations (d_pause d) mem_automation_ops names w) as [vs w'].
  by constructor.
Qed.

(** What the snapshot shows of a name. *)
Lemma snapshot_entries d rates w : d_store d = mem_projection_ops →
  Forall2 (entry_of d w) (d_names d) (sn_Projections (read false d rates w).1.1) ∧
  (d_automations d = Some mem_automation_ops →
   Forall2 (automation_entry_of d w) (d_automationNames d) (sn_Automations (read false d rates w).1.1)).
Proof.
  intros Hd. unfold read. destruct (read_projections_entries false d (d_names d) rates w Hd) as [Hp Hw].
  destruct (read_projections false d (d_names d) rates w) as [[vs r'] w']. cbn in Hp, Hw. subst w'.
  destruct (d_automations d) as [store|]; [|done].
  destruct (readAutomations (d_pause d) store (d_automationNames d) w) as [avs w'] eqn:Ha. cbn. split; [done|].
  intros [= ->]. pose proof (readAutomations_entries d (d_automationNames d) w) as He. by rewrite Ha in He.
Qed.
End views.

(** ** A requested rebuild *)

(** A declared projection, whose numbers of rebuilds have room. *)
Record declared (name : string) (w : memory_world) (p : memoryProjection) : Prop := {
  de_projection : MemProjStore.projections (mw_projections w) !! name = Some p;
  de_segment : ∃ i r, 0 ≤ i < p_segments p ∧ p_rows p !! i = Some r;
  de_rebuilds : 0 ≤ p_rebuildsDone p ≤ p_rebuildsRequested p ∧ p_rebuildsRequested p + 1 < two64;
}.

Lemma requested_statuses now name s p : MemProjStore.projections s !! name = Some p → (∃ i r, 0 ≤ i < p_segments p ∧ p_rows p !! i = Some r) →
  0 ≤ p_rebuildsDone p ≤ p_rebuildsRequested p ∧ p_rebuildsRequested p + 1 < two64 →
  let statuses := MemProjStore.LoadStatuses now name (MemProjStore.RequestRebuild name s).2 in
  statuses ≠ [] ∧ Forall (λ st, st_RebuildRequested st = true) statuses.
Proof.
  intros Hp (i & r & Hi & Hr) Hn. unfold MemProjStore.RequestRebuild, MemProjStore.LoadStatuses. rewrite Hp. cbn. rewrite lookup_insert_eq. cbn. split.
  - intros Hnil. assert (i ∈ seqZ 0 (p_segments p)) as Hin by (apply elem_of_seqZ; lia).
    apply (elem_of_nil (A := Status) (loaded_status now (set_rebuilds (u64 (p_rebuildsRequested p + 1)) (p_rebuildsDone p) (p_rebuildFailed p) (p_rebuildErr p) p) i r)).
    rewrite <- Hnil. apply list_elem_of_omap. exists i. split; [done|]. by rewrite Hr.
  - apply Forall_forall. intros st (j & _ & Hj)%list_elem_of_omap. apply fmap_Some in Hj as (r' & _ & ->). cbn.
    rewrite u64_small by (unfold is_u64; lia). apply Z.ltb_lt. lia.
Qed.

Section properties.
Context {R C St : Type} `{GR : GlobalReader R, CL : CorrelationLoader C St, E : DashEnv memory_world, N : NetText, J : JSON, U : UUIDString}.
Context (reg : Registry) (fuel : nat).
Implicit Types (d : Dashboard memory_world R C) (q : request) (s : server memory_world).

Lemma ServeHTTP_route d q s rt : allowedHost d (rq_Host q) = true → rq_Path q ≫= path_route = Some rt → method_ok rt (rq_Method q) = true →
  ServeHTTP reg fuel d q s = serve_route reg fuel d q rt s.
Proof.
  intros Hh Hp Hm. unfold ServeHTTP. rewrite Hh. destruct (rq_Path q) as [segments|]; [|done]. cbn in Hp |- *. by rewrite Hp, Hm.
Qed.

Lemma serveRebuild_accepted d q name p s : d_store d = mem_projection_ops → MemProjStore.projections (mw_projections (se_world s)) !! name = Some p →
  d_reset d = true → name ∈ d_names d → (∀ r, d_runners d !! name = Some r → CanRebuild r = true) → sameOrigin q = true →
  ∃ msg, serveRebuild d q name s = (mkResponse StatusAccepted (MessageBody msg),
    mkServer (mkMemoryWorld (MemProjStore.RequestRebuild name (mw_projections (se_world s))).2 (mw_automations (se_world s)) (mw_now (se_world s)))
      (poke (se_hub s)) (se_rates s)).
Proof.
  intros Hd Hp Hreset Hin Hrun Ho. unfold serveRebuild. rewrite Hreset, Ho, bool_decide_true by done. cbn [negb].
  assert (match d_runners d !! name with Some r => negb (CanRebuild r) | None => false end = false) as ->
    by (destruct (d_runners d !! name); [by rewrite Hrun|done]).
  rewrite Hd. cbn. unfold MemProjStore.RequestRebuild. rewrite Hp. by eexists.
Qed.

(** C31: Over the in-memory store, a request to rebuild a declared projection that
    the dashboard shows is accepted and pokes the hub, and the next snapshot
    shows the rebuild as pending, with a word for the projection that is no
    better than that. *)
Theorem requested_rebuild_is_shown d q q' name p s : d_store d = mem_projection_ops → declared name (se_world s) p →
  d_reset d = true → name ∈ d_names d → (∀ r, d_runners d !! name = Some r → CanRebuild r = true) →
  allowedHost d (rq_Host q) = true → sameOrigin q = true → rq_Method q = "POST" → rq_Path q ≫= path_route = Some (Rebuild name) →
  allowedHost d (rq_Host q') = true → rq_Method q' = "GET" → rq_Path q' ≫= path_route = Some Dashboard.Snapshot →
  ∃ msg s' snap s'', ServeHTTP reg fuel d q s = Some (mkResponse StatusAccepted (MessageBody msg), s') ∧ hb_nudge (se_hub s') = true ∧
    ServeHTTP reg fuel d q' s' = Some (mkResponse StatusOK (SnapshotBody snap), s'') ∧
    ∃ v, v ∈ sn_Projections snap ∧ pv_Name v = name ∧ pv_RebuildRequested v = true ∧ stateRank (pv_State v) ≤ stateRank stateRebuildRequested.
Proof.
  intros Hd [Hp Hseg Hn] Hreset Hin Hrun Hh Ho Hm Hpath Hh' Hm' Hpath'.
  rewrite (ServeHTTP_route d q s _ Hh Hpath) by by rewrite Hm. cbn [serve_route].
  destruct (serveRebuild_accepted d q name p s Hd Hp Hreset Hin Hrun Ho) as [msg ->]. eexists msg, _.
  set (s' := mkServer _ _ _). rewrite (ServeHTTP_route d q' s' _ Hh' Hpath') by by rewrite Hm'. cbn [serve_route]. unfold serveSnapshot.
  destruct (snapshot_entries d (se_rates s') (se_world s') Hd) as [He _].
  destruct (read false d (se_rates s') (se_world s')) as [[snap rates] w']. cbn in He. eexists _, _. split_and!; [done|done|done|].
  apply list_elem_of_lookup in Hin as [i Hi]. destruct (Forall2_lookup_l _ _ _ _ _ He Hi) as (v & Hv & insts & local & can & speed & ->).
  eexists. split; [by eapply list_elem_of_lookup_2|].
  destruct (requested_statuses (mw_now (se_world s)) name _ p Hp Hseg Hn) as [Hne Hall].
  set (statuses := MemProjStore.LoadStatuses _ _ _) in *.
  change (MemProjStore.LoadStatuses (mw_now (se_world s')) name (mw_projections (se_world s'))) with statuses.
  pose proof (view_spec name statuses (d_claimTTL d)) as Hview. split_and!; [apply Hview| |].
  - cbn. rewrite (vs_rebuild _ _ _ _ Hview). destruct statuses as [|st l]; [done|]. cbn. by rewrite (Forall_inv Hall).
  - destruct (vs_state _ _ _ _ Hview Hne) as [_ Hmin]. cbn. apply Hmin. apply list_elem_of_bind.
    destruct statuses as [|st l]; [done|]. exists st. split; [|left]. unfold words. rewrite (Forall_inv Hall). right. left.
Qed.

(** A request to pause or resume an automation that the dashboard shows is
    recorded in the store, pokes the hub, and shows in the next snapshot. *)
Theorem paused_automation_is_shown d q q' name paused s : d_store d = mem_projection_ops → d_automations d = Some mem_automation_ops →
  d_pause d = true → name ∈ d_automationNames d →
  allowedHost d (rq_Host q) = true → sameOrigin q = true → rq_Method q = "POST" → rq_Path q ≫= path_route = Some (Dashboard.Pause name paused) →
  allowedHost d (rq_Host q') = true → rq_Method q' = "GET" → rq_Path q' ≫= path_route = Some Dashboard.Snapshot →
  ∃ msg s' snap s'', ServeHTTP reg fuel d q s = Some (mkResponse StatusOK (MessageBody msg), s') ∧ hb_nudge (se_hub s') = true ∧
    ServeHTTP reg fuel d q' s' = Some (mkResponse StatusOK (SnapshotBody snap), s'') ∧
    ∃ v, v ∈ sn_Automations snap ∧ av_Name v = name ∧ av_Paused v = paused ∧ (paused = true → av_State v = statePaused).
Proof.
  intros Hd Ha Hpause Hin Hh Ho Hm Hpath Hh' Hm' Hpath'.
  rewrite (ServeHTTP_route d q s _ Hh Hpath) by by rewrite Hm. cbn [serve_route]. unfold servePause.
  rewrite Hpause, Ho, bool_decide_true, Ha by done. cbn [negb]. cbn [ao_SetPaused mem_automation_ops].
  eexists _, _. set (s' := poke_hub _). rewrite (ServeHTTP_route d q' s' _ Hh' Hpath') by by rewrite Hm'. cbn [serve_route]. unfold serveSnapshot.
  destruct (snapshot_entries d (se_rates s') (se_world s') Hd) as [_ He]. specialize (He Ha).
  destruct (read false d (se_rates s') (se_world s')) as [[snap rates] w']. cbn in He. eexists _, _. split_and!; [done|done|done|].
  apply list_elem_of_lookup in Hin as [i Hi]. destruct (Forall2_lookup_l _ _ _ _ _ He Hi) as (v & Hv & ->).
  eexists. split; [by eapply list_elem_of_lookup_2|].
  assert (AutoStore.Paused_ name (AutoStore.SetPaused name paused (mw_automations (se_world s))) = paused) as Hset
    by (unfold AutoStore.Paused_; cbn; by rewrite lookup_insert_eq).
  cbn [mw_automations mw_now]. rewrite Hset.
  set (statuses := AutoStore.LoadStatuses _ _ _). set (segments := AutoStore.LoadSegments _ _ _).
  destruct (automationViewOf_spec name paused statuses segments) as (v0 & Hv0 & ->). destruct Hv0. by destruct paused.
Qed.
End properties.

(** *** Correlation chains *)
#[export] Instance mem_correlations `{J : JSON} (reg : Registry) : CorrelationLoader MemStore.EventStore Z :=
  λ s id, MemStore.LoadCorrelation reg id s.
