(* ===== verification/CommandExamples.v ===== *)
(** * The command side at concrete inputs

    One run for every theorem about the event store, the command handler, the
    command bus, the iterators and the event registry that has hypotheses: the
    hypotheses hold there, by evaluation. *)
From S2P Require Import Prelude Core Iter Registry Samples Context Log MemStore Backoff CommandHandler MemWorld CommandBus EventHandlers QueryBus.
#[local] Open Scope Z_scope.

(** ** Histories of saves *)

(** Two batches, a save that expects a wrong revision, and a batch of another
    stream. *)
Definition placed (n : uuid) (id : string) : Envelope := sample_envelope n id (order_placed id "").
Definition chained (n : uuid) (id correlation : string) : Envelope :=
  mkEnvelope n id None correlation "" (Some (order_shipped id "")) 0 0 1.

Definition tagged (n : uuid) (id : string) : Envelope :=
  mkEnvelope n id (Some {["tenant" := AnyString "t1"; "n" := AnyOther "int" "2"]}) "" "" (Some (order_placed id "")) 0 0 1.

Definition sample_ops : list save_op := [
  mkSaveOp 10 sample_registry [placed 1 "o-1"; chained 2 "o-1" "flow"] NoStream;
  mkSaveOp 11 sample_registry [placed 3 "o-1"] (Revision 7);
  mkSaveOp 12 sample_registry [chained 4 "o-2" "flow"] Any;
  mkSaveOp 13 sample_registry [tagged 5 "o-1"] (Revision 2)].

Lemma sample_ops_ok : ops_ok sample_registry sample_ops ∧ total_events sample_ops < two64.
Proof.
  split; [|vm_compute; done].
  unfold ops_ok, sample_ops.
  repeat (apply Forall_cons_2; [split; [apply sample_registry_wf|unfold extends; done]|]). apply Forall_nil_2.
Qed.

Lemma Save_refines_log_witness :
  (run_saves sample_ops NewEventStore).1 ≠ [] ∧
  Forall2 reports (run_saves sample_ops NewEventStore).1 (log_saves sample_ops []).1.
Proof.
  split; [vm_compute; discriminate|].
  exact (proj1 (Save_refines_log sample_registry sample_ops (proj1 sample_ops_ok) (proj2 sample_ops_ok))).
Defined.

Lemma refused_Save_changes_nothing_witness :
  let s := (run_saves sample_ops NewEventStore).2 in
  let r := MemStore.Save 14 sample_registry [placed 6 "o-1"] NoStream s in
  r.2 = s ∧ Successful r.1.1 = false.
Proof.
  cbv zeta. set (s := (run_saves sample_ops NewEventStore).2).
  destruct (MemStore.Save 14 sample_registry [placed 6 "o-1"] NoStream s) as [[res [e|]] s'] eqn:H.
  - exact (refused_Save_changes_nothing _ _ _ _ _ _ _ _ H).
  - exfalso. vm_compute in H. discriminate H.
Defined.

Lemma paging_reads_the_whole_log_witness :
  let opts := mkReadOptions 1 ["OrderShipped"] [] in
  read_pages (GR := mem_reader sample_registry) 5 (run_saves sample_ops NewEventStore).2 1 opts
  = Some (Ok (bfilter (env_matches opts) (drop 1 (log_saves sample_ops []).2))) ∧
  (EventID <$> bfilter (env_matches opts) (drop 1 (log_saves sample_ops []).2)) = [2; 4].
Proof.
  split; [|vm_compute; reflexivity].
  exact (paging_reads_the_whole_log sample_registry sample_ops 1 (mkReadOptions 1 ["OrderShipped"] [])
    (proj1 sample_ops_ok) (proj2 sample_ops_ok) (ltac:(lia))).
Defined.

Lemma load_returns_what_was_saved_witness :
  let hist := stream_of "o-1" (log_saves sample_ops []).2 in
  EventID <$> hist = [1; 2; 5] ∧
  ∃ it it', MemStore.LoadStreamFrom sample_registry "o-1" (Revision 1) (run_saves sample_ops NewEventStore).2 = Ok it ∧
    All 4 None it = Some (drop 1 hist, None, it') ∧
    (Metadata <$> last hist) = Some (Some {["tenant" := AnyString "t1"; "n" := AnyOther "float64" "2"]}).
Proof.
  cbv zeta. split; [vm_compute; reflexivity|].
  destruct (load_returns_what_was_saved sample_registry sample_ops "o-1" (Revision 1)
    (proj1 sample_ops_ok) (proj2 sample_ops_ok) (ltac:(cbn; unfold is_u64, two64; lia))) as [(it & it' & H1 & H2) _].
  exists it, it'. split; [exact H1|]. split; [exact H2|vm_compute; reflexivity].
Defined.

Lemma correlation_chain_in_commit_order_witness :
  let chain := bfilter (λ env, bool_decide (CorrelationID env = "flow")) (log_saves sample_ops []).2 in
  EventID <$> chain = [2; 4] ∧
  ∃ it it', LoadCorrelation sample_registry "flow" (run_saves sample_ops NewEventStore).2 = Ok it ∧
    All 5 None it = Some (chain, None, it').
Proof.
  split; [vm_compute; reflexivity|].
  exact (correlation_chain_in_commit_order sample_registry sample_ops "flow"
    (proj1 sample_ops_ok) (proj2 sample_ops_ok) (ltac:(discriminate))).
Defined.

(** ** Runs of the command handler *)

(** Place an order while another writer ships it between the load and the
    save: the first attempt conflicts, the second decides on both. *)
Definition handler_run (opts : list CommandHandlerOption) (script : list (list Envelope * StreamState)) :
    AppendResult * option error * MemWorld :=
  NewCommandHandler 0%nat count_evolve count_decide opts ∅ place_order (sample_world script).

Definition retried : list CommandHandlerOption := [WithRetryStrategy (Some (Some 3%nat))].

Lemma no_lost_update_witness :
  let '(res, err, w') := handler_run retried [([], Any); other_save] in
  err = None ∧ NextExpectedVersion res = 2 ∧
  ∃ before events envs now after,
    mem_views w' (before ++ stamp now (zlen (stream_of "o-1" before)) (zlen before) envs ++ after) ∧
    count_decide (foldl count_evolve 0%nat (stream_of "o-1" before)) place_order = Ok events ∧
    env_Event <$> envs = events ∧
    Successful res = true ∧ NextExpectedVersion res = zlen (stream_of "o-1" before) + zlen envs.
Proof.
  destruct (handler_run retried [([], Any); other_save]) as [[res err] w'] eqn:H.
  assert (err = None ∧ NextExpectedVersion res = 2) as [-> Hn].
  { apply (f_equal fst) in H. vm_compute in H. injection H as <- <-. done. }
  split_and!; [done..|].
  exact (no_lost_update 0%nat count_evolve count_decide retried ∅ place_order _ [] res w'
    (or_introl eq_refl) (sample_world_views _) H).
Defined.

Lemma rejected_command_saves_nothing_witness :
  let w := (handler_run [] []).2 in
  let run := NewCommandHandler 0%nat count_evolve reject_second [] ∅ place_order w in
  ∃ w2, run.2 = w2 ∧ Successful run.1.1 = false ∧
    ∃ e', run.1.2 = Some e' ∧ errors_As is_BusinessRule e' = Some (New "already placed").
Proof.
  cbv zeta. set (w := (handler_run [] []).2).
  destruct (NewCommandHandler 0%nat count_evolve reject_second [] ∅ place_order w) as [[res err] w'] eqn:H.
  destruct (uuid_New w) as [u w1] eqn:Hu.
  destruct (LoadStreamFrom "o-1" Any w1) as [r w2] eqn:Hl.
  assert (∃ evs, r = Ok (evs, None) ∧ reject_second (foldl count_evolve 0%nat evs) place_order = Fail (New "already placed"))
    as (evs & -> & Hd).
  { injection Hu as _ <-. apply (f_equal fst) in Hl. vm_compute in Hl. subst r. by eexists. }
  exists w2. exact (rejected_command_saves_nothing 0%nat count_evolve reject_second [] ∅ place_order w u w1 evs w2
    (New "already placed") res err w' Hu Hl Hd H).
Defined.

Lemma events_join_one_chain_witness :
  let ctx := withEnvelope ∅ (mkEnvelope 9 "src" None "flow" "" (Some (order_placed "src" "")) 1 1 1) 0 in
  let '(res, err, w') := NewCommandHandler 0%nat count_evolve count_decide [] ctx place_order (sample_world []) in
  err = None ∧
  ∃ (commandID : string) (seen l' : log) (events : list (option Event)),
    mem_views w' l' ∧ events ≠ [] ∧
    ∃ (before : log) (envs : log),
      wrapped "o-1" (CausationIDFromContext ctx) (CorrelationIDFromContext ctx)
        (base_metadata (apply_options []) ctx place_order commandID) events envs.
Proof.
  cbv zeta. set (ctx := withEnvelope _ _ _).
  destruct (NewCommandHandler 0%nat count_evolve count_decide [] ctx place_order (sample_world [])) as [[res err] w'] eqn:H.
  assert (err = None) as ->.
  { apply (f_equal (snd ∘ fst)) in H. vm_compute in H. done. }
  split; [done|].
  destruct (events_join_one_chain 0%nat count_evolve count_decide [] ctx place_order _ [] res w' I
    (sample_world_views _) H) as (commandID & seen & l' & events & Hv & _ & Hd & Hall).
  assert (events ≠ []) as Hne by (intros ->; discriminate Hd).
  destruct (Hall Hne) as (before & now & envs & _ & _ & _ & Hw & _). by eauto 10.
Defined.

(** ** Runs of the bus *)
Section script.
Context {W : Type}.

Definition perform (a : internal + @external W) (b : CommandBus W) : option (CommandBus W) :=
  match a with inl a => exec_internal a b | inr a => exec_external a b end.

Definition script (acts : list (internal + @external W)) (b : CommandBus W) : option (CommandBus W) :=
  foldl (λ b a, b ≫= perform a) (Some b) acts.

Lemma script_reachable buf n (w : W) acts b :
  script acts (NewCommandBus buf n w) = Some b → reachable buf n w b.
Proof.
  unfold script, reachable. revert b. induction acts as [|a acts IH] using rev_ind; intros b.
  - intros [= <-]. constructor.
  - rewrite foldl_app. cbn [foldl]. destruct (foldl _ _ acts) as [b0|] eqn:H; [|done].
    cbn [mbind option_bind]. intros Hb. eapply rtc_r; [by apply IH|].
    destruct a as [a|a]; [by eapply step_internal|by eapply step_external].
Qed.
End script.

(** The handler counts the commands it handled. *)
Definition count_handler : CommandHandler nat := λ _ cmd n,
  (HReturns (mkAppendResult true (cmd_AggregateID cmd) (Z.of_nat (S n)) (Z.of_nat (S n))) None, S n).

(** Two commands for one aggregate: the first is running, the second waits. *)
Definition two_dispatches : list (internal + @external nat) := [
  inr (ERegister place_order count_handler);
  inr (EDispatch 0 ∅ place_order); inr (EDispatch 1 ∅ place_order);
  inl (ISend 0); inl (ITake 0); inl (ISend 1); inl (IStart 0)].

(** Then Stop is called, and everything it waits for happens. *)
Definition stopping : list (internal + @external nat) :=
  two_dispatches ++ [inr (EStop 0); inl (IFinish 0); inl (IReceive 0); inl (IDrain 0)].
Definition stopped : list (internal + @external nat) :=
  stopping ++ [inl (ITake 0); inl (IStart 0); inl (IFinish 0); inl (IReceive 1); inl (IReturn 0)].

Definition bus_after (acts : list (internal + @external nat)) : CommandBus nat :=
  default (NewCommandBus 1 1 0%nat) (script acts (NewCommandBus 1 1 0%nat)).

Lemma bus_after_reachable acts :
  is_Some (script acts (NewCommandBus 1 1 0%nat)) → reachable 1 1 0%nat (bus_after acts).
Proof. intros [b Hb]. unfold bus_after. rewrite Hb. by eapply script_reachable. Qed.

Lemma shard_is_a_serial_queue_witness :
  ∃ sh, shards (bus_after two_dispatches) !! 0%nat = Some sh ∧
    sh_sent sh = [0; 1]%nat ∧ sh_finished sh = [] ∧
    sh_sent sh = sh_finished sh ++ (q_id <$> CommandBus.current (sh_worker sh)) ++ (q_id <$> sh_queue sh).
Proof.
  destruct (shards (bus_after two_dispatches) !! 0%nat) as [sh|] eqn:H; [|exfalso; vm_compute in H; discriminate H].
  assert (sh_sent sh = [0; 1]%nat ∧ sh_finished sh = []) as [H1 H2].
  { apply (f_equal (fmap (λ s, (sh_sent s, sh_finished s)))) in H. vm_compute in H. injection H as H1 H2. exact (conj (eq_sym H1) (eq_sym H2)). }
  exists sh. split_and!; [done..|].
  refine (proj1 (shard_is_a_serial_queue 1 1 0%nat _ 0 sh (bus_after_reachable two_dispatches _) H)).
  vm_compute. by eexists.
Defined.

Lemma accepted_command_is_served_witness :
  responses (bus_after two_dispatches) !! 1%nat = None ∧
  (is_Some (responses (bus_after two_dispatches) !! 1%nat) ∨
   ∃ sh, shards (bus_after two_dispatches) !! shard_of (bus_after two_dispatches) place_order = Some sh ∧
     1%nat ∈ q_id <$> CommandBus.current (sh_worker sh) ++ sh_queue sh ∧ sh_worker sh ≠ WExited).
Proof.
  split; [vm_compute; reflexivity|].
  refine (accepted_command_is_served 1 1 0%nat _ 1 (mkDispatch ∅ place_order Waiting) (bus_after_reachable two_dispatches _)
    _ eq_refl); vm_compute; [by eexists|reflexivity].
Defined.

Lemma Stop_waits_for_every_dispatch_witness :
  ∃ r err, d_pc <$> dispatches (bus_after stopped) !! 1%nat = Some (Returned r err).
Proof.
  destruct (dispatches (bus_after stopped) !! 1%nat) as [d|] eqn:H; [|exfalso; vm_compute in H; discriminate H].
  destruct (Stop_waits_for_every_dispatch 1 1 0%nat (bus_after stopped) 0 1 d) as (r & err & Hr).
  - apply bus_after_reachable. vm_compute. by eexists.
  - vm_compute. reflexivity.
  - exact H.
  - exists r, err. cbn. by rewrite Hr.
Defined.

Lemma Stop_returns_witness :
  let b := bus_after stopping in
  ∃ b', run_internal [ITake 0] b = Some b' ∧
    (1 ≤ bus_measure b ∧ (stops b' !! 0%nat = Some StopReturned ∨ ∃ a, is_Some (exec_internal a b'))).
Proof.
  cbv zeta. destruct (run_internal [ITake 0] (bus_after stopping)) as [b'|] eqn:H; [|exfalso; vm_compute in H; discriminate H].
  exists b'. split; [done|].
  refine (Stop_returns 1 1 0%nat (bus_after stopping) 0 StopDispatches [ITake 0] b' (bus_after_reachable _ _) _ H);
    vm_compute; [by eexists|reflexivity].
Defined.

(** ** Iterators *)

(** A caller that takes two of three values, drains the rest and closes
    twice. *)
Lemma close_runs_exactly_once_witness :
  ∃ c' it, run_calls [CallNext; CallNext; CallAll 4; CallClose; CallClose]
             (None, Iter.counted (slice_next [7; 8; 9]) (λ st, (None, st)) 0%nat) = Some (c', it) ∧
    (it_state it).2 = 1%nat.
Proof.
  destruct (run_calls [CallNext; CallNext; CallAll 4; CallClose; CallClose]
    (None, Iter.counted (slice_next [7; 8; 9]) (λ st, (None, st)) 0%nat)) as [[c' it]|] eqn:H; [|discriminate H].
  exists c', it. split; [done|].
  refine (proj2 (close_runs_exactly_once _ _ _ _ _ _ _ H) _). exists CallClose. split; [|done].
  vm_compute. by repeat constructor.
Defined.

Lemma Wrap_All_witness :
  ∃ it, All 4 None (Wrap (NewSliceIterator [1; 2; 3]) (wrap_map (λ z, z * 10)) (Some (λ _ n, S n)) 0%nat)
        = Some ([10; 20; 30], None, it) ∧
    (it_state it).2 = 1%nat ∧ it_done it = true.
Proof.
  destruct (All 4 None (NewSliceIterator [1; 2; 3])) as [[[vs e] src']|] eqn:H; [|discriminate H].
  assert (vs = [1; 2; 3] ∧ e = None) as [-> ->] by (vm_compute in H; by injection H).
  destruct (Wrap_All (λ z, z * 10) (Some (λ _ n, S n)) (NewSliceIterator [1; 2; 3]) 0%nat 4 _ _ src'
    (λ st, ltac:(cbn; unfold slice_next; by destruct (_ !! _))) H) as (it & Hit & Hst & _ & Hdone).
  exists it. split; [exact Hit|]. by rewrite Hst.
Defined.

(** ** The event registry *)
Definition placed_zero : registration := ByZero (order_placed "" "").
Definition shipped_zero : registration := ByZero (order_shipped "" "").

Lemma saved_event_decodes_witness :
  match register_all [placed_zero] emptyRegistry with
  | Returns r =>
    match register_all [shipped_zero] r, EncodeEvent (Some (order_placed "o-1" "two")) r with
    | Returns r', Ok data => DecodeEvent "OrderPlaced" data r' = Ok (order_placed "o-1" "two")
    | _, _ => False
    end
  | Panics _ => False
  end.
Proof.
  destruct (register_all [placed_zero] emptyRegistry) as [r|] eqn:Hr; [|vm_compute in Hr; discriminate Hr].
  destruct (register_all [shipped_zero] r) as [r'|] eqn:Hr';
    [|vm_compute in Hr; injection Hr as <-; vm_compute in Hr'; discriminate Hr'].
  destruct (EncodeEvent (Some (order_placed "o-1" "two")) r) as [data|] eqn:Hd;
    [|vm_compute in Hr; injection Hr as <-; vm_compute in Hd; discriminate Hd].
  exact (saved_event_decodes [placed_zero] [shipped_zero] r r' (order_placed "o-1" "two") data Hr Hr' Hd).
Defined.

(** ** An event group *)
Definition count_events : values → Event → nat → option error * nat := λ _ _ n, (None, S n).
Definition sample_group : list (EventHandlers.EventHandler nat) := [OnEvent (order_placed "" "") count_events].

Lemma group_and_its_filter_agree_witness :
  match NewEventGroupProcessor sample_group, register_all [placed_zero; shipped_zero] emptyRegistry with
  | Returns p, Returns r =>
    let run := group_Handle p ∅ (Some (order_shipped "o-1" "")) 5%nat in
    (run.1 = None ↔ "OrderShipped" ∈ StreamFilter p r) ∧ run.1 ≠ None ∧ run.2 = 5%nat
  | _, _ => False
  end.
Proof.
  destruct (NewEventGroupProcessor sample_group) as [p|] eqn:Hp; [|vm_compute in Hp; discriminate Hp].
  destruct (register_all [placed_zero; shipped_zero] emptyRegistry) as [r|] eqn:Hr; [|vm_compute in Hr; discriminate Hr].
  cbv zeta. destruct (group_Handle p ∅ (Some (order_shipped "o-1" "")) 5%nat) as [err w'] eqn:H.
  assert (err ≠ None) as Hne.
  { assert (match NewEventGroupProcessor sample_group with
            | Returns p => (group_Handle p ∅ (Some (order_shipped "o-1" "")) 5%nat).1 | Panics _ => None end ≠ None)
      as Hne by (vm_compute; discriminate). by rewrite Hp, H in Hne. }
  destruct (group_and_its_filter_agree sample_group p [placed_zero; shipped_zero] r ∅ (order_shipped "o-1" "") 5%nat
    err w') as [Hiff Hun]; try done.
  - constructor; [by exists (order_placed "" ""), count_events|constructor].
  - vm_compute in Hr. injection Hr as <-. vm_compute. by constructor.
  - intros h c e w0 Hin Heq Hptr. apply list_elem_of_singleton in Hin as ->. cbn in Heq |- *. injection Heq as Heq.
    unfold typed_Handle. by rewrite bool_decide_true, Hptr by done.
  - by destruct (Hun Hne) as [-> _].
Defined.

(** ** Queries *)
Definition GetTask : GoType := Concrete "tasks.GetTask" "tasks.GetTask" "".
Definition Task : GoType := Concrete "tasks.Task" "tasks.Task" "none".

Definition get_task : QueryHandler nat := mkQueryHandler GetTask Task (λ _ qry n,
  (Returns (Some ("tasks.Task", "buy milk"), None), S n)).

(** Passes the call along, and one that answers itself, with a value of
    another type. *)
Definition pass_along : QueryHandlerMiddleware nat := λ next ctx qry w, next ctx qry w.
Definition fails_with_text : QueryHandlerMiddleware nat := λ next ctx qry w,
  (Returns (Some ("string", "oops"), Some (New "denied")), w).

Definition query_ops : list (query_op nat) :=
  [QGateway GetTask Task; QUse [pass_along]; QRegister get_task; QUse [fails_with_text]].
Definition guarded_ops : list (query_op nat) := [QUse [fails_with_text]; QRegister get_task].

Definition a_query : Value := Some ("tasks.GetTask", "id").

Lemma told_apart_sample T R : told_apart T R query_ops ↔ (queryKey GetTask Task = queryKey T R → GetTask = T ∧ Task = R).
Proof.
  unfold told_apart, query_ops. split; [intros H; apply (H get_task); repeat constructor|].
  intros H h Hin. rewrite !elem_of_cons, elem_of_nil in Hin. destruct Hin as [?|[?|[[= ->]|[?|[]]]]]; done.
Qed.

Lemma query_gateway_calls_its_handler_witness :
  QueryGateway GetTask Task (run_query query_ops NewQueryBus) ∅ a_query 0%nat
  = HandleQuery (wrapQueryHandler get_task [pass_along]) ∅ a_query 0%nat ∧
  (HandleQuery (wrapQueryHandler get_task [pass_along]) ∅ a_query 0%nat).2 = 1%nat.
Proof.
  split; [|vm_compute; reflexivity].
  refine (query_gateway_calls_its_handler query_ops GetTask Task ∅ a_query 0%nat _). by apply told_apart_sample.
Defined.

Lemma Validate_finds_every_missing_handler_witness :
  Validate (run_query query_ops NewQueryBus) = None ∧ is_Some (first_handler GetTask Task [] query_ops).
Proof.
  assert (Validate (run_query query_ops NewQueryBus) = None ↔
    ∀ T R, QGateway T R ∈ query_ops → is_Some (first_handler T R [] query_ops)) as H.
  { refine (Validate_finds_every_missing_handler query_ops _).
    intros T R Hin. unfold query_ops in Hin. rewrite !elem_of_cons, elem_of_nil in Hin.
    destruct Hin as [[= -> ->]|[?|[?|[?|[]]]]]; [by apply told_apart_sample|done..]. }
  assert (Validate (run_query query_ops NewQueryBus) = None) as Hv by (vm_compute; reflexivity).
  split; [done|]. apply (proj1 H Hv). constructor.
Defined.

Lemma query_results_are_typed_witness :
  let call := QueryGateway GetTask Task (run_query guarded_ops NewQueryBus) ∅ a_query 0%nat in
  comes_out Task (anyNext get_task [fails_with_text] ∅ a_query 0%nat).1 call.1 ∧
  asserts Task (Some ("string", "oops")) = false ∧
  ∃ err, call.1 = Returns (zero_value Task, Some err) ∧ typed_value Task (zero_value Task).
Proof.
  destruct (query_results_are_typed guarded_ops GetTask Task ∅ a_query 0%nat) as [H1 H2].
  - intros h Hin. unfold guarded_ops in Hin. rewrite !elem_of_cons, elem_of_nil in Hin.
    destruct Hin as [?|[[= ->]|[]]]; [done|]. intros ctx qry w v0 err w0 [= <- _ _]. left. vm_compute. reflexivity.
  - intros h Hin _. unfold guarded_ops in Hin. rewrite !elem_of_cons, elem_of_nil in Hin.
    destruct Hin as [?|[[= ->]|[]]]; [done|by vm_compute].
  - assert (first_handler GetTask Task [] guarded_ops = Some (get_task, [fails_with_text])) as Hf by (vm_compute; reflexivity).
    rewrite Hf in H1. split; [exact (proj1 H1)|]. split; [vm_compute; reflexivity|].
    eexists. split; [vm_compute; reflexivity|]. eapply H2. vm_compute. reflexivity.
Defined.

Lemma transparent_middlewares_change_nothing_witness :
  HandleQuery (wrapQueryHandler get_task [pass_along; pass_along]) ∅ a_query 3%nat
  = HandleQuery get_task ∅ a_query 3%nat.
Proof.
  refine (transparent_middlewares_change_nothing get_task [pass_along; pass_along] ∅ a_query 3%nat _ _ _).
  - repeat (apply Forall_cons_2; [done|]). apply Forall_nil_2.
  - intros ctx qry w v0 err w0 [= <- _ _]. left. vm_compute. reflexivity.
  - vm_compute. reflexivity.
Defined.
