(* ===== verification/ProjectionExamples.v ===== *)
(** * The projection side at concrete inputs

    One run for every theorem about the projection store, the spreading of
    segments, the combined status, starting and the delivery of events that has
    hypotheses: the hypotheses hold there, by evaluation. *)
From S2P Require Import Prelude Core Registry Samples Context MemWorld ProjStore MemProjStore Runner Membership ProjStatus Effect Segment SegmentLoop RunnerRun Delivery SegmentProof TxWorld.
#[local] Open Scope Z_scope.

(** ** Histories of the store *)
Definition ttl : duration := 10 * second.
Definition claim_of (owner : string) (epoch : Z) : Lease := mkLease "orders" 0 owner epoch.
Definition caught_up : Status := mkStatus Live 0 9 1 "" "" 0 0 0 0 false.
Definition at_7 : Checkpoint := mkCheckpoint 7 1 0 "fp".
Definition letter (position : Z) (stream : string) : DeadLetter := mkDeadLetter position stream "OrderPlaced" "poisoned".

(** Two segments are declared, and an instance claims the first. *)
Definition claimed : ProjectionStore :=
  run [CDeclare "orders" 2 0; CClaim second (claim_of "a" 0) ttl] NewProjectionStore.

(** It stops; another instance takes the segment over after the ttl, and
    parks two streams in it. *)
Definition taken_over : ProjectionStore := run [CClaim (20 * second) (claim_of "b" 0) ttl] claimed.
Definition with_letters : ProjectionStore :=
  run [CSaveDeadLetter (claim_of "b" 2) (letter 5 "o-1"); CSaveDeadLetter (claim_of "b" 2) (letter 3 "o-1");
       CSaveDeadLetter (claim_of "b" 2) (letter 4 "o-2")] taken_over.

Definition keep : unit_fn (M := nat) := λ sm, (None, (sm.1, S sm.2)).

Lemma lost_lease_is_fenced_forever_witness :
  let l := claim_of "a" 1 in
  (∃ r, owned l claimed = Some r) ∧ owned l taken_over = None ∧
  Commit (21 * second) l at_7 caught_up keep (with_letters, 0%nat) = (Some (Sentinel ErrClaimLost), (with_letters, 0%nat)).
Proof.
  cbv zeta. destruct (owned (claim_of "a" 1) claimed) as [r|] eqn:H; [|exfalso; vm_compute in H; discriminate H].
  assert (r_epoch r = 1) as He by (vm_compute in H; injection H as <-; reflexivity).
  split; [by exists r|]. split; [vm_compute; reflexivity|].
  refine (proj1 (lost_lease_is_fenced_forever (claim_of "a" 1) r
    [CClaim (20 * second) (claim_of "b" 0) ttl]
    [CSaveDeadLetter (claim_of "b" 2) (letter 5 "o-1"); CSaveDeadLetter (claim_of "b" 2) (letter 3 "o-1");
     CSaveDeadLetter (claim_of "b" 2) (letter 4 "o-2")]
    claimed (21 * second) 2 at_7 caught_up 1 "" keep 0%nat H _ _ _));
    [rewrite He; lia|rewrite He; vm_compute; reflexivity|vm_compute; reflexivity].
Defined.

Lemma Claim_is_exclusive_witness :
  ∃ r l' cp s', row (claim_of "b" 0) claimed = Some r ∧
    Claim (20 * second) (claim_of "b" 0) ttl claimed = (l', cp, true, s') ∧ cp = r_cp r ∧
    r_epoch r < l_Epoch l' ∧ (∀ l2, same_segment (claim_of "b" 0) l2 → is_Some (owned l2 s') → l_Owner l2 = l_Owner l').
Proof.
  destruct (row (claim_of "b" 0) claimed) as [r|] eqn:Hr; [|exfalso; vm_compute in Hr; discriminate Hr].
  destruct (Claim (20 * second) (claim_of "b" 0) ttl claimed) as [[[l' cp] ok] s'] eqn:Hc.
  assert (ok = true) as -> by (vm_compute in Hc; congruence).
  assert (r_epoch r = 1) as He by (vm_compute in Hr; injection Hr as <-; reflexivity).
  destruct (Claim_is_exclusive (20 * second) (claim_of "b" 0) ttl claimed l' cp s' r Hr ltac:(discriminate)
    ltac:(lia) ltac:(rewrite He; reflexivity) Hc) as (H1 & _ & _ & H4 & H5).
  exists r, l', cp, s'. split_and!; [done..| |intros l2 Hs Ho; by apply H5].
  apply H4. vm_compute. reflexivity.
Defined.

Lemma Commit_is_all_or_nothing_witness :
  let '(err, (s', m)) := Commit (21 * second) (claim_of "b" 2) at_7 caught_up keep (with_letters, 0%nat) in
  err = None ∧ m = 1%nat ∧
  ∃ r, owned (claim_of "b" 2) with_letters = Some r ∧ (r_cp <$> row (claim_of "b" 2) s') = Some at_7.
Proof.
  destruct (Commit (21 * second) (claim_of "b" 2) at_7 caught_up keep (with_letters, 0%nat)) as [err [s' m]] eqn:H.
  assert (err = None ∧ m = 1%nat) as [-> ->].
  { apply (f_equal (λ x, (x.1, x.2.2))) in H. vm_compute in H. injection H as <- <-. done. }
  split_and!; [done..|].
  destruct (Commit_is_all_or_nothing (21 * second) (claim_of "b" 2) at_7 caught_up keep with_letters 0%nat None s' 1%nat H)
    as (_ & s1 & r & Hfn & Ho & Hr & _).
  assert (s1 = with_letters) as -> by exact (eq_sym (f_equal (λ x, x.2.1) Hfn)).
  exists r. split; [done|]. by rewrite Hr.
Defined.

Lemma checkpoint_moves_only_by_its_owner_witness :
  let c := CCommit (21 * second) (claim_of "b" 2) at_7 caught_up in
  (∃ now lc cp status, c = CCommit now lc cp status ∧ same_segment lc (claim_of "" 0) ∧ is_Some (owned lc with_letters) ∧ cp = at_7) ∨
  (∃ now lc v, c = CReset now lc v).
Proof.
  cbv zeta. set (c := CCommit _ _ _ _).
  destruct (row (claim_of "" 0) with_letters) as [r|] eqn:Hr; [|exfalso; vm_compute in Hr; discriminate Hr].
  destruct (row (claim_of "" 0) (exec c with_letters)) as [r'|] eqn:Hr'; [|exfalso; vm_compute in Hr'; discriminate Hr'].
  assert (r_cp r = no_checkpoint) as H1 by (vm_compute in Hr; injection Hr as <-; reflexivity).
  assert (r_cp r' = at_7) as H2 by (vm_compute in Hr'; injection Hr' as <-; reflexivity).
  destruct (checkpoint_moves_only_by_its_owner c (claim_of "" 0) with_letters r r' Hr Hr' ltac:(rewrite H1, H2; discriminate))
    as [(now & lc & cp & status & Hc & Hs & Ho & Hcp)|(now & lc & v & Hc & _)]; [left|right; eauto].
  exists now, lc, cp, status. split_and!; [done..|congruence].
Defined.

Lemma Reset_rebuilds_every_segment_witness :
  let '(err, (s', m)) := Reset (21 * second) (claim_of "b" 2) 2 keep (with_letters, 0%nat) in
  err = None ∧ m = 1%nat ∧ PendingReplays "orders" s' = [] ∧ LoadDeadLetters "orders" 0 s' = [] ∧
  LoadDeadLetters "orders" 0 with_letters ≠ [].
Proof.
  destruct (Reset (21 * second) (claim_of "b" 2) 2 keep (with_letters, 0%nat)) as [err [s' m]] eqn:H.
  assert (err = None ∧ m = 1%nat) as [-> ->].
  { apply (f_equal (λ x, (x.1, x.2.2))) in H. vm_compute in H. injection H as <- <-. done. }
  destruct (Reset_rebuilds_every_segment (21 * second) (claim_of "b" 2) 2 keep with_letters 0%nat s' 1%nat H)
    as (s1 & p & _ & _ & _ & _ & _ & Hp & Hall).
  split_and!; [done..|exact Hp|exact (proj1 (proj2 (Hall (claim_of "b" 2) eq_refl)))|vm_compute; discriminate].
Defined.

Lemma RequestReplay_reaches_every_parked_segment_witness :
  let '(res, s') := RequestReplay "orders" "o-1" with_letters in
  res = Ok 1 ∧ (mkReplay 1 "o-1" 0 ∈ PendingReplays "orders" s' ∧ mkReplay 1 "o-1" 1 ∉ PendingReplays "orders" s').
Proof.
  destruct (RequestReplay "orders" "o-1" with_letters) as [res s'] eqn:H.
  assert (res = Ok 1) as ->.
  { apply (f_equal fst) in H. vm_compute in H. congruence. }
  destruct (RequestReplay_reaches_every_parked_segment "orders" "o-1" with_letters 1 s'
    ltac:(vm_compute; discriminate) ltac:(vm_compute; reflexivity)) as (_ & _ & Hall); [|exact H|].
  { intros p k Hp [x Hx]. vm_compute in Hp. injection Hp as <-. vm_compute in Hx. discriminate Hx. }
  split; [done|]. split.
  - apply Hall. right. split_and!; [done..|].
    destruct (row (mkLease "orders" 0 "" 0) with_letters) as [r|] eqn:Hr; [|exfalso; vm_compute in Hr; discriminate Hr].
    exists r. split; [done|]. vm_compute in Hr. injection Hr as <-. vm_compute. reflexivity.
  - intros [Hin|(_ & _ & _ & r & Hr & Hl)]%Hall; [vm_compute in Hin; inversion Hin|].
    vm_compute in Hr. injection Hr as <-. vm_compute in Hl. discriminate Hl.
Defined.

Lemma FinishReplay_drops_no_untried_segment_witness :
  let s := (RequestReplay "orders" "o-1" with_letters).2 in
  let '(err, s') := FinishReplay (claim_of "b" 2) 1 "" s in
  err = None ∧ ∀ rp, rp ∈ PendingReplays "orders" s' ↔ rp ∈ PendingReplays "orders" s ∧ ¬ (rp_Number rp = 1 ∧ rp_Segment rp = 0).
Proof.
  cbv zeta. set (s := (RequestReplay "orders" "o-1" with_letters).2).
  destruct (FinishReplay (claim_of "b" 2) 1 "" s) as [err s'] eqn:H.
  assert (err = None) as -> by (apply (f_equal fst) in H; vm_compute in H; congruence).
  split; [done|]. exact (FinishReplay_drops_no_untried_segment (claim_of "b" 2) 1 "" s s' H).
Defined.

Lemma Heartbeat_reports_the_live_instances_witness :
  let s := (Heartbeat second "orders" "a" 1 ttl claimed).2 in
  let '(out, s') := Heartbeat (2 * second) "orders" "b" 1 ttl s in
  out = [mkInstance "a" 1 1 second; mkInstance "b" 1 0 0] ∧ out = LoadInstances (2 * second) "orders" s'.
Proof.
  cbv zeta. set (s := (Heartbeat second "orders" "a" 1 ttl claimed).2).
  destruct (Heartbeat (2 * second) "orders" "b" 1 ttl s) as [out s'] eqn:H.
  split; [apply (f_equal fst) in H; vm_compute in H; symmetry; exact H|].
  exact (proj1 (proj2 (Heartbeat_reports_the_live_instances (2 * second) "orders" "b" 1 ttl s out s' ltac:(reflexivity) H))).
Defined.

(** ** Three instances of two versions *)
Definition fleet : list Instance_ :=
  [mkInstance "a" 2 1 0; mkInstance "b" 1 4 0; mkInstance "c" 2 3 0].

Lemma quotas_cover_the_segments_witness :
  quota fleet "c" 7 = 4 ∧ quota fleet "a" 7 = 3 ∧ quota fleet "b" 7 = 0 ∧
  lsum (λ m, quota fleet (in_Owner m) 7) (counted fleet) = 7.
Proof.
  split_and!; [vm_compute; reflexivity..|].
  refine (proj1 (quotas_cover_the_segments fleet 7 ltac:(lia) _ _)); [|vm_compute; discriminate].
  change (NoDup ["a"; "b"; "c"]). repeat (apply NoDup_cons_2; [rewrite ?elem_of_cons, elem_of_nil; naive_solver|]).
  apply NoDup_nil_2.
Defined.

(** A runner that holds its only segment, and one that does not. *)
Definition member (quota held : Z) (reserved : bool) (stable : Z) : Runner TxWorld :=
  set_members (mkMembership quota held true stable "") (update_seg 0 (with_reserved reserved) tx_runner).

Lemma member_held_ok quota (reserved : bool) stable : held_ok (member quota (if reserved then 1 else 0) reserved stable).
Proof. destruct reserved; split; vm_compute; (done || reflexivity). Qed.

Lemma reservations_respect_the_quota_witness :
  let '(ok, r') := reserve 0 (member 1 0 false 0) in ok = true ∧ held_ok r' ∧ mb_held (rn_members r') ≤ 1.
Proof.
  destruct (reserve 0 (member 1 0 false 0)) as [ok r'] eqn:H.
  assert (ok = true) as -> by (apply (f_equal fst) in H; vm_compute in H; congruence).
  destruct (reservations_respect_the_quota 0 (member 1 0 false 0) true r' (member_held_ok 1 false 0) H) as (H1 & H2 & _).
  split_and!; [done|exact H1|exact H2].
Defined.

Lemma exactly_one_segment_is_shed_witness :
  ∃ seg, 0 ≤ seg ∧ shouldShed seg (member 0 1 true 2) = true ∧
    (∀ seg', 0 ≤ seg' → shouldShed seg' (member 0 1 true 2) = true → seg' = seg).
Proof.
  destruct (exactly_one_segment_is_shed (member 0 1 true 2) (member_held_ok 0 true 2) ltac:(vm_compute; discriminate))
    as (seg & s & H0 & _ & _ & Hiff & _).
  exists seg. split_and!; [done|by apply Hiff|]. intros seg' H1 H2. by apply Hiff.
Defined.

Lemma combined_status_is_the_furthest_behind_witness :
  st_Position (Runner_Status tx_run.2.1) = 5 ∧
  ∃ s, s ∈ rn_segs tx_run.2.1 ∧ st_Position (Runner_Status tx_run.2.1) = st_Position (ss_status s).
Proof.
  split; [vm_compute; reflexivity|].
  refine (proj1 (proj2 (combined_status_is_the_furthest_behind tx_run.2.1 _))). vm_compute. discriminate.
Defined.

(** ** A run of [work] *)

(** The poisoned event and its stream are parked, and the events of the log
    are accounted for. *)
Lemma work_delivers_exactly_once_witness :
  sn_model (tx_snap tx_run.2.2) = [1; 4; 5] ∧
  (inv tx_snap ∅ (rn_p tx_runner) [] (own_ev (rn_p tx_runner) (rn_segments tx_runner) 0) (tx_log tx_run.2.2)
     (tx_snap tx_run.2.2) ∨
   (∃ e, tx_run.1 = Fail e) ∧ tx_snap tx_run.2.2 = tx_snap tx_start).
Proof.
  split; [vm_compute; reflexivity|].
  change (tx_run.2.2) with (work ∅ 0 4 (mkCheckpoint 0 0 0 "") (tx_runner, tx_start)).2.2.
  change (tx_run.1) with (work ∅ 0 4 (mkCheckpoint 0 0 0 "") (tx_runner, tx_start)).1.
  destruct (work ∅ 0 4 (mkCheckpoint 0 0 0 "") (tx_runner, tx_start)) as [res [r' w']] eqn:H.
  assert (tx_holds (lease 0 tx_runner) w') as Hheld.
  { unfold tx_holds. change w' with (res, (r', w')).2.2. rewrite <- H. vm_compute. reflexivity. }
  cbn [fst snd]. generalize Hheld. generalize H. clear H Hheld.
  refine (work_delivers_exactly_once tx_snap tx_holds tx_issued tx_log ∅ 0 [] tx_dls 4 (mkCheckpoint 0 0 0 "")
    tx_runner r' tx_start w' res tx_laws _ _ _ _ _ _ _).
  - vm_compute. discriminate.
  - vm_compute. by eexists.
  - vm_compute. reflexivity.
  - reflexivity.
  - vm_compute. split; discriminate.
  - intros _. vm_compute. by eexists.
  - intros _. apply inv_start.
Defined.

(** ** Starting a runner

    A store that is down for some reads of the head, and a clock that only
    sleeping moves. *)
Record StartWorld : Type := mkStart { sw_clock : Z; sw_down : nat }.

#[local] Instance start_ops : StoreOps StartWorld := {|
  st_Declare _ _ _ w := (None, w);
  st_Claim _ _ w := (Ok None, w);
  st_Commit _ _ _ fn w := fn w;
  st_Reset _ _ fn w := fn w;
  st_Release _ w := (None, w);
  st_SaveStatus _ _ w := (None, w);
  st_LoadStatuses _ w := (Ok [], w);
  st_RequestRebuild _ w := (Ok 0, w);
  st_Rebuilds _ w := (Ok (0, 0), w);
  st_FailRebuild _ _ _ w := (None, w);
  st_RebuildFailure _ w := (Ok (0, ""), w);
  st_Heartbeat name owner v _ w := (Ok [mkInstance owner v 0 0], w);
  st_DeadLetters := None;
  rd_ReadAll _ _ w := (Fail (New "empty"), w);
  rd_Head w := match sw_down w with O => (Ok 7, w) | S n => (Fail (New "down"), mkStart (sw_clock w) n) end;
  ctx_done _ := None;
  clock := sw_clock;
  sleepCtx d w := mkStart (sw_clock w + Z.max d 0) (sw_down w);
  select_live _ w := (CasePoll, w);
  error_text e := match e with New text => text | _ => "error" end;
|}.

#[local] Instance start_laws : ClockLaws (W := StartWorld).
Proof.
  split; cbn; try done.
  - intros w. by destruct (sw_down w).
  - intros d w. right. lia.
Qed.

Definition start_definition : ProjDefinition StartWorld :=
  mkDefinition "orders" (Some (λ _ _ w, (None, w))) ["OrderPlaced"] 0 None 2 (Some ByStreamID) StallOnError "node" 0 0 0.

Definition start_runner : Runner StartWorld :=
  match NewRunner sample_registry "host" "1" start_definition with
  | Returns r => r
  | Panics _ => mkRunner start_definition 1 "" [] 0 0 0 (mkReplayQueue ∅ [] false 0 0 ∅ false)
                  (mkRebuildState false 0 0 false 0 None) (mkMembership 0 0 false 0 "") 0
  end.

(** Half a second, doubled each time *)
Definition doubling (k : nat) : duration := 500 * millisecond * 2 ^ Z.of_nat k.
Definition show_number (n : Z) : string := if n =? 0 then "0" else "n".

Definition start_answer (down : nat) : option (result error ()) * time * Z :=
  let '(a, s) := start show_number doubling 40 (start_runner, mkStart 0 down) in
  (match a with Ok a => a | Fail _ => None end, sw_clock s.2, mb_quota (rn_members s.1)).

(** It starts after three failures, with the quota of a single instance; or
    gives up before 15 seconds. *)
Example start_recovers : start_answer 3 = (Some (Ok ()), 3500 * millisecond, 2).
Proof. vm_compute. reflexivity. Qed.
Example start_gives_up : start_answer 30 = (Some (Fail (Errorf "read head" (New "down"))), 7500 * millisecond, 0).
Proof. vm_compute. reflexivity. Qed.

Lemma start_returns_witness :
  p_ClaimTTL (rn_p start_runner) = 15 * second ∧
  ∃ a s', start show_number doubling 32 (start_runner, mkStart 0 30) = (Ok (Some a), s').
Proof.
  split; [vm_compute; reflexivity|].
  destruct (start_returns show_number doubling (500 * millisecond) (start_runner, mkStart 0 30)) as (a & s' & H & _).
  - vm_compute. reflexivity.
  - intros k. unfold doubling. assert (1 ≤ 2 ^ Z.of_nat k) by (apply (Z.pow_le_mono_r 2 0); lia). unfold millisecond. lia.
  - vm_compute. discriminate.
  - exists a, s'. exact H.
Defined.

Lemma replay_errors_match_witness :
  replay_errors (W := StartWorld) [New "a"; DeferredError 1; New "b"; New "a"] ["b"; "a"; "c"; "a"; "a"] =
    [New "b"; New "a"; New "c"; New "a"; New "a"] ∧
  error_text <$> replay_errors (W := StartWorld) [New "a"; DeferredError 1; New "b"] ["error"; "c"] = ["error"; "c"].
Proof.
  split; [vm_compute; reflexivity|]. refine (proj1 (replay_errors_match (W := StartWorld) _ _ _)). intros m. reflexivity.
Defined.
