(* ===== verification/AutomationExamples.v ===== *)
(** * The automations at concrete inputs

    One run for every theorem about the automation store, the scheduler and
    [runBatch] that has hypotheses: the hypotheses hold there, by
    evaluation. *)
From S2P Require Import Prelude Core Effect AutoTypes AutoStore ClaimScheduler AutoWorld BatchRun AutoRunner.
#[local] Open Scope Z_scope.

(** ** The store *)
Definition candidates : list Candidate := [mkCandidate "a" "x"; mkCandidate "b" "x"; mkCandidate "c" "y"].
Definition lease_ttl : duration := 30 * second.
Definition granted_to_me : AutomationStore := AutoStore.exec (CAcquire second "ship" "me" candidates 2 lease_ttl) NewAutomationStore.
Definition my_lease : SegmentLease := mkSegmentLease "ship" "a" "me" 1.


(** Another owner acquires the segment after the lease has ended. *)
Lemma segment_lease_is_exclusive_and_fenced_witness :
  let taken := CAcquire (60 * second) "ship" "you" candidates 3 lease_ttl in
  let s' := AutoStore.run [] (AutoStore.run [taken] granted_to_me) in
  Renew (61 * second) [my_lease] lease_ttl s' = ([my_lease], s').
Proof.
  cbv zeta. set (taken := CAcquire _ _ _ _ _ _).
  assert ((λ r, (holds_epoch my_lease r, lr_epoch r)) <$> row_of "ship" "a" granted_to_me = Some (true, 1)) as H
    by (vm_compute; reflexivity).
  assert (holds_epoch my_lease <$> row_of "ship" "a" (AutoStore.run [taken] granted_to_me) = Some false) as H1
    by (vm_compute; reflexivity).
  destruct (row_of "ship" "a" granted_to_me) as [r|] eqn:Hr; [|discriminate H]. injection H as Hh He.
  destruct (row_of "ship" "a" (AutoStore.run [taken] granted_to_me)) as [r1|] eqn:Hr1; [|discriminate H1].
  injection H1 as Hh1.
  refine (proj1 (proj2 (segment_lease_is_exclusive_and_fenced my_lease granted_to_me r [taken] [] Hr Hh _ _ _)
    r1 Hr1 Hh1 (61 * second) lease_ttl 0 false)).
  - discriminate.
  - lia.
  - rewrite He. vm_compute. reflexivity.
Defined.

(** ** The scheduler *)
Lemma scheduler_holds_at_most_MaxSegments_witness :
  let out := Next sample_config (start_scheduler, sample_auto) in
  size (cs_held out.2.1) = 1%nat ∧ Z.of_nat (size (cs_held out.2.1)) ≤ sf_maxSegments sample_config.
Proof.
  cbv zeta. split; [vm_compute; reflexivity|].
  refine (proj1 (scheduler_holds_at_most_MaxSegments sample_config (mkItem "a" "x" 0) Done "a" start_scheduler sample_auto _)).
  vm_compute. discriminate.
Defined.

(** The segment "a" of [AutoWorld.failed_round] is held and busy. *)
Definition busy_segment : heldSegment :=
  default (mkHeld my_lease 0 false false 0 0) (cs_held failed_round.2.1 !! "a").

Lemma running_segment_gets_no_second_batch_witness :
  let out := Next sample_config failed_round.2 in
  cs_held out.2.1 !! "a" = Some busy_segment ∧
  ∀ bs, out.1 = Ok bs → "a" ∉ ba_Key <$> bs.
Proof.
  cbv zeta. set (s := failed_round.2). destruct (Next sample_config s) as [res [st' w']] eqn:H.
  assert (live_lease (wa_now s.2) (hs_lease busy_segment) (wa_store s.2)) as Hlive.
  { destruct (row_of (sl_Name (hs_lease busy_segment)) (sl_Key (hs_lease busy_segment)) (wa_store s.2)) as [r|] eqn:Hr;
      [|exfalso; vm_compute in Hr; discriminate Hr].
    exists r. split; [done|]. vm_compute in Hr. injection Hr as <-. split; vm_compute; reflexivity. }
  assert (cs_held s.1 !! "a" = Some busy_segment) as Hheld by (vm_compute; reflexivity).
  destruct (running_segment_gets_no_second_batch sample_config busy_segment
    (λ w : AutoWorld, live_lease (wa_now w) (hs_lease busy_segment) (wa_store w))
    (λ w, (Ok (wa_cands w), w)) s.1 s.2 res st' w') as (H1 & _ & H3).
  - reflexivity.
  - apply memory_store_keeps_lease; vm_compute; (reflexivity || discriminate).
  - exact Hlive.
  - intros k h0 Hk. apply (bool_decide_unpack (map_Forall (λ k h0, sl_Key (hs_lease h0) = k) (cs_held s.1))); [|exact Hk].
    vm_compute. exact I.
  - exact Hheld.
  - vm_compute. reflexivity.
  - exact H.
  - split; [exact H1|exact H3].
Defined.

Lemma deferral_pauses_the_segment_witness :
  ∃ s1, Done_ sample_config (mkItem "a" "x" 0) (DeferredOutcome (300 * second)) failed_round.2 = (Ok (), s1) ∧
    (Drained "a" s1).1 = Ok () ∧ cs_held (Drained "a" s1).2.1 !! "a" = None.
Proof.
  destruct (deferral_pauses_the_segment sample_config (mkItem "a" "x" 0) (300 * second) busy_segment
    (λ w, (Ok (wa_cands w), w)) failed_round.2.1 failed_round.2.2) as [H _].
  { reflexivity. }
  { vm_compute. reflexivity. }
  { vm_compute. discriminate. }
  { vm_compute. reflexivity. }
  destruct (H ltac:(vm_compute; reflexivity)) as (s1 & H1 & H2). exists s1. split; [exact H1|].
  cbn [it_Key] in H2. rewrite H2. destruct (sto_Release _ _) as [[e|e] w'] eqn:Hrel; [|exfalso; vm_compute in Hrel; discriminate Hrel].
  split; [done|]. cbn. apply lookup_delete_eq.
Defined.

(** ** A batch *)

(** Three items of two ordering keys, with room for two goroutines; the first
    item of key "x" fails. *)
Definition batch : list (Item string) := [mkItem "k" "x1" 0; mkItem "k" "x2" 0; mkItem "k" "y1" 0].
Definition key_of_item (it : string) : string := String.substring 0 1 it.

Definition batch_after (acts : list BatchRun.action) : option (runState string) :=
  foldl (λ s a, s ≫= BatchRun.exec 2 a) (Some (initial (Some key_of_item) batch)) acts.

Lemma batch_after_reachable acts s : batch_after acts = Some s → reachable (Some key_of_item) 2 batch s.
Proof.
  unfold batch_after. revert s. induction acts as [|a acts IH] using rev_ind; intros s.
  - intros [= <-]. constructor.
  - rewrite foldl_app. cbn [foldl]. destruct (foldl _ _ acts) as [s0|]; [|done]. cbn [mbind option_bind].
    intros Hs. eapply reach_step; [by apply IH|exact Hs].
Qed.

Definition one_failed : list BatchRun.action := [Look; Look; Look; Finish 0 (Some (Failed (New "refused")))].

Lemma ordering_key_is_never_overtaken_witness :
  ∃ s, batch_after one_failed = Some s ∧ zlen (rs_results s) = 1 ∧
    (∀ sk, of_key sk (rs_started s) `prefix_of` of_key sk (entries (Some key_of_item) batch)) ∧ zlen (rs_flight s) ≤ 2.
Proof.
  assert ((λ s, zlen (rs_results s)) <$> batch_after one_failed = Some 1) as Hn by (vm_compute; reflexivity).
  destruct (batch_after one_failed) as [s|] eqn:H; [|discriminate Hn]. injection Hn as Hn.
  destruct (ordering_key_is_never_overtaken (Some key_of_item) 2 batch s (batch_after_reachable _ _ H)) as (H1 & _ & H3 & _).
  exists s. split_and!; [done|exact Hn|exact H1|exact H3].
Defined.

Definition all_done : list BatchRun.action :=
  one_failed ++ [Send; Receive; Look; Finish 0 (Some Done); Send; Receive; Look].


(** ** A run of the runner *)

(** The first round hands out a batch, which comes back while the runner
    waits; the second finds nothing. *)
Definition some_batch : Batch string := mkBatch "a" [mkItem "a" "x" 0].
Definition one_processed : Summary := mkSummary 1 0 0 time_zero.
Definition no_text : error → string := λ _, "error".

Definition round_top : list (AutoRunner.action string) := [Ctx None; PublishStatus 5 true; Pause (Ok false); Deps (Ok "")].

Definition once_actions : list (AutoRunner.action string) :=
  round_top ++ [Proceed; NextAnswer (Ok [some_batch]); Proceed; Proceed] ++
  round_top ++ [Proceed; NextAnswer (Ok []); Proceed; BatchReturns 0 one_processed; Proceed; GiveBack 0; EndFlight 0;
    GoroutineDone 0; Wake true] ++
  round_top ++ [Proceed; NextAnswer (Ok []); Proceed; Proceed; Proceed; Proceed; PublishStatus 6 true; Proceed].

Definition ran_once : option (runnerState string) :=
  foldl (λ s a, s ≫= exec_RunOnce no_text a) (Some (new_runner "me")) once_actions.

Lemma actions_run (acts : list (AutoRunner.action string)) (s : runnerState string) :
  foldl (λ s a, s ≫= exec_RunOnce no_text a) (Some (new_runner "me")) acts = Some s → runs_to no_text true "me" s.
Proof.
  revert s. induction acts as [|a acts IH] using rev_ind; intros s.
  - intros [= <-]. constructor.
  - rewrite foldl_app. cbn [foldl]. destruct (foldl _ _ acts) as [s0|]; [|done]. cbn [mbind option_bind].
    intros Hs. eapply runs_step; [by apply IH|exact Hs].
Qed.

Lemma ran_once_run s : ran_once = Some s → runs_to no_text true "me" s.
Proof. unfold ran_once. intros H. exact (actions_run _ _ H). Qed.

Lemma RunOnce_ends_when_nothing_is_eligible_witness :
  ∃ s, ran_once = Some s ∧ st_Phase (rr_status s) = Idle ∧ zlen (handed (rr_hist s)) = 1 ∧
    (st_Phase (rr_status s) = Paused ∨
     st_Phase (rr_status s) = Idle ∧
     ∃ h1 h2, rr_hist s = h1 ++ CNext [] :: h2 ∧ Forall (λ c, c = CClose) h2 ∧ handed h1 ≡ₚ (given h1).*1).
Proof.
  assert ((λ s, (st_Phase (rr_status s), zlen (handed (rr_hist s)), rr_pc s, zlen (rr_hist s))) <$> ran_once
    = Some (Idle, 1, Finished one_processed None, 6)) as H by (vm_compute; reflexivity).
  destruct ran_once as [s|] eqn:Hs; [|discriminate H]. injection H as H1 H2 H3 H4.
  exists s. split_and!; [done..|].
  exact (RunOnce_ends_when_nothing_is_eligible no_text "me" s one_processed (ran_once_run _ Hs)
    ltac:(rewrite H4; reflexivity) H3).
Defined.

Lemma batches_are_given_back_before_Close_witness :
  ∃ s, ran_once = Some s ∧ last (rr_hist s) = Some CClose ∧ handed (rr_hist s) ≡ₚ (given (rr_hist s)).*1 ∧
    lsum su_Processed (given (rr_hist s)).*2 = 1.
Proof.
  assert ((λ s, (rr_pc s, zlen (rr_hist s))) <$> ran_once = Some (Finished one_processed None, 6)) as H
    by (vm_compute; reflexivity).
  destruct ran_once as [s|] eqn:Hs; [|discriminate H]. injection H as H3 H4.
  destruct (batches_are_given_back_before_Close no_text true "me" s (ran_once_run _ Hs) ltac:(rewrite H4; reflexivity))
    as (_ & _ & _ & Hf).
  destruct (Hf _ _ H3) as (H5 & H6 & H7 & _). exists s. split_and!; [done..|by rewrite <- H7].
Defined.

Lemma runner_returns_after_its_context_ended_witness :
  let s := at_pc (Finishing (Some (Sentinel context_Canceled))) (start some_batch (new_runner "me")) in
  left_to_do s = 7 ∧ ∃ a s', a ≠ Nudged ∧ AutoRunner.exec no_text false a s = Some s' ∧ left_to_do s' < left_to_do s.
Proof.
  cbv zeta. set (s := at_pc _ _). split; [vm_compute; reflexivity|].
  destruct (proj2 (runner_returns_after_its_context_ended no_text false s (Sentinel context_Canceled)) eq_refl) as (_ & H2 & H3).
  destruct (H3 ltac:(discriminate)) as (a & s' & Hn & Hx). exists a, s'. split_and!; [done..|]. by eapply H2.
Defined.
