(* ===== verification/SqlExamples.v ===== *)
(** * The SQL stores at concrete inputs

    One run for every theorem about the SQL event stores that has hypotheses:
    the hypotheses hold there, by evaluation; and a stream whose name is not
    ASCII, which the prefix filter of the SQLite store does not find. *)
From S2P Require Import Prelude Core Iter Registry Samples Context Log MemStore SqlEvents SqliteStore PgStore CommandHandler MemWorld.
From Stdlib Require Import Strings.Ascii.
#[local] Open Scope Z_scope.

(** ** A printer and a parser for ids *)
Fixpoint print_pos (p : positive) : string :=
  match p with xH => "" | xO p => String "0"%char (print_pos p) | xI p => String "1"%char (print_pos p) end.

Fixpoint parse_pos (s : string) : positive :=
  match s with
  | EmptyString => xH
  | String "0"%char s => xO (parse_pos s)
  | String _ s => xI (parse_pos s)
  end.

#[local] Instance sample_uuid_String : UUIDString := λ u,
  match u with Z0 => "0" | Zpos p => String "+"%char (print_pos p) | Zneg p => String "-"%char (print_pos p) end.

#[local] Instance sample_uuid_Parse : UUIDParse := λ s,
  match s with
  | "0" => Ok 0
  | String "+"%char s => Ok (Zpos (parse_pos s))
  | String "-"%char s => Ok (Zneg (parse_pos s))
  | _ => Fail (New "invalid UUID")
  end.

Lemma parse_print p : parse_pos (print_pos p) = p.
Proof. induction p as [p IH|p IH|]; cbn; by rewrite ?IH. Qed.

#[local] Instance sample_uuid_text : UUIDTextLaws sample_uuid_Parse.
Proof.
  split. intros [|p|p]; [done|..]; cbn -[print_pos parse_pos]; by rewrite parse_print.
Qed.

(** ** Histories *)
Definition today (n : Z) : time := unix_epoch + n.
Definition fresh (n : uuid) (id : string) : Envelope := mkEnvelope n id None "" "" (Some (order_placed id "")) 0 0 0.

Definition sql_op (n : Z) (evs : list Envelope) (rev : StreamState) : save_op := mkSaveOp (today n) sample_registry evs rev.

Lemma sql_op_ok n evs rev : registry_wf (so_reg (sql_op n evs rev)) ∧ extends (so_reg (sql_op n evs rev)) sample_registry.
Proof. split; [exact sample_registry_wf|]. intros name e H. exact H. Qed.

Definition sql_ops : list save_op := [
  sql_op 10 [fresh 1 "o-1"; fresh 2 "o-1"] NoStream;
  sql_op 11 [fresh 3 "o-1"] (Revision 7);
  sql_op 12 [fresh 4 "o-2"] Any;
  sql_op 13 [fresh 5 "o-1"] (Revision 2)].

(** The commit of the third save fails. *)
Definition disk_error : faults := λ c, match c with CommitTx => Some (New "disk I/O error") | _ => None end.

Definition faulty_ops : list (save_op * faults) :=
  match sql_ops with
  | [a; b; c; d] => [(a, no_faults); (b, no_faults); (c, disk_error); (d, no_faults)]
  | _ => []
  end.

Lemma sql_ops_ok : sqlite_ops_ok sample_registry sql_ops ∧ total_events sql_ops < max_int64.
Proof.
  split; [|vm_compute; done]. split.
  - unfold ops_ok, sql_ops.
    repeat (apply Forall_cons_2; [apply sql_op_ok|]). apply Forall_nil_2.
  - repeat (apply Forall_cons_2; [repeat (apply Forall_cons_2; [vm_compute; split; discriminate|]); apply Forall_nil_2|]).
    apply Forall_nil_2.
Qed.

Lemma sqlite_Save_refines_log_witness :
  (λ r : AppendResult * option error, Successful r.1) <$> (sqlite_saves faulty_ops empty_sqlite).1 = [true; false; false; true] ∧
  ∃ l, answers faulty_ops (sqlite_saves faulty_ops empty_sqlite).1 [] l ∧ numbered l.
Proof.
  split; [vm_compute; reflexivity|].
  destruct (sqlite_Save_refines_log sample_registry faulty_ops (proj1 sql_ops_ok) (proj2 sql_ops_ok)) as (l & H1 & _ & H2).
  by exists l.
Defined.

Lemma sqlite_and_memory_agree_witness :
  let opts := mkReadOptions 1 [] ["o-1"] in
  let d := (sqlite_saves ((λ op, (op, no_faults)) <$> sql_ops) empty_sqlite).2 in
  (∃ evs, read_pages (GR := sqlite_reader sample_registry) 5 d 1 opts = Some (Ok evs)) ∧
  (∃ it it', sqlite_LoadStreamFrom no_faults sample_registry "o-1" (Revision 8) d = Returns (Ok it) ∧
     All 4 None it = Some ([], None, it')) ∧
  sqlite_LoadStreamFrom no_faults sample_registry "o-1" (Revision (max_int64 + 1)) d = Panics "eventsourcing: Revision overflows int64".
Proof.
  destruct (sqlite_and_memory_agree sample_registry sql_ops 1 (mkReadOptions 1 [] ["o-1"]) "o-1" (Revision 8)
    (proj1 sql_ops_ok) (proj2 sql_ops_ok) ltac:(unfold is_u64, two64; lia) ltac:(reflexivity)
    ltac:(cbn; unfold is_u64, two64; lia)) as (_ & _ & (evs & _ & H1) & H2).
  destruct (sqlite_and_memory_agree sample_registry sql_ops 1 (mkReadOptions 1 [] ["o-1"]) "o-1" (Revision (max_int64 + 1))
    (proj1 sql_ops_ok) (proj2 sql_ops_ok) ltac:(unfold is_u64, two64; lia) ltac:(reflexivity)
    ltac:(cbn; unfold is_u64, two64, max_int64; lia)) as (_ & _ & _ & H3).
  split; [by exists evs|]. split.
  2: { assert (load_error (Revision (max_int64 + 1)) (zlen (stream_of "o-1" (log_saves sql_ops []).2)) = Some ErrInvalidRevision) as He
         by (vm_compute; reflexivity).
       rewrite He in H3. destruct H3 as (_ & _ & _ & H3). exact H3. }
  assert (load_error (Revision 8) (zlen (stream_of "o-1" (log_saves sql_ops []).2)) = Some ErrInvalidRevision) as He
    by (vm_compute; reflexivity).
  rewrite He in H2. destruct H2 as (_ & _ & _ & H2). exact H2.
Defined.

(** ** A copy of the in-memory store *)
Definition copied_log : list Envelope := (log_saves sql_ops []).2.

Definition importable_b (env : Envelope) : bool :=
  negb (EventID env =? 0) && encodable sample_registry env &&
  ((min_int64 <=? OccurredAt env - unix_epoch) && (OccurredAt env - unix_epoch <=? max_int64)) &&
  negb (OccurredAt env =? 0) && bool_decide (json_event <$> env_Event env = env_Event env) &&
  match Metadata env with Some m => bool_decide (json_value <$> m = m) | None => false end.

Lemma importable_b_ok env : importable_b env = true → importable sample_registry env.
Proof.
  unfold importable_b. rewrite !andb_true_iff, !negb_true_iff, !Z.eqb_neq, !Z.leb_le, bool_decide_eq_true.
  intros (((((H1 & H2) & H3) & H4) & H5) & H6). split; [done..|]. destruct (Metadata env) as [m|]; [|done]. exists m. by apply bool_decide_eq_true in H6.
Qed.

Lemma copied_log_importable : Forall (importable sample_registry) copied_log.
Proof.
  assert (forallb importable_b copied_log = true) as H by (vm_compute; reflexivity). rewrite forallb_elem in H.
  apply Forall_forall. intros env Henv. by apply importable_b_ok, H.
Qed.

Lemma copied_log_pages : pages_of (GR := mem_reader sample_registry) (run_saves sql_ops NewEventStore).2 copied_log ∧
  numbered copied_log.
Proof.
  destruct (run_saves_new sample_registry sql_ops (proj1 (proj1 sql_ops_ok))) as (_ & Hrep & _); [vm_compute; done|].
  split; [|apply Hrep]. intros after Ha. by apply MemStore.ReadAll_page.
Qed.

Lemma Import_copies_the_log_witness :
  EventID <$> copied_log = [1; 2; 4; 5] ∧
  ∃ d, Import (GR := mem_reader sample_registry) 5 (today 20) sample_registry (run_saves sql_ops NewEventStore).2 empty_sqlite
       = Some (4, None, d) ∧ Forall2 (scans sqlite_columns sample_registry) (sq_rows d) copied_log.
Proof.
  split; [vm_compute; reflexivity|].
  exact (Import_copies_the_log (GR := mem_reader sample_registry) (today 20) sample_registry (run_saves sql_ops NewEventStore).2 copied_log
    sample_registry_wf (proj2 copied_log_pages) copied_log_importable ltac:(vm_compute; reflexivity) (proj1 copied_log_pages)).
Defined.

(** ** A prefix that is not ASCII *)

(** "é-" in UTF-8 *)
Definition accent_prefix : string := String (Ascii.ascii_of_nat 195) (String (Ascii.ascii_of_nat 169) "-").

(** The SQLite store loses events under a stream prefix that is not ASCII: it
    compares the prefix with as many characters of the stream as the prefix
    has bytes.  With one event in a stream whose name extends such a prefix,
    the in-memory store reads the event, and the SQLite store reads to the end
    without it. *)
Theorem sqlite_prefix_filter_counts_characters :
  let ops := [sql_op 10 [fresh 1 (accent_prefix +:+ "1")] NoStream] in
  let opts := mkReadOptions 0 [] [accent_prefix] in
  read_pages (GR := mem_reader sample_registry) 2 (run_saves ops NewEventStore).2 0 opts = Some (Ok (log_saves ops []).2) ∧
  read_pages (GR := sqlite_reader sample_registry) 2 (sqlite_saves ((λ op, (op, no_faults)) <$> ops) empty_sqlite).2 0 opts
  = Some (Ok []) ∧
  zlen (log_saves ops []).2 = 1.
Proof. split_and!; vm_compute; reflexivity. Qed.

(** ** Concurrent saves *)
Definition first_byte (s : string) : Z := match s with String c _ => byte c | _ => 0 end.

(** Two saves of one stream and one of another; the first waits while the
    second, whose stream has the same hash, holds the lock; the third is cut
    off after its insert. *)
Definition pg_actions : list pg_action := [
  BeginSave (sql_op 10 [fresh 1 "o-1"; fresh 2 "o-1"] NoStream);
  BeginSave (sql_op 11 [fresh 3 "o-2"] Any);
  BeginSave (sql_op 12 [fresh 4 "p-1"] Any);
  LockStream 1; LockStream 2; ReadVersion 1; ReadVersion 2; LockAppend 2; InsertRow 2; FailSave 2 (New "connection lost");
  LockAppend 1; InsertRow 1; CommitSave 1 None;
  LockStream 0; ReadVersion 0; LockAppend 0; InsertRow 0; InsertRow 0; CommitSave 0 None].

Definition pg_exec (acts : list pg_action) (s : pg) : option pg :=
  foldl (λ s a, s ≫= pg_step first_byte id a) (Some s) acts.

Lemma pg_exec_runs acts s s' : Forall (begins_ok sample_registry) acts → pg_exec acts s = Some s' →
  pg_runs first_byte id sample_registry s s'.
Proof.
  revert s'. induction acts as [|a acts IH] using rev_ind; intros s' Hok.
  - intros [= <-]. constructor.
  - apply Forall_app in Hok as [Hok Ha]. inversion_clear Ha as [|? ? Ha' _]. unfold pg_exec. rewrite foldl_app. cbn [foldl].
    destruct (foldl _ _ acts) as [s0|] eqn:Hs0; [|done]. cbn [mbind option_bind]. intros Hx.
    eapply pg_move; [by apply IH|exact Ha'|exact Hx].
Qed.

Lemma pg_actions_ok : Forall (begins_ok sample_registry) pg_actions.
Proof.
  repeat (apply Forall_cons_2; [first [exact I | apply sql_op_ok]|]). apply Forall_nil_2.
Qed.

Definition half_done : option pg := pg_exec (take 13 pg_actions) empty_pg.
Definition all_saved : option pg := pg_exec pg_actions empty_pg.

Lemma all_saved_runs s : all_saved = Some s → pg_runs first_byte id sample_registry empty_pg s.
Proof. unfold all_saved. apply pg_exec_runs, pg_actions_ok. Qed.

Lemma concurrent_saves_are_serial_witness :
  ∃ s, all_saved = Some s ∧ pg_commits s = [1%nat; 0%nat] ∧ row_id <$> pg_rows s = [2; 3; 4] ∧
    ∃ h l, serial id h l ∧ length h = 2%nat.
Proof.
  assert ((λ s, (pg_commits s, row_id <$> pg_rows s)) <$> all_saved = Some ([1%nat; 0%nat], [2; 3; 4])) as H
    by (vm_compute; reflexivity).
  destruct all_saved as [s|] eqn:Hs; [|discriminate H]. injection H as H1 H2. exists s. split_and!; [done..|].
  destruct (concurrent_saves_are_serial first_byte id sample_registry s (all_saved_runs s Hs)) as (h & l & Hser & _ & _ & Hops & _).
  exists h, l. split; [done|]. apply Forall2_length in Hops. by rewrite <- Hops, H1.
Defined.

Lemma half_done_runs s : half_done = Some s → pg_runs first_byte id sample_registry empty_pg s.
Proof. unfold half_done. apply pg_exec_runs, (Forall_take _ 13), pg_actions_ok. Qed.

Lemma rest_runs s s' : half_done = Some s → all_saved = Some s' → pg_runs first_byte id sample_registry s s'.
Proof.
  intros Hs Hs'. apply (pg_exec_runs (drop 13 pg_actions)); [apply (Forall_drop _ 13), pg_actions_ok|].
  unfold all_saved, half_done, pg_exec in *. rewrite <- (take_drop 13 pg_actions), foldl_app, Hs in Hs'. exact Hs'.
Qed.

Lemma positions_appear_in_order_witness :
  ∃ s s', half_done = Some s ∧ all_saved = Some s' ∧ row_id <$> pg_rows s = [2] ∧
    ∃ l res, pg_ReadAll id None None sample_registry 0 (mkReadOptions 0 [] []) s s' = Ok res ∧
      page_of l 0 (mkReadOptions 0 [] []) res.
Proof.
  assert ((λ s, row_id <$> pg_rows s) <$> half_done = Some [2]) as H by (vm_compute; reflexivity).
  assert ((λ s, length (pg_rows s)) <$> all_saved = Some 3%nat) as H' by (vm_compute; reflexivity).
  destruct half_done as [s|] eqn:Hs; [|discriminate H]. destruct all_saved as [s'|] eqn:Hs'; [|discriminate H'].
  injection H as H. exists s, s'. split_and!; [done..|].
  destruct (positions_appear_in_order first_byte id sample_registry s s' 0 (mkReadOptions 0 [] [])
    (half_done_runs s Hs) (rest_runs s s' Hs Hs') ltac:(vm_compute; split; discriminate)) as (_ & l & _ & _ & (res & H1 & H2) & _).
  exists l, res. split; [exact H1|exact H2].
Defined.
