(* ===== verification/KurrentExamples.v ===== *)
(** * A server for the KurrentDB store

    A small server in memory that satisfies [KurrentLaws], which shows that
    they can hold, and runs of the store over it.  An append can fail with a
    transient error, before or after it was written. *)
From S2P Require Import Prelude Core Iter Registry Samples Context Log MemStore Backoff CommandHandler MemWorld KurrentClient Kurrent.
#[local] Open Scope Z_scope.

(** ** The server *)

Record Server : Type := mkServer {
  srv_log : records;
  srv_faults : list bool;   (* of the next appends: whether each was written before it failed *)
}.

Definition unavailable : error := New "unavailable".
Definition wrong_expected_version : error := New "wrong expected version".
Definition stream_not_found : error := New "stream not found".

Definition srv_code (e : error) : option ErrorCode :=
  match e with
  | New text =>
    if bool_decide (text = "wrong expected version") then Some ErrorCodeWrongExpectedVersion
    else if bool_decide (text = "stream not found") then Some ErrorCodeResourceNotFound
    else None
  | _ => None
  end.

Definition srv_status (e : error) : option Code :=
  match e with New text => if bool_decide (text = "unavailable") then Some Unavailable else None | _ => None end.

(** The record of an event appended to the log. *)
Definition srv_record (id : string) (ed : EventData) (rs : records) : RecordedEvent :=
  mkRecordedEvent (ed_EventID ed) (ed_EventType ed) id (zlen (kstream id rs)) (2 * (zlen rs + 1)) 7 (ed_Data ed) (ed_Metadata ed).

Fixpoint srv_append (id : string) (eds : list EventData) (rs : records) : records :=
  match eds with
  | [] => rs
  | ed :: eds => srv_append id eds (rs ++ [srv_record id ed rs])
  end.

(** The server takes the events its clients can decode. *)
Definition srv_takes (id : string) (ed : EventData) : bool :=
  String.prefix "$" id || String.prefix "$" (ed_EventType ed) ||
  match DecodeEvent (ed_EventType ed) (ed_Data ed) sample_registry with
  | Ok ev => bool_decide (ev_EventType ev = ed_EventType ed)
  | Fail _ => false
  end.

Definition srv_AppendToStream (id : string) (st : KStreamState) (eds : list EventData) (w : Server) :
    result error WriteResult * Server :=
  let rs := srv_log w in
  if negb (forallb (srv_takes id) eds) || (max_int64 <=? zlen rs + zlen eds) then (Fail (New "refused"), w)
  else if negb (kexpectation st (zlen (kstream id rs))) then (Fail wrong_expected_version, w)
  else
    let rs' := srv_append id eds rs in
    match srv_faults w with
    | written :: faults => (Fail unavailable, mkServer (if (written : bool) then rs' else rs) faults)
    | [] => (Ok (mkWriteResult (zlen (kstream id rs) + zlen eds - 1) (2 * zlen rs')), mkServer rs' [])
    end.

(** A streamer is what it has left to deliver, and what it ends with. *)
Definition srv_streamer : Type := records * error.

Definition srv_Recv (s : srv_streamer) : result error ResolvedEvent * srv_streamer :=
  match s with
  | ([], e) => (Fail e, s)
  | (r :: rs, e) => (Ok (mkResolvedEvent r None), (rs, e))
  end.

Definition at_most {A} (count : Z) (l : list A) : list A := if zlen l <=? count then l else take (Z.to_nat count) l.

Definition srv_ReadStream (id : string) (d : Direction) (from : KPosition Z) (resolve : bool) (count : Z) (w : Server) :
    result error srv_streamer * Server :=
  let rs := kstream id (srv_log w) in
  match rs with
  | [] => (Ok ([], stream_not_found), w)
  | _ =>
    let window := match d, from with
                  | Forwards, Start => rs
                  | Forwards, At n => drop (Z.to_nat n) rs
                  | Forwards, End_ => []
                  | Backwards, End_ => reverse rs
                  | Backwards, At n => reverse (take (S (Z.to_nat n)) rs)
                  | Backwards, Start => []
                  end in
    (Ok (at_most count window, Sentinel io_EOF), w)
  end.

Definition srv_ReadAll (d : Direction) (from : KPosition Position) (count : Z) (w : Server) :
    result error srv_streamer * Server :=
  let rs := srv_log w in
  let window := match d, from with
                | Forwards, Start => rs
                | Forwards, At p => bfilter (λ r, pos_Commit p <=? re_Commit r) rs
                | Forwards, End_ => []
                | Backwards, End_ => reverse rs
                | Backwards, At p => reverse (bfilter (λ r, re_Commit r <? pos_Commit p) rs)
                | Backwards, Start => []
                end in
  (Ok (at_most count window, Sentinel io_EOF), w).

#[export] Instance server_client : KurrentClient Server := {
  Streamer := srv_streamer;
  AppendToStream := srv_AppendToStream;
  ReadStream := srv_ReadStream;
  client_ReadAll := srv_ReadAll;
  Recv := srv_Recv;
  streamer_Close _ w := w;
  OriginalEvent k := default (rse_Event k) (rse_Link k);
  client_Close w := (None, w);
  ctx_Err_at _ := None;
  kurrent_Error := srv_code;
  grpc_FromError := srv_status;
}.

(** ** It satisfies the laws *)
Record srv_ok (rs : records) : Prop := {
  ok_commit i r : rs !! i = Some r → re_Commit r = 2 * (Z.of_nat i + 1);
  ok_numbers id i r : kstream id rs !! i = Some r → re_EventNumber r = Z.of_nat i;
  ok_room : zlen rs < max_int64;
  ok_decodes r : r ∈ rs → isSystemRecord r = false → ∃ env, decoded sample_registry r env;
}.

Definition srv_serves (w : Server) (rs : records) : Prop := srv_log w = rs ∧ srv_ok rs.

Lemma sorted_by_index {A} (key : A → Z) (f : nat → Z) l : (∀ i x, l !! i = Some x → key x = f i) → (∀ i j, (i < j)%nat → f i < f j) →
  StronglySorted (λ a b, key a < key b) l.
Proof.
  intros Hk Hf. induction l as [|x l IH] using rev_ind; [constructor|]. apply StronglySorted_app. split_and!; [|apply IH|repeat constructor].
  - intros a b [i Hi]%list_elem_of_lookup ->%list_elem_of_singleton.
    rewrite (Hk i a) by (by apply lookup_app_l_Some). rewrite (Hk (length l) x) by (apply lookup_snoc_Some; by right).
    apply Hf. by eapply lookup_lt_Some.
  - intros i y Hi. apply Hk. by apply lookup_app_l_Some.
Qed.

Lemma srv_ok_log rs : srv_ok rs → server_log rs.
Proof.
  intros [Hc Hn Hr _]. split; [|intros r [i Hi]%list_elem_of_lookup|done|done].
  - apply (sorted_by_index _ (λ i, 2 * (Z.of_nat i + 1)) _ Hc). lia.
  - rewrite (Hc _ _ Hi). apply lookup_lt_Some in Hi. unfold zlen, max_int64, two64 in *. lia.
Qed.

Lemma srv_ok_snoc id ed rs : srv_ok rs → srv_takes id ed = true → zlen rs + 1 < max_int64 → srv_ok (rs ++ [srv_record id ed rs]).
Proof.
  intros [Hc Hn Hr Hd] Ht Hroom. split.
  - intros i r [[_ Hi]|[-> <-]]%lookup_snoc_Some; [by apply Hc|]. cbn. unfold zlen. lia.
  - intros id' i r. rewrite kstream_app. cbn. unfold in_kstream at 1. cbn. case_bool_decide as Hid; [|rewrite app_nil_r; apply Hn].
    intros [[_ Hi]|[-> <-]]%lookup_snoc_Some; [by eapply Hn|]. subst. cbn. done.
  - rewrite zlen_app, zlen_cons, zlen_nil. lia.
  - intros r [Hr'| ->%list_elem_of_singleton]%elem_of_app; [by apply Hd|]. unfold isSystemRecord, srv_takes in *. cbn.
    intros Hsys. rewrite Hsys in Ht. cbn in Ht. unfold decoded, toEnvelope. cbn [re_EventType re_Data srv_record].
    destruct (DecodeEvent (ed_EventType ed) (ed_Data ed) sample_registry) as [ev|]; [|done]. apply bool_decide_eq_true in Ht.
    eexists. split; [reflexivity|]. done.
Qed.

Lemma srv_append_spec id eds rs : srv_ok rs → forallb (srv_takes id) eds = true → zlen rs + zlen eds < max_int64 →
  srv_ok (srv_append id eds rs) ∧ ∃ new, srv_append id eds rs = rs ++ new ∧ Forall2 (records_event id) eds new.
Proof.
  revert rs. induction eds as [|ed eds IH]; intros rs Hok Ht Hroom; cbn [srv_append].
  { split; [done|]. exists []. by rewrite app_nil_r. }
  cbn [forallb] in Ht. apply andb_true_iff in Ht as [Ht Hts]. rewrite zlen_cons in Hroom. pose proof (zlen_nonneg eds).
  destruct (IH (rs ++ [srv_record id ed rs])) as (Hok' & new & Hnew & HF); [apply srv_ok_snoc; [done..|lia]|done|rewrite zlen_app, zlen_cons, zlen_nil; lia|].
  split; [done|]. exists (srv_record id ed rs :: new). rewrite Hnew, <- app_assoc. split; [done|]. by constructor.
Qed.

Lemma srv_delivers rs e : Delivers (rs, e) rs e.
Proof. induction rs as [|r rs IH]; [by eapply delivers_end|]. by eapply delivers_event. Qed.

Lemma at_most_all {A} count (l : list A) : zlen l ≤ count → at_most count l = l.
Proof. unfold at_most. intros H. destruct (Z.leb_spec (zlen l) count); [done|lia]. Qed.

Lemma srv_reads count rs : zlen rs ≤ count → reads rs (at_most count rs, Sentinel io_EOF).
Proof. intros H. rewrite at_most_all by done. exists rs, (Sentinel io_EOF). split; [apply srv_delivers|done]. Qed.

#[export] Instance server_laws : KurrentLaws server_client srv_serves.
Proof.
  split.
  - intros w rs [_ Hok]. by apply srv_ok_log.
  - intros e c H. destruct e; try done. by eexists.
  - intros w e H. done.
  - done.
  - intros id st eds w res w' rs [<- Hok] Hne. cbn [AppendToStream server_client]. unfold srv_AppendToStream.
    destruct (forallb (srv_takes id) eds) eqn:Ht; cbn [negb orb].
    2: { intros ?; simplify_eq. exists (srv_log w'). split_and!; [done|done|done|]. intros [Hx|Hx]; done. }
    destruct (Z.leb_spec max_int64 (zlen (srv_log w) + zlen eds)) as [|Hroom].
    { intros ?; simplify_eq. exists (srv_log w'). split_and!; [done|done|done|]. intros [Hx|Hx]; done. }
    destruct (srv_append_spec id eds (srv_log w) Hok Ht Hroom) as (Hok' & new & Hnew & HF).
    destruct (kexpectation st _) eqn:Hx; cbn [negb].
    + destruct (srv_faults w) as [|written faults]; intros ?; simplify_eq.
      * exists (srv_append id eds (srv_log w)). split_and!; [rewrite Hnew; by eexists|done|]. exists (srv_log w), new. by rewrite <- Hnew.
      * exists (if written then srv_append id eds (srv_log w) else srv_log w).
        split_and!; [destruct written; [rewrite Hnew; by eexists|done]|by destruct written|done|]. intros [Hy|Hy]; done.
    + intros ?; simplify_eq. exists (srv_log w'). split_and!; [done|done|done|]. intros _. by exists (srv_log w').
  - intros id from n resolve count w res w' rs [<- Hok]. cbn [ReadStream server_client]. unfold srv_ReadStream. intros HR Hfrom.
    exists (srv_log w), (srv_log w). destruct (kstream id (srv_log w)) as [|r k] eqn:Hk; injection HR as <- <-;
      (split_and!; [done|done|done|]); intros _ Hc.
    + left. by exists stream_not_found, ([], stream_not_found).
    + right. assert (match from with Start => r :: k | End_ => [] | At n => drop (Z.to_nat n) (r :: k) end = drop (Z.to_nat n) (r :: k)) as ->
        by (destruct Hfrom as [[-> ->]|[-> _]]; [by rewrite drop_0|done]).
      exists (drop (Z.to_nat n) (r :: k)), (Sentinel io_EOF). rewrite at_most_all; [split_and!; [apply srv_delivers|done|done|done]|].
      unfold zlen in *. rewrite length_drop. lia.
  - intros id count w res w' rs [<- Hok] HR Hc. cbn [ReadStream server_client] in HR. unfold srv_ReadStream in HR.
    exists (srv_log w), (srv_log w). destruct (kstream id (srv_log w)) as [|r k] eqn:Hk; injection HR as <- <-;
      (split_and!; [done|done|done|]); [done|]. cbn [Recv server_client].
    assert (reverse (r :: k) ≠ []) as Hne by (intros H%(f_equal length); rewrite length_reverse in H; done).
    rewrite <- head_reverse. destruct (reverse (r :: k)) as [|x k']; [done|]. unfold at_most.
    destruct (_ <=? _); [by eexists|]. destruct (Z.to_nat count) eqn:Hn; [lia|]. by eexists.
  - intros from p count w res w' rs [<- Hok] HR Hfrom. cbn [client_ReadAll server_client] in HR. unfold srv_ReadAll in HR. injection HR as <- <-.
    exists (srv_log w), (srv_log w). split_and!; [done|done|done|]. intros Hc.
    assert (match from with Start => srv_log w | End_ => [] | At p => bfilter (λ r, pos_Commit p <=? re_Commit r) (srv_log w) end
      = bfilter (λ r, p <=? re_Commit r) (srv_log w)) as ->.
    { destruct Hfrom as [[-> ->]| ->]; [|done]. symmetry. apply bfilter_all, Forall_forall. intros r Hr.
      apply (sl_positive _ (srv_ok_log _ Hok)) in Hr. apply Z.leb_le. lia. }
    apply srv_reads. pose proof (bfilter_length (λ r, p <=? re_Commit r) (srv_log w)). unfold zlen in *. lia.
  - intros count w res w' rs [<- Hok] HR. cbn [client_ReadAll server_client] in HR. unfold srv_ReadAll in HR. injection HR as <- <-.
    exists (srv_log w), (srv_log w). split_and!; [done|done|done|]. intros Hc. apply srv_reads. unfold zlen in *. by rewrite length_reverse.
  - intros s w rs Hs. by exists rs.
Qed.

(** ** Runs *)
Definition k_event (n : uuid) (id : string) : Envelope :=
  mkEnvelope n id (Some {["tenant" := AnyString "t1"; "$causationId" := AnyString "forged"]}) "c-1" "" (Some (order_placed id "")) 0 0 0.

Definition k_retries : @BackOff sampleBackoff := 3%nat.

(** Two appends fail before anything is written. *)
Definition k_flaky : Server := mkServer [] [false; false].

Lemma k_empty_ok : srv_ok [].
Proof. split; [by intros i r|by intros id i r|done|by intros r ?%not_elem_of_nil]. Qed.

(** A log with an event between records of the server's own. *)
Definition k_system (n : Z) : RecordedEvent := mkRecordedEvent n "$metadata" "$$o-1" 0 (2 * n) 0 "" "".
Definition k_placed : RecordedEvent :=
  mkRecordedEvent 2 "OrderPlaced" "o-1" 0 4 5 (put_all ["o-1"; "OrderPlaced"; ""]) "".
Definition k_log : records := [k_system 1; k_placed].
Definition k_server : Server := mkServer k_log [].

Lemma k_log_ok : srv_ok k_log.
Proof.
  split.
  - intros [|[|i]] r; cbn; [intros [= <-]|intros [= <-]|]; done.
  - intros id i r. unfold k_log, kstream, in_kstream. cbn [bfilter re_StreamID k_system k_placed].
    destruct (bool_decide_reflect ("$$o-1" = id)) as [<-|_]; [by destruct i as [|i]; [intros [= <-]|]|].
    case_bool_decide; [|done]. by destruct i as [|i]; [intros [= <-]|].
  - done.
  - intros r [->|[->|?%not_elem_of_nil]%elem_of_cons]%elem_of_cons; [done| |done]. intros _. eexists. split; vm_compute; reflexivity.
Qed.

Lemma k_decodes w rs r : srv_serves w rs → r ∈ rs → isSystemRecord r = false → ∃ env, decoded sample_registry r env.
Proof. intros [_ Hok]. apply Hok. Qed.

Lemma kurrent_Save_keeps_the_contract_witness :
  srv_serves k_flaky [] ∧
  match kurrent_Save k_retries ∅ sample_registry [k_event 1 "o-1"; k_event 2 "o-1"] NoStream k_flaky with
  | Returns (res, None, w) => Successful res = true ∧ NextExpectedVersion res = 2 ∧ length (srv_log w) = 2%nat
  | _ => False
  end ∧
  ∃ res err w' rs', kurrent_Save k_retries ∅ sample_registry [k_event 1 "o-1"; k_event 2 "o-1"] NoStream k_flaky
    = Returns (res, err, w') ∧ srv_serves w' rs' ∧
    kurrent_save_answer sample_registry [k_event 1 "o-1"; k_event 2 "o-1"] NoStream [] rs' res err.
Proof.
  assert (srv_serves k_flaky []) as Hs by (split; [done|exact k_empty_ok]).
  split; [exact Hs|]. split; [vm_compute; done|].
  destruct (kurrent_Save_keeps_the_contract k_retries ∅ sample_registry [k_event 1 "o-1"; k_event 2 "o-1"] NoStream
    k_flaky [] Hs sample_registry_wf I) as (res & err & w' & rs' & H1 & _ & H2 & H3).
  by exists res, err, w', rs'.
Defined.

Lemma kurrent_load_reads_the_stream_witness :
  srv_serves k_server k_log ∧
  ∃ r w' at_ rs', kurrent_LoadStreamFrom sample_registry "o-1" (Revision 0) k_server = Returns (r, w') ∧
    k_log `prefix_of` at_ ∧ at_ `prefix_of` rs' ∧
    match r with
    | Fail e => ∃ e0, e = map_err "load stream" e0
    | Ok it => ∀ envs fuel, (∀ x, x ∈ kstream "o-1" rs' → re_EventType x ≠ link_type) →
        Forall2 (decoded sample_registry) (kstream "o-1" at_) envs → zlen rs' < Z.of_nat fuel →
        ∃ evs err it' s', All fuel None it = Some (evs, err, it') ∧ it_state it' = (s', streamer_Close s' w') ∧
          load_ends (Revision 0) envs evs err
    end.
Proof.
  assert (srv_serves k_server k_log) as Hs by (split; [done|exact k_log_ok]). split; [exact Hs|].
  destruct (kurrent_load_reads_the_stream sample_registry "o-1" (Revision 0) k_server k_log Hs ltac:(split; done))
    as (r & w' & at_ & rs' & H1 & H2 & H3 & _ & H4).
  by exists r, w', at_, rs'.
Defined.

Lemma kurrent_page_is_complete_witness :
  srv_serves k_server k_log ∧
  kurrent_ReadAll 9 sample_registry 0 (mkReadOptions 1 [] ["o-"]) k_server
    = Some (Ok (mkReadResult [mkEnvelope 2 "o-1" (Some ∅) "" "" (Some (order_placed "o-1" "")) 1 4 5] 4 true), k_server) ∧
  ∃ at_ rs' w' res, k_log `prefix_of` at_ ∧ at_ `prefix_of` rs' ∧
    (∀ fuel, zlen rs' < Z.of_nat fuel → kurrent_ReadAll fuel sample_registry 0 (mkReadOptions 1 [] ["o-"]) k_server = Some (res, w')) ∧
    match res with
    | Fail e => ∃ e0, e = map_err "read all" e0
    | Ok page => ∀ envs, Forall2 (decoded sample_registry) (app_records at_) envs → kurrent_page at_ envs 0 (mkReadOptions 1 [] ["o-"]) page
    end.
Proof.
  assert (srv_serves k_server k_log) as Hs by (split; [done|exact k_log_ok]). split; [exact Hs|]. split; [vm_compute; reflexivity|].
  destruct (kurrent_page_is_complete sample_registry 0 (mkReadOptions 1 [] ["o-"]) k_server k_log Hs ltac:(lia) k_decodes)
    as (at_ & rs' & w' & res & H1 & H2 & _ & H3 & H4). by exists at_, rs', w', res.
Defined.

Lemma kurrent_pages_read_everything_witness :
  let all := mkReadOptions 1 [] [] in
  ∃ evs, zlen evs = 1 ∧ pages_read sample_registry all 0 k_server evs k_server ∧
    ∃ at_ rs', k_log `prefix_of` at_ ∧ at_ `prefix_of` rs' ∧
    ∀ envs, Forall2 (decoded sample_registry) (app_records at_) envs →
      evs = bfilter (λ env, (0 <? GlobalPosition env) && env_matches all env) envs.
Proof.
  intros all.
  assert (kurrent_ReadAll 9 sample_registry 0 all k_server
    = Some (Ok (mkReadResult [mkEnvelope 2 "o-1" (Some ∅) "" "" (Some (order_placed "o-1" "")) 1 4 5] 4 true), k_server)) as HR
    by (vm_compute; reflexivity).
  assert (srv_serves k_server k_log) as Hs by (split; [done|exact k_log_ok]).
  pose proof (pages_last sample_registry all 9 0 k_server _ k_server HR eq_refl) as HP.
  eexists. split; [|split; [exact HP|]]; [reflexivity|].
  destruct (kurrent_pages_read_everything sample_registry all 0 k_server _ k_server HP k_log Hs ltac:(lia) k_decodes)
    as (at_ & rs' & H1 & H2 & _ & H3). by exists at_, rs'.
Defined.

(** The newest event is followed by a record of the server. *)
Example head_skips_system_records :
  let w := mkServer (k_log ++ [k_system 3]) [] in kurrent_Head 9 w = Some (Ok 4, w).
Proof. vm_compute. reflexivity. Qed.
