(* ===== verification/SqlProjExamples.v ===== *)
(** * Runs of the SQL projection stores

    Concrete histories in which the hypotheses of [ProjAgree] hold. *)
From S2P Require Import Prelude Core ProjStore MemProjStore Effect SqlTx SqlValues SqlProjection SqliteProjStore ProjSim ProjAgree PgProjStore PgUnits.

#[local] Instance example_clock : Clock := {| base := 1000; base_nonneg := ltac:(lia) |}.

Definition lease_a (epoch : Z) : Lease := mkLease "orders" 0 "a" epoch.
Definition lease_b (epoch : Z) : Lease := mkLease "orders" 0 "b" epoch.
Definition a_letter : DeadLetter := mkDeadLetter 7 "order-1" "Placed" "no stock".
Definition a_status (phase : Phase) : Status := mkStatus phase 9 12 1 "late" "" 0 0 0 0 false.

(** Instance a claims, dead-letters an event and stops; b takes the segment
    over when a's claim has lapsed, replays the stream and rebuilds; a comes
    back and finds its claim lost. *)
Definition example_history : list (Z * proj_call) :=
  [ (1000, PDeclare "orders" 2 5);
    (1000, PDeclare "orders" 3 5);
    (1001, PClaim (lease_a 0) 50);
    (1002, PHeartbeat "orders" "a" 1 100);
    (1010, PCommit (lease_a 1) (mkCheckpoint 9 1 5 "fp") (a_status CatchingUp) [ESave a_letter]);
    (1020, PClaim (lease_b 0) 50);
    (1030, PLoadStatuses "orders");
    (1040, PLoadDeadLetters "orders" 0);
    (1041, PRequestReplay "orders" "order-1");
    (1041, PPendingReplays "orders");
    (1061, PClaim (lease_b 0) 70);
    (1062, PHeartbeat "orders" "b" 1 100);
    (1063, PSaveStatus (lease_a 1) (a_status Live));
    (1064, PCommit (lease_b 2) (mkCheckpoint 9 1 5 "fp") (a_status Live) [EDelete 7]);
    (1065, PFinishReplay (lease_b 2) 1 "");
    (1066, PReplayResult "orders" 1);
    (1067, PRequestRebuild "orders");
    (1068, PFailRebuild (lease_b 2) 1 "wipe failed");
    (1069, PRebuildFailure "orders");
    (1070, PReset (lease_b 2) 2);
    (1071, PRebuilds "orders");
    (1072, PLoadInstances "orders");
    (1073, PCommit (lease_a 1) (mkCheckpoint 11 1 5 "fp") (a_status Live) [ESave a_letter]);
    (1074, PRelease (lease_b 2));
    (1075, PLoadStatuses "orders") ].

Ltac run_history :=
  repeat match goal with
  | |- True => exact I
  | |- _ ∧ _ => split
  | |- history_ok _ _ _ => cbn [history_ok call_ok]
  | |- small _ => unfold small
  | |- is_u64 _ => unfold is_u64
  | |- ∀ n : Z, _ ≠ _ => intros; discriminate
  | |- ∀ r, owned _ _ = Some r → _ => let H := fresh in intros ? H; vm_compute in H; simplify_eq
  | |- ∀ p, projections _ !! _ = Some p → _ => let H := fresh in intros ? H; vm_compute in H; simplify_eq
  | |- edits_ok _ _ => cbn; repeat constructor
  | |- _ ≠ _ => discriminate
  | |- _ => vm_compute; congruence
  end.

Lemma example_history_ok : history_ok base example_history NewProjectionStore.
Proof. unfold example_history. run_history. Qed.

(** The answers of the two stores along that history *)
Lemma sqlite_projection_store_refines_memory_witness :
  history_ok base example_history NewProjectionStore ∧ zlen example_history = 25 ∧
  Forall2 same_answer (answers sqlite_call example_history (empty_tables, ())) (answers memory_call example_history NewProjectionStore).
Proof.
  split; [exact example_history_ok|]. split; [reflexivity|].
  apply sqlite_projection_store_refines_memory; [vm_compute; reflexivity|exact example_history_ok].
Defined.

(** ** Two Declares of one projection over PostgreSQL *)
Lemma concurrent_declares_disagree_witness :
  ∃ t1 t2,
    declare_rest (instant 5) "orders" 2 0 0 (0%nat, (empty_tables, ())) = (Ok (), (1%nat, (t1, ()))) ∧
    declare_rest (instant 5) "orders" 3 0 0 (0%nat, (t1, ())) = (Ok (), (1%nat, (t2, ()))).
Proof.
  destruct (concurrent_declares_disagree (instant 5) "orders" 2 3 0 empty_tables () 0) as (t1 & t2 & _ & H1 & H2 & _);
    [done|lia|reflexivity|]. by exists t1, t2.
Defined.

(** ** Units over PostgreSQL, side by side

    Segment 0 is claimed by [a]; b takes it over while a's commit is under
    way, and resets; the answer to b's commit is lost. *)
Definition two_segments : proj_tables :=
  with_segments
    (<[("orders", 0) := mkSegmentRow 0 0 0 "" "live" 0 None (Some "a") 1 0 50]>
     (<[("orders", 1) := default_segment 0 0]> ∅)) empty_tables.

Definition unit_actions : list (pg_action (Wr := string)) :=
  [ BeginUnit (QCommit (lease_a 1) (mkCheckpoint 9 1 5 "fp") (a_status Live));
    LockUnit 0; WriteUnit 0 "view";
    BeginUnit (QClaim (lease_b 0) 50000000);
    UpdateUnit 0 60000;
    CommitUnit 0 None;
    ExecUnit 1 1000000;
    BeginUnit (QSaveStatus (lease_a 1) (a_status Live));
    ExecUnit 2 1000001;
    BeginUnit (QReset (lease_b 2) 2);
    LockUnit 3; LockUnit 3; LockUnit 3; WriteUnit 3 "wiped";
    BeginUnit (QCommit (lease_b 2) (mkCheckpoint 11 1 5 "fp") (a_status Live));
    UpdateUnit 3 1000002;
    CommitUnit 3 (Some (New "connection lost")) ].

Fixpoint pg_steps {Wr} (acts : list pg_action) (s : pg_units (Wr := Wr)) : option pg_units :=
  match acts with
  | [] => Some s
  | a :: acts => match pu_step a s with Some s => pg_steps acts s | None => None end
  end.

Lemma pg_steps_run {Wr} acts (s s' : pg_units (Wr := Wr)) : pg_steps acts s = Some s' → rtc pu_run s s'.
Proof.
  revert s. induction acts as [|a acts IH]; intros s; cbn; [by intros [= ->]|].
  destruct (pu_step a s) as [s1|] eqn:Ha; [|done]. intros H. eapply rtc_l; [by exists a|by apply IH].
Qed.

Definition units_run : option pg_units := Eval vm_compute in pg_steps unit_actions (pg_start two_segments).

(** While a's commit is under way the claim waits; a's late status is
    refused, and b's last commit waits for its reset. *)
Example claim_waits : (s ← pg_steps (take 4 unit_actions) (pg_start two_segments); pu_step (ExecUnit 1 1000000) s) = None.
Proof. vm_compute. reflexivity. Qed.
Example commit_waits_for_reset : (s ← pg_steps (take 16 unit_actions) (pg_start two_segments); pu_step (LockUnit 4) s) = None.
Proof. vm_compute. reflexivity. Qed.

Definition units_end : pg_units := Eval vm_compute in match units_run with Some s => s | None => pg_start empty_tables end.

Lemma units_end_reached : rtc pu_run (pg_start two_segments) units_end.
Proof. apply (pg_steps_run unit_actions). vm_compute. reflexivity. Qed.

Lemma pg_units_are_serial_witness :
  pu_log units_end = ["view"; "wiped"] ∧ zlen (pu_hist units_end) = 4 ∧
  (∃ t', replay (pu_hist units_end) (two_segments, []) = (en_answer <$> pu_hist units_end, (t', ["view"; "wiped"])) ∧
     t_segments t' = t_segments (pu_tables units_end)).
Proof.
  split; [reflexivity|]. split; [reflexivity|]. apply (pg_units_are_serial two_segments units_end units_end_reached).
Defined.

Lemma running_unit_keeps_its_claim_witness :
  ∃ s u, pg_steps (take 3 unit_actions) (pg_start two_segments) = Some s ∧ pu_txs s !! 0%nat = Some u ∧
    owned_by (ut_call u) (pu_tables s).
Proof.
  destruct (pg_steps (take 3 unit_actions) (pg_start two_segments)) as [s|] eqn:Hs; [|vm_compute in Hs; discriminate].
  pose proof (pg_steps_run _ _ _ Hs) as Hrun.
  assert (∃ u, pu_txs s !! 0%nat = Some u ∧ is_owned u = true) as (u & Hu & Ho) by (vm_compute in Hs; injection Hs as <-; eexists; split; reflexivity).
  exists s, u. split; [done|]. split; [done|]. by apply (running_unit_keeps_its_claim _ s 0%nat u Hrun Hu Ho).
Defined.

Lemma pg_units_can_finish_witness :
  existsb (negb ∘ is_over) (pu_txs units_end) = true ∧
  ∃ s', rtc pu_forward units_end s' ∧ ∀ i u, pu_txs s' !! i = Some u → is_over u = true.
Proof. split; [reflexivity|]. apply (pg_units_can_finish two_segments), units_end_reached. Defined.
