(* ===== verification/SqlAutoExamples.v ===== *)
(** * Runs of the SQL automation stores

    Concrete histories in which the hypotheses of [AutoAgree], [PgAutoAgree]
    and [PgLeases] hold. *)
From S2P Require Import Prelude Core AutoTypes AutoStore Effect SqlTx SqlValues SqlAutomation SqliteAutoStore AutoSim AutoAgree PgAutoStore PgAutoAgree PgLeases.

#[local] Instance auto_clock : Clock := {| base := 1000; base_nonneg := ltac:(lia) |}.

Definition seg (key group : string) : Candidate := mkCandidate key group.
Definition lease_of (key owner : string) (epoch : Z) : SegmentLease := mkSegmentLease "billing" key owner epoch.
Definition working (owner : string) : Status := mkStatus owner Working "" 3 1 0 "card declined" 0.

(** Two instances share four segments of two tenants: a takes the first of
    each, b the rest; a's lease of one lapses and b takes it over, and a finds
    it lost; a deferred segment is passed over until its pause ends. *)
Definition auto_example : list (Z * auto_call) :=
  [ (1000, AAcquire "billing" "a" [seg "k1" "t1"; seg "k2" "t1"; seg "k3" "t2"; seg "k1" "t1"; seg "k4" "t2"] 2 50);
    (1001, AAcquire "billing" "b" [seg "k4" ""; seg "k3" ""; seg "k2" ""; seg "k1" ""] 5 90);
    (1002, ASaveStatus "billing" (working "a") 100);
    (1003, ASaveStatus "billing" (working "b") 20);
    (1004, ALoadStatuses "billing");
    (1030, ARenew [lease_of "k1" "a" 1; lease_of "k9" "a" 1] 50);
    (1040, ALoadStatuses "billing");
    (1055, AAcquire "billing" "b" [seg "k1" ""; seg "k3" ""] 5 90);
    (1056, ARenew [lease_of "k3" "a" 1; lease_of "k1" "a" 1] 50);
    (1057, ARelease [(lease_of "k1" "a" 1, 30, true); (lease_of "k3" "a" 1, 0, true)]);
    (1057, ARelease [(lease_of "k3" "b" 2, 0, true)]);
    (1058, ADeferredFor "billing" "k1");
    (1059, ADefer "billing" "k5" 40);
    (1060, ALoadSegments "billing");
    (1061, ASetPaused "billing" true);
    (1062, APaused "billing");
    (1090, AAcquire "billing" "a" [seg "k3" ""; seg "k1" ""; seg "k5" "t3"] 1 50);
    (1100, AAcquire "billing" "a" [seg "k3" ""; seg "k1" ""; seg "k5" "t3"] 2 50);
    (1101, ALoadSegments "billing") ].

Lemma auto_example_ok : auto_history_ok id base auto_example.
Proof.
  unfold auto_example. repeat match goal with
  | |- True => exact I
  | |- _ ∧ _ => split
  | |- auto_history_ok _ _ _ => cbn [auto_history_ok auto_call_ok]
  | |- Forall _ _ => repeat constructor
  | |- is_u64 _ => unfold is_u64
  | |- _ => vm_compute; congruence
  end.
Qed.


Lemma pg_example_ok : Forall (λ x, pg_call_ok x.1 x.2) auto_example.
Proof.
  unfold auto_example. repeat first [exact I|apply Forall_nil_2|apply Forall_cons; split; cbn [pg_call_ok fst snd]|lia|
    apply (bool_decide_unpack _); vm_compute; exact I].
Qed.


(** ** Locks *)
Definition both_acquire : list lock_call :=
  [LAcquire "billing" [seg "k2" ""; seg "k1" ""]; LAcquire "billing" [seg "k1" ""; seg "k2" ""]; LDefer "billing" "k2"].

Definition half_way : list lock_tx :=
  [Locking [("billing", "k1")] [("billing", "k2")]; Locking [] [("billing", "k1"); ("billing", "k2")]; Locking [("billing", "k2")] []].

Lemma half_way_reached : rtc lock_run (lock_start <$> both_acquire) half_way.
Proof. eapply rtc_l; [exists 0%nat; vm_compute; reflexivity|]. eapply rtc_l; [exists 2%nat; vm_compute; reflexivity|]. constructor. Qed.

Lemma ordered_locks_never_deadlock_witness :
  lock_step 0 half_way = None ∧ ∃ txs', rtc lock_run half_way txs' ∧ ∀ x, x ∈ txs' → x = TxOver.
Proof. split; [reflexivity|]. apply (ordered_locks_never_deadlock both_acquire); [repeat constructor|exact half_way_reached]. Defined.

Lemma renew_and_acquire_can_deadlock_witness :
  let renew := LRenew [lease_of "k1" "a" 1; lease_of "k2" "a" 1] [("billing", "k2"); ("billing", "k1")] in
  ∃ txs, rtc lock_run (lock_start <$> [renew; LAcquire "billing" [seg "k1" ""; seg "k2" ""]]) txs ∧ ∀ i, lock_step i txs = None.
Proof.
  destruct (renew_and_acquire_can_deadlock "billing" "a" 1 "k1" "k2") as (_ & txs & Hrun & _ & Hstuck); [reflexivity|].
  exists txs. split; [exact Hrun|exact Hstuck].
Defined.
