(* ===== verification/DashExamples.v ===== *)
(** * The dashboard at concrete inputs *)
From S2P Require Import Prelude Core Iter Registry Samples Context Log MemStore Backoff MemWorld AutoTypes AutoStore ProjStore MemProjStore Runner DashEvents DashView DashAuto DashHub Dashboard DashWorld CommandExamples.
#[local] Open Scope Z_scope.

#[local] Instance sample_env : DashEnv memory_world := { dash_now := mw_now; dash_text _ := "error" }.
#[local] Instance sample_text : NetText := {
  ToLower s := s;
  ParseIP s := bool_decide (s = "127.0.0.1");
  url_Host s := if bool_decide (s = "http://127.0.0.1:8080") then Some "127.0.0.1:8080" else None;
}.
#[local] Existing Instance mem_correlations.

(** ** The events of two streams, two to a page *)
Definition sample_log : log := (log_saves sample_ops []).2.
Definition sample_events : EventStore := (run_saves sample_ops NewEventStore).2.

Lemma sample_reads opts : reads_log (GR := mem_reader sample_registry) opts sample_events sample_log 4.
Proof.
  destruct (run_saves_new sample_registry sample_ops (proj1 sample_ops_ok) (proj2 sample_ops_ok)) as (_ & Hrep & _).
  exact (mem_reads_log sample_registry _ _ opts Hrep ltac:(vm_compute; discriminate)).
Qed.

Lemma event_pages_list_the_log_witness :
  let opts := mkReadOptions 0 [] ["o-1"] in
  browse (GR := mem_reader sample_registry) sample_registry 5 5 sample_events 0 2 opts =
    Some (Ok (newEventView sample_registry <$> reverse (bfilter (λ env, (GlobalPosition env <=? back_end 4 0) && env_matches opts env) sample_log))) ∧
  (EventID <$> bfilter (λ env, (GlobalPosition env <=? back_end 4 0) && env_matches opts env) sample_log) = [1; 2; 5].
Proof.
  split; [|vm_compute; reflexivity].
  exact (event_pages_list_the_log (GR := mem_reader sample_registry) sample_registry (mkReadOptions 0 [] ["o-1"]) sample_events sample_log 4 2 0 5 5
    (sample_reads _) ltac:(vm_compute; lia) ltac:(unfold maxEventPage; lia) ltac:(lia) ltac:(lia)).
Defined.

(** ** A catching-up segment next to a live one *)
Definition live_status : Status := mkStatus Live 7 7 1 "" "a" 0 0 0 1000 false.
Definition late_status : Status := mkStatus CatchingUp 3 7 1 "" "b" 1 0 0 1000 false.

Lemma page_says_live_when_every_segment_is_witness :
  pv_State (view "orders" [live_status; late_status] 1000) ≠ stateLive ∧ pv_State (view "orders" [live_status; live_status] 1000) = stateLive.
Proof.
  split.
  - intros Hl. apply (page_says_live_when_every_segment_is "orders" [live_status; late_status] 1000 ltac:(discriminate)) in Hl.
    apply Forall_inv_tail, Forall_inv in Hl. destruct Hl as [Hl _]. discriminate Hl.
  - apply (page_says_live_when_every_segment_is "orders" [live_status; live_status] 1000 ltac:(discriminate)).
    repeat constructor.
Defined.

(** ** A hub with two pages *)
Definition hub_script : list action :=
  [Subscribe 0%nat 0%nat; Tick 0%nat 10; Subscribe 1%nat 1%nat; ReadDone 0%nat (Some "first") 20; Lock 0%nat [1%nat; 0%nat] 20; Publish 0%nat 20].

Fixpoint run_hub (interval : duration) (script : list action) (h : hub) : option hub :=
  match script with [] => Some h | a :: script => exec interval a h ≫= run_hub interval script end.

Lemma run_hub_reachable interval script : ∀ h h', reachable interval h → run_hub interval script h = Some h' → reachable interval h'.
Proof.
  induction script as [|a script IH]; intros h h' Hr; cbn; [by intros [= <-]|].
  intros (h1 & H1 & H2)%bind_Some. eapply IH; [by eapply reach_step|done].
Qed.

Definition sample_hub (n : nat) (script : list action) : hub := default newHub (run_hub 500 (take n script) newHub).
Definition finish_publish : list action := hub_script ++ [Publish 0%nat 21; Publish 0%nat 22; Receive 1%nat; Publish 0%nat 23; Publish 0%nat 24].

Lemma sample_hub_reachable n : (n ≤ 11)%nat → reachable 500 (sample_hub n finish_publish).
Proof.
  intros Hn. apply (run_hub_reachable 500 (take n finish_publish) newHub); [constructor|]. unfold sample_hub.
  do 12 (destruct n as [|n]; [vm_compute; reflexivity|]). lia.
Qed.

Lemma every_page_shows_the_latest_snapshot_witness :
  let h := sample_hub 11 finish_publish in
  hb_lock h = None ∧ hb_subs h !! 1%nat = Some (mkPage None (Some "first")) ∧ hb_subs h !! 0%nat = Some (mkPage (Some "first") None) ∧
  ∀ ch pg, hb_subs h !! ch = Some pg → holds_latest (Some "first") pg.
Proof.
  split_and!; [vm_compute; reflexivity..|].
  exact (proj1 (every_page_shows_the_latest_snapshot 500 _ (sample_hub_reachable 11 (le_n _))) (ltac:(vm_compute; reflexivity))).
Defined.

Lemma publishing_never_blocks_witness : ∃ n h', publish_steps 500 n 0%nat 30 (sample_hub 6 finish_publish) = Some h' ∧ hb_lock h' = None.
Proof.
  destruct (publishing_never_blocks 500 (sample_hub 6 finish_publish) 0%nat 30 (sample_hub_reachable 6 ltac:(lia))
    ltac:(vm_compute; reflexivity) ltac:(vm_compute; discriminate)) as (n & h' & _ & Hs & Hl).
  exists n, h'. by split.
Defined.

Definition spaced_script : list action := [Subscribe 0%nat 0%nat; Tick 0%nat 10; ReadDone 0%nat None 20; Poke; Nudged 0%nat 25; Tick 0%nat 510].
Definition spaced_hub : hub := default newHub (run_hub 500 spaced_script newHub).

Lemma reads_are_spaced_witness :
  (ru_starts <$> hb_runs spaced_hub !! 0%nat) = Some [510; 10] ∧ 10 + Z.min minGap 500 ≤ 510.
Proof.
  split; [vm_compute; reflexivity|].
  destruct (hb_runs spaced_hub !! 0%nat) as [u|] eqn:Hu; [|vm_compute in Hu; discriminate].
  assert (reachable 500 spaced_hub) as Hr by (apply (run_hub_reachable 500 spaced_script newHub); [constructor|vm_compute; reflexivity]).
  pose proof (reads_are_spaced 500 spaced_hub 0%nat u ltac:(lia) Hr Hu) as Hs.
  vm_compute in Hu. injection Hu as <-. apply Sorted_inv in Hs as [_ Hs]. by apply HdRel_inv in Hs.
Defined.

(** ** Requests *)
Definition sample_world : memory_world :=
  mkMemoryWorld (MemProjStore.Declare_ "orders" 2 0 MemProjStore.NewProjectionStore).2 AutoStore.NewAutomationStore 100.

Definition sample_dashboard : Dashboard memory_world EventStore EventStore :=
  (New mem_projection_ops [WithProjections ["orders"]; WithReset; WithAutomations mem_automation_ops ["mailer"]; WithPause;
                           WithEvents sample_events (Some sample_events)]).1.

Definition sample_request (method : string) (path : list string) (site : string) (query : string → list string) : request :=
  mkRequest method "127.0.0.1:8080" (Some path) "/" (λ k, if bool_decide (k = "Sec-Fetch-Site") then site else "") query.

Definition no_query : string → list string := λ _, [].
Definition rebuild_request : request := sample_request "POST" ["api"; "projections"; "orders"; "rebuild"] "same-origin" no_query.
Definition snapshot_request : request := sample_request "GET" ["api"; "snapshot"] "" no_query.
Definition sample_server : server memory_world := mkServer sample_world newHub ∅.

Notation serve := (ServeHTTP (GR := mem_reader sample_registry) (CL := mem_correlations sample_registry) sample_registry 5 sample_dashboard).

Lemma sample_reads_only : reads_only sample_dashboard.
Proof. split; [done..|]. by intros store name w [= <-]. Qed.

Lemma only_the_page_changes_the_stores_witness :
  (∃ resp s', serve rebuild_request sample_server = Some (resp, s') ∧ rs_Status resp = StatusAccepted ∧
     may_change sample_dashboard rebuild_request sample_world (se_world s')) ∧
  (snd <$> serve (sample_request "POST" ["api"; "projections"; "orders"; "rebuild"] "cross-site" no_query) sample_server) = Some sample_server.
Proof.
  split; [|vm_compute; reflexivity].
  destruct (serve rebuild_request sample_server) as [[resp s']|] eqn:Hs; [|exfalso; vm_compute in Hs; discriminate Hs].
  exists resp, s'. split_and!; [done|vm_compute in Hs; by injection Hs as <- _|].
  exact (proj2 (proj2 (proj2 (only_the_page_changes_the_stores (GR := mem_reader sample_registry) (CL := mem_correlations sample_registry)
    sample_registry 5 sample_dashboard rebuild_request sample_server resp s' sample_reads_only Hs
    ltac:(vm_compute in Hs; injection Hs as _ <-; intros Heq; apply (f_equal (λ w, p_rebuildsRequested <$> projections (mw_projections w) !! "orders")) in Heq;
          vm_compute in Heq; discriminate Heq))))).
Defined.

Lemma requested_rebuild_is_shown_witness : ∃ msg s' snap s'',
  serve rebuild_request sample_server = Some (mkResponse StatusAccepted (MessageBody msg), s') ∧
  serve snapshot_request s' = Some (mkResponse StatusOK (SnapshotBody snap), s'') ∧
  ∃ v, v ∈ sn_Projections snap ∧ pv_Name v = "orders" ∧ pv_RebuildRequested v = true.
Proof.
  destruct (projections (mw_projections sample_world) !! "orders") as [p|] eqn:Hp; [|vm_compute in Hp; discriminate Hp].
  assert (declared "orders" sample_world p) as Hd.
  { split; [done| |]; vm_compute in Hp; injection Hp as <-; [|vm_compute; split; [split|]; done || discriminate].
    exists 0. eexists. split; [vm_compute; split; done|vm_compute; reflexivity]. }
  destruct (requested_rebuild_is_shown (GR := mem_reader sample_registry) (CL := mem_correlations sample_registry) sample_registry 5 sample_dashboard
    rebuild_request snapshot_request "orders" p sample_server eq_refl Hd eq_refl ltac:(left) ltac:(intros r Hr; vm_compute in Hr; discriminate Hr)
    ltac:(vm_compute; reflexivity) ltac:(vm_compute; reflexivity) eq_refl eq_refl ltac:(vm_compute; reflexivity) eq_refl eq_refl)
    as (msg & s' & snap & s'' & H1 & _ & H2 & v & Hv & Hn & Hreq & _).
  exists msg, s', snap, s''. split_and!; [exact H1|exact H2|]. by exists v.
Defined.

Lemma event_list_answers_witness :
  let q := sample_request "GET" ["api"; "events"] "" (λ k, if bool_decide (k = "limit") then ["2"] else []) in
  ∃ found older scanned, serveEventList (GR := mem_reader sample_registry) sample_registry 5 sample_dashboard q =
    Some (mkResponse StatusOK (EventsBody (mkEventsPage (view_of sample_registry found) 4 older scanned))).
Proof.
  intros q. pose proof (event_list_answers (GR := mem_reader sample_registry) sample_registry 5 sample_dashboard q sample_events sample_log 4
    eq_refl (sample_reads _) ltac:(vm_compute; lia)) as Ha.
  assert (parse_limit q = Some 2 ∧ parse_before q = Some 0) as [Hl Hb] by (split; vm_compute; reflexivity).
  rewrite Hl, Hb in Ha. destruct Ha as (found & older & scanned & Hs & _). by exists found, older, scanned.
Defined.
