(* ===== verification/SuiteTest.v ===== *)
(** * Tests as programs

    What the contract suites use of package [testing]: a test acts on a world
    that holds the store under test, records a failure and goes on
    ([t.Errorf]), or records one and stops ([t.Fatalf]).  Fresh UUIDs and the
    clock are counters.  A failure is recorded with the names of its
    subtests; its text is not modelled. *)
From stdpp Require Import pretty.
From S2P Require Import Prelude Core.

Record testing (W : Type) : Type := mkTesting {
  t_world : W;
  t_uuids : Z;
  t_now : time;
  t_name : list string;
  t_failures : list (list string * string);
}.
Arguments mkTesting {W}. Arguments t_world {W}. Arguments t_uuids {W}. Arguments t_now {W}. Arguments t_name {W}. Arguments t_failures {W}.

(** [None] when the test was stopped. *)
Definition test (W A : Type) : Type := testing W → option A * testing W.

#[export] Instance test_ret W : MRet (test W) := λ A a t, (Some a, t).
#[export] Instance test_bind W : MBind (test W) := λ A B f m t,
  let '(r, t) := m t in match r with Some a => f a t | None => (None, t) end.

Section testing.
Context {W : Type}.

Definition set_test_world (w : W) (t : testing W) : testing W := mkTesting w (t_uuids t) (t_now t) (t_name t) (t_failures t).

Definition add_failure (msg : string) (t : testing W) : testing W :=
  mkTesting (t_world t) (t_uuids t) (t_now t) (t_name t) (t_failures t ++ [(t_name t, msg)]).

Definition Errorf_ (msg : string) : test W () := λ t, (Some (), add_failure msg t).
Definition Fatalf {A} (msg : string) : test W A := λ t, (None, add_failure msg t).

(** [if !ok { t.Errorf(msg) }] and [if !ok { t.Fatalf(msg) }] *)
Definition want (ok : bool) (msg : string) : test W () := if ok then mret () else Errorf_ msg.
Definition need (ok : bool) (msg : string) : test W () := if ok then mret () else Fatalf msg.

(** A call that changes the world, and one that only looks at it *)
Definition call {A} (f : W → A * W) : test W A := λ t, let '(a, w) := f (t_world t) in (Some a, set_test_world w t).
Definition look {A} (f : W → A) : test W A := λ t, (Some (f (t_world t)), t).

(** [uuid.New] and [time.Now] *)
Definition uuid_New : test W uuid := λ t,
  (Some (t_uuids t + 1), mkTesting (t_world t) (t_uuids t + 1) (t_now t) (t_name t) (t_failures t)).
Definition time_Now : test W time := λ t,
  (Some (t_now t), mkTesting (t_world t) (t_uuids t) (t_now t + 1) (t_name t) (t_failures t)).

(** [t.Run(name, f)]: a subtest that stops does not stop its parent. *)
Definition Run (name : string) (f : test W ()) : test W () := λ t,
  let '(_, t') := f (mkTesting (t_world t) (t_uuids t) (t_now t) (t_name t ++ [name]) (t_failures t)) in
  (Some (), mkTesting (t_world t') (t_uuids t') (t_now t') (t_name t) (t_failures t')).

Fixpoint for_each {A} (l : list A) (f : A → test W ()) : test W () :=
  match l with [] => mret () | x :: l => f x ;; for_each l f end.

Fixpoint collect_each {A B} (l : list A) (f : A → test W B) : test W (list B) :=
  match l with [] => mret [] | x :: l => b ← f x; bs ← collect_each l f; mret (b :: bs) end.

(** A value or the end of the test, with the error of the call *)
Definition must {A} (r : result error A) (msg : string) : test W A :=
  match r with Ok a => mret a | Fail _ => Fatalf msg end.
Definition no_error (e : option error) (msg : string) : test W () := match e with None => mret () | Some _ => Fatalf msg end.

(** [errors.Is] and [errors.As] on an error that may be nil *)
Definition is_error (e : option error) (s : sentinel) : bool := match e with Some e => errors_Is e s | None => false end.
Definition as_conflict (e : option error) : option string :=
  match e with Some e => (λ x, x.1.1) <$> errors_As is_Conflict e | None => None end.

(** Subtests of a subtest, in the order of their names *)
Definition group (name : string) (tests : list (string * test W ())) : test W () :=
  Run name (for_each (sort_slice (λ a b, string_less a.1 b.1) tests) (λ '(n, f), Run n f)).

(** A suite's failures on a world. *)
Definition failures (suite : test W ()) (uuids : Z) (now : time) (w : W) : list (list string * string) :=
  t_failures (suite (mkTesting w uuids now [] [])).2.
End testing.

(** ** Stores under test *)

(** A call at the time of the clock, which it does not move *)
Definition at_clock {S A} (f : Z → S → A * S) (w : S * Z) : A * (S * Z) := let '(a, s) := f w.2 w.1 in (a, (s, w.2)).

(** An answer without its value, and one that no error keeps back *)
Definition failed_with {A} (r : result error A) : option error := match r with Ok _ => None | Fail e => Some e end.
Definition drop_value {A S} (x : result error A * S) : option error * S := (failed_with x.1, x.2).
Definition sure {A S} (x : A * S) : result error A * S := (Ok x.1, x.2).
