(* ===== verification/StoreSuite.v ===== *)
(** * The contract of an event store as a test suite ([eventsourcingtest])

    [AcceptanceTest], [GlobalReaderAcceptanceTest] and
    [CorrelationLoaderAcceptanceTest], test by test.  Where a test starts
    goroutines, the order in which their calls reach the store is an
    argument.  The names of the subtests are in the order they run in, by
    name. *)
From stdpp Require Import pretty.
From S2P Require Import Prelude Core Iter Registry Context Log SuiteTest.

(** What the suites call, of a store and of the iterators [It] it returns;
    [ut_All] has fuel for the length of what it reads. *)
Class EventStoreUnderTest (W It : Type) : Type := {
  ut_Save : list Envelope → StreamState → W → AppendResult * option error * W;
  ut_LoadStream : string → W → result error It;
  ut_LoadStreamFrom : string → StreamState → W → result error It;
  ut_LoadCorrelation : string → W → result error It;
  ut_ReadAll : Z → ReadOptions → W → result error ReadResult;
  ut_Head : W → result error Z;
  ut_All : nat → It → option (list Envelope * option error);
  ut_Next : It → bool * It;
  ut_Close : It → option error * It;
}.

Definition acceptanceEvent (id : string) (n : Z) : Event :=
  mkEvent "eventsourcingtest.acceptanceEvent" true id "eventsourcingtest.acceptanceEvent" (pretty n).
Definition acceptanceOtherEvent (id : string) (n : Z) : Event :=
  mkEvent "eventsourcingtest.acceptanceOtherEvent" true id "eventsourcingtest.acceptanceEventOther" (pretty n).

(** The registry after the two [init] functions. *)
Definition suite_registry : Registry :=
  match RegisterEvent (acceptanceEvent "" 0) emptyRegistry with
  | Returns r => match RegisterEvent (acceptanceOtherEvent "" 0) r with Returns r => r | Panics _ => r end
  | Panics _ => emptyRegistry
  end.

Section suite.
Context {W It : Type} `{ES : EventStoreUnderTest W It, U : UUIDString}.
(** Enough to read every stream and log of the suite. *)
Context (fuel : nat).

(** ** Helpers *)
Definition NewString : test W string := u ← uuid_New; mret (uuid_String u).
Definition newStreamID : test W string := s ← NewString; mret ("acceptance-" +:+ s).

Definition yes : gmap string any := {["acceptance" := AnyString "yes"]}.

Definition envelopes (id : string) (from : Z) (count : nat) : test W (list Envelope) :=
  collect_each (seqZ from (Z.of_nat count)) (λ v,
    u ← uuid_New; now ← time_Now; cause ← NewString;
    mret (mkEnvelope u id (Some yes) ("chain-" +:+ id) cause (Some (acceptanceEvent id v)) 0 0 now)).

Definition save_ (events : list Envelope) (state : StreamState) : test W () :=
  r ← call (ut_Save events state); no_error r.2 "Save".

Definition seed (count : nat) : test W string :=
  id ← newStreamID; evs ← envelopes id 1 count; save_ evs NoStream ;; mret id.

Definition drain (it : It) : test W (list Envelope) :=
  match ut_All fuel it with
  | Some (evs, None) => mret evs
  | Some (_, Some _) => Fatalf "iterate"
  | None => Fatalf "out of fuel"
  end.

Definition loadStream (id : string) : test W (list Envelope) :=
  r ← look (ut_LoadStream id); it ← must r "LoadStream"; drain it.
Definition loadStreamFrom (id : string) (state : StreamState) : test W (list Envelope) :=
  r ← look (ut_LoadStreamFrom id state); it ← must r "LoadStreamFrom"; drain it.

Definition wantStreamLen (id : string) (n : Z) : test W () :=
  evs ← loadStreamFrom id Any; want (zlen evs =? n) "stream length".

Definition versions (evs : list Envelope) : list Z := Version <$> evs.

(** The payloads' numbers, as they print; the event must be an acceptanceEvent. *)
Definition payload (env : Envelope) : test W string :=
  match env_Event env with
  | Some ev => if bool_decide (ev_GoType ev = "eventsourcingtest.acceptanceEvent") && ev_Pointer ev then mret (ev_data ev) else Fatalf "event type"
  | None => Fatalf "event type"
  end.
Definition payloadNs (evs : list Envelope) : test W (list string) := collect_each evs payload.
Definition numbers (ns : list Z) : list string := pretty <$> ns.

Definition with_version (v : Z) (env : Envelope) : Envelope :=
  mkEnvelope (EventID env) (StreamID env) (Metadata env) (CorrelationID env) (CausationID env) (env_Event env) v (GlobalPosition env) (OccurredAt env).
Definition with_time (now : time) (env : Envelope) : Envelope :=
  mkEnvelope (EventID env) (StreamID env) (Metadata env) (CorrelationID env) (CausationID env) (env_Event env) (Version env) (GlobalPosition env) now.
Definition with_id (u : uuid) (env : Envelope) : Envelope :=
  mkEnvelope u (StreamID env) (Metadata env) (CorrelationID env) (CausationID env) (env_Event env) (Version env) (GlobalPosition env) (OccurredAt env).
Definition with_chain (correlation cause : string) (env : Envelope) : Envelope :=
  mkEnvelope (EventID env) (StreamID env) (Metadata env) correlation cause (env_Event env) (Version env) (GlobalPosition env) (OccurredAt env).
Definition with_event (ev : Event) (env : Envelope) : Envelope :=
  mkEnvelope (EventID env) (StreamID env) (Metadata env) (CorrelationID env) (CausationID env) (Some ev) (Version env) (GlobalPosition env) (OccurredAt env).

(** ** Save *)
Definition saveEmptyBatch : test W () :=
  r ← call (ut_Save [] Any); no_error r.2 "Save(nil)" ;; want (Successful r.1) "Successful".

Definition saveNoStreamCreatesStream : test W () :=
  id ← newStreamID; evs ← envelopes id 1 3; r ← call (ut_Save evs NoStream);
  no_error r.2 "Save(NoStream) on a new stream" ;;
  want (Successful r.1) "Successful" ;; want (bool_decide (res_StreamID r.1 = id)) "StreamID" ;;
  want (NextExpectedVersion r.1 =? 3) "NextExpectedVersion" ;; wantStreamLen id 3.

Definition saveNoStreamRejectsExisting : test W () :=
  id ← seed 2; evs ← envelopes id 3 1; r ← call (ut_Save evs NoStream);
  want (is_error r.2 ErrStreamExists) "Save(NoStream) on an existing stream" ;; wantStreamLen id 2.

Definition saveStreamExistsRejectsNew : test W () :=
  id ← newStreamID; evs ← envelopes id 1 1; r ← call (ut_Save evs StreamExists);
  want (is_error r.2 ErrStreamNotFound) "Save(StreamExists) on a new stream" ;; wantStreamLen id 0.

Definition saveStreamExistsAppends : test W () :=
  id ← seed 2; evs ← envelopes id 3 1; r ← call (ut_Save evs StreamExists);
  no_error r.2 "Save(StreamExists) on an existing stream" ;;
  want (NextExpectedVersion r.1 =? 3) "NextExpectedVersion" ;; wantStreamLen id 3.

Definition saveAnyAppends : test W () :=
  id ← newStreamID; evs ← envelopes id 1 2; r ← call (ut_Save evs Any); no_error r.2 "Save(Any) on a new stream" ;;
  evs ← envelopes id 3 2; r ← call (ut_Save evs Any); no_error r.2 "Save(Any) on an existing stream" ;;
  want (NextExpectedVersion r.1 =? 4) "NextExpectedVersion" ;; wantStreamLen id 4.

Definition saveAssignsVersions : test W () :=
  id ← newStreamID; evs ← envelopes id 1 2; save_ evs Any ;;
  stale ← envelopes id 3 2; save_ (with_version 1 <$> stale) Any ;;
  wrong ← envelopes id 5 1; save_ (with_version 9 <$> wrong) (Revision 4) ;;
  got ← loadStream id; want (bool_decide (versions got = [1; 2; 3; 4; 5])) "LoadStream versions" ;;
  got ← loadStreamFrom id (Revision 3); ns ← payloadNs got;
  want (bool_decide (ns = numbers [4; 5])) "LoadStreamFrom(Revision(3))".

Definition saveFillsOccurredAt : test W () :=
  id ← newStreamID; evs ← envelopes id 1 1; save_ (with_time time_zero <$> evs) NoStream ;;
  got ← loadStream id; need (zlen got =? 1) "LoadStream returned 1" ;;
  for_each got (λ env, want (negb (time_IsZero (OccurredAt env))) "OccurredAt").

Definition saveRevisionAppends : test W () :=
  id ← newStreamID; evs ← envelopes id 1 2; r ← call (ut_Save evs (Revision 0));
  no_error r.2 "Save(Revision(0)) on a new stream" ;; want (NextExpectedVersion r.1 =? 2) "NextExpectedVersion" ;;
  evs ← envelopes id 3 1; r ← call (ut_Save evs (Revision (NextExpectedVersion r.1)));
  no_error r.2 "Save(Revision(NextExpectedVersion))" ;; want (NextExpectedVersion r.1 =? 3) "NextExpectedVersion" ;;
  wantStreamLen id 3.

Definition saveRevisionConflict : test W () :=
  id ← seed 2;
  for_each [0; 1; 3] (λ rev,
    evs ← envelopes id 3 1; r ← call (ut_Save evs (Revision rev));
    match as_conflict r.2 with
    | None => Errorf_ "want a conflict"
    | Some stream => want (bool_decide (stream = id)) "conflict.Stream"
    end) ;;
  wantStreamLen id 2.

Definition saveMixedStreamsRejected : test W () :=
  first ← newStreamID; second ← newStreamID;
  evs1 ← envelopes first 1 1; evs2 ← envelopes second 1 1; r ← call (ut_Save (evs1 ++ evs2) Any);
  want (is_error r.2 ErrInvalidEventBatch) "Save of a batch spanning two streams" ;;
  wantStreamLen first 0 ;; wantStreamLen second 0.

Definition saveMissingEventIDRejected : test W () :=
  id ← newStreamID; batch ← envelopes id 1 2;
  r ← call (ut_Save (alter (with_id uuid_Nil) 1%nat batch) Any);
  want (is_error r.2 ErrInvalidEventBatch) "Save of an event without EventID" ;; wantStreamLen id 0.

(** [order]: how the writers' Saves reach the store. *)
Definition writers : nat := 8.
Definition saveConcurrentRevisionOneWins (order : list nat) : test W () :=
  id ← seed 1;
  errs ← collect_each order (λ _, evs ← envelopes id 2 1; r ← call (ut_Save evs (Revision 1)); mret r.2);
  for_each errs (λ e, match e with None => mret () | Some _ => want (negb (bool_decide (as_conflict e = None))) "writer" end) ;;
  want (zlen (bfilter (λ e, bool_decide (e = None :> option error)) errs) =? 1) "exactly 1" ;;
  wantStreamLen id 2.
(** ** LoadStream *)
(** What a caller learns that drains the iterator it was given. *)
Definition read_error (r : result error It) : option error :=
  match r with
  | Fail e => Some e
  | Ok it => match ut_All fuel it with Some (_, e) => e | None => None end
  end.

Definition loadStreamMissing : test W () :=
  id ← newStreamID; r ← look (ut_LoadStream id);
  want (is_error (read_error r) ErrStreamNotFound) "LoadStream of a missing stream".

Definition loadStreamOrder : test W () :=
  id ← newStreamID; evs ← envelopes id 1 2; save_ evs NoStream ;;
  evs ← envelopes id 3 3; save_ evs (Revision 2) ;;
  got ← loadStream id; ns ← payloadNs got;
  want (bool_decide (ns = numbers [1; 2; 3; 4; 5])) "LoadStream order".

Definition loadStreamVersions : test W () :=
  id ← seed 3; got ← loadStream id;
  want (bool_decide (versions got = [1; 2; 3])) "LoadStream versions".

Definition same_chain (a b : Envelope) : bool :=
  bool_decide (CorrelationID a = CorrelationID b) && bool_decide (CausationID a = CausationID b).
Definition acceptance_key (env : Envelope) : option any := md ← Metadata env; md !! "acceptance".
Definition metadata_len (env : Envelope) : nat := match Metadata env with Some md => size md | None => 0%nat end.

Definition loadStreamRoundTrip : test W () :=
  id ← newStreamID; batch ← envelopes id 1 1; save_ batch NoStream ;;
  got ← loadStream id;
  match got, batch with
  | [out], sent :: _ =>
    want (EventID out =? EventID sent) "EventID" ;; want (bool_decide (StreamID out = id)) "StreamID" ;;
    payload out ;; want (bool_decide (env_Event out = env_Event sent)) "Event" ;;
    want (bool_decide (acceptance_key out = acceptance_key sent)) "Metadata[acceptance]" ;;
    want (metadata_len out =? metadata_len sent)%nat "Metadata" ;;
    want (same_chain out sent) "chain" ;; want (negb (time_IsZero (OccurredAt out))) "OccurredAt"
  | _, _ => Fatalf "LoadStream returned 1"
  end.

Definition loadStreamCloseEarly : test W () :=
  id ← seed 3; r ← look (ut_LoadStream id); it ← must r "LoadStream";
  let '(more, it) := ut_Next it in need more "LoadStream yielded no events" ;;
  let '(cerr, it) := ut_Close it in want (bool_decide (cerr = None)) "Close after one event" ;;
  want (negb (ut_Next it).1) "Next after Close" ;;
  evs ← envelopes id 4 1; save_ evs (Revision 3) ;; wantStreamLen id 4.

(** ** LoadStreamFrom *)
Definition loadFromAnyReadsWholeStream : test W () :=
  id ← seed 3; got ← loadStreamFrom id Any;
  want (bool_decide (versions got = [1; 2; 3])) "LoadStreamFrom(Any) versions".

Definition loadFromAnyOnMissingStream : test W () :=
  id ← newStreamID; got ← loadStreamFrom id Any; want (zlen got =? 0) "LoadStreamFrom(Any) of a missing stream".

Definition loadFromRevisionIsExclusive : test W () :=
  id ← seed 3;
  for_each (seqZ 0 4) (λ n,
    got ← loadStreamFrom id (Revision n);
    want (bool_decide (versions got = seqZ (n + 1) (3 - n))) "LoadStreamFrom(Revision) versions").

Definition loadFromResumeFromLastVersion : test W () :=
  id ← seed 2; first ← loadStreamFrom id Any;
  match last first with
  | Some env =>
    need (zlen first =? 2) "LoadStreamFrom(Any) returned 2" ;;
    got ← loadStreamFrom id (Revision (Version env)); want (zlen got =? 0) "before any append" ;;
    evs ← envelopes id 3 1; save_ evs Any ;;
    got ← loadStreamFrom id (Revision (Version env)); ns ← payloadNs got;
    want (bool_decide (ns = numbers [3])) "after one append"
  | None => Fatalf "LoadStreamFrom(Any) returned 2"
  end.

Definition loadFromStreamExistsRejectsNew : test W () :=
  id ← newStreamID; r ← look (ut_LoadStreamFrom id StreamExists);
  want (is_error (read_error r) ErrStreamNotFound) "LoadStreamFrom(StreamExists) of a missing stream".

Definition loadFromNoStreamRejectsExisting : test W () :=
  id ← seed 1; r ← look (ut_LoadStreamFrom id NoStream);
  want (is_error (read_error r) ErrStreamExists) "LoadStreamFrom(NoStream) of an existing stream".

Definition AcceptanceTest (order : list nat) : test W () :=
  group "Save" [
    ("EmptyBatch", saveEmptyBatch); ("NoStreamCreatesStream", saveNoStreamCreatesStream);
    ("NoStreamRejectsExisting", saveNoStreamRejectsExisting);
    ("StreamExistsRejectsNew", saveStreamExistsRejectsNew); ("StreamExistsAppends", saveStreamExistsAppends);
    ("AnyAppends", saveAnyAppends); ("AssignsVersions", saveAssignsVersions);
    ("FillsOccurredAt", saveFillsOccurredAt); ("RevisionAppends", saveRevisionAppends);
    ("RevisionConflict", saveRevisionConflict); ("MixedStreamsRejected", saveMixedStreamsRejected);
    ("MissingEventIDRejected", saveMissingEventIDRejected);
    ("ConcurrentRevisionOneWins", saveConcurrentRevisionOneWins order)] ;;
  group "LoadStream" [
    ("MissingStream", loadStreamMissing); ("Order", loadStreamOrder); ("Versions", loadStreamVersions);
    ("RoundTrip", loadStreamRoundTrip); ("CloseEarly", loadStreamCloseEarly)] ;;
  group "LoadStreamFrom" [
    ("AnyReadsWholeStream", loadFromAnyReadsWholeStream); ("AnyOnMissingStreamEmpty", loadFromAnyOnMissingStream);
    ("RevisionIsExclusive", loadFromRevisionIsExclusive); ("ResumeFromLastVersion", loadFromResumeFromLastVersion);
    ("StreamExistsRejectsNew", loadFromStreamExistsRejectsNew);
    ("NoStreamRejectsExisting", loadFromNoStreamRejectsExisting)].
End suite.
