(* ===== verification/ReaderSuite.v ===== *)
(** * The contracts of a global log and of a correlation reader as test suites

    [GlobalReaderAcceptanceTest] and [CorrelationLoaderAcceptanceTest] of
    package [eventsourcingtest].  How the saves of the concurrent writers
    fall between the pages of the reader is an argument. *)
From stdpp Require Import pretty.
From S2P Require Import Prelude Core Iter Registry Context Log SuiteTest StoreSuite.

(** The first violation of the contract by one page, if any. *)
Definition checkPage (after : Z) (res : ReadResult) : option string :=
  (fix go (prev : Z) (evs : list Envelope) : option string :=
     match evs with
     | env :: evs =>
       if GlobalPosition env <=? prev then Some "strictly ascending and exclusive of after"
       else go (GlobalPosition env) evs
     | [] =>
       if negb (zlen (rr_Events res) =? 0) && (rr_Next res <? prev) then Some "Next below its last event"
       else if rr_Next res <? after then Some "Next below after"
       else if negb (rr_AtEnd res) && (rr_Next res <=? after) then Some "Next not past after when not at the end"
       else None
     end) after (rr_Events res).

Definition filter_ (evs : list Envelope) (ids : list string) : list Envelope :=
  bfilter (λ env, bool_decide (StreamID env ∈ ids)) evs.

Definition label3 (id first second third : string) : string :=
  if bool_decide (id = first) then (if bool_decide (third = "") then "a" else "first")
  else if bool_decide (id = second) then (if bool_decide (third = "") then "b" else "second")
  else if bool_decide (id = third) then "third" else id.

Definition at_version (label : string) (env : Envelope) : string := label +:+ "@" +:+ pretty (Version env).
Definition streamVersions (evs : list Envelope) (a b : string) : list string :=
  (λ env, at_version (label3 (StreamID env) a b "") env) <$> evs.

(** [id[:len(id)-1]] *)
Definition chop (id : string) : string := String.substring 0 (String.length id - 1) id.

Section suite.
Context {W It : Type} `{ES : EventStoreUnderTest W It, U : UUIDString}.
(** As in the acceptance test, and enough for the pages of a log *)
Context (fuel : nat).

Definition headNow : test W Z := r ← look ut_Head; must r "Head".

Definition otherEnvelopes (id : string) (from : Z) (count : nat) : test W (list Envelope) :=
  evs ← envelopes id from count;
  mret (zip_with (λ i env, with_event (acceptanceOtherEvent id (from + i)) env) (seqZ 0 (Z.of_nat count)) evs).

(** What [readToEndNext] checks of one event of a page *)
Definition checkEvent (opts : ReadOptions) (env : Envelope) : test W () :=
  want (bool_decide (EventTypes opts = []) || bool_decide (env_type env ∈ EventTypes opts)) "an event of another type" ;;
  want (bool_decide (StreamPrefixes opts = []) || existsb (λ p, String.prefix p (StreamID env)) (StreamPrefixes opts))
    "an event of another stream".

Fixpoint read_pages (pages : nat) (after : Z) (opts : ReadOptions) (ids : list string) (out : list Envelope) :
    test W (list Envelope * Z) :=
  match pages with
  | O => Errorf_ "ReadAll did not reach AtEnd" ;; mret (out, after)
  | S pages =>
    r ← look (ut_ReadAll after opts); res ← must r "ReadAll";
    match checkPage after res with
    | Some msg => Errorf_ msg ;; mret (out, after)
    | None =>
      want (negb ((0 <? Limit opts) && (Limit opts <? zlen (rr_Events res)))) "Limit" ;;
      for_each (rr_Events res) (checkEvent opts) ;;
      let out := out ++ (if bool_decide (ids = []) then rr_Events res else filter_ (rr_Events res) ids) in
      if rr_AtEnd res then mret (out, rr_Next res) else read_pages pages (rr_Next res) opts ids out
    end
  end.

Definition readToEndNext (after : Z) (opts : ReadOptions) (ids : list string) : test W (list Envelope * Z) :=
  read_pages fuel after opts ids [].
Definition readToEnd (after : Z) (opts : ReadOptions) (ids : list string) : test W (list Envelope) :=
  r ← readToEndNext after opts ids; mret r.1.

Definition limited (n : Z) : ReadOptions := mkReadOptions n [] [].

Definition order : test W () :=
  start ← headNow; first ← newStreamID; second ← newStreamID; third ← newStreamID;
  evs ← envelopes first 1 2; save_ evs NoStream ;; evs ← envelopes second 1 1; save_ evs NoStream ;;
  evs ← envelopes third 1 3; save_ evs NoStream ;; evs ← envelopes first 3 1; save_ evs (Revision 2) ;;
  got ← readToEnd start (limited 2) [first; second; third];
  want (bool_decide (((λ env, at_version (label3 (StreamID env) first second third) env) <$> got) =
    ["first@1"; "first@2"; "second@1"; "third@1"; "third@2"; "third@3"; "first@3"])) "ReadAll order".

Definition exclusiveStart : test W () :=
  start ← headNow; id ← newStreamID; evs ← envelopes id 1 3; save_ evs NoStream ;;
  all ← readToEnd start (limited 0) [id]; need (zlen all =? 3) "ReadAll returned 3" ;;
  match all with
  | e0 :: _ =>
    got ← readToEnd (GlobalPosition e0) (limited 0) [id];
    want (bool_decide (versions got = [2; 3])) "ReadAll versions" ;;
    r ← look (ut_ReadAll 0 (limited 1)); res ← must r "ReadAll(after 0)";
    need (zlen (rr_Events res) =? 1) "ReadAll(after 0, Limit 1) returned 1" ;;
    for_each (rr_Events res) (λ env,
      want (negb ((GlobalPosition env =? 0) || (GlobalPosition e0 <? GlobalPosition env))) "first event of the log")
  | [] => mret ()
  end.

Definition limitAndPaging : test W () :=
  start ← headNow; id ← newStreamID; evs ← envelopes id 1 5; save_ evs NoStream ;;
  for_each [1; 2; 3] (λ limit,
    got ← readToEnd start (limited limit) [id];
    want (bool_decide (versions got = [1; 2; 3; 4; 5])) "paging").

Definition saveMixed : test W (string * string * Z) :=
  start ← headNow; tag ← NewString;
  let a := "acceptance-a-" +:+ tag in
  let b := "acceptance-b-" +:+ tag in
  evs ← envelopes a 1 2; save_ evs NoStream ;; evs ← otherEnvelopes b 1 2; save_ evs NoStream ;;
  evs ← otherEnvelopes a 3 1; save_ evs (Revision 2) ;; evs ← envelopes b 3 1; save_ evs (Revision 2) ;;
  all ← readToEnd start (limited 0) [a; b]; need (zlen all =? 6) "unfiltered ReadAll returned 6" ;;
  match last all with Some env => mret (a, b, GlobalPosition env) | None => Fatalf "unfiltered ReadAll returned 6" end.

Definition filterEventTypes : test W () :=
  start ← headNow; m ← saveMixed; let '(a, b, last) := m in
  r ← readToEndNext start (mkReadOptions 2 [ev_EventType (acceptanceEvent "" 0)] []) [a; b];
  want (bool_decide (streamVersions r.1 a b = ["a@1"; "a@2"; "b@3"])) "EventTypes filter" ;;
  want (last <=? r.2) "Next must move past filtered-out events".

Definition filterPrefixes : test W () :=
  start ← headNow; m ← saveMixed; let '(a, b, last) := m in
  r ← readToEndNext start (mkReadOptions 2 [] ["no-such-prefix-"; chop a]) [a; b];
  want (bool_decide (streamVersions r.1 a b = ["a@1"; "a@2"; "a@3"])) "StreamPrefixes filter" ;;
  want (last <=? r.2) "Next must move past filtered-out events" ;;
  r ← look (ut_ReadAll start (mkReadOptions 0 [] ["acceptance-_-%"])); res ← must r "ReadAll with a wildcard-looking prefix";
  want (zlen (filter_ (rr_Events res) [a; b]) =? 0) "prefixes must match literally".

Definition filterCombined : test W () :=
  start ← headNow; m ← saveMixed; let '(a, b, _) := m in
  got ← readToEnd start (mkReadOptions 0 [ev_EventType (acceptanceOtherEvent "" 0)] [chop b]) [a; b];
  want (bool_decide (streamVersions got a b = ["b@1"; "b@2"])) "combined filter".

Definition atEnd : test W () :=
  start ← headNow; id ← newStreamID; evs ← envelopes id 1 2; save_ evs NoStream ;;
  r ← readToEndNext start (limited 1) [];
  p ← look (ut_ReadAll r.2 (limited 0)); res ← must p "ReadAll at the head";
  want (negb ((zlen (rr_Events res) =? 0) && negb (rr_AtEnd res))) "want AtEnd true" ;;
  want (negb ((zlen (rr_Events res) =? 0) && negb (rr_Next res =? r.2))) "unchanged when nothing was scanned".

Definition head : test W () :=
  start ← headNow; id ← newStreamID; evs ← envelopes id 1 2; save_ evs NoStream ;;
  h ← headNow; r ← readToEndNext start (limited 0) [id];
  match r.1 with
  | [_; e1] =>
    want (GlobalPosition e1 <=? h) "Head at least the event saved" ;;
    want (h <=? r.2) "Head must not exceed what ReadAll returns"
  | _ => Fatalf "ReadAll returned 2"
  end.

Definition appendResult : test W () :=
  start ← headNow; id ← newStreamID; evs ← envelopes id 1 3; s ← call (ut_Save evs NoStream);
  no_error s.2 "Save(NoStream)" ;;
  got ← readToEnd start (limited 0) [id];
  match got with
  | [_; _; e2] => want (res_GlobalPosition s.1 =? GlobalPosition e2) "AppendResult.GlobalPosition"
  | _ => Fatalf "ReadAll returned 3"
  end.

Definition chainRoundTrip : test W () :=
  start ← headNow; id ← newStreamID; evs ← envelopes id 1 2;
  let batch := alter (λ env, with_chain (CorrelationID env) "" env) 1%nat evs in
  save_ batch NoStream ;;
  got ← readToEnd start (limited 0) [id]; need (zlen got =? 2) "ReadAll returned 2" ;;
  for_each (zip got batch) (λ '(e, sent), want (same_chain e sent) "chain").
(** ** Concurrent saves *)
(** A writer: the saves it has made, the version it is at, and whether a save failed. *)
Record writer : Type := mkWriter { wr_saves : nat; wr_version : Z; wr_err : bool }.

Context (writers savesPerWriter : nat).

Definition batch_size (w s : nat) : nat := (1 + (w + s) mod 3)%nat.
Definition wr_done (x : writer) : bool := wr_err x || (savesPerWriter <=? wr_saves x)%nat.

(** The next [Save] of writer [w] *)
Definition writer_step (ids : list string) (w : nat) (ws : list writer) : test W (list writer) :=
  match ws !! w, ids !! w with
  | Some x, Some id =>
    if wr_done x then mret ws
    else
      let n := batch_size w (wr_saves x) in
      evs ← envelopes id (wr_version x + 1) n; r ← call (ut_Save evs (Revision (wr_version x)));
      mret (<[w := match r.2 with
                   | Some _ => mkWriter (wr_saves x) (wr_version x) true
                   | None => mkWriter (S (wr_saves x)) (wr_version x + Z.of_nat n) false
                   end]> ws)
  | _, _ => mret ws
  end.

Fixpoint writer_steps (ids : list string) (turns : list nat) (ws : list writer) : test W (list writer) :=
  match turns with [] => mret ws | w :: turns => ws ← writer_step ids w ws; writer_steps ids turns ws end.

(** The reader's look at one page: [None] when a version is not the one after
    the last it saw of that stream. *)
Fixpoint see (ids : list string) (evs : list Envelope) (seen : gmap string Z) (count : Z) : option (gmap string Z * Z) :=
  match evs with
  | [] => Some (seen, count)
  | env :: evs =>
    if bool_decide (StreamID env ∈ ids) then
      if Version env =? default 0 (seen !! StreamID env) + 1 then see ids evs (<[StreamID env := Version env]> seen) (count + 1)
      else None
    else see ids evs seen count
  end.

(** The reader's loop.  [schedule] says which writers save before each page;
    past its end every writer saves once before each page.  The saves left
    when the reader fails are not modelled. *)
Fixpoint read_along (passes : nat) (schedule : list (list nat)) (ids : list string) (deadline : time) (after : Z)
    (ws : list writer) (seen : gmap string Z) (count : Z) (writing : bool) (want_ : Z) : test W () :=
  match passes with
  | O => Errorf_ "out of fuel"
  | S passes =>
    now ← time_Now;
    if time_After now deadline then Errorf_ "reader did not finish within 2 minutes"
    else
      ws ← writer_steps ids (default (seq 0 writers) (schedule !! 0%nat)) ws;
      r ← look (ut_ReadAll after (limited 7)); res ← must r "ReadAll";
      match checkPage after res with
      | Some msg => Errorf_ msg
      | None =>
        match see ids (rr_Events res) seen count with
        | None => Errorf_ "an event was skipped or repeated"
        | Some (seen, count) =>
          if rr_AtEnd res && negb writing then
            for_each (bfilter wr_err ws) (λ _, Errorf_ "writer") ;; want (count =? want_) "reader saw want events"
          else
            read_along passes (tail schedule) ids deadline (rr_Next res) ws seen count
              (if rr_AtEnd res && forallb wr_done ws then false else writing) want_
        end
      end
  end.

Definition concurrentSaves (schedule : list (list nat)) : test W () :=
  start ← headNow; ids ← collect_each (seq 0 writers) (λ _, newStreamID);
  let want_ := foldr Z.add 0 (w ← seq 0 writers; s ← seq 0 savesPerWriter; [Z.of_nat (batch_size w s)]) in
  now ← time_Now;
  read_along fuel schedule ids (time_Add now (120 * second)) start (replicate writers (mkWriter 0 0 false)) ∅ 0 true want_.

Definition GlobalReaderAcceptanceTest (schedule : list (list nat)) : test W () :=
  group "GlobalReader" [
    ("Order", order); ("ExclusiveStart", exclusiveStart); ("LimitAndPaging", limitAndPaging);
    ("FilterEventTypes", filterEventTypes); ("FilterPrefixes", filterPrefixes); ("FilterCombined", filterCombined);
    ("AtEnd", atEnd); ("Head", head); ("AppendResult", appendResult); ("ChainRoundTrip", chainRoundTrip);
    ("ConcurrentSaves", concurrentSaves schedule)].

(** ** The events of a correlation ID *)
Definition chained (evs : list Envelope) (chain : string) : list Envelope := (λ env, with_chain chain (CausationID env) env) <$> evs.

Definition new_chain : test W string := s ← NewString; mret ("chain-" +:+ s).

Definition loadCorrelation (chain : string) : test W (list Envelope) :=
  r ← look (ut_LoadCorrelation chain); it ← must r "LoadCorrelation"; drain fuel it.

Definition save_chained (id : string) (from : Z) (count : nat) (chain : string) (state : StreamState) : test W () :=
  evs ← envelopes id from count; save_ (chained evs chain) state.

Definition acrossStreams : test W () :=
  chain ← new_chain; other ← new_chain; a ← newStreamID; b ← newStreamID;
  save_chained a 1 2 chain NoStream ;; save_chained b 1 1 other NoStream ;; save_chained b 2 1 chain (Revision 1) ;;
  save_chained a 3 1 other (Revision 2) ;; save_chained a 4 1 chain (Revision 3) ;;
  got ← loadCorrelation chain;
  want (bool_decide (streamVersions got a b = ["a@1"; "a@2"; "b@2"; "a@4"])) "LoadCorrelation" ;;
  for_each (zip got (tail got)) (λ '(x, y), want (GlobalPosition x <? GlobalPosition y) "strictly ascending").

Definition roundTrip : test W () :=
  chain ← new_chain; id ← newStreamID; evs ← envelopes id 1 2;
  let first_id := match evs with env :: _ => uuid_String (EventID env) | [] => "" end in
  let batch := zip_with (λ cause env, with_chain chain cause env) [""; first_id] evs in
  save_ batch NoStream ;;
  got ← loadCorrelation chain; need (zlen got =? 2) "LoadCorrelation returned 2" ;;
  for_each (zip (seqZ 0 2) (zip got batch)) (λ '(i, (out, sent)),
    want ((EventID out =? EventID sent) && bool_decide (StreamID out = id) && (Version out =? i + 1)) "event" ;;
    want (bool_decide (CorrelationID out = chain) && bool_decide (CausationID out = CausationID sent)) "event chain" ;;
    want (negb (GlobalPosition out =? 0)) "GlobalPosition" ;;
    payload out ;; want (bool_decide (env_Event out = env_Event sent)) "Event" ;;
    want (bool_decide (acceptance_key out = acceptance_key sent)) "Metadata[acceptance]").

Definition unknown : test W () :=
  chain ← new_chain; got ← loadCorrelation chain; want (zlen got =? 0) "LoadCorrelation of an unknown chain".

Definition emptyID : test W () :=
  r ← look (ut_LoadCorrelation ""); want (is_error (read_error fuel r) ErrEmptyCorrelationID) "LoadCorrelation of the empty ID".

Definition closeEarly : test W () :=
  chain ← new_chain; id ← newStreamID; save_chained id 1 3 chain NoStream ;;
  r ← look (ut_LoadCorrelation chain); it ← must r "LoadCorrelation";
  let '(more, it) := ut_Next it in need more "LoadCorrelation yielded nothing" ;;
  want (bool_decide ((ut_Close it).1 = None)) "Close after one event".

Definition CorrelationLoaderAcceptanceTest : test W () :=
  group "CorrelationLoader" [
    ("AcrossStreams", acrossStreams); ("RoundTrip", roundTrip); ("Unknown", unknown); ("EmptyID", emptyID);
    ("CloseEarly", closeEarly)].
End suite.
