(* ===== verification/ProjectionSuite.v ===== *)
(** * The contract of a projection store as a test suite ([projection/projectiontest/store.go])

    [StoreAcceptanceTest], test by test, for a store that also keeps dead
    letters.  Not here: [resetWaitsForCommit], whose two calls overlap, and
    that a function is not handed a nil context. *)
From stdpp Require Import pretty.
From S2P Require Import Prelude Core Context ProjStore ProjSim SuiteTest.

(** The function a test hands to [Commit] and [Reset]: what it does with the
    dead letters, in the lease of the unit, and the error it returns *)
Record body : Type := mkBody { b_edits : list edit; b_err : option error }.
Definition nop : body := mkBody [] None.

(** What the suite calls.  [Commit] and [Reset] also say how often they ran
    their function; [pt_Sleep] lets the store's clock run. *)
Class ProjectionStoreUnderTest (W : Type) : Type := {
  pt_Declare : string → Z → Z → W → option error * W;
  pt_Claim : Lease → duration → W → result error (Lease * Checkpoint * bool) * W;
  pt_Commit : Lease → Checkpoint → Status → body → W → option error * Z * W;
  pt_Reset : Lease → Z → body → W → option error * Z * W;
  pt_Release : Lease → W → option error * W;
  pt_SaveStatus : Lease → Status → W → option error * W;
  pt_LoadStatuses : string → W → result error (list Status) * W;
  pt_Heartbeat : string → string → Z → duration → W → result error (list Instance_) * W;
  pt_LoadInstances : string → W → result error (list Instance_) * W;
  pt_RequestRebuild : string → W → result error Z * W;
  pt_Rebuilds : string → W → result error (Z * Z) * W;
  pt_FailRebuild : Lease → Z → string → W → option error * W;
  pt_RebuildFailure : string → W → result error (Z * string) * W;
  pt_LoadDeadLetters : string → Z → W → result error (list DeadLetter) * W;
  pt_RequestReplay : string → string → W → result error Z * W;
  pt_PendingReplays : string → W → result error (list Replay) * W;
  pt_FinishReplay : Lease → Z → string → W → option error * W;
  pt_ReplayResult : string → Z → W → result error (Z * list string) * W;
  pt_Sleep : duration → W → W;
}.

#[export] Instance Checkpoint_eq_dec : EqDecision Checkpoint.
Proof. solve_decision. Defined.
#[export] Instance DeadLetter_eq_dec : EqDecision DeadLetter.
Proof. solve_decision. Defined.
#[export] Instance Replay_eq_dec : EqDecision Replay.
Proof. solve_decision. Defined.

Definition owner : string := "owner-a".
Definition other : string := "owner-b".
Definition minute : duration := 60 * second.
Definition longTTL : duration := 60 * minute.
Definition shortTTL : duration := 300 * millisecond.
Definition errWrite_text : string := "projectiontest: fn failed".
Definition errWrite : error := New errWrite_text.

(** [errors.Is(err, errWrite)]; no other error of the suite has its text. *)
Definition is_errWrite (e : option error) : bool :=
  match e with
  | Some e => bool_decide (is_Some (errors_As (λ e, match e with New t => if bool_decide (t = errWrite_text) then Some () else None | _ => None end) e))
  | None => false
  end.

Section suite.
Context {W : Type} `{PS : ProjectionStoreUnderTest W, U : UUIDString}.

(** The store beside the leases the suite was granted, [storeAcceptance]'s [leases] *)
Definition leases : Type := gmap (string * Z * string) Lease.
Notation T := (test (W * leases)).

Definition store {A} (f : W → A * W) : T A := call (λ w, let '(a, s) := f w.1 in (a, (s, w.2))).
Definition time_Sleep (d : duration) : T () := store (λ w, ((), pt_Sleep d w)).

(** ** Helpers *)
Definition cp_at (position version replayUntil : Z) (fp : string) : Checkpoint := mkCheckpoint position version replayUntil fp.
Definition zero_cp : Checkpoint := mkCheckpoint 0 0 0 "".
Definition live_status (position head version : Z) (who : string) (segment : Z) : Status :=
  mkStatus Live position head version "" who segment 0 0 0 false.
Definition zero_status : Status := mkStatus Starting 0 0 0 "" "" 0 0 0 0 false.

Definition fresh_name : T string := u ← uuid_New; mret ("projectiontest-" +:+ uuid_String u).

Definition newProjection (segments : Z) : T string :=
  name ← fresh_name; e ← store (pt_Declare name segments 0); no_error e "Declare" ;; mret name.

Definition lease (name : string) (segment : Z) (who : string) : T Lease :=
  look (λ w : W * leases, default (mkLease name segment who 0) (w.2 !! (name, segment, who))).

Definition setLease (l : Lease) : T () :=
  call (λ w : W * leases, ((), (w.1, <[(l_Name l, l_Segment l, l_Owner l) := l]> w.2))).

Definition claim (name : string) (segment : Z) (who : string) (ttl : duration) : T Checkpoint :=
  l ← lease name segment who; r ← store (pt_Claim l ttl); r ← must r "Claim";
  let '(l, cp, ok) := r in
  need ok "Claim was refused, want it granted" ;;
  need (bool_decide (l_Name l = name) && (l_Segment l =? segment) && bool_decide (l_Owner l = who))
    "Claim returned another Lease" ;;
  setLease l ;; mret cp.

Definition claimFails (name : string) (segment : Z) (who : string) (ttl : duration) : T () :=
  l ← lease name segment who; r ← store (pt_Claim l ttl); r ← must r "Claim";
  need (negb r.2) "Claim was granted, want it refused".

Definition claims (name : string) (segment : Z) (who : string) (ttl : duration) (want_ : Checkpoint) (msg : string) : T () :=
  got ← claim name segment who ttl; need (bool_decide (got = want_)) msg.

Definition commit (name : string) (segment : Z) (who : string) (cp : Checkpoint) : T () :=
  l ← lease name segment who;
  r ← store (pt_Commit l cp (live_status (Position cp) (Position cp) (cp_Version cp) who segment) nop);
  no_error r.1 "Commit".

Definition commitLost (name : string) (segment : Z) (who : string) : T () :=
  l ← lease name segment who;
  r ← store (pt_Commit l (cp_at 50 1 0 "") (live_status 50 0 0 who segment) nop);
  need (is_error r.1 ErrClaimLost) "Commit, want ErrClaimLost".

Definition release (name : string) (segment : Z) (who : string) : T () :=
  l ← lease name segment who; e ← store (pt_Release l); no_error e "Release".

Definition statuses (name : string) : T (list Status) := r ← store (pt_LoadStatuses name); must r "LoadStatuses".

(** [statuses(...)[i]]; a shorter list panics. *)
Definition status_at (name : string) (i : nat) : T Status :=
  sts ← statuses name; match sts !! i with Some st => mret st | None => Fatalf "index out of range" end.

Definition newProcess (name : string) : Lease := mkLease name 0 owner 0.

Definition reset_ok (name : string) (newVersion : Z) : T () :=
  l ← lease name 0 owner; r ← store (pt_Reset l newVersion nop); no_error r.1 "Reset".

Definition heartbeat (name who : string) (version : Z) (ttl : duration) : T (list Instance_) :=
  r ← store (pt_Heartbeat name who version ttl); must r "Heartbeat".

Definition instances (name : string) : T (list Instance_) := r ← store (pt_LoadInstances name); must r "LoadInstances".

Definition owners_are (ms : list Instance_) (want_ : list string) : T () :=
  need (bool_decide (in_Owner <$> ms = want_)) "owners".

(** ** Declare *)
Definition declareCreatesSegments : T () :=
  name ← newProjection 3; sts ← statuses name; need (zlen sts =? 3) "LoadStatuses returned 3" ;;
  for_each (zip (seqZ 0 3) sts) (λ '(i, st),
    want (st_Segment st =? i) "ordered by segment" ;;
    want (bool_decide (st_Phase st = Starting) && (st_Position st =? 0) && bool_decide (st_Owner st = "")) "a fresh segment").

Definition declareIdempotent : T () :=
  name ← newProjection 2; e ← store (pt_Declare name 2 0); no_error e "second Declare with the same segments" ;;
  sts ← statuses name; need (zlen sts =? 2) "after a repeated Declare".

Definition declareSegmentsChanged : T () :=
  name ← newProjection 2; e ← store (pt_Declare name 3 0); need (is_error e ErrSegmentsChanged) "want ErrSegmentsChanged".

Definition declareKeepsStoredProgress : T () :=
  name ← newProjection 1; claim name 0 owner longTTL ;; commit name 0 owner (cp_at 4 1 2 "") ;;
  e ← store (pt_Declare name 1 0); no_error e "second Declare" ;;
  claims name 0 owner longTTL (cp_at 4 1 2 "") "checkpoint after a repeated Declare".

Definition declareSetsReplayUntil : T () :=
  name ← fresh_name; e ← store (pt_Declare name 2 9); no_error e "Declare(2, replayUntil 9)" ;;
  e ← store (pt_Declare name 2 12); no_error e "second Declare(2, replayUntil 12)" ;;
  for_each [0; 1] (λ seg, got ← claim name seg owner longTTL; want (bool_decide (got = cp_at 0 0 9 "")) "from the first Declare").

(** ** Claim *)
Definition claimFresh : T () :=
  name ← newProjection 1; claims name 0 owner longTTL zero_cp "Claim on a fresh segment".

Definition claimRefresh : T () :=
  name ← newProjection 1; claim name 0 owner longTTL ;; first ← lease name 0 owner;
  claim name 0 owner longTTL ;; got ← lease name 0 owner;
  need (bool_decide (got = first)) "Lease after refreshing the claim" ;; need (negb (l_Epoch first =? 0)) "a non-zero epoch".

Definition claimSameOwnerNewProcess : T () :=
  name ← newProjection 1; claim name 0 owner longTTL ;;
  r ← store (pt_Claim (newProcess name) longTTL); r ← must r "Claim by a new process";
  need (negb r.2) "granted while the first holds the segment".

Definition claimTakeoverRaisesEpoch : T () :=
  name ← newProjection 1; claim name 0 owner longTTL ;; first ← lease name 0 owner;
  release name 0 owner ;; claim name 0 other shortTTL ;; second ← lease name 0 other;
  time_Sleep (2 * shortTTL) ;; claim name 0 owner shortTTL ;; third ← lease name 0 owner;
  need ((l_Epoch first <? l_Epoch second) && (l_Epoch second <? l_Epoch third)) "want each higher than the last".

Definition claimHeldByOther : T () :=
  name ← newProjection 1; claim name 0 owner longTTL ;; claimFails name 0 other longTTL.

Definition claimExpired : T () :=
  name ← newProjection 1; claim name 0 owner shortTTL ;; time_Sleep (2 * shortTTL) ;; claim name 0 other shortTTL ;; mret ().

Definition claimExpiresByHolderTTL : T () :=
  name ← newProjection 1; claim name 0 owner longTTL ;; time_Sleep (2 * shortTTL) ;; claimFails name 0 other shortTTL.

Definition claimSegmentsIndependent : T () :=
  name ← newProjection 2; claim name 0 owner longTTL ;; claim name 1 other longTTL ;; mret ().

Definition claimReturnsCheckpoint : T () :=
  name ← newProjection 1; claim name 0 owner longTTL ;; commit name 0 owner (cp_at 7 3 5 "fp-claim") ;; release name 0 owner ;;
  claims name 0 other longTTL (cp_at 7 3 5 "fp-claim") "want the committed one".

Definition claimSetsOwner : T () :=
  name ← newProjection 2; claim name 1 owner longTTL ;; st0 ← status_at name 0; st1 ← status_at name 1;
  need (bool_decide (st_Owner st0 = "") && bool_decide (st_Owner st1 = owner)) "owners after claiming segment 1".

(** ** Commit *)
Definition commitStoresCheckpoint : T () :=
  name ← newProjection 1; claim name 0 owner longTTL ;; commit name 0 owner (cp_at 10 2 6 "fp-commit") ;;
  claims name 0 owner longTTL (cp_at 10 2 6 "fp-commit") "checkpoint after Commit".

Definition commitStoresStatus : T () :=
  name ← newProjection 1; claim name 0 owner longTTL ;; l ← lease name 0 owner;
  r ← store (pt_Commit l (cp_at 10 2 0 "") (live_status 10 12 2 owner 0) nop); no_error r.1 "Commit" ;;
  got ← status_at name 0;
  need (bool_decide (st_Phase got = Live) && (st_Position got =? 10) && (st_Head got =? 12) && (st_Version got =? 2) &&
        bool_decide (st_Owner got = owner) && bool_decide (st_LastError got = "")) "status after Commit".

Definition commitRunsFnOnce : T () :=
  name ← newProjection 1; claim name 0 owner longTTL ;; l ← lease name 0 owner;
  r ← store (pt_Commit l (cp_at 1 0 0 "") (live_status 1 0 0 owner 0) nop);
  no_error r.1 "Commit" ;; need (r.2 =? 1) "fn called once".

Definition commitFnErrorKeepsState : T () :=
  name ← newProjection 1; claim name 0 owner longTTL ;; commit name 0 owner (cp_at 3 1 0 "") ;; l ← lease name 0 owner;
  r ← store (pt_Commit l (cp_at 9 1 0 "") (live_status 9 0 0 owner 0) (mkBody [] (Some errWrite)));
  need (is_errWrite r.1) "want fn's error" ;;
  claims name 0 owner longTTL (cp_at 3 1 0 "") "checkpoint after a failed Commit" ;;
  st ← status_at name 0; need (st_Position st =? 3) "status Position after a failed Commit".

Definition commitNotOwner : T () :=
  name ← newProjection 1; claim name 0 owner longTTL ;; commitLost name 0 other ;;
  claims name 0 owner longTTL zero_cp "checkpoint after a non-owner Commit".

Definition commitAfterRelease : T () :=
  name ← newProjection 1; claim name 0 owner longTTL ;; release name 0 owner ;; commitLost name 0 owner.

Definition commitAfterTakeover : T () :=
  name ← newProjection 1; claim name 0 owner shortTTL ;; time_Sleep (2 * shortTTL) ;; claim name 0 other shortTTL ;;
  commitLost name 0 owner ;; claims name 0 other longTTL zero_cp "new owner's checkpoint after the old owner's Commit".

Definition staleLease (name : string) : T (Lease * Lease) :=
  claim name 0 owner shortTTL ;; stale ← lease name 0 owner; time_Sleep (2 * shortTTL) ;;
  r ← store (pt_Claim (newProcess name) shortTTL); r ← must r "Claim by a new process after expiry";
  need r.2 "Claim by a new process after expiry" ;; setLease r.1.1 ;; mret (stale, r.1.1).

Definition commitStaleEpoch : T () :=
  name ← newProjection 1; ls ← staleLease name; let '(stale, current) := ls in
  let commit_under l := store (pt_Commit l (cp_at 50 1 0 "") (live_status 50 0 0 owner 0) nop) in
  r ← commit_under stale; need (is_error r.1 ErrClaimLost) "Commit under a stale epoch" ;;
  claims name 0 owner longTTL zero_cp "checkpoint after a stale-epoch Commit" ;;
  r ← commit_under current; no_error r.1 "Commit under the current epoch".

Definition commitRefreshesHeartbeat : T () :=
  name ← newProjection 1; claim name 0 owner (4 * shortTTL) ;; time_Sleep (3 * shortTTL) ;;
  commit name 0 owner (cp_at 1 0 0 "") ;; time_Sleep (3 * shortTTL) ;; claimFails name 0 other (4 * shortTTL).

(** ** Reset *)
Definition resetMovesCheckpoint : T () :=
  name ← newProjection 1; claim name 0 owner longTTL ;; commit name 0 owner (cp_at 8 1 2 "fp-reset") ;; reset_ok name 2 ;;
  claims name 0 owner longTTL (cp_at 0 2 8 "") "checkpoint after Reset" ;;
  got ← status_at name 0; need ((st_Position got =? 0) && (st_Version got =? 2)) "status after Reset".

Definition resetKeepsReplayUntil : T () :=
  name ← newProjection 1; claim name 0 owner longTTL ;; commit name 0 owner (cp_at 3 1 9 "fp-reset") ;; reset_ok name 2 ;;
  claims name 0 owner longTTL (cp_at 0 2 9 "") "checkpoint after a Reset at 3 with ReplayUntil 9".

Definition resetRunsWipeOnce : T () :=
  name ← newProjection 1; claim name 0 owner longTTL ;; l ← lease name 0 owner;
  r ← store (pt_Reset l 1 nop); no_error r.1 "Reset" ;; need (r.2 =? 1) "wipe called once".

Definition resetWipeErrorKeepsState : T () :=
  name ← newProjection 1; claim name 0 owner longTTL ;; commit name 0 owner (cp_at 5 1 0 "") ;; l ← lease name 0 owner;
  r ← store (pt_Reset l 2 (mkBody [] (Some errWrite))); need (is_errWrite r.1) "want wipe's error" ;;
  claims name 0 owner longTTL (cp_at 5 1 0 "") "checkpoint after a failed Reset".

Definition resetNotOwner : T () :=
  name ← newProjection 1; claim name 0 owner longTTL ;; commit name 0 owner (cp_at 5 1 0 "") ;; l ← lease name 0 other;
  r ← store (pt_Reset l 2 nop); need (is_error r.1 ErrClaimLost) "Reset by a non-owner" ;;
  claims name 0 owner longTTL (cp_at 5 1 0 "") "checkpoint after a non-owner Reset".

Definition resetCoversEverySegment : T () :=
  name ← newProjection 3; claim name 0 owner longTTL ;; claim name 1 other longTTL ;;
  commit name 0 owner (cp_at 8 1 0 "fp-all") ;; commit name 1 other (cp_at 6 1 0 "fp-all") ;; reset_ok name 2 ;;
  sts ← statuses name;
  for_each sts (λ st,
    want ((st_Position st =? 0) && (st_Version st =? 2)) "segment after Reset" ;;
    want ((st_Segment st =? 0) || (bool_decide (st_Owner st = "") && bool_decide (st_Phase st = Standby))) "released and standby") ;;
  l ← lease name 1 other; r ← store (pt_Commit l (cp_at 9 1 0 "") zero_status nop);
  need (is_error r.1 ErrClaimLost) "Commit by the other segment's holder after Reset" ;;
  for_each [(1, cp_at 0 2 6 ""); (2, cp_at 0 2 0 "")] (λ '(seg, want_),
    got ← claim name seg other longTTL; want (bool_decide (got = want_)) "segment claimed after Reset") ;;
  got ← claim name 0 owner longTTL; want (bool_decide (got = cp_at 0 2 8 "")) "segment 0 after Reset".

Definition resetStaleEpoch : T () :=
  name ← newProjection 1; ls ← staleLease name; commit name 0 owner (cp_at 5 1 0 "") ;;
  r ← store (pt_Reset ls.1 2 nop); need (is_error r.1 ErrClaimLost) "Reset under a stale epoch" ;;
  claims name 0 owner longTTL (cp_at 5 1 0 "") "checkpoint after a stale-epoch Reset".

(** ** Release *)
Definition releaseLetsOtherClaim : T () :=
  name ← newProjection 1; claim name 0 owner longTTL ;; release name 0 owner ;; claim name 0 other longTTL ;; mret ().

Definition releaseClearsOwner : T () :=
  name ← newProjection 1; claim name 0 owner longTTL ;; release name 0 owner ;;
  st ← status_at name 0; need (bool_decide (st_Owner st = "")) "Owner after Release".

Definition releaseMarksStandby : T () :=
  name ← newProjection 1; claim name 0 owner longTTL ;; commit name 0 owner (cp_at 1 0 0 "") ;; release name 0 owner ;;
  st ← status_at name 0; need (bool_decide (st_Phase st = Standby)) "Phase after Release".

Definition releaseNotOwnerNoop : T () :=
  name ← newProjection 1; claim name 0 owner longTTL ;; release name 0 other ;; claimFails name 0 other longTTL ;;
  st ← status_at name 0; need (bool_decide (st_Owner st = owner)) "Owner after a non-owner Release".

Definition releaseStaleEpochNoop : T () :=
  name ← newProjection 1; ls ← staleLease name; e ← store (pt_Release ls.1); no_error e "Release under a stale epoch" ;;
  claimFails name 0 other longTTL.

(** ** SaveStatus *)
Definition status_with (phase : Phase) (position head version : Z) (err who : string) : Status :=
  mkStatus phase position head version err who 0 0 0 0 false.

Definition saveStatusPublishes : T () :=
  name ← newProjection 1; claim name 0 owner longTTL ;; l ← lease name 0 owner;
  e ← store (pt_SaveStatus l (status_with Stalled 0 9 0 "boom" owner)); no_error e "SaveStatus" ;;
  got ← status_at name 0;
  need (bool_decide (st_Phase got = Stalled) && (st_Head got =? 9) && bool_decide (st_LastError got = "boom") &&
        bool_decide (st_Owner got = owner)) "status after SaveStatus" ;;
  e ← store (pt_SaveStatus l (status_with Live 0 9 0 "" owner)); no_error e "SaveStatus" ;;
  got ← status_at name 0;
  need (bool_decide (st_Phase got = Live) && bool_decide (st_LastError got = "")) "status after clearing the error".

Definition saveStatusKeepsCheckpoint : T () :=
  name ← newProjection 1; claim name 0 owner longTTL ;; commit name 0 owner (cp_at 6 1 4 "") ;; l ← lease name 0 owner;
  e ← store (pt_SaveStatus l (status_with Live 99 7 99 "" owner)); no_error e "SaveStatus" ;;
  claims name 0 owner longTTL (cp_at 6 1 4 "") "checkpoint after SaveStatus" ;;
  got ← status_at name 0; need ((st_Position got =? 6) && (st_Version got =? 1)) "status after SaveStatus".

Definition saveStatusNotOwnerRefused : T () :=
  name ← newProjection 1; claim name 0 owner longTTL ;; l ← lease name 0 other;
  e ← store (pt_SaveStatus l (status_with Stalled 0 9 0 "boom" other));
  want (is_error e ErrClaimLost) "SaveStatus by a non-owner" ;;
  got ← status_at name 0;
  need (negb (bool_decide (st_Phase got = Stalled)) && bool_decide (st_LastError got = "") && bool_decide (st_Owner got = owner))
    "status after a non-owner SaveStatus".

Definition saveStatusStaleEpoch : T () :=
  name ← newProjection 1; ls ← staleLease name;
  e ← store (pt_SaveStatus ls.1 (status_with Stalled 0 9 0 "boom" owner));
  want (is_error e ErrClaimLost) "SaveStatus under a stale epoch" ;;
  got ← status_at name 0;
  need (negb (bool_decide (st_Phase got = Stalled)) && bool_decide (st_LastError got = "")) "status after a stale-epoch SaveStatus".

(** ** LoadStatuses *)
Definition loadStatusesUnknownName : T () :=
  name ← fresh_name; sts ← statuses name; need (zlen sts =? 0) "LoadStatuses for an unknown name".

Definition roughly (age : duration) : bool := negb (age <? shortTTL / 2) && negb (minute <? age).

Definition loadStatusesAge : T () :=
  name ← newProjection 1; claim name 0 owner longTTL ;; commit name 0 owner (cp_at 1 0 0 "") ;; time_Sleep shortTTL ;;
  st ← status_at name 0; need (roughly (st_Age st)) "Age after publishing".

Definition loadStatusesReplayUntil : T () :=
  name ← fresh_name; e ← store (pt_Declare name 2 7); no_error e "Declare" ;;
  sts ← statuses name; for_each sts (λ st, want (st_ReplayUntil st =? 7) "ReplayUntil after Declare at 7") ;;
  claim name 0 owner longTTL ;; commit name 0 owner (cp_at 9 1 0 "") ;; reset_ok name 1 ;;
  st ← status_at name 0; want (st_ReplayUntil st =? 9) "ReplayUntil after a Reset from 9".

Definition loadStatusesClaimTTL : T () :=
  name ← newProjection 2; claim name 1 owner longTTL ;; st0 ← status_at name 0; st1 ← status_at name 1;
  need ((st_ClaimTTL st0 =? 0) && (st_ClaimTTL st1 =? longTTL)) "ClaimTTL".

(** ** RebuildRequests *)
Definition requestRebuild (name : string) : T () :=
  r ← store (pt_RequestRebuild name); must r "RequestRebuild" ;; mret ().

Definition rebuilds (name : string) : T (result error (Z * Z)) := store (pt_Rebuilds name).
Definition numbers_are (r : result error (Z * Z)) (requested done : Z) : bool :=
  match r with Ok x => (x.1 =? requested) && (x.2 =? done) | Fail _ => false end.
Definition failure_is (r : result error (Z * string)) (failed : Z) (msg : string) : bool :=
  match r with Ok x => (x.1 =? failed) && bool_decide (x.2 = msg) | Fail _ => false end.

Definition rebuildUnknownName : T () :=
  u ← uuid_New; let name := "projectiontest-unknown-" +:+ uuid_String u in
  r ← store (pt_RequestRebuild name);
  want (is_error (match r with Fail e => Some e | Ok _ => None end) ErrUnknownProjection) "RequestRebuild of an undeclared projection" ;;
  r ← rebuilds name; want (numbers_are r 0 0) "Rebuilds of an undeclared projection" ;;
  r ← store (pt_RebuildFailure name); want (failure_is r 0 "") "RebuildFailure of an undeclared projection".

Definition rebuildFailure : T () :=
  name ← newProjection 2; r ← store (pt_RebuildFailure name); need (failure_is r 0 "") "RebuildFailure before any failed" ;;
  requestRebuild name ;; requestRebuild name ;; claim name 0 owner longTTL ;; l ← lease name 0 owner;
  e ← store (pt_FailRebuild l 2 "wipe failed"); no_error e "FailRebuild" ;;
  e ← store (pt_FailRebuild l 1 "older"); no_error e "FailRebuild of an earlier request" ;;
  r ← store (pt_RebuildFailure name); want (failure_is r 2 "wipe failed") "an earlier request does not replace it" ;;
  l ← lease name 0 other; e ← store (pt_FailRebuild l 3 "stale");
  need (is_error e ErrClaimLost) "FailRebuild by an owner without the claim" ;;
  r ← store (pt_RebuildFailure name);
  want (match r with Ok x => x.1 =? 2 | Fail _ => false end) "RebuildFailure after a refused FailRebuild".

Definition rebuildCounted : T () :=
  name ← newProjection 2;
  for_each [1; 2] (λ want_, r ← store (pt_RequestRebuild name);
    need (match r with Ok n => n =? want_ | Fail _ => false end) "RequestRebuild") ;;
  r ← rebuilds name; need (numbers_are r 2 0) "Rebuilds" ;;
  unrelated ← newProjection 1; r ← rebuilds unrelated;
  want (match r with Ok x => x.1 =? 0 | Fail _ => true end) "requests are per projection".

Definition rebuildServedByReset : T () :=
  name ← newProjection 2; requestRebuild name ;; requestRebuild name ;; claim name 0 owner longTTL ;; reset_ok name 1 ;;
  r ← rebuilds name; need (numbers_are r 2 2) "Rebuilds after Reset" ;;
  requestRebuild name ;; r ← rebuilds name; want (numbers_are r 3 2) "Rebuilds after a later request".

Definition rebuild_shown (name : string) (want_ : bool) (msg : string) : T () :=
  sts ← statuses name; for_each sts (λ st, want (Bool.eqb (st_RebuildRequested st) want_) msg).

Definition rebuildInStatus : T () :=
  name ← newProjection 2; sts ← statuses name;
  for_each sts (λ st, need (negb (st_RebuildRequested st)) "a rebuild requested before any was") ;;
  requestRebuild name ;; rebuild_shown name true "does not show the requested rebuild" ;;
  claim name 0 owner longTTL ;; reset_ok name 1 ;; rebuild_shown name false "still shows a rebuild requested after Reset".

(** ** Heartbeat *)
Definition heartbeatListsSelf : T () :=
  name ← newProjection 1; got ← heartbeat name owner 2 longTTL;
  need (match got with [m] => bool_decide (in_Owner m = owner) && (in_Version m =? 2) && (in_Segments m =? 0) | _ => false end)
    "Heartbeat lists its caller".

Definition heartbeatOrderedByOwner : T () :=
  name ← newProjection 1; heartbeat name other 0 longTTL ;; heartbeat name "owner-c" 0 longTTL ;;
  got ← heartbeat name owner 0 longTTL; owners_are got [owner; other; "owner-c"].

Definition heartbeatExpires : T () :=
  name ← newProjection 1; heartbeat name other 0 shortTTL ;; time_Sleep (2 * shortTTL) ;;
  got ← heartbeat name owner 0 shortTTL; owners_are got [owner].

Definition heartbeatExpiresByOwnTTL : T () :=
  name ← newProjection 1; heartbeat name other 0 longTTL ;; time_Sleep (2 * shortTTL) ;; heartbeat name owner 0 shortTTL ;;
  got ← heartbeat name owner 0 shortTTL; owners_are got [owner; other].

Definition heartbeatZeroTTLRemoves : T () :=
  name ← newProjection 1; heartbeat name other 0 longTTL ;; heartbeat name other 0 0 ;;
  got ← heartbeat name owner 0 longTTL; owners_are got [owner].

Definition heartbeatCountsSegments : T () :=
  name ← newProjection 3; claim name 0 owner longTTL ;; claim name 1 owner longTTL ;; claim name 2 other longTTL ;;
  release name 1 owner ;; heartbeat name other 0 longTTL ;; got ← heartbeat name owner 0 longTTL;
  need (bool_decide (in_Segments <$> got = [1; 1])) "holding 1 segment each".

Definition heartbeatUpdatesVersion : T () :=
  name ← newProjection 1; heartbeat name owner 1 longTTL ;; got ← heartbeat name owner 2 longTTL;
  need (bool_decide (in_Version <$> got = [2])) "one instance on version 2".

Definition heartbeatAge : T () :=
  name ← newProjection 1; heartbeat name other 0 longTTL ;; time_Sleep shortTTL ;; got ← heartbeat name owner 0 longTTL;
  match got with
  | [self; m] => need (roughly (in_Age m)) "Age of other" ;; need (negb (shortTTL / 2 <? in_Age self)) "Age of owner"
  | _ => Fatalf "want two instances"
  end.

Definition heartbeatNamesIndependent : T () :=
  a ← newProjection 1; b ← newProjection 1; heartbeat a other 0 longTTL ;;
  got ← heartbeat b owner 0 longTTL; owners_are got [owner].

(** ** LoadInstances *)
Definition loadInstancesUnknownName : T () :=
  name ← fresh_name; got ← instances name; need (zlen got =? 0) "LoadInstances for an unknown name".

Definition loadInstancesDoesNotRegister : T () :=
  name ← newProjection 1; heartbeat name other 0 longTTL ;;
  for_each [1; 2] (λ _ : Z, got ← instances name; owners_are got [other]).

Definition loadInstancesExpiresByOwnTTL : T () :=
  name ← newProjection 1; heartbeat name owner 0 longTTL ;; heartbeat name other 0 shortTTL ;; time_Sleep (2 * shortTTL) ;;
  got ← instances name; owners_are got [owner].

Definition loadInstancesMatchesHeartbeat : T () :=
  name ← newProjection 3; claim name 0 other longTTL ;; claim name 1 other longTTL ;; heartbeat name other 2 longTTL ;;
  want_ ← heartbeat name owner 1 longTTL; got ← instances name; need (zlen got =? zlen want_) "as many as Heartbeat listed" ;;
  for_each (zip got want_) (λ '(g, w),
    want (bool_decide (in_Owner g = in_Owner w) && (in_Version g =? in_Version w) && (in_Segments g =? in_Segments w))
      "as Heartbeat listed it").

(** ** DeadLetter *)
Definition letter (position : Z) (stream err : string) : DeadLetter := mkDeadLetter position stream "projectiontest.Event" err.

Definition saveDeadLetters (name : string) (segment : Z) (ds : list DeadLetter) : T () :=
  l ← lease name segment owner;
  r ← store (pt_Commit l (cp_at 1 0 0 "") (live_status 1 0 0 owner segment) (mkBody (ESave <$> ds) None));
  no_error r.1 "Commit with SaveDeadLetter".

Definition deadLetters (name : string) (segment : Z) : T (list DeadLetter) :=
  r ← store (pt_LoadDeadLetters name segment); must r "LoadDeadLetters".

Definition positions_are (ds : list DeadLetter) (want_ : list Z) : T () :=
  need (bool_decide (dl_Position <$> ds = want_)) "LoadDeadLetters".

Definition deadLetterInsideCommit : T () :=
  name ← newProjection 1; claim name 0 owner longTTL ;; saveDeadLetters name 0 [letter 1 "order-1" errWrite_text] ;;
  got ← deadLetters name 0; need (bool_decide (got = [letter 1 "order-1" errWrite_text])) "LoadDeadLetters".

Definition deadLetterLoadOrdered : T () :=
  name ← newProjection 1; claim name 0 owner longTTL ;; saveDeadLetters name 0 [letter 7 "order-2" "b"; letter 3 "order-1" "a"] ;;
  got ← deadLetters name 0; positions_are got [3; 7].

Definition deadLetterDelete : T () :=
  name ← newProjection 1; claim name 0 owner longTTL ;; saveDeadLetters name 0 [letter 3 "order-1" "a"; letter 4 "order-1" "b"] ;;
  l ← lease name 0 owner;
  r ← store (pt_Commit l (cp_at 9 0 0 "") (live_status 9 0 0 owner 0) (mkBody [EDelete 3] None));
  no_error r.1 "Commit with DeleteDeadLetter" ;; got ← deadLetters name 0; positions_are got [4].

Definition deadLetterSegmentsIndependent : T () :=
  name ← newProjection 2; claim name 0 owner longTTL ;; claim name 1 owner longTTL ;;
  saveDeadLetters name 1 [letter 5 "order-1" "a"] ;;
  got ← deadLetters name 0; need (zlen got =? 0) "segment 0" ;; got ← deadLetters name 1; need (zlen got =? 1) "segment 1".

Definition deadLetterUnknownName : T () :=
  name ← fresh_name; got ← deadLetters name 0; need (zlen got =? 0) "LoadDeadLetters for an unknown name".

Definition deadLetterClearedByReset : T () :=
  name ← newProjection 2; claim name 0 owner longTTL ;; claim name 1 owner longTTL ;;
  saveDeadLetters name 0 [letter 1 "order-1" "a"] ;; saveDeadLetters name 1 [letter 1 "order-2" "b"] ;; reset_ok name 2 ;;
  for_each [0; 1] (λ seg, got ← deadLetters name seg; want (zlen got =? 0) "dead letters after Reset").

(** ** Replay *)
Definition replayProjection : T string :=
  name ← newProjection 3; for_each [0; 1; 2] (λ seg, claim name seg owner longTTL ;; mret ()) ;;
  saveDeadLetters name 0 [letter 1 "order-1" "boom"] ;; saveDeadLetters name 1 [letter 1 "order-2" "boom"] ;;
  saveDeadLetters name 2 [letter 1 "order-1" "boom"] ;; mret name.

Definition requestReplay (name streamID : string) : T Z := r ← store (pt_RequestReplay name streamID); must r "RequestReplay".
Definition pendingReplays (name : string) : T (list Replay) := r ← store (pt_PendingReplays name); must r "PendingReplays".
Definition replayResult (name : string) (n : Z) : T (Z * list string) := r ← store (pt_ReplayResult name n); must r "ReplayResult".
Definition finishReplay (name : string) (n segment : Z) (msg : string) : T () :=
  l ← lease name segment owner; e ← store (pt_FinishReplay l n msg); no_error e "FinishReplay".

Definition result_is (r : Z * list string) (pending : Z) (errs : list string) : bool :=
  (r.1 =? pending) && bool_decide (r.2 = errs).

Definition on_segments_0_and_2 (n : Z) : list Replay := [mkReplay n "order-1" 0; mkReplay n "order-1" 2].

Definition replayUnknownName : T () :=
  name ← fresh_name; r ← store (pt_RequestReplay name "order-1");
  need (is_error (match r with Fail e => Some e | Ok _ => None end) ErrUnknownProjection) "RequestReplay for an unknown name".

Definition replayNothingToReplay : T () :=
  name ← newProjection 1; n ← requestReplay name "order-1";
  got ← pendingReplays name; want (zlen got =? 0) "PendingReplays for a stream without dead letters" ;;
  r ← replayResult name n; want (result_is r 0 []) "want nothing pending".

Definition replayPendingPerSegment : T () :=
  name ← replayProjection; n ← requestReplay name "order-1"; got ← pendingReplays name;
  need (bool_decide (got = on_segments_0_and_2 n)) "PendingReplays" ;;
  r ← replayResult name n; need (r.1 =? 2) "ReplayResult, want 2".

Definition replayFinish : T () :=
  name ← replayProjection; n ← requestReplay name "order-1"; finishReplay name n 0 "" ;;
  r ← replayResult name n; need (result_is r 1 []) "ReplayResult after segment 0" ;;
  finishReplay name n 2 "handler failed" ;;
  r ← replayResult name n; need (result_is r 0 ["handler failed"]) "ReplayResult after both" ;;
  got ← pendingReplays name; want (zlen got =? 0) "PendingReplays after both finished".

Definition replaySucceededDeleted : T () :=
  name ← replayProjection; failed ← requestReplay name "order-1";
  finishReplay name failed 0 "" ;; finishReplay name failed 2 "handler failed" ;;
  r ← replayResult name failed; need (result_is r 0 ["handler failed"]) "ReplayResult of the failed request" ;;
  waiting ← requestReplay name "order-1"; succeeded ← requestReplay name "order-1";
  finishReplay name succeeded 0 "" ;; finishReplay name succeeded 2 "" ;;
  r ← replayResult name failed; want (result_is r 0 []) "the failed request after a later one succeeded" ;;
  r ← replayResult name succeeded; want (result_is r 0 []) "ReplayResult of the succeeded request" ;;
  got ← pendingReplays name; want (bool_decide (got = on_segments_0_and_2 waiting)) "the request still pending".

Definition replayFinishFenced : T () :=
  name ← replayProjection; n ← requestReplay name "order-1"; l ← lease name 0 other;
  e ← store (pt_FinishReplay l n ""); need (is_error e ErrClaimLost) "FinishReplay by an owner without the claim" ;;
  r ← replayResult name n; need (r.1 =? 2) "ReplayResult after a refused FinishReplay".

Definition replayNumbersIncrease : T () :=
  name ← replayProjection; first ← requestReplay name "order-1"; second ← requestReplay name "order-1";
  need (first <? second) "want a higher number" ;;
  got ← pendingReplays name; need (zlen got =? 4) "both requests on segments 0 and 2".

Definition replayClearedByReset : T () :=
  name ← replayProjection; n ← requestReplay name "order-1"; reset_ok name 2 ;;
  got ← pendingReplays name; want (zlen got =? 0) "PendingReplays after Reset" ;;
  r ← replayResult name n; want (result_is r 0 []) "ReplayResult after Reset" ;;
  l ← lease name 0 owner; e ← store (pt_FinishReplay l n "");
  want (bool_decide (e = None :> option error)) "FinishReplay of a request Reset deleted".

Definition StoreAcceptanceTest : T () :=
  group "Declare" [
    ("CreatesSegments", declareCreatesSegments); ("Idempotent", declareIdempotent);
    ("SegmentsChanged", declareSegmentsChanged); ("KeepsStoredProgress", declareKeepsStoredProgress);
    ("SetsReplayUntil", declareSetsReplayUntil)] ;;
  group "Claim" [
    ("Fresh", claimFresh); ("Refresh", claimRefresh); ("SameOwnerNewProcess", claimSameOwnerNewProcess);
    ("TakeoverRaisesEpoch", claimTakeoverRaisesEpoch); ("HeldByOther", claimHeldByOther); ("Expired", claimExpired);
    ("ExpiresByHolderTTL", claimExpiresByHolderTTL); ("SegmentsIndependent", claimSegmentsIndependent);
    ("ReturnsCheckpoint", claimReturnsCheckpoint); ("SetsOwner", claimSetsOwner)] ;;
  group "Commit" [
    ("StoresCheckpoint", commitStoresCheckpoint); ("StoresStatus", commitStoresStatus);
    ("RunsFnOnce", commitRunsFnOnce); ("FnErrorKeepsState", commitFnErrorKeepsState); ("NotOwner", commitNotOwner);
    ("AfterRelease", commitAfterRelease); ("AfterTakeover", commitAfterTakeover); ("StaleEpoch", commitStaleEpoch);
    ("RefreshesHeartbeat", commitRefreshesHeartbeat)] ;;
  group "Reset" [
    ("MovesCheckpoint", resetMovesCheckpoint); ("KeepsReplayUntil", resetKeepsReplayUntil);
    ("RunsWipeOnce", resetRunsWipeOnce); ("WipeErrorKeepsState", resetWipeErrorKeepsState);
    ("NotOwner", resetNotOwner); ("StaleEpoch", resetStaleEpoch); ("CoversEverySegment", resetCoversEverySegment)] ;;
  group "Release" [
    ("LetsOtherClaim", releaseLetsOtherClaim); ("ClearsOwner", releaseClearsOwner);
    ("MarksStandby", releaseMarksStandby); ("NotOwnerNoop", releaseNotOwnerNoop);
    ("StaleEpochNoop", releaseStaleEpochNoop)] ;;
  group "SaveStatus" [
    ("Publishes", saveStatusPublishes); ("KeepsCheckpoint", saveStatusKeepsCheckpoint);
    ("NotOwnerRefused", saveStatusNotOwnerRefused); ("StaleEpoch", saveStatusStaleEpoch)] ;;
  group "LoadStatuses" [
    ("UnknownName", loadStatusesUnknownName); ("Age", loadStatusesAge); ("ReplayUntil", loadStatusesReplayUntil);
    ("ClaimTTL", loadStatusesClaimTTL)] ;;
  group "RebuildRequests" [
    ("UnknownName", rebuildUnknownName); ("Counted", rebuildCounted); ("ServedByReset", rebuildServedByReset);
    ("InStatus", rebuildInStatus); ("Failure", rebuildFailure)] ;;
  group "Heartbeat" [
    ("ListsSelf", heartbeatListsSelf); ("OrderedByOwner", heartbeatOrderedByOwner); ("Expires", heartbeatExpires);
    ("ExpiresByOwnTTL", heartbeatExpiresByOwnTTL); ("ZeroTTLRemoves", heartbeatZeroTTLRemoves);
    ("CountsSegments", heartbeatCountsSegments); ("UpdatesVersion", heartbeatUpdatesVersion); ("Age", heartbeatAge);
    ("NamesIndependent", heartbeatNamesIndependent)] ;;
  group "LoadInstances" [
    ("UnknownName", loadInstancesUnknownName); ("DoesNotRegister", loadInstancesDoesNotRegister);
    ("ExpiresByOwnTTL", loadInstancesExpiresByOwnTTL); ("MatchesHeartbeat", loadInstancesMatchesHeartbeat)] ;;
  group "DeadLetter" [
    ("InsideCommit", deadLetterInsideCommit); ("LoadOrdered", deadLetterLoadOrdered); ("Delete", deadLetterDelete);
    ("SegmentsIndependent", deadLetterSegmentsIndependent); ("UnknownName", deadLetterUnknownName);
    ("ClearedByReset", deadLetterClearedByReset)] ;;
  group "Replay" [
    ("UnknownName", replayUnknownName); ("NothingToReplay", replayNothingToReplay);
    ("PendingPerSegment", replayPendingPerSegment); ("Finish", replayFinish); ("FinishFenced", replayFinishFenced);
    ("SucceededDeleted", replaySucceededDeleted); ("NumbersIncrease", replayNumbersIncrease);
    ("ClearedByReset", replayClearedByReset)].
End suite.
