(* ===== verification/TodoList.v ===== *)
(** * A todo list ([examples/todolist/slices/taskstoarchive])

    The list of Part 5 of the examples: every completed task that is not
    archived yet, with the moment it becomes due, written by a projection and
    claimed by an automation.  [K] is [uuid.UUID] and [text] its [String]. *)
From S2P Require Import Prelude Core AutoTypes.

Section todo.
Context {K : Type} `{Countable K} (text : K → string).

Record item : Type := mkItem { due : time; claimedUntil : time }.

Record TasksToArchive : Type := mkTasks { delay : duration; items : gmap K item }.

Definition NewTasksToArchive (d : duration) : TasksToArchive := mkTasks d ∅.

Definition onCompleted (taskID : K) (completedAt : time) (l : TasksToArchive) : TasksToArchive :=
  mkTasks (delay l) (<[taskID := mkItem (time_Add completedAt (delay l)) time_zero]> (items l)).

Definition onArchived (taskID : K) (l : TasksToArchive) : TasksToArchive := mkTasks (delay l) (delete taskID (items l)).

(** [!it.due.After(now) && !it.claimedUntil.After(now)] *)
Definition claimable (now : time) (it : item) : bool := negb (time_After (due it) now) && negb (time_After (claimedUntil it) now).

Definition due_tasks (now : time) (l : TasksToArchive) : list K :=
  sort_slice (λ a b, string_less (text a) (text b)) (fst <$> bfilter (λ x, claimable now x.2) (map_to_list (items l))).

Definition lease_to (until : time) (l : TasksToArchive) (id : K) : TasksToArchive :=
  mkTasks (delay l) (alter (λ it, mkItem (due it) until) id (items l)).

Definition ClaimTasks (now : time) (req : ClaimRequest) (l : TasksToArchive) : outcome (list K * TasksToArchive) :=
  let due := due_tasks now l in
  let claim ids := Returns (ids, foldl (lease_to (time_Add now (cr_Lease req))) l ids) in
  if cr_MaxPerKey req <? zlen due then
    if cr_MaxPerKey req <? 0 then Panics "slice bounds out of range" else claim (take (Z.to_nat (cr_MaxPerKey req)) due)
  else claim due.

(** ** What a claim does *)
Lemma elem_of_due_tasks now l id : id ∈ due_tasks now l ↔ ∃ it, items l !! id = Some it ∧ claimable now it = true.
Proof.
  unfold due_tasks. rewrite elem_of_sort_slice, list_elem_of_fmap. split.
  - intros ([k it] & -> & (Hc & Hin%elem_of_map_to_list)%elem_of_bfilter). eauto.
  - intros (it & Hin & Hc). exists (id, it). split; [done|]. apply elem_of_bfilter. by rewrite elem_of_map_to_list.
Qed.

Lemma due_tasks_NoDup now l : NoDup (due_tasks now l).
Proof.
  unfold due_tasks. rewrite sort_slice_perm. apply bfilter_NoDup_fmap, NoDup_fst_map_to_list.
Qed.

Lemma leased_items until ids l id : NoDup ids →
  items (foldl (lease_to until) l ids) !! id =
  if decide (id ∈ ids) then (λ it, mkItem (due it) until) <$> items l !! id else items l !! id.
Proof.
  intros Hnd. revert l. induction Hnd as [|x ids Hx Hnd IH]; intros l; cbn [foldl].
  - by rewrite decide_False by apply not_elem_of_nil.
  - rewrite IH. cbn. destruct (decide (id = x)) as [->|Hne].
    + rewrite decide_False, decide_True, lookup_alter_eq by set_solver. done.
    + rewrite !lookup_alter_ne by done. destruct (decide (id ∈ ids)); [rewrite decide_True by set_solver|rewrite decide_False by set_solver]; done.
Qed.

(** The tasks a claim returns are the first of those it may return. *)
Lemma ClaimTasks_Returns now req l ids l' : ClaimTasks now req l = Returns (ids, l') →
  NoDup ids ∧ ids `prefix_of` due_tasks now l ∧ l' = foldl (lease_to (time_Add now (cr_Lease req))) l ids ∧
  zlen ids = Z.min (cr_MaxPerKey req) (zlen (due_tasks now l)).
Proof.
  unfold ClaimTasks. pose proof (due_tasks_NoDup now l) as Hnd. set (d := due_tasks now l) in *.
  destruct (Z.ltb_spec (cr_MaxPerKey req) (zlen d)) as [Hlt|Hge].
  - destruct (Z.ltb_spec (cr_MaxPerKey req) 0); [done|]. intros [= <- <-]. split_and!; [|eexists; symmetry; apply take_drop|done|].
    + rewrite <- (take_drop (Z.to_nat (cr_MaxPerKey req)) d) in Hnd. by apply NoDup_app in Hnd as (? & _ & _).
    + unfold zlen in *. rewrite length_take. lia.
  - intros [= <- <-]. split_and!; [done..|]. lia.
Qed.

(** A task that is on the list is leased until then at least. *)
Definition leased_until (until : time) (id : K) (l : TasksToArchive) : Prop :=
  ∀ it, items l !! id = Some it → until ≤ claimedUntil it.

Lemma leased_not_due now until id l : leased_until until id l → now < until → id ∉ due_tasks now l.
Proof.
  intros Hl Hlt (it & Hin & Hc)%elem_of_due_tasks. specialize (Hl it Hin).
  unfold claimable, time_After in Hc. destruct (Z.ltb_spec now (claimedUntil it)); [|lia]. by rewrite andb_false_r in Hc.
Qed.

Lemma claim_keeps_lease now req until id l ids l' : ClaimTasks now req l = Returns (ids, l') →
  leased_until until id l → now < until → id ∉ ids ∧ leased_until until id l'.
Proof.
  intros (Hnd & Hpre & -> & _)%ClaimTasks_Returns Hl Hlt.
  assert (id ∉ ids) as Hni.
  { intros Hin. apply (leased_not_due now until id l Hl Hlt). destruct Hpre as [k ->]. set_solver. }
  split; [done|]. intros it. rewrite leased_items, decide_False by done. apply Hl.
Qed.

(** ** Histories of a list whose tasks were completed before *)
Inductive todo_call : Type :=
| TClaim (now : time) (req : ClaimRequest)
| TArchived (taskID : K).

(** The answers of the claims, until one panics *)
Fixpoint run_todo (cs : list todo_call) (l : TasksToArchive) : list (list K) :=
  match cs with
  | [] => []
  | TArchived id :: cs => run_todo cs (onArchived id l)
  | TClaim now req :: cs => match ClaimTasks now req l with Returns (ids, l) => ids :: run_todo cs l | Panics _ => [] end
  end.

Definition before (until : time) (c : todo_call) : Prop := match c with TClaim now _ => now < until | TArchived _ => True end.

Lemma leased_until_gone until cs l id : leased_until until id l → Forall (before until) cs → id ∉ concat (run_todo cs l).
Proof.
  intros Hl Hcs. revert l Hl. induction Hcs as [|c cs Hc Hcs IH]; intros l Hl; [apply not_elem_of_nil|].
  destruct c as [now req|x]; cbn [run_todo].
  - destruct (ClaimTasks now req l) as [[ids l']|] eqn:Hclaim; [|apply not_elem_of_nil].
    destruct (claim_keeps_lease _ _ until id _ _ _ Hclaim Hl Hc) as [Hni Hl']. cbn. rewrite elem_of_app. intros [Hin|Hin]; [done|].
    by apply (IH l').
  - apply IH. intros it Hit. apply Hl. cbn in Hit. by apply lookup_delete_Some in Hit as [_ Hit].
Qed.

(** A task that a claim of the examples' todo list returned is returned by no
    claim before its lease ends, whatever is claimed and archived in between;
    and a claim returns as many of the tasks that are due and unclaimed as it
    may, each once. *)
Theorem claimed_task_is_not_claimed_again now req l ids l' cs : ClaimTasks now req l = Returns (ids, l') →
  Forall (before (time_Add now (cr_Lease req))) cs →
  NoDup ids ∧ zlen ids = Z.min (cr_MaxPerKey req) (zlen (due_tasks now l)) ∧ (∀ id, id ∈ ids → id ∈ due_tasks now l) ∧
  ∀ id, id ∈ ids → id ∉ concat (run_todo cs l').
Proof.
  intros Hclaim Hcs. destruct (ClaimTasks_Returns _ _ _ _ _ Hclaim) as (Hnd & [k Hpre] & -> & Hlen). split_and!; [done|done| |].
  - intros id Hin. rewrite Hpre. set_solver.
  - intros id Hin. apply (leased_until_gone (time_Add now (cr_Lease req))); [|done].
    intros it. rewrite leased_items, decide_True by done. intros (it0 & _ & ->)%fmap_Some. done.
Qed.
End todo.

(** A list of three tasks, two of them due *)
Definition sample_tasks : TasksToArchive (K := string) :=
  onCompleted "c" 90 (onCompleted "b" 10 (onCompleted "a" 5 (NewTasksToArchive 20))).

Lemma claimed_task_is_not_claimed_again_witness :
  concat (run_todo id [TClaim 55 (mkClaimRequest [] 5 50); TArchived "a"; TClaim 89 (mkClaimRequest [] 5 50)]
            (foldl (lease_to 90) sample_tasks ["a"])) = ["b"] ∧
  "a" ∉ concat (run_todo id [TClaim 55 (mkClaimRequest [] 5 50); TArchived "a"; TClaim 89 (mkClaimRequest [] 5 50)]
            (foldl (lease_to 90) sample_tasks ["a"])).
Proof.
  split; [vm_compute; reflexivity|].
  apply (claimed_task_is_not_claimed_again id 40 (mkClaimRequest [] 1 50) sample_tasks ["a"]);
    [vm_compute; reflexivity|repeat constructor|constructor].
Defined.
