(* ===== verification/AutomationSuite.v ===== *)
(** * The contracts of automations as test suites ([automation/automationtest])

    [StoreAcceptanceTest] of [store.go] and [ClaimAcceptanceTest] of
    [claim.go], test by test.  Where a test starts goroutines, the order in
    which their calls reach the store or the list is an argument. *)
From stdpp Require Import pretty.
From S2P Require Import Prelude Core Context AutoTypes SuiteTest.

(** What the suite of stores calls; [au_Sleep] lets the store's clock run. *)
Class AutomationStoreUnderTest (W : Type) : Type := {
  ut_Acquire : string → string → list Candidate → Z → duration → W → result error AcquireResult * W;
  ut_Renew : list SegmentLease → duration → W → result error (list SegmentLease) * W;
  ut_Release : list ReleaseRequest → W → result error (list SegmentLease) * W;
  ut_Defer : string → string → duration → W → option error * W;
  ut_DeferredFor : string → string → W → result error duration * W;
  ut_SetPaused : string → bool → W → option error * W;
  ut_Paused : string → W → result error bool * W;
  ut_SaveStatus : string → Status → duration → W → option error * W;
  ut_LoadStatuses : string → W → result error (list Status) * W;
  ut_LoadSegments : string → W → result error (list SegmentState) * W;
  au_Sleep : duration → W → W;
}.

#[export] Instance Status_eq_dec : EqDecision Status.
Proof. solve_decision. Defined.

Definition minute : duration := 60 * second.
Definition hour : duration := 60 * minute.
Definition longTTL : duration := hour.
Definition turnGap : duration := 5 * millisecond.
Definition pauseSlack : duration := 2 * second.

Definition segs (keys : list string) : list Candidate := (λ k, mkCandidate k "") <$> keys.

(** [strings.Join] *)
Definition join (sep : string) (l : list string) : string :=
  match l with [] => "" | s :: l => s +:+ foldr (λ x r, sep +:+ x +:+ r) "" l end.

Definition keysOf (ls : list SegmentLease) : string := join "," (sl_Key <$> ls).
Definition sortedKeys (ls : list SegmentLease) : string := join "," (sort_slice string_less (sl_Key <$> ls)).

Definition with_owner (owner : string) (l : SegmentLease) : SegmentLease :=
  mkSegmentLease (sl_Name l) (sl_Key l) owner (sl_Epoch l).

Section suite.
Context {W : Type} `{AS : AutomationStoreUnderTest W, U : UUIDString}.
Notation T := (test W).

Definition newName : T string := u ← uuid_New; mret ("automationtest-" +:+ uuid_String u).
Definition time_Sleep (d : duration) : T () := call (λ w, ((), au_Sleep d w)).

Definition acquire (name owner : string) (cands : list Candidate) (max_ : Z) (ttl : duration) : T AcquireResult :=
  r ← call (ut_Acquire name owner cands max_ ttl); res ← must r "Acquire";
  for_each (ac_Granted res) (λ l, need (bool_decide (sl_Name l = name) && bool_decide (sl_Owner l = owner)) "Acquire granted") ;;
  mret res.

Definition acquires (name owner : string) (cands : list Candidate) (max_ : Z) (ttl : duration) (keys msg : string) : T (list SegmentLease) :=
  res ← acquire name owner cands max_ ttl; need (bool_decide (keysOf (ac_Granted res) = keys)) msg ;; mret (ac_Granted res).

(** [ls[i]]; a shorter list panics. *)
Definition nth_lease (ls : list SegmentLease) (i : nat) : T SegmentLease :=
  match ls !! i with Some l => mret l | None => Fatalf "index out of range" end.

Definition release (rel : list ReleaseRequest) : T () :=
  r ← call (ut_Release rel); lost ← must r "Release"; need (zlen lost =? 0) "Release".

Definition defer (name key : string) (d : duration) : T () := e ← call (ut_Defer name key d); no_error e "Defer".
Definition deferredFor (name key : string) : T duration := r ← call (ut_DeferredFor name key); must r "DeferredFor".

Definition wantPaused (name key : string) (want_ : duration) : T () :=
  d ← deferredFor name key; need (negb (want_ <? d) && negb (d <? want_ - pauseSlack)) "DeferredFor".

Definition renew (ls : list SegmentLease) (ttl : duration) : T (list SegmentLease) := r ← call (ut_Renew ls ttl); must r "Renew".

(** What a map from keys to leases holds of a key; the zero lease where it holds none *)
Definition lease_of (key : string) (ls : list SegmentLease) : SegmentLease :=
  default (mkSegmentLease "" "" "" 0) (last (bfilter (λ l, bool_decide (sl_Key l = key)) ls)).

(** ** Acquire *)
Definition acquireGrantsUpToMax : T () :=
  name ← newName; res ← acquire name "o1" (segs ["a"; "b"; "c"]) 2 longTTL;
  need ((zlen (ac_Granted res) =? 2) && (ac_Active res =? 3) && (ac_Eligible res =? 1)) "2 granted, 3 active, 1 eligible" ;;
  l0 ← nth_lease (ac_Granted res) 0; l1 ← nth_lease (ac_Granted res) 1;
  need (negb (bool_decide (sl_Key l0 = sl_Key l1))) "granted twice" ;;
  for_each (ac_Granted res) (λ l, need (negb (sl_Epoch l =? 0)) "a raised epoch").

Definition acquireNeverGrantsAHeldKey : T () :=
  name ← newName; let cands := segs ["a"; "b"] in
  r1 ← acquire name "o1" cands 1 longTTL; r2 ← acquire name "o2" cands 2 longTTL;
  need (match ac_Granted r1, ac_Granted r2 with [l1], [l2] => negb (bool_decide (sl_Key l1 = sl_Key l2)) | _, _ => false end)
    "want one different key each" ;;
  r3 ← acquire name "o3" cands 2 longTTL;
  need ((zlen (ac_Granted r3) =? 0) && (ac_Eligible r3 =? 0) && (ac_Active r3 =? 2)) "nothing granted, nothing eligible, 2 active" ;;
  r ← acquire name "o1" cands 2 longTTL; need (zlen (ac_Granted r) =? 0) "o1 was granted its key again".

Definition acquireMaxZero : T () :=
  name ← newName; res ← acquire name "o1" (segs ["a"; "b"]) 0 longTTL;
  need ((zlen (ac_Granted res) =? 0) && (ac_Active res =? 2) && (ac_Eligible res =? 2)) "nothing granted, 2 active, 2 eligible".

Definition acquireIgnoresDuplicates : T () :=
  name ← newName; res ← acquire name "o1" (segs ["a"; "a"; "b"]) 3 longTTL;
  need ((zlen (ac_Granted res) =? 2) && (ac_Active res =? 2)) "a and b granted once each".

Definition acquireNoCandidates : T () :=
  name ← newName; res ← acquire name "o1" [] 3 longTTL;
  need ((zlen (ac_Granted res) =? 0) && (ac_Active res =? 0) && (ac_Eligible res =? 0)) "want zero".

Definition acquireExpiredRaisesEpoch : T () :=
  name ← newName; let ttl := 300 * millisecond in
  r1 ← acquire name "o1" (segs ["a"]) 1 ttl; need (zlen (ac_Granted r1) =? 1) "o1 got a" ;;
  time_Sleep (2 * ttl) ;;
  g2 ← acquires name "o2" (segs ["a"]) 1 ttl "a" "after expiry o2 got a";
  l1 ← nth_lease (ac_Granted r1) 0; l2 ← nth_lease g2 0; need (sl_Epoch l1 <? sl_Epoch l2) "an epoch above".

Definition acquireNamesIndependent : T () :=
  n1 ← newName; n2 ← newName;
  acquires n1 "o1" (segs ["a"]) 1 longTTL "a" "want a" ;; acquires n2 "o2" (segs ["a"]) 1 longTTL "a" "want a" ;;
  defer n1 "b" hour ;; d ← deferredFor n2 "b"; need (d =? 0) "a pause in one automation shows in another".

(** [order]: the owners in the order in which their calls reach the store,
    each three times. *)
Definition concurrent_keys : list string := (λ i, String (Ascii.ascii_of_nat (97 + i)) "") <$> seq 0 20.

Fixpoint acquire_turns (name : string) (order failed : list nat) (granted : gmap string string) : T (gmap string string) :=
  match order with
  | [] => mret granted
  | i :: order =>
    if bool_decide (i ∈ failed) then acquire_turns name order failed granted
    else
      let owner := "o" +:+ pretty i in
      r ← call (ut_Acquire name owner (segs concurrent_keys) 2 longTTL);
      match r with
      | Fail _ => Errorf_ "Acquire" ;; acquire_turns name order (i :: failed) granted
      | Ok res =>
        for_each (ac_Granted res) (λ l, want (bool_decide (granted !! sl_Key l = None)) "key granted while another holds it") ;;
        acquire_turns name order failed (foldl (λ m l, <[sl_Key l := owner]> m) granted (ac_Granted res))
      end
  end.

Definition acquireConcurrent (order : list nat) : T () :=
  name ← newName; granted ← acquire_turns name order [] ∅;
  need (size granted =? length concurrent_keys)%nat "keys granted, want all".

Fixpoint serve (n : nat) (name : string) (cands : list Candidate) (served : list string) : T (list string) :=
  match n with
  | O => mret served
  | S n =>
    res ← acquire name "o1" cands 1 longTTL; need (zlen (ac_Granted res) =? 1) "want one key" ;;
    l ← nth_lease (ac_Granted res) 0;
    time_Sleep turnGap ;; release [mkRelease l 0 true] ;; time_Sleep turnGap ;;
    serve n name cands (served ++ [sl_Key l])
  end.

Definition unserved (l : SegmentLease) : ReleaseRequest := mkRelease l 0 false.

Definition acquireRoundRobins : T () :=
  name ← newName; let acme := [mkCandidate "acme:stripe" "acme"; mkCandidate "acme:shopify" "acme"] in
  acquire name "o1" acme 0 longTTL ;; time_Sleep turnGap ;;
  let cands := acme ++ [mkCandidate "zed:stripe" "zed"] in
  g ← acquires name "o1" cands 3 longTTL "acme:shopify,zed:stripe,acme:stripe" "multi-grant";
  release (unserved <$> g) ;;
  served ← serve 6 name cands [];
  need (bool_decide (join "," served = "acme:shopify,zed:stripe,acme:stripe,zed:stripe,acme:shopify,zed:stripe")) "served".

Definition acquireKeepsGroup : T () :=
  name ← newName; acquire name "o1" [mkCandidate "a1" "a"; mkCandidate "a2" "a"; mkCandidate "b1" "b"] 0 longTTL ;;
  acquires name "o1" (segs ["a1"; "a2"; "b1"]) 3 longTTL "a1,b1,a2" "grant" ;; mret ().

(** ** Renew *)
Fixpoint renew_turns (n : nat) (ls : list SegmentLease) (ttl : duration) : T () :=
  match n with
  | O => mret ()
  | S n => time_Sleep (ttl / 2) ;; lost ← renew ls ttl; need (zlen lost =? 0) "Renew" ;; renew_turns n ls ttl
  end.

Definition renewExtends : T () :=
  name ← newName; let ttl := 400 * millisecond in
  res ← acquire name "o1" (segs ["a"]) 1 ttl; renew_turns 3 (ac_Granted res) ttl ;;
  r ← acquire name "o2" (segs ["a"]) 1 ttl; need (zlen (ac_Granted r) =? 0) "o2 was granted a renewed key".

Definition renewReportsLost : T () :=
  name ← newName; let ttl := 300 * millisecond in
  r1 ← acquire name "o1" (segs ["a"; "b"]) 2 ttl;
  let a := lease_of "a" (ac_Granted r1) in
  let b := lease_of "b" (ac_Granted r1) in
  lost ← renew [a; with_owner "o9" b; mkSegmentLease name "nope" "o1" 1] ttl;
  need (bool_decide (sortedKeys lost = "b,nope")) "want b,nope" ;;
  time_Sleep (2 * ttl) ;;
  lost ← renew [a] ttl; need (bool_decide (keysOf lost = "a")) "Renew of an expired lease" ;;
  acquires name "o2" (segs ["b"]) 1 longTTL "b" "o2 got b" ;;
  lost ← renew [b] ttl; need (bool_decide (keysOf lost = "b")) "Renew of a superseded lease".

(** ** Release *)
Definition releaseFrees : T () :=
  name ← newName; res ← acquire name "o1" (segs ["a"]) 1 longTTL; l ← nth_lease (ac_Granted res) 0; release [unserved l] ;;
  d ← deferredFor name "a"; need (d =? 0) "released without DeferFor" ;;
  g2 ← acquires name "o2" (segs ["a"]) 1 longTTL "a" "after release o2 got a";
  l2 ← nth_lease g2 0; need (sl_Epoch l <? sl_Epoch l2) "an epoch above" ;;
  lost ← renew (ac_Granted res) longTTL; need (bool_decide (keysOf lost = "a")) "Renew after release".

Definition releaseFenced : T () :=
  name ← newName; let ttl := 300 * millisecond in
  r1 ← acquire name "o1" (segs ["a"]) 1 ttl; old ← nth_lease (ac_Granted r1) 0; time_Sleep (2 * ttl) ;;
  g2 ← acquires name "o2" (segs ["a"]) 1 longTTL "a" "o2 got a"; l2 ← nth_lease g2 0;
  r ← call (ut_Release [mkRelease old hour true; mkRelease (with_owner "o1" l2) hour false]);
  lost ← must r "stale Release"; need (zlen lost =? 2) "stale Release lost both" ;;
  d ← deferredFor name "a"; need (d =? 0) "a stale release paused the key" ;;
  r ← acquire name "o3" (segs ["a"]) 1 longTTL; need (zlen (ac_Granted r) =? 0) "a stale release freed the key" ;;
  lost ← renew g2 longTTL; need (zlen lost =? 0) "holder's Renew after a stale release".

Definition releaseDeferFor : T () :=
  name ← newName; res ← acquire name "o1" (segs ["a"; "b"]) 2 longTTL;
  release [mkRelease (lease_of "a" (ac_Granted res)) minute false; unserved (lease_of "b" (ac_Granted res))] ;;
  wantPaused name "a" minute ;;
  r ← acquire name "o2" (segs ["a"; "b"]) 2 longTTL;
  need (bool_decide (keysOf (ac_Granted r) = "b") && (ac_Active r =? 1)) "want only b and 1 active".

Definition releaseServed : T () :=
  name ← newName; let cands := segs ["a"; "b"] in
  acquire name "o1" cands 0 longTTL ;; time_Sleep turnGap ;;
  g ← acquires name "o1" cands 1 longTTL "a" "first grant"; l ← nth_lease g 0;
  time_Sleep turnGap ;; release [mkRelease l 0 true] ;; time_Sleep turnGap ;;
  g ← acquires name "o1" cands 2 longTTL "b,a" "after a was served"; release (unserved <$> g) ;; time_Sleep turnGap ;;
  acquires name "o1" cands 2 longTTL "b,a" "after an unserved release" ;; mret ().

(** ** Defer *)
Definition deferPauses : T () :=
  name ← newName; let pause := 400 * millisecond in
  defer name "a" pause ;; res ← acquire name "o1" (segs ["a"; "b"]) 2 longTTL;
  need (bool_decide (keysOf (ac_Granted res) = "b") && (ac_Active res =? 1) && (ac_Eligible res =? 0)) "want only b" ;;
  time_Sleep (pause + 100 * millisecond) ;; d ← deferredFor name "a"; need (d =? 0) "pause passed" ;;
  acquires name "o1" (segs ["a"; "b"]) 2 longTTL "a" "after the pause" ;; mret ().

Definition deferKeepsLonger : T () :=
  name ← newName; defer name "a" minute ;; defer name "a" second ;; wantPaused name "a" minute ;;
  defer name "a" hour ;; wantPaused name "a" hour ;;
  res ← acquire name "o1" (segs ["b"]) 1 longTTL; defer name "b" minute ;;
  lost ← renew (ac_Granted res) longTTL; need (zlen lost =? 0) "Renew after Defer" ;; wantPaused name "b" minute.

Definition deferUnknownKey : T () := name ← newName; d ← deferredFor name "never-seen"; need (d =? 0) "DeferredFor(unknown)".

Definition deferUnsegmented : T () := name ← newName; defer name "" (5 * second) ;; wantPaused name "" (5 * second).

(** ** Status *)
Definition loadStatuses (name : string) : T (list Status) := r ← call (ut_LoadStatuses name); must r "LoadStatuses".
Definition setPaused (name : string) (paused : bool) : T () := e ← call (ut_SetPaused name paused); no_error e "SetPaused".
Definition paused_is (name : string) (want_ : bool) (msg : string) : T () :=
  r ← call (ut_Paused name); need (match r with Ok p => Bool.eqb p want_ | Fail _ => false end) msg.
Definition saveStatus (name : string) (st : Status) (ttl : duration) : T () :=
  e ← call (ut_SaveStatus name st ttl); no_error e "SaveStatus".

Definition pauseIsPerAutomation : T () :=
  n1 ← newName; n2 ← newName; setPaused n1 true ;; paused_is n1 true "want true" ;;
  paused_is n2 false "a pause is per automation" ;; setPaused n1 false ;; paused_is n1 false "Paused after resume".

Definition status_a : Status := mkStatus "owner-a" Working "" 1 0 0 "" 0.
Definition status_b : Status := mkStatus "owner-b" Waiting "todo-list" 7 2 1 "boom" 0.
Definition idle (owner : string) : Status := mkStatus owner Idle "" 0 0 0 "" 0.
Definition without_age (st : Status) : Status :=
  mkStatus (st_Owner st) (st_Phase st) (st_WaitingFor st) (st_Processed st) (st_Failed st) (st_Deferred st) (st_LastError st) 0.

Definition statusesSaved : T () :=
  name ← newName; saveStatus name status_b longTTL ;; saveStatus name (idle "owner-a") longTTL ;;
  saveStatus name status_a longTTL ;;
  sts ← loadStatuses name; need (zlen sts =? 2) "owner-a and owner-b" ;;
  for_each (zip sts [status_a; status_b]) (λ '(got, want_),
    need (negb (st_Age got <? 0) && negb (pauseSlack <? st_Age got)) "just saved" ;;
    need (bool_decide (without_age got = want_)) "status").

Definition statusesDropExpired : T () :=
  name ← newName; let ttl := 300 * millisecond in
  saveStatus name (idle "gone") ttl ;; saveStatus name (idle "here") longTTL ;; time_Sleep (2 * ttl) ;;
  sts ← loadStatuses name; need (bool_decide (st_Owner <$> sts = ["here"])) "want only the one still live".

Definition segmentsLoaded : T () :=
  name ← newName; acquires name "o1" [mkCandidate "a" "acme"] 1 longTTL "a" "o1 got a" ;; defer name "b" minute ;;
  r ← call (ut_LoadSegments name); sgs ← must r "LoadSegments";
  match sgs with
  | [a; b] =>
    need (bool_decide (sg_Key a = "a") && bool_decide (sg_Group a = "acme") && bool_decide (sg_Owner a = "o1") && (sg_PausedFor a =? 0))
      "segment a" ;;
    need (bool_decide (sg_Key b = "b") && bool_decide (sg_Owner b = "") && negb (minute <? sg_PausedFor b) &&
          negb (sg_PausedFor b <? minute - pauseSlack)) "segment b"
  | _ => Fatalf "want a and b"
  end.

Definition statusUnknown : T () :=
  name ← newName; paused_is name false "Paused(unknown)" ;;
  sts ← loadStatuses name; need (zlen sts =? 0) "LoadStatuses(unknown)" ;;
  r ← call (ut_LoadSegments name); need (match r with Ok l => zlen l =? 0 | Fail _ => false end) "LoadSegments(unknown)".

Definition StoreAcceptanceTest (order : list nat) : T () :=
  group "Acquire" [
    ("GrantsUpToMax", acquireGrantsUpToMax); ("NeverGrantsAHeldKey", acquireNeverGrantsAHeldKey);
    ("MaxZeroRecordsAndCounts", acquireMaxZero); ("IgnoresDuplicateKeys", acquireIgnoresDuplicates);
    ("NoCandidates", acquireNoCandidates); ("ExpiredLeaseRaisesEpoch", acquireExpiredRaisesEpoch);
    ("NamesAreIndependent", acquireNamesIndependent); ("ConcurrentNeverDoubled", acquireConcurrent order);
    ("RoundRobinsGroupsThenKeys", acquireRoundRobins); ("KeepsGroupWhenOmitted", acquireKeepsGroup)] ;;
  group "Renew" [("ExtendsTheLease", renewExtends); ("ReportsLost", renewReportsLost)] ;;
  group "Release" [
    ("FreesTheKey", releaseFrees); ("FencedOnOwnerAndEpoch", releaseFenced); ("DeferForPauses", releaseDeferFor);
    ("ServedGoesToTheBack", releaseServed)] ;;
  group "Status" [
    ("PauseIsPerAutomation", pauseIsPerAutomation); ("SavedStatuses", statusesSaved);
    ("ExpiredStatusLeftOut", statusesDropExpired); ("Segments", segmentsLoaded); ("UnknownAutomation", statusUnknown)] ;;
  group "Defer" [
    ("PausesGrants", deferPauses); ("KeepsTheLongerPause", deferKeepsLonger); ("UnknownKey", deferUnknownKey);
    ("Unsegmented", deferUnsegmented)].
End suite.

(** ** The claims of a todo list ([claim.go]) *)
Class TodoListUnderTest (W : Type) : Type := {
  tl_new : W → W;  (* [newList]: each subtest has a list of its own *)
  tl_Add : string → W → option error * W;
  tl_Complete : string → W → option error * W;
  tl_Claim : ClaimRequest → W → result error (list string) * W;
  tl_Sleep : duration → W → W;
}.

Definition longLease : duration := hour.
Definition shortLease : duration := 300 * millisecond.

Section claims.
Context {W : Type} `{TL : TodoListUnderTest W}.
Notation T := (test W).

Definition todo_Sleep (d : duration) : T () := call (λ w, ((), tl_Sleep d w)).
Definition add (ids : list string) : T () := for_each ids (λ id, e ← call (tl_Add id); no_error e "Add").
Definition complete (id : string) : T () := e ← call (tl_Complete id); no_error e "Complete".
Definition claim (max_ : Z) (lease : duration) : T (list string) :=
  r ← call (tl_Claim (mkClaimRequest [] max_ lease)); must r "claim".
Definition claims (max_ : Z) (lease : duration) (ids : list string) (msg : string) : T () :=
  got ← claim max_ lease; need (bool_decide (got = ids)) msg.

(** That the answer is not nil is not modelled: lists are not nil. *)
Definition claimEmpty : T () := claims 10 longLease [] "Claim on an empty list".

Definition claimUpToMax : T () :=
  add ["a"; "b"; "c"] ;; got ← claim 2 longLease; need (zlen got =? 2) "Claim(max 2) of three items".

Definition claimSkipsLeased : T () :=
  add ["a"; "b"] ;; first ← claim 1 longLease; second ← claim 10 longLease;
  need (match first, second with [x], [y] => negb (bool_decide (x = y)) | _, _ => false end) "want each item once" ;;
  third ← claim 10 longLease; need (zlen third =? 0) "want nothing while both items are leased".

Definition claimExpired : T () :=
  add ["a"] ;; claims 10 shortLease ["a"] "first claim" ;; todo_Sleep (2 * shortLease) ;;
  claims 10 longLease ["a"] "claim after the lease expired".

Definition claimSkipsCompleted : T () :=
  add ["a"; "b"] ;; complete "a" ;; claims 10 longLease ["b"] "claim after completing a".

Definition claimCompletedWhileLeased : T () :=
  add ["a"] ;; claim 10 shortLease ;; complete "a" ;; todo_Sleep (2 * shortLease) ;;
  got ← claim 10 longLease; need (zlen got =? 0) "claim after a leased item was completed".

(** [order]: the claimers, in the order in which their claims reach the list;
    one whose claim failed or was empty has stopped. *)
Definition items : nat := 40.
Definition item_ids : list string :=
  (λ i, "item-" +:+ (if (i <? 10)%nat then "0" else "") +:+ pretty i) <$> seq 0 items.

Fixpoint claim_turns (order stopped : list nat) (errs : list error) (seen : list string) : T (list error * list string) :=
  match order with
  | [] => mret (errs, seen)
  | c :: order =>
    if bool_decide (c ∈ stopped) then claim_turns order stopped errs seen
    else
      r ← call (tl_Claim (mkClaimRequest [] 3 longLease));
      match r with
      | Fail e => claim_turns order (c :: stopped) (e :: errs) seen
      | Ok [] => claim_turns order (c :: stopped) errs seen
      | Ok got => claim_turns order stopped errs (seen ++ got)
      end
  end.

Definition claimConcurrentDisjoint (order : list nat) : T () :=
  add item_ids ;; r ← claim_turns order [] [] []; need (zlen r.1 =? 0) "claimer" ;;
  for_each item_ids (λ id, want (zlen (bfilter (λ x, bool_decide (x = id)) r.2) =? 1) "want once").

Fixpoint claim_batches (n : nat) (got : list string) : T (list string) :=
  match n with
  | O => mret got
  | S n => batch ← claim 2 longLease; match batch with [] => mret got | _ => claim_batches n (got ++ batch) end
  end.

Definition claimEveryItemOnce : T () :=
  add ["a"; "b"; "c"; "d"; "e"] ;; got ← claim_batches 10 [];
  need (bool_decide (sort_slice string_less got = ["a"; "b"; "c"; "d"; "e"])) "want every item once".

Definition on_new_list (test_ : string * T ()) : T () := Run test_.1 (call (λ w, ((), tl_new w)) ;; test_.2).

Definition ClaimAcceptanceTest (order : list nat) : T () :=
  for_each (sort_slice (λ a b, string_less a.1 b.1) [
    ("EmptyListClaimsNothing", claimEmpty); ("ClaimsUpToMax", claimUpToMax); ("ClaimedItemsAreSkipped", claimSkipsLeased);
    ("ExpiredLeaseIsReclaimed", claimExpired); ("CompletedItemsAreGone", claimSkipsCompleted);
    ("ConcurrentClaimsDisjoint", claimConcurrentDisjoint order); ("EveryItemIsClaimedOnce", claimEveryItemOnce);
    ("CompletedWhileLeasedIsOff", claimCompletedWhileLeased)]) on_new_list.
End claims.
