(* ===== verification/SuiteRuns.v ===== *)
(** * The stores pass their contract suites

    Event stores first: the suites of [StoreSuite] and [ReaderSuite], run on
    the in-memory store, on the SQLite store and on the PostgreSQL store; a
    second run finds what the first left in the store.  Then projection
    stores, automation stores and the todo list. *)
From stdpp Require Import pretty.
From S2P Require Import Prelude Core Iter Registry Context Log MemStore SqlValues SqlEvents SqliteStore PgStore Samples SqlExamples SuiteTest StoreSuite ReaderSuite.

#[local] Existing Instance sample_uuid_String.
#[local] Existing Instance sample_uuid_Parse.

(** ** The iterators, read in a context that does not end *)
Definition all_of {St} (fuel : nat) (it : Iterator St Envelope) : option (list Envelope * option error) :=
  match All fuel None it with Some (evs, e, _) => Some (evs, e) | None => None end.
Definition next_of {St} (it : Iterator St Envelope) : bool * Iterator St Envelope :=
  let '(more, _, it) := Next None it in (more, it).

(** ** The stores, each beside its clock *)
Definition ticking {St A} (f : time → St → A * St) (w : St * time) : A * (St * time) :=
  let '(a, s) := f w.2 w.1 in (a, (s, w.2 + 1)).

#[export] Instance memory_under_test : EventStoreUnderTest (EventStore * time) (Iterator Z Envelope) := {
  ut_Save evs state := ticking (λ now, Save now suite_registry evs state);
  ut_LoadStream id w := LoadStream suite_registry id w.1;
  ut_LoadStreamFrom id state w := LoadStreamFrom suite_registry id state w.1;
  ut_LoadCorrelation id w := LoadCorrelation suite_registry id w.1;
  ut_ReadAll after opts w := ReadAll None suite_registry after opts w.1;
  ut_Head w := Ok (Head w.1);
  ut_All := all_of; ut_Next := next_of; ut_Close := Close;
}.

(** A call that panics ends the test that makes it. *)
Definition or_panic {A} (o : outcome (result error A)) : result error A :=
  match o with Returns r => r | Panics _ => Fail (New "panic") end.

#[export] Instance sqlite_under_test :
    EventStoreUnderTest (sqlite * time) (Iterator nat Envelope) := {
  ut_Save evs state := ticking (λ now, sqlite_Save no_faults now suite_registry evs state);
  ut_LoadStream id w := sqlite_LoadStream no_faults suite_registry id w.1;
  ut_LoadStreamFrom id state w := or_panic (sqlite_LoadStreamFrom no_faults suite_registry id state w.1);
  ut_LoadCorrelation id w := sqlite_LoadCorrelation no_faults suite_registry id w.1;
  ut_ReadAll after opts w := sqlite_ReadAll no_faults suite_registry after opts w.1 w.1;
  ut_Head w := sqlite_Head no_faults w.1;
  ut_All := all_of; ut_Next := next_of; ut_Close := Close;
}.

(** The transaction of a [Save] of PostgreSQL, from its begin to its end, with no other between *)
Definition pg_actions (n rows : nat) (op : save_op) : list pg_action :=
  BeginSave op :: LockStream n :: ReadVersion n :: LockAppend n :: replicate rows (InsertRow n) ++ [CommitSave n None].

Definition pg_Save (now : time) (evs : list Envelope) (state : StreamState) (s : pg) : AppendResult * option error * pg :=
  let n := length (pg_txs s) in
  let s := foldl (λ s a, default s (pg_step first_byte id a s)) s
             (pg_actions n (length evs) (mkSaveOp now suite_registry evs state)) in
  match pg_txs s !! n with
  | Some t => match tx_at t with Over res e => (res, e, s) | _ => (failed_append "", Some (New "unfinished"), s) end
  | None => (failed_append "", Some (New "unfinished"), s)
  end.

Definition either {A B C} (f : A → C) (g : B → C) (x : A + B) : C := match x with inl a => f a | inr b => g b end.

#[export] Instance pg_under_test : EventStoreUnderTest (pg * time) pg_iterator := {
  ut_Save evs state := ticking (λ now, pg_Save now evs state);
  ut_LoadStream id w := pg_LoadStream Datatypes.id None None None suite_registry id w.1 w.1;
  ut_LoadStreamFrom id state w := or_panic (pg_LoadStreamFrom Datatypes.id None None None suite_registry id state w.1 w.1);
  ut_LoadCorrelation id w := over_rows (pg_LoadCorrelation Datatypes.id None None suite_registry id w.1);
  ut_ReadAll after opts w := pg_ReadAll Datatypes.id None None suite_registry after opts w.1 w.1;
  ut_Head w := pg_Head None w.1;
  ut_All fuel := either (all_of fuel) (all_of fuel);
  ut_Next := either (λ it, let '(more, it) := next_of it in (more, inl it)) (λ it, let '(more, it) := next_of it in (more, inr it));
  ut_Close := either (λ it, let '(e, it) := Close it in (e, inl it)) (λ it, let '(e, it) := Close it in (e, inr it));
}.

Section runs.
Context {W It : Type} `{ES : EventStoreUnderTest W It, U : UUIDString}.

(** The three suites, one after the other, with that many concurrent writers and saves of each *)
Definition contract (fuel writers savesPerWriter : nat) (schedule : list (list nat)) : test W () :=
  AcceptanceTest fuel (seq 0 8) ;; GlobalReaderAcceptanceTest fuel writers savesPerWriter schedule ;;
  CorrelationLoaderAcceptanceTest fuel.

Definition contract_failures (writers savesPerWriter : nat) (schedule : list (list nat)) (w : W) :
    list (list string * string) :=
  failures (contract 100 writers savesPerWriter schedule) 100 (today 5) w.

Definition contract_failures_twice (writers savesPerWriter : nat) (schedule : list (list nat)) (w : W) :
    list (list string * string) :=
  failures (contract 100 writers savesPerWriter schedule ;; contract 100 writers savesPerWriter schedule) 100 (today 5) w.
End runs.

(** Every writer saves before each page; one writer after the other; the
    reader is at the end before the first save. *)
Definition schedules : list (list (list nat)) :=
  [[]; replicate 4 [0%nat] ++ replicate 4 [1%nat] ++ replicate 4 [2%nat]; replicate 5 [] ++ [[0; 0; 1]; [2; 1; 2; 2]]%nat].

(** The in-memory, the SQLite and the PostgreSQL event store pass the suites with
    which the repository checks a store, every test of them: appends with
    every expectation, loads, the paged and filtered reads of the global log
    while other writers save, and the events of a correlation ID; the
    in-memory store under several interleavings, and each store also when it
    holds the events of an earlier run. *)
Theorem event_stores_pass_their_contract :
  contract_failures 12 15 [] (NewEventStore, today 1) = [] ∧
  Forall (λ schedule, contract_failures_twice 3 4 schedule (NewEventStore, today 1) = []) schedules ∧
  contract_failures_twice 3 3 [] (empty_sqlite, today 1) = [] ∧
  contract_failures_twice 3 3 [] (empty_pg, today 1) = [].
Proof.
  split; [vm_compute; reflexivity|]. split; [|by split; vm_compute].
  repeat (apply Forall_cons_2; [vm_compute; reflexivity|]). apply Forall_nil_2.
Qed.

(** * The projection stores pass their contract suite

    [ProjectionSuite] run on the in-memory, the SQLite and the PostgreSQL
    projection store, empty and then holding the projections of an earlier
    run.  A store stands beside its clock, in milliseconds, and microseconds
    for PostgreSQL; the read model of a unit of work counts the runs of its
    function. *)
From S2P Require Import Prelude Core Context MemWorld SuiteTest ProjectionSuite ProjStore Effect SqlTx SqlValues SqlProjection MemProjStore SqliteProjStore PgProjStore ProjSim.

(** A unit of work on a read model that counts from 0 *)
Definition counted {S R} (f : S * Z → R * (S * Z)) (s : S) : R * Z * S := let '(r, (s, n)) := f (s, 0) in (r, n, s).
Definition count {W} (d : W * Z) : W * Z := (d.1, d.2 + 1).

(** ** In memory *)
Definition memory_body (l : Lease) (b : body) : unit_fn (M := Z) := λ sm,
  match memory_edits l (b_edits b) sm with
  | (Some e, sm) => (Some e, count sm)
  | (None, sm) => (b_err b, count sm)
  end.

#[export] Instance memory_projections : ProjectionStoreUnderTest (ProjectionStore * Z) := {
  pt_Declare name n ru := at_clock (λ _, Declare_ name n ru);
  pt_Claim l ttl := at_clock (λ now s, sure (Claim (ms_time now) l ttl s));
  pt_Commit l cp st b := at_clock (λ now, counted (Commit (ms_time now) l cp st (memory_body l b)));
  pt_Reset l v b := at_clock (λ now, counted (Reset (ms_time now) l v (memory_body l b)));
  pt_Release l := at_clock (λ _ s, (None, Release l s));
  pt_SaveStatus l st := at_clock (λ now, SaveStatus (ms_time now) l st);
  pt_LoadStatuses name := at_clock (λ now s, (Ok (LoadStatuses (ms_time now) name s), s));
  pt_Heartbeat name who v ttl := at_clock (λ now s, sure (Heartbeat (ms_time now) name who v ttl s));
  pt_LoadInstances name := at_clock (λ now s, (Ok (LoadInstances (ms_time now) name s), s));
  pt_RequestRebuild name := at_clock (λ _, RequestRebuild name);
  pt_Rebuilds name := at_clock (λ _ s, (Ok (Rebuilds name s), s));
  pt_FailRebuild l n msg := at_clock (λ _, FailRebuild l n msg);
  pt_RebuildFailure name := at_clock (λ _ s, (Ok (RebuildFailure name s), s));
  pt_LoadDeadLetters name seg := at_clock (λ _ s, (Ok (LoadDeadLetters name seg s), s));
  pt_RequestReplay name stream := at_clock (λ _, RequestReplay name stream);
  pt_PendingReplays name := at_clock (λ _ s, (Ok (PendingReplays name s), s));
  pt_FinishReplay l n msg := at_clock (λ _, FinishReplay l n msg);
  pt_ReplayResult name n := at_clock (λ _ s, (Ok (ReplayResult name n s), s));
  pt_Sleep d w := (w.1, w.2 + Milliseconds d);
}.

(** ** The databases *)
(** A call on the tables alone *)
Definition on_tables {R} (f : proj_tables * () → R * (proj_tables * ())) (t : proj_tables) : R * proj_tables :=
  let '(r, (t, _)) := f (t, ()) in (r, t).

Definition ends (b : body) : Tx (proj_tables * Z) () :=
  match b_err b with Some e => fail e | None => change_world count end.

Definition unit_answer {S} (x : result error () * Z * S) : option error * Z * S := (failed_with x.1.1, x.1.2, x.2).

Definition sqlite_body (env : db_env) (l : Lease) (b : body) : Tx (proj_tables * Z) () := sqlite_edits env l (b_edits b) ;; ends b.

#[export] Instance sqlite_projections : ProjectionStoreUnderTest (proj_tables * Z) := {
  pt_Declare name n ru := at_clock (λ now t, drop_value (on_tables (sqlite_Declare (instant now) name n ru) t));
  pt_Claim l ttl := at_clock (λ now, on_tables (sqlite_Claim (instant now) l ttl));
  pt_Commit l cp st b := at_clock (λ now t,
    unit_answer (counted (sqlite_Commit (instant now) l cp st (sqlite_body (instant now) l b)) t));
  pt_Reset l v b := at_clock (λ now t,
    unit_answer (counted (sqlite_Reset (instant now) l v (sqlite_body (instant now) l b)) t));
  pt_Release l := at_clock (λ now t, drop_value (on_tables (sqlite_Release (instant now) l) t));
  pt_SaveStatus l st := at_clock (λ now t, drop_value (on_tables (sqlite_SaveStatus (instant now) l st) t));
  pt_LoadStatuses name := at_clock (λ now, on_tables (sqlite_LoadStatuses (instant now) name));
  pt_Heartbeat name who v ttl := at_clock (λ now, on_tables (sqlite_Heartbeat (instant now) name who v ttl));
  pt_LoadInstances name := at_clock (λ now, on_tables (sqlite_LoadInstances (instant now) name));
  pt_RequestRebuild name := at_clock (λ now, on_tables (sqlite_RequestRebuild (instant now) name));
  pt_Rebuilds name := at_clock (λ now, on_tables (sqlite_Rebuilds (instant now) name));
  pt_FailRebuild l n msg := at_clock (λ now t, drop_value (on_tables (sqlite_FailRebuild (instant now) l n msg) t));
  pt_RebuildFailure name := at_clock (λ now, on_tables (sqlite_RebuildFailure (instant now) name));
  pt_LoadDeadLetters name seg := at_clock (λ now, on_tables (sqlite_LoadDeadLetters (instant now) name seg));
  pt_RequestReplay name stream := at_clock (λ now, on_tables (sqlite_RequestReplay (instant now) name stream));
  pt_PendingReplays name := at_clock (λ now, on_tables (sqlite_PendingReplays (instant now) name));
  pt_FinishReplay l n msg := at_clock (λ now t, drop_value (on_tables (sqlite_FinishReplay (instant now) l n msg) t));
  pt_ReplayResult name n := at_clock (λ now, on_tables (sqlite_ReplayResult (instant now) name n));
  pt_Sleep d w := (w.1, w.2 + Milliseconds d);
}.

(** PostgreSQL: ages exact, owners in the order of their bytes *)
Definition whole_micros (n : Z) : duration := n * 1000.

Fixpoint pg_edits (env : db_env) (l : Lease) (es : list edit) : Tx (proj_tables * Z) () :=
  match es with
  | [] => mret ()
  | ESave d :: es => pg_SaveDeadLetter env true l d ;; pg_edits env l es
  | EDelete pos :: es => pg_DeleteDeadLetter env true l pos ;; pg_edits env l es
  end.
Definition pg_body (env : db_env) (l : Lease) (b : body) : Tx (proj_tables * Z) () := pg_edits env l (b_edits b) ;; ends b.

Record pg_projections : Type := mkPgProjections { pp_tables : proj_tables }.
Definition on_pg {R} (f : proj_tables → R * proj_tables) (s : pg_projections) : R * pg_projections :=
  let '(r, t) := f (pp_tables s) in (r, mkPgProjections t).

#[export] Instance postgres_projections : ProjectionStoreUnderTest (pg_projections * Z) := {
  pt_Declare name n ru := at_clock (λ now, on_pg (λ t,
    drop_value (on_tables (autocommit (pg_Declare (instant now) name n ru)) t)));
  pt_Claim l ttl := at_clock (λ now, on_pg (on_tables (pg_Claim (instant now) l ttl)));
  pt_Commit l cp st b := at_clock (λ now, on_pg (λ t,
    unit_answer (counted (pg_Commit (instant now) l cp st (pg_body (instant now) l b)) t)));
  pt_Reset l v b := at_clock (λ now, on_pg (λ t,
    unit_answer (counted (pg_Reset (instant now) l v (pg_body (instant now) l b)) t)));
  pt_Release l := at_clock (λ now, on_pg (λ t, drop_value (on_tables (pg_Release (instant now) l) t)));
  pt_SaveStatus l st := at_clock (λ now, on_pg (λ t, drop_value (on_tables (pg_SaveStatus (instant now) l st) t)));
  pt_LoadStatuses name := at_clock (λ now, on_pg (on_tables (pg_LoadStatuses whole_micros (instant now) name)));
  pt_Heartbeat name who v ttl := at_clock (λ now, on_pg (on_tables (pg_Heartbeat whole_micros string_less (instant now) name who v ttl)));
  pt_LoadInstances name := at_clock (λ now, on_pg (on_tables (pg_LoadInstances whole_micros string_less (instant now) name)));
  pt_RequestRebuild name := at_clock (λ now, on_pg (on_tables (pg_RequestRebuild (instant now) name)));
  pt_Rebuilds name := at_clock (λ now, on_pg (on_tables (pg_Rebuilds (instant now) name)));
  pt_FailRebuild l n msg := at_clock (λ now, on_pg (λ t, drop_value (on_tables (pg_FailRebuild (instant now) l n msg) t)));
  pt_RebuildFailure name := at_clock (λ now, on_pg (on_tables (pg_RebuildFailure (instant now) name)));
  pt_LoadDeadLetters name seg := at_clock (λ now, on_pg (on_tables (pg_LoadDeadLetters (instant now) name seg)));
  pt_RequestReplay name stream := at_clock (λ now, on_pg (on_tables (pg_RequestReplay (instant now) name stream)));
  pt_PendingReplays name := at_clock (λ now, on_pg (on_tables (pg_PendingReplays (instant now) name)));
  pt_FinishReplay l n msg := at_clock (λ now, on_pg (λ t, drop_value (on_tables (pg_FinishReplay (instant now) l n msg) t)));
  pt_ReplayResult name n := at_clock (λ now, on_pg (on_tables (pg_ReplayResult (instant now) name n)));
  pt_Sleep d w := (w.1, w.2 + 1000 * Milliseconds d);
}.

(** The failures of a run, and of two of which the second finds what the first left *)
Definition projection_failures `{ProjectionStoreUnderTest W} (w : W) : list (list string * string) :=
  failures StoreAcceptanceTest 0 0 (w, ∅).
Definition projection_failures_twice `{ProjectionStoreUnderTest W} (w : W) : list (list string * string) :=
  failures (StoreAcceptanceTest ;; StoreAcceptanceTest) 0 0 (w, ∅).

(** The in-memory, the SQLite and the PostgreSQL projection store pass the suite
    with which the repository checks a store: declaring, claims and their
    expiry, fenced commits and resets, releases, statuses, rebuild requests,
    heartbeats and instances, dead letters and replays; only the test with two
    overlapping calls is left out. *)
Theorem projection_stores_pass_their_contract :
  projection_failures_twice (NewProjectionStore, 1000) = [] ∧
  projection_failures (empty_tables, 1000) = [] ∧
  projection_failures (mkPgProjections empty_tables, 1000) = [].
Proof. split_and!; vm_compute; reflexivity. Qed.

(** * The automation stores, and a todo list, pass their contract suites

    [AutomationSuite] run on the in-memory, the SQLite and the PostgreSQL
    automation store and on the todo list of the examples.  A store stands
    beside its clock, in milliseconds, and microseconds for PostgreSQL. *)
From S2P Require Import Prelude Core Context MemWorld SuiteTest AutoTypes Effect SqlTx SqlValues SqlAutomation AutoStore SqliteAutoStore PgAutoStore TodoList AutomationSuite.

#[export] Instance memory_automations : AutomationStoreUnderTest (AutomationStore * Z) := {
  ut_Acquire name owner cands n ttl := at_clock (λ now s, sure (Acquire (ms_time now) name owner cands n ttl s));
  ut_Renew held ttl := at_clock (λ now s, sure (Renew (ms_time now) held ttl s));
  ut_Release rel := at_clock (λ now s, sure (Release (ms_time now) rel s));
  ut_Defer name key d := at_clock (λ now s, (None, Defer (ms_time now) name key d s));
  ut_DeferredFor name key := at_clock (λ now s, (Ok (DeferredFor (ms_time now) name key s), s));
  ut_SetPaused name p := at_clock (λ _ s, (None, SetPaused name p s));
  ut_Paused name := at_clock (λ _ s, (Ok (Paused_ name s), s));
  ut_SaveStatus name st ttl := at_clock (λ now s, (None, SaveStatus (ms_time now) name st ttl s));
  ut_LoadStatuses name := at_clock (λ now s, (Ok (LoadStatuses (ms_time now) name s), s));
  ut_LoadSegments name := at_clock (λ now s, (Ok (LoadSegments (ms_time now) name s), s));
  au_Sleep d w := (w.1, w.2 + Milliseconds d);
}.

(** JSON keeps the keys of the suite as they are. *)
#[export] Instance sqlite_automations : AutomationStoreUnderTest (auto_tables Z * Z) := {
  ut_Acquire name owner cands n ttl := at_clock (λ now, sqlite_Acquire (instant now) id name owner cands n ttl);
  ut_Renew held ttl := at_clock (λ now, sqlite_Renew (instant now) held ttl);
  ut_Release rel := at_clock (λ now, sqlite_auto_Release (instant now) rel);
  ut_Defer name key d := at_clock (λ now t, drop_value (sqlite_Defer (instant now) name key d t));
  ut_DeferredFor name key := at_clock (λ now, sqlite_DeferredFor (instant now) name key);
  ut_SetPaused name p := at_clock (λ now t, drop_value (sqlite_SetPaused (instant now) name p t));
  ut_Paused name := at_clock (λ now, sqlite_Paused (instant now) name);
  ut_SaveStatus name st ttl := at_clock (λ now t, drop_value (sqlite_auto_SaveStatus (instant now) name st ttl t));
  ut_LoadStatuses name := at_clock (λ now, sqlite_auto_LoadStatuses (instant now) name);
  ut_LoadSegments name := at_clock (λ now, sqlite_LoadSegments (instant now) name);
  au_Sleep d w := (w.1, w.2 + Milliseconds d);
}.

#[export] Instance postgres_automations : AutomationStoreUnderTest (auto_tables (option Z) * Z) := {
  ut_Acquire name owner cands n ttl := at_clock (λ now, pg_Acquire (instant now) name owner cands n ttl);
  ut_Renew held ttl := at_clock (λ now, pg_Renew (instant now) held ttl);
  ut_Release rel := at_clock (λ now, pg_auto_Release (instant now) rel);
  ut_Defer name key d := at_clock (λ now t, drop_value (pg_Defer (instant now) name key d t));
  ut_DeferredFor name key := at_clock (λ now, pg_DeferredFor (instant now) name key);
  ut_SetPaused name p := at_clock (λ now t, drop_value (pg_SetPaused (instant now) name p t));
  ut_Paused name := at_clock (λ now, pg_Paused (instant now) name);
  ut_SaveStatus name st ttl := at_clock (λ now t, drop_value (pg_auto_SaveStatus (instant now) name st ttl t));
  ut_LoadStatuses name := at_clock (λ now, pg_auto_LoadStatuses (instant now) name);
  ut_LoadSegments name := at_clock (λ now, pg_LoadSegments (instant now) name);
  au_Sleep d w := (w.1, w.2 + 1000 * Milliseconds d);
}.

(** The todo list of the examples, whose tasks are due when they are completed *)
#[export] Instance tasks_to_archive : TodoListUnderTest (TasksToArchive (K := string) * time) := {
  tl_new w := (NewTasksToArchive 0, w.2);
  tl_Add task w := (None, (onCompleted task w.2 w.1, w.2));
  tl_Complete task w := (None, (onArchived task w.1, w.2));
  tl_Claim req w := match ClaimTasks id w.2 req w.1 with
                    | Returns (ids, l) => (Ok ids, (l, w.2))
                    | Panics msg => (Fail (New msg), w)
                    end;
  tl_Sleep d w := (w.1, w.2 + d);
}.

(** The orders of the concurrent calls: in turns, and one after the other.
    For the databases the calls after the last key is granted are left out. *)
Definition in_turns (callers calls : nat) : list nat := concat (replicate calls (seq 0 callers)).
Definition one_after_other (callers calls : nat) : list nat := concat ((λ i, replicate calls i) <$> seq 0 callers).

Definition automation_failures `{AutomationStoreUnderTest W} (order : list nat) (w : W) : list (list string * string) :=
  failures (StoreAcceptanceTest order) 0 0 w.

Definition claim_failures (order : list nat) : list (list string * string) :=
  failures (ClaimAcceptanceTest order) 0 0 (NewTasksToArchive (K := string) 0, 1000).

(** The in-memory, the SQLite and the PostgreSQL automation store pass the suite
    with which the repository checks a store (grants, fencing, expiry, pauses,
    fairness, published statuses), and the todo list of the examples passes
    the suite of claims, also when claims and grants come from many callers at
    once. *)
Theorem automations_pass_their_contract :
  Forall (λ order, automation_failures order (NewAutomationStore, 1000) = []) [in_turns 8 3; one_after_other 8 3] ∧
  automation_failures (in_turns 5 2) (mkAutoTables (I := Z) ∅ ∅ ∅, 1000) = [] ∧
  automation_failures (in_turns 5 2) (mkAutoTables (I := option Z) ∅ ∅ ∅, 1000) = [] ∧
  Forall (λ order, claim_failures order = []) [in_turns 8 15; one_after_other 8 15].
Proof.
  split; [|split; [|split]]; [| vm_compute; reflexivity | vm_compute; reflexivity |];
    repeat (apply Forall_cons_2; [vm_compute; reflexivity|]); apply Forall_nil_2.
Qed.
